(* ===== verification/_CoqProject ===== *)
-Q . S2P
Prelude.v
Errors.v
LossTolerant.v
Sparse.v
Fragmentation.v
Limits.v
Flags.v
Cursor.v
Format.v
Lfh.v
FecTypes.v
Tlv.v
CentralDir.v
SparseMap.v
Gf.v
GfMatrix.v
FecBlocks.v
XorFec.v
RsFec.v
FecRegistry.v
Repair.v
Utf8.v
StreamProtocol.v
Session.v
Transcript.v
FastCdc.v
CdcMap.v
Patch.v
Bsdiff.v
Vcdiff.v
Reads.v
Crypto.v
Kms.v
Transform.v
Metadata.v
EntryDecode.v
StreamParser.v
ArchiveReader.v
ArchiveWriter.v
ArchiveRoundTrip.v
WriteRead.v
Transport.v
TransportSafety.v
TransportTheorems.v
FileSystem.v
Extract.v
ExtractSafety.v
ExtractTheorems.v
Create.v
CreateSafety.v
CreateTheorems.v
CreateRoundTrip.v
Args.v
