(* ===== verification/Prelude.v ===== *)
(** * Verification of SAR, the streamable archive format

    SAR ([crates/] of this repository) is an archive container: a Global Header,
    Local File Headers with their payloads, a Central Dictionary and a Footer, plus
    per-entry features (sparse files, fragmentation, forward error correction),
    archive-level repair, content-defined chunking, delta patches, compression and
    encryption of payloads, and a streaming mode in which entries belong to sessions.
    This library models the container codecs, the reconstruction algorithms, the two
    error-correcting codes, the repair of a damaged archive, the chunker, the patch
    formats, the payload transforms and key management, the decoding of entries, the
    archive writer, the seekable reader, the streaming parser, the session manager, the
    transport binding that multiplexes sessions over a connection, and the command line with
    its commands that make an archive of a directory and extract it, and proves them correct.

    ** Files and the code they model

    - [Prelude]: results with a panic outcome, machine-width checked and unchecked
      arithmetic, bytes, slices, little-endian integers, [sort_by_key],
      [dedup_by_key], and the tactics and hint databases of the development.
    - [Errors]: [sar-core/src/error.rs] (status registry, [SarError]) and the error
      enums of [sar-fec], [sar-fragmentation], [sar-sparse] and [sar-crypto] with
      their conversions.
    - [Limits]: [sar-core/src/limits.rs], every check of [ResourceLimits].
    - [Flags]: [sar-core/src/flags.rs].  The operations of the [bitflags] crate are
      the class [Bitflags]; its documented laws are [BitflagsLaws], and [bitwise] is
      an instance that satisfies them.
    - [Cursor]: [sar-core/src/io.rs], [ParseCursor] as a parser monad and
      [BinaryWriter] as appending functions; the class [Codec] says that a parser
      and an encoding are inverse to each other and that the parser never panics.
    - [Format], [Lfh], [CentralDir]: [sar-core/src/format.rs] (Global Header and
      Footer; Local File Header and its AEAD additional data; Central Dictionary).
    - [Tlv]: [sar-core/src/tlv.rs], the metadata blocks.
    - [SparseMap]: [sar-core/src/sparse.rs], the encoding of sparse maps.
    - [Sparse]: [sar-sparse/src/lib.rs], validation and reconstruction.
    - [LossTolerant], [Fragmentation]: [sar-loss-tolerant/src/lib.rs] and
      [sar-fragmentation/src/lib.rs], reassembly of fragmented files.
    - [Gf], [GfMatrix]: [sar-fec/src/rs/gf.rs] and [matrix.rs], arithmetic in
      GF(2^8) and Gauss-Jordan inversion.
    - [FecTypes], [FecBlocks], [XorFec], [RsFec], [FecRegistry]:
      [sar-fec/src/types.rs], [xor.rs], [rs/mod.rs], [registry.rs] and
      [sar-core/src/fec.rs].  The trait [FecCodec] is a class; [FecLaws] is the
      contract a codec promises, and both codecs discharge it.
    - [Repair]: [sar-archive/src/recovery.rs], archive-level inspection, planning
      and repair.  It calls the format parsers, the registry and, through
      [FecLaws], the codecs.
    - [Utf8]: the acceptance of UTF-8 by [core::str::from_utf8].
    - [StreamProtocol]: [sar-stream/src/protocol.rs], operation codes, flag sets and
      session-control frames; the class [FrameLaws] is what each frame promises.
    - [Session]: [sar-stream/src/session.rs], the session manager: its handlers in a
      state-and-error monad, the relation [outcome] of what processing an entry can
      do, the abstract table of open streams it implements ([table_step]), and its
      reachable states ([manager_step]).
    - [Transcript]: [sar-stream/src/transcript.rs], the validation of a recorded
      stream, a client of the header parsers and of the manager.
    - [FastCdc]: [sar-cdc/src/fastcdc.rs], [types.rs] and [validate.rs], the gear
      table, the cut rule and the chunk loop; SHA-256 is a parameter.
    - [CdcMap]: [sar-cdc/src/map.rs], [algo.rs] and [sar-core/src/cdc.rs], the
      encoding of chunk maps and their metadata blocks; the hash is a parameter.
    - [Patch], [Bsdiff], [Vcdiff]: [sar-delta/src/algo.rs], [bsdiff.rs] and
      [vcdiff.rs].  The decoders of [Vcdiff] take a parameter that says whether the
      build checks integer overflow, since their behaviour depends on it.
    - [Reads]: indexed reads of little-endian integers, as in [payload[i]] and
      [u16::from_le_bytes], with their inversion lemmas.
    - [Crypto], [Kms]: [sar-crypto/src/algorithm.rs], [aad.rs], [aead.rs], [hash.rs],
      [provider.rs] and [kms/].  The ciphers, digests and key derivation functions are
      the classes [Ciphers], [Digest] and [Kdfs] with their documented laws; the
      application's [KeyProvider] is a class as in the source.
    - [Transform]: [sar-compression/src/lib.rs] and [sar-archive/src/transform.rs], the
      payload pipelines over the classes [Compressors] and [Ciphers].
    - [Metadata], [EntryDecode]: [sar-core/src/metadata.rs] and the functions of
      [sar-archive/src/archive.rs] and [stream.rs] that decode one entry; each file has its
      own copy of the code, and so has the model.
    - [StreamParser]: [sar-archive/src/stream.rs], the push parser: its record, a pass of
      the loop of [step] as [step_once] (one definition per state), and the caller's
      loop [drive] that feeds chunks and takes events.
    - [ArchiveReader]: [ArchiveReader] of [sar-archive/src/archive.rs]: the header and the
      index, [next_entry], [verify], [audit] and [read_all_logical_files] as functions on a
      record over the bytes of the archive; the loops over the entries are [entries_loop]
      and [audit_loop].
    - [ArchiveWriter]: [ArchiveWriter] of the same file, in a state-and-error monad: the
      constructors, [add_entry], [write_sparse_entry] and [finish]; the sink is the list of
      the bytes written, the source of random nonces a parameter.
    - [ArchiveRoundTrip], [WriteRead]: the composition of the two.  The first shows what the
      writer's methods append (the invariant [writing]: the output is a header followed by
      entries that can be decoded), the second opens, reads and verifies the result.
    - [Transport]: [sar-transport/src/lib.rs], the in-memory binding: the contexts of the
      transport streams, each with a streaming parser and a session manager, the tables of
      bound sessions, the operations of the trait [SarTransportBinding] in a monad over the
      connection and the list of actions, and the test harness.
    - [TransportSafety], [TransportTheorems]: the invariant of a connection with the rules
      ([runs]) by which every operation preserves it; the operations as a transition system
      and the theorems on the connections it reaches.
    - [FileSystem]: what the command line uses of [std::path] and [std::fs]: paths, a tree of
      directories, files and symbolic links, the resolution of a path, and the system calls in
      a state-and-error monad; the class [Host] decides which calls fail.
    - [Extract]: [sar-cli/src/commands/extract.rs], [extraction/paths.rs], [staging.rs],
      [metadata.rs], [policy.rs] and [password.rs], the command [extract]: a client of the
      seekable reader and of the file system.  The crates [rustix], [filetime] and [crc32fast]
      are the classes [OwnerAndTimes] and [Crc32] with their documented laws.
    - [ExtractSafety], [ExtractTheorems]: a program logic for the monad ([spec]: what a
      computation keeps below and outside a directory), its rules for the system calls, and
      the theorems on the command.
    - [Create]: [sar-cli/src/commands/create.rs], the command [create]: the traversal of the
      input with its policies for links, and the archive writer over the output file.  The
      order of a directory and what a [stat] adds to the tree are the class [Directories].
    - [CreateSafety], [CreateTheorems], [CreateRoundTrip]: a program logic for computations
      that change nothing but the output file ([runs]: what has been written, and the entries
      it stands for), its rules for the writer and the system calls; the traversal; the
      theorems on the command and the round trip with [extract].
    - [Args]: [sar-cli/src/args.rs] and [main.rs]: the shorthand forms, the settings and the
      command an invocation calls; the parser of the crate [clap] is a parameter.

    ** How the code is modelled

    A function returning [Result<A, E>] is a Rocq function into [result E A], whose
    third outcome [Panic] stands for an out-of-range index or slice, and for an
    overflow or a division by zero of an unchecked operation in a build with
    overflow checks.  Integers are [Z] with their width written where the code
    checks or converts it; [usize] has 64 bits.  Indices that are provably within a
    buffer of known size (inside the codecs' loops) are [nat].  Byte strings are
    [list byte], records and enums keep the names of the source.  A loop is a
    structural recursion over the data or the index range it walks, so every
    function is total.  A few loops are not structural: those over the metadata
    blocks of [parse_tlvs], the entries of a transcript, the chunks of [chunk_data],
    and the windows, instructions and variable-length integers of [apply_vcdiff].
    The loop of the streaming parser's [step] has four passes, the longest chain of
    states between two returns ([step_loop_enough]); [drive] takes at most as many
    events as [weight] allows, a measure of the input and the state that every event
    lowers ([stream_ends]).  The loops of the seekable reader have one unit of fuel per
    byte between the cursor and the end of the data area, and one more ([entries_fuel]);
    every entry takes at least ten bytes, and [reader_returns] shows that they end.
    The loop over the bytes of a transport stream has the [weight] of its parser as fuel, the
    one over an additional control stream the number of its pending bytes
    ([transport_returns]).  Extraction loops over the entries with the fuel of the reader,
    [hash_zero_bytes] takes one round more than there are full chunks, [create_dir_all] one
    per component, and resolving a path follows forty links, the limit of the kernel
    ([extract_confined] shows that the command returns).  The traversal of [create] spends a
    unit of fuel per call of [traverse_input_path]: a path to a node is no longer than the depth
    of the tree, and between two links that are followed at most so many directories are
    entered, each link leading to a directory that is not being walked yet, so that
    [traversal_fuel], the product of the number of nodes and the depth, is enough
    ([create_returns]).  The others have one unit of fuel per remaining input byte
    and one more; running out of
    it is [Panic], and [parsers_never_panic], [transcript_valid_spec],
    [chunk_data_partition] and [vcdiff_release_total] show that it never happens,
    since every round takes at least one byte.  [&mut self] is a
    state passed through success and failure alike.  A [&'static str] of an error is
    a [string], a [String] its UTF-8 bytes.  Large functions are split into the
    parts that follow each other in the source.

    ** What the theorems show

    - Containers: writing a header, a metadata section, a dictionary or a sparse map
      and parsing the bytes gives it back, whatever follows; parsing is canonical
      (what parses is written back to the same bytes); predicted sizes are exact;
      the AEAD additional data leaves out exactly the error-correction fields; no
      input makes a parser panic ([lfh_write_parse], [lfh_parse_write],
      [central_dictionary_write_parse], [tlvs_parse_write], [parsers_never_panic],
      and their siblings).
    - Flags, limits, statuses: the checks accept exactly the documented
      combinations ([validate_global_flags_spec], [validate_entry_mode_spec],
      [allocation_len_spec], [status_code_roundtrip], [error_status_fatal]).
    - Reconstruction: sparse and fragmented files are rebuilt byte for byte, in any
      order of arrival, and fail closed without [LOSS_TOLERANT]
      ([sparse_reconstruction_bytes], [fragment_roundtrip],
      [reconstruct_fails_closed]).
    - Error correction: the table-driven operations are those of GF(2^8), inversion
      succeeds exactly on the matrices with trivial kernel, and both codecs return
      the protected bytes for every erasure pattern within their budget and refuse
      the others ([gf_field], [invert_spec], [xor_recovers], [rs_recovers]).
    - Repair: a planned repair of a damaged archive restores the original protected
      bytes, and neither planning nor executing a plan panics
      ([repair_archive_restores], [plan_archive_repair_spec]).
    - Streaming: the frames are inverse pairs of parsers and serializers
      ([session_frames_inverse]); every reachable manager is sound and within its
      limits, by induction on the steps that reach it ([session_manager_invariant]);
      processing an entry implements the table of open streams, never panics, and a
      rejected entry changes at most the sequence number and tick of its own session
      ([process_entry_refines]); validation accepts exactly the transcripts a fresh
      manager accepts, and in these the sequence numbers of every stream are
      consecutive ([transcript_valid_spec], [transcript_sequences]).
    - Chunking: the chunks are those of the cut rule, stated in terms of the gear hash,
      within the size bounds, and concatenate to the data; a boundary depends only on the
      data after the previous one, so
      that chunking resynchronises after an edit ([chunk_data_partition],
      [chunk_data_resync]); a chunk map is parsed from exactly the bytes the writer
      produces ([cdc_map_inverse]).
    - Patches: the decoders compute the meaning of a patch, stated as an abstract
      semantics of its triples or windows (with the instruction table of the code, and no copy
      that runs into its own output), and the generators are inverted by them
      ([bsdiff_apply_spec], [bsdiff_roundtrip], [vcdiff_apply_spec],
      [vcdiff_roundtrip]); a release build of the VCDIFF decoder returns on every
      input ([vcdiff_release_total]), though it accepts a patch whose copy address
      wraps around ([vcdiff_wild_copy_accepted]).
    - Payloads and keys: decoding inverts encoding for every compressor and cipher that
      obey their laws, and decoding untrusted bytes neither panics nor exceeds its
      limits, authentication first ([payload_roundtrip], [payload_decoding_safe]); KMS
      payloads are accepted exactly within the documented bounds
      ([kms_payload_inverse]), and exporter contexts separate their keys
      ([exporter_context_separates]).
    - Entries: the two readers, each with its own copy of the code, decode alike
      ([readers_agree]), within the limits
      ([decoded_entry_size]).
    - Streams: the events do not depend on how the input is cut into chunks, by a
      simulation between a parser and the same parser with more input
      ([chunking_irrelevant]); every run ends ([stream_ends]); a chunk that ends inside a
      KMS prefix is the exception to the first ([encrypted_header_step]).
    - Archives: what is written is read back, entry by entry with payload and metadata, by
      every reader whose limits admit it, for any compression, encryption, error correction
      and index; directories need an archive that is neither compressed nor encrypted, and
      deltas, archive-level recovery and metadata of the index are left out
      ([archive_roundtrip]); the checksums of the files are verified
      ([logical_files_roundtrip]); on arbitrary bytes the reader keeps its invariant, returns
      without a panic, and the data area of what [verify] accepts is nothing but entries that
      parse and decode, one behind the other, which the index lists
      ([reader_invariant], [reader_returns], [verify_sound]); the length reserved for an
      error-correction value is exact ([fec_value_len_exact]).
    - Connections: whatever arrives, the tables of a connection agree with each other and
      stay within their limits ([transport_invariant]) and every operation returns
      ([transport_returns]); the transport streams do not disturb each other
      ([streams_isolated]), a TCP connection has one ([tcp_single_stream]); the actions are
      bounded ([actions_within_limits]) and determine the tables ([harness_replay]); control
      entries of a TLS-exporter session are authenticated ([control_stream_authenticated]).
      Three examples show what these leave open ([rejected_stream_ends_session],
      [control_entry_dropped], [first_session_stays_bound]).
    - Extraction: whatever an archive holds and whichever system calls fail, the command
      changes nothing outside the output directory and returns ([extract_confined]); when it
      succeeds, the files hold the payloads of their entries ([extract_writes]); a file is
      replaced as a whole or not at all ([file_replaced_atomically]); the accepted names are
      exactly the relative ones ([archive_names_spec]); the checksum of a sparse file that is
      never built is that of its bytes ([sparse_crc_exact]).
    - Creation: the command returns whatever links it meets and changes nothing but the output
      file ([create_returns]); the archive of a directory with portable names has the
      directory's files, each once ([create_archives]); and extracting it, on this or another
      system, gives the files back, when it is neither compressed nor encrypted or has no
      subdirectories ([create_extract_roundtrip]).  The parts of a shorthand form are parsed in
      whatever order they are written, as long as the input comes before the output
      ([shorthand_parse_print]).  Two examples show the limits: an output file that is the input
      ([input_overwritten]) and a line in another order ([output_taken_as_input]).

    ** Not modelled

    Of [sar-archive], [conformance.rs] drives the modelled readers over files of test vectors
    and [profile.rs] is a table of names.  The round trip covers archives without metadata blocks in the index, without archive-level
    recovery (see [Repair] for that) and entries without delta and sparse maps.  Failures of
    the underlying reader other than a short read are not modelled, those of the writer only
    under [create].  The recording of a
    transcript to a file is file-system output.  The compressors, ciphers, digests and
    key derivation functions are third-party crates and parameters here.  Of the
    transport, [tcp.rs] and [quic/] move bytes between the binding and sockets of
    third-party runtimes; the commands [list], [inspect], [verify] and [repair] open files and
    print around the modelled library.  In the file system, hard links, the times the system keeps by itself, changes by
    other processes and platforms other than Unix are not modelled.  Text formatting and
    serde serialization are not modelled. *)

From Stdlib Require Export ZArith Lia Bool.
From Stdlib Require Export Strings.Byte.
From stdpp Require Export base option list numbers strings sets sorting.

#[global] Open Scope Z_scope.

(** ** Rust results

    [Result<A, E>] with a third outcome: [Panic] is what an out-of-range slice
    or index expression does.  A theorem that an operation returns [Ok] or
    [Err] is therefore also a theorem that it does not panic. *)
Inductive result (E A : Type) : Type :=
  | Ok (a : A)
  | Err (e : E)
  | Panic.
Arguments Ok {E A} _.
Arguments Err {E A} _.
Arguments Panic {E A}.

#[export] Instance result_ret {E} : MRet (result E) := fun A a => Ok a.
#[export] Instance result_bind {E} : MBind (result E) := fun A B f m =>
  match m with Ok a => f a | Err e => Err e | Panic => Panic end.
#[export] Instance result_fmap {E} : FMap (result E) := fun A B f m =>
  match m with Ok a => Ok (f a) | Err e => Err e | Panic => Panic end.

(** [Option::ok_or] and [Result::map_err]. *)
Definition ok_or {E A} (o : option A) (e : E) : result E A :=
  match o with Some a => Ok a | None => Err e end.
Definition map_err {E F A} (f : E → F) (m : result E A) : result F A :=
  match m with Ok a => Ok a | Err e => Err (f e) | Panic => Panic end.

Definition is_ok {E A} (m : result E A) : bool :=
  match m with Ok _ => true | _ => false end.
Definition no_panic {E A} (m : result E A) : Prop := m ≠ Panic.

Lemma bind_Ok {E A B} (m : result E A) (f : A → result E B) b :
  m ≫= f = Ok b ↔ ∃ a, m = Ok a ∧ f a = Ok b.
Proof. destruct m; cbn; naive_solver. Qed.
Lemma Ok_inj {E A} (a b : A) : @Ok E A a = Ok b → a = b.
Proof. congruence. Qed.
Lemma bind_ret {E A B} (a : A) (f : A → result E B) : Ok a ≫= f = f a.
Proof. done. Qed.
Lemma map_err_Ok {E F A} (f : E → F) (m : result E A) a :
  map_err f m = Ok a ↔ m = Ok a.
Proof. destruct m; cbn; naive_solver. Qed.
Lemma ok_or_Ok {E A} (o : option A) (e : E) a : ok_or o e = Ok a ↔ o = Some a.
Proof. destruct o; cbn; naive_solver. Qed.
(** A guard: [if b { return Err(e) }]. *)
Lemma guard_Ok {E A} (b : bool) (e : E) (m : result E A) a :
  (if b then Err e else m) = Ok a ↔ b = false ∧ m = Ok a.
Proof. destruct b; naive_solver. Qed.
Lemma andb_negb_false (a b : bool) :
  a && negb b = false ↔ (a = true → b = true).
Proof. destruct a, b; cbn; naive_solver. Qed.
Lemma no_panic_bind {E A B} (m : result E A) (f : A → result E B) :
  no_panic m → (∀ a, m = Ok a → no_panic (f a)) → no_panic (m ≫= f).
Proof. unfold no_panic. destruct m; cbn; naive_solver. Qed.
Lemma no_panic_ok_or {E A} (o : option A) (e : E) : no_panic (ok_or o e).
Proof. by destruct o. Qed.
Lemma no_panic_map_err {E F A} (f : E → F) (m : result E A) :
  no_panic m → no_panic (map_err f m).
Proof. by destruct m. Qed.

(** ** Machine integers

    A [w]-bit unsigned integer is a [Z] in [0 .. 2^w); the model is of the
    64-bit targets, so [usize] is [u64] and [isize::MAX] is [2^63 - 1]. *)
Definition fits (w z : Z) : Prop := 0 ≤ z < 2 ^ w.
Definition fitsb (w z : Z) : bool := (0 <=? z) && (z <? 2 ^ w).
Definition checked_add (w a b : Z) : option Z :=
  if a + b <? 2 ^ w then Some (a + b) else None.
Definition checked_mul (w a b : Z) : option Z :=
  if a * b <? 2 ^ w then Some (a * b) else None.
Definition checked_sub (a b : Z) : option Z :=
  if b <=? a then Some (a - b) else None.
(** [uN::try_from]: fails when the value does not fit. *)
Definition try_from (w a : Z) : option Z := if a <? 2 ^ w then Some a else None.
Definition saturating_sub (a b : Z) : Z := Z.max 0 (a - b).
Definition U64_MAX : Z := 2 ^ 64 - 1.
Definition USIZE_MAX : Z := 2 ^ 64 - 1.
Definition ISIZE_MAX : Z := 2 ^ 63 - 1.
Definition U32_MAX : Z := 2 ^ 32 - 1.

Lemma fitsb_fits w z : fitsb w z = true ↔ fits w z.
Proof. unfold fitsb, fits. lia. Qed.
Lemma checked_add_Some w a b c :
  checked_add w a b = Some c ↔ c = a + b ∧ a + b < 2 ^ w.
Proof. unfold checked_add. case_match; naive_solver lia. Qed.
Lemma checked_mul_Some w a b c :
  checked_mul w a b = Some c ↔ c = a * b ∧ a * b < 2 ^ w.
Proof. unfold checked_mul. case_match; naive_solver lia. Qed.
Lemma checked_sub_Some a b c : checked_sub a b = Some c ↔ c = a - b ∧ b ≤ a.
Proof. unfold checked_sub. case_match; naive_solver lia. Qed.
Lemma try_from_Some w a b : try_from w a = Some b ↔ b = a ∧ a < 2 ^ w.
Proof. unfold try_from. case_match; naive_solver lia. Qed.
Lemma checked_add_fits w a b : a + b < 2 ^ w → checked_add w a b = Some (a + b).
Proof. intros. by apply checked_add_Some. Qed.
Lemma checked_mul_fits w a b : a * b < 2 ^ w → checked_mul w a b = Some (a * b).
Proof. intros. by apply checked_mul_Some. Qed.
Lemma checked_sub_fits a b : b ≤ a → checked_sub a b = Some (a - b).
Proof. intros. by apply checked_sub_Some. Qed.
Lemma try_from_fits w a : a < 2 ^ w → try_from w a = Some a.
Proof. intros. by apply try_from_Some. Qed.

Lemma Zge_true a b : b ≤ a → (a >=? b) = true.
Proof. lia. Qed.
Lemma Zge_false a b : a < b → (a >=? b) = false.
Proof. lia. Qed.
Lemma Zgt_true a b : b < a → (a >? b) = true.
Proof. lia. Qed.
Lemma Zgt_false a b : a ≤ b → (a >? b) = false.
Proof. lia. Qed.

(** ** Unchecked arithmetic

    Plain [+], [-], [/] and [%] of unsigned integers: overflow and division by
    zero are the panics of a build with overflow checks. *)
Definition add_r {E} (w a b : Z) : result E Z := if a + b <? 2 ^ w then Ok (a + b) else Panic.
Definition mul_r {E} (w a b : Z) : result E Z := if a * b <? 2 ^ w then Ok (a * b) else Panic.
Definition sub_r {E} (a b : Z) : result E Z := if b <=? a then Ok (a - b) else Panic.
Definition div_r {E} (a b : Z) : result E Z := if b =? 0 then Panic else Ok (a / b).
Definition rem_r {E} (a b : Z) : result E Z := if b =? 0 then Panic else Ok (a mod b).

Lemma add_r_fits {E} w a b : a + b < 2 ^ w → @add_r E w a b = Ok (a + b).
Proof. intros. unfold add_r. by rewrite (proj2 (Z.ltb_lt _ _)). Qed.
Lemma mul_r_fits {E} w a b : a * b < 2 ^ w → @mul_r E w a b = Ok (a * b).
Proof. intros. unfold mul_r. by rewrite (proj2 (Z.ltb_lt _ _)). Qed.
Lemma sub_r_fits {E} a b : b ≤ a → @sub_r E a b = Ok (a - b).
Proof. intros. unfold sub_r. by rewrite (proj2 (Z.leb_le _ _)). Qed.
Lemma div_r_nz {E} a b : b ≠ 0 → @div_r E a b = Ok (a / b).
Proof. intros. unfold div_r. by rewrite (proj2 (Z.eqb_neq _ _)). Qed.
Lemma rem_r_nz {E} a b : b ≠ 0 → @rem_r E a b = Ok (a mod b).
Proof. intros. unfold rem_r. by rewrite (proj2 (Z.eqb_neq _ _)). Qed.

(** ** Bytes *)
Abbreviation byte := Corelib.Init.Byte.byte.
Definition byte_val (b : byte) : Z := Z.of_N (Byte.to_N b).
Definition byte_of (z : Z) : byte :=
  match Byte.of_N (Z.to_N (z mod 256)) with Some b => b | None => x00 end.

#[export] Instance byte_eq_dec : EqDecision byte := Byte.byte_eq_dec.
#[export] Instance byte_inhabited : Inhabited byte := populate x00.

Lemma byte_val_range b : 0 ≤ byte_val b < 256.
Proof. unfold byte_val. pose proof (Byte.to_N_bounded b). lia. Qed.
Lemma byte_val_of z : byte_val (byte_of z) = z mod 256.
Proof.
  unfold byte_val, byte_of.
  pose proof (Z.mod_pos_bound z 256 ltac:(lia)).
  destruct (Byte.of_N (Z.to_N (z mod 256))) eqn:E.
  - apply Byte.to_of_N in E. rewrite E. lia.
  - apply Byte.of_N_None_iff in E. lia.
Qed.
Lemma byte_val_inj a b : byte_val a = byte_val b → a = b.
Proof.
  unfold byte_val. intros H.
  assert (HN : Byte.to_N a = Byte.to_N b) by lia.
  pose proof (Byte.of_to_N a) as Ha. pose proof (Byte.of_to_N b) as Hb.
  rewrite HN in Ha. congruence.
Qed.
Lemma byte_of_val b : byte_of (byte_val b) = b.
Proof.
  apply byte_val_inj. rewrite byte_val_of.
  apply Z.mod_small, byte_val_range.
Qed.
Lemma byte_val_of_small z : 0 ≤ z < 256 → byte_val (byte_of z) = z.
Proof. intros. rewrite byte_val_of. by apply Z.mod_small. Qed.

(** The two halves of a byte with a flag in its top bit. *)
Lemma land_7F b : Z.land (byte_val b) 0x7F = byte_val b mod 128.
Proof. by destruct b. Qed.
Lemma land_80 b : (Z.land (byte_val b) 0x80 =? 0) = (byte_val b <? 128).
Proof. by destruct b. Qed.

(** ** Lists as slices *)
Definition len {A} (l : list A) : Z := Z.of_nat (length l).
(** [&l[a..b]] for indices known to be in range. *)
Definition slice {A} (l : list A) (a b : Z) : list A :=
  take (Z.to_nat (b - a)) (drop (Z.to_nat a) l).
(** [&l[a..b]] as the expression behaves: out of range it panics. *)
Definition slice_r {E A} (l : list A) (a b : Z) : result E (list A) :=
  if (0 <=? a) && (a <=? b) && (b <=? len l) then Ok (slice l a b) else Panic.
(** [l[i]]. *)
Definition index_r {E A} (l : list A) (i : Z) : result E A :=
  if 0 <=? i then
    match l !! Z.to_nat i with Some x => Ok x | None => Panic end
  else Panic.
(** [l[off..off + src.len()].copy_from_slice(src)]. *)
Definition copy_at {A} (l : list A) (off : Z) (src : list A) : list A :=
  take (Z.to_nat off) l ++ src ++ drop (Z.to_nat (off + len src)) l.
Definition copy_at_r {E A} (l : list A) (off : Z) (src : list A)
    : result E (list A) :=
  if (0 <=? off) && (off + len src <=? len l) then Ok (copy_at l off src)
  else Panic.
(** [l[i] = x]. *)
Definition store_r {E A} (l : list A) (i : Z) (x : A) : result E (list A) :=
  if (0 <=? i) && (i <? len l) then Ok (<[Z.to_nat i := x]> l) else Panic.
(** [vec![0u8; n]]. *)
Definition zeros (n : Z) : list byte := replicate (Z.to_nat n) x00.

Lemma len_nonneg {A} (l : list A) : 0 ≤ len l.
Proof. unfold len. lia. Qed.
Lemma len_app {A} (l k : list A) : len (l ++ k) = len l + len k.
Proof. unfold len. rewrite length_app. lia. Qed.
Lemma len_cons {A} (x : A) l : len (x :: l) = 1 + len l.
Proof. unfold len. cbn. lia. Qed.
Lemma len_nil {A} : len (@nil A) = 0.
Proof. done. Qed.
Lemma len_zeros n : 0 ≤ n → len (zeros n) = n.
Proof. intros. unfold len, zeros. rewrite length_replicate. lia. Qed.
Lemma len_slice {A} (l : list A) a b :
  0 ≤ a ≤ b → b ≤ len l → len (slice l a b) = b - a.
Proof. unfold len, slice. rewrite length_take, length_drop. lia. Qed.
Lemma len_copy_at {A} (l : list A) off src :
  0 ≤ off → off + len src ≤ len l → len (copy_at l off src) = len l.
Proof.
  unfold len, copy_at. intros. rewrite !length_app, length_take, length_drop.
  unfold len in *. lia.
Qed.
Lemma len_fmap {A B} (f : A → B) l : len (f <$> l) = len l.
Proof. unfold len. by rewrite length_fmap. Qed.
Create Rewrite HintDb len.
#[global] Hint Rewrite @len_app @len_cons @len_nil : len.

Lemma slice_r_Ok {E A} (l : list A) a b r :
  @slice_r E A l a b = Ok r ↔ r = slice l a b ∧ 0 ≤ a ≤ b ∧ b ≤ len l.
Proof. unfold slice_r. case_match; split; intros; naive_solver lia. Qed.
Lemma slice_r_fits {E A} (l : list A) a b :
  0 ≤ a ≤ b → b ≤ len l → @slice_r E A l a b = Ok (slice l a b).
Proof. intros. by apply slice_r_Ok. Qed.
Lemma index_r_cons {E A} (l : list A) i x :
  0 ≤ i → l !! Z.to_nat i = Some x → @index_r E A l i = Ok x.
Proof. intros Hi Hx. unfold index_r. rewrite (proj2 (Z.leb_le _ _)) by done. by rewrite Hx. Qed.
Lemma index_r_no_panic {E A} (l : list A) i : 0 ≤ i < len l → no_panic (@index_r E A l i).
Proof.
  intros Hi. unfold index_r. rewrite (proj2 (Z.leb_le _ _)) by lia.
  destruct (lookup_lt_is_Some_2 l (Z.to_nat i)) as [x ->]; [unfold len in Hi; lia|done].
Qed.
Lemma slice_r_no_panic {E A} (l : list A) a b :
  0 ≤ a ≤ b → b ≤ len l → no_panic (@slice_r E A l a b).
Proof. intros. unfold slice_r. case_match eqn:D; [done|lia]. Qed.
Lemma copy_at_r_fits {E A} (l : list A) off src :
  0 ≤ off → off + len src ≤ len l →
  @copy_at_r E A l off src = Ok (copy_at l off src).
Proof. intros. unfold copy_at_r. case_match; [done|lia]. Qed.
Lemma slice_app_mid_prefix {A} (p m s : list A) k :
  0 ≤ k ≤ len m →
  slice (p ++ m ++ s) (len p) (len p + k) = slice m 0 k.
Proof.
  unfold slice, len. intros Hk.
  replace (Z.to_nat (Z.of_nat (length p))) with (length p) by lia.
  rewrite drop_app_length.
  replace (Z.to_nat (Z.of_nat (length p) + k - _)) with (Z.to_nat k) by lia.
  rewrite Z.sub_0_r. cbn. rewrite take_app_le by lia. done.
Qed.
Lemma slice_app_mid {A} (p m s : list A) :
  slice (p ++ m ++ s) (len p) (len p + len m) = m.
Proof.
  unfold slice, len.
  replace (Z.to_nat (Z.of_nat (length p))) with (length p) by lia.
  rewrite drop_app_length.
  replace (Z.to_nat _) with (length m) by lia. by rewrite take_app_length.
Qed.
Lemma drop_len_app {A} (p s : list A) : drop (Z.to_nat (len p)) (p ++ s) = s.
Proof. unfold len. rewrite Nat2Z.id. apply drop_app_length. Qed.
Lemma take_len_app {A} (p s : list A) : take (Z.to_nat (len p)) (p ++ s) = p.
Proof. unfold len. rewrite Nat2Z.id. apply take_app_length. Qed.

(** Pointwise reading of a [copy_at], of a slice and of a zero buffer. *)
Lemma lookup_copy_at {A} (l : list A) off src (i : nat) :
  0 ≤ off → off + len src ≤ len l →
  copy_at l off src !! i =
    if (off <=? Z.of_nat i) && (Z.of_nat i <? off + len src)
    then src !! (i - Z.to_nat off)%nat else l !! i.
Proof.
  unfold copy_at, len. intros H1 H2.
  assert (Hl : length (take (Z.to_nat off) l) = Z.to_nat off)
    by (rewrite length_take; lia).
  destruct (decide (i < Z.to_nat off)%nat) as [Hlt|Hge].
  - rewrite lookup_app_l, lookup_take by lia.
    rewrite decide_True by done. case_match; [lia | done].
  - rewrite lookup_app_r by lia. rewrite Hl.
    destruct (decide (i - Z.to_nat off < length src)%nat).
    + rewrite lookup_app_l by lia. case_match; [done | lia].
    + rewrite lookup_app_r, lookup_drop by lia.
      case_match; [lia|]. f_equal. lia.
Qed.
Lemma lookup_slice {A} (l : list A) a b (i : nat) :
  0 ≤ a → Z.of_nat i < b - a → slice l a b !! i = l !! (Z.to_nat a + i)%nat.
Proof.
  intros. unfold slice. rewrite lookup_take, decide_True by lia.
  by rewrite lookup_drop.
Qed.
Lemma slice_copy_at_same {A} (l : list A) off src :
  0 ≤ off → off + len src ≤ len l →
  slice (copy_at l off src) off (off + len src) = src.
Proof.
  intros. unfold slice, copy_at.
  assert (Hl : length (take (Z.to_nat off) l) = Z.to_nat off)
    by (rewrite length_take; unfold len in *; lia).
  rewrite <- Hl at 1. rewrite drop_app_length.
  replace (Z.to_nat _) with (length src) by (unfold len; lia).
  apply take_app_length.
Qed.
(** A write inside the middle part of a buffer. *)
Lemma copy_at_app_mid {A} (p m s src : list A) :
  len src ≤ len m → copy_at (p ++ m ++ s) (len p) src = p ++ copy_at m 0 src ++ s.
Proof.
  unfold copy_at, len. intros Hl.
  replace (Z.to_nat (Z.of_nat (length p))) with (length p) by lia.
  replace (Z.to_nat (Z.of_nat (length p) + Z.of_nat (length src)))
    with (length p + length src)%nat by lia.
  replace (Z.to_nat (0 + Z.of_nat (length src))) with (length src) by lia.
  rewrite take_app_length, drop_app_add, drop_app_le by lia.
  cbn. by rewrite <- !app_assoc.
Qed.
Lemma take_copy_at {A} (l : list A) src :
  len src ≤ len l → slice (copy_at l 0 src) 0 (len src) = src.
Proof. intros. by apply (slice_copy_at_same l 0 src). Qed.
(** A write leaves the slices it does not touch alone. *)
Lemma slice_copy_at_disjoint {A} (l : list A) off src a b :
  0 ≤ off → off + len src ≤ len l → 0 ≤ a ≤ b → b ≤ len l →
  b ≤ off ∨ off + len src ≤ a →
  slice (copy_at l off src) a b = slice l a b.
Proof.
  intros H1 H2 H3 H4 H5. apply list_eq. intros i.
  destruct (decide (Z.of_nat i < b - a)).
  - rewrite !lookup_slice, lookup_copy_at by lia.
    destruct (andb _ _) eqn:E; [|done]. exfalso.
    rewrite Nat2Z.inj_add, Z2Nat.id in E by lia. destruct H5; lia.
  - rewrite !lookup_ge_None_2; [done| |]; unfold slice;
      rewrite length_take; lia.
Qed.
Lemma slice_app_split {A} (l : list A) a b c :
  0 ≤ a ≤ b → b ≤ c → slice l a b ++ slice l b c = slice l a c.
Proof.
  intros. unfold slice.
  replace (Z.to_nat (c - a)) with (Z.to_nat (b - a) + Z.to_nat (c - b))%nat
    by lia.
  replace (Z.to_nat b) with (Z.to_nat a + Z.to_nat (b - a))%nat by lia.
  by rewrite <- drop_drop, take_take_drop.
Qed.
Lemma slice_full {A} (l : list A) : slice l 0 (len l) = l.
Proof.
  unfold slice, len. rewrite Z.sub_0_r, Nat2Z.id. cbn. apply take_ge. lia.
Qed.
Lemma slice_empty {A} (l : list A) a : slice l a a = [].
Proof. unfold slice. by rewrite Z.sub_diag. Qed.
Lemma index_r_mid {E A} (p s : list A) x i :
  i = len p → @index_r E A (p ++ x :: s) i = Ok x.
Proof.
  intros ->. apply index_r_cons; [apply len_nonneg|]. unfold len. rewrite Nat2Z.id.
  by apply list_lookup_middle.
Qed.
(** A slice behind a prefix. *)
Lemma slice_app_shift {A} (p l : list A) a b :
  0 ≤ a → slice (p ++ l) (len p + a) (len p + b) = slice l a b.
Proof.
  intros Ha. unfold slice, len.
  replace (Z.to_nat (Z.of_nat (length p) + a)) with (length p + Z.to_nat a)%nat by lia.
  rewrite drop_app_add. f_equal. lia.
Qed.
Lemma slice_app_suffix {A} (p l : list A) : slice (p ++ l) (len p) (len (p ++ l)) = l.
Proof.
  rewrite len_app. pose proof (slice_app_shift p l 0 (len l) ltac:(lia)) as H.
  rewrite Z.add_0_r in H. by rewrite H, slice_full.
Qed.
(** A byte string cut at a position inside it. *)
Lemma cut_at {A} (l : list A) n :
  0 ≤ n ≤ len l → ∃ a b, l = a ++ b ∧ len a = n.
Proof.
  intros Hn. exists (take (Z.to_nat n) l), (drop (Z.to_nat n) l).
  rewrite take_drop. split; [done|]. unfold len in *. rewrite length_take. lia.
Qed.
Lemma slice_prefix {A} (a b : list A) n : n = len a → slice (a ++ b) 0 n = a.
Proof. intros ->. unfold slice. rewrite Z.sub_0_r. apply take_len_app. Qed.
Lemma slice_app_mid_r {E A} (p m s : list A) :
  @slice_r E A (p ++ m ++ s) (len p) (len p + len m) = Ok m.
Proof.
  pose proof (len_nonneg p). pose proof (len_nonneg m). pose proof (len_nonneg s).
  rewrite slice_r_fits by (rewrite ?len_app; lia). by rewrite slice_app_mid.
Qed.
Lemma slice_at {E A} (p m s l : list A) a b :
  l = p ++ m ++ s → a = len p → b = a + len m → @slice_r E A l a b = Ok m.
Proof. intros -> -> ->. apply slice_app_mid_r. Qed.
Lemma copy_at_app {A} (p m src : list A) :
  len src ≤ len m → copy_at (p ++ m) (len p) src = p ++ src ++ drop (length src) m.
Proof.
  intros Hl. rewrite <- (app_nil_r m) at 1. rewrite copy_at_app_mid, app_nil_r by done.
  unfold copy_at. cbn [take app]. rewrite Z.add_0_l. unfold len. by rewrite Nat2Z.id.
Qed.
Lemma copy_at_one {A} (p s : list A) x y : copy_at (p ++ x :: s) (len p) [y] = (p ++ [y]) ++ s.
Proof.
  rewrite <- app_assoc. change (p ++ x :: s) with (p ++ [x] ++ s).
  rewrite copy_at_app_mid by done. done.
Qed.
Lemma len_take_drop {A} (l : list A) n :
  0 ≤ n ≤ len l → len (take (Z.to_nat n) l) = n ∧ len (drop (Z.to_nat n) l) = len l - n.
Proof. unfold len. rewrite length_take, length_drop. lia. Qed.
Lemma slice_cons {A} (l : list A) i k x :
  0 ≤ i → 0 ≤ k → l !! Z.to_nat i = Some x → slice l i (i + (1 + k)) = x :: slice l (i + 1) (i + 1 + k).
Proof.
  intros Hi Hk Hx. unfold slice. rewrite (drop_S l x) by done.
  replace (Z.to_nat (i + (1 + k) - i)) with (S (Z.to_nat k)) by lia. cbn [take]. f_equal.
  f_equal; [lia|]. f_equal. lia.
Qed.
Lemma seqZ_S j n : 0 ≤ n → seqZ j (1 + n) = j :: seqZ (j + 1) n.
Proof. intros. rewrite seqZ_cons by lia. f_equal. f_equal; lia. Qed.
Lemma lookup_zeros n (i : nat) : Z.of_nat i < n → zeros n !! i = Some x00.
Proof. intros. unfold zeros. apply lookup_replicate. split; [done | lia]. Qed.

(** ** Little-endian integers *)
Fixpoint le_bytes (n : nat) (z : Z) : list byte :=
  match n with
  | O => []
  | S n => byte_of z :: le_bytes n (z / 256)
  end.
Fixpoint le_val (bs : list byte) : Z :=
  match bs with
  | [] => 0
  | b :: bs => byte_val b + 256 * le_val bs
  end.

Lemma length_le_bytes n z : length (le_bytes n z) = n.
Proof. revert z. induction n; intros; cbn; auto. Qed.
Lemma len_le_bytes n z : len (le_bytes n z) = Z.of_nat n.
Proof. unfold len. by rewrite length_le_bytes. Qed.
#[global] Hint Rewrite len_le_bytes : len.
Lemma pow256_S n : 256 ^ Z.of_nat (S n) = 256 * 256 ^ Z.of_nat n.
Proof. rewrite Nat2Z.inj_succ, Z.pow_succ_r; lia. Qed.
Lemma le_val_bytes n z : 0 ≤ z < 256 ^ Z.of_nat n → le_val (le_bytes n z) = z.
Proof.
  revert z. induction n as [|n IH]; intros z Hz; [cbn in *; lia|].
  rewrite pow256_S in Hz. cbn [le_bytes le_val].
  rewrite byte_val_of, IH; [pose proof (Z.div_mod z 256); lia|].
  split; [apply Z.div_pos; lia | apply Z.div_lt_upper_bound; lia].
Qed.
Lemma le_val_range bs : 0 ≤ le_val bs < 256 ^ len bs.
Proof.
  unfold len. induction bs as [|b bs IH]; [cbn; lia|].
  cbn [le_val length]. rewrite pow256_S. pose proof (byte_val_range b). lia.
Qed.
Lemma le_bytes_val bs : le_bytes (length bs) (le_val bs) = bs.
Proof.
  induction bs as [|b bs IH]; [done|]. cbn [le_val length le_bytes].
  pose proof (byte_val_range b).
  replace ((byte_val b + 256 * le_val bs) / 256) with (le_val bs)
    by (rewrite Z.mul_comm, Z.div_add, Z.div_small; lia).
  rewrite IH. f_equal. apply byte_val_inj. rewrite byte_val_of.
  rewrite Z.mul_comm, Z.mod_add, Z.mod_small; lia.
Qed.
Lemma le_val_app a b : le_val (a ++ b) = le_val a + 256 ^ len a * le_val b.
Proof.
  unfold len. induction a as [|x a IH]; [cbn; lia|].
  cbn [le_val app length]. rewrite pow256_S, IH. lia.
Qed.
Lemma le_bytes_add n m z :
  le_bytes (n + m) z = le_bytes n z ++ le_bytes m (z / 256 ^ Z.of_nat n).
Proof.
  revert z. induction n as [|n IH]; intros z; [by rewrite Z.div_1_r|].
  cbn [Nat.add le_bytes app]. by rewrite IH, pow256_S, Z.div_div by lia.
Qed.
Lemma le_val_le_bytes n z : le_val (le_bytes n z) = z mod 256 ^ Z.of_nat n.
Proof.
  revert z. induction n as [|n IH]; intros z; [by rewrite Z.mod_1_r|].
  cbn [le_bytes le_val]. rewrite IH, byte_val_of, pow256_S, Z.rem_mul_r; lia.
Qed.

#[global] Arguments le_bytes : simpl never.
#[global] Arguments le_val : simpl never.
#[global] Arguments zeros : simpl never.
#[global] Arguments byte_of : simpl never.
#[global] Arguments byte_val : simpl never.

(** ** Stable sorting by an integer key ([slice::sort_by_key]) *)
Section sort_by_key.
Context {A : Type} (key : A → Z).

Fixpoint insert_by_key (x : A) (l : list A) : list A :=
  match l with
  | [] => [x]
  | y :: l => if key x <=? key y then x :: y :: l else y :: insert_by_key x l
  end.
Definition sort_by_key (l : list A) : list A := foldr insert_by_key [] l.

Definition key_le (x y : A) : Prop := key x ≤ key y.
#[local] Instance key_le_trans : Transitive key_le.
Proof. intros x y z. unfold key_le. lia. Qed.

Lemma insert_by_key_perm x l : insert_by_key x l ≡ₚ x :: l.
Proof.
  induction l as [|y l IH]; cbn; [done|]. case_match; [done|].
  rewrite IH. apply Permutation_swap.
Qed.
Lemma sort_by_key_perm l : sort_by_key l ≡ₚ l.
Proof.
  induction l as [|x l IH]; cbn; [done|].
  by rewrite insert_by_key_perm, IH.
Qed.
Lemma insert_by_key_sorted x l :
  StronglySorted key_le l → StronglySorted key_le (insert_by_key x l).
Proof.
  induction 1 as [|y l Hl IH Hy]; cbn; [repeat constructor|].
  destruct (Z.leb_spec (key x) (key y)).
  - constructor; [by constructor|]. constructor; [done|].
    eapply Forall_impl; [exact Hy|]. unfold key_le. intros. lia.
  - constructor; [done|]. rewrite insert_by_key_perm.
    constructor; [unfold key_le; lia | done].
Qed.
Lemma sort_by_key_sorted l : StronglySorted key_le (sort_by_key l).
Proof. induction l; cbn; [constructor | by apply insert_by_key_sorted]. Qed.
Lemma sort_by_key_nil l : sort_by_key l = [] ↔ l = [].
Proof.
  split; [|by intros ->]. intros H. apply Permutation_nil_r.
  by rewrite <- sort_by_key_perm, H.
Qed.
Lemma sort_by_key_length l : length (sort_by_key l) = length l.
Proof. by rewrite sort_by_key_perm. Qed.

Lemma sort_by_key_id l : StronglySorted key_le l → sort_by_key l = l.
Proof.
  induction 1 as [|x l Hl IH Hx]; [done|].
  change (insert_by_key x (sort_by_key l) = x :: l). rewrite IH.
  destruct l as [|y l]; cbn; [done|]. apply Forall_cons in Hx as [Hx _].
  unfold key_le in Hx. by rewrite (proj2 (Z.leb_le _ _)).
Qed.

(** With pairwise distinct keys the sorted list depends on the contents
    only, not on the order they came in. *)
Lemma sort_by_key_unique l k :
  NoDup (key <$> l) → l ≡ₚ k → sort_by_key l = sort_by_key k.
Proof.
  intros Hnd Hp.
  apply (StronglySorted_unique_strong key_le);
    [|apply sort_by_key_sorted..|by rewrite !sort_by_key_perm].
  intros x y Hx Hy H1 H2.
  rewrite sort_by_key_perm in Hx. rewrite sort_by_key_perm, <- Hp in Hy.
  apply list_elem_of_lookup in Hx as [i Hi].
  apply list_elem_of_lookup in Hy as [j Hj].
  assert (i = j) as ->; [|congruence].
  eapply (NoDup_lookup (key <$> l)); [done| |];
    rewrite list_lookup_fmap; [by rewrite Hi|rewrite Hj].
  cbn. f_equal. unfold key_le in *. lia.
Qed.
End sort_by_key.

(** [Vec::dedup_by_key]: the first of each run of equal keys. *)
Section dedup_by_key.
Context {A : Type} (key : A → Z).

Fixpoint dedup_run (prev : A) (l : list A) : list A :=
  match l with
  | [] => []
  | x :: l => if key x =? key prev then dedup_run prev l else x :: dedup_run x l
  end.
Definition dedup_by_key (l : list A) : list A :=
  match l with [] => [] | x :: l => x :: dedup_run x l end.

Lemma dedup_run_spec prev l :
  StronglySorted (key_le key) (prev :: l) →
  StronglySorted (λ x y, key x < key y) (prev :: dedup_run prev l)
  ∧ ∀ k, k ∈ key <$> prev :: dedup_run prev l ↔ k ∈ key <$> prev :: l.
Proof.
  revert prev. induction l as [|x l IH]; intros prev Hs; cbn [dedup_run].
  { split; [repeat constructor|done]. }
  apply StronglySorted_inv in Hs as [Hs Hp]. apply Forall_cons in Hp as [Hx Hp].
  unfold key_le in Hx. destruct (Z.eqb_spec (key x) (key prev)) as [E|E].
  - destruct (IH prev) as [H1 H2].
    { apply StronglySorted_inv in Hs as [Hs _]. by constructor. }
    split; [done|]. intros k. rewrite H2, !fmap_cons, !elem_of_cons, E. tauto.
  - destruct (IH x Hs) as [H1 H2]. split.
    + constructor; [done|]. apply StronglySorted_inv in H1 as [_ H1].
      constructor; [lia|]. eapply Forall_impl; [exact H1|]. cbn. lia.
    + intros k. rewrite !(fmap_cons key prev), !elem_of_cons, H2. done.
Qed.
Lemma dedup_by_key_sorted l :
  StronglySorted (key_le key) l → StronglySorted (λ x y, key x < key y) (dedup_by_key l).
Proof. destruct l as [|x l]; [constructor|]. intros H. by apply dedup_run_spec. Qed.
Lemma elem_of_dedup_by_key l k :
  StronglySorted (key_le key) l → k ∈ key <$> dedup_by_key l ↔ k ∈ key <$> l.
Proof. destruct l as [|x l]; [done|]. intros H. by apply dedup_run_spec. Qed.
Lemma NoDup_dedup_by_key l :
  StronglySorted (key_le key) l → NoDup (key <$> dedup_by_key l).
Proof.
  intros H%dedup_by_key_sorted. induction H as [|x k Hk IH Hx]; [constructor|].
  rewrite fmap_cons. constructor; [|done]. intros (y & E & Hy)%list_elem_of_fmap.
  rewrite Forall_forall in Hx. specialize (Hx y Hy). lia.
Qed.
End dedup_by_key.

(** [slice::windows(2)]. *)
Fixpoint windows2 {A} (l : list A) : list (A * A) :=
  match l with
  | x :: ((y :: _) as r) => (x, y) :: windows2 r
  | _ => []
  end.

(** In a sorted list, equal keys are adjacent. *)
Lemma windows2_dup {A} (key : A → Z) l :
  StronglySorted (key_le key) l →
  existsb (λ '(x, y), key x =? key y) (windows2 l) = false ↔ NoDup (key <$> l).
Proof.
  induction 1 as [|x l Hl IH Hx]; [split; [constructor|done]|].
  destruct l as [|y l]; [split; [intros; apply NoDup_singleton|done]|].
  cbn [windows2 existsb]. rewrite orb_false_iff, IH, Z.eqb_neq.
  change (key <$> x :: y :: l) with (key x :: (key <$> y :: l)).
  rewrite NoDup_cons. split; intros [Hne Hnd]; (split; [|done]).
  - rewrite list_elem_of_fmap. intros (z & Hz & Hin).
    apply elem_of_cons in Hin as [->|Hin]; [done|].
    apply StronglySorted_inv in Hl as [_ Hl].
    rewrite Forall_forall in Hl, Hx. unfold key_le in *.
    pose proof (Hl z Hin). pose proof (Hx y ltac:(by left)). lia.
  - intros Heq. apply Hne. rewrite Heq. by left.
Qed.

Lemma windows2_dup_sort {A} (key : A → Z) l :
  existsb (λ '(x, y), key x =? key y) (windows2 (sort_by_key key l)) = false
  ↔ NoDup (key <$> l).
Proof.
  rewrite (windows2_dup key) by apply sort_by_key_sorted.
  by rewrite (fmap_Permutation key _ _ (sort_by_key_perm key l)).
Qed.

(** ** Tactics *)

(** Split the [Ok] equations of a chain of binds. *)
Ltac inv_ok :=
  repeat match goal with
  | H : mbind _ _ = Ok _ |- _ =>
      apply bind_Ok in H; destruct H as (? & ? & ?)
  | H : map_err _ _ = Ok _ |- _ => apply map_err_Ok in H
  | H : ok_or _ _ = Ok _ |- _ => apply ok_or_Ok in H
  | H : try_from _ _ = Some _ |- _ => apply try_from_Some in H; destruct H
  | H : checked_add _ _ _ = Some _ |- _ =>
      apply checked_add_Some in H; destruct H
  | H : checked_mul _ _ _ = Some _ |- _ =>
      apply checked_mul_Some in H; destruct H
  | H : checked_sub _ _ = Some _ |- _ =>
      apply checked_sub_Some in H; destruct H
  | H : Ok _ = Ok _ |- _ => injection H; clear H; intros
  | H : (if ?b then Err _ else _) = Ok _ |- _ =>
      let E := fresh "Hif" in destruct b eqn:E; [discriminate H|]
  | H : (if ?b then _ else Err _) = Ok _ |- _ =>
      let E := fresh "Hif" in destruct b eqn:E; [|discriminate H]
  | H : Err _ = Ok _ |- _ => discriminate H
  | H : Panic = Ok _ |- _ => discriminate H
  | H : unit |- _ => destruct H
  | H : (_ * _)%type |- _ => destruct H
  end; simplify_eq/=.

(** Case analysis on the condition of an [if] of the goal. *)
Tactic Notation "dif" "as" ident(E) :=
  match goal with |- context [if ?b then _ else _] => destruct b eqn:E end.

(** Run the checks of a function that linear arithmetic shows to pass: conversions and
    checked operations that fit, guards that are false. *)
Ltac rust_ok :=
  repeat (first
    [ progress cbn [ok_or mbind result_bind option_bind negb]
    | match goal with
      | |- context [try_from ?w ?a] => rewrite (try_from_fits w a) by lia
      | |- context [checked_add ?w ?a ?b] => rewrite (checked_add_fits w a b) by lia
      | |- context [checked_mul ?w ?a ?b] => rewrite (checked_mul_fits w a b) by lia
      | |- context [checked_sub ?a ?b] => rewrite (checked_sub_fits a b) by lia
      | |- context [if ?b then Err ?e else ?m] =>
          replace (if b then Err e else m) with m by (replace b with false by lia; reflexivity)
      end ]).

(** Discharge [no_panic] of a chain whose leaves are [Ok], [Err] or known. *)
Create HintDb no_panic.
#[export] Hint Resolve no_panic_ok_or no_panic_map_err : no_panic.
Ltac np :=
  repeat first
    [ progress intros
    | solve [eauto with no_panic]
    | apply no_panic_bind
    | case_match
    | discriminate
    | (unfold no_panic; discriminate) ].
