(* ===== verification/Errors.v ===== *)
(** * Status and error registry

    Models [crates/sar-core/src/error.rs] (the [SarStatus] registry, the
    [SarError] type and the conversions from the feature crates' errors) and the
    error enums of [sar-fec], [sar-fragmentation], [sar-sparse] and [sar-crypto].  A
    [&'static str] payload is a [string]; the [io::Error] payload of [SarError::Io] is
    its description. *)

From S2P Require Import Prelude.

Module SarStatus.

(** [enum SarStatus]. *)
Inductive t : Set :=
  | Ok | ErrGeneric | ErrNotFound
  | ErrInvalidMagic | ErrIo | ErrCrcMismatch
  | ErrAuthFailed | ErrMalloc | ErrUnsupported
  | ErrFlagConflict | ErrPatchFailed | ErrBaseMissing
  | ErrInvalidMap | ErrNoSpace | ErrPartitionMissing
  | ErrFragmentGap | ErrReassemblyBufferFull | ErrPartitionMismatch
  | ErrFragmentTimeout | WarnIncomplete | ErrRecipeUnresolvable
  | ErrCdcMismatch | ErrEcFailed | ErrTruncated
  | ErrMalformed | ErrBounds | ErrReservedValue
  | ErrOverflow | ErrLimitExceeded | ErrInvalidAlignment
  | ErrInvalidLength | ErrChecksumMismatch | ErrHashMismatch
  | ErrDecryptFailed | ErrSignatureFailed | ErrAnchorHashFailed
  | ErrInvalidVersion | ErrKeyMissing | ErrKeyRejected
  | ErrStreamClosed | ErrStreamState | ErrMetadataMissing
  | ErrMetadataConflict | ErrRecoveryUnavailable | ErrRecoveryCorrupted
  | ErrCompressionFailed | ErrDecompressionFailed | ErrWriteProtected
  | ErrAlreadyExists | ErrCancelled | ErrTimeout
  | ErrInternal | ErrNonceReuse | ErrTooManyStreams.

#[export] Instance t_eq_dec : EqDecision t.
Proof. solve_decision. Defined.

(** [SarStatus::code]: the [repr(i32)] discriminant. *)
Definition code (s : t) : Z :=
  match s with
  | Ok => 0 | ErrGeneric => -1 | ErrNotFound => 1
  | ErrInvalidMagic => 2 | ErrIo => 3 | ErrCrcMismatch => 4
  | ErrAuthFailed => 5 | ErrMalloc => 6 | ErrUnsupported => 7
  | ErrFlagConflict => 8 | ErrPatchFailed => 9 | ErrBaseMissing => 10
  | ErrInvalidMap => 11 | ErrNoSpace => 12 | ErrPartitionMissing => 13
  | ErrFragmentGap => 14 | ErrReassemblyBufferFull => 15 | ErrPartitionMismatch => 16
  | ErrFragmentTimeout => 17 | WarnIncomplete => 18 | ErrRecipeUnresolvable => 19
  | ErrCdcMismatch => 20 | ErrEcFailed => 21 | ErrTruncated => 22
  | ErrMalformed => 23 | ErrBounds => 24 | ErrReservedValue => 25
  | ErrOverflow => 26 | ErrLimitExceeded => 27 | ErrInvalidAlignment => 28
  | ErrInvalidLength => 29 | ErrChecksumMismatch => 30 | ErrHashMismatch => 31
  | ErrDecryptFailed => 32 | ErrSignatureFailed => 33 | ErrAnchorHashFailed => 34
  | ErrInvalidVersion => 35 | ErrKeyMissing => 36 | ErrKeyRejected => 37
  | ErrStreamClosed => 38 | ErrStreamState => 39 | ErrMetadataMissing => 40
  | ErrMetadataConflict => 41 | ErrRecoveryUnavailable => 42 | ErrRecoveryCorrupted => 43
  | ErrCompressionFailed => 44 | ErrDecompressionFailed => 45 | ErrWriteProtected => 46
  | ErrAlreadyExists => 47 | ErrCancelled => 48 | ErrTimeout => 49
  | ErrInternal => 50 | ErrNonceReuse => 51 | ErrTooManyStreams => 52
  end.

(** [SarStatus::name]. *)
Definition name (s : t) : string :=
  match s with
  | Ok => "SAR_OK"
  | ErrGeneric => "SAR_ERR_GENERIC"
  | ErrNotFound => "SAR_ERR_NOT_FOUND"
  | ErrInvalidMagic => "SAR_ERR_INVALID_MAGIC"
  | ErrIo => "SAR_ERR_IO"
  | ErrCrcMismatch => "SAR_ERR_CRC_MISMATCH"
  | ErrAuthFailed => "SAR_ERR_AUTH_FAILED"
  | ErrMalloc => "SAR_ERR_MALLOC"
  | ErrUnsupported => "SAR_ERR_UNSUPPORTED"
  | ErrFlagConflict => "SAR_ERR_FLAG_CONFLICT"
  | ErrPatchFailed => "SAR_ERR_PATCH_FAILED"
  | ErrBaseMissing => "SAR_ERR_BASE_MISSING"
  | ErrInvalidMap => "SAR_ERR_INVALID_MAP"
  | ErrNoSpace => "SAR_ERR_NO_SPACE"
  | ErrPartitionMissing => "SAR_ERR_PARTITION_MISSING"
  | ErrFragmentGap => "SAR_ERR_FRAGMENT_GAP"
  | ErrReassemblyBufferFull => "SAR_ERR_REASSEMBLY_BUFFER_FULL"
  | ErrPartitionMismatch => "SAR_ERR_PARTITION_MISMATCH"
  | ErrFragmentTimeout => "SAR_ERR_FRAGMENT_TIMEOUT"
  | WarnIncomplete => "SAR_WARN_INCOMPLETE"
  | ErrRecipeUnresolvable => "SAR_ERR_RECIPE_UNRESOLVABLE"
  | ErrCdcMismatch => "SAR_ERR_CDC_MISMATCH"
  | ErrEcFailed => "SAR_ERR_EC_FAILED"
  | ErrTruncated => "SAR_ERR_TRUNCATED"
  | ErrMalformed => "SAR_ERR_MALFORMED"
  | ErrBounds => "SAR_ERR_BOUNDS"
  | ErrReservedValue => "SAR_ERR_RESERVED_VALUE"
  | ErrOverflow => "SAR_ERR_OVERFLOW"
  | ErrLimitExceeded => "SAR_ERR_LIMIT_EXCEEDED"
  | ErrInvalidAlignment => "SAR_ERR_INVALID_ALIGNMENT"
  | ErrInvalidLength => "SAR_ERR_INVALID_LENGTH"
  | ErrChecksumMismatch => "SAR_ERR_CHECKSUM_MISMATCH"
  | ErrHashMismatch => "SAR_ERR_HASH_MISMATCH"
  | ErrDecryptFailed => "SAR_ERR_DECRYPT_FAILED"
  | ErrSignatureFailed => "SAR_ERR_SIGNATURE_FAILED"
  | ErrAnchorHashFailed => "SAR_ERR_ANCHOR_HASH_FAILED"
  | ErrInvalidVersion => "SAR_ERR_INVALID_VERSION"
  | ErrKeyMissing => "SAR_ERR_KEY_MISSING"
  | ErrKeyRejected => "SAR_ERR_KEY_REJECTED"
  | ErrStreamClosed => "SAR_ERR_STREAM_CLOSED"
  | ErrStreamState => "SAR_ERR_STREAM_STATE"
  | ErrMetadataMissing => "SAR_ERR_METADATA_MISSING"
  | ErrMetadataConflict => "SAR_ERR_METADATA_CONFLICT"
  | ErrRecoveryUnavailable => "SAR_ERR_RECOVERY_UNAVAILABLE"
  | ErrRecoveryCorrupted => "SAR_ERR_RECOVERY_CORRUPTED"
  | ErrCompressionFailed => "SAR_ERR_COMPRESSION_FAILED"
  | ErrDecompressionFailed => "SAR_ERR_DECOMPRESSION_FAILED"
  | ErrWriteProtected => "SAR_ERR_WRITE_PROTECTED"
  | ErrAlreadyExists => "SAR_ERR_ALREADY_EXISTS"
  | ErrCancelled => "SAR_ERR_CANCELLED"
  | ErrTimeout => "SAR_ERR_TIMEOUT"
  | ErrInternal => "SAR_ERR_INTERNAL"
  | ErrNonceReuse => "SAR_ERR_NONCE_REUSE"
  | ErrTooManyStreams => "SAR_ERR_TOO_MANY_STREAMS"
  end.

(** [TryFrom<i32> for SarStatus]; the error is [SarStatusParseError(value)]. *)
Definition try_from (value : Z) : result Z t :=
  match value with
  | -1 => Prelude.Ok ErrGeneric | 0 => Prelude.Ok Ok | 1 => Prelude.Ok ErrNotFound
  | 2 => Prelude.Ok ErrInvalidMagic | 3 => Prelude.Ok ErrIo | 4 => Prelude.Ok ErrCrcMismatch
  | 5 => Prelude.Ok ErrAuthFailed | 6 => Prelude.Ok ErrMalloc | 7 => Prelude.Ok ErrUnsupported
  | 8 => Prelude.Ok ErrFlagConflict | 9 => Prelude.Ok ErrPatchFailed | 10 => Prelude.Ok ErrBaseMissing
  | 11 => Prelude.Ok ErrInvalidMap | 12 => Prelude.Ok ErrNoSpace | 13 => Prelude.Ok ErrPartitionMissing
  | 14 => Prelude.Ok ErrFragmentGap | 15 => Prelude.Ok ErrReassemblyBufferFull | 16 => Prelude.Ok ErrPartitionMismatch
  | 17 => Prelude.Ok ErrFragmentTimeout | 18 => Prelude.Ok WarnIncomplete | 19 => Prelude.Ok ErrRecipeUnresolvable
  | 20 => Prelude.Ok ErrCdcMismatch | 21 => Prelude.Ok ErrEcFailed | 22 => Prelude.Ok ErrTruncated
  | 23 => Prelude.Ok ErrMalformed | 24 => Prelude.Ok ErrBounds | 25 => Prelude.Ok ErrReservedValue
  | 26 => Prelude.Ok ErrOverflow | 27 => Prelude.Ok ErrLimitExceeded | 28 => Prelude.Ok ErrInvalidAlignment
  | 29 => Prelude.Ok ErrInvalidLength | 30 => Prelude.Ok ErrChecksumMismatch | 31 => Prelude.Ok ErrHashMismatch
  | 32 => Prelude.Ok ErrDecryptFailed | 33 => Prelude.Ok ErrSignatureFailed | 34 => Prelude.Ok ErrAnchorHashFailed
  | 35 => Prelude.Ok ErrInvalidVersion | 36 => Prelude.Ok ErrKeyMissing | 37 => Prelude.Ok ErrKeyRejected
  | 38 => Prelude.Ok ErrStreamClosed | 39 => Prelude.Ok ErrStreamState | 40 => Prelude.Ok ErrMetadataMissing
  | 41 => Prelude.Ok ErrMetadataConflict | 42 => Prelude.Ok ErrRecoveryUnavailable | 43 => Prelude.Ok ErrRecoveryCorrupted
  | 44 => Prelude.Ok ErrCompressionFailed | 45 => Prelude.Ok ErrDecompressionFailed | 46 => Prelude.Ok ErrWriteProtected
  | 47 => Prelude.Ok ErrAlreadyExists | 48 => Prelude.Ok ErrCancelled | 49 => Prelude.Ok ErrTimeout
  | 50 => Prelude.Ok ErrInternal | 51 => Prelude.Ok ErrNonceReuse | 52 => Prelude.Ok ErrTooManyStreams
  | _ => Err value
  end.

(** Every registry value, in declaration order. *)
Definition all : list t :=
  [Ok; ErrGeneric; ErrNotFound; ErrInvalidMagic; ErrIo; ErrCrcMismatch; ErrAuthFailed; ErrMalloc; ErrUnsupported; ErrFlagConflict; ErrPatchFailed; ErrBaseMissing; ErrInvalidMap; ErrNoSpace;
   ErrPartitionMissing; ErrFragmentGap; ErrReassemblyBufferFull; ErrPartitionMismatch; ErrFragmentTimeout; WarnIncomplete; ErrRecipeUnresolvable; ErrCdcMismatch; ErrEcFailed; ErrTruncated; ErrMalformed; ErrBounds; ErrReservedValue; ErrOverflow;
   ErrLimitExceeded; ErrInvalidAlignment; ErrInvalidLength; ErrChecksumMismatch; ErrHashMismatch; ErrDecryptFailed; ErrSignatureFailed; ErrAnchorHashFailed; ErrInvalidVersion; ErrKeyMissing; ErrKeyRejected; ErrStreamClosed;
   ErrStreamState; ErrMetadataMissing; ErrMetadataConflict; ErrRecoveryUnavailable; ErrRecoveryCorrupted; ErrCompressionFailed; ErrDecompressionFailed; ErrWriteProtected; ErrAlreadyExists; ErrCancelled; ErrTimeout; ErrInternal; ErrNonceReuse; ErrTooManyStreams].

Lemma elem_of_all s : s ∈ all.
Proof. destruct s; unfold all; repeat constructor. Qed.

End SarStatus.

Module SarError.

(** [enum SarError]. *)
Inductive t : Set :=
  | Generic | NotFound (msg : string) | InvalidMagic
  | Io (msg : string) | CrcMismatch (msg : string) | AuthFailed (msg : string)
  | Malloc (msg : string) | Unsupported (msg : string) | FlagConflict (msg : string)
  | PatchFailed (msg : string) | BaseMissing (msg : string) | InvalidMap (msg : string)
  | NoSpace (msg : string) | PartitionMissing (msg : string) | FragmentGap (msg : string)
  | ReassemblyBufferFull (msg : string) | PartitionMismatch (msg : string) | FragmentTimeout (msg : string)
  | RecipeUnresolvable (msg : string) | CdcMismatch (msg : string) | EcFailed (msg : string)
  | Truncated (msg : string) | Malformed (msg : string) | Bounds (msg : string)
  | ReservedValue (msg : string) | Overflow (msg : string) | LimitExceeded (msg : string)
  | InvalidAlignment (msg : string) | InvalidLength (msg : string) | ChecksumMismatch (msg : string)
  | HashMismatch (msg : string) | DecryptFailed (msg : string) | SignatureFailed (msg : string)
  | AnchorHashFailed (msg : string) | InvalidVersion (msg : string) | KeyMissing (msg : string)
  | KeyRejected (msg : string) | StreamClosed (msg : string) | StreamState (msg : string)
  | MetadataMissing (msg : string) | MetadataConflict (msg : string) | RecoveryUnavailable (msg : string)
  | RecoveryCorrupted (msg : string) | CompressionFailed (msg : string) | DecompressionFailed (msg : string)
  | WriteProtected (msg : string) | AlreadyExists (msg : string) | Cancelled (msg : string)
  | Timeout (msg : string) | Internal (msg : string) | NonceReuse (msg : string)
  | TooManyStreams (msg : string).

#[export] Instance t_eq_dec : EqDecision t.
Proof. solve_decision. Defined.

(** [SarError::status]. *)
Definition status (e : t) : SarStatus.t :=
  match e with
  | Generic => SarStatus.ErrGeneric | NotFound _ => SarStatus.ErrNotFound
  | InvalidMagic => SarStatus.ErrInvalidMagic | Io _ => SarStatus.ErrIo
  | CrcMismatch _ => SarStatus.ErrCrcMismatch | AuthFailed _ => SarStatus.ErrAuthFailed
  | Malloc _ => SarStatus.ErrMalloc | Unsupported _ => SarStatus.ErrUnsupported
  | FlagConflict _ => SarStatus.ErrFlagConflict | PatchFailed _ => SarStatus.ErrPatchFailed
  | BaseMissing _ => SarStatus.ErrBaseMissing | InvalidMap _ => SarStatus.ErrInvalidMap
  | NoSpace _ => SarStatus.ErrNoSpace | PartitionMissing _ => SarStatus.ErrPartitionMissing
  | FragmentGap _ => SarStatus.ErrFragmentGap | ReassemblyBufferFull _ => SarStatus.ErrReassemblyBufferFull
  | PartitionMismatch _ => SarStatus.ErrPartitionMismatch | FragmentTimeout _ => SarStatus.ErrFragmentTimeout
  | RecipeUnresolvable _ => SarStatus.ErrRecipeUnresolvable | CdcMismatch _ => SarStatus.ErrCdcMismatch
  | EcFailed _ => SarStatus.ErrEcFailed | Truncated _ => SarStatus.ErrTruncated
  | Malformed _ => SarStatus.ErrMalformed | Bounds _ => SarStatus.ErrBounds
  | ReservedValue _ => SarStatus.ErrReservedValue | Overflow _ => SarStatus.ErrOverflow
  | LimitExceeded _ => SarStatus.ErrLimitExceeded | InvalidAlignment _ => SarStatus.ErrInvalidAlignment
  | InvalidLength _ => SarStatus.ErrInvalidLength | ChecksumMismatch _ => SarStatus.ErrChecksumMismatch
  | HashMismatch _ => SarStatus.ErrHashMismatch | DecryptFailed _ => SarStatus.ErrDecryptFailed
  | SignatureFailed _ => SarStatus.ErrSignatureFailed | AnchorHashFailed _ => SarStatus.ErrAnchorHashFailed
  | InvalidVersion _ => SarStatus.ErrInvalidVersion | KeyMissing _ => SarStatus.ErrKeyMissing
  | KeyRejected _ => SarStatus.ErrKeyRejected | StreamClosed _ => SarStatus.ErrStreamClosed
  | StreamState _ => SarStatus.ErrStreamState | MetadataMissing _ => SarStatus.ErrMetadataMissing
  | MetadataConflict _ => SarStatus.ErrMetadataConflict | RecoveryUnavailable _ => SarStatus.ErrRecoveryUnavailable
  | RecoveryCorrupted _ => SarStatus.ErrRecoveryCorrupted | CompressionFailed _ => SarStatus.ErrCompressionFailed
  | DecompressionFailed _ => SarStatus.ErrDecompressionFailed | WriteProtected _ => SarStatus.ErrWriteProtected
  | AlreadyExists _ => SarStatus.ErrAlreadyExists | Cancelled _ => SarStatus.ErrCancelled
  | Timeout _ => SarStatus.ErrTimeout | Internal _ => SarStatus.ErrInternal
  | NonceReuse _ => SarStatus.ErrNonceReuse | TooManyStreams _ => SarStatus.ErrTooManyStreams
  end.

End SarError.

(** ** Errors of the feature crates *)

Module FecError.
(** [enum FecError] of [sar-fec/src/error.rs]. *)
Inductive t : Set :=
  | Truncated (m : string) | Malformed (m : string) | InvalidLength (m : string)
  | Overflow (m : string) | LimitExceeded (m : string) | EcFailed (m : string)
  | ReservedValue (m : string) | Unsupported (m : string)
  | RecoveryUnavailable (m : string).

(** [From<FecError> for SarError] ([sar-core/src/fec.rs]). *)
Definition to_sar (e : t) : SarError.t :=
  match e with
  | Truncated m => SarError.Truncated m
  | Malformed m => SarError.Malformed m
  | InvalidLength m => SarError.InvalidLength m
  | Overflow m => SarError.Overflow m
  | LimitExceeded m => SarError.LimitExceeded m
  | EcFailed m => SarError.EcFailed m
  | ReservedValue m => SarError.ReservedValue m
  | Unsupported m => SarError.Unsupported m
  | RecoveryUnavailable m => SarError.RecoveryUnavailable m
  end.
End FecError.

Module FragmentError.
(** [enum FragmentError] of [sar-fragmentation/src/lib.rs]. *)
Inductive t : Set :=
  | Bounds (m : string) | InvalidMap (m : string) | FragmentGap (m : string)
  | Overflow (m : string) | LimitExceeded (m : string)
  | PayloadSizeMismatch (m : string) | DuplicateIndex (m : string).

(** [From<FragmentError> for SarError]. *)
Definition to_sar (e : t) : SarError.t :=
  match e with
  | Bounds m => SarError.Bounds m
  | InvalidMap m => SarError.InvalidMap m
  | FragmentGap m => SarError.FragmentGap m
  | Overflow m => SarError.Overflow m
  | LimitExceeded m => SarError.LimitExceeded m
  | PayloadSizeMismatch m => SarError.Malformed m
  | DuplicateIndex m => SarError.InvalidMap m
  end.
End FragmentError.

Module SparseError.
(** [enum SparseError] of [sar-sparse/src/lib.rs]. *)
Inductive t : Set :=
  | InvalidMap (m : string) | Overflow (m : string) | Truncated (m : string)
  | LimitExceeded (m : string).

(** [From<SparseError> for SarError]. *)
Definition to_sar (e : t) : SarError.t :=
  match e with
  | InvalidMap m => SarError.InvalidMap m
  | Overflow m => SarError.Overflow m
  | Truncated m => SarError.Truncated m
  | LimitExceeded m => SarError.LimitExceeded m
  end.
End SparseError.

Module CryptoError.
(** [enum SarCryptoError] of [sar-crypto/src/error.rs]. *)
Inductive t : Set :=
  | AuthFailed (m : string) | KeyMissing (m : string) | Malformed (m : string)
  | Unsupported (m : string) | ReservedValue (m : string) | InvalidLength (m : string)
  | Internal (m : string) | NonceReuse | FlagConflict (m : string).

(** [From<SarCryptoError> for SarError]. *)
Definition to_sar (e : t) : SarError.t :=
  match e with
  | AuthFailed m => SarError.AuthFailed m
  | KeyMissing m => SarError.KeyMissing m
  | Malformed m => SarError.Malformed m
  | Unsupported m => SarError.Unsupported m
  | ReservedValue m => SarError.ReservedValue m
  | InvalidLength m => SarError.InvalidLength m
  | Internal m => SarError.Internal m
  | NonceReuse => SarError.NonceReuse "nonce reuse detected"
  | FlagConflict m => SarError.FlagConflict m
  end.
End CryptoError.

(** ** The registry is a bijection onto its codes *)

Module ErrorFacts.
Import SarStatus.

Lemma try_from_code s : try_from (code s) = Prelude.Ok s.
Proof. by destruct s. Qed.

Lemma code_range s : -1 ≤ code s ≤ 52.
Proof. destruct s; cbn; lia. Qed.

(** Reading [TryFrom] backwards: a value it accepts is the code of the status. *)
Lemma code_of_try_from v s : try_from v = Prelude.Ok s → code s = v.
Proof.
  intros H. unfold try_from in H.
  repeat match type of H with
  | context [match ?x with _ => _ end] => destruct x; try discriminate H
  end; by injection H as <-.
Qed.

(** The status registry is a bijection between the 54 statuses and the
    codes -1 .. 52: converting a status to its numeric code and back is the
    identity, [TryFrom<i32>] accepts a value exactly when it is the code of the
    status it returns, and exactly the codes -1 .. 52 are accepted. *)
Theorem status_code_roundtrip (s : t) (v : Z) :
  try_from (code s) = Prelude.Ok s
  ∧ (try_from v = Prelude.Ok s ↔ v = code s)
  ∧ (is_ok (try_from v) = true ↔ -1 ≤ v ≤ 52).
Proof.
  split; [apply try_from_code|]. split.
  - split; [intros H; symmetry; by apply code_of_try_from|].
    intros ->. apply try_from_code.
  - split.
    + destruct (try_from v) as [s'| |] eqn:E; try discriminate.
      intros _. apply code_of_try_from in E as <-. apply code_range.
    + intros Hv.
      assert (Hall : forallb (λ v, is_ok (try_from v)) (seqZ (-1) 54) = true)
        by done.
      rewrite forallb_forall in Hall. apply Hall.
      apply list_elem_of_In, elem_of_seqZ. lia.
Qed.

(** Search for the error that maps to the status in the goal. *)
Ltac err c := exists (c EmptyString); reflexivity.
Ltac try_errors :=
  first
  [ exists SarError.Generic; reflexivity
  | exists SarError.InvalidMagic; reflexivity
  | err SarError.NotFound | err SarError.Io
  | err SarError.CrcMismatch | err SarError.AuthFailed
  | err SarError.Malloc | err SarError.Unsupported
  | err SarError.FlagConflict | err SarError.PatchFailed
  | err SarError.BaseMissing | err SarError.InvalidMap
  | err SarError.NoSpace | err SarError.PartitionMissing
  | err SarError.FragmentGap | err SarError.ReassemblyBufferFull
  | err SarError.PartitionMismatch | err SarError.FragmentTimeout
  | err SarError.RecipeUnresolvable | err SarError.CdcMismatch
  | err SarError.EcFailed | err SarError.Truncated
  | err SarError.Malformed | err SarError.Bounds
  | err SarError.ReservedValue | err SarError.Overflow
  | err SarError.LimitExceeded | err SarError.InvalidAlignment
  | err SarError.InvalidLength | err SarError.ChecksumMismatch
  | err SarError.HashMismatch | err SarError.DecryptFailed
  | err SarError.SignatureFailed | err SarError.AnchorHashFailed
  | err SarError.InvalidVersion | err SarError.KeyMissing
  | err SarError.KeyRejected | err SarError.StreamClosed
  | err SarError.StreamState | err SarError.MetadataMissing
  | err SarError.MetadataConflict | err SarError.RecoveryUnavailable
  | err SarError.RecoveryCorrupted | err SarError.CompressionFailed
  | err SarError.DecompressionFailed | err SarError.WriteProtected
  | err SarError.AlreadyExists | err SarError.Cancelled
  | err SarError.Timeout | err SarError.Internal
  | err SarError.NonceReuse | err SarError.TooManyStreams ].

(** An error is never reported as a success: no [SarError] maps to
    [SAR_OK] or to the non-fatal [SAR_WARN_INCOMPLETE], and every other status
    is the status of some error. *)
Theorem error_status_fatal :
  (∀ e, SarError.status e ≠ SarStatus.Ok ∧ SarError.status e ≠ WarnIncomplete)
  ∧ (∀ s, s ≠ SarStatus.Ok → s ≠ WarnIncomplete → ∃ e, SarError.status e = s).
Proof.
  split; [intros e; split; destruct e; discriminate|].
  intros s H1 H2.
  destruct s; try (by destruct H1); try (by destruct H2);
    solve [try_errors].
Qed.

End ErrorFacts.
