(* ===== verification/LossTolerant.v ===== *)
(** * Loss-tolerant degradation policy

    Models [crates/sar-loss-tolerant/src/lib.rs]: the policy that decides when
    an incomplete reconstruction may be returned. *)

From S2P Require Import Prelude.

Module LossTolerant.

(** [enum RecoveryStatus]. *)
Inductive RecoveryStatus : Set := Complete | Degraded | Failed.

Definition has_output (s : RecoveryStatus) : bool :=
  match s with Complete | Degraded => true | Failed => false end.
Definition is_complete (s : RecoveryStatus) : bool :=
  match s with Complete => true | _ => false end.
Definition is_degraded (s : RecoveryStatus) : bool :=
  match s with Degraded => true | _ => false end.

(** [gap_degraded_output_permitted]. *)
Definition gap_degraded_output_permitted (is_loss_tolerant : bool) : bool :=
  is_loss_tolerant.

(** [classify_recovery]. *)
Definition classify_recovery (has_gap failed : bool) : RecoveryStatus :=
  if failed then Failed else if has_gap then Degraded else Complete.

(** A failure is never hidden by a gap, and output is reported complete only
    when there was neither. *)
Lemma classify_spec has_gap failed :
  has_output (classify_recovery has_gap failed) = negb failed
  ∧ is_complete (classify_recovery has_gap failed) = negb failed && negb has_gap
  ∧ is_degraded (classify_recovery has_gap failed) = negb failed && has_gap.
Proof. by destruct has_gap, failed. Qed.

End LossTolerant.
