(* ===== verification/Sparse.v ===== *)
(** * Sparse files

    Models [crates/sar-sparse/src/lib.rs]: the extent model, its validation and
    the scatter reconstruction of a sparse logical file.  The theorems give the
    exact condition under which reconstruction succeeds, the bytes it produces
    (payload inside the extents, zeros in the holes) and that reading the
    extents back yields the payload. *)

From S2P Require Import Prelude Errors.

Module Sparse.

(** [struct SparseLimits]. *)
Record SparseLimits := {
  max_sparse_map_bytes : Z;
  max_sparse_descriptors : Z;
  max_decoded_entry_size : Z;
  max_allocation_bytes : Z;
}.

(** [SparseLimits::unlimited]. *)
Definition unlimited : SparseLimits := {|
  max_sparse_map_bytes := USIZE_MAX;
  max_sparse_descriptors := USIZE_MAX;
  max_decoded_entry_size := U64_MAX;
  max_allocation_bytes := U64_MAX;
|}.

Definition check_sparse_descriptor_count (l : SparseLimits) (count : Z)
    : result SparseError.t unit :=
  if count >? max_sparse_descriptors l then
    Err (SparseError.LimitExceeded
           "sparse descriptor count exceeds configured limit")
  else Ok tt.

Definition check_decoded_entry_size (l : SparseLimits) (bytes : Z)
    : result SparseError.t unit :=
  if bytes >? max_decoded_entry_size l then
    Err (SparseError.LimitExceeded "decoded entry size exceeds configured limit")
  else Ok tt.

Definition allocation_len (l : SparseLimits) (bytes : Z) (context : string)
    : result SparseError.t Z :=
  if bytes >? max_allocation_bytes l then
    Err (SparseError.LimitExceeded "allocation exceeds configured limit")
  else
    n ← ok_or (try_from 64 bytes) (SparseError.Overflow context);
    if n >? ISIZE_MAX then Err (SparseError.Overflow context) else Ok n.

(** [struct SparseExtent]. *)
Record SparseExtent := { ext_offset : Z; ext_length : Z }.

#[export] Instance SparseExtent_eq_dec : EqDecision SparseExtent.
Proof. solve_decision. Defined.

(** The loop of [validate_sparse_extents]. *)
Fixpoint validate_loop (extents : list SparseExtent)
    (logical_size last_end total_length : Z) : result SparseError.t unit :=
  match extents with
  | [] => Ok tt
  | e :: rest =>
      if ext_length e =? 0 then
        Err (SparseError.InvalidMap "zero-length sparse extent")
      else
        fin ← ok_or (checked_add 64 (ext_offset e) (ext_length e))
                (SparseError.Overflow "sparse extent offset+length overflow");
        if fin >? logical_size then
          Err (SparseError.InvalidMap "sparse extent exceeds logical file size")
        else if ext_offset e <? last_end then
          Err (SparseError.InvalidMap "sparse extents overlap")
        else
          total ← ok_or (checked_add 64 total_length (ext_length e))
                    (SparseError.Overflow "sparse extent length sum overflow");
          validate_loop rest logical_size fin total
  end.

(** [validate_sparse_extents]. *)
Definition validate_sparse_extents (extents : list SparseExtent)
    (logical_size : Z) (limits : SparseLimits) : result SparseError.t unit :=
  _ ← check_sparse_descriptor_count limits (len extents);
  validate_loop extents logical_size 0 0.

(** The loop of [apply_sparse_reconstruction]. *)
Fixpoint scatter_loop (extents : list SparseExtent) (payload : list byte)
    (logical_size payload_pos : Z) (output : list byte)
    : result SparseError.t (list byte * Z) :=
  match extents with
  | [] => Ok (output, payload_pos)
  | e :: rest =>
      fin ← ok_or (checked_add 64 (ext_offset e) (ext_length e))
              (SparseError.Overflow "sparse extent offset+length overflow");
      if fin >? logical_size then
        Err (SparseError.InvalidMap "sparse extent exceeds logical file size")
      else
        dst_start ← ok_or (try_from 64 (ext_offset e))
                      (SparseError.Overflow "extent offset");
        n ← ok_or (try_from 64 (ext_length e))
              (SparseError.Overflow "extent length");
        dst_end ← ok_or (checked_add 64 dst_start n)
                    (SparseError.Overflow "extent end");
        src_end ← ok_or (checked_add 64 payload_pos n)
                    (SparseError.Overflow "payload position");
        if src_end >? len payload then
          Err (SparseError.Truncated
                 "payload too short for declared sparse extents")
        else
          src ← slice_r payload payload_pos src_end;
          output ← copy_at_r output dst_start src;
          scatter_loop rest payload logical_size src_end output
  end.

(** [apply_sparse_reconstruction]. *)
Definition apply_sparse_reconstruction (payload : list byte)
    (extents : list SparseExtent) (logical_size : Z) (limits : SparseLimits)
    : result SparseError.t (list byte) :=
  _ ← check_decoded_entry_size limits logical_size;
  logical_size_usize ← allocation_len limits logical_size "logical size usize";
  _ ← validate_sparse_extents extents logical_size limits;
  '(output, payload_pos) ←
    scatter_loop extents payload logical_size 0 (zeros logical_size_usize);
  if negb (payload_pos =? len payload) then
    Err (SparseError.InvalidMap
           "sparse payload has excess bytes beyond declared extents")
  else Ok output.

(** ** Specification *)

(** A [u64] pair. *)
Definition extent_wf (e : SparseExtent) : Prop :=
  fits 64 (ext_offset e) ∧ fits 64 (ext_length e).

(** Extents are non-empty, ascending, disjoint and inside the file. *)
Fixpoint extents_ok (last_end logical_size : Z) (es : list SparseExtent)
    : Prop :=
  match es with
  | [] => True
  | e :: es =>
      0 < ext_length e ∧ last_end ≤ ext_offset e
      ∧ ext_offset e + ext_length e ≤ logical_size
      ∧ extents_ok (ext_offset e + ext_length e) logical_size es
  end.

Fixpoint total_length (es : list SparseExtent) : Z :=
  match es with [] => 0 | e :: es => ext_length e + total_length es end.

(** The extent an offset falls in, if any. *)
Definition in_extent (i : Z) (e : SparseExtent) : Prop :=
  ext_offset e ≤ i < ext_offset e + ext_length e.

(** Reading the extents of a logical file back, in order. *)
Definition gather (file : list byte) (es : list SparseExtent) : list byte :=
  concat ((λ e, slice file (ext_offset e) (ext_offset e + ext_length e)) <$> es).

Lemma total_length_bound es last logical :
  0 ≤ last ≤ logical → extents_ok last logical es →
  0 ≤ total_length es ≤ logical - last.
Proof.
  revert last. induction es as [|e es IH]; cbn; intros last Hl H; [lia|].
  destruct H as (? & ? & ? & H). apply IH in H; lia.
Qed.

(** The validation loop accepts exactly the well-placed extents; in particular
    its two overflow checks never fire on them. *)
Lemma validate_loop_ok es logical last total :
  Forall extent_wf es → 0 ≤ last ≤ logical → 0 ≤ total ≤ last →
  logical < 2 ^ 64 →
  validate_loop es logical last total = Ok tt ↔ extents_ok last logical es.
Proof.
  intros Hwf. revert last total.
  induction Hwf as [|e es [[? ?] [? ?]] Hes IH]; intros last total Hl Ht Hm;
    [done|]. cbn [validate_loop extents_ok].
  destruct (Z.eqb_spec (ext_length e) 0); [split; [done|lia]|].
  unfold checked_add.
  destruct (Z.ltb_spec (ext_offset e + ext_length e) (2 ^ 64)); cbn;
    [|split; [done|lia]].
  destruct (Z.gtb_spec (ext_offset e + ext_length e) logical);
    [split; [done|lia]|].
  destruct (Z.ltb_spec (ext_offset e) last); [split; [done|lia]|].
  destruct (Z.ltb_spec (total + ext_length e) (2 ^ 64)); cbn; [|lia].
  rewrite IH by lia. naive_solver lia.
Qed.

(** The scatter loop on valid extents: it succeeds when the payload is long
    enough, keeps the buffer length, leaves every byte outside the extents
    alone, and puts consecutive payload bytes into the extents. *)
Lemma scatter_loop_ok es payload logical last pos out :
  Forall extent_wf es → extents_ok last logical es → 0 ≤ last →
  len out = logical → logical < 2 ^ 64 → len payload < 2 ^ 64 →
  0 ≤ pos → pos + total_length es ≤ len payload →
  ∃ out', scatter_loop es payload logical pos out
            = Ok (out', pos + total_length es)
    ∧ len out' = logical
    ∧ (∀ a b, 0 ≤ a ≤ b → b ≤ last → slice out' a b = slice out a b)
    ∧ (∀ i : nat, Forall (λ e, ¬ in_extent (Z.of_nat i) e) es →
         out' !! i = out !! i)
    ∧ gather out' es = slice payload pos (pos + total_length es).
Proof.
  intros Hwf. revert last pos out.
  induction Hwf as [|e es [[? ?] [? ?]] Hes IH];
    intros last pos out Hok Hlast Hlen Hm Hp Hpos Htot.
  { exists out. cbn. rewrite Z.add_0_r, slice_empty. done. }
  cbn [scatter_loop extents_ok total_length] in *.
  destruct Hok as (Hne & Hord & Hin & Hok).
  assert (0 ≤ total_length es) by (eapply total_length_bound in Hok; lia).
  unfold checked_add, try_from.
  destruct (Z.ltb_spec (ext_offset e + ext_length e) (2 ^ 64)); [|lia]. cbn.
  destruct (Z.gtb_spec (ext_offset e + ext_length e) logical); [lia|].
  destruct (Z.ltb_spec (ext_offset e) (2 ^ 64)); [|lia]. cbn.
  destruct (Z.ltb_spec (ext_length e) (2 ^ 64)); [|lia]. cbn.
  destruct (Z.ltb_spec (ext_offset e + ext_length e) (2 ^ 64)); [|lia]. cbn.
  destruct (Z.ltb_spec (pos + ext_length e) (2 ^ 64)); [|lia]. cbn.
  destruct (Z.gtb_spec (pos + ext_length e) (len payload)); [lia|].
  assert (Hs : slice_r (E:=SparseError.t) payload pos (pos + ext_length e)
               = Ok (slice payload pos (pos + ext_length e)))
    by (apply slice_r_Ok; repeat split; lia).
  rewrite Hs. cbn. clear Hs.
  set (src := slice payload pos (pos + ext_length e)).
  assert (Hsrc : len src = ext_length e) by (unfold src; rewrite len_slice; lia).
  unfold copy_at_r. rewrite Hsrc.
  destruct (andb _ _) eqn:E; [|lia]. cbn. clear E.
  destruct (IH (ext_offset e + ext_length e) (pos + ext_length e)
              (copy_at out (ext_offset e) src))
    as (out' & -> & Hlen' & Hbelow & Houts & Hg); try lia; [done| |].
  { rewrite len_copy_at; lia. }
  exists out'. split; [do 2 f_equal; lia|]. split; [done|].
  split; [|split].
  - intros a b Hab Hb. rewrite Hbelow by lia.
    apply slice_copy_at_disjoint; lia.
  - intros i Hi. apply Forall_cons in Hi as [Hi1 Hi2].
    rewrite Houts by done. rewrite lookup_copy_at by lia.
    rewrite Hsrc. destruct (andb _ _) eqn:E; [|done].
    exfalso. apply Hi1. unfold in_extent. lia.
  - unfold gather in *. cbn [fmap list_fmap concat]. rewrite Hg.
    rewrite Hbelow by lia.
    rewrite <- Hsrc at 1. rewrite slice_copy_at_same by lia. unfold src.
    rewrite slice_app_split by lia. f_equal. lia.
Qed.

(** The limits of a call: the count, size and allocation checks all pass. *)
Definition limits_allow (limits : SparseLimits) (count logical_size : Z) : Prop :=
  count ≤ max_sparse_descriptors limits
  ∧ logical_size ≤ max_decoded_entry_size limits
  ∧ logical_size ≤ max_allocation_bytes limits
  ∧ logical_size ≤ ISIZE_MAX.

Lemma validate_ok es logical limits :
  Forall extent_wf es → fits 64 logical →
  validate_sparse_extents es logical limits = Ok tt ↔
    len es ≤ max_sparse_descriptors limits ∧ extents_ok 0 logical es.
Proof.
  intros Hwf [? ?]. unfold validate_sparse_extents,
    check_sparse_descriptor_count.
  destruct (Z.gtb_spec (len es) (max_sparse_descriptors limits)); cbn;
    [split; [done|lia]|].
  rewrite validate_loop_ok by (done || lia). naive_solver.
Qed.

Lemma allocation_len_ok limits n c :
  allocation_len limits n c = Ok n ↔
    n ≤ max_allocation_bytes limits ∧ n ≤ ISIZE_MAX.
Proof.
  unfold allocation_len, try_from, ISIZE_MAX.
  destruct (Z.gtb_spec n (max_allocation_bytes limits)); cbn;
    [split; [done|lia]|].
  destruct (Z.ltb_spec n (2 ^ 64)); cbn; [|split; [done|lia]].
  destruct (Z.gtb_spec n (2 ^ 63 - 1)); cbn; [split; [done|lia]|].
  split; [lia | done].
Qed.

(** Reconstruction succeeds as soon as the limits allow it, the extents are
    well placed and the payload has exactly the declared number of bytes. *)
Lemma apply_ok payload es logical limits :
  Forall extent_wf es → fits 64 logical → len payload < 2 ^ 64 →
  limits_allow limits (len es) logical → extents_ok 0 logical es →
  total_length es = len payload →
  ∃ out, apply_sparse_reconstruction payload es logical limits = Ok out
    ∧ len out = logical
    ∧ gather out es = payload
    ∧ (∀ i : nat, Z.of_nat i < logical →
         Forall (λ e, ¬ in_extent (Z.of_nat i) e) es → out !! i = Some x00).
Proof.
  intros Hwf Hfit Hp (Hc & Hd & Ha & Hi) Hok Htot.
  pose proof Hfit as [? ?].
  unfold apply_sparse_reconstruction, check_decoded_entry_size.
  destruct (Z.gtb_spec logical (max_decoded_entry_size limits)); [lia|]. cbn.
  rewrite (proj2 (allocation_len_ok _ _ _)) by done. cbn.
  rewrite (proj2 (validate_ok _ _ _ Hwf Hfit)) by done. cbn.
  destruct (scatter_loop_ok es payload logical 0 0 (zeros logical))
    as (out & -> & Hl & _ & Houts & Hg); try done; try lia.
  { apply len_zeros; lia. }
  cbn. rewrite Z.add_0_l, Htot, Z.eqb_refl. cbn.
  exists out. split; [done|]. split; [done|]. split.
  - by rewrite Hg, Z.add_0_l, Htot, slice_full.
  - intros i Hil Hi'. rewrite Houts by done. by apply lookup_zeros.
Qed.

(** The scatter loop fails when the payload is too short for valid extents. *)
Lemma scatter_loop_pos es payload logical pos out out' pos' :
  scatter_loop es payload logical pos out = Ok (out', pos') →
  pos' = pos + total_length es.
Proof.
  revert pos out. induction es as [|e es IH]; cbn; intros pos out H.
  - injection H as <- <-. lia.
  - inv_ok. match goal with
    | H : scatter_loop _ _ _ _ _ = _ |- _ => apply IH in H; lia end.
Qed.

Lemma sparse_accepts_iff payload es logical limits :
  Forall extent_wf es → fits 64 logical → len payload < 2 ^ 64 →
  (is_ok (apply_sparse_reconstruction payload es logical limits) = true ↔
     limits_allow limits (len es) logical ∧ extents_ok 0 logical es
     ∧ total_length es = len payload).
Proof.
  intros Hwf Hfit Hp. split.
  - destruct (apply_sparse_reconstruction payload es logical limits)
      as [out| |] eqn:E; try discriminate. intros _.
    unfold apply_sparse_reconstruction, check_decoded_entry_size in E.
    apply bind_Ok in E as ([] & Hd & E). apply bind_Ok in E as (n & Ha & E).
    apply bind_Ok in E as ([] & Hv & E).
    apply bind_Ok in E as ([out' pos] & Hs & E).
    apply scatter_loop_pos in Hs. apply validate_ok in Hv; [|done..].
    assert (n = logical) as -> by (unfold allocation_len in Ha; by inv_ok).
    apply allocation_len_ok in Ha. destruct Hv, Ha.
    inv_ok. unfold limits_allow. split_and!; (done || lia).
  - intros (Hlim & Hok & Htot).
    by destruct (apply_ok payload es logical limits) as (out & -> & _).
Qed.

Lemma validate_loop_no_panic es logical last total :
  no_panic (validate_loop es logical last total).
Proof.
  revert last total. induction es; cbn; intros; [done|]. np.
Qed.

(** No input makes the reconstruction panic: every slice it takes was bounds
    checked first. *)
Lemma scatter_no_panic es payload logical pos out :
  Forall extent_wf es → 0 ≤ pos → len out = logical →
  no_panic (scatter_loop es payload logical pos out).
Proof.
  intros Hwf. revert pos out.
  induction Hwf as [|e es [[? ?] [? ?]] Hes IH]; intros pos out Hpos Hout;
    cbn [scatter_loop]; [done|].
  apply no_panic_bind; [apply no_panic_ok_or|]. intros fin Hf. inv_ok.
  case_match; [done|].
  apply no_panic_bind; [apply no_panic_ok_or|]. intros ds Hd. inv_ok.
  apply no_panic_bind; [apply no_panic_ok_or|]. intros n Hn. inv_ok.
  apply no_panic_bind; [apply no_panic_ok_or|]. intros de Hde. inv_ok.
  apply no_panic_bind; [apply no_panic_ok_or|]. intros se Hse. inv_ok.
  case_match; [done|].
  assert (Hs : slice_r (E:=SparseError.t) payload pos (pos + ext_length e)
               = Ok (slice payload pos (pos + ext_length e)))
    by (apply slice_r_Ok; repeat split; lia).
  rewrite Hs. cbn. unfold copy_at_r.
  rewrite len_slice by lia.
  destruct (andb _ _) eqn:E; [|lia]. cbn.
  apply IH; [lia|]. rewrite len_copy_at; rewrite ?len_slice; lia.
Qed.

(** [apply_sparse_reconstruction] succeeds exactly when the limits allow
    the file, the extents are non-empty, ascending, disjoint and inside the
    logical size, and the payload has exactly the declared number of bytes; in
    every other case it returns an error (it never panics). *)
Theorem sparse_reconstruction_accepts payload es logical limits :
  Forall extent_wf es → fits 64 logical → len payload < 2 ^ 64 →
  (is_ok (apply_sparse_reconstruction payload es logical limits) = true ↔
     limits_allow limits (len es) logical ∧ extents_ok 0 logical es
     ∧ total_length es = len payload)
  ∧ no_panic (apply_sparse_reconstruction payload es logical limits).
Proof.
  intros Hwf Hfit Hp. split; [by apply sparse_accepts_iff|].
  assert (0 ≤ logical) by apply Hfit.
  unfold apply_sparse_reconstruction, check_decoded_entry_size, allocation_len,
    validate_sparse_extents, check_sparse_descriptor_count.
  np.
  - apply validate_loop_no_panic.
  - eapply scatter_no_panic; [done|lia|]. inv_ok. apply len_zeros; lia.
Qed.

(** A successful reconstruction is the sparse file the map describes: it
    has the logical size, reading its extents back in order gives the payload,
    and every byte outside the extents is zero. *)
Theorem sparse_reconstruction_bytes payload es logical limits out :
  Forall extent_wf es → fits 64 logical → len payload < 2 ^ 64 →
  apply_sparse_reconstruction payload es logical limits = Ok out →
  len out = logical ∧ gather out es = payload
  ∧ (∀ i : nat, Z.of_nat i < logical →
       Forall (λ e, ¬ in_extent (Z.of_nat i) e) es → out !! i = Some x00).
Proof.
  intros Hwf Hfit Hp E.
  assert (Hacc : is_ok (apply_sparse_reconstruction payload es logical limits)
                 = true) by by rewrite E.
  apply sparse_accepts_iff in Hacc as (Hlim & Hok & Htot); [|done..].
  destruct (apply_ok payload es logical limits) as (out' & E' & Hspec);
    try done.
  rewrite E in E'. by injection E' as <-.
Qed.

Definition demo_extents : list SparseExtent :=
  [ {| ext_offset := 0; ext_length := 2 |}; {| ext_offset := 6; ext_length := 2 |} ].

Lemma sparse_reconstruction_accepts_witness :
  is_ok (apply_sparse_reconstruction [x41; x42; x43; x44] demo_extents 8
           unlimited) = true.
Proof.
  apply sparse_reconstruction_accepts.
  - repeat constructor; vm_compute; discriminate.
  - split; vm_compute; [discriminate|reflexivity].
  - reflexivity.
  - split; [|split]; [|cbn; lia|reflexivity].
    repeat split; vm_compute; discriminate.
Defined.

Lemma sparse_reconstruction_bytes_witness :
  len [x41; x42; x00; x00; x00; x00; x43; x44] = 8
  ∧ gather [x41; x42; x00; x00; x00; x00; x43; x44] demo_extents
    = [x41; x42; x43; x44].
Proof.
  destruct (sparse_reconstruction_bytes [x41; x42; x43; x44] demo_extents 8
              unlimited [x41; x42; x00; x00; x00; x00; x43; x44])
    as (H1 & H2 & _).
  - repeat constructor; vm_compute; discriminate.
  - split; vm_compute; [discriminate|reflexivity].
  - reflexivity.
  - vm_compute; reflexivity.
  - exact (conj H1 H2).
Defined.

End Sparse.
