(* ===== verification/Fragmentation.v ===== *)
(** * Fragment groups

    Models [crates/sar-fragmentation/src/lib.rs]: the descriptor checks on a
    fragment group and the reassembly of the logical file.  The theorems show
    that the result does not depend on the order the fragments arrive in, what
    bytes a successful reassembly contains, when it is reported as degraded, and
    that a group without [LOSS_TOLERANT] is reassembled completely or refused. *)

From S2P Require Import Prelude Errors LossTolerant.
Import LossTolerant.

Module Fragmentation.

(** [struct FragmentLimits]. *)
Record FragmentLimits := {
  max_fragment_count : Z;
  max_fragment_group_span : Z;
  max_decoded_entry_size : Z;
  max_loss_tolerant_gap : Z;
  max_allocation_bytes : Z;
}.

(** [FragmentLimits::unlimited]. *)
Definition unlimited : FragmentLimits := {|
  max_fragment_count := USIZE_MAX;
  max_fragment_group_span := U64_MAX;
  max_decoded_entry_size := U64_MAX;
  max_loss_tolerant_gap := U64_MAX;
  max_allocation_bytes := U64_MAX;
|}.

Definition check_fragment_count (l : FragmentLimits) (count : Z)
    : result FragmentError.t unit :=
  if count >? max_fragment_count l then
    Err (FragmentError.LimitExceeded "fragment count exceeds configured limit")
  else Ok tt.

Definition check_fragment_group_span (l : FragmentLimits) (bytes : Z)
    : result FragmentError.t unit :=
  if bytes >? max_fragment_group_span l then
    Err (FragmentError.LimitExceeded
           "fragment group span exceeds configured limit")
  else Ok tt.

Definition check_decoded_entry_size (l : FragmentLimits) (bytes : Z)
    : result FragmentError.t unit :=
  if bytes >? max_decoded_entry_size l then
    Err (FragmentError.LimitExceeded
           "decoded entry size exceeds configured limit")
  else Ok tt.

Definition check_loss_tolerant_gap (l : FragmentLimits) (bytes : Z)
    : result FragmentError.t unit :=
  if bytes >? max_loss_tolerant_gap l then
    Err (FragmentError.LimitExceeded
           "loss-tolerant gap exceeds configured limit")
  else Ok tt.

Definition allocation_len (l : FragmentLimits) (bytes : Z) (context : string)
    : result FragmentError.t Z :=
  if bytes >? max_allocation_bytes l then
    Err (FragmentError.LimitExceeded "allocation exceeds configured limit")
  else
    n ← ok_or (try_from 64 bytes) (FragmentError.Overflow context);
    if n >? ISIZE_MAX then Err (FragmentError.Overflow context) else Ok n.

(** [struct FragmentDescriptor]. *)
Record FragmentDescriptor := { absolute_offset : Z; fragment_size : Z }.

(** [struct FragmentEntry]. *)
Record FragmentEntry := {
  fragment_index : Z;
  is_last_fragment : bool;
  is_loss_tolerant : bool;
  descriptor : FragmentDescriptor;
  payload : list byte;
}.

(** The integer fields hold values of their machine types. *)
Definition frag_wf (f : FragmentEntry) : Prop :=
  fits 32 (fragment_index f) ∧ fits 64 (absolute_offset (descriptor f))
  ∧ fits 32 (fragment_size (descriptor f)).

Abbreviation frag_off f := (absolute_offset (descriptor f)).
Abbreviation frag_size f := (fragment_size (descriptor f)).
Abbreviation frag_end f := (frag_off f + frag_size f).

(** The bounds loop of [validate_fragment_group]. *)
Fixpoint bounds_loop (fs : list FragmentEntry) (logical_size : Z)
    : result FragmentError.t unit :=
  match fs with
  | [] => Ok tt
  | f :: fs =>
      fin ← ok_or (checked_add 64 (frag_size f) (frag_off f))
              (FragmentError.Overflow "fragment descriptor end overflow");
      if fin >? logical_size then
        Err (FragmentError.Bounds
               "fragment descriptor extends beyond logical file size")
      else bounds_loop fs logical_size
  end.

(** The overlap loop of [validate_fragment_group], over the descriptors sorted
    by offset. *)
Fixpoint overlap_loop (sorted : list FragmentEntry) (last_end : Z)
    : result FragmentError.t unit :=
  match sorted with
  | [] => Ok tt
  | f :: fs =>
      if frag_off f <? last_end then
        Err (FragmentError.InvalidMap "fragment descriptors overlap")
      else
        fin ← ok_or (checked_add 64 (frag_off f) (frag_size f))
                (FragmentError.Overflow "fragment end overflow");
        overlap_loop fs fin
  end.

(** [validate_fragment_group]. *)
Definition validate_fragment_group (fragments : list FragmentEntry)
    (logical_size : Z) (limits : FragmentLimits)
    : result FragmentError.t unit :=
  _ ← check_fragment_count limits (len fragments);
  _ ← check_fragment_group_span limits logical_size;
  _ ← bounds_loop fragments logical_size;
  overlap_loop (sort_by_key (λ f, frag_off f) fragments) 0.

(** The payload-size loop of [reconstruct_fragments]. *)
Fixpoint payload_size_loop (fs : list FragmentEntry)
    : result FragmentError.t unit :=
  match fs with
  | [] => Ok tt
  | f :: fs =>
      if negb (len (payload f) =? frag_size f) then
        Err (FragmentError.PayloadSizeMismatch
               "fragment payload length does not match descriptor fragment_size")
      else payload_size_loop fs
  end.

(** The byte-range gap loop of [reconstruct_fragments]; returns [last_end] and
    [has_descriptor_gap]. *)
Fixpoint gap_loop (sorted : list FragmentEntry) (tolerant : bool)
    (limits : FragmentLimits) (last_end : Z) (has_gap : bool)
    : result FragmentError.t (Z * bool) :=
  match sorted with
  | [] => Ok (last_end, has_gap)
  | f :: fs =>
      has_gap ←
        (if frag_off f >? last_end then
           gap ← ok_or (checked_sub (frag_off f) last_end)
                   (FragmentError.Overflow "fragment gap");
           if negb (gap_degraded_output_permitted tolerant) then
             Err (FragmentError.FragmentGap "fragment descriptor byte-range gap")
           else
             _ ← check_loss_tolerant_gap limits gap; Ok true
         else Ok has_gap);
      last_end ← ok_or (checked_add 64 (frag_off f) (frag_size f))
                   (FragmentError.Overflow "fragment end overflow");
      gap_loop fs tolerant limits last_end has_gap
  end.

(** The scatter loop of [reconstruct_fragments]. *)
Fixpoint scatter_loop (fs : list FragmentEntry) (buf_size : Z)
    (output : list byte) : result FragmentError.t (list byte) :=
  match fs with
  | [] => Ok output
  | f :: fs =>
      dst_start ← ok_or (try_from 64 (frag_off f))
                    (FragmentError.Overflow "fragment offset usize");
      dst_end ← ok_or (checked_add 64 dst_start (len (payload f)))
                  (FragmentError.Overflow "fragment end usize");
      if dst_end >? buf_size then
        Err (FragmentError.Bounds
               "fragment payload extends beyond logical file size")
      else
        output ← copy_at_r output dst_start (payload f);
        scatter_loop fs buf_size output
  end.

(** [has_index_gap]: no last-fragment marker, or two consecutive fragments
    whose indices do not follow each other ([wrapping_add] on [u32]). *)
Definition index_gap (fragments : list FragmentEntry) : bool :=
  negb (existsb is_last_fragment fragments)
  || existsb (λ '(f, g), negb (fragment_index g =? (fragment_index f + 1) mod 2 ^ 32))
       (windows2 fragments).

(** The part of [reconstruct_fragments] after the sort by index and the
    duplicate check. *)
Definition reconstruct_sorted (fragments : list FragmentEntry)
    (logical_size : Z) (limits : FragmentLimits)
    : result FragmentError.t (list byte * bool) :=
  _ ← payload_size_loop fragments;
  let tolerant := existsb is_loss_tolerant fragments in
  let has_index_gap := index_gap fragments in
  if has_index_gap && negb (gap_degraded_output_permitted tolerant) then
    Err (FragmentError.FragmentGap
           "fragment index gap or missing last-fragment marker")
  else
    _ ← validate_fragment_group fragments logical_size limits;
    '(last_end, gap) ←
      gap_loop (sort_by_key (λ f, frag_off f) fragments) tolerant limits 0 false;
    gap ←
      (if logical_size >? last_end then
         tail ← ok_or (checked_sub logical_size last_end)
                  (FragmentError.Overflow "fragment tail gap");
         if negb (gap_degraded_output_permitted tolerant) then
           Err (FragmentError.FragmentGap "fragment descriptor byte-range gap")
         else
           _ ← check_loss_tolerant_gap limits tail; Ok true
       else Ok gap);
    buf_size ← allocation_len limits logical_size "logical size usize";
    output ← scatter_loop fragments buf_size (zeros buf_size);
    Ok (output, has_index_gap || gap).

(** [reconstruct_fragments]. *)
Definition reconstruct_fragments (fragments : list FragmentEntry)
    (logical_size : Z) (limits : FragmentLimits)
    : result FragmentError.t (list byte * bool) :=
  _ ← check_fragment_count limits (len fragments);
  _ ← check_fragment_group_span limits logical_size;
  _ ← check_decoded_entry_size limits logical_size;
  if bool_decide (fragments = []) then
    buf_size ← allocation_len limits logical_size "logical size";
    Ok (zeros buf_size, false)
  else
    let fragments := sort_by_key fragment_index fragments in
    if existsb (λ '(f, g), fragment_index f =? fragment_index g)
         (windows2 fragments) then
      Err (FragmentError.DuplicateIndex "duplicate fragment_index detected")
    else reconstruct_sorted fragments logical_size limits.

(** ** Specification *)

Definition frag_ok (logical_size : Z) (f : FragmentEntry) : Prop :=
  len (payload f) = frag_size f ∧ frag_end f ≤ logical_size.

(** Two descriptors do not overlap. *)
Definition disjoint_frags (f g : FragmentEntry) : Prop :=
  frag_end f ≤ frag_off g ∨ frag_end g ≤ frag_off f.

Fixpoint pairwise_disjoint (fs : list FragmentEntry) : Prop :=
  match fs with
  | [] => True
  | f :: fs => Forall (disjoint_frags f) fs ∧ pairwise_disjoint fs
  end.

(** Byte [i] of the logical file belongs to fragment [f]. *)
Definition covers (i : Z) (f : FragmentEntry) : Prop :=
  frag_off f ≤ i < frag_end f.

(** [out] is the file the fragments describe: every payload is in its place
    and every byte no fragment covers is zero. *)
Definition assembled (fs : list FragmentEntry) (logical_size : Z)
    (out : list byte) : Prop :=
  len out = logical_size
  ∧ Forall (λ f, slice out (frag_off f) (frag_end f) = payload f) fs
  ∧ (∀ i : nat, Z.of_nat i < logical_size →
       Forall (λ f, ¬ covers (Z.of_nat i) f) fs → out !! i = Some x00).

Lemma pairwise_disjoint_perm fs gs :
  fs ≡ₚ gs → pairwise_disjoint fs → pairwise_disjoint gs.
Proof.
  induction 1 as [|f fs gs Hp IH|f g fs|fs gs hs _ IH1 _ IH2]; cbn;
    [done| | |by auto].
  - intros [H1 H2]. split; [by rewrite <- Hp | auto].
  - intros [[H1 H2]%Forall_cons [H3 H4]]. split; [|by split].
    constructor; [|done]. unfold disjoint_frags in *. lia.
Qed.

(** The overlap loop accepts a list only if each descriptor starts at or after
    the end of the previous one. *)
Lemma overlap_loop_disjoint fs last :
  Forall frag_wf fs → overlap_loop fs last = Ok tt →
  Forall (λ f, last ≤ frag_off f) fs ∧ pairwise_disjoint fs.
Proof.
  intros Hwf. revert last.
  induction Hwf as [|f fs (? & [? ?] & [? ?]) Hfs IH]; intros last Hrun; [done|].
  cbn [overlap_loop] in Hrun. inv_ok.
  match goal with H : overlap_loop _ _ = _ |- _ => apply IH in H as [Hb Hd] end.
  split.
  - constructor; [lia|]. eapply Forall_impl; [exact Hb|]. cbn. intros. lia.
  - cbn. split; [|done]. eapply Forall_impl; [exact Hb|].
    unfold disjoint_frags. cbn. intros. lia.
Qed.

Lemma bounds_loop_ok fs logical :
  bounds_loop fs logical = Ok tt → Forall (λ f, frag_end f ≤ logical) fs.
Proof.
  induction fs as [|f fs IH]; cbn; intros H; [constructor|].
  inv_ok. constructor; [lia | auto].
Qed.

Lemma payload_size_loop_ok fs :
  payload_size_loop fs = Ok tt ↔ Forall (λ f, len (payload f) = frag_size f) fs.
Proof.
  induction fs as [|f fs IH]; cbn; [done|].
  rewrite Forall_cons. destruct (Z.eqb_spec (len (payload f)) (frag_size f));
    cbn; [rewrite IH; naive_solver|naive_solver].
Qed.

Lemma allocation_len_id limits n c m :
  allocation_len limits n c = Ok m → m = n.
Proof. unfold allocation_len. intros. by inv_ok. Qed.

(** Scattering pairwise disjoint fragments in any order. *)
Lemma scatter_loop_spec fs logical out out' :
  Forall frag_wf fs → Forall (frag_ok logical) fs → pairwise_disjoint fs →
  len out = logical → scatter_loop fs logical out = Ok out' →
  len out' = logical
  ∧ Forall (λ f, slice out' (frag_off f) (frag_end f) = payload f) fs
  ∧ (∀ i : nat, Forall (λ f, ¬ covers (Z.of_nat i) f) fs →
       out' !! i = out !! i)
  ∧ (∀ f, frag_wf f → frag_end f ≤ logical → Forall (disjoint_frags f) fs →
       slice out' (frag_off f) (frag_end f)
       = slice out (frag_off f) (frag_end f)).
Proof.
  intros Hwf. revert out.
  induction Hwf as [|f fs Hf Hfs IH];
    intros out Hok Hdis Hlen Hrun; cbn [scatter_loop] in Hrun.
  { by injection Hrun as <-. }
  pose proof Hf as (? & [? ?] & [? ?]).
  apply Forall_cons in Hok as [[Hpl Hend] Hok]. destruct Hdis as [Hd Hdis].
  inv_ok. unfold copy_at_r in *.
  match goal with H : (if ?b then _ else Panic) = Ok _ |- _ =>
    destruct b eqn:Hb; [injection H as <-|discriminate H] end.
  match goal with H : scatter_loop _ _ _ = _ |- _ =>
    apply IH in H as (Hl & Hsl & Hout & Hfr); [|done|done|] end.
  2: { rewrite len_copy_at; lia. }
  split; [done|]. split; [|split].
  - constructor; [|done]. rewrite Hfr by (done || lia).
    rewrite <- Hpl. apply slice_copy_at_same; lia.
  - intros i Hi. apply Forall_cons in Hi as [Hi1 Hi2].
    rewrite Hout by done. rewrite lookup_copy_at by lia.
    dif as E; [|done]. exfalso. apply Hi1.
    unfold covers. lia.
  - intros g Hwg Hg Hdg. pose proof Hwg as (? & [? ?] & [? ?]).
    apply Forall_cons in Hdg as [Hdg1 Hdg2].
    rewrite Hfr by (done || lia).
    unfold disjoint_frags in Hdg1. apply slice_copy_at_disjoint; lia.
Qed.

(** The gap loop: without a tolerant fragment it accepts only gap-free lists;
    when it reports no gap, every byte up to [last_end] is covered. *)
Lemma gap_loop_spec fs tolerant limits last last' gap gap' :
  gap_loop fs tolerant limits last gap = Ok (last', gap') →
  (gap = true → gap' = true)
  ∧ (tolerant = false → gap' = gap)
  ∧ (gap' = false → ∀ i, last ≤ i < last' → Exists (covers i) fs).
Proof.
  revert last gap. induction fs as [|f fs IH]; cbn [gap_loop]; intros last gap H.
  { injection H as <- <-. split_and!; [done..|]. intros. lia. }
  apply bind_Ok in H as (gap1 & Hg & H). apply bind_Ok in H as (last1 & Hl & H).
  inv_ok. apply IH in H as (Ha & Hb & Hc).
  destruct (Z.gtb_spec (frag_off f) last).
  - destruct tolerant; cbn in Hg; inv_ok.
    split_and!; [auto|done|]. intros ->. by specialize (Ha eq_refl).
  - injection Hg as <-. split_and!; [auto|auto|].
    intros -> i Hi. destruct (decide (i < frag_end f)).
    + left. unfold covers. lia.
    + right. apply Hc; [done|lia].
Qed.

(** ** Reassembly of a group sorted by index *)

Lemma reconstruct_sorted_spec fs logical limits out degraded :
  Forall frag_wf fs → 0 ≤ logical →
  reconstruct_sorted fs logical limits = Ok (out, degraded) →
  assembled fs logical out
  ∧ (existsb is_loss_tolerant fs = false → degraded = false)
  ∧ (degraded = false →
       index_gap fs = false
       ∧ ∀ i, 0 ≤ i < logical → Exists (covers i) fs).
Proof.
  intros Hwf Hlog H. unfold reconstruct_sorted in H.
  apply bind_Ok in H as ([] & Hps & H).
  destruct (index_gap fs && _) eqn:Hig; [discriminate|].
  apply bind_Ok in H as ([] & Hval & H).
  apply bind_Ok in H as ([last gap] & Hgl & H).
  apply bind_Ok in H as (gap2 & Htail & H).
  apply bind_Ok in H as (bs & Hal & H).
  apply bind_Ok in H as (out' & Hsc & H). injection H as <- <-.
  apply allocation_len_id in Hal as ->.
  unfold validate_fragment_group in Hval.
  apply bind_Ok in Hval as ([] & _ & Hval).
  apply bind_Ok in Hval as ([] & _ & Hval).
  apply bind_Ok in Hval as ([] & Hb & Ho).
  apply bounds_loop_ok in Hb. apply payload_size_loop_ok in Hps.
  set (sorted := sort_by_key _ fs) in *.
  assert (Hperm : sorted ≡ₚ fs) by apply sort_by_key_perm.
  apply overlap_loop_disjoint in Ho as [_ Hd]; [|by rewrite Hperm].
  apply (pairwise_disjoint_perm _ fs) in Hd; [|done].
  assert (Hok : Forall (frag_ok logical) fs).
  { apply Forall_and. by split. }
  apply scatter_loop_spec in Hsc as (Hl & Hsl & Hout & _);
    [|try done..]. 2: { by apply len_zeros. }
  apply gap_loop_spec in Hgl as (_ & Hg2 & Hg3).
  split; [|split].
  - split_and!; [done..|]. intros i Hi Hc. rewrite Hout by done.
    by apply lookup_zeros.
  - intros Ht. rewrite Ht in *. cbn in *. rewrite andb_true_r in Hig.
    rewrite Hig. cbn. rewrite (Hg2 eq_refl) in *.
    destruct (logical >? last); inv_ok; done.
  - intros [Hi Hg]%orb_false_iff. subst gap2. split; [done|]. intros i Hi'.
    destruct (Z.gtb_spec logical last); [by inv_ok|].
    injection Htail as ->. rewrite <- Hperm. apply Hg3; [done|lia].
Qed.

(** ** Properties of [reconstruct_fragments] *)

(** No group makes the reassembly panic. *)
Lemma fragments_scatter_no_panic fs out : Forall frag_wf fs → no_panic (scatter_loop fs (len out) out).
Proof.
  intros Hwf. revert out. induction Hwf as [|f fs (? & [? ?] & ?) Hfs IH]; intros out; [done|].
  cbn [scatter_loop]. apply no_panic_bind; [apply no_panic_ok_or|]. intros s [-> _]%ok_or_Ok%try_from_Some.
  apply no_panic_bind; [apply no_panic_ok_or|]. intros e [-> _]%ok_or_Ok%checked_add_Some.
  destruct (Z.gtb_spec (frag_off f + len (payload f)) (len out)); [done|].
  rewrite copy_at_r_fits by lia. cbn [mbind result_bind].
  rewrite <- (len_copy_at out (frag_off f) (payload f)) by lia. apply IH.
Qed.
Lemma loops_no_panic fs size tolerant limits last gap :
  no_panic (bounds_loop fs size) ∧ no_panic (overlap_loop fs last)
  ∧ no_panic (payload_size_loop fs) ∧ no_panic (gap_loop fs tolerant limits last gap).
Proof.
  revert last gap. induction fs as [|f fs IH]; intros last gap; [done|].
  cbn [bounds_loop overlap_loop payload_size_loop gap_loop]. split_and!.
  - apply no_panic_bind; [apply no_panic_ok_or|]. intros e _. case_match; [done|]. by apply (IH 0 gap).
  - case_match; [done|]. apply no_panic_bind; [apply no_panic_ok_or|]. intros e _. by apply (IH e gap).
  - case_match; [done|]. by apply (IH 0 gap).
  - apply no_panic_bind.
    + case_match; [|done]. apply no_panic_bind; [apply no_panic_ok_or|]. intros g _.
      case_match; [done|]. unfold check_loss_tolerant_gap. by case_match.
    + intros b _. apply no_panic_bind; [apply no_panic_ok_or|]. intros e _. by apply IH.
Qed.
Lemma reconstruct_sorted_no_panic fs logical limits :
  Forall frag_wf fs → 0 ≤ logical → no_panic (reconstruct_sorted fs logical limits).
Proof.
  intros Hwf Hl. unfold reconstruct_sorted, validate_fragment_group.
  apply no_panic_bind; [by apply (loops_no_panic fs 0 true limits 0 true)|]. intros [] _.
  case_match; [done|]. apply no_panic_bind.
  { apply no_panic_bind; [unfold check_fragment_count; by case_match|]. intros [] _.
    apply no_panic_bind; [unfold check_fragment_group_span; by case_match|]. intros [] _.
    apply no_panic_bind; [by apply (loops_no_panic fs logical true limits 0 true)|]. intros [] _.
    by apply (loops_no_panic _ 0 true limits 0 true). }
  intros [] _. apply no_panic_bind; [by apply (loops_no_panic _ 0 _ limits 0 false)|].
  intros [last gap] _. apply no_panic_bind.
  { case_match; [|done]. apply no_panic_bind; [apply no_panic_ok_or|]. intros g _.
    case_match; [done|]. unfold check_loss_tolerant_gap. by case_match. }
  intros g _. apply no_panic_bind.
  { unfold allocation_len. case_match; [done|]. apply no_panic_bind; [apply no_panic_ok_or|].
    intros n _. by case_match. }
  intros n Hn. apply no_panic_bind; [|done].
  assert (0 ≤ n) by (unfold allocation_len in Hn; repeat case_match; inv_ok; lia).
  rewrite <- (len_zeros n) at 1 by done. by apply fragments_scatter_no_panic.
Qed.
Lemma reconstruct_no_panic fs logical limits :
  Forall frag_wf fs → 0 ≤ logical → no_panic (reconstruct_fragments fs logical limits).
Proof.
  intros Hwf Hl. unfold reconstruct_fragments.
  apply no_panic_bind; [unfold check_fragment_count; by case_match|]. intros [] _.
  apply no_panic_bind; [unfold check_fragment_group_span; by case_match|]. intros [] _.
  apply no_panic_bind; [unfold check_decoded_entry_size; by case_match|]. intros [] _.
  case_match.
  - apply no_panic_bind; [|done]. unfold allocation_len. case_match; [done|].
    apply no_panic_bind; [apply no_panic_ok_or|]. intros n _. by case_match.
  - case_match; [done|]. apply reconstruct_sorted_no_panic; [|done].
    by rewrite (sort_by_key_perm fragment_index fs).
Qed.
Lemma reconstruct_permuted fs gs logical limits :
  fs ≡ₚ gs →
  reconstruct_fragments fs logical limits
  = reconstruct_fragments gs logical limits.
Proof.
  intros Hp. unfold reconstruct_fragments, len. rewrite Hp.
  destruct (decide (fs = [])) as [->|Hne].
  { apply Permutation_nil_l in Hp. by subst gs. }
  assert (gs ≠ []) by (intros ->; by apply Hne, Permutation_nil_r).
  rewrite !bool_decide_false by done.
  pose proof (windows2_dup_sort fragment_index fs) as Hf.
  pose proof (windows2_dup_sort fragment_index gs) as Hg.
  rewrite <- (fmap_Permutation fragment_index _ _ Hp) in Hg.
  destruct (existsb _ (windows2 (sort_by_key fragment_index fs))),
    (existsb _ (windows2 (sort_by_key fragment_index gs)));
    [done|naive_solver..|].
  rewrite (sort_by_key_unique fragment_index fs gs); [done|naive_solver|done].
Qed.

(** Reassembly does not depend on the order in which the fragments
    arrive: any permutation of the group gives the same result, error and
    degraded flag included. *)
Theorem reconstruct_order_independent fs gs logical limits :
  fs ≡ₚ gs →
  reconstruct_fragments fs logical limits
  = reconstruct_fragments gs logical limits.
Proof. apply reconstruct_permuted. Qed.

(** A successful reassembly of a non-empty group is the file its
    descriptors describe: the declared logical size, every fragment's payload
    at its absolute offset, and zeros wherever no fragment writes. *)
Theorem reconstruct_assembles fs logical limits out degraded :
  Forall frag_wf fs → fs ≠ [] → 0 ≤ logical →
  reconstruct_fragments fs logical limits = Ok (out, degraded) →
  assembled fs logical out.
Proof.
  intros Hwf Hne Hlog H. unfold reconstruct_fragments in H.
  rewrite bool_decide_false in H by done.
  do 3 apply bind_Ok in H as ([] & _ & H).
  destruct (existsb _ _); [discriminate|].
  apply reconstruct_sorted_spec in H as [(Hl & Hs & Hz) _];
    [|by rewrite sort_by_key_perm|done].
  rewrite sort_by_key_perm in Hs.
  split_and!; [done..|]. intros i Hi Hc. apply Hz; [done|].
  by rewrite sort_by_key_perm.
Qed.

(** Sorted indices without duplicates and without an index gap are an interval. *)
Lemma index_gap_interval fs :
  Sorted (λ f g, fragment_index f ≤ fragment_index g) fs → Forall frag_wf fs →
  NoDup (fragment_index <$> fs) → index_gap fs = false →
  Exists (λ f, is_last_fragment f = true) fs
  ∧ ∃ first, fragment_index <$> fs = seqZ first (len fs).
Proof.
  unfold index_gap. intros Hs Hwf Hd [Hl Hw]%orb_false_iff. split.
  { apply negb_false_iff, existsb_exists in Hl as (f & Hin & Hf).
    apply Exists_exists. exists f. by rewrite list_elem_of_In. }
  clear Hl. induction fs as [|f fs IH]; [by exists 0|].
  exists (fragment_index f). destruct fs as [|g fs]; [done|].
  cbn [windows2 existsb] in Hw. apply orb_false_iff in Hw as [Hfg Hw].
  apply Sorted_inv in Hs as [Hs Hle%HdRel_inv]. rewrite fmap_cons in Hd.
  apply NoDup_cons in Hd as [Hnin Hd]. apply Forall_cons in Hwf as [([? ?] & _) Hwf].
  destruct (IH Hs Hwf Hd Hw) as [k Hk].
  rewrite fmap_cons, Hk. rewrite fmap_cons, len_cons in Hk. pose proof (len_nonneg fs).
  rewrite seqZ_cons in Hk by lia. injection Hk as Hk _.
  assert (fragment_index f ≠ fragment_index g)
    by (intros E; apply Hnin; rewrite E; apply list_elem_of_here).
  rewrite !len_cons, (seqZ_cons (fragment_index f)) by lia. f_equal.
  apply negb_false_iff, Z.eqb_eq in Hfg.
  pose proof (Forall_inv Hwf) as ([? ?] & _).
  destruct (decide (fragment_index f + 1 < 2 ^ 32)).
  - rewrite Z.mod_small in Hfg by lia. f_equal; lia.
  - replace (fragment_index f + 1) with (2 ^ 32) in Hfg by lia.
    rewrite Z_mod_same_full in Hfg. lia.
Qed.

(** The byte of a fragment in the file it was placed in. *)
Lemma assembled_byte fs logical out f i :
  assembled fs logical out → Forall frag_wf fs → f ∈ fs → covers i f →
  out !! Z.to_nat i = payload f !! Z.to_nat (i - frag_off f).
Proof.
  intros (_ & Hs & _) Hwf Hin [H1 H2]. rewrite Forall_forall in Hs, Hwf.
  destruct (Hwf f Hin) as (_ & [? _] & [? _]).
  rewrite <- (Hs f Hin). unfold slice. rewrite lookup_take_lt, lookup_drop by lia.
  f_equal. lia.
Qed.

(** (C28) Fail closed: when no fragment of a non-empty group carries [LOSS_TOLERANT],
    a reassembly that succeeds is not degraded; and a result of a non-empty group that
    is not reported degraded is complete: the fragment indices are a permutation of
    consecutive numbers, starting with whatever index is the smallest (the code does not
    ask that it is 0), one of the fragments carries the last-fragment marker, and every
    byte of the logical file is the byte of a fragment that covers it. *)
Theorem reconstruct_fails_closed fs logical limits out degraded :
  Forall frag_wf fs → fs ≠ [] → 0 ≤ logical →
  reconstruct_fragments fs logical limits = Ok (out, degraded) →
  (Forall (λ f, is_loss_tolerant f = false) fs → degraded = false)
  ∧ (degraded = false →
       (∃ first, fragment_index <$> fs ≡ₚ seqZ first (len fs))
       ∧ Exists (λ f, is_last_fragment f = true) fs
       ∧ len out = logical
       ∧ ∀ i, 0 ≤ i < logical → ∃ f, f ∈ fs ∧ covers i f
           ∧ out !! Z.to_nat i = payload f !! Z.to_nat (i - frag_off f)).
Proof.
  intros Hwf Hne Hlog H. unfold reconstruct_fragments in H.
  rewrite bool_decide_false in H by done.
  do 3 apply bind_Ok in H as ([] & _ & H).
  destruct (existsb _ _) eqn:Hdup; [discriminate|].
  apply windows2_dup_sort in Hdup. pose proof (sort_by_key_perm fragment_index fs) as Hp.
  assert (Hwf' : Forall frag_wf (sort_by_key fragment_index fs)) by by rewrite Hp.
  apply reconstruct_sorted_spec in H as (Ha & Ht & Hd); [|done..]. split.
  - intros Hf. apply Ht, not_true_iff_false. rewrite existsb_exists.
    intros (f & Hin & Hft). rewrite <- Hp, Forall_forall in Hf.
    rewrite Hf in Hft; [done|]. by apply list_elem_of_In.
  - intros Hdeg. destruct (Hd Hdeg) as [Hi Hc].
    apply index_gap_interval in Hi as [Hl [first Hfst]];
      [|apply StronglySorted_Sorted, sort_by_key_sorted|done|by rewrite Hp]. rewrite Hp in Hl. split_and!; [|done|apply Ha|].
    + exists first. replace (len fs) with (len (sort_by_key fragment_index fs))
        by (unfold len; by rewrite Hp).
      by rewrite <- Hfst, (fmap_Permutation fragment_index _ _ Hp).
    + intros i Hil. destruct (proj1 (Exists_exists _ _) (Hc i Hil)) as (f & Hin & Hcov).
      exists f. split_and!; [by rewrite <- Hp|done|]. by eapply assembled_byte.
Qed.

(** ** Splitting a file and reassembling it *)

(** The fragments of a file cut into [chunks], numbered from [idx] and placed
    from [off] on, the last one marked. *)
Fixpoint fragments_of (idx off : Z) (chunks : list (list byte))
    : list FragmentEntry :=
  match chunks with
  | [] => []
  | c :: cs =>
      {| fragment_index := idx; is_last_fragment := bool_decide (cs = []);
         is_loss_tolerant := false;
         descriptor := {| absolute_offset := off; fragment_size := len c |};
         payload := c |} :: fragments_of (idx + 1) (off + len c) cs
  end.

Definition total_len (chunks : list (list byte)) : Z := len (concat chunks).

Lemma total_len_cons c cs : total_len (c :: cs) = len c + total_len cs.
Proof. unfold total_len. cbn. apply len_app. Qed.

Section fragments_of.
Implicit Types (cs : list (list byte)).

Lemma fragments_of_keys idx off cs :
  Forall (λ f, idx ≤ fragment_index f ∧ off ≤ frag_off f)
    (fragments_of idx off cs).
Proof.
  revert idx off. induction cs as [|c cs IH]; intros; cbn; [constructor|].
  constructor; cbn; [lia|]. eapply Forall_impl; [apply IH|].
  cbn. pose proof (len_nonneg c). lia.
Qed.
Lemma fragments_of_sorted_index idx off cs :
  StronglySorted (key_le fragment_index) (fragments_of idx off cs).
Proof.
  revert idx off. induction cs as [|c cs IH]; intros; cbn; constructor; [done|].
  eapply Forall_impl; [apply fragments_of_keys|]. unfold key_le. cbn. lia.
Qed.
Lemma fragments_of_sorted_off idx off cs :
  StronglySorted (key_le (λ f, frag_off f)) (fragments_of idx off cs).
Proof.
  revert idx off. induction cs as [|c cs IH]; intros; cbn; constructor; [done|].
  eapply Forall_impl; [apply fragments_of_keys|]. unfold key_le. cbn.
  pose proof (len_nonneg c). lia.
Qed.
Lemma fragments_of_NoDup idx off cs :
  NoDup (fragment_index <$> fragments_of idx off cs).
Proof.
  revert idx off. induction cs as [|c cs IH]; intros; [constructor|].
  cbn. apply NoDup_cons. split; [|done].
  rewrite list_elem_of_fmap. intros (f & Hf & Hin).
  pose proof (fragments_of_keys (idx + 1) (off + len c) cs) as Hk.
  rewrite Forall_forall in Hk. apply Hk in Hin. lia.
Qed.
Lemma fragments_of_length idx off cs :
  length (fragments_of idx off cs) = length cs.
Proof. revert idx off. induction cs; intros; cbn; auto. Qed.
Lemma fragments_of_payloads idx off cs :
  payload_size_loop (fragments_of idx off cs) = Ok tt.
Proof.
  revert idx off. induction cs; intros; cbn; [done|].
  rewrite Z.eqb_refl. apply IHcs.
Qed.
Lemma fragments_of_last idx off cs :
  cs ≠ [] → existsb is_last_fragment (fragments_of idx off cs) = true.
Proof.
  revert idx off. induction cs as [|c cs IH]; intros idx off H; [done|].
  cbn. destruct (decide (cs = [])) as [->|Hne]; [done|].
  rewrite IH by done. apply orb_true_r.
Qed.
Lemma fragments_of_tolerant idx off cs :
  existsb is_loss_tolerant (fragments_of idx off cs) = false.
Proof. revert idx off. induction cs; intros; cbn; auto. Qed.
Lemma fragments_of_consecutive idx off cs :
  0 ≤ idx → idx + len cs ≤ 2 ^ 32 →
  existsb (λ '(f, g),
      negb (fragment_index g =? (fragment_index f + 1) mod 2 ^ 32))
    (windows2 (fragments_of idx off cs)) = false.
Proof.
  revert idx off. induction cs as [|c [|d cs] IH]; intros idx off Hi Hn;
    [done..|]. autorewrite with len in Hn. pose proof (len_nonneg cs).
  cbn [fragments_of windows2 existsb fragment_index].
  rewrite Z.mod_small by lia. rewrite Z.eqb_refl. cbn [negb orb].
  apply (IH (idx + 1) (off + len c)); [lia|]. autorewrite with len. lia.
Qed.
Lemma fragments_of_bounds idx off cs logical :
  off + total_len cs ≤ logical → 0 ≤ off → logical < 2 ^ 64 →
  bounds_loop (fragments_of idx off cs) logical = Ok tt.
Proof.
  revert idx off. induction cs as [|c cs IH]; intros idx off Hb Ho Hl; [done|].
  rewrite total_len_cons in Hb. pose proof (len_nonneg c).
  assert (0 ≤ total_len cs) by apply len_nonneg.
  cbn. rewrite checked_add_fits by lia. cbn.
  dif as E; [lia|]. apply IH; lia.
Qed.
Lemma fragments_of_overlap idx off cs :
  0 ≤ off → off + total_len cs < 2 ^ 64 →
  overlap_loop (fragments_of idx off cs) off = Ok tt.
Proof.
  revert idx off. induction cs as [|c cs IH]; intros idx off Ho Hl; [done|].
  rewrite total_len_cons in Hl. pose proof (len_nonneg c).
  assert (0 ≤ total_len cs) by apply len_nonneg.
  cbn. rewrite Z.ltb_irrefl, checked_add_fits by lia. cbn. apply IH; lia.
Qed.
Lemma fragments_of_gaps idx off cs limits :
  0 ≤ off → off + total_len cs < 2 ^ 64 →
  gap_loop (fragments_of idx off cs) false limits off false
  = Ok (off + total_len cs, false).
Proof.
  revert idx off. induction cs as [|c cs IH]; intros idx off Ho Hl.
  { cbn. by rewrite Z.add_0_r. }
  rewrite total_len_cons in Hl |- *. pose proof (len_nonneg c).
  assert (0 ≤ total_len cs) by apply len_nonneg.
  cbn. rewrite Z.gtb_ltb, Z.ltb_irrefl. cbn.
  rewrite checked_add_fits by lia. cbn. rewrite IH by lia.
  do 2 f_equal. lia.
Qed.
Lemma fragments_of_scatter idx off cs logical pre post :
  len pre = off → off + total_len cs ≤ logical → logical < 2 ^ 64 →
  len post = total_len cs → len (pre ++ post) = logical →
  scatter_loop (fragments_of idx off cs) logical (pre ++ post)
  = Ok (pre ++ concat cs).
Proof.
  revert idx off pre post.
  induction cs as [|c cs IH]; intros idx off pre post Hpre Hb Hl Hpost Hlen.
  { cbn in *. by destruct post. }
  rewrite total_len_cons in *. pose proof (len_nonneg c).
  assert (0 ≤ total_len cs) by apply len_nonneg.
  pose proof (len_nonneg pre).
  cbn. rewrite try_from_fits by lia. cbn.
  rewrite checked_add_fits by lia. cbn. dif as E; [lia|].
  unfold copy_at_r. dif as E'; [|lia]. cbn.
  assert (Hc : copy_at (pre ++ post) off c
               = (pre ++ c) ++ drop (Z.to_nat (len c)) post).
  { unfold copy_at. rewrite <- Hpre, take_len_app, <- app_assoc.
    do 2 f_equal. rewrite Z2Nat.inj_add by lia.
    by rewrite <- drop_drop, drop_len_app. }
  rewrite Hc, (IH _ (off + len c)); try lia.
  - by rewrite <- app_assoc.
  - rewrite len_app. lia.
  - unfold len in *. rewrite length_drop. lia.
  - rewrite <- Hlen, !len_app. unfold len in *. rewrite length_drop. lia.
Qed.
End fragments_of.

(** The limits of a reassembly call. *)
Definition limits_allow (limits : FragmentLimits) (count logical_size : Z)
    : Prop :=
  count ≤ max_fragment_count limits
  ∧ logical_size ≤ max_fragment_group_span limits
  ∧ logical_size ≤ max_decoded_entry_size limits
  ∧ logical_size ≤ max_allocation_bytes limits
  ∧ logical_size ≤ ISIZE_MAX.

Lemma check_count_ok l n : n ≤ max_fragment_count l → check_fragment_count l n = Ok tt.
Proof. intros. unfold check_fragment_count. dif as E; [lia|done]. Qed.
Lemma check_span_ok l n :
  n ≤ max_fragment_group_span l → check_fragment_group_span l n = Ok tt.
Proof. intros. unfold check_fragment_group_span. dif as E; [lia|done]. Qed.
Lemma check_size_ok l n :
  n ≤ max_decoded_entry_size l → check_decoded_entry_size l n = Ok tt.
Proof. intros. unfold check_decoded_entry_size. dif as E; [lia|done]. Qed.
Lemma allocation_ok l n c :
  n ≤ max_allocation_bytes l → n ≤ ISIZE_MAX → allocation_len l n c = Ok n.
Proof.
  unfold ISIZE_MAX. intros. unfold allocation_len. dif as E; [lia|].
  rewrite try_from_fits by lia. cbn. unfold ISIZE_MAX. by dif as E'; [lia|].
Qed.

(** (C25) Round trip: a file cut into consecutive chunks, whatever the order in
    which the fragments come back, is reassembled into the original file and
    reported complete. *)
Theorem fragment_roundtrip chunks fs limits :
  chunks ≠ [] → len chunks ≤ 2 ^ 32 →
  limits_allow limits (len chunks) (total_len chunks) →
  fs ≡ₚ fragments_of 0 0 chunks →
  reconstruct_fragments fs (total_len chunks) limits
  = Ok (concat chunks, false).
Proof.
  intros Hne Hn (L1 & L2 & L3 & L4 & L5) Hp. unfold ISIZE_MAX in L5.
  rewrite (reconstruct_permuted fs _ _ _ Hp).
  assert (0 ≤ total_len chunks) by apply len_nonneg.
  set (gs := fragments_of 0 0 chunks).
  assert (Hlen : len gs = len chunks)
    by (unfold len, gs; by rewrite fragments_of_length).
  unfold reconstruct_fragments. rewrite Hlen, check_count_ok, check_span_ok,
    check_size_ok by done. cbn.
  rewrite bool_decide_false by (by unfold gs; destruct chunks).
  rewrite (proj2 (windows2_dup_sort fragment_index gs))
    by apply fragments_of_NoDup.
  rewrite sort_by_key_id by apply fragments_of_sorted_index.
  unfold reconstruct_sorted, gs. rewrite fragments_of_payloads. cbn.
  unfold index_gap. rewrite fragments_of_last, fragments_of_consecutive,
    fragments_of_tolerant by (done || lia). cbn.
  unfold validate_fragment_group. unfold gs in Hlen.
  rewrite Hlen, check_count_ok, check_span_ok by done. cbn.
  rewrite fragments_of_bounds by lia. cbn.
  rewrite sort_by_key_id by apply fragments_of_sorted_off.
  rewrite fragments_of_overlap by lia. cbn.
  rewrite fragments_of_gaps by lia. cbn.
  dif as E; [lia|]. cbn.
  rewrite allocation_ok by (done || unfold ISIZE_MAX; lia). cbn.
  rewrite (fragments_of_scatter 0 0 chunks _ [] (zeros (total_len chunks)));
    [done|done|lia|lia|by apply len_zeros|by apply len_zeros].
Qed.

Definition demo_chunks : list (list byte) := [[x48; x69]; [x21]].
Definition demo_frags : list FragmentEntry := reverse (fragments_of 0 0 demo_chunks).

Lemma demo_frags_wf : Forall frag_wf demo_frags.
Proof. repeat constructor; vm_compute; discriminate. Qed.

Lemma reconstruct_order_independent_witness :
  reconstruct_fragments demo_frags 3 unlimited
  = reconstruct_fragments (fragments_of 0 0 demo_chunks) 3 unlimited.
Proof. apply reconstruct_order_independent, reverse_Permutation. Defined.

Lemma reconstruct_assembles_witness :
  assembled demo_frags 3 [x48; x69; x21].
Proof.
  apply (reconstruct_assembles demo_frags 3 unlimited _ false);
    [exact demo_frags_wf|discriminate|lia|vm_compute; reflexivity].
Defined.

Lemma reconstruct_fails_closed_witness :
  (∃ first, fragment_index <$> demo_frags ≡ₚ seqZ first 2)
  ∧ Exists (λ f, is_last_fragment f = true) demo_frags.
Proof.
  destruct (reconstruct_fails_closed demo_frags 3 unlimited
              [x48; x69; x21] false) as [_ H];
    [exact demo_frags_wf|discriminate|lia|vm_compute; reflexivity|].
  destruct (H eq_refl) as (Hi & Hl & _). exact (conj Hi Hl).
Defined.

Lemma fragment_roundtrip_witness :
  reconstruct_fragments demo_frags (total_len demo_chunks) unlimited
  = Ok ([x48; x69; x21], false).
Proof.
  apply (fragment_roundtrip demo_chunks);
    [discriminate|vm_compute; discriminate
    |repeat split; vm_compute; discriminate|apply reverse_Permutation].
Defined.

(** An empty group of fragments is not reported as degraded: the caller gets a
    zero-filled file of the declared size, whatever that size is. *)
Lemma reconstruct_empty_group logical limits :
  limits_allow limits 0 logical →
  reconstruct_fragments [] logical limits = Ok (zeros logical, false).
Proof.
  intros (L1 & L2 & L3 & L4 & L5). unfold ISIZE_MAX in L5.
  unfold reconstruct_fragments. rewrite len_nil, check_count_ok, check_span_ok,
    check_size_ok by done. cbn. by rewrite allocation_ok.
Qed.

(** A group whose first index is not 0 passes the index-gap check when its
    bytes cover the file. *)
Example leading_index_not_checked :
  reconstruct_fragments
    [ {| fragment_index := 5; is_last_fragment := true;
         is_loss_tolerant := false;
         descriptor := {| absolute_offset := 0; fragment_size := 1 |};
         payload := [x41] |} ] 1 unlimited = Ok ([x41], false).
Proof. vm_compute. reflexivity. Qed.

End Fragmentation.
