(* ===== verification/Limits.v ===== *)
(** * Resource limits

    Models [crates/sar-core/src/limits.rs]: the [ResourceLimits] record with its
    default and unlimited values, every checked-limit helper, and the projections
    handed to the sparse and fragmentation crates. *)

From S2P Require Import Prelude Errors Sparse Fragmentation.

Module Limits.

(** [struct ResourceLimits]. *)
Record ResourceLimits := {
  max_archive_size : Z;
  max_entry_count : Z;
  max_lfh_header_bytes : Z;
  max_path_bytes : Z;
  max_global_flags_bytes : Z;
  max_kms_payload_bytes : Z;
  max_tlv_bytes : Z;
  max_tlv_count : Z;
  max_cd_bytes : Z;
  max_decoded_entry_size : Z;
  max_in_memory_buffer : Z;
  max_total_pipeline_memory : Z;
  max_sparse_map_bytes : Z;
  max_sparse_descriptors : Z;
  max_fragment_count : Z;
  max_fragment_group_span : Z;
  max_loss_tolerant_gap : Z;
  max_active_streams : Z;
  max_session_metadata_bytes : Z;
  max_session_status_message_bytes : Z;
  max_session_fragment_buffer_bytes : Z;
  max_session_memory_bytes : Z;
  max_fec_value_bytes : Z;
  max_recovery_protected_range : Z;
  max_repair_working_set : Z;
  max_cdc_chunk_count : Z;
  max_cdc_metadata_bytes : Z;
  max_bsdiff_control_bytes : Z;
  max_bsdiff_diff_bytes : Z;
  max_bsdiff_extra_bytes : Z;
  max_bsdiff_control_triples : Z;
  max_vcdiff_window_count : Z;
  max_vcdiff_instruction_count : Z;
  max_vcdiff_output_size : Z;
  use_runtime_memory_budget : bool;
}.

(** [ResourceLimits::default]. *)
Definition default_limits : ResourceLimits := {|
  max_archive_size := 16 * 1024 * 1024 * 1024;
  max_entry_count := 1000000;
  max_lfh_header_bytes := 1024 * 1024;
  max_path_bytes := 65535;
  max_global_flags_bytes := 65535;
  max_kms_payload_bytes := 64 * 1024;
  max_tlv_bytes := 1024 * 1024;
  max_tlv_count := 1024;
  max_cd_bytes := 256 * 1024 * 1024;
  max_decoded_entry_size := 1024 * 1024 * 1024;
  max_in_memory_buffer := 1024 * 1024 * 1024;
  max_total_pipeline_memory := 2 * 1024 * 1024 * 1024;
  max_sparse_map_bytes := 8 * 1024 * 1024;
  max_sparse_descriptors := 524288;
  max_fragment_count := 65535;
  max_fragment_group_span := 1024 * 1024 * 1024;
  max_loss_tolerant_gap := 1024 * 1024 * 1024;
  max_active_streams := 1024;
  max_session_metadata_bytes := 1024 * 1024;
  max_session_status_message_bytes := 4 * 1024;
  max_session_fragment_buffer_bytes := 64 * 1024 * 1024;
  max_session_memory_bytes := 64 * 1024 * 1024;
  max_fec_value_bytes := 256 * 1024 * 1024;
  max_recovery_protected_range := 16 * 1024 * 1024 * 1024;
  max_repair_working_set := 2 * 1024 * 1024 * 1024;
  max_cdc_chunk_count := 1000000;
  max_cdc_metadata_bytes := 50 * 1024 * 1024;
  max_bsdiff_control_bytes := 64 * 1024 * 1024;
  max_bsdiff_diff_bytes := 1024 * 1024 * 1024;
  max_bsdiff_extra_bytes := 1024 * 1024 * 1024;
  max_bsdiff_control_triples := 4000000;
  max_vcdiff_window_count := 1000000;
  max_vcdiff_instruction_count := 10000000;
  max_vcdiff_output_size := 0;
  use_runtime_memory_budget := false;
|}.

(** [ResourceLimits::unlimited]. *)
Definition unlimited : ResourceLimits := {|
  max_archive_size := U64_MAX;
  max_entry_count := USIZE_MAX;
  max_lfh_header_bytes := USIZE_MAX;
  max_path_bytes := USIZE_MAX;
  max_global_flags_bytes := USIZE_MAX;
  max_kms_payload_bytes := USIZE_MAX;
  max_tlv_bytes := USIZE_MAX;
  max_tlv_count := USIZE_MAX;
  max_cd_bytes := U64_MAX;
  max_decoded_entry_size := U64_MAX;
  max_in_memory_buffer := U64_MAX;
  max_total_pipeline_memory := U64_MAX;
  max_sparse_map_bytes := USIZE_MAX;
  max_sparse_descriptors := USIZE_MAX;
  max_fragment_count := USIZE_MAX;
  max_fragment_group_span := U64_MAX;
  max_loss_tolerant_gap := U64_MAX;
  max_active_streams := USIZE_MAX;
  max_session_metadata_bytes := USIZE_MAX;
  max_session_status_message_bytes := USIZE_MAX;
  max_session_fragment_buffer_bytes := U64_MAX;
  max_session_memory_bytes := U64_MAX;
  max_fec_value_bytes := USIZE_MAX;
  max_recovery_protected_range := U64_MAX;
  max_repair_working_set := U64_MAX;
  max_cdc_chunk_count := USIZE_MAX;
  max_cdc_metadata_bytes := USIZE_MAX;
  max_bsdiff_control_bytes := U64_MAX;
  max_bsdiff_diff_bytes := U64_MAX;
  max_bsdiff_extra_bytes := U64_MAX;
  max_bsdiff_control_triples := USIZE_MAX;
  max_vcdiff_window_count := USIZE_MAX;
  max_vcdiff_instruction_count := USIZE_MAX;
  max_vcdiff_output_size := U64_MAX;
  use_runtime_memory_budget := false;
|}.

(** [check_archive_size]: a limit of 0 disables the check. *)
Definition check_archive_size (l : ResourceLimits) (value : Z)
    : result SarError.t unit :=
  if (max_archive_size l >? 0) && (value >? max_archive_size l) then
    Err (SarError.LimitExceeded "archive size exceeds configured limit")
  else Ok tt.

Definition check_entry_count (l : ResourceLimits) (count : Z)
    : result SarError.t unit :=
  if count >? max_entry_count l then
    Err (SarError.LimitExceeded "CD entry count exceeds configured limit")
  else Ok tt.

Definition check_lfh_header_bytes (l : ResourceLimits) (bytes : Z)
    : result SarError.t unit :=
  if bytes >? max_lfh_header_bytes l then
    Err (SarError.LimitExceeded "LFH header size exceeds configured limit")
  else Ok tt.

Definition check_path_bytes (l : ResourceLimits) (bytes : Z)
    : result SarError.t unit :=
  if bytes >? max_path_bytes l then
    Err (SarError.LimitExceeded "path length exceeds configured limit")
  else Ok tt.

Definition check_global_flags_bytes (l : ResourceLimits) (bytes : Z)
    : result SarError.t unit :=
  if bytes >? max_global_flags_bytes l then
    Err (SarError.LimitExceeded "global flags size exceeds configured limit")
  else Ok tt.

Definition check_kms_payload_bytes (l : ResourceLimits) (bytes : Z)
    : result SarError.t unit :=
  if bytes >? max_kms_payload_bytes l then
    Err (SarError.LimitExceeded "KMS payload size exceeds configured limit")
  else Ok tt.

Definition check_tlv_bytes (l : ResourceLimits) (bytes : Z)
    : result SarError.t unit :=
  if bytes >? max_tlv_bytes l then
    Err (SarError.LimitExceeded "TLV value size exceeds configured limit")
  else Ok tt.

Definition check_tlv_count (l : ResourceLimits) (count : Z)
    : result SarError.t unit :=
  if count >? max_tlv_count l then
    Err (SarError.LimitExceeded "TLV count exceeds configured limit")
  else Ok tt.

Definition check_cd_bytes (l : ResourceLimits) (bytes : Z)
    : result SarError.t unit :=
  if bytes >? max_cd_bytes l then
    Err (SarError.LimitExceeded "Central Dictionary size exceeds configured limit")
  else Ok tt.

Definition check_decoded_entry_size (l : ResourceLimits) (bytes : Z)
    : result SarError.t unit :=
  if bytes >? max_decoded_entry_size l then
    Err (SarError.LimitExceeded "decoded entry size exceeds configured limit")
  else Ok tt.

Definition check_in_memory_buffer (l : ResourceLimits) (bytes : Z)
    : result SarError.t unit :=
  if bytes >? max_in_memory_buffer l then
    Err (SarError.LimitExceeded "in-memory buffer size exceeds configured limit")
  else Ok tt.

Definition check_total_pipeline_memory (l : ResourceLimits) (bytes : Z)
    : result SarError.t unit :=
  if bytes >? max_total_pipeline_memory l then
    Err (SarError.LimitExceeded "total pipeline memory exceeds configured limit")
  else Ok tt.

Definition check_sparse_map_bytes (l : ResourceLimits) (bytes : Z)
    : result SarError.t unit :=
  if bytes >? max_sparse_map_bytes l then
    Err (SarError.LimitExceeded "sparse map size exceeds configured limit")
  else Ok tt.

Definition check_sparse_descriptor_count (l : ResourceLimits) (count : Z)
    : result SarError.t unit :=
  if count >? max_sparse_descriptors l then
    Err (SarError.LimitExceeded "sparse descriptor count exceeds configured limit")
  else Ok tt.

Definition check_fragment_count (l : ResourceLimits) (count : Z)
    : result SarError.t unit :=
  if count >? max_fragment_count l then
    Err (SarError.LimitExceeded "fragment count exceeds configured limit")
  else Ok tt.

Definition check_fragment_group_span (l : ResourceLimits) (bytes : Z)
    : result SarError.t unit :=
  if bytes >? max_fragment_group_span l then
    Err (SarError.LimitExceeded "fragment group span exceeds configured limit")
  else Ok tt.

Definition check_loss_tolerant_gap (l : ResourceLimits) (bytes : Z)
    : result SarError.t unit :=
  if bytes >? max_loss_tolerant_gap l then
    Err (SarError.LimitExceeded "loss-tolerant gap exceeds configured limit")
  else Ok tt.

Definition check_active_streams (l : ResourceLimits) (count : Z)
    : result SarError.t unit :=
  if count >? max_active_streams l then
    Err (SarError.TooManyStreams "active stream count exceeds configured limit")
  else Ok tt.

Definition check_session_metadata_bytes (l : ResourceLimits) (bytes : Z)
    : result SarError.t unit :=
  if bytes >? max_session_metadata_bytes l then
    Err (SarError.LimitExceeded "session metadata exceeds configured limit")
  else Ok tt.

Definition check_session_status_message_bytes (l : ResourceLimits) (bytes : Z)
    : result SarError.t unit :=
  if bytes >? max_session_status_message_bytes l then
    Err (SarError.LimitExceeded "session status message exceeds configured limit")
  else Ok tt.

Definition check_session_fragment_buffer_bytes (l : ResourceLimits) (bytes : Z)
    : result SarError.t unit :=
  if bytes >? max_session_fragment_buffer_bytes l then
    Err (SarError.LimitExceeded "session fragment buffer exceeds configured limit")
  else Ok tt.

Definition check_session_memory_bytes (l : ResourceLimits) (bytes : Z)
    : result SarError.t unit :=
  if bytes >? max_session_memory_bytes l then
    Err (SarError.LimitExceeded "session memory exceeds configured limit")
  else Ok tt.

Definition check_fec_value_bytes (l : ResourceLimits) (bytes : Z)
    : result SarError.t unit :=
  if bytes >? max_fec_value_bytes l then
    Err (SarError.LimitExceeded "FEC value size exceeds configured limit")
  else Ok tt.

Definition check_recovery_protected_range (l : ResourceLimits) (bytes : Z)
    : result SarError.t unit :=
  if bytes >? max_recovery_protected_range l then
    Err (SarError.LimitExceeded "recovery protected range exceeds configured limit")
  else Ok tt.

Definition check_repair_working_set (l : ResourceLimits) (bytes : Z)
    : result SarError.t unit :=
  if bytes >? max_repair_working_set l then
    Err (SarError.LimitExceeded "repair working set exceeds configured limit")
  else Ok tt.

Definition check_cdc_chunk_count (l : ResourceLimits) (count : Z)
    : result SarError.t unit :=
  if count >? max_cdc_chunk_count l then
    Err (SarError.LimitExceeded "CDC chunk count exceeds configured limit")
  else Ok tt.

Definition check_cdc_metadata_bytes (l : ResourceLimits) (bytes : Z)
    : result SarError.t unit :=
  if bytes >? max_cdc_metadata_bytes l then
    Err (SarError.LimitExceeded "CDC metadata size exceeds configured limit")
  else Ok tt.

(** [check_allocation_bytes]. *)
Definition check_allocation_bytes (l : ResourceLimits) (bytes : Z)
    : result SarError.t unit :=
  _ ← check_in_memory_buffer l bytes;
  check_total_pipeline_memory l bytes.

(** [allocation_len]. *)
Definition allocation_len (l : ResourceLimits) (bytes : Z) (context : string)
    : result SarError.t Z :=
  _ ← check_allocation_bytes l bytes;
  n ← ok_or (try_from 64 bytes) (SarError.Overflow context);
  if n >? ISIZE_MAX then Err (SarError.Overflow context) else Ok n.

(** [fragment_limits]. *)
Definition fragment_limits (l : ResourceLimits) : Fragmentation.FragmentLimits := {|
  Fragmentation.max_fragment_count := max_fragment_count l;
  Fragmentation.max_fragment_group_span := max_fragment_group_span l;
  Fragmentation.max_decoded_entry_size := max_decoded_entry_size l;
  Fragmentation.max_loss_tolerant_gap := max_loss_tolerant_gap l;
  Fragmentation.max_allocation_bytes :=
    Z.min (max_in_memory_buffer l) (max_total_pipeline_memory l);
|}.

(** [sparse_limits]. *)
Definition sparse_limits (l : ResourceLimits) : Sparse.SparseLimits := {|
  Sparse.max_sparse_map_bytes := max_sparse_map_bytes l;
  Sparse.max_sparse_descriptors := max_sparse_descriptors l;
  Sparse.max_decoded_entry_size := max_decoded_entry_size l;
  Sparse.max_allocation_bytes :=
    Z.min (max_in_memory_buffer l) (max_total_pipeline_memory l);
|}.

(** ** The checks accept exactly the values up to the limit *)

Section checks.
Implicit Types (l : ResourceLimits) (n : Z).

Lemma check_entry_count_ok l n : check_entry_count l n = Ok tt ↔ n ≤ max_entry_count l.
Proof. unfold check_entry_count. dif as E; split; (done || lia). Qed.
Lemma check_lfh_header_bytes_ok l n : check_lfh_header_bytes l n = Ok tt ↔ n ≤ max_lfh_header_bytes l.
Proof. unfold check_lfh_header_bytes. dif as E; split; (done || lia). Qed.
Lemma check_path_bytes_ok l n : check_path_bytes l n = Ok tt ↔ n ≤ max_path_bytes l.
Proof. unfold check_path_bytes. dif as E; split; (done || lia). Qed.
Lemma check_global_flags_bytes_ok l n : check_global_flags_bytes l n = Ok tt ↔ n ≤ max_global_flags_bytes l.
Proof. unfold check_global_flags_bytes. dif as E; split; (done || lia). Qed.
Lemma check_kms_payload_bytes_ok l n : check_kms_payload_bytes l n = Ok tt ↔ n ≤ max_kms_payload_bytes l.
Proof. unfold check_kms_payload_bytes. dif as E; split; (done || lia). Qed.
Lemma check_tlv_bytes_ok l n : check_tlv_bytes l n = Ok tt ↔ n ≤ max_tlv_bytes l.
Proof. unfold check_tlv_bytes. dif as E; split; (done || lia). Qed.
Lemma check_tlv_count_ok l n : check_tlv_count l n = Ok tt ↔ n ≤ max_tlv_count l.
Proof. unfold check_tlv_count. dif as E; split; (done || lia). Qed.
Lemma check_cd_bytes_ok l n : check_cd_bytes l n = Ok tt ↔ n ≤ max_cd_bytes l.
Proof. unfold check_cd_bytes. dif as E; split; (done || lia). Qed.
Lemma check_decoded_entry_size_ok l n : check_decoded_entry_size l n = Ok tt ↔ n ≤ max_decoded_entry_size l.
Proof. unfold check_decoded_entry_size. dif as E; split; (done || lia). Qed.
Lemma check_in_memory_buffer_ok l n : check_in_memory_buffer l n = Ok tt ↔ n ≤ max_in_memory_buffer l.
Proof. unfold check_in_memory_buffer. dif as E; split; (done || lia). Qed.
Lemma check_total_pipeline_memory_ok l n : check_total_pipeline_memory l n = Ok tt ↔ n ≤ max_total_pipeline_memory l.
Proof. unfold check_total_pipeline_memory. dif as E; split; (done || lia). Qed.
Lemma check_sparse_map_bytes_ok l n : check_sparse_map_bytes l n = Ok tt ↔ n ≤ max_sparse_map_bytes l.
Proof. unfold check_sparse_map_bytes. dif as E; split; (done || lia). Qed.
Lemma check_sparse_descriptor_count_ok l n : check_sparse_descriptor_count l n = Ok tt ↔ n ≤ max_sparse_descriptors l.
Proof. unfold check_sparse_descriptor_count. dif as E; split; (done || lia). Qed.
Lemma check_fragment_count_ok l n : check_fragment_count l n = Ok tt ↔ n ≤ max_fragment_count l.
Proof. unfold check_fragment_count. dif as E; split; (done || lia). Qed.
Lemma check_fragment_group_span_ok l n : check_fragment_group_span l n = Ok tt ↔ n ≤ max_fragment_group_span l.
Proof. unfold check_fragment_group_span. dif as E; split; (done || lia). Qed.
Lemma check_loss_tolerant_gap_ok l n : check_loss_tolerant_gap l n = Ok tt ↔ n ≤ max_loss_tolerant_gap l.
Proof. unfold check_loss_tolerant_gap. dif as E; split; (done || lia). Qed.
Lemma check_active_streams_ok l n : check_active_streams l n = Ok tt ↔ n ≤ max_active_streams l.
Proof. unfold check_active_streams. dif as E; split; (done || lia). Qed.
Lemma check_session_metadata_bytes_ok l n : check_session_metadata_bytes l n = Ok tt ↔ n ≤ max_session_metadata_bytes l.
Proof. unfold check_session_metadata_bytes. dif as E; split; (done || lia). Qed.
Lemma check_session_status_message_bytes_ok l n : check_session_status_message_bytes l n = Ok tt ↔ n ≤ max_session_status_message_bytes l.
Proof. unfold check_session_status_message_bytes. dif as E; split; (done || lia). Qed.
Lemma check_session_fragment_buffer_bytes_ok l n : check_session_fragment_buffer_bytes l n = Ok tt ↔ n ≤ max_session_fragment_buffer_bytes l.
Proof. unfold check_session_fragment_buffer_bytes. dif as E; split; (done || lia). Qed.
Lemma check_session_memory_bytes_ok l n : check_session_memory_bytes l n = Ok tt ↔ n ≤ max_session_memory_bytes l.
Proof. unfold check_session_memory_bytes. dif as E; split; (done || lia). Qed.
Lemma check_fec_value_bytes_ok l n : check_fec_value_bytes l n = Ok tt ↔ n ≤ max_fec_value_bytes l.
Proof. unfold check_fec_value_bytes. dif as E; split; (done || lia). Qed.
Lemma check_recovery_protected_range_ok l n : check_recovery_protected_range l n = Ok tt ↔ n ≤ max_recovery_protected_range l.
Proof. unfold check_recovery_protected_range. dif as E; split; (done || lia). Qed.
Lemma check_repair_working_set_ok l n : check_repair_working_set l n = Ok tt ↔ n ≤ max_repair_working_set l.
Proof. unfold check_repair_working_set. dif as E; split; (done || lia). Qed.
Lemma check_cdc_chunk_count_ok l n : check_cdc_chunk_count l n = Ok tt ↔ n ≤ max_cdc_chunk_count l.
Proof. unfold check_cdc_chunk_count. dif as E; split; (done || lia). Qed.
Lemma check_cdc_metadata_bytes_ok l n : check_cdc_metadata_bytes l n = Ok tt ↔ n ≤ max_cdc_metadata_bytes l.
Proof. unfold check_cdc_metadata_bytes. dif as E; split; (done || lia). Qed.

Lemma check_allocation_bytes_ok l n :
  check_allocation_bytes l n = Ok tt ↔
    n ≤ max_in_memory_buffer l ∧ n ≤ max_total_pipeline_memory l.
Proof.
  unfold check_allocation_bytes. rewrite bind_Ok. split.
  - intros ([] & H1%check_in_memory_buffer_ok & H2%check_total_pipeline_memory_ok).
    done.
  - intros [H1 H2]. exists tt.
    by rewrite check_in_memory_buffer_ok, check_total_pipeline_memory_ok.
Qed.
End checks.

Lemma no_panic_check (b : bool) (e : SarError.t) :
  no_panic (if b then Err e else Ok tt).
Proof. by destruct b. Qed.
#[export] Hint Extern 1 (no_panic (check_archive_size _ _)) =>
  apply no_panic_check : no_panic.
#[export] Hint Extern 1 (no_panic (check_entry_count _ _)) => apply no_panic_check : no_panic.
#[export] Hint Extern 1 (no_panic (check_lfh_header_bytes _ _)) => apply no_panic_check : no_panic.
#[export] Hint Extern 1 (no_panic (check_path_bytes _ _)) => apply no_panic_check : no_panic.
#[export] Hint Extern 1 (no_panic (check_global_flags_bytes _ _)) => apply no_panic_check : no_panic.
#[export] Hint Extern 1 (no_panic (check_kms_payload_bytes _ _)) => apply no_panic_check : no_panic.
#[export] Hint Extern 1 (no_panic (check_tlv_bytes _ _)) => apply no_panic_check : no_panic.
#[export] Hint Extern 1 (no_panic (check_tlv_count _ _)) => apply no_panic_check : no_panic.
#[export] Hint Extern 1 (no_panic (check_cd_bytes _ _)) => apply no_panic_check : no_panic.
#[export] Hint Extern 1 (no_panic (check_decoded_entry_size _ _)) => apply no_panic_check : no_panic.
#[export] Hint Extern 1 (no_panic (check_in_memory_buffer _ _)) => apply no_panic_check : no_panic.
#[export] Hint Extern 1 (no_panic (check_total_pipeline_memory _ _)) => apply no_panic_check : no_panic.
#[export] Hint Extern 1 (no_panic (check_sparse_map_bytes _ _)) => apply no_panic_check : no_panic.
#[export] Hint Extern 1 (no_panic (check_sparse_descriptor_count _ _)) => apply no_panic_check : no_panic.
#[export] Hint Extern 1 (no_panic (check_fragment_count _ _)) => apply no_panic_check : no_panic.
#[export] Hint Extern 1 (no_panic (check_fragment_group_span _ _)) => apply no_panic_check : no_panic.
#[export] Hint Extern 1 (no_panic (check_loss_tolerant_gap _ _)) => apply no_panic_check : no_panic.
#[export] Hint Extern 1 (no_panic (check_active_streams _ _)) => apply no_panic_check : no_panic.
#[export] Hint Extern 1 (no_panic (check_session_metadata_bytes _ _)) => apply no_panic_check : no_panic.
#[export] Hint Extern 1 (no_panic (check_session_status_message_bytes _ _)) => apply no_panic_check : no_panic.
#[export] Hint Extern 1 (no_panic (check_session_fragment_buffer_bytes _ _)) => apply no_panic_check : no_panic.
#[export] Hint Extern 1 (no_panic (check_session_memory_bytes _ _)) => apply no_panic_check : no_panic.
#[export] Hint Extern 1 (no_panic (check_fec_value_bytes _ _)) => apply no_panic_check : no_panic.
#[export] Hint Extern 1 (no_panic (check_recovery_protected_range _ _)) => apply no_panic_check : no_panic.
#[export] Hint Extern 1 (no_panic (check_repair_working_set _ _)) => apply no_panic_check : no_panic.
#[export] Hint Extern 1 (no_panic (check_cdc_chunk_count _ _)) => apply no_panic_check : no_panic.
#[export] Hint Extern 1 (no_panic (check_cdc_metadata_bytes _ _)) => apply no_panic_check : no_panic.

(** [allocation_len] hands out an allocation size exactly when it is within
    both the per-buffer and the pipeline limit and representable as a Rust
    allocation ([isize::MAX]); the size handed out is the one asked for, and it
    is also within the limits the sparse and fragmentation crates are given. *)
Theorem allocation_len_spec l n m context :
  allocation_len l n context = Ok m ↔
    m = n ∧ n ≤ max_in_memory_buffer l ∧ n ≤ max_total_pipeline_memory l
    ∧ n ≤ ISIZE_MAX
    ∧ n ≤ Sparse.max_allocation_bytes (sparse_limits l)
    ∧ n ≤ Fragmentation.max_allocation_bytes (fragment_limits l).
Proof.
  unfold allocation_len. rewrite bind_Ok. cbn. split.
  - intros ([] & Hc%check_allocation_bytes_ok & H). inv_ok. lia.
  - intros (-> & H1 & H2 & H3 & _). exists tt.
    split; [by apply check_allocation_bytes_ok|].
    unfold ISIZE_MAX in *. rewrite try_from_fits by lia. cbn.
    unfold ISIZE_MAX. by dif as E; [lia|].
Qed.

End Limits.
