(* ===== verification/Flags.v ===== *)
(** * Global flags and entry modes

    Models [crates/sar-core/src/flags.rs].  [GlobalFlags] is declared with the
    third-party [bitflags!] macro; the operations the macro generates
    ([contains], [intersects], [from_bits_truncate], the operator [|=] and [remove])
    are the fields of the class [Bitflags], and what the code relies on is the class [BitflagsLaws], their
    documented bitwise meaning.  [bitwise] is an implementation of the class. *)

From S2P Require Import Prelude Errors.

(** ** The [bitflags] operations *)

Class Bitflags := {
  contains : Z → Z → bool;
  intersects : Z → Z → bool;
  (** [from_bits_truncate all bits]: [all] is the union of the declared flags. *)
  from_bits_truncate : Z → Z → Z;
  (** The operator [|], and what [remove] leaves. *)
  union : Z → Z → Z;
  difference : Z → Z → Z;
}.

Class BitflagsLaws (B : Bitflags) : Prop := {
  contains_land f g :
    fits 32 f → fits 32 g → contains f g = (Z.land f g =? g);
  intersects_land f g :
    fits 32 f → fits 32 g → intersects f g = negb (Z.land f g =? 0);
  truncate_land all bits :
    fits 32 all → fits 32 bits → from_bits_truncate all bits = Z.land bits all;
  union_lor f g : fits 32 f → fits 32 g → union f g = Z.lor f g;
  difference_ldiff f g : fits 32 f → fits 32 g → difference f g = Z.ldiff f g;
}.

Definition bitwise : Bitflags := {|
  contains f g := Z.land f g =? g;
  intersects f g := negb (Z.land f g =? 0);
  from_bits_truncate all bits := Z.land bits all;
  union f g := Z.lor f g;
  difference f g := Z.ldiff f g;
|}.
Lemma bitwise_laws : BitflagsLaws bitwise.
Proof. by split. Qed.

Module GlobalFlags.

(** The flags declared in [bitflags! { struct GlobalFlags: u32 }]; a value is
    its bits. *)
Definition SIZE_64BIT : Z := Z.shiftl 1 0.
Definition NO_INDEX : Z := Z.shiftl 1 1.
Definition OPT_PRESENT : Z := Z.shiftl 1 2.
Definition PARTITIONED_ARCHIVE : Z := Z.shiftl 1 3.
Definition FILE_FRAGMENTATION : Z := Z.shiftl 1 4.
Definition CDC_SUPPORT : Z := Z.shiftl 1 5.
Definition COMPRESSED : Z := Z.shiftl 1 8.
Definition HAS_DELTA : Z := Z.shiftl 1 9.
Definition ENCRYPTED : Z := Z.shiftl 1 10.
Definition HAS_GLOBAL_CRC32 : Z := Z.shiftl 1 16.
Definition PER_FILE_CRC : Z := Z.shiftl 1 17.
Definition SIGNED : Z := Z.shiftl 1 18.
Definition HAS_GLOBAL_EC : Z := Z.shiftl 1 19.
Definition SELECTIVE_FEC : Z := Z.shiftl 1 20.
Definition HAS_PATH : Z := Z.shiftl 1 24.
Definition HAS_PERMS : Z := Z.shiftl 1 25.
Definition HAS_SYMLINKS : Z := Z.shiftl 1 26.
Definition EXT_UID_GID : Z := Z.shiftl 1 27.
Definition EXT_TIME : Z := Z.shiftl 1 28.
Definition DEDUPLICATION : Z := Z.shiftl 1 29.
Definition SPARSE_FILES : Z := Z.shiftl 1 30.

(** Every declared flag, and their union. *)
Definition declared : list Z :=
  [SIZE_64BIT; NO_INDEX; OPT_PRESENT; PARTITIONED_ARCHIVE; FILE_FRAGMENTATION;
   CDC_SUPPORT; COMPRESSED; HAS_DELTA; ENCRYPTED; HAS_GLOBAL_CRC32;
   PER_FILE_CRC; SIGNED; HAS_GLOBAL_EC; SELECTIVE_FEC; HAS_PATH; HAS_PERMS;
   HAS_SYMLINKS; EXT_UID_GID; EXT_TIME; DEDUPLICATION; SPARSE_FILES].
Definition all : Z := foldr Z.lor 0 declared.
#[global] Arguments all : simpl never.

End GlobalFlags.

Module EntryMode.

(** [struct EntryMode { bits: u16 }] is its bits; [from_bits] and [bits] are
    the identity. *)
Definition IS_SYMLINK : Z := Z.shiftl 1 0.
Definition IS_DIRECTORY : Z := Z.shiftl 1 1.
Definition ENCRYPTED : Z := Z.shiftl 1 2.
Definition COMPRESSED : Z := Z.shiftl 1 3.
Definition HIDDEN_ATTR : Z := Z.shiftl 1 4.
Definition FRAGMENT : Z := Z.shiftl 1 5.
Definition LAST_FRAGMENT : Z := Z.shiftl 1 6.
Definition LOSS_TOLERANT : Z := Z.shiftl 1 7.
Definition SESSION_CONTROL : Z := Z.shiftl 1 13.
Definition ATOMIC_WRITE : Z := Z.shiftl 1 14.
Definition FORCE_SYNC : Z := Z.shiftl 1 15.
Definition RESERVED : Z := Z.shiftl 1 12.

Definition has (bits mask : Z) : bool := negb (Z.land bits mask =? 0).
Definition is_encrypted (bits : Z) : bool := has bits ENCRYPTED.
Definition is_compressed (bits : Z) : bool := has bits COMPRESSED.
Definition is_directory (bits : Z) : bool := has bits IS_DIRECTORY.
Definition is_symlink (bits : Z) : bool := has bits IS_SYMLINK.
Definition is_fragment (bits : Z) : bool := has bits FRAGMENT.
Definition is_last_fragment (bits : Z) : bool := has bits LAST_FRAGMENT.
Definition is_loss_tolerant (bits : Z) : bool := has bits LOSS_TOLERANT.
Definition is_session_control (bits : Z) : bool := has bits SESSION_CONTROL.
Definition is_hidden_attr (bits : Z) : bool := has bits HIDDEN_ATTR.
Definition is_atomic_write (bits : Z) : bool := has bits ATOMIC_WRITE.
Definition is_force_sync (bits : Z) : bool := has bits FORCE_SYNC.
(** [op_code]: the 4-bit field at bit 8. *)
Definition op_code (bits : Z) : Z := Z.land (Z.shiftr bits 8) 15.

(** A one-bit mask test is [Z.testbit]. *)
Lemma has_testbit bits k : 0 ≤ k → has bits (Z.shiftl 1 k) = Z.testbit bits k.
Proof.
  intros Hk. unfold has.
  rewrite Z.shiftl_1_l, Z.land_comm.
  destruct (Z.eqb_spec (Z.land (2 ^ k) bits) 0) as [H|H]; cbn.
  - apply (f_equal (λ z, Z.testbit z k)) in H.
    rewrite Z.land_spec, Z.pow2_bits_true, Z.bits_0 in H by done. done.
  - destruct (Z.testbit bits k) eqn:E; [done|]. destruct H.
    apply Z.bits_inj. intros j. rewrite Z.land_spec, Z.bits_0.
    destruct (decide (j = k)) as [->|]; [by rewrite E, andb_false_r|].
    by rewrite Z.pow2_bits_false.
Qed.

(** A union mask is met when one of its parts is. *)
Lemma mask_lor bits a b : has bits (Z.lor a b) = has bits a || has bits b.
Proof.
  unfold has. rewrite Z.land_lor_distr_r.
  destruct (Z.eqb_spec (Z.lor (Z.land bits a) (Z.land bits b)) 0) as [H|H].
  - apply Z.lor_eq_0_iff in H as [-> ->]. done.
  - destruct (Z.eqb_spec (Z.land bits a) 0) as [Ha|]; [|done].
    destruct (Z.eqb_spec (Z.land bits b) 0) as [Hb|]; [|done].
    by rewrite Ha, Hb in H.
Qed.

Lemma op_code_range bits : 0 ≤ op_code bits < 16.
Proof.
  unfold op_code. change 15 with (Z.ones 4). rewrite Z.land_ones by lia.
  apply Z.mod_pos_bound. lia.
Qed.

End EntryMode.

(** ** Flag consistency *)

Section validate.
Context {B : Bitflags}.
Import GlobalFlags.

(** [validate_global_flags]. *)
Definition validate_global_flags (flags : Z) : result SarError.t unit :=
  if contains flags HAS_GLOBAL_EC && negb (contains flags OPT_PRESENT) then
    Err (SarError.FlagConflict
           "HAS_GLOBAL_EC requires OPT_PRESENT and RECOVERY TLV metadata")
  else if contains flags SIGNED && negb (contains flags OPT_PRESENT) then
    Err (SarError.FlagConflict
           "SIGNED requires OPT_PRESENT and DATA_HASH metadata")
  else if contains flags NO_INDEX
          && intersects flags
               (Z.lor (Z.lor (Z.lor OPT_PRESENT HAS_GLOBAL_CRC32)
                         HAS_GLOBAL_EC) SIGNED) then
    Err (SarError.FlagConflict
           "NO_INDEX conflicts with OPT_PRESENT/HAS_GLOBAL_CRC32/HAS_GLOBAL_EC/SIGNED")
  else Ok tt.

(** [validate_entry_mode_against_global]. *)
Definition validate_entry_mode_against_global (global_flags entry_mode : Z)
    : result SarError.t unit :=
  if EntryMode.has entry_mode EntryMode.RESERVED then
    Err (SarError.ReservedValue "entry mode reserved bit 12 must be zero")
  else if EntryMode.is_symlink entry_mode
          && negb (contains global_flags HAS_SYMLINKS) then
    Err (SarError.FlagConflict "IS_SYMLINK requires global HAS_SYMLINKS")
  else if EntryMode.is_compressed entry_mode
          && negb (contains global_flags COMPRESSED) then
    Err (SarError.FlagConflict "IS_COMPRESSED requires global COMPRESSED")
  else if EntryMode.is_encrypted entry_mode
          && negb (contains global_flags ENCRYPTED) then
    Err (SarError.FlagConflict "IS_ENCRYPTED requires global ENCRYPTED")
  else if EntryMode.is_fragment entry_mode
          && negb (contains global_flags FILE_FRAGMENTATION) then
    Err (SarError.FlagConflict "IS_FRAGMENT requires global FILE_FRAGMENTATION")
  else if EntryMode.is_last_fragment entry_mode
          && negb (EntryMode.is_fragment entry_mode) then
    Err (SarError.FlagConflict "LAST_FRAGMENT requires IS_FRAGMENT")
  else if EntryMode.is_loss_tolerant entry_mode
          && negb (EntryMode.is_fragment entry_mode) then
    Err (SarError.FlagConflict "LOSS_TOLERANT requires IS_FRAGMENT")
  else Ok tt.

Lemma validate_global_flags_no_panic flags :
  no_panic (validate_global_flags flags).
Proof. unfold validate_global_flags. by repeat case_match. Qed.
Lemma validate_entry_mode_no_panic flags mode :
  no_panic (validate_entry_mode_against_global flags mode).
Proof. unfold validate_entry_mode_against_global. by repeat case_match. Qed.
End validate.
#[export] Hint Resolve validate_global_flags_no_panic
  validate_entry_mode_no_panic : no_panic.

Section laws.
Context {B : Bitflags} {L : BitflagsLaws B}.
Import GlobalFlags.

(** On single-bit masks, [contains] reads one bit. *)
Lemma contains_testbit f k :
  fits 32 f → 0 ≤ k < 32 → contains f (Z.shiftl 1 k) = Z.testbit f k.
Proof.
  intros Hf Hk.
  rewrite contains_land; [|done|rewrite Z.shiftl_1_l; split;
    [apply Z.pow_nonneg; lia|apply Z.pow_lt_mono_r; lia]].
  rewrite <- EntryMode.has_testbit by lia. unfold EntryMode.has.
  rewrite Z.shiftl_1_l. symmetry.
  destruct (Z.testbit f k) eqn:E.
  - replace (Z.land f (2 ^ k)) with (2 ^ k).
    + rewrite Z.eqb_refl. destruct (Z.eqb_spec (2 ^ k) 0); [|done].
      pose proof (Z.pow_pos_nonneg 2 k). lia.
    + apply Z.bits_inj. intros j. rewrite Z.land_spec.
      destruct (decide (j = k)) as [->|];
        [by rewrite E, Z.pow2_bits_true by lia|].
      by rewrite Z.pow2_bits_false, andb_false_r by lia.
  - replace (Z.land f (2 ^ k)) with 0.
    + rewrite Z.eqb_refl. destruct (Z.eqb_spec 0 (2 ^ k)); [|done].
      pose proof (Z.pow_pos_nonneg 2 k). lia.
    + apply Z.bits_inj. intros j. rewrite Z.land_spec, Z.bits_0.
      destruct (decide (j = k)) as [->|]; [by rewrite E|].
      by rewrite Z.pow2_bits_false, andb_false_r by lia.
Qed.

Lemma fits_all : fits 32 all.
Proof. by vm_compute. Qed.

(** Truncation keeps the declared bits and drops the others. *)
Lemma truncate_testbit bits k :
  fits 32 bits → 
  Z.testbit (from_bits_truncate all bits) k
  = Z.testbit bits k && Z.testbit all k.
Proof. intros. by rewrite truncate_land, Z.land_spec by (done || apply fits_all). Qed.

Lemma truncate_fits bits : fits 32 bits → fits 32 (from_bits_truncate all bits).
Proof.
  intros [H1 H2]. rewrite truncate_land by (done || apply fits_all).
  split; [apply Z.land_nonneg; by left|].
  destruct (decide (Z.land bits all = 0)) as [->|]; [done|].
  apply Z.log2_lt_pow2; [pose proof (proj2 (Z.land_nonneg bits all)); lia|].
  eapply Z.le_lt_trans; [apply Z.log2_land; [done|apply fits_all]|].
  apply Z.min_lt_iff. right. by vm_compute.
Qed.

Lemma truncate_idemp bits :
  fits 32 bits →
  from_bits_truncate all (from_bits_truncate all bits)
  = from_bits_truncate all bits.
Proof.
  intros. apply Z.bits_inj. intros j.
  rewrite !truncate_testbit by (try apply truncate_fits; done).
  by destruct (Z.testbit bits j), (Z.testbit all j).
Qed.

(** Global flags are accepted exactly when they are consistent: EC and
    signature metadata need the optional section, and an archive without an
    index has none of the fields that live in the index. *)
Theorem validate_global_flags_spec flags :
  fits 32 flags →
  (validate_global_flags flags = Ok tt ↔
     (Z.testbit flags 19 = true → Z.testbit flags 2 = true)
     ∧ (Z.testbit flags 18 = true → Z.testbit flags 2 = true)
     ∧ (Z.testbit flags 1 = true →
          Z.testbit flags 2 = false ∧ Z.testbit flags 16 = false
          ∧ Z.testbit flags 19 = false ∧ Z.testbit flags 18 = false)).
Proof.
  intros Hf. unfold validate_global_flags.
  rewrite intersects_land by (done || by vm_compute).
  fold (EntryMode.has flags (Z.lor (Z.lor (Z.lor OPT_PRESENT HAS_GLOBAL_CRC32)
    HAS_GLOBAL_EC) SIGNED)).
  rewrite !EntryMode.mask_lor.
  unfold OPT_PRESENT, HAS_GLOBAL_CRC32, HAS_GLOBAL_EC, SIGNED, NO_INDEX.
  rewrite !contains_testbit, !EntryMode.has_testbit by (done || lia).
  destruct (Z.testbit flags 19), (Z.testbit flags 18), (Z.testbit flags 2),
    (Z.testbit flags 1), (Z.testbit flags 16); cbn; naive_solver.
Qed.

(** An entry mode is accepted under given global flags exactly when its
    reserved bit is clear, every feature bit it sets (symlink, compressed,
    encrypted, fragment) is enabled globally, and last-fragment and
    loss-tolerant are only set on fragments. *)
Theorem validate_entry_mode_spec flags mode :
  fits 32 flags →
  (validate_entry_mode_against_global flags mode = Ok tt ↔
     Z.testbit mode 12 = false
     ∧ (Z.testbit mode 0 = true → Z.testbit flags 26 = true)
     ∧ (Z.testbit mode 3 = true → Z.testbit flags 8 = true)
     ∧ (Z.testbit mode 2 = true → Z.testbit flags 10 = true)
     ∧ (Z.testbit mode 5 = true → Z.testbit flags 4 = true)
     ∧ (Z.testbit mode 6 = true → Z.testbit mode 5 = true)
     ∧ (Z.testbit mode 7 = true → Z.testbit mode 5 = true)).
Proof.
  intros Hf. unfold validate_entry_mode_against_global,
    EntryMode.is_symlink, EntryMode.is_compressed, EntryMode.is_encrypted,
    EntryMode.is_fragment, EntryMode.is_last_fragment,
    EntryMode.is_loss_tolerant, EntryMode.RESERVED, EntryMode.IS_SYMLINK,
    EntryMode.COMPRESSED, EntryMode.ENCRYPTED, EntryMode.FRAGMENT,
    EntryMode.LAST_FRAGMENT, EntryMode.LOSS_TOLERANT, HAS_SYMLINKS,
    COMPRESSED, ENCRYPTED, FILE_FRAGMENTATION.
  rewrite !contains_testbit, !EntryMode.has_testbit by (done || lia).
  rewrite !guard_Ok, !andb_negb_false. naive_solver.
Qed.
End laws.

Lemma validate_global_flags_spec_witness :
  @validate_global_flags bitwise 0 = Ok tt.
Proof.
  apply (validate_global_flags_spec (L := bitwise_laws)); [done|].
  by vm_compute.
Defined.

Lemma validate_entry_mode_spec_witness :
  @validate_entry_mode_against_global bitwise (2 ^ 4) (2 ^ 5 + 2 ^ 6) = Ok tt.
Proof.
  apply (validate_entry_mode_spec (L := bitwise_laws)); [done|].
  by vm_compute.
Defined.
