(* ===== verification/Cursor.v ===== *)
(** * Byte cursor and writer

    Models [crates/sar-core/src/io.rs]: [ParseCursor], a bounds-checked reader
    over a byte slice, and [BinaryWriter], an append-only buffer.  A reader is a
    state-and-error computation over the cursor.  The class [Codec] is the
    interface between this file and the wire formats: a reader and an encoding
    that invert each other.  The formats are proved against the class; the
    integer and byte-string fields discharge it here. *)

From S2P Require Import Prelude Errors.

Module Cursor.

(** [struct ParseCursor]. *)
Record ParseCursor := { input : list byte; pos : Z }.

(** [ParseCursor::new], [position], [remaining]. *)
Definition new (bytes : list byte) : ParseCursor := {| input := bytes; pos := 0 |}.
Definition position (c : ParseCursor) : Z := pos c.
Definition remaining (c : ParseCursor) : Z :=
  saturating_sub (len (input c)) (pos c).

(** A computation that reads from a cursor. *)
Definition parser (A : Type) : Type :=
  ParseCursor → result SarError.t (A * ParseCursor).
#[export] Instance parser_ret : MRet parser := λ A a c, Ok (a, c).
#[export] Instance parser_bind : MBind parser := λ A B f p c,
  match p c with
  | Ok (a, c') => f a c'
  | Err e => Err e
  | Panic => Panic
  end.

(** A fallible computation that leaves the cursor alone, and [return Err(e)]. *)
Definition lift {A} (m : result SarError.t A) : parser A := λ c,
  match m with Ok a => Ok (a, c) | Err e => Err e | Panic => Panic end.
Definition fail {A} (e : SarError.t) : parser A := λ _, Err e.
(** The current [position] inside a computation. *)
Definition tell : parser Z := λ c, Ok (position c, c).
(** [if cond { Some(p?) } else { None }]. *)
Definition optional {A} (cond : bool) (p : parser A) : parser (option A) :=
  if cond then (a ← p; mret (Some a)) else mret None.

(** [ParseCursor::read_bytes]. *)
Definition read_bytes (n : Z) : parser (list byte) := λ c,
  fin ← ok_or (checked_add 64 (pos c) n) (SarError.Overflow "cursor advance");
  if fin >? len (input c) then Err (SarError.Truncated "insufficient bytes")
  else
    out ← slice_r (input c) (pos c) fin;
    Ok (out, {| input := input c; pos := fin |}).

(** [ParseCursor::read_u8]: [self.read_bytes(1)?[0]]. *)
Definition read_u8 : parser Z :=
  bs ← read_bytes 1; b ← lift (index_r bs 0); mret (byte_val b).
(** [from_le_bytes] on the bytes just read. *)
Definition read_le (n : Z) : parser Z := bs ← read_bytes n; mret (le_val bs).
Definition read_u16_le : parser Z := read_le 2.
(** [u32::from_le_bytes([b0, b1, b2, 0])]. *)
Definition read_u24_le : parser Z :=
  bs ← read_bytes 3; mret (le_val (bs ++ [x00])).
Definition read_u32_le : parser Z := read_le 4.
Definition read_u64_le : parser Z := read_le 8.

(** [BinaryWriter]: the buffer; [new] is [[]] and [into_inner] the identity. *)
Definition write_bytes (w bytes : list byte) : list byte := w ++ bytes.
Definition write_u8 (w : list byte) (v : Z) : list byte := w ++ [byte_of v].
Definition write_u16_le (w : list byte) (v : Z) : list byte := w ++ le_bytes 2 v.
Definition write_u24_le (w : list byte) (v : Z) : result SarError.t (list byte) :=
  if v >? 16777215 then Err (SarError.InvalidLength "u24 value too large")
  else Ok (w ++ take 3 (le_bytes 4 v)).
Definition write_u32_le (w : list byte) (v : Z) : list byte := w ++ le_bytes 4 v.
Definition write_u64_le (w : list byte) (v : Z) : list byte := w ++ le_bytes 8 v.

(** ** Reading what was written *)

(** [reads p bs a]: on input that starts with [bs] at the cursor, [p] returns
    [a] and moves the cursor past [bs]. *)
Definition reads {A} (p : parser A) (bs : list byte) (a : A) : Prop :=
  ∀ pre post, len (pre ++ bs ++ post) < 2 ^ 64 →
    p {| input := pre ++ bs ++ post; pos := len pre |}
    = Ok (a, {| input := pre ++ bs ++ post; pos := len pre + len bs |}).

(** [advances c bs c']: [c'] is [c] moved past the bytes [bs]. *)
Definition advances (c : ParseCursor) (bs : list byte) (c' : ParseCursor) : Prop :=
  input c' = input c ∧ pos c' = pos c + len bs
  ∧ slice (input c) (pos c) (pos c') = bs ∧ pos c' ≤ len (input c).

(** A cursor inside its input. *)
Definition cursor_wf (c : ParseCursor) : Prop := 0 ≤ pos c ≤ len (input c).

Lemma new_wf bs : cursor_wf (new bs).
Proof. split; cbn; [lia | apply len_nonneg]. Qed.

Lemma advances_refl c : cursor_wf c → advances c [] c.
Proof.
  intros [? ?]. split_and!; [done|by rewrite len_nil, Z.add_0_r| |done].
  apply slice_empty.
Qed.
Lemma advances_trans c bs1 c1 bs2 c2 :
  cursor_wf c → advances c bs1 c1 → advances c1 bs2 c2 →
  advances c (bs1 ++ bs2) c2.
Proof.
  intros [? ?] (Hi1 & Hp1 & Hs1 & Hb1) (Hi2 & Hp2 & Hs2 & Hb2).
  rewrite Hi1 in *. pose proof (len_nonneg bs1). pose proof (len_nonneg bs2).
  split_and!; [done|rewrite len_app; lia| |done].
  rewrite <- (slice_app_split _ _ (pos c1)) by lia. by f_equal.
Qed.
Lemma advances_wf c bs c' : cursor_wf c → advances c bs c' → cursor_wf c'.
Proof.
  intros [? ?] (Hi & Hp & _ & Hb). unfold cursor_wf. rewrite Hi.
  pose proof (len_nonneg bs). lia.
Qed.

Lemma parser_bind_Ok {A B} (p : parser A) (f : A → parser B) c r :
  (p ≫= f) c = Ok r ↔ ∃ a c', p c = Ok (a, c') ∧ f a c' = Ok r.
Proof.
  unfold mbind, parser_bind. destruct (p c) as [[a c']| |]; naive_solver.
Qed.
Lemma lift_Ok {A} (m : result SarError.t A) c r :
  lift m c = Ok r ↔ ∃ a, m = Ok a ∧ r = (a, c).
Proof. unfold lift. destruct m; naive_solver. Qed.

Lemma reads_ret {A} (a : A) : reads (mret a) [] a.
Proof. intros pre post _. cbn. by rewrite len_nil, Z.add_0_r. Qed.
Lemma reads_bind {A B} (p : parser A) (f : A → parser B) bs1 bs2 a b :
  reads p bs1 a → reads (f a) bs2 b → reads (p ≫= f) (bs1 ++ bs2) b.
Proof.
  intros Hp Hf pre post Hl. unfold mbind, parser_bind.
  rewrite <- app_assoc in Hl |- *. rewrite Hp by done.
  rewrite app_assoc in Hl |- *. replace (len pre + len bs1) with (len (pre ++ bs1))
    by apply len_app.
  rewrite Hf by done. rewrite !len_app. do 3 f_equal. lia.
Qed.
Lemma reads_lift {A} (m : result SarError.t A) a : m = Ok a → reads (lift m) [] a.
Proof. intros -> pre post _. cbn. by rewrite Z.add_0_r. Qed.
(** The common shape: a step that reads [bs], then the rest. *)
Lemma reads_step {A B} (p : parser A) (f : A → parser B) bs1 bs2 bs a b :
  reads p bs1 a → bs = bs1 ++ bs2 → reads (f a) bs2 b → reads (p ≫= f) bs b.
Proof. intros ? -> ?. by eapply reads_bind. Qed.
Lemma reads_skip {A B} (p : parser A) (f : A → parser B) bs a b :
  reads p [] a → reads (f a) bs b → reads (p ≫= f) bs b.
Proof. intros. by eapply (reads_bind p f [] bs). Qed.

(** Running one step of a computation at a given place of the input. *)
Lemma bind_reads {A B} (p : parser A) (f : A → parser B) pre bs post a :
  reads p bs a → len (pre ++ bs ++ post) < 2 ^ 64 →
  (p ≫= f) {| input := pre ++ bs ++ post; pos := len pre |}
  = f a {| input := (pre ++ bs) ++ post; pos := len (pre ++ bs) |}.
Proof.
  intros Hp Hl. unfold mbind, parser_bind. rewrite Hp by done.
  by rewrite len_app, <- app_assoc.
Qed.
Lemma bind_lift {A B} (m : result SarError.t A) (f : A → parser B) c a :
  m = Ok a → (lift m ≫= f) c = f a c.
Proof. by intros ->. Qed.
Lemma bind_tell {B} (f : Z → parser B) c : (tell ≫= f) c = f (pos c) c.
Proof. done. Qed.

Lemma reads_read_bytes bs n : n = len bs → reads (read_bytes n) bs bs.
Proof.
  intros -> pre post Hl. rewrite !len_app in Hl.
  pose proof (len_nonneg bs). pose proof (len_nonneg pre).
  pose proof (len_nonneg post).
  unfold read_bytes. cbn [pos input]. rewrite checked_add_fits by lia. cbn.
  rewrite !len_app. dif as E; [lia|].
  assert (Hs : slice_r (E:=SarError.t) (pre ++ bs ++ post) (len pre)
                 (len pre + len bs) = Ok bs).
  { apply slice_r_Ok. rewrite slice_app_mid, !len_app. split_and!; (done || lia). }
  by rewrite Hs.
Qed.

Lemma read_bytes_advances n c bs c' :
  cursor_wf c → read_bytes n c = Ok (bs, c') → advances c bs c' ∧ len bs = n.
Proof.
  intros [Hc1 Hc2] H. unfold read_bytes in H. inv_ok.
  match goal with H : slice_r _ _ _ = Ok _ |- _ =>
    apply slice_r_Ok in H as (-> & ? & ?) end.
  unfold advances. cbn. rewrite !len_slice by lia. split_and!; lia || done.
Qed.

Lemma read_bytes_no_panic n c :
  0 ≤ n → cursor_wf c → no_panic (read_bytes n c).
Proof.
  intros Hn [? ?]. unfold read_bytes. apply no_panic_bind; [apply no_panic_ok_or|].
  intros fin Hf. inv_ok. dif as E; [done|]. unfold slice_r.
  dif as E'; [done|]. lia.
Qed.

(** ** Codecs *)

(** A reader [dec] and an encoder [enc] for the values [wf]: what is encoded is
    read back, and what is read is the encoding of the value returned. *)
Class Codec {A} (dec : parser A) (enc : A → list byte) (wf : A → Prop) := {
  codec_reads a : wf a → reads dec (enc a) a;
  codec_sound c a c' :
    cursor_wf c → dec c = Ok (a, c') → advances c (enc a) c' ∧ wf a;
  codec_no_panic c : cursor_wf c → no_panic (dec c);
}.

(** One byte, as an encoding. *)
Definition enc_u8 (v : Z) : list byte := [byte_of v].
Lemma len_enc_u8 v : len (enc_u8 v) = 1.
Proof. done. Qed.
#[global] Hint Rewrite len_enc_u8 : len.

#[export] Instance codec_u8 : Codec read_u8 enc_u8 (fits 8).
Proof.
  unfold enc_u8. split.
  - intros v Hv. unfold read_u8.
    eapply (reads_step _ _ [byte_of v] []); [by apply reads_read_bytes|done|].
    eapply reads_skip; [by apply reads_lift|].
    rewrite byte_val_of_small by exact Hv. apply reads_ret.
  - intros c v c' Hc H. unfold read_u8 in H.
    apply parser_bind_Ok in H as (bs & c1 & Hr & H).
    apply read_bytes_advances in Hr as [Ha Hl]; [|done].
    destruct bs as [|b [|? ?]]; autorewrite with len in Hl;
      [lia| |pose proof (len_nonneg l); lia].
    apply parser_bind_Ok in H as (b' & c2 & Hb & H).
    cbn in Hb. injection Hb as <- <-. injection H as <- <-.
    rewrite byte_of_val. split; [done|]. apply byte_val_range.
  - intros c Hc. unfold read_u8, mbind, parser_bind.
    pose proof (read_bytes_no_panic 1 c ltac:(lia) Hc).
    destruct (read_bytes 1 c) as [[bs c']| |] eqn:E; [|done..].
    apply read_bytes_advances in E as [_ Hl]; [|done].
    by destruct bs.
Qed.

Lemma fits_256 n v : fits (8 * Z.of_nat n) v ↔ 0 ≤ v < 256 ^ Z.of_nat n.
Proof. unfold fits. by rewrite Z.pow_mul_r by lia. Qed.

Lemma codec_le (n : nat) :
  Codec (read_le (Z.of_nat n)) (le_bytes n) (λ v, fits (8 * Z.of_nat n) v).
Proof.
  split.
  - intros v Hv%fits_256. unfold read_le.
    eapply (reads_step _ _ (le_bytes n v) []);
      [apply reads_read_bytes; by rewrite len_le_bytes|by rewrite app_nil_r|].
    rewrite le_val_bytes by done. apply reads_ret.
  - intros c v c' Hc H. unfold read_le in H.
    apply parser_bind_Ok in H as (bs & c1 & Hr & H).
    apply read_bytes_advances in Hr as [Ha Hl]; [|done].
    injection H as <- <-.
    replace n with (length bs) at 1 by (unfold len in Hl; lia).
    rewrite le_bytes_val. split; [done|]. apply fits_256.
    rewrite <- Hl. apply le_val_range.
  - intros c Hc. unfold read_le, mbind, parser_bind.
    pose proof (read_bytes_no_panic (Z.of_nat n) c ltac:(lia) Hc).
    by destruct (read_bytes (Z.of_nat n) c) as [[]| |].
Qed.
#[export] Instance codec_u16 : Codec read_u16_le (le_bytes 2) (fits 16) := codec_le 2.
#[export] Instance codec_u32 : Codec read_u32_le (le_bytes 4) (fits 32) := codec_le 4.
#[export] Instance codec_u64 : Codec read_u64_le (le_bytes 8) (fits 64) := codec_le 8.

Lemma le_val_snoc0 bs : le_val (bs ++ [x00]) = le_val bs.
Proof.
  induction bs as [|b bs IH]; [done|].
  change (byte_val b + 256 * le_val (bs ++ [x00]) = byte_val b + 256 * le_val bs).
  by rewrite IH.
Qed.
Lemma take_le_bytes n m v : (n ≤ m)%nat → take n (le_bytes m v) = le_bytes n v.
Proof.
  revert m v. induction n as [|n IH]; intros m v Hm; [done|].
  destruct m as [|m]; [lia|].
  change (byte_of v :: take n (le_bytes m (v / 256))
          = byte_of v :: le_bytes n (v / 256)). f_equal. apply IH. lia.
Qed.

#[export] Instance codec_u24 : Codec read_u24_le (le_bytes 3) (fits 24).
Proof.
  assert (Heq : ∀ c, read_u24_le c = read_le 3 c).
  { intros c. unfold read_u24_le, read_le, mbind, parser_bind.
    destruct (read_bytes 3 c) as [[bs c']| |]; [|done..].
    by rewrite le_val_snoc0. }
  destruct (codec_le 3) as [H1 H2 H3]. split.
  - intros v Hv pre post Hl. rewrite Heq. by apply H1.
  - intros c v c' Hc H. rewrite Heq in H. by apply H2.
  - intros c Hc. rewrite Heq. by apply H3.
Qed.

(** A fixed-size byte string. *)
#[export] Instance codec_bytes (n : Z) :
  0 ≤ n → Codec (read_bytes n) (λ bs, bs) (λ bs, len bs = n).
Proof.
  intros Hn. split.
  - intros bs Hbs. by apply reads_read_bytes.
  - intros c bs c' Hc H. by apply read_bytes_advances.
  - intros c Hc. by apply read_bytes_no_panic.
Qed.

(** A field whose presence depends on a flag. *)
Definition enc_opt {A} (enc : A → list byte) (o : option A) : list byte :=
  match o with Some a => enc a | None => [] end.
Definition wf_opt {A} (cond : bool) (wf : A → Prop) (o : option A) : Prop :=
  match o with Some a => cond = true ∧ wf a | None => cond = false end.

#[export] Instance codec_optional {A} cond (dec : parser A) enc wf :
  Codec dec enc wf →
  Codec (optional cond dec) (enc_opt enc) (wf_opt cond wf).
Proof.
  intros C. unfold optional. split.
  - intros [a|] Hwf; cbn in Hwf.
    + destruct Hwf as [-> Hwf]. eapply (reads_step _ _ (enc a) []);
        [by apply codec_reads|cbn; by rewrite app_nil_r|apply reads_ret].
    + rewrite Hwf. apply reads_ret.
  - intros c o c' Hc H. destruct cond.
    + apply parser_bind_Ok in H as (a & c1 & Hd & H). injection H as <- <-.
      apply codec_sound in Hd as [Ha Hwf]; [|done]. done.
    + injection H as <- <-. split; [by apply advances_refl|done].
  - intros c Hc. destruct cond; [|done].
    unfold mbind, parser_bind. pose proof (codec_no_panic c Hc).
    by destruct (dec c) as [[]| |].
Qed.

(** Two fields in sequence. *)
Lemma codec_seq {A B} (dA : parser A) (dB : A → parser B) eA (eB : A → B → list byte) wA wB :
  Codec dA eA wA → (∀ a, wA a → Codec (dB a) (eB a) (wB a)) →
  Codec (a ← dA; b ← dB a; mret (a, b))
    (λ '(a, b), eA a ++ eB a b) (λ '(a, b), wA a ∧ wB a b).
Proof.
  intros CA CB. split.
  - intros [a b] [Ha Hb]. destruct (CB a Ha) as [RB _ _].
    eapply reads_bind; [by apply codec_reads|].
    eapply (reads_step _ _ (eB a b) []); [by apply RB|by rewrite app_nil_r|].
    apply reads_ret.
  - intros c [a b] c' Hc H. apply parser_bind_Ok in H as (a' & c1 & H1 & H).
    apply codec_sound in H1 as [A1 W1]; [|done].
    apply parser_bind_Ok in H as (b' & c2 & H2 & H). injection H as <- <- <-.
    destruct (CB a' W1) as [_ SB _].
    apply SB in H2 as [A2 W2]; [|by eapply advances_wf].
    split; [by eapply advances_trans|done].
  - intros c Hc. unfold mbind, parser_bind at 1.
    pose proof (codec_no_panic (dec:=dA) c Hc).
    destruct (dA c) as [[a c1]| |] eqn:E; [|done..].
    apply codec_sound in E as [A1 W1]; [|done].
    destruct (CB a W1) as [_ _ NB]. unfold parser_bind.
    pose proof (NB c1 (advances_wf _ _ _ Hc A1)).
    by destruct (dB a c1) as [[]| |].
Qed.
(** Running a codec on a whole buffer. *)
Lemma codec_run {A} (dec : parser A) enc wf a :
  Codec dec enc wf → wf a → len (enc a) < 2 ^ 64 →
  dec (new (enc a)) = Ok (a, {| input := enc a; pos := len (enc a) |}).
Proof.
  intros C Hwf Hl. pose proof (codec_reads a Hwf [] []) as H.
  rewrite app_nil_r in H. by apply H.
Qed.
Lemma codec_run_prefix {A} (dec : parser A) enc wf a rest :
  Codec dec enc wf → wf a → len (enc a ++ rest) < 2 ^ 64 →
  dec (new (enc a ++ rest))
  = Ok (a, {| input := enc a ++ rest; pos := len (enc a) |}).
Proof. intros C Hwf Hl. by apply (codec_reads a Hwf [] rest). Qed.
Lemma codec_run_inv {A} (dec : parser A) enc wf bs a c :
  Codec dec enc wf → dec (new bs) = Ok (a, c) →
  wf a ∧ pos c = len (enc a) ∧ take (Z.to_nat (pos c)) bs = enc a
  ∧ len (enc a) ≤ len bs.
Proof.
  intros C H. apply codec_sound in H as [(Hi & Hp & Hs & Hb) Hwf];
    [|apply new_wf].
  cbn in *. split_and!; [done|lia| |lia]. rewrite <- Hs. unfold slice. cbn.
  by rewrite Z.sub_0_r.
Qed.

#[global] Arguments enc_u8 : simpl never.

(** ** Tactics for wire formats *)

(** One step of a [reads] proof: a field with a codec, a fixed byte string, or a
    check that leaves the cursor alone. *)
Ltac read_field :=
  first [ eapply reads_bind; [solve [apply codec_reads; done]|]
        | eapply reads_bind; [solve [apply reads_read_bytes; done]|]
        | eapply reads_skip; [solve [apply reads_lift; eauto]|] ].

(** One step of a soundness proof: split the first bind of [H], turn it into an
    [advances] fact and keep the cursor well formed. *)
Ltac sound_step H :=
  let a := fresh "v" in let c1 := fresh "c" in let Hd := fresh "Hd" in
  let Ha := fresh "Ha" in let Hw := fresh "Hw" in let Hc1 := fresh "Hc" in
  apply parser_bind_Ok in H as (a & c1 & Hd & H);
  lazymatch type of Hd with
  | lift _ _ = _ =>
      let x := fresh "x" in
      apply lift_Ok in Hd as (x & Hd & Ha); injection Ha as -> ->
  | mret _ _ = _ => injection Hd as <- <-
  | ?p ?c0 = _ =>
      match goal with Hc : cursor_wf c0 |- _ =>
        first [ apply read_bytes_advances in Hd as [Ha Hw]; [|exact Hc]
              | apply (codec_sound (dec := p)) in Hd as [Ha Hw]; [|exact Hc] ];
        pose proof (advances_wf _ _ _ Hc Ha) as Hc1
      end
  end.
(** A guard of the body. *)
Ltac sound_guard H :=
  lazymatch type of H with
  | (if ?b then fail _ else _) _ = _ =>
      let E := fresh "Hif" in destruct b eqn:E; [discriminate H|]
  end.
(** Chain the [advances] facts collected by [sound_step]. *)
Ltac chain_advances :=
  repeat first
    [ eassumption
    | match goal with
      | |- advances ?c (_ ++ _) _ =>
          eapply (advances_trans c); [eassumption|eassumption|]
      | |- advances ?c [] ?c => apply advances_refl; assumption
      end ].
(** One step of a no-panic proof for a parser. *)
Lemma no_panic_parser_bind {A B} (p : parser A) (f : A → parser B) c :
  no_panic (p c) → (∀ a c', p c = Ok (a, c') → no_panic (f a c')) →
  no_panic ((p ≫= f) c).
Proof.
  unfold no_panic, mbind, parser_bind. destruct (p c) as [[a c']| |]; naive_solver.
Qed.
Lemma no_panic_lift {A} (m : result SarError.t A) c :
  no_panic m → no_panic (lift m c).
Proof. by destruct m. Qed.
Ltac np_step :=
  apply no_panic_parser_bind;
  [ first [ apply codec_no_panic; assumption
          | apply read_bytes_no_panic; [lia|assumption]
          | apply no_panic_lift; solve [eauto with no_panic]
          | idtac ]
  | let a := fresh "v" in let c1 := fresh "c" in let Hd := fresh "Hd" in
    let Ha := fresh "Ha" in let Hw := fresh "Hw" in let Hc1 := fresh "Hc" in
    intros a c1 Hd;
    lazymatch type of Hd with
    | lift _ _ = _ =>
        let x := fresh "x" in
        apply lift_Ok in Hd as (x & Hd & Ha); injection Ha as -> ->
    | ?p ?c0 = _ =>
      match goal with Hc : cursor_wf c0 |- _ =>
        first [ apply read_bytes_advances in Hd as [Ha Hw]; [|exact Hc]
              | apply (codec_sound (dec := p)) in Hd as [Ha Hw]; [|exact Hc] ];
        pose proof (advances_wf _ _ _ Hc Ha) as Hc1
      end
    end ].

End Cursor.
