(* ===== verification/Format.v ===== *)
(** * Global header, footer and size fields

    Models the first part of [crates/sar-core/src/format.rs]: the width-dependent
    size fields, the Global Header with its optional Partition Descriptor and KMS
    extension, and the Footer.  The theorems are the two round trips between
    bytes and headers and the absence of panics on arbitrary input. *)

From S2P Require Import Prelude Errors Limits Flags Cursor.
Import Cursor Limits.

Module Format.

(** [MAGIC], [b"SAR!"]. *)
Definition MAGIC : list byte := [x53; x41; x52; x21].
#[global] Arguments MAGIC : simpl never.
Definition SUPPORTED_GLOBAL_VERSION : Z := 1.

(** [iter().any(|byte| *byte != 0)]. *)
Definition any_nonzero (bs : list byte) : bool :=
  existsb (λ b, negb (byte_val b =? 0)) bs.

(** [struct KmsData]. *)
Record KmsData := { mode_id : Z; kms_payload : list byte }.

(** [struct PartitionDescriptor]. *)
Record PartitionDescriptor := {
  partition_set_uuid : list byte;
  partition_index : Z;
  total_partitions : Z;
  previous_partition_hash : list byte;
  partition_hash : list byte;
}.

(** [struct GlobalHeader]. *)
Record GlobalHeader := {
  version : Z;
  flags_bytes : list byte;
  flags : Z;
  partition_descriptor : option PartitionDescriptor;
  kms : option KmsData;
}.

(** [struct Footer]. *)
Record Footer := { cd_offset : Z }.

Section format.
Context {B : Bitflags}.

(** [size_field_len], [read_size], [write_size]. *)
Definition size_field_len (flags : Z) : Z :=
  if contains flags GlobalFlags.SIZE_64BIT then 8 else 4.
Definition read_size (flags : Z) : parser Z :=
  if contains flags GlobalFlags.SIZE_64BIT then read_u64_le else read_u32_le.
Definition write_size (w : list byte) (flags value : Z)
    : result SarError.t (list byte) :=
  if contains flags GlobalFlags.SIZE_64BIT then Ok (write_u64_le w value)
  else
    v ← ok_or (try_from 32 value)
          (SarError.Overflow "size does not fit 32-bit field");
    Ok (write_u32_le w v).

(** The 96-byte descriptor block of [parse_global_header]. *)
Definition parse_partition_descriptor : parser PartitionDescriptor :=
  uuid ← read_bytes 16;
  index ← read_u32_le;
  total ← read_u32_le;
  prev ← read_bytes 32;
  hash ← read_bytes 32;
  reserved ← read_bytes 8;
  if any_nonzero reserved then
    fail (SarError.ReservedValue
            "partition descriptor reserved bytes must be zero")
  else
    mret {| partition_set_uuid := uuid; partition_index := index;
            total_partitions := total; previous_partition_hash := prev;
            partition_hash := hash |}.

(** [let bytes = cursor.read_bytes(96)?; let mut pcur =
    ParseCursor::new(bytes); ...]. *)
Definition partition_descriptor_block : parser PartitionDescriptor :=
  bytes ← read_bytes 96;
  pd ← lift (parse_partition_descriptor (new bytes));
  mret (fst pd).

(** The [match mode_id] of the KMS extension block. *)
Definition check_kms_mode (mode_id : Z) : result SarError.t unit :=
  if (1 <=? mode_id) && (mode_id <=? 4) then Ok tt
  else if (240 <=? mode_id) && (mode_id <=? 255) then
    Err (SarError.Unsupported "custom KMS mode")
  else Err (SarError.ReservedValue "unknown KMS mode").

(** The KMS extension block of [parse_global_header]. *)
Definition parse_kms (limits : ResourceLimits) : parser KmsData :=
  mode_id ← read_u8;
  _ ← lift (check_kms_mode mode_id);
  n ← read_u32_le;
  payload_len ← lift (ok_or (try_from 64 n)
                        (SarError.Overflow "KMS payload length"));
  _ ← lift (check_kms_payload_bytes limits payload_len);
  payload ← read_bytes payload_len;
  mret {| mode_id := mode_id; kms_payload := payload |}.

(** The body of [parse_global_header], over the cursor. *)
Definition global_header_body (limits : ResourceLimits) : parser GlobalHeader :=
  magic ← read_bytes 4;
  if negb (bool_decide (magic = MAGIC)) then fail SarError.InvalidMagic else
  version ← read_u8;
  if negb (version =? SUPPORTED_GLOBAL_VERSION) then
    fail (SarError.InvalidVersion "unsupported global header version")
  else
  reserved ← read_u8;
  if negb (reserved =? 0) then
    fail (SarError.ReservedValue "global reserved byte must be zero")
  else
  flags_size ← read_u16_le;
  if flags_size <? 4 then
    fail (SarError.InvalidLength "global flags size must be >= 4")
  else
  _ ← lift (check_global_flags_bytes limits flags_size);
  flags_bytes ← read_bytes flags_size;
  low ← lift (slice_r flags_bytes 0 4);
  let flags := from_bits_truncate GlobalFlags.all (le_val low) in
  _ ← lift (validate_global_flags flags);
  partition_descriptor ←
    optional (contains flags GlobalFlags.PARTITIONED_ARCHIVE)
      partition_descriptor_block;
  kms ← optional (contains flags GlobalFlags.ENCRYPTED) (parse_kms limits);
  if negb (contains flags GlobalFlags.ENCRYPTED)
     && bool_decide (is_Some kms) then
    fail (SarError.FlagConflict
            "KMS extension must be omitted when ENCRYPTED is unset")
  else if negb (contains flags GlobalFlags.PARTITIONED_ARCHIVE)
          && bool_decide (is_Some partition_descriptor) then
    fail (SarError.FlagConflict
            "partition descriptor must be omitted when PARTITIONED_ARCHIVE is unset")
  else
    mret {| version := version; flags_bytes := flags_bytes; flags := flags;
            partition_descriptor := partition_descriptor; kms := kms |}.

(** [parse_global_header]. *)
Definition parse_global_header (input : list byte) (limits : ResourceLimits)
    : result SarError.t (GlobalHeader * Z) :=
  '(header, c) ← global_header_body limits (new input);
  Ok (header, position c).

(** The descriptor and KMS blocks of [write_global_header]. *)
Definition write_partition_descriptor (w : list byte) (d : PartitionDescriptor)
    : list byte :=
  let w := write_bytes w (partition_set_uuid d) in
  let w := write_u32_le w (partition_index d) in
  let w := write_u32_le w (total_partitions d) in
  let w := write_bytes w (previous_partition_hash d) in
  let w := write_bytes w (partition_hash d) in
  write_bytes w (zeros 8).
Definition write_kms (w : list byte) (k : KmsData)
    : result SarError.t (list byte) :=
  let w := write_u8 w (mode_id k) in
  n ← ok_or (try_from 32 (len (kms_payload k)))
        (SarError.Overflow "KMS payload does not fit u32");
  let w := write_u32_le w n in
  Ok (write_bytes w (kms_payload k)).

(** [write_global_header]. *)
Definition write_global_header (h : GlobalHeader)
    : result SarError.t (list byte) :=
  _ ← validate_global_flags (flags h);
  if contains (flags h) GlobalFlags.ENCRYPTED
     && negb (bool_decide (is_Some (kms h))) then
    Err (SarError.FlagConflict "ENCRYPTED requires KMS extension")
  else if negb (contains (flags h) GlobalFlags.ENCRYPTED)
          && bool_decide (is_Some (kms h)) then
    Err (SarError.FlagConflict "KMS extension requires ENCRYPTED")
  else if contains (flags h) GlobalFlags.PARTITIONED_ARCHIVE
          && negb (bool_decide (is_Some (partition_descriptor h))) then
    Err (SarError.FlagConflict
           "PARTITIONED_ARCHIVE requires partition descriptor")
  else if negb (contains (flags h) GlobalFlags.PARTITIONED_ARCHIVE)
          && bool_decide (is_Some (partition_descriptor h)) then
    Err (SarError.FlagConflict
           "partition descriptor requires PARTITIONED_ARCHIVE")
  else if len (flags_bytes h) <? 4 then
    Err (SarError.InvalidLength "global flags bytes must be >= 4")
  else
    fb ← copy_at_r (flags_bytes h) 0 (le_bytes 4 (flags h));
    let w := write_bytes [] MAGIC in
    let w := write_u8 w (version h) in
    let w := write_u8 w 0 in
    n ← ok_or (try_from 16 (len fb))
          (SarError.Overflow "global flags size does not fit u16");
    let w := write_u16_le w n in
    let w := write_bytes w fb in
    let w := match partition_descriptor h with
             | Some d => write_partition_descriptor w d
             | None => w
             end in
    match kms h with Some k => write_kms w k | None => Ok w end.

(** [parse_footer] and [write_footer]. *)
Definition parse_footer (input : list byte) : result SarError.t Footer :=
  if len input <? 8 then Err (SarError.Truncated "footer requires 8 bytes")
  else
    bs ← slice_r input 0 8;
    '(v, _) ← read_u64_le (new bs);
    Ok {| cd_offset := v |}.
Definition write_footer (f : Footer) : list byte := le_bytes 8 (cd_offset f).

(** [global_header_flags_bytes]: the header part bound into the AEAD
    additional data. *)
Definition global_header_flags_bytes (h : GlobalHeader) : list byte :=
  MAGIC ++ [byte_of (version h)] ++ [x00]
  ++ le_bytes 2 (len (flags_bytes h) mod 2 ^ 16) ++ flags_bytes h.
End format.

(** ** Encodings and well-formed values *)

Definition enc_pd (d : PartitionDescriptor) : list byte :=
  partition_set_uuid d ++ le_bytes 4 (partition_index d)
  ++ le_bytes 4 (total_partitions d) ++ previous_partition_hash d
  ++ partition_hash d ++ zeros 8.
Definition pd_wf (d : PartitionDescriptor) : Prop :=
  len (partition_set_uuid d) = 16 ∧ fits 32 (partition_index d)
  ∧ fits 32 (total_partitions d) ∧ len (previous_partition_hash d) = 32
  ∧ len (partition_hash d) = 32.
Definition enc_kms (k : KmsData) : list byte :=
  enc_u8 (mode_id k) ++ le_bytes 4 (len (kms_payload k)) ++ kms_payload k.
Definition kms_wf (limits : ResourceLimits) (k : KmsData) : Prop :=
  1 ≤ mode_id k ≤ 4 ∧ len (kms_payload k) < 2 ^ 32
  ∧ len (kms_payload k) ≤ max_kms_payload_bytes limits.

Lemma any_nonzero_false bs : any_nonzero bs = false ↔ bs = zeros (len bs).
Proof.
  unfold zeros, len. rewrite Nat2Z.id. induction bs as [|b bs IH]; [done|].
  cbn [any_nonzero existsb]. unfold any_nonzero in IH.
  rewrite orb_false_iff, negb_false_iff, Z.eqb_eq, IH. cbn [length replicate].
  split.
  - intros [Hb ->]. f_equal; [by apply byte_val_inj|by rewrite length_replicate].
  - intros [= Hb Hbs]. by rewrite Hb.
Qed.

Lemma check_kms_mode_ok m : check_kms_mode m = Ok tt ↔ 1 ≤ m ≤ 4.
Proof.
  unfold check_kms_mode. dif as E; [split; (done || lia)|].
  split; [by dif as E'|lia].
Qed.
Lemma check_kms_mode_no_panic m : no_panic (check_kms_mode m).
Proof. unfold check_kms_mode. by repeat case_match. Qed.
#[export] Hint Resolve check_kms_mode_no_panic : no_panic.

Lemma len_enc_pd d : pd_wf d → len (enc_pd d) = 96.
Proof.
  intros (H1 & _ & _ & H2 & H3). unfold enc_pd. autorewrite with len.
  by rewrite H1, H2, H3.
Qed.

#[export] Instance codec_pd : Codec parse_partition_descriptor enc_pd pd_wf.
Proof.
  split.
  - intros d (H1 & H2 & H3 & H4 & H5). unfold parse_partition_descriptor, enc_pd.
    repeat read_field. rewrite <- (app_nil_r (zeros 8)).
    eapply reads_bind; [by apply reads_read_bytes|].
    destruct d. apply reads_ret.
  - intros c d c' Hc H. unfold parse_partition_descriptor in H.
    do 6 sound_step H. sound_guard H. injection H as <- <-.
    apply any_nonzero_false in Hif.
    match goal with Hl : len ?r = 8, Hz : ?r = zeros _ |- _ =>
      rewrite Hl in Hz; subst r end.
    split; [unfold enc_pd; cbn; chain_advances|done].
  - intros c Hc. unfold parse_partition_descriptor. do 6 np_step.
    dif as E; done.
Qed.

#[export] Instance codec_kms limits :
  Codec (parse_kms limits) enc_kms (kms_wf limits).
Proof.
  split.
  - intros k (H1 & H2 & H3). unfold parse_kms, enc_kms.
    pose proof (len_nonneg (kms_payload k)).
    eapply reads_bind; [apply codec_reads; unfold fits; lia|].
    eapply reads_skip; [by apply reads_lift, check_kms_mode_ok|].
    eapply reads_bind; [apply codec_reads; unfold fits; lia|].
    eapply reads_skip; [apply reads_lift; by rewrite try_from_fits by lia|].
    eapply reads_skip; [by apply reads_lift, check_kms_payload_bytes_ok|].
    eapply (reads_step _ _ (kms_payload k) []);
      [by apply reads_read_bytes|by rewrite app_nil_r|].
    destruct k. apply reads_ret.
  - intros c k c' Hc H. unfold parse_kms in H. do 6 sound_step H.
    injection H as <- <-. inv_ok.
    repeat match goal with H : unit |- _ => destruct H end.
    rewrite check_kms_payload_bytes_ok, check_kms_mode_ok in *.
    unfold enc_kms, kms_wf. cbn.
    split; [by chain_advances|]. unfold fits in *. lia.
  - intros c Hc. unfold parse_kms. do 6 np_step; try done.
    inv_ok. unfold fits in *. apply read_bytes_no_panic; [lia|assumption].
Qed.

#[export] Instance codec_pd_block : Codec partition_descriptor_block enc_pd pd_wf.
Proof.
  split.
  - intros d Hd. unfold partition_descriptor_block. pose proof (len_enc_pd d Hd).
    eapply (reads_step _ _ (enc_pd d) []);
      [by apply reads_read_bytes|by rewrite app_nil_r|].
    eapply reads_skip.
    { apply reads_lift. apply (codec_run _ _ _ d codec_pd Hd). lia. }
    apply reads_ret.
  - intros c d c' Hc H. unfold partition_descriptor_block in H.
    do 2 sound_step H. destruct x as [d1 c9]. cbn in H. injection H as <- <-.
    apply (codec_run_inv _ _ _ _ _ _ codec_pd) in Hd as (Hd & Hp & Ht & _).
    rewrite Hp, len_enc_pd, <- Hw in Ht by done.
    unfold len in Ht. rewrite Nat2Z.id, take_ge in Ht by lia. by subst v.
  - intros c Hc. unfold partition_descriptor_block. np_step. np_step; [|done].
    apply no_panic_lift, (codec_no_panic (Codec := codec_pd)), new_wf.
Qed.

(** ** Size fields *)
Section size_fields.
Context {B : Bitflags}.

Definition enc_size (flags v : Z) : list byte :=
  if contains flags GlobalFlags.SIZE_64BIT then le_bytes 8 v else le_bytes 4 v.
Definition size_wf (flags v : Z) : Prop :=
  if contains flags GlobalFlags.SIZE_64BIT then fits 64 v else fits 32 v.

#[export] Instance codec_size flags :
  Codec (read_size flags) (enc_size flags) (size_wf flags).
Proof.
  unfold read_size, enc_size, size_wf.
  destruct (contains flags GlobalFlags.SIZE_64BIT); [apply codec_u64|apply codec_u32].
Qed.
Lemma size_wf_u64 flags v : size_wf flags v → fits 64 v.
Proof. unfold size_wf, fits. case_match; lia. Qed.
Lemma len_enc_size flags v : len (enc_size flags v) = size_field_len flags.
Proof.
  unfold enc_size, size_field_len. case_match; by rewrite len_le_bytes.
Qed.
(** [write_size] succeeds exactly on the values its field can hold. *)
Lemma write_size_Ok w flags v r :
  fits 64 v →
  (write_size w flags v = Ok r ↔ size_wf flags v ∧ r = w ++ enc_size flags v).
Proof.
  intros Hv. unfold write_size, size_wf, enc_size, write_u64_le, write_u32_le.
  destruct (contains flags GlobalFlags.SIZE_64BIT).
  - naive_solver.
  - rewrite bind_Ok. setoid_rewrite ok_or_Ok. setoid_rewrite try_from_Some.
    unfold fits in *. naive_solver lia.
Qed.
Lemma write_size_no_panic w flags v : no_panic (write_size w flags v).
Proof. unfold write_size. np. Qed.
End size_fields.
#[export] Hint Resolve write_size_no_panic : no_panic.

Section global_header.
Context {B : Bitflags}.

(** The bytes of a header whose first flag word is [flags h]. *)
Definition enc_gh (h : GlobalHeader) : list byte :=
  MAGIC ++ enc_u8 (version h) ++ enc_u8 0
  ++ le_bytes 2 (len (flags_bytes h)) ++ flags_bytes h
  ++ enc_opt enc_pd (partition_descriptor h) ++ enc_opt enc_kms (kms h).

Definition gh_wf (limits : ResourceLimits) (h : GlobalHeader) : Prop :=
  version h = SUPPORTED_GLOBAL_VERSION
  ∧ 4 ≤ len (flags_bytes h) < 2 ^ 16
  ∧ len (flags_bytes h) ≤ max_global_flags_bytes limits
  ∧ flags h = from_bits_truncate GlobalFlags.all
                (le_val (slice (flags_bytes h) 0 4))
  ∧ validate_global_flags (flags h) = Ok tt
  ∧ wf_opt (contains (flags h) GlobalFlags.PARTITIONED_ARCHIVE) pd_wf
      (partition_descriptor h)
  ∧ wf_opt (contains (flags h) GlobalFlags.ENCRYPTED) (kms_wf limits) (kms h).

Lemma wf_opt_guard {A} cond (wf : A → Prop) o :
  wf_opt cond wf o → negb cond && bool_decide (is_Some o) = false.
Proof. destruct o, cond; cbn; naive_solver. Qed.
Lemma wf_opt_guard' {A} cond (wf : A → Prop) o :
  wf_opt cond wf o → cond && negb (bool_decide (is_Some o)) = false.
Proof. destruct o, cond; cbn; naive_solver. Qed.

#[export] Instance codec_gh limits :
  Codec (global_header_body limits) enc_gh (gh_wf limits).
Proof.
  split.
  - intros [v fb fl pd k] (Hv & Hl & Hlim & Hf & Hval & Hpd & Hk). cbn in *.
    unfold global_header_body, enc_gh. cbn [version flags_bytes partition_descriptor kms].
    eapply (reads_step _ _ MAGIC); [by apply reads_read_bytes|done|].
    rewrite bool_decide_true by done. cbn [negb].
    eapply reads_bind; [apply codec_reads; by rewrite Hv|].
    rewrite Hv. cbn [negb Z.eqb SUPPORTED_GLOBAL_VERSION Pos.eqb].
    eapply reads_bind; [by apply codec_reads|]. cbn [negb Z.eqb].
    eapply reads_bind; [apply codec_reads; unfold fits; lia|].
    dif as E; [lia|]. clear E.
    eapply reads_skip; [by apply reads_lift, check_global_flags_bytes_ok|].
    eapply reads_bind; [by apply reads_read_bytes|].
    eapply reads_skip.
    { apply reads_lift, slice_r_Ok. split_and!; (done || lia). }
    rewrite <- Hf.
    eapply reads_skip; [by apply reads_lift|].
    eapply reads_bind; [by apply codec_reads|].
    eapply (reads_step _ _ (enc_opt enc_kms k) []);
      [by apply codec_reads|by rewrite app_nil_r|].
    erewrite (wf_opt_guard _ _ k), (wf_opt_guard _ _ pd) by done.
    apply reads_ret.
  - intros c h c' Hc H. unfold global_header_body in H.
    sound_step H. sound_guard H. sound_step H. sound_guard H.
    sound_step H. sound_guard H. sound_step H. sound_guard H.
    do 6 sound_step H. do 2 sound_guard H. injection H as <- <-.
    rewrite negb_false_iff, ?bool_decide_eq_true, ?Z.eqb_eq in *.
    destruct x, x1. rewrite check_global_flags_bytes_ok in *.
    match goal with H : slice_r _ _ _ = Ok _ |- _ =>
      apply slice_r_Ok in H as (-> & ? & ?) end.
    subst. unfold enc_gh, gh_wf. cbn. unfold fits in *.
    split; [by chain_advances|]. split_and!; (done || lia).
  - intros c Hc. unfold global_header_body.
    np_step. dif as E1; [done|]. np_step. dif as E2; [done|].
    np_step. dif as E3; [done|]. np_step. dif as E4; [done|].
    np_step. np_step. np_step.
    { apply no_panic_lift. unfold slice_r. dif as E; [done|lia]. }
    np_step. np_step. np_step. by repeat (dif as E; [done|]; clear E).
Qed.
End global_header.

(** ** Global header: input that ends too early *)

(** [fails p bs e]: on input that ends behind [bs] at the cursor, [p] returns [e]. *)
Definition fails {A} (p : parser A) (bs : list byte) (e : SarError.t) : Prop :=
  ∀ pre, len (pre ++ bs) < U64_MAX → p {| input := pre ++ bs; pos := len pre |} = Err e.
Lemma fails_bind {A C} (p : parser A) (f : A → parser C) bs1 bs2 a e :
  reads p bs1 a → fails (f a) bs2 e → fails (p ≫= f) (bs1 ++ bs2) e.
Proof.
  intros Hp Hf pre Hl. rewrite (bind_reads p f pre bs1 bs2 a Hp) by (unfold U64_MAX in Hl; lia). apply Hf.
  by rewrite <- app_assoc.
Qed.
Lemma fails_skip {A C} (p : parser A) (f : A → parser C) bs a e :
  reads p [] a → fails (f a) bs e → fails (p ≫= f) bs e.
Proof. apply (fails_bind p f [] bs). Qed.
Lemma fails_first {A C} (p : parser A) (f : A → parser C) bs e : fails p bs e → fails (p ≫= f) bs e.
Proof. intros Hp pre Hl. unfold mbind, parser_bind. by rewrite Hp. Qed.
Lemma read_u8_fails : fails read_u8 [] (SarError.Truncated "insufficient bytes").
Proof.
  apply fails_first. intros pre Hl. rewrite app_nil_r in *. unfold read_bytes. cbn [pos input].
  pose proof (len_nonneg pre). unfold checked_add, U64_MAX in *. dif as E; [|lia]. cbn. by dif as E'; [|lia].
Qed.

Section cut_header.
Context {B : Bitflags}.

(** The bytes of a header in front of its KMS extension. *)
Definition enc_front (h : GlobalHeader) : list byte :=
  MAGIC ++ enc_u8 (version h) ++ enc_u8 0
  ++ le_bytes 2 (len (flags_bytes h)) ++ flags_bytes h
  ++ enc_opt enc_pd (partition_descriptor h).

(** A header that announces a KMS extension which is not there. *)
Lemma parse_front_truncated limits h :
  gh_wf limits h → contains (flags h) GlobalFlags.ENCRYPTED = true →
  len (enc_front h) < U64_MAX →
  parse_global_header (enc_front h) limits = Err (SarError.Truncated "insufficient bytes").
Proof.
  destruct h as [v fb fl pd k]. intros (Hv & Hl & Hlim & Hf & Hval & Hpd & Hk) He Hb. cbn in *.
  enough (Hfail : fails (global_header_body limits) (enc_front {| version := v; flags_bytes := fb;
      flags := fl; partition_descriptor := pd; kms := k |}) (SarError.Truncated "insufficient bytes"))
    by (pose proof (Hfail [] Hb) as Hx; unfold parse_global_header, new;
        cbn [app] in Hx; change (len []) with 0 in Hx; by rewrite Hx).
  unfold global_header_body, enc_front. cbn [version flags_bytes partition_descriptor].
  apply (fails_bind _ _ MAGIC _ MAGIC); [by apply reads_read_bytes|].
  rewrite bool_decide_true by done. cbn [negb].
  eapply fails_bind; [apply codec_reads; by rewrite Hv|].
  rewrite Hv. cbn [negb Z.eqb SUPPORTED_GLOBAL_VERSION Pos.eqb].
  eapply fails_bind; [by apply codec_reads|]. cbn [negb Z.eqb].
  eapply fails_bind; [apply codec_reads; unfold fits; lia|].
  dif as E; [lia|]. clear E.
  eapply fails_skip; [by apply reads_lift, check_global_flags_bytes_ok|].
  eapply fails_bind; [by apply reads_read_bytes|].
  eapply fails_skip; [apply reads_lift, slice_r_Ok; split_and!; (done || lia)|].
  rewrite <- Hf. eapply fails_skip; [by apply reads_lift|].
  rewrite <- (app_nil_r (enc_opt enc_pd pd)).
  eapply fails_bind; [by apply codec_reads|]. rewrite He. cbn [optional].
  apply fails_first, fails_first, fails_first, read_u8_fails.
Qed.
End cut_header.

(** ** Global header: the two round trips *)

(** [h] with its first flag word replaced by [flags h], as the writer does. *)
Definition with_flag_word (h : GlobalHeader) : GlobalHeader :=
  {| version := version h;
     flags_bytes := copy_at (flags_bytes h) 0 (le_bytes 4 (flags h));
     flags := flags h; partition_descriptor := partition_descriptor h;
     kms := kms h |}.

Section round_trips.
Context {B : Bitflags}.

Lemma write_partition_descriptor_enc w d :
  write_partition_descriptor w d = w ++ enc_pd d.
Proof.
  unfold write_partition_descriptor, enc_pd, write_bytes, write_u32_le.
  by rewrite <- !app_assoc.
Qed.
Lemma write_kms_enc w k :
  len (kms_payload k) < 2 ^ 32 → write_kms w k = Ok (w ++ enc_kms k).
Proof.
  intros. unfold write_kms, enc_kms. rewrite try_from_fits by done. cbn.
  unfold write_bytes, write_u32_le, write_u8, enc_u8. by rewrite <- !app_assoc.
Qed.

(** The writer on a header with consistent flags and extensions. *)
Lemma write_global_header_enc limits h :
  validate_global_flags (flags h) = Ok tt →
  4 ≤ len (flags_bytes h) < 2 ^ 16 →
  wf_opt (contains (flags h) GlobalFlags.PARTITIONED_ARCHIVE) pd_wf
    (partition_descriptor h) →
  wf_opt (contains (flags h) GlobalFlags.ENCRYPTED) (kms_wf limits) (kms h) →
  write_global_header h = Ok (enc_gh (with_flag_word h)).
Proof.
  intros Hval Hl Hpd Hk. unfold write_global_header. rewrite Hval. cbn [mbind result_bind].
  erewrite (wf_opt_guard' _ _ (kms h)), (wf_opt_guard _ _ (kms h)),
    (wf_opt_guard' _ _ (partition_descriptor h)),
    (wf_opt_guard _ _ (partition_descriptor h)) by done.
  rewrite (proj2 (Z.ltb_ge _ _)) by lia.
  rewrite copy_at_r_fits by (rewrite ?len_le_bytes; lia).
  cbn [mbind result_bind].
  rewrite try_from_fits by (rewrite len_copy_at; rewrite ?len_le_bytes; lia).
  cbn [ok_or mbind result_bind]. unfold enc_gh, with_flag_word.
  cbn [version flags_bytes flags partition_descriptor kms].
  unfold write_bytes, write_u8, write_u16_le. fold (enc_u8 (version h)) (enc_u8 0).
  cbn [app]. destruct (partition_descriptor h); rewrite ?write_partition_descriptor_enc;
    (destruct (kms h) as [k|]; [destruct Hk as (_ & _ & Hk & _);
      rewrite write_kms_enc by done|]); cbn [enc_opt];
    by rewrite <- ?app_assoc, ?app_nil_r.
Qed.

(** The first flag word of a header is at offset 8. *)
Lemma enc_gh_flag_word h :
  4 ≤ len (flags_bytes h) < 2 ^ 16 →
  enc_gh (with_flag_word h) = copy_at (enc_gh h) 8 (le_bytes 4 (flags h)).
Proof.
  intros Hl. unfold enc_gh, with_flag_word.
  cbn [version flags_bytes flags partition_descriptor kms].
  rewrite len_copy_at by (rewrite ?len_le_bytes; lia).
  set (P := MAGIC ++ enc_u8 (version h) ++ enc_u8 0 ++ le_bytes 2 (len (flags_bytes h))).
  pose proof (copy_at_app_mid P (flags_bytes h)
    (enc_opt enc_pd (partition_descriptor h) ++ enc_opt enc_kms (kms h))
    (le_bytes 4 (flags h))) as H.
  rewrite len_le_bytes in H. specialize (H ltac:(lia)).
  subst P. rewrite <- !app_assoc in H. by symmetry.
Qed.

(** A global header written and read back, whatever follows it: a header
    whose flags are declared and consistent and whose extensions match them is
    encoded, and the parser returns it, with the first flag word of its flag
    bytes set to its flags, and the number of bytes written. *)
Theorem global_header_write_parse limits h rest :
  version h = SUPPORTED_GLOBAL_VERSION →
  fits 32 (flags h) → from_bits_truncate GlobalFlags.all (flags h) = flags h →
  validate_global_flags (flags h) = Ok tt →
  4 ≤ len (flags_bytes h) < 2 ^ 16 →
  len (flags_bytes h) ≤ max_global_flags_bytes limits →
  wf_opt (contains (flags h) GlobalFlags.PARTITIONED_ARCHIVE) pd_wf
    (partition_descriptor h) →
  wf_opt (contains (flags h) GlobalFlags.ENCRYPTED) (kms_wf limits) (kms h) →
  ∃ bs, write_global_header h = Ok bs
    ∧ (len (bs ++ rest) < 2 ^ 64 →
       parse_global_header (bs ++ rest) limits = Ok (with_flag_word h, len bs)).
Proof.
  intros Hv Hf Ht Hval Hl Hlim Hpd Hk. eexists.
  split; [by eapply write_global_header_enc|]. intros Hlen.
  unfold parse_global_header.
  rewrite (codec_run_prefix _ _ _ (with_flag_word h) rest (codec_gh limits));
    [done| |done].
  unfold gh_wf, with_flag_word. cbn [version flags_bytes flags partition_descriptor kms].
  rewrite len_copy_at by (rewrite ?len_le_bytes; lia).
  split_and!; try (done || lia).
  pose proof (take_copy_at (flags_bytes h) (le_bytes 4 (flags h))) as Hs.
  rewrite len_le_bytes in Hs. change (Z.of_nat 4) with 4 in Hs.
  rewrite Hs, le_val_bytes by (exact Hf || lia). done.
Qed.

(** A parsed global header written again gives the bytes it was parsed
    from, except that the flag word at offset 8 holds the declared flags only:
    every other byte the parser consumed is reproduced. *)
Theorem global_header_parse_write input limits h n :
  parse_global_header input limits = Ok (h, n) →
  write_global_header h
  = Ok (copy_at (take (Z.to_nat n) input) 8 (le_bytes 4 (flags h)))
  ∧ flags h = from_bits_truncate GlobalFlags.all
                (le_val (slice input 8 12)).
Proof.
  intros H. unfold parse_global_header in H.
  apply bind_Ok in H as ([h' c] & Hp & H). injection H as -> <-.
  apply (codec_run_inv _ _ _ _ _ _ (codec_gh limits)) in Hp as (Hwf & Hp & Ht & Hle).
  unfold position. rewrite Ht. pose proof Hwf as (Hv & Hl & Hlim & Hf & Hval & Hpd & Hk).
  split.
  - rewrite (write_global_header_enc limits) by done. by rewrite enc_gh_flag_word.
  - rewrite Hf. do 2 f_equal. rewrite Hp in Ht.
    rewrite <- (take_drop (Z.to_nat (len (enc_gh h))) input), Ht.
    unfold enc_gh. symmetry.
    set (P := MAGIC ++ enc_u8 (version h) ++ enc_u8 0
              ++ le_bytes 2 (len (flags_bytes h))).
    set (S := enc_opt enc_pd (partition_descriptor h) ++ enc_opt enc_kms (kms h)
              ++ drop (Z.to_nat (len (enc_gh h))) input).
    transitivity (slice (P ++ flags_bytes h ++ S) (len P) (len P + 4));
      [|by apply slice_app_mid_prefix; lia].
    unfold P, S. by rewrite <- !app_assoc.
Qed.
End round_trips.

(** ** Footer *)

Lemma parse_footer_app f rest :
  fits 64 (cd_offset f) → parse_footer (write_footer f ++ rest) = Ok f.
Proof.
  intros Hf. unfold parse_footer, write_footer. pose proof (len_nonneg rest).
  rewrite len_app, len_le_bytes. rewrite (proj2 (Z.ltb_ge _ _)) by lia.
  assert (Hs : slice_r (E:=SarError.t) (le_bytes 8 (cd_offset f) ++ rest) 0 8
               = Ok (le_bytes 8 (cd_offset f))).
  { apply slice_r_Ok. rewrite len_app, len_le_bytes. split_and!; [|lia..].
    apply (eq_sym (take_len_app (le_bytes 8 (cd_offset f)) rest)). }
  rewrite Hs. cbn [mbind result_bind].
  rewrite (codec_run _ _ _ _ codec_u64 Hf) by by rewrite len_le_bytes.
  by destruct f.
Qed.
Lemma parse_footer_fits bs f : parse_footer bs = Ok f → fits 64 (cd_offset f).
Proof.
  unfold parse_footer. intros [_ H]%guard_Ok. apply bind_Ok in H as (s & _ & H).
  apply bind_Ok in H as ([v c] & H & [= <-]).
  by apply (codec_sound (Codec := codec_u64)) in H as [_ ?]; [|apply new_wf].
Qed.
Lemma parse_footer_no_panic bs : no_panic (parse_footer bs).
Proof.
  unfold parse_footer. dif as E; [done|].
  apply no_panic_bind; [unfold slice_r; by dif as E'; [|lia]|].
  intros s _. apply no_panic_bind; [apply codec_no_panic, new_wf|].
  by intros [].
Qed.
Lemma parse_global_header_no_panic `{Bitflags} bs limits :
  no_panic (parse_global_header bs limits).
Proof.
  unfold parse_global_header.
  apply no_panic_bind; [apply (codec_no_panic (Codec := codec_gh limits)), new_wf|].
  by intros [].
Qed.

Section witnesses.
#[local] Existing Instance bitwise.

Definition sample_header : GlobalHeader :=
  {| version := 1; flags_bytes := [x00; x00; x00; x00; xaa];
     flags := GlobalFlags.ENCRYPTED; partition_descriptor := None;
     kms := Some {| mode_id := 2; kms_payload := [x01; x02] |} |}.
Definition sample_header_bytes : list byte :=
  [x53; x41; x52; x21; x01; x00; x05; x00; x00; x04; x00; x00; xaa;
   x02; x02; x00; x00; x00; x01; x02].

Lemma global_header_write_parse_witness :
  ∃ bs, write_global_header sample_header = Ok bs
    ∧ (len (bs ++ [xff]) < 2 ^ 64 →
       parse_global_header (bs ++ [xff]) default_limits
       = Ok (with_flag_word sample_header, len bs)).
Proof.
  apply (global_header_write_parse); try done.
Defined.

Lemma global_header_parse_write_witness :
  write_global_header (with_flag_word sample_header)
  = Ok (copy_at (take 20 (sample_header_bytes ++ [xff])) 8
          (le_bytes 4 GlobalFlags.ENCRYPTED)).
Proof.
  apply (global_header_parse_write (sample_header_bytes ++ [xff]) default_limits
           (with_flag_word sample_header) 20).
  by vm_compute.
Defined.

(** Undeclared flag bits (here bit 6) are dropped, not rejected. *)
Example undeclared_flag_bit_accepted :
  parse_global_header
    [x53; x41; x52; x21; x01; x00; x04; x00; x40; x00; x00; x00] default_limits
  = Ok ({| version := 1; flags_bytes := [x40; x00; x00; x00]; flags := 0;
           partition_descriptor := None; kms := None |}, 12).
Proof. by vm_compute. Qed.
End witnesses.

End Format.
