(* ===== verification/Lfh.v ===== *)
(** * Local file headers

    Models the second part of [crates/sar-core/src/format.rs]: the local file
    header (LFH) that precedes each entry's payload.  [compute_lfh_size],
    [parse_lfh] and [write_lfh] follow the source field by field; the additional
    data of the AEAD ([lfh_bytes_for_aad]) cuts the error-correction fields out
    of the encoded header.  The theorems are the round trips, the agreement of
    the computed and the written size, and that the additional data is the
    header less its last length field and its last value. *)

From S2P Require Import Prelude Errors Limits Flags Cursor Format.
Import Cursor Limits Format.

Module Lfh.

(** [struct LfhFragmentDescriptor]. *)
Record LfhFragmentDescriptor := { absolute_offset : Z; fragment_size : Z }.

(** [struct LocalFileHeader]; [timestamps] is a [[u64; 3]]. *)
Record LocalFileHeader := {
  header_size : Z;
  entry_mode : Z;
  stream_id : Z;
  sequence_no : Z;
  uncompressed_size : Z;
  payload_size : Z;
  comp_algo_id : option Z;
  patch_algo_id : option Z;
  encr_algo_id : option Z;
  cdc_algo_id : option Z;
  fec_algo_id : option Z;
  fragment_id : option Z;
  fragment_index : option Z;
  fragment_descriptor : option LfhFragmentDescriptor;
  iv_nonce : option (list byte);
  delta_base_hash : option (list byte);
  file_crc32 : option Z;
  content_hash : option (list byte);
  uid_gid : option Z;
  timestamps : option (Z * Z * Z);
  permissions : option Z;
  name : list byte;
  path : list byte;
  sparse_map : list byte;
  fec_value : list byte;
}.

(** [LocalFileHeader::minimal_store]. *)
Definition minimal_store (nm : list byte) (psize : Z) : LocalFileHeader := {|
  header_size := 0; entry_mode := 0; stream_id := 0; sequence_no := 0;
  uncompressed_size := psize; payload_size := psize;
  comp_algo_id := None; patch_algo_id := None; encr_algo_id := None;
  cdc_algo_id := None; fec_algo_id := None; fragment_id := None;
  fragment_index := None; fragment_descriptor := None; iv_nonce := None;
  delta_base_hash := None; file_crc32 := None; content_hash := None;
  uid_gid := None; timestamps := None; permissions := None;
  name := nm; path := []; sparse_map := []; fec_value := [];
|}.

(** The header with its four variable-length fields set. *)
Definition with_trailing (l : LocalFileHeader) (nm pa sm fv : list byte)
    : LocalFileHeader := {|
  header_size := header_size l; entry_mode := entry_mode l;
  stream_id := stream_id l; sequence_no := sequence_no l;
  uncompressed_size := uncompressed_size l; payload_size := payload_size l;
  comp_algo_id := comp_algo_id l; patch_algo_id := patch_algo_id l;
  encr_algo_id := encr_algo_id l; cdc_algo_id := cdc_algo_id l;
  fec_algo_id := fec_algo_id l; fragment_id := fragment_id l;
  fragment_index := fragment_index l; fragment_descriptor := fragment_descriptor l;
  iv_nonce := iv_nonce l; delta_base_hash := delta_base_hash l;
  file_crc32 := file_crc32 l; content_hash := content_hash l;
  uid_gid := uid_gid l; timestamps := timestamps l; permissions := permissions l;
  name := nm; path := pa; sparse_map := sm; fec_value := fv;
|}.

Section lfh.
Context {B : Bitflags}.
Import GlobalFlags.

(** The arguments of the [add] calls of [compute_lfh_size], in order;
    [when c v] is [if c { add(v)?; }]. *)
Definition when (c : bool) (v : Z) : list Z := if c then [v] else [].
Definition lfh_size_terms (flags : Z) (l : LocalFileHeader) : list Z :=
  let size_len := size_field_len flags in
  [4; 2; 2; 2; size_len; size_len]
  ++ when (contains flags COMPRESSED) 1
  ++ when (contains flags HAS_DELTA) 1
  ++ when (contains flags ENCRYPTED) 1
  ++ when (contains flags CDC_SUPPORT) 1
  ++ when (contains flags SELECTIVE_FEC) 1
  ++ when (contains flags FILE_FRAGMENTATION) (4 + 4 + 12)
  ++ when (contains flags ENCRYPTED) 24
  ++ when (contains flags HAS_DELTA) 32
  ++ when (contains flags PER_FILE_CRC) 4
  ++ when (contains flags DEDUPLICATION) 32
  ++ when (contains flags EXT_UID_GID) 4
  ++ when (contains flags EXT_TIME) 24
  ++ when (contains flags HAS_PERMS) 2
  ++ [2]
  ++ when (contains flags HAS_PATH) 2
  ++ when (contains flags SPARSE_FILES) 4
  ++ when (contains flags SELECTIVE_FEC) 3
  ++ [len (name l)]
  ++ when (contains flags HAS_PATH) (len (path l))
  ++ when (contains flags SPARSE_FILES) (len (sparse_map l))
  ++ when (contains flags SELECTIVE_FEC) (len (fec_value l)).

(** [compute_lfh_size]: each [add] is a checked [u64] addition. *)
Fixpoint add_all (size : Z) (terms : list Z) : result SarError.t Z :=
  match terms with
  | [] => Ok size
  | v :: terms =>
      size ← ok_or (checked_add 64 size v)
               (SarError.Overflow "LFH size computation");
      add_all size terms
  end.
Definition compute_lfh_size (flags : Z) (l : LocalFileHeader)
    : result SarError.t Z :=
  add_all 0 (lfh_size_terms flags l).

(** The fragment descriptor and the three timestamps. *)
Definition parse_fragment_descriptor : parser LfhFragmentDescriptor :=
  off ← read_u64_le;
  sz ← read_u32_le;
  mret {| absolute_offset := off; fragment_size := sz |}.
Definition parse_timestamps : parser (Z * Z * Z) :=
  m ← read_u64_le; a ← read_u64_le; c ← read_u64_le; mret (m, a, c).

(** [if cond { p? } else { 0 }]. *)
Definition or_zero (cond : bool) (p : parser Z) : parser Z :=
  if cond then p else mret 0.
(** [if cond && n > 0 { cursor.read_bytes(n)?.to_vec() } else { Vec::new() }]. *)
Definition read_vec (cond : bool) (n : Z) : parser (list byte) :=
  if cond && (n >? 0) then read_bytes n else mret [].

(** The fields of [parse_lfh] up to the length fields: the header with its
    variable-length fields empty, and the four lengths. *)
Definition parse_lfh_fixed (flags header_size_u32 : Z)
    : parser (LocalFileHeader * (Z * Z * Z * Z)) :=
  declared_header_size ← read_u32_le;
  if negb (declared_header_size =? header_size_u32) then
    fail (SarError.InvalidLength "LFH header size mismatch")
  else
  mode ← read_u16_le;
  _ ← lift (validate_entry_mode_against_global flags mode);
  stream_id ← read_u16_le;
  sequence_no ← read_u16_le;
  uncompressed_size ← read_size flags;
  payload_size ← read_size flags;
  comp_algo_id ← optional (contains flags COMPRESSED) read_u8;
  patch_algo_id ← optional (contains flags HAS_DELTA) read_u8;
  encr_algo_id ← optional (contains flags ENCRYPTED) read_u8;
  cdc_algo_id ← optional (contains flags CDC_SUPPORT) read_u8;
  fec_algo_id ← optional (contains flags SELECTIVE_FEC) read_u8;
  fragment_id ← optional (contains flags FILE_FRAGMENTATION) read_u32_le;
  fragment_index ← optional (contains flags FILE_FRAGMENTATION) read_u32_le;
  fragment_descriptor ←
    optional (contains flags FILE_FRAGMENTATION) parse_fragment_descriptor;
  iv_nonce ← optional (contains flags ENCRYPTED) (read_bytes 24);
  delta_base_hash ← optional (contains flags HAS_DELTA) (read_bytes 32);
  file_crc32 ← optional (contains flags PER_FILE_CRC) read_u32_le;
  content_hash ← optional (contains flags DEDUPLICATION) (read_bytes 32);
  uid_gid ← optional (contains flags EXT_UID_GID) read_u32_le;
  timestamps ← optional (contains flags EXT_TIME) parse_timestamps;
  permissions ← optional (contains flags HAS_PERMS) read_u16_le;
  name_len ← read_u16_le;
  path_len ← or_zero (contains flags HAS_PATH) read_u16_le;
  sparse_len ← or_zero (contains flags SPARSE_FILES) read_u32_le;
  fec_len ← or_zero (contains flags SELECTIVE_FEC) read_u24_le;
  mret ({| header_size := header_size_u32; entry_mode := mode;
           stream_id := stream_id; sequence_no := sequence_no;
           uncompressed_size := uncompressed_size; payload_size := payload_size;
           comp_algo_id := comp_algo_id; patch_algo_id := patch_algo_id;
           encr_algo_id := encr_algo_id; cdc_algo_id := cdc_algo_id;
           fec_algo_id := fec_algo_id; fragment_id := fragment_id;
           fragment_index := fragment_index;
           fragment_descriptor := fragment_descriptor; iv_nonce := iv_nonce;
           delta_base_hash := delta_base_hash; file_crc32 := file_crc32;
           content_hash := content_hash; uid_gid := uid_gid;
           timestamps := timestamps; permissions := permissions;
           name := []; path := []; sparse_map := []; fec_value := [] |},
        (name_len, path_len, sparse_len, fec_len)).

(** The rest of [parse_lfh]: limits, trailing size, variable-length fields and
    the two size checks. *)
Definition parse_lfh_body (flags : Z) (limits : ResourceLimits)
    (header_size_u32 : Z) : parser LocalFileHeader :=
  '(l, (name_len, path_len, sparse_len, fec_len)) ←
    parse_lfh_fixed flags header_size_u32;
  total_path_bytes ← lift (ok_or (checked_add 64 name_len path_len)
                             (SarError.Overflow "LFH path byte count"));
  _ ← lift (check_path_bytes limits total_path_bytes);
  _ ← lift (check_sparse_map_bytes limits sparse_len);
  _ ← lift (check_fec_value_bytes limits fec_len);
  trailing_bytes ← lift (ok_or (s ← checked_add 64 total_path_bytes sparse_len;
                                checked_add 64 s fec_len)
                           (SarError.Overflow "LFH trailing field bytes"));
  p ← tell;
  trailing_end ← lift (ok_or (checked_add 64 p trailing_bytes)
                         (SarError.Overflow "LFH trailing field end"));
  if negb (trailing_end =? header_size_u32) then
    fail (SarError.InvalidLength
            "computed LFH trailing field size does not match Header Size")
  else
  nm ← read_vec true name_len;
  pa ← read_vec (contains flags HAS_PATH) path_len;
  sm ← read_vec (contains flags SPARSE_FILES) sparse_len;
  fv ← read_vec (contains flags SELECTIVE_FEC) fec_len;
  p ← tell;
  if negb (p =? header_size_u32) then
    fail (SarError.InvalidLength "computed LFH size does not match Header Size")
  else
  let lfh := with_trailing l nm pa sm fv in
  computed ← lift (compute_lfh_size flags lfh);
  if negb (computed =? header_size_u32) then
    fail (SarError.InvalidLength "computed LFH size mismatch")
  else mret lfh.

(** [parse_lfh]. *)
Definition parse_lfh (input : list byte) (flags : Z) (limits : ResourceLimits)
    : result SarError.t (LocalFileHeader * Z) :=
  '(header_size_u32, _) ← read_u32_le (new input);
  header_size ← ok_or (try_from 64 header_size_u32)
                  (SarError.Overflow "header size");
  _ ← check_lfh_header_bytes limits header_size;
  if header_size >? len input then
    Err (SarError.Truncated "LFH header exceeds available input")
  else
    hdr ← slice_r input 0 header_size;
    '(lfh, _) ← parse_lfh_body flags limits header_size_u32 (new hdr);
    Ok (lfh, header_size).

(** [if c { ... writer.write_...(...) ... }]. *)
Definition write_if (c : bool) (f : list byte → list byte) (w : list byte)
    : list byte := if c then f w else w.

(** The fixed and length fields of [write_lfh]. *)
Definition write_lfh_fixed (flags hs : Z) (l : LocalFileHeader)
    (name_len path_len sparse_len fec_len : Z) : result SarError.t (list byte) :=
  let w := write_u32_le [] hs in
  let w := write_u16_le w (entry_mode l) in
  let w := write_u16_le w (stream_id l) in
  let w := write_u16_le w (sequence_no l) in
  w ← write_size w flags (uncompressed_size l);
  w ← write_size w flags (payload_size l);
  let w := write_if (contains flags COMPRESSED)
             (λ w, write_u8 w (default 0 (comp_algo_id l))) w in
  let w := write_if (contains flags HAS_DELTA)
             (λ w, write_u8 w (default 0 (patch_algo_id l))) w in
  let w := write_if (contains flags ENCRYPTED)
             (λ w, write_u8 w (default 0 (encr_algo_id l))) w in
  let w := write_if (contains flags CDC_SUPPORT)
             (λ w, write_u8 w (default 0 (cdc_algo_id l))) w in
  let w := write_if (contains flags SELECTIVE_FEC)
             (λ w, write_u8 w (default 0 (fec_algo_id l))) w in
  let w := write_if (contains flags FILE_FRAGMENTATION)
             (λ w,
                let w := write_u32_le w (default 0 (fragment_id l)) in
                let w := write_u32_le w (default 0 (fragment_index l)) in
                let '(abs, sz) :=
                  match fragment_descriptor l with
                  | Some fd => (absolute_offset fd, fragment_size fd)
                  | None => (0, 0)
                  end in
                write_u32_le (write_u64_le w abs) sz) w in
  let w := write_if (contains flags ENCRYPTED)
             (λ w, write_bytes w (default (zeros 24) (iv_nonce l))) w in
  let w := write_if (contains flags HAS_DELTA)
             (λ w, write_bytes w (default (zeros 32) (delta_base_hash l))) w in
  let w := write_if (contains flags PER_FILE_CRC)
             (λ w, write_u32_le w (default 0 (file_crc32 l))) w in
  let w := write_if (contains flags DEDUPLICATION)
             (λ w, write_bytes w (default (zeros 32) (content_hash l))) w in
  let w := write_if (contains flags EXT_UID_GID)
             (λ w, write_u32_le w (default 0 (uid_gid l))) w in
  let w := write_if (contains flags EXT_TIME)
             (λ w,
                let '(m, a, c) := default (0, 0, 0) (timestamps l) in
                write_u64_le (write_u64_le (write_u64_le w m) a) c) w in
  let w := write_if (contains flags HAS_PERMS)
             (λ w, write_u16_le w (default 0 (permissions l))) w in
  let w := write_u16_le w name_len in
  let w := write_if (contains flags HAS_PATH) (λ w, write_u16_le w path_len) w in
  let w := write_if (contains flags SPARSE_FILES)
             (λ w, write_u32_le w sparse_len) w in
  if contains flags SELECTIVE_FEC then write_u24_le w fec_len else Ok w.

(** [write_lfh]. *)
Definition write_lfh (flags : Z) (l : LocalFileHeader)
    : result SarError.t (list byte) :=
  _ ← validate_entry_mode_against_global flags (entry_mode l);
  computed_size ← compute_lfh_size flags l;
  hs ← ok_or (try_from 32 computed_size) (SarError.Overflow "LFH header size");
  name_len ← ok_or (try_from 16 (len (name l))) (SarError.Overflow "name len");
  path_len ← ok_or (try_from 16 (len (path l))) (SarError.Overflow "path len");
  sparse_len ← ok_or (try_from 32 (len (sparse_map l)))
                 (SarError.Overflow "sparse len");
  fec_len ← ok_or (try_from 32 (len (fec_value l))) (SarError.Overflow "fec len");
  w ← write_lfh_fixed flags hs l name_len path_len sparse_len fec_len;
  let w := write_bytes w (name l) in
  let w := write_if (contains flags HAS_PATH) (λ w, write_bytes w (path l)) w in
  let w := write_if (contains flags SPARSE_FILES)
             (λ w, write_bytes w (sparse_map l)) w in
  let w := write_if (contains flags SELECTIVE_FEC)
             (λ w, write_bytes w (fec_value l)) w in
  Ok w.

(** [lfh_to_bytes]. *)
Definition lfh_to_bytes (l : LocalFileHeader) (flags : Z)
    : result SarError.t (list byte) := write_lfh flags l.

(** [fec_size_field_offset]: the [off += ...] sequence. *)
Definition bump (c : bool) (v off : Z) : Z := if c then off + v else off.
Definition fec_size_field_offset (flags : Z) : Z :=
  let size_len := size_field_len flags in
  let off := 4 + 2 + 2 + 2 + size_len + size_len in
  let off := bump (contains flags COMPRESSED) 1 off in
  let off := bump (contains flags HAS_DELTA) 1 off in
  let off := bump (contains flags ENCRYPTED) 1 off in
  let off := bump (contains flags CDC_SUPPORT) 1 off in
  let off := bump (contains flags SELECTIVE_FEC) 1 off in
  let off := bump (contains flags FILE_FRAGMENTATION) (4 + 4 + 12) off in
  let off := bump (contains flags ENCRYPTED) 24 off in
  let off := bump (contains flags HAS_DELTA) 32 off in
  let off := bump (contains flags PER_FILE_CRC) 4 off in
  let off := bump (contains flags DEDUPLICATION) 32 off in
  let off := bump (contains flags EXT_UID_GID) 4 off in
  let off := bump (contains flags EXT_TIME) 24 off in
  let off := bump (contains flags HAS_PERMS) 2 off in
  let off := off + 2 in
  let off := bump (contains flags HAS_PATH) 2 off in
  bump (contains flags SPARSE_FILES) 4 off.

(** [lfh_bytes_for_aad]. *)
Definition lfh_bytes_for_aad (flags : Z) (lfh_bytes : list byte)
    (fec_algo_id fec_value_len : Z) : result SarError.t (list byte) :=
  if negb (contains flags SELECTIVE_FEC) || (fec_algo_id =? 0) then Ok lfh_bytes
  else
    let fec_size_off := fec_size_field_offset flags in
    fec_size_end ← ok_or (checked_add 64 fec_size_off 3)
                     (SarError.Overflow "FEC size field end");
    fec_value_start ← ok_or (checked_sub (len lfh_bytes) fec_value_len)
                        (SarError.InvalidLength
                           "FEC value length exceeds LFH length");
    if (fec_size_end >? fec_value_start) || (fec_value_start >? len lfh_bytes)
    then Err (SarError.InvalidLength "LFH FEC fields exceed available LFH bytes")
    else
      excluded ← ok_or (checked_add 64 3 fec_value_len)
                   (SarError.Overflow "LFH AAD exclusion length");
      _ ← ok_or (checked_sub (len lfh_bytes) excluded)
            (SarError.InvalidLength "LFH AAD exclusion exceeds LFH length");
      before ← slice_r lfh_bytes 0 fec_size_off;
      between ← slice_r lfh_bytes fec_size_end fec_value_start;
      Ok (before ++ between).
End lfh.

(** ** Encodings and well-formed headers *)

#[export] Instance codec_fragment_descriptor :
  Codec parse_fragment_descriptor
    (λ d, le_bytes 8 (absolute_offset d) ++ le_bytes 4 (fragment_size d))
    (λ d, fits 64 (absolute_offset d) ∧ fits 32 (fragment_size d)).
Proof.
  split.
  - intros d [H1 H2]. unfold parse_fragment_descriptor. read_field.
    eapply (reads_step _ _ (le_bytes 4 _) []);
      [by apply codec_reads|by rewrite app_nil_r|].
    destruct d. apply reads_ret.
  - intros c d c' Hc H. unfold parse_fragment_descriptor in H.
    do 2 sound_step H. injection H as <- <-. split; [by chain_advances|done].
  - intros c Hc. unfold parse_fragment_descriptor. by do 2 np_step.
Qed.

#[export] Instance codec_timestamps :
  Codec parse_timestamps
    (λ '(m, a, c), le_bytes 8 m ++ le_bytes 8 a ++ le_bytes 8 c)
    (λ '(m, a, c), fits 64 m ∧ fits 64 a ∧ fits 64 c).
Proof.
  split.
  - intros [[m a] c] (H1 & H2 & H3). unfold parse_timestamps. do 2 read_field.
    eapply (reads_step _ _ (le_bytes 8 c) []);
      [by apply codec_reads|by rewrite app_nil_r|apply reads_ret].
  - intros c d c' Hc H. unfold parse_timestamps in H.
    do 3 sound_step H. injection H as <- <-. split; [by chain_advances|done].
  - intros c Hc. unfold parse_timestamps. by do 3 np_step.
Qed.

(** A length field that is absent, and then zero, when its flag is unset. *)
Definition enc_if (cond : bool) (enc : Z → list byte) (v : Z) : list byte :=
  if cond then enc v else [].
#[export] Instance codec_or_zero cond dec enc wf :
  Codec dec enc wf →
  Codec (or_zero cond dec) (enc_if cond enc)
    (λ v, if cond then wf v else v = 0).
Proof.
  intros C. unfold or_zero, enc_if. destruct cond; [by destruct C|]. split.
  - intros v ->. apply reads_ret.
  - intros c v c' Hc H. injection H as <- <-. split; [by apply advances_refl|done].
  - done.
Qed.

(** A variable-length field. *)
Lemma codec_read_vec cond n :
  0 ≤ n → (cond = false → n = 0) →
  Codec (read_vec cond n) (λ bs, bs) (λ bs, len bs = n).
Proof.
  intros Hn Hcond. unfold read_vec.
  destruct (cond && (n >? 0)) eqn:E; [by apply codec_bytes|].
  assert (n = 0) as -> by (destruct cond; [lia|auto]).
  split.
  - intros bs Hbs. destruct bs; [apply reads_ret|].
    rewrite len_cons in Hbs. pose proof (len_nonneg bs). lia.
  - intros c bs c' Hc H. injection H as <- <-. split; [by apply advances_refl|done].
  - done.
Qed.

Lemma reads_read_vec cond bs :
  (cond = false → len bs = 0) → reads (read_vec cond (len bs)) bs bs.
Proof.
  intros H.
  by apply (codec_reads (Codec := codec_read_vec cond (len bs) (len_nonneg bs) H)).
Qed.

Section encodings.
Context {B : Bitflags}.
Import GlobalFlags.

Definition enc_fixed (flags : Z) (x : LocalFileHeader * (Z * Z * Z * Z))
    : list byte :=
  let '(l, (nl, pl, sl, fl)) := x in
  le_bytes 4 (header_size l) ++ le_bytes 2 (entry_mode l)
  ++ le_bytes 2 (stream_id l) ++ le_bytes 2 (sequence_no l)
  ++ enc_size flags (uncompressed_size l) ++ enc_size flags (payload_size l)
  ++ enc_opt enc_u8 (comp_algo_id l) ++ enc_opt enc_u8 (patch_algo_id l)
  ++ enc_opt enc_u8 (encr_algo_id l) ++ enc_opt enc_u8 (cdc_algo_id l)
  ++ enc_opt enc_u8 (fec_algo_id l)
  ++ enc_opt (le_bytes 4) (fragment_id l) ++ enc_opt (le_bytes 4) (fragment_index l)
  ++ enc_opt (λ d, le_bytes 8 (absolute_offset d) ++ le_bytes 4 (fragment_size d))
       (fragment_descriptor l)
  ++ enc_opt (λ bs, bs) (iv_nonce l) ++ enc_opt (λ bs, bs) (delta_base_hash l)
  ++ enc_opt (le_bytes 4) (file_crc32 l) ++ enc_opt (λ bs, bs) (content_hash l)
  ++ enc_opt (le_bytes 4) (uid_gid l)
  ++ enc_opt (λ '(m, a, c), le_bytes 8 m ++ le_bytes 8 a ++ le_bytes 8 c)
       (timestamps l)
  ++ enc_opt (le_bytes 2) (permissions l)
  ++ le_bytes 2 nl
  ++ enc_if (contains flags HAS_PATH) (le_bytes 2) pl
  ++ enc_if (contains flags SPARSE_FILES) (le_bytes 4) sl
  ++ enc_if (contains flags SELECTIVE_FEC) (le_bytes 3) fl.

(** The optional fields of [l] are the ones [flags] announces, and every value
    fits its field. *)
Definition fields_wf (flags : Z) (l : LocalFileHeader) : Prop :=
  fits 32 (header_size l) ∧ fits 16 (entry_mode l)
  ∧ validate_entry_mode_against_global flags (entry_mode l) = Ok tt
  ∧ fits 16 (stream_id l) ∧ fits 16 (sequence_no l)
  ∧ size_wf flags (uncompressed_size l) ∧ size_wf flags (payload_size l)
  ∧ wf_opt (contains flags COMPRESSED) (fits 8) (comp_algo_id l)
  ∧ wf_opt (contains flags HAS_DELTA) (fits 8) (patch_algo_id l)
  ∧ wf_opt (contains flags ENCRYPTED) (fits 8) (encr_algo_id l)
  ∧ wf_opt (contains flags CDC_SUPPORT) (fits 8) (cdc_algo_id l)
  ∧ wf_opt (contains flags SELECTIVE_FEC) (fits 8) (fec_algo_id l)
  ∧ wf_opt (contains flags FILE_FRAGMENTATION) (fits 32) (fragment_id l)
  ∧ wf_opt (contains flags FILE_FRAGMENTATION) (fits 32) (fragment_index l)
  ∧ wf_opt (contains flags FILE_FRAGMENTATION)
      (λ d, fits 64 (absolute_offset d) ∧ fits 32 (fragment_size d))
      (fragment_descriptor l)
  ∧ wf_opt (contains flags ENCRYPTED) (λ bs, len bs = 24) (iv_nonce l)
  ∧ wf_opt (contains flags HAS_DELTA) (λ bs, len bs = 32) (delta_base_hash l)
  ∧ wf_opt (contains flags PER_FILE_CRC) (fits 32) (file_crc32 l)
  ∧ wf_opt (contains flags DEDUPLICATION) (λ bs, len bs = 32) (content_hash l)
  ∧ wf_opt (contains flags EXT_UID_GID) (fits 32) (uid_gid l)
  ∧ wf_opt (contains flags EXT_TIME)
      (λ '(m, a, c), fits 64 m ∧ fits 64 a ∧ fits 64 c) (timestamps l)
  ∧ wf_opt (contains flags HAS_PERMS) (fits 16) (permissions l).
Definition lens_wf (flags nl pl sl fl : Z) : Prop :=
  fits 16 nl
  ∧ (if contains flags HAS_PATH then fits 16 pl else pl = 0)
  ∧ (if contains flags SPARSE_FILES then fits 32 sl else sl = 0)
  ∧ (if contains flags SELECTIVE_FEC then fits 24 fl else fl = 0).
Definition fixed_wf (flags hs : Z) (x : LocalFileHeader * (Z * Z * Z * Z)) : Prop :=
  let '(l, (nl, pl, sl, fl)) := x in
  header_size l = hs ∧ fields_wf flags l ∧ lens_wf flags nl pl sl fl
  ∧ l = with_trailing l [] [] [] [].

#[local] Instance codec_bytes24 : Codec (read_bytes 24) (λ bs, bs) (λ bs, len bs = 24).
Proof. by apply codec_bytes. Qed.
#[local] Instance codec_bytes32 : Codec (read_bytes 32) (λ bs, bs) (λ bs, len bs = 32).
Proof. by apply codec_bytes. Qed.

#[export] Instance codec_fixed flags hs :
  Codec (parse_lfh_fixed flags hs) (enc_fixed flags) (fixed_wf flags hs).
Proof.
  split.
  - intros [l [[[nl pl] sl] fl]] (Hh & Hf & (Hn & Hp & Hs & Hfl) & Hl).
    unfold fields_wf in Hf. destruct_and! Hf.
    unfold parse_lfh_fixed, enc_fixed. subst hs.
    eapply reads_bind; [by apply codec_reads|]. rewrite Z.eqb_refl. cbn [negb].
    do 24 read_field.
    eapply (reads_step _ _ (enc_if _ (le_bytes 3) fl) []);
      [by apply codec_reads|by rewrite app_nil_r|].
    rewrite Hl. cbn. apply reads_ret.
  - intros c r c' Hc H. unfold parse_lfh_fixed in H.
    sound_step H. sound_guard H. do 25 sound_step H. injection H as <- <-.
    apply negb_false_iff, Z.eqb_eq in Hif. destruct x. subst.
    unfold enc_fixed, fixed_wf, fields_wf, lens_wf.
    cbn [header_size entry_mode stream_id sequence_no uncompressed_size
      payload_size comp_algo_id patch_algo_id encr_algo_id cdc_algo_id
      fec_algo_id fragment_id fragment_index fragment_descriptor iv_nonce
      delta_base_hash file_crc32 content_hash uid_gid timestamps permissions].
    split; [by chain_advances|]. by split_and!.
  - intros c Hc. unfold parse_lfh_fixed. np_step. dif as E; [done|].
    do 25 np_step. done.
Qed.

(** ** Sizes *)
Definition sum (l : list Z) : Z := foldr Z.add 0 l.
Definition lfh_len (flags : Z) (l : LocalFileHeader) : Z :=
  sum (lfh_size_terms flags l).

Lemma sum_app k l : sum (k ++ l) = sum k + sum l.
Proof. induction k as [|x k IH]; cbn; [done|]. unfold sum in *. lia. Qed.
Lemma sum_nonneg l : Forall (Z.le 0) l → 0 ≤ sum l.
Proof. induction 1; cbn; unfold sum in *; lia. Qed.
Lemma add_all_Ok size terms r :
  0 ≤ size < 2 ^ 64 → Forall (Z.le 0) terms →
  (add_all size terms = Ok r ↔ r = size + sum terms ∧ r < 2 ^ 64).
Proof.
  intros Hs H. revert size Hs.
  induction H as [|v terms Hv Ht IH]; intros size Hs; cbn.
  - rewrite Z.add_0_r. split; [intros [= ->]; lia|intros [-> _]; done].
  - pose proof (sum_nonneg _ Ht) as Hsum. unfold sum in *. rewrite bind_Ok.
    setoid_rewrite ok_or_Ok. setoid_rewrite checked_add_Some. split.
    + intros (s & [-> ?] & Ha). apply IH in Ha; lia.
    + intros [-> ?]. eexists. split; [split; [done|lia]|]. apply IH; lia.
Qed.
Lemma lfh_size_terms_nonneg flags l : Forall (Z.le 0) (lfh_size_terms flags l).
Proof.
  assert (Hw : ∀ c v, 0 ≤ v → Forall (Z.le 0) (when c v))
    by (intros [] ? ?; repeat constructor; done).
  unfold lfh_size_terms. pose proof (len_nonneg (name l)).
  pose proof (len_nonneg (path l)). pose proof (len_nonneg (sparse_map l)).
  pose proof (len_nonneg (fec_value l)).
  assert (0 ≤ size_field_len flags) by (unfold size_field_len; case_match; lia).
  rewrite !Forall_app. split_and!; repeat constructor; try (apply Hw); done || lia.
Qed.
(** [compute_lfh_size] is the exact sum, or an overflow error. *)
Lemma compute_lfh_size_Ok flags l r :
  compute_lfh_size flags l = Ok r ↔ r = lfh_len flags l ∧ r < 2 ^ 64.
Proof.
  unfold compute_lfh_size. rewrite add_all_Ok; [done|lia|].
  apply lfh_size_terms_nonneg.
Qed.
Lemma compute_lfh_size_no_panic flags l : no_panic (compute_lfh_size flags l).
Proof.
  unfold compute_lfh_size. generalize 0. generalize (lfh_size_terms flags l).
  intros ts. induction ts as [|t ts IH]; intros size; [done|].
  cbn. apply no_panic_bind; [apply no_panic_ok_or|auto].
Qed.

(** ** The encoded header *)
Definition lens (l : LocalFileHeader) : Z * Z * Z * Z :=
  (len (name l), len (path l), len (sparse_map l), len (fec_value l)).
Definition enc_lfh (flags : Z) (l : LocalFileHeader) : list byte :=
  enc_fixed flags (l, lens l) ++ name l ++ path l ++ sparse_map l ++ fec_value l.
Definition lfh_wf (flags : Z) (limits : ResourceLimits) (l : LocalFileHeader) : Prop :=
  fields_wf flags l
  ∧ lens_wf flags (len (name l)) (len (path l)) (len (sparse_map l))
      (len (fec_value l))
  ∧ header_size l = lfh_len flags l
  ∧ len (name l) + len (path l) ≤ max_path_bytes limits
  ∧ len (sparse_map l) ≤ max_sparse_map_bytes limits
  ∧ len (fec_value l) ≤ max_fec_value_bytes limits.

Lemma sum_when c v : sum (when c v) = if c then v else 0.
Proof. destruct c; cbn; lia. Qed.
Lemma len_enc_opt {A} (enc : A → list byte) (wf : A → Prop) cond k o :
  wf_opt cond wf o → (∀ a, wf a → len (enc a) = k) →
  len (enc_opt enc o) = if cond then k else 0.
Proof. destruct o; cbn; [intros [-> ?]; auto|by intros ->]. Qed.
Lemma len_enc_if cond enc v k :
  len (enc v) = k → len (enc_if cond enc v) = if cond then k else 0.
Proof. by destruct cond. Qed.
Lemma lens_wf_off flags nl pl sl fl :
  lens_wf flags nl pl sl fl →
  pl = (if contains flags HAS_PATH then pl else 0)
  ∧ sl = (if contains flags SPARSE_FILES then sl else 0)
  ∧ fl = (if contains flags SELECTIVE_FEC then fl else 0).
Proof. 
  intros (_ & Hp & Hs & Hf).
  by destruct (contains flags HAS_PATH), (contains flags SPARSE_FILES),
    (contains flags SELECTIVE_FEC).
Qed.
Lemma if_b2z (c : bool) k : (if c then k else 0) = k * Z.b2z c.
Proof. destruct c; cbn; lia. Qed.
Lemma bump_add c v off : bump c v off = off + if c then v else 0.
Proof. destruct c; cbn; lia. Qed.

(** The offset of the last length field, as the sum of what precedes it. *)
Definition fixed_len (flags : Z) : Z :=
  fec_size_field_offset flags + if contains flags SELECTIVE_FEC then 3 else 0.

Lemma len_enc_fixed flags l nl pl sl fl :
  fields_wf flags l → len (enc_fixed flags (l, (nl, pl, sl, fl))) = fixed_len flags.
Proof.
  intros Hf. unfold fields_wf in Hf. destruct_and! Hf.
  unfold enc_fixed, fixed_len, fec_size_field_offset.
  rewrite !bump_add, !len_app.
  rewrite !len_le_bytes, !len_enc_size.
  repeat match goal with
  | H : wf_opt ?c _ ?o |- context [len (enc_opt ?e ?o)] =>
      erewrite (len_enc_opt e _ c _ o H)
        by (intros; cbn; repeat case_match; rewrite ?len_app, ?len_le_bytes, ?len_enc_u8;
            first [eassumption | reflexivity])
  end.
  repeat match goal with
  | |- context [len (enc_if ?c ?e ?v)] =>
      erewrite (len_enc_if c e v) by apply len_le_bytes
  end.
  rewrite !if_b2z. lia.
Qed.

Lemma lfh_len_split flags l :
  lfh_len flags l
  = fixed_len flags + len (name l)
    + (if contains flags HAS_PATH then len (path l) else 0)
    + (if contains flags SPARSE_FILES then len (sparse_map l) else 0)
    + (if contains flags SELECTIVE_FEC then len (fec_value l) else 0).
Proof.
  unfold lfh_len, lfh_size_terms, fixed_len, fec_size_field_offset.
  rewrite !bump_add, !sum_app, !sum_when. cbn [sum foldr]. lia.
Qed.
Lemma len_enc_lfh flags l :
  fields_wf flags l →
  lens_wf flags (len (name l)) (len (path l)) (len (sparse_map l))
    (len (fec_value l)) →
  len (enc_lfh flags l) = lfh_len flags l.
Proof.
  intros Hf Hl. unfold enc_lfh, lens.
  rewrite lfh_len_split, !len_app, len_enc_fixed by done.
  apply lens_wf_off in Hl as (<- & <- & <-). lia.
Qed.

(** ** Parsing an encoded header *)
Lemma with_trailing_id l :
  with_trailing (with_trailing l [] [] [] []) (name l) (path l) (sparse_map l)
    (fec_value l) = l.
Proof. by destruct l. Qed.
Lemma lens_wf_range flags nl pl sl fl :
  lens_wf flags nl pl sl fl →
  0 ≤ nl < 2 ^ 16 ∧ 0 ≤ pl < 2 ^ 16 ∧ 0 ≤ sl < 2 ^ 32 ∧ 0 ≤ fl < 2 ^ 24
  ∧ (contains flags HAS_PATH = false → pl = 0)
  ∧ (contains flags SPARSE_FILES = false → sl = 0)
  ∧ (contains flags SELECTIVE_FEC = false → fl = 0).
Proof.
  intros (Hn & Hp & Hs & Hf). unfold fits in *.
  destruct (contains flags HAS_PATH), (contains flags SPARSE_FILES),
    (contains flags SELECTIVE_FEC); split_and!; (done || lia).
Qed.

Lemma parse_lfh_body_run flags limits l :
  lfh_wf flags limits l →
  parse_lfh_body flags limits (header_size l) (new (enc_lfh flags l))
  = Ok (l, {| input := enc_lfh flags l; pos := header_size l |}).
Proof.
  intros (Hf & Hl & Hh & Hp & Hs & Hv).
  pose proof (len_enc_lfh flags l Hf Hl) as Hlen.
  pose proof Hf as ([_ Hh32] & _).
  pose proof (lens_wf_range _ _ _ _ _ Hl) as (Rn & Rp & Rs & Rf & Zp & Zs & Zf).
  unfold parse_lfh_body, new.
  set (l0 := with_trailing l [] [] [] []).
  assert (Hin : enc_lfh flags l
    = [] ++ enc_fixed flags (l0, lens l)
      ++ (name l ++ path l ++ sparse_map l ++ fec_value l)) by done.
  assert (Hb : len ([] ++ enc_fixed flags (l0, lens l)
      ++ (name l ++ path l ++ sparse_map l ++ fec_value l)) < 2 ^ 64)
    by (rewrite <- Hin, Hlen; lia).
  assert (Hfl : len (enc_fixed flags (l0, lens l)) + len (name l) + len (path l)
    + len (sparse_map l) + len (fec_value l) = header_size l)
    by (rewrite Hh, <- Hlen, Hin, !len_app, len_nil; lia).
  rewrite Hin. change 0 with (len (@nil byte)).
  erewrite bind_reads; [|apply (codec_reads (Codec := codec_fixed flags (header_size l)))
    |exact Hb]; [|done].
  unfold lens at 1. cbn [app].
  erewrite bind_lift by (rewrite checked_add_fits by lia; reflexivity).
  erewrite bind_lift by by apply check_path_bytes_ok.
  erewrite bind_lift by by apply check_sparse_map_bytes_ok.
  erewrite bind_lift by by apply check_fec_value_bytes_ok.
  erewrite bind_lift by (rewrite checked_add_fits by lia; cbn;
    rewrite checked_add_fits by lia; reflexivity).
  rewrite bind_tell. cbn [pos].
  erewrite bind_lift by (rewrite checked_add_fits by lia; reflexivity).
  rewrite (proj2 (Z.eqb_eq _ _)) by lia. cbn [negb]. cbn [app] in Hb.
  rewrite <- (app_nil_r (fec_value l)) in Hb |- * at 1.
  do 4 (erewrite bind_reads; [|by apply reads_read_vec|by rewrite !app_assoc in *]).
  rewrite bind_tell. cbn [pos].
  rewrite (proj2 (Z.eqb_eq _ _)) by (rewrite !len_app; lia). cbn [negb].
  erewrite bind_lift by (apply compute_lfh_size_Ok; unfold l0;
    rewrite with_trailing_id; split; [done|lia]).
  rewrite Hlen, <- Hh, Z.eqb_refl. cbn [negb]. unfold mret, parser_ret, l0.
  rewrite with_trailing_id, !len_app, <- !app_assoc, app_nil_r.
  do 3 f_equal. unfold l0 in Hfl. lia.
Qed.

Lemma parse_lfh_body_inv flags limits hs hdr l c :
  len hdr = hs → parse_lfh_body flags limits hs (new hdr) = Ok (l, c) →
  hdr = enc_lfh flags l ∧ lfh_wf flags limits l ∧ header_size l = hs.
Proof.
  intros Hlen H. unfold parse_lfh_body in H. pose proof (new_wf hdr) as Hc.
  sound_step H. destruct v as [l0 [[[nl pl] sl] fl]].
  destruct Hw as (Hh & Hf & Hl & Hl0).
  pose proof (lens_wf_range _ _ _ _ _ Hl) as (Rn & Rp & Rs & Rf & Zp & Zs & Zf).
  do 5 sound_step H. apply parser_bind_Ok in H as (p & c1 & Ht & H).
  injection Ht as <- <-. sound_step H. sound_guard H.
  apply parser_bind_Ok in H as (nm & c1 & Hn & H).
  apply (codec_sound (Codec := codec_read_vec true nl ltac:(lia) ltac:(done)))
    in Hn as [An Ln]; [|done]. pose proof (advances_wf _ _ _ Hc0 An).
  apply parser_bind_Ok in H as (pa & c2 & Hp & H).
  apply (codec_sound (Codec := codec_read_vec _ pl ltac:(lia) Zp))
    in Hp as [Ap Lp]; [|done]. pose proof (advances_wf _ _ _ H0 Ap).
  apply parser_bind_Ok in H as (sm & c3 & Hs & H).
  apply (codec_sound (Codec := codec_read_vec _ sl ltac:(lia) Zs))
    in Hs as [As Ls]; [|done]. pose proof (advances_wf _ _ _ H1 As).
  apply parser_bind_Ok in H as (fv & c4 & Hv & H).
  apply (codec_sound (Codec := codec_read_vec _ fl ltac:(lia) Zf))
    in Hv as [Av Lv]; [|done].
  apply parser_bind_Ok in H as (p & c5 & Ht & H). injection Ht as <- <-.
  sound_guard H. sound_step H. sound_guard H. injection H as <- <-.
  assert (Hall : advances (new hdr)
    (enc_fixed flags (l0, (nl, pl, sl, fl)) ++ nm ++ pa ++ sm ++ fv) c4)
    by by chain_advances.
  apply negb_false_iff, Z.eqb_eq in Hif0, Hif1. unfold position in Hif0.
  destruct Hall as (_ & _ & Hsl & _). cbn [new input pos] in Hsl.
  rewrite Hif0, <- Hlen, slice_full in Hsl. apply compute_lfh_size_Ok in Hd5.
  apply ok_or_Ok, checked_add_Some in Hd as [-> _]. destruct x0, x1, x2.
  rewrite check_path_bytes_ok, check_sparse_map_bytes_ok, check_fec_value_bytes_ok in *.
  subst nl pl sl fl. unfold lfh_wf. cbn [name path sparse_map fec_value with_trailing].
  split_and!; try (done || lia). cbn. rewrite Hh, <- Hif1. apply Hd5.
Qed.

(** ** Writing *)

(** The header a reader gets back: [flags] decides which optional fields exist,
    and missing values are written as zeros. *)
Definition norm_opt {A} (c : bool) (d : A) (o : option A) : option A :=
  if c then Some (default d o) else None.
Definition norm_vec (c : bool) (bs : list byte) : list byte := if c then bs else [].
Definition normalize (flags : Z) (l : LocalFileHeader) : LocalFileHeader := {|
  header_size := lfh_len flags l; entry_mode := entry_mode l;
  stream_id := stream_id l; sequence_no := sequence_no l;
  uncompressed_size := uncompressed_size l; payload_size := payload_size l;
  comp_algo_id := norm_opt (contains flags COMPRESSED) 0 (comp_algo_id l);
  patch_algo_id := norm_opt (contains flags HAS_DELTA) 0 (patch_algo_id l);
  encr_algo_id := norm_opt (contains flags ENCRYPTED) 0 (encr_algo_id l);
  cdc_algo_id := norm_opt (contains flags CDC_SUPPORT) 0 (cdc_algo_id l);
  fec_algo_id := norm_opt (contains flags SELECTIVE_FEC) 0 (fec_algo_id l);
  fragment_id := norm_opt (contains flags FILE_FRAGMENTATION) 0 (fragment_id l);
  fragment_index :=
    norm_opt (contains flags FILE_FRAGMENTATION) 0 (fragment_index l);
  fragment_descriptor :=
    norm_opt (contains flags FILE_FRAGMENTATION)
      {| absolute_offset := 0; fragment_size := 0 |} (fragment_descriptor l);
  iv_nonce := norm_opt (contains flags ENCRYPTED) (zeros 24) (iv_nonce l);
  delta_base_hash :=
    norm_opt (contains flags HAS_DELTA) (zeros 32) (delta_base_hash l);
  file_crc32 := norm_opt (contains flags PER_FILE_CRC) 0 (file_crc32 l);
  content_hash :=
    norm_opt (contains flags DEDUPLICATION) (zeros 32) (content_hash l);
  uid_gid := norm_opt (contains flags EXT_UID_GID) 0 (uid_gid l);
  timestamps := norm_opt (contains flags EXT_TIME) (0, 0, 0) (timestamps l);
  permissions := norm_opt (contains flags HAS_PERMS) 0 (permissions l);
  name := name l; path := norm_vec (contains flags HAS_PATH) (path l);
  sparse_map := norm_vec (contains flags SPARSE_FILES) (sparse_map l);
  fec_value := norm_vec (contains flags SELECTIVE_FEC) (fec_value l);
|}.

Lemma write_if_enc {A} c (f : list byte → list byte) (enc : A → list byte) d o w :
  (∀ w, f w = w ++ enc (default d o)) →
  write_if c f w = w ++ enc_opt enc (norm_opt c d o).
Proof. intros H. destruct c; cbn; [by rewrite H|by rewrite app_nil_r]. Qed.
Lemma write_if_vec c bs w :
  write_if c (λ w, write_bytes w bs) w = w ++ norm_vec c bs.
Proof. destruct c; cbn; [done|by rewrite app_nil_r]. Qed.
Lemma write_if_u8 c o w :
  write_if c (λ w, write_u8 w (default 0 o)) w = w ++ enc_opt enc_u8 (norm_opt c 0 o).
Proof. by apply write_if_enc. Qed.
Lemma write_if_u16 c o w :
  write_if c (λ w, write_u16_le w (default 0 o)) w
  = w ++ enc_opt (le_bytes 2) (norm_opt c 0 o).
Proof. by apply write_if_enc. Qed.
Lemma write_if_u32 c o w :
  write_if c (λ w, write_u32_le w (default 0 o)) w
  = w ++ enc_opt (le_bytes 4) (norm_opt c 0 o).
Proof. by apply write_if_enc. Qed.
Lemma write_if_bytes c d o w :
  write_if c (λ w, write_bytes w (default d o)) w
  = w ++ enc_opt (λ bs, bs) (norm_opt c d o).
Proof. by apply (write_if_enc _ _ (λ bs, bs)). Qed.
Lemma write_if_len16 c v w :
  write_if c (λ w, write_u16_le w v) w = w ++ enc_if c (le_bytes 2) v.
Proof. destruct c; cbn; [done|by rewrite app_nil_r]. Qed.
Lemma write_if_len32 c v w :
  write_if c (λ w, write_u32_le w v) w = w ++ enc_if c (le_bytes 4) v.
Proof. destruct c; cbn; [done|by rewrite app_nil_r]. Qed.

(** Every field of [l] is a value of its Rust type. *)
Definition lfh_typed (l : LocalFileHeader) : Prop :=
  fits 16 (entry_mode l) ∧ fits 16 (stream_id l) ∧ fits 16 (sequence_no l)
  ∧ fits 64 (uncompressed_size l) ∧ fits 64 (payload_size l)
  ∧ fits 8 (default 0 (comp_algo_id l)) ∧ fits 8 (default 0 (patch_algo_id l))
  ∧ fits 8 (default 0 (encr_algo_id l)) ∧ fits 8 (default 0 (cdc_algo_id l))
  ∧ fits 8 (default 0 (fec_algo_id l)) ∧ fits 32 (default 0 (fragment_id l))
  ∧ fits 32 (default 0 (fragment_index l))
  ∧ from_option (λ d, fits 64 (absolute_offset d) ∧ fits 32 (fragment_size d))
      True (fragment_descriptor l)
  ∧ from_option (λ bs, len bs = 24) True (iv_nonce l)
  ∧ from_option (λ bs, len bs = 32) True (delta_base_hash l)
  ∧ fits 32 (default 0 (file_crc32 l))
  ∧ from_option (λ bs, len bs = 32) True (content_hash l)
  ∧ fits 32 (default 0 (uid_gid l))
  ∧ from_option (λ '(m, a, c), fits 64 m ∧ fits 64 a ∧ fits 64 c) True (timestamps l)
  ∧ fits 16 (default 0 (permissions l)).
(** What the writer checks. *)
Definition writable (flags : Z) (l : LocalFileHeader) : Prop :=
  validate_entry_mode_against_global flags (entry_mode l) = Ok tt
  ∧ size_wf flags (uncompressed_size l) ∧ size_wf flags (payload_size l)
  ∧ len (name l) < 2 ^ 16 ∧ len (path l) < 2 ^ 16 ∧ len (sparse_map l) < 2 ^ 32
  ∧ len (fec_value l) < 2 ^ 32
  ∧ (contains flags SELECTIVE_FEC = true → len (fec_value l) < 2 ^ 24)
  ∧ lfh_len flags l < 2 ^ 32.

Lemma write_fragment_enc c l w :
  write_if c
    (λ w,
       let w := write_u32_le w (default 0 (fragment_id l)) in
       let w := write_u32_le w (default 0 (fragment_index l)) in
       let '(abs, sz) :=
         match fragment_descriptor l with
         | Some fd => (absolute_offset fd, fragment_size fd)
         | None => (0, 0)
         end in
       write_u32_le (write_u64_le w abs) sz) w
  = w ++ enc_opt (le_bytes 4) (norm_opt c 0 (fragment_id l))
      ++ enc_opt (le_bytes 4) (norm_opt c 0 (fragment_index l))
      ++ enc_opt (λ d, le_bytes 8 (absolute_offset d) ++ le_bytes 4 (fragment_size d))
           (norm_opt c {| absolute_offset := 0; fragment_size := 0 |}
              (fragment_descriptor l)).
Proof.
  destruct c; unfold write_if, norm_opt, enc_opt; [|by rewrite app_nil_r].
  unfold write_u32_le, write_u64_le.
  destruct (fragment_descriptor l); by rewrite <- !app_assoc.
Qed.
Lemma write_timestamps_enc c l w :
  write_if c
    (λ w, let '(m, a, c) := default (0, 0, 0) (timestamps l) in
          write_u64_le (write_u64_le (write_u64_le w m) a) c) w
  = w ++ enc_opt (λ '(m, a, c), le_bytes 8 m ++ le_bytes 8 a ++ le_bytes 8 c)
           (norm_opt c (0, 0, 0) (timestamps l)).
Proof.
  apply (write_if_enc _ _ (λ '(m, a, c), le_bytes 8 m ++ le_bytes 8 a ++ le_bytes 8 c)).
  intros w'. destruct (default (0, 0, 0) (timestamps l)) as [[m a] t].
  unfold write_u64_le. by rewrite <- !app_assoc.
Qed.

Lemma write_size_wf w flags v :
  fits 64 v → size_wf flags v → write_size w flags v = Ok (w ++ enc_size flags v).
Proof. intros. by apply write_size_Ok. Qed.

Lemma write_lfh_fixed_enc flags l nl pl sl fl :
  fits 64 (uncompressed_size l) → fits 64 (payload_size l) →
  size_wf flags (uncompressed_size l) → size_wf flags (payload_size l) →
  (contains flags SELECTIVE_FEC = true → fl < 2 ^ 24) →
  write_lfh_fixed flags (lfh_len flags l) l nl pl sl fl
  = Ok (enc_fixed flags (normalize flags l, (nl, pl, sl, fl))).
Proof.
  intros H1 H2 H3 H4 Hfl. unfold write_lfh_fixed.
  rewrite write_size_wf by done. cbn [mbind result_bind].
  rewrite write_size_wf by done. cbn [mbind result_bind]. cbv zeta.
  rewrite write_fragment_enc, write_timestamps_enc.
  rewrite !write_if_u8, !write_if_u32, !write_if_bytes, write_if_u16.
  rewrite write_if_len16, write_if_len32.
  unfold enc_fixed, normalize, write_u24_le, enc_if at 3.
  cbn [header_size entry_mode stream_id sequence_no uncompressed_size
      payload_size comp_algo_id patch_algo_id encr_algo_id cdc_algo_id
      fec_algo_id fragment_id fragment_index fragment_descriptor iv_nonce
      delta_base_hash file_crc32 content_hash uid_gid timestamps permissions].
  unfold write_u32_le, write_u16_le.
  destruct (contains flags SELECTIVE_FEC).
  - dif as E; [specialize (Hfl eq_refl); lia|].
    rewrite take_le_bytes by lia. by rewrite <- !app_assoc.
  - by rewrite <- !app_assoc, app_nil_r.
Qed.

(** The writer succeeds exactly on the headers it can represent, and then
    writes the encoding of the normalized header. *)
Lemma write_lfh_fixed_inv flags hs l nl pl sl fl w :
  fits 64 (uncompressed_size l) → fits 64 (payload_size l) →
  write_lfh_fixed flags hs l nl pl sl fl = Ok w →
  size_wf flags (uncompressed_size l) ∧ size_wf flags (payload_size l)
  ∧ (contains flags SELECTIVE_FEC = true → fl < 2 ^ 24).
Proof.
  intros H1 H2 H. unfold write_lfh_fixed in H.
  apply bind_Ok in H as (w1 & Hw1 & H). apply write_size_Ok in Hw1 as [? _]; [|done].
  apply bind_Ok in H as (w2 & Hw2 & H). apply write_size_Ok in Hw2 as [? _]; [|done].
  split_and!; [done..|]. intros Hc. rewrite Hc in H. unfold write_u24_le in H.
  apply guard_Ok in H as [H _]. lia.
Qed.
Lemma enc_lfh_normalize flags l :
  enc_lfh flags (normalize flags l)
  = enc_fixed flags (normalize flags l, lens l)
    ++ name l ++ norm_vec (contains flags HAS_PATH) (path l)
    ++ norm_vec (contains flags SPARSE_FILES) (sparse_map l)
    ++ norm_vec (contains flags SELECTIVE_FEC) (fec_value l).
Proof.
  unfold enc_lfh, lens. cbn [normalize name path sparse_map fec_value]. f_equal.
  unfold enc_fixed, enc_if, norm_vec.
  by destruct (contains flags HAS_PATH), (contains flags SPARSE_FILES),
    (contains flags SELECTIVE_FEC).
Qed.
Lemma write_lfh_Ok flags l bs :
  fits 64 (uncompressed_size l) → fits 64 (payload_size l) →
  (write_lfh flags l = Ok bs ↔
     writable flags l ∧ bs = enc_lfh flags (normalize flags l)).
Proof.
  intros H1 H2. split.
  - intros H. unfold write_lfh in H.
    apply bind_Ok in H as ([] & Hval & H). apply bind_Ok in H as (sz & Hsz & H).
    apply compute_lfh_size_Ok in Hsz as [-> Hsz].
    do 5 (let Hb := fresh "Hb" in
          apply bind_Ok in H as (? & (-> & Hb)%ok_or_Ok%try_from_Some & H)).
    apply bind_Ok in H as (w & Hw & H).
    pose proof (write_lfh_fixed_inv _ _ _ _ _ _ _ _ H1 H2 Hw) as (? & ? & ?).
    rewrite write_lfh_fixed_enc in Hw by done. apply Ok_inj in Hw as <-.
    apply Ok_inj in H as <-. rewrite !write_if_vec. unfold writable.
    split; [by split_and!|]. unfold write_bytes.
    by rewrite enc_lfh_normalize, <- !app_assoc.
  - intros [(Hv & Hs1 & Hs2 & Hn & Hp & Hsm & Hf & Hf24 & Hlen) ->].
    unfold write_lfh. rewrite Hv. cbn [mbind result_bind].
    rewrite (proj2 (compute_lfh_size_Ok flags l _)) by (split; [reflexivity|lia]).
    cbn [mbind result_bind]. rewrite !try_from_fits by done.
    cbn [ok_or mbind result_bind]. rewrite write_lfh_fixed_enc by done.
    cbn [mbind result_bind]. rewrite !write_if_vec.
    unfold write_bytes. by rewrite enc_lfh_normalize, <- !app_assoc.
Qed.

Lemma norm_opt_wf {A} c (d : A) (P : A → Prop) o :
  P (default d o) → wf_opt c P (norm_opt c d o).
Proof. by destruct c. Qed.
Lemma from_option_default {A} (d : A) (P : A → Prop) o :
  P d → from_option P True o → P (default d o).
Proof. by destruct o. Qed.
Lemma lfh_len_normalize flags l : lfh_len flags (normalize flags l) = lfh_len flags l.
Proof.
  rewrite !lfh_len_split. cbn [normalize name path sparse_map fec_value].
  unfold norm_vec. repeat case_match; lia.
Qed.
Lemma norm_opt_id {A} c (P : A → Prop) d o : wf_opt c P o → norm_opt c d o = o.
Proof. destruct o, c; cbn; naive_solver. Qed.
Lemma norm_vec_id (c : bool) bs : (c = false → len bs = 0) → norm_vec c bs = bs.
Proof.
  intros H. destruct c; [done|]. specialize (H eq_refl). destruct bs; [done|].
  rewrite len_cons in H. pose proof (len_nonneg bs). lia.
Qed.
(** A parsed header is in normal form. *)
Lemma fields_wf_normal flags l :
  fields_wf flags l →
  lens_wf flags (len (name l)) (len (path l)) (len (sparse_map l))
    (len (fec_value l)) →
  header_size l = lfh_len flags l → normalize flags l = l.
Proof.
  intros Hf Hl Hh. apply lens_wf_range in Hl as (_ & _ & _ & _ & Zp & Zs & Zf).
  unfold fields_wf in Hf. destruct_and! Hf. unfold normalize.
  rewrite <- Hh, !norm_vec_id by done. erewrite !norm_opt_id by done.
  by destruct l.
Qed.
Lemma normalize_wf flags l :
  lfh_typed l → writable flags l →
  fields_wf flags (normalize flags l)
  ∧ lens_wf flags (len (name (normalize flags l))) (len (path (normalize flags l)))
      (len (sparse_map (normalize flags l))) (len (fec_value (normalize flags l))).
Proof.
  intros Ht (Hv & Hs1 & Hs2 & Hn & Hp & Hsm & Hf & Hf24 & Hlen).
  unfold lfh_typed in Ht. destruct_and! Ht.
  pose proof (sum_nonneg _ (lfh_size_terms_nonneg flags l)).
  split.
  - unfold fields_wf, normalize.
    cbn [header_size entry_mode stream_id sequence_no uncompressed_size
      payload_size comp_algo_id patch_algo_id encr_algo_id cdc_algo_id
      fec_algo_id fragment_id fragment_index fragment_descriptor iv_nonce
      delta_base_hash file_crc32 content_hash uid_gid timestamps permissions].
    split_and!; try done;
      apply norm_opt_wf; first [done|by apply from_option_default].
  - unfold lens_wf, norm_vec, fits. cbn [normalize name path sparse_map fec_value].
    unfold norm_vec.
    pose proof (len_nonneg (name l)). pose proof (len_nonneg (path l)).
    pose proof (len_nonneg (sparse_map l)). pose proof (len_nonneg (fec_value l)).
    split_and!; try lia; case_match; auto using len_nil; lia.
Qed.
End encodings.

(** ** Round trips *)
Section theorems.
Context {B : Bitflags}.
Import GlobalFlags.

Lemma parse_lfh_enc flags limits l rest :
  lfh_wf flags limits l → header_size l ≤ max_lfh_header_bytes limits →
  len (enc_lfh flags l ++ rest) < 2 ^ 64 →
  parse_lfh (enc_lfh flags l ++ rest) flags limits = Ok (l, header_size l).
Proof.
  intros Hwf Hmax Hlen. pose proof Hwf as (Hf & Hl & Hh & _).
  pose proof (len_enc_lfh flags l Hf Hl) as Hll. pose proof Hf as (Hh32 & _).
  assert (Hs : slice_r (E:=SarError.t) (enc_lfh flags l ++ rest) 0 (header_size l)
               = Ok (enc_lfh flags l)).
  { apply slice_r_Ok. pose proof (len_nonneg rest). unfold fits in Hh32.
    rewrite len_app. split_and!; [|lia..]. rewrite Hh, <- Hll. symmetry.
    unfold slice. rewrite Z.sub_0_r. apply take_len_app. }
  assert (Hr : ∃ c, read_u32_le (new (enc_lfh flags l ++ rest))
                    = Ok (header_size l, c)).
  { set (t := drop 4 (enc_lfh flags l) ++ rest).
    assert (Heq : enc_lfh flags l ++ rest = le_bytes 4 (header_size l) ++ t) by done.
    rewrite Heq in Hlen |- *. eexists. by apply (codec_run_prefix _ _ _ _ _ codec_u32). }
  destruct Hr as [c Hr]. unfold parse_lfh. rewrite Hr. cbn [mbind result_bind].
  unfold fits in Hh32. rewrite try_from_fits by lia. cbn [ok_or mbind result_bind].
  rewrite (proj2 (check_lfh_header_bytes_ok _ _)) by done. cbn [mbind result_bind].
  rewrite (proj2 (guard_Ok _ _ _ (l, header_size l))); [done|].
  split; [rewrite len_app; pose proof (len_nonneg rest); lia|].
  rewrite Hs. cbn [mbind result_bind]. by rewrite parse_lfh_body_run.
Qed.

Lemma parse_lfh_inv input flags limits l n :
  parse_lfh input flags limits = Ok (l, n) →
  lfh_wf flags limits l ∧ header_size l = n
  ∧ header_size l ≤ max_lfh_header_bytes limits
  ∧ take (Z.to_nat n) input = enc_lfh flags l.
Proof.
  intros H. unfold parse_lfh in H. apply bind_Ok in H as ([hs c] & Hr & H).
  apply bind_Ok in H as (n' & (-> & _)%ok_or_Ok%try_from_Some & H).
  apply bind_Ok in H as ([] & Hmax%check_lfh_header_bytes_ok & H).
  apply guard_Ok in H as [Hle H].
  apply bind_Ok in H as (hdr & (-> & Hs1 & Hs2)%slice_r_Ok & H).
  apply bind_Ok in H as ([l' c'] & Hb & H). injection H as -> ->.
  apply parse_lfh_body_inv in Hb as (He & Hwf & Hh); [|rewrite len_slice by lia; lia].
  split_and!; [done..|lia|]. rewrite <- He. unfold slice. by rewrite Z.sub_0_r.
Qed.

(** (C24) Writing a local file header and parsing the bytes, whatever follows
    them, gives the header back: the size field is filled in, the optional
    fields are the ones the global flags announce, and absent values are read
    as zeros. *)
Theorem lfh_write_parse flags limits l bs rest :
  lfh_typed l → write_lfh flags l = Ok bs →
  len bs ≤ max_lfh_header_bytes limits →
  len (name l) + len (path l) ≤ max_path_bytes limits →
  len (sparse_map l) ≤ max_sparse_map_bytes limits →
  len (fec_value l) ≤ max_fec_value_bytes limits →
  len (bs ++ rest) < 2 ^ 64 →
  parse_lfh (bs ++ rest) flags limits = Ok (normalize flags l, len bs).
Proof.
  intros Ht Hw Hmax Hp Hs Hf Hlen.
  apply write_lfh_Ok in Hw as [Hw ->]; [|apply Ht..].
  pose proof (normalize_wf flags l Ht Hw) as [Hwf Hl].
  pose proof (len_enc_lfh flags _ Hwf Hl) as Hll. rewrite lfh_len_normalize in Hll.
  rewrite Hll in *. apply (parse_lfh_enc flags limits (normalize flags l));
    [|done|done]. unfold lfh_wf. rewrite lfh_len_normalize.
  cbn [normalize name path sparse_map fec_value] in *.
  pose proof (len_nonneg (path l)). pose proof (len_nonneg (sparse_map l)).
  pose proof (len_nonneg (fec_value l)). pose proof (len_nonneg (name l)).
  split_and!; [done..| | |]; unfold norm_vec; case_match; rewrite ?len_nil; lia.
Qed.

(** Parsing a local file header and writing the result gives exactly the
    bytes that were parsed, and the header spans the size it declares. *)
Theorem lfh_parse_write input flags limits l n :
  parse_lfh input flags limits = Ok (l, n) →
  write_lfh flags l = Ok (take (Z.to_nat n) input) ∧ header_size l = n.
Proof.
  intros H. apply parse_lfh_inv in H as (Hwf & Hn & _ & ->). split; [|done].
  pose proof Hwf as (Hf & Hl & Hh & _).
  pose proof (fields_wf_normal flags l Hf Hl Hh) as Hnorm.
  rewrite <- Hnorm at 2. apply write_lfh_Ok; [..|split; [|done]].
  1,2: eapply size_wf_u64; apply Hf.
  apply lens_wf_range in Hl. unfold writable. pose proof Hf as ([_ Hh32] & _).
  split_and!; try apply Hf; lia.
Qed.

(** The size [compute_lfh_size] predicts is the number of bytes
    [write_lfh] produces. *)
Theorem lfh_size_exact flags l bs :
  lfh_typed l → write_lfh flags l = Ok bs →
  compute_lfh_size flags l = Ok (len bs).
Proof.
  intros Ht Hw. apply write_lfh_Ok in Hw as [Hw ->]; [|apply Ht..].
  pose proof (normalize_wf flags l Ht Hw) as [Hwf Hl].
  rewrite (len_enc_lfh flags _ Hwf Hl), lfh_len_normalize.
  apply compute_lfh_size_Ok. split; [done|]. destruct Hw as (_ & _ & _ & _ & _ & _ & _ & _ & ?).
  lia.
Qed.

(** The last length field ends the fixed part. *)
Lemma enc_fixed_split flags l nl pl sl :
  ∃ P, ∀ fl, enc_fixed flags (l, (nl, pl, sl, fl))
             = P ++ enc_if (contains flags SELECTIVE_FEC) (le_bytes 3) fl.
Proof. eexists. intros fl. unfold enc_fixed. rewrite !app_assoc. reflexivity. Qed.

Lemma lfh_bytes_for_aad_cut flags P mid fv algo :
  contains flags SELECTIVE_FEC = true → algo ≠ 0 →
  len P = fec_size_field_offset flags →
  len (P ++ le_bytes 3 (len fv) ++ mid ++ fv) < 2 ^ 64 →
  lfh_bytes_for_aad flags (P ++ le_bytes 3 (len fv) ++ mid ++ fv) algo (len fv)
  = Ok (P ++ mid).
Proof.
  intros Hs Ha HP Hb. unfold lfh_bytes_for_aad.
  rewrite Hs, (proj2 (Z.eqb_neq _ _)) by done. cbn [negb orb].
  rewrite <- HP. rewrite !len_app, len_le_bytes in Hb |- *.
  change (Z.of_nat 3) with 3 in *.
  pose proof (len_nonneg mid). pose proof (len_nonneg fv). pose proof (len_nonneg P).
  rewrite (checked_add_fits _ (len P) 3), (checked_add_fits _ 3 (len fv)) by lia.
  cbn [ok_or mbind result_bind].
  rewrite !checked_sub_fits by lia. cbn [ok_or mbind result_bind].
  apply guard_Ok. split; [lia|].
  set (bs := P ++ le_bytes 3 (len fv) ++ mid ++ fv).
  assert (Hlen : len bs = len P + (3 + (len mid + len fv)))
    by (unfold bs; rewrite !len_app, len_le_bytes; lia).
  assert (Hs1 : slice_r (E:=SarError.t) bs 0 (len P) = Ok P).
  { apply slice_r_Ok. split_and!; [|lia..]. symmetry. unfold slice.
    rewrite Z.sub_0_r. apply take_len_app. }
  assert (Hs2 : slice_r (E:=SarError.t) bs (len P + 3)
                 (len P + (3 + (len mid + len fv)) - len fv) = Ok mid).
  { apply slice_r_Ok. split_and!; [|lia..]. symmetry.
    replace (len P + 3) with (len (P ++ le_bytes 3 (len fv)))
      by (rewrite len_app, len_le_bytes; lia).
    replace (_ - len fv) with (len (P ++ le_bytes 3 (len fv)) + len mid)
      by (rewrite len_app, len_le_bytes; lia).
    unfold bs. rewrite app_assoc. apply slice_app_mid. }
  rewrite Hs1. cbn [mbind result_bind]. by rewrite Hs2.
Qed.

(** The additional data of an entry with error correction is its encoded
    header less the correction length field and the correction bytes: the two
    cut parts, and nothing else, are missing. *)
Theorem lfh_aad_excludes_fec flags l bs algo :
  lfh_typed l → write_lfh flags l = Ok bs →
  contains flags SELECTIVE_FEC = true → algo ≠ 0 →
  ∃ fixed, let mid := name l ++ norm_vec (contains flags HAS_PATH) (path l)
                      ++ norm_vec (contains flags SPARSE_FILES) (sparse_map l) in
    bs = fixed ++ le_bytes 3 (len (fec_value l)) ++ mid ++ fec_value l
    ∧ len fixed = fec_size_field_offset flags
    ∧ lfh_bytes_for_aad flags bs algo (len (fec_value l)) = Ok (fixed ++ mid).
Proof.
  intros Ht Hw Hs Ha. apply write_lfh_Ok in Hw as [Hw ->]; [|apply Ht..].
  pose proof (normalize_wf flags l Ht Hw) as [Hwf Hl].
  pose proof (len_enc_lfh flags _ Hwf Hl) as Hll. rewrite lfh_len_normalize in Hll.
  destruct Hw as (_ & _ & _ & _ & _ & _ & _ & _ & Hlen).
  destruct (enc_fixed_split flags (normalize flags l) (len (name l)) (len (path l))
    (len (sparse_map l))) as [P HP]. exists P. cbv zeta.
  assert (HlP : len P = fec_size_field_offset flags).
  { pose proof (len_enc_fixed flags (normalize flags l) (len (name l)) (len (path l))
      (len (sparse_map l)) 0 Hwf) as H.
    rewrite HP in H. unfold enc_if, fixed_len in H. rewrite Hs in H.
    rewrite len_app, len_le_bytes in H. lia. }
  assert (Hbs : enc_lfh flags (normalize flags l)
    = P ++ le_bytes 3 (len (fec_value l))
      ++ (name l ++ norm_vec (contains flags HAS_PATH) (path l)
          ++ norm_vec (contains flags SPARSE_FILES) (sparse_map l)) ++ fec_value l).
  { rewrite enc_lfh_normalize. unfold lens. rewrite HP, Hs. unfold enc_if.
    by rewrite <- !app_assoc. }
  rewrite Hbs in Hll |- *. split_and!; [done..|].
  apply lfh_bytes_for_aad_cut; (done || lia).
Qed.

(** ** No panics *)
Lemma parse_lfh_body_no_panic flags limits hs hdr :
  no_panic (parse_lfh_body flags limits hs (new hdr)).
Proof.
  unfold parse_lfh_body. pose proof (new_wf hdr) as Hc. np_step.
  destruct v as [l0 [[[nl pl] sl] fl]]. destruct Hw as (_ & _ & Hl & _).
  apply lens_wf_range in Hl as (Rn & Rp & Rs & Rf & Zp & Zs & Zf).
  do 5 np_step. apply no_panic_parser_bind; [done|]. intros p c1 [= <- <-].
  np_step. dif as E; [done|].
  pose proof (codec_read_vec true nl ltac:(lia) ltac:(done)).
  pose proof (codec_read_vec _ pl ltac:(lia) Zp).
  pose proof (codec_read_vec _ sl ltac:(lia) Zs).
  pose proof (codec_read_vec _ fl ltac:(lia) Zf).
  do 4 np_step. apply no_panic_parser_bind; [done|]. intros p c9 [= <- <-].
  dif as E2; [done|]. np_step; [apply no_panic_lift, compute_lfh_size_no_panic|].
  by dif as E3.
Qed.
Lemma parse_lfh_no_panic input flags limits :
  no_panic (parse_lfh input flags limits).
Proof.
  unfold parse_lfh. apply no_panic_bind; [apply codec_no_panic, new_wf|].
  intros [hs c] Hr. apply codec_sound in Hr as [_ [Hr _]]; [|apply new_wf].
  apply no_panic_bind; [apply no_panic_ok_or|]. intros n [-> _]%ok_or_Ok%try_from_Some.
  apply no_panic_bind; [auto with no_panic|]. intros _ _. dif as E; [done|].
  apply no_panic_bind; [unfold slice_r; by dif as E'; [|lia]|]. intros hdr _.
  apply no_panic_bind; [apply parse_lfh_body_no_panic|]. by intros [].
Qed.
End theorems.

Section witnesses.
#[local] Existing Instance bitwise.
Import GlobalFlags.

Definition sample_flags : Z := Z.lor SELECTIVE_FEC (Z.lor HAS_PATH HAS_PERMS).
Definition sample_lfh : LocalFileHeader :=
  with_trailing (minimal_store [] 7) [x61] [x62; x63] [] [xee; xff].
Definition sample_lfh_bytes : list byte :=
  [x21; x00; x00; x00; x00; x00; x00; x00; x00; x00; x07; x00; x00; x00;
   x07; x00; x00; x00; x00; x00; x00; x01; x00; x02; x00; x02; x00; x00;
   x61; x62; x63; xee; xff].

Lemma sample_lfh_typed : lfh_typed sample_lfh.
Proof. unfold lfh_typed. by split_and!. Qed.

Lemma lfh_write_parse_witness :
  parse_lfh (sample_lfh_bytes ++ [x00]) sample_flags default_limits
  = Ok (normalize sample_flags sample_lfh, 33).
Proof.
  apply (lfh_write_parse sample_flags default_limits sample_lfh sample_lfh_bytes);
    [apply sample_lfh_typed|by vm_compute..].
Defined.
Lemma lfh_parse_write_witness :
  write_lfh sample_flags (normalize sample_flags sample_lfh)
  = Ok (take 33 (sample_lfh_bytes ++ [x00])).
Proof.
  apply (lfh_parse_write (sample_lfh_bytes ++ [x00]) sample_flags default_limits
           (normalize sample_flags sample_lfh) 33). by vm_compute.
Defined.
Lemma lfh_size_exact_witness : compute_lfh_size sample_flags sample_lfh = Ok 33.
Proof.
  apply (lfh_size_exact sample_flags sample_lfh sample_lfh_bytes);
    [apply sample_lfh_typed|by vm_compute].
Defined.
Lemma lfh_aad_excludes_fec_witness :
  ∃ fixed,
    let mid := name sample_lfh
               ++ norm_vec (contains sample_flags HAS_PATH) (path sample_lfh)
               ++ norm_vec (contains sample_flags SPARSE_FILES)
                    (sparse_map sample_lfh) in
    sample_lfh_bytes
    = fixed ++ le_bytes 3 (len (fec_value sample_lfh)) ++ mid ++ fec_value sample_lfh
    ∧ len fixed = fec_size_field_offset sample_flags
    ∧ lfh_bytes_for_aad sample_flags sample_lfh_bytes 1 (len (fec_value sample_lfh))
      = Ok (fixed ++ mid).
Proof.
  apply (lfh_aad_excludes_fec sample_flags sample_lfh sample_lfh_bytes 1);
    [apply sample_lfh_typed|by vm_compute..].
Defined.
End witnesses.

End Lfh.
