(* ===== verification/FecTypes.v ===== *)
(** * Forward error correction: shared types

    Models [crates/sar-fec/src/types.rs] and the algorithm-id check of
    [registry.rs].  The trait [FecCodec] is a class; [FecLaws] is what the rest
    of the program relies on: an encoded value is valid, and within the codec's
    erasure budget recovery returns the protected bytes.  [XorFec] and [RsFec]
    discharge it. *)

From S2P Require Import Prelude Errors.

Module FecTypes.

Definition FEC_ALGO_REED_SOLOMON : Z := 17.
Definition FEC_ALGO_XOR : Z := 20.

(** [struct FecValue], [struct Erasure], [struct FecRecoverInput]. *)
Record FecValue := { algo_id : Z; data : list byte }.
Record Erasure := { index : Z }.
Record FecRecoverInput := {
  original_protected_len : Z;
  available_data : list byte;
  fec_value_data : list byte;
  erasures : list Erasure;
}.

(** [struct XorMeta], [struct RsMeta], [enum FecMeta]. *)
Record XorMeta := {
  xor_stripe_size : Z;
  xor_block_size : Z;
  xor_original_protected_len : Z;
  xor_stripe_count : Z;
  xor_parity_data_len : Z;
}.
Record RsMeta := {
  rs_k : Z;
  rs_parity_count : Z;
  rs_symbol_size : Z;
  rs_original_protected_len : Z;
  rs_group_count : Z;
  rs_parity_data_len : Z;
}.
Inductive FecMeta :=
  | Xor (m : XorMeta)
  | Rs (m : RsMeta).

(** [trait FecCodec]; [FecOptions] is the unit struct. *)
Class FecCodec (C : Type) := {
  algorithm_id : C → Z;
  encode_recovery : C → list byte → result FecError.t FecValue;
  recover : C → FecRecoverInput → result FecError.t (list byte);
  validate : C → list byte → result FecError.t unit;
}.

(** [validate_fec_algo_id]. *)
Definition validate_fec_algo_id (algo_id : Z) : result FecError.t unit :=
  if algo_id =? 0 then Ok tt
  else if algo_id =? 16 then
    Err (FecError.ReservedValue "FEC algo ID 0x10 is reserved")
  else if algo_id =? 17 then Ok tt
  else if (algo_id =? 18) || (algo_id =? 19) || (algo_id =? 21) || (algo_id =? 22)
  then Err (FecError.Unsupported "FEC algorithm is assigned but not implemented")
  else if algo_id =? 20 then Ok tt
  else if (23 <=? algo_id) && (algo_id <=? 31) then
    Err (FecError.ReservedValue "reserved FEC algo ID")
  else Err (FecError.ReservedValue "FEC algo ID out of defined range").

Lemma validate_fec_algo_id_no_panic a : no_panic (validate_fec_algo_id a).
Proof. unfold validate_fec_algo_id. by repeat case_match. Qed.
Lemma validate_fec_algo_id_ok a :
  validate_fec_algo_id a = Ok tt
  ↔ a = 0 ∨ a = FEC_ALGO_REED_SOLOMON ∨ a = FEC_ALGO_XOR.
Proof.
  unfold validate_fec_algo_id, FEC_ALGO_REED_SOLOMON, FEC_ALGO_XOR.
  repeat case_match; split; intros; (done || lia).
Qed.

(** ** The contract of a codec

    A codec cuts the protected bytes into units (blocks or symbols) and the
    units into groups, and restores up to [tolerance] erased units per group. *)
Class FecGeometry (C : Type) := {
  unit_size : C → Z;
  group_units : C → Z;
  tolerance : C → Z;
}.

Section contract.
Context {C : Type} `{FecCodec C} `{FecGeometry C}.

Definition erased (es : list Erasure) (u : Z) : Prop := {| index := u |} ∈ es.
Definition in_group (c : C) (g : Z) (e : Erasure) : bool :=
  (g * group_units c <=? index e) && (index e <? (g + 1) * group_units c).

(** [input] is [protected] with at most [tolerance] known erasures per group: outside the
    erased units the available bytes are the protected ones, so that a missing suffix lies in
    erased units; bytes beyond the protected ones, if there are any, are zero there. *)
Definition recoverable (c : C) (protected : list byte) (v : FecValue)
    (input : FecRecoverInput) : Prop :=
  original_protected_len input = len protected
  ∧ fec_value_data input = data v
  ∧ NoDup (erasures input)
  ∧ (∀ e, e ∈ erasures input → 0 ≤ index e)
  ∧ (∀ g, len (filter (λ e, in_group c g e = true) (erasures input)) ≤ tolerance c)
  ∧ (∀ i : nat, (i < length protected)%nat →
       ¬ erased (erasures input) (Z.of_nat i / unit_size c) →
       available_data input !! i = protected !! i)
  ∧ (∀ (i : nat) b, (length protected ≤ i)%nat →
       ¬ erased (erasures input) (Z.of_nat i / unit_size c) →
       available_data input !! i = Some b → b = x00).
End contract.

Class FecLaws (C : Type) `{FecCodec C} `{FecGeometry C} (wf : C → Prop) : Prop := {
  encode_valid c protected v :
    wf c → len protected < 2 ^ 63 → encode_recovery c protected = Ok v →
    algo_id v = algorithm_id c ∧ validate c (data v) = Ok tt;
  recover_encode c protected v input :
    wf c → len protected < 2 ^ 63 → encode_recovery c protected = Ok v →
    recoverable c protected v input → recover c input = Ok protected;
}.

End FecTypes.
