(* ===== verification/Tlv.v ===== *)
(** * Metadata TLVs

    Models [crates/sar-core/src/tlv.rs]: the 8-byte aligned type-length-value
    blocks of the central dictionary's metadata section.  The parser's loop runs
    while input remains; every block takes at least five bytes, so one more
    iteration than the input has bytes is enough fuel, and running out of it
    would show as [Panic].  The theorems are the two round trips. *)

From S2P Require Import Prelude Errors Limits Cursor Format FecTypes.
Import Cursor Limits Format.

Module Tlv.

(** [struct Tlv]. *)
Record Tlv := { type_id : Z; value : list byte }.

(** [Tlv::encoded_len]. *)
Definition encoded_len (t : Tlv) : Z :=
  let base := 1 + 4 + len (value t) in
  base + (8 - base mod 8) mod 8.

(** [classify_recovery_tlv_id] ([sar-core/src/fec.rs]). *)
Definition classify_recovery_tlv_id (type_id : Z) : result SarError.t unit :=
  map_err FecError.to_sar (FecTypes.validate_fec_algo_id type_id).

(** [classify_type]. *)
Definition classify_type (type_id : Z) : result SarError.t unit :=
  if type_id =? 0 then Err (SarError.ReservedValue "TLV type 0x00 is reserved")
  else if (1 <=? type_id) && (type_id <=? 4) then Ok tt
  else if (16 <=? type_id) && (type_id <=? 31) then classify_recovery_tlv_id type_id
  else if (32 <=? type_id) && (type_id <=? 47) then
    Err (SarError.Unsupported "SIGNATURE TLV not implemented in M1-M3")
  else if (48 <=? type_id) && (type_id <=? 63) then Ok tt
  else if (type_id =? 64) || (type_id =? 65) || (type_id =? 79) then Ok tt
  else if (66 <=? type_id) && (type_id <=? 78) then
    Err (SarError.ReservedValue "reserved CDC metadata TLV type")
  else if (80 <=? type_id) && (type_id <=? 255) then
    Err (SarError.ReservedValue "reserved TLV type")
  else Ok tt.

(** One round of the loop of [parse_tlvs], after the count check. *)
Definition parse_tlv (limits : ResourceLimits) : parser Tlv :=
  start ← tell;
  type_id ← read_u8;
  _ ← lift (classify_type type_id);
  length ← read_u32_le;
  if length =? U32_MAX then
    fail (SarError.ReservedValue "TLV length 0xFFFFFFFF is reserved")
  else
  length_usize ← lift (ok_or (try_from 64 length) (SarError.Overflow "TLV length"));
  _ ← lift (check_tlv_bytes limits length_usize);
  value ← read_bytes length_usize;
  p ← tell;
  consumed ← lift (ok_or (checked_sub p start)
                     (SarError.Overflow "TLV consumed length"));
  let rem := consumed mod 8 in
  pad ← lift (if rem =? 0 then Ok 0
              else ok_or (checked_sub 8 rem) (SarError.Overflow "TLV padding"));
  if pad >? 0 then
    padding ← read_bytes pad;
    if any_nonzero padding then
      fail (SarError.InvalidAlignment "non-zero TLV padding")
    else mret {| type_id := type_id; value := value |}
  else mret {| type_id := type_id; value := value |}.

(** [while cursor.remaining() > 0 { ... out.push(...) }]. *)
Fixpoint tlvs_loop (fuel : nat) (limits : ResourceLimits) (out : list Tlv)
    (c : ParseCursor) : result SarError.t (list Tlv) :=
  match fuel with
  | O => Panic
  | S fuel =>
      if remaining c >? 0 then
        n ← ok_or (checked_add 64 (len out) 1) (SarError.Overflow "TLV count");
        _ ← check_tlv_count limits n;
        '(t, c) ← parse_tlv limits c;
        tlvs_loop fuel limits (out ++ [t]) c
      else Ok out
  end.

(** [parse_tlvs]. *)
Definition parse_tlvs (input : list byte) (limits : ResourceLimits)
    : result SarError.t (list Tlv) :=
  tlvs_loop (S (length input)) limits [] (new input).

(** One round of the loop of [write_tlvs]. *)
Definition write_tlv (w : list byte) (t : Tlv) : result SarError.t (list byte) :=
  _ ← classify_type (type_id t);
  length ← ok_or (try_from 32 (len (value t)))
             (SarError.Overflow "TLV value too large for u32 length");
  if length =? U32_MAX then
    Err (SarError.ReservedValue "TLV length 0xFFFFFFFF is reserved")
  else
    let block := write_u8 [] (type_id t) in
    let block := write_u32_le block length in
    let block := write_bytes block (value t) in
    let pad := (8 - len block mod 8) mod 8 in
    Ok (write_bytes w (block ++ zeros pad)).
Fixpoint write_loop (w : list byte) (ts : list Tlv) : result SarError.t (list byte) :=
  match ts with
  | [] => Ok w
  | t :: ts => w ← write_tlv w t; write_loop w ts
  end.

(** [write_tlvs]. *)
Definition write_tlvs (ts : list Tlv) : result SarError.t (list byte) :=
  write_loop [] ts.

(** ** One block *)

Definition padding (n : Z) : Z := (8 - n mod 8) mod 8.
Definition enc_tlv (t : Tlv) : list byte :=
  enc_u8 (type_id t) ++ le_bytes 4 (len (value t)) ++ value t
  ++ zeros (padding (5 + len (value t))).
Definition tlv_ok (t : Tlv) : Prop :=
  classify_type (type_id t) = Ok tt ∧ len (value t) < U32_MAX.
Definition tlv_wf (limits : ResourceLimits) (t : Tlv) : Prop :=
  fits 8 (type_id t) ∧ tlv_ok t ∧ len (value t) ≤ max_tlv_bytes limits.

Lemma padding_range n : 0 ≤ padding n < 8.
Proof. apply Z.mod_pos_bound. lia. Qed.
(** The padding as the reader computes it. *)
Lemma padding_reader n :
  (if n mod 8 =? 0 then Ok 0
   else ok_or (checked_sub 8 (n mod 8)) (SarError.Overflow "TLV padding"))
  = Ok (padding n).
Proof.
  pose proof (Z.mod_pos_bound n 8 ltac:(lia)). unfold padding.
  destruct (Z.eqb_spec (n mod 8) 0) as [->|Hne]; [done|].
  rewrite checked_sub_fits by lia. cbn. by rewrite (Z.mod_small (8 - _)) by lia.
Qed.
Lemma padding_align n : (n + padding n) mod 8 = 0.
Proof. unfold padding. Z.div_mod_to_equations. lia. Qed.
Lemma len_enc_tlv t : len (enc_tlv t) = encoded_len t.
Proof.
  unfold enc_tlv, encoded_len. fold (padding (1 + 4 + len (value t))).
  pose proof (padding_range (5 + len (value t))).
  autorewrite with len. rewrite len_zeros by lia.
  change (1 + 4) with 5. lia.
Qed.
Lemma encoded_len_min t : 5 ≤ encoded_len t.
Proof.
  unfold encoded_len. fold (padding (1 + 4 + len (value t))).
  pose proof (padding_range (1 + 4 + len (value t))).
  pose proof (len_nonneg (value t)). lia.
Qed.

Lemma classify_type_no_panic a : no_panic (classify_type a).
Proof.
  unfold classify_type, classify_recovery_tlv_id.
  repeat case_match; try done.
  apply no_panic_map_err, FecTypes.validate_fec_algo_id_no_panic.
Qed.
#[export] Hint Resolve classify_type_no_panic : no_panic.

Lemma parse_tlv_reads limits t : tlv_wf limits t → reads (parse_tlv limits) (enc_tlv t) t.
Proof.
  intros (Ht & [Hc Hl] & Hmax) pre post Hb. unfold parse_tlv, enc_tlv in *.
  pose proof (len_nonneg (value t)). pose proof (padding_range (5 + len (value t))).
  unfold U32_MAX in *. rewrite <- !app_assoc in Hb |- *. rewrite bind_tell.
  erewrite bind_reads; [|by apply codec_reads|done].
  erewrite bind_lift by done. rewrite app_assoc in Hb.
  erewrite bind_reads; [|apply codec_reads; unfold fits; lia|done].
  dif as E; [lia|]. rewrite app_assoc in Hb.
  erewrite bind_lift by by rewrite try_from_fits by lia.
  erewrite bind_lift by by apply check_tlv_bytes_ok.
  erewrite bind_reads; [|by apply reads_read_bytes|done]. rewrite app_assoc in Hb.
  rewrite bind_tell. cbn [pos].
  set (q := len (((pre ++ enc_u8 (type_id t)) ++ le_bytes 4 (len (value t)))
                  ++ value t)).
  assert (Hq : q - len pre = 5 + len (value t))
    by (unfold q; rewrite !len_app, len_le_bytes, len_enc_u8; lia).
  erewrite bind_lift by (rewrite checked_sub_fits by lia; reflexivity).
  erewrite bind_lift by apply padding_reader. rewrite Hq.
  destruct t as [ty v]. cbn [type_id value] in *. unfold q. clear q Hq.
  dif as E2.
  - erewrite bind_reads;
      [|apply (reads_read_bytes (zeros _)); by rewrite len_zeros by lia|done].
    rewrite (proj2 (any_nonzero_false (zeros _))) by by rewrite len_zeros by lia.
    unfold mret, parser_ret. by rewrite <- !app_assoc, !len_app, !Z.add_assoc.
  - replace (padding (5 + len v)) with 0 by lia. unfold mret, parser_ret.
    by rewrite <- !app_assoc, !len_app, !Z.add_assoc, Z.add_0_r.
Qed.
Lemma parse_tlv_sound limits c t c' :
  cursor_wf c → parse_tlv limits c = Ok (t, c') →
  advances c (enc_tlv t) c' ∧ tlv_wf limits t.
Proof.
  intros Hc H. unfold parse_tlv in H. rewrite bind_tell in H.
  do 3 sound_step H. sound_guard H. do 3 sound_step H. rewrite bind_tell in H.
  do 2 sound_step H. rewrite padding_reader in Hd3. apply Ok_inj in Hd3 as <-.
  apply ok_or_Ok, try_from_Some in Hd0 as [-> _].
  apply ok_or_Ok, checked_sub_Some in Hd2 as [-> _]. destruct x, x1.
  apply check_tlv_bytes_ok in Hd1. subst v0.
  assert (Hq : pos c2 - pos c = 5 + len v1).
  { destruct Ha as (_ & E & _), Ha0 as (_ & E0 & _), Ha1 as (_ & E1 & _).
    rewrite E1, E0, E, len_le_bytes, len_enc_u8. lia. }
  rewrite Hq in H. pose proof (padding_range (5 + len v1)).
  assert (Hwf : tlv_wf limits {| type_id := v; value := v1 |}).
  { unfold tlv_wf, tlv_ok, U32_MAX, fits in *. cbn. split_and!; (done || lia). }
  destruct (padding (5 + len v1) >? 0) eqn:E.
  - sound_step H. sound_guard H. injection H as <- <-. split; [|done].
    apply any_nonzero_false in Hif0. unfold enc_tlv. cbn [type_id value].
    match goal with Hl : len _ = padding _ |- _ => rewrite Hl in Hif0 end.
    rewrite <- Hif0. by chain_advances.
  - injection H as <- <-. split; [|done]. unfold enc_tlv. cbn [type_id value].
    replace (padding (5 + len v1)) with 0 by lia. change (zeros 0) with (@nil byte).
    rewrite app_nil_r. by chain_advances.
Qed.
Lemma parse_tlv_no_panic limits c : cursor_wf c → no_panic (parse_tlv limits c).
Proof.
  intros Hc. unfold parse_tlv. rewrite bind_tell. do 3 np_step. dif as E; [done|].
  do 2 np_step. apply ok_or_Ok, try_from_Some in Hd0 as [-> _].
  unfold fits in Hw0. np_step. rewrite bind_tell. np_step.
  rewrite padding_reader. pose proof (padding_range x0). np_step; [done|].
  apply Ok_inj in Hd2 as <-. dif as E2; [|done].
  np_step. by dif as E3.
Qed.
#[export] Instance codec_tlv limits : Codec (parse_tlv limits) enc_tlv (tlv_wf limits).
Proof.
  split; [apply parse_tlv_reads|apply parse_tlv_sound|apply parse_tlv_no_panic].
Qed.

(** ** Sequences of blocks *)

Definition enc_tlvs (ts : list Tlv) : list byte := ts ≫= enc_tlv.

Lemma enc_tlvs_cons t ts : enc_tlvs (t :: ts) = enc_tlv t ++ enc_tlvs ts.
Proof. done. Qed.
Lemma len_enc_tlv_min t : 5 ≤ len (enc_tlv t).
Proof. rewrite len_enc_tlv. apply encoded_len_min. Qed.
Lemma length_enc_tlvs ts : (length ts ≤ length (enc_tlvs ts))%nat.
Proof.
  induction ts as [|t ts IH]; [done|]. rewrite enc_tlvs_cons, length_app.
  pose proof (len_enc_tlv_min t). unfold len in *. cbn. lia.
Qed.

(** The loop on the encoding of [ts]: with fuel for each block and the final
    test, it returns them after [out]. *)
Lemma tlvs_loop_run fuel limits out ts pre :
  Forall (tlv_wf limits) ts → (length ts < fuel)%nat →
  (ts = [] ∨ len out + len ts ≤ max_tlv_count limits) → len out + len ts < 2 ^ 64 →
  len (pre ++ enc_tlvs ts) < 2 ^ 64 →
  tlvs_loop fuel limits out {| input := pre ++ enc_tlvs ts; pos := len pre |}
  = Ok (out ++ ts).
Proof.
  intros Hts. revert fuel out pre.
  induction Hts as [|t ts Ht Hts IH]; intros fuel out pre Hf Hmax Hov Hb;
    destruct fuel as [|fuel]; try (cbn in Hf; lia); cbn [tlvs_loop].
  - unfold remaining, saturating_sub. cbn [input pos enc_tlvs mbind list_bind].
    rewrite !app_nil_r. dif as E; [lia|done].
  - destruct Hmax as [|Hmax]; [done|].
    rewrite enc_tlvs_cons in *. rewrite len_cons in *. pose proof (len_nonneg ts).
    pose proof (len_nonneg (enc_tlvs ts)). pose proof (len_enc_tlv_min t).
    unfold remaining, saturating_sub. cbn [input pos].
    rewrite !len_app in *. dif as E; [|lia].
    rewrite checked_add_fits by lia. cbn [ok_or mbind result_bind].
    rewrite (proj2 (check_tlv_count_ok _ _)) by lia. cbn [mbind result_bind].
    rewrite (codec_reads (Codec := codec_tlv limits) t Ht pre (enc_tlvs ts))
      by (rewrite !len_app; lia).
    cbn [mbind result_bind]. rewrite app_assoc, <- len_app. rewrite IH.
    + by rewrite <- app_assoc.
    + cbn in Hf. lia.
    + right. rewrite len_app, len_cons, len_nil. lia.
    + rewrite len_app, len_cons, len_nil. lia.
    + rewrite !len_app. lia.
Qed.

(** The loop from any cursor: what it returns encodes the rest of the input, and
    with one round of fuel per remaining byte it does not run out. *)
Lemma tlvs_loop_inv fuel limits out c r :
  cursor_wf c → tlvs_loop fuel limits out c = Ok r →
  ∃ ts, r = out ++ ts ∧ Forall (tlv_wf limits) ts
    ∧ (ts = [] ∨ len out + len ts ≤ max_tlv_count limits)
    ∧ slice (input c) (pos c) (len (input c)) = enc_tlvs ts.
Proof.
  revert out c. induction fuel as [|fuel IH]; intros out c Hc H; [done|].
  cbn [tlvs_loop] in H. destruct (remaining c >? 0) eqn:E.
  - apply bind_Ok in H as (n & (-> & _)%ok_or_Ok%checked_add_Some & H).
    apply bind_Ok in H as ([] & Hn%check_tlv_count_ok & H).
    apply bind_Ok in H as ([t c1] & Ht & H).
    apply codec_sound in Ht as [Ha Hwf]; [|done].
    pose proof (advances_wf _ _ _ Hc Ha) as Hc1.
    apply IH in H as (ts & -> & Hts & Hcnt & Hs); [|done].
    exists (t :: ts). rewrite <- app_assoc.
    rewrite len_app, (len_cons t []), len_nil in Hcnt.
    split_and!; [done|by constructor| |].
    { right. rewrite len_cons. destruct Hcnt as [->|]; rewrite ?len_nil; lia. }
    destruct Ha as (Hi & Hp & Hsl & Hle), Hc. rewrite Hi in Hs.
    pose proof (len_nonneg (enc_tlv t)).
    rewrite enc_tlvs_cons, <- Hs, <- Hsl. symmetry. apply slice_app_split; lia.
  - injection H as <-. exists []. rewrite app_nil_r. split_and!; [done|constructor|by left|].
    destruct Hc. unfold remaining, saturating_sub in E.
    replace (pos c) with (len (input c)) by lia. apply slice_empty.
Qed.
Lemma tlvs_loop_no_panic fuel limits out c :
  cursor_wf c → len (input c) - pos c < Z.of_nat fuel →
  no_panic (tlvs_loop fuel limits out c).
Proof.
  revert out c. induction fuel as [|fuel IH]; intros out c Hc Hf.
  - destruct Hc. lia.
  - cbn [tlvs_loop]. dif as E; [|done].
    apply no_panic_bind; [apply no_panic_ok_or|]. intros n _.
    apply no_panic_bind; [auto with no_panic|]. intros u _.
    apply no_panic_bind; [by apply codec_no_panic|]. intros [t c1] Ht.
    apply codec_sound in Ht as [Ha Hwf]; [|done].
    pose proof (advances_wf _ _ _ Hc Ha) as Hc1. apply IH; [done|].
    destruct Ha as (Hi & Hp & _). pose proof (len_enc_tlv_min t). rewrite Hi. lia.
Qed.
Lemma parse_tlvs_no_panic bs limits : no_panic (parse_tlvs bs limits).
Proof.
  apply tlvs_loop_no_panic; [apply new_wf|]. cbn [new input pos]. unfold len. lia.
Qed.

Lemma write_tlv_enc w t :
  write_tlv w t
  = (_ ← classify_type (type_id t);
     n ← ok_or (try_from 32 (len (value t)))
           (SarError.Overflow "TLV value too large for u32 length");
     if n =? U32_MAX then
       Err (SarError.ReservedValue "TLV length 0xFFFFFFFF is reserved")
     else Ok (w ++ enc_tlv t)).
Proof.
  unfold write_tlv. destruct (classify_type (type_id t)) as [[]| |]; [|done..].
  cbn [mbind result_bind]. destruct (try_from 32 (len (value t))) as [n|] eqn:E; [|done].
  apply try_from_Some in E as [-> _]. cbn [ok_or mbind result_bind].
  case_match; [done|]. f_equal. unfold write_bytes, write_u32_le, write_u8, enc_tlv.
  change ([] ++ [byte_of (type_id t)]) with (enc_u8 (type_id t)).
  assert (Hl : len ((enc_u8 (type_id t) ++ le_bytes 4 (len (value t))) ++ value t)
               = 5 + len (value t)) by (autorewrite with len; lia).
  rewrite Hl. fold (padding (5 + len (value t))). by rewrite <- !app_assoc.
Qed.
Lemma write_tlv_Ok w t r : write_tlv w t = Ok r ↔ tlv_ok t ∧ r = w ++ enc_tlv t.
Proof.
  rewrite write_tlv_enc. unfold tlv_ok, U32_MAX. rewrite bind_Ok. split.
  - intros ([] & Hc & H). apply bind_Ok in H as (n & (-> & Hn)%ok_or_Ok%try_from_Some & H).
    apply guard_Ok in H as [Hg H]. apply Ok_inj in H as <-.
    split; [split; [done|lia]|done].
  - intros [[Hc Hl] ->]. exists tt. split; [done|].
    rewrite try_from_fits by lia. cbn [ok_or mbind result_bind].
    apply guard_Ok. split; [lia|done].
Qed.
Lemma write_loop_Ok w ts r :
  write_loop w ts = Ok r ↔ Forall tlv_ok ts ∧ r = w ++ enc_tlvs ts.
Proof.
  revert w. induction ts as [|t ts IH]; intros w.
  - cbn. rewrite app_nil_r. split; [intros [= ->]; by split|by intros [_ ->]].
  - cbn [write_loop]. rewrite bind_Ok, Forall_cons, enc_tlvs_cons, app_assoc. split.
    + intros (w1 & Hw & H). apply write_tlv_Ok in Hw as [? ->].
      apply IH in H as [? ->]. done.
    + intros [[? ?] ->]. exists (w ++ enc_tlv t). rewrite write_tlv_Ok, IH. done.
Qed.

Lemma parse_tlvs_run ts limits :
  Forall (tlv_wf limits) ts → (ts = [] ∨ len ts ≤ max_tlv_count limits) →
  len (enc_tlvs ts) < 2 ^ 64 → parse_tlvs (enc_tlvs ts) limits = Ok ts.
Proof.
  intros Hts Hmax Hb. pose proof (length_enc_tlvs ts) as Hl.
  apply (tlvs_loop_run _ _ [] ts []); [done|lia|done|unfold len in *; cbn; lia|done].
Qed.
Lemma parse_tlvs_inv bs limits ts :
  parse_tlvs bs limits = Ok ts → bs = enc_tlvs ts ∧ Forall (tlv_wf limits) ts
    ∧ (ts = [] ∨ len ts ≤ max_tlv_count limits).
Proof.
  intros H. apply tlvs_loop_inv in H as (ts' & -> & Hwf & Hcnt & Hs); [|apply new_wf].
  cbn [new input pos app] in *. by rewrite slice_full in Hs.
Qed.
Lemma write_tlvs_Ok ts bs :
  write_tlvs ts = Ok bs ↔ Forall tlv_ok ts ∧ bs = enc_tlvs ts.
Proof. apply (write_loop_Ok []). Qed.

(** Metadata blocks written and parsed back: the parser returns the blocks
    in order, and the encoding has the announced, 8-byte aligned length. *)
Theorem tlvs_write_parse ts bs limits :
  Forall (λ t, fits 8 (type_id t) ∧ len (value t) ≤ max_tlv_bytes limits) ts →
  len ts ≤ max_tlv_count limits →
  write_tlvs ts = Ok bs → len bs < 2 ^ 64 →
  parse_tlvs bs limits = Ok ts
  ∧ len bs = foldr Z.add 0 (encoded_len <$> ts) ∧ len bs mod 8 = 0.
Proof.
  intros Hts Hmax Hw Hb. apply write_tlvs_Ok in Hw as [Hok ->].
  assert (Hlen : len (enc_tlvs ts) = foldr Z.add 0 (encoded_len <$> ts)).
  { clear. induction ts as [|t ts IH]; [done|].
    rewrite enc_tlvs_cons, len_app, IH, len_enc_tlv. done. }
  split_and!; [|done|].
  - apply parse_tlvs_run; [|by right|done]. rewrite Forall_forall in *.
    intros t Hin. destruct (Hts t Hin). split_and!; auto.
  - rewrite Hlen. clear. induction ts as [|t ts IH]; [done|].
    cbn. rewrite Z.add_mod, IH by lia. unfold encoded_len.
    fold (padding (1 + 4 + len (value t))). by rewrite padding_align.
Qed.

(** Parsing is canonical: the blocks a metadata section parses to are
    encoded as exactly that section. *)
Theorem tlvs_parse_write bs limits ts :
  parse_tlvs bs limits = Ok ts → write_tlvs ts = Ok bs.
Proof.
  intros H. apply parse_tlvs_inv in H as (-> & Hwf & _). apply write_tlvs_Ok.
  split; [|done]. eapply Forall_impl; [exact Hwf|]. by intros t (_ & ? & _).
Qed.

Definition sample_tlvs : list Tlv :=
  [{| type_id := 1; value := [x61; x62] |}; {| type_id := 48; value := [] |}].
Definition sample_tlv_bytes : list byte :=
  [x01; x02; x00; x00; x00; x61; x62; x00; x30; x00; x00; x00; x00; x00; x00; x00].

Lemma tlvs_write_parse_witness : parse_tlvs sample_tlv_bytes default_limits = Ok sample_tlvs.
Proof.
  apply (tlvs_write_parse sample_tlvs sample_tlv_bytes default_limits);
    [repeat constructor; by vm_compute|by vm_compute..].
Defined.
Lemma tlvs_parse_write_witness : write_tlvs sample_tlvs = Ok sample_tlv_bytes.
Proof. apply (tlvs_parse_write sample_tlv_bytes default_limits). by vm_compute. Defined.

End Tlv.
