(* ===== verification/CentralDir.v ===== *)
(** * Central dictionary

    Models the last part of [crates/sar-core/src/format.rs]: the index at the end
    of an archive, with its partition tuple, checksum, metadata blocks and the
    offsets of the local file headers.  The theorems are the two round trips, and
    that none of the header parsers panics, whatever bytes it is given. *)

From S2P Require Import Prelude Errors Limits Flags Cursor Format Lfh Tlv.
Import Cursor Limits Format.

Module CentralDir.

Definition SUPPORTED_CD_VERSION : Z := 1.

(** [struct CentralDictionary]. *)
Record CentralDictionary := {
  cd_version : Z;
  file_count : Z;
  partition_info : option (Z * Z);
  global_crc32 : option Z;
  metadata : list Tlv.Tlv;
  offsets : list Z;
}.

Section central_dictionary.
Context {B : Bitflags}.
Import GlobalFlags.

(** [Some((cursor.read_u16_le()?, cursor.read_u16_le()?))]. *)
Definition parse_partition_info : parser (Z * Z) :=
  a ← read_u16_le; b ← read_u16_le; mret (a, b).

(** The metadata section. *)
Definition parse_metadata (limits : ResourceLimits) : parser (list Tlv.Tlv) :=
  n ← read_u32_le;
  meta_size ← lift (ok_or (try_from 64 n) (SarError.Overflow "CD metadata size"));
  _ ← lift (check_allocation_bytes limits meta_size);
  meta_bytes ← read_bytes meta_size;
  lift (Tlv.parse_tlvs meta_bytes limits).

(** [for _ in 0..n { offsets.push(read_size(&mut cursor, flags)?); }]. *)
Fixpoint read_offsets (flags : Z) (n : nat) : parser (list Z) :=
  match n with
  | O => mret []
  | S n => o ← read_size flags; os ← read_offsets flags n; mret (o :: os)
  end.

(** The body of [parse_central_dictionary], over the cursor. *)
Definition central_dictionary_body (flags : Z) (limits : ResourceLimits)
    : parser CentralDictionary :=
  version ← read_u8;
  if negb (version =? SUPPORTED_CD_VERSION) then
    fail (SarError.InvalidVersion "unsupported central dictionary version")
  else
  reserved ← read_bytes 7;
  if any_nonzero reserved then
    fail (SarError.ReservedValue "CD reserved bytes must be zero")
  else
  file_count ← read_size flags;
  partition_info ← optional (contains flags PARTITIONED_ARCHIVE) parse_partition_info;
  global_crc32 ← optional (contains flags HAS_GLOBAL_CRC32) read_u32_le;
  metadata ← (if contains flags OPT_PRESENT then parse_metadata limits else mret []);
  file_count_usize ←
    lift (ok_or (try_from 64 file_count)
            (SarError.Overflow "CD file count does not fit usize"));
  _ ← lift (check_entry_count limits file_count_usize);
  if file_count_usize >? ISIZE_MAX / 8 then
    fail (SarError.Overflow "CD offsets allocation")
  else
  offsets ← read_offsets flags (Z.to_nat file_count_usize);
  mret {| cd_version := version; file_count := file_count;
          partition_info := partition_info; global_crc32 := global_crc32;
          metadata := metadata; offsets := offsets |}.

(** [parse_central_dictionary]. *)
Definition parse_central_dictionary (input : list byte) (flags : Z)
    (limits : ResourceLimits) : result SarError.t (CentralDictionary * Z) :=
  _ ← check_cd_bytes limits (len input);
  '(cd, c) ← central_dictionary_body flags limits (new input);
  Ok (cd, position c).

(** [for offset in &cd.offsets { write_size(...)?; }]. *)
Fixpoint write_offsets (w : list byte) (flags : Z) (os : list Z)
    : result SarError.t (list byte) :=
  match os with
  | [] => Ok w
  | o :: os => w ← write_size w flags o; write_offsets w flags os
  end.

(** [write_central_dictionary]. *)
Definition write_central_dictionary (cd : CentralDictionary) (flags : Z)
    : result SarError.t (list byte) :=
  let w := write_u8 [] (cd_version cd) in
  let w := write_bytes w (zeros 7) in
  w ← write_size w flags (file_count cd);
  w ← (if contains flags PARTITIONED_ARCHIVE then
         '(partition_id, total) ←
           ok_or (partition_info cd)
             (SarError.MetadataMissing
                "partition info required for PARTITIONED_ARCHIVE");
         Ok (write_u16_le (write_u16_le w partition_id) total)
       else Ok w);
  w ← (if contains flags HAS_GLOBAL_CRC32 then
         crc ← ok_or (global_crc32 cd)
                 (SarError.MetadataMissing
                    "global CRC32 required by HAS_GLOBAL_CRC32");
         Ok (write_u32_le w crc)
       else Ok w);
  w ← (if contains flags OPT_PRESENT then
         meta_bytes ← Tlv.write_tlvs (metadata cd);
         meta_len ← ok_or (try_from 32 (len meta_bytes))
                      (SarError.Overflow "metadata size does not fit u32");
         Ok (write_bytes (write_u32_le w meta_len) meta_bytes)
       else Ok w);
  n ← ok_or (try_from 64 (file_count cd)) (SarError.Overflow "file count usize");
  if negb (n =? len (offsets cd)) then
    Err (SarError.InvalidLength "offset count does not match file count")
  else write_offsets w flags (offsets cd).
End central_dictionary.

(** ** Encodings and well-formed dictionaries *)
Section encodings.
Context {B : Bitflags}.
Import GlobalFlags.

Definition enc_info (p : Z * Z) : list byte := le_bytes 2 (fst p) ++ le_bytes 2 (snd p).
Definition info_wf (p : Z * Z) : Prop := fits 16 (fst p) ∧ fits 16 (snd p).
#[export] Instance codec_info : Codec parse_partition_info enc_info info_wf.
Proof.
  split.
  - intros [a b] [Ha Hb]. unfold parse_partition_info, enc_info. read_field.
    eapply (reads_step _ _ (le_bytes 2 b) []);
      [by apply codec_reads|by rewrite app_nil_r|apply reads_ret].
  - intros c r c' Hc H. unfold parse_partition_info in H.
    do 2 sound_step H. injection H as <- <-. unfold enc_info. cbn [fst snd].
    split; [by chain_advances|done].
  - intros c Hc. unfold parse_partition_info. by do 2 np_step.
Qed.

Definition enc_meta (ts : list Tlv.Tlv) : list byte :=
  le_bytes 4 (len (Tlv.enc_tlvs ts)) ++ Tlv.enc_tlvs ts.
Definition meta_wf (limits : ResourceLimits) (ts : list Tlv.Tlv) : Prop :=
  Forall (Tlv.tlv_wf limits) ts ∧ (ts = [] ∨ len ts ≤ max_tlv_count limits)
  ∧ len (Tlv.enc_tlvs ts) < 2 ^ 32
  ∧ len (Tlv.enc_tlvs ts) ≤ max_in_memory_buffer limits
  ∧ len (Tlv.enc_tlvs ts) ≤ max_total_pipeline_memory limits.
#[export] Instance codec_meta limits :
  Codec (parse_metadata limits) enc_meta (meta_wf limits).
Proof.
  split.
  - intros ts (Hts & Hcnt & Hl & Hm1 & Hm2). unfold parse_metadata, enc_meta.
    pose proof (len_nonneg (Tlv.enc_tlvs ts)).
    eapply reads_bind; [apply codec_reads; unfold fits; lia|].
    eapply reads_skip; [apply reads_lift; by rewrite try_from_fits by lia|].
    eapply reads_skip; [by apply reads_lift, check_allocation_bytes_ok|].
    eapply (reads_step _ _ (Tlv.enc_tlvs ts) []);
      [by apply reads_read_bytes|by rewrite app_nil_r|].
    apply reads_lift, Tlv.parse_tlvs_run; (done || lia).
  - intros c ts c' Hc H. unfold parse_metadata in H. do 4 sound_step H.
    apply lift_Ok in H as (ts' & Hts & H). injection H as -> ->.
    apply ok_or_Ok, try_from_Some in Hd as [-> _]. destruct x0.
    apply check_allocation_bytes_ok in Hd0 as [Hm1 Hm2].
    apply Tlv.parse_tlvs_inv in Hts as (-> & Hts & Hcnt). subst v.
    unfold enc_meta, meta_wf. split; [by chain_advances|].
    unfold fits in *. split_and!; (done || lia).
  - intros c Hc. unfold parse_metadata. do 3 np_step; try done.
    { apply no_panic_lift. unfold check_allocation_bytes. np. }
    apply ok_or_Ok, try_from_Some in Hd as [-> _]. unfold fits in Hw. np_step.
    apply no_panic_lift, Tlv.parse_tlvs_no_panic.
Qed.

(** The metadata section is absent, and then empty, without [OPT_PRESENT]. *)
Definition enc_meta_if (cond : bool) (ts : list Tlv.Tlv) : list byte :=
  if cond then enc_meta ts else [].
Definition meta_wf_if (cond : bool) (limits : ResourceLimits) (ts : list Tlv.Tlv) : Prop :=
  if cond then meta_wf limits ts else ts = [].
#[export] Instance codec_meta_if (cond : bool) limits :
  Codec (if cond then parse_metadata limits else mret []) (enc_meta_if cond)
    (meta_wf_if cond limits).
Proof.
  unfold enc_meta_if, meta_wf_if. destruct cond; [apply codec_meta|]. split.
  - intros ts ->. apply reads_ret.
  - intros c ts c' Hc H. injection H as <- <-. split; [by apply advances_refl|done].
  - done.
Qed.

Definition enc_offsets (flags : Z) (os : list Z) : list byte := os ≫= enc_size flags.
#[export] Instance codec_offsets flags n :
  Codec (read_offsets flags n) (enc_offsets flags)
    (λ os, length os = n ∧ Forall (size_wf flags) os).
Proof.
  induction n as [|n IH]; split.
  - intros os [Hl _]. destruct os; [|done]. apply reads_ret.
  - intros c os c' Hc H. injection H as <- <-. split; [by apply advances_refl|done].
  - done.
  - intros os [Hl Hos]. destruct os as [|o os]; [done|].
    apply Forall_cons in Hos as [Ho Hos]. injection Hl as Hl. cbn [read_offsets].
    change (enc_offsets flags (o :: os)) with (enc_size flags o ++ enc_offsets flags os).
    eapply reads_bind; [by apply codec_reads|].
    eapply (reads_step _ _ (enc_offsets flags os) []);
      [by apply (codec_reads (Codec := IH))|by rewrite app_nil_r|apply reads_ret].
  - intros c os c' Hc H. cbn [read_offsets] in H. do 2 sound_step H.
    destruct Hw0 as [Hl Hos]. injection H as <- <-.
    split; [|split; [cbn; by rewrite Hl|by constructor]].
    change (enc_offsets flags (v :: v0)) with (enc_size flags v ++ enc_offsets flags v0).
    by chain_advances.
  - intros c Hc. cbn [read_offsets]. by do 2 np_step.
Qed.

Definition enc_cd (flags : Z) (cd : CentralDictionary) : list byte :=
  enc_u8 (cd_version cd) ++ zeros 7 ++ enc_size flags (file_count cd)
  ++ enc_opt enc_info (partition_info cd) ++ enc_opt (le_bytes 4) (global_crc32 cd)
  ++ enc_meta_if (contains flags OPT_PRESENT) (metadata cd)
  ++ enc_offsets flags (offsets cd).
Definition cd_wf (flags : Z) (limits : ResourceLimits) (cd : CentralDictionary) : Prop :=
  cd_version cd = SUPPORTED_CD_VERSION ∧ size_wf flags (file_count cd)
  ∧ wf_opt (contains flags PARTITIONED_ARCHIVE) info_wf (partition_info cd)
  ∧ wf_opt (contains flags HAS_GLOBAL_CRC32) (fits 32) (global_crc32 cd)
  ∧ meta_wf_if (contains flags OPT_PRESENT) limits (metadata cd)
  ∧ file_count cd = len (offsets cd) ∧ file_count cd ≤ max_entry_count limits
  ∧ file_count cd ≤ ISIZE_MAX / 8 ∧ Forall (size_wf flags) (offsets cd).

#[export] Instance codec_cd flags limits :
  Codec (central_dictionary_body flags limits) (enc_cd flags) (cd_wf flags limits).
Proof.
  split.
  - intros [v fc pi crc md os] (Hv & Hfc & Hpi & Hcrc & Hmd & Hn & Hmax & Hisz & Hos).
    cbn [cd_version file_count partition_info global_crc32 metadata offsets] in *.
    unfold central_dictionary_body, enc_cd.
    cbn [cd_version file_count partition_info global_crc32 metadata offsets].
    pose proof (size_wf_u64 _ _ Hfc) as [Hfc0 Hfc64]. subst v.
    read_field. cbn [negb Z.eqb SUPPORTED_CD_VERSION Pos.eqb].
    eapply reads_bind; [by apply (reads_read_bytes (zeros 7))|].
    rewrite (proj2 (any_nonzero_false (zeros 7))) by done.
    do 4 read_field.
    eapply reads_skip; [apply reads_lift; by rewrite try_from_fits by lia|].
    eapply reads_skip; [by apply reads_lift, check_entry_count_ok|].
    dif as E; [lia|]. clear E.
    eapply (reads_step _ _ (enc_offsets flags os) []);
      [apply codec_reads; split; [unfold len in *; lia|done]
      |by rewrite app_nil_r|apply reads_ret].
  - intros c cd c' Hc H. unfold central_dictionary_body in H.
    sound_step H. sound_guard H. sound_step H. sound_guard H. do 6 sound_step H.
    sound_guard H. sound_step H. injection H as <- <-.
    apply negb_false_iff, Z.eqb_eq in Hif. apply any_nonzero_false in Hif0.
    match goal with Hl : len _ = 7 |- _ => rewrite Hl in Hif0 end. subst.
    apply ok_or_Ok, try_from_Some in Hd as [-> _]. destruct x0.
    apply check_entry_count_ok in Hd0. destruct Hw5 as [Hlen Hos].
    match goal with Hs : size_wf _ ?fc |- _ =>
      pose proof (size_wf_u64 _ _ Hs) as [? ?] end.
    unfold enc_cd, cd_wf.
    cbn [cd_version file_count partition_info global_crc32 metadata offsets].
    split; [by chain_advances|]. unfold len. split_and!; (done || lia).
  - intros c Hc. unfold central_dictionary_body. np_step. dif as E; [done|].
    np_step. dif as E2; [done|]. do 6 np_step. dif as E3; [done|]. by np_step.
Qed.

Lemma parse_central_dictionary_no_panic bs flags limits :
  no_panic (parse_central_dictionary bs flags limits).
Proof.
  unfold parse_central_dictionary. apply no_panic_bind; [auto with no_panic|].
  intros _ _. apply no_panic_bind;
    [apply (codec_no_panic (Codec := codec_cd flags limits)), new_wf|].
  by intros [].
Qed.
End encodings.

(** ** Writing *)
Section writing.
Context {B : Bitflags}.
Import GlobalFlags.

(** The dictionary a reader gets back: the flags decide which parts exist. *)
Definition keep {A} (c : bool) (o : option A) : option A := if c then o else None.
Definition normalize (flags : Z) (cd : CentralDictionary) : CentralDictionary := {|
  cd_version := cd_version cd; file_count := file_count cd;
  partition_info := keep (contains flags PARTITIONED_ARCHIVE) (partition_info cd);
  global_crc32 := keep (contains flags HAS_GLOBAL_CRC32) (global_crc32 cd);
  metadata := if contains flags OPT_PRESENT then metadata cd else [];
  offsets := offsets cd;
|}.
Definition writable (flags : Z) (cd : CentralDictionary) : Prop :=
  size_wf flags (file_count cd)
  ∧ (contains flags PARTITIONED_ARCHIVE = true → is_Some (partition_info cd))
  ∧ (contains flags HAS_GLOBAL_CRC32 = true → is_Some (global_crc32 cd))
  ∧ (contains flags OPT_PRESENT = true →
       Forall Tlv.tlv_ok (metadata cd) ∧ len (Tlv.enc_tlvs (metadata cd)) < 2 ^ 32)
  ∧ file_count cd = len (offsets cd) ∧ Forall (size_wf flags) (offsets cd).

Lemma write_offsets_Ok w flags os r :
  Forall (fits 64) os →
  (write_offsets w flags os = Ok r ↔
     Forall (size_wf flags) os ∧ r = w ++ enc_offsets flags os).
Proof.
  intros Hos. revert w. induction Hos as [|o os Ho Hos IH]; intros w; cbn.
  - rewrite app_nil_r. split; [intros [= ->]; by split|by intros [_ ->]].
  - change (enc_offsets flags (o :: os)) with (enc_size flags o ++ enc_offsets flags os).
    rewrite bind_Ok, Forall_cons, app_assoc.
    setoid_rewrite (write_size_Ok _ _ _ _ Ho). setoid_rewrite IH. naive_solver.
Qed.
(** The optional parts of the writer. *)
Lemma write_info_Ok w (c : bool) o r :
  (if c then
     '(a, b) ← ok_or o (SarError.MetadataMissing
                          "partition info required for PARTITIONED_ARCHIVE");
     Ok (write_u16_le (write_u16_le w a) b)
   else Ok w) = Ok r
  ↔ (c = true → is_Some o) ∧ r = w ++ enc_opt enc_info (keep c o).
Proof.
  destruct c, o as [[a b]|]; cbn; unfold write_u16_le, enc_info;
    rewrite <- ?app_assoc, ?app_nil_r; unfold is_Some; naive_solver.
Qed.
Lemma write_crc_Ok w (c : bool) o r :
  (if c then
     crc ← ok_or o (SarError.MetadataMissing
                      "global CRC32 required by HAS_GLOBAL_CRC32");
     Ok (write_u32_le w crc)
   else Ok w) = Ok r
  ↔ (c = true → is_Some o) ∧ r = w ++ enc_opt (le_bytes 4) (keep c o).
Proof.
  destruct c, o; cbn; unfold write_u32_le; rewrite ?app_nil_r;
    unfold is_Some; naive_solver.
Qed.
Lemma write_meta_Ok w (c : bool) ts r :
  (if c then
     meta_bytes ← Tlv.write_tlvs ts;
     meta_len ← ok_or (try_from 32 (len meta_bytes))
                  (SarError.Overflow "metadata size does not fit u32");
     Ok (write_bytes (write_u32_le w meta_len) meta_bytes)
   else Ok w) = Ok r
  ↔ (c = true → Forall Tlv.tlv_ok ts ∧ len (Tlv.enc_tlvs ts) < 2 ^ 32)
    ∧ r = w ++ enc_meta_if c (if c then ts else []).
Proof.
  destruct c; cbn [enc_meta_if]; [|rewrite app_nil_r; naive_solver].
  rewrite bind_Ok. setoid_rewrite Tlv.write_tlvs_Ok. split.
  - intros (bs & [Hok ->] & H).
    apply bind_Ok in H as (n & (-> & Hn)%ok_or_Ok%try_from_Some & H).
    apply Ok_inj in H as <-. split; [done|].
    unfold write_bytes, write_u32_le, enc_meta. by rewrite app_assoc.
  - intros [Hok ->]. destruct (Hok eq_refl) as [Hts Hn]. eexists. split; [done|].
    rewrite try_from_fits by done. cbn [ok_or mbind result_bind].
    unfold write_bytes, write_u32_le, enc_meta. by rewrite app_assoc.
Qed.

Lemma write_central_dictionary_Ok cd flags bs :
  fits 64 (file_count cd) → Forall (fits 64) (offsets cd) →
  (write_central_dictionary cd flags = Ok bs ↔
     writable flags cd ∧ bs = enc_cd flags (normalize flags cd)).
Proof.
  intros Hfc Hos. unfold write_central_dictionary, writable, enc_cd.
  cbn [normalize cd_version file_count partition_info global_crc32 metadata offsets].
  split.
  - intros H. apply bind_Ok in H as (w1 & [Hs ->]%write_size_Ok & H); [|done].
    apply bind_Ok in H as (w2 & [Hi ->]%write_info_Ok & H).
    apply bind_Ok in H as (w3 & [Hc ->]%write_crc_Ok & H).
    apply bind_Ok in H as (w4 & [Hm ->]%write_meta_Ok & H).
    apply bind_Ok in H as (n & (-> & _)%ok_or_Ok%try_from_Some & H).
    apply guard_Ok in H as [Hn H]. apply negb_false_iff, Z.eqb_eq in Hn.
    apply write_offsets_Ok in H as [Ho ->]; [|done].
    split; [done|]. unfold write_bytes, write_u8. by rewrite <- !app_assoc.
  - intros [(Hs & Hi & Hc & Hm & Hn & Ho) ->].
    rewrite (proj2 (write_size_Ok _ _ _ _ Hfc) (conj Hs eq_refl)).
    cbn [mbind result_bind].
    rewrite (proj2 (write_info_Ok _ _ _ _) (conj Hi eq_refl)). cbn [mbind result_bind].
    rewrite (proj2 (write_crc_Ok _ _ _ _) (conj Hc eq_refl)). cbn [mbind result_bind].
    rewrite (proj2 (write_meta_Ok _ _ _ _) (conj Hm eq_refl)). cbn [mbind result_bind].
    destruct Hfc as [_ Hfc]. rewrite try_from_fits by done. cbn [ok_or mbind result_bind].
    apply guard_Ok. split; [by rewrite negb_false_iff, Z.eqb_eq|].
    apply write_offsets_Ok; [done|]. split; [done|].
    unfold write_bytes, write_u8. by rewrite <- !app_assoc.
Qed.

(** The limits the reader applies to the dictionary. *)
Definition within (limits : ResourceLimits) (cd : CentralDictionary) : Prop :=
  file_count cd ≤ max_entry_count limits
  ∧ Forall (λ t, len (Tlv.value t) ≤ max_tlv_bytes limits) (metadata cd)
  ∧ len (metadata cd) ≤ max_tlv_count limits
  ∧ len (Tlv.enc_tlvs (metadata cd)) ≤ max_in_memory_buffer limits
  ∧ len (Tlv.enc_tlvs (metadata cd)) ≤ max_total_pipeline_memory limits.
(** Every field is a value of its Rust type; a [Vec<u64>] has at most
    [isize::MAX / 8] elements. *)
Definition cd_typed (cd : CentralDictionary) : Prop :=
  fits 64 (file_count cd) ∧ Forall (fits 64) (offsets cd)
  ∧ len (offsets cd) ≤ ISIZE_MAX / 8
  ∧ from_option info_wf True (partition_info cd)
  ∧ from_option (fits 32) True (global_crc32 cd)
  ∧ Forall (λ t, fits 8 (Tlv.type_id t)) (metadata cd).

Lemma keep_wf {A} c (P : A → Prop) o :
  (c = true → is_Some o) → from_option P True o → wf_opt c P (keep c o).
Proof. destruct c, o; cbn; [done|intros []%(λ H, H eq_refl)|done..]; done. Qed.

Lemma cd_normalize_wf flags limits cd :
  cd_version cd = SUPPORTED_CD_VERSION → cd_typed cd → within limits cd →
  writable flags cd → cd_wf flags limits (normalize flags cd).
Proof.
  intros Hv (T1 & T2 & T3 & T4 & T5 & T6) (L1 & L2 & L3 & L4 & L5)
    (W1 & W2 & W3 & W4 & W5 & W6).
  unfold cd_wf.
  cbn [normalize cd_version file_count partition_info global_crc32 metadata offsets].
  split_and!; try done; try (by apply keep_wf); [|lia].
  unfold meta_wf_if. destruct (contains flags OPT_PRESENT); [|done].
  destruct (W4 eq_refl) as [Hok Hl]. unfold meta_wf.
  split_and!; [|by right|done..]. rewrite Forall_forall in *.
  intros t Hin. unfold Tlv.tlv_wf. auto.
Qed.

(** (C39) A central dictionary of the supported version, with fields of their types and within
    the reader's limits, written and parsed back, whatever follows it within the size limit:
    the reader gets the same index, with the parts the global flags announce, and consumes
    exactly the bytes that were written. *)
Theorem central_dictionary_write_parse flags limits cd bs rest :
  cd_version cd = SUPPORTED_CD_VERSION → cd_typed cd → within limits cd →
  write_central_dictionary cd flags = Ok bs →
  len (bs ++ rest) ≤ max_cd_bytes limits → len (bs ++ rest) < 2 ^ 64 →
  parse_central_dictionary (bs ++ rest) flags limits
  = Ok (normalize flags cd, len bs).
Proof.
  intros Hv Ht Hl Hw Hmax Hb.
  apply write_central_dictionary_Ok in Hw as [Hw ->]; [|apply Ht..].
  unfold parse_central_dictionary.
  rewrite (proj2 (check_cd_bytes_ok _ _)) by done. cbn [mbind result_bind].
  rewrite (codec_run_prefix _ _ _ _ rest (codec_cd flags limits)); [done| |done].
  by apply cd_normalize_wf.
Qed.

(** Parsing a central dictionary and writing it again gives exactly the
    bytes that were consumed. *)
Theorem central_dictionary_parse_write input flags limits cd n :
  parse_central_dictionary input flags limits = Ok (cd, n) →
  write_central_dictionary cd flags = Ok (take (Z.to_nat n) input).
Proof.
  intros H. unfold parse_central_dictionary in H. apply bind_Ok in H as (_ & _ & H).
  apply bind_Ok in H as ([cd' c] & Hp & H). injection H as -> <-.
  apply (codec_run_inv _ _ _ _ _ _ (codec_cd flags limits)) in Hp as (Hwf & Hp & Ht & _).
  unfold position. rewrite Ht.
  destruct Hwf as (W1 & W2 & W3 & W4 & W5 & W6 & W7 & W8 & W9).
  assert (Hn : normalize flags cd = cd).
  { destruct cd as [v fc pi crc md os]. unfold normalize. cbn in *.
    f_equal;
      [destruct pi, (contains flags PARTITIONED_ARCHIVE); cbn in *; naive_solver
      |destruct crc, (contains flags HAS_GLOBAL_CRC32); cbn in *; naive_solver|].
    unfold meta_wf_if in W5. by destruct (contains flags OPT_PRESENT). }
  rewrite <- Hn at 2. apply write_central_dictionary_Ok; [by eapply size_wf_u64| |].
  { eapply Forall_impl; [exact W9|]. intros. by eapply size_wf_u64. }
  split; [|done]. unfold writable. split_and!; try done.
  - intros Hc. rewrite Hc in W3. by destruct (partition_info cd).
  - intros Hc. rewrite Hc in W4. by destruct (global_crc32 cd).
  - intros Hc. rewrite Hc in W5. destruct W5 as (Hts & _ & Hl & _).
    split; [|done]. eapply Forall_impl; [exact Hts|]. by intros t (_ & ? & _).
Qed.

(** No input makes a header parser panic: the global header, local file
    header, metadata, central dictionary and footer parsers return a value or
    an error on every byte string, under any flags and limits. *)
Theorem parsers_never_panic bs flags limits :
  no_panic (parse_global_header bs limits) ∧ no_panic (Lfh.parse_lfh bs flags limits)
  ∧ no_panic (Tlv.parse_tlvs bs limits)
  ∧ no_panic (parse_central_dictionary bs flags limits) ∧ no_panic (parse_footer bs).
Proof.
  split_and!; auto using parse_global_header_no_panic, Lfh.parse_lfh_no_panic,
    Tlv.parse_tlvs_no_panic, parse_central_dictionary_no_panic, parse_footer_no_panic.
Qed.
End writing.

Section witnesses.
#[local] Existing Instance bitwise.

Definition sample_cd : CentralDictionary :=
  {| cd_version := 1; file_count := 2; partition_info := None;
     global_crc32 := Some 258; metadata := Tlv.sample_tlvs; offsets := [12; 80] |}.
Definition sample_cd_flags : Z :=
  Z.lor GlobalFlags.OPT_PRESENT GlobalFlags.HAS_GLOBAL_CRC32.
Definition sample_cd_bytes : list byte :=
  [x01; x00; x00; x00; x00; x00; x00; x00; x02; x00; x00; x00;
   x02; x01; x00; x00; x10; x00; x00; x00] ++ Tlv.sample_tlv_bytes
  ++ [x0c; x00; x00; x00; x50; x00; x00; x00].

Lemma central_dictionary_write_parse_witness :
  parse_central_dictionary (sample_cd_bytes ++ [xff]) sample_cd_flags default_limits
  = Ok (normalize sample_cd_flags sample_cd, len sample_cd_bytes).
Proof.
  apply (central_dictionary_write_parse sample_cd_flags default_limits sample_cd
           sample_cd_bytes [xff]); [by vm_compute| | |by vm_compute..].
  - unfold cd_typed. split_and!; repeat apply Forall_cons_2; try apply Forall_nil_2;
      by vm_compute.
  - unfold within. split_and!; repeat apply Forall_cons_2; try apply Forall_nil_2;
      by vm_compute.
Defined.
Lemma central_dictionary_parse_write_witness :
  write_central_dictionary sample_cd sample_cd_flags
  = Ok (take 44 (sample_cd_bytes ++ [xff])).
Proof.
  apply (central_dictionary_parse_write (sample_cd_bytes ++ [xff]) sample_cd_flags
           default_limits sample_cd 44). by vm_compute.
Defined.
End witnesses.

End CentralDir.
