(* ===== verification/SparseMap.v ===== *)
(** * Sparse maps on the wire

    Models [crates/sar-core/src/sparse.rs]: the LFH sparse map as a packed array
    of (offset, length) pairs, 32 or 64 bits wide.  The theorems are the two
    round trips with the extents that the component [Sparse] reconstructs from;
    in 32-bit mode an extent that does not fit is refused, never truncated. *)

From S2P Require Import Prelude Errors Sparse Limits.
Import Limits.

Module SparseMap.

Abbreviation SparseExtent := Sparse.SparseExtent.
Import Sparse (ext_offset, ext_length).

(** [let entry_size = if is_64bit { 16 } else { 8 };]. *)
Definition entry_size (is_64bit : bool) : Z := if is_64bit then 16 else 8.

(** One round of the loop of [parse_sparse_map] at [pos]; an eight-byte slice
    always converts to an [[u8; 8]]. *)
Definition parse_entry (bytes : list byte) (is_64bit : bool) (pos : Z)
    : result SarError.t (SparseExtent * Z) :=
  if is_64bit then
    o ← slice_r bytes pos (pos + 8);
    l ← slice_r bytes (pos + 8) (pos + 16);
    Ok ({| ext_offset := le_val o; ext_length := le_val l |}, pos + 16)
  else
    o ← slice_r bytes pos (pos + 4);
    l ← slice_r bytes (pos + 4) (pos + 8);
    Ok ({| ext_offset := le_val o; ext_length := le_val l |}, pos + 8).
Fixpoint parse_loop (bytes : list byte) (is_64bit : bool) (count : nat) (pos : Z)
    (extents : list SparseExtent) : result SarError.t (list SparseExtent) :=
  match count with
  | O => Ok extents
  | S count =>
      '(e, pos) ← parse_entry bytes is_64bit pos;
      parse_loop bytes is_64bit count pos (extents ++ [e])
  end.

(** [parse_sparse_map]; a [SparseExtent] takes 16 bytes. *)
Definition parse_sparse_map (bytes : list byte) (is_64bit : bool)
    (limits : ResourceLimits) : result SarError.t (list SparseExtent) :=
  _ ← check_sparse_map_bytes limits (len bytes);
  if negb (len bytes mod entry_size is_64bit =? 0) then
    Err (SarError.InvalidLength
           "sparse map byte length is not a multiple of entry size")
  else
    let count := len bytes / entry_size is_64bit in
    _ ← check_sparse_descriptor_count limits count;
    if count >? ISIZE_MAX / 16 then
      Err (SarError.Overflow "sparse descriptor allocation")
    else parse_loop bytes is_64bit (Z.to_nat count) 0 [].

(** One round of the loop of [write_sparse_map]. *)
Definition write_entry (w : list byte) (is_64bit : bool) (e : SparseExtent)
    : result SarError.t (list byte) :=
  if is_64bit then
    Ok (w ++ le_bytes 8 (ext_offset e) ++ le_bytes 8 (ext_length e))
  else
    offset32 ← ok_or (try_from 32 (ext_offset e))
                 (SarError.Overflow
                    "sparse extent offset exceeds u32::MAX in 32-bit sparse map");
    length32 ← ok_or (try_from 32 (ext_length e))
                 (SarError.Overflow
                    "sparse extent length exceeds u32::MAX in 32-bit sparse map");
    Ok (w ++ le_bytes 4 offset32 ++ le_bytes 4 length32).
Fixpoint write_loop (w : list byte) (is_64bit : bool) (es : list SparseExtent)
    : result SarError.t (list byte) :=
  match es with
  | [] => Ok w
  | e :: es => w ← write_entry w is_64bit e; write_loop w is_64bit es
  end.

(** [write_sparse_map]. *)
Definition write_sparse_map (es : list SparseExtent) (is_64bit : bool)
    : result SarError.t (list byte) := write_loop [] is_64bit es.

(** ** Entries *)

Definition enc_entry (is_64bit : bool) (e : SparseExtent) : list byte :=
  let n := if is_64bit then 8%nat else 4%nat in
  le_bytes n (ext_offset e) ++ le_bytes n (ext_length e).
Definition enc_map (is_64bit : bool) (es : list SparseExtent) : list byte :=
  es ≫= enc_entry is_64bit.
Definition entry_wf (is_64bit : bool) (e : SparseExtent) : Prop :=
  let w := if is_64bit then 64 else 32 in fits w (ext_offset e) ∧ fits w (ext_length e).

Lemma len_enc_entry b e : len (enc_entry b e) = entry_size b.
Proof. unfold enc_entry. rewrite len_app, !len_le_bytes. by destruct b. Qed.
Lemma len_enc_map b es : len (enc_map b es) = entry_size b * len es.
Proof.
  induction es as [|e es IH]; [by destruct b|].
  change (enc_map b (e :: es)) with (enc_entry b e ++ enc_map b es).
  rewrite len_app, len_enc_entry, IH, len_cons. lia.
Qed.

(** Two adjacent little-endian fields. *)
Lemma slice_two_le n k v1 v2 (pre post : list byte) :
  k = Z.of_nat n →
  let bs := pre ++ (le_bytes n v1 ++ le_bytes n v2) ++ post in
  slice_r (E:=SarError.t) bs (len pre) (len pre + k) = Ok (le_bytes n v1)
  ∧ slice_r (E:=SarError.t) bs (len pre + k) (len pre + (k + k)) = Ok (le_bytes n v2).
Proof.
  intros ->. cbv zeta. pose proof (len_nonneg pre). pose proof (len_nonneg post).
  rewrite !slice_r_Ok, !len_app, !len_le_bytes. split; (split; [|lia]); symmetry.
  - rewrite <- (len_le_bytes n v1), <- app_assoc. apply slice_app_mid.
  - replace (len pre + Z.of_nat n) with (len (pre ++ le_bytes n v1))
      by by rewrite len_app, len_le_bytes.
    replace (len pre + (Z.of_nat n + Z.of_nat n))
      with (len (pre ++ le_bytes n v1) + len (le_bytes n v2))
      by (rewrite len_app, !len_le_bytes; lia).
    rewrite <- app_assoc, app_assoc. apply slice_app_mid.
Qed.

Lemma parse_entry_run b e pre post :
  entry_wf b e →
  parse_entry (pre ++ enc_entry b e ++ post) b (len pre)
  = Ok (e, len (pre ++ enc_entry b e)).
Proof.
  intros [Ho Hl]. rewrite len_app, len_enc_entry. unfold parse_entry, enc_entry.
  destruct b; cbn [entry_size].
  - destruct (slice_two_le 8 8 (ext_offset e) (ext_length e) pre post eq_refl) as [S1 S2].
    change (8 + 8) with 16 in S2. rewrite S1. cbn [mbind result_bind]. rewrite S2. cbn [mbind result_bind].
    rewrite !le_val_bytes by assumption. by destruct e.
  - destruct (slice_two_le 4 4 (ext_offset e) (ext_length e) pre post eq_refl) as [S1 S2].
    change (4 + 4) with 8 in S2. rewrite S1. cbn [mbind result_bind]. rewrite S2. cbn [mbind result_bind].
    rewrite !le_val_bytes by assumption. by destruct e.
Qed.

Lemma le_bytes_slice n (bs : list byte) a b :
  b - a = Z.of_nat n → 0 ≤ a ≤ b → b ≤ len bs →
  le_bytes n (le_val (slice bs a b)) = slice bs a b.
Proof.
  intros Hn Ha Hb. replace n with (length (slice bs a b)) at 1; [apply le_bytes_val|].
  pose proof (len_slice bs a b Ha Hb) as Hl. unfold len in Hl. lia.
Qed.
Lemma le_val_slice_fits w n (bs : list byte) a b :
  w = 8 * Z.of_nat n → b - a = Z.of_nat n → 0 ≤ a ≤ b → b ≤ len bs →
  fits w (le_val (slice bs a b)).
Proof.
  intros -> Hn Ha Hb. pose proof (le_val_range (slice bs a b)) as H.
  rewrite len_slice, Hn in H by done. unfold fits.
  by rewrite Z.pow_mul_r by lia.
Qed.

Lemma parse_entry_inv bs b pos e pos' :
  0 ≤ pos → parse_entry bs b pos = Ok (e, pos') →
  pos' = pos + entry_size b ∧ pos' ≤ len bs ∧ slice bs pos pos' = enc_entry b e
  ∧ entry_wf b e.
Proof.
  intros Hpos H. unfold parse_entry in H. destruct b; cbn [entry_size] in *;
    apply bind_Ok in H as (o & (-> & Ha1 & Hb1)%slice_r_Ok & H);
    apply bind_Ok in H as (l & (-> & Ha2 & Hb2)%slice_r_Ok & H); injection H as <- <-;
    unfold enc_entry, entry_wf; cbn [ext_offset ext_length];
    rewrite !le_bytes_slice by lia; (split_and!; [lia..| | |]);
    first [ by rewrite slice_app_split by lia
          | apply (le_val_slice_fits 64 8); lia | apply (le_val_slice_fits 32 4); lia ].
Qed.
Lemma parse_entry_no_panic bs b pos :
  0 ≤ pos → pos + entry_size b ≤ len bs → no_panic (parse_entry bs b pos).
Proof.
  intros H0 Hl. unfold parse_entry, slice_r. destruct b; cbn [entry_size] in *;
    (apply no_panic_bind; [dif as E; [done|lia]|]; intros ? _;
     apply no_panic_bind; [dif as E; [done|lia]|]; done).
Qed.

(** ** Maps *)

Lemma parse_loop_run b es pre out :
  Forall (entry_wf b) es →
  parse_loop (pre ++ enc_map b es) b (length es) (len pre) out = Ok (out ++ es).
Proof.
  intros Hes. revert pre out. induction Hes as [|e es He Hes IH]; intros pre out.
  - cbn. by rewrite app_nil_r.
  - change (enc_map b (e :: es)) with (enc_entry b e ++ enc_map b es).
    cbn [length parse_loop]. rewrite parse_entry_run by done. cbn [mbind result_bind].
    rewrite app_assoc, IH, <- app_assoc. done.
Qed.
Lemma parse_loop_inv bs b n pos out r :
  0 ≤ pos ≤ len bs → parse_loop bs b n pos out = Ok r →
  ∃ es, r = out ++ es ∧ length es = n ∧ Forall (entry_wf b) es
    ∧ slice bs pos (pos + len (enc_map b es)) = enc_map b es
    ∧ pos + len (enc_map b es) ≤ len bs.
Proof.
  revert pos out. induction n as [|n IH]; intros pos out Hp H; cbn in H.
  - injection H as <-. exists []. rewrite app_nil_r. cbn. rewrite Z.add_0_r.
    split_and!; [done..|apply slice_empty|lia].
  - apply bind_Ok in H as ([e pos'] & He & H).
    apply parse_entry_inv in He as (-> & Hle & Hs & Hwf); [|lia].
    apply IH in H as (es & -> & <- & Hes & Hs' & Hle');
      [|destruct b; cbn [entry_size] in *; lia].
    exists (e :: es). rewrite <- app_assoc.
    change (enc_map b (e :: es)) with (enc_entry b e ++ enc_map b es).
    rewrite len_app, len_enc_entry, Z.add_assoc. pose proof (len_nonneg (enc_map b es)).
    split_and!; [done..|by constructor| |done].
    rewrite <- (slice_app_split _ _ (pos + entry_size b))
      by (destruct b; cbn [entry_size]; lia).
    by rewrite Hs, Hs'.
Qed.
Lemma parse_loop_no_panic bs b n pos out :
  0 ≤ pos → pos + entry_size b * Z.of_nat n ≤ len bs →
  no_panic (parse_loop bs b n pos out).
Proof.
  assert (Hsz : 0 < entry_size b) by by destruct b.
  revert pos out. induction n as [|n IH]; intros pos out Hp Hl; [done|].
  cbn [parse_loop]. apply no_panic_bind; [apply parse_entry_no_panic; lia|].
  intros [e pos'] He. apply parse_entry_inv in He as (-> & _); [|done].
  apply IH; lia.
Qed.

Lemma write_entry_Ok w b e r :
  entry_wf true e →
  (write_entry w b e = Ok r ↔ entry_wf b e ∧ r = w ++ enc_entry b e).
Proof.
  intros [Ho Hl]. unfold write_entry, enc_entry, entry_wf. destruct b; [naive_solver|].
  rewrite bind_Ok. setoid_rewrite ok_or_Ok. setoid_rewrite try_from_Some.
  unfold fits in *. split.
  - intros (o & [-> Hb1] & H).
    apply bind_Ok in H as (l & (-> & Hb2)%ok_or_Ok%try_from_Some & H).
    apply Ok_inj in H as <-. split; [lia|done].
  - intros [Hb ->]. eexists. split; [split; [done|lia]|].
    rewrite try_from_fits by lia. done.
Qed.
Lemma map_write_loop_Ok w b es r :
  Forall (entry_wf true) es →
  (write_loop w b es = Ok r ↔ Forall (entry_wf b) es ∧ r = w ++ enc_map b es).
Proof.
  intros Hes. revert w.
  induction Hes as [|e es He Hes IH]; intros w; cbn [write_loop enc_map mbind list_bind].
  - rewrite app_nil_r. split; [intros [= ->]; by split|by intros [_ ->]].
  - change (enc_entry b e ++ (es ≫= enc_entry b)) with (enc_entry b e ++ enc_map b es).
    rewrite bind_Ok, Forall_cons, app_assoc.
    setoid_rewrite (write_entry_Ok _ _ _ _ He). setoid_rewrite IH. naive_solver.
Qed.

(** A sparse map written and parsed back: extents whose fields fit the
    map's width come back in order. *)
Theorem sparse_map_write_parse es is_64bit limits bs :
  Forall (entry_wf true) es → write_sparse_map es is_64bit = Ok bs →
  len bs ≤ max_sparse_map_bytes limits → len es ≤ max_sparse_descriptors limits →
  len es ≤ ISIZE_MAX / 16 →
  parse_sparse_map bs is_64bit limits = Ok es.
Proof.
  intros Hes Hw Hmax Hcnt Hisz. apply map_write_loop_Ok in Hw as [Hwf ->]; [|done].
  cbn [app] in *. unfold parse_sparse_map.
  rewrite (proj2 (check_sparse_map_bytes_ok _ _)) by done. cbn [mbind result_bind].
  assert (0 < entry_size is_64bit) by by destruct is_64bit.
  rewrite len_enc_map, Z.mul_comm, Z.mod_mul, Z.div_mul by lia. cbn [Z.eqb negb].
  rewrite (proj2 (check_sparse_descriptor_count_ok _ _)) by done.
  cbn [mbind result_bind]. apply guard_Ok. split; [lia|].
  unfold len. rewrite Nat2Z.id. apply (parse_loop_run is_64bit es [] []). done.
Qed.

(** Offsets and lengths of a parsed map fit their width, hence 64 bits. *)
Lemma parse_sparse_map_typed bs is_64bit limits es :
  parse_sparse_map bs is_64bit limits = Ok es → Forall (entry_wf true) es.
Proof.
  unfold parse_sparse_map. intros (_ & _ & H)%bind_Ok. apply guard_Ok in H as [_ H].
  apply bind_Ok in H as (_ & _ & H). apply guard_Ok in H as [_ H]. pose proof (len_nonneg bs).
  apply parse_loop_inv in H as (es' & -> & _ & Hwf & _); [|lia]. cbn [app].
  eapply Forall_impl; [exact Hwf|]. intros e [Ho Hl]. unfold entry_wf, fits in *.
  destruct is_64bit; lia.
Qed.

(** Parsing a sparse map never panics, and a map that parses is written
    back as the same bytes. *)
Theorem sparse_map_parse_write bs is_64bit limits :
  no_panic (parse_sparse_map bs is_64bit limits)
  ∧ (∀ es, parse_sparse_map bs is_64bit limits = Ok es →
           write_sparse_map es is_64bit = Ok bs).
Proof.
  assert (Hsz : 0 < entry_size is_64bit) by by destruct is_64bit.
  assert (Hdiv : len bs mod entry_size is_64bit = 0 →
    entry_size is_64bit * (len bs / entry_size is_64bit) = len bs)
    by (intros; pose proof (Z.div_mod (len bs) (entry_size is_64bit)); lia).
  pose proof (len_nonneg bs).
  pose proof (Z.div_pos (len bs) (entry_size is_64bit) ltac:(lia) ltac:(lia)).
  unfold parse_sparse_map. split.
  - apply no_panic_bind; [auto with no_panic|]. intros _ _. dif as E1; [done|].
    apply no_panic_bind; [auto with no_panic|]. intros _ _. dif as E2; [done|].
    apply parse_loop_no_panic; [done|]. rewrite Z2Nat.id by done. lia.
  - intros es H'. apply bind_Ok in H' as (_ & _ & H'). apply guard_Ok in H' as [E H'].
    apply negb_false_iff, Z.eqb_eq in E. apply bind_Ok in H' as (_ & _ & H').
    apply guard_Ok in H' as [_ H'].
    apply parse_loop_inv in H' as (es' & -> & Hn & Hwf & Hs & Hle); [|lia].
    cbn [app]. rewrite Z.add_0_l in *. rewrite len_enc_map in *.
    assert (Hl : entry_size is_64bit * len es' = len bs)
      by (unfold len at 1; rewrite Hn, Z2Nat.id by done; auto).
    rewrite Hl, slice_full in Hs. apply map_write_loop_Ok; [|by split].
    eapply Forall_impl; [exact Hwf|]. unfold entry_wf, fits.
    destruct is_64bit; [done|]. intros; lia.
Qed.

Lemma sparse_map_write_parse_witness :
  parse_sparse_map [x05; x00; x00; x00; x02; x00; x00; x00] false default_limits
  = Ok [{| ext_offset := 5; ext_length := 2 |}].
Proof.
  apply sparse_map_write_parse; [|by vm_compute..].
  apply Forall_cons_2; [by vm_compute|apply Forall_nil_2].
Defined.
Lemma sparse_map_parse_write_witness :
  write_sparse_map [{| ext_offset := 5; ext_length := 2 |}] false
  = Ok [x05; x00; x00; x00; x02; x00; x00; x00].
Proof.
  apply (sparse_map_parse_write [x05; x00; x00; x00; x02; x00; x00; x00] false
           default_limits). by vm_compute.
Defined.

End SparseMap.
