(* ===== verification/Gf.v ===== *)
(** * The field GF(2^8)

    Models [crates/sar-fec/src/rs/gf.rs]: carry-less multiplication modulo the
    polynomial 0x11D, the logarithm and exponential tables built from it, and the
    table-driven arithmetic of the Reed-Solomon codec.  The theorems are that the
    table multiplication is the polynomial one, and that the operations are those
    of a field of characteristic two. *)

From Stdlib Require Import Ring_theory Ring.
From S2P Require Import Prelude.

Module Gf.

(** ** Operations *)

(** The loop of [gf_mul_raw]: [n] rounds remain; [a] is shifted left within eight
    bits and reduced by 0x1D when its high bit was set. *)
Definition xtime (a : Z) : Z :=
  let hi := Z.land a 128 in
  let a := Z.land (Z.shiftl a 1) 255 in
  if negb (hi =? 0) then Z.lxor a 29 else a.
Fixpoint mul_loop (n : nat) (a b p : Z) : Z :=
  match n with
  | O => p
  | S n =>
      let p := if negb (Z.land b 1 =? 0) then Z.lxor p a else p in
      mul_loop n (xtime a) (Z.shiftr b 1) p
  end.
Definition gf_mul_raw (a b : Z) : Z := mul_loop 8 a b 0.

(** [build_exp_table] and [build_log_table]; the tables are indexed by [nat]. *)
Fixpoint exp_loop (n : nat) (i : nat) (x : Z) (exp : list Z) : list Z :=
  match n with
  | O => exp
  | S n =>
      let exp := <[i := x]> exp in
      let exp := <[(i + 255)%nat := x]> exp in
      exp_loop n (S i) (gf_mul_raw x 2) exp
  end.
Definition build_exp_table : list Z :=
  let exp := exp_loop 255 0 1 (replicate 512 0) in
  let exp := <[255%nat := 1]> exp in
  let exp := <[510%nat := 1]> exp in
  <[511%nat := 2]> exp.
Fixpoint log_loop (n : nat) (i : nat) (exp log : list Z) : list Z :=
  match n with
  | O => log
  | S n =>
      let log := <[Z.to_nat (nth i exp 0) := Z.of_nat i mod 256]> log in
      log_loop n (S i) exp log
  end.
Definition build_log_table (exp : list Z) : list Z :=
  log_loop 255 0 exp (replicate 256 0).

(** The constants [EXP] and [LOG], evaluated. *)
Definition EXP : list Z := Eval vm_compute in build_exp_table.
Definition LOG : list Z := Eval vm_compute in build_log_table build_exp_table.

Definition log (a : byte) : Z := nth (Z.to_nat (byte_val a)) LOG 0.
Definition exp (i : Z) : byte := byte_of (nth (Z.to_nat i) EXP 0).

(** [gf_mul], [gf_div], [gf_add], [gf_pow] on bytes. *)
Definition gf_mul (a b : byte) : byte :=
  if (byte_val a =? 0) || (byte_val b =? 0) then x00
  else exp (log a + log b).
Definition gf_div (a b : byte) : byte :=
  if byte_val a =? 0 then x00 else exp ((log a + 255 - log b) mod 255).
Definition gf_add (a b : byte) : byte := byte_of (Z.lxor (byte_val a) (byte_val b)).
Definition gf_pow (n : Z) : byte := if n =? 0 then x01 else exp (n mod 255).

(** ** Exhaustive checks over bytes and exponents *)

Definition all_bytes : list byte := byte_of ∘ Z.of_nat <$> seq 0 256.
Lemma all_bytes_complete b : b ∈ all_bytes.
Proof.
  apply list_elem_of_fmap. exists (Z.to_nat (byte_val b)).
  pose proof (byte_val_range b). cbn [compose].
  rewrite Z2Nat.id by lia. split; [by rewrite byte_of_val|].
  apply elem_of_seq. lia.
Qed.
Lemma forall_bytes (P : byte → bool) :
  forallb P all_bytes = true → ∀ b, P b = true.
Proof. intros H b. rewrite forallb_forall in H. apply H, list_elem_of_In, all_bytes_complete. Qed.
Lemma forall_exponents (P : Z → bool) :
  forallb (P ∘ Z.of_nat) (seq 0 255) = true → ∀ i, 0 ≤ i < 255 → P i = true.
Proof.
  intros H i Hi. rewrite forallb_forall in H.
  rewrite <- (Z2Nat.id i) by lia. apply H, in_seq. lia.
Qed.

Lemma tables_built : EXP = build_exp_table ∧ LOG = build_log_table EXP.
Proof. by vm_compute. Qed.

Lemma log_range a : 0 ≤ log a < 255.
Proof.
  pose proof (forall_bytes (λ a, (0 <=? log a) && (log a <? 255))
    ltac:(by vm_compute) a) as H. cbv beta in H. lia.
Qed.
Lemma exp_log a : a ≠ x00 → exp (log a) = a.
Proof.
  intros Ha. pose proof (forall_bytes
    (λ a, bool_decide (a = x00) || bool_decide (exp (log a) = a))
    ltac:(by vm_compute) a) as H. cbv beta in H.
  rewrite bool_decide_false in H by done. by apply bool_decide_eq_true in H.
Qed.
Lemma log_exp i : 0 ≤ i < 255 → log (exp i) = i ∧ exp i ≠ x00.
Proof.
  intros Hi. pose proof (forall_exponents
    (λ i, bool_decide (log (exp i) = i ∧ exp i ≠ x00)) ltac:(by vm_compute) i Hi) as H.
  by apply bool_decide_eq_true in H.
Qed.
(** The doubled table: an index below 510 is taken modulo 255. *)
Lemma exp_mod i : 0 ≤ i < 510 → exp i = exp (i mod 255).
Proof.
  intros Hi. destruct (decide (i < 255)); [by rewrite Z.mod_small by lia|].
  pose proof (forall_exponents (λ i, bool_decide (exp (i + 255) = exp i))
    ltac:(by vm_compute) (i - 255) ltac:(lia)) as H. apply bool_decide_eq_true in H.
  replace (i mod 255) with (i - 255); [by rewrite <- H, Z.sub_add|].
  rewrite <- (Z.mod_small (i - 255) 255) by lia.
  replace i with ((i - 255) + 1 * 255) at 2 by lia. by rewrite Z.mod_add by lia.
Qed.

(** ** Multiplication *)

Lemma byte_val_0 a : byte_val a = 0 ↔ a = x00.
Proof. split; [intros H; by apply byte_val_inj|by intros ->]. Qed.
Lemma gf_mul_cases a b :
  gf_mul a b = if decide (a = x00 ∨ b = x00) then x00
               else exp ((log a + log b) mod 255).
Proof.
  unfold gf_mul. pose proof (log_range a). pose proof (log_range b).
  destruct (Z.eqb_spec (byte_val a) 0) as [Ha|Ha];
    [apply byte_val_0 in Ha; rewrite decide_True by auto; done|].
  destruct (Z.eqb_spec (byte_val b) 0) as [Hb|Hb];
    [apply byte_val_0 in Hb; rewrite decide_True by auto; done|].
  rewrite byte_val_0 in Ha, Hb. rewrite decide_False by by intros [].
  cbn [orb]. apply exp_mod. lia.
Qed.
Lemma gf_mul_nz a b : a ≠ x00 → b ≠ x00 →
  gf_mul a b ≠ x00 ∧ log (gf_mul a b) = (log a + log b) mod 255.
Proof.
  intros Ha Hb. rewrite gf_mul_cases, decide_False by by intros [].
  destruct (log_exp ((log a + log b) mod 255)) as [H1 H2];
    [apply Z.mod_pos_bound; lia|done].
Qed.

Lemma gf_mul_comm a b : gf_mul a b = gf_mul b a.
Proof.
  rewrite !gf_mul_cases, Z.add_comm.
  destruct (decide (a = x00 ∨ b = x00)), (decide (b = x00 ∨ a = x00)); naive_solver.
Qed.
Lemma gf_mul_0_l a : gf_mul x00 a = x00.
Proof. done. Qed.
Lemma gf_mul_0_r a : gf_mul a x00 = x00.
Proof. by rewrite gf_mul_comm. Qed.
Lemma gf_mul_1_l a : gf_mul x01 a = a.
Proof.
  destruct (decide (a = x00)) as [->|Ha]; [done|].
  rewrite gf_mul_cases, decide_False by by intros []. change (log x01) with 0.
  rewrite Z.add_0_l, Z.mod_small by apply log_range. by apply exp_log.
Qed.
Lemma gf_mul_eq_0 a b : gf_mul a b = x00 → a = x00 ∨ b = x00.
Proof.
  intros H. destruct (decide (a = x00)); [by left|].
  destruct (decide (b = x00)); [by right|]. destruct (gf_mul_nz a b) as [Hnz _]; auto.
  by destruct Hnz.
Qed.
Lemma gf_mul_assoc a b c : gf_mul a (gf_mul b c) = gf_mul (gf_mul a b) c.
Proof.
  destruct (decide (a = x00)) as [->|Ha]; [done|].
  destruct (decide (b = x00)) as [->|Hb]; [by rewrite gf_mul_0_l, gf_mul_0_r|].
  destruct (decide (c = x00)) as [->|Hc]; [by rewrite !gf_mul_0_r|].
  destruct (gf_mul_nz b c Hb Hc) as [Hbc Lbc], (gf_mul_nz a b Ha Hb) as [Hab Lab].
  rewrite (gf_mul_cases a (gf_mul b c)), (gf_mul_cases (gf_mul a b) c).
  rewrite !decide_False by by intros [].
  rewrite Lbc, Lab, Zplus_mod_idemp_l, Zplus_mod_idemp_r. do 2 f_equal. lia.
Qed.
(** Division undoes multiplication. *)
Lemma gf_div_mul a b : b ≠ x00 → gf_mul (gf_div a b) b = a.
Proof.
  intros Hb. unfold gf_div. destruct (Z.eqb_spec (byte_val a) 0) as [Ha|Ha].
  { apply byte_val_0 in Ha as ->. apply gf_mul_0_l. }
  rewrite byte_val_0 in Ha. pose proof (log_range a). pose proof (log_range b).
  destruct (log_exp ((log a + 255 - log b) mod 255)) as [Hl Hnz];
    [apply Z.mod_pos_bound; lia|].
  rewrite gf_mul_cases, decide_False, Hl, Zplus_mod_idemp_l by by intros [].
  replace (log a + 255 - log b + log b) with (log a + 1 * 255) by lia.
  rewrite Z.mod_add, Z.mod_small by lia. by apply exp_log.
Qed.

(** ** Addition and distributivity *)

Lemma byte_of_lxor x y : byte_of (Z.lxor x y) = gf_add (byte_of x) (byte_of y).
Proof.
  apply byte_val_inj. unfold gf_add. rewrite !byte_val_of.
  change 256 with (2 ^ 8). apply Z.bits_inj. intros i.
  destruct (Z.ltb_spec i 0); [by rewrite !Z.testbit_neg_r|].
  destruct (Z.ltb_spec i 8).
  - by rewrite !Z.mod_pow2_bits_low, !Z.lxor_spec, !Z.mod_pow2_bits_low by lia.
  - by rewrite !Z.mod_pow2_bits_high by lia.
Qed.
Lemma byte_val_add a b : byte_val (gf_add a b) = Z.lxor (byte_val a) (byte_val b).
Proof.
  unfold gf_add. rewrite byte_val_of. apply Z.mod_small.
  pose proof (byte_val_range a). pose proof (byte_val_range b). split.
  - apply Z.lxor_nonneg. lia.
  - destruct (decide (Z.lxor (byte_val a) (byte_val b) = 0)) as [->|Hz]; [lia|].
    change 256 with (2 ^ 8). apply Z.log2_lt_pow2.
    { pose proof (proj2 (Z.lxor_nonneg (byte_val a) (byte_val b))). lia. }
    eapply Z.le_lt_trans; [apply Z.log2_lxor; lia|].
    apply Z.max_lub_lt; [destruct (decide (byte_val a = 0)) as [->|]
      |destruct (decide (byte_val b = 0)) as [->|]];
      try (cbn; lia); apply Z.log2_lt_pow2; lia.
Qed.
Lemma gf_add_comm a b : gf_add a b = gf_add b a.
Proof. unfold gf_add. by rewrite Z.lxor_comm. Qed.
Lemma gf_add_assoc a b c : gf_add a (gf_add b c) = gf_add (gf_add a b) c.
Proof. apply byte_val_inj. rewrite !byte_val_add. by rewrite Z.lxor_assoc. Qed.
Lemma gf_add_0_l a : gf_add x00 a = a.
Proof. apply byte_val_inj. rewrite byte_val_add. apply Z.lxor_0_l. Qed.
Lemma gf_add_diag a : gf_add a a = x00.
Proof. apply byte_val_inj. rewrite byte_val_add. apply Z.lxor_nilpotent. Qed.

(** Shift-and-add multiplication is linear in its second argument. *)
Lemma land_1_odd b : negb (Z.land b 1 =? 0) = Z.odd b.
Proof.
  change 1 with (Z.ones 1) at 1. rewrite Z.land_ones by lia.
  change (2 ^ 1) with 2. rewrite Zmod_odd. by destruct (Z.odd b).
Qed.
Lemma mul_loop_linear n a b c p q :
  mul_loop n a (Z.lxor b c) (Z.lxor p q) = Z.lxor (mul_loop n a b p) (mul_loop n a c q).
Proof.
  revert a b c p q. induction n as [|n IH]; intros a b c p q; [done|].
  cbn [mul_loop]. rewrite !land_1_odd, <- !Z.bit0_odd, Z.lxor_spec, Z.shiftr_lxor, <- IH.
  f_equal. destruct (Z.testbit b 0), (Z.testbit c 0); cbn [xorb].
  - rewrite (Z.lxor_comm q a), Z.lxor_assoc, <- (Z.lxor_assoc a a q).
    by rewrite Z.lxor_nilpotent, Z.lxor_0_l.
  - by rewrite !Z.lxor_assoc, (Z.lxor_comm a q).
  - by rewrite Z.lxor_assoc.
  - done.
Qed.

Definition mul_agrees (a b : byte) : bool :=
  byte_val (gf_mul a b) =? gf_mul_raw (byte_val a) (byte_val b).
Lemma mul_agrees_all a b : mul_agrees a b = true.
Proof.
  pose proof (forall_bytes (λ a, forallb (mul_agrees a) all_bytes)
    ltac:(by vm_compute) a) as H. cbv beta in H.
  apply (forall_bytes (mul_agrees a) H b).
Qed.
Lemma gf_mul_raw_eq a b : gf_mul a b = byte_of (gf_mul_raw (byte_val a) (byte_val b)).
Proof.
  pose proof (mul_agrees_all a b) as H. apply Z.eqb_eq in H.
  by rewrite <- H, byte_of_val.
Qed.
Lemma gf_mul_add_r a b c : gf_mul a (gf_add b c) = gf_add (gf_mul a b) (gf_mul a c).
Proof.
  rewrite !gf_mul_raw_eq, byte_val_add, <- byte_of_lxor. f_equal.
  apply (mul_loop_linear 8 (byte_val a) (byte_val b) (byte_val c) 0 0).
Qed.

Lemma gf_ring_theory :
  ring_theory x00 x01 gf_add gf_mul gf_add (λ a, a) eq.
Proof.
  split.
  - apply gf_add_0_l.
  - apply gf_add_comm.
  - apply gf_add_assoc.
  - apply gf_mul_1_l.
  - apply gf_mul_comm.
  - apply gf_mul_assoc.
  - intros a b c. by rewrite !(gf_mul_comm _ c), gf_mul_add_r.
  - done.
  - apply gf_add_diag.
Qed.
Add Ring gf_ring : gf_ring_theory.

(** The table-driven product is the product of polynomials over GF(2)
    modulo 0x11D, for every pair of bytes. *)
Theorem gf_mul_is_polynomial a b :
  byte_val (gf_mul a b) = gf_mul_raw (byte_val a) (byte_val b).
Proof. apply Z.eqb_eq, mul_agrees_all. Qed.

(** The byte operations are those of a field of characteristic two:
    addition and multiplication form a commutative ring in which every element
    is its own negative, division by a non-zero element undoes multiplication,
    and the powers of the primitive element reach every non-zero byte. *)
Theorem gf_field :
  ring_theory x00 x01 gf_add gf_mul gf_add (λ a, a) eq
  ∧ (∀ a b, b ≠ x00 → gf_mul (gf_div a b) b = a ∧ gf_div (gf_mul a b) b = a)
  ∧ (∀ a, a ≠ x00 → ∃ n, 0 ≤ n < 255 ∧ gf_pow n = a).
Proof.
  split_and!; [apply gf_ring_theory| |].
  - intros a b Hb. split; [by apply gf_div_mul|].
    pose proof (gf_div_mul (gf_mul a b) b Hb) as H.
    assert (Hz : gf_mul (gf_add (gf_div (gf_mul a b) b) a) b = x00).
    { rewrite gf_mul_comm, gf_mul_add_r, !(gf_mul_comm b), H. apply gf_add_diag. }
    apply gf_mul_eq_0 in Hz as [Hz|]; [|done].
    rewrite <- (gf_add_0_l a) at 2. rewrite <- Hz, <- gf_add_assoc, gf_add_diag.
    by rewrite gf_add_comm, gf_add_0_l.
  - intros a Ha. exists (log a). pose proof (log_range a). split; [done|].
    unfold gf_pow. destruct (Z.eqb_spec (log a) 0) as [E|E].
    + rewrite <- (exp_log a Ha), E. done.
    + rewrite Z.mod_small by lia. by apply exp_log.
Qed.

Lemma gf_field_witness : gf_mul (gf_div x53 xca) xca = x53.
Proof. destruct gf_field as (_ & H & _). by apply H. Defined.

(** ** Sums and powers *)

Lemma gf_add_0_r a : gf_add a x00 = a.
Proof. ring. Qed.
Lemma gf_add_cancel a b : gf_add a b = x00 ↔ a = b.
Proof.
  split; [|intros ->; apply gf_add_diag]. intros H.
  transitivity (gf_add (gf_add a b) b); [|rewrite H; ring].
  rewrite <- gf_add_assoc, gf_add_diag. ring.
Qed.

Lemma gf_mul_cancel_r a b c : c ≠ x00 → gf_mul a c = gf_mul b c → a = b.
Proof.
  intros Hc H. apply (proj1 (gf_add_cancel _ _)).
  assert (gf_mul (gf_add a b) c = x00) as [|]%gf_mul_eq_0; [|done..].
  transitivity (gf_add (gf_mul a c) (gf_mul b c)); [ring|]. rewrite H. apply gf_add_diag.
Qed.
Lemma gf_div_0_l b : gf_div x00 b = x00.
Proof. done. Qed.
Lemma gf_div_diag a : a ≠ x00 → gf_div a a = x01.
Proof. intros Ha. apply (gf_mul_cancel_r _ _ a Ha). rewrite gf_div_mul by done. ring. Qed.
Lemma gf_div_inv a b : b ≠ x00 → gf_div a b = gf_mul (gf_div x01 b) a.
Proof.
  intros Hb. apply (gf_mul_cancel_r _ _ b Hb). rewrite gf_div_mul by done.
  transitivity (gf_mul (gf_mul (gf_div x01 b) b) a); [|ring].
  rewrite gf_div_mul by done. ring.
Qed.

(** The sum of [f] over a list of indices. *)
Definition gsum {A} (l : list A) (f : A → byte) : byte :=
  foldr (λ x acc, gf_add (f x) acc) x00 l.

Section gsum.
Context {A : Type}.
Implicit Types (l : list A) (f g : A → byte).

Lemma gsum_cons x l f : gsum (x :: l) f = gf_add (f x) (gsum l f).
Proof. done. Qed.
Lemma gsum_app k l f : gsum (k ++ l) f = gf_add (gsum k f) (gsum l f).
Proof.
  induction k as [|x k IH]; cbn [app]; [by rewrite gf_add_0_l|].
  rewrite !gsum_cons, IH. ring.
Qed.
#[global] Instance gsum_proper :
  Proper ((≡ₚ) ==> pointwise_relation A (=) ==> (=)) (@gsum A).
Proof.
  intros k l Hp f g Hfg. transitivity (gsum k g).
  - clear Hp. induction k as [|x k IH]; [done|]. by rewrite !gsum_cons, IH, Hfg.
  - induction Hp as [|x k l Hp IH|x y l|k l m _ IH1 _ IH2]; [done|..].
    + by rewrite !gsum_cons, IH.
    + rewrite !gsum_cons. ring.
    + by rewrite IH1.
Qed.
Lemma gsum_ext l f g : (∀ x, x ∈ l → f x = g x) → gsum l f = gsum l g.
Proof.
  induction l as [|x l IH]; intros H; [done|].
  rewrite !gsum_cons, IH, H; [done|by left|intros; apply H; by right].
Qed.
Lemma gsum_0 l f : (∀ x, x ∈ l → f x = x00) → gsum l f = x00.
Proof.
  intros H. rewrite (gsum_ext l f (λ _, x00)) by done. clear H.
  induction l as [|x l IH]; [done|]. by rewrite gsum_cons, IH.
Qed.
Lemma gsum_add l f g :
  gsum l (λ x, gf_add (f x) (g x)) = gf_add (gsum l f) (gsum l g).
Proof.
  induction l as [|x l IH]; [done|]. rewrite !gsum_cons, IH. ring.
Qed.
Lemma gsum_mul_l l c f : gsum l (λ x, gf_mul c (f x)) = gf_mul c (gsum l f).
Proof.
  induction l as [|x l IH]; [symmetry; apply gf_mul_0_r|].
  rewrite !gsum_cons, IH. ring.
Qed.
(** A sum with one non-zero term. *)
Lemma gsum_single l x f :
  NoDup l → x ∈ l → (∀ y, y ∈ l → y ≠ x → f y = x00) → gsum l f = f x.
Proof.
  intros Hnd Hx Hf. apply list_elem_of_split in Hx as (k & m & ->).
  rewrite <- Permutation_middle in Hnd |- *. apply NoDup_cons in Hnd as [Hnin _].
  rewrite gsum_cons, (gsum_0 (k ++ m)); [apply gf_add_0_r|].
  intros y Hy. apply Hf; [|by intros ->].
  rewrite <- Permutation_middle. by right.
Qed.
(** Splitting a sum by a decidable property. *)
Lemma gsum_filter (P : A → Prop) `{∀ x, Decision (P x)} l f :
  gsum l f = gf_add (gsum (filter P l) f) (gsum (filter (λ x, ¬ P x) l) f).
Proof.
  induction l as [|x l IH]; [done|]. rewrite gsum_cons, IH, !filter_cons.
  destruct (decide (P x)), (decide (¬ P x)); try done; rewrite gsum_cons; ring.
Qed.
Lemma gsum_filter_if (P : A → Prop) `{∀ x, Decision (P x)} l f :
  gsum (filter P l) f = gsum l (λ x, if decide (P x) then f x else x00).
Proof.
  induction l as [|x l IH]; [done|]. rewrite gsum_cons, <- IH, filter_cons.
  destruct (decide (P x)); [done|]. by rewrite gf_add_0_l.
Qed.
End gsum.
Lemma gsum_fmap {A B} (h : A → B) l f : gsum (h <$> l) f = gsum l (f ∘ h).
Proof. induction l as [|x l IH]; [done|]. cbn [fmap list_fmap]. by rewrite !gsum_cons, IH. Qed.
Lemma gsum_exchange {A B} (k : list A) (l : list B) f :
  gsum k (λ x, gsum l (f x)) = gsum l (λ y, gsum k (λ x, f x y)).
Proof.
  induction k as [|x k IH]; [symmetry; by apply gsum_0|].
  rewrite gsum_cons, IH, <- gsum_add. by apply gsum_ext.
Qed.

Fixpoint gpow (x : byte) (n : nat) : byte :=
  match n with O => x01 | S n => gf_mul x (gpow x n) end.

(** [gf_pow] is the power of the primitive element. *)
Lemma gf_pow_exp n : 0 ≤ n → gf_pow n = exp (n mod 255).
Proof. intros. unfold gf_pow. by destruct (Z.eqb_spec n 0) as [->|]. Qed.
Lemma gf_pow_nz n : 0 ≤ n → gf_pow n ≠ x00.
Proof.
  intros. rewrite gf_pow_exp by done. apply log_exp, Z.mod_pos_bound. lia.
Qed.
Lemma gf_pow_add m n :
  0 ≤ m → 0 ≤ n → gf_pow (m + n) = gf_mul (gf_pow m) (gf_pow n).
Proof.
  intros. rewrite !gf_pow_exp by lia.
  destruct (log_exp (m mod 255)) as [Lm Nm]; [apply Z.mod_pos_bound; lia|].
  destruct (log_exp (n mod 255)) as [Ln Nn]; [apply Z.mod_pos_bound; lia|].
  rewrite gf_mul_cases, decide_False, Lm, Ln by by intros [].
  by rewrite <- Zplus_mod.
Qed.
Lemma gf_pow_mul c m : 0 ≤ c → gf_pow (Z.of_nat m * c) = gpow (gf_pow c) m.
Proof.
  intros Hc. induction m as [|m IH]; [done|]. cbn [gpow]. rewrite <- IH, <- gf_pow_add by lia.
  f_equal. lia.
Qed.
Lemma gf_pow_mod n : 0 ≤ n → gf_pow (n mod 255) = gf_pow n.
Proof.
  intros. pose proof (Z.mod_pos_bound n 255 ltac:(lia)).
  rewrite !gf_pow_exp by lia. by rewrite Z.mod_mod.
Qed.
Lemma gf_pow_inj m n : 0 ≤ m < 255 → 0 ≤ n < 255 → gf_pow m = gf_pow n → m = n.
Proof.
  intros Hm Hn. rewrite !gf_pow_exp, !Z.mod_small by lia. intros H.
  rewrite <- (proj1 (log_exp m Hm)), <- (proj1 (log_exp n Hn)). by rewrite H.
Qed.

(** The Vandermonde argument: a combination of distinct non-zero nodes whose
    first power sums all vanish is trivial. *)
Lemma vandermonde_kernel {A} (l : list A) (x v : A → byte) :
  NoDup (x <$> l) → (∀ a, a ∈ l → x a ≠ x00) →
  (∀ r, (r < length l)%nat → gsum l (λ a, gf_mul (gpow (x a) (S r)) (v a)) = x00) →
  ∀ a, a ∈ l → v a = x00.
Proof.
  revert v. induction l as [|a0 l IH]; intros v Hnd Hnz Hsum;
    [by intros a []%not_elem_of_nil|].
  cbn [fmap list_fmap] in Hnd. apply NoDup_cons in Hnd as [Hx0 Hnd].
  assert (Hz : x a0 ≠ x00) by (apply Hnz; by left).
  assert (Htl : ∀ a, a ∈ l → v a = x00).
  { intros a Ha.
    assert (gf_mul (gf_add (x a) (x a0)) (v a) = x00) as [Hc|]%gf_mul_eq_0; [|..|done].
    - apply (IH (λ a, gf_mul (gf_add (x a) (x a0)) (v a)));
        [done|intros; apply Hnz; by right| |done].
      intros r Hr. pose proof (Hsum (S r) ltac:(cbn; lia)) as H1.
      pose proof (Hsum r ltac:(cbn; lia)) as H0. rewrite gsum_cons in H0, H1.
      transitivity (gf_add (gsum l (λ a, gf_mul (gpow (x a) (S (S r))) (v a)))
                      (gf_mul (x a0) (gsum l (λ a, gf_mul (gpow (x a) (S r)) (v a))))).
      { rewrite <- gsum_mul_l, <- gsum_add. apply gsum_ext. intros y _.
        cbn [gpow]. ring. }
      apply (proj1 (gf_add_cancel _ _)) in H0, H1. rewrite <- H0, <- H1. cbn [gpow].
      apply (proj2 (gf_add_cancel _ _)). ring.
    - apply (proj1 (gf_add_cancel _ _)) in Hc. destruct Hx0. rewrite <- Hc.
      by apply list_elem_of_fmap_2. }
  intros a [->|Ha]%elem_of_cons; [|auto].
  pose proof (Hsum 0%nat ltac:(cbn; lia)) as H0. rewrite gsum_cons in H0.
  rewrite (gsum_0 l) in H0 by (intros y Hy; rewrite Htl by done; apply gf_mul_0_r).
  rewrite gf_add_0_r in H0. apply gf_mul_eq_0 in H0 as [H0|]; [|done].
  apply gf_mul_eq_0 in H0 as [H0|H0]; done.
Qed.

End Gf.
