(* ===== verification/GfMatrix.v ===== *)
(** * Matrices over GF(2^8)

    Models [crates/sar-fec/src/rs/matrix.rs]: square matrices stored row by row,
    inversion by Gauss-Jordan elimination on the augmented matrix [[M | I]], and
    the matrix-vector product on symbols.  Vectors are indexed by [nat]; every
    index the code computes is [row * cols + col] with [row] and [col] in range
    ([index_in_range]), so reading with a default and writing with [insert] are
    what the code does.  The theorem is that inversion succeeds exactly on the
    matrices with trivial kernel, and then returns a left inverse. *)

From Stdlib Require Import Ring.
From S2P Require Import Prelude Errors Gf.
Import Gf.

Module GfMatrix.
#[local] Open Scope nat_scope.

Record GfMatrix := { size : nat; mdata : list byte }.

(** [GfMatrix::zeroes], [get], [set]. *)
Definition zeroes (size : nat) : GfMatrix :=
  {| size := size; mdata := replicate (size * size) x00 |}.
Definition get (m : GfMatrix) (row col : nat) : byte :=
  mdata m !!! (row * size m + col).
Definition set (m : GfMatrix) (row col : nat) (v : byte) : GfMatrix :=
  {| size := size m; mdata := <[row * size m + col := v]> (mdata m) |}.

(** [for x in 0..n { s = body(s, x) }]. *)
Definition for_range {T} (n : nat) (body : T → nat → T) (s : T) : T :=
  foldl body s (seq 0 n).

(** The augmented matrix [[M | I]]. *)
Definition augment (m : GfMatrix) : list byte :=
  let n := size m in
  let cols := n * 2 in
  for_range n
    (λ aug r,
       let aug := for_range n (λ aug c, <[r * cols + c := get m r c]> aug) aug in
       <[r * cols + n + r := x01]> aug)
    (replicate (n * cols) x00).

(** [aug.swap(i, j)]. *)
Definition swap (aug : list byte) (i j : nat) : list byte :=
  let x := aug !!! i in
  let y := aug !!! j in
  <[j := x]> (<[i := y]> aug).

(** The three parts of one round of the elimination loop: swap the pivot row in,
    scale it, and eliminate the column from the other rows. *)
Definition swap_rows (cols col pivot : nat) (aug : list byte) : list byte :=
  if pivot =? col then aug
  else for_range cols (λ aug c, swap aug (col * cols + c) (pivot * cols + c)) aug.
Definition scale_row (cols col : nat) (aug : list byte) : list byte :=
  let diag := aug !!! (col * cols + col) in
  for_range cols
    (λ aug c, <[col * cols + c := gf_div (aug !!! (col * cols + c)) diag]> aug) aug.
Definition eliminate_row (cols col r : nat) (aug : list byte) : list byte :=
  if r =? col then aug
  else
    let factor := aug !!! (r * cols + col) in
    if bool_decide (factor = x00) then aug
    else
      for_range cols
        (λ aug c,
           let pv := aug !!! (col * cols + c) in
           <[r * cols + c := gf_add (aug !!! (r * cols + c)) (gf_mul factor pv)]> aug)
        aug.
Definition eliminate_column (n cols col : nat) (aug : list byte)
    : result FecError.t (list byte) :=
  pivot ← ok_or
            (List.find (λ r, negb (bool_decide (aug !!! (r * cols + col) = x00)))
               (seq col (n - col)))
            (FecError.EcFailed "RS decode: singular matrix (too many erasures)");
  let aug := swap_rows cols col pivot aug in
  let aug := scale_row cols col aug in
  Ok (for_range n (λ aug r, eliminate_row cols col r aug) aug).

(** [for col in 0..n { ... }]. *)
Fixpoint eliminate_loop (n cols : nat) (todo : list nat) (aug : list byte)
    : result FecError.t (list byte) :=
  match todo with
  | [] => Ok aug
  | col :: todo =>
      aug ← eliminate_column n cols col aug;
      eliminate_loop n cols todo aug
  end.

(** [invert]. *)
Definition invert (m : GfMatrix) : result FecError.t GfMatrix :=
  let n := size m in
  let cols := n * 2 in
  aug ← eliminate_loop n cols (seq 0 n) (augment m);
  Ok (for_range n
        (λ inv r, for_range n (λ inv c, set inv r c (aug !!! (r * cols + n + c))) inv)
        (zeroes n)).

(** The inner loops over [dst.iter_mut().zip(src)], which add [coeff] times the
    source to the destination; skipped when the coefficient is zero. *)
Fixpoint axpy (coeff : byte) (dst src : list byte) : list byte :=
  match dst, src with
  | d :: dst, s :: src => gf_add d (gf_mul coeff s) :: axpy coeff dst src
  | dst, _ => dst
  end.
Definition accumulate (dst : list byte) (terms : list (byte * list byte)) : list byte :=
  foldl (λ dst '(coeff, src), if bool_decide (coeff = x00) then dst else axpy coeff dst src)
    dst terms.

(** [mat_vec_mul]. *)
Definition mat_vec_mul (mat : GfMatrix) (vecs : list (list byte)) (symbol_size : nat)
    : list (list byte) :=
  (λ r, accumulate (replicate symbol_size x00) (imap (λ c src, (get mat r c, src)) vecs))
  <$> seq 0 (size mat).

(** ** Views

    [view n cols aug V]: [aug] holds the [n] by [cols] matrix [V]. *)
Definition view (n cols : nat) (aug : list byte) (V : nat → nat → byte) : Prop :=
  length aug = n * cols ∧ ∀ r c, r < n → c < cols → aug !!! (r * cols + c) = V r c.

Lemma index_in_range n cols r c : r < n → c < cols → r * cols + c < n * cols.
Proof. nia. Qed.
Lemma index_inj cols r c r' c' :
  c < cols → c' < cols → r * cols + c = r' * cols + c' → r = r' ∧ c = c'.
Proof.
  intros Hc Hc' H. assert (r = r') as ->; [|lia].
  destruct (Nat.lt_trichotomy r r') as [|[|]]; [exfalso|done|exfalso]; nia.
Qed.

(** Reading after one write. *)
Lemma view_insert n cols aug V r c v :
  view n cols aug V → r < n → c < cols →
  view n cols (<[r * cols + c := v]> aug)
    (λ r' c', if decide (r' = r ∧ c' = c) then v else V r' c').
Proof.
  intros [Hl HV] Hr Hc. split; [by rewrite length_insert|]. intros r' c' Hr' Hc'.
  pose proof (index_in_range n cols r c Hr Hc). case_decide as E.
  - destruct E as [-> ->]. apply list_lookup_total_insert_eq. lia.
  - rewrite list_lookup_total_insert_ne; [by apply HV|].
    intros Heq. apply E. by apply index_inj in Heq as [-> ->].
Qed.
Lemma view_ext n cols aug V W :
  view n cols aug V → (∀ r c, r < n → c < cols → V r c = W r c) → view n cols aug W.
Proof. intros [Hl HV] H. split; [done|]. intros. rewrite HV by done. auto. Qed.

Lemma for_range_S {T} n (body : T → nat → T) s :
  for_range (S n) body s = body (for_range n body s) n.
Proof. unfold for_range. by rewrite seq_S, foldl_app. Qed.

(** A loop over the columns that rewrites row [r] from the current column. *)
Lemma view_row_loop n cols aug V r (f : list byte → nat → byte) (g : nat → byte) k :
  view n cols aug V → r < n → k ≤ cols →
  (∀ aug' c, c < k →
     view n cols aug' (λ r' c', if decide (r' = r ∧ c' < c) then g c' else V r' c') →
     f aug' c = g c) →
  view n cols (for_range k (λ aug c, <[r * cols + c := f aug c]> aug) aug)
    (λ r' c', if decide (r' = r ∧ c' < k) then g c' else V r' c').
Proof.
  intros HV Hr. induction k as [|k IH]; intros Hk Hf.
  - eapply view_ext; [exact HV|]. intros. rewrite decide_False by lia. done.
  - rewrite for_range_S. assert (HIH : _) by (apply IH; [lia|intros; apply Hf; [lia|done]]).
    rewrite (Hf _ k) by (done || lia).
    eapply view_ext; [apply view_insert; [exact HIH|done|lia]|].
    intros r' c' Hr' Hc'. cbv beta.
    destruct (decide (r' = r ∧ c' = k)) as [[-> ->]|].
    + rewrite decide_True by lia. done.
    + destruct (decide (r' = r ∧ c' < k)), (decide (r' = r ∧ c' < S k)); try done; lia.
Qed.

(** ** The three row operations on views *)

Lemma view_swap n cols aug V i j k :
  view n cols aug V → i < n → j < n → i ≠ j → k ≤ cols →
  view n cols (for_range k (λ aug c, swap aug (i * cols + c) (j * cols + c)) aug)
    (λ r c, if decide (c < k) then
              if decide (r = i) then V j c else if decide (r = j) then V i c else V r c
            else V r c).
Proof.
  intros HV Hi Hj Hij. induction k as [|k IH]; intros Hk.
  - eapply view_ext; [exact HV|]. intros. by rewrite decide_False by lia.
  - rewrite for_range_S. specialize (IH ltac:(lia)). unfold swap.
    set (aug' := for_range k _ aug) in *.
    assert (Hx : aug' !!! (i * cols + k) = V i k)
      by (rewrite (proj2 IH) by lia; by rewrite decide_False by lia).
    assert (Hy : aug' !!! (j * cols + k) = V j k)
      by (rewrite (proj2 IH) by lia; by rewrite decide_False by lia).
    rewrite Hx, Hy.
    eapply view_ext;
      [apply view_insert; [apply view_insert; [exact IH|lia..]|lia..]|].
    intros r c Hr Hc. cbv beta. repeat case_decide; try done; try lia;
      repeat match goal with H : _ ∧ _ |- _ => destruct H end; subst; try done; lia.
Qed.

Lemma view_swap_rows n cols aug V col pivot :
  view n cols aug V → col < n → pivot < n →
  view n cols (swap_rows cols col pivot aug)
    (λ r c, if decide (r = col) then V pivot c
            else if decide (r = pivot) then V col c else V r c).
Proof.
  intros HV Hc Hp. unfold swap_rows. destruct (Nat.eqb_spec pivot col) as [->|Hne].
  - eapply view_ext; [exact HV|]. intros. repeat case_decide; by subst.
  - eapply view_ext; [by apply view_swap; try done; lia|].
    intros r c Hr Hcc. cbv beta. by rewrite decide_True by done.
Qed.

Lemma view_scale_row n cols aug V col :
  view n cols aug V → col < n → col < cols →
  view n cols (scale_row cols col aug)
    (λ r c, if decide (r = col) then gf_div (V col c) (V col col) else V r c).
Proof.
  intros HV Hn Hc. unfold scale_row. rewrite (proj2 HV) by done.
  eapply view_ext; [eapply (view_row_loop _ _ _ _ _ _
    (λ c, gf_div (V col c) (V col col))); [exact HV|done|reflexivity|]|].
  - intros aug' c Hcc HV'. rewrite (proj2 HV') by lia. by rewrite decide_False by lia.
  - intros r c Hr Hcc. cbv beta. repeat case_decide; (done || lia).
Qed.

Lemma view_eliminate_row n cols aug V col r :
  view n cols aug V → col < n → r < n → col < cols → r ≠ col →
  view n cols (eliminate_row cols col r aug)
    (λ r' c, if decide (r' = r) then gf_add (V r c) (gf_mul (V r col) (V col c))
             else V r' c).
Proof.
  intros HV Hn Hr Hc Hne. unfold eliminate_row.
  rewrite (proj2 (Nat.eqb_neq _ _)) by done. rewrite (proj2 HV) by done.
  case_bool_decide as E.
  - eapply view_ext; [exact HV|]. intros r' c _ _. case_decide as D; [|done].
    subst. rewrite E. ring.
  - eapply view_ext; [eapply (view_row_loop _ _ _ _ _ _
      (λ c, gf_add (V r c) (gf_mul (V r col) (V col c)))); [exact HV|done|reflexivity|]|].
    + intros aug' c Hcc HV'. rewrite !(proj2 HV') by lia. by rewrite !decide_False by lia.
    + intros r' c Hr' Hcc. cbv beta. repeat case_decide; (done || lia).
Qed.

Lemma view_eliminate_rows n cols aug V col k :
  view n cols aug V → col < n → col < cols → k ≤ n →
  view n cols (for_range k (λ aug r, eliminate_row cols col r aug) aug)
    (λ r c, if decide (r < k ∧ r ≠ col)
            then gf_add (V r c) (gf_mul (V r col) (V col c)) else V r c).
Proof.
  intros HV Hn Hc. induction k as [|k IH]; intros Hk.
  - eapply view_ext; [exact HV|]. intros. by rewrite decide_False by lia.
  - rewrite for_range_S. specialize (IH ltac:(lia)). destruct (decide (k = col)) as [->|Hne].
    + unfold eliminate_row at 1. rewrite Nat.eqb_refl.
      eapply view_ext; [exact IH|]. intros. cbv beta. repeat case_decide; (done || lia).
    + eapply view_ext; [apply view_eliminate_row; [exact IH|lia..]|].
      intros r c Hr Hcc. cbv beta. repeat case_decide; subst; (done || lia).
Qed.

(** ** The invariant of the elimination *)
Section elimination.
Context (n : nat) (M : nat → nat → byte).
Implicit Types (V : nat → nat → byte) (row v : nat → byte).

(** A row of [[L | R]] with [L = R M], and a row orthogonal to [v]. *)
Definition consistent row : Prop :=
  ∀ c, c < n → gsum (seq 0 n) (λ k, gf_mul (row (n + k)) (M k c)) = row c.
Definition orthogonal v row : Prop :=
  gsum (seq 0 n) (λ c, gf_mul (row c) (v c)) = x00.

Lemma consistent_combine a b row1 row2 :
  consistent row1 → consistent row2 →
  consistent (λ c, gf_add (gf_mul a (row1 c)) (gf_mul b (row2 c))).
Proof.
  intros H1 H2 c Hc. rewrite <- H1, <- H2, <- !gsum_mul_l, <- gsum_add by done.
  apply gsum_ext. intros k _. ring.
Qed.
Lemma orthogonal_combine v a b row1 row2 :
  orthogonal v row1 → orthogonal v row2 →
  orthogonal v (λ c, gf_add (gf_mul a (row1 c)) (gf_mul b (row2 c))).
Proof.
  unfold orthogonal. intros H1 H2.
  transitivity (gf_add (gf_mul a (gsum (seq 0 n) (λ c, gf_mul (row1 c) (v c))))
                  (gf_mul b (gsum (seq 0 n) (λ c, gf_mul (row2 c) (v c))))).
  - rewrite <- !gsum_mul_l, <- gsum_add. apply gsum_ext. intros k _. ring.
  - rewrite H1, H2. ring.
Qed.
Lemma consistent_ext row1 row2 :
  consistent row1 → (∀ c, c < n * 2 → row1 c = row2 c) → consistent row2.
Proof.
  intros H1 H c Hc. rewrite <- H, <- H1 by lia. apply gsum_ext.
  intros k Hk%elem_of_seq. rewrite H by lia. done.
Qed.
Lemma orthogonal_ext v row1 row2 :
  orthogonal v row1 → (∀ c, c < n * 2 → row1 c = row2 c) → orthogonal v row2.
Proof.
  unfold orthogonal. intros H1 H. rewrite <- H1. apply gsum_ext.
  intros c Hc%elem_of_seq. by rewrite H by lia.
Qed.

Record invariant (col : nat) V : Prop := {
  inv_consistent r : r < n → consistent (V r);
  inv_kernel v : (∀ r, r < n → orthogonal v (V r)) → ∀ r, r < n → orthogonal v (M r);
  inv_unit r c : r < n → c < col → V r c = if decide (r = c) then x01 else x00;
}.

(** The matrix after one round with the given pivot. *)
Definition swapped col pivot V r : nat → byte :=
  if decide (r = col) then V pivot else if decide (r = pivot) then V col else V r.
Definition scaled col V r : nat → byte :=
  if decide (r = col) then λ c, gf_div (V col c) (V col col) else V r.
Definition eliminated col V r : nat → byte :=
  if decide (r < n ∧ r ≠ col) then λ c, gf_add (V r c) (gf_mul (V r col) (V col c))
  else V r.

Lemma invariant_swapped col pivot V :
  invariant col V → col ≤ pivot < n → invariant col (swapped col pivot V).
Proof.
  intros [H1 H2 H3] Hp. split.
  - intros r Hr. unfold swapped. repeat case_decide; apply H1; lia.
  - intros v Hv. apply H2. intros r Hr. unfold swapped in Hv.
    destruct (decide (r = col)) as [->|]; [|destruct (decide (r = pivot)) as [->|]].
    + specialize (Hv pivot ltac:(lia)). rewrite (decide_True (P := pivot = pivot)) in Hv
        by done. case_decide; [by subst|done].
    + specialize (Hv col ltac:(lia)). by rewrite decide_True in Hv.
    + specialize (Hv r Hr). by rewrite !decide_False in Hv.
  - intros r c Hr Hc. unfold swapped. repeat case_decide; subst; rewrite ?H3 by lia;
      repeat case_decide; (done || lia).
Qed.
Lemma invariant_scaled col V :
  invariant col V → col < n → V col col ≠ x00 → invariant col (scaled col V).
Proof.
  intros [H1 H2 H3] Hc Hd. split.
  - intros r Hr. unfold scaled. case_decide as E; [|by apply H1].
    eapply consistent_ext; [apply (consistent_combine (gf_div x01 (V col col)) x00
      (V col) (V col)); by apply H1|].
    intros c _. cbv beta. rewrite (gf_div_inv (V col c)) by done. ring.
  - intros v Hv. apply H2. intros r Hr. specialize (Hv r Hr). unfold scaled in Hv.
    case_decide as E; [|done]. subst.
    eapply orthogonal_ext; [apply (orthogonal_combine v (V col col) x00 _ _ Hv Hv)|].
    intros c _. cbv beta. rewrite <- (gf_div_mul (V col c) (V col col)) at 3 by done.
    ring.
  - intros r c Hr Hcc. unfold scaled. case_decide; [|by apply H3]. subst.
    rewrite (H3 col c) by lia. rewrite !decide_False by lia. apply gf_div_0_l.
Qed.
Lemma invariant_eliminated col V :
  invariant col V → col < n → V col col = x01 → invariant (S col) (eliminated col V).
Proof.
  intros [H1 H2 H3] Hc Hd. split.
  - intros r Hr. unfold eliminated. case_decide as E; [|by apply H1].
    eapply consistent_ext; [apply (consistent_combine x01 (V r col) (V r) (V col));
      by apply H1|]. intros c _. cbv beta. ring.
  - intros v Hv. apply H2. intros r Hr. unfold eliminated in Hv.
    assert (Hcol : orthogonal v (V col))
      by (specialize (Hv col Hc); by rewrite decide_False in Hv by lia).
    specialize (Hv r Hr). case_decide as E; [|done].
    eapply orthogonal_ext; [apply (orthogonal_combine v x01 (V r col) _ _ Hv Hcol)|].
    intros c _. cbv beta.
    transitivity (gf_add (V r c) (gf_add (gf_mul (V r col) (V col c))
      (gf_mul (V r col) (V col c)))); [ring|]. rewrite gf_add_diag. ring.
  - intros r c Hr Hcc. unfold eliminated. case_decide as E; cbv beta.
    + destruct (decide (c = col)) as [->|].
      * rewrite Hd, gf_mul_comm, gf_mul_1_l, decide_False by lia. apply gf_add_diag.
      * rewrite (H3 col c), (H3 r c) by lia. rewrite (decide_False (P := col = c)) by lia.
        by rewrite gf_mul_0_r, gf_add_0_r.
    + assert (r = col) as -> by lia.
      destruct (decide (c = col)) as [->|]; [by rewrite decide_True|by apply H3; lia].
Qed.

(** Without a pivot, the column gives a vector in the kernel. *)
Lemma kernel_vector col V :
  invariant col V → col < n → (∀ r, col ≤ r < n → V r col = x00) →
  ∃ v, (∀ r, r < n → orthogonal v (M r)) ∧ v col ≠ x00.
Proof.
  intros [H1 H2 H3] Hc Hz.
  exists (λ c, if decide (c < col) then V c col else if decide (c = col) then x01 else x00).
  split; [|rewrite decide_False, decide_True by lia; done].
  apply H2. intros r Hr. unfold orthogonal.
  transitivity (gsum (seq 0 n)
    (λ c, gf_add (if decide (c = r ∧ r < col) then V r col else x00)
                 (if decide (c = col) then V r col else x00))).
  - apply gsum_ext. intros c Hcn%elem_of_seq.
    destruct (decide (c < col)) as [Hlt|Hge].
    + rewrite H3 by lia. rewrite (decide_False (P := c = col)) by lia.
      destruct (decide (r = c)) as [->|]; [rewrite decide_True by lia; ring|].
      rewrite decide_False by lia. ring.
    + rewrite (decide_False (P := c = r ∧ r < col)) by lia.
      destruct (decide (c = col)) as [->|]; ring.
  - rewrite gsum_add.
    rewrite (gsum_single (seq 0 n) col (λ c, if decide (c = col) then V r col else x00));
      [|apply NoDup_seq|apply elem_of_seq; lia|intros; by rewrite decide_False].
    rewrite decide_True by done. destruct (decide (r < col)).
    + rewrite (gsum_single (seq 0 n) r); [|apply NoDup_seq|apply elem_of_seq; lia|].
      * rewrite decide_True by done. apply gf_add_diag.
      * intros; rewrite decide_False by lia; done.
    + rewrite gsum_0 by (intros; rewrite decide_False by lia; done).
      rewrite Hz by lia. apply gf_add_0_l.
Qed.

(** One round: a better matrix, or a proof that there is no inverse. *)
Definition singular : Prop :=
  ∃ v, (∀ r, r < n → orthogonal v (M r)) ∧ ∃ c, c < n ∧ v c ≠ x00.

Lemma eliminate_column_step aug V col :
  view n (n * 2) aug V → invariant col V → col < n →
  match eliminate_column n (n * 2) col aug with
  | Ok aug' => ∃ V', view n (n * 2) aug' V' ∧ invariant (S col) V'
  | Err _ => singular
  | Panic => False
  end.
Proof.
  intros HV Hinv Hc. unfold eliminate_column.
  destruct (List.find _ _) as [pivot|] eqn:E; cbn [ok_or mbind result_bind].
  - apply List.find_some in E as [Hin%in_seq Hnz].
    apply negb_true_iff, bool_decide_eq_false in Hnz. rewrite (proj2 HV) in Hnz by lia.
    pose proof (view_swap_rows n (n * 2) aug V col pivot HV Hc ltac:(lia)) as HV1.
    set (V1 := swapped col pivot V).
    assert (Hinv1 : invariant col V1) by (apply invariant_swapped; [done|lia]).
    assert (Hd : V1 col col ≠ x00) by (unfold V1, swapped; by rewrite decide_True).
    pose proof (invariant_scaled col V1 Hinv1 Hc Hd) as Hinv2.
    assert (Hd2 : scaled col V1 col col = x01)
      by (unfold scaled; rewrite decide_True by done; by apply gf_div_diag).
    eexists. split; [|apply (invariant_eliminated col _ Hinv2 Hc Hd2)].
    assert (HV1' : view n (n * 2) (swap_rows (n * 2) col pivot aug) V1).
    { eapply view_ext; [exact HV1|]. intros r c _ _. unfold V1, swapped.
      by repeat case_decide. }
    pose proof (view_scale_row _ _ _ _ col HV1' Hc ltac:(lia)) as HV2.
    assert (HV2' : view n (n * 2) (scale_row (n * 2) col
      (swap_rows (n * 2) col pivot aug)) (scaled col V1)).
    { eapply view_ext; [exact HV2|]. intros r c _ _. unfold scaled. by case_decide. }
    eapply view_ext; [apply (view_eliminate_rows n _ _ _ col n HV2' Hc); lia|].
    intros r c _ _. cbv beta. unfold eliminated. by case_decide.
  - destruct (kernel_vector col V Hinv Hc) as (v & Hv & Hnz).
    + intros r Hr. pose proof (List.find_none _ _ E r) as Hf.
      specialize (Hf ltac:(apply in_seq; lia)).
      apply negb_false_iff, bool_decide_eq_true in Hf. by rewrite (proj2 HV) in Hf by lia.
    + exists v. eauto.
Qed.
Lemma eliminate_loop_steps k aug V col :
  view n (n * 2) aug V → invariant col V → col + k = n →
  match eliminate_loop n (n * 2) (seq col k) aug with
  | Ok aug' => ∃ V', view n (n * 2) aug' V' ∧ invariant n V'
  | Err _ => singular
  | Panic => False
  end.
Proof.
  revert aug V col. induction k as [|k IH]; intros aug V col HV Hinv Hk.
  - cbn. exists V. split; [done|]. by assert (col = n) as <- by lia.
  - cbn [seq eliminate_loop].
    pose proof (eliminate_column_step aug V col HV Hinv ltac:(lia)) as Hs.
    destruct (eliminate_column n (n * 2) col aug) as [aug'| |]; [|done..].
    destruct Hs as (V' & HV' & Hinv'). cbn [mbind result_bind].
    apply (IH aug' V'); [done..|lia].
Qed.
End elimination.

(** ** Building the augmented matrix and reading the result *)

Lemma view_const n cols v : view n cols (replicate (n * cols) v) (λ _ _, v).
Proof.
  split; [apply length_replicate|]. intros r c Hr Hc.
  apply lookup_total_replicate_2. by apply index_in_range.
Qed.
Definition identity_right (n : nat) (M : nat → nat → byte) (r c : nat) : byte :=
  if decide (c < n) then M r c else if decide (c = n + r) then x01 else x00.

Lemma view_augment m :
  view (size m) (size m * 2) (augment m) (identity_right (size m) (get m)).
Proof.
  unfold augment. set (n := size m).
  assert (H : ∀ k, k ≤ n →
    view n (n * 2)
      (for_range k
         (λ aug r,
            let aug := for_range n (λ aug c, <[r * (n * 2) + c := get m r c]> aug) aug in
            <[r * (n * 2) + n + r := x01]> aug) (replicate (n * (n * 2)) x00))
      (λ r c, if decide (r < k) then identity_right n (get m) r c else x00)).
  { induction k as [|k IH]; intros Hk.
    - eapply view_ext; [apply view_const|]. intros. by rewrite decide_False by lia.
    - rewrite for_range_S. specialize (IH ltac:(lia)). cbv zeta.
      rewrite <- Nat.add_assoc. eapply view_ext; [apply view_insert;
        [eapply (view_row_loop _ _ _ _ k _ (get m k) n); [exact IH|lia..|done]|lia..]|].
      intros r c Hr Hc. cbv beta. unfold identity_right.
      destruct (decide (r = k)) as [->|]; repeat case_decide; try done; try lia;
        repeat match goal with H : _ ∧ _ |- _ => destruct H end; subst; (done || lia). }
  eapply view_ext; [by apply H|]. intros r c Hr Hc. cbv beta. by rewrite decide_True.
Qed.

Lemma invariant_augment n M : invariant n M 0 (identity_right n M).
Proof.
  unfold identity_right. split.
  - intros r Hr c Hc. rewrite decide_True by done.
    rewrite (gsum_single _ r).
    + rewrite decide_False, decide_True by lia. ring.
    + apply NoDup_seq.
    + apply elem_of_seq. lia.
    + intros k Hk Hne. rewrite !decide_False by lia. ring.
  - intros v Hv r Hr. unfold orthogonal in *. rewrite <- (Hv r Hr). apply gsum_ext.
    intros c Hc%elem_of_seq. by rewrite decide_True by lia.
  - lia.
Qed.

Lemma set_loop inv r k (f : nat → byte) :
  for_range k (λ inv c, set inv r c (f c)) inv
  = {| size := size inv;
       mdata := for_range k (λ d c, <[r * size inv + c := f c]> d) (mdata inv) |}.
Proof.
  induction k as [|k IH]; [by destruct inv|]. rewrite !for_range_S, IH. done.
Qed.
Lemma view_extract n (f : nat → nat → byte) :
  let inv := for_range n (λ inv r, for_range n (λ inv c, set inv r c (f r c)) inv) (zeroes n) in
  size inv = n ∧ view n n (mdata inv) f.
Proof.
  cbv zeta. assert (H : ∀ k, k ≤ n →
    let inv := for_range k (λ inv r, for_range n (λ inv c, set inv r c (f r c)) inv)
                 (zeroes n) in
    size inv = n ∧ view n n (mdata inv) (λ r c, if decide (r < k) then f r c else x00)).
  { induction k as [|k IH]; intros Hk; cbv zeta.
    - split; [done|]. eapply view_ext; [apply view_const|].
      intros. by rewrite decide_False by lia.
    - rewrite for_range_S. destruct (IH ltac:(lia)) as [Hs HV]. rewrite set_loop, Hs.
      split; [done|]. cbn [mdata].
      eapply view_ext; [eapply (view_row_loop _ _ _ _ k _ (f k) n); [exact HV|lia..|done]|].
      intros r c Hr Hc. cbv beta. repeat case_decide; try done; try lia.
      repeat match goal with H : _ ∧ _ |- _ => destruct H end; subst; done. }
  destruct (H n ltac:(lia)) as [Hs HV]. split; [done|].
  eapply view_ext; [exact HV|]. intros r c Hr Hc. cbv beta. by rewrite decide_True.
Qed.

(** The product of a matrix and a vector of bytes. *)
Definition dot (m : GfMatrix) (v : nat → byte) (r : nat) : byte :=
  gsum (seq 0 (size m)) (λ c, gf_mul (get m r c) (v c)).
Definition nonsingular (m : GfMatrix) : Prop :=
  ∀ v, (∀ r, r < size m → dot m v r = x00) → ∀ c, c < size m → v c = x00.

Lemma invert_cases m :
  match invert m with
  | Ok inv => size inv = size m ∧
      ∀ r c, r < size m → c < size m →
        gsum (seq 0 (size m)) (λ k, gf_mul (get inv r k) (get m k c))
        = if decide (r = c) then x01 else x00
  | Err _ => ¬ nonsingular m
  | Panic => False
  end.
Proof.
  unfold invert. set (n := size m).
  pose proof (eliminate_loop_steps n (get m) n _ _ 0 (view_augment m)
    (invariant_augment n (get m)) eq_refl) as H.
  destruct (eliminate_loop n (n * 2) (seq 0 n) (augment m)) as [aug| |]; [| |done].
  - cbn [mbind result_bind]. destruct H as (V & HV & Hinv).
    destruct (view_extract n (λ r c, aug !!! (r * (n * 2) + n + c))) as [Hs HVi].
    set (inv := for_range n _ (zeroes n)) in *. split; [done|]. intros r c Hr Hc.
    rewrite <- (inv_unit _ _ _ _ Hinv r c Hr Hc), <- (inv_consistent _ _ _ _ Hinv r Hr c Hc).
    apply gsum_ext. intros k Hk%elem_of_seq. f_equal. unfold get. rewrite Hs.
    rewrite (proj2 HVi) by lia. rewrite <- Nat.add_assoc. apply (proj2 HV); lia.
  - intros Hns. destruct H as (v & Hv & c & Hc & Hnz). apply Hnz, Hns; [|done]. done.
Qed.

(** Applying a left inverse solves the system. *)
Definition left_inverse (inv m : GfMatrix) : Prop :=
  ∀ r c, r < size m → c < size m →
    gsum (seq 0 (size m)) (λ k, gf_mul (get inv r k) (get m k c))
    = if decide (r = c) then x01 else x00.
Lemma left_inverse_solve inv m v c :
  left_inverse inv m → c < size m →
  gsum (seq 0 (size m)) (λ k, gf_mul (get inv c k) (dot m v k)) = v c.
Proof.
  intros HI Hc. unfold dot.
  transitivity (gsum (seq 0 (size m)) (λ j,
    gsum (seq 0 (size m)) (λ k, gf_mul (v j) (gf_mul (get inv c k) (get m k j))))).
  - rewrite <- gsum_exchange. apply gsum_ext. intros k _. rewrite <- gsum_mul_l.
    apply gsum_ext. intros j _. ring.
  - rewrite (gsum_single _ c); [|apply NoDup_seq|apply elem_of_seq; lia|].
    + rewrite gsum_mul_l, HI, decide_True by done. ring.
    + intros j Hj%elem_of_seq Hne. rewrite gsum_mul_l, HI, decide_False by (done || lia).
      apply gf_mul_0_r.
Qed.
Lemma left_inverse_nonsingular inv m : left_inverse inv m → nonsingular m.
Proof.
  intros HI v Hv c Hc. rewrite <- (left_inverse_solve inv m v c HI Hc).
  apply gsum_0. intros k Hk%elem_of_seq. rewrite Hv by lia. apply gf_mul_0_r.
Qed.
Lemma invert_nonsingular m :
  nonsingular m → ∃ inv, invert m = Ok inv ∧ size inv = size m ∧ left_inverse inv m.
Proof.
  intros Hn. pose proof (invert_cases m) as H.
  destruct (invert m) as [inv| |]; [|done..]. eauto.
Qed.

(** Inversion succeeds exactly on the matrices with trivial kernel; it
    never panics, and the matrix it returns is a left inverse. *)
Theorem invert_spec m :
  no_panic (invert m)
  ∧ (is_ok (invert m) = true ↔ nonsingular m)
  ∧ (∀ inv, invert m = Ok inv → size inv = size m ∧ left_inverse inv m).
Proof.
  pose proof (invert_cases m) as H. unfold no_panic.
  destruct (invert m) as [inv| |] eqn:E; [| |done].
  - destruct H as [Hs HI]. split_and!; [done| |by intros ? [= <-]].
    split; [intros _; by eapply left_inverse_nonsingular|done].
  - split_and!; [done| |done]. split; [done|]. intros Hn. by destruct H.
Qed.

Definition sample_matrix : GfMatrix := {| size := 2; mdata := [x01; x02; x03; x04] |}.
Lemma invert_spec_witness : nonsingular sample_matrix.
Proof. apply (invert_spec sample_matrix). by vm_compute. Defined.

(** ** Symbol arithmetic *)

Lemma length_axpy coeff dst src : length (axpy coeff dst src) = length dst.
Proof.
  revert src. induction dst as [|d dst IH]; intros [|s src]; cbn; [done..|]. by rewrite IH.
Qed.
Lemma lookup_axpy coeff dst src i :
  length src = length dst → i < length dst →
  axpy coeff dst src !!! i = gf_add (dst !!! i) (gf_mul coeff (src !!! i)).
Proof.
  revert src i. induction dst as [|d dst IH]; intros [|s src] [|i] Hl Hi;
    cbn in *; try lia; [done|]. apply IH; lia.
Qed.
Lemma length_accumulate dst terms : length (accumulate dst terms) = length dst.
Proof.
  revert dst. induction terms as [|[coeff src] terms IH]; intros dst; [done|].
  cbn. rewrite IH. case_bool_decide; [done|]. apply length_axpy.
Qed.
Lemma lookup_accumulate dst terms i :
  Forall (λ t, length t.2 = length dst) terms → i < length dst →
  accumulate dst terms !!! i
  = gf_add (dst !!! i) (gsum terms (λ t, gf_mul t.1 (t.2 !!! i))).
Proof.
  intros Hl Hi. revert dst Hl Hi.
  induction terms as [|[coeff src] terms IH]; intros dst Hl Hi; [cbn; by rewrite gf_add_0_r|].
  apply Forall_cons in Hl as [Hs Hl]. cbn in Hs. rewrite gsum_cons. cbn [fst snd].
  cbn [accumulate foldl]. fold (accumulate (if bool_decide (coeff = x00) then dst
    else axpy coeff dst src) terms).
  rewrite IH by (case_bool_decide; rewrite ?length_axpy; done).
  case_bool_decide as E; [subst; ring|]. rewrite lookup_axpy by done. ring.
Qed.

Lemma gsum_imap {A B} `{Inhabited A} (h : nat → A → B) l f :
  gsum (imap h l) f = gsum (seq 0 (length l)) (λ c, f (h c (l !!! c))).
Proof.
  revert h. induction l as [|x l IH]; intros h; [done|].
  cbn [imap length seq]. rewrite !gsum_cons, IH. f_equal.
  rewrite <- fmap_S_seq, gsum_fmap. done.
Qed.
Lemma lookup_mat_vec_mul mat vecs ss r i :
  length vecs = size mat → Forall (λ v, length v = ss) vecs → r < size mat → i < ss →
  length (mat_vec_mul mat vecs ss) = size mat
  ∧ length (mat_vec_mul mat vecs ss !!! r) = ss
  ∧ (mat_vec_mul mat vecs ss !!! r) !!! i
    = gsum (seq 0 (size mat)) (λ c, gf_mul (get mat r c) ((vecs !!! c) !!! i)).
Proof.
  intros Hl Hv Hr Hi. unfold mat_vec_mul. rewrite length_fmap, length_seq.
  rewrite (list_lookup_total_alt (_ <$> _)), list_lookup_fmap, lookup_seq_lt by done.
  cbn [fmap option_fmap option_map default from_option id Nat.add].
  rewrite length_accumulate, length_replicate. split_and!; [done..|].
  rewrite lookup_accumulate.
  - rewrite lookup_total_replicate_2, gf_add_0_l by done.
    by rewrite (gsum_imap (A := list byte)), Hl.
  - rewrite length_replicate. apply Forall_lookup. intros j t Ht.
    rewrite list_lookup_imap, fmap_Some in Ht. destruct Ht as (v & Hj & ->).
    cbn. by eapply Forall_lookup in Hv.
  - by rewrite length_replicate.
Qed.

End GfMatrix.
