(* ===== verification/FecBlocks.v ===== *)
(** * Units, groups and erasures

    What the two codecs of [crates/sar-fec] share: reading a zero-padded block or
    symbol ([block_bytes] of [xor.rs], [extract_symbol] of [rs/mod.rs]), writing
    one, and collecting the erasures of a group.  The main lemma is [patch]: a
    buffer that agrees with the protected bytes outside some units becomes equal
    to them when those units are rewritten. *)

From S2P Require Import Prelude Errors FecTypes.
Import FecTypes.

Module FecBlocks.
#[local] Open Scope nat_scope.

(** [block_bytes] / [extract_symbol] at unit [u]: the buffer they fill. *)
Definition read_unit (data : list byte) (size u : nat) : list byte :=
  let start := u * size in
  if length data <=? start then replicate size x00
  else
    let fin := Nat.min (start + size) (length data) in
    take (fin - start) (drop start data) ++ replicate (size - (fin - start)) x00.

(** [buf[start..start + size].copy_from_slice(content)] at unit [u]. *)
Definition write_unit (buf : list byte) (size u : nat) (content : list byte) : list byte :=
  take (u * size) buf ++ content ++ drop (u * size + size) buf.

(** The erasures of a group, relative to its first unit: the [filter_map] over
    [input.erasures] between [start] and [fin]. *)
Definition group_erasures (start fin : Z) (es : list Erasure) : list nat :=
  omap (λ e,
          if (start <=? index e)%Z && (index e <? fin)%Z
          then Z.to_nat <$> try_from 64 (index e - start)%Z
          else None) es.

(** The copy of the available bytes into a zeroed buffer of [n] bytes. *)
Definition copy_available (n : nat) (available : list byte) : list byte :=
  let copy_len := Nat.min n (length available) in
  take copy_len available ++ drop copy_len (replicate n x00).

(** [for x in todo { ... ? ... }] over a state. *)
Fixpoint for_each {T A} (body : T → A → result FecError.t T) (s : T) (todo : list A)
    : result FecError.t T :=
  match todo with
  | [] => Ok s
  | x :: todo => s ← body s x; for_each body s todo
  end.

(** The rule for counted loops: an invariant that every round preserves. *)
Lemma for_each_range {T} (body : T → nat → result FecError.t T) (P : nat → T → Prop) n s :
  P 0 s → (∀ i s, i < n → P i s → ∃ s', body s i = Ok s' ∧ P (S i) s') →
  ∃ s', for_each body s (seq 0 n) = Ok s' ∧ P n s'.
Proof.
  intros H0 Hstep.
  assert (H : ∀ m k s, k + m = n → P k s →
    ∃ s', for_each body s (seq k m) = Ok s' ∧ P n s').
  { induction m as [|m IH]; intros k s' Hk HP; cbn.
    - exists s'. split; [done|]. by replace n with k by lia.
    - destruct (Hstep k s' ltac:(lia) HP) as (s1 & -> & H1). cbn. apply IH; [lia|done]. }
  by apply (H n 0 s).
Qed.

(** A loop one of whose rounds always fails with [e], and whose other rounds fail
    with [e] or keep the invariant, fails with [e]. *)
Lemma for_each_fails {T A} (body : T → A → result FecError.t T) (P : T → Prop) e todo s :
  P s →
  (∀ s x, x ∈ todo → P s → body s x = Err e ∨ ∃ s', body s x = Ok s' ∧ P s') →
  (∃ x, x ∈ todo ∧ ∀ s, P s → body s x = Err e) →
  for_each body s todo = Err e.
Proof.
  revert s. induction todo as [|x todo IH]; intros s Hs Hstep (y & Hy & Hfail);
    [by apply not_elem_of_nil in Hy|].
  cbn [for_each]. destruct (Hstep s x ltac:(by left) Hs) as [->|(s' & Hb & Hs')]; [done|].
  rewrite Hb. cbn [mbind result_bind]. apply elem_of_cons in Hy as [->|Hy].
  - by rewrite Hfail in Hb.
  - apply IH; [done| |eauto]. intros. apply Hstep; [by right|done].
Qed.

Lemma for_each_no_panic {T A} (body : T → A → result FecError.t T) todo s :
  (∀ s x, x ∈ todo → no_panic (body s x)) → no_panic (for_each body s todo).
Proof.
  revert s. induction todo as [|x todo IH]; intros s H; [done|]. cbn [for_each].
  apply no_panic_bind; [apply H; by left|]. intros s' _. apply IH.
  intros; apply H; by right.
Qed.

(** ** Pointwise reading *)

Lemma list_eq_total (k l : list byte) :
  length k = length l → (∀ i, i < length k → k !!! i = l !!! i) → k = l.
Proof.
  intros Hl H. apply list_eq. intros i. destruct (decide (i < length k)).
  - specialize (H i ltac:(done)). rewrite !list_lookup_total_alt in H.
    destruct (lookup_lt_is_Some_2 k i ltac:(lia)) as [x Hx].
    destruct (lookup_lt_is_Some_2 l i ltac:(lia)) as [y Hy].
    rewrite Hx, Hy in *. by cbn in H; subst.
  - rewrite !lookup_ge_None_2 by lia. done.
Qed.
Lemma lookup_total_ge (l : list byte) i : length l ≤ i → l !!! i = x00.
Proof. intros. rewrite list_lookup_total_alt. by rewrite lookup_ge_None_2. Qed.
Lemma lookup_total_take (l : list byte) n i : i < n → take n l !!! i = l !!! i.
Proof. intros. rewrite !list_lookup_total_alt. by rewrite lookup_take, decide_True. Qed.
Lemma lookup_total_drop (l : list byte) n i : drop n l !!! i = l !!! (n + i).
Proof. rewrite !list_lookup_total_alt. by rewrite lookup_drop. Qed.
Lemma lookup_total_app_cases (k l : list byte) i :
  (k ++ l) !!! i = if decide (i < length k) then k !!! i else l !!! (i - length k).
Proof.
  case_decide; [by apply lookup_total_app_l|apply lookup_total_app_r; lia].
Qed.

Lemma lookup_total_zeros n i : replicate n x00 !!! i = x00.
Proof.
  destruct (decide (i < n)); [by apply lookup_total_replicate_2|].
  apply lookup_total_ge. rewrite length_replicate. lia.
Qed.

Lemma length_read_unit data size u : length (read_unit data size u) = size.
Proof.
  unfold read_unit. case_match eqn:E; [apply length_replicate|].
  apply Nat.leb_gt in E. rewrite length_app, length_take, length_drop, length_replicate.
  lia.
Qed.
Lemma lookup_read_unit data size u i :
  i < size → read_unit data size u !!! i = data !!! (u * size + i).
Proof.
  intros Hi. unfold read_unit. case_match eqn:E.
  - apply Nat.leb_le in E. rewrite lookup_total_zeros, lookup_total_ge by lia. done.
  - apply Nat.leb_gt in E. rewrite lookup_total_app_cases, length_take, length_drop.
    case_decide as D.
    + rewrite lookup_total_take, lookup_total_drop by lia. done.
    + rewrite lookup_total_zeros, lookup_total_ge by lia. done.
Qed.

Lemma length_write_unit buf size u content :
  length content = size → (u + 1) * size ≤ length buf →
  length (write_unit buf size u content) = length buf.
Proof.
  intros. unfold write_unit. rewrite !length_app, length_take, length_drop. nia.
Qed.
Lemma lookup_write_unit buf size u content j :
  length content = size → (u + 1) * size ≤ length buf →
  write_unit buf size u content !!! j
  = if decide (u * size ≤ j < u * size + size) then content !!! (j - u * size)
    else buf !!! j.
Proof.
  intros Hc Hb. unfold write_unit.
  assert (Ht : length (take (u * size) buf) = u * size) by (rewrite length_take; nia).
  rewrite lookup_total_app_cases, Ht. case_decide as D1.
  - rewrite lookup_total_take, decide_False by lia. done.
  - rewrite lookup_total_app_cases, Hc. repeat case_decide; try lia; [done|].
    rewrite lookup_total_drop. f_equal. lia.
Qed.

Lemma div_unit size u j : 0 < size → u * size ≤ j < u * size + size ↔ j / size = u.
Proof.
  intros Hs. split.
  - intros Hj. symmetry. apply (Nat.div_unique j size u (j - u * size)); lia.
  - intros <-. pose proof (Nat.div_mod j size). pose proof (Nat.mod_upper_bound j size).
    lia.
Qed.

(** A buffer built unit by unit from zeros. *)
Definition built (size n i : nat) (f : nat → list byte) (buf : list byte) : Prop :=
  length buf = n * size
  ∧ ∀ u j, u < n → j < size →
      buf !!! (u * size + j) = if decide (u < i) then f u !!! j else x00.
Lemma built_0 size n f : built size n 0 f (replicate (n * size) x00).
Proof.
  split; [apply length_replicate|]. intros u j Hu Hj.
  by rewrite lookup_total_zeros, decide_False by lia.
Qed.
Lemma built_S size n i f buf :
  0 < size → i < n → length (f i) = size → built size n i f buf →
  built size n (S i) f (write_unit buf size i (f i)).
Proof.
  intros Hs Hi Hf [Hl HV]. assert (Hfit : (i + 1) * size ≤ length buf) by nia.
  split; [by rewrite length_write_unit|]. intros u j Hu Hj.
  rewrite lookup_write_unit by done. destruct (decide (u = i)) as [->|Hne].
  - rewrite !decide_True by lia. f_equal. lia.
  - rewrite (decide_False (P := _ ≤ _ < _)), HV by nia.
    repeat case_decide; (done || lia).
Qed.
Lemma built_read size n f buf u :
  built size n n f buf → u < n → length (f u) = size → read_unit buf size u = f u.
Proof.
  intros [Hl HV] Hu Hf. apply list_eq_total; [by rewrite length_read_unit|].
  rewrite length_read_unit. intros j Hj. rewrite lookup_read_unit, HV by done.
  by rewrite decide_True.
Qed.
(** A unit inside the buffer is the plain slice. *)
Lemma read_unit_slice data size u :
  (u + 1) * size ≤ length data → read_unit data size u = take size (drop (u * size) data).
Proof.
  intros Hl. apply list_eq_total.
  - rewrite length_read_unit, length_take, length_drop. nia.
  - rewrite length_read_unit. intros i Hi.
    by rewrite lookup_read_unit, lookup_total_take, lookup_total_drop.
Qed.

(** ** Rewriting the erased units *)

Lemma patch size n (P out : list byte) us :
  0 < size → length P = n * size → length out = n * size →
  (∀ u, u ∈ us → u < n) →
  (∀ j, j < n * size → j / size ∉ us → out !!! j = P !!! j) →
  foldl (λ out u, write_unit out size u (read_unit P size u)) out us = P.
Proof.
  intros Hs HP. revert out. induction us as [|u us IH]; intros out Hout Hus Hagree.
  - cbn [foldl]. apply list_eq_total; [by rewrite HP, Hout|]. rewrite Hout. intros i Hi.
    apply Hagree; [done|apply not_elem_of_nil].
  - cbn [foldl]. assert (Hu : (u + 1) * size ≤ length out)
      by (specialize (Hus u ltac:(by left)); nia).
    apply IH.
    + rewrite length_write_unit; [done|apply length_read_unit|done].
    + intros v Hv. apply Hus. by right.
    + intros j Hj Hnin. rewrite lookup_write_unit by (done || apply length_read_unit).
      case_decide as D.
      * rewrite lookup_read_unit by lia. f_equal. lia.
      * apply Hagree; [done|]. rewrite div_unit in D by done.
        intros [|]%elem_of_cons; done.
Qed.

Lemma length_copy_available n av : length (copy_available n av) = n.
Proof.
  unfold copy_available. rewrite length_app, length_take, length_drop, length_replicate.
  lia.
Qed.
Lemma lookup_copy_available n av j :
  j < n → copy_available n av !!! j = av !!! j.
Proof.
  intros Hj. unfold copy_available. rewrite lookup_total_app_cases, length_take.
  case_decide as D.
  - apply lookup_total_take. lia.
  - rewrite lookup_total_drop, lookup_total_zeros, lookup_total_ge by lia. done.
Qed.

(** ** The erasures of a group *)

Lemma elem_of_group_erasures start fin es u :
  (0 ≤ start → fin - start < 2 ^ 64 → (∀ e, e ∈ es → 0 ≤ index e) →
   u ∈ group_erasures start fin es ↔
     {| index := start + Z.of_nat u |} ∈ es ∧ start + Z.of_nat u < fin)%Z.
Proof.
  intros Hs Hf Hes. unfold group_erasures. rewrite list_elem_of_omap. split.
  - intros ([i] & Hin & H). cbn [index] in H.
    destruct ((start <=? i)%Z && (i <? fin)%Z) eqn:E; [|done].
    rewrite try_from_fits in H by lia. injection H as <-.
    rewrite Z2Nat.id by lia. replace (start + (i - start))%Z with i by lia.
    split; [done|lia].
  - intros [Hin Hlt]. eexists. split; [exact Hin|]. cbn [index].
    replace ((start <=? start + Z.of_nat u)%Z && (start + Z.of_nat u <? fin)%Z) with true
      by lia.
    rewrite try_from_fits by lia. cbn. f_equal. lia.
Qed.
Lemma length_group_erasures start fin es :
  (fin - start < 2 ^ 64)%Z →
  length (group_erasures start fin es)
  = length (filter (λ e, (start <=? index e)%Z && (index e <? fin)%Z = true) es).
Proof.
  intros Hf. unfold group_erasures. induction es as [|e es IH]; [done|].
  rewrite filter_cons. cbn [omap list_omap].
  destruct ((start <=? index e)%Z && (index e <? fin)%Z) eqn:E.
  - rewrite try_from_fits by lia. case_decide; [|congruence]. cbn. by rewrite IH.
  - case_decide; [congruence|done].
Qed.
Lemma NoDup_group_erasures start fin es :
  (0 ≤ start)%Z → NoDup es → NoDup (group_erasures start fin es).
Proof.
  intros Hs. unfold group_erasures. induction 1 as [|e es Hnin Hnd IH]; [constructor|].
  cbn [omap list_omap].
  destruct ((start <=? index e)%Z && (index e <? fin)%Z) eqn:E; [|done].
  destruct (try_from 64 (index e - start)%Z) as [i|] eqn:Et; [|done]. cbn.
  apply try_from_Some in Et as [-> Hlt]. constructor; [|done].
  rewrite list_elem_of_omap. intros (e' & Hin & H).
  destruct ((start <=? index e')%Z && (index e' <? fin)%Z) eqn:E'; [|done].
  destruct (try_from 64 (index e' - start)%Z) as [i'|] eqn:Et'; [|done].
  apply try_from_Some in Et' as [-> _]. cbn in H. injection H as H.
  assert (e = e') as ->; [|done]. destruct e as [i], e' as [i']. cbn in *. f_equal. lia.
Qed.

(** ** Recovery, group by group

    [size] bytes per unit, [k] units per group, [gc] groups. *)
(** What is known of the available bytes, with zeros behind both lists. *)
Lemma agree_total (protected available : list byte) (known : nat → Prop) :
  (∀ i : nat, i < length protected → known i → available !! i = protected !! i) →
  (∀ (i : nat) b, length protected ≤ i → known i → available !! i = Some b → b = x00) →
  ∀ i : nat, known i → available !!! i = protected !!! i.
Proof.
  intros Hin Hout i Hi. destruct (decide (i < length protected)) as [Hl|Hl].
  - by rewrite !list_lookup_total_alt, Hin.
  - rewrite (lookup_total_ge protected) by lia. rewrite list_lookup_total_alt.
    destruct (available !! i) as [b|] eqn:E; [|done]. apply (Hout i); (done || lia).
Qed.

Section recovery.
Context (size k gc : nat) (protected available : list byte) (es : list Erasure).
Context (Hsize : 0 < size) (Hk : 0 < k)
  (Hlen : length protected ≤ gc * k * size)
  (Hbig : (Z.of_nat (gc * k) < 2 ^ 64)%Z)
  (Hnonneg : ∀ e, e ∈ es → (0 ≤ index e)%Z)
  (Hagree : ∀ i : nat,
     ¬ erased es (Z.of_nat i / Z.of_nat size)%Z → available !!! i = protected !!! i).

Definition group_of (g : nat) : list nat :=
  group_erasures (Z.of_nat g * Z.of_nat k) ((Z.of_nat g + 1) * Z.of_nat k) es.
Definition restore (out : list byte) (u : nat) : list byte :=
  write_unit out size u (read_unit protected size u).
Definition writes (g : nat) : list nat := (λ e, g * k + e) <$> group_of g.

Lemma elem_of_group g e :
  g < gc → e ∈ group_of g ↔ {| index := Z.of_nat (g * k + e) |} ∈ es ∧ e < k.
Proof.
  intros Hg. unfold group_of. rewrite elem_of_group_erasures; [|nia..|done].
  replace (Z.of_nat g * Z.of_nat k + Z.of_nat e)%Z with (Z.of_nat (g * k + e)) by lia.
  split; intros [H1 H2]; (split; [done|nia]).
Qed.
Lemma group_lt g e : g < gc → e ∈ group_of g → e < k.
Proof. intros Hg He. by apply elem_of_group in He as [_ ?]. Qed.

(** Outside the erased units the available bytes are the protected ones, with
    the same zero padding. *)
Lemma read_unit_known g c :
  g < gc → c < k → c ∉ group_of g →
  read_unit available size (g * k + c) = read_unit protected size (g * k + c).
Proof.
  intros Hg Hc Hnin. apply list_eq_total; [by rewrite !length_read_unit|].
  rewrite length_read_unit. intros i Hi. rewrite !lookup_read_unit by done.
  apply Hagree. intros He. apply Hnin, elem_of_group; [done|]. split; [|done]. unfold erased in He.
  rewrite <- Nat2Z.inj_div in He.
  replace (((g * k + c) * size + i) / size) with (g * k + c) in He; [done|].
  symmetry. apply div_unit; lia.
Qed.

Lemma restore_patch :
  foldl restore (copy_available (gc * k * size) available) (seq 0 gc ≫= writes)
  = copy_available (gc * k * size) protected.
Proof.
  set (P := copy_available (gc * k * size) protected).
  transitivity (foldl (λ out u, write_unit out size u (read_unit P size u))
    (copy_available (gc * k * size) available) (seq 0 gc ≫= writes)).
  - assert (Hus : ∀ u, u ∈ (seq 0 gc ≫= writes) → u < gc * k).
    { intros u (g & Hu & Hg)%list_elem_of_bind. apply elem_of_seq in Hg.
      apply list_elem_of_fmap in Hu as (e & -> & He%group_lt); [|lia]. nia. }
    revert Hus. generalize (copy_available (gc * k * size) available).
    induction (seq 0 gc ≫= writes) as [|u us IH]; intros out Hus; [done|].
    cbn [foldl]. rewrite <- IH by (intros; apply Hus; by right). f_equal.
    unfold restore. f_equal. apply list_eq_total; [by rewrite !length_read_unit|].
    rewrite length_read_unit. intros i Hi. rewrite !lookup_read_unit by done.
    unfold P. rewrite lookup_copy_available; [done|].
    specialize (Hus u ltac:(by left)). nia.
  - apply (patch size (gc * k)); [done|apply length_copy_available..| |].
    + intros u (g & Hu & Hg)%list_elem_of_bind. apply elem_of_seq in Hg.
      apply list_elem_of_fmap in Hu as (e & -> & He%group_lt); [|lia]. nia.
    + intros j Hj Hnin. unfold P. rewrite !lookup_copy_available by done.
      apply Hagree. intros He. apply Hnin.
      unfold erased in He. rewrite <- Nat2Z.inj_div in He.
      assert (Hu : j / size < gc * k) by (apply Nat.Div0.div_lt_upper_bound; nia).
      pose proof (Nat.div_mod (j / size) k ltac:(lia)) as Hdm.
      pose proof (Nat.mod_upper_bound (j / size) k ltac:(lia)).
      apply list_elem_of_bind. exists (j / size / k).
      assert (Hg : j / size / k < gc) by (apply Nat.Div0.div_lt_upper_bound; lia).
      split; [|apply elem_of_seq; lia]. apply list_elem_of_fmap.
      exists ((j / size) mod k). split; [lia|].
      apply elem_of_group; [done|]. split; [|done].
      by replace (j / size / k * k + (j / size) mod k) with (j / size) by lia.
Qed.

(** A loop that restores the erased units of each group recovers everything. *)
Lemma recover_groups (step : list byte → nat → result FecError.t (list byte)) :
  (∀ out g, g < gc → length out = gc * k * size →
     step out g = Ok (foldl restore out (writes g))) →
  for_each step (copy_available (gc * k * size) available) (seq 0 gc)
  = Ok (copy_available (gc * k * size) protected).
Proof.
  intros Hstep. rewrite <- restore_patch.
  assert (Hlen' := length_copy_available (gc * k * size) available).
  revert Hlen'. generalize (copy_available (gc * k * size) available).
  assert (Hin : ∀ g, g ∈ seq 0 gc → g < gc) by (intros g Hg%elem_of_seq; lia).
  revert Hin. generalize (seq 0 gc) as gs.
  induction gs as [|g gs IH]; intros Hin out Hout; [done|].
  cbn [for_each]. rewrite Hstep by (auto; apply Hin; by left).
  cbn [mbind result_bind list_bind]. rewrite foldl_app. apply IH.
  - intros; apply Hin; by right.
  - assert (Hg : g < gc) by (apply Hin; by left). clear IH.
    assert (Hw : ∀ u, u ∈ writes g → u < gc * k).
    { intros u (e & -> & He%group_lt)%list_elem_of_fmap; [nia|done]. }
    revert out Hout. induction (writes g) as [|u us IHu]; intros out Hout; [done|].
    cbn [foldl]. apply IHu; [intros; apply Hw; by right|].
    unfold restore. specialize (Hw u ltac:(by left)).
    rewrite length_write_unit; [done|apply length_read_unit|nia].
Qed.
Lemma take_protected :
  take (length protected) (copy_available (gc * k * size) protected) = protected.
Proof.
  apply list_eq_total; [rewrite length_take, length_copy_available; lia|].
  rewrite length_take, length_copy_available. intros i Hi.
  rewrite lookup_total_take, lookup_copy_available by lia. done.
Qed.
End recovery.

End FecBlocks.
