(* ===== verification/XorFec.v ===== *)
(** * The XOR codec

    Models [crates/sar-fec/src/xor.rs]: parity stripes over fixed-size blocks.
    The codec discharges the contract [FecLaws]: what it encodes is valid, and
    one known erasure per stripe is recovered exactly.  Wider losses are refused
    ([xor_two_erasures_refused]), and on untrusted metadata nothing panics. *)

From Stdlib Require Import Ring.
From S2P Require Import Prelude Errors FecTypes FecBlocks Gf.
Import FecTypes FecBlocks Gf.

Module XorFec.

Definition MAX_PARITY_SIZE : Z := 256 * 1024 * 1024.
Definition BLOCK_SIZE_TABLE : list (Z * Z) :=
  [(0, 256); (1, 512); (2, 1024); (3, 2048); (4, 4096); (5, 8192); (6, 16384);
   (7, 32768); (8, 65536)].
Definition HEADER_SIZE : Z := 14.

(** [block_size_for_index]. *)
Definition block_size_for_index (index : Z) : result FecError.t Z :=
  match List.find (λ p, fst p =? index) BLOCK_SIZE_TABLE with
  | Some (_, size) => Ok size
  | None => Err (FecError.ReservedValue "XOR block size index is reserved")
  end.

(** [parse_header]: stripe size, block size, protected length, stripe count. *)
Definition parse_header (data : list byte) : result FecError.t (Z * Z * Z * Z) :=
  if len data <? HEADER_SIZE then
    Err (FecError.Truncated "XOR FEC value too short for header")
  else
  b0 ← index_r data 0;
  b1 ← index_r data 1;
  let stripe_size := byte_val b0 in
  let block_size_index := byte_val b1 in
  if stripe_size =? 0 then
    Err (FecError.ReservedValue "XOR stripe size 0x00 is reserved")
  else
  block_size ← block_size_for_index block_size_index;
  opl_bytes ← slice_r data 2 10;
  sc_bytes ← slice_r data 10 14;
  Ok (stripe_size, block_size, le_val opl_bytes, le_val sc_bytes).

(** [ceil_div], [expected_stripe_count], [parity_len]. *)
Definition ceil_div (a b : Z) : result FecError.t Z :=
  if b =? 0 then Err (FecError.Overflow "XOR ceil_div by zero")
  else
    s ← ok_or (checked_add 64 a (b - 1)) (FecError.Overflow "XOR ceil_div overflow");
    Ok (s / b).
Definition expected_stripe_count (original_len stripe_size block_size : Z)
    : result FecError.t Z :=
  effective ← ok_or (checked_mul 64 stripe_size block_size)
                (FecError.Overflow "XOR effective stripe size overflow");
  sc ← ceil_div original_len effective;
  ok_or (try_from 32 sc) (FecError.Overflow "XOR stripe count exceeds u32").
Definition parity_len (stripe_count block_size : Z) : result FecError.t Z :=
  pl ← ok_or (checked_mul 64 stripe_count block_size)
         (FecError.Overflow "XOR parity length overflow");
  ok_or (try_from 64 pl) (FecError.Overflow "XOR parity length exceeds usize").

(** [parse_xor_meta]. *)
Definition parse_xor_meta (data : list byte) : result FecError.t XorMeta :=
  '(stripe_size, block_size, original_len, stripe_count) ← parse_header data;
  parity_data_len ← parity_len stripe_count block_size;
  Ok {| xor_stripe_size := stripe_size; xor_block_size := block_size;
        xor_original_protected_len := original_len;
        xor_stripe_count := stripe_count; xor_parity_data_len := parity_data_len |}.

(** [struct XorCodec], [XorCodec::new], [XorCodec::from_fec_value]. *)
Record XorCodec := { stripe_size : Z; block_size : Z; block_size_index : Z }.
Definition new (stripe_size block_size_index : Z) : result FecError.t XorCodec :=
  if stripe_size =? 0 then
    Err (FecError.ReservedValue "XOR stripe size 0x00 is reserved")
  else
    block_size ← block_size_for_index block_size_index;
    Ok {| stripe_size := stripe_size; block_size := block_size;
          block_size_index := block_size_index |}.
Definition from_fec_value (data : list byte) : result FecError.t XorCodec :=
  if len data <? 2 then Err (FecError.Truncated "XOR FEC value too short for config")
  else b0 ← index_r data 0; b1 ← index_r data 1; new (byte_val b0) (byte_val b1).

(** [block_bytes]: the block it leaves in [buf]. *)
Definition block_bytes (c : XorCodec) (data : list byte) (block_idx : nat)
    : result FecError.t (list byte) :=
  bs ← ok_or (try_from 64 (block_size c))
         (FecError.Overflow "XOR block size exceeds usize");
  _ ← ok_or (checked_mul 64 (Z.of_nat block_idx) bs)
        (FecError.Overflow "XOR block start overflow");
  Ok (read_unit data (Z.to_nat bs) block_idx).

(** [xor_into]. *)
Definition byte_xor (a b : byte) : byte := byte_of (Z.lxor (byte_val a) (byte_val b)).
Fixpoint xor_into (dst src : list byte) : list byte :=
  match dst, src with
  | d :: dst, s :: src => byte_xor d s :: xor_into dst src
  | dst, _ => dst
  end.

Section codec.
Context (c : XorCodec).

(** The loop over the blocks of one stripe, without [skip] when given. *)
Definition xor_blocks (data : list byte) (ss stripe : nat) (skip : option nat)
    (acc : list byte) : result FecError.t (list byte) :=
  for_each
    (λ acc i,
       if bool_decide (skip = Some i) then Ok acc
       else
         block ← block_bytes c data (stripe * ss + i);
         Ok (xor_into acc block))
    acc (seq 0 ss).

(** [XorCodec::encode_recovery]. *)
Definition encode_recovery (protected : list byte) : result FecError.t FecValue :=
  original_len ← ok_or (try_from 64 (len protected))
                   (FecError.Overflow "XOR protected length exceeds u64");
  stripe_count ← expected_stripe_count original_len (stripe_size c) (block_size c);
  pl ← parity_len stripe_count (block_size c);
  if pl >? MAX_PARITY_SIZE then
    Err (FecError.LimitExceeded "XOR parity exceeds implementation limit")
  else
  let ss := Z.to_nat (stripe_size c) in
  bs ← ok_or (try_from 64 (block_size c))
         (FecError.Overflow "XOR block size exceeds usize");
  sc ← ok_or (try_from 64 stripe_count)
         (FecError.Overflow "XOR stripe count exceeds usize");
  _ ← ok_or (checked_mul 64 sc bs)
        (FecError.Overflow "XOR parity allocation overflow");
  let bs := Z.to_nat bs in
  let sc := Z.to_nat sc in
  parity ←
    for_each
      (λ parity stripe,
         p ← xor_blocks protected ss stripe None
               (take bs (drop (stripe * bs) parity));
         Ok (write_unit parity bs stripe p))
      (replicate (sc * bs) x00) (seq 0 sc);
  Ok {| algo_id := FEC_ALGO_XOR;
        data := [byte_of (stripe_size c)] ++ [byte_of (block_size_index c)]
                ++ le_bytes 8 original_len ++ le_bytes 4 stripe_count ++ parity |}.

(** [XorCodec::validate]. *)
Definition validate (fec_value_data : list byte) : result FecError.t unit :=
  '(ss, bs, original_len, stripe_count) ← parse_header fec_value_data;
  if negb (ss =? stripe_size c) || negb (bs =? block_size c) then
    Err (FecError.InvalidLength "XOR config mismatch in validate")
  else
  expected_sc ← expected_stripe_count original_len ss bs;
  if negb (stripe_count =? expected_sc) then
    Err (FecError.InvalidLength "XOR stripe count does not match expected value")
  else
  pl ← parity_len stripe_count bs;
  if pl >? MAX_PARITY_SIZE then
    Err (FecError.LimitExceeded "XOR parity exceeds implementation limit")
  else
  available ← ok_or (checked_sub (len fec_value_data) HEADER_SIZE)
                (FecError.Truncated "XOR FEC value shorter than header");
  if negb (available =? pl) then
    Err (FecError.InvalidLength
           "XOR parity data length does not match Stripe Count × Block Size")
  else Ok tt.

(** One round of the loop of [XorCodec::recover]. *)
Definition recover_stripe (input : FecRecoverInput) (parity : list byte)
    (ss bs : nat) (out : list byte) (stripe : nat) : result FecError.t (list byte) :=
  stripe_start ← ok_or (checked_mul 64 (Z.of_nat stripe) (Z.of_nat ss))
                   (FecError.Overflow "XOR stripe start overflow");
  stripe_end ← ok_or (checked_mul 64 (Z.of_nat stripe + 1) (Z.of_nat ss))
                 (FecError.Overflow "XOR stripe end overflow");
  let stripe_erasures := group_erasures stripe_start stripe_end (erasures input) in
  if (1 <? length stripe_erasures)%nat then
    Err (FecError.EcFailed
           "XOR: more than one erasure per stripe cannot be recovered")
  else
  match stripe_erasures with
  | [] => Ok out
  | erased_in_stripe :: _ =>
      let erased_block_idx := (stripe * ss + erased_in_stripe)%nat in
      p_slice ← slice_r parity (Z.of_nat (stripe * bs)) (Z.of_nat ((stripe + 1) * bs));
      recovered ← xor_blocks (available_data input) ss stripe
                    (Some erased_in_stripe) p_slice;
      let out_end := (erased_block_idx * bs + bs)%nat in
      if (out_end <=? length out)%nat
      then Ok (write_unit out bs erased_block_idx recovered)
      else Ok out
  end.

(** [XorCodec::recover]. *)
Definition recover (input : FecRecoverInput) : result FecError.t (list byte) :=
  '(_, bs, original_len, stripe_count) ← parse_header (fec_value_data input);
  _ ← validate (fec_value_data input);
  if negb (original_len =? original_protected_len input) then
    Err (FecError.InvalidLength "XOR recovery: original_protected_len mismatch")
  else
  sc ← ok_or (try_from 64 stripe_count)
         (FecError.Overflow "XOR stripe count exceeds usize");
  let ss := stripe_size c in
  bs ← ok_or (try_from 64 bs) (FecError.Overflow "XOR block size exceeds usize");
  pl ← parity_len stripe_count bs;
  parity ← slice_r (fec_value_data input) HEADER_SIZE (HEADER_SIZE + pl);
  total ← ok_or (t ← checked_mul 64 sc ss; checked_mul 64 t bs)
            (FecError.Overflow "XOR output length overflow");
  out ← for_each (recover_stripe input parity (Z.to_nat ss) (Z.to_nat bs))
          (copy_available (Z.to_nat total) (available_data input))
          (seq 0 (Z.to_nat sc));
  orig_len ← ok_or (try_from 64 original_len)
               (FecError.Overflow "XOR original_len exceeds usize");
  Ok (take (Z.to_nat orig_len) out).
End codec.

(** [validate_xor_fec_value]. *)
Definition validate_xor_fec_value (data : list byte) : result FecError.t unit :=
  c ← from_fec_value data; validate c data.

#[export] Instance xor_codec : FecCodec XorCodec := {
  FecTypes.algorithm_id _ := FEC_ALGO_XOR;
  FecTypes.encode_recovery := encode_recovery;
  FecTypes.recover := recover;
  FecTypes.validate := validate;
}.
#[export] Instance xor_geometry : FecGeometry XorCodec := {
  unit_size := block_size;
  group_units := stripe_size;
  tolerance _ := 1;
}.

(** ** Configurations and headers *)

Lemma block_size_for_index_Ok i b :
  block_size_for_index i = Ok b → 0 ≤ i ≤ 8 ∧ 256 ≤ b ≤ 65536.
Proof.
  unfold block_size_for_index. destruct (List.find _ _) as [[i' b']|] eqn:E; [|done].
  intros [= ->]. apply List.find_some in E as [Hin Hi]. cbn in Hi.
  apply Z.eqb_eq in Hi as ->. cbn in Hin.
  repeat (destruct Hin as [[= <- <-]|Hin]; [lia|]). done.
Qed.
Lemma block_size_for_index_no_panic i : no_panic (block_size_for_index i).
Proof. unfold block_size_for_index. by destruct (List.find _ _) as [[]|]. Qed.
#[local] Hint Resolve block_size_for_index_no_panic : no_panic.

(** The codecs [new] builds from two bytes. *)
Definition codec_wf (c : XorCodec) : Prop :=
  1 ≤ stripe_size c < 256 ∧ block_size_for_index (block_size_index c) = Ok (block_size c).
Lemma new_codec_wf s i c : 0 ≤ s < 256 → new s i = Ok c → codec_wf c.
Proof.
  intros Hs H. unfold new in H. apply guard_Ok in H as [Hz H].
  apply bind_Ok in H as (b & Hb & H). injection H as <-. split; cbn; [lia|done].
Qed.
Lemma codec_wf_block c : codec_wf c → 0 ≤ block_size_index c ≤ 8 ∧ 256 ≤ block_size c ≤ 65536.
Proof. intros [_ H]. by apply block_size_for_index_Ok. Qed.

Lemma parse_header_no_panic data : no_panic (parse_header data).
Proof.
  unfold parse_header, HEADER_SIZE. dif as E; [done|].
  apply no_panic_bind; [apply index_r_no_panic; lia|]. intros b0 _.
  apply no_panic_bind; [apply index_r_no_panic; lia|]. intros b1 _. dif as E1; [done|].
  apply no_panic_bind; [auto with no_panic|]. intros bs _.
  apply no_panic_bind; [apply slice_r_no_panic; lia|]. intros o _.
  apply no_panic_bind; [apply slice_r_no_panic; lia|]. done.
Qed.

(** What an accepted header satisfies. *)
Lemma parse_header_Ok data ss bs ol sc :
  parse_header data = Ok (ss, bs, ol, sc) →
  14 ≤ len data ∧ 1 ≤ ss < 256 ∧ 256 ≤ bs ≤ 65536 ∧ fits 64 ol ∧ fits 32 sc.
Proof.
  intros H. unfold parse_header, HEADER_SIZE in H. apply guard_Ok in H as [Hl H].
  apply bind_Ok in H as (b0 & _ & H). apply bind_Ok in H as (b1 & _ & H).
  apply guard_Ok in H as [Hz H].
  apply bind_Ok in H as (bs' & Hbs%block_size_for_index_Ok & H).
  apply bind_Ok in H as (o & (-> & Ho)%slice_r_Ok & H).
  apply bind_Ok in H as (n & (-> & Hn)%slice_r_Ok & H). injection H as <- <- <- <-.
  pose proof (byte_val_range b0).
  pose proof (le_val_range (slice data 2 10)) as R1. rewrite len_slice in R1 by lia.
  pose proof (le_val_range (slice data 10 14)) as R2. rewrite len_slice in R2 by lia.
  unfold fits. change (256 ^ (10 - 2)) with (2 ^ 64) in R1.
  change (256 ^ (14 - 10)) with (2 ^ 32) in R2. lia.
Qed.

(** The header the encoder writes. *)
Lemma parse_header_enc c ol sc parity :
  codec_wf c → fits 64 ol → fits 32 sc →
  parse_header ([byte_of (stripe_size c)] ++ [byte_of (block_size_index c)]
                ++ le_bytes 8 ol ++ le_bytes 4 sc ++ parity)
  = Ok (stripe_size c, block_size c, ol, sc).
Proof.
  intros Hc Ho Hs. pose proof (codec_wf_block c Hc) as [Hi Hb]. destruct Hc as [Hss Hbs].
  set (d := [byte_of (stripe_size c)] ++ _).
  assert (Hl : 14 ≤ len d).
  { unfold d. pose proof (len_nonneg parity). autorewrite with len. lia. }
  assert (S1 : slice_r (E:=FecError.t) d 2 10 = Ok (le_bytes 8 ol)).
  { apply slice_r_Ok. split_and!; [|lia..]. symmetry.
    apply (slice_app_mid [_; _] (le_bytes 8 ol) (le_bytes 4 sc ++ parity)). }
  assert (S2 : slice_r (E:=FecError.t) d 10 14 = Ok (le_bytes 4 sc)).
  { apply slice_r_Ok. split_and!; [|lia..]. symmetry.
    apply (slice_app_mid ([_; _] ++ le_bytes 8 ol) (le_bytes 4 sc) parity). }
  unfold parse_header. rewrite (proj2 (Z.ltb_ge _ _)) by (unfold HEADER_SIZE; lia).
  rewrite (index_r_cons d 0 (byte_of (stripe_size c))) by done.
  rewrite (index_r_cons d 1 (byte_of (block_size_index c))) by done.
  cbn [mbind result_bind]. rewrite !byte_val_of_small by lia.
  rewrite (proj2 (Z.eqb_neq _ _)) by lia. rewrite Hbs. cbn [mbind result_bind].
  rewrite S1. cbn [mbind result_bind]. rewrite S2. cbn [mbind result_bind].
  rewrite !le_val_bytes by assumption. done.
Qed.

(** ** Counts *)

Definition stripes (c : XorCodec) (n : Z) : Z :=
  (n + (stripe_size c * block_size c - 1)) / (stripe_size c * block_size c).

Lemma stripe_bytes c : codec_wf c → 256 ≤ stripe_size c * block_size c < 2 ^ 24.
Proof.
  intros Hc. pose proof (codec_wf_block c Hc). destruct Hc as [? _]. nia.
Qed.
Lemma stripes_cover c n :
  codec_wf c → 0 ≤ n → 0 ≤ stripes c n ∧ n ≤ stripes c n * (stripe_size c * block_size c)
    ∧ stripes c n * (stripe_size c * block_size c) < n + stripe_size c * block_size c.
Proof.
  intros Hc Hn. pose proof (stripe_bytes c Hc). unfold stripes.
  set (m := stripe_size c * block_size c) in *.
  pose proof (Z.div_mod (n + (m - 1)) m ltac:(lia)).
  pose proof (Z.mod_pos_bound (n + (m - 1)) m ltac:(lia)).
  pose proof (Z.div_pos (n + (m - 1)) m ltac:(lia) ltac:(lia)). lia.
Qed.
Lemma expected_stripe_count_eq c n :
  codec_wf c → 0 ≤ n < 2 ^ 63 →
  expected_stripe_count n (stripe_size c) (block_size c)
  = if stripes c n <? 2 ^ 32 then Ok (stripes c n)
    else Err (FecError.Overflow "XOR stripe count exceeds u32").
Proof.
  intros Hc Hn. pose proof (stripe_bytes c Hc). unfold expected_stripe_count, ceil_div.
  rewrite checked_mul_fits by lia. cbn [ok_or mbind result_bind].
  rewrite (proj2 (Z.eqb_neq _ _)) by lia.
  rewrite checked_add_fits by lia. cbn [ok_or mbind result_bind].
  fold (stripes c n). unfold try_from. by case_match.
Qed.
Lemma parity_len_eq sc bs :
  sc * bs < 2 ^ 64 → parity_len sc bs = Ok (sc * bs).
Proof.
  intros. unfold parity_len. rewrite checked_mul_fits by done. cbn [ok_or mbind result_bind].
  by rewrite try_from_fits.
Qed.

(** ** Accumulating blocks *)
Section accumulate.
#[local] Open Scope nat_scope.

Lemma length_xor_into dst src : length (xor_into dst src) = length dst.
Proof.
  revert src. induction dst as [|d dst IH]; intros [|s src]; cbn; [done..|]. by rewrite IH.
Qed.
Lemma lookup_xor_into dst src i :
  length src = length dst → i < length dst →
  xor_into dst src !!! i = gf_add (dst !!! i) (src !!! i).
Proof.
  revert src i. induction dst as [|d dst IH]; intros [|s src] [|i] Hl Hi;
    cbn in *; try lia; [done|]. apply IH; lia.
Qed.

(** What a stripe's blocks add up to, without [skip]. *)
Definition others (ss : nat) (skip : option nat) : list nat :=
  filter (λ i, skip ≠ Some i) (seq 0 ss).

Lemma others_None ss : others ss None = seq 0 ss.
Proof.
  unfold others. induction (seq 0 ss) as [|x l IH]; [done|].
  rewrite filter_cons_True by done. by rewrite IH.
Qed.

Lemma gsum_others ss e f :
  e < ss → gsum (seq 0 ss) f = gf_add (f e) (gsum (others ss (Some e)) f).
Proof.
  intros He. unfold others. rewrite gsum_filter_if.
  assert (Hs : gsum (seq 0 ss) (λ i, if decide (i = e) then f i else x00) = f e).
  { rewrite (gsum_single _ e); [by rewrite decide_True|apply NoDup_seq
      |apply elem_of_seq; lia|intros; by rewrite decide_False]. }
  rewrite <- Hs, <- gsum_add. apply gsum_ext. intros i _.
  destruct (decide (i = e)) as [->|Hne].
  - rewrite decide_False by (intros H; by apply H). ring.
  - rewrite decide_True by congruence. ring.
Qed.

Lemma block_bytes_Ok c data idx :
  codec_wf c → (Z.of_nat idx * block_size c < 2 ^ 64)%Z →
  block_bytes c data idx = Ok (read_unit data (Z.to_nat (block_size c)) idx).
Proof.
  intros Hc Hi. pose proof (codec_wf_block c Hc). unfold block_bytes.
  rewrite try_from_fits by lia. cbn [ok_or mbind result_bind].
  by rewrite checked_mul_fits by lia.
Qed.

Lemma xor_blocks_Ok c data ss stripe skip acc :
  codec_wf c → length acc = Z.to_nat (block_size c) →
  (Z.of_nat ((stripe + 1) * ss) * block_size c < 2 ^ 64)%Z →
  ∃ r, xor_blocks c data ss stripe skip acc = Ok r
    ∧ length r = Z.to_nat (block_size c)
    ∧ ∀ j, j < Z.to_nat (block_size c) →
        r !!! j = gf_add (acc !!! j)
          (gsum (others ss skip)
             (λ i, read_unit data (Z.to_nat (block_size c)) (stripe * ss + i) !!! j)).
Proof.
  intros Hc Hl Hb. unfold xor_blocks. pose proof (codec_wf_block c Hc).
  destruct (for_each_range
    (λ acc i,
       if bool_decide (skip = Some i) then Ok acc
       else
         block ← block_bytes c data (stripe * ss + i);
         Ok (xor_into acc block))
    (λ n r, length r = Z.to_nat (block_size c)
      ∧ ∀ j, j < Z.to_nat (block_size c) →
        r !!! j = gf_add (acc !!! j)
          (gsum (others n skip)
             (λ i, read_unit data (Z.to_nat (block_size c)) (stripe * ss + i) !!! j)))
    ss acc) as (r & Hr & HP).
  - split; [done|]. intros j Hj. by rewrite gf_add_0_r.
  - intros i r Hi [Hlr HP]. unfold others. rewrite seq_S, filter_app.
    cbn [Nat.add]. case_bool_decide as E.
    + exists r. split; [done|]. split; [done|]. intros j Hj.
      rewrite filter_cons_False by naive_solver. rewrite app_nil_r. by apply HP.
    + rewrite block_bytes_Ok by (done || nia). eexists. split; [done|].
      rewrite length_xor_into. split; [done|]. intros j Hj.
      rewrite lookup_xor_into, HP by (rewrite ?length_read_unit; lia).
      rewrite filter_cons_True by done. rewrite gsum_app. cbn [gsum foldr].
      rewrite gf_add_0_r. unfold others. ring.
  - exists r. done.
Qed.
End accumulate.

(** ** Encoding *)
Section encode.
Context (c : XorCodec) (protected : list byte).
Context (Hc : codec_wf c) (Hlen : len protected < 2 ^ 63).
#[local] Abbreviation ss := (Z.to_nat (stripe_size c)).
#[local] Abbreviation bs := (Z.to_nat (block_size c)).
#[local] Abbreviation sc := (Z.to_nat (stripes c (len protected))).

(** The parity block of a stripe. *)
Definition parity_block (stripe : nat) : list byte :=
  (λ j, gsum (seq 0 ss) (λ i, read_unit protected bs (stripe * ss + i) !!! j))
  <$> seq 0 bs.
Lemma length_parity_block stripe : length (parity_block stripe) = bs.
Proof. unfold parity_block. by rewrite length_fmap, length_seq. Qed.
Lemma lookup_parity_block stripe j :
  (j < bs)%nat →
  parity_block stripe !!! j
  = gsum (seq 0 ss) (λ i, read_unit protected bs (stripe * ss + i) !!! j).
Proof.
  intros Hj. unfold parity_block.
  rewrite list_lookup_total_alt, list_lookup_fmap, lookup_seq_lt by done. done.
Qed.

Lemma total_bound :
  (stripes c (len protected) * stripe_size c) * block_size c < 2 ^ 63 + 2 ^ 24.
Proof.
  pose proof (stripes_cover c (len protected) Hc (len_nonneg protected)).
  pose proof (stripe_bytes c Hc). lia.
Qed.

(** The indices of a stripe stay within [usize]. *)
Lemma stripe_range stripe :
  (stripe < sc)%nat →
  0 ≤ Z.of_nat stripe * stripe_size c
  ∧ (Z.of_nat stripe + 1) * stripe_size c < 2 ^ 64
  ∧ Z.of_nat ((stripe + 1) * ss) * block_size c < 2 ^ 64
  ∧ (stripe * ss + ss ≤ sc * ss)%nat.
Proof.
  intros Hst. pose proof total_bound as Hb.
  pose proof (codec_wf_block c Hc) as [_ Hbs]. pose proof Hc as [Hss _].
  assert (H1 : Z.of_nat stripe + 1 ≤ stripes c (len protected)) by lia.
  assert (H2 : (Z.of_nat stripe + 1) * stripe_size c
    ≤ stripes c (len protected) * stripe_size c)
    by (apply Z.mul_le_mono_nonneg_r; lia).
  assert (H3 : (Z.of_nat stripe + 1) * stripe_size c * block_size c
    ≤ stripes c (len protected) * stripe_size c * block_size c)
    by (apply Z.mul_le_mono_nonneg_r; lia).
  assert (H4 : (Z.of_nat stripe + 1) * stripe_size c
    ≤ (Z.of_nat stripe + 1) * stripe_size c * block_size c) by nia.
  replace (Z.of_nat ((stripe + 1) * ss)) with ((Z.of_nat stripe + 1) * stripe_size c)
    by (rewrite Nat2Z.inj_mul, Z2Nat.id; lia).
  split_and!; nia.
Qed.

Lemma geometry_facts :
  (0 < bs)%nat ∧ (0 < ss)%nat ∧ (length protected ≤ sc * ss * bs)%nat
  ∧ Z.of_nat (sc * ss) < 2 ^ 64.
Proof.
  pose proof total_bound as Hb. pose proof (len_nonneg protected) as Hn.
  pose proof (codec_wf_block c Hc) as [_ Hbs]. pose proof Hc as [Hss _].
  pose proof (stripes_cover c (len protected) Hc Hn) as (Hs0 & Hcov & _).
  assert (Hz : Z.of_nat (sc * ss) = stripes c (len protected) * stripe_size c)
    by (rewrite Nat2Z.inj_mul, !Z2Nat.id; lia).
  split_and!; [lia..| |rewrite Hz; nia].
  apply Nat2Z.inj_le. rewrite Nat2Z.inj_mul, Hz, Z2Nat.id by lia.
  unfold len in Hcov at 1. lia.
Qed.

Lemma encode_parity :
  ∃ parity,
    for_each
      (λ parity stripe,
         p ← xor_blocks c protected ss stripe None
               (take bs (drop (stripe * bs) parity));
         Ok (write_unit parity bs stripe p))
      (replicate (sc * bs) x00) (seq 0 sc) = Ok parity
    ∧ built bs sc sc parity_block parity.
Proof.
  pose proof total_bound as Hb. pose proof (codec_wf_block c Hc) as [_ Hbs].
  pose proof (stripes_cover c (len protected) Hc (len_nonneg protected)) as [Hs0 _].
  destruct Hc as [Hss _].
  apply (for_each_range _ (λ i, built bs sc i parity_block)); [apply built_0|].
  intros i buf Hi HB. pose proof HB as [Hl HV].
  rewrite <- read_unit_slice by nia.
  destruct (xor_blocks_Ok c protected ss i None (read_unit buf bs i)) as (r & -> & Hlr & Hr);
    [done|apply length_read_unit|by apply stripe_range|].
  cbn [mbind result_bind]. eexists. split; [done|].
  replace r with (parity_block i);
    [by apply built_S; [lia|done|apply length_parity_block|]|].
  apply list_eq_total; [by rewrite length_parity_block|].
  rewrite length_parity_block. intros j Hj. rewrite Hr, lookup_parity_block by done.
  rewrite lookup_read_unit, HV, decide_False, gf_add_0_l by lia. by rewrite others_None.
Qed.

(** The encoder succeeds exactly when the parity stays within the limit. *)
Lemma encode_recovery_cases :
  if stripes c (len protected) * block_size c <=? MAX_PARITY_SIZE then
    ∃ parity, built bs sc sc parity_block parity
      ∧ encode_recovery c protected
        = Ok {| algo_id := FEC_ALGO_XOR;
                data := [byte_of (stripe_size c)] ++ [byte_of (block_size_index c)]
                        ++ le_bytes 8 (len protected)
                        ++ le_bytes 4 (stripes c (len protected)) ++ parity |}
  else is_ok (encode_recovery c protected) = false.
Proof.
  pose proof (len_nonneg protected) as Hn. pose proof (codec_wf_block c Hc) as [_ Hbs].
  pose proof (stripes_cover c (len protected) Hc Hn) as (Hs0 & _ & _).
  unfold encode_recovery. rewrite (try_from_fits 64 (len protected)) by lia.
  cbn [ok_or mbind result_bind]. rewrite expected_stripe_count_eq by (done || lia). unfold MAX_PARITY_SIZE.
  destruct (Z.ltb_spec (stripes c (len protected)) (2 ^ 32)) as [Hlt|Hge];
    cbn [mbind result_bind]; [|rewrite (proj2 (Z.leb_gt _ _)) by nia; done].
  rewrite parity_len_eq by nia. cbn [mbind result_bind].
  destruct (Z.leb_spec (stripes c (len protected) * block_size c)
    (256 * 1024 * 1024)) as [Hle|Hgt].
  - dif as E; [lia|]. rewrite !try_from_fits by lia. cbn [ok_or mbind result_bind].
    rewrite checked_mul_fits by lia. cbn [ok_or mbind result_bind].
    destruct encode_parity as (parity & Hp & HB). rewrite Hp. cbn [mbind result_bind].
    by exists parity.
  - dif as E; [done|lia].
Qed.

Lemma validate_encoded parity :
  built bs sc sc parity_block parity →
  stripes c (len protected) * block_size c ≤ MAX_PARITY_SIZE →
  validate c ([byte_of (stripe_size c)] ++ [byte_of (block_size_index c)]
              ++ le_bytes 8 (len protected)
              ++ le_bytes 4 (stripes c (len protected)) ++ parity) = Ok tt.
Proof.
  intros [Hp _] Hmax. pose proof (len_nonneg protected) as Hn.
  pose proof (codec_wf_block c Hc) as [_ Hbs].
  pose proof (stripes_cover c (len protected) Hc Hn) as (Hs0 & _ & _).
  unfold MAX_PARITY_SIZE in Hmax. unfold validate.
  rewrite parse_header_enc by (done || unfold fits; nia).
  cbn [mbind result_bind]. rewrite !Z.eqb_refl. cbn [negb orb].
  rewrite expected_stripe_count_eq by (done || lia).
  rewrite (proj2 (Z.ltb_lt _ _)) by nia. cbn [mbind result_bind].
  rewrite Z.eqb_refl. cbn [negb]. rewrite parity_len_eq by lia. cbn [mbind result_bind].
  apply guard_Ok. split; [unfold MAX_PARITY_SIZE; lia|].
  assert (Hpl : len parity = stripes c (len protected) * block_size c)
    by (unfold len at 1; rewrite Hp; nia).
  unfold HEADER_SIZE. autorewrite with len. rewrite Hpl.
  rewrite checked_sub_fits by nia. cbn [ok_or mbind result_bind].
  apply guard_Ok. split; [rewrite negb_false_iff, Z.eqb_eq; lia|done].
Qed.

(** One stripe of the recovery. *)
Context (input : FecRecoverInput) (parity : list byte).
Context (HB : built bs sc sc parity_block parity)
  (Hnonneg : ∀ e, e ∈ erasures input → 0 ≤ index e)
  (Htol : ∀ g, len (filter (λ e, in_group c g e = true) (erasures input)) ≤ 1)
  (Hagree : ∀ i : nat,
     ¬ erased (erasures input) (Z.of_nat i / Z.of_nat bs) →
     available_data input !!! i = protected !!! i).

Lemma parity_slice stripe :
  (stripe < sc)%nat →
  slice_r (E := FecError.t) parity (Z.of_nat (stripe * bs)) (Z.of_nat ((stripe + 1) * bs))
  = Ok (parity_block stripe).
Proof.
  intros Hst. destruct HB as [HBl _]. apply slice_r_Ok.
  split; [|unfold len; rewrite HBl; nia].
  rewrite <- (built_read bs sc parity_block parity stripe HB Hst
    (length_parity_block stripe)).
  rewrite read_unit_slice by (rewrite HBl; nia). unfold slice. f_equal; [lia|].
  f_equal. lia.
Qed.
Lemma recover_stripe_restores out stripe :
  (stripe < sc)%nat → length out = (sc * ss * bs)%nat →
  recover_stripe c input parity ss bs out stripe
  = Ok (foldl (restore bs protected) out (writes ss (erasures input) stripe)).
Proof.
  intros Hst Hout. pose proof (stripe_range stripe Hst) as (R0 & R1 & R2 & R3).
  pose proof (codec_wf_block c Hc) as [_ Hbs]. pose proof Hc as [Hss _].
  assert (Hssz : Z.of_nat ss = stripe_size c) by lia.
  pose proof geometry_facts as (G1 & G2 & G3 & G4).
  unfold recover_stripe.
  rewrite (checked_mul_fits 64 (Z.of_nat stripe)) by (rewrite Hssz; lia).
  rewrite (checked_mul_fits 64 (Z.of_nat stripe + 1)) by (rewrite Hssz; lia).
  cbn [ok_or mbind result_bind]. unfold writes.
  fold (group_of ss (erasures input) stripe).
  assert (Hcard : (length (group_of ss (erasures input) stripe) ≤ 1)%nat).
  { unfold group_of. rewrite length_group_erasures by (rewrite Hssz; lia).
    specialize (Htol (Z.of_nat stripe)). unfold in_group, len in Htol. cbn in Htol.
    rewrite Hssz. lia. }
  rewrite (proj2 (Nat.ltb_ge _ _)) by done.
  destruct (group_of ss (erasures input) stripe) as [|e [|? ?]] eqn:Eg;
    [done| |cbn in Hcard; lia].
  assert (He : (e < ss)%nat).
  { eapply (group_lt bs ss sc protected); try done.
    rewrite Eg. by left. }
  rewrite parity_slice by done.
  cbn [mbind result_bind].
  destruct (xor_blocks_Ok c (available_data input) ss stripe (Some e)
    (parity_block stripe)) as (r & -> & Hlr & Hr);
    [done|apply length_parity_block|done|].
  cbn [mbind result_bind fmap list_fmap foldl].
  rewrite (proj2 (Nat.leb_le _ _)) by (rewrite Hout; nia). unfold restore. do 2 f_equal.
  apply list_eq_total; [by rewrite length_read_unit|]. rewrite Hlr. intros j Hj.
  rewrite Hr, lookup_parity_block, (gsum_others ss e) by done.
  assert (Hknown : ∀ i, i ∈ others ss (Some e) →
    read_unit (available_data input) bs (stripe * ss + i) !!! j
    = read_unit protected bs (stripe * ss + i) !!! j).
  { intros i [Hne Hi%elem_of_seq]%list_elem_of_filter. f_equal.
    apply (read_unit_known bs ss sc protected (available_data input) (erasures input));
      try done; [lia|].
    rewrite Eg. intros Hin%list_elem_of_singleton. by subst. }
  rewrite (gsum_ext _ _ _ Hknown), <- gf_add_assoc, gf_add_diag. apply gf_add_0_r.
Qed.
End encode.

(** ** The contract *)

(** The [recover] of an encoded value up to its loop. *)
Lemma recover_loop c protected v input :
  codec_wf c → len protected < 2 ^ 63 → encode_recovery c protected = Ok v →
  original_protected_len input = len protected → fec_value_data input = data v →
  ∃ parity,
    built (Z.to_nat (block_size c)) (Z.to_nat (stripes c (len protected)))
      (Z.to_nat (stripes c (len protected))) (parity_block c protected) parity
    ∧ validate c (data v) = Ok tt ∧ algo_id v = FEC_ALGO_XOR
    ∧ recover c input
      = (out ← for_each
                 (recover_stripe c input parity (Z.to_nat (stripe_size c))
                    (Z.to_nat (block_size c)))
                 (copy_available
                    (Z.to_nat (stripes c (len protected)) * Z.to_nat (stripe_size c)
                     * Z.to_nat (block_size c)) (available_data input))
                 (seq 0 (Z.to_nat (stripes c (len protected))));
         Ok (take (length protected) out)).
Proof.
  intros Hc Hlen He Ho Hd. pose proof (len_nonneg protected) as Hn.
  pose proof (codec_wf_block c Hc) as [_ Hbs]. pose proof Hc as [Hss _].
  pose proof (stripes_cover c (len protected) Hc Hn) as (Hs0 & _ & _).
  pose proof (total_bound c protected Hc Hlen) as Hb.
  pose proof (encode_recovery_cases c protected Hc Hlen) as H.
  destruct (Z.leb_spec (stripes c (len protected) * block_size c) MAX_PARITY_SIZE)
    as [Hmax|]; [|by rewrite He in H].
  destruct H as (parity & HB & H). rewrite H in He. apply Ok_inj in He as <-.
  exists parity. pose proof (validate_encoded c protected Hc Hlen parity HB Hmax) as Hval.
  split_and!; [done..|]. cbn [data] in Hd. unfold recover. rewrite Hd.
  unfold MAX_PARITY_SIZE in Hmax.
  rewrite parse_header_enc by (done || unfold fits; nia). cbn [mbind result_bind].
  rewrite Hval. cbn [mbind result_bind]. rewrite Ho, Z.eqb_refl. cbn [negb].
  rewrite !try_from_fits by nia. cbn [ok_or mbind result_bind].
  rewrite parity_len_eq by nia. cbn [mbind result_bind].
  destruct HB as [HBl _].
  assert (Hpl : len parity = stripes c (len protected) * block_size c)
    by (unfold len at 1; rewrite HBl; nia).
  rewrite (proj2 (slice_r_Ok _ _ _ parity)).
  2: { unfold HEADER_SIZE. autorewrite with len. rewrite Hpl. split_and!; [|nia..].
       symmetry. rewrite <- Hpl.
       pose proof (slice_app_mid ([byte_of (stripe_size c)] ++ [byte_of (block_size_index c)]
         ++ le_bytes 8 (len protected) ++ le_bytes 4 (stripes c (len protected))) parity [])
         as Hsl.
       rewrite app_nil_r, <- !app_assoc in Hsl. exact Hsl. }
  cbn [mbind result_bind].
  rewrite checked_mul_fits by nia. cbn [mbind option_bind].
  rewrite checked_mul_fits by lia. cbn [ok_or mbind result_bind].
  rewrite !Z2Nat.inj_mul by lia. unfold len. by rewrite Nat2Z.id.
Qed.

Lemma xor_recover_encode c protected v input :
  codec_wf c → len protected < 2 ^ 63 → encode_recovery c protected = Ok v →
  recoverable c protected v input → recover c input = Ok protected.
Proof.
  intros Hc Hlen He (Ho & Hd & Hnd & Hnn & Htol & Hin & Hpad).
  destruct (recover_loop c protected v input Hc Hlen He Ho Hd)
    as (parity & HB & _ & _ & ->).
  pose proof (geometry_facts c protected Hc Hlen) as (G1 & G2 & G3 & G4).
  pose proof (codec_wf_block c Hc) as [_ Hbs].
  pose proof (agree_total _ _ (λ i, ¬ erased (erasures input) (Z.of_nat i / block_size c)) Hin Hpad)
    as Hagree. rewrite <- (Z2Nat.id (block_size c)) in Hagree by lia.
  rewrite (recover_groups _ _ _ protected _ (erasures input)); try done.
  - cbn [mbind result_bind]. by erewrite take_protected.
  - intros out g Hg Hout. by apply recover_stripe_restores.
Qed.
Lemma xor_encode_valid c protected v :
  codec_wf c → len protected < 2 ^ 63 → encode_recovery c protected = Ok v →
  algo_id v = FEC_ALGO_XOR ∧ validate c (data v) = Ok tt.
Proof.
  intros Hc Hlen He.
  destruct (recover_loop c protected v {| original_protected_len := len protected;
    available_data := []; fec_value_data := data v; erasures := [] |} Hc Hlen He)
    as (parity & _ & H1 & H2 & _); done.
Qed.

#[export] Instance xor_laws : FecLaws XorCodec codec_wf.
Proof.
  split.
  - intros c protected v. apply xor_encode_valid.
  - intros c protected v input. apply xor_recover_encode.
Qed.

(** ** No panics on untrusted metadata *)

Lemma expected_stripe_count_no_panic n s b : no_panic (expected_stripe_count n s b).
Proof. unfold expected_stripe_count, ceil_div. np. Qed.
Lemma parity_len_no_panic s b : no_panic (parity_len s b).
Proof. unfold parity_len. np. Qed.
#[local] Hint Resolve parse_header_no_panic expected_stripe_count_no_panic
  parity_len_no_panic : no_panic.
Lemma validate_no_panic c data : no_panic (validate c data).
Proof. unfold validate. np. Qed.
Lemma parse_xor_meta_no_panic data : no_panic (parse_xor_meta data).
Proof. unfold parse_xor_meta. np. Qed.
Lemma from_fec_value_no_panic data : no_panic (from_fec_value data).
Proof.
  unfold from_fec_value, new. dif as E; [done|].
  apply no_panic_bind; [apply index_r_no_panic; lia|]. intros b0 _.
  apply no_panic_bind; [apply index_r_no_panic; lia|]. intros b1 _. np.
Qed.

(** A valid value holds exactly the parity its header announces. *)
Lemma validate_Ok c data ss bs ol sc :
  parse_header data = Ok (ss, bs, ol, sc) → validate c data = Ok tt →
  ss = stripe_size c ∧ bs = block_size c ∧ len data = HEADER_SIZE + sc * bs
  ∧ parity_len sc bs = Ok (sc * bs).
Proof.
  intros Hh H. pose proof (parse_header_Ok _ _ _ _ _ Hh) as (_ & _ & Hbs & _ & [Hs0 Hs1]).
  unfold validate in H. rewrite Hh in H. cbn [mbind result_bind] in H.
  apply guard_Ok in H as [Hcfg H]. apply orb_false_iff in Hcfg as [E1 E2].
  apply negb_false_iff, Z.eqb_eq in E1, E2. apply bind_Ok in H as (esc & _ & H).
  apply guard_Ok in H as [_ H]. rewrite parity_len_eq in H by nia.
  cbn [mbind result_bind] in H. apply guard_Ok in H as [_ H].
  apply bind_Ok in H as (av & (-> & Hle)%ok_or_Ok%checked_sub_Some & H).
  apply guard_Ok in H as [Ha _]. apply negb_false_iff, Z.eqb_eq in Ha.
  rewrite parity_len_eq by nia. split_and!; (done || lia).
Qed.
Lemma block_bytes_no_panic c data i : no_panic (block_bytes c data i).
Proof. unfold block_bytes. np. Qed.
Lemma xor_blocks_no_panic c data ss stripe skip acc :
  no_panic (xor_blocks c data ss stripe skip acc).
Proof.
  apply for_each_no_panic. intros s x _. case_bool_decide; [done|].
  apply no_panic_bind; [apply block_bytes_no_panic|done].
Qed.
Lemma recover_no_panic c input : no_panic (recover c input).
Proof.
  unfold recover. apply no_panic_bind; [apply parse_header_no_panic|].
  intros [[[ss bs] ol] sc] Hh. pose proof (parse_header_Ok _ _ _ _ _ Hh) as
    (_ & _ & Hbs & _ & [Hs0 Hs1]).
  apply no_panic_bind; [apply validate_no_panic|]. intros [] Hv.
  destruct (validate_Ok _ _ _ _ _ _ Hh Hv) as (-> & -> & Hl & Hpl). dif as E; [done|].
  apply no_panic_bind; [apply no_panic_ok_or|]. intros x [-> _]%ok_or_Ok%try_from_Some.
  apply no_panic_bind; [apply no_panic_ok_or|]. intros x [-> _]%ok_or_Ok%try_from_Some.
  rewrite Hpl. cbn [mbind result_bind].
  apply no_panic_bind; [apply slice_r_no_panic; unfold HEADER_SIZE in *; nia|].
  intros parity (-> & _ & _)%slice_r_Ok.
  apply no_panic_bind; [apply no_panic_ok_or|]. intros total _.
  apply no_panic_bind; [|intros out _; np].
  apply for_each_no_panic. intros out stripe Hst%elem_of_seq. unfold recover_stripe.
  apply no_panic_bind; [apply no_panic_ok_or|]. intros s0 _.
  apply no_panic_bind; [apply no_panic_ok_or|]. intros s1 _. case_match; [done|].
  case_match; [done|]. apply no_panic_bind.
  - apply slice_r_no_panic; [nia|]. rewrite len_slice by (unfold HEADER_SIZE in *; nia).
    nia.
  - intros p _. apply no_panic_bind; [apply xor_blocks_no_panic|]. intros r _. by case_match.
Qed.

(** (C23) XOR recovery is exact: if at most one block of each stripe is a known
    erasure, and outside the erased blocks the available bytes are the protected ones (so a
    missing suffix lies in erased blocks) and any bytes beyond the protected ones are zero,
    [recover] returns the protected bytes, whatever the erased blocks hold; and the value
    passes [validate].  Without the condition on the bytes beyond, it does not hold
    ([longer_available_data_differs]). *)
Theorem xor_recovers c protected v input :
  codec_wf c → len protected < 2 ^ 63 → encode_recovery c protected = Ok v →
  recoverable c protected v input →
  recover c input = Ok protected ∧ validate c (data v) = Ok tt.
Proof.
  intros Hc Hlen He Hr. split; [by eapply xor_recover_encode|].
  by eapply xor_encode_valid.
Qed.

Lemma recover_stripe_cases c protected input parity out stripe :
  codec_wf c → len protected < 2 ^ 63 →
  let ss := Z.to_nat (stripe_size c) in
  let bs := Z.to_nat (block_size c) in
  let sc := Z.to_nat (stripes c (len protected)) in
  built bs sc sc (parity_block c protected) parity → (stripe < sc)%nat →
  length out = (sc * ss * bs)%nat →
  let es := filter (λ e, in_group c (Z.of_nat stripe) e = true) (erasures input) in
  if 1 <? len es then
    recover_stripe c input parity ss bs out stripe
    = Err (FecError.EcFailed "XOR: more than one erasure per stripe cannot be recovered")
  else
    ∃ out', recover_stripe c input parity ss bs out stripe = Ok out'
      ∧ length out' = (sc * ss * bs)%nat.
Proof.
  intros Hc Hlen ss bs sc HB Hst Hout es.
  pose proof (stripe_range c protected Hc Hlen stripe Hst) as (R0 & R1 & R2 & R3).
  pose proof (codec_wf_block c Hc) as [_ Hbs]. pose proof Hc as [Hss _].
  assert (Hssz : Z.of_nat ss = stripe_size c) by lia. unfold recover_stripe.
  rewrite (checked_mul_fits 64 (Z.of_nat stripe)) by (rewrite Hssz; lia).
  rewrite (checked_mul_fits 64 (Z.of_nat stripe + 1)) by (rewrite Hssz; lia).
  cbn [ok_or mbind result_bind]. rewrite Hssz.
  set (ge := group_erasures _ _ _).
  assert (Hcard : Z.of_nat (length ge) = len es)
    by (unfold ge, len; rewrite length_group_erasures by lia; done).
  destruct (Z.ltb_spec 1 (len es)).
  { by rewrite (proj2 (Nat.ltb_lt _ _)) by lia. }
  rewrite (proj2 (Nat.ltb_ge _ _)) by lia. destruct ge as [|e ge]; [by eexists|].
  destruct HB as [HBl _].
  rewrite (proj2 (slice_r_Ok _ _ _ (take bs (drop (stripe * bs) parity)))).
  2: { split; [unfold slice; f_equal; [nia|]; f_equal; lia|].
       unfold len. rewrite HBl. unfold sc, bs in *. nia. }
  cbn [mbind result_bind].
  destruct (xor_blocks_Ok c (available_data input) ss stripe (Some e)
    (take bs (drop (stripe * bs) parity))) as (r & -> & Hlr & _); [done| |done|].
  { rewrite length_take, length_drop, HBl. unfold sc, bs in *. nia. }
  cbn [mbind result_bind]. case_match eqn:E; [|by eexists].
  apply Nat.leb_le in E. eexists. split; [done|]. rewrite length_write_unit; [done|done|lia].
Qed.

(** Beyond one erasure in a stripe, XOR recovery is refused with an error
    instead of returning guessed bytes. *)
Theorem xor_two_erasures_refused c protected v input stripe :
  codec_wf c → len protected < 2 ^ 63 → encode_recovery c protected = Ok v →
  original_protected_len input = len protected → fec_value_data input = data v →
  0 ≤ stripe < stripes c (len protected) →
  1 < len (filter (λ e, in_group c stripe e = true) (erasures input)) →
  recover c input
  = Err (FecError.EcFailed "XOR: more than one erasure per stripe cannot be recovered").
Proof.
  intros Hc Hlen He Ho Hd Hst Htwo.
  destruct (recover_loop c protected v input Hc Hlen He Ho Hd)
    as (parity & HB & _ & _ & ->).
  erewrite (for_each_fails _ (λ out, length out = (Z.to_nat (stripes c (len protected))
    * Z.to_nat (stripe_size c) * Z.to_nat (block_size c))%nat)); [done|..].
  - apply length_copy_available.
  - intros out x Hx%elem_of_seq Hout.
    pose proof (recover_stripe_cases c protected input parity out x Hc Hlen HB
      ltac:(lia) Hout) as H. cbv zeta in H. destruct (1 <? _); [by left|by right].
  - exists (Z.to_nat stripe). split; [apply elem_of_seq; lia|]. intros out Hout.
    pose proof (recover_stripe_cases c protected input parity out (Z.to_nat stripe) Hc
      Hlen HB ltac:(lia) Hout) as H. cbv zeta in H. rewrite Z2Nat.id in H by lia.
    rewrite (proj2 (Z.ltb_lt _ _) Htwo) in H. done.
Qed.

(** A 300-byte sequence in one stripe of two 256-byte blocks. *)
Definition sample_codec : XorCodec :=
  {| stripe_size := 2; block_size := 256; block_size_index := 0 |}.
Definition sample_protected : list byte := byte_of ∘ Z.of_nat <$> seq 7 300.
Definition sample_value : FecValue :=
  Eval vm_compute in
    match encode_recovery sample_codec sample_protected with
    | Ok v => v
    | _ => {| algo_id := 0; data := [] |}
    end.
Definition sample_input (es : list Erasure) : FecRecoverInput :=
  {| original_protected_len := 300;
     available_data := replicate 256 xff ++ drop 256 sample_protected;
     fec_value_data := data sample_value; erasures := es |}.
Lemma sample_wf : codec_wf sample_codec.
Proof. by split. Qed.

Lemma xor_recovers_witness :
  recover sample_codec (sample_input [{| index := 0 |}]) = Ok sample_protected.
Proof.
  apply (xor_recovers sample_codec sample_protected sample_value);
    [apply sample_wf|by vm_compute|by vm_compute|].
  unfold recoverable. split_and!; [done|done|apply NoDup_singleton| | | |].
  - by intros e ->%list_elem_of_singleton.
  - intros g. apply (Nat2Z.inj_le _ 1), (length_filter _ [{| index := 0 |}]).
  - intros i Hi He. destruct (decide (i < 256)%nat) as [Hlt|Hge].
    + destruct He. unfold erased. cbn [erasures sample_input unit_size xor_geometry
        sample_codec block_size].
      rewrite Z.div_small by lia. by left.
    + cbn [available_data sample_input].
      rewrite lookup_app_r by (rewrite length_replicate; lia).
      rewrite length_replicate, lookup_drop. f_equal. lia.
  - intros i b Hi _ Hb%lookup_lt_Some. vm_compute in Hi, Hb. lia.
Defined.

Lemma xor_two_erasures_refused_witness :
  recover sample_codec (sample_input [{| index := 0 |}; {| index := 1 |}])
  = Err (FecError.EcFailed "XOR: more than one erasure per stripe cannot be recovered").
Proof.
  apply (xor_two_erasures_refused sample_codec sample_protected sample_value _ 0);
    [apply sample_wf|by vm_compute..].
Defined.

(** The bytes beyond the protected length are not ignored: with one extra byte
    after the protected ones, recovering the first block gives wrong bytes. *)
Example longer_available_data_differs :
  recover sample_codec
    {| original_protected_len := 300;
       available_data := replicate 256 xff ++ drop 256 sample_protected ++ [xff];
       fec_value_data := data sample_value; erasures := [{| index := 0 |}] |}
  ≠ Ok sample_protected.
Proof. by vm_compute. Qed.

End XorFec.
