(* ===== verification/RsFec.v ===== *)
(** * The Reed-Solomon codec

    Models [crates/sar-fec/src/rs/mod.rs]: a systematic code over GF(2^8) whose
    parity symbol [r] of a group is the sum of the data symbols [c] weighted by
    the power [(r + 1) * c] of the primitive element.  Recovery solves the
    Vandermonde system of the erased symbols by inverting its matrix.  The codec
    discharges the contract [FecLaws]: any erasures up to the number of parity
    symbols per group are recovered exactly. *)

From Stdlib Require Import Ring.
From S2P Require Import Prelude Errors FecTypes FecBlocks Gf GfMatrix.
Import FecTypes FecBlocks Gf GfMatrix.

Module RsFec.

Definition HEADER_SIZE : Z := 18.
Definition MAX_PARITY_SIZE : Z := 256 * 1024 * 1024.
Definition MAX_PARITY_COUNT : Z := 32.

(** [parse_header]: k, parity count, symbol size, protected length, groups. *)
Definition parse_header (data : list byte) : result FecError.t (Z * Z * Z * Z * Z) :=
  if len data <? HEADER_SIZE then
    Err (FecError.Truncated "RS FEC value too short for header")
  else
  b0 ← index_r data 0;
  b1 ← index_r data 1;
  let k := byte_val b0 in
  let parity_count := byte_val b1 in
  if k =? 0 then Err (FecError.ReservedValue "RS k=0 is reserved")
  else if parity_count =? 0 then
    Err (FecError.ReservedValue "RS parity_count=0 is reserved")
  else
  sym_bytes ← slice_r data 2 6;
  let symbol_size := le_val sym_bytes in
  if symbol_size =? 0 then Err (FecError.Malformed "RS symbol size must be > 0")
  else
  opl_bytes ← slice_r data 6 14;
  gc_bytes ← slice_r data 14 18;
  Ok (k, parity_count, symbol_size, le_val opl_bytes, le_val gc_bytes).

(** [ceil_div_u64], [expected_group_count], [parity_data_len]. *)
Definition ceil_div_u64 (a b : Z) : result FecError.t Z :=
  if b =? 0 then Err (FecError.Overflow "RS ceil_div by zero")
  else
    s ← ok_or (checked_add 64 a (b - 1)) (FecError.Overflow "RS ceil_div overflow");
    Ok (s / b).
Definition expected_group_count (original_len k symbol_size : Z)
    : result FecError.t Z :=
  group_size ← ok_or (checked_mul 64 k symbol_size)
                 (FecError.Overflow "RS group size overflow");
  gc ← ceil_div_u64 original_len group_size;
  ok_or (try_from 32 gc) (FecError.Overflow "RS group count exceeds u32").
Definition parity_data_len (group_count parity_count symbol_size : Z)
    : result FecError.t Z :=
  n ← ok_or (checked_mul 64 group_count parity_count)
        (FecError.Overflow "RS parity count × group overflow");
  pl ← ok_or (checked_mul 64 n symbol_size)
         (FecError.Overflow "RS parity length overflow");
  ok_or (try_from 64 pl) (FecError.Overflow "RS parity length exceeds usize").

(** [build_vandermonde_rect]. *)
Definition vandermonde_coeff (r c : nat) : byte :=
  let exp := ((Z.of_nat (r + 1) * Z.of_nat c) mod 2 ^ 64) mod 255 in
  if exp =? 0 then x01 else gf_pow exp.
Definition build_vandermonde_rect (k parity_count : nat) : list byte :=
  for_range parity_count
    (λ g r, for_range k (λ g c, <[(r * k + c)%nat := vandermonde_coeff r c]> g) g)
    (replicate (parity_count * k) x00).

(** [encode_group]. *)
Definition encode_group (data_symbols : list (list byte)) (k parity_count symbol_size : nat)
    (vandermonde : list byte) : list (list byte) :=
  (λ r, accumulate (replicate symbol_size x00)
          (imap (λ c src, (vandermonde !!! (r * k + c)%nat, src)) data_symbols))
  <$> seq 0 parity_count.

(** [extract_parity_symbol]; [extract_symbol] is [read_unit]. *)
Definition extract_parity_symbol (parity_blob : list byte)
    (group parity_idx parity_count symbol_size : nat) : list byte :=
  let start := ((group * parity_count + parity_idx) * symbol_size)%nat in
  let fin := (start + symbol_size)%nat in
  if (fin <=? length parity_blob)%nat
  then take symbol_size (drop start parity_blob)
  else replicate symbol_size x00.

(** [parse_rs_meta]. *)
Definition parse_rs_meta (data : list byte) : result FecError.t RsMeta :=
  '(k, parity_count, symbol_size, original_len, group_count) ← parse_header data;
  pl ← parity_data_len group_count parity_count symbol_size;
  Ok {| rs_k := k; rs_parity_count := parity_count; rs_symbol_size := symbol_size;
        rs_original_protected_len := original_len; rs_group_count := group_count;
        rs_parity_data_len := pl |}.

(** [struct RsCodec], [RsCodec::new], [RsCodec::from_fec_value]. *)
Record RsCodec := { k : Z; parity_count : Z; symbol_size : Z }.
Definition new (k parity_count symbol_size : Z) : result FecError.t RsCodec :=
  if k =? 0 then Err (FecError.ReservedValue "RS k=0 is reserved")
  else if parity_count =? 0 then
    Err (FecError.ReservedValue "RS parity_count=0 is reserved")
  else if parity_count >? MAX_PARITY_COUNT then
    Err (FecError.LimitExceeded "RS parity count exceeds implementation limit of 32")
  else if symbol_size =? 0 then
    Err (FecError.Malformed "RS symbol size must be > 0")
  else Ok {| k := k; parity_count := parity_count; symbol_size := symbol_size |}.
Definition from_fec_value (data : list byte) : result FecError.t RsCodec :=
  if len data <? 6 then Err (FecError.Truncated "RS FEC value too short for config")
  else
    b0 ← index_r data 0;
    b1 ← index_r data 1;
    sym ← slice_r data 2 6;
    new (byte_val b0) (byte_val b1) (le_val sym).

Section codec.
Context (c : RsCodec).

(** [RsCodec::encode_recovery]. *)
Definition encode_recovery (protected : list byte) : result FecError.t FecValue :=
  let kn := Z.to_nat (k c) in
  let pc := Z.to_nat (parity_count c) in
  ss ← ok_or (try_from 64 (symbol_size c))
         (FecError.Overflow "RS symbol size exceeds usize");
  original_len ← ok_or (try_from 64 (len protected))
                   (FecError.Overflow "RS protected length exceeds u64");
  group_count ← expected_group_count original_len (k c) (symbol_size c);
  gc ← ok_or (try_from 64 group_count)
         (FecError.Overflow "RS group count exceeds usize");
  pl ← parity_data_len group_count (parity_count c) (symbol_size c);
  if pl >? MAX_PARITY_SIZE then
    Err (FecError.LimitExceeded "RS parity exceeds implementation limit")
  else
  let vandermonde := build_vandermonde_rect kn pc in
  parity_blob_len ← ok_or (n ← checked_mul 64 gc (parity_count c); checked_mul 64 n ss)
                      (FecError.Overflow "RS parity allocation overflow");
  let ss := Z.to_nat ss in
  let parity_blob :=
    for_range (Z.to_nat gc)
      (λ blob g,
         let data_symbols := (λ i, read_unit protected ss (g * kn + i)) <$> seq 0 kn in
         let parity_syms := encode_group data_symbols kn pc ss vandermonde in
         for_range (length parity_syms)
           (λ blob r, write_unit blob ss (g * pc + r) (parity_syms !!! r)) blob)
      (replicate (Z.to_nat parity_blob_len) x00) in
  Ok {| algo_id := FEC_ALGO_REED_SOLOMON;
        data := [byte_of (k c)] ++ [byte_of (parity_count c)]
                ++ le_bytes 4 (symbol_size c) ++ le_bytes 8 original_len
                ++ le_bytes 4 group_count ++ parity_blob |}.

(** [RsCodec::validate]. *)
Definition validate (fec_value_data : list byte) : result FecError.t unit :=
  '(kk, pc, ss, original_len, group_count) ← parse_header fec_value_data;
  if negb (kk =? k c) || negb (pc =? parity_count c) || negb (ss =? symbol_size c) then
    Err (FecError.InvalidLength "RS config mismatch in validate")
  else if pc >? MAX_PARITY_COUNT then
    Err (FecError.LimitExceeded "RS parity count exceeds implementation limit of 32")
  else
  expected_gc ← expected_group_count original_len kk ss;
  if negb (group_count =? expected_gc) then
    Err (FecError.InvalidLength "RS group count does not match expected value")
  else
  pl ← parity_data_len group_count pc ss;
  if pl >? MAX_PARITY_SIZE then
    Err (FecError.LimitExceeded "RS parity exceeds implementation limit")
  else
  available ← ok_or (checked_sub (len fec_value_data) HEADER_SIZE)
                (FecError.Truncated "RS FEC value shorter than header");
  if negb (available =? pl) then
    Err (FecError.InvalidLength
           "RS parity data length does not match Group Count × (n-k) × Symbol Size")
  else Ok tt.

(** The system of one group: the matrix [a] and the right-hand sides. *)
Definition system_matrix (vandermonde : list byte) (kn : nat)
    (selected_parity erased_data : list nat) : GfMatrix :=
  let t := length erased_data in
  for_range (length selected_parity)
    (λ a ri,
       for_range t
         (λ a ci, set a ri ci
            (vandermonde !!! ((selected_parity !!! ri) * kn + erased_data !!! ci)%nat)) a)
    (zeroes t).
Definition system_rhs (vandermonde parity_blob available : list byte)
    (kn pc ss g : nat) (selected_parity erased_data : list nat) : list (list byte) :=
  (λ pr,
     accumulate (extract_parity_symbol parity_blob g pr pc ss)
       ((λ i, (vandermonde !!! (pr * kn + i)%nat, read_unit available ss (g * kn + i)))
        <$> filter (λ i, i ∉ erased_data) (seq 0 kn)))
  <$> selected_parity.

(** One round of the loop of [RsCodec::recover]. *)
Definition recover_group (input : FecRecoverInput) (vandermonde parity_blob : list byte)
    (kn pc ss : nat) (out : list byte) (g : nat) : result FecError.t (list byte) :=
  group_sym_start ← ok_or (checked_mul 64 (Z.of_nat g) (Z.of_nat kn))
                      (FecError.Overflow "RS group symbol start overflow");
  group_sym_end ← ok_or (checked_mul 64 (Z.of_nat g + 1) (Z.of_nat kn))
                    (FecError.Overflow "RS group symbol end overflow");
  let erased_data := group_erasures group_sym_start group_sym_end (erasures input) in
  if bool_decide (erased_data = []) then Ok out
  else
  let t := length erased_data in
  if (pc <? t)%nat then
    Err (FecError.EcFailed "RS: erased data symbols exceed parity count for this group")
  else
  let selected_parity := take t (seq 0 pc) in
  let a := system_matrix vandermonde kn selected_parity erased_data in
  let rhs := system_rhs vandermonde parity_blob (available_data input) kn pc ss g
               selected_parity erased_data in
  a_inv ← invert a;
  let recovered := mat_vec_mul a_inv rhs ss in
  Ok (for_range t
        (λ out ci,
           let ec := erased_data !!! ci in
           let out_end := ((g * kn + ec) * ss + ss)%nat in
           if (out_end <=? length out)%nat
           then write_unit out ss (g * kn + ec) (recovered !!! ci)
           else out)
        out).

(** [RsCodec::recover]. *)
Definition recover (input : FecRecoverInput) : result FecError.t (list byte) :=
  '(_, _, _, original_len, group_count) ← parse_header (fec_value_data input);
  _ ← validate (fec_value_data input);
  if negb (original_len =? original_protected_len input) then
    Err (FecError.InvalidLength "RS recovery: original_protected_len mismatch")
  else
  let kn := Z.to_nat (k c) in
  let pc := Z.to_nat (parity_count c) in
  ss ← ok_or (try_from 64 (symbol_size c))
         (FecError.Overflow "RS symbol size exceeds usize");
  gc ← ok_or (try_from 64 group_count)
         (FecError.Overflow "RS group count exceeds usize");
  pl ← parity_data_len group_count (parity_count c) (symbol_size c);
  parity_blob ← slice_r (fec_value_data input) HEADER_SIZE (HEADER_SIZE + pl);
  let vandermonde := build_vandermonde_rect kn pc in
  total ← ok_or (n ← checked_mul 64 gc (k c); checked_mul 64 n ss)
            (FecError.Overflow "RS output length overflow");
  out ← for_each (recover_group input vandermonde parity_blob kn pc (Z.to_nat ss))
          (copy_available (Z.to_nat total) (available_data input))
          (seq 0 (Z.to_nat gc));
  orig_len ← ok_or (try_from 64 original_len)
               (FecError.Overflow "RS original_len exceeds usize");
  Ok (take (Z.to_nat orig_len) out).
End codec.

(** [validate_rs_fec_value]. *)
Definition validate_rs_fec_value (data : list byte) : result FecError.t unit :=
  c ← from_fec_value data; validate c data.

#[export] Instance rs_codec : FecCodec RsCodec := {
  FecTypes.algorithm_id _ := FEC_ALGO_REED_SOLOMON;
  FecTypes.encode_recovery := encode_recovery;
  FecTypes.recover := recover;
  FecTypes.validate := validate;
}.
#[export] Instance rs_geometry : FecGeometry RsCodec := {
  unit_size := symbol_size;
  group_units := k;
  tolerance := parity_count;
}.

(** ** Configurations and headers *)

(** The codecs [new] builds from a byte, a byte and a 32-bit size. *)
Definition codec_wf (c : RsCodec) : Prop :=
  1 ≤ k c < 256 ∧ 1 ≤ parity_count c ≤ MAX_PARITY_COUNT ∧ 1 ≤ symbol_size c < 2 ^ 32.
Lemma rs_new_codec_wf kk pc ss c :
  fits 8 kk → fits 8 pc → fits 32 ss → new kk pc ss = Ok c → codec_wf c.
Proof.
  intros Hk Hp Hs H. unfold fits in *. unfold new in H.
  apply guard_Ok in H as [H1 H]. apply guard_Ok in H as [H2 H].
  apply guard_Ok in H as [H3 H]. apply guard_Ok in H as [H4 H]. injection H as <-.
  unfold codec_wf, MAX_PARITY_COUNT in *. cbn. lia.
Qed.

Lemma rs_parse_header_no_panic data : no_panic (parse_header data).
Proof.
  unfold parse_header, HEADER_SIZE. dif as E; [done|].
  apply no_panic_bind; [apply index_r_no_panic; lia|]. intros b0 _.
  apply no_panic_bind; [apply index_r_no_panic; lia|]. intros b1 _. dif as E1; [done|].
  dif as E2; [done|]. apply no_panic_bind; [apply slice_r_no_panic; lia|]. intros s _.
  dif as E3; [done|]. apply no_panic_bind; [apply slice_r_no_panic; lia|]. intros o _.
  apply no_panic_bind; [apply slice_r_no_panic; lia|]. done.
Qed.

(** What an accepted header satisfies. *)
Lemma rs_parse_header_Ok data kk pc ss ol gc :
  parse_header data = Ok (kk, pc, ss, ol, gc) →
  18 ≤ len data ∧ 1 ≤ kk < 256 ∧ 1 ≤ pc < 256 ∧ 1 ≤ ss < 2 ^ 32 ∧ fits 64 ol ∧ fits 32 gc.
Proof.
  intros H. unfold parse_header, HEADER_SIZE in H. apply guard_Ok in H as [Hl H].
  apply bind_Ok in H as (b0 & _ & H). apply bind_Ok in H as (b1 & _ & H).
  apply guard_Ok in H as [Hz H]. apply guard_Ok in H as [Hp H].
  apply bind_Ok in H as (s & (-> & Hs)%slice_r_Ok & H). apply guard_Ok in H as [Hsz H].
  apply bind_Ok in H as (o & (-> & Ho)%slice_r_Ok & H).
  apply bind_Ok in H as (n & (-> & Hn)%slice_r_Ok & H). injection H as <- <- <- <- <-.
  pose proof (byte_val_range b0). pose proof (byte_val_range b1).
  pose proof (le_val_range (slice data 2 6)) as R0. rewrite len_slice in R0 by lia.
  pose proof (le_val_range (slice data 6 14)) as R1. rewrite len_slice in R1 by lia.
  pose proof (le_val_range (slice data 14 18)) as R2. rewrite len_slice in R2 by lia.
  unfold fits. change (256 ^ (6 - 2)) with (2 ^ 32) in R0.
  change (256 ^ (14 - 6)) with (2 ^ 64) in R1. change (256 ^ (18 - 14)) with (2 ^ 32) in R2.
  lia.
Qed.

(** The header the encoder writes. *)
Definition header_bytes (c : RsCodec) (ol gc : Z) : list byte :=
  [byte_of (k c)] ++ [byte_of (parity_count c)] ++ le_bytes 4 (symbol_size c)
  ++ le_bytes 8 ol ++ le_bytes 4 gc.
Lemma len_header_bytes c ol gc : len (header_bytes c ol gc) = HEADER_SIZE.
Proof. unfold header_bytes. autorewrite with len. done. Qed.
Lemma rs_parse_header_enc c ol gc parity :
  codec_wf c → fits 64 ol → fits 32 gc →
  parse_header (header_bytes c ol gc ++ parity)
  = Ok (k c, parity_count c, symbol_size c, ol, gc).
Proof.
  intros (Hk & Hp & Hs) Ho Hg. unfold MAX_PARITY_COUNT in Hp.
  set (d := header_bytes c ol gc ++ parity).
  assert (Hl : 18 ≤ len d).
  { unfold d. rewrite len_app, len_header_bytes. unfold HEADER_SIZE.
    pose proof (len_nonneg parity). lia. }
  assert (Hd : d = [byte_of (k c); byte_of (parity_count c)] ++ le_bytes 4 (symbol_size c)
    ++ le_bytes 8 ol ++ le_bytes 4 gc ++ parity).
  { unfold d, header_bytes. by rewrite <- !app_assoc. }
  assert (S0 : slice_r (E:=FecError.t) d 2 6 = Ok (le_bytes 4 (symbol_size c))).
  { apply slice_r_Ok. split_and!; [|lia..]. symmetry. rewrite Hd.
    apply (slice_app_mid [_; _] (le_bytes 4 (symbol_size c))). }
  assert (S1 : slice_r (E:=FecError.t) d 6 14 = Ok (le_bytes 8 ol)).
  { apply slice_r_Ok. split_and!; [|lia..]. symmetry. rewrite Hd.
    apply (slice_app_mid ([_; _] ++ le_bytes 4 (symbol_size c)) (le_bytes 8 ol)). }
  assert (S2 : slice_r (E:=FecError.t) d 14 18 = Ok (le_bytes 4 gc)).
  { apply slice_r_Ok. split_and!; [|lia..]. symmetry. rewrite Hd.
    apply (slice_app_mid ([_; _] ++ le_bytes 4 (symbol_size c) ++ le_bytes 8 ol)). }
  unfold parse_header. rewrite (proj2 (Z.ltb_ge _ _)) by (unfold HEADER_SIZE; lia).
  rewrite (index_r_cons d 0 (byte_of (k c))) by (rewrite ?Hd; done).
  rewrite (index_r_cons d 1 (byte_of (parity_count c))) by (rewrite ?Hd; done).
  cbn [mbind result_bind]. rewrite !byte_val_of_small by lia.
  rewrite !(proj2 (Z.eqb_neq _ _)) by lia. rewrite S0. cbn [mbind result_bind].
  rewrite le_val_bytes by (unfold fits; lia). rewrite (proj2 (Z.eqb_neq _ _)) by lia.
  rewrite S1. cbn [mbind result_bind]. rewrite S2. cbn [mbind result_bind].
  rewrite !le_val_bytes by assumption. done.
Qed.

(** ** Counts *)

Definition groups (c : RsCodec) (n : Z) : Z :=
  (n + (k c * symbol_size c - 1)) / (k c * symbol_size c).

Lemma group_bytes c : codec_wf c → 1 ≤ k c * symbol_size c < 2 ^ 40.
Proof. intros (? & _ & ?). nia. Qed.
Lemma groups_cover c n :
  codec_wf c → 0 ≤ n → 0 ≤ groups c n ∧ n ≤ groups c n * (k c * symbol_size c)
    ∧ groups c n * (k c * symbol_size c) < n + k c * symbol_size c.
Proof.
  intros Hc Hn. pose proof (group_bytes c Hc). unfold groups.
  set (m := k c * symbol_size c) in *.
  pose proof (Z.div_mod (n + (m - 1)) m ltac:(lia)).
  pose proof (Z.mod_pos_bound (n + (m - 1)) m ltac:(lia)).
  pose proof (Z.div_pos (n + (m - 1)) m ltac:(lia) ltac:(lia)). lia.
Qed.
Lemma expected_group_count_eq c n :
  codec_wf c → 0 ≤ n < 2 ^ 63 →
  expected_group_count n (k c) (symbol_size c)
  = if groups c n <? 2 ^ 32 then Ok (groups c n)
    else Err (FecError.Overflow "RS group count exceeds u32").
Proof.
  intros Hc Hn. pose proof (group_bytes c Hc). unfold expected_group_count, ceil_div_u64.
  rewrite checked_mul_fits by lia. cbn [ok_or mbind result_bind].
  rewrite (proj2 (Z.eqb_neq _ _)) by lia.
  rewrite checked_add_fits by lia. cbn [ok_or mbind result_bind].
  fold (groups c n). unfold try_from. by case_match.
Qed.
Lemma parity_data_len_eq gc pc ss :
  0 ≤ gc → 0 ≤ pc → 1 ≤ ss → gc * pc * ss < 2 ^ 64 →
  parity_data_len gc pc ss = Ok (gc * pc * ss).
Proof.
  intros. assert (0 ≤ gc * pc) by nia. unfold parity_data_len.
  rewrite (checked_mul_fits 64 gc pc) by nia. cbn [ok_or mbind result_bind].
  rewrite checked_mul_fits by done. cbn [ok_or mbind result_bind]. by rewrite try_from_fits.
Qed.
Lemma parity_data_len_Ok gc pc ss pl :
  parity_data_len gc pc ss = Ok pl → pl = gc * pc * ss.
Proof.
  intros H. unfold parity_data_len in H.
  apply bind_Ok in H as (n & [-> _]%ok_or_Ok%checked_mul_Some & H).
  apply bind_Ok in H as (m & [-> _]%ok_or_Ok%checked_mul_Some & H).
  by apply ok_or_Ok, try_from_Some in H as [-> _].
Qed.

(** ** The Vandermonde coefficients *)
Section vandermonde.
#[local] Open Scope nat_scope.

Lemma vandermonde_coeff_gpow r c :
  r < 32 → c < 256 → vandermonde_coeff r c = gpow (gf_pow (Z.of_nat c)) (S r).
Proof.
  intros Hr Hc. unfold vandermonde_coeff. rewrite (Z.mod_small _ (2 ^ 64)) by nia.
  rewrite <- gf_pow_mul, <- (gf_pow_mod (Z.of_nat (S r) * _)) by nia.
  replace (r + 1) with (S r) by lia. by case_match eqn:E; [apply Z.eqb_eq in E as ->|].
Qed.

Lemma view_vandermonde kn pc :
  view pc kn (build_vandermonde_rect kn pc) vandermonde_coeff.
Proof.
  assert (H : ∀ n, n ≤ pc →
    view pc kn
      (for_range n
         (λ g r, for_range kn (λ g c, <[r * kn + c := vandermonde_coeff r c]> g) g)
         (replicate (pc * kn) x00))
      (λ r c, if decide (r < n) then vandermonde_coeff r c else x00)).
  { induction n as [|n IH]; intros Hn.
    - eapply view_ext; [apply view_const|]. intros. by rewrite decide_False by lia.
    - rewrite for_range_S. eapply view_ext;
        [eapply (view_row_loop _ _ _ _ n _ (vandermonde_coeff n) kn);
           [apply IH; lia|lia..|done]|].
      intros r c Hr Hc. cbv beta. destruct (decide (r = n)) as [->|];
        repeat case_decide; (done || lia). }
  eapply view_ext; [by apply H|]. intros r c Hr Hc. cbv beta. by rewrite decide_True.
Qed.

Lemma lookup_map_seq {A} `{Inhabited A} (f : nat → A) n i :
  i < n → (f <$> seq 0 n) !!! i = f i.
Proof.
  intros Hi. by rewrite list_lookup_total_alt, list_lookup_fmap, lookup_seq_lt.
Qed.

(** A loop over positions is a fold over the elements. *)
Lemma for_range_foldl {T A} `{Inhabited A} (P : T → Prop) (body : T → nat → T)
    (f : T → A → T) l s :
  P s →
  (∀ s i, i < length l → P s → body s i = f s (l !!! i) ∧ P (f s (l !!! i))) →
  for_range (length l) body s = foldl f s l ∧ P (foldl f s l).
Proof.
  intros Hs. induction l as [|x l IH] using rev_ind; intros Hstep; [done|].
  rewrite length_app, Nat.add_comm, foldl_app. cbn [Nat.add length].
  rewrite for_range_S. destruct IH as [-> HP].
  { intros s' i Hi. specialize (Hstep s' i). rewrite lookup_total_app_l in Hstep by done.
    apply Hstep. rewrite length_app. lia. }
  destruct (Hstep (foldl f s l) (length l)) as [-> HP']; [rewrite length_app; cbn; lia|done|].
  rewrite lookup_total_app_r, Nat.sub_diag in * by lia. done.
Qed.
Lemma for_range_ext {T} n (f g : T → nat → T) s :
  (∀ s i, i < n → f s i = g s i) → for_range n f s = for_range n g s.
Proof.
  intros H. induction n as [|n IH]; [done|]. rewrite !for_range_S, IH by auto. auto.
Qed.
End vandermonde.

(** ** Encoding *)
Section encode.
Context (c : RsCodec) (protected : list byte).
Context (Hc : codec_wf c) (Hlen : len protected < 2 ^ 63).
#[local] Abbreviation kn := (Z.to_nat (k c)).
#[local] Abbreviation pc := (Z.to_nat (parity_count c)).
#[local] Abbreviation ss := (Z.to_nat (symbol_size c)).
#[local] Abbreviation gc := (Z.to_nat (groups c (len protected))).

(** Parity symbol [u]: symbol [u mod pc] of group [u / pc]. *)
Definition parity_symbol (u : nat) : list byte :=
  (λ j, gsum (seq 0 kn)
     (λ i, gf_mul (vandermonde_coeff (u mod pc) i)
             (read_unit protected ss (u / pc * kn + i) !!! j)))
  <$> seq 0 ss.
Lemma length_parity_symbol u : length (parity_symbol u) = ss.
Proof. unfold parity_symbol. by rewrite length_fmap, length_seq. Qed.
Lemma lookup_parity_symbol g r j :
  (r < pc)%nat → (j < ss)%nat →
  parity_symbol (g * pc + r) !!! j
  = gsum (seq 0 kn)
      (λ i, gf_mul (vandermonde_coeff r i) (read_unit protected ss (g * kn + i) !!! j)).
Proof.
  intros Hr Hj. unfold parity_symbol. rewrite lookup_map_seq by done.
  assert (((g * pc + r) / pc)%nat = g ∧ ((g * pc + r) mod pc)%nat = r) as [-> ->]; [|done].
  rewrite Nat.add_comm, Nat.div_add, Nat.Div0.mod_add, Nat.div_small, Nat.mod_small by lia.
  done.
Qed.

Lemma encode_group_symbols g :
  encode_group ((λ i, read_unit protected ss (g * kn + i)) <$> seq 0 kn) kn pc ss
    (build_vandermonde_rect kn pc)
  = (λ r, parity_symbol (g * pc + r)) <$> seq 0 pc.
Proof.
  unfold encode_group. apply list_fmap_ext. intros r ? [-> Hr]%lookup_seq.
  cbn [Nat.add] in *. set (syms := _ <$> seq 0 kn).
  assert (Hsyms : ∀ i, (i < kn)%nat → syms !!! i = read_unit protected ss (g * kn + i))
    by (intros i Hi; by apply (lookup_map_seq (λ i, read_unit protected ss (g * kn + i)))).
  apply list_eq_total.
  { by rewrite length_accumulate, length_replicate, length_parity_symbol. }
  rewrite length_accumulate, length_replicate. intros j Hj.
  rewrite lookup_accumulate; [| |by rewrite length_replicate].
  - rewrite lookup_total_zeros, gf_add_0_l, (gsum_imap (A := list byte)).
    rewrite lookup_parity_symbol by done. unfold syms at 1. rewrite length_fmap, length_seq.
    apply gsum_ext. intros i Hi%elem_of_seq. cbn [fst snd].
    rewrite Hsyms, (proj2 (view_vandermonde kn pc)) by lia. done.
  - rewrite length_replicate. apply Forall_lookup. intros i t Ht.
    rewrite list_lookup_imap, fmap_Some in Ht. destruct Ht as (s & Hs & ->). cbn [snd].
    unfold syms in Hs. apply list_lookup_fmap_Some in Hs as (i' & -> & _).
    apply length_read_unit.
Qed.

(** The parity blob, group by group. *)
#[local] Abbreviation fill_group :=
  (λ (blob : list byte) (g : nat),
     let data_symbols := (λ i, read_unit protected ss (g * kn + i)) <$> seq 0 kn in
     let parity_syms := encode_group data_symbols kn pc ss
                          (build_vandermonde_rect kn pc) in
     for_range (length parity_syms)
       (λ blob r, write_unit blob ss (g * pc + r) (parity_syms !!! r)) blob).
Lemma fill_group_built n blob :
  (n < gc)%nat → built ss (gc * pc) (n * pc) parity_symbol blob →
  built ss (gc * pc) (S n * pc) parity_symbol (fill_group blob n).
Proof.
  destruct Hc as (Hk & Hp & Hs). intros Hn HB. cbv beta zeta.
  rewrite encode_group_symbols, length_fmap, length_seq.
  assert (Hin : ∀ m, (m ≤ pc)%nat → built ss (gc * pc) (n * pc + m) parity_symbol
    (for_range m (λ blob r, write_unit blob ss (n * pc + r)
       (((λ r, parity_symbol (n * pc + r)) <$> seq 0 pc) !!! r)) blob)).
  { induction m as [|m IHm]; intros Hm; [by rewrite Nat.add_0_r|].
    rewrite for_range_S, (lookup_map_seq (A := list byte)), Nat.add_succ_r by lia.
    apply built_S; [lia|nia|apply length_parity_symbol|apply IHm; lia]. }
  replace (S n * pc)%nat with (n * pc + pc)%nat by lia. by apply Hin.
Qed.
Lemma encode_parity_blob :
  built ss (gc * pc) (gc * pc) parity_symbol
    (for_range gc fill_group (replicate (gc * pc * ss) x00)).
Proof.
  assert (H : ∀ n, (n ≤ gc)%nat → built ss (gc * pc) (n * pc) parity_symbol
    (for_range n fill_group (replicate (gc * pc * ss) x00))); [|by apply H].
  induction n as [|n IH]; intros Hn; [apply built_0|].
  rewrite for_range_S. apply fill_group_built; [lia|apply IH; lia].
Qed.

Lemma rs_total_bound :
  (groups c (len protected) * k c) * symbol_size c < 2 ^ 63 + 2 ^ 40.
Proof.
  pose proof (groups_cover c (len protected) Hc (len_nonneg protected)).
  pose proof (group_bytes c Hc). lia.
Qed.

(** The encoder succeeds exactly when the parity stays within the limit. *)
Lemma rs_encode_recovery_cases :
  if groups c (len protected) <? 2 ^ 32 then
  if groups c (len protected) * parity_count c * symbol_size c <=? MAX_PARITY_SIZE then
    ∃ parity, built ss (gc * pc) (gc * pc) parity_symbol parity
      ∧ encode_recovery c protected
        = Ok {| algo_id := FEC_ALGO_REED_SOLOMON;
                data := header_bytes c (len protected) (groups c (len protected))
                        ++ parity |}
  else is_ok (encode_recovery c protected) = false
  else is_ok (encode_recovery c protected) = false.
Proof.
  pose proof (len_nonneg protected) as Hn. pose proof Hc as (Hk & Hp & Hs).
  pose proof (groups_cover c (len protected) Hc Hn) as (Hg0 & _ & _).
  unfold encode_recovery. rewrite (try_from_fits 64 (symbol_size c)) by lia.
  rewrite (try_from_fits 64 (len protected)) by lia.
  cbn [ok_or mbind result_bind]. rewrite expected_group_count_eq by (done || lia).
  destruct (Z.ltb_spec (groups c (len protected)) (2 ^ 32)) as [Hlt|Hge];
    cbn [mbind result_bind]; [|done].
  rewrite try_from_fits by lia. cbn [ok_or mbind result_bind]. unfold MAX_PARITY_SIZE.
  destruct (Z.leb_spec (groups c (len protected) * parity_count c * symbol_size c)
    (256 * 1024 * 1024)) as [Hle|Hgt].
  - rewrite parity_data_len_eq by lia. cbn [mbind result_bind]. dif as E; [lia|].
    rewrite (checked_mul_fits 64 _ (parity_count c)) by (unfold MAX_PARITY_COUNT in Hp; nia).
    cbn [mbind option_bind]. rewrite checked_mul_fits by lia.
    cbn [ok_or mbind result_bind].
    eexists. split; [apply encode_parity_blob|].
    rewrite !Z2Nat.inj_mul by nia. unfold header_bytes. by rewrite <- !app_assoc.
  - destruct (parity_data_len _ _ _) as [pl| |] eqn:E; [|done..].
    apply parity_data_len_Ok in E as ->. cbn [mbind result_bind]. dif as E; [done|lia].
Qed.

Lemma rs_validate_encoded parity :
  built ss (gc * pc) (gc * pc) parity_symbol parity →
  groups c (len protected) < 2 ^ 32 →
  groups c (len protected) * parity_count c * symbol_size c ≤ MAX_PARITY_SIZE →
  validate c (header_bytes c (len protected) (groups c (len protected)) ++ parity) = Ok tt.
Proof.
  intros [Hpl _] Hg Hmax. pose proof (len_nonneg protected) as Hn.
  pose proof Hc as (Hk & Hp & Hs).
  pose proof (groups_cover c (len protected) Hc Hn) as (Hg0 & _ & _).
  unfold validate, MAX_PARITY_SIZE in *.
  rewrite rs_parse_header_enc by (done || unfold fits; lia).
  cbn [mbind result_bind]. rewrite !Z.eqb_refl. cbn [negb orb].
  apply guard_Ok. split; [lia|].
  rewrite expected_group_count_eq, (proj2 (Z.ltb_lt _ _)) by (done || lia).
  cbn [mbind result_bind]. rewrite Z.eqb_refl. cbn [negb].
  rewrite parity_data_len_eq by lia. cbn [mbind result_bind].
  apply guard_Ok. split; [lia|]. rewrite len_app, len_header_bytes.
  assert (Hpl' : len parity = groups c (len protected) * parity_count c * symbol_size c).
  { unfold len at 1. rewrite Hpl, !Nat2Z.inj_mul, !Z2Nat.id; lia. }
  rewrite Hpl', checked_sub_fits by nia. cbn [ok_or mbind result_bind].
  apply guard_Ok. split; [rewrite negb_false_iff, Z.eqb_eq; lia|done].
Qed.

(** The indices of a group stay within [usize]. *)
Lemma rs_group_range g :
  (g < gc)%nat →
  0 ≤ Z.of_nat g * k c ∧ (Z.of_nat g + 1) * k c < 2 ^ 64 ∧ (g * kn + kn ≤ gc * kn)%nat.
Proof.
  intros Hg. pose proof rs_total_bound as Hb. pose proof Hc as (Hk & Hp & Hs).
  assert (H1 : Z.of_nat g + 1 ≤ groups c (len protected)) by lia.
  assert (H2 : (Z.of_nat g + 1) * k c ≤ groups c (len protected) * k c)
    by (apply Z.mul_le_mono_nonneg_r; lia).
  split_and!; nia.
Qed.
Lemma rs_geometry_facts :
  (0 < ss)%nat ∧ (0 < kn)%nat ∧ (length protected ≤ gc * kn * ss)%nat
  ∧ Z.of_nat (gc * kn) < 2 ^ 64.
Proof.
  pose proof rs_total_bound as Hb. pose proof (len_nonneg protected) as Hn.
  pose proof Hc as (Hk & Hp & Hs).
  pose proof (groups_cover c (len protected) Hc Hn) as (Hg0 & Hcov & _).
  assert (Hz : Z.of_nat (gc * kn) = groups c (len protected) * k c)
    by (rewrite Nat2Z.inj_mul, !Z2Nat.id; lia).
  split_and!; [lia..| |rewrite Hz; nia].
  apply Nat2Z.inj_le. rewrite Nat2Z.inj_mul, Hz, Z2Nat.id by lia.
  unfold len in Hcov at 1. lia.
Qed.

(** ** One group of the recovery *)
Context (input : FecRecoverInput) (parity : list byte).
Context (HB : built ss (gc * pc) (gc * pc) parity_symbol parity).

Lemma extract_parity g r :
  (g < gc)%nat → (r < pc)%nat →
  extract_parity_symbol parity g r pc ss = parity_symbol (g * pc + r).
Proof.
  intros Hg Hr. assert (Hu : (g * pc + r < gc * pc)%nat) by nia. pose proof HB as [Hl _].
  unfold extract_parity_symbol.
  rewrite (proj2 (Nat.leb_le _ _)) by (rewrite Hl; nia).
  rewrite <- (built_read _ _ _ _ _ HB Hu (length_parity_symbol _)).
  symmetry. apply read_unit_slice. rewrite Hl. nia.
Qed.

Section group.
Context (es : list nat) (Hnd : NoDup es) (Hes : ∀ e, e ∈ es → (e < kn)%nat)
  (Ht : (length es ≤ pc)%nat).
#[local] Abbreviation V := (build_vandermonde_rect kn pc).
#[local] Abbreviation a := (system_matrix V kn (take (length es) (seq 0 pc)) es).

Lemma es_lookup ci : (ci < length es)%nat → es !!! ci ∈ es ∧ (es !!! ci < kn)%nat.
Proof.
  intros Hci. assert (es !!! ci ∈ es); [|by auto].
  destruct (lookup_lt_is_Some_2 es ci Hci) as [e He].
  rewrite (list_lookup_total_correct _ _ _ He). by eapply list_elem_of_lookup_2.
Qed.

Lemma system_matrix_view :
  size a = length es ∧ ∀ r ci, (r < length es)%nat → (ci < length es)%nat →
    get a r ci = vandermonde_coeff r (es !!! ci).
Proof.
  assert (Hsel : take (length es) (seq 0 pc) = seq 0 (length es))
    by (rewrite take_seq; f_equal; lia).
  unfold system_matrix. rewrite Hsel, length_seq.
  rewrite (for_range_ext _ _ (λ a ri, for_range (length es) (λ a ci, set a ri ci
    (vandermonde_coeff ri (es !!! ci))) a)).
  - destruct (view_extract (length es) (λ r ci, vandermonde_coeff r (es !!! ci)))
      as [Hsz HV].
    split; [done|]. intros r ci Hr Hci. unfold get. rewrite Hsz. by apply HV.
  - intros m ri Hri. apply for_range_ext. intros m' ci Hci. f_equal.
    rewrite lookup_total_seq_lt by done. apply (view_vandermonde kn pc); [lia|].
    by apply es_lookup.
Qed.

(** The erased columns of a Vandermonde matrix are independent. *)
Lemma system_nonsingular : nonsingular a.
Proof.
  destruct Hc as (Hk & Hp & Hs). unfold MAX_PARITY_COUNT in Hp.
  destruct system_matrix_view as [Hsz Hget]. intros v Hv ci Hci. rewrite Hsz in *.
  apply (vandermonde_kernel (seq 0 (length es)) (λ ci, gf_pow (Z.of_nat (es !!! ci))));
    [| | |apply elem_of_seq; lia].
  - apply NoDup_fmap_2_strong; [|apply NoDup_seq].
    intros i j Hi%elem_of_seq Hj%elem_of_seq H.
    pose proof (es_lookup i ltac:(lia)) as [_ Hi']. pose proof (es_lookup j ltac:(lia)) as [_ Hj'].
    apply gf_pow_inj in H; [|lia..].
    apply (NoDup_lookup es i j (es !!! i) Hnd); [|apply Nat2Z.inj in H; rewrite H];
      apply list_lookup_lookup_total_lt; lia.
  - intros i _. apply gf_pow_nz. lia.
  - intros r Hr. rewrite length_seq in Hr. rewrite <- (Hv r Hr). unfold dot. rewrite Hsz.
    apply gsum_ext. intros i Hi%elem_of_seq. rewrite Hget by lia.
    pose proof (es_lookup i ltac:(lia)) as [_ Hi'].
    by rewrite vandermonde_coeff_gpow by lia.
Qed.

(** Splitting the parity equation into erased and known symbols. *)
Lemma gsum_erased (f : nat → byte) :
  gsum (seq 0 kn) f
  = gf_add (gsum (seq 0 (length es)) (λ ci, f (es !!! ci)))
      (gsum (filter (λ i, i ∉ es) (seq 0 kn)) f).
Proof.
  rewrite (gsum_filter (λ i, i ∈ es)). f_equal.
  transitivity (gsum es f).
  - apply gsum_proper; [|done]. apply NoDup_Permutation; [|done|].
    + apply NoDup_filter, NoDup_seq.
    + intros i. rewrite list_elem_of_filter, elem_of_seq.
      split; [by intros []|]. intros Hi. split; [done|]. specialize (Hes i Hi). lia.
  - pose proof (gsum_imap (const (id : nat → nat)) es f) as H.
    rewrite imap_const, list_fmap_id in H. exact H.
Qed.

Context (g : nat) (Hg : (g < gc)%nat)
  (Hknown : ∀ i, (i < kn)%nat → i ∉ es →
     read_unit (available_data input) ss (g * kn + i)
     = read_unit protected ss (g * kn + i)).

Lemma system_rhs_lookup r j :
  (r < length es)%nat → (j < ss)%nat →
  (system_rhs V parity (available_data input) kn pc ss g
     (take (length es) (seq 0 pc)) es !!! r) !!! j
  = dot a (λ ci, read_unit protected ss (g * kn + es !!! ci) !!! j) r.
Proof.
  intros Hr Hj. destruct system_matrix_view as [Hsz Hget].
  set (m := a) in *. unfold system_rhs. rewrite take_seq, Nat.min_l by lia.
  rewrite (lookup_map_seq (A := list byte)) by done.
  rewrite extract_parity by lia. rewrite lookup_accumulate.
  2: { apply Forall_fmap, Forall_forall. intros i _. cbn.
       by rewrite length_read_unit, length_parity_symbol. }
  2: by rewrite length_parity_symbol.
  rewrite lookup_parity_symbol, gsum_erased, gsum_fmap by lia.
  rewrite (gsum_ext (filter _ _) (_ ∘ _) (λ i, gf_mul (vandermonde_coeff r i)
    (read_unit protected ss (g * kn + i) !!! j))).
  - rewrite <- gf_add_assoc, gf_add_diag, gf_add_0_r. unfold dot. rewrite Hsz.
    apply gsum_ext. intros ci Hci%elem_of_seq. by rewrite Hget by lia.
  - intros i [Hi Hik%elem_of_seq]%list_elem_of_filter. cbn [compose fst snd].
    rewrite (proj2 (view_vandermonde kn pc)), Hknown by (done || lia). done.
Qed.

Lemma solve_system a_inv ci :
  invert a = Ok a_inv → (ci < length es)%nat →
  mat_vec_mul a_inv (system_rhs V parity (available_data input) kn pc ss g
    (take (length es) (seq 0 pc)) es) ss !!! ci
  = read_unit protected ss (g * kn + es !!! ci).
Proof.
  intros Hinv Hci. destruct system_matrix_view as [Hsz _].
  destruct (invert_nonsingular a system_nonsingular) as (inv & Hi & Hsi & HL).
  rewrite Hi in Hinv. apply Ok_inj in Hinv as <-.
  set (rhs := system_rhs _ _ _ _ _ _ _ _ _).
  assert (Hlr : length rhs = size inv).
  { unfold rhs, system_rhs. rewrite length_fmap, length_take, length_seq. lia. }
  assert (Hfr : Forall (λ v, length v = ss) rhs).
  { unfold rhs, system_rhs. apply Forall_fmap, Forall_forall.
    intros r Hr. cbn. rewrite length_accumulate.
    rewrite take_seq in Hr. apply elem_of_seq in Hr.
    rewrite extract_parity by lia. apply length_parity_symbol. }
  destruct Hc as (_ & _ & Hs).
  destruct (lookup_mat_vec_mul inv rhs ss ci 0 Hlr Hfr) as (_ & Hl & _); [lia..|].
  apply list_eq_total; [by rewrite Hl, length_read_unit|]. rewrite Hl. intros j Hj.
  destruct (lookup_mat_vec_mul inv rhs ss ci j Hlr Hfr) as (_ & _ & ->); [lia..|].
  rewrite <- (left_inverse_solve inv a
    (λ ci, read_unit protected ss (g * kn + es !!! ci) !!! j) ci HL) by lia.
  rewrite Hsi. apply gsum_ext. intros r Hr%elem_of_seq. f_equal.
  apply system_rhs_lookup; lia.
Qed.
End group.

(** The parts of [recover_group] both outcomes share. *)
Lemma recover_group_erasures out g :
  (g < gc)%nat →
  recover_group input (build_vandermonde_rect kn pc) parity kn pc ss out g
  = let es := group_of kn (erasures input) g in
    if bool_decide (es = []) then Ok out
    else if (pc <? length es)%nat then
      Err (FecError.EcFailed "RS: erased data symbols exceed parity count for this group")
    else
      a_inv ← invert (system_matrix (build_vandermonde_rect kn pc) kn
                        (take (length es) (seq 0 pc)) es);
      let recovered :=
        mat_vec_mul a_inv
          (system_rhs (build_vandermonde_rect kn pc) parity (available_data input)
             kn pc ss g (take (length es) (seq 0 pc)) es) ss in
      Ok (for_range (length es)
            (λ out ci,
               if ((g * kn + es !!! ci) * ss + ss <=? length out)%nat
               then write_unit out ss (g * kn + es !!! ci) (recovered !!! ci)
               else out) out).
Proof.
  intros Hg. pose proof (rs_group_range g Hg) as (R0 & R1 & R2).
  pose proof Hc as (Hk & _ & _). assert (Hkz : Z.of_nat kn = k c) by lia.
  unfold recover_group.
  rewrite (checked_mul_fits 64 (Z.of_nat g)) by (rewrite Hkz; lia).
  rewrite (checked_mul_fits 64 (Z.of_nat g + 1)) by (rewrite Hkz; lia). done.
Qed.
Lemma length_group_of g :
  (g < gc)%nat →
  Z.of_nat (length (group_of kn (erasures input) g))
  = len (filter (λ e, in_group c (Z.of_nat g) e = true) (erasures input)).
Proof.
  intros Hg. pose proof (rs_group_range g Hg) as (R0 & R1 & R2).
  pose proof Hc as (Hk & _ & _). assert (Hkz : Z.of_nat kn = k c) by lia.
  unfold group_of. rewrite length_group_erasures by (rewrite Hkz; lia).
  by rewrite Hkz.
Qed.

Context (Hndup : NoDup (erasures input))
  (Hnonneg : ∀ e, e ∈ erasures input → 0 ≤ index e)
  (Htol : ∀ g, len (filter (λ e, in_group c g e = true) (erasures input))
               ≤ parity_count c)
  (Hagree : ∀ i : nat,
     ¬ erased (erasures input) (Z.of_nat i / Z.of_nat ss) →
     available_data input !!! i = protected !!! i).

Lemma recover_group_restores out g :
  (g < gc)%nat → length out = (gc * kn * ss)%nat →
  recover_group input (build_vandermonde_rect kn pc) parity kn pc ss out g
  = Ok (foldl (restore ss protected) out (writes kn (erasures input) g)).
Proof.
  intros Hg Hout. pose proof rs_geometry_facts as (G1 & G2 & G3 & G4).
  rewrite recover_group_erasures by done. cbv zeta. unfold writes.
  pose proof (length_group_of g Hg) as Hcard. specialize (Htol (Z.of_nat g)).
  assert (Hnd : NoDup (group_of kn (erasures input) g))
    by (apply NoDup_group_erasures; [lia|done]).
  assert (Hlt : ∀ e, e ∈ group_of kn (erasures input) g → (e < kn)%nat).
  { intros e. by apply (group_lt ss kn gc protected). }
  assert (Hknown : ∀ i, (i < kn)%nat → i ∉ group_of kn (erasures input) g →
    read_unit (available_data input) ss (g * kn + i) = read_unit protected ss (g * kn + i)).
  { intros i Hi Hnin. by apply (read_unit_known ss kn gc _ _ (erasures input)). }
  revert Hcard Hnd Hlt Hknown. generalize (group_of kn (erasures input) g) as es.
  intros es Hcard Hnd Hlt Hknown. case_bool_decide as E; [by subst|].
  assert (Ht : (length es ≤ pc)%nat) by lia. rewrite (proj2 (Nat.ltb_ge _ _)) by done.
  destruct (invert_nonsingular _ (system_nonsingular es Hnd Hlt Ht)) as (inv & Hi & _ & _).
  rewrite Hi. cbn [mbind result_bind]. f_equal. rewrite foldl_fmap.
  apply (for_range_foldl (λ out, length out = (gc * kn * ss)%nat)); [done|].
  intros out' ci Hci Hout'. destruct (es_lookup es Hlt ci Hci) as [_ He].
  assert (Hu : (g * kn + es !!! ci + 1 ≤ gc * kn)%nat) by nia.
  assert (Hfit : ((g * kn + es !!! ci + 1) * ss ≤ length out')%nat)
    by (rewrite Hout'; by apply Nat.mul_le_mono_r).
  rewrite (proj2 (Nat.leb_le _ _)) by lia.
  rewrite solve_system by done. split; [done|]. unfold restore.
  rewrite length_write_unit; [done|apply length_read_unit|done].
Qed.
End encode.

(** ** The contract *)

(** The [recover] of an encoded value up to its loop. *)
Lemma rs_recover_loop c protected v input :
  codec_wf c → len protected < 2 ^ 63 → encode_recovery c protected = Ok v →
  original_protected_len input = len protected → fec_value_data input = data v →
  let kn := Z.to_nat (k c) in
  let pc := Z.to_nat (parity_count c) in
  let ss := Z.to_nat (symbol_size c) in
  let gc := Z.to_nat (groups c (len protected)) in
  ∃ parity,
    built ss (gc * pc) (gc * pc) (parity_symbol c protected) parity
    ∧ validate c (data v) = Ok tt ∧ algo_id v = FEC_ALGO_REED_SOLOMON
    ∧ recover c input
      = (out ← for_each
                 (recover_group input (build_vandermonde_rect kn pc) parity kn pc ss)
                 (copy_available (gc * kn * ss) (available_data input)) (seq 0 gc);
         Ok (take (length protected) out)).
Proof.
  intros Hc Hlen He Ho Hd. pose proof (len_nonneg protected) as Hn.
  pose proof Hc as (Hk & Hp & Hs). unfold MAX_PARITY_COUNT in Hp.
  pose proof (groups_cover c (len protected) Hc Hn) as (Hg0 & _ & _).
  pose proof (rs_total_bound c protected Hc Hlen) as Hb.
  pose proof (rs_encode_recovery_cases c protected Hc Hlen) as H.
  destruct (Z.ltb_spec (groups c (len protected)) (2 ^ 32)) as [Hlt|]; [|by rewrite He in H].
  destruct (Z.leb_spec (groups c (len protected) * parity_count c * symbol_size c)
    MAX_PARITY_SIZE) as [Hmax|]; [|by rewrite He in H].
  destruct H as (parity & HB & H). rewrite H in He. apply Ok_inj in He as <-.
  exists parity. pose proof (rs_validate_encoded c protected Hc Hlen parity HB Hlt Hmax) as Hval.
  split_and!; [done..|]. cbn [data] in Hd. unfold recover. rewrite Hd.
  unfold MAX_PARITY_SIZE in Hmax.
  rewrite rs_parse_header_enc by (done || unfold fits; lia). cbn [mbind result_bind].
  rewrite Hval. cbn [mbind result_bind]. rewrite Ho, Z.eqb_refl. cbn [negb].
  rewrite !try_from_fits by lia. cbn [ok_or mbind result_bind].
  rewrite parity_data_len_eq by lia. cbn [mbind result_bind]. destruct HB as [HBl _].
  assert (Hpl : len parity = groups c (len protected) * parity_count c * symbol_size c).
  { unfold len at 1. rewrite HBl, !Nat2Z.inj_mul, !Z2Nat.id; lia. }
  rewrite (proj2 (slice_r_Ok _ _ _ parity)).
  2: { rewrite <- Hpl, len_app, len_header_bytes. unfold HEADER_SIZE.
       pose proof (len_nonneg parity). split_and!; [|lia..]. symmetry.
       pose proof (slice_app_mid
         (header_bytes c (len protected) (groups c (len protected))) parity []) as Hsl.
       by rewrite app_nil_r, len_header_bytes in Hsl. }
  cbn [mbind result_bind].
  rewrite (checked_mul_fits 64 _ (k c)) by nia. cbn [mbind option_bind].
  rewrite checked_mul_fits by lia. cbn [ok_or mbind result_bind].
  rewrite !Z2Nat.inj_mul by lia. unfold len. by rewrite Nat2Z.id.
Qed.

Lemma rs_recover_encode c protected v input :
  codec_wf c → len protected < 2 ^ 63 → encode_recovery c protected = Ok v →
  recoverable c protected v input → recover c input = Ok protected.
Proof.
  intros Hc Hlen He (Ho & Hd & Hnd & Hnn & Htol & Hin & Hpad).
  destruct (rs_recover_loop c protected v input Hc Hlen He Ho Hd)
    as (parity & HB & _ & _ & ->).
  pose proof (rs_geometry_facts c protected Hc Hlen) as (G1 & G2 & G3 & G4).
  pose proof (agree_total _ _ (λ i, ¬ erased (erasures input) (Z.of_nat i / symbol_size c)) Hin Hpad)
    as Hagree. rewrite <- (Z2Nat.id (symbol_size c)) in Hagree by (destruct Hc; lia).
  rewrite (recover_groups _ _ _ protected _ (erasures input)); try done.
  - cbn [mbind result_bind]. by erewrite take_protected.
  - intros out g Hg Hout. by apply recover_group_restores.
Qed.
Lemma rs_encode_valid c protected v :
  codec_wf c → len protected < 2 ^ 63 → encode_recovery c protected = Ok v →
  algo_id v = FEC_ALGO_REED_SOLOMON ∧ validate c (data v) = Ok tt.
Proof.
  intros Hc Hlen He.
  destruct (rs_recover_loop c protected v {| original_protected_len := len protected;
    available_data := []; fec_value_data := data v; erasures := [] |} Hc Hlen He)
    as (parity & _ & H1 & H2 & _); done.
Qed.

#[export] Instance rs_laws : FecLaws RsCodec codec_wf.
Proof.
  split.
  - intros c protected v. apply rs_encode_valid.
  - intros c protected v input. apply rs_recover_encode.
Qed.

(** ** No panics on untrusted metadata *)

Lemma expected_group_count_no_panic n kk ss : no_panic (expected_group_count n kk ss).
Proof. unfold expected_group_count, ceil_div_u64. np. Qed.
Lemma parity_data_len_no_panic gc pc ss : no_panic (parity_data_len gc pc ss).
Proof. unfold parity_data_len. np. Qed.
#[local] Hint Resolve rs_parse_header_no_panic expected_group_count_no_panic
  parity_data_len_no_panic : no_panic.
Lemma rs_validate_no_panic c data : no_panic (validate c data).
Proof. unfold validate. np. Qed.
Lemma parse_rs_meta_no_panic data : no_panic (parse_rs_meta data).
Proof. unfold parse_rs_meta. np. Qed.
Lemma rs_from_fec_value_no_panic data : no_panic (from_fec_value data).
Proof.
  unfold from_fec_value, new. dif as E; [done|].
  apply no_panic_bind; [apply index_r_no_panic; lia|]. intros b0 _.
  apply no_panic_bind; [apply index_r_no_panic; lia|]. intros b1 _.
  apply no_panic_bind; [apply slice_r_no_panic; lia|]. intros s _. np.
Qed.

(** A valid value holds exactly the parity its header announces. *)
Lemma rs_validate_Ok c data kk pc ss ol gc :
  parse_header data = Ok (kk, pc, ss, ol, gc) → validate c data = Ok tt →
  kk = k c ∧ pc = parity_count c ∧ ss = symbol_size c
  ∧ len data = HEADER_SIZE + gc * pc * ss ∧ parity_data_len gc pc ss = Ok (gc * pc * ss).
Proof.
  intros Hh H. unfold validate in H. rewrite Hh in H. cbn [mbind result_bind] in H.
  apply guard_Ok in H as [Hcfg H]. apply orb_false_iff in Hcfg as [[E1 E2]%orb_false_iff E3].
  apply negb_false_iff, Z.eqb_eq in E1, E2, E3. apply guard_Ok in H as [_ H].
  apply bind_Ok in H as (egc & _ & H). apply guard_Ok in H as [_ H].
  apply bind_Ok in H as (pl & Hpl & H). pose proof (parity_data_len_Ok _ _ _ _ Hpl) as ->.
  apply guard_Ok in H as [_ H].
  apply bind_Ok in H as (av & (-> & Hle)%ok_or_Ok%checked_sub_Some & H).
  apply guard_Ok in H as [Ha _]. apply negb_false_iff, Z.eqb_eq in Ha.
  split_and!; (done || lia).
Qed.
Lemma invert_no_panic m : no_panic (invert m).
Proof. pose proof (invert_cases m) as H. unfold no_panic. by destruct (invert m). Qed.
Lemma recover_group_no_panic input V parity kn pc ss out g :
  no_panic (recover_group input V parity kn pc ss out g).
Proof.
  unfold recover_group. apply no_panic_bind; [apply no_panic_ok_or|]. intros s0 _.
  apply no_panic_bind; [apply no_panic_ok_or|]. intros s1 _. case_bool_decide; [done|].
  case_match; [done|]. apply no_panic_bind; [apply invert_no_panic|done].
Qed.
Lemma rs_recover_no_panic c input : no_panic (recover c input).
Proof.
  unfold recover. apply no_panic_bind; [apply rs_parse_header_no_panic|].
  intros [[[[kk pc] ss] ol] gc] Hh.
  pose proof (rs_parse_header_Ok _ _ _ _ _ _ Hh) as (_ & _ & Hpc & Hss & _ & [Hg _]).
  apply no_panic_bind; [apply rs_validate_no_panic|]. intros [] Hv.
  destruct (rs_validate_Ok _ _ _ _ _ _ _ Hh Hv) as (-> & -> & -> & Hl & Hpl).
  dif as E; [done|].
  apply no_panic_bind; [apply no_panic_ok_or|]. intros x [-> _]%ok_or_Ok%try_from_Some.
  apply no_panic_bind; [apply no_panic_ok_or|]. intros x [-> _]%ok_or_Ok%try_from_Some.
  rewrite Hpl. cbn [mbind result_bind].
  apply no_panic_bind; [apply slice_r_no_panic; unfold HEADER_SIZE in *; nia|]. intros p _.
  apply no_panic_bind; [apply no_panic_ok_or|]. intros total _.
  apply no_panic_bind; [|intros out _; np].
  apply for_each_no_panic. intros out g _. apply recover_group_no_panic.
Qed.

(** (C22) Reed-Solomon recovery is exact: if each group has at most as many known
    erasures as it has parity symbols, and outside the erased symbols the available bytes are
    the protected ones (so a missing suffix lies in erased symbols) and any bytes beyond the
    protected ones are zero, [recover] returns the protected bytes, whatever the erased
    symbols hold; and the value passes [validate].  Other bytes beyond the protected ones are
    read into the last symbol and make the result wrong. *)
Theorem rs_recovers c protected v input :
  codec_wf c → len protected < 2 ^ 63 → encode_recovery c protected = Ok v →
  recoverable c protected v input →
  recover c input = Ok protected ∧ validate c (data v) = Ok tt.
Proof.
  intros Hc Hlen He Hr. split; [by eapply rs_recover_encode|].
  by eapply rs_encode_valid.
Qed.

Lemma recover_group_cases c (protected : list byte) input parity out g :
  codec_wf c → len protected < 2 ^ 63 →
  NoDup (erasures input) → (∀ e, e ∈ erasures input → 0 ≤ index e) →
  let kn := Z.to_nat (k c) in
  let pc := Z.to_nat (parity_count c) in
  let ss := Z.to_nat (symbol_size c) in
  let gc := Z.to_nat (groups c (len protected)) in
  (g < gc)%nat →
  let es := filter (λ e, in_group c (Z.of_nat g) e = true) (erasures input) in
  if parity_count c <? len es then
    recover_group input (build_vandermonde_rect kn pc) parity kn pc ss out g
    = Err (FecError.EcFailed "RS: erased data symbols exceed parity count for this group")
  else
    is_ok (recover_group input (build_vandermonde_rect kn pc) parity kn pc ss out g) = true.
Proof.
  intros Hc Hlen Hnd Hnn kn pc ss gc Hg es.
  pose proof (rs_geometry_facts c protected Hc Hlen) as (G1 & G2 & G3 & G4).
  unfold kn, pc, ss. rewrite (recover_group_erasures c protected) by done. cbv zeta.
  pose proof (length_group_of c protected Hc Hlen input g Hg) as Hcard. fold es in Hcard.
  assert (Hnd' : NoDup (group_of kn (erasures input) g))
    by (apply NoDup_group_erasures; [lia|done]).
  assert (Hlt : ∀ e, e ∈ group_of kn (erasures input) g → (e < kn)%nat)
    by (intros e; by apply (group_lt ss kn gc protected)).
  fold kn in Hcard |- *. revert Hcard Hnd' Hlt.
  generalize (group_of kn (erasures input) g) as l. intros l Hcard Hnd' Hlt.
  pose proof Hc as (_ & Hp & _).
  destruct (Z.ltb_spec (parity_count c) (len es)).
  - rewrite bool_decide_eq_false_2 by (intros ->; cbn in Hcard; lia).
    by rewrite (proj2 (Nat.ltb_lt _ _)) by lia.
  - case_bool_decide; [done|]. rewrite (proj2 (Nat.ltb_ge _ _)) by lia.
    destruct (invert_nonsingular _ (system_nonsingular c Hc l Hnd' Hlt ltac:(lia)))
      as (inv & Hi & _). unfold kn. by rewrite Hi.
Qed.

(** Beyond the parity count of a group, Reed-Solomon recovery is refused
    with an error instead of returning guessed bytes. *)
Theorem rs_too_many_erasures_refused c protected v input g :
  codec_wf c → len protected < 2 ^ 63 → encode_recovery c protected = Ok v →
  original_protected_len input = len protected → fec_value_data input = data v →
  NoDup (erasures input) → (∀ e, e ∈ erasures input → 0 ≤ index e) →
  0 ≤ g < groups c (len protected) →
  parity_count c < len (filter (λ e, in_group c g e = true) (erasures input)) →
  recover c input
  = Err (FecError.EcFailed "RS: erased data symbols exceed parity count for this group").
Proof.
  intros Hc Hlen He Ho Hd Hnd Hnn Hg Hmany.
  destruct (rs_recover_loop c protected v input Hc Hlen He Ho Hd)
    as (parity & _ & _ & _ & ->).
  erewrite (for_each_fails _ (λ _, True)); [done|done|..].
  - intros out x Hx%elem_of_seq _.
    pose proof (recover_group_cases c protected input parity out x Hc Hlen Hnd Hnn
      ltac:(lia)) as H. cbv zeta in H. destruct (_ <? _); [by left|right].
    destruct (recover_group _ _ _ _ _ _ _ _); [by eexists|done..].
  - exists (Z.to_nat g). split; [apply elem_of_seq; lia|]. intros out _.
    pose proof (recover_group_cases c protected input parity out (Z.to_nat g) Hc
      Hlen Hnd Hnn ltac:(lia)) as H. cbv zeta in H. rewrite Z2Nat.id in H by lia.
    by rewrite (proj2 (Z.ltb_lt _ _) Hmany) in H.
Qed.

(** Eleven bytes in groups of three two-byte symbols with two parity symbols. *)
Definition sample_codec : RsCodec := {| k := 3; parity_count := 2; symbol_size := 2 |}.
Definition sample_protected : list byte := byte_of ∘ Z.of_nat <$> seq 100 11.
Definition sample_value : FecValue :=
  Eval vm_compute in
    match encode_recovery sample_codec sample_protected with
    | Ok v => v
    | _ => {| algo_id := 0; data := [] |}
    end.
Definition sample_input (es : list Erasure) : FecRecoverInput :=
  {| original_protected_len := 11;
     available_data := replicate 4 xff ++ drop 4 sample_protected;
     fec_value_data := data sample_value; erasures := es |}.
Lemma rs_sample_wf : codec_wf sample_codec.
Proof. by vm_compute. Qed.

Lemma rs_recovers_witness :
  recover sample_codec (sample_input [{| index := 0 |}; {| index := 1 |}])
  = Ok sample_protected.
Proof.
  apply (rs_recovers sample_codec sample_protected sample_value);
    [apply rs_sample_wf|by vm_compute|by vm_compute|].
  unfold recoverable. split_and!; [done|done| | | | |].
  - repeat constructor; set_solver.
  - intros e He. cbn [erasures sample_input] in He.
    repeat (apply elem_of_cons in He as [->|He]; [done|]). by apply not_elem_of_nil in He.
  - intros g. apply (Nat2Z.inj_le _ 2), (length_filter _ [_; _]).
  - intros i Hi He. destruct (decide (i < 4)%nat) as [Hlt|Hge].
    + destruct He. unfold erased. cbn [erasures sample_input unit_size rs_geometry
        sample_codec symbol_size].
      destruct i as [|[|[|[|]]]]; [..|lia]; set_solver.
    + cbn [available_data sample_input].
      rewrite lookup_app_r by (rewrite length_replicate; lia).
      rewrite length_replicate, lookup_drop. f_equal. lia.
  - intros i b Hi _ Hb%lookup_lt_Some. vm_compute in Hi, Hb. lia.
Defined.

Lemma rs_too_many_erasures_refused_witness :
  recover sample_codec (sample_input [{| index := 0 |}; {| index := 1 |}; {| index := 2 |}])
  = Err (FecError.EcFailed "RS: erased data symbols exceed parity count for this group").
Proof.
  apply (rs_too_many_erasures_refused sample_codec sample_protected sample_value _ 0);
    [apply rs_sample_wf|by vm_compute|by vm_compute|done|done| | |by vm_compute..].
  - repeat constructor; set_solver.
  - intros e He. cbn [erasures sample_input] in He.
    repeat (apply elem_of_cons in He as [->|He]; [done|]). by apply not_elem_of_nil in He.
Defined.

End RsFec.
