(* ===== verification/FecRegistry.v ===== *)
(** * The FEC registry and the recovery metadata of the container

    Models [crates/sar-fec/src/registry.rs] (dispatch on the algorithm id) and the
    recovery part of [crates/sar-core/src/fec.rs] (summaries, the RECOVERY TLV and
    the FEC value of a local header).  The lemmas say that a value the encoder
    made is accepted with the metadata it was made from, that the reader rebuilds
    the very codec that encoded it, and that no untrusted value panics. *)

From S2P Require Import Prelude Errors Limits FecTypes Tlv FecBlocks XorFec RsFec.
Import Limits FecTypes.

Module FecRegistry.
#[local] Existing Instances XorFec.xor_codec XorFec.xor_geometry XorFec.xor_laws
  RsFec.rs_codec RsFec.rs_geometry RsFec.rs_laws.

(** [parse_fec_value]. *)
Definition parse_fec_value (algo_id : Z) (value_data : list byte)
    : result FecError.t FecMeta :=
  if algo_id =? 17 then
    codec ← RsFec.from_fec_value value_data;
    _ ← validate codec value_data;
    m ← RsFec.parse_rs_meta value_data;
    Ok (Rs m)
  else if algo_id =? 20 then
    codec ← XorFec.from_fec_value value_data;
    _ ← validate codec value_data;
    m ← XorFec.parse_xor_meta value_data;
    Ok (Xor m)
  else if (algo_id =? 16) || ((23 <=? algo_id) && (algo_id <=? 31)) then
    Err (FecError.ReservedValue "reserved FEC algorithm ID")
  else if (algo_id =? 18) || (algo_id =? 19) || (algo_id =? 21) || (algo_id =? 22) then
    Err (FecError.Unsupported "FEC algorithm is assigned but not implemented")
  else Err (FecError.ReservedValue "FEC algo ID out of defined range").

(** [encode_fec]. *)
Definition encode_fec (algo_id : Z) (protected : list byte) (config0 config1 : Z)
    (symbol_size_for_rs : option Z) : result FecError.t FecValue :=
  if algo_id =? 17 then
    symbol_size ← ok_or symbol_size_for_rs
                    (FecError.Malformed "RS codec requires a symbol_size parameter");
    codec ← RsFec.new config0 config1 symbol_size;
    encode_recovery codec protected
  else if algo_id =? 20 then
    codec ← XorFec.new config0 config1;
    encode_recovery codec protected
  else if (algo_id =? 16) || ((23 <=? algo_id) && (algo_id <=? 31)) then
    Err (FecError.ReservedValue "reserved FEC algorithm ID")
  else Err (FecError.Unsupported "FEC algorithm is assigned but not implemented").

(** [enum FecSummary] and [FecSummary::from_meta]. *)
Inductive FecSummary :=
  | SummaryXor (algo_id stripe_size block_size original_protected_len stripe_count
      parity_data_len : Z)
  | SummaryReedSolomon (algo_id k parity_count symbol_size original_protected_len
      group_count parity_data_len : Z).
Definition from_meta (algo_id : Z) (meta : FecMeta) : FecSummary :=
  match meta with
  | Xor m =>
      SummaryXor algo_id (xor_stripe_size m) (xor_block_size m)
        (xor_original_protected_len m) (xor_stripe_count m) (xor_parity_data_len m)
  | Rs m =>
      SummaryReedSolomon algo_id (rs_k m) (rs_parity_count m) (rs_symbol_size m)
        (rs_original_protected_len m) (rs_group_count m) (rs_parity_data_len m)
  end.

(** [validate_recovery_tlv]. *)
Definition validate_recovery_tlv (type_id : Z) (value : list byte) (limits : ResourceLimits)
    : result SarError.t FecSummary :=
  _ ← Tlv.classify_recovery_tlv_id type_id;
  if type_id =? 0 then Err (SarError.Malformed "RECOVERY TLV must have non-zero type ID")
  else
    _ ← check_fec_value_bytes limits (len value);
    meta ← map_err FecError.to_sar (parse_fec_value type_id value);
    Ok (from_meta type_id meta).

(** [validate_lfh_fec_algo_id], [parse_lfh_fec_value]. *)
Definition validate_lfh_fec_algo_id (algo_id : Z) : result SarError.t unit :=
  map_err FecError.to_sar (validate_fec_algo_id algo_id).
Definition parse_lfh_fec_value (algo_id : Z) (fec_value : list byte)
    (limits : ResourceLimits) : result SarError.t (option FecSummary) :=
  if algo_id =? 0 then Ok None
  else
    _ ← validate_lfh_fec_algo_id algo_id;
    if len fec_value =? 0 then
      Err (SarError.InvalidLength "LFH FEC value must be non-empty for non-zero algo ID")
    else
      _ ← check_fec_value_bytes limits (len fec_value);
      meta ← map_err FecError.to_sar (parse_fec_value algo_id fec_value);
      Ok (Some (from_meta algo_id meta)).

(** ** The reader rebuilds the encoder's codec *)
Section xor.
Import XorFec.

Lemma xor_new_codec c :
  codec_wf c → new (stripe_size c) (block_size_index c) = Ok c.
Proof.
  intros [Hs Hb]. unfold new. rewrite (proj2 (Z.eqb_neq _ _)), Hb by lia.
  by destruct c.
Qed.

Lemma xor_reader c protected v :
  codec_wf c → len protected < 2 ^ 63 → encode_recovery c protected = Ok v →
  from_fec_value (data v) = Ok c
  ∧ parse_xor_meta (data v)
    = Ok {| xor_stripe_size := stripe_size c; xor_block_size := block_size c;
            xor_original_protected_len := len protected;
            xor_stripe_count := stripes c (len protected);
            xor_parity_data_len := stripes c (len protected) * block_size c |}
  ∧ len (data v) = HEADER_SIZE + stripes c (len protected) * block_size c.
Proof.
  intros Hc Hlen He. pose proof (len_nonneg protected) as Hn.
  pose proof (codec_wf_block c Hc) as [Hi Hbs]. pose proof Hc as [Hss _].
  pose proof (stripes_cover c (len protected) Hc Hn) as (Hs0 & _ & _).
  pose proof (encode_recovery_cases c protected Hc Hlen) as H.
  destruct (Z.leb_spec (stripes c (len protected) * block_size c) MAX_PARITY_SIZE)
    as [Hmax|]; [|by rewrite He in H]. unfold MAX_PARITY_SIZE in Hmax.
  destruct H as (parity & [Hl _] & H). rewrite H in He. apply Ok_inj in He as <-.
  cbn [data]. split_and!.
  - transitivity (new (stripe_size c) (block_size_index c)); [|by apply xor_new_codec].
    unfold from_fec_value.
    rewrite (proj2 (Z.ltb_ge _ _))
      by (pose proof (len_nonneg parity); autorewrite with len; lia).
    cbn [app]. rewrite !(index_r_cons _ _ _) by done. cbn [mbind result_bind].
    by rewrite !byte_val_of_small by lia.
  - unfold parse_xor_meta. rewrite parse_header_enc by (done || unfold fits; nia).
    cbn [mbind result_bind]. by rewrite parity_len_eq by lia.
  - assert (Hpl : len parity = stripes c (len protected) * block_size c)
      by (unfold len at 1; rewrite Hl; nia).
    autorewrite with len. rewrite Hpl. unfold HEADER_SIZE. lia.
Qed.
End xor.

Section rs.
Import RsFec.

Lemma rs_new_codec c :
  codec_wf c → new (k c) (parity_count c) (symbol_size c) = Ok c.
Proof.
  intros (Hk & Hp & Hs). unfold MAX_PARITY_COUNT in Hp. unfold new, MAX_PARITY_COUNT.
  rewrite !(proj2 (Z.eqb_neq _ _)) by lia. dif as E; [lia|]. by destruct c.
Qed.

Lemma rs_reader c protected v :
  codec_wf c → len protected < 2 ^ 63 → encode_recovery c protected = Ok v →
  from_fec_value (data v) = Ok c
  ∧ parse_rs_meta (data v)
    = Ok {| rs_k := k c; rs_parity_count := parity_count c;
            rs_symbol_size := symbol_size c;
            rs_original_protected_len := len protected;
            rs_group_count := groups c (len protected);
            rs_parity_data_len :=
              groups c (len protected) * parity_count c * symbol_size c |}
  ∧ len (data v)
    = HEADER_SIZE + groups c (len protected) * parity_count c * symbol_size c.
Proof.
  intros Hc Hlen He. pose proof (len_nonneg protected) as Hn.
  pose proof Hc as (Hk & Hp & Hs). unfold MAX_PARITY_COUNT in Hp.
  pose proof (groups_cover c (len protected) Hc Hn) as (Hg0 & _ & _).
  pose proof (rs_encode_recovery_cases c protected Hc Hlen) as H.
  destruct (Z.ltb_spec (groups c (len protected)) (2 ^ 32)) as [Hlt|]; [|by rewrite He in H].
  destruct (Z.leb_spec (groups c (len protected) * parity_count c * symbol_size c)
    MAX_PARITY_SIZE) as [Hmax|]; [|by rewrite He in H]. unfold MAX_PARITY_SIZE in Hmax.
  destruct H as (parity & [Hl _] & H). rewrite H in He. apply Ok_inj in He as <-.
  cbn [data]. split_and!.
  - transitivity (new (k c) (parity_count c) (symbol_size c)); [|by apply rs_new_codec].
    unfold from_fec_value.
    assert (Hlen' : 18 ≤ len (header_bytes c (len protected) (groups c (len protected))
      ++ parity)).
    { rewrite len_app, len_header_bytes. unfold HEADER_SIZE.
      pose proof (len_nonneg parity). lia. }
    rewrite (proj2 (Z.ltb_ge _ _)) by lia.
    assert (Hsl : slice_r (E := FecError.t)
      (header_bytes c (len protected) (groups c (len protected)) ++ parity) 2 6
      = Ok (le_bytes 4 (symbol_size c))).
    { apply slice_r_Ok. split_and!; [|lia..]. symmetry. unfold header_bytes.
      rewrite <- !app_assoc. apply (slice_app_mid [_; _] (le_bytes 4 (symbol_size c))). }
    rewrite (index_r_cons _ 0 (byte_of (k c))) by done.
    rewrite (index_r_cons _ 1 (byte_of (parity_count c))) by done.
    cbn [mbind result_bind]. rewrite Hsl. cbn [mbind result_bind].
    rewrite !byte_val_of_small by lia. by rewrite le_val_bytes by (unfold fits; lia).
  - unfold parse_rs_meta. rewrite rs_parse_header_enc by (done || unfold fits; lia).
    cbn [mbind result_bind]. by rewrite parity_data_len_eq by lia.
  - assert (Hpl : len parity = groups c (len protected) * parity_count c * symbol_size c).
    { unfold len at 1. rewrite Hl, !Nat2Z.inj_mul, !Z2Nat.id; lia. }
    by rewrite len_app, len_header_bytes, Hpl.
Qed.
End rs.

(** ** What the encoder makes is accepted *)

Lemma encode_fec_Ok algo protected c0 c1 sym v :
  encode_fec algo protected c0 c1 sym = Ok v →
  (algo = FEC_ALGO_REED_SOLOMON ∧ ∃ s c, sym = Some s ∧ RsFec.new c0 c1 s = Ok c
     ∧ RsFec.encode_recovery c protected = Ok v)
  ∨ (algo = FEC_ALGO_XOR ∧ ∃ c, XorFec.new c0 c1 = Ok c
     ∧ XorFec.encode_recovery c protected = Ok v).
Proof.
  intros H. unfold encode_fec in H. destruct (Z.eqb_spec algo 17) as [->|].
  - apply bind_Ok in H as (s & Hs%ok_or_Ok & H). apply bind_Ok in H as (c & Hc & H).
    left. split; [done|]. by exists s, c.
  - destruct (Z.eqb_spec algo 20) as [->|]; [|by case_match].
    apply bind_Ok in H as (c & Hc & H). right. split; [done|]. by exists c.
Qed.
Lemma xor_new_fields c0 c1 c :
  XorFec.new c0 c1 = Ok c →
  XorFec.stripe_size c = c0 ∧ XorFec.block_size_index c = c1.
Proof.
  unfold XorFec.new. intros [_ H]%guard_Ok. by apply bind_Ok in H as (b & _ & [= <-]).
Qed.
Lemma rs_new_fields c0 c1 s c :
  RsFec.new c0 c1 s = Ok c →
  RsFec.k c = c0 ∧ RsFec.parity_count c = c1 ∧ RsFec.symbol_size c = s.
Proof.
  unfold RsFec.new.
  by intros [_ [_ [_ [_ [= <-]]%guard_Ok]%guard_Ok]%guard_Ok]%guard_Ok.
Qed.

(** The metadata an encoded value parses to. *)
Definition announced (algo : Z) (protected : list byte) (c0 c1 : Z) (sym : option Z)
    (m : FecMeta) : Prop :=
  (∃ c s, algo = FEC_ALGO_REED_SOLOMON ∧ sym = Some s ∧ RsFec.new c0 c1 s = Ok c
     ∧ m = Rs {| rs_k := c0; rs_parity_count := c1; rs_symbol_size := s;
                 rs_original_protected_len := len protected;
                 rs_group_count := RsFec.groups c (len protected);
                 rs_parity_data_len := RsFec.groups c (len protected) * c1 * s |})
  ∨ (∃ c, algo = FEC_ALGO_XOR ∧ XorFec.new c0 c1 = Ok c
     ∧ m = Xor {| xor_stripe_size := c0; xor_block_size := XorFec.block_size c;
                  xor_original_protected_len := len protected;
                  xor_stripe_count := XorFec.stripes c (len protected);
                  xor_parity_data_len :=
                    XorFec.stripes c (len protected) * XorFec.block_size c |}).

Lemma parse_encoded algo protected c0 c1 sym v :
  fits 8 c0 → fits 8 c1 → (∀ s, sym = Some s → fits 32 s) → len protected < 2 ^ 63 →
  encode_fec algo protected c0 c1 sym = Ok v →
  algo_id v = algo ∧ 0 < len (data v)
  ∧ ∃ m, parse_fec_value algo (data v) = Ok m ∧ announced algo protected c0 c1 sym m.
Proof.
  intros H0 H1 Hsym Hlen [(-> & s & c & -> & Hc & He)|(-> & c & Hc & He)]%encode_fec_Ok.
  - pose proof (RsFec.rs_new_codec_wf _ _ _ _ H0 H1 (Hsym s eq_refl) Hc) as Hwf.
    destruct (rs_reader c protected v Hwf Hlen He) as (Hf & Hm & Hl).
    destruct (@encode_valid _ _ _ _ RsFec.rs_laws c protected v Hwf Hlen He) as [Ha Hv].
    destruct (RsFec.groups_cover c (len protected) Hwf (len_nonneg _)) as [Hg _].
    pose proof Hwf as (_ & Hp & Hs).
    split; [done|]. split; [rewrite Hl; unfold RsFec.HEADER_SIZE; nia|].
    eexists. split.
    + unfold parse_fec_value. cbn [Z.eqb FEC_ALGO_REED_SOLOMON Pos.eqb].
      rewrite Hf. cbn [mbind result_bind]. rewrite Hv. cbn [mbind result_bind].
      rewrite Hm. done.
    + left. exists c, s. by destruct (rs_new_fields _ _ _ _ Hc) as (<- & <- & <-).
  - unfold fits in H0. pose proof (XorFec.new_codec_wf _ _ _ H0 Hc) as Hwf.
    destruct (xor_reader c protected v Hwf Hlen He) as (Hf & Hm & Hl).
    destruct (@encode_valid _ _ _ _ XorFec.xor_laws c protected v Hwf Hlen He) as [Ha Hv].
    destruct (XorFec.stripes_cover c (len protected) Hwf (len_nonneg _)) as [Hg _].
    pose proof (XorFec.codec_wf_block c Hwf) as [_ Hs].
    split; [done|]. split; [rewrite Hl; unfold XorFec.HEADER_SIZE; nia|].
    eexists. split.
    + unfold parse_fec_value. cbn [Z.eqb FEC_ALGO_XOR Pos.eqb].
      rewrite Hf. cbn [mbind result_bind]. rewrite Hv. cbn [mbind result_bind].
      rewrite Hm. done.
    + right. exists c. by destruct (xor_new_fields _ _ _ Hc) as [<- <-].
Qed.

(** Every recovery value the encoder makes is accepted by both readers, the
    RECOVERY TLV's and the local header's, within the size limit, and with exactly
    the metadata of the configuration it was made from. *)
Theorem encode_fec_accepted algo protected c0 c1 sym v limits :
  fits 8 c0 → fits 8 c1 → (∀ s, sym = Some s → fits 32 s) → len protected < 2 ^ 63 →
  encode_fec algo protected c0 c1 sym = Ok v → len (data v) ≤ max_fec_value_bytes limits →
  algo_id v = algo ∧
  ∃ m, announced algo protected c0 c1 sym m
    ∧ validate_recovery_tlv algo (data v) limits = Ok (from_meta algo m)
    ∧ parse_lfh_fec_value algo (data v) limits = Ok (Some (from_meta algo m)).
Proof.
  intros H0 H1 Hsym Hlen He Hlim.
  destruct (parse_encoded algo protected c0 c1 sym v) as (Ha & Hpos & m & Hm & Han); [done..|].
  split; [done|]. exists m. split; [done|].
  assert (Halgo : validate_fec_algo_id algo = Ok tt ∧ algo ≠ 0).
  { rewrite validate_fec_algo_id_ok. destruct Han as [(? & ? & -> & _)|(? & -> & _)]; auto. }
  destruct Halgo as [Hid Hnz].
  unfold validate_recovery_tlv, parse_lfh_fec_value, validate_lfh_fec_algo_id,
    Tlv.classify_recovery_tlv_id.
  rewrite Hid, (proj2 (Z.eqb_neq algo 0)), (proj2 (Z.eqb_neq _ 0)) by lia.
  cbn [map_err mbind result_bind].
  rewrite (proj2 (check_fec_value_bytes_ok _ _) Hlim). cbn [mbind result_bind].
  by rewrite Hm.
Qed.

Lemma encode_fec_accepted_witness :
  ∃ m, announced 17 RsFec.sample_protected 3 2 (Some 2) m
    ∧ validate_recovery_tlv 17 (data RsFec.sample_value) default_limits
      = Ok (from_meta 17 m).
Proof.
  destruct (encode_fec_accepted 17 RsFec.sample_protected 3 2 (Some 2)
    RsFec.sample_value default_limits) as (_ & m & H1 & H2 & _);
    [done|done|by intros s [= <-]|by vm_compute..|].
  by exists m.
Defined.

(** ** No panics *)

Lemma parse_fec_value_no_panic algo value : no_panic (parse_fec_value algo value).
Proof.
  unfold parse_fec_value. dif as E.
  { apply no_panic_bind; [apply RsFec.rs_from_fec_value_no_panic|]. intros c _.
    apply no_panic_bind; [apply RsFec.rs_validate_no_panic|]. intros _ _.
    apply no_panic_bind; [apply RsFec.parse_rs_meta_no_panic|done]. }
  dif as E'; [|by repeat case_match].
  apply no_panic_bind; [apply XorFec.from_fec_value_no_panic|]. intros c _.
  apply no_panic_bind; [apply XorFec.validate_no_panic|]. intros _ _.
  apply no_panic_bind; [apply XorFec.parse_xor_meta_no_panic|done].
Qed.
#[local] Hint Resolve parse_fec_value_no_panic validate_fec_algo_id_no_panic : no_panic.
Lemma validate_recovery_tlv_no_panic type_id value limits :
  no_panic (validate_recovery_tlv type_id value limits).
Proof. unfold validate_recovery_tlv, Tlv.classify_recovery_tlv_id. np. Qed.
Lemma parse_lfh_fec_value_no_panic algo value limits :
  no_panic (parse_lfh_fec_value algo value limits).
Proof. unfold parse_lfh_fec_value, validate_lfh_fec_algo_id. np. Qed.

(** Recovery metadata is untrusted: no algorithm id, value, limits, codec or
    recovery input makes the parsers, the validators or the decoders of the two
    codecs panic. *)
Theorem fec_never_panics algo value limits input xc rc :
  no_panic (parse_fec_value algo value)
  ∧ no_panic (validate_recovery_tlv algo value limits)
  ∧ no_panic (parse_lfh_fec_value algo value limits)
  ∧ no_panic (XorFec.recover xc input)
  ∧ no_panic (RsFec.recover rc input).
Proof.
  split_and!;
    [apply parse_fec_value_no_panic|apply validate_recovery_tlv_no_panic
    |apply parse_lfh_fec_value_no_panic|apply XorFec.recover_no_panic
    |apply RsFec.rs_recover_no_panic].
Qed.

End FecRegistry.
