(* ===== verification/Repair.v ===== *)
(** * Archive-level repair

    Models [crates/sar-archive/src/recovery.rs]: locating the RECOVERY blocks of an
    archive held in memory, checking a list of erased byte ranges against the
    protected range and the unit size of the recovery value, and rebuilding the
    archive.  The main theorem composes the format parsers, the registry and the
    contract [FecLaws] of the codecs: a planned repair gives back the original
    protected bytes whenever the damage stays inside the planned ranges and within
    the erasure budget of each group. *)

From stdpp Require Import gmap.
From S2P Require Import Prelude Errors Limits Flags Format Tlv CentralDir.
From S2P Require Import FecTypes FecBlocks XorFec RsFec FecRegistry.
Import Limits FecTypes FecRegistry.

Module Repair.

(** [GLOBAL_HEADER_FLAGS_OFFSET]. *)
Definition GLOBAL_HEADER_FLAGS_OFFSET : Z := 8.

(** [struct ErasureRange], [ProtectedRange], [EntryErasure], [ErasureInput]. *)
Record ErasureRange := { er_offset : Z; er_length : Z }.
Record ProtectedRange := { pr_offset : Z; pr_length : Z; pr_algo_id : Z }.
Record EntryErasure := { entry_index : Z; ranges : list ErasureRange }.
Record ErasureInput := {
  entries : list EntryErasure;
  archive_ranges : list ErasureRange;
}.

(** [struct RecoveryMetadata], [RecoveryPlan], [RepairReport], [ArchiveLayout]. *)
Record RecoveryMetadata := {
  has_global_ec : bool;
  protected_range : option ProtectedRange;
  recovery_tlvs : list FecSummary;
  repair_possible : bool;
  repair_unavailable_reason : option string;
}.
Record RecoveryPlan := {
  plan_erasures : ErasureInput;
  plan_range : ProtectedRange;
  plan_algo_id : Z;
}.
Record RepairReport := {
  success : bool;
  repaired_ranges : list ErasureRange;
  degraded : bool;
  report_error : option string;
}.
Record ArchiveLayout := {
  layout_flags : Z;
  layout_cd_offset : option Z;
  layout_tlvs : list (Z * list byte);
}.

(** The algorithm id and the block or symbol size of a summary. *)
Definition summary_algo (s : FecSummary) : Z :=
  match s with SummaryXor a _ _ _ _ _ | SummaryReedSolomon a _ _ _ _ _ _ => a end.
Definition summary_unit (s : FecSummary) : Z :=
  match s with
  | SummaryXor _ _ block_size _ _ _ => block_size
  | SummaryReedSolomon _ _ _ symbol_size _ _ _ => symbol_size
  end.

(** [xor_block_size], [block_size_from_algo]. *)
Definition xor_block_size (index : Z) : result SarError.t Z :=
  match List.find (λ p, fst p =? index)
          [(0, 256); (1, 512); (2, 1024); (3, 2048); (4, 4096); (5, 8192);
           (6, 16384); (7, 32768); (8, 65536)] with
  | Some (_, size) => Ok size
  | None => Err (SarError.ReservedValue "XOR block size index is reserved")
  end.
Definition block_size_from_algo (algo_id : Z) (tlv_value : list byte)
    : result SarError.t Z :=
  if algo_id =? 20 then
    if len tlv_value <? 2 then
      Err (SarError.Truncated "XOR TLV too short for block size")
    else
      index ← index_r tlv_value 1;
      xor_block_size (byte_val index)
  else if algo_id =? 17 then
    if len tlv_value <? 6 then
      Err (SarError.Truncated "RS TLV too short for symbol size")
    else
      b2 ← index_r tlv_value 2; b3 ← index_r tlv_value 3;
      b4 ← index_r tlv_value 4; b5 ← index_r tlv_value 5;
      let ss := le_val [b2; b3; b4; b5] in
      if ss =? 0 then Err (SarError.InvalidLength "RS symbol size is zero")
      else Ok ss
  else Err (SarError.RecoveryUnavailable "unsupported FEC algorithm").

Section repair.
Context {B : Bitflags}.

(** [parse_archive_layout]. *)
Definition parse_archive_layout (archive_bytes : list byte) (limits : ResourceLimits)
    : result SarError.t ArchiveLayout :=
  n ← ok_or (try_from 64 (len archive_bytes)) (SarError.Overflow "archive size");
  _ ← check_archive_size limits n;
  '(global_header, _) ← Format.parse_global_header archive_bytes limits;
  let flags := Format.flags global_header in
  if contains flags GlobalFlags.NO_INDEX then
    Ok {| layout_flags := flags; layout_cd_offset := None; layout_tlvs := [] |}
  else if len archive_bytes <? 8 then
    Err (SarError.Truncated "archive too short for footer")
  else
  footer_bytes ← slice_r archive_bytes (len archive_bytes - 8) (len archive_bytes);
  footer ← Format.parse_footer footer_bytes;
  let cd_off := Format.cd_offset footer in
  archive_end ← ok_or (checked_sub (len archive_bytes) 8)
                  (SarError.Bounds "archive too short for CD/footer layout");
  cd_start ← ok_or (try_from 64 cd_off) (SarError.Overflow "cd offset usize");
  if archive_end <=? cd_start then Err (SarError.Bounds "CD offset outside archive")
  else
  cd_len ← ok_or (checked_sub archive_end cd_start)
             (SarError.Bounds "CD offset outside archive");
  cd_len64 ← ok_or (try_from 64 cd_len) (SarError.Overflow "CD length");
  _ ← check_cd_bytes limits cd_len64;
  cd_bytes ← slice_r archive_bytes cd_start (cd_start + cd_len);
  '(cd, _) ← CentralDir.parse_central_dictionary cd_bytes flags limits;
  Ok {| layout_flags := flags;
        layout_cd_offset := Some cd_off;
        layout_tlvs :=
          (λ t, (Tlv.type_id t, Tlv.value t)) <$>
            List.filter (λ t, (16 <=? Tlv.type_id t) && (Tlv.type_id t <=? 31))
              (CentralDir.metadata cd) |}.

(** The loop of [inspect_recovery_metadata] over the recovery blocks. *)
Fixpoint validate_tlvs (tlvs : list (Z * list byte)) (limits : ResourceLimits)
    : result SarError.t (list FecSummary) :=
  match tlvs with
  | [] => Ok []
  | (type_id, value) :: tlvs =>
      summary ← validate_recovery_tlv type_id value limits;
      summaries ← validate_tlvs tlvs limits;
      Ok (summary :: summaries)
  end.

(** [inspect_recovery_metadata]. *)
Definition inspect_recovery_metadata (archive_bytes : list byte)
    (limits : ResourceLimits) : result SarError.t RecoveryMetadata :=
  layout ← parse_archive_layout archive_bytes limits;
  let has_global_ec := contains (layout_flags layout) GlobalFlags.HAS_GLOBAL_EC in
  '(protected_range, recovery_tlvs) ←
    match layout_cd_offset layout with
    | Some cd_off =>
        prot_len ← ok_or (checked_sub cd_off GLOBAL_HEADER_FLAGS_OFFSET)
                     (SarError.Bounds "CD offset lies before Global Flags");
        _ ← check_recovery_protected_range limits prot_len;
        summaries ← validate_tlvs (layout_tlvs layout) limits;
        let first_algo :=
          match summaries with [] => 0 | s :: _ => summary_algo s end in
        let pr :=
          if prot_len >? 0 then
            Some {| pr_offset := GLOBAL_HEADER_FLAGS_OFFSET; pr_length := prot_len;
                    pr_algo_id := first_algo |}
          else None in
        Ok (pr, summaries)
    | None => Ok (None, [])
    end;
  let no_tlvs := match recovery_tlvs with [] => true | _ => false end in
  let has_range := match protected_range with Some _ => true | None => false end in
  Ok {| has_global_ec := has_global_ec;
        protected_range := protected_range;
        recovery_tlvs := recovery_tlvs;
        repair_possible := has_global_ec && negb no_tlvs && has_range;
        repair_unavailable_reason :=
          if negb has_global_ec then
            Some "archive does not have HAS_GLOBAL_EC flag set"%string
          else if negb (match layout_cd_offset layout with
                        | Some _ => true | None => false end) then
            Some "NO_INDEX archive has no Central Dictionary and therefore no RECOVERY TLV"%string
          else if no_tlvs then
            Some "no RECOVERY TLV found in Central Dictionary"%string
          else None |}.

(** [block_size_from_tlv]: the first usable recovery block. *)
Fixpoint first_block_size (tlvs : list (Z * list byte)) (limits : ResourceLimits)
    : result SarError.t (Z * Z) :=
  match tlvs with
  | [] =>
      Err (SarError.RecoveryUnavailable
             "no usable RECOVERY TLV found for block-size derivation")
  | (type_id, value) :: tlvs =>
      match validate_recovery_tlv type_id value limits with
      | Ok summary =>
          if summary_unit summary =? 0 then first_block_size tlvs limits
          else Ok (summary_algo summary, summary_unit summary)
      | Err _ => first_block_size tlvs limits
      | Panic => Panic
      end
  end.
Definition block_size_from_tlv (archive_bytes : list byte) (limits : ResourceLimits)
    : result SarError.t (Z * Z) :=
  layout ← parse_archive_layout archive_bytes limits;
  first_block_size (layout_tlvs layout) limits.

(** The loop of [plan_archive_repair] over the erased ranges. *)
Fixpoint check_erasures (pr : ProtectedRange) (prot_end block_size_bytes : Z)
    (todo : list ErasureRange) : result SarError.t unit :=
  match todo with
  | [] => Ok tt
  | er :: todo =>
      er_end ← ok_or (checked_add 64 (er_offset er) (er_length er))
                 (SarError.Overflow "erasure range end");
      if (er_offset er <? pr_offset pr) || (er_end >? prot_end) then
        Err (SarError.RecoveryUnavailable
               "erasure range lies outside the protected byte range")
      else
      rel_off ← sub_r (er_offset er) (pr_offset pr);
      r1 ← rem_r rel_off block_size_bytes;
      r2 ← rem_r (er_length er) block_size_bytes;
      if negb (r1 =? 0) || negb (r2 =? 0) then
        Err (SarError.RecoveryUnavailable
               "archive-level repair orchestration requires explicit block-aligned erasure mapping; see docs/SPEC_QUESTIONS.md")
      else check_erasures pr prot_end block_size_bytes todo
  end.

(** [plan_archive_repair]. *)
Definition plan_archive_repair (archive_bytes : list byte) (erasures : ErasureInput)
    (limits : ResourceLimits) : result SarError.t RecoveryPlan :=
  meta ← inspect_recovery_metadata archive_bytes limits;
  if negb (repair_possible meta) then
    Err (SarError.RecoveryUnavailable
           (default "archive-level repair is unavailable"%string
              (repair_unavailable_reason meta)))
  else
  pr ← ok_or (protected_range meta)
         (SarError.RecoveryUnavailable "protected range could not be determined");
  '(algo_id, block_size_bytes) ← block_size_from_tlv archive_bytes limits;
  prot_end ← ok_or (checked_add 64 (pr_offset pr) (pr_length pr))
               (SarError.Overflow "protected range end");
  _ ← check_erasures pr prot_end block_size_bytes (archive_ranges erasures);
  Ok {| plan_erasures := erasures;
        plan_range := {| pr_offset := pr_offset pr; pr_length := pr_length pr;
                         pr_algo_id := algo_id |};
        plan_algo_id := algo_id |}.

(** The erased unit indices of the planned ranges. *)
Fixpoint collect_erasures (prot_off block_size : Z) (todo : list ErasureRange)
    : result SarError.t (list Erasure) :=
  match todo with
  | [] => Ok []
  | er :: todo =>
      rel_off ← sub_r (er_offset er) prot_off;
      first_block ← div_r rel_off block_size;
      rel_end ← add_r 64 rel_off (er_length er);
      last_block ← div_r rel_end block_size;
      rest ← collect_erasures prot_off block_size todo;
      Ok ((Build_Erasure <$> seqZ first_block (last_block - first_block)) ++ rest)
  end.

(** The recovery by algorithm id. *)
Definition run_recovery (algo_id : Z) (input : FecRecoverInput)
    : result SarError.t (list byte) :=
  if algo_id =? 20 then
    codec ← map_err FecError.to_sar (XorFec.from_fec_value (fec_value_data input));
    map_err FecError.to_sar (XorFec.recover codec input)
  else if algo_id =? 17 then
    codec ← map_err FecError.to_sar (RsFec.from_fec_value (fec_value_data input));
    map_err FecError.to_sar (RsFec.recover codec input)
  else Err (SarError.RecoveryUnavailable "unsupported FEC algorithm for archive repair").

(** [repair_archive]. *)
Definition repair_archive (archive_bytes : list byte) (plan : RecoveryPlan)
    (limits : ResourceLimits) : result SarError.t (list byte * RepairReport) :=
  layout ← parse_archive_layout archive_bytes limits;
  '(tlv_algo_id, tlv_value) ←
    ok_or (List.find (λ t, fst t =? plan_algo_id plan) (layout_tlvs layout))
      (SarError.RecoveryUnavailable
         "RECOVERY TLV with matching algo ID not found in archive");
  let pr := plan_range plan in
  prot_start ← ok_or (try_from 64 (pr_offset pr)) (SarError.Overflow "prot start");
  prot_len ← ok_or (try_from 64 (pr_length pr)) (SarError.Overflow "prot len");
  prot_end ← add_r 64 prot_start prot_len;
  if prot_end >? len archive_bytes then
    Err (SarError.Bounds "protected range exceeds archive length")
  else
  protected_bytes ← slice_r archive_bytes prot_start prot_end;
  _ ← check_recovery_protected_range limits (pr_length pr);
  alen ← ok_or (try_from 64 (len archive_bytes))
           (SarError.Overflow "archive repair working set");
  repair_working_set ←
    ok_or (a ← checked_add 64 alen (pr_length pr);
           n ← try_from 64 (len tlv_value);
           b ← checked_add 64 a n;
           checked_add 64 b (pr_length pr))
      (SarError.Overflow "archive repair working set");
  _ ← check_repair_working_set limits repair_working_set;
  block_size ← block_size_from_algo tlv_algo_id tlv_value;
  erasure_indices ← collect_erasures (pr_offset pr) block_size
                      (archive_ranges (plan_erasures plan));
  let erasure_indices := dedup_by_key index (sort_by_key index erasure_indices) in
  recovered ← run_recovery tlv_algo_id
                {| original_protected_len := pr_length pr;
                   available_data := protected_bytes;
                   fec_value_data := tlv_value;
                   erasures := erasure_indices |};
  rlen ← ok_or (try_from 64 (len archive_bytes))
           (SarError.Overflow "repaired archive size");
  _ ← check_repair_working_set limits rlen;
  prefix ← slice_r archive_bytes 0 prot_start;
  middle ← slice_r recovered 0 (Z.min prot_len (len recovered));
  suffix ← slice_r archive_bytes prot_end (len archive_bytes);
  Ok (prefix ++ middle ++ suffix,
      {| success := true; repaired_ranges := archive_ranges (plan_erasures plan);
         degraded := false; report_error := None |}).
End repair.

(** ** Accepted recovery blocks *)

Lemma le_val_slice4 (d : list byte) b2 b3 b4 b5 :
  d !! 2%nat = Some b2 → d !! 3%nat = Some b3 → d !! 4%nat = Some b4 → d !! 5%nat = Some b5 →
  slice d 2 6 = [b2; b3; b4; b5].
Proof.
  intros H2 H3 H4 H5. destruct d as [|? [|? [|? [|? [|? [|? d]]]]]]; try done.
  cbn in *. injection H2 as ->. injection H3 as ->. injection H4 as ->. by injection H5 as ->.
Qed.

Lemma xor_block_size_agrees index size :
  XorFec.block_size_for_index index = Ok size → xor_block_size index = Ok size.
Proof.
  unfold XorFec.block_size_for_index, xor_block_size, XorFec.BLOCK_SIZE_TABLE.
  destruct (List.find _ _) as [[]|]; [|done]. congruence.
Qed.

(** The repair reads the unit size of a value from the place the codec does. *)
Lemma rs_unit_size v kk pc ss ol gc :
  RsFec.parse_header v = Ok (kk, pc, ss, ol, gc) → block_size_from_algo 17 v = Ok ss.
Proof.
  intros Hh. pose proof (RsFec.rs_parse_header_Ok _ _ _ _ _ _ Hh) as (Hl & _ & _ & Hss & _).
  unfold block_size_from_algo. cbn [Z.eqb Pos.eqb].
  rewrite (proj2 (Z.ltb_ge _ _)) by lia. unfold len in Hl.
  destruct (lookup_lt_is_Some_2 v 2) as [b2 H2]; [lia|].
  destruct (lookup_lt_is_Some_2 v 3) as [b3 H3]; [lia|].
  destruct (lookup_lt_is_Some_2 v 4) as [b4 H4]; [lia|].
  destruct (lookup_lt_is_Some_2 v 5) as [b5 H5]; [lia|].
  rewrite (index_r_cons v 2 b2), (index_r_cons v 3 b3), (index_r_cons v 4 b4),
    (index_r_cons v 5 b5) by done. cbn [mbind result_bind].
  unfold RsFec.parse_header in Hh. apply guard_Ok in Hh as [_ Hh].
  apply bind_Ok in Hh as (? & _ & Hh). apply bind_Ok in Hh as (? & _ & Hh).
  apply guard_Ok in Hh as [_ Hh]. apply guard_Ok in Hh as [_ Hh].
  apply bind_Ok in Hh as (sb & (-> & _)%slice_r_Ok & Hh). apply guard_Ok in Hh as [_ Hh].
  apply bind_Ok in Hh as (? & _ & Hh). apply bind_Ok in Hh as (? & _ & Hh).
  apply Ok_inj in Hh. rewrite (le_val_slice4 v b2 b3 b4 b5) in Hh by done.
  injection Hh as _ _ -> _ _. by rewrite (proj2 (Z.eqb_neq _ _)) by lia.
Qed.
Lemma xor_unit_size v ss bs ol sc :
  XorFec.parse_header v = Ok (ss, bs, ol, sc) → block_size_from_algo 20 v = Ok bs.
Proof.
  intros Hh. pose proof (XorFec.parse_header_Ok _ _ _ _ _ Hh) as (Hl & _ & Hbs & _).
  unfold block_size_from_algo. cbn [Z.eqb Pos.eqb]. rewrite (proj2 (Z.ltb_ge _ _)) by lia.
  unfold XorFec.parse_header in Hh. apply guard_Ok in Hh as [_ Hh].
  apply bind_Ok in Hh as (b0 & _ & Hh). apply bind_Ok in Hh as (b1 & Hb1 & Hh).
  apply guard_Ok in Hh as [_ Hh]. apply bind_Ok in Hh as (bs' & Hbs' & Hh).
  apply bind_Ok in Hh as (? & _ & Hh). apply bind_Ok in Hh as (? & _ & Hh).
  apply Ok_inj in Hh. injection Hh as _ -> _ _.
  unfold index_r in Hb1 |- *. rewrite (proj2 (Z.leb_le 0 1)) in Hb1 |- * by lia.
  destruct (v !! Z.to_nat 1) as [b|]; [|done]. apply Ok_inj in Hb1 as ->.
  cbn [mbind result_bind]. by apply xor_block_size_agrees.
Qed.

(** The geometry a parsed value announces. *)
Definition meta_unit (m : FecMeta) : Z :=
  match m with Xor m => FecTypes.xor_block_size m | Rs m => rs_symbol_size m end.
Definition meta_group (m : FecMeta) : Z :=
  match m with Xor m => xor_stripe_size m | Rs m => rs_k m end.
Definition meta_tolerance (m : FecMeta) : Z :=
  match m with Xor _ => 1 | Rs m => rs_parity_count m end.

Lemma parsed_unit t v m :
  parse_fec_value t v = Ok m →
  0 < meta_unit m ∧ block_size_from_algo t v = Ok (meta_unit m).
Proof.
  intros Hm. unfold parse_fec_value in Hm. destruct (Z.eqb_spec t 17) as [->|].
  - apply bind_Ok in Hm as (c & _ & Hm). apply bind_Ok in Hm as (_ & _ & Hm).
    apply bind_Ok in Hm as (rm & Hrm & Hm). apply Ok_inj in Hm as <-.
    apply bind_Ok in Hrm as ([[[[kk pc] ss] ol] gc] & Hh & Hrm).
    apply bind_Ok in Hrm as (pl & _ & Hrm). apply Ok_inj in Hrm as <-.
    pose proof (RsFec.rs_parse_header_Ok _ _ _ _ _ _ Hh) as (Hl & _ & _ & Hss & _).
    split; [cbn; lia|by eapply rs_unit_size].
  - destruct (Z.eqb_spec t 20) as [->|]; [|by repeat case_match].
    apply bind_Ok in Hm as (c & _ & Hm). apply bind_Ok in Hm as (_ & _ & Hm).
    apply bind_Ok in Hm as (xm & Hxm & Hm). apply Ok_inj in Hm as <-.
    apply bind_Ok in Hxm as ([[[ss bs] ol] sc] & Hh & Hxm).
    apply bind_Ok in Hxm as (pl & _ & Hxm). apply Ok_inj in Hxm as <-.
    pose proof (XorFec.parse_header_Ok _ _ _ _ _ Hh) as (Hl & _ & Hbs & _).
    split; [cbn; lia|by eapply xor_unit_size].
Qed.
Lemma accepted_summary t v limits s :
  validate_recovery_tlv t v limits = Ok s →
  ∃ m, parse_fec_value t v = Ok m ∧ summary_algo s = t ∧ summary_unit s = meta_unit m.
Proof.
  intros H. unfold validate_recovery_tlv in H. apply bind_Ok in H as (_ & _ & H).
  apply guard_Ok in H as [_ H]. apply bind_Ok in H as (_ & _ & H).
  apply bind_Ok in H as (m & Hm%map_err_Ok & H). apply Ok_inj in H as <-.
  exists m. by destruct m.
Qed.

(** ** Planning *)
Section plan.
Context {B : Bitflags}.

Definition erasure_ok (cd_off unit : Z) (er : ErasureRange) : Prop :=
  er_offset er + er_length er < 2 ^ 64
  ∧ 8 ≤ er_offset er ∧ er_offset er + er_length er ≤ cd_off
  ∧ (er_offset er - 8) mod unit = 0 ∧ er_length er mod unit = 0.

Lemma check_erasures_Ok pl algo cd_off unit rs :
  0 < unit →
  check_erasures {| pr_offset := 8; pr_length := pl; pr_algo_id := algo |} cd_off unit rs
  = Ok tt ↔ Forall (erasure_ok cd_off unit) rs.
Proof.
  intros Hu. induction rs as [|er rs IH]; [by split|].
  rewrite Forall_cons, <- IH. cbn [check_erasures pr_offset]. unfold erasure_ok.
  unfold checked_add. destruct (Z.ltb_spec (er_offset er + er_length er) (2 ^ 64));
    cbn [ok_or mbind result_bind]; [|split; [done|lia]].
  dif as E; [split; [done|lia]|]. rewrite sub_r_fits by lia. cbn [mbind result_bind].
  rewrite !rem_r_nz by lia. cbn [mbind result_bind].
  destruct (Z.eqb_spec ((er_offset er - 8) mod unit) 0), (Z.eqb_spec (er_length er mod unit) 0);
    cbn [negb orb]; [|naive_solver..].
  assert (8 ≤ er_offset er ∧ er_offset er + er_length er ≤ cd_off) by lia. naive_solver.
Qed.
Lemma check_erasures_no_panic pr pe unit rs :
  0 < unit → no_panic (check_erasures pr pe unit rs).
Proof.
  intros Hu. induction rs as [|er rs IH]; [done|]. cbn [check_erasures].
  apply no_panic_bind; [apply no_panic_ok_or|]. intros x _. dif as E; [done|].
  rewrite sub_r_fits by lia. cbn [mbind result_bind].
  rewrite !rem_r_nz by lia. cbn [mbind result_bind]. by dif as E2.
Qed.

(** What a parsed layout with an index satisfies. *)
Lemma layout_cd_bound archive limits layout off :
  parse_archive_layout archive limits = Ok layout → layout_cd_offset layout = Some off →
  0 ≤ off ∧ off + 8 < len archive ∧ len archive < 2 ^ 64.
Proof.
  intros H Ho. unfold parse_archive_layout in H.
  apply bind_Ok in H as (n & [-> Hn]%ok_or_Ok%try_from_Some & H).
  apply bind_Ok in H as (_ & _ & H). apply bind_Ok in H as ([gh p] & _ & H).
  destruct (contains _ _); [apply Ok_inj in H as <-; done|].
  apply guard_Ok in H as [_ H]. apply bind_Ok in H as (fb & _ & H).
  apply bind_Ok in H as (footer & Hf & H).
  apply bind_Ok in H as (ae & [-> Hae]%ok_or_Ok%checked_sub_Some & H).
  apply bind_Ok in H as (cs & [-> Hcs]%ok_or_Ok%try_from_Some & H).
  apply guard_Ok in H as [Hlt H].
  apply bind_Ok in H as (cl & _ & H). apply bind_Ok in H as (cl64 & _ & H).
  apply bind_Ok in H as (_ & _ & H). apply bind_Ok in H as (cb & Hcb & H).
  apply slice_r_Ok in Hcb as (_ & Hcb & _).
  apply bind_Ok in H as ([cd p'] & _ & H). apply Ok_inj in H as <-.
  cbn in Ho. injection Ho as <-. lia.
Qed.

Lemma validate_tlvs_no_panic tlvs limits : no_panic (validate_tlvs tlvs limits).
Proof.
  induction tlvs as [|[t v] tlvs IH]; [done|]. cbn [validate_tlvs].
  apply no_panic_bind; [apply validate_recovery_tlv_no_panic|]. intros s _.
  by apply no_panic_bind.
Qed.

(** When a repair is planned, and as what. *)
Definition plannable (archive : list byte) (er : ErasureInput) (limits : ResourceLimits)
    (plan : RecoveryPlan) : Prop :=
  ∃ flags off t v rest s ss,
    parse_archive_layout archive limits
    = Ok {| layout_flags := flags; layout_cd_offset := Some off;
            layout_tlvs := (t, v) :: rest |}
    ∧ contains flags GlobalFlags.HAS_GLOBAL_EC = true
    ∧ 8 < off ∧ off - 8 ≤ max_recovery_protected_range limits
    ∧ validate_recovery_tlv t v limits = Ok s ∧ validate_tlvs rest limits = Ok ss
    ∧ Forall (erasure_ok off (summary_unit s)) (archive_ranges er)
    ∧ plan = {| plan_erasures := er;
                plan_range := {| pr_offset := 8; pr_length := off - 8; pr_algo_id := t |};
                plan_algo_id := t |}.

Lemma first_block_size_accepted t v rest limits s :
  validate_recovery_tlv t v limits = Ok s →
  first_block_size ((t, v) :: rest) limits = Ok (t, summary_unit s) ∧ 0 < summary_unit s.
Proof.
  intros Hs. destruct (accepted_summary _ _ _ _ Hs) as (m & Hm & Ht & Hu).
  destruct (parsed_unit _ _ _ Hm) as [Hpos _]. cbn [first_block_size]. rewrite Hs, Hu.
  rewrite (proj2 (Z.eqb_neq _ _)) by lia. by rewrite Ht.
Qed.
Lemma inspect_plannable archive limits meta :
  inspect_recovery_metadata archive limits = Ok meta → repair_possible meta = true →
  ∃ flags off t v rest s ss,
    parse_archive_layout archive limits
    = Ok {| layout_flags := flags; layout_cd_offset := Some off;
            layout_tlvs := (t, v) :: rest |}
    ∧ contains flags GlobalFlags.HAS_GLOBAL_EC = true
    ∧ 8 < off ∧ off - 8 ≤ max_recovery_protected_range limits
    ∧ validate_recovery_tlv t v limits = Ok s ∧ validate_tlvs rest limits = Ok ss
    ∧ protected_range meta
      = Some {| pr_offset := 8; pr_length := off - 8; pr_algo_id := summary_algo s |}.
Proof.
  intros H Hp. unfold inspect_recovery_metadata, GLOBAL_HEADER_FLAGS_OFFSET in H.
  apply bind_Ok in H as ([flags cdo tlvs] & Hl & H). cbn [layout_cd_offset layout_tlvs
    layout_flags] in H. apply bind_Ok in H as ([pr ss] & H1 & H). apply Ok_inj in H as <-.
  cbn [repair_possible protected_range] in *.
  apply andb_true_iff in Hp as [[Hec Hss]%andb_true_iff Hpr].
  destruct cdo as [off|]; [|by apply Ok_inj in H1 as [= <- <-]].
  apply bind_Ok in H1 as (pl & [-> Hoff]%ok_or_Ok%checked_sub_Some & H1).
  apply bind_Ok in H1 as ([] & Hlim%check_recovery_protected_range_ok & H1).
  apply bind_Ok in H1 as (ss' & Hv & H1). apply Ok_inj in H1. injection H1 as <- <-.
  destruct tlvs as [|[t v] rest]; [by apply Ok_inj in Hv as <-|].
  cbn [validate_tlvs] in Hv. apply bind_Ok in Hv as (s & Hs & Hv).
  apply bind_Ok in Hv as (ss1 & Hss1 & Hv). apply Ok_inj in Hv as <-.
  destruct (off - 8 >? 0) eqn:E; [|done].
  exists flags, off, t, v, rest, s, ss1. split_and!; (done || lia).
Qed.
Lemma plan_cases archive er limits plan :
  plan_archive_repair archive er limits = Ok plan ↔ plannable archive er limits plan.
Proof.
  split.
  - intros H. unfold plan_archive_repair in H. apply bind_Ok in H as (meta & Hmeta & H).
    apply guard_Ok in H as [Hp%negb_false_iff H].
    destruct (inspect_plannable _ _ _ Hmeta Hp)
      as (flags & off & t & v & rest & s & ss & Hl & Hec & Hoff & Hlim & Hs & Hss & Hpr).
    destruct (first_block_size_accepted t v rest limits s Hs) as [Hfb Hu].
    apply bind_Ok in H as (pr & Hpr'%ok_or_Ok & H). rewrite Hpr in Hpr'.
    injection Hpr' as <-. apply bind_Ok in H as ([algo unit] & Hb & H).
    unfold block_size_from_tlv in Hb. rewrite Hl in Hb. cbn [mbind result_bind layout_tlvs] in Hb.
    rewrite Hfb in Hb. apply Ok_inj in Hb as [= <- <-]. cbn [pr_offset pr_length] in H.
    apply bind_Ok in H as (pe & [-> _]%ok_or_Ok%checked_add_Some & H).
    apply bind_Ok in H as ([] & Hce & H). apply Ok_inj in H as <-.
    replace (8 + (off - 8)) with off in Hce by lia. rewrite check_erasures_Ok in Hce by done.
    exists flags, off, t, v, rest, s, ss. done.
  - intros (flags & off & t & v & rest & s & ss & Hl & Hec & Hoff & Hlim & Hs & Hss & Hf & ->).
    destruct (first_block_size_accepted t v rest limits s Hs) as [Hfb Hu].
    destruct (layout_cd_bound _ _ _ off Hl eq_refl) as (_ & Hb & Hb').
    unfold plan_archive_repair, inspect_recovery_metadata, block_size_from_tlv,
      GLOBAL_HEADER_FLAGS_OFFSET.
    rewrite Hl. cbn [mbind result_bind layout_cd_offset layout_tlvs layout_flags].
    rewrite checked_sub_fits by lia. cbn [ok_or mbind result_bind].
    rewrite (proj2 (check_recovery_protected_range_ok _ _) Hlim). cbn [mbind result_bind].
    cbn [validate_tlvs]. rewrite Hs. cbn [mbind result_bind]. rewrite Hss.
    cbn [mbind result_bind]. rewrite Hec. destruct (off - 8 >? 0) eqn:E; [|lia].
    cbn [repair_possible andb negb protected_range ok_or mbind result_bind].
    rewrite Hfb. cbn [mbind result_bind pr_offset pr_length].
    rewrite (checked_add_fits 64 8) by lia. cbn [ok_or mbind result_bind].
    replace (8 + (off - 8)) with off by lia.
    by rewrite (proj2 (check_erasures_Ok _ _ _ _ _ Hu) Hf).
Qed.
End plan.

(** ** From ranges to units *)

(** The units of the planned ranges, in the order of the ranges. *)
Definition planned_units (unit : Z) (rs : list ErasureRange) : list Z :=
  rs ≫= λ er, seqZ ((er_offset er - 8) / unit) (er_length er / unit).
Definition damaged_units (unit : Z) (rs : list ErasureRange) : gset Z :=
  list_to_set (planned_units unit rs).
Definition erasure_list (units : list Z) : list Erasure :=
  dedup_by_key index (sort_by_key index (Build_Erasure <$> units)).

Lemma collect_planned off unit rs :
  0 < unit → Forall (erasure_ok off unit) rs →
  collect_erasures 8 unit rs = Ok (Build_Erasure <$> planned_units unit rs).
Proof.
  intros Hu. induction 1 as [|er rs (H1 & H2 & H3 & H4 & H5) _ IH]; [done|].
  cbn [collect_erasures]. rewrite sub_r_fits by lia. cbn [mbind result_bind].
  rewrite div_r_nz by lia. cbn [mbind result_bind]. rewrite add_r_fits by lia.
  cbn [mbind result_bind]. rewrite div_r_nz by lia. cbn [mbind result_bind].
  rewrite IH. cbn [mbind result_bind]. f_equal. unfold planned_units.
  cbn [mbind list_bind]. rewrite fmap_app. do 3 f_equal.
  apply Z.div_exact in H4; [|lia]. apply Z.div_exact in H5; [|lia].
  replace (er_offset er - 8 + er_length er)
    with (((er_offset er - 8) / unit + er_length er / unit) * unit) by lia.
  rewrite Z.div_mul by lia. lia.
Qed.

(** A byte inside a planned range lies in a planned unit. *)
Lemma covered_unit off unit rs er (i : Z) :
  0 < unit → 0 ≤ er_length er → er ∈ rs → erasure_ok off unit er →
  er_offset er ≤ 8 + i < er_offset er + er_length er →
  i / unit ∈ planned_units unit rs.
Proof.
  intros Hu Hl Her (_ & H2 & _ & H4 & H5) Hi. unfold planned_units.
  apply list_elem_of_bind. exists er. split; [|done]. apply elem_of_seqZ.
  apply Z.div_exact in H4; [|lia]. apply Z.div_exact in H5; [|lia].
  split; [apply Z.div_le_mono; lia|]. apply Z.div_lt_upper_bound; lia.
Qed.
Lemma elem_of_erasure_list units i :
  Build_Erasure i ∈ erasure_list units ↔ i ∈ units.
Proof.
  assert (H : Build_Erasure i ∈ erasure_list units ↔ i ∈ index <$> erasure_list units).
  { split; [intros Hi; apply list_elem_of_fmap; by exists (Build_Erasure i)|].
    by intros ([j] & -> & Hj)%list_elem_of_fmap. }
  rewrite H. unfold erasure_list.
  rewrite elem_of_dedup_by_key by apply sort_by_key_sorted.
  rewrite (fmap_Permutation index _ _ (sort_by_key_perm index _)), <- list_fmap_compose.
  by rewrite list_fmap_id.
Qed.
Lemma NoDup_erasure_list units : NoDup (index <$> erasure_list units).
Proof. apply NoDup_dedup_by_key, sort_by_key_sorted. Qed.

(** The number of erasures of a group is the number of its damaged units. *)
Lemma group_erasure_count units k g :
  len (filter (λ e, (g * k <=? index e) && (index e <? (g + 1) * k) = true)
         (erasure_list units))
  ≤ Z.of_nat (size (filter (λ u, g * k ≤ u < (g + 1) * k) (list_to_set units : gset Z))).
Proof.
  set (l := filter _ (erasure_list units)).
  assert (Hnd : NoDup (index <$> l)).
  { pose proof (NoDup_erasure_list units) as H. unfold l. revert H.
    induction (erasure_list units) as [|e es IH]; [done|]. rewrite fmap_cons.
    intros [Hnin H]%NoDup_cons. rewrite filter_cons. case_decide; [|by apply IH].
    rewrite fmap_cons. constructor; [|by apply IH]. intros (e' & Hi & He')%list_elem_of_fmap.
    apply Hnin, list_elem_of_fmap. exists e'. split; [done|].
    by apply list_elem_of_filter in He' as [_ ?]. }
  assert (Hlen : len l = Z.of_nat (size (list_to_set (index <$> l) : gset Z))).
  { rewrite size_list_to_set by done. unfold len. by rewrite length_fmap. }
  rewrite Hlen. apply inj_le, subseteq_size. intros u.
  rewrite elem_of_list_to_set, elem_of_filter, elem_of_list_to_set.
  intros ([j] & -> & [Hj Hin]%list_elem_of_filter)%list_elem_of_fmap. cbn in *.
  rewrite elem_of_erasure_list in Hin. split; [lia|done].
Qed.

(** ** Repair against the contract of the codec *)
Section contract.
Context {C : Type} `{HL : FecLaws C wf}.

Lemma recover_planned (c : C) original v archive rs off :
  wf c → len original < 2 ^ 63 → encode_recovery c original = Ok v →
  0 < unit_size c → len original = off - 8 → off ≤ len archive →
  Forall (λ r, 0 ≤ er_length r) rs → Forall (erasure_ok off (unit_size c)) rs →
  (∀ i : nat, (i < length original)%nat →
     (∀ r, r ∈ rs → ¬ (er_offset r ≤ 8 + Z.of_nat i < er_offset r + er_length r)) →
     archive !! (8 + i)%nat = original !! i) →
  (∀ g, Z.of_nat (size (filter (λ u, g * group_units c ≤ u < (g + 1) * group_units c)
            (damaged_units (unit_size c) rs))) ≤ tolerance c) →
  recover c
    {| original_protected_len := off - 8; available_data := slice archive 8 off;
       fec_value_data := data v;
       erasures := erasure_list (planned_units (unit_size c) rs) |} = Ok original.
Proof.
  intros Hc Hlen He Hu Ho Hoff Hwf Hok Hintact Htol.
  pose proof (len_nonneg original) as Hn.
  apply (recover_encode c original v); [done..|]. unfold recoverable.
  cbn [original_protected_len available_data fec_value_data erasures]. split_and!.
  - by rewrite Ho.
  - done.
  - apply (NoDup_fmap_1 index), NoDup_erasure_list.
  - intros [i] Hi%elem_of_erasure_list. cbn.
    apply list_elem_of_bind in Hi as (er & Hi%elem_of_seqZ & Her).
    rewrite Forall_forall in Hok. destruct (Hok er Her) as (_ & H8 & _).
    pose proof (Z.div_pos (er_offset er - 8) (unit_size c) ltac:(lia) Hu). lia.
  - intros g. etransitivity; [apply group_erasure_count|apply Htol].
  - intros i Hi Hne. rewrite lookup_slice by (unfold len in Ho; lia).
    rewrite <- (Hintact i Hi); [f_equal; lia|]. intros r Hr Hcov. apply Hne.
    unfold erased. apply elem_of_erasure_list. rewrite Forall_forall in Hok, Hwf.
    eapply covered_unit; [done|by apply Hwf|done|by apply Hok|done].
  - intros i b Hi _ Hb%lookup_lt_Some. assert (Hs : len (slice archive 8 off) = off - 8).
    { rewrite len_slice by lia. lia. }
    unfold len in Hs, Ho. lia.
Qed.
End contract.

(** ** Repair, end to end *)
Section repair_proof.
Context {B : Bitflags}.
#[local] Existing Instances XorFec.xor_codec XorFec.xor_geometry XorFec.xor_laws
  RsFec.rs_codec RsFec.rs_geometry RsFec.rs_laws.

(** The recovery step on an encoded value, for either codec. *)
Lemma run_recovery_planned algo original c0 c1 sym v m archive rs off :
  fits 8 c0 → fits 8 c1 → (∀ s, sym = Some s → fits 32 s) → len original < 2 ^ 63 →
  encode_fec algo original c0 c1 sym = Ok v → parse_fec_value algo (data v) = Ok m →
  len original = off - 8 → off ≤ len archive →
  Forall (λ r, 0 ≤ er_length r) rs → Forall (erasure_ok off (meta_unit m)) rs →
  (∀ i : nat, (i < length original)%nat →
     (∀ r, r ∈ rs → ¬ (er_offset r ≤ 8 + Z.of_nat i < er_offset r + er_length r)) →
     archive !! (8 + i)%nat = original !! i) →
  (∀ g, Z.of_nat (size (filter (λ u, g * meta_group m ≤ u < (g + 1) * meta_group m)
            (damaged_units (meta_unit m) rs))) ≤ meta_tolerance m) →
  run_recovery algo
    {| original_protected_len := off - 8; available_data := slice archive 8 off;
       fec_value_data := data v;
       erasures := erasure_list (planned_units (meta_unit m) rs) |} = Ok original.
Proof.
  intros H0 H1 Hsym Hlen He Hm Ho Hoff Hwf Hok Hintact Htol.
  destruct (parse_encoded algo original c0 c1 sym v) as (_ & _ & m' & Hm' & Han); [done..|].
  rewrite Hm in Hm'. apply Ok_inj in Hm' as <-.
  apply encode_fec_Ok in He as [(-> & s & c & -> & Hc & He)|(-> & c & Hc & He)];
    destruct Han as [(c' & s' & E & Es & Hc' & ->)|(c' & E & Hc' & ->)]; try done.
  - injection Es as <-. rewrite Hc in Hc'. apply Ok_inj in Hc' as <-.
    pose proof (RsFec.rs_new_codec_wf _ _ _ _ H0 H1 (Hsym s eq_refl) Hc) as Hwfc.
    destruct (rs_new_fields _ _ _ _ Hc) as (<- & <- & <-).
    destruct (rs_reader c original v Hwfc Hlen He) as (Hf & _).
    unfold run_recovery. cbn [Z.eqb Pos.eqb FEC_ALGO_REED_SOLOMON fec_value_data].
    rewrite Hf. cbn [map_err mbind result_bind]. apply map_err_Ok.
    pose proof Hwfc as (_ & _ & Hs).
    apply (@recover_planned _ _ _ _ RsFec.rs_laws c); (done || cbn; lia).
  - rewrite Hc in Hc'. apply Ok_inj in Hc' as <-. unfold fits in H0.
    pose proof (XorFec.new_codec_wf _ _ _ H0 Hc) as Hwfc.
    destruct (xor_new_fields _ _ _ Hc) as [<- <-].
    destruct (xor_reader c original v Hwfc Hlen He) as (Hf & _).
    unfold run_recovery. cbn [Z.eqb Pos.eqb FEC_ALGO_XOR fec_value_data].
    rewrite Hf. cbn [map_err mbind result_bind]. apply map_err_Ok.
    pose proof (XorFec.codec_wf_block c Hwfc) as [_ Hs].
    apply (@recover_planned _ _ _ _ XorFec.xor_laws c); (done || cbn; lia).
Qed.

(** [repair_archive] on a planned repair, up to the recovery itself. *)
Lemma repair_planned archive er limits flags off t v rest m :
  parse_archive_layout archive limits
  = Ok {| layout_flags := flags; layout_cd_offset := Some off;
          layout_tlvs := (t, v) :: rest |} →
  8 < off → off - 8 ≤ max_recovery_protected_range limits →
  parse_fec_value t v = Ok m →
  Forall (erasure_ok off (meta_unit m)) (archive_ranges er) →
  len archive + 2 * (off - 8) + len v ≤ max_repair_working_set limits →
  max_repair_working_set limits < 2 ^ 64 →
  repair_archive archive
    {| plan_erasures := er;
       plan_range := {| pr_offset := 8; pr_length := off - 8; pr_algo_id := t |};
       plan_algo_id := t |} limits
  = (recovered ← run_recovery t
                   {| original_protected_len := off - 8;
                      available_data := slice archive 8 off; fec_value_data := v;
                      erasures := erasure_list
                        (planned_units (meta_unit m) (archive_ranges er)) |};
     Ok (slice archive 0 8 ++ slice recovered 0 (Z.min (off - 8) (len recovered))
           ++ slice archive off (len archive),
         {| success := true; repaired_ranges := archive_ranges er;
            degraded := false; report_error := None |})).
Proof.
  intros Hl Hoff Hlim Hm Hok Hws Hmax.
  destruct (layout_cd_bound _ _ _ off Hl eq_refl) as (_ & Hb & _).
  destruct (parsed_unit _ _ _ Hm) as [Hu Hbs].
  pose proof (len_nonneg v) as Hv.
  unfold repair_archive. rewrite Hl.
  cbn [mbind result_bind layout_tlvs List.find fst plan_algo_id plan_range plan_erasures
    pr_offset pr_length].
  rewrite Z.eqb_refl. cbn [ok_or mbind result_bind].
  rewrite (try_from_fits 64 8), (try_from_fits 64 (off - 8)) by lia.
  cbn [ok_or mbind result_bind]. rewrite add_r_fits by lia. cbn [mbind result_bind].
  replace (8 + (off - 8)) with off by lia. dif as E; [lia|].
  rewrite (slice_r_fits archive 8 off) by lia.
  cbn [mbind result_bind]. rewrite (proj2 (check_recovery_protected_range_ok _ _) Hlim).
  cbn [mbind result_bind]. rewrite (try_from_fits 64 (len archive)) by lia.
  cbn [ok_or mbind result_bind]. rewrite (checked_add_fits 64 (len archive)) by lia.
  cbn [mbind option_bind]. rewrite (try_from_fits 64 (len v)) by lia.
  cbn [mbind option_bind]. rewrite (checked_add_fits 64 (len archive + (off - 8))) by lia.
  cbn [mbind option_bind]. rewrite checked_add_fits by lia. cbn [ok_or mbind result_bind].
  rewrite (proj2 (check_repair_working_set_ok limits (len archive + (off - 8) + len v
    + (off - 8)))) by lia. cbn [mbind result_bind].
  rewrite Hbs. cbn [mbind result_bind].
  rewrite (collect_planned off) by done. cbn [mbind result_bind].
  fold (erasure_list (planned_units (meta_unit m) (archive_ranges er))).
  destruct (run_recovery _ _) as [recovered| |]; [|done..]. cbn [mbind result_bind].
  rewrite (proj2 (check_repair_working_set_ok limits (len archive))) by lia.
  cbn [mbind result_bind].
  pose proof (len_nonneg recovered).
  rewrite (slice_r_fits archive 0 8) by lia.
  cbn [mbind result_bind].
  rewrite (slice_r_fits recovered) by lia.
  cbn [mbind result_bind].
  rewrite (slice_r_fits archive off) by lia.
  done.
Qed.

(** (C21) A planned repair is exact: if the first recovery block of the damaged
    archive was encoded from the original bytes of the protected range, every
    damaged byte lies in a planned range, and no group has more damaged units
    than its recovery value tolerates, then the repaired archive is the damaged
    one with the original protected bytes put back. *)
Theorem repair_archive_restores archive original er limits plan flags off algo c0 c1 sym
    v m rest :
  len archive ≤ ISIZE_MAX →
  parse_archive_layout archive limits
  = Ok {| layout_flags := flags; layout_cd_offset := Some off;
          layout_tlvs := (algo, data v) :: rest |} →
  fits 8 c0 → fits 8 c1 → (∀ s, sym = Some s → fits 32 s) →
  encode_fec algo original c0 c1 sym = Ok v → parse_fec_value algo (data v) = Ok m →
  len original = off - 8 →
  plan_archive_repair archive er limits = Ok plan →
  Forall (λ r, 0 ≤ er_length r) (archive_ranges er) →
  (∀ i : nat, (i < length original)%nat →
     (∀ r, r ∈ archive_ranges er →
        ¬ (er_offset r ≤ 8 + Z.of_nat i < er_offset r + er_length r)) →
     archive !! (8 + i)%nat = original !! i) →
  (∀ g, Z.of_nat (size (filter (λ u, g * meta_group m ≤ u < (g + 1) * meta_group m)
            (damaged_units (meta_unit m) (archive_ranges er)))) ≤ meta_tolerance m) →
  len archive + 2 * (off - 8) + len (data v) ≤ max_repair_working_set limits →
  max_repair_working_set limits < 2 ^ 64 →
  repair_archive archive plan limits
  = Ok (slice archive 0 8 ++ original ++ slice archive off (len archive),
        {| success := true; repaired_ranges := archive_ranges er;
           degraded := false; report_error := None |}).
Proof.
  intros Hsz Hl H0 H1 Hsym He Hm Ho Hplan Hwf Hintact Htol Hws Hmax.
  unfold ISIZE_MAX in Hsz. apply plan_cases in Hplan
    as (fl & off' & t' & v' & rest' & s & ss & Hl' & _ & Hoff & Hlim & Hs & _ & Hok & ->).
  rewrite Hl in Hl'. apply Ok_inj in Hl'. injection Hl' as <- <- <- <- <-.
  destruct (accepted_summary _ _ _ _ Hs) as (m' & Hm' & _ & Hu). rewrite Hm in Hm'.
  apply Ok_inj in Hm' as <-. rewrite Hu in Hok.
  destruct (layout_cd_bound _ _ _ off Hl eq_refl) as (_ & Hb & _).
  erewrite repair_planned by done.
  erewrite (run_recovery_planned algo original c0 c1 sym v m) by (done || lia).
  cbn [mbind result_bind]. rewrite Ho, Z.min_id, <- Ho, slice_full. done.
Qed.

(** ** No panics *)

Lemma parse_archive_layout_no_panic archive limits :
  no_panic (parse_archive_layout archive limits).
Proof.
  unfold parse_archive_layout. apply no_panic_bind; [apply no_panic_ok_or|]. intros n _.
  apply no_panic_bind; [auto with no_panic|]. intros _ _.
  apply no_panic_bind; [apply Format.parse_global_header_no_panic|]. intros [gh p] _.
  case_match; [done|]. dif as E; [done|].
  apply no_panic_bind; [apply slice_r_no_panic; lia|]. intros fb _.
  apply no_panic_bind; [apply Format.parse_footer_no_panic|]. intros footer Hf.
  apply no_panic_bind; [apply no_panic_ok_or|]. intros ae [-> Hae]%ok_or_Ok%checked_sub_Some.
  apply no_panic_bind; [apply no_panic_ok_or|]. intros cs [-> _]%ok_or_Ok%try_from_Some.
  dif as E2; [done|].
  apply no_panic_bind; [apply no_panic_ok_or|]. intros cl [-> Hcl]%ok_or_Ok%checked_sub_Some.
  apply no_panic_bind; [apply no_panic_ok_or|]. intros cl64 _.
  apply no_panic_bind; [auto with no_panic|]. intros _ _.
  pose proof (Format.parse_footer_fits _ _ Hf) as [Hcd _].
  apply no_panic_bind; [apply slice_r_no_panic; lia|]. intros cb _.
  apply no_panic_bind; [apply CentralDir.parse_central_dictionary_no_panic|].
  by intros [cd p'] _.
Qed.
Lemma inspect_no_panic archive limits : no_panic (inspect_recovery_metadata archive limits).
Proof.
  unfold inspect_recovery_metadata.
  apply no_panic_bind; [apply parse_archive_layout_no_panic|]. intros layout _.
  apply no_panic_bind; [|by intros [pr ss] _]. destruct (layout_cd_offset layout); [|done].
  apply no_panic_bind; [apply no_panic_ok_or|]. intros pl _.
  apply no_panic_bind; [auto with no_panic|]. intros _ _.
  by apply no_panic_bind; [apply validate_tlvs_no_panic|].
Qed.
Lemma run_recovery_no_panic algo input : no_panic (run_recovery algo input).
Proof.
  unfold run_recovery. dif as E; [|dif as E2; [|done]];
    (apply no_panic_bind; [apply no_panic_map_err|intros c _; apply no_panic_map_err]).
  - apply XorFec.from_fec_value_no_panic.
  - apply XorFec.recover_no_panic.
  - apply RsFec.rs_from_fec_value_no_panic.
  - apply RsFec.rs_recover_no_panic.
Qed.
Lemma plan_no_panic archive er limits : no_panic (plan_archive_repair archive er limits).
Proof.
  unfold plan_archive_repair. apply no_panic_bind; [apply inspect_no_panic|].
  intros meta Hmeta. dif as E; [done|]. apply negb_false_iff in E.
  destruct (inspect_plannable _ _ _ Hmeta E)
    as (flags & off & t & v & rest & s & ss & Hl & _ & _ & _ & Hs & _).
  destruct (first_block_size_accepted t v rest limits s Hs) as [Hfb Hu].
  apply no_panic_bind; [apply no_panic_ok_or|]. intros pr _.
  unfold block_size_from_tlv. rewrite Hl. cbn [mbind result_bind layout_tlvs]. rewrite Hfb.
  cbn [mbind result_bind]. apply no_panic_bind; [apply no_panic_ok_or|]. intros pe _.
  by apply no_panic_bind; [apply check_erasures_no_panic|].
Qed.
Lemma repair_no_panic archive er limits plan :
  plan_archive_repair archive er limits = Ok plan →
  no_panic (repair_archive archive plan limits).
Proof.
  intros (fl & off & t & v & rest & s & ss & Hl & _ & Hoff & Hlim & Hs & _ & Hok & ->)%plan_cases.
  destruct (accepted_summary _ _ _ _ Hs) as (m & Hm & _ & Hu). rewrite Hu in Hok.
  destruct (layout_cd_bound _ _ _ off Hl eq_refl) as (_ & Hb & Hb').
  destruct (parsed_unit _ _ _ Hm) as [Hpos Hbs].
  unfold repair_archive. rewrite Hl.
  cbn [mbind result_bind layout_tlvs List.find fst plan_algo_id plan_range plan_erasures
    pr_offset pr_length].
  rewrite Z.eqb_refl. cbn [ok_or mbind result_bind].
  rewrite (try_from_fits 64 8), (try_from_fits 64 (off - 8)) by lia.
  cbn [ok_or mbind result_bind]. rewrite add_r_fits by lia. cbn [mbind result_bind].
  dif as E; [done|]. rewrite (slice_r_fits archive 8) by lia. cbn [mbind result_bind].
  apply no_panic_bind; [auto with no_panic|]. intros _ _.
  apply no_panic_bind; [apply no_panic_ok_or|]. intros al _.
  apply no_panic_bind; [apply no_panic_ok_or|]. intros ws _.
  apply no_panic_bind; [auto with no_panic|]. intros _ _.
  rewrite Hbs. cbn [mbind result_bind].
  rewrite (collect_planned off) by done. cbn [mbind result_bind].
  apply no_panic_bind; [apply run_recovery_no_panic|]. intros recovered _.
  apply no_panic_bind; [apply no_panic_ok_or|]. intros rl _.
  apply no_panic_bind; [auto with no_panic|]. intros _ _.
  pose proof (len_nonneg recovered).
  apply no_panic_bind; [apply slice_r_no_panic; lia|]. intros p _.
  apply no_panic_bind; [apply slice_r_no_panic; lia|]. intros q _.
  by apply no_panic_bind; [apply slice_r_no_panic; lia|].
Qed.

(** Planning is total and decides exactly the repairable requests: it never
    panics, it succeeds exactly for archives with an index, the recovery flag, a
    non-empty protected range within the limits and only valid recovery blocks,
    when every erased range lies in the protected range on unit boundaries; and
    executing the plan it returns never panics either. *)
Theorem plan_archive_repair_spec archive er limits :
  no_panic (plan_archive_repair archive er limits)
  ∧ (∀ plan, plan_archive_repair archive er limits = Ok plan
             ↔ plannable archive er limits plan)
  ∧ (∀ plan, plan_archive_repair archive er limits = Ok plan →
             no_panic (repair_archive archive plan limits)).
Proof.
  split_and!; [apply plan_no_panic|intros plan; apply plan_cases
    |intros plan; apply repair_no_panic].
Qed.
End repair_proof.

(** An archive with twelve protected bytes in two groups of three symbols, and two
    damaged symbols in the second group. *)
Section witnesses.
#[local] Existing Instance bitwise.

Definition sample_original : list byte :=
  [x04; x00; x08; x00; x61; x62; x63; x64; x65; x66; x67; x68].
Definition sample_recovery : FecValue :=
  Eval vm_compute in
    match encode_fec 17 sample_original 3 2 (Some 2) with
    | Ok v => v
    | _ => {| algo_id := 0; data := [] |}
    end.
Definition sample_tail : list byte :=
  Eval vm_compute in
    match CentralDir.write_central_dictionary
            {| CentralDir.cd_version := 1; CentralDir.file_count := 0;
               CentralDir.partition_info := None; CentralDir.global_crc32 := None;
               CentralDir.metadata :=
                 [{| Tlv.type_id := 17; Tlv.value := data sample_recovery |}];
               CentralDir.offsets := [] |}
            (Z.lor GlobalFlags.OPT_PRESENT GlobalFlags.HAS_GLOBAL_EC) with
    | Ok cd => cd ++ Format.write_footer {| Format.cd_offset := 20 |}
    | _ => []
    end.
Definition sample_head : list byte := [x53; x41; x52; x21; x01; x00; x04; x00].
Definition sample_archive : list byte :=
  sample_head ++ take 6 sample_original ++ [xff; xff; xff; xff]
  ++ drop 10 sample_original ++ sample_tail.
Definition sample_erasures : ErasureInput :=
  {| entries := []; archive_ranges := [{| er_offset := 14; er_length := 4 |}] |}.
Definition sample_plan : RecoveryPlan :=
  {| plan_erasures := sample_erasures;
     plan_range := {| pr_offset := 8; pr_length := 12; pr_algo_id := 17 |};
     plan_algo_id := 17 |}.
Definition sample_meta : FecMeta :=
  Rs {| rs_k := 3; rs_parity_count := 2; rs_symbol_size := 2;
        rs_original_protected_len := 12; rs_group_count := 2; rs_parity_data_len := 8 |}.

Lemma sample_intact (i : nat) :
  (i < length sample_original)%nat →
  (∀ r, r ∈ archive_ranges sample_erasures →
     ¬ (er_offset r ≤ 8 + Z.of_nat i < er_offset r + er_length r)) →
  sample_archive !! (8 + i)%nat = sample_original !! i.
Proof.
  intros Hi Hr. change (length sample_original) with 12%nat in Hi.
  specialize (Hr {| er_offset := 14; er_length := 4 |} ltac:(by left)). cbn in Hr.
  do 12 (destruct i as [|i]; [done || lia|]). lia.
Qed.
Lemma sample_tolerated g :
  Z.of_nat (size (filter (λ u, g * meta_group sample_meta ≤ u
                               < (g + 1) * meta_group sample_meta)
    (damaged_units (meta_unit sample_meta) (archive_ranges sample_erasures))))
  ≤ meta_tolerance sample_meta.
Proof.
  transitivity (Z.of_nat (size (damaged_units (meta_unit sample_meta)
    (archive_ranges sample_erasures)))); [|by vm_compute].
  apply inj_le, subseteq_size. set_solver.
Qed.

Lemma repair_archive_restores_witness :
  repair_archive sample_archive sample_plan default_limits
  = Ok (sample_head ++ sample_original ++ sample_tail,
        {| success := true; repaired_ranges := archive_ranges sample_erasures;
           degraded := false; report_error := None |}).
Proof.
  apply (repair_archive_restores sample_archive sample_original sample_erasures
    default_limits sample_plan (Z.lor GlobalFlags.OPT_PRESENT GlobalFlags.HAS_GLOBAL_EC)
    20 17 3 2 (Some 2) sample_recovery sample_meta []);
    [by vm_compute|by vm_compute|done|done|by intros s [= <-]|by vm_compute..
    |apply Forall_singleton; done|apply sample_intact|apply sample_tolerated
    |by vm_compute|by vm_compute].
Defined.
Lemma plan_archive_repair_spec_witness :
  no_panic (repair_archive sample_archive sample_plan default_limits).
Proof.
  apply (plan_archive_repair_spec sample_archive sample_erasures default_limits).
  by vm_compute.
Defined.
End witnesses.

End Repair.
