(* ===== verification/Utf8.v ===== *)
(** * UTF-8

    The validity check of the standard library that the crates use on names, paths,
    content types and labels ([std::str::from_utf8], [String::from_utf8]). *)

From S2P Require Import Prelude.

Module Utf8.

Definition in_range (lo hi : Z) (b : byte) : bool :=
  (lo <=? byte_val b) && (byte_val b <=? hi).
Definition continuation : byte → bool := in_range 128 191.

(** [std::str::from_utf8] succeeds on exactly these byte strings: one to four
    bytes per character, no overlong form, no surrogate, nothing past U+10FFFF. *)
Fixpoint from_utf8 (bs : list byte) : bool :=
  match bs with
  | [] => true
  | b0 :: r0 =>
      if in_range 0 127 b0 then from_utf8 r0 else
      match r0 with
      | [] => false
      | b1 :: r1 =>
          if in_range 194 223 b0 then continuation b1 && from_utf8 r1 else
          match r1 with
          | [] => false
          | b2 :: r2 =>
              if in_range 224 239 b0 then
                (if byte_val b0 =? 224 then in_range 160 191 b1
                 else if byte_val b0 =? 237 then in_range 128 159 b1
                 else continuation b1)
                && continuation b2 && from_utf8 r2
              else
              match r2 with
              | [] => false
              | b3 :: r3 =>
                  in_range 240 244 b0
                  && (if byte_val b0 =? 240 then in_range 144 191 b1
                      else if byte_val b0 =? 244 then in_range 128 143 b1
                      else continuation b1)
                  && continuation b2 && continuation b3 && from_utf8 r3
              end
          end
      end
  end.

(** [String::from_utf8_lossy]: every maximal prefix of a character that is cut short or does
    not start one becomes U+FFFD.  [char_prefix] is the number of bytes the decoder takes at
    once, and whether they are a character; a byte behind the end counts as zero. *)
Definition REPLACEMENT_CHARACTER : list byte := [xef; xbf; xbd].
Definition second_of_three (b0 b1 : byte) : bool :=
  if byte_val b0 =? 224 then in_range 160 191 b1
  else if byte_val b0 =? 237 then in_range 128 159 b1 else continuation b1.
Definition second_of_four (b0 b1 : byte) : bool :=
  if byte_val b0 =? 240 then in_range 144 191 b1
  else if byte_val b0 =? 244 then in_range 128 143 b1 else continuation b1.
Definition char_prefix (b0 : byte) (rest : list byte) : nat * bool :=
  let at_ i := default x00 (rest !! i) in
  if in_range 0 127 b0 then (1%nat, true)
  else if in_range 194 223 b0 then
    if continuation (at_ 0%nat) then (2%nat, true) else (1%nat, false)
  else if in_range 224 239 b0 then
    if second_of_three b0 (at_ 0%nat) then
      if continuation (at_ 1%nat) then (3%nat, true) else (2%nat, false)
    else (1%nat, false)
  else if in_range 240 244 b0 then
    if second_of_four b0 (at_ 0%nat) then
      if continuation (at_ 1%nat) then
        if continuation (at_ 2%nat) then (4%nat, true) else (3%nat, false)
      else (2%nat, false)
    else (1%nat, false)
  else (1%nat, false).
(** One round per character; the fuel is the number of bytes. *)
Fixpoint lossy_loop (fuel : nat) (bs : list byte) : list byte :=
  match fuel, bs with
  | S fuel, b0 :: rest =>
      let '(n, ok) := char_prefix b0 rest in
      (if ok : bool then take n bs else REPLACEMENT_CHARACTER) ++ lossy_loop fuel (drop n bs)
  | _, _ => []
  end.
Definition from_utf8_lossy (bs : list byte) : list byte := lossy_loop (length bs) bs.

(** The specification of the check: a Unicode scalar value and its encoding. *)
Definition scalar (c : Z) : Prop := 0 ≤ c < 0xD800 ∨ 0xE000 ≤ c < 0x110000.
Definition encode_char (c : Z) : list byte :=
  if c <? 0x80 then [byte_of c]
  else if c <? 0x800 then [byte_of (192 + c / 64); byte_of (128 + c mod 64)]
  else if c <? 0x10000 then
    [byte_of (224 + c / 4096); byte_of (128 + c / 64 mod 64); byte_of (128 + c mod 64)]
  else
    [byte_of (240 + c / 262144); byte_of (128 + c / 4096 mod 64);
     byte_of (128 + c / 64 mod 64); byte_of (128 + c mod 64)].

Lemma byte_of_eq b z : z = byte_val b → byte_of z = b.
Proof. intros ->. apply byte_of_val. Qed.

(** Arithmetic on the quotients of [encode_char]. *)
Ltac utf8_arith :=
  unfold scalar, continuation, in_range in *; Z.to_euclidean_division_equations; lia.
Ltac utf8_cases :=
  repeat match goal with
  | |- context [if ?b then _ else _] => let E := fresh "E" in destruct b eqn:E; try utf8_arith
  | |- ?a && ?b = true => apply andb_true_iff; split; try done
  | |- _ = true => utf8_arith
  end.

Lemma from_utf8_encode c r :
  scalar c → from_utf8 r = true → from_utf8 (encode_char c ++ r) = true.
Proof.
  intros Hc Hr. unfold encode_char.
  destruct (c <? 0x80) eqn:E1; [|destruct (c <? 0x800) eqn:E2;
    [|destruct (c <? 0x10000) eqn:E3]]; cbn [app from_utf8]; unfold continuation, in_range;
    rewrite !byte_val_of_small, ?Hr by utf8_arith; utf8_cases.
Qed.
(** A non-empty valid string starts with the encoding of a character. *)
Lemma from_utf8_step b0 r0 :
  from_utf8 (b0 :: r0) = true →
  ∃ c r, scalar c ∧ b0 :: r0 = encode_char c ++ r ∧ from_utf8 r = true.
Proof.
  pose proof (byte_val_range b0). cbn [from_utf8]. intros Hv.
  destruct (in_range 0 127 b0) eqn:E0.
  { exists (byte_val b0), r0. unfold encode_char.
    rewrite (proj2 (Z.ltb_lt _ _)), byte_of_val by utf8_arith. split; [utf8_arith|done]. }
  destruct r0 as [|b1 r1]; [done|]. pose proof (byte_val_range b1).
  destruct (in_range 194 223 b0) eqn:E1.
  { apply andb_true_iff in Hv as [Hb1 Hv].
    exists ((byte_val b0 - 192) * 64 + (byte_val b1 - 128)), r1. unfold encode_char.
    rewrite (proj2 (Z.ltb_ge _ _)), (proj2 (Z.ltb_lt _ _)) by utf8_arith.
    rewrite (byte_of_eq b0), (byte_of_eq b1) by utf8_arith. split; [utf8_arith|done]. }
  destruct r1 as [|b2 r2]; [done|]. pose proof (byte_val_range b2).
  destruct (in_range 224 239 b0) eqn:E2.
  { apply andb_true_iff in Hv as [[Hb1 Hb2]%andb_true_iff Hv].
    exists ((byte_val b0 - 224) * 4096 + (byte_val b1 - 128) * 64 + (byte_val b2 - 128)), r2.
    assert (128 ≤ byte_val b1 ≤ 191
            ∧ (byte_val b0 = 224 → 160 ≤ byte_val b1) ∧ (byte_val b0 = 237 → byte_val b1 ≤ 159))
      by (repeat case_match; utf8_arith). clear Hb1 E0 E1. unfold encode_char.
    rewrite 2!(proj2 (Z.ltb_ge _ _)), (proj2 (Z.ltb_lt _ _)) by utf8_arith.
    rewrite (byte_of_eq b0), (byte_of_eq b1), (byte_of_eq b2) by utf8_arith.
    split; [utf8_arith|done]. }
  destruct r2 as [|b3 r3]; [done|]. pose proof (byte_val_range b3).
  apply andb_true_iff in Hv as
    [[[[Hb0 Hb1]%andb_true_iff Hb2]%andb_true_iff Hb3]%andb_true_iff Hv].
  exists ((byte_val b0 - 240) * 262144 + (byte_val b1 - 128) * 4096
          + (byte_val b2 - 128) * 64 + (byte_val b3 - 128)), r3.
  assert (128 ≤ byte_val b1 ≤ 191
          ∧ (byte_val b0 = 240 → 144 ≤ byte_val b1) ∧ (byte_val b0 = 244 → byte_val b1 ≤ 143))
    by (repeat case_match; utf8_arith). clear Hb1 E0 E1 E2. unfold encode_char.
  rewrite 3!(proj2 (Z.ltb_ge _ _)) by utf8_arith.
  rewrite (byte_of_eq b0), (byte_of_eq b1), (byte_of_eq b2), (byte_of_eq b3) by utf8_arith.
  split; [utf8_arith|done].
Qed.

(** The check accepts exactly the encodings of sequences of scalar values. *)
Lemma from_utf8_spec bs :
  from_utf8 bs = true ↔ ∃ cs, Forall scalar cs ∧ bs = concat (encode_char <$> cs).
Proof.
  split.
  - remember (length bs) as n eqn:Hn. revert bs Hn.
    induction (lt_wf n) as [n _ IH]. intros bs Hn Hv.
    destruct bs as [|b0 r0]; [by exists []|].
    apply from_utf8_step in Hv as (c & r & Hc & Heq & Hr). rewrite Heq in *.
    assert (Hl : (0 < length (encode_char c))%nat)
      by (unfold encode_char; repeat case_match; cbn; lia).
    rewrite length_app in Hn.
    destruct (IH (length r) ltac:(lia) r eq_refl Hr) as (cs & Hcs & ->).
    exists (c :: cs). by split; [constructor|].
  - intros (cs & Hcs & ->). induction Hcs; cbn; [done|]. by apply from_utf8_encode.
Qed.

(** ASCII strings are valid. *)
Lemma from_utf8_ascii bs : forallb (in_range 0 127) bs = true → from_utf8 bs = true.
Proof.
  induction bs as [|b bs IH]; cbn [forallb from_utf8]; [done|].
  intros [-> H]%andb_true_iff. by apply IH.
Qed.

End Utf8.
