(* ===== verification/StreamProtocol.v ===== *)
(** * Session-control frames

    Models [crates/sar-stream/src/protocol.rs]: the two operation-code name
    spaces, the flag sets with their validation, and the parser and serializer of
    each session-control payload.  A flag set is its raw bits; a [String] is its
    UTF-8 bytes, and [Utf8.from_utf8] is the validity check of the standard
    library.  Every frame is an instance of [FrameLaws]: its parser and its
    serializer are inverse, in both directions, and the parser does not panic. *)

From S2P Require Import Prelude Errors Flags Limits Utf8.

(** ** Operation codes *)
Module FilesystemOpCode.

(** [enum FilesystemOpCode]. *)
Inductive t : Set := DataWrite | Delete | Rename | MetaProbe | SyncBarrier.
#[global] Instance t_eq_dec : EqDecision t.
Proof. solve_decision. Defined.

(** [TryFrom<u8> for FilesystemOpCode]. *)
Definition try_from (value : Z) : result SarError.t t :=
  match value with
  | 0 => Ok DataWrite
  | 1 => Ok Delete
  | 2 => Ok Rename
  | 3 => Ok MetaProbe
  | 4 => Ok SyncBarrier
  | _ => Err (SarError.ReservedValue "reserved filesystem OP_CODE")
  end.

Lemma filesystem_op_no_panic v : no_panic (try_from v).
Proof. unfold try_from. by repeat case_match. Qed.

End FilesystemOpCode.

Module SessionOpCode.

(** [enum SessionOpCode]. *)
Inductive t : Set :=
  Init | Close | Resume | Heartbeat | Status | Ack | Metadata | Capabilities.
#[global] Instance t_eq_dec : EqDecision t.
Proof. solve_decision. Defined.

(** [TryFrom<u8> for SessionOpCode]. *)
Definition try_from (value : Z) : result SarError.t t :=
  match value with
  | 0 => Ok Init
  | 1 => Ok Close
  | 2 => Ok Resume
  | 3 => Ok Heartbeat
  | 4 => Ok Status
  | 5 => Ok Ack
  | 6 => Ok Metadata
  | 7 => Ok Capabilities
  | _ => Err (SarError.ReservedValue "reserved session OP_CODE")
  end.

Lemma session_op_no_panic v : no_panic (try_from v).
Proof. unfold try_from. by repeat case_match. Qed.

End SessionOpCode.

(** ** Flag sets *)
Module SessionFlags.
Import EntryMode.

Definition BIDIRECTIONAL_CONTROL_REQUESTED : Z := Z.shiftl 1 0.
Definition BIDIRECTIONAL_CONTROL_REQUIRED : Z := Z.shiftl 1 1.
Definition BIDIRECTIONAL_STREAM_REQUESTED : Z := Z.shiftl 1 2.
Definition BIDIRECTIONAL_STREAM_REQUIRED : Z := Z.shiftl 1 3.
Definition RESERVED_MASK : Z := 0xfff0.

Definition bidirectional_control_requested (bits : Z) : bool :=
  has bits BIDIRECTIONAL_CONTROL_REQUESTED.
Definition bidirectional_control_required (bits : Z) : bool :=
  has bits BIDIRECTIONAL_CONTROL_REQUIRED.
Definition bidirectional_stream_requested (bits : Z) : bool :=
  has bits BIDIRECTIONAL_STREAM_REQUESTED.
Definition bidirectional_stream_required (bits : Z) : bool :=
  has bits BIDIRECTIONAL_STREAM_REQUIRED.

(** [SessionFlags::validate]. *)
Definition validate (bits : Z) : result SarError.t unit :=
  if has bits RESERVED_MASK then
    Err (SarError.ReservedValue "reserved SESSION_INIT flags must be zero")
  else
    let control_enabled :=
      bidirectional_control_requested bits || bidirectional_control_required bits in
    if (bidirectional_stream_requested bits || bidirectional_stream_required bits)
       && negb control_enabled then
      Err (SarError.FlagConflict "bidirectional stream requires bidirectional control")
    else if bidirectional_stream_required bits
            && negb (bidirectional_control_required bits) then
      Err (SarError.FlagConflict
             "required bidirectional stream requires required bidirectional control")
    else Ok tt.

Lemma session_flags_no_panic bits : no_panic (validate bits).
Proof. unfold validate. by repeat case_match. Qed.

End SessionFlags.

Module CapabilityFlags.
Import EntryMode.

Definition SESSION_ACK : Z := Z.shiftl 1 0.
Definition SESSION_STATUS : Z := Z.shiftl 1 1.
Definition SESSION_RESUME : Z := Z.shiftl 1 2.
Definition SESSION_METADATA : Z := Z.shiftl 1 3.
Definition BIDIRECTIONAL_CONTROL : Z := Z.shiftl 1 4.
Definition BIDIRECTIONAL_STREAM : Z := Z.shiftl 1 5.
Definition CAP_TLS_EXPORTER_AEAD : Z := Z.shiftl 1 6.
Definition RESERVED_MASK : Z := 0xff80.
(** [CapabilityFlags::NONE]. *)
Definition NONE : Z := 0.

Definition supports_session_ack (bits : Z) : bool := has bits SESSION_ACK.
Definition supports_session_status (bits : Z) : bool := has bits SESSION_STATUS.
Definition supports_session_resume (bits : Z) : bool := has bits SESSION_RESUME.
Definition supports_session_metadata (bits : Z) : bool := has bits SESSION_METADATA.
Definition supports_tls_exporter_aead (bits : Z) : bool := has bits CAP_TLS_EXPORTER_AEAD.
Definition supports_bidirectional_control (bits : Z) : bool :=
  has bits BIDIRECTIONAL_CONTROL.
Definition supports_bidirectional_stream (bits : Z) : bool :=
  has bits BIDIRECTIONAL_STREAM.

(** [CapabilityFlags::validate]. *)
Definition validate (bits : Z) : result SarError.t unit :=
  if has bits RESERVED_MASK then
    Err (SarError.ReservedValue "reserved SESSION_CAPABILITIES bits must be zero")
  else if supports_bidirectional_stream bits
          && negb (supports_bidirectional_control bits) then
    Err (SarError.FlagConflict
           "bidirectional stream capability requires bidirectional control capability")
  else Ok tt.

Lemma capability_flags_no_panic bits : no_panic (validate bits).
Proof. unfold validate. by repeat case_match. Qed.

End CapabilityFlags.

Module AckFlags.
Import EntryMode.

Definition ACK : Z := Z.shiftl 1 0.
Definition OK : Z := Z.shiftl 1 1.
Definition SUCCESS : Z := Z.shiftl 1 2.
Definition RESERVED_MASK : Z := 0xf8.

Definition is_ack (bits : Z) : bool := has bits ACK.
Definition is_ok (bits : Z) : bool := has bits OK.
Definition is_success (bits : Z) : bool := has bits SUCCESS.

(** [AckFlags::validate]. *)
Definition validate (bits : Z) : result SarError.t unit :=
  if has bits RESERVED_MASK then
    Err (SarError.ReservedValue "reserved SESSION_ACK bits must be zero")
  else if is_ok bits && negb (is_ack bits) then
    Err (SarError.FlagConflict "SESSION_ACK OK requires ACK")
  else if is_success bits && negb (is_ack bits && is_ok bits) then
    Err (SarError.FlagConflict "SESSION_ACK SUCCESS requires ACK and OK")
  else Ok tt.

Lemma ack_flags_no_panic bits : no_panic (validate bits).
Proof. unfold validate. by repeat case_match. Qed.

End AckFlags.

#[export] Hint Resolve FilesystemOpCode.filesystem_op_no_panic SessionOpCode.session_op_no_panic
  SessionFlags.session_flags_no_panic CapabilityFlags.capability_flags_no_panic
  AckFlags.ack_flags_no_panic : no_panic.

(** ** Frames *)
Module Frames.
Import Limits.

(** [u16::from_le_bytes([payload[i], payload[i + 1]])]. *)
Definition u16_at (payload : list byte) (i : Z) : result SarError.t Z :=
  b0 ← index_r payload i; b1 ← index_r payload (i + 1); Ok (le_val [b0; b1]).

(** [struct SessionInitFrame]. *)
Record SessionInitFrame := { init_uuid : list byte; init_flags : Z }.

(** [SessionInitFrame::parse]. *)
Definition parse_init (payload : list byte) : result SarError.t SessionInitFrame :=
  if negb (len payload =? 18) then
    Err (SarError.InvalidLength "SESSION_INIT payload must be 18 bytes")
  else
    session_uuid ← slice_r payload 0 16;
    flags ← u16_at payload 16;
    _ ← SessionFlags.validate flags;
    Ok {| init_uuid := session_uuid; init_flags := flags |}.

(** [SessionInitFrame::to_bytes]. *)
Definition init_to_bytes (f : SessionInitFrame) : result SarError.t (list byte) :=
  _ ← SessionFlags.validate (init_flags f);
  Ok (init_uuid f ++ le_bytes 2 (init_flags f)).

(** [struct SessionResumeFrame]. *)
Record SessionResumeFrame := { resume_uuid : list byte }.

(** [SessionResumeFrame::parse]. *)
Definition parse_resume (payload : list byte) : result SarError.t SessionResumeFrame :=
  if negb (len payload =? 16) then
    Err (SarError.InvalidLength "SESSION_RESUME payload must be 16 bytes")
  else Ok {| resume_uuid := payload |}.

(** [SessionResumeFrame::to_bytes]. *)
Definition resume_to_bytes (f : SessionResumeFrame) : list byte := resume_uuid f.

(** [decode_status_code]. *)
Definition decode_status_code (code : Z) : result SarError.t SarStatus.t :=
  let signed := if code =? 2 ^ 16 - 1 then -1 else code in
  map_err (λ _, SarError.ReservedValue "unknown session status code")
    (SarStatus.try_from signed).

(** [encode_status_code]; [as u16] keeps the low sixteen bits. *)
Definition encode_status_code (status : SarStatus.t) : Z :=
  if SarStatus.code status =? -1 then 2 ^ 16 - 1 else SarStatus.code status mod 2 ^ 16.

(** [struct SessionStatusFrame]. *)
Record SessionStatusFrame := {
  status_ref_sequence : Z; status : SarStatus.t; message : list byte }.

(** [SessionStatusFrame::parse]. *)
Definition parse_status (limits : ResourceLimits) (payload : list byte)
    : result SarError.t SessionStatusFrame :=
  if len payload <? 5 then
    Err (SarError.Truncated "SESSION_STATUS payload shorter than fixed frame")
  else
    ref_sequence ← u16_at payload 0;
    code ← u16_at payload 2;
    status ← decode_status_code code;
    b4 ← index_r payload 4;
    let message_len := byte_val b4 in
    _ ← check_session_status_message_bytes limits message_len;
    total ← add_r 64 5 message_len;
    if negb (len payload =? total) then
      Err (SarError.InvalidLength "SESSION_STATUS payload length mismatch")
    else
      message ← slice_r payload 5 (len payload);
      Ok {| status_ref_sequence := ref_sequence; status := status; message := message |}.

(** [SessionStatusFrame::to_bytes]; the capacity hint [5 + len] is computed before
    the frame is assembled. *)
Definition status_to_bytes (limits : ResourceLimits) (f : SessionStatusFrame)
    : result SarError.t (list byte) :=
  _ ← check_session_status_message_bytes limits (len (message f));
  message_len ← ok_or (try_from 8 (len (message f)))
                  (SarError.Overflow "SESSION_STATUS message length");
  _ ← add_r 64 5 (len (message f));
  Ok (le_bytes 2 (status_ref_sequence f)
      ++ le_bytes 2 (encode_status_code (status f))
      ++ [byte_of message_len] ++ message f).

(** [struct SessionAckFrame]. *)
Record SessionAckFrame := { ack_ref_sequence : Z; ack_flags : Z }.

(** [SessionAckFrame::parse]. *)
Definition parse_ack (payload : list byte) : result SarError.t SessionAckFrame :=
  if negb (len payload =? 3) then
    Err (SarError.InvalidLength "SESSION_ACK payload must be 3 bytes")
  else
    b2 ← index_r payload 2;
    let flags := byte_val b2 in
    _ ← AckFlags.validate flags;
    ref_sequence ← u16_at payload 0;
    Ok {| ack_ref_sequence := ref_sequence; ack_flags := flags |}.

(** [SessionAckFrame::to_bytes]. *)
Definition ack_to_bytes (f : SessionAckFrame) : result SarError.t (list byte) :=
  _ ← AckFlags.validate (ack_flags f);
  Ok (le_bytes 2 (ack_ref_sequence f) ++ [byte_of (ack_flags f)]).

(** [struct SessionMetadataFrame]. *)
Record SessionMetadataFrame := { content_type : list byte; metadata : list byte }.

(** [SessionMetadataFrame::parse]. *)
Definition parse_metadata (limits : ResourceLimits) (payload : list byte)
    : result SarError.t SessionMetadataFrame :=
  if len payload <? 5 then
    Err (SarError.Truncated "SESSION_METADATA payload shorter than fixed frame")
  else
    b0 ← index_r payload 0;
    let content_type_len := byte_val b0 in
    if content_type_len =? 0 then
      Err (SarError.InvalidLength "SESSION_METADATA content type length must be non-zero")
    else
      b1 ← index_r payload 1; b2 ← index_r payload 2;
      b3 ← index_r payload 3; b4 ← index_r payload 4;
      metadata_len ← ok_or (try_from 64 (le_val [b1; b2; b3; b4]))
                       (SarError.Overflow "metadata length");
      _ ← check_session_metadata_bytes limits metadata_len;
      total ← ok_or (v ← checked_add 64 5 content_type_len;
                     checked_add 64 v metadata_len)
                (SarError.Overflow "SESSION_METADATA frame length");
      if negb (len payload =? total) then
        Err (SarError.InvalidLength "SESSION_METADATA payload length mismatch")
      else
        split ← add_r 64 5 content_type_len;
        content_type ← slice_r payload 5 split;
        if negb (Utf8.from_utf8 content_type) then
          Err (SarError.Malformed "SESSION_METADATA content type is not valid UTF-8")
        else
          metadata ← slice_r payload split (len payload);
          Ok {| content_type := content_type; metadata := metadata |}.

(** [SessionMetadataFrame::to_bytes]; the capacity hint
    [5 + content_type.len() + metadata.len()] is computed as the code does. *)
Definition metadata_to_bytes (limits : ResourceLimits) (f : SessionMetadataFrame)
    : result SarError.t (list byte) :=
  if len (content_type f) =? 0 then
    Err (SarError.InvalidLength "SESSION_METADATA content type length must be non-zero")
  else
    content_type_len ← ok_or (try_from 8 (len (content_type f)))
                         (SarError.Overflow "SESSION_METADATA content type length");
    _ ← check_session_metadata_bytes limits (len (metadata f));
    metadata_len ← ok_or (try_from 32 (len (metadata f)))
                     (SarError.Overflow "SESSION_METADATA metadata length");
    head ← add_r 64 5 (len (content_type f));
    _ ← add_r 64 head (len (metadata f));
    Ok ([byte_of content_type_len] ++ le_bytes 4 metadata_len
        ++ content_type f ++ metadata f).

(** [struct SessionCapabilitiesFrame]. *)
Record SessionCapabilitiesFrame := { capability_flags : Z }.

(** [SessionCapabilitiesFrame::parse]. *)
Definition parse_capabilities (payload : list byte)
    : result SarError.t SessionCapabilitiesFrame :=
  if negb (len payload =? 2) then
    Err (SarError.InvalidLength "SESSION_CAPABILITIES payload must be 2 bytes")
  else
    flags ← u16_at payload 0;
    _ ← CapabilityFlags.validate flags;
    Ok {| capability_flags := flags |}.

(** [SessionCapabilitiesFrame::to_bytes]. *)
Definition capabilities_to_bytes (f : SessionCapabilitiesFrame)
    : result SarError.t (list byte) :=
  _ ← CapabilityFlags.validate (capability_flags f);
  Ok (le_bytes 2 (capability_flags f)).

(** ** The frames as inverse pairs *)

(** What a frame promises: its parser accepts exactly the serializations of
    well-typed frames, and gives the frame back. *)
Class FrameLaws {A} (parse : list byte → result SarError.t A)
    (to_bytes : A → result SarError.t (list byte)) (typed : A → Prop) : Prop := {
  frame_inverse payload f : parse payload = Ok f ↔ typed f ∧ to_bytes f = Ok payload;
  frame_no_panic payload : no_panic (parse payload);
}.

(** Values of the Rust types of the fields. *)
Definition init_typed (f : SessionInitFrame) : Prop :=
  len (init_uuid f) = 16 ∧ fits 16 (init_flags f).
Definition resume_typed (f : SessionResumeFrame) : Prop := len (resume_uuid f) = 16.
Definition status_typed (f : SessionStatusFrame) : Prop := fits 16 (status_ref_sequence f).
Definition ack_typed (f : SessionAckFrame) : Prop :=
  fits 16 (ack_ref_sequence f) ∧ fits 8 (ack_flags f).
Definition metadata_typed (f : SessionMetadataFrame) : Prop :=
  Utf8.from_utf8 (content_type f) = true.
Definition capabilities_typed (f : SessionCapabilitiesFrame) : Prop :=
  fits 16 (capability_flags f).

Lemma u16_fits b0 b1 : fits 16 (le_val [b0; b1]).
Proof. pose proof (le_val_range [b0; b1]) as H. exact H. Qed.
Lemma u16_bytes b0 b1 : le_bytes 2 (le_val [b0; b1]) = [b0; b1].
Proof. apply (le_bytes_val [b0; b1]). Qed.
Lemma u32_bytes b0 b1 b2 b3 : le_bytes 4 (le_val [b0; b1; b2; b3]) = [b0; b1; b2; b3].
Proof. apply (le_bytes_val [b0; b1; b2; b3]). Qed.
(** The two bytes of a 16-bit field. *)
Lemma u16_split v : fits 16 v → ∃ b0 b1, le_bytes 2 v = [b0; b1] ∧ le_val [b0; b1] = v.
Proof.
  intros Hv. destruct (le_bytes 2 v) as [|b0 [|b1 [|? ?]]] eqn:E;
    pose proof (length_le_bytes 2 v) as Hl; rewrite E in Hl; try discriminate Hl.
  exists b0, b1. split; [done|]. rewrite <- E. by apply le_val_bytes.
Qed.

Lemma decode_encode_status s : decode_status_code (encode_status_code s) = Ok s.
Proof. by destruct s. Qed.
Lemma encode_decode_status code s :
  fits 16 code → decode_status_code code = Ok s → encode_status_code s = code.
Proof.
  unfold decode_status_code, encode_status_code. intros Hc Hd.
  apply map_err_Ok, ErrorFacts.code_of_try_from in Hd. rewrite Hd. unfold fits in Hc.
  destruct (Z.eqb_spec code (2 ^ 16 - 1)) as [->|]; [done|].
  rewrite (proj2 (Z.eqb_neq _ _)) by lia. by apply Z.mod_small.
Qed.
Lemma decode_status_no_panic code : no_panic (decode_status_code code).
Proof.
  apply no_panic_map_err. unfold SarStatus.try_from. by repeat case_match.
Qed.
Lemma status_code_fits s : fits 16 (encode_status_code s).
Proof. by destruct s. Qed.
#[local] Hint Resolve decode_status_no_panic : no_panic.

Lemma u16_at_mid p s b0 b1 i :
  i = len p → u16_at (p ++ b0 :: b1 :: s) i = Ok (le_val [b0; b1]).
Proof.
  intros Hi. unfold u16_at. rewrite (index_r_mid p (b1 :: s) b0 i Hi). cbn [mbind result_bind].
  rewrite (cons_middle b0 p), app_assoc, (index_r_mid (p ++ [b0]) s b1); [done|].
  rewrite len_app, Hi. done.
Qed.
#[export] Instance init_laws : FrameLaws parse_init init_to_bytes init_typed.
Proof.
  assert (Hparse : ∀ u b0 b1, len u = 16 →
    parse_init (u ++ [b0; b1]) = _ ← SessionFlags.validate (le_val [b0; b1]);
      Ok {| init_uuid := u; init_flags := le_val [b0; b1] |}).
  { intros u b0 b1 Hu. unfold parse_init. rewrite len_app, Hu. cbn [len length].
    rewrite slice_r_fits by (rewrite ?len_app, ?Hu; unfold len; cbn; lia).
    cbn [mbind result_bind]. by rewrite slice_prefix, u16_at_mid by by rewrite Hu. }
  split.
  - intros payload [u fl]. split.
    + intros H. assert (Hl : len payload = 18).
      { unfold parse_init in H. destruct (Z.eqb_spec (len payload) 18); done. }
      destruct (cut_at payload 16) as (u' & r & -> & Hu); [lia|].
      rewrite len_app in Hl. destruct r as [|b0 [|b1 [|? r]]];
        autorewrite with len in Hl; [lia..| |pose proof (len_nonneg r); lia].
      rewrite Hparse in H by done. apply bind_Ok in H as ([] & Hv & [= <- <-]).
      split; [split; [done|apply u16_fits]|].
      unfold init_to_bytes. cbn [init_flags init_uuid]. rewrite Hv. cbn.
      by rewrite u16_bytes.
    + intros [[Hu Hf] H]. unfold init_to_bytes in H. cbn [init_flags init_uuid] in *.
      apply bind_Ok in H as ([] & Hv & <-%Ok_inj).
      destruct (u16_split fl Hf) as (b0 & b1 & -> & Hfl). rewrite Hparse by done.
      by rewrite Hfl, Hv.
  - intros payload. unfold parse_init. dif as E; [done|].
    apply no_panic_bind; [apply slice_r_no_panic; lia|]. intros u _.
    unfold u16_at. apply no_panic_bind; [|intros; np].
    repeat (apply no_panic_bind; [apply index_r_no_panic; lia|intros ? _]). done.
Qed.

#[export] Instance resume_laws :
  FrameLaws parse_resume (λ f, Ok (resume_to_bytes f)) resume_typed.
Proof.
  split.
  - intros payload [u]. unfold parse_resume, resume_typed, resume_to_bytes. cbn.
    destruct (Z.eqb_spec (len payload) 16); cbn; naive_solver.
  - intros payload. unfold parse_resume. by dif as E.
Qed.

#[export] Instance ack_laws : FrameLaws parse_ack ack_to_bytes ack_typed.
Proof.
  assert (Hparse : ∀ b0 b1 b2,
    parse_ack [b0; b1; b2] = _ ← AckFlags.validate (byte_val b2);
      Ok {| ack_ref_sequence := le_val [b0; b1]; ack_flags := byte_val b2 |}) by done.
  assert (Hlen : ∀ payload : list byte, len payload = 3 → ∃ b0 b1 b2, payload = [b0; b1; b2]).
  { intros [|b0 [|b1 [|b2 [|b3 l]]]]; unfold len; cbn; try lia; eauto. }
  split.
  - intros payload [r fl]. split.
    + intros H. destruct (Hlen payload) as (b0 & b1 & b2 & ->).
      { unfold parse_ack in H. destruct (Z.eqb_spec (len payload) 3); done. }
      rewrite Hparse in H. apply bind_Ok in H as ([] & Hv & [= <- <-]).
      split; [split; [apply u16_fits|apply byte_val_range]|].
      unfold ack_to_bytes. cbn [ack_flags ack_ref_sequence]. rewrite Hv. cbn.
      by rewrite u16_bytes, byte_of_val.
    + intros [[Hr Hf] H]. unfold ack_to_bytes in H. cbn [ack_flags ack_ref_sequence] in *.
      apply bind_Ok in H as ([] & Hv & <-%Ok_inj).
      destruct (u16_split r Hr) as (b0 & b1 & -> & Hrr). cbn [app]. rewrite Hparse.
      by rewrite byte_val_of_small, Hrr, Hv.
  - intros payload. unfold parse_ack. dif as E; [done|].
    destruct (Hlen payload) as (b0 & b1 & b2 & ->); [lia|]. cbn. np.
Qed.

#[export] Instance capabilities_laws :
  FrameLaws parse_capabilities capabilities_to_bytes capabilities_typed.
Proof.
  assert (Hparse : ∀ b0 b1,
    parse_capabilities [b0; b1] = _ ← CapabilityFlags.validate (le_val [b0; b1]);
      Ok {| capability_flags := le_val [b0; b1] |}) by done.
  assert (Hlen : ∀ payload : list byte, len payload = 2 → ∃ b0 b1, payload = [b0; b1]).
  { intros [|b0 [|b1 [|b2 l]]]; unfold len; cbn; try lia; eauto. }
  split.
  - intros payload [fl]. split.
    + intros H. destruct (Hlen payload) as (b0 & b1 & ->).
      { unfold parse_capabilities in H. destruct (Z.eqb_spec (len payload) 2); done. }
      rewrite Hparse in H. apply bind_Ok in H as ([] & Hv & [= <-]).
      split; [apply u16_fits|].
      unfold capabilities_to_bytes. cbn [capability_flags]. rewrite Hv. cbn.
      by rewrite u16_bytes.
    + intros [Hf H]. unfold capabilities_to_bytes in H. cbn [capability_flags] in *.
      apply bind_Ok in H as ([] & Hv & <-%Ok_inj).
      destruct (u16_split fl Hf) as (b0 & b1 & -> & Hfl). rewrite Hparse.
      by rewrite Hfl, Hv.
  - intros payload. unfold parse_capabilities. dif as E; [done|].
    destruct (Hlen payload) as (b0 & b1 & ->); [lia|]. cbn. np.
Qed.

Section limited.
Context (limits : ResourceLimits).

(** The status parser on a payload cut into its fields. *)
Lemma parse_status_fields b0 b1 b2 b3 b4 msg :
  parse_status limits (b0 :: b1 :: b2 :: b3 :: b4 :: msg)
  = st ← decode_status_code (le_val [b2; b3]);
    _ ← check_session_status_message_bytes limits (byte_val b4);
    if negb (len msg =? byte_val b4) then
      Err (SarError.InvalidLength "SESSION_STATUS payload length mismatch")
    else Ok {| status_ref_sequence := le_val [b0; b1]; status := st; message := msg |}.
Proof.
  unfold parse_status. set (payload := b0 :: b1 :: b2 :: b3 :: b4 :: msg).
  assert (Hl : len payload = 5 + len msg) by (unfold payload; autorewrite with len; lia).
  pose proof (len_nonneg msg). rewrite Hl, (proj2 (Z.ltb_ge _ _)) by lia.
  change (u16_at payload 0) with (@Ok SarError.t _ (le_val [b0; b1])).
  change (u16_at payload 2) with (@Ok SarError.t _ (le_val [b2; b3])).
  change (index_r payload 4) with (@Ok SarError.t _ b4). cbn [mbind result_bind].
  destruct (decode_status_code _) as [st|e|]; [|done..]. cbn [mbind result_bind].
  destruct (check_session_status_message_bytes _ _) as [[]|e|]; [|done..].
  cbn [mbind result_bind]. pose proof (byte_val_range b4).
  rewrite add_r_fits by lia. cbn [mbind result_bind].
  replace (5 + len msg =? 5 + byte_val b4) with (len msg =? byte_val b4) by lia.
  dif as E; [done|]. rewrite slice_r_fits by lia. cbn [mbind result_bind].
  do 3 f_equal. rewrite <- Hl. apply (slice_app_suffix [b0; b1; b2; b3; b4] msg).
Qed.

#[export] Instance status_laws :
  FrameLaws (parse_status limits) (status_to_bytes limits) status_typed.
Proof.
  split.
  - intros payload [r st msg]. split.
    + intros H. destruct payload as [|b0 [|b1 [|b2 [|b3 [|b4 m]]]]]; [discriminate H..|].
      rewrite parse_status_fields in H. apply bind_Ok in H as (st' & Hst & H).
      apply bind_Ok in H as ([] & Hlim & [Hlen H]%guard_Ok). injection H as <- -> ->.
      split; [apply u16_fits|]. pose proof (byte_val_range b4).
      unfold status_to_bytes. cbn [message status status_ref_sequence].
      replace (len msg) with (byte_val b4) by lia. rewrite Hlim. cbn [mbind result_bind].
      rewrite try_from_fits by lia. cbn [ok_or mbind result_bind].
      rewrite add_r_fits by lia. cbn [mbind result_bind].
      rewrite (encode_decode_status _ _ (u16_fits b2 b3) Hst).
      by rewrite !u16_bytes, byte_of_val.
    + intros [Hr H]. unfold status_to_bytes in H.
      cbn [message status status_ref_sequence status_typed] in *.
      apply bind_Ok in H as ([] & Hlim & H).
      apply bind_Ok in H as (n & [-> Hn]%ok_or_Ok%try_from_Some & H).
      apply bind_Ok in H as (k & _ & <-%Ok_inj). pose proof (len_nonneg msg).
      destruct (u16_split r Hr) as (b0 & b1 & -> & Hv).
      destruct (u16_split _ (status_code_fits st)) as (b2 & b3 & -> & Hs).
      cbn [app]. rewrite parse_status_fields, Hs, decode_encode_status.
      rewrite byte_val_of_small by lia. cbn [mbind result_bind]. rewrite Hlim.
      cbn [mbind result_bind]. by rewrite Z.eqb_refl, Hv.
  - intros payload. destruct payload as [|b0 [|b1 [|b2 [|b3 [|b4 m]]]]]; [done..|].
    rewrite parse_status_fields. np.
Qed.

(** The metadata parser on a payload cut into its fields. *)
Lemma parse_metadata_fields b0 b1 b2 b3 b4 rest :
  parse_metadata limits (b0 :: b1 :: b2 :: b3 :: b4 :: rest)
  = let ct := byte_val b0 in let ml := le_val [b1; b2; b3; b4] in
    if ct =? 0 then
      Err (SarError.InvalidLength "SESSION_METADATA content type length must be non-zero")
    else
      _ ← check_session_metadata_bytes limits ml;
      if negb (len rest =? ct + ml) then
        Err (SarError.InvalidLength "SESSION_METADATA payload length mismatch")
      else if negb (Utf8.from_utf8 (slice rest 0 ct)) then
        Err (SarError.Malformed "SESSION_METADATA content type is not valid UTF-8")
      else Ok {| content_type := slice rest 0 ct; metadata := slice rest ct (len rest) |}.
Proof.
  unfold parse_metadata. set (payload := b0 :: b1 :: b2 :: b3 :: b4 :: rest).
  assert (Hl : len payload = 5 + len rest) by (unfold payload; autorewrite with len; lia).
  pose proof (len_nonneg rest). rewrite Hl, (proj2 (Z.ltb_ge _ _)) by lia.
  change (index_r payload 0) with (@Ok SarError.t _ b0).
  change (index_r payload 1) with (@Ok SarError.t _ b1).
  change (index_r payload 2) with (@Ok SarError.t _ b2).
  change (index_r payload 3) with (@Ok SarError.t _ b3).
  change (index_r payload 4) with (@Ok SarError.t _ b4). cbn [mbind result_bind].
  dif as E; [done|]. pose proof (byte_val_range b0).
  pose proof (le_val_range [b1; b2; b3; b4]) as Hm. unfold len at 1 in Hm. cbn in Hm.
  set (ml := le_val _) in *. rewrite try_from_fits by lia. cbn [ok_or mbind result_bind].
  destruct (check_session_metadata_bytes _ _) as [[]|e|]; [|done..].
  cbn [mbind result_bind]. rewrite (checked_add_fits 64 5) by lia.
  cbn [mbind option_bind]. rewrite checked_add_fits by lia. cbn [ok_or mbind result_bind].
  replace (5 + len rest =? 5 + byte_val b0 + ml) with (len rest =? byte_val b0 + ml) by lia.
  dif as E2; [done|]. rewrite add_r_fits by lia. cbn [mbind result_bind].
  rewrite !slice_r_fits by lia. cbn [mbind result_bind].
  pose proof (slice_app_shift [b0; b1; b2; b3; b4] rest) as Hsh.
  change ([b0; b1; b2; b3; b4] ++ rest) with payload in Hsh.
  change (len [b0; b1; b2; b3; b4]) with 5 in Hsh.
  pose proof (Hsh 0 (byte_val b0) ltac:(lia)) as Hct. rewrite Z.add_0_r in Hct.
  by rewrite Hct, (Hsh (byte_val b0) (len rest)) by lia.
Qed.

#[export] Instance metadata_laws :
  FrameLaws (parse_metadata limits) (metadata_to_bytes limits) metadata_typed.
Proof.
  split.
  - intros payload [ct md]. split.
    + intros H. destruct payload as [|b0 [|b1 [|b2 [|b3 [|b4 rest]]]]]; [discriminate H..|].
      rewrite parse_metadata_fields in H. cbv zeta in H. apply guard_Ok in H as [Hz H].
      apply bind_Ok in H as ([] & Hlim & [Hl [Hu H]%guard_Ok]%guard_Ok).
      pose proof (byte_val_range b0). pose proof (le_val_range [b1; b2; b3; b4]) as Hm.
      unfold len at 1 in Hm. cbn in Hm. set (ml := le_val _) in *.
      destruct (cut_at rest (byte_val b0)) as (a & b & -> & Ha); [lia|].
      rewrite (slice_prefix a b _ (eq_sym Ha)), <- Ha, slice_app_suffix in H. injection H as <- <-.
      rewrite len_app in Hl. rewrite (slice_prefix a b _ (eq_sym Ha)) in Hu.
      split; [by apply negb_false_iff|].
      unfold metadata_to_bytes. cbn [content_type metadata]. rewrite Ha, Hz.
      rewrite try_from_fits by lia. cbn [ok_or mbind result_bind].
      replace (len b) with ml by lia. rewrite Hlim. cbn [mbind result_bind].
      rewrite try_from_fits by lia. cbn [ok_or mbind result_bind].
      rewrite add_r_fits by lia. cbn [mbind result_bind]. rewrite add_r_fits by lia.
      cbn [mbind result_bind]. unfold ml. by rewrite u32_bytes, byte_of_val.
    + intros [Hu H]. unfold metadata_to_bytes, metadata_typed in *.
      cbn [content_type metadata] in *. apply guard_Ok in H as [Hz H].
      apply bind_Ok in H as (cl & [-> Hc]%ok_or_Ok%try_from_Some & H).
      apply bind_Ok in H as ([] & Hlim & H).
      apply bind_Ok in H as (ml & [-> Hm]%ok_or_Ok%try_from_Some & H).
      apply bind_Ok in H as (? & _ & H). apply bind_Ok in H as (? & _ & <-%Ok_inj).
      pose proof (len_nonneg ct). pose proof (len_nonneg md).
      destruct (le_bytes 4 (len md)) as [|b1 [|b2 [|b3 [|b4 [|? ?]]]]] eqn:E;
        pose proof (length_le_bytes 4 (len md)) as Hl; rewrite E in Hl; try discriminate Hl.
      cbn [app]. rewrite parse_metadata_fields, <- E, le_val_bytes by (cbn; lia).
      cbv zeta. rewrite byte_val_of_small, Hz, Hlim by lia. cbn [mbind result_bind].
      rewrite len_app, Z.eqb_refl, slice_prefix, Hu by done. cbn [negb].
      by rewrite <- len_app, slice_app_suffix.
  - intros payload. destruct payload as [|b0 [|b1 [|b2 [|b3 [|b4 rest]]]]]; [done..|].
    rewrite parse_metadata_fields. cbv zeta. np.
Qed.

End limited.

(** The session-control payloads are a faithful wire format: for each of the
    six frames, parsing accepts exactly the byte strings the serializer produces
    from a well-typed frame, and returns that frame. *)
Theorem session_frames_inverse limits payload :
  (∀ f, parse_init payload = Ok f ↔ init_typed f ∧ init_to_bytes f = Ok payload)
  ∧ (∀ f, parse_resume payload = Ok f ↔ resume_typed f ∧ resume_to_bytes f = payload)
  ∧ (∀ f, parse_status limits payload = Ok f
          ↔ status_typed f ∧ status_to_bytes limits f = Ok payload)
  ∧ (∀ f, parse_ack payload = Ok f ↔ ack_typed f ∧ ack_to_bytes f = Ok payload)
  ∧ (∀ f, parse_metadata limits payload = Ok f
          ↔ metadata_typed f ∧ metadata_to_bytes limits f = Ok payload)
  ∧ (∀ f, parse_capabilities payload = Ok f
          ↔ capabilities_typed f ∧ capabilities_to_bytes f = Ok payload).
Proof.
  split_and!; intros f; rewrite frame_inverse; [done| |done..].
  split; intros [? H]; (split; [done|]); [by apply Ok_inj in H|by f_equal].
Qed.

(** Frames of each kind on the wire. *)
Example frames_on_the_wire :
  init_to_bytes {| init_uuid := replicate 16 x07; init_flags := 3 |}
    = Ok (replicate 16 x07 ++ [x03; x00])
  ∧ parse_status default_limits [x02; x01; xff; xff; x02; x6f; x6b]
    = Ok {| status_ref_sequence := 258; status := SarStatus.ErrGeneric;
            message := [x6f; x6b] |}
  ∧ parse_metadata default_limits [x02; x01; x00; x00; x00; xc3; xa9; x2a]
    = Ok {| content_type := [xc3; xa9]; metadata := [x2a] |}
  ∧ parse_metadata default_limits [x02; x01; x00; x00; x00; xc0; xa9; x2a]
    = Err (SarError.Malformed "SESSION_METADATA content type is not valid UTF-8")
  ∧ parse_ack [x00; x00; x04]
    = Err (SarError.FlagConflict "SESSION_ACK SUCCESS requires ACK and OK").
Proof. split_and!; by vm_compute. Qed.

End Frames.
