(* ===== verification/Session.v ===== *)
(** * Streaming sessions

    Models [crates/sar-stream/src/session.rs]: the stateful session manager.  A
    manager is a record with its table of active sessions (a [BTreeMap] keyed by
    stream id) as a [gmap]; every handler is a computation of the monad [M], which
    threads the manager through errors as [&mut self] does, so that what a handler
    changed before it failed stays changed. *)

From stdpp Require Import gmap.
From S2P Require Import Prelude Errors Flags Limits Format Lfh StreamProtocol Utf8.

(** ** Data *)

Module ActiveSession.

(** [struct SessionMetadataState]. *)
Record SessionMetadataState := { content_type : list byte; metadata_bytes : list byte }.

(** [struct ActiveSession]. *)
Record t := {
  stream_id : Z;
  session_uuid : list byte;
  session_flags : Z;
  last_sequence_no : Z;
  global_flags : Z;
  peer_capabilities : Z;
  metadata : option SessionMetadataState;
  last_activity_tick : Z;
}.

Definition set_last_sequence_no (s : t) (v : Z) : t :=
  {| stream_id := stream_id s; session_uuid := session_uuid s;
     session_flags := session_flags s; last_sequence_no := v;
     global_flags := global_flags s; peer_capabilities := peer_capabilities s;
     metadata := metadata s; last_activity_tick := last_activity_tick s |}.
Definition set_last_activity_tick (s : t) (v : Z) : t :=
  {| stream_id := stream_id s; session_uuid := session_uuid s;
     session_flags := session_flags s; last_sequence_no := last_sequence_no s;
     global_flags := global_flags s; peer_capabilities := peer_capabilities s;
     metadata := metadata s; last_activity_tick := v |}.
Definition set_peer_capabilities (s : t) (v : Z) : t :=
  {| stream_id := stream_id s; session_uuid := session_uuid s;
     session_flags := session_flags s; last_sequence_no := last_sequence_no s;
     global_flags := global_flags s; peer_capabilities := v;
     metadata := metadata s; last_activity_tick := last_activity_tick s |}.
Definition set_metadata (s : t) (v : option SessionMetadataState) : t :=
  {| stream_id := stream_id s; session_uuid := session_uuid s;
     session_flags := session_flags s; last_sequence_no := last_sequence_no s;
     global_flags := global_flags s; peer_capabilities := peer_capabilities s;
     metadata := v; last_activity_tick := last_activity_tick s |}.

(** [ACTIVE_SESSION_BASE_MEMORY_BYTES]. *)
Definition ACTIVE_SESSION_BASE_MEMORY_BYTES : Z := 16 + 2 + 2 + 8.

(** [ActiveSession::memory_usage]; both additions are unchecked in the source. *)
Definition memory_usage (s : t) : result SarError.t Z :=
  metadata ← (match metadata s with
              | Some value => add_r 64 (len (content_type value)) (len (metadata_bytes value))
              | None => Ok 0
              end : result SarError.t Z);
  add_r 64 ACTIVE_SESSION_BASE_MEMORY_BYTES (default U64_MAX (try_from 64 metadata)).

(** [validate_and_advance_sequence]: the session as the call leaves it, and the
    result of the call. *)
Definition validate_and_advance_sequence (session : t) (sequence_no : Z)
    : t * result SarError.t unit :=
  let expected := (last_sequence_no session + 1) mod 2 ^ 16 in
  if negb (sequence_no =? expected) then
    (session, Err (SarError.StreamState "sequence discontinuity detected"))
  else
    let session := set_last_sequence_no session sequence_no in
    match checked_add 64 (last_activity_tick session) 1 with
    | None => (session, Err (SarError.Overflow "activity tick"))
    | Some tick => (set_last_activity_tick session tick, Ok tt)
    end.

End ActiveSession.

Module SessionEvent.
Import Frames.

(** [struct FilesystemEntryAction]. *)
Record FilesystemEntryAction := {
  entry_stream_id : Z; entry_sequence_no : Z; entry_name : list byte;
  entry_path : list byte; entry_payload : list byte; entry_atomic_write : bool;
  entry_force_sync : bool; entry_loss_tolerant : bool }.
(** [struct FilesystemDeleteAction]. *)
Record FilesystemDeleteAction := {
  delete_stream_id : Z; delete_sequence_no : Z; delete_name : list byte;
  delete_path : list byte; delete_atomic_write : bool; delete_force_sync : bool }.
(** [struct FilesystemRenameAction]. *)
Record FilesystemRenameAction := {
  rename_stream_id : Z; rename_sequence_no : Z; old_name : list byte;
  old_path : list byte; new_path : list byte; rename_atomic_write : bool;
  rename_force_sync : bool }.
(** [struct FilesystemSyncBarrierAction]. *)
Record FilesystemSyncBarrierAction := {
  barrier_stream_id : Z; barrier_sequence_no : Z; barrier_atomic_write : bool;
  barrier_force_sync : bool }.

(** [enum FilesystemAction]. *)
Inductive FilesystemAction : Type :=
  | DataWrite (a : FilesystemEntryAction)
  | Delete (a : FilesystemDeleteAction)
  | Rename (a : FilesystemRenameAction)
  | MetaProbe (a : FilesystemEntryAction)
  | SyncBarrier (a : FilesystemSyncBarrierAction).

(** [enum SessionAction]. *)
Inductive SessionAction : Type :=
  | EmitAck (stream_id : Z) (frame : SessionAckFrame).

(** [enum SessionEvent]. *)
Inductive t : Type :=
  | SessionActivated (stream_id : Z) (session_uuid : list byte) (flags : Z)
  | StatefulInactive (stream_id op_code : Z) (session_control : bool)
  | SessionClosed (stream_id : Z) (session_uuid : list byte)
  | SessionResumed (stream_id : Z) (session_uuid : list byte)
  | Heartbeat (stream_id sequence_no : Z)
  | Status (stream_id : Z) (frame : SessionStatusFrame)
  | Ack (stream_id : Z) (frame : SessionAckFrame)
  | MetadataUpdated (stream_id : Z) (frame : SessionMetadataFrame)
  | CapabilitiesUpdated (stream_id : Z) (frame : SessionCapabilitiesFrame)
  | Filesystem (action : FilesystemAction)
  | Warning (stream_id : Z) (status : SarStatus.t) (message : string).

(** [struct ProcessResult]. *)
Record ProcessResult := { events : list t; actions : list SessionAction }.

(** [matches!(event, SessionEvent::StatefulInactive { .. })]. *)
Definition is_inactive (e : t) : bool :=
  match e with StatefulInactive _ _ _ => true | _ => false end.

End SessionEvent.

Module Session.
Import Limits Frames SessionEvent.

(** [struct SessionManagerConfig]. *)
Record SessionManagerConfig := {
  limits : ResourceLimits; local_capabilities : Z; support_resume : bool }.

(** [SessionManagerConfig::default]. *)
Definition default_config : SessionManagerConfig := {|
  limits := default_limits;
  local_capabilities :=
    Z.lor (Z.lor CapabilityFlags.SESSION_ACK CapabilityFlags.SESSION_STATUS)
      CapabilityFlags.SESSION_METADATA;
  support_resume := false |}.

(** [struct SessionEntry]. *)
Record SessionEntry := {
  header : Lfh.LocalFileHeader; payload : list byte; degraded : bool }.
Definition stream_id (e : SessionEntry) : Z := Lfh.stream_id (header e).
Definition sequence_no (e : SessionEntry) : Z := Lfh.sequence_no (header e).
Definition entry_mode (e : SessionEntry) : Z := Lfh.entry_mode (header e).
Definition op_code (e : SessionEntry) : Z := EntryMode.op_code (entry_mode e).

(** [struct SessionManager]. *)
Record SessionManager := {
  config : SessionManagerConfig;
  current_global_flags : option Z;
  activity_tick : Z;
  active_sessions : gmap Z ActiveSession.t;
}.
Definition set_global_flags (m : SessionManager) (v : option Z) : SessionManager :=
  {| config := config m; current_global_flags := v; activity_tick := activity_tick m;
     active_sessions := active_sessions m |}.
Definition set_activity_tick (m : SessionManager) (v : Z) : SessionManager :=
  {| config := config m; current_global_flags := current_global_flags m;
     activity_tick := v; active_sessions := active_sessions m |}.
Definition set_sessions (m : SessionManager) (v : gmap Z ActiveSession.t) : SessionManager :=
  {| config := config m; current_global_flags := current_global_flags m;
     activity_tick := activity_tick m; active_sessions := v |}.

(** ** The manager monad: [&mut self] with [Result] *)
Definition M (A : Type) : Type := SessionManager → SessionManager * result SarError.t A.
#[export] Instance M_ret : MRet M := fun A a m => (m, Ok a).
#[export] Instance M_bind : MBind M := fun A B f p m =>
  match p m with
  | (m', Ok a) => f a m'
  | (m', Err e) => (m', Err e)
  | (m', Panic) => (m', Panic)
  end.
(** A computation that does not touch the manager. *)
Definition lift {A} (r : result SarError.t A) : M A := fun m => (m, r).
Definition self : M SessionManager := fun m => (m, Ok m).
Definition modify (f : SessionManager → SessionManager) : M unit := fun m => (f m, Ok tt).
Definition throw {A} (e : SarError.t) : M A := fun m => (m, Err e).

(** ** Operations *)

(** [SessionManager::new]. *)
Definition new (c : SessionManagerConfig) : SessionManager :=
  {| config := c; current_global_flags := None; activity_tick := 0; active_sessions := ∅ |}.

(** [archive_complete]. *)
Definition archive_complete (m : SessionManager) : SessionManager := set_global_flags m None.
(** [active_session]. *)
Definition active_session (m : SessionManager) (id : Z) : option ActiveSession.t :=
  active_sessions m !! id.
(** [active_stream_count]. *)
Definition active_stream_count (m : SessionManager) : Z := Z.of_nat (size (active_sessions m)).

(** [inactive_result]. *)
Definition inactive_result (id : Z) (session_control : bool) (op : Z) : ProcessResult :=
  {| events := [StatefulInactive id op session_control]; actions := [] |}.

Definition saturating_add (a b : Z) : Z := Z.min U64_MAX (a + b).

(** [total_session_memory]: the saturating sum does not depend on the order of the
    fold. *)
Definition total_session_memory (sessions : gmap Z ActiveSession.t)
    : result SarError.t Z :=
  map_fold (λ _ session acc,
      acc ← acc;
      usage ← ActiveSession.memory_usage session;
      Ok (saturating_add acc usage)) (Ok 0) sessions.

(** [bump_activity_tick]. *)
Definition bump_activity_tick : M Z :=
  m ← self;
  tick ← lift (ok_or (checked_add 64 (activity_tick m) 1) (SarError.Overflow "activity tick"));
  _ ← modify (λ m, set_activity_tick m tick);
  mret tick.

(** [active_sessions.get_mut(&id)] followed by [validate_and_advance_sequence] on the
    session found; [None] when there is none. *)
Definition advance (id seq : Z) : M (option ActiveSession.t) := fun m =>
  match active_sessions m !! id with
  | None => (m, Ok None)
  | Some session =>
      let '(session, r) := ActiveSession.validate_and_advance_sequence session seq in
      (set_sessions m (<[id := session]> (active_sessions m)), _ ← r; Ok (Some session))
  end.
Definition put_session (id : Z) (session : ActiveSession.t) : M unit :=
  modify (λ m, set_sessions m (<[id := session]> (active_sessions m))).

Section handlers.
Context {B : Bitflags}.

(** [observe_global_header]. *)
Definition observe_global_header (h : Format.GlobalHeader) : M unit :=
  _ ← lift (validate_global_flags (Format.flags h));
  modify (λ m, set_global_flags m (Some (Format.flags h))).

(** [should_apply_stateful]. *)
Definition should_apply_stateful (global_flags id : Z) : bool :=
  contains global_flags GlobalFlags.NO_INDEX && negb (id =? 0).

(** [handle_init]. *)
Definition handle_init (global_flags : Z) (e : SessionEntry) : M ProcessResult :=
  frame ← lift (parse_init (payload e));
  if negb (contains global_flags GlobalFlags.NO_INDEX) || (stream_id e =? 0) then
    mret (inactive_result (stream_id e) true (op_code e))
  else
    m ← self;
    if decide (is_Some (active_sessions m !! stream_id e)) then
      throw (SarError.StreamState "SESSION_INIT cannot reuse an already active Stream ID")
    else
      _ ← lift (check_active_streams (limits (config m))
                  (saturating_add (Z.of_nat (size (active_sessions m))) 1));
      total ← lift (total_session_memory (active_sessions m));
      projected_memory ←
        lift (ok_or (checked_add 64 total ActiveSession.ACTIVE_SESSION_BASE_MEMORY_BYTES)
                (SarError.Overflow "session memory"));
      _ ← lift (check_session_memory_bytes (limits (config m)) projected_memory);
      last_activity_tick ← bump_activity_tick;
      _ ← put_session (stream_id e)
            {| ActiveSession.stream_id := stream_id e;
               ActiveSession.session_uuid := init_uuid frame;
               ActiveSession.session_flags := init_flags frame;
               ActiveSession.last_sequence_no := sequence_no e;
               ActiveSession.global_flags := global_flags;
               ActiveSession.peer_capabilities := CapabilityFlags.NONE;
               ActiveSession.metadata := None;
               ActiveSession.last_activity_tick := last_activity_tick |};
      mret {| events := [SessionActivated (stream_id e) (init_uuid frame) (init_flags frame)];
              actions := [] |}.

(** [handle_close]. *)
Definition handle_close (global_flags : Z) (e : SessionEntry) : M ProcessResult :=
  if negb (should_apply_stateful global_flags (stream_id e)) then
    mret (inactive_result (stream_id e) true (op_code e))
  else if negb (len (payload e) =? 0) then
    throw (SarError.InvalidLength "SESSION_CLOSE payload must be empty")
  else
    session ← advance (stream_id e) (sequence_no e);
    match session with
    | None => mret (inactive_result (stream_id e) true (op_code e))
    | Some session =>
        _ ← modify (λ m, set_sessions m (delete (stream_id e) (active_sessions m)));
        m ← self;
        mret {| events := [SessionClosed (stream_id e) (ActiveSession.session_uuid session)];
                actions :=
                  if CapabilityFlags.supports_session_ack (local_capabilities (config m)) then
                    [EmitAck (stream_id e)
                       {| ack_ref_sequence := sequence_no e;
                          ack_flags := Z.lor (Z.lor AckFlags.ACK AckFlags.OK)
                                         AckFlags.SUCCESS |}]
                  else [] |}
    end.

(** [handle_resume]. *)
Definition handle_resume (global_flags : Z) (e : SessionEntry) : M ProcessResult :=
  frame ← lift (parse_resume (payload e));
  if negb (should_apply_stateful global_flags (stream_id e)) then
    mret (inactive_result (stream_id e) true (op_code e))
  else
    session ← advance (stream_id e) (sequence_no e);
    match session with
    | None => mret (inactive_result (stream_id e) true (op_code e))
    | Some session =>
        if negb (bool_decide (ActiveSession.session_uuid session = resume_uuid frame)) then
          throw (SarError.StreamState "SESSION_RESUME UUID does not match active session")
        else
          m ← self;
          if negb (support_resume (config m)) then
            throw (SarError.Unsupported "SESSION_RESUME is not supported")
          else
            mret {| events := [SessionResumed (stream_id e) (resume_uuid frame)];
                    actions := [] |}
    end.

(** [handle_heartbeat]. *)
Definition handle_heartbeat (global_flags : Z) (e : SessionEntry) : M ProcessResult :=
  if negb (should_apply_stateful global_flags (stream_id e)) then
    mret (inactive_result (stream_id e) true (op_code e))
  else if negb (len (payload e) =? 0) then
    throw (SarError.InvalidLength "SESSION_HEARTBEAT payload must be empty")
  else
    session ← advance (stream_id e) (sequence_no e);
    match session with
    | None => mret (inactive_result (stream_id e) true (op_code e))
    | Some _ =>
        mret {| events := [Heartbeat (stream_id e) (sequence_no e)]; actions := [] |}
    end.

(** [handle_status]. *)
Definition handle_status (global_flags : Z) (e : SessionEntry) : M ProcessResult :=
  m ← self;
  frame ← lift (parse_status (limits (config m)) (payload e));
  if negb (should_apply_stateful global_flags (stream_id e)) then
    mret (inactive_result (stream_id e) true (op_code e))
  else
    session ← advance (stream_id e) (sequence_no e);
    match session with
    | None => mret (inactive_result (stream_id e) true (op_code e))
    | Some _ => mret {| events := [Status (stream_id e) frame]; actions := [] |}
    end.

(** [handle_ack]. *)
Definition handle_ack (global_flags : Z) (e : SessionEntry) : M ProcessResult :=
  frame ← lift (parse_ack (payload e));
  if negb (should_apply_stateful global_flags (stream_id e)) then
    mret (inactive_result (stream_id e) true (op_code e))
  else
    session ← advance (stream_id e) (sequence_no e);
    match session with
    | None => mret (inactive_result (stream_id e) true (op_code e))
    | Some _ => mret {| events := [Ack (stream_id e) frame]; actions := [] |}
    end.

(** [handle_metadata]. *)
Definition handle_metadata (global_flags : Z) (e : SessionEntry) : M ProcessResult :=
  m ← self;
  frame ← lift (parse_metadata (limits (config m)) (payload e));
  if negb (should_apply_stateful global_flags (stream_id e)) then
    mret (inactive_result (stream_id e) true (op_code e))
  else
    let new_state := {| ActiveSession.content_type := content_type frame;
                        ActiveSession.metadata_bytes := metadata frame |} in
    current_total ← lift (total_session_memory (active_sessions m));
    session ← advance (stream_id e) (sequence_no e);
    match session with
    | None => mret (inactive_result (stream_id e) true (op_code e))
    | Some session =>
        old_usage ← lift (ActiveSession.memory_usage session);
        let updated := ActiveSession.set_metadata session (Some new_state) in
        new_usage ← lift (ActiveSession.memory_usage updated);
        projected_total ←
          lift (ok_or (value ← checked_sub current_total old_usage;
                       checked_add 64 value new_usage)
                  (SarError.Overflow "session memory"));
        _ ← lift (check_session_memory_bytes (limits (config m)) projected_total);
        _ ← put_session (stream_id e)
              (ActiveSession.set_metadata session (ActiveSession.metadata updated));
        mret {| events := [MetadataUpdated (stream_id e) frame]; actions := [] |}
    end.

(** [handle_capabilities]. *)
Definition handle_capabilities (global_flags : Z) (e : SessionEntry) : M ProcessResult :=
  frame ← lift (parse_capabilities (payload e));
  if negb (should_apply_stateful global_flags (stream_id e)) then
    mret (inactive_result (stream_id e) true (op_code e))
  else
    session ← advance (stream_id e) (sequence_no e);
    match session with
    | None => mret (inactive_result (stream_id e) true (op_code e))
    | Some session =>
        _ ← put_session (stream_id e)
              (ActiveSession.set_peer_capabilities session (capability_flags frame));
        mret {| events := [CapabilitiesUpdated (stream_id e) frame]; actions := [] |}
    end.

(** [handle_session_control]. *)
Definition handle_session_control (global_flags : Z) (e : SessionEntry) : M ProcessResult :=
  op ← lift (SessionOpCode.try_from (op_code e));
  match op with
  | SessionOpCode.Init => handle_init global_flags e
  | SessionOpCode.Close => handle_close global_flags e
  | SessionOpCode.Resume => handle_resume global_flags e
  | SessionOpCode.Heartbeat => handle_heartbeat global_flags e
  | SessionOpCode.Status => handle_status global_flags e
  | SessionOpCode.Ack => handle_ack global_flags e
  | SessionOpCode.Metadata => handle_metadata global_flags e
  | SessionOpCode.Capabilities => handle_capabilities global_flags e
  end.

(** The action of a filesystem operation, from [handle_filesystem]. *)
Definition filesystem_action (op : FilesystemOpCode.t) (e : SessionEntry) : FilesystemAction :=
  let mode := entry_mode e in
  let common := {|
    entry_stream_id := stream_id e; entry_sequence_no := sequence_no e;
    entry_name := Lfh.name (header e); entry_path := Lfh.path (header e);
    entry_payload := payload e; entry_atomic_write := EntryMode.is_atomic_write mode;
    entry_force_sync := EntryMode.is_force_sync mode;
    entry_loss_tolerant := EntryMode.is_loss_tolerant mode |} in
  match op with
  | FilesystemOpCode.DataWrite => DataWrite common
  | FilesystemOpCode.Delete => Delete {|
      delete_stream_id := stream_id e; delete_sequence_no := sequence_no e;
      delete_name := Lfh.name (header e); delete_path := Lfh.path (header e);
      delete_atomic_write := EntryMode.is_atomic_write mode;
      delete_force_sync := EntryMode.is_force_sync mode |}
  | FilesystemOpCode.Rename => Rename {|
      rename_stream_id := stream_id e; rename_sequence_no := sequence_no e;
      old_name := Lfh.name (header e); old_path := Lfh.path (header e);
      new_path := payload e; rename_atomic_write := EntryMode.is_atomic_write mode;
      rename_force_sync := EntryMode.is_force_sync mode |}
  | FilesystemOpCode.MetaProbe => MetaProbe common
  | FilesystemOpCode.SyncBarrier => SyncBarrier {|
      barrier_stream_id := stream_id e; barrier_sequence_no := sequence_no e;
      barrier_atomic_write := EntryMode.is_atomic_write mode;
      barrier_force_sync := EntryMode.is_force_sync mode |}
  end.

(** The [Delete] guard of [handle_filesystem]. *)
Definition delete_with_payload (op : FilesystemOpCode.t) (e : SessionEntry) : bool :=
  match op with FilesystemOpCode.Delete => negb (len (payload e) =? 0) | _ => false end.

(** [handle_filesystem]. *)
Definition handle_filesystem (global_flags : Z) (e : SessionEntry) : M ProcessResult :=
  op ← lift (FilesystemOpCode.try_from (op_code e));
  if delete_with_payload op e then
    throw (SarError.InvalidLength "DELETE payload must be empty")
  else if negb (should_apply_stateful global_flags (stream_id e)) then
    mret (inactive_result (stream_id e) false (op_code e))
  else
    session ← advance (stream_id e) (sequence_no e);
    match session with
    | None => mret (inactive_result (stream_id e) false (op_code e))
    | Some _ =>
        mret {| events :=
                  Filesystem (filesystem_action op e)
                  :: if degraded e then
                       [Warning (stream_id e) SarStatus.WarnIncomplete
                          "loss-tolerant degraded output accepted"]
                     else [];
                actions := [] |}
    end.

(** [process_entry]. *)
Definition process_entry (e : SessionEntry) : M ProcessResult :=
  m ← self;
  global_flags ← lift (ok_or (current_global_flags m)
    (SarError.StreamState "session manager missing current global header"));
  _ ← lift (validate_entry_mode_against_global global_flags (entry_mode e));
  if degraded e && negb (EntryMode.is_loss_tolerant (entry_mode e)) then
    throw (SarError.FragmentGap "degraded output without LOSS_TOLERANT is not allowed")
  else
    _ ← lift (if EntryMode.is_fragment (entry_mode e) then
                _ ← check_session_fragment_buffer_bytes (limits (config m))
                      (Lfh.uncompressed_size (header e));
                payload_len ← ok_or (try_from 64 (len (payload e)))
                                (SarError.Overflow "payload len");
                check_session_fragment_buffer_bytes (limits (config m)) payload_len
              else Ok tt);
    if EntryMode.is_session_control (entry_mode e) then
      handle_session_control global_flags e
    else handle_filesystem global_flags e.

(** [process_entry_result]. *)
Definition process_entry_result (entry : result SarError.t SessionEntry) : M ProcessResult :=
  e ← lift entry; process_entry e.

End handlers.

(** ** Invariant *)

(** The sequence number after [q]. *)
Definition next_seq (q : Z) : Z := (q + 1) mod 2 ^ 16.

(** Metadata as a session keeps it: what a parsed frame carries. *)
Definition metadata_ok (l : ResourceLimits) (md : ActiveSession.SessionMetadataState) : Prop :=
  0 < len (ActiveSession.content_type md) < 256
  ∧ Utf8.from_utf8 (ActiveSession.content_type md) = true
  ∧ len (ActiveSession.metadata_bytes md) ≤ max_session_metadata_bytes l
  ∧ len (ActiveSession.metadata_bytes md) < 2 ^ 32.

(** The bytes a session is charged for. *)
Definition usage (s : ActiveSession.t) : Z :=
  ActiveSession.ACTIVE_SESSION_BASE_MEMORY_BYTES
  + match ActiveSession.metadata s with
    | Some md => len (ActiveSession.content_type md) + len (ActiveSession.metadata_bytes md)
    | None => 0
    end.
Definition memory_sum (sessions : gmap Z ActiveSession.t) : Z :=
  map_fold (λ _ s acc, usage s + acc) 0 sessions.

Section invariant.
Context {B : Bitflags}.

(** A session bound to the stream [id]. *)
Record session_ok (l : ResourceLimits) (id : Z) (s : ActiveSession.t) : Prop := {
  ok_key : ActiveSession.stream_id s = id;
  ok_id : fits 16 id ∧ id ≠ 0;
  ok_uuid : len (ActiveSession.session_uuid s) = 16;
  ok_flags : SessionFlags.validate (ActiveSession.session_flags s) = Ok tt;
  ok_seq : fits 16 (ActiveSession.last_sequence_no s);
  ok_global : contains (ActiveSession.global_flags s) GlobalFlags.NO_INDEX = true;
  ok_caps : CapabilityFlags.validate (ActiveSession.peer_capabilities s) = Ok tt;
  ok_metadata : from_option (metadata_ok l) True (ActiveSession.metadata s);
  ok_tick : fits 64 (ActiveSession.last_activity_tick s);
}.

(** The manager: every binding is sound, and the configured limits on sessions and
    on their memory hold. *)
Record manager_ok (m : SessionManager) : Prop := {
  ok_sessions : map_Forall (session_ok (limits (config m))) (active_sessions m);
  ok_count : active_stream_count m ≤ max_active_streams (limits (config m));
  ok_memory : memory_sum (active_sessions m) ≤ max_session_memory_bytes (limits (config m));
  ok_activity : fits 64 (activity_tick m);
}.
End invariant.

(** The limits are values of their Rust types. *)
Definition config_typed (c : SessionManagerConfig) : Prop :=
  fits 64 (max_active_streams (limits c)) ∧ fits 64 (max_session_memory_bytes (limits c)).
(** So are the fields of an entry. *)
Definition entry_typed (e : SessionEntry) : Prop :=
  fits 16 (stream_id e) ∧ fits 16 (sequence_no e).

(** ** Memory accounting *)

Lemma usage_pos s : 28 ≤ usage s.
Proof.
  unfold usage, ActiveSession.ACTIVE_SESSION_BASE_MEMORY_BYTES.
  destruct (ActiveSession.metadata s) as [md|]; [|lia].
  pose proof (len_nonneg (ActiveSession.content_type md)).
  pose proof (len_nonneg (ActiveSession.metadata_bytes md)). lia.
Qed.

Lemma memory_usage_cases s :
  ActiveSession.memory_usage s = Ok (usage s) ∨ ActiveSession.memory_usage s = Panic.
Proof.
  unfold ActiveSession.memory_usage, usage, add_r.
  destruct (ActiveSession.metadata s) as [md|]; [|by left].
  dif as E; [|by right]. cbn [mbind result_bind]. rewrite try_from_fits by lia.
  cbn [default]. dif as E'; [by left|by right].
Qed.
Lemma memory_usage_ok `{Bitflags} l id s :
  session_ok l id s → ActiveSession.memory_usage s = Ok (usage s).
Proof.
  intros Hs. pose proof (ok_metadata _ _ _ Hs) as Hmd.
  unfold ActiveSession.memory_usage, usage, ActiveSession.ACTIVE_SESSION_BASE_MEMORY_BYTES.
  destruct (ActiveSession.metadata s) as [md|]; cbn in Hmd; [|done].
  destruct Hmd as (Hct & _ & _ & Hm). pose proof (len_nonneg (ActiveSession.metadata_bytes md)).
  rewrite add_r_fits by lia. cbn [mbind result_bind]. rewrite try_from_fits by lia.
  cbn [from_option Datatypes.id]. by rewrite add_r_fits by lia.
Qed.

Lemma memory_sum_insert id s sessions :
  sessions !! id = None → memory_sum (<[id := s]> sessions) = usage s + memory_sum sessions.
Proof. intros. unfold memory_sum. rewrite map_fold_insert_L; [done|lia|done]. Qed.
Lemma memory_sum_delete id s sessions :
  sessions !! id = Some s → memory_sum sessions = usage s + memory_sum (delete id sessions).
Proof. intros. unfold memory_sum. rewrite (map_fold_delete_L _ _ id s); [done|lia|done]. Qed.
Lemma memory_sum_replace id s s' sessions :
  sessions !! id = Some s →
  memory_sum (<[id := s']> sessions) = memory_sum sessions - usage s + usage s'.
Proof.
  intros Hs. rewrite <- insert_delete_eq, memory_sum_insert by apply lookup_delete_eq.
  rewrite (memory_sum_delete id s sessions) by done. lia.
Qed.
Lemma memory_sum_nonneg sessions : 0 ≤ memory_sum sessions.
Proof.
  induction sessions as [|id s sessions Hid IH] using map_ind; [done|].
  rewrite memory_sum_insert by done. pose proof (usage_pos s). lia.
Qed.

(** On sound sessions [total_session_memory] is the saturated sum. *)
Lemma total_session_memory_sum `{Bitflags} l sessions :
  map_Forall (session_ok l) sessions →
  total_session_memory sessions = Ok (Z.min U64_MAX (memory_sum sessions)).
Proof.
  induction sessions as [|id s sessions Hid IH] using map_ind; intros Hall; [done|].
  apply map_Forall_insert in Hall as [Hs Hall]; [|done].
  unfold total_session_memory. rewrite map_fold_insert_L; [|clear|done].
  - fold (total_session_memory sessions). rewrite IH by done. cbn [mbind result_bind].
    rewrite (memory_usage_ok _ _ _ Hs). cbn [mbind result_bind]. f_equal.
    rewrite memory_sum_insert by done. unfold saturating_add.
    pose proof (usage_pos s). pose proof (memory_sum_nonneg sessions). lia.
  - intros j1 j2 z1 z2 y _ _ _. destruct y as [a|e|]; [|done..]. cbn [mbind result_bind].
    destruct (memory_usage_cases z1) as [-> | ->], (memory_usage_cases z2) as [-> | ->];
      [|done..]. cbn [mbind result_bind]. f_equal. unfold saturating_add.
    pose proof (usage_pos z1). pose proof (usage_pos z2). lia.
Qed.

(** ** Stream ids are sixteen bits wide *)
Lemma session_count_u16 (sessions : gmap Z ActiveSession.t) :
  (∀ id s, sessions !! id = Some s → fits 16 id) → Z.of_nat (size sessions) ≤ 2 ^ 16.
Proof.
  intros Hall. rewrite <- length_map_to_list, <- (length_fmap fst).
  assert (Hsub : (map_to_list sessions).*1 ⊆+ seqZ 0 (2 ^ 16)).
  { apply NoDup_submseteq; [apply NoDup_fst_map_to_list|].
    intros id Hid. apply list_elem_of_fmap in Hid as ([id' s] & -> & Hin).
    apply elem_of_map_to_list in Hin. apply elem_of_seqZ. apply (Hall _ _ Hin). }
  apply submseteq_length in Hsub. rewrite length_seqZ in Hsub. lia.
Qed.

(** ** What processing an entry can do *)

(** The two entries that change the table of bindings. *)
Definition opens (e : SessionEntry) : bool :=
  EntryMode.is_session_control (entry_mode e) && (op_code e =? 0).
Definition closes (e : SessionEntry) : bool :=
  EntryMode.is_session_control (entry_mode e) && (op_code e =? 1).
(** No event says that the stateful semantics were inactive. *)
Definition live (r : ProcessResult) : Prop := existsb is_inactive (events r) = false.

(** A session whose sequence number was consumed. *)
Definition bumped (s : ActiveSession.t) (seq tick : Z) : ActiveSession.t :=
  ActiveSession.set_last_activity_tick (ActiveSession.set_last_sequence_no s seq) tick.
Definition with_session (m : SessionManager) (id : Z) (s : ActiveSession.t) : SessionManager :=
  set_sessions m (<[id := s]> (active_sessions m)).
(** The activity tick of a session stays, or goes up by one. *)
Definition ticked (s : ActiveSession.t) (tick : Z) : Prop :=
  tick = ActiveSession.last_activity_tick s ∨ tick = ActiveSession.last_activity_tick s + 1.
(** The identity of a binding. *)
Definition same_binding (s s' : ActiveSession.t) : Prop :=
  ActiveSession.session_uuid s' = ActiveSession.session_uuid s
  ∧ ActiveSession.session_flags s' = ActiveSession.session_flags s
  ∧ ActiveSession.global_flags s' = ActiveSession.global_flags s.

Section outcomes.
Context {B : Bitflags}.

(** The possible outcomes of [process_entry] on [e] in the state [m]: the state it
    leaves and what it returns.  A panic is not among them. *)
Inductive outcome (m : SessionManager) (e : SessionEntry)
    : SessionManager → result SarError.t ProcessResult → Prop :=
  | out_inactive gf ctl :
      current_global_flags m = Some gf →
      should_apply_stateful gf (stream_id e) = false
        ∨ opens e = false ∧ active_sessions m !! stream_id e = None →
      outcome m e m (Ok (inactive_result (stream_id e) ctl (op_code e)))
  | out_rejected err : outcome m e m (Err err)
  | out_consumed s tick err :
      opens e = false → active_sessions m !! stream_id e = Some s →
      sequence_no e = next_seq (ActiveSession.last_sequence_no s) → fits 64 tick →
      ticked s tick →
      outcome m e (with_session m (stream_id e) (bumped s (sequence_no e) tick)) (Err err)
  | out_activated s r tick :
      opens e = true → active_sessions m !! stream_id e = None →
      session_ok (limits (config m)) (stream_id e) s →
      ActiveSession.last_sequence_no s = sequence_no e → ActiveSession.metadata s = None →
      active_stream_count m + 1 ≤ max_active_streams (limits (config m)) →
      memory_sum (active_sessions m) + usage s ≤ max_session_memory_bytes (limits (config m)) →
      fits 64 tick → live r →
      outcome m e (with_session (set_activity_tick m tick) (stream_id e) s) (Ok r)
  | out_closed s r :
      opens e = false → closes e = true → active_sessions m !! stream_id e = Some s →
      sequence_no e = next_seq (ActiveSession.last_sequence_no s) → live r →
      outcome m e (set_sessions m (delete (stream_id e) (active_sessions m))) (Ok r)
  | out_advanced s s' r :
      opens e = false → closes e = false → active_sessions m !! stream_id e = Some s →
      sequence_no e = next_seq (ActiveSession.last_sequence_no s) →
      session_ok (limits (config m)) (stream_id e) s' → same_binding s s' →
      ActiveSession.last_sequence_no s' = sequence_no e →
      memory_sum (active_sessions m) - usage s + usage s'
        ≤ max_session_memory_bytes (limits (config m)) → live r →
      outcome m e (with_session m (stream_id e) s') (Ok r).

(** *** Running the monad *)
Definition wp {A} (p : M A) (Q : SessionManager → result SarError.t A → Prop)
    (m : SessionManager) : Prop := Q (p m).1 (p m).2.

Lemma wp_ret {A} (a : A) Q m : Q m (Ok a) → wp (mret a) Q m.
Proof. done. Qed.
Lemma wp_self {A} (f : SessionManager → M A) Q m : wp (f m) Q m → wp (self ≫= f) Q m.
Proof. done. Qed.
Lemma wp_modify {A} g (f : unit → M A) Q m :
  wp (f tt) Q (g m) → wp (modify g ≫= f) Q m.
Proof. done. Qed.
Lemma wp_put {A} id s (f : unit → M A) Q m :
  wp (f tt) Q (with_session m id s) → wp (put_session id s ≫= f) Q m.
Proof. done. Qed.
Lemma wp_bump {A} (f : Z → M A) Q m :
  fits 64 (activity_tick m) → Q m (Err (SarError.Overflow "activity tick")) →
  (∀ tick, fits 64 tick → wp (f tick) Q (set_activity_tick m tick)) →
  wp (bump_activity_tick ≫= f) Q m.
Proof.
  intros [H0 _] He Hf. unfold bump_activity_tick, wp, mbind, M_bind. cbn.
  unfold checked_add. dif as E; cbn; [|done]. apply Hf. unfold fits. lia.
Qed.
Lemma wp_lift {A C} (r : result SarError.t C) (f : C → M A) Q m :
  no_panic r → (∀ err, r = Err err → Q m (Err err)) → (∀ c, r = Ok c → wp (f c) Q m) →
  wp (lift r ≫= f) Q m.
Proof. intros Hp He Hc. destruct r; unfold wp; cbn; [by apply Hc|by apply He|done]. Qed.
Lemma wp_guard {A} (b : bool) err (p : M A) Q m :
  Q m (Err err) → (b = false → wp p Q m) → wp (if b then throw err else p) Q m.
Proof. destruct b; auto. Qed.

Lemma wp_advance {A} id seq (f : option ActiveSession.t → M A) Q m :
  (active_sessions m !! id = None → wp (f None) Q m) →
  (∀ s, active_sessions m !! id = Some s →
     (∀ err, Q m (Err err))
     ∧ (seq = next_seq (ActiveSession.last_sequence_no s) →
        (Q (with_session m id (bumped s seq (ActiveSession.last_activity_tick s)))
           (Err (SarError.Overflow "activity tick")))
        ∧ (ActiveSession.last_activity_tick s + 1 < 2 ^ 64 →
           let s' := bumped s seq (ActiveSession.last_activity_tick s + 1) in
           wp (f (Some s')) Q (with_session m id s')))) →
  wp (advance id seq ≫= f) Q m.
Proof.
  intros Hn Hs. unfold wp, mbind, M_bind, advance.
  destruct (active_sessions m !! id) as [s|] eqn:E; [|by apply Hn].
  destruct (Hs s eq_refl) as [Herr Hnext].
  unfold ActiveSession.validate_and_advance_sequence. fold (next_seq (ActiveSession.last_sequence_no s)).
  destruct (Z.eqb_spec seq (next_seq (ActiveSession.last_sequence_no s))) as [Heq|]; cbn [negb].
  - destruct (Hnext Heq) as [Hov Hok]. cbn [ActiveSession.set_last_sequence_no ActiveSession.last_activity_tick].
    unfold checked_add. dif as E2; cbn.
    + apply Hok. lia.
    + unfold with_session, bumped in Hov. by destruct s.
  - cbn. rewrite insert_id by done. by destruct m.
Qed.

End outcomes.

(** What a parsed metadata frame stores. *)
Lemma parsed_metadata_ok l bs fr :
  parse_metadata l bs = Ok fr →
  metadata_ok l {| ActiveSession.content_type := content_type fr;
                   ActiveSession.metadata_bytes := metadata fr |}.
Proof.
  intros [Hu H]%frame_inverse. unfold metadata_to_bytes in H. apply guard_Ok in H as [Hz H].
  apply bind_Ok in H as (cl & [-> Hc]%ok_or_Ok%try_from_Some & H).
  apply bind_Ok in H as ([] & Hlim%check_session_metadata_bytes_ok & H).
  apply bind_Ok in H as (ml & [-> Hml]%ok_or_Ok%try_from_Some & H).
  pose proof (len_nonneg (content_type fr)). unfold metadata_ok. cbn. split_and!; try done; lia.
Qed.

(** *** The handlers *)
Section handler_outcomes.
Context {B : Bitflags} (m : SessionManager) (e : SessionEntry) (gf : Z).
Context (Hm : manager_ok m) (Hc : config_typed (config m)) (He : entry_typed e)
  (Hgf : current_global_flags m = Some gf).

Lemma bumped_ok l id s seq tick :
  session_ok l id s → fits 16 seq → fits 64 tick → session_ok l id (bumped s seq tick).
Proof. intros []. by split. Qed.
Lemma usage_bumped s seq tick : usage (bumped s seq tick) = usage s.
Proof. done. Qed.

(** Two writes to the same binding. *)
Lemma with_session_twice m0 id s s' :
  with_session (with_session m0 id s) id s' = with_session m0 id s'.
Proof. unfold with_session. cbn. by rewrite insert_insert_eq. Qed.
Lemma with_session_delete m0 id s :
  set_sessions (with_session m0 id s) (delete id (active_sessions (with_session m0 id s)))
  = set_sessions m0 (delete id (active_sessions m0)).
Proof. unfold with_session. cbn. by rewrite delete_insert_eq. Qed.

(** The session bound to the stream of the entry is sound. *)
Lemma bound_ok s :
  active_sessions m !! stream_id e = Some s →
  session_ok (limits (config m)) (stream_id e) s.
Proof. apply (ok_sessions _ Hm). Qed.

(** An entry of an open session: the shape of every handler after its checks. *)
Lemma bound_outcome ctl (f : ActiveSession.t → M ProcessResult) :
  opens e = false →
  (∀ s tick, active_sessions m !! stream_id e = Some s →
     sequence_no e = next_seq (ActiveSession.last_sequence_no s) →
     fits 64 tick ∧ ticked s tick →
     let s' := bumped s (sequence_no e) tick in
     wp (f s') (outcome m e) (with_session m (stream_id e) s')) →
  wp (session ← advance (stream_id e) (sequence_no e);
      match session with
      | None => mret (inactive_result (stream_id e) ctl (op_code e))
      | Some session => f session
      end) (outcome m e) m.
Proof.
  intros Hop Hf. apply wp_advance.
  - intros Hnone. apply wp_ret. eapply out_inactive; [done|]. by right.
  - intros s Hs. pose proof (bound_ok s Hs) as Hok. pose proof (ok_tick _ _ _ Hok) as Ht.
    split; [intros; constructor|]. intros Hseq. split; [eapply out_consumed; [done..|by left]|].
    intros Hlt. apply (Hf s _ Hs Hseq). split; [unfold fits in *; lia|by right].
Qed.
(** A handler that only reports. *)
Lemma report_outcome ctl (f : ActiveSession.t → ProcessResult) :
  opens e = false → closes e = false → (∀ s, live (f s)) →
  wp (session ← advance (stream_id e) (sequence_no e);
      match session with
      | None => mret (inactive_result (stream_id e) ctl (op_code e))
      | Some session => mret (f session)
      end) (outcome m e) m.
Proof.
  intros Hop Hcl Hl. apply (bound_outcome ctl (λ s, mret (f s))); [done|].
  intros s tick Hs Hseq [Ht Htk]. apply wp_ret. pose proof He as (_ & Hq).
  eapply out_advanced; try done.
  - by apply bumped_ok; [apply bound_ok|..].
  - rewrite usage_bumped. pose proof (ok_memory _ Hm). lia.
Qed.

Lemma negb_should_apply id :
  negb (should_apply_stateful gf id)
  = negb (contains gf GlobalFlags.NO_INDEX) || (id =? 0).
Proof. unfold should_apply_stateful. by rewrite negb_andb, negb_involutive. Qed.

(** The guard that turns the stateful semantics off. *)
Lemma stateful_guard ctl (p : M ProcessResult) :
  (should_apply_stateful gf (stream_id e) = true → wp p (outcome m e) m) →
  wp (if negb (should_apply_stateful gf (stream_id e)) then
        mret (inactive_result (stream_id e) ctl (op_code e))
      else p) (outcome m e) m.
Proof.
  intros Hp. destruct (should_apply_stateful gf (stream_id e)) eqn:E; [by apply Hp|].
  apply wp_ret. eapply out_inactive; [done|]. by left.
Qed.

(** Reading a frame: an error leaves the manager alone. *)
Lemma parse_outcome {F} (r : result SarError.t F) (p : F → M ProcessResult) :
  no_panic r → (∀ fr, r = Ok fr → wp (p fr) (outcome m e) m) →
  wp (fr ← lift r; p fr) (outcome m e) m.
Proof. intros Hp Hf. apply wp_lift; [done|intros; constructor|done]. Qed.

Lemma handle_close_outcome :
  opens e = false → closes e = true → wp (handle_close gf e) (outcome m e) m.
Proof.
  intros Hop Hcl. apply stateful_guard. intros _. apply wp_guard; [constructor|].
  intros _. apply bound_outcome; [done|]. intros s tick Hs Hseq [Ht Htk]. apply wp_modify, wp_self, wp_ret.
  rewrite with_session_delete. by eapply out_closed.
Qed.
Lemma handle_resume_outcome :
  opens e = false → closes e = false → wp (handle_resume gf e) (outcome m e) m.
Proof.
  intros Hop Hcl. apply parse_outcome; [apply frame_no_panic|]. intros fr _.
  apply stateful_guard. intros _. apply bound_outcome; [done|].
  intros s tick Hs Hseq [Ht Htk] s'. apply wp_guard; [by eapply out_consumed|]. intros _.
  apply wp_self, wp_guard; [by eapply out_consumed|]. intros _. apply wp_ret.
  pose proof He as (_ & Hq). eapply out_advanced; try done.
  - by apply bumped_ok; [apply bound_ok|..].
  - subst s'. rewrite usage_bumped. pose proof (ok_memory _ Hm). lia.
Qed.
Lemma handle_heartbeat_outcome :
  opens e = false → closes e = false → wp (handle_heartbeat gf e) (outcome m e) m.
Proof.
  intros Hop Hcl. apply stateful_guard. intros _. apply wp_guard; [constructor|].
  intros _. by apply report_outcome.
Qed.
Lemma handle_status_outcome :
  opens e = false → closes e = false → wp (handle_status gf e) (outcome m e) m.
Proof.
  intros Hop Hcl. apply wp_self, parse_outcome; [apply frame_no_panic|]. intros fr _.
  apply stateful_guard. intros _. by apply report_outcome.
Qed.
Lemma handle_ack_outcome :
  opens e = false → closes e = false → wp (handle_ack gf e) (outcome m e) m.
Proof.
  intros Hop Hcl. apply parse_outcome; [apply frame_no_panic|]. intros fr _.
  apply stateful_guard. intros _. by apply report_outcome.
Qed.
Lemma handle_filesystem_outcome :
  opens e = false → closes e = false → wp (handle_filesystem gf e) (outcome m e) m.
Proof.
  intros Hop Hcl. apply parse_outcome; [auto with no_panic|]. intros op _.
  apply wp_guard; [constructor|]. intros _. apply stateful_guard. intros _.
  apply report_outcome; [done..|]. intros _. by unfold live; destruct (degraded e).
Qed.

Lemma handle_capabilities_outcome :
  opens e = false → closes e = false → wp (handle_capabilities gf e) (outcome m e) m.
Proof.
  intros Hop Hcl. apply parse_outcome; [apply frame_no_panic|]. intros fr Hfr.
  apply frame_inverse in Hfr as [_ Hfr]. apply bind_Ok in Hfr as ([] & Hv & _).
  apply stateful_guard. intros _. apply bound_outcome; [done|].
  intros s tick Hs Hseq [Ht Htk]. apply wp_put, wp_ret. pose proof He as (_ & Hq).
  rewrite with_session_twice. eapply out_advanced; try done.
  - destruct (bound_ok s Hs). by split.
  - change (usage _) with (usage s) at 2. pose proof (ok_memory _ Hm). lia.
Qed.

Lemma handle_metadata_outcome :
  opens e = false → closes e = false → wp (handle_metadata gf e) (outcome m e) m.
Proof.
  intros Hop Hcl. apply wp_self, parse_outcome; [apply frame_no_panic|]. intros fr Hfr.
  pose proof (parsed_metadata_ok _ _ _ Hfr) as Hmd. apply stateful_guard. intros _.
  rewrite (total_session_memory_sum (limits (config m))) by apply Hm.
  apply wp_lift; [done|done|]. intros total <-%Ok_inj. destruct Hc as [_ Hcm].
  pose proof (ok_memory _ Hm) as Hmem. unfold fits in Hcm.
  rewrite Z.min_r by (unfold U64_MAX; lia).
  apply bound_outcome; [done|]. intros s tick Hs Hseq [Ht Htk] s'. pose proof He as (_ & Hq).
  assert (Hs' : session_ok (limits (config m)) (stream_id e) s')
    by (by apply bumped_ok; [apply bound_ok|..]).
  assert (Hs2 : session_ok (limits (config m)) (stream_id e)
    (ActiveSession.set_metadata s' (Some {| ActiveSession.content_type := content_type fr;
       ActiveSession.metadata_bytes := metadata fr |}))) by (destruct Hs'; by split).
  cbv beta zeta. rewrite (memory_usage_ok _ _ _ Hs'), (memory_usage_ok _ _ _ Hs2).
  pose proof (usage_bumped s (sequence_no e) tick) as Hu. fold s' in Hu.
  apply wp_lift; [done|done|]. intros ou <-%Ok_inj. apply wp_lift; [done|done|].
  intros nu <-%Ok_inj. apply wp_lift; [auto with no_panic|intros; by eapply out_consumed|].
  intros proj Hproj. apply ok_or_Ok, bind_Some in Hproj as (v & [-> _]%checked_sub_Some & Hv).
  apply checked_add_Some in Hv as [-> _].
  apply wp_lift; [auto with no_panic|intros; by eapply out_consumed|].
  intros [] Hlim%check_session_memory_bytes_ok. apply wp_put, wp_ret.
  subst s'. rewrite with_session_twice. by eapply out_advanced.
Qed.

Lemma handle_init_outcome : opens e = true → wp (handle_init gf e) (outcome m e) m.
Proof.
  intros Hop. apply parse_outcome; [apply frame_no_panic|]. intros fr Hfr.
  apply frame_inverse in Hfr as [[Hu Hf] Hfr]. apply bind_Ok in Hfr as ([] & Hv & _).
  rewrite <- negb_should_apply. apply stateful_guard. intros Happ. apply wp_self.
  destruct (decide _) as [|Hnone]; [constructor|]. apply eq_None_not_Some in Hnone.
  apply wp_lift; [auto with no_panic|intros; constructor|].
  intros [] Hcount%check_active_streams_ok.
  rewrite (total_session_memory_sum (limits (config m))) by apply Hm.
  apply wp_lift; [done|done|]. intros total <-%Ok_inj. destruct Hc as [Hcs Hcm].
  pose proof (ok_memory _ Hm) as Hmem. unfold fits in Hcm.
  rewrite Z.min_r by (unfold U64_MAX; lia).
  apply wp_lift; [auto with no_panic|intros; constructor|].
  intros proj [-> _]%ok_or_Ok%checked_add_Some.
  apply wp_lift; [auto with no_panic|intros; constructor|].
  intros [] Hlim%check_session_memory_bytes_ok.
  apply wp_bump; [apply (ok_activity _ Hm)|constructor|]. intros tick Htick.
  apply wp_put, wp_ret. pose proof He as (Hid & Hq).
  pose proof (session_count_u16 (active_sessions m)) as Hsz.
  eapply out_activated; try done.
  - unfold should_apply_stateful in Happ. apply andb_true_iff in Happ as [Hni Hz].
    split; cbn; try done. split; [done|]. intros H0. by rewrite H0 in Hz.
  - assert (Z.of_nat (size (active_sessions m)) ≤ 2 ^ 16).
    { apply Hsz. intros id s Hs. by destruct (ok_sessions _ Hm id s Hs) as [? [? ?]]. }
    unfold saturating_add, U64_MAX in Hcount. unfold active_stream_count. lia.
Qed.

Lemma process_entry_bound_outcome :
  wp (if EntryMode.is_session_control (entry_mode e) then handle_session_control gf e
      else handle_filesystem gf e) (outcome m e) m.
Proof.
  destruct (EntryMode.is_session_control (entry_mode e)) eqn:Hsc.
  - apply parse_outcome; [auto with no_panic|]. intros op Hop.
    assert (opens e = bool_decide (op = SessionOpCode.Init)
            ∧ closes e = bool_decide (op = SessionOpCode.Close)) as [Ho Hcl].
    { unfold opens, closes. rewrite Hsc. unfold SessionOpCode.try_from in Hop.
      by repeat case_match; simplify_eq/=. }
    destruct op; auto using handle_init_outcome, handle_close_outcome, handle_resume_outcome,
      handle_heartbeat_outcome, handle_status_outcome, handle_ack_outcome,
      handle_metadata_outcome, handle_capabilities_outcome.
  - apply handle_filesystem_outcome; unfold opens, closes; by rewrite Hsc.
Qed.

End handler_outcomes.

(** ** The manager as a whole *)
Section manager.
Context {B : Bitflags}.

Lemma process_entry_outcome m e m' r :
  manager_ok m → config_typed (config m) → entry_typed e →
  process_entry e m = (m', r) → outcome m e m' r.
Proof.
  intros Hm Hc He Hp.
  enough (Hw : wp (process_entry e) (outcome m e) m) by (unfold wp in Hw; by rewrite Hp in Hw).
  apply wp_self. apply wp_lift; [auto with no_panic|intros; constructor|].
  intros gf Hgf%ok_or_Ok. apply wp_lift; [auto with no_panic|intros; constructor|].
  intros _ _. apply wp_guard; [constructor|]. intros _.
  apply wp_lift; [|intros; constructor|intros _ _; by apply process_entry_bound_outcome].
  dif as E; [np|done].
Qed.

(** *** The events of an entry

    An entry reports at most one change of the bindings, alone: that the session of its own
    stream was opened, or that it was closed. *)
Definition is_binding (ev : SessionEvent.t) : bool :=
  match ev with SessionActivated _ _ _ | SessionClosed _ _ => true | _ => false end.
Inductive result_shape (e : SessionEntry) : ProcessResult → Prop :=
  | shape_activated uuid flags :
      opens e = true → stream_id e ≠ 0 → len uuid = 16 →
      result_shape e {| events := [SessionActivated (stream_id e) uuid flags]; actions := [] |}
  | shape_closed uuid acks :
      closes e = true →
      result_shape e {| events := [SessionClosed (stream_id e) uuid]; actions := acks |}
  | shape_other r : Forall (λ ev, is_binding ev = false) (events r) → result_shape e r.
Definition shaped (e : SessionEntry) (p : M ProcessResult) : Prop :=
  ∀ m m' r, p m = (m', Ok r) → result_shape e r.

Lemma shaped_bind {A} e (p : M A) f : (∀ a, shaped e (f a)) → shaped e (p ≫= f).
Proof.
  intros Hf m m' r. unfold mbind, M_bind. destruct (p m) as [m1 [a| |]]; [|done..]. apply Hf.
Qed.
Lemma shaped_lift {A} e (r : result SarError.t A) f :
  (∀ a, r = Ok a → shaped e (f a)) → shaped e (lift r ≫= f).
Proof.
  intros Hf m m' res. unfold mbind, M_bind, lift. destruct r as [a| |]; [|done..]. by apply Hf.
Qed.
Lemma shaped_throw e err : shaped e (throw err).
Proof. by intros m m' r. Qed.
Lemma shaped_ret e r : result_shape e r → shaped e (mret r).
Proof. by intros Hr m m' r' [= _ <-]. Qed.
Lemma shaped_other e evs acts :
  Forall (λ ev, is_binding ev = false) evs → shaped e (mret {| events := evs; actions := acts |}).
Proof. intros H. by apply shaped_ret, shape_other. Qed.
Lemma shaped_inactive e id ctl op : shaped e (mret (inactive_result id ctl op)).
Proof. by apply shaped_other; constructor. Qed.

Lemma process_entry_shape e : shaped e (process_entry e).
Proof.
  unfold process_entry. do 3 (apply shaped_bind; intros ?).
  case_match; [apply shaped_throw|]. apply shaped_bind. intros [].
  destruct (EntryMode.is_session_control (entry_mode e)) eqn:Hsc.
  - apply shaped_lift. intros op Hop.
    assert (opens e = bool_decide (op = SessionOpCode.Init)
            ∧ closes e = bool_decide (op = SessionOpCode.Close)) as [Ho Hcl].
    { unfold opens, closes. rewrite Hsc. unfold SessionOpCode.try_from in Hop.
      by repeat case_match; simplify_eq/=. }
    destruct op.
    1: { apply shaped_lift. intros fr Hfr. apply frame_inverse in Hfr as [[Hu _] _].
         case_match eqn:Hz; [apply shaped_inactive|]. apply shaped_bind. intros m.
         case_match; [apply shaped_throw|]. do 6 (apply shaped_bind; intros ?).
         apply shaped_ret, shape_activated; [done| |done].
         apply orb_false_iff in Hz as [_ Hz]. lia. }
    1: { unfold handle_close. case_match; [apply shaped_inactive|].
         case_match; [apply shaped_throw|]. apply shaped_bind. intros [s|]; [|apply shaped_inactive].
         do 2 (apply shaped_bind; intros ?). by apply shaped_ret, shape_closed. }
    all: cbn [handle_session_control]; unfold handle_resume, handle_heartbeat, handle_status,
      handle_ack, handle_metadata, handle_capabilities;
      repeat first [ apply shaped_throw | apply shaped_inactive
                   | apply shaped_other; by repeat constructor
                   | apply shaped_bind; intros ? | case_match ].
  - unfold handle_filesystem. apply shaped_bind. intros op. do 2 (case_match; [done || apply shaped_inactive|]).
    apply shaped_bind. intros [s|]; [|apply shaped_inactive]. apply shaped_other. constructor; [done|].
    case_match; by repeat constructor.
Qed.

(** An outcome keeps the invariant and the configuration. *)
Lemma outcome_ok m e m' r :
  manager_ok m → entry_typed e → outcome m e m' r → manager_ok m' ∧ config m' = config m.
Proof.
  intros [Hs Hn Hmem Ht] (_ & Hq) Hout.
  assert (Hput : ∀ s s', active_sessions m !! stream_id e = Some s →
    session_ok (limits (config m)) (stream_id e) s' →
    memory_sum (active_sessions m) - usage s + usage s'
      ≤ max_session_memory_bytes (limits (config m)) →
    manager_ok (with_session m (stream_id e) s')).
  { intros s s' Hlk Hok Hle. split; cbn; [by apply map_Forall_insert_2| |by rewrite (memory_sum_replace _ s)|done].
    unfold active_stream_count in *. cbn. by rewrite map_size_insert_Some. }
  destruct Hout; (split; [|done]); try done.
  - apply (Hput s); [done|by apply bumped_ok; [apply Hs|..]|]. rewrite usage_bumped. lia.
  - split; cbn; [by apply map_Forall_insert_2| | |done].
    + unfold active_stream_count in *. cbn. rewrite map_size_insert_None by done. lia.
    + rewrite memory_sum_insert by done. lia.
  - split; cbn; [by apply map_Forall_delete| | |done].
    + unfold active_stream_count in *. cbn.
      rewrite map_size_delete_Some by (by eexists). lia.
    + rewrite (memory_sum_delete (stream_id e) s) in Hmem by done.
      pose proof (usage_pos s). lia.
  - by apply (Hput s).
Qed.

(** Everything a caller can do with a manager. *)
Inductive manager_step (m : SessionManager) : SessionManager → Prop :=
  | step_header h : manager_step m (observe_global_header h m).1
  | step_complete : manager_step m (archive_complete m)
  | step_entry e : entry_typed e → manager_step m (process_entry e m).1
  | step_result r :
      (∀ e, r = Ok e → entry_typed e) → manager_step m (process_entry_result r m).1.

Lemma manager_step_ok m m' :
  manager_ok m → config_typed (config m) → manager_step m m' →
  manager_ok m' ∧ config m' = config m.
Proof.
  intros Hm Hc Hstep.
  assert (Hentry : ∀ e, entry_typed e →
    manager_ok (process_entry e m).1 ∧ config (process_entry e m).1 = config m).
  { intros e He. destruct (process_entry e m) as [m1 r] eqn:Hp.
    eapply outcome_ok; [done..|]. by eapply process_entry_outcome. }
  destruct Hstep as [h| |e He|r Hr].
  - unfold observe_global_header, mbind, M_bind, lift.
    destruct (validate_global_flags _); (split; [|done]); try done.
    destruct Hm. by split.
  - split; [|done]. destruct Hm. by split.
  - by apply Hentry.
  - unfold process_entry_result, mbind, M_bind, lift. destruct r as [e| |]; [|done..].
    by apply Hentry, Hr.
Qed.

Lemma new_ok c : config_typed c → manager_ok (new c).
Proof. intros [[? _] [? _]]. split; cbn; [apply map_Forall_empty|done..]. Qed.

Lemma reachable_ok c m :
  config_typed c → rtc manager_step (new c) m → manager_ok m ∧ config m = c.
Proof.
  intros Hc Hr.
  enough (H : manager_ok m ∧ config m = config (new c)) by done.
  assert (H0 : manager_ok (new c) ∧ config_typed (config (new c))) by (split; [by apply new_ok|done]).
  revert H0. induction Hr as [m0|m0 m1 m2 Hstep _ IH]; intros [Hok Hct]; [done|].
  destruct (manager_step_ok _ _ Hok Hct Hstep) as [Hok1 Heq].
  rewrite <- Heq. apply IH. by rewrite Heq.
Qed.

(** *** The abstract table

    What a stream looks like from outside: for every open stream, the sequence
    number of its last entry. *)
Definition table (m : SessionManager) : gmap Z Z :=
  ActiveSession.last_sequence_no <$> active_sessions m.

(** An accepted entry opens a stream that is closed, or is the next entry of a
    stream that is open. *)
Inductive table_step (σ : gmap Z Z) (e : SessionEntry) : gmap Z Z → Prop :=
  | table_open :
      opens e = true → stream_id e ≠ 0 → σ !! stream_id e = None →
      table_step σ e (<[stream_id e := sequence_no e]> σ)
  | table_close q :
      opens e = false → closes e = true → σ !! stream_id e = Some q →
      sequence_no e = next_seq q → table_step σ e (delete (stream_id e) σ)
  | table_next q :
      opens e = false → closes e = false → σ !! stream_id e = Some q →
      sequence_no e = next_seq q → table_step σ e (<[stream_id e := sequence_no e]> σ).

(** What [process_entry] promises: an accepted entry is a step of the table; an
    entry that is not stateful is reported and leaves the manager as it was; a rejected
    entry leaves the manager as it was, but for the sequence number and the activity
    tick of the session it belongs to.  The sessions of the other streams, the
    configuration and the flags of the archive stay in any case, and a session that
    stays open stays bound to its UUID and flags. *)
Definition entry_spec (m : SessionManager) (e : SessionEntry) (m' : SessionManager)
    (r : result SarError.t ProcessResult) : Prop :=
  match r with
  | Ok res =>
      (live res ∧ table_step (table m) e (table m'))
      ∨ (m' = m ∧ ∃ gf ctl, current_global_flags m = Some gf
           ∧ res = inactive_result (stream_id e) ctl (op_code e)
           ∧ (should_apply_stateful gf (stream_id e) = false
              ∨ opens e = false ∧ table m !! stream_id e = None))
  | Err _ =>
      m' = m
      ∨ ∃ s tick, active_sessions m !! stream_id e = Some s
          ∧ sequence_no e = next_seq (ActiveSession.last_sequence_no s) ∧ ticked s tick
          ∧ m' = with_session m (stream_id e) (bumped s (sequence_no e) tick)
  | Panic => False
  end
  ∧ (∀ id, id ≠ stream_id e → active_sessions m' !! id = active_sessions m !! id)
  ∧ config m' = config m ∧ current_global_flags m' = current_global_flags m
  ∧ ∀ s s', active_sessions m !! stream_id e = Some s →
      active_sessions m' !! stream_id e = Some s' → same_binding s s'.

Lemma table_with_session m id s :
  table (with_session m id s) = <[id := ActiveSession.last_sequence_no s]> (table m).
Proof. unfold table. cbn. by rewrite fmap_insert. Qed.
Lemma table_lookup m id s :
  active_sessions m !! id = Some s → table m !! id = Some (ActiveSession.last_sequence_no s).
Proof. intros H. unfold table. by rewrite lookup_fmap, H. Qed.
Lemma table_lookup_None m id : active_sessions m !! id = None → table m !! id = None.
Proof. intros H. unfold table. by rewrite lookup_fmap, H. Qed.

Lemma outcome_spec m e m' r : outcome m e m' r → entry_spec m e m' r.
Proof.
  intros [gf ctl Hgf Hoff| |s tick err Hop Hs Hq Ht Htk
    |s res tick Hop Hs Hok Hq Hmd Hn Hmem Ht Hl|s res Hop Hcl Hs Hq Hl
    |s s' res Hop Hcl Hs Hq Hok Hsame Hq' Hmem Hl]; split.
  all: try (split_and!; [intros id Hid; cbn; by rewrite ?lookup_insert_ne, ?lookup_delete_ne
    |done|done|intros s0 s1 H0; cbn; rewrite ?lookup_insert_eq, ?lookup_delete_eq; intros H1;
     by simplify_eq]).
  - right. split; [done|]. exists gf, ctl. split_and!; [done..|].
    destruct Hoff as [?|[? ?]]; [by left|right; eauto using table_lookup_None].
  - by left.
  - right. by exists s, tick.
  - left. split; [done|]. rewrite table_with_session, Hq.
    apply table_open; [done|apply Hok|by apply table_lookup_None].
  - left. split; [done|]. unfold table at 2. cbn. rewrite fmap_delete.
    eapply table_close; eauto using table_lookup.
  - left. split; [done|]. rewrite table_with_session, Hq'.
    eapply table_next; eauto using table_lookup.
Qed.

(** (C27) The session manager keeps its invariant: whatever sequence of headers,
    entries and archive ends it sees, every binding is under its own non-zero
    stream id with valid flags, capabilities and metadata, the number of sessions
    and the memory they are charged for stay within the configured limits. *)
Theorem session_manager_invariant c m :
  config_typed c → rtc manager_step (new c) m → manager_ok m.
Proof. intros Hc Hr. by apply (reachable_ok c). Qed.

(** (C26) The manager implements the session table: on any entry a reachable manager
    either accepts it as a step of the table (it opens a closed stream, or is the
    next entry, modulo 2^16, of an open one), or reports that the stateful
    semantics are inactive and changes nothing, or fails, and then leaves the manager
    as it was, except that the session of the entry's stream may have consumed the
    entry's sequence number, with its activity tick kept or advanced by one.  It never
    panics, never touches the session of another stream, the configuration or the
    archive's flags, and a session that stays open keeps its UUID and flags. *)
Theorem process_entry_refines c m e :
  config_typed c → rtc manager_step (new c) m → entry_typed e →
  entry_spec m e (process_entry e m).1 (process_entry e m).2.
Proof.
  intros Hc Hr He. destruct (reachable_ok c m Hc Hr) as [Hok Hcfg].
  destruct (process_entry e m) as [m' r] eqn:Hp. apply outcome_spec.
  apply process_entry_outcome; [done|by rewrite Hcfg|done..].
Qed.

End manager.

Section witnesses.
#[local] Existing Instance bitwise.

(** A stream opened on sequence number 65535, whose next entry is number 0. *)
Definition control_entry (op seq : Z) (bs : list byte) : SessionEntry :=
  {| header := {| Lfh.header_size := 0;
       Lfh.entry_mode := Z.lor EntryMode.SESSION_CONTROL (Z.shiftl op 8);
       Lfh.stream_id := 7; Lfh.sequence_no := seq;
       Lfh.uncompressed_size := len bs; Lfh.payload_size := len bs;
       Lfh.comp_algo_id := None; Lfh.patch_algo_id := None; Lfh.encr_algo_id := None;
       Lfh.cdc_algo_id := None; Lfh.fec_algo_id := None; Lfh.fragment_id := None;
       Lfh.fragment_index := None; Lfh.fragment_descriptor := None; Lfh.iv_nonce := None;
       Lfh.delta_base_hash := None; Lfh.file_crc32 := None; Lfh.content_hash := None;
       Lfh.uid_gid := None; Lfh.timestamps := None; Lfh.permissions := None;
       Lfh.name := []; Lfh.path := []; Lfh.sparse_map := []; Lfh.fec_value := [] |};
     payload := bs; degraded := false |}.
Definition sample_init : SessionEntry := control_entry 0 65535 (replicate 16 x07 ++ [x03; x00]).
Definition sample_header : Format.GlobalHeader :=
  {| Format.version := 1; Format.flags_bytes := [x02; x00; x00; x00];
     Format.flags := GlobalFlags.NO_INDEX; Format.partition_descriptor := None;
     Format.kms := None |}.
Definition sample_manager : SessionManager :=
  (process_entry sample_init (observe_global_header sample_header (new default_config)).1).1.

Lemma default_config_typed : config_typed default_config.
Proof. by split. Qed.
Lemma sample_reachable : rtc manager_step (new default_config) sample_manager.
Proof.
  eapply rtc_l; [apply (step_header _ sample_header)|]. eapply rtc_l; [|apply rtc_refl].
  apply step_entry. by split_and!.
Qed.

Example sample_session_open :
  table sample_manager !! 7 = Some 65535
  ∧ (process_entry (control_entry 3 0 []) sample_manager).2
    = Ok {| events := [Heartbeat 7 0]; actions := [] |}
  ∧ (process_entry (control_entry 3 1 []) sample_manager).2
    = Err (SarError.StreamState "sequence discontinuity detected")
  ∧ (process_entry (control_entry 1 0 []) sample_manager).2
    = Ok {| events := [SessionClosed 7 (replicate 16 x07)];
            actions := [EmitAck 7 {| ack_ref_sequence := 0; ack_flags := 7 |}] |}
  ∧ (process_entry (control_entry 2 0 (replicate 16 x08)) sample_manager).2
    = Err (SarError.StreamState "SESSION_RESUME UUID does not match active session")
  ∧ table (process_entry (control_entry 2 0 (replicate 16 x08)) sample_manager).1 !! 7 = Some 0.
Proof. split_and!; by vm_compute. Qed.

Lemma session_manager_invariant_witness : manager_ok sample_manager.
Proof.
  apply (session_manager_invariant default_config sample_manager default_config_typed
           sample_reachable).
Defined.
Lemma process_entry_refines_witness :
  entry_spec sample_manager (control_entry 3 0 [])
    (process_entry (control_entry 3 0 []) sample_manager).1
    (process_entry (control_entry 3 0 []) sample_manager).2.
Proof.
  apply (process_entry_refines default_config sample_manager (control_entry 3 0 [])
           default_config_typed sample_reachable).
  by split_and!.
Defined.
End witnesses.

End Session.
