(* ===== verification/Transcript.v ===== *)
(** * Stream transcripts

    Models [crates/sar-stream/src/transcript.rs]: the strict validation of a
    serialized stream, a client of the header parsers and of the session manager.
    The sink that records the bytes is a parameter. *)

From stdpp Require Import gmap.
From S2P Require Import Prelude Errors Flags Limits Cursor Format Lfh StreamProtocol Session.

Module Transcript.
Import Limits Cursor SessionEvent Session.

Section transcript.
Context {B : Bitflags}.

(** The first half of the loop body: the entry at offset [pos] and the offset behind
    it. *)
Definition read_entry (bytes : list byte) (gflags pos : Z)
    : result SarError.t (SessionEntry * Z) :=
  rest ← slice_r bytes pos (len bytes);
  '(lfh, lfh_len) ← Lfh.parse_lfh rest gflags default_limits;
  pos ← ok_or (checked_add 64 pos lfh_len) (SarError.Overflow "transcript offset");
  if Lfh.stream_id lfh =? 0 then
    Err (SarError.StreamState
           "strict stream transcript validation requires nonzero Stream ID")
  else
    payload_len ← ok_or (try_from 64 (Lfh.payload_size lfh))
                    (SarError.Overflow "payload length");
    payload_end ← ok_or (checked_add 64 pos payload_len)
                    (SarError.Overflow "payload span");
    if payload_end >? len bytes then
      Err (SarError.Truncated "stream transcript payload truncated")
    else
      payload ← slice_r bytes pos payload_end;
      Ok ({| header := lfh; payload := payload; degraded := false |}, payload_end).

(** The loop of [validate_stream_transcript_internal] from offset [pos]; the fuel
    bounds the number of entries, and running out of it is [Panic]. *)
Fixpoint transcript_loop (fuel : nat) (bytes : list byte) (gflags pos : Z)
    (manager : SessionManager) (entry_count : Z) : result SarError.t Z :=
  match fuel with
  | O => Panic
  | S fuel =>
      if pos <? len bytes then
        '(e, pos) ← read_entry bytes gflags pos;
        let '(manager, r) := process_entry e manager in
        result ← r;
        if existsb is_inactive (events result) then
          Err (SarError.StreamState
                 "strict stream transcript validation requires active stateful mode")
        else
          entry_count ← ok_or (checked_add 64 entry_count 1)
                          (SarError.Overflow "entry count");
          transcript_loop fuel bytes gflags pos manager entry_count
      else Ok entry_count
  end.

(** [struct StreamTranscriptValidationReport]. *)
Record StreamTranscriptValidationReport := { entry_count : Z }.

(** [validate_stream_transcript_internal]. *)
Definition validate_stream_transcript_internal (bytes : list byte)
    : result SarError.t StreamTranscriptValidationReport :=
  '(header, header_len) ← Format.parse_global_header bytes default_limits;
  if negb (contains (Format.flags header) GlobalFlags.NO_INDEX) then
    Err (SarError.FlagConflict "strict stream transcript validation requires NO_INDEX")
  else
    let '(manager, r) := observe_global_header header (new default_config) in
    _ ← r;
    entry_count ←
      transcript_loop (S (length bytes)) bytes (Format.flags header) header_len manager 0;
    Ok {| entry_count := entry_count |}.

(** [validate_stream_transcript]: the default options record nothing. *)
Definition validate_stream_transcript (bytes : list byte)
    : result SarError.t StreamTranscriptValidationReport :=
  validate_stream_transcript_internal bytes.

(** [validate_stream_transcript_with_sink], over a writer [W]. *)
Definition validate_stream_transcript_with_sink {W}
    (write_all : W → list byte → W * result SarError.t unit) (bytes : list byte) (sink : W)
    : W * result SarError.t StreamTranscriptValidationReport :=
  let '(sink, r) := write_all sink bytes in
  (sink, _ ← r; validate_stream_transcript_internal bytes).

(** ** What a transcript is *)

(** The entries of a stream, as they follow each other on the wire. *)
Inductive entries_of (gflags : Z) : list byte → list SessionEntry → Prop :=
  | entries_nil : entries_of gflags [] []
  | entries_cons hb l pl rest es :
      Lfh.parse_lfh hb gflags default_limits = Ok (l, len hb) →
      len pl = Lfh.payload_size l → Lfh.stream_id l ≠ 0 →
      entries_of gflags rest es →
      entries_of gflags (hb ++ pl ++ rest)
        ({| header := l; payload := pl; degraded := false |} :: es).

(** Entries a manager accepts one after the other. *)
Inductive session_run : SessionManager → list SessionEntry → SessionManager → Prop :=
  | run_nil m : session_run m [] m
  | run_cons m e m1 r es m2 :
      process_entry e m = (m1, Ok r) → live r → session_run m1 es m2 →
      session_run m (e :: es) m2.

(** Entries the session table accepts one after the other. *)
Inductive table_run : gmap Z Z → list SessionEntry → gmap Z Z → Prop :=
  | table_nil σ : table_run σ [] σ
  | table_cons σ e σ1 es σ2 :
      table_step σ e σ1 → table_run σ1 es σ2 → table_run σ (e :: es) σ2.

(** The manager a transcript starts with. *)
Definition start (gflags : Z) : SessionManager :=
  set_global_flags (new default_config) (Some gflags).

(** ** Header parsing is local *)
Lemma parse_lfh_prefix gflags hb rest l :
  len (hb ++ rest) < 2 ^ 64 →
  Lfh.parse_lfh hb gflags default_limits = Ok (l, len hb) →
  Lfh.parse_lfh (hb ++ rest) gflags default_limits = Ok (l, len hb).
Proof.
  intros Hlen Hp. apply Lfh.parse_lfh_inv in Hp as (Hwf & Hn & Hmax & Ht).
  rewrite take_ge in Ht by (unfold len; lia). rewrite <- Hn. rewrite Ht in Hlen |- *.
  by apply Lfh.parse_lfh_enc.
Qed.
Lemma parse_lfh_cut gflags input l n :
  len input < 2 ^ 64 → Lfh.parse_lfh input gflags default_limits = Ok (l, n) →
  ∃ hb rest, input = hb ++ rest ∧ n = len hb ∧ 0 < n
    ∧ Lfh.parse_lfh hb gflags default_limits = Ok (l, len hb)
    ∧ Lfh.lfh_wf gflags default_limits l.
Proof.
  intros Hlen Hp. apply Lfh.parse_lfh_inv in Hp as (Hwf & Hn & Hmax & Ht).
  pose proof Hwf as (Hf & Hl & _ & _).
  exists (Lfh.enc_lfh gflags l), (drop (Z.to_nat n) input).
  assert (Hln : len (Lfh.enc_lfh gflags l) = n)
    by (rewrite (Lfh.len_enc_lfh gflags l Hf Hl); destruct Hwf as (_ & _ & <- & _); done).
  assert (Hlt : len (Lfh.enc_lfh gflags l ++ []) < 2 ^ 64).
  { rewrite app_nil_r, <- Ht. unfold len in *. rewrite length_take. lia. }
  pose proof (Lfh.parse_lfh_enc gflags default_limits l [] Hwf Hmax Hlt) as Henc.
  rewrite app_nil_r in Henc. rewrite <- Ht at 1.
  split_and!; [by rewrite take_drop|done| |by rewrite Henc, Hn, Hln|done].
  rewrite <- Hln. change (Lfh.enc_lfh gflags l)
    with (le_bytes 4 (Lfh.header_size l) ++ drop 4 (Lfh.enc_lfh gflags l)).
  rewrite len_app, len_le_bytes. pose proof (len_nonneg (drop 4 (Lfh.enc_lfh gflags l))). lia.
Qed.

(** ** Reading one entry *)
Section loop.
Context (gflags : Z).

Definition entry (l : Lfh.LocalFileHeader) (pl : list byte) : SessionEntry :=
  {| header := l; payload := pl; degraded := false |}.

Lemma read_entry_at p hb pl rest l :
  len (p ++ hb ++ pl ++ rest) < 2 ^ 64 →
  Lfh.parse_lfh hb gflags default_limits = Ok (l, len hb) →
  len pl = Lfh.payload_size l → Lfh.stream_id l ≠ 0 →
  read_entry (p ++ hb ++ pl ++ rest) gflags (len p)
  = Ok (entry l pl, len (p ++ hb ++ pl)).
Proof.
  intros Hlen Hp Hpl Hid. set (bytes := p ++ hb ++ pl ++ rest) in *.
  assert (Hl : len bytes = len p + len hb + len pl + len rest)
    by (unfold bytes; rewrite !len_app; lia).
  pose proof (len_nonneg p). pose proof (len_nonneg pl). pose proof (len_nonneg rest).
  pose proof (len_nonneg hb). unfold read_entry.
  rewrite (slice_r_fits bytes (len p) (len bytes)) by lia.
  assert (Hs0 : slice bytes (len p) (len bytes) = hb ++ pl ++ rest)
    by apply slice_app_suffix.
  rewrite Hs0. cbn [mbind result_bind].
  rewrite (parse_lfh_prefix gflags hb (pl ++ rest) l) by (rewrite ?len_app; (done || lia)).
  cbn [mbind result_bind]. rewrite (checked_add_fits 64 (len p)) by lia.
  cbn [ok_or mbind result_bind]. rewrite (proj2 (Z.eqb_neq _ _)) by done.
  rewrite try_from_fits by lia. cbn [ok_or mbind result_bind].
  rewrite (checked_add_fits 64 (len p + len hb)) by lia. cbn [ok_or mbind result_bind].
  dif as E; [lia|]. rewrite (slice_r_fits bytes (len p + len hb)) by lia.
  cbn [mbind result_bind]. rewrite <- Hpl.
  assert (Hs : slice bytes (len p + len hb) (len p + len hb + len pl) = pl).
  { unfold bytes. rewrite app_assoc, <- (len_app p hb). apply slice_app_mid. }
  rewrite Hs, !len_app. by rewrite Z.add_assoc.
Qed.

(** What is read is an entry of the bytes ahead. *)
Lemma read_entry_inv p rest e pos :
  len (p ++ rest) ≤ ISIZE_MAX → read_entry (p ++ rest) gflags (len p) = Ok (e, pos) →
  ∃ hb l pl rest', rest = hb ++ pl ++ rest' ∧ 0 < len hb ∧ e = entry l pl
    ∧ pos = len (p ++ hb ++ pl) ∧ Lfh.parse_lfh hb gflags default_limits = Ok (l, len hb)
    ∧ len pl = Lfh.payload_size l ∧ Lfh.stream_id l ≠ 0 ∧ entry_typed e.
Proof.
  unfold ISIZE_MAX. intros Hlen H. unfold read_entry in H.
  apply bind_Ok in H as (r0 & (-> & _)%slice_r_Ok & H). rewrite slice_app_suffix in H.
  apply bind_Ok in H as ([l hn] & Hp & H).
  pose proof (len_nonneg p). rewrite len_app in Hlen.
  apply parse_lfh_cut in Hp as (hb & r1 & -> & -> & Hhb & Hp & Hwf); [|lia].
  apply bind_Ok in H as (q & [-> _]%ok_or_Ok%checked_add_Some & [Hid H]%guard_Ok).
  apply bind_Ok in H as (k & [-> _]%ok_or_Ok%try_from_Some & H).
  apply bind_Ok in H as (q & [-> _]%ok_or_Ok%checked_add_Some & [Hend H]%guard_Ok).
  apply bind_Ok in H as (pl & (-> & Hle & _)%slice_r_Ok & H). injection H as <- <-.
  rewrite !len_app in Hend. rewrite len_app in Hlen.
  destruct (cut_at r1 (Lfh.payload_size l)) as (pl & rest & -> & Hpl); [lia|].
  destruct Hwf as ((_ & _ & _ & Hsid & Hseq & _) & _).
  assert (Hs : slice (p ++ hb ++ pl ++ rest) (len p + len hb)
                 (len p + len hb + Lfh.payload_size l) = pl).
  { rewrite app_assoc, <- (len_app p hb), <- Hpl. apply slice_app_mid. }
  rewrite Hs. exists hb, l, pl, rest. rewrite !len_app in *.
  pose proof (len_nonneg rest).
  split_and!; [done..|lia|done|done|lia|]. by unfold entry_typed.
Qed.

Lemma read_entry_no_panic p rest :
  len (p ++ rest) ≤ ISIZE_MAX → no_panic (read_entry (p ++ rest) gflags (len p)).
Proof.
  unfold ISIZE_MAX. intros Hlen. pose proof (len_nonneg p). pose proof (len_nonneg rest).
  rewrite len_app in Hlen. unfold read_entry.
  apply no_panic_bind; [apply slice_r_no_panic; rewrite ?len_app; lia|].
  intros r0 (-> & _)%slice_r_Ok. rewrite slice_app_suffix.
  apply no_panic_bind; [apply Lfh.parse_lfh_no_panic|]. intros [l hn] Hp.
  apply parse_lfh_cut in Hp as (hb & r1 & -> & -> & Hhb & Hp & Hwf); [|lia].
  destruct Hwf as ((_ & _ & _ & _ & _ & _ & Hsz & _) & _).
  apply Format.size_wf_u64 in Hsz as [Hsz0 _].
  apply no_panic_bind; [auto with no_panic|]. intros q [-> _]%ok_or_Ok%checked_add_Some.
  dif as E; [done|]. apply no_panic_bind; [auto with no_panic|].
  intros k [-> _]%ok_or_Ok%try_from_Some. apply no_panic_bind; [auto with no_panic|].
  intros q [-> _]%ok_or_Ok%checked_add_Some. dif as E2; [done|].
  apply no_panic_bind; [apply slice_r_no_panic; lia|done].
Qed.

(** ** The loop *)

(** An accepted transcript is read entry by entry. *)
Lemma transcript_loop_sound fuel p rest m n r :
  len (p ++ rest) ≤ ISIZE_MAX →
  transcript_loop fuel (p ++ rest) gflags (len p) m n = Ok r →
  ∃ es m', entries_of gflags rest es ∧ session_run m es m' ∧ r = n + len es
    ∧ Forall entry_typed es.
Proof.
  revert p rest m n. induction fuel as [|fuel IH]; intros p rest m n Hlen H; [done|].
  cbn [transcript_loop] in H. destruct (Z.ltb_spec (len p) (len (p ++ rest))) as [Hlt|Hge].
  - apply bind_Ok in H as ([e pos] & He & H). apply read_entry_inv in He
      as (hb & l & pl & rest' & -> & Hhb & -> & -> & Hp & Hpl & Hid & Hty); [|done].
    destruct (process_entry (entry l pl) m) as [m1 r1] eqn:Hpe.
    apply bind_Ok in H as (res & -> & [Hlive H]%guard_Ok).
    apply bind_Ok in H as (n1 & [-> _]%ok_or_Ok%checked_add_Some & H).
    assert (Heq : p ++ hb ++ pl ++ rest' = (p ++ hb ++ pl) ++ rest') by by rewrite <- !app_assoc.
    rewrite Heq in Hlen, H. apply IH in H as (es & m' & Hes & Hrun & -> & Hall); [|done].
    exists (entry l pl :: es), m'. rewrite len_cons.
    split_and!; [by constructor|by econstructor|lia|by constructor].
  - rewrite len_app in Hge. destruct rest; [|rewrite len_cons in Hge; pose proof (len_nonneg rest); lia].
    injection H as <-. exists [], m. rewrite len_nil. split_and!; [constructor..|lia|constructor].
Qed.

(** Every sequence of accepted entries is accepted. *)
Lemma transcript_loop_complete fuel p rest m n es m' :
  len (p ++ rest) < 2 ^ 64 → n + len es < 2 ^ 64 → (length es < fuel)%nat →
  entries_of gflags rest es → session_run m es m' →
  transcript_loop fuel (p ++ rest) gflags (len p) m n = Ok (n + len es).
Proof.
  intros Hlen Hn Hfuel Hes. revert fuel p m n Hlen Hn Hfuel.
  induction Hes as [|hb l pl rest es Hp Hpl Hid Hes IH]; intros fuel p m n Hlen Hn Hfuel Hrun;
    (destruct fuel as [|fuel]; [cbn in Hfuel; lia|]); cbn [transcript_loop].
  - rewrite app_nil_r, Z.ltb_irrefl, len_nil, Z.add_0_r. done.
  - inversion Hrun as [|? ? m1 r ? ? Hpe Hlive Hrun']; subst.
    assert (Hhb : 0 < len hb).
    { apply parse_lfh_cut in Hp as (hb' & r' & Heq & -> & ? & _); [done|].
      rewrite !len_app in Hlen. pose proof (len_nonneg p). pose proof (len_nonneg pl).
      pose proof (len_nonneg rest). lia. }
    rewrite (proj2 (Z.ltb_lt _ _)) by (rewrite !len_app in *; pose proof (len_nonneg pl);
      pose proof (len_nonneg rest); lia).
    rewrite (read_entry_at p hb pl rest l) by done. cbn [mbind result_bind].
    rewrite len_cons in Hn. pose proof (len_nonneg es). unfold entry. rewrite Hpe.
    cbn [mbind result_bind]. unfold live in Hlive. rewrite Hlive.
    rewrite checked_add_fits by lia. cbn [ok_or mbind result_bind].
    assert (Heq : p ++ hb ++ pl ++ rest = (p ++ hb ++ pl) ++ rest) by by rewrite <- !app_assoc.
    rewrite Heq in Hlen |- *. rewrite IH; [rewrite len_cons; f_equal; lia|done|lia| |done].
    cbn in Hfuel. lia.
Qed.

Lemma transcript_loop_no_panic fuel p rest m n :
  len (p ++ rest) ≤ ISIZE_MAX → (length rest < fuel)%nat →
  manager_ok m → config_typed (config m) →
  no_panic (transcript_loop fuel (p ++ rest) gflags (len p) m n).
Proof.
  revert p rest m n. induction fuel as [|fuel IH]; intros p rest m n Hlen Hf Hm Hc; [lia|].
  cbn [transcript_loop]. dif as E; [|done].
  apply no_panic_bind; [by apply read_entry_no_panic|]. intros [e pos] He.
  apply read_entry_inv in He
    as (hb & l & pl & rest' & -> & Hhb & -> & -> & _ & _ & _ & Hty); [|done].
  destruct (process_entry (entry l pl) m) as [m1 r1] eqn:Hpe.
  pose proof (process_entry_outcome _ _ _ _ Hm Hc Hty Hpe) as Hout.
  destruct (outcome_ok _ _ _ _ Hm Hty Hout) as [Hm1 Hc1].
  apply no_panic_bind; [by destruct (outcome_spec _ _ _ _ Hout), r1|]. intros res _.
  dif as E2; [done|]. apply no_panic_bind; [auto with no_panic|]. intros n1 _.
  assert (Heq : p ++ hb ++ pl ++ rest' = (p ++ hb ++ pl) ++ rest') by by rewrite <- !app_assoc.
  rewrite Heq in Hlen |- *. apply IH; [done| |done|by rewrite Hc1].
  rewrite !length_app in Hf. unfold len in Hhb. lia.
Qed.

(** Accepted entries are steps of the session table. *)
Lemma session_run_table m es m' :
  manager_ok m → config_typed (config m) → Forall entry_typed es → session_run m es m' →
  table_run (table m) es (table m').
Proof.
  intros Hm Hc Hall Hrun. revert Hm Hc.
  induction Hrun as [m|m e m1 r es m2 Hp Hlive Hrun IH]; intros Hm Hc; [constructor|].
  apply Forall_cons in Hall as [He Hall].
  pose proof (process_entry_outcome _ _ _ _ Hm Hc He Hp) as Hout.
  destruct (outcome_ok _ _ _ _ Hm He Hout) as [Hm1 Hc1].
  destruct (outcome_spec _ _ _ _ Hout) as [[[_ Hstep]|(-> & gf & ctl & _ & -> & _)] _]; [|done].
  econstructor; [done|]. apply IH; [done..|by rewrite Hc1].
Qed.
End loop.

Lemma start_ok gf : manager_ok (start gf) ∧ config_typed (config (start gf)).
Proof.
  split; [|apply default_config_typed].
  destruct (new_ok default_config default_config_typed). by split.
Qed.

(** The header is a prefix the parser accepts. *)
Lemma parse_header_cut bs h k :
  Format.parse_global_header bs default_limits = Ok (h, k) →
  0 ≤ k ≤ len bs ∧ validate_global_flags (Format.flags h) = Ok tt.
Proof.
  intros H. unfold Format.parse_global_header in H. apply bind_Ok in H as ([h' c] & Hp & H).
  injection H as -> <-. apply (codec_run_inv _ _ _ _ _ _ (Format.codec_gh default_limits)) in Hp
    as ((_ & _ & _ & _ & Hv & _) & Hpos & _ & Hle).
  unfold position. pose proof (len_nonneg (Format.enc_gh h)). split; [lia|done].
Qed.

Lemma entries_length gflags rest es :
  len rest < 2 ^ 64 → entries_of gflags rest es → (length es ≤ length rest)%nat.
Proof.
  intros Hlen Hes. induction Hes as [|hb l pl rest es Hp _ _ _ IH]; [done|].
  rewrite !len_app in Hlen. pose proof (len_nonneg pl). pose proof (len_nonneg rest).
  apply parse_lfh_cut in Hp as (_ & _ & _ & _ & Hhb & _ & _); [|lia].
  rewrite !length_app. cbn. unfold len in *. lia.
Qed.

(** The validation as the header, the loop and nothing else. *)
Lemma validate_unfold bs h k :
  Format.parse_global_header bs default_limits = Ok (h, k) →
  validate_stream_transcript bs
  = if negb (contains (Format.flags h) GlobalFlags.NO_INDEX) then
      Err (SarError.FlagConflict "strict stream transcript validation requires NO_INDEX")
    else
      n ← transcript_loop (S (length bs)) bs (Format.flags h) k (start (Format.flags h)) 0;
      Ok {| entry_count := n |}.
Proof.
  intros Hp. pose proof (parse_header_cut _ _ _ Hp) as [_ Hv].
  unfold validate_stream_transcript, validate_stream_transcript_internal. rewrite Hp.
  cbn [mbind result_bind]. unfold observe_global_header, mbind, M_bind, lift. by rewrite Hv.
Qed.
Lemma report_Ok (r : result SarError.t Z) n :
  (x ← r; Ok {| entry_count := x |}) = Ok {| entry_count := n |} ↔ r = Ok n.
Proof. destruct r; cbn; naive_solver. Qed.
(** The bytes around the end of the header. *)
Lemma header_split (bs : list byte) k :
  0 ≤ k ≤ len bs → ∃ p, bs = p ++ drop (Z.to_nat k) bs ∧ k = len p.
Proof.
  intros Hk. exists (take (Z.to_nat k) bs). rewrite take_drop. split; [done|].
  unfold len in *. rewrite length_take. lia.
Qed.

(** The whole loop, from the end of the header. *)
Lemma transcript_loop_spec gf p rest n :
  len (p ++ rest) ≤ ISIZE_MAX →
  let run := transcript_loop (S (length (p ++ rest))) (p ++ rest) gf (len p) (start gf) 0 in
  no_panic run
  ∧ (run = Ok n ↔ ∃ es m', entries_of gf rest es ∧ session_run (start gf) es m' ∧ n = len es).
Proof.
  intros Hlen run. destruct (start_ok gf) as [Hm Hc].
  assert (Hl64 : len (p ++ rest) < 2 ^ 64) by (unfold ISIZE_MAX in Hlen; lia).
  assert (Hlr : len rest < 2 ^ 64) by (rewrite len_app in Hl64; pose proof (len_nonneg p); lia).
  split; [|split].
  - apply transcript_loop_no_panic; [done|rewrite length_app; lia|done..].
  - intros (es & m' & Hes & Hrun & -> & _)%transcript_loop_sound; [|done]. by exists es, m'.
  - intros (es & m' & Hes & Hrun & ->). pose proof (entries_length gf rest es Hlr Hes) as Hn.
    apply (transcript_loop_complete gf _ p rest _ 0 es m'); try done.
    + unfold len in *. lia.
    + rewrite length_app. lia.
Qed.

(** Validation decides exactly what a valid transcript is, and always returns:
    it accepts a byte string, with the number of entries, if and only if the string
    is a global header with [NO_INDEX] followed by entries on non-zero streams that
    a fresh session manager accepts one after the other, each with the stateful
    semantics active; no byte string makes it panic. *)
Theorem transcript_valid_spec bs n :
  len bs ≤ ISIZE_MAX →
  no_panic (validate_stream_transcript bs)
  ∧ (validate_stream_transcript bs = Ok {| entry_count := n |} ↔
     ∃ h k es m', Format.parse_global_header bs default_limits = Ok (h, k)
       ∧ contains (Format.flags h) GlobalFlags.NO_INDEX = true
       ∧ entries_of (Format.flags h) (drop (Z.to_nat k) bs) es
       ∧ session_run (start (Format.flags h)) es m' ∧ n = len es).
Proof.
  intros Hlen. pose proof (Format.parse_global_header_no_panic bs default_limits) as Hnp.
  destruct (Format.parse_global_header bs default_limits) as [[h k]|err|] eqn:Hp; [| |done].
  - rewrite (validate_unfold bs h k Hp). pose proof (parse_header_cut _ _ _ Hp) as [Hk _].
    destruct (header_split bs k Hk) as (p & Hbs & Hkp).
    destruct (contains (Format.flags h) GlobalFlags.NO_INDEX) eqn:Hni; cbn [negb];
      [|split; [done|split; [done|naive_solver congruence]]].
    destruct (transcript_loop_spec (Format.flags h) p (drop (Z.to_nat k) bs) n) as [Hpan Hiff];
      rewrite <- ?Hbs in *; [done|]. rewrite <- Hkp in *.
    split; [by apply no_panic_bind|]. rewrite report_Ok, Hiff.
    split; [intros (es & m' & ?); by exists h, k, es, m'|].
    intros (h' & k' & es & m' & [= <- <-] & _ & ?). by exists es, m'.
  - unfold validate_stream_transcript, validate_stream_transcript_internal. rewrite Hp.
    split; [done|]. split; [done|]. by intros (? & ? & ? & ? & ? & _).
Qed.

(** ** Sequence numbers on the wire *)
Lemma table_run_app σ es1 es2 σ2 :
  table_run σ (es1 ++ es2) σ2 → ∃ σ1, table_run σ es1 σ1 ∧ table_run σ1 es2 σ2.
Proof.
  revert σ. induction es1 as [|e es1 IH]; intros σ H; [eexists; split; [constructor|done]|].
  inversion H as [|? ? σ1 ? ? Hs Hr]; subst. apply IH in Hr as (σ' & ? & ?).
  exists σ'. split; [by econstructor|done].
Qed.
Lemma table_run_frame σ es σ' id :
  table_run σ es σ' → Forall (λ e, stream_id e ≠ id) es → σ' !! id = σ !! id.
Proof.
  induction 1 as [|σ e σ1 es σ2 Hs _ IH]; intros Hall; [done|].
  apply Forall_cons in Hall as [Hne Hall]. rewrite IH by done.
  destruct Hs; by rewrite ?lookup_insert_ne, ?lookup_delete_ne.
Qed.
(** The table right after an entry. *)
Lemma table_step_after σ e σ' :
  table_step σ e σ' →
  σ' !! stream_id e = if closes e && negb (opens e) then None else Some (sequence_no e).
Proof.
  intros [Ho|q Ho Hc|q Ho Hc]; rewrite Ho, ?Hc, ?andb_false_r; cbn;
    by rewrite ?lookup_insert_eq, ?lookup_delete_eq.
Qed.
Lemma opens_closes e : opens e = true → closes e = false.
Proof. unfold opens, closes. intros [-> ?]%andb_true_iff. cbn. lia. Qed.

(** An entry a table accepts, from what the table says of its stream. *)
Lemma table_step_before σ e σ' :
  table_step σ e σ' →
  match σ !! stream_id e with
  | None => opens e = true
  | Some q => opens e = false ∧ sequence_no e = next_seq q
  end.
Proof. intros [? ? ->|q ? ? ->|q ? ? ->]; done. Qed.

Lemma table_run_first pre e post σ' :
  table_run ∅ (pre ++ e :: post) σ' → Forall (λ e', stream_id e' ≠ stream_id e) pre →
  opens e = true.
Proof.
  intros (σ & Hpre & Hrun)%table_run_app Hall. inversion Hrun as [|? ? σ1 ? ? Hs _]; subst.
  apply table_step_before in Hs. by rewrite (table_run_frame _ _ _ _ Hpre Hall), lookup_empty in Hs.
Qed.
Lemma table_run_next σ0 pre e mid e' post σ' :
  table_run σ0 (pre ++ e :: mid ++ e' :: post) σ' → stream_id e' = stream_id e →
  Forall (λ e0, stream_id e0 ≠ stream_id e) mid →
  (closes e = true ∧ opens e' = true)
  ∨ (closes e = false ∧ opens e' = false ∧ sequence_no e' = next_seq (sequence_no e)).
Proof.
  intros (σ & _ & Hrun)%table_run_app Hid Hall. inversion Hrun as [|? ? σ1 ? ? Hs Hr]; subst.
  apply table_run_app in Hr as (σ2 & Hmid & Hr). inversion Hr as [|? ? σ3 ? ? Hs' _]; subst.
  apply table_step_before in Hs'. rewrite Hid in Hs'.
  rewrite (table_run_frame _ _ _ _ Hmid Hall), (table_step_after _ _ _ Hs) in Hs'.
  destruct (opens e) eqn:Ho; [rewrite (opens_closes e Ho) in *|]; cbn in Hs';
    rewrite ?andb_false_r, ?andb_true_r in Hs'; cbn in Hs'; [by right|].
  destruct (closes e); [by left|by right].
Qed.

(** An accepted transcript is a run of the session table from no open stream. *)
Lemma validate_table bs n :
  len bs ≤ ISIZE_MAX → validate_stream_transcript bs = Ok {| entry_count := n |} →
  ∃ h k es σ, Format.parse_global_header bs default_limits = Ok (h, k)
    ∧ entries_of (Format.flags h) (drop (Z.to_nat k) bs) es ∧ n = len es ∧ table_run ∅ es σ.
Proof.
  intros Hlen Hv. pose proof Hv as Hv'.
  unfold validate_stream_transcript, validate_stream_transcript_internal in Hv'.
  apply bind_Ok in Hv' as ([h k] & Hp & _). rewrite (validate_unfold bs h k Hp) in Hv.
  pose proof (parse_header_cut _ _ _ Hp) as [Hk _]. apply guard_Ok in Hv as [_ Hv]. apply report_Ok in Hv.
  destruct (header_split bs k Hk) as (p & Hbs & Hkp).
  pose proof (transcript_loop_sound (Format.flags h) (S (length bs)) p
    (drop (Z.to_nat k) bs) (start (Format.flags h)) 0 n) as Hsound.
  rewrite <- Hbs, <- Hkp in Hsound.
  destruct (Hsound Hlen Hv) as (es & m' & Hes & Hrun & -> & Hall).
  destruct (start_ok (Format.flags h)) as [Hm Hc].
  exists h, k, es, (table m'). split_and!; [done..|].
  pose proof (session_run_table _ _ _ Hm Hc Hall Hrun) as Ht. done.
Qed.

(** (C40) Streams in a transcript that validation accepts are well formed, for any byte string
    (of at most [isize::MAX] bytes): it is a header and as many entries as the report counts, the first entry of every
    stream opens a session; between two consecutive entries of the same stream,
    either the first closes the session and the second opens a new one, or the
    session goes on and the sequence number advances by one modulo 2^16. *)
Theorem transcript_sequences bs n :
  len bs ≤ ISIZE_MAX → validate_stream_transcript bs = Ok {| entry_count := n |} →
  ∃ h k es, Format.parse_global_header bs default_limits = Ok (h, k)
    ∧ entries_of (Format.flags h) (drop (Z.to_nat k) bs) es ∧ n = len es
    ∧ (∀ pre e post, es = pre ++ e :: post →
         Forall (λ e', stream_id e' ≠ stream_id e) pre → opens e = true)
    ∧ (∀ pre e mid e' post, es = pre ++ e :: mid ++ e' :: post →
         stream_id e' = stream_id e →
         Forall (λ e0, stream_id e0 ≠ stream_id e) mid →
         (closes e = true ∧ opens e' = true)
         ∨ (closes e = false ∧ opens e' = false
            ∧ sequence_no e' = next_seq (sequence_no e))).
Proof.
  intros Hlen Hv. destruct (validate_table bs n Hlen Hv) as (h & k & es & σ & Hp & Hes & Hn & Hrun).
  exists h, k, es. split_and!; [done..| |].
  - intros pre e post -> Hall. by eapply table_run_first.
  - intros pre e mid e' post -> Hid Hall. by eapply table_run_next.
Qed.

End transcript.

Section witnesses.
#[local] Existing Instance bitwise.

(** A stream of two entries: an opening of stream 7 and a heartbeat. *)
Definition sample_transcript : list byte :=
  [x53; x41; x52; x21; x01; x00; x04; x00; x02; x00; x00; x00]
  ++ [x14; x00; x00; x00; x00; x20; x07; x00; xff; xff; x12; x00; x00; x00;
      x12; x00; x00; x00; x00; x00] ++ replicate 16 x07 ++ [x03; x00]
  ++ [x14; x00; x00; x00; x00; x23; x07; x00; x00; x00; x00; x00; x00; x00;
      x00; x00; x00; x00; x00; x00].

Example sample_transcript_valid : validate_stream_transcript sample_transcript = Ok {| entry_count := 2 |}.
Proof. by vm_compute. Qed.
(** The same stream with a gap in its sequence numbers. *)
Example sample_transcript_gap :
  validate_stream_transcript (<[58%nat := x01]> sample_transcript)
  = Err (SarError.StreamState "sequence discontinuity detected").
Proof. by vm_compute. Qed.
(** A recording sink sees the bytes of a rejected transcript. *)
Example sink_records_rejected :
  validate_stream_transcript_with_sink (λ w bs, (w ++ bs, Ok tt)) [x00] []
  = ([x00], Err (SarError.Truncated "insufficient bytes")).
Proof. by vm_compute. Qed.

Lemma transcript_valid_spec_witness :
  no_panic (validate_stream_transcript sample_transcript)
  ∧ (validate_stream_transcript sample_transcript = Ok {| entry_count := 2 |} ↔
     ∃ h k es m', Format.parse_global_header sample_transcript default_limits = Ok (h, k)
       ∧ contains (Format.flags h) GlobalFlags.NO_INDEX = true
       ∧ entries_of (Format.flags h) (drop (Z.to_nat k) sample_transcript) es
       ∧ session_run (start (Format.flags h)) es m' ∧ 2 = len es).
Proof. apply (transcript_valid_spec sample_transcript 2). by vm_compute. Defined.

Lemma transcript_sequences_witness :
  ∃ h k es, Format.parse_global_header sample_transcript default_limits = Ok (h, k)
    ∧ entries_of (Format.flags h) (drop (Z.to_nat k) sample_transcript) es ∧ 2 = len es
    ∧ (∀ pre e post, es = pre ++ e :: post →
         Forall (λ e', stream_id e' ≠ stream_id e) pre → opens e = true)
    ∧ (∀ pre e mid e' post, es = pre ++ e :: mid ++ e' :: post →
         stream_id e' = stream_id e →
         Forall (λ e0, stream_id e0 ≠ stream_id e) mid →
         (closes e = true ∧ opens e' = true)
         ∨ (closes e = false ∧ opens e' = false
            ∧ sequence_no e' = next_seq (sequence_no e))).
Proof. apply (transcript_sequences sample_transcript 2); by vm_compute. Defined.
End witnesses.

End Transcript.
