(* ===== verification/FastCdc.v ===== *)
(** * Content-defined chunking

    Models [crates/sar-cdc/src/fastcdc.rs] with the error type, the chunk types and
    the chunk-table validation of [types.rs] and [validate.rs].  SHA-256 is the
    third-party [sha2] crate: a parameter of the chunker. *)

From S2P Require Import Prelude Errors.

Module CdcError.
(** [enum CdcError]. *)
Inductive t : Set :=
  | Unsupported (m : string) | ReservedValue (m : string) | Overflow (m : string)
  | Bounds (m : string) | Malformed (m : string) | LimitExceeded (m : string)
  | InvalidLength (m : string).

(** [cdc_err_to_sar] ([sar-core/src/cdc.rs]). *)
Definition to_sar (e : t) : SarError.t :=
  match e with
  | Unsupported m => SarError.Unsupported m
  | ReservedValue m => SarError.ReservedValue m
  | Overflow m => SarError.Overflow m
  | Bounds m => SarError.Bounds m
  | Malformed m => SarError.Malformed m
  | LimitExceeded m => SarError.LimitExceeded m
  | InvalidLength m => SarError.InvalidLength m
  end.
End CdcError.

Module FastCdc.

(** [struct CdcChunk]. *)
Record CdcChunk := { offset : Z; length : Z; hash : option (list byte) }.

(** [struct CdcMetadata]. *)
Record CdcMetadata := {
  algorithm_id : Z; meta_min_size : Z; meta_avg_size : Z; meta_max_size : Z;
  chunks : list CdcChunk }.

(** ** The gear table *)
Definition shl64 (a k : Z) : Z := Z.shiftl a k mod 2 ^ 64.

(** One round of [generate_gear]: the next state and the entry of the table. *)
Definition gear_step (state : Z) : Z * Z :=
  let state := Z.lxor state (shl64 state 12) in
  let state := Z.lxor state (Z.shiftr state 25) in
  let state := Z.lxor state (shl64 state 27) in
  (state, state * 0x2545F4914F6CDD1D mod 2 ^ 64).
Fixpoint gear_loop (n : nat) (state : Z) : list Z :=
  match n with
  | O => []
  | S n => let '(state, v) := gear_step state in v :: gear_loop n state
  end.
(** [generate_gear]. *)
Definition generate_gear : list Z := gear_loop 256 0x9e3779b97f4a7c15.
(** [GEAR], evaluated at compile time as in the source. *)
Definition GEAR : list Z := Eval vm_compute in generate_gear.

(** ** Options *)

(** [struct FastCdcOptions]. *)
Record FastCdcOptions := { min_size : Z; avg_size : Z; max_size : Z }.

(** [FastCdcOptions::default]. *)
Definition default_options : FastCdcOptions :=
  {| min_size := 2048; avg_size := 8192; max_size := 65536 |}.

(** [FastCdcOptions::validate]. *)
Definition validate_options (o : FastCdcOptions) : result CdcError.t unit :=
  if min_size o <? 64 then Err (CdcError.Bounds "FastCDC min_size must be >= 64")
  else if avg_size o <? min_size o then
    Err (CdcError.Bounds "FastCDC avg_size must be >= min_size")
  else if max_size o <? avg_size o then
    Err (CdcError.Bounds "FastCDC max_size must be >= avg_size")
  else Ok tt.

(** [mask_for_size]; [u32::BITS - 1 - leading_zeros] is the binary logarithm. *)
Definition mask_for_size (size : Z) : Z :=
  if size <? 2 then 0
  else
    let bits := Z.log2 size in
    let bits := Z.min bits 63 in
    (Z.shiftl 1 bits - 1) mod 2 ^ 64.

(** ** Cut points *)

(** [hash.wrapping_shl(1).wrapping_add(GEAR[byte as usize])]. *)
Definition roll (hash : Z) (b : byte) : result CdcError.t Z :=
  g ← index_r GEAR (byte_val b);
  Ok ((shl64 hash 1 + g) mod 2 ^ 64).

(** The pre-accumulation of [fastcdc_cut]. *)
Fixpoint accumulate (bs : list byte) (hash : Z) : result CdcError.t Z :=
  match bs with
  | [] => Ok hash
  | b :: bs => hash ← roll hash b; accumulate bs hash
  end.

(** A phase of [fastcdc_cut], over the indices [idx]: the cut it returns, or the hash
    it ends with. *)
Fixpoint scan (data : list byte) (mask : Z) (idx : list Z) (hash : Z)
    : result CdcError.t (Z + Z) :=
  match idx with
  | [] => Ok (inr hash)
  | i :: idx =>
      b ← index_r data i;
      hash ← roll hash b;
      if Z.land hash mask =? 0 then
        cut ← add_r 64 i 1; Ok (inl cut)
      else scan data mask idx hash
  end.

(** [fastcdc_cut]. *)
Definition fastcdc_cut (data : list byte) (min_size avg_size mask_s mask_l : Z)
    : result CdcError.t Z :=
  let n := len data in
  if n =? 0 then Ok 0
  else if n <=? min_size then Ok n
  else
    prefix ← slice_r data 0 min_size;
    hash ← accumulate prefix 0;
    let phase1_end := Z.min avg_size n in
    r ← scan data mask_s (seqZ min_size (phase1_end - min_size)) hash;
    match r with
    | inl cut => Ok cut
    | inr hash =>
        r ← scan data mask_l (seqZ avg_size (n - avg_size)) hash;
        match r with
        | inl cut => Ok cut
        | inr _ => Ok n
        end
    end.

Section chunker.
(** [Sha256::digest]. *)
Context (compute_sha256 : list byte → list byte).

(** The loop of [chunk_data] from position [pos]; the fuel bounds the number of
    chunks, and running out of it is [Panic]. *)
Fixpoint chunk_loop (fuel : nat) (data : list byte) (o : FastCdcOptions) (mask_s mask_l : Z)
    (max_chunks : Z) (pos : Z) (chunks : list CdcChunk)
    : result CdcError.t (list CdcChunk) :=
  match fuel with
  | O => Panic
  | S fuel =>
      if pos <? len data then
        remaining ← sub_r (len data) pos;
        let limit := Z.min remaining (max_size o) in
        window_end ← add_r 64 pos limit;
        window ← slice_r data pos window_end;
        cut ← fastcdc_cut window (min_size o) (avg_size o) mask_s mask_l;
        fin ← add_r 64 pos cut;
        chunk_bytes ← slice_r data pos fin;
        let hash := compute_sha256 chunk_bytes in
        new_len ← ok_or (checked_add 64 (len chunks) 1)
                    (CdcError.Overflow "chunk count overflow");
        if new_len >? max_chunks then
          Err (CdcError.LimitExceeded "CDC chunk count exceeds configured limit")
        else
          off ← ok_or (try_from 64 pos) (CdcError.Overflow "chunk offset overflow");
          ln ← ok_or (try_from 64 cut) (CdcError.Overflow "chunk length overflow");
          chunk_loop fuel data o mask_s mask_l max_chunks fin
            (chunks ++ [{| offset := off; length := ln; hash := Some hash |}])
      else Ok chunks
  end.

(** [chunk_data]. *)
Definition chunk_data (data : list byte) (o : FastCdcOptions) (max_chunks : Z)
    : result CdcError.t (list CdcChunk) :=
  _ ← validate_options o;
  if len data =? 0 then Ok []
  else
    half ← div_r (avg_size o) 2;
    let mask_s := mask_for_size half in
    let mask_l := mask_for_size (avg_size o) in
    chunk_loop (S (List.length data)) data o mask_s mask_l max_chunks 0 [].
End chunker.

(** The loop of [validate_cdc_metadata]. *)
Fixpoint metadata_loop (logical_size cursor : Z) (cs : list CdcChunk)
    : result CdcError.t Z :=
  match cs with
  | [] => Ok cursor
  | c :: cs =>
      if length c =? 0 then Err (CdcError.InvalidLength "CDC chunk has zero length")
      else if negb (offset c =? cursor) then
        Err (CdcError.Bounds "CDC chunk table has gap or overlap (non-contiguous)")
      else
        fin ← ok_or (checked_add 64 (offset c) (length c))
                (CdcError.Overflow "CDC chunk offset+length overflow");
        if (logical_size >? 0) && (fin >? logical_size) then
          Err (CdcError.Bounds "CDC chunk extends beyond logical file size")
        else metadata_loop logical_size fin cs
  end.

(** [validate_cdc_metadata]. *)
Definition validate_cdc_metadata (meta : CdcMetadata) (logical_size max_chunks : Z)
    : result CdcError.t unit :=
  if len (chunks meta) >? max_chunks then
    Err (CdcError.LimitExceeded "CDC chunk count exceeds configured limit")
  else
    cursor ← metadata_loop logical_size 0 (chunks meta);
    if (logical_size >? 0) && negb (len (chunks meta) =? 0)
       && negb (cursor =? logical_size) then
      Err (CdcError.Bounds "CDC chunk table does not fully cover the logical file")
    else Ok tt.

(** ** Cut points are inside the window *)
Lemma length_GEAR : List.length GEAR = 256%nat.
Proof. done. Qed.
Lemma GEAR_generated : GEAR = generate_gear.
Proof. by vm_compute. Qed.

(** *** The gear hash

    The hash of a byte string: every byte doubles it and adds its entry of the table. *)
Definition gear_entry (b : byte) : Z := default 0 (GEAR !! Z.to_nat (byte_val b)).
Definition gear_next (h : Z) (b : byte) : Z := (2 * h + gear_entry b) mod 2 ^ 64.
Definition gear_hash (bs : list byte) : Z := foldl gear_next 0 bs.

Lemma roll_gear h b : roll h b = Ok (gear_next h b).
Proof.
  unfold roll, gear_next, gear_entry. pose proof (byte_val_range b).
  destruct (lookup_lt_is_Some_2 GEAR (Z.to_nat (byte_val b))) as [g Hg];
    [rewrite length_GEAR; lia|].
  rewrite (index_r_cons GEAR (byte_val b) g), Hg by (done || lia). cbn [mbind result_bind default from_option id].
  unfold shl64. rewrite Z.shiftl_mul_pow2, Zplus_mod_idemp_l by lia. do 2 f_equal. lia.
Qed.
Lemma accumulate_gear bs h : accumulate bs h = Ok (foldl gear_next h bs).
Proof.
  revert h. induction bs as [|b bs IH]; intros h; cbn; [done|]. rewrite roll_gear. apply IH.
Qed.
Lemma gear_hash_snoc data i b :
  0 ≤ i → data !! Z.to_nat i = Some b →
  gear_hash (take (Z.to_nat (i + 1)) data) = gear_next (gear_hash (take (Z.to_nat i) data)) b.
Proof.
  intros Hi Hb. replace (Z.to_nat (i + 1)) with (S (Z.to_nat i)) by lia.
  unfold gear_hash. by rewrite (take_S_r _ _ _ Hb), foldl_app.
Qed.

(** A phase finds the first position whose hash the mask accepts. *)
Lemma scan_spec data mask k a :
  0 ≤ a → a + Z.of_nat k ≤ len data → len data < 2 ^ 64 →
  let accepts c := Z.land (gear_hash (take (Z.to_nat c) data)) mask = 0 in
  match scan data mask (seqZ a (Z.of_nat k)) (gear_hash (take (Z.to_nat a) data)) with
  | Ok (inl c) => a < c ≤ a + Z.of_nat k ∧ accepts c ∧ ∀ c', a < c' < c → ¬ accepts c'
  | Ok (inr h) => h = gear_hash (take (Z.to_nat (a + Z.of_nat k)) data)
                  ∧ ∀ c', a < c' ≤ a + Z.of_nat k → ¬ accepts c'
  | _ => False
  end.
Proof.
  cbv zeta. revert a. induction k as [|k IH]; intros a Ha Hk Hl.
  { rewrite seqZ_nil by lia. cbn. rewrite Z.add_0_r. split; [done|]. lia. }
  rewrite seqZ_cons by lia. cbn [scan].
  destruct (lookup_lt_is_Some_2 data (Z.to_nat a)) as [b Hb]; [unfold len in Hk; lia|].
  rewrite (index_r_cons data a b) by (done || lia). cbn [mbind result_bind].
  rewrite roll_gear, <- (gear_hash_snoc data a b) by done. cbn [mbind result_bind].
  destruct (Z.eqb_spec (Z.land (gear_hash (take (Z.to_nat (a + 1)) data)) mask) 0) as [E|E].
  - rewrite add_r_fits by lia. cbn. split_and!; [lia|lia|done|]. lia.
  - replace (Z.pred (Z.of_nat (S k))) with (Z.of_nat k) by lia.
    change (Z.succ a) with (a + 1).
    specialize (IH (a + 1) ltac:(lia) ltac:(lia) Hl).
    destruct (scan data mask (seqZ (a + 1) (Z.of_nat k)) _) as [[c|h]| |]; [| |done..].
    + destruct IH as (Hc & Hacc & Hno). split_and!; [lia|lia|done|]. intros c' Hc'.
      destruct (decide (c' = a + 1)) as [->|]; [done|]. apply Hno. lia.
    + destruct IH as (-> & Hno). replace (a + 1 + Z.of_nat k) with (a + Z.of_nat (S k)) in * by lia.
      split; [done|]. intros c' Hc'. destruct (decide (c' = a + 1)) as [->|]; [done|]. apply Hno. lia.
Qed.

(** *** The cut rule

    A length beyond the minimum is a boundary when the hash of the bytes up to there is zero
    under the mask of its phase: the first one up to the average, the second one behind it.
    The cut is the first boundary, or the whole window. *)
Definition boundary (mn av ms ml : Z) (w : list byte) (c : Z) : Prop :=
  mn < c ≤ len w
  ∧ Z.land (gear_hash (take (Z.to_nat c) w)) (if c <=? av then ms else ml) = 0.
Definition first_cut (P : Z → Prop) (w : list byte) (c : Z) : Prop :=
  0 < c ≤ len w ∧ (P c ∨ c = len w) ∧ ∀ c', c' < c → ¬ P c'.

Lemma fastcdc_cut_spec data mn av ms ml :
  0 < len data < 2 ^ 64 → 0 ≤ mn ≤ av →
  ∃ c, fastcdc_cut data mn av ms ml = Ok c ∧ first_cut (boundary mn av ms ml data) data c.
Proof.
  intros Hl Hmn. unfold fastcdc_cut. rewrite (proj2 (Z.eqb_neq _ _)) by lia.
  destruct (Z.leb_spec (len data) mn).
  { exists (len data). split; [done|]. split_and!; [lia..|by right|]. unfold boundary. lia. }
  rewrite slice_r_fits by lia. cbn [mbind result_bind]. rewrite accumulate_gear.
  assert (Hpre : foldl gear_next 0 (slice data 0 mn) = gear_hash (take (Z.to_nat mn) data)).
  { unfold slice. by rewrite Z.sub_0_r. }
  rewrite Hpre. cbn [mbind result_bind].
  pose proof (scan_spec data ms (Z.to_nat (Z.min av (len data) - mn)) mn) as H1. cbv zeta in H1.
  rewrite Z2Nat.id in H1 by lia. specialize (H1 ltac:(lia) ltac:(lia) ltac:(lia)).
  replace (mn + (Z.min av (len data) - mn)) with (Z.min av (len data)) in H1 by lia.
  destruct (scan _ ms _ _) as [[c|h]| |]; [| |done..]; cbn [mbind result_bind].
  { destruct H1 as (Hc & Hacc & Hno). exists c. split; [done|]. split_and!; [lia..| |].
    - left. split; [lia|]. by rewrite (proj2 (Z.leb_le _ _)) by lia.
    - intros c' Hc' [Hr Hb]. rewrite (proj2 (Z.leb_le _ _)) in Hb by lia. eapply Hno; [|done]. lia. }
  destruct H1 as (-> & Hno).
  assert (Hphase1 : ∀ c', c' ≤ Z.min av (len data) → ¬ boundary mn av ms ml data c').
  { intros c' Hc' [Hr Hb]. rewrite (proj2 (Z.leb_le _ _)) in Hb by lia. eapply Hno; [|done]. lia. }
  destruct (Z.leb_spec (len data) av) as [Hav|Hav].
  { rewrite (seqZ_nil av) by lia. cbn. exists (len data). split; [done|]. split_and!; [lia..|by right|].
    intros c' Hc'. apply Hphase1. lia. }
  rewrite Z.min_l in * by lia.
  pose proof (scan_spec data ml (Z.to_nat (len data - av)) av) as H2. cbv zeta in H2.
  rewrite Z2Nat.id in H2 by lia. specialize (H2 ltac:(lia) ltac:(lia) ltac:(lia)).
  replace (av + (len data - av)) with (len data) in H2 by lia.
  destruct (scan _ ml _ _) as [[c|h]| |]; [| |done..]; cbn [mbind result_bind].
  - destruct H2 as (Hc & Hacc & Hno2). exists c. split; [done|]. split_and!; [lia..| |].
    + left. split; [lia|]. by rewrite (proj2 (Z.leb_gt _ _)) by lia.
    + intros c' Hc' Hb. destruct (decide (c' ≤ av)); [by apply (Hphase1 c')|].
      destruct Hb as [Hr Hb]. rewrite (proj2 (Z.leb_gt _ _)) in Hb by lia. eapply Hno2; [|done]. lia.
  - destruct H2 as (_ & Hno2). exists (len data). split; [done|]. split_and!; [lia..|by right|].
    intros c' Hc' Hb. destruct (decide (c' ≤ av)); [by apply (Hphase1 c')|].
    destruct Hb as [Hr Hb]. rewrite (proj2 (Z.leb_gt _ _)) in Hb by lia. eapply Hno2; [|done]. lia.
Qed.
Lemma fastcdc_cut_ok data mn av ms ml :
  0 < len data < 2 ^ 64 → 0 ≤ mn ≤ av →
  ∃ c, fastcdc_cut data mn av ms ml = Ok c ∧ 1 ≤ c ≤ len data
    ∧ (mn < len data → mn < c) ∧ (len data ≤ mn → c = len data).
Proof.
  intros Hl Hmn. destruct (fastcdc_cut_spec data mn av ms ml Hl Hmn) as (c & Hc & Hr & Hb & _).
  exists c. unfold boundary in Hb. split_and!; [done|lia..].
Qed.

(** ** The chunks of a byte string *)
Section spec.
Context (sha : list byte → list byte) (o : FastCdcOptions).

Definition cut_of (window : list byte) : result CdcError.t Z :=
  fastcdc_cut window (min_size o) (avg_size o)
    (mask_for_size (avg_size o / 2)) (mask_for_size (avg_size o)).
(** The window the next cut is looked for in. *)
Definition window (rest : list byte) : list byte := take (Z.to_nat (max_size o)) rest.
Definition chunk_at (off : Z) (bs : list byte) : CdcChunk :=
  {| offset := off; length := len bs; hash := Some (sha bs) |}.

(** The chunks of [rest] when it starts at offset [off]: each cut depends only on the
    window that begins the chunk. *)
Inductive chunks_of : list byte → Z → list CdcChunk → Prop :=
  | chunks_nil off : chunks_of [] off []
  | chunks_cons bs rest off cs :
      bs ≠ [] → cut_of (window (bs ++ rest)) = Ok (len bs) →
      chunks_of rest (off + len bs) cs →
      chunks_of (bs ++ rest) off (chunk_at off bs :: cs).

(** Options that pass [validate_options]; the fields are [u32]. *)
Definition options_ok : Prop :=
  64 ≤ min_size o ∧ min_size o ≤ avg_size o ∧ avg_size o ≤ max_size o ∧ max_size o < 2 ^ 32.

Lemma len_window rest : 0 ≤ max_size o → len (window rest) = Z.min (len rest) (max_size o).
Proof. intros. unfold window, len. rewrite length_take. lia. Qed.

(** The first chunk of a non-empty string. *)
Lemma first_chunk rest :
  options_ok → rest ≠ [] → len rest < 2 ^ 64 →
  ∃ bs rest', rest = bs ++ rest' ∧ bs ≠ [] ∧ cut_of (window rest) = Ok (len bs)
    ∧ len bs ≤ max_size o ∧ (rest' ≠ [] → min_size o ≤ len bs).
Proof.
  intros (Hmn & Hav & Hmx & _) Hne Hl.
  assert (Hr : 0 < len rest) by (destruct rest; [done|unfold len; cbn; lia]).
  pose proof (len_window rest) as Hw.
  destruct (fastcdc_cut_ok (window rest) (min_size o) (avg_size o)
    (mask_for_size (avg_size o / 2)) (mask_for_size (avg_size o)))
    as (c & Hc & Hrange & Hlong & Hshort); [lia..|].
  exists (take (Z.to_nat c) rest), (drop (Z.to_nat c) rest).
  assert (Hlb : len (take (Z.to_nat c) rest) = c) by (unfold len in *; rewrite length_take; lia).
  rewrite take_drop, Hlb. split_and!; [done| |done|lia|].
  - intros H0. rewrite H0, len_nil in Hlb. lia.
  - intros Hd. assert (c < len rest).
    { destruct (decide (c < len rest)); [done|]. exfalso. apply Hd, drop_ge.
      unfold len in *. lia. }
    lia.
Qed.

Lemma chunks_exist rest off :
  options_ok → len rest < 2 ^ 64 → ∃ cs, chunks_of rest off cs.
Proof.
  intros Ho. remember (List.length rest) as n eqn:Hn. revert rest off Hn.
  induction (lt_wf n) as [n _ IH]. intros rest off Hn Hl.
  destruct (decide (rest = [])) as [->|Hne]; [exists []; constructor|].
  destruct (first_chunk rest Ho Hne Hl) as (bs & rest' & -> & Hbs & Hc & _).
  assert (List.length bs ≠ 0%nat) by by destruct bs.
  rewrite length_app in Hn. rewrite len_app in Hl. pose proof (len_nonneg bs).
  destruct (IH (List.length rest') ltac:(lia) rest' (off + len bs) eq_refl) as [cs Hcs]; [lia|].
  eexists. by constructor.
Qed.
Lemma chunks_unique rest off cs cs' :
  chunks_of rest off cs → chunks_of rest off cs' → cs = cs'.
Proof.
  intros H. revert cs'. induction H as [off|bs rest off cs Hbs Hc H IH]; intros cs' H'.
  - inversion H' as [|bs rest ? ? Hbs Hc Ht Heq]; [done|]. by destruct bs.
  - inversion H' as [Heq|bs' rest' ? cs2 Hbs' Hc' Ht Heq]; [by destruct bs|]. subst.
    rewrite Heq in Hc'. rewrite Hc in Hc'. injection Hc' as Hlen.
    apply app_inj_1 in Heq as [-> ->]; [|unfold len in Hlen; lia]. f_equal. by apply IH.
Qed.
(** Chunks are no more than bytes. *)
Lemma chunks_count rest off cs : chunks_of rest off cs → len cs ≤ len rest.
Proof.
  induction 1 as [|bs rest off cs Hbs _ _ IH]; [done|]. rewrite len_cons, len_app.
  destruct bs; [done|]. rewrite len_cons. pose proof (len_nonneg bs). lia.
Qed.

(** ** The loop computes them *)
Definition too_many {A} : result CdcError.t A :=
  Err (CdcError.LimitExceeded "CDC chunk count exceeds configured limit").

Lemma chunk_loop_spec fuel p rest acc cs mx :
  options_ok → chunks_of rest (len p) cs → len (p ++ rest) ≤ ISIZE_MAX →
  (List.length rest < fuel)%nat → len acc + len rest ≤ ISIZE_MAX → len acc ≤ mx →
  chunk_loop sha fuel (p ++ rest) o (mask_for_size (avg_size o / 2))
    (mask_for_size (avg_size o)) mx (len p) acc
  = if len acc + len cs <=? mx then Ok (acc ++ cs) else too_many.
Proof.
  unfold ISIZE_MAX. intros Ho Hcs. remember (len p) as off eqn:Hoff. revert fuel p acc Hoff.
  induction Hcs as [off|bs rest off cs Hbs Hc Hcs IH]; intros fuel p acc -> Hl Hf Hacc Hmx;
    (destruct fuel as [|fuel]; [lia|]); cbn [chunk_loop].
  { rewrite !app_nil_r, Z.ltb_irrefl, len_nil. by rewrite (proj2 (Z.leb_le _ _)) by lia. }
  assert (Hb : 0 < len bs) by (destruct bs; [done|unfold len; cbn; lia]).
  set (data := p ++ bs ++ rest) in *.
  assert (Hd : len data = len p + (len bs + len rest)) by (unfold data; by rewrite !len_app).
  rewrite len_app in Hacc. pose proof (len_nonneg p). pose proof (len_nonneg rest).
  rewrite (proj2 (Z.ltb_lt _ _)) by lia. rewrite sub_r_fits by lia. cbn [mbind result_bind].
  destruct Ho as (Hmn & Hav & Hmax & Hm32).
  replace (len data - len p) with (len bs + len rest) by lia.
  set (limit := Z.min (len bs + len rest) (max_size o)).
  rewrite (add_r_fits 64 (len p) limit) by lia. cbn [mbind result_bind].
  rewrite (slice_r_fits data (len p) (len p + limit)) by lia. cbn [mbind result_bind].
  assert (Hwin : slice data (len p) (len p + limit) = window (bs ++ rest)).
  { pose proof (slice_app_shift p (bs ++ rest) 0 limit ltac:(lia)) as Hs.
    rewrite Z.add_0_r in Hs. unfold data. rewrite Hs. unfold slice, window, limit.
    rewrite Z.sub_0_r. change (Z.to_nat 0) with 0%nat. rewrite drop_0, <- len_app.
    destruct (Z.min_spec (len (bs ++ rest)) (max_size o)) as [[Hlt ->]|[_ ->]]; [|done].
    clear - Hlt. unfold len in Hlt. rewrite !take_ge; [done|unfold len; lia..]. }
  rewrite Hwin. unfold cut_of in Hc. rewrite Hc. cbn [mbind result_bind].
  rewrite (add_r_fits 64 (len p) (len bs)) by lia. cbn [mbind result_bind].
  rewrite (slice_r_fits data (len p) (len p + len bs)) by lia. cbn [mbind result_bind].
  assert (Hmid : slice data (len p) (len p + len bs) = bs) by apply slice_app_mid.
  rewrite Hmid. pose proof (len_nonneg acc).
  rewrite checked_add_fits by lia. cbn [ok_or mbind result_bind]. rewrite len_cons.
  pose proof (len_nonneg cs). dif as E.
  { by rewrite (proj2 (Z.leb_gt _ _)) by lia. }
  rewrite !try_from_fits by lia. cbn [ok_or mbind result_bind].
  assert (Hdata : data = (p ++ bs) ++ rest) by (unfold data; by rewrite app_assoc).
  rewrite Hdata, (IH fuel (p ++ bs)).
  - rewrite len_app, len_cons, len_nil, <- app_assoc. fold (chunk_at (len p) bs).
    by replace (len acc + (1 + 0) + len cs) with (len acc + (1 + len cs)) by lia.
  - by rewrite len_app.
  - rewrite <- Hdata. lia.
  - rewrite length_app in Hf. unfold len in Hb. lia.
  - rewrite len_app, len_cons, len_nil. lia.
  - rewrite len_app, len_cons, len_nil. lia.
Qed.

Lemma validate_options_ok :
  max_size o < 2 ^ 32 → validate_options o = Ok tt → options_ok.
Proof.
  unfold validate_options, options_ok. intros Hm H. repeat (apply guard_Ok in H as [? H]).
  split_and!; lia.
Qed.

(** The chunker on valid options: the chunks of the data, if there are not too many. *)
Lemma chunk_data_spec data mx cs :
  validate_options o = Ok tt → max_size o < 2 ^ 32 → len data ≤ ISIZE_MAX → 0 ≤ mx →
  chunks_of data 0 cs →
  chunk_data sha data o mx = if len cs <=? mx then Ok cs else too_many.
Proof.
  intros Hv Hm Hl Hmx Hcs. unfold chunk_data. rewrite Hv. cbn [mbind result_bind].
  destruct (Z.eqb_spec (len data) 0) as [H0|H0].
  - pose proof (chunks_count _ _ _ Hcs). pose proof (len_nonneg cs).
    destruct cs as [|c cs]; [|rewrite len_cons in *; pose proof (len_nonneg cs); lia].
    by rewrite (proj2 (Z.leb_le _ _)) by done.
  - rewrite div_r_nz by lia. cbn [mbind result_bind].
    pose proof (chunk_loop_spec (S (List.length data)) [] data [] cs mx) as H.
    cbn [app] in H. rewrite !len_nil, Z.add_0_l in H. rewrite H; [done|by apply validate_options_ok|done|done|lia|done|done].
Qed.

(** ** What the chunks are *)

(** The chunk table of consecutive pieces. *)
Fixpoint chunks_at (off : Z) (pieces : list (list byte)) : list CdcChunk :=
  match pieces with
  | [] => []
  | bs :: ps => chunk_at off bs :: chunks_at (off + len bs) ps
  end.

(** The rule in terms of the options: a boundary is a length beyond the minimum where the
    gear hash is divisible by [2^(log2 (avg / 2))], up to the average, and by
    [2^(log2 avg)] behind it. *)
Definition divisor (c : Z) : Z :=
  2 ^ Z.log2 (if c <=? avg_size o then avg_size o / 2 else avg_size o).
Definition cut_here (w : list byte) (c : Z) : Prop :=
  min_size o < c ≤ len w ∧ gear_hash (take (Z.to_nat c) w) mod divisor c = 0.
(** Pieces cut by the rule: each is the first cut of the window that starts with it. *)
Fixpoint cut_by_rule (pieces : list (list byte)) : Prop :=
  match pieces with
  | [] => True
  | bs :: ps =>
      (let w := window (concat (bs :: ps)) in first_cut (cut_here w) w (len bs)) ∧ cut_by_rule ps
  end.

Lemma mask_divides h size :
  2 ≤ size < 2 ^ 32 → Z.land h (mask_for_size size) = h mod 2 ^ Z.log2 size.
Proof.
  intros Hs. unfold mask_for_size. dif as E; [lia|].
  assert (Hlog : Z.log2 size < 32) by (apply Z.log2_lt_pow2; lia).
  pose proof (Z.log2_nonneg size). rewrite Z.min_l by lia.
  pose proof (Z.pow_lt_mono_r 2 (Z.log2 size) 64). pose proof (Z.pow_pos_nonneg 2 (Z.log2 size)).
  rewrite Z.shiftl_1_l, Z.mod_small by lia.
  change (2 ^ Z.log2 size - 1) with (Z.pred (2 ^ Z.log2 size)).
  rewrite <- Z.ones_equiv. by apply Z.land_ones.
Qed.
Lemma boundary_cut_here w c :
  options_ok → boundary (min_size o) (avg_size o) (mask_for_size (avg_size o / 2))
    (mask_for_size (avg_size o)) w c ↔ cut_here w c.
Proof.
  intros (Hmn & Hav & Hmx & Hm32). unfold boundary, cut_here, divisor.
  assert (32 ≤ avg_size o / 2) by (apply Z.div_le_lower_bound; lia).
  assert (avg_size o / 2 ≤ avg_size o) by (apply Z.div_le_upper_bound; lia).
  destruct (c <=? avg_size o); by rewrite mask_divides by lia.
Qed.
Lemma cut_first_cut w c :
  options_ok → w ≠ [] → len w < 2 ^ 64 → cut_of w = Ok c → first_cut (cut_here w) w c.
Proof.
  intros Ho Hne Hl Hc. pose proof Ho as (Hmn & Hav & _).
  assert (0 < len w) by (destruct w; [done|unfold len; cbn; lia]).
  destruct (fastcdc_cut_spec w (min_size o) (avg_size o) (mask_for_size (avg_size o / 2))
    (mask_for_size (avg_size o))) as (c' & Hc' & Hr & Hb & Hno); [lia..|].
  unfold cut_of in Hc. rewrite Hc in Hc'. injection Hc' as <-. split_and!; [lia..| |].
  - by rewrite <- boundary_cut_here.
  - intros c' Hlt. rewrite <- boundary_cut_here by done. by apply Hno.
Qed.

(** The chunks cut the string into pieces, in order. *)
Lemma chunks_pieces rest off cs :
  options_ok → len rest < 2 ^ 64 → chunks_of rest off cs →
  ∃ pieces, rest = concat pieces ∧ cut_by_rule pieces ∧ cs = chunks_at off pieces.
Proof.
  intros Ho Hl H. induction H as [off|bs rest off cs Hbs Hc H IH]; [by exists []|].
  rewrite len_app in Hl. pose proof (len_nonneg bs). pose proof (len_nonneg rest).
  destruct IH as (ps & -> & Hall & ->); [lia|]. exists (bs :: ps). split_and!; [done| |done].
  split; [|done]. pose proof Ho as (? & ? & ? & ?). cbn [concat]. cbv zeta.
  apply cut_first_cut; [done| |rewrite len_window, len_app by lia; lia|done].
  intros Hnil. pose proof (len_window (bs ++ concat ps) ltac:(lia)) as Hw. rewrite Hnil, len_nil, len_app in Hw.
  destruct bs; [done|]. rewrite len_cons in *. pose proof (len_nonneg bs). lia.
Qed.

Lemma chunks_of_nil off cs : chunks_of [] off cs → cs = [].
Proof. intros H. inversion H as [|bs ? ? ? Hbs _ _ Heq]; [done|]. by destruct bs. Qed.

(** All chunks are within the maximum, all but the last within the minimum. *)
Lemma chunks_sizes rest off cs :
  options_ok → len rest < 2 ^ 64 → chunks_of rest off cs →
  Forall (λ c, 1 ≤ length c ≤ max_size o) cs
  ∧ ∀ pre c post, cs = pre ++ c :: post → post ≠ [] → min_size o ≤ length c.
Proof.
  intros Ho Hl H. induction H as [off|bs rest off cs Hbs Hc Hcs IH];
    [split; [constructor|intros [] ? ? [=]]|].
  destruct (first_chunk (bs ++ rest) Ho) as (bs' & r' & Heq & Hne & Hc' & Hmax & Hmin);
    [by destruct bs|done|].
  rewrite Hc in Hc'. injection Hc' as Hlen.
  apply app_inj_1 in Heq as [<- <-]; [|unfold len in Hlen; lia].
  rewrite len_app in Hl. pose proof (len_nonneg bs).
  destruct IH as [Hall Hpre]; [lia|]. split.
  - constructor; [|done]. cbn. destruct bs; [done|]. rewrite len_cons in *.
    pose proof (len_nonneg bs). lia.
  - intros [|c0 pre] c post [= <- ->] Hpost; [|by eapply Hpre]. cbn. apply Hmin.
    intros ->. by apply chunks_of_nil in Hcs.
Qed.

(** Validation accepts them. *)
Lemma metadata_loop_chunks size rest off cs :
  0 ≤ off → off + len rest ≤ size → size < 2 ^ 64 → chunks_of rest off cs →
  metadata_loop size off cs = Ok (off + len rest).
Proof.
  intros Ho Hsz H64 H. revert Ho Hsz.
  induction H as [off|bs rest off cs Hbs _ _ IH]; intros Ho Hsz; cbn [metadata_loop].
  { by rewrite len_nil, Z.add_0_r. }
  assert (Hb : 0 < len bs) by (destruct bs; [done|unfold len; cbn; lia]).
  rewrite len_app in Hsz. pose proof (len_nonneg rest). cbn [length offset chunk_at].
  rewrite (proj2 (Z.eqb_neq _ _)) by lia. rewrite Z.eqb_refl. cbn [negb].
  rewrite checked_add_fits by lia. cbn [ok_or mbind result_bind].
  dif as E; [lia|]. rewrite IH by lia. rewrite len_app. f_equal. lia.
Qed.

(** Moving a string moves its chunks. *)
Definition shift_chunk (k : Z) (c : CdcChunk) : CdcChunk :=
  {| offset := offset c + k; length := length c; hash := hash c |}.
Lemma chunks_shift k rest off cs :
  chunks_of rest off cs → chunks_of rest (off + k) (shift_chunk k <$> cs).
Proof.
  induction 1 as [off|bs rest off cs Hbs Hc _ IH]; [constructor|]. rewrite fmap_cons.
  apply chunks_cons; [done..|]. by replace (off + k + len bs) with (off + len bs + k) by lia.
Qed.
Lemma chunks_suffix rest off cs1 cs2 :
  chunks_of rest off (cs1 ++ cs2) →
  let k := foldr (λ c acc, length c + acc) 0 cs1 in
  0 ≤ k ∧ chunks_of (drop (Z.to_nat k) rest) (off + k) cs2.
Proof.
  revert rest off. induction cs1 as [|c cs1 IH]; intros rest off H; cbn in *.
  { by rewrite Z.add_0_r. }
  inversion H as [|bs r ? ? Hbs Hc Ht]; subst. apply IH in Ht as [Hk Ht]. cbn.
  pose proof (len_nonneg bs). split; [lia|].
  rewrite Z2Nat.inj_add, <- drop_drop by lia. unfold len at 1. rewrite Nat2Z.id, drop_app_length.
  by rewrite Z.add_assoc.
Qed.
End spec.

Section theorems.
(** [sha2::Sha256]. *)
Context (sha : list byte → list byte).

(** (C35) Chunking cuts the data by the rule.  For options that pass validation and data that
    fits into memory, [chunk_data] returns; it fails only when there are more chunks than
    [max_chunks], and otherwise gives the table, with offsets, lengths and hashes, of pieces
    whose concatenation is the data.  Each piece is the first cut of the window of
    [max_size] bytes that starts with it: it ends at the first length beyond [min_size]
    where the gear hash of the bytes so far is divisible by the power of two for its
    phase, or at the end of the window.  So no piece is longer than the maximum and none
    but the last shorter than the minimum, and [validate_cdc_metadata] accepts the table. *)
Theorem chunk_data_partition o data mx :
  validate_options o = Ok tt → max_size o < 2 ^ 32 → len data ≤ ISIZE_MAX → 0 ≤ mx →
  ∃ pieces cs, data = concat pieces ∧ cut_by_rule o pieces
    ∧ cs = chunks_at sha 0 pieces
    ∧ Forall (λ c, 1 ≤ length c ≤ max_size o) cs
    ∧ (∀ pre c post, cs = pre ++ c :: post → post ≠ [] → min_size o ≤ length c)
    ∧ chunk_data sha data o mx
      = (if len cs <=? mx then Ok cs
         else Err (CdcError.LimitExceeded "CDC chunk count exceeds configured limit"))
    ∧ (len cs ≤ mx → ∀ id,
         validate_cdc_metadata
           {| algorithm_id := id; meta_min_size := min_size o; meta_avg_size := avg_size o;
              meta_max_size := max_size o; chunks := cs |} (len data) mx = Ok tt).
Proof.
  intros Hv Hm Hl Hmx. pose proof (validate_options_ok o Hm Hv) as Ho.
  assert (Hl64 : len data < 2 ^ 64) by (unfold ISIZE_MAX in Hl; lia).
  destruct (chunks_exist sha o data 0 Ho Hl64) as [cs Hcs].
  destruct (chunks_pieces sha o data 0 cs Ho Hl64 Hcs) as (ps & Hps & Hne & Heq).
  destruct (chunks_sizes sha o data 0 cs Ho Hl64 Hcs) as [Hall Hmin].
  exists ps, cs. split_and!; [done..|by apply chunk_data_spec|].
  intros Hle id. unfold validate_cdc_metadata. cbn [chunks].
  destruct (len cs >? mx) eqn:E; [lia|].
  rewrite (metadata_loop_chunks sha o (len data) data 0 cs) by (done || lia).
  cbn [mbind result_bind]. rewrite Z.add_0_l, Z.eqb_refl, andb_false_r. done.
Qed.

(** Boundaries are defined by content: when a chunk of [data] ends at offset [k], the
    chunks that follow are those of the bytes from [k] on, shifted by [k], whatever came
    before.  So an edit cannot move the boundaries behind the first one it leaves in
    place. *)
Theorem chunk_data_resync o data mx cs1 cs2 :
  max_size o < 2 ^ 32 → len data ≤ ISIZE_MAX → 0 ≤ mx →
  chunk_data sha data o mx = Ok (cs1 ++ cs2) →
  let k := foldr (λ c acc, length c + acc) 0 cs1 in
  chunk_data sha (drop (Z.to_nat k) data) o mx = Ok (shift_chunk (- k) <$> cs2).
Proof.
  intros Hm Hl Hmx Hd k.
  assert (Hv : validate_options o = Ok tt).
  { unfold chunk_data in Hd. by apply bind_Ok in Hd as ([] & ? & _). }
  pose proof (validate_options_ok o Hm Hv) as Ho.
  assert (Hl64 : len data < 2 ^ 64) by (unfold ISIZE_MAX in Hl; lia).
  destruct (chunks_exist sha o data 0 Ho Hl64) as [cs Hcs].
  rewrite (chunk_data_spec sha o data mx cs) in Hd by done.
  destruct (Z.leb_spec (len cs) mx) as [Hle|]; [|done]. injection Hd as ->.
  apply chunks_suffix in Hcs as [Hk Hcs]. fold k in Hk, Hcs. cbn in Hcs.
  apply (chunks_shift sha o (- k)) in Hcs. rewrite Z.add_opp_diag_r in Hcs.
  rewrite len_app in Hle. pose proof (len_nonneg cs1).
  rewrite (chunk_data_spec sha o _ mx _ Hv Hm) by
    first [exact Hcs | done | unfold len in *; rewrite length_drop; lia].
  by rewrite len_fmap, (proj2 (Z.leb_le _ _)) by lia.
Qed.
End theorems.

Section witnesses.
Definition sample_options : FastCdcOptions :=
  {| min_size := 64; avg_size := 128; max_size := 256 |}.
Definition sample_data : list byte :=
  (λ i, byte_of (i * i * 7 + i * 13)) <$> seqZ 0 600.
Definition sample_hash (bs : list byte) : list byte := take 32 (bs ++ zeros 32).
Definition sample_chunks : list CdcChunk := Eval vm_compute in
  match chunk_data sample_hash sample_data sample_options 100 with Ok cs => cs | _ => [] end.

Example sample_chunk_lengths : length <$> sample_chunks = [123; 256; 221].
Proof. done. Qed.

Lemma chunk_data_partition_witness :
  ∃ pieces cs, sample_data = concat pieces ∧ cut_by_rule sample_options pieces
    ∧ cs = chunks_at sample_hash 0 pieces
    ∧ Forall (λ c, 1 ≤ length c ≤ max_size sample_options) cs
    ∧ (∀ pre c post, cs = pre ++ c :: post → post ≠ [] → min_size sample_options ≤ length c)
    ∧ chunk_data sample_hash sample_data sample_options 100
      = (if len cs <=? 100 then Ok cs
         else Err (CdcError.LimitExceeded "CDC chunk count exceeds configured limit"))
    ∧ (len cs ≤ 100 → ∀ id,
         validate_cdc_metadata
           {| algorithm_id := id; meta_min_size := min_size sample_options;
              meta_avg_size := avg_size sample_options;
              meta_max_size := max_size sample_options; chunks := cs |}
           (len sample_data) 100 = Ok tt).
Proof.
  apply (chunk_data_partition sample_hash sample_options sample_data 100); by vm_compute.
Defined.

Lemma chunk_data_resync_witness :
  chunk_data sample_hash (drop 123 sample_data) sample_options 100
  = Ok (shift_chunk (-123) <$> drop 1 sample_chunks).
Proof.
  apply (chunk_data_resync sample_hash sample_options sample_data 100
           (take 1 sample_chunks) (drop 1 sample_chunks)); by vm_compute.
Defined.
End witnesses.

End FastCdc.
