(* ===== verification/CdcMap.v ===== *)
(** * Chunk catalogs and recipes

    Models [crates/sar-cdc/src/map.rs], the identifier and map checks of
    [validate.rs] and [algo.rs], and [crates/sar-core/src/cdc.rs], which carries chunk
    catalogs in metadata blocks.  The hash functions (crates [sha2] and [blake3]) are
    parameters; [try_reserve] is taken to find memory for the bounded sizes it is asked
    for. *)

From S2P Require Import Prelude Errors Limits Format Tlv FastCdc Utf8.

Module CdcMap.
Import Limits Tlv.

(** ** Algorithm identifiers *)
Definition CDC_ALGO_LITERAL : Z := 0x00.
Definition CDC_ALGO_RABIN : Z := 0x01.
Definition CDC_ALGO_FASTCDC : Z := 0x02.
Definition CDC_ALGO_BUZHASH : Z := 0x03.
Definition CDC_ALGO_CUSTOM_MIN : Z := 0xF0.
Definition CDC_ALGO_CUSTOM_MAX : Z := 0xFF.
Definition CDC_RECIPE_HASH_LEN : Z := 32.

(** [algo_name]. *)
Definition algo_name (id : Z) : string :=
  if id =? CDC_ALGO_LITERAL then "literal"
  else if id =? CDC_ALGO_RABIN then "rabin"
  else if id =? CDC_ALGO_FASTCDC then "fastcdc"
  else if id =? CDC_ALGO_BUZHASH then "buzhash"
  else if (CDC_ALGO_CUSTOM_MIN <=? id) && (id <=? CDC_ALGO_CUSTOM_MAX) then "custom"
  else "unknown".

(** [validate_cdc_algo_id]. *)
Definition validate_cdc_algo_id (id : Z) : result CdcError.t unit :=
  if id =? CDC_ALGO_LITERAL then Ok tt
  else if id =? CDC_ALGO_FASTCDC then Ok tt
  else if (id =? 0x01) || (id =? 0x03) then
    Err (CdcError.Unsupported "CDC algorithm not implemented (RABIN/BUZHASH)")
  else if (CDC_ALGO_CUSTOM_MIN <=? id) && (id <=? CDC_ALGO_CUSTOM_MAX) then
    Err (CdcError.Unsupported "CUSTOM CDC algorithm not supported")
  else Err (CdcError.ReservedValue "reserved CDC algorithm ID").

(** [validate_cdc_map_hash_algo_id]. *)
Definition validate_cdc_map_hash_algo_id (id : Z) : result CdcError.t unit :=
  if id =? 0x30 then Ok tt
  else if id =? 0x31 then Ok tt
  else if id =? 0x32 then
    Err (CdcError.Unsupported "SHA3-256 hash algorithm not implemented for CDC_MAP")
  else Err (CdcError.ReservedValue "reserved hash algorithm ID in CDC_MAP header").

(** ** Catalogs *)
Definition CDC_MAP_VERSION_V1 : Z := 0x01.
Definition CDC_MAP_HEADER_SIZE : Z := 16.
Definition CDC_MAP_V1_RECORD_SIZE : Z := 48.
Definition CDC_MAP_RECORD_LEN : Z := 32 + 4 + 8 + 4.

(** [struct CdcMapRecord]. *)
Record CdcMapRecord := {
  record_hash : list byte; partition_id : Z; absolute_offset : Z; compressed_size : Z }.
(** [struct CdcMap]. *)
Record CdcMap := { hash_algorithm_id : Z; records : list CdcMapRecord }.

(** [slice.try_into()] for an array of [n] bytes. *)
Definition array (n : Z) (bs : list byte) (m : string) : result CdcError.t (list byte) :=
  if len bs =? n then Ok bs else Err (CdcError.Malformed m).

(** The body of the record loop of [parse_cdc_map]. *)
Definition parse_record (rec : list byte) : result CdcError.t CdcMapRecord :=
  h ← slice_r rec 0 32; hash ← array 32 h "CDC_MAP hash slice wrong length";
  p ← slice_r rec 32 36; pid ← array 4 p "CDC_MAP partition_id slice wrong length";
  a ← slice_r rec 36 44; off ← array 8 a "CDC_MAP absolute_offset slice wrong length";
  c ← slice_r rec 44 48; size ← array 4 c "CDC_MAP compressed_size slice wrong length";
  Ok {| record_hash := hash; partition_id := le_val pid; absolute_offset := le_val off;
        compressed_size := le_val size |}.

(** The record loop of [parse_cdc_map], [n] rounds from index [i]. *)
Fixpoint parse_records (n : nat) (i : Z) (bytes : list byte)
    : result CdcError.t (list CdcMapRecord) :=
  match n with
  | O => Ok []
  | S n =>
      step ← mul_r 64 i CDC_MAP_RECORD_LEN;
      start ← add_r 64 CDC_MAP_HEADER_SIZE step;
      fin ← add_r 64 start CDC_MAP_RECORD_LEN;
      rec ← slice_r bytes start fin;
      r ← parse_record rec;
      rs ← parse_records n (i + 1) bytes;
      Ok (r :: rs)
  end.

(** [parse_cdc_map]. *)
Definition parse_cdc_map (bytes : list byte) (max_records : Z)
    : result CdcError.t CdcMap :=
  if len bytes <? CDC_MAP_HEADER_SIZE then
    Err (CdcError.Malformed
           "CDC_MAP TLV too short to contain the v1 header (need ≥ 16 bytes)")
  else
  b0 ← index_r bytes 0;
  if negb (byte_val b0 =? CDC_MAP_VERSION_V1) then
    Err (CdcError.Unsupported
           "CDC_MAP Map_Version not supported (only v1 = 0x01 is defined)")
  else
  b1 ← index_r bytes 1;
  let hash_algorithm_id := byte_val b1 in
  _ ← validate_cdc_map_hash_algo_id hash_algorithm_id;
  b2 ← index_r bytes 2; b3 ← index_r bytes 3;
  let flags := le_val [b2; b3] in
  if negb (flags =? 0) then
    Err (CdcError.Malformed
           "CDC_MAP Flags must be zero for v1; non-zero bits are reserved")
  else
  b4 ← index_r bytes 4; b5 ← index_r bytes 5; b6 ← index_r bytes 6; b7 ← index_r bytes 7;
  let record_count := le_val [b4; b5; b6; b7] in
  b8 ← index_r bytes 8; b9 ← index_r bytes 9;
  let record_size := le_val [b8; b9] in
  if negb (record_size =? CDC_MAP_V1_RECORD_SIZE) then
    Err (CdcError.Malformed "CDC_MAP Record_Size must be 48 for v1")
  else
  reserved ← slice_r bytes 10 16;
  if Format.any_nonzero reserved then
    Err (CdcError.Malformed "CDC_MAP Reserved bytes must be zero")
  else
  records_bytes ← ok_or (checked_mul 64 record_count CDC_MAP_RECORD_LEN)
                    (CdcError.Overflow "CDC_MAP Record_Count × Record_Size overflow");
  expected_len ← ok_or (checked_add 64 records_bytes CDC_MAP_HEADER_SIZE)
                   (CdcError.Overflow "CDC_MAP total length overflow");
  if negb (len bytes =? expected_len) then
    Err (CdcError.Malformed "CDC_MAP TLV Length does not equal 16 + Record_Count × 48")
  else if record_count >? max_records then
    Err (CdcError.LimitExceeded "CDC_MAP record count exceeds configured limit")
  else
  records ← parse_records (Z.to_nat record_count) 0 bytes;
  Ok {| hash_algorithm_id := hash_algorithm_id; records := records |}.

(** One record, as [write_cdc_map] appends it. *)
Definition write_record (r : CdcMapRecord) : list byte :=
  record_hash r ++ le_bytes 4 (partition_id r) ++ le_bytes 8 (absolute_offset r)
  ++ le_bytes 4 (compressed_size r).

(** [write_cdc_map]. *)
Definition write_cdc_map (map : CdcMap) : result CdcError.t (list byte) :=
  _ ← validate_cdc_map_hash_algo_id (hash_algorithm_id map);
  record_count_u32 ← ok_or (try_from 32 (len (records map)))
                       (CdcError.Overflow "CDC_MAP record count overflows u32");
  records_bytes ← ok_or (checked_mul 64 (len (records map)) CDC_MAP_RECORD_LEN)
                    (CdcError.Overflow "CDC_MAP records length overflow");
  total ← ok_or (checked_add 64 records_bytes CDC_MAP_HEADER_SIZE)
            (CdcError.Overflow "CDC_MAP total length overflow");
  Ok ([byte_of CDC_MAP_VERSION_V1; byte_of (hash_algorithm_id map)] ++ le_bytes 2 0
      ++ le_bytes 4 record_count_u32 ++ le_bytes 2 CDC_MAP_V1_RECORD_SIZE ++ zeros 6
      ++ concat (write_record <$> records map)).

(** [validate_cdc_map_bytes]. *)
Definition validate_cdc_map_bytes (bytes : list byte) (max_records : Z)
    : result CdcError.t unit :=
  (λ _, tt) <$> parse_cdc_map bytes max_records.

(** The loop of [validate_cdc_map]. *)
Fixpoint check_records (rs : list CdcMapRecord) : result CdcError.t unit :=
  match rs with
  | [] => Ok tt
  | r :: rs =>
      if compressed_size r =? 0 then
        Err (CdcError.InvalidLength "CDC_MAP record has zero compressed_size")
      else check_records rs
  end.
(** [validate_cdc_map]. *)
Definition validate_cdc_map (map : CdcMap) (max_records : Z) : result CdcError.t unit :=
  if len (records map) >? max_records then
    Err (CdcError.LimitExceeded "CDC_MAP record count exceeds configured limit")
  else check_records (records map).

(** [verify_cdc_map_record_hash], over the two hash functions. *)
Definition verify_cdc_map_record_hash (sha256 blake3 : list byte → list byte)
    (record : CdcMapRecord) (hash_algorithm_id : Z) (archive_bytes : list byte)
    : result CdcError.t bool :=
  _ ← validate_cdc_map_hash_algo_id hash_algorithm_id;
  end_u64 ← ok_or (checked_add 64 (absolute_offset record) (compressed_size record))
              (CdcError.Overflow "CDC_MAP Absolute_Offset + Compressed_Size overflow");
  start ← ok_or (try_from 64 (absolute_offset record))
            (CdcError.Bounds "CDC_MAP absolute_offset exceeds addressable range");
  fin ← ok_or (try_from 64 end_u64)
          (CdcError.Bounds "CDC_MAP record end offset exceeds addressable range");
  if fin >? len archive_bytes then
    Err (CdcError.Bounds "CDC_MAP record byte range exceeds archive bounds")
  else
    chunk_bytes ← slice_r archive_bytes start fin;
    computed ←
      (if hash_algorithm_id =? 0x30 then Ok (sha256 chunk_bytes)
       else if hash_algorithm_id =? 0x31 then Ok (blake3 chunk_bytes)
       else Err (CdcError.Unsupported
                   "hash algorithm not supported for CDC_MAP verification"));
    Ok (bool_decide (computed = record_hash record)).

(** ** Catalogs in metadata blocks ([sar-core/src/cdc.rs]) *)
Definition TLV_DATA_HASH_BLAKE3 : Z := 0x31.
Definition TLV_CDC_MAP : Z := 0x40.
Definition TLV_CDC_EXT_PROVIDER : Z := 0x41.
Definition TLV_CDC_RESERVED_START : Z := 0x42.
Definition TLV_CDC_RESERVED_END : Z := 0x4E.
Definition TLV_CDC_CUSTOM : Z := 0x4F.

(** [CdcAlgoId::is_literal], [CdcAlgoId::is_recipe_mode]. *)
Definition is_literal (id : Z) : bool := id =? CDC_ALGO_LITERAL.
Definition is_recipe_mode (id : Z) : bool := negb (id =? CDC_ALGO_LITERAL).

(** [validate_cdc_algo_id] of [sar-core]. *)
Definition core_validate_cdc_algo_id (id : Z) : result SarError.t unit :=
  map_err CdcError.to_sar (validate_cdc_algo_id id).

(** [is_cdc_metadata_tlv_type]. *)
Definition is_cdc_metadata_tlv_type (type_id : Z) : bool :=
  (TLV_CDC_MAP <=? type_id) && (type_id <=? TLV_CDC_CUSTOM).

(** [struct CdcExtProviderMetadata]. *)
Record CdcExtProviderMetadata := { uri : list byte }.

(** [parse_cdc_ext_provider_tlv]. *)
Definition parse_cdc_ext_provider_tlv (tlv : Tlv) (limits : ResourceLimits)
    : result SarError.t CdcExtProviderMetadata :=
  if negb (type_id tlv =? TLV_CDC_EXT_PROVIDER) then
    Err (SarError.Unsupported "TLV is not CDC_EXT_PROVIDER (expected type 0x41)")
  else
    _ ← check_cdc_metadata_bytes limits (len (value tlv));
    if negb (Utf8.from_utf8 (value tlv)) then
      Err (SarError.Malformed "CDC_EXT_PROVIDER value must be valid UTF-8")
    else Ok {| uri := value tlv |}.

(** [validate_cdc_metadata_tlv]. *)
Definition validate_cdc_metadata_tlv (tlv : Tlv) (limits : ResourceLimits)
    : result SarError.t unit :=
  if type_id tlv =? TLV_CDC_MAP then
    _ ← check_cdc_metadata_bytes limits (len (value tlv));
    let max_records := max_cdc_chunk_count limits in
    _ ← map_err CdcError.to_sar (parse_cdc_map (value tlv) max_records);
    Ok tt
  else if type_id tlv =? TLV_CDC_EXT_PROVIDER then
    (λ _, tt) <$> parse_cdc_ext_provider_tlv tlv limits
  else if (TLV_CDC_RESERVED_START <=? type_id tlv) && (type_id tlv <=? TLV_CDC_RESERVED_END)
  then Err (SarError.ReservedValue "reserved CDC metadata TLV type")
  else if type_id tlv =? TLV_CDC_CUSTOM then
    _ ← check_cdc_metadata_bytes limits (len (value tlv));
    Ok tt
  else Err (SarError.Unsupported "TLV is not in the CDC metadata registry").

(** [make_cdc_ext_provider_tlv]. *)
Definition make_cdc_ext_provider_tlv (uri : list byte) (limits : ResourceLimits)
    : result SarError.t Tlv :=
  _ ← check_cdc_metadata_bytes limits (len uri);
  Ok {| type_id := TLV_CDC_EXT_PROVIDER; value := uri |}.

(** The loop of [parse_entry_cdc_map]. *)
Fixpoint find_cdc_map (tlvs : list Tlv) (limits : ResourceLimits)
    : result SarError.t (option CdcMap) :=
  match tlvs with
  | [] => Ok None
  | tlv :: tlvs =>
      if type_id tlv =? TLV_CDC_MAP then
        _ ← check_cdc_metadata_bytes limits (len (value tlv));
        let max_records := max_cdc_chunk_count limits in
        map ← map_err CdcError.to_sar (parse_cdc_map (value tlv) max_records);
        Ok (Some map)
      else find_cdc_map tlvs limits
  end.
(** [parse_entry_cdc_map]. *)
Definition parse_entry_cdc_map (tlvs : list Tlv) (limits : ResourceLimits)
    : result SarError.t (option CdcMap) :=
  _ ← check_cdc_metadata_bytes limits 0;
  find_cdc_map tlvs limits.

(** [make_cdc_map_tlv]. *)
Definition make_cdc_map_tlv (map : CdcMap) (limits : ResourceLimits)
    : result SarError.t Tlv :=
  value ← map_err CdcError.to_sar (write_cdc_map map);
  _ ← check_cdc_metadata_bytes limits (len value);
  Ok {| type_id := TLV_CDC_MAP; value := value |}.

(** [validate_recipe_payload]. *)
Definition validate_recipe_payload (payload : list byte) (limits : ResourceLimits)
    : result SarError.t Z :=
  _ ← check_cdc_metadata_bytes limits (len payload);
  if negb (len payload mod CDC_RECIPE_HASH_LEN =? 0) then
    Err (SarError.InvalidLength
           "CDC recipe payload length is not a multiple of the hash size (32)")
  else
    count ← div_r (len payload) CDC_RECIPE_HASH_LEN;
    _ ← check_cdc_chunk_count limits count;
    Ok count.

(** [slice::chunks_exact]: a final piece shorter than [n] is left out. *)
Definition chunks_exact (n : nat) (bs : list byte) : list (list byte) :=
  (λ i, take n (drop (i * n) bs)) <$> seq 0 (length bs / n).
(** [recipe_hashes]. *)
Definition recipe_hashes (payload : list byte) : list (list byte) :=
  chunks_exact (Z.to_nat CDC_RECIPE_HASH_LEN) payload.

(** ** Records *)

(** Values of the Rust types of the fields. *)
Definition record_typed (r : CdcMapRecord) : Prop :=
  len (record_hash r) = 32 ∧ fits 32 (partition_id r) ∧ fits 64 (absolute_offset r)
  ∧ fits 32 (compressed_size r).
Definition map_typed (m : CdcMap) : Prop :=
  fits 8 (hash_algorithm_id m) ∧ Forall record_typed (records m).

Lemma array_ok n bs m : len bs = n → array n bs m = Ok bs.
Proof. intros <-. unfold array. by rewrite Z.eqb_refl. Qed.

Lemma len_write_record r : record_typed r → len (write_record r) = 48.
Proof. intros [Hh _]. unfold write_record. rewrite !len_app, !len_le_bytes, Hh. done. Qed.

(** The four fields of a record of 48 bytes. *)
Lemma parse_record_fields h p a c :
  len h = 32 → len p = 4 → len a = 8 → len c = 4 →
  parse_record (h ++ p ++ a ++ c)
  = Ok {| record_hash := h; partition_id := le_val p; absolute_offset := le_val a;
          compressed_size := le_val c |}.
Proof.
  intros Hh Hp Ha Hc. unfold parse_record.
  assert (Hl : len (h ++ p ++ a ++ c) = 48) by (rewrite !len_app; lia).
  rewrite !slice_r_fits by lia.
  rewrite (slice_prefix h (p ++ a ++ c) 32 (eq_sym Hh)).
  assert (S1 : slice (h ++ p ++ a ++ c) 32 36 = p).
  { replace 36 with (len h + len p) by lia. rewrite <- Hh. apply slice_app_mid. }
  assert (S2 : slice (h ++ p ++ a ++ c) 36 44 = a).
  { replace 44 with (len (h ++ p) + len a) by (rewrite len_app; lia).
    replace 36 with (len (h ++ p)) by (rewrite len_app; lia).
    rewrite app_assoc. apply slice_app_mid. }
  assert (S3 : slice (h ++ p ++ a ++ c) 44 48 = c).
  { rewrite <- Hl. replace 44 with (len (h ++ p ++ a)) by (rewrite !len_app; lia).
    rewrite (app_assoc p a c), (app_assoc h (p ++ a) c). apply slice_app_suffix. }
  rewrite S1, S2, S3.
  cbn [mbind result_bind]. rewrite !array_ok by done. done.
Qed.
Lemma parse_write_record r : record_typed r → parse_record (write_record r) = Ok r.
Proof.
  intros (Hh & Hp & Ha & Hc). unfold write_record.
  rewrite parse_record_fields by (done || by rewrite len_le_bytes).
  rewrite !le_val_bytes by done. by destruct r.
Qed.
(** Every 48 bytes are a record. *)
Lemma record_of_bytes bs : len bs = 48 → ∃ r, record_typed r ∧ bs = write_record r.
Proof.
  intros Hl. destruct (cut_at bs 32) as (h & r1 & -> & Hh); [lia|]. rewrite len_app in Hl.
  destruct (cut_at r1 4) as (p & r2 & -> & Hp); [lia|]. rewrite len_app in Hl.
  destruct (cut_at r2 8) as (a & c & -> & Ha); [lia|]. rewrite len_app in Hl.
  assert (Hc : len c = 4) by lia.
  exists {| record_hash := h; partition_id := le_val p; absolute_offset := le_val a;
            compressed_size := le_val c |}.
  pose proof (le_val_range p) as Rp. pose proof (le_val_range a) as Ra.
  pose proof (le_val_range c) as Rc. rewrite Hp in Rp. rewrite Ha in Ra. rewrite Hc in Rc.
  split; [done|]. unfold write_record. cbn.
  assert (Hb : ∀ n l, len l = Z.of_nat n → le_bytes n (le_val l) = l).
  { intros n l Hn. replace n with (length l) by (unfold len in Hn; lia). apply le_bytes_val. }
  by rewrite (Hb 4%nat p), (Hb 8%nat a), (Hb 4%nat c) by done.
Qed.

Lemma parse_records_ok rs p i :
  Forall record_typed rs → 0 ≤ i → len p = 16 + i * 48 →
  len (p ++ concat (write_record <$> rs)) < 2 ^ 64 →
  parse_records (length rs) i (p ++ concat (write_record <$> rs)) = Ok rs.
Proof.
  intros Hall. revert p i. induction Hall as [|r rs Hr Hall IH]; intros p i Hi Hp Hl; [done|].
  pose proof (len_write_record r Hr) as Hw.
  cbn [length fmap list_fmap concat parse_records] in *.
  set (tl := concat (write_record <$> rs)) in *. pose proof (len_nonneg tl).
  rewrite !len_app in Hl. unfold CDC_MAP_RECORD_LEN, CDC_MAP_HEADER_SIZE.
  rewrite mul_r_fits by lia. cbn [mbind result_bind]. rewrite add_r_fits by lia.
  cbn [mbind result_bind]. rewrite add_r_fits by lia. cbn [mbind result_bind].
  assert (Hs : slice_r (E:=CdcError.t) (p ++ write_record r ++ tl) (16 + i * (32 + 4 + 8 + 4))
                 (16 + i * (32 + 4 + 8 + 4) + (32 + 4 + 8 + 4)) = Ok (write_record r)).
  { apply slice_r_Ok. rewrite !len_app.
    replace (16 + i * (32 + 4 + 8 + 4)) with (len p) by lia.
    replace (32 + 4 + 8 + 4) with (len (write_record r)) by lia.
    rewrite slice_app_mid. pose proof (len_nonneg p). split_and!; (done || lia). }
  rewrite Hs. cbn [mbind result_bind]. rewrite parse_write_record by done.
  cbn [mbind result_bind]. rewrite app_assoc, IH; [done|lia|rewrite len_app; lia|].
  rewrite !len_app. lia.
Qed.

(** A body of a multiple of 48 bytes is a list of records. *)
Lemma records_of_bytes (n : nat) bs :
  len bs = Z.of_nat n * 48 →
  ∃ rs, length rs = n ∧ Forall record_typed rs ∧ bs = concat (write_record <$> rs).
Proof.
  revert bs. induction n as [|n IH]; intros bs Hl.
  { exists []. destruct bs; [done|rewrite len_cons in Hl; pose proof (len_nonneg bs); lia]. }
  destruct (cut_at bs 48) as (a & b & -> & Ha); [lia|]. rewrite len_app in Hl.
  destruct (IH b) as (rs & <- & Hall & ->); [lia|].
  destruct (record_of_bytes a Ha) as (r & Hr & ->). exists (r :: rs).
  split_and!; [done|by constructor|done].
Qed.

(** ** Catalogs *)

(** The header of a catalog with [n] records. *)
Definition map_header (id n : Z) : list byte :=
  [byte_of CDC_MAP_VERSION_V1; byte_of id] ++ le_bytes 2 0 ++ le_bytes 4 n
  ++ le_bytes 2 CDC_MAP_V1_RECORD_SIZE ++ zeros 6.
Lemma len_map_header id n : len (map_header id n) = 16.
Proof. unfold map_header. rewrite !len_app, !len_le_bytes, len_zeros; done. Qed.

Lemma hash_algo_no_panic id : no_panic (validate_cdc_map_hash_algo_id id).
Proof. unfold validate_cdc_map_hash_algo_id. by repeat case_match. Qed.

(** The parser on a header cut into its bytes. *)
Lemma parse_cdc_map_fields b0 b1 b2 b3 b4 b5 b6 b7 b8 b9 res body mx :
  len res = 6 →
  len ([b0; b1; b2; b3; b4; b5; b6; b7; b8; b9] ++ res ++ body) < 2 ^ 64 →
  parse_cdc_map ([b0; b1; b2; b3; b4; b5; b6; b7; b8; b9] ++ res ++ body) mx
  = let n := le_val [b4; b5; b6; b7] in
    if negb (byte_val b0 =? CDC_MAP_VERSION_V1) then
      Err (CdcError.Unsupported
             "CDC_MAP Map_Version not supported (only v1 = 0x01 is defined)")
    else
    _ ← validate_cdc_map_hash_algo_id (byte_val b1);
    if negb (le_val [b2; b3] =? 0) then
      Err (CdcError.Malformed
             "CDC_MAP Flags must be zero for v1; non-zero bits are reserved")
    else if negb (le_val [b8; b9] =? CDC_MAP_V1_RECORD_SIZE) then
      Err (CdcError.Malformed "CDC_MAP Record_Size must be 48 for v1")
    else if Format.any_nonzero res then
      Err (CdcError.Malformed "CDC_MAP Reserved bytes must be zero")
    else if negb (len body =? n * 48) then
      Err (CdcError.Malformed "CDC_MAP TLV Length does not equal 16 + Record_Count × 48")
    else if n >? mx then
      Err (CdcError.LimitExceeded "CDC_MAP record count exceeds configured limit")
    else
    rs ← parse_records (Z.to_nat n) 0
           ([b0; b1; b2; b3; b4; b5; b6; b7; b8; b9] ++ res ++ body);
    Ok {| hash_algorithm_id := byte_val b1; records := rs |}.
Proof.
  intros Hres Hl. set (bytes := [b0; b1; b2; b3; b4; b5; b6; b7; b8; b9] ++ res ++ body) in *.
  assert (Hlen : len bytes = 16 + len body).
  { unfold bytes. rewrite len_app, len_app, Hres. change (len _) with 10 at 1. lia. }
  unfold parse_cdc_map. pose proof (len_nonneg body).
  rewrite (proj2 (Z.ltb_ge _ _)) by (unfold CDC_MAP_HEADER_SIZE; lia).
  change (index_r bytes 0) with (@Ok CdcError.t _ b0).
  change (index_r bytes 1) with (@Ok CdcError.t _ b1).
  change (index_r bytes 2) with (@Ok CdcError.t _ b2).
  change (index_r bytes 3) with (@Ok CdcError.t _ b3).
  change (index_r bytes 4) with (@Ok CdcError.t _ b4).
  change (index_r bytes 5) with (@Ok CdcError.t _ b5).
  change (index_r bytes 6) with (@Ok CdcError.t _ b6).
  change (index_r bytes 7) with (@Ok CdcError.t _ b7).
  change (index_r bytes 8) with (@Ok CdcError.t _ b8).
  change (index_r bytes 9) with (@Ok CdcError.t _ b9). cbn [mbind result_bind].
  dif as E0; [done|]. destruct (validate_cdc_map_hash_algo_id _); [|done..].
  cbn [mbind result_bind]. dif as E1; [done|]. dif as E2; [done|].
  assert (Hs : slice_r (E:=CdcError.t) bytes 10 16 = Ok res).
  { apply slice_r_Ok. split_and!; [|lia..]. symmetry.
    replace 16 with (10 + len res) by lia.
    apply (slice_app_mid [b0; b1; b2; b3; b4; b5; b6; b7; b8; b9] res body). }
  rewrite Hs. cbn [mbind result_bind]. dif as E3; [done|].
  pose proof (le_val_range [b4; b5; b6; b7]) as Hn. change (len _) with 4 in Hn.
  unfold CDC_MAP_RECORD_LEN. rewrite checked_mul_fits by lia. cbn [ok_or mbind result_bind].
  unfold CDC_MAP_HEADER_SIZE. rewrite checked_add_fits by lia. cbn [ok_or mbind result_bind].
  set (n := le_val [b4; b5; b6; b7]) in *.
  replace (len bytes =? n * (32 + 4 + 8 + 4) + 16) with (len body =? n * 48) by lia.
  done.
Qed.

(** The two directions at once: parsing accepts what writing produces. *)
Lemma parse_map_header id rs mx :
  fits 8 id → validate_cdc_map_hash_algo_id id = Ok tt → Forall record_typed rs →
  len rs < 2 ^ 32 → len rs ≤ mx →
  parse_cdc_map (map_header id (len rs) ++ concat (write_record <$> rs)) mx
  = Ok {| hash_algorithm_id := id; records := rs |}.
Proof.
  intros Hid Hv Hall Hn Hmx. set (body := concat (write_record <$> rs)).
  assert (Hb : len body = len rs * 48).
  { unfold body. clear -Hall. induction Hall as [|r rs Hr _ IH]; [done|].
    cbn [fmap list_fmap concat]. rewrite len_app, len_cons, IH, len_write_record by done. lia. }
  pose proof (len_nonneg rs).
  destruct (le_bytes 4 (len rs)) as [|b4 [|b5 [|b6 [|b7 [|? ?]]]]] eqn:E;
    pose proof (length_le_bytes 4 (len rs)) as Hl4; rewrite E in Hl4; try discriminate Hl4.
  assert (Hval : le_val [b4; b5; b6; b7] = len rs) by (rewrite <- E; apply le_val_bytes; cbn; lia).
  assert (Hh : map_header id (len rs) ++ body
    = [byte_of 1; byte_of id; byte_of 0; byte_of 0; b4; b5; b6; b7; byte_of 48; byte_of 0]
      ++ zeros 6 ++ body).
  { unfold map_header. rewrite E. cbn. by rewrite <- app_assoc. }
  assert (H64 : len (map_header id (len rs) ++ body) < 2 ^ 64)
    by (rewrite len_app, len_map_header, Hb; lia).
  rewrite Hh in H64 |- *. rewrite parse_cdc_map_fields by done. cbv zeta.
  rewrite byte_val_of_small by done. change (negb (1 =? CDC_MAP_VERSION_V1)) with false.
  cbv iota. rewrite byte_val_of_small by exact Hid. rewrite Hv. cbn [mbind result_bind].
  change (negb (le_val [byte_of 0; byte_of 0] =? 0)) with false. cbv iota.
  change (negb (le_val [byte_of 48; byte_of 0] =? CDC_MAP_V1_RECORD_SIZE)) with false.
  cbv iota. rewrite (proj2 (Format.any_nonzero_false (zeros 6))) by done.
  rewrite Hval, Hb, Z.eqb_refl. cbn [negb]. dif as E5; [lia|].
  rewrite <- Hh. replace (Z.to_nat (len rs)) with (length rs) by (unfold len; lia).
  unfold body. rewrite parse_records_ok; [done|done|lia|apply len_map_header|].
  fold body. by rewrite Hh.
Qed.

(** Every catalog that parses has this form. *)
Lemma parse_cdc_map_inv bytes mx m :
  len bytes ≤ ISIZE_MAX → parse_cdc_map bytes mx = Ok m →
  map_typed m ∧ validate_cdc_map_hash_algo_id (hash_algorithm_id m) = Ok tt
  ∧ len (records m) < 2 ^ 32 ∧ len (records m) ≤ mx
  ∧ bytes = map_header (hash_algorithm_id m) (len (records m))
            ++ concat (write_record <$> records m).
Proof.
  unfold ISIZE_MAX. intros Hlen H.
  assert (H16 : 16 ≤ len bytes).
  { unfold parse_cdc_map, CDC_MAP_HEADER_SIZE in H. apply guard_Ok in H as [? _]. lia. }
  destruct (cut_at bytes 10) as (hd & tl & -> & Hhd); [lia|].
  destruct hd as [|b0 [|b1 [|b2 [|b3 [|b4 [|b5 [|b6 [|b7 [|b8 [|b9 [|? ?]]]]]]]]]]];
    try (exfalso; unfold len in Hhd; cbn in Hhd; lia).
  rewrite len_app, Hhd in H16. destruct (cut_at tl 6) as (res & body & -> & Hres); [lia|].
  rewrite parse_cdc_map_fields in H by (done || lia). cbv zeta in H.
  apply guard_Ok in H as [Hver H]. apply bind_Ok in H as ([] & Hv & H).
  apply guard_Ok in H as [Hfl H]. apply guard_Ok in H as [Hsz H].
  apply guard_Ok in H as [Hr0 H]. apply guard_Ok in H as [Hbl H].
  apply guard_Ok in H as [Hmx H].
  pose proof (le_val_range [b4; b5; b6; b7]) as Hn. change (len _) with 4 in Hn.
  set (n := le_val [b4; b5; b6; b7]) in *.
  destruct (records_of_bytes (Z.to_nat n) body) as (rs & Hrl & Hall & ->); [lia|].
  assert (Hlr : len rs = n) by (unfold len; lia).
  assert (Hh : [b0; b1; b2; b3; b4; b5; b6; b7; b8; b9] ++ res
               = map_header (byte_val b1) (len rs)).
  { unfold map_header. rewrite Hlr. unfold n.
    rewrite (le_bytes_val [b4; b5; b6; b7] : le_bytes 4 _ = _), byte_of_val.
    apply Format.any_nonzero_false in Hr0. rewrite Hres in Hr0. rewrite Hr0.
    assert (H23 : [b2; b3] = le_bytes 2 0).
    { rewrite <- (le_bytes_val [b2; b3]). f_equal. lia. }
    assert (H89 : [b8; b9] = le_bytes 2 CDC_MAP_V1_RECORD_SIZE).
    { rewrite <- (le_bytes_val [b8; b9]). f_equal. lia. }
    assert (H0 : b0 = byte_of CDC_MAP_VERSION_V1).
    { rewrite <- (byte_of_val b0). f_equal. lia. }
    rewrite <- H23, <- H89, <- H0. done. }
  rewrite app_assoc, Hh in H |- *.
  rewrite <- Hrl, parse_records_ok in H; [|done|lia|apply len_map_header|].
  - injection H as <-. cbn [hash_algorithm_id records]. rewrite Hlr in *.
    split_and!; [split; [apply byte_val_range|done]|done|lia|lia|done].
  - rewrite app_assoc, Hh in Hlen. lia.
Qed.

Lemma write_cdc_map_Ok m bs :
  write_cdc_map m = Ok bs ↔
  validate_cdc_map_hash_algo_id (hash_algorithm_id m) = Ok tt ∧ len (records m) < 2 ^ 32
  ∧ bs = map_header (hash_algorithm_id m) (len (records m))
         ++ concat (write_record <$> records m).
Proof.
  unfold write_cdc_map, CDC_MAP_RECORD_LEN, CDC_MAP_HEADER_SIZE, map_header.
  rewrite <- !app_assoc. pose proof (len_nonneg (records m)) as Hnn. split.
  - intros H. apply bind_Ok in H as ([] & Hv & H).
    apply bind_Ok in H as (n & [-> Hn]%ok_or_Ok%try_from_Some & H).
    apply bind_Ok in H as (? & _ & H). apply bind_Ok in H as (? & _ & <-%Ok_inj). done.
  - intros (Hv & Hn & ->). rewrite Hv. cbn [mbind result_bind]. rewrite try_from_fits by lia.
    cbn [ok_or mbind result_bind]. rewrite checked_mul_fits by lia.
    cbn [ok_or mbind result_bind]. by rewrite checked_add_fits by lia.
Qed.

Lemma parse_cdc_map_no_panic bytes mx :
  len bytes ≤ ISIZE_MAX → no_panic (parse_cdc_map bytes mx).
Proof.
  unfold ISIZE_MAX. intros Hlen. destruct (decide (len bytes < 16)) as [Hlt|Hge].
  { unfold parse_cdc_map, CDC_MAP_HEADER_SIZE. by rewrite (proj2 (Z.ltb_lt _ _)) by lia. }
  destruct (cut_at bytes 10) as (hd & tl & -> & Hhd); [lia|].
  rewrite len_app, Hhd in Hge. destruct (cut_at tl 6) as (res & body & -> & Hres); [lia|].
  destruct hd as [|b0 [|b1 [|b2 [|b3 [|b4 [|b5 [|b6 [|b7 [|b8 [|b9 [|? ?]]]]]]]]]]];
    try (exfalso; unfold len in Hhd; cbn in Hhd; lia).
  rewrite parse_cdc_map_fields by (done || lia). cbv zeta. dif as E0; [done|].
  apply no_panic_bind; [apply hash_algo_no_panic|]. intros _ _. dif as E1; [done|].
  dif as E2; [done|]. dif as E3; [done|]. dif as E4; [done|]. dif as E5; [done|].
  apply negb_false_iff, Z.eqb_eq in E4.
  pose proof (le_val_range [b4; b5; b6; b7]) as Hn. change (len _) with 4 in Hn.
  destruct (records_of_bytes (Z.to_nat (le_val [b4; b5; b6; b7])) body)
    as (rs & <- & Hall & ->); [lia|].
  rewrite app_assoc in Hlen |- *.
  rewrite parse_records_ok; [done|done|lia|rewrite len_app; lia|lia].
Qed.

(** Chunk catalogs are a faithful wire format: parsing a byte string never panics,
    and accepts exactly what [write_cdc_map] produces from a well-typed catalog with at
    most the allowed number of records, returning that catalog. *)
Theorem cdc_map_inverse bytes mx m :
  len bytes ≤ ISIZE_MAX →
  no_panic (parse_cdc_map bytes mx)
  ∧ (parse_cdc_map bytes mx = Ok m
     ↔ map_typed m ∧ len (records m) ≤ mx ∧ write_cdc_map m = Ok bytes).
Proof.
  intros Hlen. split; [by apply parse_cdc_map_no_panic|]. rewrite write_cdc_map_Ok. split.
  - intros H. by apply parse_cdc_map_inv in H as (? & ? & ? & ? & ?).
  - intros ([Hid Hall] & Hmx & Hv & Hn & ->). rewrite parse_map_header by done.
    by destruct m.
Qed.

(** ** Metadata blocks and recipes *)
Lemma find_cdc_map_skip pre tlvs limits :
  Forall (λ t, type_id t ≠ TLV_CDC_MAP) pre →
  find_cdc_map (pre ++ tlvs) limits = find_cdc_map tlvs limits.
Proof.
  induction 1 as [|t pre Ht _ IH]; [done|]. cbn [app find_cdc_map].
  by rewrite (proj2 (Z.eqb_neq _ _)).
Qed.

Lemma chunks_exact_concat (n : nat) bss :
  (0 < n)%nat → Forall (λ b, length b = n) bss → chunks_exact n (concat bss) = bss.
Proof.
  intros Hn Hall. unfold chunks_exact.
  assert (Hl : length (concat bss) = (length bss * n)%nat).
  { induction Hall as [|b bss Hb _ IH]; [done|]. cbn. rewrite length_app, IH, Hb. lia. }
  rewrite Hl, Nat.div_mul by lia. clear Hl.
  induction Hall as [|b bss Hb Hall IH]; [done|]. cbn [length seq fmap list_fmap concat].
  f_equal; [cbn; rewrite <- Hb; apply take_app_length|].
  rewrite <- fmap_S_seq, <- list_fmap_compose. etransitivity; [|apply IH].
  apply list_fmap_ext. intros i x _. cbn. by rewrite <- Hb, <- drop_drop, drop_app_length.
Qed.
Lemma pieces_of (n : nat) (k : nat) (bs : list byte) :
  length bs = (k * n)%nat →
  ∃ bss, bs = concat bss ∧ Forall (λ b, length b = n) bss ∧ length bss = k.
Proof.
  revert bs. induction k as [|k IH]; intros bs Hl.
  { exists []. by destruct bs. }
  destruct (IH (drop n bs)) as (bss & Hd & Hall & Hk); [rewrite length_drop; lia|].
  exists (take n bs :: bss). cbn. rewrite <- Hd, take_drop. split_and!; [done| |by f_equal].
  constructor; [rewrite length_take; lia|done].
Qed.

(** A recipe is accepted exactly when it is a list of hashes within the limits, and
    [recipe_hashes] gives them in order. *)
Lemma recipe_payload_spec payload limits n :
  validate_recipe_payload payload limits = Ok n ↔
  ∃ hashes, payload = concat hashes ∧ Forall (λ h, length h = 32%nat) hashes
    ∧ recipe_hashes payload = hashes ∧ n = len hashes
    ∧ len payload ≤ max_cdc_metadata_bytes limits ∧ n ≤ max_cdc_chunk_count limits.
Proof.
  unfold validate_recipe_payload, CDC_RECIPE_HASH_LEN. split.
  - intros H. apply bind_Ok in H as ([] & Hm%check_cdc_metadata_bytes_ok & H).
    apply guard_Ok in H as [Hmod H]. rewrite div_r_nz in H by lia. cbn [mbind result_bind] in H.
    apply bind_Ok in H as ([] & Hc%check_cdc_chunk_count_ok & <-%Ok_inj).
    apply negb_false_iff, Z.eqb_eq, Z.div_exact in Hmod; [|lia].
    destruct (pieces_of 32 (Z.to_nat (len payload / 32)) payload) as (bss & Heq & Hall & Hk).
    { unfold len in *. pose proof (Z.div_pos (Z.of_nat (length payload)) 32). lia. }
    exists bss. rewrite Heq at 2. split_and!; [done..| | |done|done].
    + by apply (chunks_exact_concat 32); [lia|].
    + unfold len in *. pose proof (Z.div_pos (Z.of_nat (length payload)) 32). lia.
  - intros (bss & Heq & Hall & _ & -> & Hm & Hc).
    assert (Hl : len payload = len bss * 32).
    { rewrite Heq. clear -Hall. induction Hall as [|b bss Hb _ IH]; [done|].
      cbn. rewrite len_app, len_cons, IH. unfold len at 1. rewrite Hb. lia. }
    rewrite (proj2 (check_cdc_metadata_bytes_ok _ _)) by done. cbn [mbind result_bind].
    rewrite Hl, Z_mod_mult. cbn [negb Z.eqb]. rewrite div_r_nz by lia. cbn [mbind result_bind].
    rewrite Z_div_mult by lia. by rewrite (proj2 (check_cdc_chunk_count_ok _ _)) by done.
Qed.

(** A catalog put into a metadata block is found again: the block
    [make_cdc_map_tlv] builds is valid CDC metadata, and [parse_entry_cdc_map] returns
    the catalog whatever other blocks surround it. *)
Theorem cdc_metadata_roundtrip m limits t pre post :
  map_typed m → len (records m) ≤ max_cdc_chunk_count limits →
  make_cdc_map_tlv m limits = Ok t → Forall (λ t', type_id t' ≠ TLV_CDC_MAP) pre →
  validate_cdc_metadata_tlv t limits = Ok tt
  ∧ parse_entry_cdc_map (pre ++ t :: post) limits = Ok (Some m).
Proof.
  intros Ht Hn Hmk Hpre. unfold make_cdc_map_tlv in Hmk.
  apply bind_Ok in Hmk as (v & Hw%map_err_Ok & Hmk).
  apply bind_Ok in Hmk as ([] & Hc & <-%Ok_inj).
  pose proof Hc as Hc'%check_cdc_metadata_bytes_ok.
  assert (Hp : parse_cdc_map v (max_cdc_chunk_count limits) = Ok m).
  { apply write_cdc_map_Ok in Hw as (Hv & Hr & ->). destruct Ht as [Hid Hall].
    rewrite parse_map_header by done. by destruct m. }
  split.
  - unfold validate_cdc_metadata_tlv. cbn [type_id value]. by rewrite Z.eqb_refl, Hc, Hp.
  - unfold parse_entry_cdc_map.
    pose proof (len_nonneg v).
    rewrite (proj2 (check_cdc_metadata_bytes_ok _ 0)) by lia. cbn [mbind result_bind].
    rewrite find_cdc_map_skip by done. cbn [find_cdc_map type_id value].
    by rewrite Z.eqb_refl, Hc, Hp.
Qed.

Section witnesses.
Definition sample_map : CdcMap :=
  {| hash_algorithm_id := 0x31;
     records := [{| record_hash := replicate 32 xab; partition_id := 1;
                    absolute_offset := 4096; compressed_size := 77 |}] |}.
Definition sample_map_bytes : list byte :=
  [x01; x31; x00; x00; x01; x00; x00; x00; x30; x00; x00; x00; x00; x00; x00; x00]
  ++ replicate 32 xab ++ [x01; x00; x00; x00; x00; x10; x00; x00; x00; x00; x00; x00;
                          x4d; x00; x00; x00].

Lemma sample_map_typed : map_typed sample_map.
Proof. split; [done|]. by repeat constructor. Qed.

Lemma cdc_map_inverse_witness :
  no_panic (parse_cdc_map sample_map_bytes 10)
  ∧ (parse_cdc_map sample_map_bytes 10 = Ok sample_map
     ↔ map_typed sample_map ∧ len (records sample_map) ≤ 10
       ∧ write_cdc_map sample_map = Ok sample_map_bytes).
Proof. apply (cdc_map_inverse sample_map_bytes 10 sample_map). by vm_compute. Defined.
Example sample_map_parses : parse_cdc_map sample_map_bytes 10 = Ok sample_map.
Proof. by vm_compute. Qed.

Lemma cdc_metadata_roundtrip_witness :
  validate_cdc_metadata_tlv {| type_id := 0x40; value := sample_map_bytes |} default_limits
    = Ok tt
  ∧ parse_entry_cdc_map
      ([{| type_id := 0x41; value := [x61] |}]
       ++ {| type_id := 0x40; value := sample_map_bytes |} :: [])
      default_limits = Ok (Some sample_map).
Proof.
  apply (cdc_metadata_roundtrip sample_map default_limits);
    [apply sample_map_typed|by vm_compute|by vm_compute|by repeat constructor].
Defined.

(** Verification reads exactly the stored range of the chunk. *)
Example sample_record_hash :
  let r := {| record_hash := [x02; x03]; partition_id := 0; absolute_offset := 1;
              compressed_size := 2 |} in
  verify_cdc_map_record_hash (λ b, b) (λ _, []) r 0x30 [x01; x02; x03; x04] = Ok true
  ∧ verify_cdc_map_record_hash (λ b, b) (λ _, []) r 0x31 [x01; x02; x03; x04] = Ok false
  ∧ verify_cdc_map_record_hash (λ b, b) (λ _, []) r 0x30 [x01; x02]
    = Err (CdcError.Bounds "CDC_MAP record byte range exceeds archive bounds").
Proof. split_and!; by vm_compute. Qed.
End witnesses.

End CdcMap.
