(* ===== verification/Patch.v ===== *)
(** * The registry of patch algorithms

    Models [crates/sar-delta/src/algo.rs]: the algorithm ids of a delta entry, the
    error type the patch codecs share, and the STORE_PATCH codec, whose payload is the
    target itself. *)

From S2P Require Import Prelude.

Module PatchError.
(** [enum PatchError]. *)
Inductive t : Set :=
  | Unsupported (m : string) | ReservedValue (m : string) | PatchFailed (m : string)
  | BaseMissing (m : string) | LimitExceeded (m : string).
End PatchError.

Module Patch.

Definition PATCH_ALGO_STORE_PATCH : Z := 0x00.
Definition PATCH_ALGO_VCDIFF : Z := 0x01.
Definition PATCH_ALGO_BSDIFF : Z := 0x02.
Definition PATCH_ALGO_ZSTD_PATCH : Z := 0x03.
Definition PATCH_ALGO_CUSTOM_MIN : Z := 0xF0.
Definition PATCH_ALGO_CUSTOM_MAX : Z := 0xFF.

(** [enum PatchAlgoId]. *)
Inductive PatchAlgoId : Set := StorePatch | Vcdiff | Bsdiff | ZstdPatch | Custom (id : Z).
#[global] Instance patch_algo_eq_dec : EqDecision PatchAlgoId.
Proof. solve_decision. Defined.

Definition as_u8 (a : PatchAlgoId) : Z :=
  match a with
  | StorePatch => PATCH_ALGO_STORE_PATCH
  | Vcdiff => PATCH_ALGO_VCDIFF
  | Bsdiff => PATCH_ALGO_BSDIFF
  | ZstdPatch => PATCH_ALGO_ZSTD_PATCH
  | Custom id => id
  end.

Definition name (a : PatchAlgoId) : string :=
  match a with
  | StorePatch => "STORE_PATCH"
  | Vcdiff => "VCDIFF"
  | Bsdiff => "BSDIFF"
  | ZstdPatch => "ZSTD_PATCH"
  | Custom _ => "CUSTOM"
  end.

Definition validate_patch_algo_id (id : Z) : result PatchError.t PatchAlgoId :=
  if id =? PATCH_ALGO_STORE_PATCH then Ok StorePatch
  else if id =? PATCH_ALGO_VCDIFF then Ok Vcdiff
  else if id =? PATCH_ALGO_BSDIFF then Ok Bsdiff
  else if id =? PATCH_ALGO_ZSTD_PATCH then Ok ZstdPatch
  else if (PATCH_ALGO_CUSTOM_MIN <=? id) && (id <=? PATCH_ALGO_CUSTOM_MAX)
  then Err (PatchError.Unsupported "CUSTOM patch algorithm not supported")
  else Err (PatchError.ReservedValue "reserved patch algorithm ID").

Definition patch_algo_name (id : Z) : string :=
  if id =? PATCH_ALGO_STORE_PATCH then "STORE_PATCH"
  else if id =? PATCH_ALGO_VCDIFF then "VCDIFF"
  else if id =? PATCH_ALGO_BSDIFF then "BSDIFF"
  else if id =? PATCH_ALGO_ZSTD_PATCH then "ZSTD_PATCH"
  else if (PATCH_ALGO_CUSTOM_MIN <=? id) && (id <=? PATCH_ALGO_CUSTOM_MAX)
  then "custom" else "unknown".

Definition generate_store_patch (target : list byte) (expected_len : Z)
    : result PatchError.t (list byte) :=
  let actual_len := len target in
  if negb (actual_len =? expected_len) then
    Err (PatchError.PatchFailed
           "STORE_PATCH generate: target length does not match expected_len")
  else Ok target.

Definition apply_store_patch (patch_payload : list byte) (expected_len : Z)
    : result PatchError.t (list byte) :=
  let actual_len := len patch_payload in
  if negb (actual_len =? expected_len) then
    Err (PatchError.PatchFailed
           "STORE_PATCH: decoded payload length does not match LFH Uncompressed Size")
  else Ok patch_payload.

(** The registry accepts exactly the codes of the four named algorithms, and the code
    of what it returns is the one it was given, under the same name. *)
Lemma validate_patch_algo_id_spec id a :
  validate_patch_algo_id id = Ok a ↔
  as_u8 a = id ∧ (∀ c, a ≠ Custom c).
Proof.
  unfold validate_patch_algo_id. split.
  - intros H. repeat case_match; simplify_eq; (split; [symmetry; by apply Z.eqb_eq|done]).
  - intros [<- Hc]. destruct a; try done. by destruct (Hc id).
Qed.

(** STORE_PATCH reproduces its target and refuses a wrong length. *)
Lemma store_patch_roundtrip target n p :
  generate_store_patch target n = Ok p ↔ apply_store_patch p n = Ok target ∧ p = target.
Proof.
  unfold generate_store_patch, apply_store_patch.
  destruct (Z.eqb_spec (len target) n) as [E|E]; cbn; split.
  - intros [= <-]. by rewrite (proj2 (Z.eqb_eq _ _) E).
  - by intros [_ ->].
  - done.
  - intros [H ->]. by rewrite (proj2 (Z.eqb_neq _ _) E) in H.
Qed.

End Patch.
