(* ===== verification/Bsdiff.v ===== *)
(** * The SAR BSDIFF v1 patch codec

    Models [crates/sar-delta/src/bsdiff.rs]: the sign-magnitude integers, the decoder
    that applies a patch to a base (its header checks, the loop over the control
    triples and the exact-consumption checks) and the generator. *)

From S2P Require Import Prelude Patch.

Module Bsdiff.
Import PatchError.

Definition SAR_BSDIFF_MAGIC : list byte :=
  byte_of <$> [0x53; 0x41; 0x52; 0x42; 0x53; 0x44; 0x30; 0x31].
Definition BSDIFF_HEADER_SIZE : Z := 32.
Definition BSDIFF_CONTROL_TRIPLE_COUNT : Z := 1.
Definition BSDIFF_CONTROL_ENTRY_COUNT : Z := 3.
Definition BSDIFF_CONTROL_VALUE_SIZE : Z := 8.
Definition BSDIFF_SINGLE_TRIPLE_CONTROL_BYTES : Z :=
  BSDIFF_CONTROL_ENTRY_COUNT * BSDIFF_CONTROL_VALUE_SIZE.

(** [struct BsdiffLimits]. *)
Record BsdiffLimits := {
  max_patch_size : Z; max_control_bytes : Z; max_diff_bytes : Z; max_extra_bytes : Z;
  max_control_triples : Z; max_target_size : Z }.

Definition default_limits : BsdiffLimits :=
  {| max_patch_size := 512 * 1024 * 1024; max_control_bytes := 64 * 1024 * 1024;
     max_diff_bytes := 1024 * 1024 * 1024; max_extra_bytes := 1024 * 1024 * 1024;
     max_control_triples := 4000000; max_target_size := 1024 * 1024 * 1024 |}.

Definition unlimited : BsdiffLimits :=
  {| max_patch_size := U64_MAX; max_control_bytes := U64_MAX; max_diff_bytes := U64_MAX;
     max_extra_bytes := U64_MAX; max_control_triples := USIZE_MAX;
     max_target_size := U64_MAX |}.

(** [i64::checked_add], [u64::try_from(i64)] and [i64::try_from] of an unsigned value. *)
Definition checked_add_i64 (a b : Z) : option Z :=
  if (- 2 ^ 63 <=? a + b) && (a + b <? 2 ^ 63) then Some (a + b) else None.
Definition u64_of_i64 (a : Z) : option Z := if 0 <=? a then Some a else None.
Definition i64_of_u64 (a : Z) : option Z := try_from 63 a.

Definition decode_bsdiff_int (bytes : list byte) : result PatchError.t Z :=
  if negb (len bytes =? 8) then Err (PatchFailed "BSDIFF: integer field is not 8 bytes") else
  b0 ← index_r bytes 0; b1 ← index_r bytes 1; b2 ← index_r bytes 2; b3 ← index_r bytes 3;
  b4 ← index_r bytes 4; b5 ← index_r bytes 5; b6 ← index_r bytes 6; b7 ← index_r bytes 7;
  let magnitude :=
    le_val [b0; b1; b2; b3; b4; b5; b6; byte_of (Z.land (byte_val b7) 0x7F)] in
  let negative := negb (Z.land (byte_val b7) 0x80 =? 0) in
  if magnitude >? 2 ^ 63 - 1
  then Err (PatchFailed "BSDIFF: integer magnitude overflows i64") else
  value ← ok_or (i64_of_u64 magnitude) (PatchFailed "BSDIFF: integer magnitude overflows i64");
  Ok (if negative then - value else value).

(** [unsigned_abs], [to_le_bytes] and the sign bit of the last byte. *)
Definition encode_bsdiff_int (v : Z) : list byte :=
  let magnitude := Z.abs v in
  let sign_bit := if v <? 0 then 0x80 else 0x00 in
  let bytes := le_bytes 8 magnitude in
  alter (λ b, byte_of (Z.lor (Z.land (byte_val b) 0x7F) sign_bit)) 7%nat bytes.

(** The variables the decoder loop updates. *)
Record ApplyState := {
  target : list byte; old_pos : Z; new_pos : Z; diff_pos : Z; extra_pos : Z }.

(** [base[old_byte_pos]], zero behind the base. *)
Definition old_byte_at (base : list byte) (old_byte_pos : Z) : result PatchError.t byte :=
  if old_byte_pos <? 0 then Err (PatchFailed "BSDIFF: base seek before offset 0")
  else match try_from 64 old_byte_pos with
       | Some old_idx => if old_idx <? len base then index_r base old_idx else Ok x00
       | None => Ok x00
       end.

(** [for j in 0..d_len_usize]: the diff step of a triple. *)
Fixpoint diff_loop (base diff_data : list byte) (old_pos diff_pos new_pos : Z) (js : list Z)
    (target : list byte) : result PatchError.t (list byte) :=
  match js with
  | [] => Ok target
  | j :: js =>
      diff_idx ← ok_or (checked_add 64 diff_pos j) (PatchFailed "BSDIFF: diff index overflow");
      new_idx ← ok_or (checked_add 64 new_pos j) (PatchFailed "BSDIFF: output index overflow");
      j_i64 ← ok_or (i64_of_u64 j) (PatchFailed "BSDIFF: j index exceeds i64");
      old_byte_pos ← ok_or (checked_add_i64 old_pos j_i64)
                           (PatchFailed "BSDIFF: base index overflow");
      old_byte ← old_byte_at base old_byte_pos;
      d ← index_r diff_data diff_idx;
      target ← copy_at_r target new_idx [byte_of (byte_val d + byte_val old_byte)];
      diff_loop base diff_data old_pos diff_pos new_pos js target
  end.

(** The body of the loop over the control triples. *)
Definition triple_step (base diff_data extra_data : list byte) (diff_len extra_len new_size : Z)
    (triple : list byte) (st : ApplyState) : result PatchError.t ApplyState :=
  t1 ← slice_r triple 0 8; d_len_raw ← decode_bsdiff_int t1;
  t2 ← slice_r triple 8 16; e_len_raw ← decode_bsdiff_int t2;
  t3 ← slice_r triple 16 24; seek_adj ← decode_bsdiff_int t3;
  if d_len_raw <? 0
  then Err (PatchFailed "BSDIFF: negative diff_len in control triple") else
  if e_len_raw <? 0
  then Err (PatchFailed "BSDIFF: negative extra_len in control triple") else
  d_len ← ok_or (u64_of_i64 d_len_raw)
                (PatchFailed "BSDIFF: invalid diff_len in control triple");
  e_len ← ok_or (u64_of_i64 e_len_raw)
                (PatchFailed "BSDIFF: invalid extra_len in control triple");
  new_after_diff ← ok_or (checked_add 64 (new_pos st) d_len)
                         (PatchFailed "BSDIFF: output position overflow");
  if new_after_diff >? new_size
  then Err (PatchFailed "BSDIFF: output exceeds New_File_Size during diff step") else
  diff_end ← ok_or (checked_add 64 (diff_pos st) d_len)
                   (PatchFailed "BSDIFF: diff block position overflow");
  if diff_end >? diff_len then Err (PatchFailed "BSDIFF: Diff Block overread") else
  d_len_usize ← ok_or (try_from 64 d_len) (PatchFailed "BSDIFF: diff_len exceeds usize");
  diff_pos_usize ← ok_or (try_from 64 (diff_pos st))
                         (PatchFailed "BSDIFF: diff position exceeds usize");
  new_pos_usize ← ok_or (try_from 64 (new_pos st))
                        (PatchFailed "BSDIFF: output position exceeds usize");
  tgt ← diff_loop base diff_data (old_pos st) diff_pos_usize new_pos_usize
          (seqZ 0 d_len_usize) (target st);
  old ← ok_or (checked_add_i64 (old_pos st) d_len_raw)
              (PatchFailed "BSDIFF: old_pos overflow in diff step");
  new_after_extra ← ok_or (checked_add 64 new_after_diff e_len)
                          (PatchFailed "BSDIFF: output position overflow");
  if new_after_extra >? new_size
  then Err (PatchFailed "BSDIFF: output exceeds New_File_Size during extra step") else
  extra_end ← ok_or (checked_add 64 (extra_pos st) e_len)
                    (PatchFailed "BSDIFF: extra block position overflow");
  if extra_end >? extra_len then Err (PatchFailed "BSDIFF: Extra Block overread") else
  extra_pos_usize ← ok_or (try_from 64 (extra_pos st))
                          (PatchFailed "BSDIFF: extra position exceeds usize");
  extra_end_usize ← ok_or (try_from 64 extra_end)
                          (PatchFailed "BSDIFF: extra end exceeds usize");
  new_pos_usize ← ok_or (try_from 64 new_after_diff)
                        (PatchFailed "BSDIFF: output position exceeds usize");
  new_after_extra_usize ← ok_or (try_from 64 new_after_extra)
                                (PatchFailed "BSDIFF: output end exceeds usize");
  dst ← slice_r tgt new_pos_usize new_after_extra_usize;
  src ← slice_r extra_data extra_pos_usize extra_end_usize;
  if negb (len src =? len dst) then Panic else
  tgt ← copy_at_r tgt new_pos_usize src;
  old ← ok_or (checked_add_i64 old seek_adj)
              (PatchFailed "BSDIFF: old_pos overflow in seek step");
  if old <? 0 then Err (PatchFailed "BSDIFF: base seek before offset 0") else
  Ok {| target := tgt; old_pos := old; new_pos := new_after_extra; diff_pos := diff_end;
        extra_pos := extra_end |}.

(** [for triple_idx in 0..n_triples]. *)
Fixpoint triples_loop (base ctrl_data diff_data extra_data : list byte)
    (diff_len extra_len new_size : Z) (idx : list Z) (st : ApplyState)
    : result PatchError.t ApplyState :=
  match idx with
  | [] => Ok st
  | triple_idx :: idx =>
      triple_offset ← ok_or (checked_mul 64 triple_idx BSDIFF_SINGLE_TRIPLE_CONTROL_BYTES)
                            (PatchFailed "BSDIFF: control triple offset overflow");
      triple_end ← ok_or (checked_add 64 triple_offset BSDIFF_SINGLE_TRIPLE_CONTROL_BYTES)
                         (PatchFailed "BSDIFF: control triple end overflow");
      if triple_end >? len ctrl_data
      then Err (PatchFailed "BSDIFF: malformed or truncated control triple") else
      triple ← slice_r ctrl_data triple_offset triple_end;
      st ← triple_step base diff_data extra_data diff_len extra_len new_size triple st;
      triples_loop base ctrl_data diff_data extra_data diff_len extra_len new_size idx st
  end.

(** The exact-consumption checks behind the loop. *)
Definition finish (new_size diff_len extra_len : Z) (st : ApplyState)
    : result PatchError.t (list byte) :=
  if negb (new_pos st =? new_size)
  then Err (PatchFailed "BSDIFF: output shorter than New_File_Size after all triples") else
  if negb (diff_pos st =? diff_len)
  then Err (PatchFailed "BSDIFF: trailing unused Diff Block bytes") else
  if negb (extra_pos st =? extra_len)
  then Err (PatchFailed "BSDIFF: trailing unused Extra Block bytes") else
  Ok (target st).

Definition apply_bsdiff (base patch : list byte) (expected_target_size : Z)
    (limits : BsdiffLimits) : result PatchError.t (list byte) :=
  patch_len ← ok_or (try_from 64 (len patch))
                    (LimitExceeded "BSDIFF: patch length exceeds u64");
  if patch_len >? max_patch_size limits
  then Err (LimitExceeded "BSDIFF: patch payload exceeds max_patch_size limit") else
  if len patch <? BSDIFF_HEADER_SIZE
  then Err (PatchFailed "BSDIFF: patch too short for header") else
  magic ← slice_r patch 0 (len SAR_BSDIFF_MAGIC);
  if negb (bool_decide (magic = SAR_BSDIFF_MAGIC))
  then Err (PatchFailed "BSDIFF: invalid magic (expected SARBSD01)") else
  let ctrl_len_start := len SAR_BSDIFF_MAGIC in
  let diff_len_start := ctrl_len_start + BSDIFF_CONTROL_VALUE_SIZE in
  let new_size_start := diff_len_start + BSDIFF_CONTROL_VALUE_SIZE in
  let header_end := new_size_start + BSDIFF_CONTROL_VALUE_SIZE in
  f1 ← slice_r patch ctrl_len_start diff_len_start; ctrl_len_raw ← decode_bsdiff_int f1;
  f2 ← slice_r patch diff_len_start new_size_start; diff_len_raw ← decode_bsdiff_int f2;
  f3 ← slice_r patch new_size_start header_end; new_size_raw ← decode_bsdiff_int f3;
  if ctrl_len_raw <? 0 then Err (PatchFailed "BSDIFF: negative Control_Block_Length") else
  if diff_len_raw <? 0 then Err (PatchFailed "BSDIFF: negative Diff_Block_Length") else
  if new_size_raw <? 0 then Err (PatchFailed "BSDIFF: negative New_File_Size") else
  ctrl_len ← ok_or (u64_of_i64 ctrl_len_raw)
                   (PatchFailed "BSDIFF: invalid Control_Block_Length");
  diff_len ← ok_or (u64_of_i64 diff_len_raw)
                   (PatchFailed "BSDIFF: invalid Diff_Block_Length");
  new_size ← ok_or (u64_of_i64 new_size_raw) (PatchFailed "BSDIFF: invalid New_File_Size");
  if negb (new_size =? expected_target_size)
  then Err (PatchFailed "BSDIFF: New_File_Size does not match LFH Uncompressed Size") else
  if new_size >? max_target_size limits
  then Err (LimitExceeded "BSDIFF: target size exceeds max_target_size limit") else
  if ctrl_len >? max_control_bytes limits
  then Err (LimitExceeded "BSDIFF: Control Block exceeds max_control_bytes limit") else
  if diff_len >? max_diff_bytes limits
  then Err (LimitExceeded "BSDIFF: Diff Block exceeds max_diff_bytes limit") else
  ctrl_start ← ok_or (try_from 64 BSDIFF_HEADER_SIZE)
                     (PatchFailed "BSDIFF: header size exceeds u64");
  diff_start ← ok_or (checked_add 64 ctrl_start ctrl_len)
                     (PatchFailed "BSDIFF: block offset overflow");
  extra_start ← ok_or (checked_add 64 diff_start diff_len)
                      (PatchFailed "BSDIFF: block offset overflow");
  if extra_start >? patch_len
  then Err (PatchFailed "BSDIFF: patch too short (diff/extra blocks truncated)") else
  extra_len ← ok_or (checked_sub patch_len extra_start)
                    (PatchFailed "BSDIFF: block offset underflow");
  if extra_len >? max_extra_bytes limits
  then Err (LimitExceeded "BSDIFF: Extra Block exceeds max_extra_bytes limit") else
  if negb (ctrl_len mod BSDIFF_SINGLE_TRIPLE_CONTROL_BYTES =? 0)
  then Err (PatchFailed "BSDIFF: Control Block length not a multiple of 24") else
  let triple_count_u64 := ctrl_len / BSDIFF_SINGLE_TRIPLE_CONTROL_BYTES in
  n_triples ← ok_or (try_from 64 triple_count_u64)
                    (LimitExceeded "BSDIFF: control triple count exceeds usize");
  if n_triples >? max_control_triples limits
  then Err (LimitExceeded "BSDIFF: control triple count exceeds max_control_triples limit") else
  ctrl_start_usize ← ok_or (try_from 64 ctrl_start)
                           (PatchFailed "BSDIFF: control start offset overflow");
  diff_start_usize ← ok_or (try_from 64 diff_start)
                           (PatchFailed "BSDIFF: diff start offset overflow");
  extra_start_usize ← ok_or (try_from 64 extra_start)
                            (PatchFailed "BSDIFF: extra start offset overflow");
  ctrl_data ← slice_r patch ctrl_start_usize diff_start_usize;
  diff_data ← slice_r patch diff_start_usize extra_start_usize;
  extra_data ← slice_r patch extra_start_usize (len patch);
  target_len ← ok_or (try_from 64 new_size)
                     (LimitExceeded "BSDIFF: target size exceeds platform limits");
  st ← triples_loop base ctrl_data diff_data extra_data diff_len extra_len new_size
         (seqZ 0 n_triples)
         {| target := zeros target_len; old_pos := 0; new_pos := 0; diff_pos := 0;
            extra_pos := 0 |};
  finish new_size diff_len extra_len st.

(** [for i in 0..diff_step { patch.push(target[i].wrapping_sub(base[i])) }]. *)
Fixpoint diff_block (base target : list byte) (idx : list Z) : result PatchError.t (list byte) :=
  match idx with
  | [] => Ok []
  | i :: idx =>
      t ← index_r target i;
      b ← index_r base i;
      rest ← diff_block base target idx;
      Ok (byte_of (byte_val t - byte_val b) :: rest)
  end.

Definition generate_bsdiff_patch (base target : list byte) (limits : BsdiffLimits)
    : result PatchError.t (list byte) :=
  target_size ← ok_or (try_from 64 (len target))
                      (LimitExceeded "BSDIFF generate: target length exceeds u64");
  if target_size >? max_target_size limits
  then Err (LimitExceeded "BSDIFF generate: target length exceeds max_target_size limit") else
  let diff_step := Z.min (len base) (len target) in
  extra_step ← ok_or (checked_sub (len target) diff_step)
                     (LimitExceeded "BSDIFF generate: extra_step underflow");
  diff_step_u64 ← ok_or (try_from 64 diff_step)
                        (LimitExceeded "BSDIFF generate: diff_step exceeds u64");
  extra_step_u64 ← ok_or (try_from 64 extra_step)
                         (LimitExceeded "BSDIFF generate: extra_step exceeds u64");
  if diff_step_u64 >? max_diff_bytes limits
  then Err (LimitExceeded "BSDIFF generate: diff block exceeds max_diff_bytes limit") else
  if extra_step_u64 >? max_extra_bytes limits
  then Err (LimitExceeded "BSDIFF generate: extra block exceeds max_extra_bytes limit") else
  if max_control_triples limits <? BSDIFF_CONTROL_TRIPLE_COUNT
  then Err (LimitExceeded
              "BSDIFF generate: max_control_triples limit is too low (requires at least 1)") else
  if max_control_bytes limits <? BSDIFF_SINGLE_TRIPLE_CONTROL_BYTES
  then Err (LimitExceeded "BSDIFF generate: control block exceeds max_control_bytes limit") else
  patch_size ← ok_or
    (n ← checked_add 64 BSDIFF_HEADER_SIZE BSDIFF_SINGLE_TRIPLE_CONTROL_BYTES;
     n ← checked_add 64 n diff_step; checked_add 64 n extra_step)
    (LimitExceeded "BSDIFF generate: total patch size overflow");
  patch_size_u64 ← ok_or (try_from 64 patch_size)
                         (LimitExceeded "BSDIFF generate: total patch size exceeds u64");
  if patch_size_u64 >? max_patch_size limits
  then Err (LimitExceeded "BSDIFF generate: total patch size exceeds max_patch_size limit") else
  diff_step_i64 ← ok_or (i64_of_u64 diff_step)
                        (LimitExceeded "BSDIFF generate: diff_step exceeds i64");
  extra_step_i64 ← ok_or (i64_of_u64 extra_step)
                         (LimitExceeded "BSDIFF generate: extra_step exceeds i64");
  target_len_i64 ← ok_or (i64_of_u64 (len target))
                         (LimitExceeded "BSDIFF generate: target length exceeds i64");
  diffs ← diff_block base target (seqZ 0 diff_step);
  extras ← slice_r target diff_step (len target);
  Ok (SAR_BSDIFF_MAGIC ++ encode_bsdiff_int BSDIFF_SINGLE_TRIPLE_CONTROL_BYTES
      ++ encode_bsdiff_int diff_step_i64 ++ encode_bsdiff_int target_len_i64
      ++ encode_bsdiff_int diff_step_i64 ++ encode_bsdiff_int extra_step_i64
      ++ encode_bsdiff_int 0 ++ diffs ++ extras).

(** ** Sign-magnitude integers *)

(** The integer eight bytes denote: the top bit is the sign. *)
Definition int_of (bs : list byte) : Z :=
  let m := le_val bs mod 2 ^ 63 in if le_val bs <? 2 ^ 63 then m else - m.

Lemma int_of_last p b :
  len p = 7 →
  int_of (p ++ [b])
  = let m := le_val p + 2 ^ 56 * (byte_val b mod 128) in
    if byte_val b <? 128 then m else - m.
Proof.
  intros Hp. unfold int_of. rewrite le_val_app, Hp.
  replace (le_val [b]) with (byte_val b) by (unfold le_val; lia).
  pose proof (le_val_range p) as Hr. rewrite Hp in Hr. pose proof (byte_val_range b) as Hb.
  change (256 ^ 7) with (2 ^ 56) in *. cbv zeta.
  pose proof (Z.mod_pos_bound (byte_val b) 128 ltac:(lia)).
  replace ((le_val p + 2 ^ 56 * byte_val b) mod 2 ^ 63)
    with (le_val p + 2 ^ 56 * (byte_val b mod 128)).
  - destruct (Z.ltb_spec (byte_val b) 128), (Z.ltb_spec (le_val p + 2 ^ 56 * byte_val b) (2 ^ 63));
      lia.
  - pose proof (Z.div_mod (byte_val b) 128 ltac:(lia)) as E.
    apply (Z.mod_unique_pos _ _ (byte_val b / 128)); lia.
Qed.

Lemma decode_bsdiff_int_ok bs : len bs = 8 → decode_bsdiff_int bs = Ok (int_of bs).
Proof.
  intros Hl. destruct bs as [|b0 [|b1 [|b2 [|b3 [|b4 [|b5 [|b6 [|b7 [|]]]]]]]]];
    try (unfold len in Hl; cbn [length] in Hl; lia).
  pose proof (int_of_last [b0; b1; b2; b3; b4; b5; b6] b7 eq_refl) as Hi. cbn [app] in Hi.
  rewrite Hi. cbv zeta. clear Hi.
  pose proof (le_val_app [b0; b1; b2; b3; b4; b5; b6] [byte_of (Z.land (byte_val b7) 127)]) as Hm.
  pose proof (le_val_range [b0; b1; b2; b3; b4; b5; b6]) as Hr.
  change (256 ^ len [b0; b1; b2; b3; b4; b5; b6]) with (2 ^ 56) in *. cbn [app] in Hm.
  set (lo := le_val [b0; b1; b2; b3; b4; b5; b6]) in *. clearbody lo.
  pose proof (Z.mod_pos_bound (byte_val b7) 128 ltac:(lia)) as Hb.
  replace (le_val [byte_of (Z.land (byte_val b7) 127)]) with (byte_val b7 mod 128) in Hm.
  2:{ rewrite land_7F. unfold le_val. rewrite byte_val_of_small; lia. }
  unfold decode_bsdiff_int.
  rewrite Hl. change (negb (8 =? 8)) with false. cbv iota.
  do 8 (erewrite index_r_cons; [|lia|reflexivity]; cbn [mbind result_bind]).
  cbv zeta. rewrite Hm.
  destruct (Z.gtb_spec (lo + 2 ^ 56 * (byte_val b7 mod 128)) (2 ^ 63 - 1)); [lia|].
  unfold i64_of_u64. rewrite try_from_fits by lia. cbn [ok_or mbind result_bind].
  rewrite land_80. by destruct (byte_val b7 <? 128).
Qed.

Lemma len_encode_bsdiff_int v : len (encode_bsdiff_int v) = 8.
Proof. unfold encode_bsdiff_int, len. by rewrite length_alter, length_le_bytes. Qed.

Lemma int_of_encode v : - 2 ^ 63 < v < 2 ^ 63 → int_of (encode_bsdiff_int v) = v.
Proof.
  intros Hv. unfold encode_bsdiff_int. cbv zeta.
  rewrite (le_bytes_add 7 1). set (p := le_bytes 7 (Z.abs v)).
  assert (Hp : len p = 7) by (unfold p; by rewrite len_le_bytes).
  change (le_bytes 1 ?z) with [byte_of z].
  rewrite alter_app_r_alt by (unfold p; rewrite length_le_bytes; lia).
  unfold p at 2. rewrite length_le_bytes. cbn [Nat.sub alter list_alter].
  rewrite int_of_last by done. cbv zeta. unfold p. rewrite le_val_le_bytes.
  change (256 ^ Z.of_nat 7) with (2 ^ 56).
  pose proof (Z.div_mod (Z.abs v) (2 ^ 56) ltac:(lia)) as E.
  pose proof (Z.mod_pos_bound (Z.abs v) (2 ^ 56) ltac:(lia)).
  set (q := Z.abs v / 2 ^ 56) in *.
  assert (Hq : 0 ≤ q < 128) by lia.
  rewrite land_7F, !byte_val_of, !(Z.mod_small q) by lia.
  destruct (Z.ltb_spec v 0).
  - replace (Z.lor q 128) with (q + 128).
    2:{ apply Z.add_nocarry_lor. apply Z.bits_inj'. intros n Hn.
        rewrite Z.land_spec, Z.bits_0. change 128 with (2 ^ 7). rewrite Z.pow2_bits_eqb by lia.
        destruct (Z.eqb_spec 7 n) as [<-|]; [|by rewrite andb_false_r].
        rewrite Z.bits_above_log2, ?andb_false_l; [done|lia|].
        destruct (decide (q = 0)) as [->|]; [cbn; lia|]. apply Z.log2_lt_pow2; lia. }
    rewrite (Z.mod_small (q + 128)) by lia.
    destruct (Z.ltb_spec (q + 128) 128); [lia|].
    rewrite <- (Z.mod_unique_pos (q + 128) 128 1 q) by lia. lia.
  - rewrite Z.lor_0_r, !(Z.mod_small q) by lia.
    destruct (Z.ltb_spec q 128); lia.
Qed.

Lemma int_of_range bs : - 2 ^ 63 < int_of bs < 2 ^ 63.
Proof.
  unfold int_of. pose proof (Z.mod_pos_bound (le_val bs) (2 ^ 63) ltac:(lia)).
  cbv zeta. case_match; lia.
Qed.

(** ** What a patch means

    A control triple [(d, e, s)] takes [d] bytes of the diff block added to the base
    from the current offset, then [e] bytes of the extra block, then moves the offset
    by [s]. *)
Definition base_at (base : list byte) (i : Z) : byte := default x00 (base !! Z.to_nat i).

Fixpoint add_bytes (base : list byte) (old : Z) (ds : list byte) : list byte :=
  match ds with
  | [] => []
  | d :: ds => byte_of (byte_val d + byte_val (base_at base old)) :: add_bytes base (old + 1) ds
  end.

Definition triple_fits (old : Z) (t : Z * Z * Z) (diff extra : list byte) : bool :=
  let '(d, e, s) := t in
  (0 <=? d) && (d <=? len diff) && (0 <=? e) && (e <=? len extra)
  && (old + d <? 2 ^ 63) && (0 <=? old + d + s) && (old + d + s <? 2 ^ 63).

(** The target the triples describe; every diff and extra byte has to be used. *)
Fixpoint patched (base : list byte) (ts : list (Z * Z * Z)) (old : Z) (diff extra : list byte)
    : option (list byte) :=
  match ts with
  | [] => if (len diff =? 0) && (len extra =? 0) then Some [] else None
  | (d, e, s) :: ts =>
      if triple_fits old (d, e, s) diff extra then
        rest ← patched base ts (old + d + s) (drop (Z.to_nat d) diff) (drop (Z.to_nat e) extra);
        Some (add_bytes base old (take (Z.to_nat d) diff) ++ take (Z.to_nat e) extra ++ rest)
      else None
  end.

Lemma len_add_bytes base old ds : len (add_bytes base old ds) = len ds.
Proof. revert old. induction ds as [|d ds IH]; intros old; [done|]. cbn. by rewrite !len_cons, IH. Qed.

Lemma old_byte_at_ok base i : 0 ≤ i < 2 ^ 64 → old_byte_at base i = Ok (base_at base i).
Proof.
  intros Hi. unfold old_byte_at, base_at.
  destruct (Z.ltb_spec i 0); [lia|]. rewrite try_from_fits by lia.
  destruct (Z.ltb_spec i (len base)) as [H1|H1].
  - unfold index_r. rewrite (proj2 (Z.leb_le 0 i)) by lia.
    destruct (lookup_lt_is_Some_2 base (Z.to_nat i)) as [x Hx]; [unfold len in H1; lia|].
    by rewrite Hx.
  - rewrite lookup_ge_None_2 by (unfold len in H1; lia). done.
Qed.

(** One iteration of the diff loop. *)
Lemma diff_loop_step base dpre d ds old dpos npos j js out x rest :
  0 ≤ old < 2 ^ 63 → 0 ≤ j → dpos + j = len dpre → npos + j = len out →
  len dpre < 2 ^ 63 → len out < 2 ^ 63 → 0 ≤ dpos → 0 ≤ npos →
  diff_loop base (dpre ++ d :: ds) old dpos npos (j :: js) (out ++ x :: rest)
  = if old + j <? 2 ^ 63
    then diff_loop base (dpre ++ d :: ds) old dpos npos js
           ((out ++ [byte_of (byte_val d + byte_val (base_at base (old + j)))]) ++ rest)
    else Err (PatchFailed "BSDIFF: base index overflow").
Proof.
  intros Ho Hj Hd Hn H1 H2 H3 H4. cbn [diff_loop].
  rewrite (checked_add_fits 64 dpos j), (checked_add_fits 64 npos j) by lia.
  unfold i64_of_u64. rewrite (try_from_fits 63 j) by lia. cbn [ok_or mbind result_bind].
  unfold checked_add_i64. destruct (Z.ltb_spec (old + j) (2 ^ 63)).
  2:{ by rewrite andb_false_r. }
  rewrite (proj2 (Z.leb_le (- 2 ^ 63) (old + j))) by lia. cbn [andb ok_or mbind result_bind].
  rewrite old_byte_at_ok by lia. cbn [mbind result_bind].
  rewrite (index_r_mid dpre) by done. cbn [mbind result_bind].
  rewrite Hn, copy_at_r_fits by (pose proof (len_nonneg rest); pose proof (len_nonneg out);
    autorewrite with len; lia).
  cbn [mbind result_bind]. by rewrite copy_at_one.
Qed.

(** The in-place diff loop writes [add_bytes], or stops where the base offset leaves
    the range of [i64]. *)
Lemma diff_loop_spec base ds dpre dpost old dpos npos j out rest :
  0 ≤ old < 2 ^ 63 → 0 ≤ j → dpos + j = len dpre → npos + j = len out → 0 ≤ dpos → 0 ≤ npos →
  len ds ≤ len rest → len dpre + len ds < 2 ^ 63 → len out + len rest < 2 ^ 63 →
  let r := diff_loop base (dpre ++ ds ++ dpost) old dpos npos (seqZ j (len ds)) (out ++ rest) in
  if old + j + len ds <=? 2 ^ 63
  then r = Ok (out ++ add_bytes base (old + j) ds ++ drop (length ds) rest)
  else old + j ≤ 2 ^ 63 → ∃ e, r = Err e.
Proof.
  revert dpre j out rest. induction ds as [|d ds IH]; intros dpre j out rest Ho Hj Hd Hn H3 H4 Hl H1 H2;
    cbv zeta.
  { rewrite len_nil in *. destruct (Z.leb_spec (old + j + 0) (2 ^ 63)); [done|]. lia. }
  pose proof (len_nonneg ds). rewrite len_cons in *.
  destruct rest as [|x rest]; [rewrite len_nil in Hl; lia|]. rewrite len_cons in *.
  rewrite seqZ_S by lia. cbn [app].
  rewrite diff_loop_step by (done || lia).
  specialize (IH (dpre ++ [d]) (j + 1)
    (out ++ [byte_of (byte_val d + byte_val (base_at base (old + j)))]) rest).
  autorewrite with len in IH.
  specialize (IH ltac:(lia) ltac:(lia) ltac:(lia) ltac:(lia) ltac:(lia) ltac:(lia) ltac:(lia)
    ltac:(lia) ltac:(lia)).
  rewrite <- (app_assoc dpre) in IH. cbn [app] in IH. cbv zeta in IH.
  replace (old + (j + 1) + len ds) with (old + j + (1 + len ds)) in IH by lia.
  destruct (Z.leb_spec (old + j + (1 + len ds)) (2 ^ 63)).
  - rewrite (proj2 (Z.ltb_lt _ _)) by lia. rewrite IH. cbn. rewrite <- !app_assoc. cbn.
    by rewrite Z.add_assoc.
  - intros Hoj. destruct (Z.ltb_spec (old + j) (2 ^ 63)); [|by eexists]. apply IH. lia.
Qed.

Lemma i64_add_fits a b :
  - 2 ^ 63 ≤ a + b → checked_add_i64 a b = if a + b <? 2 ^ 63 then Some (a + b) else None.
Proof. intros. unfold checked_add_i64. by rewrite (proj2 (Z.leb_le _ _)). Qed.
(** A result that is decided by a condition: the value when it holds, an error (and no
    panic) when it does not. *)
Definition decided {A} (c : bool) (r : result PatchError.t A) (a : A) : Prop :=
  if c then r = Ok a else ∃ e, r = Err e.

(** The check at hand failed, so the condition is false. *)
Ltac refused :=
  match goal with |- decided ?c _ _ => replace c with false by lia; by eexists end.

Lemma triple_step_spec base dpre dl epre el t1 t2 t3 out rest old :
  len t1 = 8 → len t2 = 8 → len t3 = 8 → 0 ≤ old < 2 ^ 63 →
  len dpre + len dl < 2 ^ 63 → len epre + len el < 2 ^ 63 → len out + len rest < 2 ^ 63 →
  let d := int_of t1 in let e := int_of t2 in let s := int_of t3 in
  decided (triple_fits old (d, e, s) dl el && (d + e <=? len rest))
    (triple_step base (dpre ++ dl) (epre ++ el) (len dpre + len dl) (len epre + len el)
       (len out + len rest) (t1 ++ t2 ++ t3)
       {| target := out ++ rest; old_pos := old; new_pos := len out; diff_pos := len dpre;
          extra_pos := len epre |})
    {| target := (out ++ add_bytes base old (take (Z.to_nat d) dl) ++ take (Z.to_nat e) el)
                 ++ drop (Z.to_nat (d + e)) rest;
       old_pos := old + d + s; new_pos := len out + d + e; diff_pos := len dpre + d;
       extra_pos := len epre + e |}.
Proof.
  intros L1 L2 L3 Ho Hd He Hn d e s. unfold triple_fits, triple_step.
  cbn [target old_pos new_pos diff_pos extra_pos].
  pose proof (int_of_range t1). pose proof (int_of_range t2). pose proof (int_of_range t3).
  pose proof (len_nonneg dpre). pose proof (len_nonneg dl). pose proof (len_nonneg epre).
  pose proof (len_nonneg el). pose proof (len_nonneg out). pose proof (len_nonneg rest).
  rewrite (slice_r_fits _ 0 8), (slice_r_fits _ 8 16), (slice_r_fits _ 16 24)
    by (autorewrite with len; lia).
  rewrite (slice_prefix t1) by lia.
  replace (slice (t1 ++ t2 ++ t3) 8 16) with t2
    by (rewrite <- (slice_app_mid t1 t2 t3) at 1; f_equal; lia).
  replace (slice (t1 ++ t2 ++ t3) 16 24) with t3
    by (rewrite app_assoc, <- (slice_app_suffix (t1 ++ t2) t3) at 1;
        f_equal; rewrite ?len_app; lia).
  cbn [mbind result_bind]. rewrite !decode_bsdiff_int_ok by done. cbn [mbind result_bind].
  fold d e s. fold d e s in H, H0, H1.
  destruct (Z.ltb_spec d 0); [refused|]. destruct (Z.ltb_spec e 0); [refused|].
  unfold u64_of_i64. rewrite (proj2 (Z.leb_le 0 d)), (proj2 (Z.leb_le 0 e)) by lia.
  cbn [ok_or mbind result_bind]. rewrite (checked_add_fits 64 (len out) d) by lia.
  cbn [ok_or mbind result_bind].
  destruct (Z.gtb_spec (len out + d) (len out + len rest)); [refused|].
  rewrite (checked_add_fits 64 (len dpre) d) by lia. cbn [ok_or mbind result_bind].
  destruct (Z.gtb_spec (len dpre + d) (len dpre + len dl)); [refused|].
  rewrite (try_from_fits 64 d), (try_from_fits 64 (len dpre)), (try_from_fits 64 (len out)) by lia.
  cbn [ok_or mbind result_bind].
  destruct (cut_at dl d ltac:(lia)) as (ds & dpost & -> & Hds).
  pose proof (diff_loop_spec base ds dpre dpost old (len dpre) (len out) 0 out rest) as Hl.
  rewrite len_app in *. rewrite Hds in Hl.
  specialize (Hl ltac:(lia) ltac:(lia) ltac:(lia) ltac:(lia) ltac:(lia) ltac:(lia) ltac:(lia)
    ltac:(lia) ltac:(lia)). cbv zeta in Hl. rewrite Z.add_0_r in Hl.
  destruct (Z.leb_spec (old + d) (2 ^ 63)).
  2:{ destruct Hl as [e' ->]; [lia|]. cbn [mbind result_bind]. refused. }
  rewrite Hl. cbn [mbind result_bind]. clear Hl.
  rewrite (i64_add_fits old d) by lia.
  destruct (Z.ltb_spec (old + d) (2 ^ 63)); [|refused]. cbn [ok_or mbind result_bind].
  rewrite (checked_add_fits 64 (len out + d) e) by lia. cbn [ok_or mbind result_bind].
  destruct (Z.gtb_spec (len out + d + e) (len out + len rest)); [refused|].
  rewrite (checked_add_fits 64 (len epre) e) by lia. cbn [ok_or mbind result_bind].
  destruct (Z.gtb_spec (len epre + e) (len epre + len el)); [refused|].
  rewrite (try_from_fits 64 (len epre)), (try_from_fits 64 (len epre + e)),
    (try_from_fits 64 (len out + d)), (try_from_fits 64 (len out + d + e)) by lia.
  cbn [ok_or mbind result_bind].
  destruct (cut_at el e ltac:(lia)) as (es & epost & -> & Hes).
  rewrite <- Hes, slice_app_mid_r. cbn [mbind result_bind].
  rewrite app_assoc. set (p := out ++ add_bytes base old ds).
  assert (Hp : len p = len out + d) by (unfold p; rewrite len_app, len_add_bytes; lia).
  assert (Hdr : len (drop (length ds) rest) = len rest - d)
    by (unfold len in *; rewrite length_drop; lia).
  rewrite slice_r_fits by (rewrite ?len_app; lia). cbn [mbind result_bind].
  rewrite len_slice, <- Hp by (rewrite ?len_app; lia).
  replace (negb _) with false by lia. rewrite copy_at_r_fits by (rewrite ?len_app; lia).
  cbn [mbind result_bind]. unfold checked_add_i64.
  rewrite len_app in *. cbn [andb].
  destruct (Z.leb_spec (- 2 ^ 63) (old + d + s)), (Z.ltb_spec (old + d + s) (2 ^ 63));
    cbn [andb ok_or mbind result_bind]; try refused.
  destruct (Z.ltb_spec (old + d + s) 0); [refused|].
  replace (_ && _) with true by lia. cbn [decided]. f_equal. f_equal; [|lia..].
  rewrite <- Hds, !take_len_app, (app_assoc out). fold p.
  rewrite copy_at_app, drop_drop, app_assoc by lia. do 2 f_equal. unfold len. lia.
Qed.

(** The control block as byte triples, and the integers they denote. *)
Definition byte_triple : Type := list byte * list byte * list byte.
Definition triple_bytes (t : byte_triple) : list byte := let '(t1, t2, t3) := t in t1 ++ t2 ++ t3.
Definition triple_ints (t : byte_triple) : Z * Z * Z :=
  let '(t1, t2, t3) := t in (int_of t1, int_of t2, int_of t3).
Definition triple_typed (t : byte_triple) : Prop :=
  let '(t1, t2, t3) := t in len t1 = 8 ∧ len t2 = 8 ∧ len t3 = 8.
Definition control (ts : list byte_triple) : list byte := concat (triple_bytes <$> ts).

Lemma len_control ts : Forall triple_typed ts → len (control ts) = 24 * len ts.
Proof.
  unfold control. induction 1 as [|[[t1 t2] t3] ts (L1 & L2 & L3) _ IH]; [done|].
  cbn. rewrite !len_app, len_cons, IH. lia.
Qed.
(** Whether the decoder accepts: the triples fit and their output has the right size. *)
Definition accepts (o : option (list byte)) (n : Z) : bool :=
  match o with Some t => len t =? n | None => false end.

Lemma triples_loop_spec base ts k cpre dpre dl epre el out rest old :
  Forall triple_typed ts → len cpre = 24 * k → 0 ≤ k → 0 ≤ old < 2 ^ 63 →
  len cpre + len (control ts) < 2 ^ 63 →
  len dpre + len dl < 2 ^ 63 → len epre + len el < 2 ^ 63 → len out + len rest < 2 ^ 63 →
  let o := patched base (triple_ints <$> ts) old dl el in
  decided (accepts o (len rest))
    (triples_loop base (cpre ++ control ts) (dpre ++ dl) (epre ++ el) (len dpre + len dl)
       (len epre + len el) (len out + len rest) (seqZ k (len ts))
       {| target := out ++ rest; old_pos := old; new_pos := len out; diff_pos := len dpre;
          extra_pos := len epre |}
     ≫= finish (len out + len rest) (len dpre + len dl) (len epre + len el))
    (out ++ default [] o).
Proof.
  intros Hts. revert k cpre dpre dl epre el out rest old.
  induction Hts as [|[[t1 t2] t3] ts (L1 & L2 & L3) Hts IH];
    intros k cpre dpre dl epre el out rest old Hc Hk Ho Hcl Hd He Hn;
    pose proof (len_nonneg dl); pose proof (len_nonneg el); pose proof (len_nonneg rest);
    cbv zeta.
  { cbn [fmap list_fmap triples_loop patched mbind result_bind].
    change (seqZ k _) with (@nil Z). cbn [triples_loop mbind result_bind].
    unfold finish. cbn [target new_pos diff_pos extra_pos].
    destruct (Z.eqb_spec (len out) (len out + len rest)); cbn [negb].
    2:{ destruct (_ && _); cbn [accepts]; rewrite ?len_nil; refused. }
    destruct (Z.eqb_spec (len dpre) (len dpre + len dl)); cbn [negb].
    2:{ rewrite (proj2 (Z.eqb_neq (len dl) 0)) by lia. by eexists. }
    destruct (Z.eqb_spec (len epre) (len epre + len el)); cbn [negb].
    2:{ rewrite (proj2 (Z.eqb_neq (len el) 0)), andb_false_r by lia. by eexists. }
    replace (_ && _) with true by lia. cbn [accepts].
    destruct rest as [|x rest]; [done|]. rewrite len_cons in *. pose proof (len_nonneg rest). lia. }
  change (control ((t1, t2, t3) :: ts)) with ((t1 ++ t2 ++ t3) ++ control ts) in *.
  pose proof (len_nonneg (control ts)). pose proof (len_nonneg ts).
  rewrite !len_app, len_control in Hcl by done.
  rewrite len_cons, seqZ_S by lia. cbn [triples_loop].
  unfold BSDIFF_SINGLE_TRIPLE_CONTROL_BYTES, BSDIFF_CONTROL_ENTRY_COUNT, BSDIFF_CONTROL_VALUE_SIZE.
  change (3 * 8) with 24.
  rewrite (checked_mul_fits 64 k 24) by lia. cbn [ok_or mbind result_bind].
  rewrite (checked_add_fits 64 (k * 24) 24) by lia. cbn [ok_or mbind result_bind].
  destruct (Z.gtb_spec (k * 24 + 24) (len (cpre ++ (t1 ++ t2 ++ t3) ++ control ts)));
    [rewrite !len_app in *; lia|].
  replace (k * 24 + 24) with (len cpre + len (t1 ++ t2 ++ t3)) by (rewrite !len_app; lia).
  replace (k * 24) with (len cpre) by lia. rewrite slice_app_mid_r. cbn [mbind result_bind].
  pose proof (triple_step_spec base dpre dl epre el t1 t2 t3 out rest old
    L1 L2 L3 Ho Hd He Hn) as Hst.
  cbn [fmap list_fmap triple_ints patched]. fold (fmap triple_ints ts).
  set (d := int_of t1) in *. set (e := int_of t2) in *. set (s := int_of t3) in *.
  cbv zeta in Hst. destruct (triple_fits old (d, e, s) dl el) eqn:Hf.
  2:{ destruct Hst as [er ->]. by eexists. }
  assert (Hf' : 0 ≤ d ≤ len dl ∧ 0 ≤ e ≤ len el ∧ 0 ≤ old + d + s < 2 ^ 63)
    by (unfold triple_fits in Hf; lia). clear Hf. destruct Hf' as (Fd & Fe & Fs).
  destruct (len_take_drop dl d Fd) as [Td Dd]. destruct (len_take_drop el e Fe) as [Te De].
  specialize (IH (k + 1) (cpre ++ t1 ++ t2 ++ t3) (dpre ++ take (Z.to_nat d) dl)
    (drop (Z.to_nat d) dl) (epre ++ take (Z.to_nat e) el) (drop (Z.to_nat e) el)
    (out ++ add_bytes base old (take (Z.to_nat d) dl) ++ take (Z.to_nat e) el)
    (drop (Z.to_nat (d + e)) rest) (old + d + s)).
  set (o := patched base _ _ _ _) in *. clearbody o.
  destruct (Z.leb_spec (d + e) (len rest)).
  - cbn [andb decided] in Hst. rewrite Hst. cbn [mbind result_bind]. clear Hst.
    destruct (len_take_drop rest (d + e) ltac:(lia)) as [_ Dr].
    revert IH. rewrite <- (app_assoc dpre), <- (app_assoc epre), <- (app_assoc cpre), !take_drop.
    rewrite !len_app, len_add_bytes, len_control, Td, Te, Dd, De, Dr by done. intros IH.
    specialize (IH ltac:(lia) ltac:(lia) ltac:(lia) ltac:(lia) ltac:(lia) ltac:(lia) ltac:(lia)).
    replace (len dpre + d + (len dl - d)) with (len dpre + len dl) in IH by lia.
    replace (len epre + e + (len el - e)) with (len epre + len el) in IH by lia.
    replace (len out + (d + e) + (len rest - (d + e))) with (len out + len rest) in IH by lia.
    replace (len out + (d + e)) with (len out + d + e) in IH by lia.
    destruct o as [t|]; cbn -[decided] in IH |- *; [|exact IH].
    rewrite !len_app, len_add_bytes, Td, Te.
    replace (d + (e + len t) =? len rest) with (len t =? len rest - (d + e)) by lia.
    set (a := add_bytes _ _ _) in *. set (b := take _ el) in *.
    replace (out ++ a ++ b ++ t) with ((out ++ a ++ b) ++ t) by (by rewrite <- !app_assoc).
    exact IH.
  - rewrite andb_false_r in Hst. destruct Hst as [er ->].
    destruct o as [t|]; cbn -[decided]; [|by eexists].
    rewrite !len_app, len_add_bytes, Td, Te. pose proof (len_nonneg t). refused.
Qed.

(** ** The layout of a patch *)

(** A patch of the given blocks, within the limits, for a target of [size] bytes. *)
Definition bsdiff_layout (limits : BsdiffLimits) (size : Z) (patch : list byte)
    (ts : list byte_triple) (diff extra : list byte) : Prop :=
  ∃ c d n, patch = SAR_BSDIFF_MAGIC ++ c ++ d ++ n ++ control ts ++ diff ++ extra
    ∧ len c = 8 ∧ len d = 8 ∧ len n = 8 ∧ Forall triple_typed ts
    ∧ int_of c = 24 * len ts ∧ int_of d = len diff ∧ int_of n = size
    ∧ len patch ≤ max_patch_size limits ∧ 24 * len ts ≤ max_control_bytes limits
    ∧ len diff ≤ max_diff_bytes limits ∧ len extra ≤ max_extra_bytes limits
    ∧ len ts ≤ max_control_triples limits ∧ 0 ≤ size ≤ max_target_size limits.

Lemma control_of_bytes (k : nat) bs :
  len bs = 24 * Z.of_nat k → ∃ ts, Forall triple_typed ts ∧ bs = control ts ∧ len ts = Z.of_nat k.
Proof.
  revert bs. induction k as [|k IH]; intros bs Hl.
  { exists []. destruct bs; [done|]. unfold len in Hl. cbn in Hl. lia. }
  destruct (cut_at bs 8 ltac:(lia)) as (t1 & r1 & -> & L1). rewrite len_app in Hl.
  destruct (cut_at r1 8 ltac:(lia)) as (t2 & r2 & -> & L2). rewrite len_app in Hl.
  destruct (cut_at r2 8 ltac:(lia)) as (t3 & r3 & -> & L3). rewrite len_app in Hl.
  destruct (IH r3 ltac:(lia)) as (ts & Hts & -> & Hlen).
  exists ((t1, t2, t3) :: ts). split; [by constructor|].
  split; [|rewrite len_cons; lia]. unfold control. cbn. by rewrite <- !app_assoc.
Qed.

Lemma len_magic : len SAR_BSDIFF_MAGIC = 8.
Proof. done. Qed.

(** The position of a field in a patch given by its blocks. *)
Ltac layout := rewrite ?len_app, ?len_magic, <- ?app_assoc; first [assumption | reflexivity | lia].

(** On a patch of the right layout the decoder runs the triples. *)
Lemma apply_bsdiff_layout base patch size limits ts diff extra :
  bsdiff_layout limits size patch ts diff extra → len patch < 2 ^ 63 →
  let o := patched base (triple_ints <$> ts) 0 diff extra in
  decided (accepts o size) (apply_bsdiff base patch size limits) (default [] o).
Proof.
  intros (c & d & n & Hp & Lc & Ld & Ln & Hts & Ic & Id & In & M1 & M2 & M3 & M4 & M5 & M6) Hl o.
  pose proof (len_control ts Hts) as Lt. pose proof (len_nonneg ts). pose proof (len_nonneg diff).
  pose proof (len_nonneg extra).
  assert (Lp : len patch = 32 + 24 * len ts + len diff + len extra)
    by (subst patch; rewrite !len_app, len_magic; lia).
  pose proof (int_of_range n) as Rn.
  unfold apply_bsdiff, BSDIFF_HEADER_SIZE, BSDIFF_SINGLE_TRIPLE_CONTROL_BYTES,
    BSDIFF_CONTROL_ENTRY_COUNT, BSDIFF_CONTROL_VALUE_SIZE.
  rewrite len_magic. change (3 * 8) with 24. cbv zeta.
  rewrite (try_from_fits 64 (len patch)) by lia. cbn [ok_or mbind result_bind].
  destruct (Z.gtb_spec (len patch) (max_patch_size limits)); [lia|].
  destruct (Z.ltb_spec (len patch) 32); [lia|].
  rewrite (slice_at [] SAR_BSDIFF_MAGIC (c ++ d ++ n ++ control ts ++ diff ++ extra) _ 0)
    by layout.
  cbn [mbind result_bind]. rewrite bool_decide_eq_true_2 by done. cbn [negb].
  rewrite (slice_at SAR_BSDIFF_MAGIC c (d ++ n ++ control ts ++ diff ++ extra) _ 8) by layout.
  cbn [mbind result_bind]. rewrite decode_bsdiff_int_ok by done. cbn [mbind result_bind].
  rewrite (slice_at (SAR_BSDIFF_MAGIC ++ c) d (n ++ control ts ++ diff ++ extra) _ (8 + 8))
    by layout.
  cbn [mbind result_bind]. rewrite decode_bsdiff_int_ok by done. cbn [mbind result_bind].
  rewrite (slice_at (SAR_BSDIFF_MAGIC ++ c ++ d) n (control ts ++ diff ++ extra) _ (8 + 8 + 8))
    by layout.
  cbn [mbind result_bind]. rewrite decode_bsdiff_int_ok by done. cbn [mbind result_bind].
  rewrite Ic, Id, In in *. unfold u64_of_i64.
  rewrite !(proj2 (Z.leb_le 0 _)) by lia. rust_ok.
  rewrite (Z.mul_comm 24), Z.mod_mul, Z.div_mul by lia. rust_ok.
  rewrite (slice_at (SAR_BSDIFF_MAGIC ++ c ++ d ++ n) (control ts) (diff ++ extra) _ 32) by layout.
  rust_ok.
  rewrite (slice_at (SAR_BSDIFF_MAGIC ++ c ++ d ++ n ++ control ts) diff extra
    _ (32 + len ts * 24)) by layout. rust_ok.
  rewrite (slice_at (SAR_BSDIFF_MAGIC ++ c ++ d ++ n ++ control ts ++ diff) extra []
    _ (32 + len ts * 24 + len diff)) by (rewrite ?app_nil_r; layout). rust_ok.
  pose proof (triples_loop_spec base ts 0 [] [] diff [] extra [] (zeros size) 0 Hts) as Hloop.
  rewrite !len_nil, !len_zeros in Hloop by lia. cbn [app] in Hloop. rewrite !Z.add_0_l in Hloop.
  replace (len patch - (32 + len ts * 24 + len diff)) with (len extra) by lia.
  apply Hloop; lia.
Qed.

(** The next check of the header: it refuses the patch, or it passed. *)
Ltac refuse :=
  match goal with |- (∃ e, (if ?b then Err _ else _) = Err e) ∨ _ =>
    let D := fresh "D" in destruct b eqn:D; [left; by eexists|] end.

(** Conversely the header checks refuse every patch of another layout. *)
Lemma apply_bsdiff_layout_or_err base patch size limits :
  len patch < 2 ^ 63 →
  (∃ e, apply_bsdiff base patch size limits = Err e)
  ∨ ∃ ts diff extra, bsdiff_layout limits size patch ts diff extra.
Proof.
  intros Hl. unfold apply_bsdiff, BSDIFF_HEADER_SIZE, BSDIFF_SINGLE_TRIPLE_CONTROL_BYTES,
    BSDIFF_CONTROL_ENTRY_COUNT, BSDIFF_CONTROL_VALUE_SIZE.
  rewrite len_magic. change (3 * 8) with 24. cbv zeta.
  pose proof (len_nonneg patch). rewrite (try_from_fits 64 (len patch)) by lia.
  cbn [ok_or mbind result_bind].
  do 2 refuse.
  destruct (cut_at patch 8 ltac:(lia)) as (m & r & Hp & Lm).
  destruct (cut_at r 8 ltac:(subst; rewrite len_app in *; lia)) as (c & r1 & -> & Lc).
  destruct (cut_at r1 8 ltac:(subst; rewrite !len_app in *; lia)) as (d & r2 & -> & Ld).
  destruct (cut_at r2 8 ltac:(subst; rewrite !len_app in *; lia)) as (n & body & -> & Ln).
  rewrite (slice_at [] m (c ++ d ++ n ++ body) _ 0) by layout. cbn [mbind result_bind].
  destruct (bool_decide_reflect (m = SAR_BSDIFF_MAGIC)) as [->|]; [|left; by eexists].
  cbn [negb].
  rewrite (slice_at SAR_BSDIFF_MAGIC c (d ++ n ++ body) _ 8) by layout.
  cbn [mbind result_bind]. rewrite decode_bsdiff_int_ok by done. cbn [mbind result_bind].
  rewrite (slice_at (SAR_BSDIFF_MAGIC ++ c) d (n ++ body) _ (8 + 8)) by layout.
  cbn [mbind result_bind]. rewrite decode_bsdiff_int_ok by done. cbn [mbind result_bind].
  rewrite (slice_at (SAR_BSDIFF_MAGIC ++ c ++ d) n body _ (8 + 8 + 8)) by layout.
  cbn [mbind result_bind]. rewrite decode_bsdiff_int_ok by done. cbn [mbind result_bind].
  pose proof (int_of_range c). pose proof (int_of_range d). pose proof (int_of_range n).
  do 3 refuse. unfold u64_of_i64. rewrite !(proj2 (Z.leb_le 0 _)) by lia. rust_ok.
  do 4 refuse. rust_ok.
  destruct (checked_add 64 (32 + int_of c) (int_of d)) as [x|] eqn:Hx; [|left; by eexists].
  apply checked_add_Some in Hx as [-> Hx]. rust_ok.
  assert (Hq : 0 ≤ int_of c / 24 ≤ int_of c)
    by (split; [apply Z.div_pos|apply Z.div_le_upper_bound]; lia).
  refuse. rust_ok. do 2 refuse. rust_ok. refuse. right.
  assert (Hc : int_of c = 24 * (int_of c / 24)) by (pose proof (Z.div_mod (int_of c) 24 ltac:(lia)); lia).
  assert (Lb : len body = len patch - 32) by (subst patch; rewrite !len_app, len_magic; lia).
  destruct (cut_at body (int_of c) ltac:(lia)) as (ctrl & r & -> & Lctrl). rewrite len_app in Lb.
  destruct (cut_at r (int_of d) ltac:(lia)) as (diff & extra & -> & Ldiff). rewrite len_app in Lb.
  destruct (control_of_bytes (Z.to_nat (int_of c / 24)) ctrl) as (ts & Hts & -> & Lts); [lia|].
  exists ts, diff, extra, c, d, n. split_and!; try done; lia.
Qed.

(** ** The generator *)

Lemma byte_sub_add t b : byte_of (byte_val (byte_of (byte_val t - byte_val b)) + byte_val b) = t.
Proof.
  apply byte_val_inj. rewrite !byte_val_of, Z.add_mod_idemp_l by lia.
  rewrite Z.sub_add. apply Z.mod_small, byte_val_range.
Qed.

(** The diff block undoes what the decoder adds. *)
Lemma diff_block_ok base target (k : nat) i :
  0 ≤ i → i + Z.of_nat k ≤ len base → i + Z.of_nat k ≤ len target →
  ∃ ds, diff_block base target (seqZ i (Z.of_nat k)) = Ok ds ∧ len ds = Z.of_nat k
    ∧ add_bytes base i ds = slice target i (i + Z.of_nat k).
Proof.
  revert i. induction k as [|k IH]; intros i Hi Hb Ht.
  { exists []. rewrite Z.add_0_r, slice_empty. done. }
  replace (Z.of_nat (S k)) with (1 + Z.of_nat k) in * by lia.
  rewrite seqZ_S by lia. cbn [diff_block].
  destruct (lookup_lt_is_Some_2 target (Z.to_nat i)) as [t Et]; [unfold len in Ht; lia|].
  destruct (lookup_lt_is_Some_2 base (Z.to_nat i)) as [b Eb]; [unfold len in Hb; lia|].
  rewrite (index_r_cons target i t), (index_r_cons base i b) by done. cbn [mbind result_bind].
  destruct (IH (i + 1)) as (ds & -> & Hl & Ha); [lia..|]. cbn [mbind result_bind].
  eexists. split; [done|]. split; [rewrite len_cons; lia|].
  cbn [add_bytes]. unfold base_at. rewrite Eb. cbn [from_option Datatypes.id].
  rewrite byte_sub_add, Ha, (slice_cons target i (Z.of_nat k) t) by (done || lia). done.
Qed.

(** The limits a generated patch has to respect. *)
Definition generate_fits (base target : list byte) (limits : BsdiffLimits) : Prop :=
  len target ≤ max_target_size limits ∧ len base `min` len target ≤ max_diff_bytes limits
  ∧ len target - len base `min` len target ≤ max_extra_bytes limits
  ∧ 1 ≤ max_control_triples limits ∧ 24 ≤ max_control_bytes limits
  ∧ 56 + len target ≤ max_patch_size limits.

(** What the generator returns, and that the limits alone decide whether it does. *)
Lemma generate_bsdiff_patch_spec base target limits :
  len base ≤ ISIZE_MAX → 56 + len target ≤ ISIZE_MAX →
  let d := len base `min` len target in
  ∃ ds, len ds = d ∧ add_bytes base 0 ds = slice target 0 d ∧
  let p := SAR_BSDIFF_MAGIC ++ encode_bsdiff_int 24 ++ encode_bsdiff_int d
           ++ encode_bsdiff_int (len target) ++ encode_bsdiff_int d
           ++ encode_bsdiff_int (len target - d) ++ encode_bsdiff_int 0 ++ ds
           ++ slice target d (len target) in
  (generate_fits base target limits → generate_bsdiff_patch base target limits = Ok p)
  ∧ (¬ generate_fits base target limits →
     ∃ e, generate_bsdiff_patch base target limits = Err e).
Proof.
  intros Hb Ht d. unfold ISIZE_MAX in Hb, Ht.
  pose proof (len_nonneg base). pose proof (len_nonneg target).
  destruct (diff_block_ok base target (Z.to_nat d) 0) as (ds & Hds & Hl & Ha); [lia..|].
  rewrite Z2Nat.id in Hds, Hl, Ha by lia. exists ds. do 2 (split; [done|]). intros p.
  unfold generate_bsdiff_patch, generate_fits, i64_of_u64, BSDIFF_HEADER_SIZE,
    BSDIFF_SINGLE_TRIPLE_CONTROL_BYTES, BSDIFF_CONTROL_ENTRY_COUNT, BSDIFF_CONTROL_VALUE_SIZE,
    BSDIFF_CONTROL_TRIPLE_COUNT. change (3 * 8) with 24. fold d. cbv zeta.
  split; intros Hf.
  - rust_ok. rewrite Hds. rust_ok. by rewrite slice_r_fits by lia.
  - rust_ok. repeat (dif as D; [by eexists|]; revert D).
    intros. destruct Hf. lia.
Qed.

(** The decoder is total, and what it returns has the announced size. *)
Lemma apply_bsdiff_total base patch size limits :
  len patch ≤ ISIZE_MAX →
  (∃ e, apply_bsdiff base patch size limits = Err e)
  ∨ ∃ t, apply_bsdiff base patch size limits = Ok t ∧ len t = size.
Proof.
  unfold ISIZE_MAX. intros Hl.
  destruct (apply_bsdiff_layout_or_err base patch size limits ltac:(lia))
    as [?|(ts & diff & extra & Hlay)]; [by left|].
  pose proof (apply_bsdiff_layout base patch size limits ts diff extra Hlay ltac:(lia)) as H.
  destruct (patched _ _ _ _ _) as [u|]; cbn in H; [|by left].
  destruct (Z.eqb_spec (len u) size); [right; by exists u|by left].
Qed.

(** (C36) Applying a BSDIFF patch, whatever its bytes: [apply_bsdiff] never panics, and it
    returns [t] exactly when the patch is a header, a control block of byte triples, a
    diff block and an extra block, all within the limits, whose triples, read as
    operations on the base, use up both blocks and spell out [t], of the announced
    size.  So the loop with its five positions and its in-place buffer computes the
    meaning of the triples. *)
Theorem bsdiff_apply_spec base patch size limits :
  len patch ≤ ISIZE_MAX →
  no_panic (apply_bsdiff base patch size limits)
  ∧ ∀ t, apply_bsdiff base patch size limits = Ok t ↔
      ∃ ts diff extra, bsdiff_layout limits size patch ts diff extra
        ∧ patched base (triple_ints <$> ts) 0 diff extra = Some t ∧ len t = size.
Proof.
  unfold ISIZE_MAX. intros Hl.
  assert (Hok : ∀ ts diff extra t, bsdiff_layout limits size patch ts diff extra →
    apply_bsdiff base patch size limits = Ok t ↔
    patched base (triple_ints <$> ts) 0 diff extra = Some t ∧ len t = size).
  { intros ts diff extra t Hlay.
    pose proof (apply_bsdiff_layout base patch size limits ts diff extra Hlay ltac:(lia)) as H.
    destruct (patched _ _ _ _ _) as [u|]; cbn in H; [|destruct H as [e ->]; naive_solver].
    destruct (Z.eqb_spec (len u) size); [rewrite H|destruct H as [e ->]]; naive_solver. }
  destruct (apply_bsdiff_layout_or_err base patch size limits ltac:(lia))
    as [[e He]|(ts & diff & extra & Hlay)].
  - rewrite He. split; [done|]. intros t. split; [done|].
    intros (ts & diff & extra & Hlay & H). apply (Hok _ _ _ _ Hlay) in H. congruence.
  - pose proof (apply_bsdiff_layout base patch size limits ts diff extra Hlay ltac:(lia)) as H.
    split.
    + unfold decided in H. destruct (accepts _ _); [by rewrite H|by destruct H as [e ->]].
    + intros t. split; [|naive_solver]. intros Ht. exists ts, diff, extra.
      split; [done|]. by apply (Hok _ _ _ _ Hlay).
Qed.

(** Round trip of the BSDIFF codec: for every base and target the generator either
    refuses because one of the limits is exceeded, or returns a patch of 56 bytes more
    than the target, and the decoder turns the base and that patch into the target. *)
Theorem bsdiff_roundtrip base target limits :
  len base ≤ ISIZE_MAX → 56 + len target ≤ ISIZE_MAX →
  (generate_fits base target limits →
     ∃ p, generate_bsdiff_patch base target limits = Ok p ∧ len p = 56 + len target
       ∧ apply_bsdiff base p (len target) limits = Ok target)
  ∧ (¬ generate_fits base target limits →
     ∃ e, generate_bsdiff_patch base target limits = Err e).
Proof.
  intros Hb Ht. destruct (generate_bsdiff_patch_spec base target limits Hb Ht)
    as (ds & Lds & Hds & Hok & Herr). split; [|exact Herr].
  unfold ISIZE_MAX in *. clear Herr. intros Hf. specialize (Hok Hf).
  pose proof (len_nonneg base). pose proof (len_nonneg target).
  set (d := len base `min` len target) in *. set (ex := slice target d (len target)) in *.
  assert (Lex : len ex = len target - d) by (unfold ex; rewrite len_slice; lia).
  set (ts := [(encode_bsdiff_int d, encode_bsdiff_int (len target - d), encode_bsdiff_int 0)]).
  eexists. split; [exact Hok|].
  match goal with |- len ?x = _ ∧ _ => set (p := x) end.
  assert (Lp : len p = 56 + len target).
  { unfold p. rewrite !len_app, !len_encode_bsdiff_int, len_magic. lia. }
  split; [done|]. assert (Hlay : bsdiff_layout limits (len target) p ts ds ex).
  { exists (encode_bsdiff_int 24), (encode_bsdiff_int d), (encode_bsdiff_int (len target)).
    unfold generate_fits in Hf. fold d in Hf.
    rewrite !len_encode_bsdiff_int, !int_of_encode by lia. change (len ts) with 1.
    split_and!; try lia.
    - unfold p, control, ts. cbn. by rewrite app_nil_r, <- !app_assoc.
    - repeat constructor; apply len_encode_bsdiff_int. }
  pose proof (apply_bsdiff_layout base p _ limits ts ds ex Hlay ltac:(lia)) as H1.
  assert (Hp : patched base (triple_ints <$> ts) 0 ds ex = Some target).
  { cbn. rewrite !int_of_encode by lia. unfold triple_fits.
    replace (_ && _) with true by lia. rewrite <- Lex, <- Lds.
    unfold len. rewrite !Nat2Z.id, !drop_all, !take_ge by lia.
    change (_ && _) with true. cbn [mbind option_bind]. rewrite app_nil_r, Hds.
    unfold ex. by rewrite slice_app_split, slice_full by lia. }
  rewrite Hp in H1. unfold decided, accepts in H1. rewrite Z.eqb_refl in H1. exact H1.
Qed.

Section witnesses.
Definition sample_base : list byte := byte_of <$> [10; 20; 30; 40].
Definition sample_target : list byte := byte_of <$> [11; 20; 250; 40; 7; 8].
Definition sample_patch : list byte := Eval vm_compute in
  match generate_bsdiff_patch sample_base sample_target default_limits with
  | Ok p => p | _ => [] end.

Lemma bsdiff_apply_spec_witness :
  ∃ ts diff extra, bsdiff_layout default_limits 6 sample_patch ts diff extra
    ∧ patched sample_base (triple_ints <$> ts) 0 diff extra = Some sample_target.
Proof.
  destruct (bsdiff_apply_spec sample_base sample_patch 6 default_limits) as [_ H];
    [vm_compute; discriminate|].
  destruct (proj1 (H sample_target)) as (ts & diff & extra & Hl & Hp & _);
    [vm_compute; reflexivity|].
  by exists ts, diff, extra.
Defined.

Lemma bsdiff_roundtrip_witness :
  generate_fits sample_base sample_target default_limits
  ∧ ∃ p, generate_bsdiff_patch sample_base sample_target default_limits = Ok p
      ∧ apply_bsdiff sample_base p (len sample_target) default_limits = Ok sample_target.
Proof.
  assert (Hf : generate_fits sample_base sample_target default_limits)
    by (unfold generate_fits; vm_compute; split_and!; discriminate).
  split; [exact Hf|].
  destruct (bsdiff_roundtrip sample_base sample_target default_limits) as [H _];
    [vm_compute; discriminate..|].
  destruct (H Hf) as (p & Hp & _ & Ha). by exists p.
Defined.

(** A zero with the sign bit set is read as zero, so the integer code is not canonical. *)
Example negative_zero : decode_bsdiff_int (byte_of <$> [0; 0; 0; 0; 0; 0; 0; 0x80]) = Ok 0.
Proof. reflexivity. Qed.
End witnesses.

End Bsdiff.
