(* ===== verification/Vcdiff.v ===== *)
(** * The VCDIFF patch codec

    Models [crates/sar-delta/src/vcdiff.rs]: the code table, the byte reader, the
    address cache, the decoder (windows and their instructions) and the generator.

    Plain [+] on [usize] panics in a build with overflow checks and wraps in a release
    build; the decoder is a function of that build setting ([overflow_checks]). *)

From S2P Require Import Prelude Patch.

Module Vcdiff.
Import PatchError.

Definition S_NEAR : Z := 4.
Definition S_SAME : Z := 3.
Definition N_MODES : Z := 2 + S_NEAR + S_SAME.

Definition VCDIFF_MAGIC : list Z := [0xD6; 0xC3; 0xC4].
Definition VCDIFF_VERSION : Z := 0x00.
Definition VCDIFF_STREAM_HEADER : list byte := byte_of <$> (VCDIFF_MAGIC ++ [VCDIFF_VERSION]).
Definition VCDIFF_HEADER_INDICATOR_NONE : Z := 0x00.
Definition VCDIFF_WINDOW_INDICATOR_NONE : Z := 0x00.
Definition VCDIFF_DELTA_INDICATOR_NONE : Z := 0x00.
Definition VCDIFF_DELTA_INDICATOR_SECONDARY_MASK : Z := 0x07.
Definition VCDIFF_ADD_VARINT_CODE : Z := 0x01.
Definition ADD_ONLY_WINDOW_COUNT : Z := 1.
Definition ADD_ONLY_INSTRUCTION_COUNT : Z := 1.
Definition VCD_DECOMPRESS : Z := 0x01.
Definition VCD_CODETABLE : Z := 0x02.
Definition VCD_SOURCE : Z := 0x01.
Definition VCD_TARGET : Z := 0x02.
Definition VCDIFF_WINDOW_INDICATOR_KNOWN_MASK : Z := Z.lor VCD_SOURCE VCD_TARGET.

(** ** The code table *)

(** [enum InstType], [struct InstDef] and [struct CodeEntry]. *)
Inductive InstType : Set := Noop | Add | Run | Copy.
#[global] Instance inst_type_eq_dec : EqDecision InstType.
Proof. solve_decision. Defined.
Record InstDef := { ty : InstType; size : Z; mode : Z }.
Definition noop : InstDef := {| ty := Noop; size := 0; mode := 0 |}.
Definition add (size : Z) : InstDef := {| ty := Add; size := size; mode := 0 |}.
Definition run : InstDef := {| ty := Run; size := 0; mode := 0 |}.
Definition copy (size mode : Z) : InstDef := {| ty := Copy; size := size; mode := mode |}.
Record CodeEntry := { inst1 : InstDef; inst2 : InstDef }.
Definition single (inst : InstDef) : CodeEntry := {| inst1 := inst; inst2 := noop |}.
Definition double (i1 i2 : InstDef) : CodeEntry := {| inst1 := i1; inst2 := i2 |}.

(** The entries in the order the loops write them; [take] is the [break 'outer] at
    index 256. *)
Definition build_default_code_table : list CodeEntry :=
  [single noop; single (add 0); single run]
  ++ (single ∘ add <$> seqZ 1 16)
  ++ (mode ← seqZ 0 N_MODES;
      single (copy 0 mode) :: ((λ s, single (copy s mode)) <$> seqZ 4 15))
  ++ take 93 (add_size ← seqZ 1 4; mode ← seqZ 0 N_MODES; copy_size ← seqZ 4 3;
              [double (add add_size) (copy copy_size mode)]).

(** [struct VcdiffLimits]. *)
Record VcdiffLimits := {
  max_patch_size : Z; max_window_count : Z; max_instruction_count : Z; max_output_size : Z }.
Definition default_limits : VcdiffLimits :=
  {| max_patch_size := 512 * 1024 * 1024; max_window_count := 1000000;
     max_instruction_count := 10000000; max_output_size := 1024 * 1024 * 1024 |}.
Definition unlimited : VcdiffLimits :=
  {| max_patch_size := U64_MAX; max_window_count := USIZE_MAX;
     max_instruction_count := USIZE_MAX; max_output_size := U64_MAX |}.

Section decoder.
(** Whether the build panics on integer overflow (a debug build) or wraps. *)
Context (overflow_checks : bool).

Definition plain_add (a b : Z) : result PatchError.t Z :=
  if a + b <? 2 ^ 64 then Ok (a + b)
  else if overflow_checks then Panic else Ok ((a + b) mod 2 ^ 64).

(** ** The byte reader *)
Record ByteReader := { data : list byte; pos : Z }.
Definition new_reader (data : list byte) : ByteReader := {| data := data; pos := 0 |}.
Definition remaining (r : ByteReader) : Z := saturating_sub (len (data r)) (pos r).
Definition is_empty (r : ByteReader) : bool := pos r >=? len (data r).

Definition read_u8 (r : ByteReader) : result PatchError.t (byte * ByteReader) :=
  if pos r >=? len (data r) then Err (PatchFailed "VCDIFF: unexpected end of stream") else
  b ← index_r (data r) (pos r);
  p ← plain_add (pos r) 1;
  Ok (b, {| data := data r; pos := p |}).

(** The [loop] of [read_varint]; it reads a byte per round, so [remaining] rounds and
    one more for the failing read are enough. *)
Fixpoint varint_loop (fuel : nat) (r : ByteReader) (value : Z)
    : result PatchError.t (Z * ByteReader) :=
  match fuel with
  | O => Panic
  | S fuel =>
      if pos r >=? len (data r)
      then Err (PatchFailed "VCDIFF: truncated varint in patch stream") else
      b ← index_r (data r) (pos r);
      p ← plain_add (pos r) 1;
      let r := {| data := data r; pos := p |} in
      if value >? Z.shiftr U64_MAX 7 then Err (PatchFailed "VCDIFF: varint overflow") else
      let value := Z.lor (Z.shiftl value 7 mod 2 ^ 64) (Z.land (byte_val b) 0x7F) in
      if Z.land (byte_val b) 0x80 =? 0 then Ok (value, r) else varint_loop fuel r value
  end.
Definition read_varint (r : ByteReader) : result PatchError.t (Z * ByteReader) :=
  varint_loop (S (Z.to_nat (remaining r))) r 0.

Definition read_bytes (r : ByteReader) (n : Z) : result PatchError.t (list byte * ByteReader) :=
  end_ ← ok_or (checked_add 64 (pos r) n) (PatchFailed "VCDIFF: byte read overflow");
  if end_ >? len (data r)
  then Err (PatchFailed "VCDIFF: unexpected end of patch stream while reading section") else
  slice ← slice_r (data r) (pos r) end_;
  Ok (slice, {| data := data r; pos := end_ |}).

Definition expect_bytes (r : ByteReader) (expected : list byte)
    : result PatchError.t ByteReader :=
  '(got, r) ← read_bytes r (len expected);
  if negb (bool_decide (got = expected))
  then Err (PatchFailed "VCDIFF: magic bytes mismatch") else Ok r.

(** ** The address cache *)
Record AddrCache := { near : list Z; near_next : Z; same : list Z }.
Definition new_cache : AddrCache :=
  {| near := replicate (Z.to_nat S_NEAR) 0; near_next := 0;
     same := replicate (Z.to_nat (S_SAME * 256)) 0 |}.

Definition decode_address (c : AddrCache) (mode here : Z) (addr_reader : ByteReader)
    : result PatchError.t (Z * ByteReader) :=
  if mode =? 0 then read_varint addr_reader
  else if mode =? 1 then
    '(delta, r) ← read_varint addr_reader;
    a ← ok_or (checked_sub here delta) (PatchFailed "VCDIFF: HERE address underflow");
    Ok (a, r)
  else if (2 <=? mode) && (mode <=? 1 + S_NEAR) then
    let i := mode - 2 in
    '(offset, r) ← read_varint addr_reader;
    n ← index_r (near c) i;
    a ← ok_or (checked_add 64 n offset) (PatchFailed "VCDIFF: NEAR address overflow");
    Ok (a, r)
  else if (2 + S_NEAR <=? mode) && (mode <=? 1 + S_NEAR + S_SAME) then
    let s := mode - (2 + S_NEAR) in
    '(b, r) ← read_u8 addr_reader;
    a ← index_r (same c) (s * 256 + byte_val b);
    Ok (a, r)
  else Err (PatchFailed "VCDIFF: invalid COPY addressing mode").

Definition update (c : AddrCache) (addr : Z) : result PatchError.t AddrCache :=
  near' ← store_r (near c) (near_next c mod S_NEAR) addr;
  next ← plain_add (near_next c) 1;
  let slot := addr mod (S_SAME * 256) in
  same' ← store_r (same c) slot addr;
  Ok {| near := near'; near_next := next; same := same' |}.

(** ** Instructions *)

(** The variables of [apply_instructions]. *)
Record Machine := {
  output : list byte; target_pos : Z; data_reader : ByteReader; inst_reader : ByteReader;
  addr_reader : ByteReader; addr_cache : AddrCache }.

(** [for i in 0..size] of a COPY. *)
Fixpoint copy_loop (source : list byte) (addr target_start target_pos : Z) (is_ : list Z)
    (output : list byte) : result PatchError.t (list byte) :=
  match is_ with
  | [] => Ok output
  | i :: is_ =>
      src_addr ← plain_add addr i;
      b ← (if src_addr <? len source then index_r source src_addr
           else
             tgt_off ← sub_r src_addr (len source);
             tgt_abs ← plain_add target_start tgt_off;
             if tgt_abs >=? target_pos
             then Err (PatchFailed "VCDIFF: COPY references unwritten target bytes")
             else index_r output tgt_abs);
      dst ← plain_add target_pos i;
      output ← store_r output dst b;
      copy_loop source addr target_start target_pos is_ output
  end.

(** An instruction of known size; [ir] is the instruction reader behind the size. *)
Definition exec_sized (source : list byte) (target_start target_end : Z) (idef : InstDef)
    (size : Z) (ir : ByteReader) (m : Machine) : result PatchError.t Machine :=
  match ty idef with
  | Noop => Ok m
  | Add =>
      '(data_slice, dr) ← read_bytes (data_reader m) size;
      out_end ← ok_or (checked_add 64 (target_pos m) size)
                      (PatchFailed "VCDIFF: ADD output overflow");
      if out_end >? target_end
      then Err (PatchFailed "VCDIFF: ADD instruction writes past target window end") else
      dst ← slice_r (output m) (target_pos m) out_end;
      if negb (len data_slice =? len dst) then Panic else
      out ← copy_at_r (output m) (target_pos m) data_slice;
      Ok {| output := out; target_pos := out_end; data_reader := dr; inst_reader := ir;
            addr_reader := addr_reader m; addr_cache := addr_cache m |}
  | Run =>
      '(run_byte, dr) ← read_u8 (data_reader m);
      out_end ← ok_or (checked_add 64 (target_pos m) size)
                      (PatchFailed "VCDIFF: RUN output overflow");
      if out_end >? target_end
      then Err (PatchFailed "VCDIFF: RUN instruction writes past target window end") else
      dst ← slice_r (output m) (target_pos m) out_end;
      out ← copy_at_r (output m) (target_pos m) ((λ _, run_byte) <$> dst);
      Ok {| output := out; target_pos := out_end; data_reader := dr; inst_reader := ir;
            addr_reader := addr_reader m; addr_cache := addr_cache m |}
  | Copy =>
      off ← sub_r (target_pos m) target_start;
      here ← plain_add (len source) off;
      '(addr_val, ar) ← decode_address (addr_cache m) (mode idef) here (addr_reader m);
      cache ← update (addr_cache m) addr_val;
      addr_usize ← ok_or (try_from 64 addr_val) (PatchFailed "VCDIFF: COPY address exceeds usize");
      out_end ← ok_or (checked_add 64 (target_pos m) size)
                      (PatchFailed "VCDIFF: COPY output overflow");
      if out_end >? target_end
      then Err (PatchFailed "VCDIFF: COPY instruction writes past target window end") else
      _ ← ok_or (checked_add 64 addr_usize size) (PatchFailed "VCDIFF: COPY address overflow");
      out ← copy_loop source addr_usize target_start (target_pos m) (seqZ 0 size) (output m);
      Ok {| output := out; target_pos := out_end; data_reader := data_reader m;
            inst_reader := ir; addr_reader := ar; addr_cache := cache |}
  end.

(** [if idef.size == 0 { read_varint } else { idef.size }]. *)
Definition read_size (idef : InstDef) (r : ByteReader) : result PatchError.t (Z * ByteReader) :=
  if size idef =? 0 then
    '(v, r) ← read_varint r;
    n ← ok_or (try_from 64 v) (PatchFailed "VCDIFF: instruction size exceeds usize");
    Ok (n, r)
  else Ok (size idef, r).

(** One instruction of a code table entry. *)
Definition exec_inst (source : list byte) (target_start target_end : Z) (idef : InstDef)
    (m : Machine) : result PatchError.t Machine :=
  if bool_decide (ty idef = Noop) then Ok m else
  '(size, ir) ← read_size idef (inst_reader m);
  exec_sized source target_start target_end idef size ir m.

(** The [while] loop; every round reads an opcode, so the length of the instruction
    section bounds the rounds. *)
Fixpoint inst_loop (fuel : nat) (source : list byte) (target_start target_end : Z)
    (code_table : list CodeEntry) (limits : VcdiffLimits) (inst_count : Z) (m : Machine)
    : result PatchError.t Machine :=
  match fuel with
  | O => Panic
  | S fuel =>
      if (target_pos m <? target_end) || negb (is_empty (inst_reader m)) then
        if (target_pos m >=? target_end) && negb (is_empty (inst_reader m))
        then Err (PatchFailed "VCDIFF: instructions remain after target window filled") else
        if is_empty (inst_reader m) then Ok m else
        inst_count ← plain_add inst_count 1;
        if inst_count >? max_instruction_count limits
        then Err (LimitExceeded
                    "VCDIFF: instruction count exceeds max_instruction_count limit") else
        '(code, ir) ← read_u8 (inst_reader m);
        entry ← index_r code_table (byte_val code);
        let m := {| output := output m; target_pos := target_pos m;
                    data_reader := data_reader m; inst_reader := ir;
                    addr_reader := addr_reader m; addr_cache := addr_cache m |} in
        m ← exec_inst source target_start target_end (inst1 entry) m;
        m ← exec_inst source target_start target_end (inst2 entry) m;
        inst_loop fuel source target_start target_end code_table limits inst_count m
      else Ok m
  end.

(** [Vec::resize(n, 0)] to a larger size: a capacity above [isize::MAX] panics. *)
Definition resize (l : list byte) (n : Z) : result PatchError.t (list byte) :=
  if n >? ISIZE_MAX then Panic else Ok (l ++ zeros (n - len l)).

(** The checks behind the loop. *)
Definition finish_window (target_end : Z) (m : Machine) : result PatchError.t (list byte) :=
  if negb (target_pos m =? target_end)
  then Err (PatchFailed "VCDIFF: target window not fully filled by instructions") else
  if negb (is_empty (data_reader m))
  then Err (PatchFailed "VCDIFF: ADD/RUN data section not fully consumed") else
  if negb (is_empty (addr_reader m))
  then Err (PatchFailed "VCDIFF: addresses section not fully consumed") else
  Ok (output m).

Definition apply_instructions (source add_run inst addr : list byte) (target_len : Z)
    (code_table : list CodeEntry) (limits : VcdiffLimits) (output_ : list byte)
    : result PatchError.t (list byte) :=
  let target_start := len output_ in
  target_end ← ok_or (checked_add 64 target_start target_len)
                     (PatchFailed "VCDIFF: target length overflow");
  out ← resize output_ target_end;
  m ← inst_loop (S (length inst)) source target_start target_end code_table limits 0
        {| output := out; target_pos := target_start; data_reader := new_reader add_run;
           inst_reader := new_reader inst; addr_reader := new_reader addr;
           addr_cache := new_cache |};
  finish_window target_end m.

(** ** Windows *)

(** [usize::try_from(reader.read_varint()?)]. *)
Definition read_usize (r : ByteReader) (what : string) : result PatchError.t (Z * ByteReader) :=
  '(v, r) ← read_varint r;
  n ← ok_or (try_from 64 v) (PatchFailed what);
  Ok (n, r).

(** The bounds check of a source segment inside [seg]. *)
Definition check_segment (seg : list byte) (ss_pos ss_size : Z) (overflow beyond : string)
    : result PatchError.t unit :=
  end_ ← ok_or (checked_add 64 ss_pos ss_size) (PatchFailed overflow);
  if end_ >? len seg then Err (PatchFailed beyond) else Ok tt.

(** [&seg[ss_pos..ss_pos + ss_size]]. *)
Definition segment (seg : list byte) (ss_pos ss_size : Z) : result PatchError.t (list byte) :=
  end_ ← plain_add ss_pos ss_size; slice_r seg ss_pos end_.

(** The delta encoding of a window: its lengths, the indicator byte and the three
    sections. *)
Definition read_sections (reader : ByteReader) (limits : VcdiffLimits) (output_ : list byte)
    : result PatchError.t (Z * list byte * list byte * list byte * ByteReader) :=
  '(delta_encoding_length, reader) ←
    read_usize reader "VCDIFF: delta_encoding_length exceeds usize";
  if delta_encoding_length >? remaining reader
  then Err (PatchFailed "VCDIFF: delta_encoding_length exceeds remaining patch bytes") else
  let delta_start := pos reader in
  '(target_window_length, reader) ←
    read_usize reader "VCDIFF: target_window_length exceeds usize";
  new_total ← ok_or (checked_add 64 (len output_) target_window_length)
                    (PatchFailed "VCDIFF: target window length overflow");
  if new_total >? max_output_size limits
  then Err (LimitExceeded "VCDIFF: output size exceeds max_output_size limit") else
  '(delta_indicator, reader) ← read_u8 reader;
  if negb (Z.land (byte_val delta_indicator) VCDIFF_DELTA_INDICATOR_SECONDARY_MASK =? 0)
  then Err (Unsupported "VCDIFF: secondary compression in delta sections not supported") else
  '(len_add_run, reader) ← read_usize reader "VCDIFF: len_add_run exceeds usize";
  '(len_inst, reader) ← read_usize reader "VCDIFF: len_inst exceeds usize";
  '(len_addr, reader) ← read_usize reader "VCDIFF: len_addr exceeds usize";
  '(add_run_data, reader) ← read_bytes reader len_add_run;
  '(inst_bytes, reader) ← read_bytes reader len_inst;
  '(addr_bytes, reader) ← read_bytes reader len_addr;
  delta_consumed ← sub_r (pos reader) delta_start;
  if negb (delta_consumed =? delta_encoding_length)
  then Err (PatchFailed "VCDIFF: delta_encoding_length mismatch") else
  Ok (target_window_length, add_run_data, inst_bytes, addr_bytes, reader).

(** [win_indicator & f != 0]. *)
Definition has (wi : byte) (f : Z) : bool := negb (Z.land (byte_val wi) f =? 0).

(** The size and position of the source segment, checked against its buffer. *)
Definition read_segment (base previous_output : list byte) (wi : byte) (reader : ByteReader)
    : result PatchError.t (Z * Z * ByteReader) :=
  '(ss_size, ss_pos, reader) ←
    (if has wi (Z.lor VCD_SOURCE VCD_TARGET) then
       '(size, reader) ← read_usize reader "VCDIFF: source segment size exceeds usize";
       '(pos, reader) ← read_usize reader "VCDIFF: source segment position exceeds usize";
       Ok (size, pos, reader)
     else Ok (0, 0, reader));
  _ ← (if has wi VCD_SOURCE then
         check_segment base ss_pos ss_size "VCDIFF: source segment overflow"
           "VCDIFF: VCD_SOURCE segment references bytes beyond base"
       else if has wi VCD_TARGET then
         check_segment previous_output ss_pos ss_size "VCDIFF: target segment overflow"
           "VCDIFF: VCD_TARGET segment references bytes beyond decoded output"
       else Ok tt);
  Ok (ss_size, ss_pos, reader).

(** [let source_bytes = ...]. *)
Definition source_bytes (base previous_output : list byte) (wi : byte) (ss_pos ss_size : Z)
    : result PatchError.t (list byte) :=
  if has wi VCD_SOURCE then segment base ss_pos ss_size
  else if has wi VCD_TARGET then segment previous_output ss_pos ss_size
  else Ok [].

Definition decode_window (base previous_output : list byte) (reader : ByteReader)
    (code_table : list CodeEntry) (limits : VcdiffLimits) (output_ : list byte)
    : result PatchError.t (list byte * ByteReader) :=
  '(win_indicator, reader) ← read_u8 reader;
  if has win_indicator VCD_SOURCE && has win_indicator VCD_TARGET
  then Err (PatchFailed "VCDIFF: VCD_SOURCE and VCD_TARGET both set in Win_Indicator") else
  if negb (Z.ldiff (byte_val win_indicator) VCDIFF_WINDOW_INDICATOR_KNOWN_MASK =? 0)
  then Err (PatchFailed "VCDIFF: reserved bits set in Win_Indicator") else
  '(ss_size, ss_pos, reader) ← read_segment base previous_output win_indicator reader;
  '(target_window_length, add_run_data, inst_bytes, addr_bytes, reader) ←
    read_sections reader limits output_;
  source ← source_bytes base previous_output win_indicator ss_pos ss_size;
  out ← apply_instructions source add_run_data inst_bytes addr_bytes
          target_window_length code_table limits output_;
  Ok (out, reader).

(** The [while] loop over the windows; a window takes at least one byte. *)
Fixpoint window_loop (fuel : nat) (base : list byte) (code_table : list CodeEntry)
    (limits : VcdiffLimits) (reader : ByteReader) (window_count : Z) (output_ : list byte)
    : result PatchError.t (list byte) :=
  match fuel with
  | O => Panic
  | S fuel =>
      if is_empty reader then Ok output_ else
      if window_count >=? max_window_count limits
      then Err (LimitExceeded "VCDIFF: window count exceeds max_window_count limit") else
      window_count ← plain_add window_count 1;
      '(output_, reader) ← decode_window base output_ reader code_table limits output_;
      if len output_ >? max_output_size limits
      then Err (LimitExceeded "VCDIFF: output size exceeds max_output_size limit") else
      window_loop fuel base code_table limits reader window_count output_
  end.

Definition apply_vcdiff (base patch : list byte) (expected_target_size : Z)
    (limits : VcdiffLimits) : result PatchError.t (list byte) :=
  if len patch >? max_patch_size limits
  then Err (LimitExceeded "VCDIFF: patch payload exceeds max_patch_size limit") else
  reader ← expect_bytes (new_reader patch) VCDIFF_STREAM_HEADER;
  '(hi, reader) ← read_u8 reader;
  let hdr_indicator := byte_val hi in
  reader ← (if negb (Z.land hdr_indicator VCD_DECOMPRESS =? 0) then
              '(compressor_id, reader) ← read_u8 reader;
              if negb (byte_val compressor_id =? 0)
              then Err (Unsupported "VCDIFF: secondary compressor not supported")
              else Ok reader
            else Ok reader);
  if negb (Z.land hdr_indicator VCD_CODETABLE =? 0)
  then Err (PatchFailed "VCDIFF: custom code table (VCD_CODETABLE) not supported") else
  let code_table := build_default_code_table in
  output_ ← window_loop (S (length patch)) base code_table limits reader 0 [];
  if negb (len output_ =? expected_target_size)
  then Err (PatchFailed
              "VCDIFF: reconstructed output size does not match expected target size")
  else Ok output_.
End decoder.

(** ** The generator *)

(** [while n > 0 { buf.push(n & 0x7F); n >>= 7 }]: the digits, lowest first. *)
Fixpoint varint_digits (fuel : nat) (n : Z) : list Z :=
  match fuel with
  | O => []
  | S fuel => if n >? 0 then Z.land n 0x7F :: varint_digits fuel (Z.shiftr n 7) else []
  end.

Definition encode_varint (v : Z) : list byte :=
  if v =? 0 then [x00] else
  let buf := reverse (varint_digits (S (Z.to_nat (Z.log2 v))) v) in
  let last := (length buf - 1)%nat in
  byte_of <$> ((λ b, Z.lor b 0x80) <$> take last buf) ++ drop last buf.

Definition generate_vcdiff_patch (_base target : list byte) (limits : VcdiffLimits)
    : result PatchError.t (list byte) :=
  target_len ← ok_or (try_from 64 (len target))
                     (LimitExceeded "VCDIFF generate: target length exceeds u64");
  if target_len >? max_output_size limits
  then Err (LimitExceeded "VCDIFF generate: target length exceeds max_output_size limit") else
  if len target =? 0 then
    let patch := VCDIFF_STREAM_HEADER ++ [byte_of VCDIFF_HEADER_INDICATOR_NONE] in
    patch_len ← ok_or (try_from 64 (len patch))
                      (LimitExceeded "VCDIFF generate: patch length exceeds u64");
    if patch_len >? max_patch_size limits
    then Err (LimitExceeded "VCDIFF generate: total patch size exceeds max_patch_size limit")
    else Ok patch
  else
  if max_window_count limits <? ADD_ONLY_WINDOW_COUNT
  then Err (LimitExceeded
              "VCDIFF generate: max_window_count limit is too low (requires at least 1)") else
  if max_instruction_count limits <? ADD_ONLY_INSTRUCTION_COUNT
  then Err (LimitExceeded
              "VCDIFF generate: max_instruction_count limit is too low (requires at least 1)") else
  let inst := byte_of VCDIFF_ADD_VARINT_CODE :: encode_varint target_len in
  inst_len ← ok_or (try_from 64 (len inst))
                   (LimitExceeded "VCDIFF generate: inst length overflow");
  let twl_bytes := encode_varint target_len in
  let lar_bytes := encode_varint target_len in
  let li_bytes := encode_varint inst_len in
  let la_bytes := encode_varint VCDIFF_WINDOW_INDICATOR_NONE in
  delta_enc_len ← ok_or
    (n ← checked_add 64 (len twl_bytes) ADD_ONLY_INSTRUCTION_COUNT;
     n ← checked_add 64 n (len lar_bytes); n ← checked_add 64 n (len li_bytes);
     n ← checked_add 64 n (len la_bytes); n ← checked_add 64 n (len target);
     checked_add 64 n (len inst))
    (LimitExceeded "VCDIFF generate: delta_encoding_length overflow");
  del_enc_len_u64 ← ok_or (try_from 64 delta_enc_len)
                          (LimitExceeded "VCDIFF generate: delta_encoding_length exceeds u64");
  let del_enc_len_bytes := encode_varint del_enc_len_u64 in
  patch_size ← ok_or
    (n ← checked_add 64 (len VCDIFF_STREAM_HEADER) ADD_ONLY_WINDOW_COUNT;
     n ← checked_add 64 n ADD_ONLY_INSTRUCTION_COUNT;
     n ← checked_add 64 n (len del_enc_len_bytes); checked_add 64 n delta_enc_len)
    (LimitExceeded "VCDIFF generate: total patch size overflow");
  patch_size_u64 ← ok_or (try_from 64 patch_size)
                         (LimitExceeded "VCDIFF generate: total patch size exceeds u64");
  if patch_size_u64 >? max_patch_size limits
  then Err (LimitExceeded "VCDIFF generate: total patch size exceeds max_patch_size limit") else
  Ok (VCDIFF_STREAM_HEADER ++ byte_of VCDIFF_HEADER_INDICATOR_NONE
      :: byte_of VCDIFF_WINDOW_INDICATOR_NONE :: del_enc_len_bytes ++ twl_bytes
      ++ byte_of VCDIFF_DELTA_INDICATOR_NONE :: lar_bytes ++ li_bytes ++ la_bytes
      ++ target ++ inst).

(** ** Reading

    A reader over [D] whose unread bytes are the suffix [s] of [D]. *)
Definition at_suffix (D s : list byte) : ByteReader := {| data := D; pos := len D - len s |}.
Definition reads (D s : list byte) : Prop := s `suffix_of` D ∧ len D < 2 ^ 63.

Lemma len_zero (s : list byte) : len s = 0 → s = [].
Proof. destruct s; [done|]. rewrite len_cons. pose proof (len_nonneg s). lia. Qed.
Lemma suffix_len (s D : list byte) : s `suffix_of` D → len s ≤ len D.
Proof. intros [p ->]. rewrite len_app. pose proof (len_nonneg p). lia. Qed.
Lemma reads_suffix D s s' : reads D s → s' `suffix_of` s → reads D s'.
Proof. intros [H ?] ?. split; [|done]. by etrans. Qed.
Lemma reads_cons D b s : reads D (b :: s) → reads D s.
Proof. intros H. eapply reads_suffix; [exact H|]. by apply suffix_cons_r. Qed.
Lemma reads_self D : len D < 2 ^ 63 → reads D D ∧ new_reader D = at_suffix D D.
Proof. intros. split; [by split|]. unfold new_reader, at_suffix. f_equal. lia. Qed.
Lemma is_empty_at D s : is_empty (at_suffix D s) = (len s =? 0).
Proof. unfold is_empty. cbn. pose proof (len_nonneg s). lia. Qed.

Section reading.
Context (oc : bool).

Lemma plain_add_fits a b : a + b < 2 ^ 64 → plain_add oc a b = Ok (a + b).
Proof. intros. unfold plain_add. by rewrite (proj2 (Z.ltb_lt _ _)). Qed.

Lemma plain_add_wraps a b :
  2 ^ 64 ≤ a + b → plain_add oc a b = if oc then Panic else Ok ((a + b) mod 2 ^ 64).
Proof. intros. unfold plain_add. by rewrite (proj2 (Z.ltb_ge _ _)). Qed.

Lemma read_u8_cons D b s :
  reads D (b :: s) → read_u8 oc (at_suffix D (b :: s)) = Ok (b, at_suffix D s).
Proof.
  intros [[p ->] HD]. pose proof (len_nonneg p). pose proof (len_nonneg s).
  unfold read_u8, at_suffix. cbn [data pos]. autorewrite with len in *.
  rust_ok. rewrite (index_r_mid p) by lia.
  cbn [mbind result_bind]. rewrite plain_add_fits by lia. cbn. do 3 f_equal. lia.
Qed.
Lemma read_u8_nil D : ∃ e, read_u8 oc (at_suffix D []) = Err e.
Proof. unfold read_u8. cbn [data pos at_suffix]. rewrite Zge_true by (rewrite len_nil; lia). by eexists. Qed.

Lemma read_bytes_at D s n :
  reads D s → 0 ≤ n < 2 ^ 64 →
  if n <=? len s
  then read_bytes (at_suffix D s) n = Ok (take (Z.to_nat n) s, at_suffix D (drop (Z.to_nat n) s))
  else ∃ e, read_bytes (at_suffix D s) n = Err e.
Proof.
  intros [[p ->] HD] Hn. pose proof (len_nonneg p). pose proof (len_nonneg s).
  unfold read_bytes, at_suffix. cbn [data pos]. rewrite len_app in *.
  destruct (Z.leb_spec n (len s)).
  - destruct (cut_at s n ltac:(lia)) as (a & b & -> & Ha). rewrite len_app in *.
    rust_ok. rewrite <- Ha.
    replace (len p + (len a + len b) - (len a + len b)) with (len p) by lia.
    rewrite slice_app_mid_r, take_len_app, drop_len_app. cbn [mbind result_bind].
    do 3 f_equal. lia.
  - destruct (checked_add _ _ _) as [e|] eqn:E; [|by eexists].
    apply checked_add_Some in E as [-> _]. cbn [ok_or mbind result_bind].
    rewrite Zgt_true by lia. by eexists.
Qed.

(** *** Variable-length integers *)

(** Big-endian base-128 digits: the value of a varint and what follows it. *)
Fixpoint varint (s : list byte) (value : Z) : option (Z * list byte) :=
  match s with
  | [] => None
  | b :: s =>
      if value >? 2 ^ 57 - 1 then None else
      let v := value * 128 + byte_val b mod 128 in
      if byte_val b <? 128 then Some (v, s) else varint s v
  end.

Lemma varint_step value b :
  0 ≤ value < 2 ^ 57 →
  Z.lor (Z.shiftl value 7 mod 2 ^ 64) (Z.land (byte_val b) 0x7F)
  = value * 128 + byte_val b mod 128.
Proof.
  intros Hv. rewrite Z.shiftl_mul_pow2 by lia. change (2 ^ 7) with 128.
  rewrite Z.mod_small by lia. rewrite land_7F. change 128 with (2 ^ 7).
  pose proof (Z.mod_pos_bound (byte_val b) (2 ^ 7) ltac:(lia)).
  symmetry. apply Z.add_nocarry_lor. apply Z.bits_inj'. intros i Hi.
  rewrite Z.land_spec, Z.bits_0. destruct (Z.lt_ge_cases i 7).
  - by rewrite Z.mul_pow2_bits_low.
  - rewrite Z.mod_pow2_bits_high by lia. apply andb_false_r.
Qed.

Lemma varint_suffix s value v s' : varint s value = Some (v, s') → s' `suffix_of` s ∧ s ≠ [].
Proof.
  revert value. induction s as [|b s IH]; intros value; [done|]. cbn.
  case_match; [done|]. case_match; [|intros [Hs _]%IH].
  - intros [= _ <-]. split; [by apply suffix_cons_r|done].
  - split; [by apply suffix_cons_r|done].
Qed.
Lemma varint_range s value v s' :
  0 ≤ value → varint s value = Some (v, s') → 0 ≤ v < 2 ^ 64.
Proof.
  revert value. induction s as [|b s IH]; intros value Hv; [done|]. cbn.
  pose proof (Z.mod_pos_bound (byte_val b) 128 ltac:(lia)).
  destruct (Z.gtb_spec value (2 ^ 57 - 1)); [done|].
  case_match; [intros [= <- _]; lia|]. apply IH. lia.
Qed.

Lemma varint_loop_at D s value fuel :
  reads D s → 0 ≤ value → (length s < fuel)%nat →
  match varint s value with
  | Some (v, s') => varint_loop oc fuel (at_suffix D s) value = Ok (v, at_suffix D s')
  | None => ∃ e, varint_loop oc fuel (at_suffix D s) value = Err e
  end.
Proof.
  revert s value. induction fuel as [|fuel IH]; intros s value HD Hv Hf; [lia|].
  destruct s as [|b s]; cbn [varint varint_loop].
  { cbn [data pos at_suffix]. rewrite Zge_true by (rewrite len_nil; lia). by eexists. }
  pose proof (reads_cons D b s HD) as HD'. destruct HD as [[p ->] HD]. cbn [data pos at_suffix].
  pose proof (len_nonneg p). pose proof (len_nonneg s). autorewrite with len in *.
  rewrite Zge_false by lia. rewrite (index_r_mid p) by lia. cbn [mbind result_bind].
  rewrite plain_add_fits by lia. cbn [mbind result_bind].
  change (Z.shiftr U64_MAX 7) with (2 ^ 57 - 1).
  destruct (Z.gtb_spec value (2 ^ 57 - 1)); [by eexists|].
  rewrite varint_step, land_80 by lia.
  pose proof (Z.mod_pos_bound (byte_val b) 128 ltac:(lia)).
  replace {| data := p ++ b :: s; pos := len p + (1 + len s) - (1 + len s) + 1 |}
    with (at_suffix (p ++ b :: s) s) by (unfold at_suffix; f_equal; autorewrite with len; lia).
  destruct (byte_val b <? 128); [done|].
  apply IH; [done|lia|cbn in Hf; lia].
Qed.

Lemma read_varint_at D s :
  reads D s →
  match varint s 0 with
  | Some (v, s') => read_varint oc (at_suffix D s) = Ok (v, at_suffix D s')
  | None => ∃ e, read_varint oc (at_suffix D s) = Err e
  end.
Proof.
  intros HD. apply varint_loop_at; [done|lia|]. destruct HD as [Hs _]. apply suffix_len in Hs.
  unfold remaining, saturating_sub, at_suffix. cbn [data pos]. unfold len in *. lia.
Qed.
End reading.

(** *** The encoder *)

Definition more (ds : list Z) : list byte := (λ b, byte_of (Z.lor b 0x80)) <$> reverse ds.

Lemma digit_bounds n : Z.land n 0x7F = n mod 128.
Proof. change 0x7F with (Z.ones 7). by rewrite Z.land_ones by lia. Qed.
Lemma more_digit d : 0 ≤ d < 128 → byte_val (byte_of (Z.lor d 0x80)) = d + 128.
Proof.
  intros Hd. rewrite <- (byte_val_of_small d) by lia.
  pose proof (byte_val_of_small d ltac:(lia)) as E. revert E.
  generalize (byte_of d). intros b E. rewrite <- E in Hd. clear E.
  by destruct b; vm_compute in Hd |- *; destruct Hd.
Qed.

Lemma varint_digits_shift fuel n :
  0 < n → varint_digits (S fuel) n = n mod 128 :: varint_digits fuel (n / 128).
Proof.
  intros. cbn [varint_digits]. rewrite Zgt_true, digit_bounds, Z.shiftr_div_pow2 by lia. done.
Qed.

Lemma varint_more fuel n s :
  0 ≤ n < 2 ^ 64 → n < 2 ^ Z.of_nat fuel → varint (more (varint_digits fuel n) ++ s) 0 = varint s n.
Proof.
  revert n s. induction fuel as [|fuel IH]; intros n s Hn Hf; [by replace n with 0 by (cbn in Hf; lia)|].
  destruct (decide (n = 0)) as [->|]; [done|].
  rewrite varint_digits_shift by lia. rewrite Nat2Z.inj_succ, Z.pow_succ_r in Hf by lia.
  pose proof (Z.div_mod n 128 ltac:(lia)). pose proof (Z.mod_pos_bound n 128 ltac:(lia)).
  unfold more. rewrite reverse_cons, fmap_app, <- app_assoc.
  fold (more (varint_digits fuel (n / 128))). rewrite IH by lia. cbn [fmap list_fmap app varint].
  rewrite Zgt_false, more_digit by lia.
  destruct (Z.ltb_spec (n mod 128 + 128) 128); [lia|].
  f_equal. rewrite <- (Z.mod_unique_pos (n mod 128 + 128) 128 1 (n mod 128)) by lia. lia.
Qed.

Lemma varint_encode v s : 0 ≤ v < 2 ^ 64 → varint (encode_varint v ++ s) 0 = Some (v, s).
Proof.
  intros Hv. unfold encode_varint. destruct (Z.eqb_spec v 0) as [->|]; [done|].
  rewrite varint_digits_shift by lia. rewrite reverse_cons. cbv zeta.
  rewrite length_app. cbn [length]. rewrite Nat.add_sub, take_app_length, drop_app_length.
  rewrite fmap_app, <- app_assoc. rewrite <- list_fmap_compose.
  change (byte_of ∘ _ <$> reverse ?l) with (more l).
  pose proof (Z.div_mod v 128 ltac:(lia)). pose proof (Z.mod_pos_bound v 128 ltac:(lia)).
  pose proof (Z.log2_spec v ltac:(lia)) as [_ Hlog]. pose proof (Z.log2_nonneg v).
  rewrite Z.pow_succ_r in Hlog by lia.
  rewrite varint_more; [|lia|rewrite Z2Nat.id by lia; lia].
  cbn [fmap list_fmap app varint]. rewrite Zgt_false, byte_val_of_small by lia.
  rewrite (proj2 (Z.ltb_lt _ _)), Z.mod_mod by lia. do 2 f_equal. lia.
Qed.

Lemma length_varint_digits (k : nat) fuel n :
  0 ≤ n < 128 ^ Z.of_nat k → (length (varint_digits fuel n) ≤ k)%nat.
Proof.
  revert fuel n. induction k as [|k IH]; intros [|fuel] n Hn; [cbn; lia| |cbn; lia|].
  - cbn [varint_digits]. by rewrite Zgt_false by (cbn in Hn; lia).
  - destruct (decide (n = 0)) as [->|]; [cbn; lia|].
    rewrite varint_digits_shift by lia. cbn [length]. apply le_n_S, IH.
    rewrite Nat2Z.inj_succ, Z.pow_succ_r in Hn by lia.
    split; [apply Z.div_pos; lia|apply Z.div_lt_upper_bound; lia].
Qed.
Lemma encode_varint_len v : 0 ≤ v < 2 ^ 64 → 1 ≤ len (encode_varint v) ≤ 10.
Proof.
  intros Hv. unfold encode_varint. destruct (Z.eqb_spec v 0); [done|]. cbv zeta.
  rewrite len_fmap, len_app, len_fmap. unfold len.
  rewrite length_take, length_drop, length_reverse.
  pose proof (length_varint_digits 10 (S (Z.to_nat (Z.log2 v))) v ltac:(cbn; lia)).
  rewrite varint_digits_shift in * by lia. cbn [length] in *. lia.
Qed.

(** ** What a window means

    The reference semantics works on lists: the bytes written so far, the unread parts of
    the three sections, and the address cache. *)
Record Window := {
  written : list byte; adds : list byte; insts : list byte; addrs : list byte;
  cache : AddrCache }.

Definition cache_ok (c : AddrCache) : Prop :=
  len (near c) = 4 ∧ len (same c) = 768 ∧ Forall (fits 64) (near c) ∧ Forall (fits 64) (same c)
  ∧ 0 ≤ near_next c.

(** The address a COPY names, and the rest of the address section. *)
Definition address (c : AddrCache) (mode here : Z) (s : list byte) : option (Z * list byte) :=
  if mode =? 0 then varint s 0
  else if mode =? 1 then
    '(delta, s) ← varint s 0; if delta <=? here then Some (here - delta, s) else None
  else if mode <=? 5 then
    '(offset, s) ← varint s 0;
    let a := default 0 (near c !! Z.to_nat (mode - 2)) + offset in
    if a <? 2 ^ 64 then Some (a, s) else None
  else if mode <=? 8 then
    match s with
    | b :: s => Some (default 0 (same c !! Z.to_nat ((mode - 6) * 256 + byte_val b)), s)
    | [] => None
    end
  else None.

Definition remember (c : AddrCache) (a : Z) : AddrCache :=
  {| near := <[Z.to_nat (near_next c mod 4) := a]> (near c); near_next := near_next c + 1;
     same := <[Z.to_nat (a mod 768) := a]> (same c) |}.

(** The size of an instruction, from the code table or the instruction section. *)
Definition inst_size (idef : InstDef) (s : list byte) : option (Z * list byte) :=
  if size idef =? 0 then varint s 0 else Some (size idef, s).

(** COPY takes [n] bytes from position [a] on of the source segment followed by what the
    window has written, one byte after the other, each byte written being part of what
    the next may be taken from. *)
Fixpoint copy_out (u : list byte) (a : Z) (n : nat) : list byte :=
  match n with
  | O => []
  | S n => let b := default x00 (u !! Z.to_nat a) in b :: copy_out (u ++ [b]) (a + 1) n
  end.
(** Which positions may be named: by RFC 3284 any byte that is there when the copy starts, so
    that a copy may run into its own output and repeat it; or, as the decoder has it, only
    ranges that are there as a whole. *)
Inductive CopyRule : Set := Rfc3284 | NoOverlap.
Definition copy_allowed (rule : CopyRule) (u : list byte) (a n : Z) : bool :=
  (a + n <? 2 ^ 64)
  && ((n =? 0) || match rule with Rfc3284 => a <? len u | NoOverlap => a + n <=? len u end).

(** One instruction of size [n]: ADD appends literal bytes, RUN repeats one, COPY takes
    bytes of the source followed by what the window has written. *)
Definition perform_sized (rule : CopyRule) (source : list byte) (room : Z) (idef : InstDef) (n : Z)
    (is' : list byte) (x : Window) : option Window :=
  if room <? len (written x) + n then None else
  match ty idef with
  | Noop => Some x
  | Add =>
      if n <=? len (adds x) then
        Some {| written := written x ++ take (Z.to_nat n) (adds x);
                adds := drop (Z.to_nat n) (adds x); insts := is'; addrs := addrs x;
                cache := cache x |}
      else None
  | Run =>
      match adds x with
      | b :: ds => Some {| written := written x ++ replicate (Z.to_nat n) b; adds := ds;
                           insts := is'; addrs := addrs x; cache := cache x |}
      | [] => None
      end
  | Copy =>
      let u := source ++ written x in
      '(a, as') ← address (cache x) (mode idef) (len u) (addrs x);
      if copy_allowed rule u a n then
        Some {| written := written x ++ copy_out u a (Z.to_nat n); adds := adds x; insts := is';
                addrs := as'; cache := remember (cache x) a |}
      else None
  end.

Definition perform (rule : CopyRule) (source : list byte) (room : Z) (idef : InstDef) (x : Window)
    : option Window :=
  if bool_decide (ty idef = Noop) then Some x else
  '(n, is') ← inst_size idef (insts x); perform_sized rule source room idef n is' x.

(** A window runs to its output: opcodes are performed while the window has room, and
    nothing may be left over. *)
Inductive window_runs (rule : CopyRule) (source : list byte) (room : Z)
    (table : list CodeEntry) (limits : VcdiffLimits) : Z → Window → list byte → Prop :=
  | runs_done n x :
      len (written x) = room → adds x = [] → insts x = [] → addrs x = [] →
      window_runs rule source room table limits n x (written x)
  | runs_opcode n x code is' entry x1 x2 out :
      len (written x) < room → n + 1 ≤ max_instruction_count limits →
      insts x = code :: is' → table !! Z.to_nat (byte_val code) = Some entry →
      perform rule source room (inst1 entry)
        {| written := written x; adds := adds x; insts := is'; addrs := addrs x;
           cache := cache x |} = Some x1 →
      perform rule source room (inst2 entry) x1 = Some x2 →
      window_runs rule source room table limits (n + 1) x2 out →
      window_runs rule source room table limits n x out.

(** The machine whose buffer holds earlier windows, what this window has written, and
    zeros. *)
Definition machine (D I A pre : list byte) (room : Z) (x : Window) : Machine :=
  {| output := pre ++ written x ++ zeros (room - len (written x));
     target_pos := len pre + len (written x); data_reader := at_suffix D (adds x);
     inst_reader := at_suffix I (insts x); addr_reader := at_suffix A (addrs x);
     addr_cache := cache x |}.

(** What the sections and the cache satisfy along a run. *)
Definition window_ok (D I A : list byte) (room : Z) (x : Window) : Prop :=
  reads D (adds x) ∧ reads I (insts x) ∧ reads A (addrs x) ∧ cache_ok (cache x)
  ∧ len (written x) ≤ room.

(** ** What a patch means *)

(** The parts of a window: source segment, size, the three sections, the rest. *)
Record Parts := {
  source : list byte; room : Z; add_run : list byte; inst : list byte; addr : list byte;
  rest : list byte }.

(** A slice of [seg], when it lies inside. *)
Definition segment_of (seg : list byte) (p n : Z) : option (list byte) :=
  if p + n <=? len seg then Some (slice seg p (p + n)) else None.

Definition parse_source (base out : list byte) (wi : Z) (s : list byte)
    : option (list byte * list byte) :=
  match wi with
  | 0 => Some ([], s)
  | 1 | 2 =>
      '(n, s) ← varint s 0; '(p, s) ← varint s 0;
      seg ← segment_of (if wi =? 1 then base else out) p n; Some (seg, s)
  | _ => None
  end.

Definition parse_sections (out : list byte) (limits : VcdiffLimits) (s : list byte)
    : option (Z * list byte * list byte * list byte * list byte) :=
  '(del, s0) ← varint s 0;
  if len s0 <? del then None else
  '(twl, s) ← varint s0 0;
  if max_output_size limits <? len out + twl then None else
  match s with
  | [] => None
  | di :: s =>
      if negb (byte_val di mod 8 =? 0) then None else
      '(la, s) ← varint s 0; '(li, s) ← varint s 0; '(ld, s) ← varint s 0;
      if len s <? la + li + ld then None else
      let rest := drop (Z.to_nat (la + li + ld)) s in
      if negb (len s0 - len rest =? del) then None else
      Some (twl, take (Z.to_nat la) s, slice s la (la + li), slice s (la + li) (la + li + ld), rest)
  end.

Definition parse_window (base out : list byte) (limits : VcdiffLimits) (s : list byte)
    : option Parts :=
  match s with
  | [] => None
  | wi :: s =>
      '(src, s) ← parse_source base out (byte_val wi) s;
      '(twl, ar, is', ad, rest) ← parse_sections out limits s;
      Some {| source := src; room := twl; add_run := ar; inst := is'; addr := ad; rest := rest |}
  end.

(** Windows up to the end of the patch, each appending its output. *)
Inductive patch_runs (rule : CopyRule) (base : list byte) (limits : VcdiffLimits)
    : Z → list byte → list byte → list byte → Prop :=
  | patch_end k out : patch_runs rule base limits k out [] out
  | patch_window k out s p w fin :
      k < max_window_count limits → parse_window base out limits s = Some p →
      window_runs rule (source p) (room p) build_default_code_table limits 0
        {| written := []; adds := add_run p; insts := inst p; addrs := addr p;
           cache := new_cache |} w →
      patch_runs rule base limits (k + 1) (out ++ w) (rest p) fin →
      patch_runs rule base limits k out s fin.

(** A patch that is valid for a base and a target size, and the target it describes. *)
Definition patch_valid (rule : CopyRule) (base patch : list byte) (n : Z)
    (limits : VcdiffLimits) (t : list byte) : Prop :=
  len patch ≤ max_patch_size limits ∧ len t = n ∧ ∃ hi body,
    patch = VCDIFF_STREAM_HEADER
            ++ hi :: (if Z.testbit (byte_val hi) 0 then x00 :: body else body)
    ∧ Z.testbit (byte_val hi) 1 = false ∧ patch_runs rule base limits 0 [] body t.

(** A copy that does not overlap itself takes a slice. *)
Lemma copy_out_slice u a n :
  n = 0 ∨ 0 ≤ a ∧ 0 ≤ n ∧ a + n ≤ len u → copy_out u a (Z.to_nat n) = slice u a (a + n).
Proof.
  intros [->|(Ha & Hn & Hl)]; [by rewrite Z.add_0_r, slice_empty|].
  rewrite <- (Z2Nat.id n) in Hl |- * by lia. rewrite Nat2Z.id. clear Hn.
  generalize (Z.to_nat n) Hl. clear n Hl. intros n. revert u a Ha.
  induction n as [|n IH]; intros u a Ha Hl; [cbn; by rewrite Z.add_0_r, slice_empty|].
  cbn [copy_out]. destruct (lookup_lt_is_Some_2 u (Z.to_nat a)) as [b Hb]; [unfold len in Hl; lia|].
  rewrite Hb. cbn [default from_option id]. 
  rewrite IH by (rewrite ?len_app; pose proof (len_nonneg [b]); lia).
  pose proof (slice_cons u a (Z.of_nat n) b ltac:(lia) ltac:(lia) Hb) as Hs.
  replace (a + Z.of_nat (S n)) with (a + (1 + Z.of_nat n)) by lia. rewrite Hs. f_equal.
  unfold slice. rewrite drop_app_le by (unfold len in Hl; lia).
  apply take_app_le. rewrite length_drop. unfold len in Hl. lia.
Qed.

(** ** The decoder against the semantics *)

Section simulation.
Context (oc : bool).

Lemma lookup_fits (l : list Z) i a : Forall (fits 64) l → l !! i = Some a → fits 64 a.
Proof. intros H Hi. by eapply Forall_lookup_1. Qed.
Lemma lookup_in {A} (l : list A) i : 0 ≤ i < len l → ∃ x, l !! Z.to_nat i = Some x.
Proof. intros. apply lookup_lt_is_Some_2. unfold len in *. lia. Qed.

Lemma decode_address_at c A s md here :
  cache_ok c → reads A s → 0 ≤ md → 0 ≤ here < 2 ^ 64 →
  match address c md here s with
  | Some (a, s') => decode_address oc c md here (at_suffix A s) = Ok (a, at_suffix A s')
                    ∧ fits 64 a ∧ s' `suffix_of` s
  | None => ∃ e, decode_address oc c md here (at_suffix A s) = Err e
  end.
Proof.
  intros (Hn & Hs & Fn & Fs & _) HA Hm Hh. unfold address, decode_address, S_NEAR, S_SAME.
  pose proof (read_varint_at oc A s HA) as Hv.
  pose proof (varint_range s 0) as Hr. pose proof (varint_suffix s 0) as Hx.
  unfold fits in *.
  destruct (Z.eqb_spec md 0).
  { destruct (varint s 0) as [[v s']|]; [|exact Hv].
    specialize (Hr _ _ ltac:(lia) eq_refl). specialize (Hx _ _ eq_refl) as [Hx _]. done. }
  destruct (Z.eqb_spec md 1).
  { destruct (varint s 0) as [[v s']|]; cbn [mbind option_bind].
    2:{ destruct Hv as [er ->]. by eexists. }
    rewrite Hv. cbn [mbind result_bind]. specialize (Hr _ _ ltac:(lia) eq_refl).
    specialize (Hx _ _ eq_refl) as [Hx _]. unfold checked_sub.
    destruct (Z.leb_spec v here); cbn; [|by eexists]. split_and!; (done || lia). }
  rewrite (proj2 (Z.leb_le 2 md)) by lia. cbn [andb].
  destruct (Z.leb_spec md 5).
  { rewrite (proj2 (Z.leb_le md (1 + 4))) by lia.
    destruct (varint s 0) as [[v s']|]; cbn [mbind option_bind].
    2:{ destruct Hv as [er ->]. by eexists. }
    rewrite Hv. cbn [mbind result_bind]. specialize (Hr _ _ ltac:(lia) eq_refl).
    specialize (Hx _ _ eq_refl) as [Hx _].
    destruct (lookup_in (near c) (md - 2) ltac:(lia)) as [x Ex].
    rewrite Ex, (index_r_cons _ _ x) by (done || lia). cbn [mbind result_bind from_option Datatypes.id].
    pose proof (lookup_fits _ _ _ Fn Ex) as Hfx. unfold fits in Hfx. unfold checked_add.
    destruct (Z.ltb_spec (x + v) (2 ^ 64)); cbn; [|by eexists]. split_and!; (done || lia). }
  rewrite (proj2 (Z.leb_gt md (1 + 4))) by lia. rewrite (proj2 (Z.leb_le (2 + 4) md)) by lia.
  cbn [andb]. destruct (Z.leb_spec md 8).
  2:{ rewrite (proj2 (Z.leb_gt md (1 + 4 + 3))) by lia. by eexists. }
  rewrite (proj2 (Z.leb_le md (1 + 4 + 3))) by lia.
  destruct s as [|b s]; [destruct (read_u8_nil oc A) as [er ->]; by eexists|].
  rewrite read_u8_cons by done. cbn [mbind result_bind]. pose proof (byte_val_range b).
  destruct (lookup_in (same c) ((md - 6) * 256 + byte_val b) ltac:(lia)) as [x Ex].
  change (2 + 4) with 6. rewrite Ex, (index_r_cons _ _ x) by (done || lia). cbn.
  split_and!; [done|by apply (lookup_fits _ _ _ Fs Ex)..|by apply suffix_cons_r].
Qed.

Lemma store_r_fits {E A} (l : list A) i x :
  0 ≤ i < len l → @store_r E A l i x = Ok (<[Z.to_nat i := x]> l).
Proof. intros. unfold store_r. case_match eqn:D; [done|lia]. Qed.

Lemma update_at c a :
  cache_ok c → fits 64 a → near_next c + 1 < 2 ^ 64 →
  update oc c a = Ok (remember c a) ∧ cache_ok (remember c a).
Proof.
  intros (Hn & Hs & Fn & Fs & H0) Ha Hb. unfold update, remember, S_NEAR, S_SAME. change (3 * 256) with 768.
  pose proof (Z.mod_pos_bound (near_next c) 4 ltac:(lia)).
  pose proof (Z.mod_pos_bound a 768 ltac:(lia)).
  rewrite store_r_fits by lia. cbn [mbind result_bind]. rewrite plain_add_fits by lia.
  cbn [mbind result_bind]. rewrite store_r_fits by lia. split; [done|].
  unfold cache_ok, len in *. cbn [near same near_next]. rewrite !length_insert.
  split_and!; try done; [by apply Forall_insert..|lia].
Qed.

(** How an operation ended: as described, or with an error; a debug build may also
    panic, and a release build may then go on with other bytes instead. *)
Definition strays {X} (r : result PatchError.t X) (other : X → Prop) : Prop :=
  (∃ e, r = Err e) ∨ (oc = true ∧ r = Panic) ∨ (oc = false ∧ ∃ x, r = Ok x ∧ other x).

Lemma strays_impl {X} r (P Q : X → Prop) : strays r P → (∀ x, P x → Q x) → strays r Q.
Proof. unfold strays. naive_solver. Qed.

(** One byte of a COPY: read inside the virtual array [source ++ w], it is that byte. *)
Lemma copy_loop_step source w pre acc y rest addr is_ :
  len source < 2 ^ 63 → len pre + len w + len acc + (1 + len rest) < 2 ^ 63 →
  0 ≤ addr → addr + len acc < 2 ^ 64 →
  let u := source ++ w in
  let loop buf := copy_loop oc source addr (len pre) (len pre + len w) is_ buf in
  let r := copy_loop oc source addr (len pre) (len pre + len w) (len acc :: is_)
             (pre ++ w ++ acc ++ y :: rest) in
  match u !! Z.to_nat (addr + len acc) with
  | Some b => r = loop (pre ++ w ++ (acc ++ [b]) ++ rest)
  | None => (∃ e, r = Err e) ∨ (oc = true ∧ r = Panic)
            ∨ (oc = false ∧ ∃ b, r = loop (pre ++ w ++ (acc ++ [b]) ++ rest))
  end.
Proof.
  intros Hs Hb Ha Hx u loop r. subst r. cbn [copy_loop].
  pose proof (len_nonneg source). pose proof (len_nonneg w). pose proof (len_nonneg pre).
  pose proof (len_nonneg acc). pose proof (len_nonneg rest).
  rewrite (plain_add_fits oc addr (len acc)) by lia. cbn [mbind result_bind].
  set (src := addr + len acc) in *.
  assert (Hst : ∀ b, (dst ← plain_add oc (len pre + len w) (len acc);
      output ← store_r (pre ++ w ++ acc ++ y :: rest) dst b; loop output)
    = loop (pre ++ w ++ (acc ++ [b]) ++ rest)).
  { intros b. rewrite plain_add_fits by lia. cbn [mbind result_bind].
    rewrite store_r_fits by (autorewrite with len; lia). cbn [mbind result_bind]. f_equal.
    replace (Z.to_nat (len pre + len w + len acc))
      with (length pre + (length w + (length acc + 0)))%nat by (unfold len; lia).
    rewrite !insert_app_r. cbn. by rewrite <- (app_assoc acc). }
  fold loop. destruct (Z.ltb_spec src (len source)).
  { destruct (lookup_in source src ltac:(lia)) as [b Eb].
    unfold u. rewrite lookup_app_l, Eb by (unfold len in *; lia).
    rewrite (index_r_cons _ _ b) by (done || lia). cbn [mbind result_bind]. apply Hst. }
  rewrite sub_r_fits by lia. cbn [mbind result_bind].
  destruct (Z.ltb_spec src (len u)) as [Hu|Hu]; unfold u in Hu |- *; rewrite len_app in Hu.
  { destruct (lookup_in w (src - len source) ltac:(lia)) as [b Eb].
    rewrite lookup_app_r by (unfold len in *; lia).
    replace (Z.to_nat src - length source)%nat with (Z.to_nat (src - len source)) by (unfold len in *; lia).
    rewrite Eb, (plain_add_fits oc (len pre)) by lia. cbn [mbind result_bind].
    rewrite Zge_false by lia. rewrite (index_r_cons _ _ b); [apply Hst|lia|].
    rewrite lookup_app_r by (unfold len in *; lia). rewrite lookup_app_l; [|unfold len in *; lia].
    rewrite <- Eb. f_equal. unfold len in *. lia. }
  rewrite lookup_ge_None_2 by (rewrite length_app; unfold len in *; lia).
  destruct (Z.ltb_spec (len pre + (src - len source)) (2 ^ 64)).
  { left. rewrite (plain_add_fits oc (len pre)) by lia. cbn [mbind result_bind].
    rewrite Zge_true by lia. by eexists. }
  right. rewrite (plain_add_wraps oc (len pre)) by lia.
  destruct oc; [by left|]. right. split; [done|]. cbn [mbind result_bind].
  rewrite <- (Z.mod_unique_pos _ (2 ^ 64) 1 (len pre + (src - len source) - 2 ^ 64)) by lia.
  rewrite Zge_false by lia.
  destruct (lookup_in (pre ++ w ++ acc ++ y :: rest) (len pre + (src - len source) - 2 ^ 64))
    as [b Eb]; [autorewrite with len; lia|].
  exists b. rewrite (index_r_cons _ _ b) by (done || lia). apply Hst.
Qed.

(** The whole loop: inside the virtual array it appends the copied slice. *)
Lemma copy_loop_cases source w pre (k : nat) acc rest addr :
  len source < 2 ^ 63 → len pre + len w + len acc + len rest < 2 ^ 63 → Z.of_nat k ≤ len rest →
  0 ≤ addr → addr + len acc + Z.of_nat k ≤ 2 ^ 64 →
  let u := source ++ w in
  let a := addr + len acc in
  let r := copy_loop oc source addr (len pre) (len pre + len w) (seqZ (len acc) (Z.of_nat k))
             (pre ++ w ++ acc ++ rest) in
  if (Z.of_nat k =? 0) || (a + Z.of_nat k <=? len u)
  then r = Ok (pre ++ w ++ (acc ++ slice u a (a + Z.of_nat k)) ++ drop k rest)
  else strays r (λ o, ∃ cs, len cs = Z.of_nat k ∧ o = pre ++ w ++ (acc ++ cs) ++ drop k rest).
Proof.
  revert acc rest. induction k as [|k IH]; intros acc rest Hs Hb Hk Ha Hx u a; cbv zeta.
  { cbn. by rewrite Z.add_0_r, slice_empty, app_nil_r. }
  destruct rest as [|y rest]; [rewrite len_nil in Hk; lia|]. rewrite len_cons in *.
  replace (Z.of_nat (S k)) with (1 + Z.of_nat k) in * by lia. rewrite seqZ_S by lia.
  pose proof (copy_loop_step source w pre acc y rest addr (seqZ (len acc + 1) (Z.of_nat k))) as Hstep.
  specialize (Hstep ltac:(lia) ltac:(lia) ltac:(lia) ltac:(lia)). cbv zeta in Hstep. fold u a in Hstep.
  rewrite (proj2 (Z.eqb_neq (1 + Z.of_nat k) 0)) by lia. cbn [orb].
  assert (IHb : ∀ b, let r := copy_loop oc source addr (len pre) (len pre + len w)
      (seqZ (len acc + 1) (Z.of_nat k)) (pre ++ w ++ (acc ++ [b]) ++ rest) in
    if (Z.of_nat k =? 0) || (a + 1 + Z.of_nat k <=? len u)
    then r = Ok (pre ++ w ++ (acc ++ b :: slice u (a + 1) (a + 1 + Z.of_nat k)) ++ drop k rest)
    else strays r (λ o, ∃ cs, len cs = 1 + Z.of_nat k ∧ o = pre ++ w ++ (acc ++ cs) ++ drop k rest)).
  { intros b. specialize (IH (acc ++ [b]) rest). autorewrite with len in IH.
    specialize (IH ltac:(lia) ltac:(lia) ltac:(lia) ltac:(lia) ltac:(lia)). cbv zeta in IH |- *.
    fold u in IH. replace (addr + (len acc + (1 + 0))) with (a + 1) in IH by lia.
    change (1 + 0) with 1 in IH.
    destruct (_ || _); [by rewrite IH, <- (app_assoc acc)|].
    eapply strays_impl; [exact IH|]. intros o (cs & Hc & ->). exists (b :: cs).
    rewrite len_cons, <- (app_assoc acc). split; [lia|done]. }
  destruct (u !! Z.to_nat a) as [b|] eqn:Eb.
  - rewrite Hstep. specialize (IHb b). cbv zeta in IHb.
    pose proof (len_nonneg acc). apply lookup_lt_Some in Eb as Hlt.
    replace ((Z.of_nat k =? 0) || (a + 1 + Z.of_nat k <=? len u))
      with (a + (1 + Z.of_nat k) <=? len u) in IHb by (unfold len in *; lia).
    destruct (_ <=? _); [|exact IHb].
    by rewrite IHb, (slice_cons u a (Z.of_nat k) b) by (done || lia).
  - apply lookup_ge_None_1 in Eb. rewrite (proj2 (Z.leb_gt _ _)) by (unfold len in *; lia).
    destruct Hstep as [?|[?|(Hoc & b & ->)]]; [by left|by right; left|].
    specialize (IHb b). cbv zeta in IHb. destruct (_ || _) eqn:D; [|exact IHb].
    right. right. split; [done|]. eexists. split; [exact IHb|]. eexists. split; [|done].
    assert (k = 0%nat) as -> by (unfold len in *; lia).
    by rewrite Z.add_0_r, slice_empty.
Qed.
Lemma read_size_at I s idef :
  reads I s → 0 ≤ size idef < 256 →
  match inst_size idef s with
  | Some (n, s') => read_size oc idef (at_suffix I s) = Ok (n, at_suffix I s')
                    ∧ 0 ≤ n < 2 ^ 64 ∧ s' `suffix_of` s
  | None => ∃ e, read_size oc idef (at_suffix I s) = Err e
  end.
Proof.
  intros HI Hs. unfold inst_size, read_size. destruct (Z.eqb_spec (size idef) 0).
  2:{ split_and!; [done|lia..|done]. }
  pose proof (read_varint_at oc I s HI) as Hv.
  destruct (varint s 0) as [[v s']|] eqn:Ev; [|destruct Hv as [er ->]; by eexists].
  rewrite Hv. cbn [mbind result_bind]. apply varint_range in Ev as Hr; [|lia].
  apply varint_suffix in Ev as [Hx _]. by rewrite try_from_fits by lia.
Qed.

(** The state a step leads to: sections only shrink, the cache index moves by one. *)
Definition advanced (D I A : list byte) (room : Z) (x x' : Window) : Prop :=
  window_ok D I A room x' ∧ insts x' `suffix_of` insts x
  ∧ near_next (cache x') ≤ near_next (cache x) + 1.

Lemma zeros_split n k : 0 ≤ k ≤ n → zeros n = zeros k ++ zeros (n - k).
Proof.
  intros. unfold zeros. rewrite <- replicate_add. f_equal. lia.
Qed.
(** Writing the next bytes of a window. *)
Lemma window_write pre w room src :
  len w + len src ≤ room →
  copy_at (pre ++ w ++ zeros (room - len w)) (len pre + len w) src
  = pre ++ (w ++ src) ++ zeros (room - len (w ++ src)).
Proof.
  intros Hl. pose proof (len_nonneg w). pose proof (len_nonneg src). rewrite app_assoc.
  replace (len pre + len w) with (len (pre ++ w)) by (by rewrite len_app).
  rewrite copy_at_app by (rewrite len_zeros; lia).
  rewrite (zeros_split (room - len w) (len src)) by lia.
  replace (length src) with (length (zeros (len src))) by (unfold zeros, len; rewrite length_replicate; lia).
  rewrite drop_app_length, len_app, Z.sub_add_distr. by rewrite <- !app_assoc.
Qed.
Lemma window_grow pre w room n cs :
  0 ≤ n → len w + n ≤ room → len cs = n →
  pre ++ w ++ cs ++ drop (Z.to_nat n) (zeros (room - len w))
  = pre ++ (w ++ cs) ++ zeros (room - len (w ++ cs)).
Proof.
  intros Hn Hr Hc. rewrite (zeros_split (room - len w) n) by lia.
  rewrite drop_app_length' by (unfold zeros; by rewrite length_replicate).
  rewrite len_app, Hc, Z.sub_add_distr. by rewrite <- !app_assoc.
Qed.

Section step.
Context (D I A pre source : list byte) (room : Z) (x : Window) (idef : InstDef).
Hypothesis (Hx : window_ok D I A room x) (Hmode : 0 ≤ mode idef).
Hypothesis (Hsource : len source < 2 ^ 63) (Hroom : len pre + room < 2 ^ 63).
Hypothesis (Hnext : near_next (cache x) + 1 < 2 ^ 64).

(** The machine follows the semantics, or strays where the semantics is undefined. *)
Definition follows (r : result PatchError.t Machine) (o : option Window) : Prop :=
  match o with
  | Some x' => r = Ok (machine D I A pre room x') ∧ advanced D I A room x x'
  | None => strays r (λ m, ∃ x', m = machine D I A pre room x' ∧ advanced D I A room x x')
  end.

Let exec n s' :=
  exec_sized oc source (len pre) (len pre + room) idef n (at_suffix I s')
    (machine D I A pre room x).

Lemma exec_past n s' :
  0 ≤ n < 2 ^ 64 → room < len (written x) + n → ty idef ≠ Noop → ∃ e, exec n s' = Err e.
Proof.
  intros Hn Hpast Hty. destruct Hx as (HD & HI & HA & Hc & Hw).
  pose proof (len_nonneg pre). pose proof (len_nonneg (written x)).
  assert (Hend : ∀ X (f : Z → result PatchError.t X) e1 e2,
    ∃ e, (out_end ← ok_or (checked_add 64 (len pre + len (written x)) n) e1;
          if out_end >? len pre + room then Err e2 else f out_end) = Err e).
  { intros X f e1 e2. destruct (checked_add _ _ _) as [z|] eqn:E; [|by eexists].
    apply checked_add_Some in E as [-> _]. cbn. rewrite Zgt_true by lia. by eexists. }
  unfold exec, exec_sized, machine. cbn [target_pos output data_reader addr_reader addr_cache].
  destruct (ty idef) eqn:Et; [done| | |].
  - pose proof (read_bytes_at D (adds x) n HD Hn) as Hr.
    destruct (n <=? len (adds x)); [rewrite Hr|destruct Hr as [er ->]; by eexists]. apply Hend.
  - destruct (adds x) as [|b ds] eqn:Ea.
    + destruct (read_u8_nil oc D) as [er ->]. by eexists.
    + rewrite read_u8_cons by done. apply Hend.
  - rewrite sub_r_fits by lia. cbn [mbind result_bind].
    rewrite plain_add_fits by lia. cbn [mbind result_bind].
    pose proof (decode_address_at (cache x) A (addrs x) (mode idef)
      (len source + (len pre + len (written x) - len pre)) Hc HA Hmode
      ltac:(pose proof (len_nonneg source); lia)) as Hd.
    destruct (address _ _ _ _) as [[a s2]|]; [|destruct Hd as [er ->]; by eexists].
    destruct Hd as (-> & Hf & _). cbn [mbind result_bind].
    destruct (update_at (cache x) a Hc Hf Hnext) as [-> _]. cbn [mbind result_bind].
    unfold fits in Hf. rewrite try_from_fits by lia. cbn [ok_or mbind result_bind]. apply Hend.
Qed.

Lemma advance w' ds is' as' c' :
  reads D ds → is' `suffix_of` insts x → reads A as' → cache_ok c' → len w' ≤ room →
  near_next c' ≤ near_next (cache x) + 1 →
  advanced D I A room x
    {| written := w'; adds := ds; insts := is'; addrs := as'; cache := c' |}.
Proof.
  destruct Hx as (HD & HI & HA & Hc & Hw). intros. split; [|done].
  split_and!; try done. by eapply reads_suffix.
Qed.

Lemma exec_add n is' :
  ty idef = Add → 0 ≤ n → len (written x) + n ≤ room → is' `suffix_of` insts x →
  follows (exec n is') (perform_sized NoOverlap source room idef n is' x).
Proof.
  intros Et Hn Hr His. destruct Hx as (HD & HI & HA & Hc & Hw).
  pose proof (len_nonneg pre). pose proof (len_nonneg (written x)).
  unfold exec, exec_sized, perform_sized, machine.
  cbn [target_pos output data_reader addr_reader addr_cache]. rewrite Et.
  rewrite (proj2 (Z.ltb_ge _ _)) by lia.
  pose proof (read_bytes_at D (adds x) n HD ltac:(lia)) as Hb.
  destruct (Z.leb_spec n (len (adds x))); [|left; destruct Hb as [er ->]; by eexists].
  destruct (len_take_drop (adds x) n ltac:(lia)) as [Ht _].
  rewrite Hb. cbn [mbind result_bind]. rust_ok.
  rewrite slice_r_fits by (rewrite ?len_app, ?len_zeros; lia). cbn [mbind result_bind].
  rewrite len_slice, Ht by (rewrite ?len_app, ?len_zeros; lia).
  replace (negb _) with false by lia.
  rewrite copy_at_r_fits by (rewrite ?len_app, ?len_zeros; lia). cbn [mbind result_bind].
  rewrite window_write by lia. split.
  - unfold machine. cbn [written adds insts addrs cache]. do 2 f_equal. rewrite len_app. lia.
  - apply advance; try done; [|rewrite len_app; lia|lia].
    eapply reads_suffix; [exact HD|]. apply suffix_drop.
Qed.

Lemma exec_run n is' :
  ty idef = Run → 0 ≤ n → len (written x) + n ≤ room → is' `suffix_of` insts x →
  follows (exec n is') (perform_sized NoOverlap source room idef n is' x).
Proof.
  intros Et Hn Hr His. destruct Hx as (HD & HI & HA & Hc & Hw).
  pose proof (len_nonneg pre). pose proof (len_nonneg (written x)).
  unfold exec, exec_sized, perform_sized, machine.
  cbn [target_pos output data_reader addr_reader addr_cache]. rewrite Et.
  rewrite (proj2 (Z.ltb_ge _ _)) by lia.
  destruct (adds x) as [|b ds] eqn:Ea; [left; destruct (read_u8_nil oc D) as [er ->]; by eexists|].
  rewrite read_u8_cons by done. cbn [mbind result_bind]. rust_ok.
  rewrite slice_r_fits by (rewrite ?len_app, ?len_zeros; lia). cbn [mbind result_bind].
  set (dst := slice _ _ _).
  assert (Hd : len dst = n) by (unfold dst; rewrite len_slice; rewrite ?len_app, ?len_zeros; lia).
  replace ((λ _, b) <$> dst) with (replicate (Z.to_nat n) b).
  2:{ rewrite <- Hd. unfold len. rewrite Nat2Z.id. clear. induction dst; cbn; congruence. }
  assert (Hrep : len (replicate (Z.to_nat n) b) = n) by (unfold len; rewrite length_replicate; lia).
  rewrite copy_at_r_fits by (rewrite ?len_app, ?len_zeros; lia). cbn [mbind result_bind].
  rewrite window_write by lia. split.
  - unfold machine. cbn [written adds insts addrs cache]. do 2 f_equal. rewrite len_app. lia.
  - apply advance; try done; [by eapply reads_cons|rewrite len_app; lia|lia].
Qed.

Lemma exec_copy n is' :
  ty idef = Copy → 0 ≤ n → len (written x) + n ≤ room → is' `suffix_of` insts x →
  follows (exec n is') (perform_sized NoOverlap source room idef n is' x).
Proof.
  intros Et Hn Hr His. destruct Hx as (HD & HI & HA & Hc & Hw).
  pose proof (len_nonneg pre). pose proof (len_nonneg (written x)). pose proof (len_nonneg source).
  unfold exec, exec_sized, perform_sized, machine.
  cbn [target_pos output data_reader addr_reader addr_cache]. rewrite Et.
  rewrite (proj2 (Z.ltb_ge _ _)) by lia.
  rewrite sub_r_fits by lia. cbn [mbind result_bind].
  rewrite plain_add_fits by lia. cbn [mbind result_bind].
  replace (len source + (len pre + len (written x) - len pre)) with (len (source ++ written x))
    by (rewrite len_app; lia).
  pose proof (decode_address_at (cache x) A (addrs x) (mode idef) (len (source ++ written x))
    Hc HA Hmode ltac:(rewrite len_app; lia)) as Hd.
  destruct (address _ _ _ _) as [[a s2]|]; cbn [mbind option_bind].
  2:{ left. destruct Hd as [er ->]. by eexists. }
  destruct Hd as (-> & Hf & Hs2). cbn [mbind result_bind].
  destruct (update_at (cache x) a Hc Hf Hnext) as [-> Hc']. cbn [mbind result_bind].
  unfold fits in Hf. rust_ok. unfold copy_allowed.
  destruct (Z.ltb_spec (a + n) (2 ^ 64)).
  2:{ left. cbn [andb]. unfold checked_add. rewrite (proj2 (Z.ltb_ge _ _)) by lia. by eexists. }
  rewrite (checked_add_fits 64 a n) by lia. cbn [ok_or mbind result_bind andb].
  pose proof (copy_loop_cases source (written x) pre (Z.to_nat n) [] (zeros (room - len (written x))) a)
    as Hl. rewrite len_nil, len_zeros, Z2Nat.id, Z.add_0_r in Hl by lia. cbn [app] in Hl.
  specialize (Hl ltac:(lia) ltac:(lia) ltac:(lia) ltac:(lia) ltac:(lia)). cbv zeta in Hl.
  rewrite Z.add_0_r in Hl.
  assert (Hadv : ∀ cs, len cs = n → advanced D I A room x
    {| written := written x ++ cs; adds := adds x; insts := is'; addrs := s2;
       cache := remember (cache x) a |}).
  { intros cs Hcs. apply advance; try done; [by eapply reads_suffix|rewrite len_app; lia]. }
  destruct (_ || _) eqn:E.
  - assert (Hsl : len (slice (source ++ written x) a (a + n)) = n).
    { destruct (Z.eqb_spec n 0) as [->|]; [by rewrite Z.add_0_r, slice_empty|].
      rewrite len_slice; lia. }
    rewrite Hl. cbn [mbind result_bind]. rewrite window_grow by (done || lia).
    rewrite copy_out_slice by (destruct (Z.eqb_spec n 0); [by left|right; lia]).
    split; [|by apply Hadv]. unfold machine. cbn [written adds insts addrs cache].
    do 2 f_equal. rewrite len_app. lia.
  - destruct Hl as [[er ->]|[[Hoc ->]|(Hoc & o & -> & cs & Hcs & ->)]].
    + left. by eexists.
    + right. by left.
    + right. right. split; [done|]. cbn [mbind result_bind]. eexists. split; [done|].
      eexists. split; [|by apply (Hadv cs)]. rewrite window_grow by (done || lia).
      unfold machine. cbn [written adds insts addrs cache]. f_equal. rewrite len_app. lia.
Qed.

Lemma exec_inst_follows :
  0 ≤ size idef < 256 →
  follows (exec_inst oc source (len pre) (len pre + room) idef (machine D I A pre room x))
    (perform NoOverlap source room idef x).
Proof.
  intros Hsz. pose proof Hx as (HD & HI & HA & Hc & Hw). unfold exec_inst, perform.
  destruct (bool_decide_reflect (ty idef = Noop)) as [Et|Et].
  { split; [done|]. split_and!; [done..|lia]. }
  pose proof (read_size_at I (insts x) idef HI Hsz) as Hs. cbn [machine inst_reader].
  destruct (inst_size idef (insts x)) as [[n is']|]; cbn [mbind option_bind].
  2:{ left. destruct Hs as [er ->]. by eexists. }
  destruct Hs as (-> & Hn & His). cbn [mbind result_bind].
  destruct (Z.lt_ge_cases room (len (written x) + n)).
  { unfold perform_sized. rewrite (proj2 (Z.ltb_lt _ _)) by lia. left. by apply exec_past. }
  destruct (ty idef) eqn:E; [done|apply exec_add|apply exec_run|apply exec_copy]; done || lia.
Qed.
End step.

(** A table whose entries have the sizes and modes of the format. *)
Definition def_ok (i : InstDef) : bool := (0 <=? size i) && (size i <? 256) && (0 <=? mode i).
Definition table_ok (table : list CodeEntry) : Prop :=
  len table = 256 ∧ Forall (λ e, def_ok (inst1 e) && def_ok (inst2 e) = true) table.

(** Both instructions of an entry. *)
Lemma exec_entry_follows D I A pre source room x entry :
  window_ok D I A room x → def_ok (inst1 entry) && def_ok (inst2 entry) = true →
  len source < 2 ^ 63 → len pre + room < 2 ^ 63 → near_next (cache x) + 2 < 2 ^ 64 →
  let exec i m := exec_inst oc source (len pre) (len pre + room) i m in
  let r := m ← exec (inst1 entry) (machine D I A pre room x); exec (inst2 entry) m in
  let good x' := window_ok D I A room x' ∧ insts x' `suffix_of` insts x
                 ∧ near_next (cache x') ≤ near_next (cache x) + 2 in
  match x1 ← perform NoOverlap source room (inst1 entry) x; perform NoOverlap source room (inst2 entry) x1 with
  | Some x' => r = Ok (machine D I A pre room x') ∧ good x'
  | None => strays r (λ m, ∃ x', m = machine D I A pre room x' ∧ good x')
  end.
Proof.
  intros Hx Hok Hs Hr Hn exec r good. subst r. apply andb_true_iff in Hok as [H1 H2].
  unfold def_ok in H1, H2.
  pose proof (exec_inst_follows D I A pre source room x (inst1 entry) Hx ltac:(lia) Hs Hr
    ltac:(lia) ltac:(lia)) as F1.
  assert (F2 : ∀ x1, advanced D I A room x x1 →
    match perform NoOverlap source room (inst2 entry) x1 with
    | Some x' => exec (inst2 entry) (machine D I A pre room x1) = Ok (machine D I A pre room x')
                 ∧ good x'
    | None => strays (exec (inst2 entry) (machine D I A pre room x1))
                (λ m, ∃ x', m = machine D I A pre room x' ∧ good x')
    end).
  { intros x1 (W1 & S1 & N1).
    pose proof (exec_inst_follows D I A pre source room x1 (inst2 entry) W1 ltac:(lia) Hs Hr
      ltac:(lia) ltac:(lia)) as F.
    assert (Hg : ∀ x', advanced D I A room x1 x' → good x').
    { intros x' (W & Sx & N). split_and!; [done|by etrans|lia]. }
    unfold follows in F. destruct (perform _ _ _ _ x1); [naive_solver|].
    eapply strays_impl; [exact F|]. naive_solver. }
  unfold follows in F1. fold (exec (inst1 entry) (machine D I A pre room x)) in F1.
  destruct (perform NoOverlap source room (inst1 entry) x) as [x1|]; cbn [mbind option_bind].
  { destruct F1 as [-> Ha]. by apply F2. }
  destruct F1 as [[e ->]|[[Hoc ->]|(Hoc & m & -> & x1 & -> & Ha)]].
  - left. by eexists.
  - right. by left.
  - cbn [mbind result_bind]. specialize (F2 x1 Ha). destruct (perform _ _ _ _ x1); [|exact F2].
    right. right. split; [done|]. eexists. split; [apply F2|]. eexists. split; [done|]. apply F2.
Qed.

(** The end of a window. *)
Lemma finish_window_at D I A pre room x :
  len (written x) ≤ room →
  let r := finish_window (len pre + room) (machine D I A pre room x) in
  if (len (written x) =? room) && (len (adds x) =? 0) && (len (addrs x) =? 0)
  then r = Ok (pre ++ written x) else ∃ e, r = Err e.
Proof.
  intros Hw. unfold finish_window, machine.
  cbn [target_pos data_reader addr_reader output]. rewrite !is_empty_at.
  replace (len pre + len (written x) =? len pre + room) with (len (written x) =? room) by lia.
  destruct (Z.eqb_spec (len (written x)) room) as [->|]; cbn [negb andb]; [|by eexists].
  destruct (len (adds x) =? 0); cbn [negb andb]; [|by eexists].
  destruct (len (addrs x) =? 0); cbn [negb andb]; [|by eexists].
  rewrite Z.sub_diag. change (zeros 0) with (@nil byte). by rewrite app_nil_r.
Qed.

(** What the instructions section does: in both builds a window that runs gives its
    output, and the machine ends with an error or a full window otherwise; a debug build
    gives an output only to windows that run. *)
Definition window_outcome (source pre : list byte) (room : Z) (table : list CodeEntry)
    (limits : VcdiffLimits) (n : Z) (x : Window) (r : result PatchError.t (list byte)) : Prop :=
  (∀ out, window_runs NoOverlap source room table limits n x out → r = Ok (pre ++ out))
  ∧ ((∃ out, len out = room ∧ r = Ok (pre ++ out)
        ∧ (oc = true → window_runs NoOverlap source room table limits n x out))
     ∨ (∃ e, r = Err e) ∨ (oc = true ∧ r = Panic)).

Lemma outcome_err source pre room table limits n x r :
  (∃ e, r = Err e) → (∀ out, ¬ window_runs NoOverlap source room table limits n x out) →
  window_outcome source pre room table limits n x r.
Proof. intros He Hr. split; [intros out H; by destruct (Hr out)|]. by right; left. Qed.

Lemma bind_bind3 {E X Y} (m : result E X) (f g : X → result E X) (h : X → result E Y) :
  (m ≫= λ a, f a ≫= g) ≫= h = (m ≫= f) ≫= λ a, g a ≫= h.
Proof. destruct m; cbn; [|done..]. by destruct (f a). Qed.

Lemma inst_loop_nil D I A pre source room table limits fuel n x :
  insts x = [] →
  inst_loop oc (S fuel) source (len pre) (len pre + room) table limits n (machine D I A pre room x)
  = Ok (machine D I A pre room x).
Proof.
  intros Hi. cbn [inst_loop machine inst_reader]. rewrite is_empty_at, Hi.
  change (len [] =? 0) with true. cbn [negb]. rewrite andb_false_r. by destruct (_ || _).
Qed.

Lemma inst_loop_spec D I A pre source room table limits fuel n x :
  window_ok D I A room x → table_ok table → len source < 2 ^ 63 → len pre + room < 2 ^ 63 →
  0 ≤ n → n + len (insts x) < 2 ^ 64 → near_next (cache x) + 2 * len (insts x) < 2 ^ 64 →
  (length (insts x) < fuel)%nat →
  window_outcome source pre room table limits n x
    (inst_loop oc fuel source (len pre) (len pre + room) table limits n (machine D I A pre room x)
     ≫= finish_window (len pre + room)).
Proof.
  revert n x. induction fuel as [|fuel IH]; intros n x Hx Htab Hs Hr Hn Hc Hnext Hf; [lia|].
  pose proof Hx as (HD & HI & HA & Hca & Hw).
  destruct (insts x) as [|code is'] eqn:Ei.
  { rewrite inst_loop_nil by done. cbn [mbind result_bind]. pose proof (finish_window_at D I A pre room x Hw) as Hfin.
    cbv zeta in Hfin. destruct (_ && _) eqn:E.
    - assert (Hrun : window_runs NoOverlap source room table limits n x (written x))
        by (apply runs_done; [lia|by apply len_zero; lia|done|by apply len_zero; lia]).
      split; [|left; exists (written x); split_and!; [lia|done|done]].
      intros out Ho. inversion Ho; subst; [done|congruence].
    - apply outcome_err; [done|]. intros out Ho. inversion Ho as [? ? Hl Ha _ Hb|]; subst; [|congruence].
      by rewrite Ha, Hb, Z.eqb_refl in E. }
  cbn [inst_loop]. cbn [machine target_pos inst_reader data_reader addr_reader output addr_cache].
  rewrite is_empty_at, Ei. rewrite len_cons in *. pose proof (len_nonneg is').
  replace (1 + len is' =? 0) with false by lia. cbn [negb]. rewrite orb_true_r, andb_true_r.
  destruct (Z.leb_spec (len pre + room) (len pre + len (written x))).
  { rewrite Zge_true by lia. apply outcome_err; [by eexists|].
    intros out Ho. inversion Ho; subst; [congruence|lia]. }
  rewrite Zge_false by lia. rewrite plain_add_fits by lia. cbn [mbind result_bind].
  destruct (Z.gtb_spec (n + 1) (max_instruction_count limits)).
  { apply outcome_err; [by eexists|]. intros out Ho. inversion Ho; subst; [congruence|lia]. }
  rewrite read_u8_cons by done. cbn [mbind result_bind].
  destruct Htab as [Hlt Hall]. pose proof (byte_val_range code).
  destruct (lookup_in table (byte_val code) ltac:(lia)) as [entry Ee].
  rewrite (index_r_cons _ _ entry) by (done || lia). cbn [mbind result_bind].
  set (x0 := {| written := written x; adds := adds x; insts := is'; addrs := addrs x;
                cache := cache x |}).
  change {| output := _; target_pos := _ |} with (machine D I A pre room x0).
  rewrite bind_bind3.
  assert (Hx0 : window_ok D I A room x0) by (split_and!; try done; by eapply reads_cons).
  pose proof (exec_entry_follows D I A pre source room x0 entry Hx0) as Hent.
  rewrite Forall_lookup in Hall. specialize (Hent (Hall _ _ Ee) Hs Hr).
  specialize (Hent ltac:(cbn; lia)). cbv zeta in Hent.
  match type of Hent with context [strays ?r _] => set (r12 := r) in Hent end.
  match goal with |- window_outcome _ _ _ _ _ _ _ (?r ≫= _) => change r with r12 end.
  clearbody r12.
  assert (IH' : ∀ x', window_ok D I A room x' ∧ insts x' `suffix_of` insts x0
      ∧ near_next (cache x') ≤ near_next (cache x0) + 2 → window_outcome source pre room table
      limits (n + 1) x' (inst_loop oc fuel source (len pre) (len pre + room) table limits (n + 1)
        (machine D I A pre room x') ≫= finish_window (len pre + room))).
  { intros x' (W & Sx & N). apply suffix_len in Sx as Sl. cbn in N, Sx, Sl.
    apply IH; try done; [by split; [|rewrite Forall_lookup]|lia..|].
    cbn in Hf. unfold len in Sl. lia. }
  assert (Hinv : ∀ out, window_runs NoOverlap source room table limits n x out →
    ∃ x', (x1 ← perform NoOverlap source room (inst1 entry) x0; perform NoOverlap source room (inst2 entry) x1) = Some x'
      ∧ window_runs NoOverlap source room table limits (n + 1) x' out).
  { intros out Ho. inversion Ho as [|? ? c' i' e' x1 x2 ? _ _ Hi He P1 P2 Hrest]; subst; [congruence|].
    rewrite Ei in Hi. injection Hi as <- <-. rewrite Ee in He. injection He as <-.
    fold x0 in P1. rewrite P1. cbn [mbind option_bind]. by exists x2. }
  destruct (x1 ← perform _ _ _ _ x0; perform _ _ _ _ x1) as [x'|] eqn:Hp.
  - destruct Hent as [-> Hg]. cbn [mbind result_bind]. destruct (IH' x' Hg) as [C1 C2]. split.
    + intros out (x2 & [= <-] & Ho)%Hinv. by apply C1.
    + destruct C2 as [(out & Hl & Ho & Hi)|C2]; [left|by right]. exists out. split_and!; try done.
      intros Hoc. destruct (perform NoOverlap source room (inst1 entry) x0) as [x1|] eqn:P1; [|done].
      eapply runs_opcode; try done; [lia|by apply Hi].
  - assert (Hno : ∀ out, ¬ window_runs NoOverlap source room table limits n x out)
      by (intros out (x2 & ? & _)%Hinv; done).
    destruct Hent as [[e ->]|[[Hoc ->]|(Hoc & m & -> & x' & -> & Hg)]].
    + apply outcome_err; [by eexists|done].
    + split; [intros out Ho; by destruct (Hno out)|]. by right; right.
    + cbn [mbind result_bind]. destruct (IH' x' Hg) as [_ C2].
      split; [intros out Ho; by destruct (Hno out)|].
      destruct C2 as [(out & Hl & Ho & _)|C2]; [left|by right]. exists out.
      split_and!; [done..|congruence].
Qed.

Definition start_window (add_run inst addr : list byte) : Window :=
  {| written := []; adds := add_run; insts := inst; addrs := addr; cache := new_cache |}.

Lemma apply_instructions_spec source add_run inst addr room table limits pre :
  table_ok table → len source < 2 ^ 63 → len add_run < 2 ^ 63 → len inst < 2 ^ 63 →
  len addr < 2 ^ 63 → 0 ≤ room → len pre + room ≤ ISIZE_MAX →
  window_outcome source pre room table limits 0 (start_window add_run inst addr)
    (apply_instructions oc source add_run inst addr room table limits pre).
Proof.
  unfold ISIZE_MAX. intros Ht Hs Ha Hi Hd H0 Hr. pose proof (len_nonneg pre).
  pose proof (len_nonneg inst).
  destruct (reads_self add_run Ha) as [R1 E1], (reads_self inst Hi) as [R2 E2],
    (reads_self addr Hd) as [R3 E3].
  unfold apply_instructions, resize, ISIZE_MAX. rust_ok. rewrite Zgt_false by lia.
  cbn [mbind result_bind]. rewrite E1, E2, E3.
  replace {| output := _; target_pos := _ |} with
    (machine add_run inst addr pre room (start_window add_run inst addr)).
  2:{ unfold machine, start_window. cbn [written adds insts addrs cache].
      rewrite len_nil, Z.add_0_r, Z.sub_0_r. f_equal. cbn. do 2 f_equal. lia. }
  apply inst_loop_spec; try done; cbn [start_window insts written cache new_cache near_next]; [|lia..].
  split_and!; try done. split_and!; try done; cbn [near same]; by apply Forall_replicate.
Qed.

Lemma read_usize_at D s what :
  reads D s →
  match varint s 0 with
  | Some (v, s') => read_usize oc (at_suffix D s) what = Ok (v, at_suffix D s')
                    ∧ reads D s' ∧ 0 ≤ v < 2 ^ 64 ∧ s' `suffix_of` s
  | None => ∃ e, read_usize oc (at_suffix D s) what = Err e
  end.
Proof.
  intros HD. unfold read_usize. pose proof (read_varint_at oc D s HD) as Hv.
  destruct (varint s 0) as [[v s']|] eqn:E; [|destruct Hv as [er ->]; by eexists].
  rewrite Hv. cbn [mbind result_bind]. apply varint_range in E as Hr; [|lia].
  apply varint_suffix in E as [Hx _]. rewrite try_from_fits by lia.
  split; [done|]. split; [by eapply reads_suffix|done].
Qed.

Lemma check_segment_at seg p n o b :
  0 ≤ p < 2 ^ 64 → 0 ≤ n < 2 ^ 64 → len seg < 2 ^ 63 →
  match segment_of seg p n with
  | Some r => check_segment seg p n o b = Ok tt ∧ segment oc seg p n = Ok r ∧ len r = n
  | None => ∃ e, check_segment seg p n o b = Err e
  end.
Proof.
  intros Hp Hn Hl. unfold segment_of, check_segment, segment.
  destruct (Z.leb_spec (p + n) (len seg)).
  - rust_ok. rewrite plain_add_fits by lia. cbn [mbind result_bind].
    rewrite slice_r_fits by lia. split_and!; [done..|]. rewrite len_slice; lia.
  - destruct (checked_add _ _ _) as [z|] eqn:E; [|by eexists].
    apply checked_add_Some in E as [-> _]. cbn. rewrite Zgt_true by lia. by eexists.
Qed.

(** The next varint of the header: it is missing, or it is read. *)
Ltac next_varint Hd v s' :=
  match goal with
  | |- context [varint ?s 0] =>
      match goal with
      | |- context [read_usize oc (at_suffix ?D s) ?w] =>
          pose proof (read_usize_at D s w Hd) as Hv;
          destruct (varint s 0) as [[v s']|]; cbn [mbind option_bind];
          [clear Hd; destruct Hv as (-> & Hd & ? & ?); cbn [mbind result_bind]
          |destruct Hv as [er ->]; by eexists]
      end
  end.

Lemma secondary_mask b : Z.land (byte_val b) VCDIFF_DELTA_INDICATOR_SECONDARY_MASK = byte_val b mod 8.
Proof. by destruct b. Qed.

(** The three sections. *)
Lemma read_three {X} D s la li ld (f : list byte → list byte → list byte → ByteReader → result PatchError.t X) :
  reads D s → 0 ≤ la < 2 ^ 64 → 0 ≤ li < 2 ^ 64 → 0 ≤ ld < 2 ^ 64 →
  let r := '(a, r) ← read_bytes (at_suffix D s) la; '(b, r) ← read_bytes r li;
           '(c, r) ← read_bytes r ld; f a b c r in
  if la + li + ld <=? len s
  then r = f (take (Z.to_nat la) s) (slice s la (la + li)) (slice s (la + li) (la + li + ld))
             (at_suffix D (drop (Z.to_nat (la + li + ld)) s))
  else ∃ e, r = Err e.
Proof.
  intros HD Ha Hi Hd r. subst r.
  pose proof (read_bytes_at D s la HD Ha) as R1.
  destruct (Z.leb_spec la (len s)).
  2:{ destruct R1 as [er ->]. rewrite (proj2 (Z.leb_gt _ _)) by lia. by eexists. }
  rewrite R1. cbn [mbind result_bind]. destruct (len_take_drop s la ltac:(lia)) as [_ D1].
  pose proof (reads_suffix D s _ HD (suffix_drop s (Z.to_nat la))) as HD1.
  pose proof (read_bytes_at D _ li HD1 Hi) as R2. rewrite D1 in R2.
  destruct (Z.leb_spec li (len s - la)).
  2:{ destruct R2 as [er ->]. rewrite (proj2 (Z.leb_gt _ _)) by lia. by eexists. }
  rewrite R2. cbn [mbind result_bind]. rewrite drop_drop, <- Z2Nat.inj_add in * by lia.
  destruct (len_take_drop s (la + li) ltac:(lia)) as [_ D2].
  pose proof (reads_suffix D s _ HD (suffix_drop s (Z.to_nat (la + li)))) as HD2.
  pose proof (read_bytes_at D _ ld HD2 Hd) as R3. rewrite D2 in R3.
  destruct (Z.leb_spec ld (len s - (la + li))).
  2:{ destruct R3 as [er ->]. rewrite (proj2 (Z.leb_gt _ _)) by lia. by eexists. }
  rewrite R3, (proj2 (Z.leb_le _ _)) by lia. cbn [mbind result_bind].
  rewrite drop_drop, <- Z2Nat.inj_add by lia. unfold slice.
  replace (la + li - la) with li by lia. by replace (la + li + ld - (la + li)) with ld by lia.
Qed.

Lemma read_sections_at D s limits out :
  reads D s → len out < 2 ^ 63 → max_output_size limits ≤ ISIZE_MAX →
  match parse_sections out limits s with
  | Some (twl, ar, is', ad, rest) =>
      read_sections oc (at_suffix D s) limits out = Ok (twl, ar, is', ad, at_suffix D rest)
      ∧ reads D rest ∧ rest `suffix_of` s ∧ 0 ≤ twl ∧ len out + twl ≤ max_output_size limits
      ∧ len ar < 2 ^ 63 ∧ len is' < 2 ^ 63 ∧ len ad < 2 ^ 63
  | None => ∃ e, read_sections oc (at_suffix D s) limits out = Err e
  end.
Proof.
  unfold ISIZE_MAX. intros HD Ho Hm. pose proof (len_nonneg out). unfold parse_sections, read_sections.
  next_varint HD del s0. pose proof (suffix_len _ _ (proj1 HD)). pose proof (len_nonneg s0).
  replace (remaining (at_suffix D s0)) with (len s0)
    by (unfold remaining, saturating_sub, at_suffix; cbn [data pos]; lia).
  replace (del >? len s0) with (len s0 <? del) by lia.
  destruct (Z.ltb_spec (len s0) del); [by eexists|].
  next_varint HD twl s1.
  destruct (checked_add 64 (len out) twl) as [tot|] eqn:Et; cbn [ok_or mbind result_bind].
  2:{ unfold checked_add in Et. case_match eqn:E; [done|].
      rewrite (proj2 (Z.ltb_lt (max_output_size limits) _)) by lia. by eexists. }
  apply checked_add_Some in Et as [-> _].
  replace (len out + twl >? max_output_size limits) with (max_output_size limits <? len out + twl) by lia.
  destruct (Z.ltb_spec (max_output_size limits) (len out + twl)); [by eexists|].
  destruct s1 as [|di s1]; [destruct (read_u8_nil oc D) as [er ->]; by eexists|].
  rewrite read_u8_cons by done. cbn [mbind result_bind]. apply reads_cons in HD.
  rewrite secondary_mask. destruct (negb (byte_val di mod 8 =? 0)); [by eexists|].
  next_varint HD la s2. next_varint HD li s3. next_varint HD ld s4.
  assert (Hs4 : s4 `suffix_of` s0 ∧ s4 `suffix_of` s).
  { assert (s4 `suffix_of` s0) by (do 2 (etrans; [done|]); etrans; [done|]; etrans; [by apply suffix_cons_r|done]).
    split; [done|]. by etrans. }
  pose proof (len_nonneg s4).
  pose proof (read_three D s4 la li ld (λ a b c r, delta_consumed ← sub_r (pos r) (pos (at_suffix D s0));
    if negb (delta_consumed =? del) then Err (PatchFailed "VCDIFF: delta_encoding_length mismatch")
    else Ok (twl, a, b, c, r)) HD ltac:(lia) ltac:(lia) ltac:(lia)) as H3r.
  cbv zeta in H3r.
  destruct (Z.ltb_spec (len s4) (la + li + ld)); [rewrite (proj2 (Z.leb_gt _ _)) in H3r by lia; exact H3r|].
  rewrite (proj2 (Z.leb_le _ _)) in H3r by lia.
  match type of H3r with ?r = _ => match goal with |- context [read_bytes ?q la ≫= ?f] =>
    change (read_bytes q la ≫= f) with r end end. rewrite H3r. clear H3r.
  destruct (len_take_drop s4 (la + li + ld) ltac:(lia)) as [_ Hdr].
  pose proof (suffix_len _ _ (proj1 Hs4)).
  rewrite sub_r_fits by (cbn [pos at_suffix]; lia). cbn [mbind result_bind].
  replace (pos (at_suffix D (drop (Z.to_nat (la + li + ld)) s4)) - pos (at_suffix D s0))
    with (len s0 - len (drop (Z.to_nat (la + li + ld)) s4)) by (cbn [pos at_suffix]; lia).
  destruct (negb _); [by eexists|]. destruct HD as [HD1 HD2]. pose proof (suffix_len _ _ HD1).
  destruct (len_take_drop s4 la ltac:(lia)) as [Ha _].
  split_and!; try (done || lia).
  - split; [|done]. etrans; [apply suffix_drop|done].
  - etrans; [apply suffix_drop|apply Hs4].
  - rewrite len_slice; lia.
  - rewrite len_slice; lia.
Qed.

(** Which bytes are window indicators. *)
Lemma indicator_cases b :
  (has b VCD_SOURCE && has b VCD_TARGET
   || negb (Z.ldiff (byte_val b) VCDIFF_WINDOW_INDICATOR_KNOWN_MASK =? 0)) = true
  ∧ (∀ base out s, parse_source base out (byte_val b) s = None)
  ∨ b = x00 ∨ b = x01 ∨ b = x02.
Proof. destruct b; first [by right; auto | left; split; [reflexivity|done]]. Qed.

Lemma read_segment_at D s base out wi :
  reads D s → len base < 2 ^ 63 → len out < 2 ^ 63 → wi = x00 ∨ wi = x01 ∨ wi = x02 →
  match parse_source base out (byte_val wi) s with
  | Some (src, s') => ∃ n p, read_segment oc base out wi (at_suffix D s) = Ok (n, p, at_suffix D s')
      ∧ source_bytes oc base out wi p n = Ok src ∧ reads D s' ∧ s' `suffix_of` s
      ∧ len src < 2 ^ 63
  | None => ∃ e, read_segment oc base out wi (at_suffix D s) = Err e
  end.
Proof.
  intros HD Hb Ho Hwi. unfold read_segment, source_bytes.
  unfold parse_source. destruct Hwi as [->|[->| ->]];
    repeat match goal with |- context [has ?b ?f] =>
      let v := eval vm_compute in (has b f) in change (has b f) with v end; cbv iota;
    match goal with |- context [byte_val ?b] =>
      let v := eval vm_compute in (byte_val b) in change (byte_val b) with v end;
    cbv iota; cbn [Z.eqb Pos.eqb].
  { exists 0, 0. split_and!; (done || lia). }
  all: next_varint HD n s1; next_varint HD p s2.
  all: match goal with |- context [check_segment ?seg ?p ?n ?o1 ?b1] =>
      pose proof (check_segment_at seg p n o1 b1 ltac:(lia) ltac:(lia) ltac:(done)) as Hc;
      destruct (segment_of seg p n) as [g|] eqn:Eg; cbn [mbind option_bind];
      [|destruct Hc as [er ->]; by eexists]
    end; destruct Hc as (-> & Hg & Hl); cbn [mbind result_bind].
  all: exists n, p; split_and!; try done; [by etrans|];
    unfold segment_of in Eg; case_match; [lia|done].
Qed.

Lemma decode_window_at D s base out table limits :
  reads D s → len base < 2 ^ 63 → len out < 2 ^ 63 → max_output_size limits ≤ ISIZE_MAX →
  let r := decode_window oc base out (at_suffix D s) table limits out in
  match parse_window base out limits s with
  | Some p =>
      r = (o ← apply_instructions oc (source p) (add_run p) (inst p) (addr p) (room p) table
                 limits out; Ok (o, at_suffix D (rest p)))
      ∧ reads D (rest p) ∧ len (rest p) < len s ∧ 0 ≤ room p
      ∧ len out + room p ≤ max_output_size limits ∧ len (source p) < 2 ^ 63
      ∧ len (add_run p) < 2 ^ 63 ∧ len (inst p) < 2 ^ 63 ∧ len (addr p) < 2 ^ 63
  | None => ∃ e, r = Err e
  end.
Proof.
  intros HD Hb Ho Hm r. subst r. unfold decode_window, parse_window.
  destruct s as [|wi s]; [destruct (read_u8_nil oc D) as [er ->]; by eexists|].
  rewrite read_u8_cons by done. cbn [mbind result_bind]. apply reads_cons in HD.
  destruct (indicator_cases wi) as [[Hbad Hnone]|Hwi].
  { rewrite Hnone. cbn [mbind option_bind]. apply orb_true_iff in Hbad as [H|H].
    - rewrite H. by eexists.
    - destruct (_ && _); [by eexists|]. rewrite H. by eexists. }
  replace (has wi VCD_SOURCE && has wi VCD_TARGET) with false by (by destruct Hwi as [->|[->| ->]]).
  replace (Z.ldiff (byte_val wi) VCDIFF_WINDOW_INDICATOR_KNOWN_MASK) with 0
    by (by destruct Hwi as [->|[->| ->]]). cbn [negb Z.eqb].
  pose proof (read_segment_at D s base out wi HD Hb Ho Hwi) as Hs.
  destruct (parse_source _ _ _ _) as [[src s']|]; cbn [mbind option_bind].
  2:{ destruct Hs as [er ->]. by eexists. }
  destruct Hs as (n & p & -> & Hsrc & HD' & Hsuf & Hls). cbn [mbind result_bind].
  pose proof (read_sections_at D s' limits out HD' Ho Hm) as Hsec.
  destruct (parse_sections _ _ _) as [[[[[twl ar] is'] ad] rest']|]; cbn [mbind option_bind].
  2:{ destruct Hsec as [er ->]. by eexists. }
  destruct Hsec as (-> & HDr & Hsr & H1 & H2 & H3 & H4 & H5). cbn [mbind result_bind].
  rewrite Hsrc. cbn [mbind result_bind source room add_run inst addr rest].
  split_and!; try done. rewrite len_cons. apply suffix_len in Hsr, Hsuf. lia.
Qed.

Lemma default_table_ok : table_ok build_default_code_table.
Proof. split; [reflexivity|]. by apply (bool_decide_unpack _); vm_compute. Qed.

Lemma window_loop_spec D base limits fuel k out s :
  reads D s → len base < 2 ^ 63 → len out ≤ max_output_size limits →
  max_output_size limits ≤ ISIZE_MAX → 0 ≤ k → k + len s < 2 ^ 64 → (length s < fuel)%nat →
  let r := window_loop oc fuel base build_default_code_table limits (at_suffix D s) k out in
  (∀ fin, patch_runs NoOverlap base limits k out s fin → r = Ok fin)
  ∧ ((∃ fin, r = Ok fin ∧ len fin ≤ max_output_size limits
        ∧ (oc = true → patch_runs NoOverlap base limits k out s fin))
     ∨ (∃ e, r = Err e) ∨ (oc = true ∧ r = Panic)).
Proof.
  unfold ISIZE_MAX. revert k out s. induction fuel as [|fuel IH];
    intros k out s HD Hb Ho Hm Hk Hks Hf; [lia|]. cbv zeta. cbn [window_loop]. rewrite is_empty_at.
  destruct s as [|b s0] eqn:Es.
  { cbn. split; [|left; exists out; split_and!; [done..|intros; constructor]].
    intros fin Hr. inversion Hr as [|? ? ? ? ? ? _ Hp]; [done|]. done. }
  rewrite <- Es in *. pose proof (len_nonneg s0).
  assert (Hl : len s = 1 + len s0) by (subst s; by rewrite len_cons).
  replace (len s =? 0) with false by lia.
  pose proof (decode_window_at D s base out build_default_code_table limits HD Hb ltac:(lia)
    ltac:(unfold ISIZE_MAX; lia)) as Hd. cbv zeta in Hd.
  assert (Hinv : ∀ fin, patch_runs NoOverlap base limits k out s fin → ∃ p w,
    k < max_window_count limits ∧ parse_window base out limits s = Some p
    ∧ window_runs NoOverlap (source p) (room p) build_default_code_table limits 0
        (start_window (add_run p) (inst p) (addr p)) w
    ∧ patch_runs NoOverlap base limits (k + 1) (out ++ w) (rest p) fin).
  { intros fin Hr. inversion Hr as [|? ? ? p w ? H1 H2 H3 H4]; [congruence|subst]. by exists p, w. }
  destruct (Z.leb_spec (max_window_count limits) k).
  { rewrite Zge_true by lia. split; [|right; left; by eexists].
    intros fin (p & w & ? & _)%Hinv. lia. }
  rewrite Zge_false, plain_add_fits by lia. cbn [mbind result_bind].
  destruct (parse_window base out limits s) as [p|] eqn:Hp.
  2:{ destruct Hd as [er ->]. split; [|right; left; by eexists].
      intros fin (p & w & _ & ? & _)%Hinv. done. }
  destruct Hd as (-> & HDr & Hlr & H0r & Hro & Hls & Hla & Hli & Hld).
  destruct (apply_instructions_spec (source p) (add_run p) (inst p) (addr p) (room p)
    build_default_code_table limits out default_table_ok Hls Hla Hli Hld H0r
    ltac:(unfold ISIZE_MAX; lia)) as [C1 C2].
  set (r := apply_instructions _ _ _ _ _ _ _ _ _) in *. clearbody r.
  assert (Hinv' : ∀ fin, patch_runs NoOverlap base limits k out s fin → ∃ w, r = Ok (out ++ w)
    ∧ patch_runs NoOverlap base limits (k + 1) (out ++ w) (rest p) fin).
  { intros fin (p' & w & _ & Ep & Hw & Hr)%Hinv. injection Ep as <-. exists w. split; [by apply C1|done]. }
  destruct C2 as [(w & Hw & -> & Hrun)|[[er ->]|[Hoc ->]]]; cbn [mbind result_bind].
  - rewrite Zgt_false by (rewrite len_app; lia).
    destruct (IH (k + 1) (out ++ w) (rest p)) as [I1 I2]; try (done || rewrite ?len_app; lia).
    { unfold len in Hlr. lia. }
    split.
    + intros fin (w' & Ew & Hr)%Hinv'. apply Ok_inj, app_inv_head in Ew as <-. by apply I1.
    + destruct I2 as [(fin & Hfin & Hlf & Hrf)|I2]; [left|by right].
      exists fin. split_and!; try done. intros Hoc.
      eapply patch_window; [lia|exact Hp|by apply Hrun|by apply Hrf].
  - split; [by intros fin (w' & ? & _)%Hinv'|right; left; by eexists].
  - split; [by intros fin (w' & ? & _)%Hinv'|by right; right].
Qed.

Lemma header_bits b :
  negb (Z.land (byte_val b) VCD_DECOMPRESS =? 0) = Z.testbit (byte_val b) 0
  ∧ negb (Z.land (byte_val b) VCD_CODETABLE =? 0) = Z.testbit (byte_val b) 1.
Proof. by destruct b. Qed.

(** What [apply_vcdiff] does on any input. *)
Definition patch_outcome (base patch : list byte) (n : Z) (limits : VcdiffLimits)
    (r : result PatchError.t (list byte)) : Prop :=
  (∀ t, patch_valid NoOverlap base patch n limits t → r = Ok t)
  ∧ ((∃ t, r = Ok t ∧ len t = n ∧ len t ≤ max_output_size limits
        ∧ (oc = true → patch_valid NoOverlap base patch n limits t))
     ∨ (∃ e, r = Err e) ∨ (oc = true ∧ r = Panic)).

Lemma patch_outcome_err base patch n limits r :
  (∃ e, r = Err e) → (∀ t, ¬ patch_valid NoOverlap base patch n limits t) → patch_outcome base patch n limits r.
Proof. intros He Hn. split; [intros t Ht; by destruct (Hn t)|by right; left]. Qed.

(** The part behind the header. *)
Lemma apply_body base patch n limits body :
  reads patch body → len base ≤ ISIZE_MAX → 0 ≤ max_output_size limits ≤ ISIZE_MAX →
  (∀ t, patch_valid NoOverlap base patch n limits t ↔ patch_runs NoOverlap base limits 0 [] body t ∧ len t = n) →
  patch_outcome base patch n limits
    (output_ ← window_loop oc (S (length patch)) base build_default_code_table limits
                 (at_suffix patch body) 0 [];
     if negb (len output_ =? n)
     then Err (PatchFailed
                 "VCDIFF: reconstructed output size does not match expected target size")
     else Ok output_).
Proof.
  unfold ISIZE_MAX. intros HD Hb Hm Hv. pose proof HD as [Hs Hl]. apply suffix_len in Hs.
  destruct (window_loop_spec patch base limits (S (length patch)) 0 [] body) as [W1 W2];
    try (done || rewrite ?len_nil; unfold ISIZE_MAX, len in *; lia).
  split.
  - intros t [Hr Hn]%Hv. rewrite (W1 t Hr). cbn [mbind result_bind].
    by rewrite (proj2 (Z.eqb_eq _ _) Hn).
  - destruct W2 as [(fin & -> & Hlf & Hr)|[[e ->]|[Hoc ->]]]; cbn [mbind result_bind].
    + destruct (Z.eqb_spec (len fin) n); cbn [negb]; [left|right; left; by eexists].
      exists fin. split_and!; try done. intros Hoc. apply Hv. by split; [apply Hr|].
    + right. left. by eexists.
    + by right; right.
Qed.

Lemma apply_vcdiff_cases base patch n limits :
  len patch ≤ ISIZE_MAX → len base ≤ ISIZE_MAX → 0 ≤ max_output_size limits ≤ ISIZE_MAX →
  patch_outcome base patch n limits (apply_vcdiff oc base patch n limits).
Proof.
  intros Hp Hb Hm. assert (Hp' : len patch < 2 ^ 63) by (unfold ISIZE_MAX in Hp; lia).
  unfold apply_vcdiff. destruct (Z.gtb_spec (len patch) (max_patch_size limits)).
  { apply patch_outcome_err; [by eexists|]. intros t [? _]. lia. }
  destruct (reads_self patch Hp') as [HD ->]. unfold expect_bytes.
  pose proof (read_bytes_at patch patch (len VCDIFF_STREAM_HEADER) HD ltac:(done)) as Hr.
  destruct (Z.leb_spec (len VCDIFF_STREAM_HEADER) (len patch)) as [Hle|Hlt].
  2:{ destruct Hr as [er ->]. apply patch_outcome_err; [by eexists|].
      intros t (_ & _ & hi & body & -> & _). rewrite len_app in Hlt.
      pose proof (len_nonneg (hi :: (if Z.testbit (byte_val hi) 0 then x00 :: body else body))). lia. }
  rewrite Hr. cbn [mbind result_bind]. clear Hr.
  destruct (cut_at patch (len VCDIFF_STREAM_HEADER) ltac:(pose proof (len_nonneg VCDIFF_STREAM_HEADER); lia))
    as (m & s & Epatch & Hm').
  replace (take (Z.to_nat (len VCDIFF_STREAM_HEADER)) patch) with m
    by (rewrite <- Hm', Epatch; by rewrite take_len_app).
  replace (drop (Z.to_nat (len VCDIFF_STREAM_HEADER)) patch) with s
    by (rewrite <- Hm', Epatch; by rewrite drop_len_app).
  destruct (bool_decide_reflect (m = VCDIFF_STREAM_HEADER)) as [->|Hne]; cbn [negb mbind result_bind].
  2:{ apply patch_outcome_err; [by eexists|]. intros t (_ & _ & hi & body & E & _).
      rewrite Epatch in E. apply app_inj_1 in E as [? _]; [done|]. unfold len in Hm'. lia. }
  assert (Hval : ∀ t, patch_valid NoOverlap base patch n limits t ↔ len t = n ∧ ∃ hi body,
    s = hi :: (if Z.testbit (byte_val hi) 0 then x00 :: body else body)
    ∧ Z.testbit (byte_val hi) 1 = false ∧ patch_runs NoOverlap base limits 0 [] body t).
  { intros t. unfold patch_valid. split.
    - intros (_ & Hn & hi & body & E & Hr). split; [done|]. exists hi, body.
      rewrite Epatch in E. by apply app_inv_head in E.
    - intros (Hn & hi & body & -> & Hr). split; [done|]. split; [done|]. by exists hi, body. }
  assert (HDs : reads patch s) by (eapply reads_suffix; [exact HD|]; by eexists).
  clear Hle Hm' Epatch HD. destruct s as [|hi s].
  { destruct (read_u8_nil oc patch) as [er ->]. apply patch_outcome_err; [by eexists|].
    by intros t (_ & hi & body & ? & _)%Hval. }
  rewrite read_u8_cons by done. cbn [mbind result_bind]. apply reads_cons in HDs.
  destruct (header_bits hi) as [-> ->]. destruct (Z.testbit (byte_val hi) 0) eqn:B0.
  - destruct s as [|cid s].
    { destruct (read_u8_nil oc patch) as [er ->]. apply patch_outcome_err; [by eexists|].
      intros t (_ & h & body & E & _)%Hval. apply (inj2 cons) in E as [<- E]. by rewrite B0 in E. }
    rewrite read_u8_cons by done. cbn [mbind result_bind]. apply reads_cons in HDs.
    destruct (Z.eqb_spec (byte_val cid) 0) as [Ec|Ec]; cbn [negb mbind result_bind].
    2:{ apply patch_outcome_err; [by eexists|]. intros t (_ & h & body & E & _)%Hval.
        apply (inj2 cons) in E as [<- E]. rewrite B0 in E. by apply (inj2 cons) in E as [-> _]. }
    apply (byte_val_inj cid x00) in Ec as ->. destruct (Z.testbit (byte_val hi) 1) eqn:B1.
    { apply patch_outcome_err; [by eexists|]. intros t (_ & h & body & E & Hb1 & _)%Hval.
      apply (inj2 cons) in E as [<- E]. congruence. }
    apply apply_body; try done. intros t. rewrite Hval. split.
    + intros (Hn & h & body & E & _ & Hr). apply (inj2 cons) in E as [<- E]. rewrite B0 in E.
      by apply (inj2 cons) in E as [_ <-].
    + intros [Hr Hn]. split; [done|]. exists hi, s. by rewrite B0.
  - cbn [mbind result_bind]. destruct (Z.testbit (byte_val hi) 1) eqn:B1.
    { apply patch_outcome_err; [by eexists|]. intros t (_ & h & body & E & Hb1 & _)%Hval.
      apply (inj2 cons) in E as [<- E]. congruence. }
    apply apply_body; try done. intros t. rewrite Hval. split.
    + intros (Hn & h & body & E & _ & Hr). apply (inj2 cons) in E as [<- E]. rewrite B0 in E. by subst body.
    + intros [Hr Hn]. split; [done|]. exists hi, s. by rewrite B0.
Qed.
End simulation.

(** ** The generator against the semantics *)

(** The patch of a non-empty target. *)
Definition add_only (target : list byte) : list byte :=
  let n := len target in
  let inst := byte_of VCDIFF_ADD_VARINT_CODE :: encode_varint n in
  let body := encode_varint n ++ byte_of VCDIFF_DELTA_INDICATOR_NONE :: encode_varint n
              ++ encode_varint (len inst) ++ encode_varint 0 ++ target ++ inst in
  VCDIFF_STREAM_HEADER ++ byte_of VCDIFF_HEADER_INDICATOR_NONE
  :: byte_of VCDIFF_WINDOW_INDICATOR_NONE :: encode_varint (len body) ++ body.

Lemma parse_add_only base target limits n inst body :
  n = len target → inst = byte_of VCDIFF_ADD_VARINT_CODE :: encode_varint n →
  body = encode_varint n ++ byte_of VCDIFF_DELTA_INDICATOR_NONE :: encode_varint n
         ++ encode_varint (len inst) ++ encode_varint 0 ++ target ++ inst →
  n + 100 ≤ ISIZE_MAX → n ≤ max_output_size limits →
  parse_window base [] limits (byte_of VCDIFF_WINDOW_INDICATOR_NONE :: encode_varint (len body) ++ body)
  = Some {| source := []; room := n; add_run := target; inst := inst; addr := []; rest := [] |}.
Proof.
  unfold ISIZE_MAX. intros -> Hi -> Hn Hm. pose proof (len_nonneg target).
  pose proof (encode_varint_len (len target) ltac:(lia)).
  assert (Li : len inst = 1 + len (encode_varint (len target))) by (subst inst; by rewrite len_cons).
  pose proof (encode_varint_len (len inst) ltac:(lia)).
  change (encode_varint 0) with [x00]. cbn [app].
  unfold parse_window. change (byte_val (byte_of VCDIFF_WINDOW_INDICATOR_NONE)) with 0.
  cbn [parse_source mbind option_bind]. unfold parse_sections.
  set (body := encode_varint (len target) ++ _).
  assert (Lb : len body = 2 * len (encode_varint (len target)) + 1 + len (encode_varint (len inst)) + 1
    + len target + len inst).
  { unfold body. rewrite len_app, !len_cons, !len_app, len_cons, len_app. lia. }
  assert (Hv : varint body 0 = Some (len target, byte_of VCDIFF_DELTA_INDICATOR_NONE
    :: encode_varint (len target) ++ encode_varint (len inst) ++ x00 :: target ++ inst))
    by (unfold body; by rewrite varint_encode by lia).
  clearbody body. rewrite varint_encode by lia. cbn [mbind option_bind].
  rewrite (proj2 (Z.ltb_ge _ _)) by lia. rewrite Hv. cbn [mbind option_bind].
  rewrite len_nil, (proj2 (Z.ltb_ge _ _)) by lia.
  change (negb (byte_val (byte_of VCDIFF_DELTA_INDICATOR_NONE) mod 8 =? 0)) with false. cbv iota.
  rewrite varint_encode by lia. cbn [mbind option_bind]. rewrite varint_encode by lia.
  cbn [mbind option_bind].
  change (varint (x00 :: target ++ inst) 0) with (Some (0, target ++ inst)). cbn [mbind option_bind].
  rewrite Z.add_0_r, <- (len_app target inst), Z.ltb_irrefl.
  replace (drop (Z.to_nat (len (target ++ inst))) (target ++ inst)) with (@nil byte)
    by (unfold len; by rewrite Nat2Z.id, drop_all).
  rewrite len_nil, Z.sub_0_r, Z.eqb_refl. cbn [negb mbind option_bind].
  by rewrite take_len_app, slice_empty, slice_app_suffix.
Qed.

Lemma add_only_runs target limits n :
  n = len target → 1 ≤ n < 2 ^ 64 → 1 ≤ max_instruction_count limits →
  window_runs NoOverlap [] n build_default_code_table limits 0
    {| written := []; adds := target;
       insts := byte_of VCDIFF_ADD_VARINT_CODE :: encode_varint n; addrs := []; cache := new_cache |}
    target.
Proof.
  intros -> Hn Hm.
  pose proof (varint_encode (len target) [] ltac:(lia)) as Hv. rewrite app_nil_r in Hv.
  eapply (runs_opcode NoOverlap [] _ _ _ 0 _ _ _ (single (add 0))
    {| written := target; adds := []; insts := []; addrs := []; cache := new_cache |});
    cbn [written adds insts addrs cache single inst1 inst2].
  - rewrite len_nil. lia.
  - lia.
  - done.
  - done.
  - unfold perform. cbn [ty add]. rewrite bool_decide_eq_false_2 by done.
    cbn [insts]. unfold inst_size. cbn [size add]. cbn [Z.eqb]. rewrite Hv. cbn [mbind option_bind].
    unfold perform_sized. cbn [written adds ty add insts addrs cache].
    rewrite len_nil, Z.ltb_irrefl, Z.leb_refl. cbn [app]. unfold len.
    by rewrite Nat2Z.id, take_ge, drop_all by lia.
  - done.
  - by apply (runs_done NoOverlap [] _ _ _ 1 {| written := target; adds := []; insts := [];
      addrs := []; cache := new_cache |}).
Qed.

Lemma add_only_valid base target limits :
  1 ≤ len target → len target + 100 ≤ ISIZE_MAX → len target ≤ max_output_size limits →
  1 ≤ max_window_count limits → 1 ≤ max_instruction_count limits →
  len (add_only target) ≤ max_patch_size limits →
  patch_valid NoOverlap base (add_only target) (len target) limits target.
Proof.
  intros H1 Hn Hm Hw Hi Hp. split; [done|]. split; [done|].
  exists (byte_of VCDIFF_HEADER_INDICATOR_NONE). eexists. split; [reflexivity|]. split; [done|].
  eapply patch_window; [lia|by eapply parse_add_only; [reflexivity..|done|done]| |].
  - apply add_only_runs; [done| |done]. unfold ISIZE_MAX in Hn. cbn [room]. lia.
  - constructor.
Qed.

(** What the generator returns. *)
Lemma generate_vcdiff_spec base target limits :
  len target + 100 ≤ ISIZE_MAX →
  match generate_vcdiff_patch base target limits with
  | Ok p => patch_valid NoOverlap base p (len target) limits target ∧ len p ≤ len target + 68
  | Err _ => max_output_size limits < len target ∨ max_window_count limits < 1
             ∨ max_instruction_count limits < 1 ∨ max_patch_size limits < len target + 68
  | Panic => False
  end.
Proof.
  unfold ISIZE_MAX. intros Hn. pose proof (len_nonneg target).
  pose proof (add_only_valid base target limits) as Hval. unfold ISIZE_MAX in Hval.
  unfold generate_vcdiff_patch. rust_ok.
  dif as D1; [left; lia|]. destruct (Z.eqb_spec (len target) 0) as [Hz|Hz].
  { change (len (VCDIFF_STREAM_HEADER ++ _)) with 5. rust_ok.
    dif as D2; [do 3 right; lia|]. split; [|by rewrite Hz].
    apply len_zero in Hz as ->. split; [change (5 ≤ max_patch_size limits); lia|]. split; [done|].
    exists (byte_of VCDIFF_HEADER_INDICATOR_NONE), []. split_and!; [done..|constructor]. }
  unfold ADD_ONLY_WINDOW_COUNT, ADD_ONLY_INSTRUCTION_COUNT.
  dif as D2; [right; left; lia|]. dif as D3; [do 2 right; left; lia|].
  change VCDIFF_WINDOW_INDICATOR_NONE with 0. change (encode_varint 0) with [x00].
  set (n := len target) in *. set (inst := byte_of VCDIFF_ADD_VARINT_CODE :: encode_varint n) in *.
  pose proof (encode_varint_len n ltac:(lia)).
  assert (Li : len inst = 1 + len (encode_varint n)) by (unfold inst; by rewrite len_cons).
  pose proof (encode_varint_len (len inst) ltac:(lia)). change (len [x00]) with 1.
  change (len VCDIFF_STREAM_HEADER) with 4. cbv zeta. rust_ok.
  set (body := encode_varint n ++ byte_of VCDIFF_DELTA_INDICATOR_NONE :: encode_varint n
    ++ encode_varint (len inst) ++ [x00] ++ target ++ inst) in *.
  assert (Lb : len body = len (encode_varint n) + 1 + len (encode_varint n)
    + len (encode_varint (len inst)) + 1 + n + len inst)
    by (unfold body; rewrite len_app, len_cons, !len_app; change (len [x00]) with 1; lia).
  rewrite <- Lb. pose proof (encode_varint_len (len body) ltac:(lia)). rust_ok.
  assert (La : len (add_only target) = 6 + len (encode_varint (len body)) + len body).
  { change (add_only target) with (VCDIFF_STREAM_HEADER ++ byte_of VCDIFF_HEADER_INDICATOR_NONE
      :: byte_of VCDIFF_WINDOW_INDICATOR_NONE :: encode_varint (len body) ++ body).
    clearbody body. rewrite len_app, !len_cons, len_app. change (len VCDIFF_STREAM_HEADER) with 4. lia. }
  dif as D4; [do 3 right; lia|].
  change (VCDIFF_STREAM_HEADER ++ _) with (add_only target). split; [apply Hval; lia|lia].
Qed.

(** ** Theorems *)

(** *** The rules for COPY

    What the narrower rule accepts, the format gives the same meaning. *)
Lemma perform_rfc source room idef x x' :
  0 ≤ size idef → perform NoOverlap source room idef x = Some x' →
  perform Rfc3284 source room idef x = Some x'.
Proof.
  intros Hs. unfold perform. case_bool_decide; [done|].
  destruct (inst_size idef (insts x)) as [[n is']|] eqn:Ei; [|done]. cbn [mbind option_bind].
  assert (Hn : 0 ≤ n).
  { unfold inst_size in Ei. case_match; [|by simplify_eq]. by apply varint_range in Ei; [lia|]. }
  unfold perform_sized. destruct (room <? _); [done|]. destruct (ty idef); [done..|].
  destruct (address _ _ _ _) as [[a as']|]; [|done]. cbn [mbind option_bind].
  destruct (copy_allowed NoOverlap _ a n) eqn:E; [|done].
  assert (copy_allowed Rfc3284 (source ++ written x) a n = true) as -> by (unfold copy_allowed in *; lia).
  done.
Qed.
Lemma window_runs_rfc source room table limits n x out :
  table_ok table → window_runs NoOverlap source room table limits n x out →
  window_runs Rfc3284 source room table limits n x out.
Proof.
  intros [_ Ht]. induction 1 as [|n x code is' entry x1 x2 out Hr Hn Hi He H1 H2 _ IH]; [by constructor|].
  pose proof (Forall_lookup_1 _ _ _ _ Ht He) as [D1 D2]%andb_prop. unfold def_ok in D1, D2.
  eapply runs_opcode; try done; apply perform_rfc; (done || lia).
Qed.
Lemma patch_valid_rfc base patch n limits t :
  patch_valid NoOverlap base patch n limits t → patch_valid Rfc3284 base patch n limits t.
Proof.
  intros (Hp & Hn & hi & body & Hb & Ht & Hr). split_and!; [done..|]. exists hi, body. split_and!; [done..|].
  clear -Hr. induction Hr as [|k out s p w fin Hk Hp Hw _ IH]; [constructor|].
  eapply patch_window; [done..| |done]. by apply window_runs_rfc, Hw; apply default_table_ok.
Qed.

(** A patch describes at most one target. *)
Lemma window_runs_unique rule source room table limits n x out out' :
  window_runs rule source room table limits n x out →
  window_runs rule source room table limits n x out' → out' = out.
Proof.
  intros H. revert out'. induction H as [n x Hr|n x code is' entry x1 x2 out Hr Hn Hi He H1 H2 _ IH];
    intros out' H'; inversion H' as [|? ? code' is2 entry' y1 y2 ? Hr' Hn' Hi' He' P1 P2 Hw]; subst;
    [done|lia|lia|].
  rewrite Hi in Hi'. injection Hi' as <- <-. rewrite He in He'. injection He' as <-.
  rewrite H1 in P1. injection P1 as <-. rewrite H2 in P2. injection P2 as <-. by apply IH.
Qed.
Lemma patch_runs_unique rule base limits k out s t t' :
  patch_runs rule base limits k out s t → patch_runs rule base limits k out s t' → t' = t.
Proof.
  intros H. revert t'. induction H as [|k out s p w fin Hk Hp Hw _ IH]; intros t' H'.
  - by inversion H' as [|? ? ? p ? ? _ Hp].
  - inversion H' as [|? ? ? p' w' ? Hk' Hp' Hw' Hr']; subst; [done|].
    rewrite Hp in Hp'. injection Hp' as <-.
    rewrite (window_runs_unique _ _ _ _ _ _ _ _ _ Hw Hw') in Hr'. by apply IH.
Qed.
Lemma patch_valid_unique rule base patch n limits t t' :
  patch_valid rule base patch n limits t → patch_valid rule base patch n limits t' → t' = t.
Proof.
  intros (_ & _ & hi & body & -> & _ & Hr) (_ & _ & hi' & body' & Hb & _ & Hr').
  apply app_inv_head in Hb. injection Hb as <- Hb.
  assert (body' = body) as -> by (destruct (Z.odd (byte_val hi)); by simplify_eq).
  by eapply patch_runs_unique.
Qed.


(** A release build of the decoder is total: whatever the patch bytes, the loops
    over windows, instructions and varints end and no index, slice or allocation
    panics; the result is an error or a target of exactly the expected size, within
    the output limit. *)
Theorem vcdiff_release_total base patch n limits :
  len patch ≤ ISIZE_MAX → len base ≤ ISIZE_MAX → 0 ≤ max_output_size limits ≤ ISIZE_MAX →
  (∃ e, apply_vcdiff false base patch n limits = Err e)
  ∨ ∃ t, apply_vcdiff false base patch n limits = Ok t ∧ len t = n
      ∧ n ≤ max_output_size limits.
Proof.
  intros Hp Hb Hm. destruct (apply_vcdiff_cases false base patch n limits Hp Hb Hm) as [_ R2].
  destruct R2 as [(t & Ht & Hn & Hl & _)|[He|[? _]]]; [right|by left|done].
  exists t. split_and!; [done..|lia].
Qed.

(** Round trip of the VCDIFF codec: the generator never panics; it fails only when a
    limit is too small, and the patch it returns, at most 68 bytes longer than the
    target, is decoded to the target in both builds, whatever the base. *)
Theorem vcdiff_roundtrip base target limits :
  len base ≤ ISIZE_MAX → len target + 100 ≤ ISIZE_MAX →
  0 ≤ max_output_size limits ≤ ISIZE_MAX →
  match generate_vcdiff_patch base target limits with
  | Ok p => len p ≤ len target + 68
            ∧ ∀ oc, apply_vcdiff oc base p (len target) limits = Ok target
  | Err _ => max_output_size limits < len target ∨ max_window_count limits < 1
             ∨ max_instruction_count limits < 1 ∨ max_patch_size limits < len target + 68
  | Panic => False
  end.
Proof.
  intros Hb Ht Hm. pose proof (generate_vcdiff_spec base target limits Ht) as Hg.
  destruct (generate_vcdiff_patch base target limits) as [p|e|]; [|done..].
  destruct Hg as [Hv Hl]. split; [done|]. intros oc.
  destruct (apply_vcdiff_cases oc base p (len target) limits) as [C1 _]; [lia|done..|].
  by apply C1.
Qed.

(** The variable-length integers of the two sides agree: reading what
    [encode_varint] wrote for a [u64], at any position of a stream, returns the value
    and stops right behind it; the encoding takes between one and ten bytes. *)
Theorem varint_roundtrip oc pre v post :
  0 ≤ v < 2 ^ 64 → len (pre ++ encode_varint v ++ post) ≤ ISIZE_MAX →
  1 ≤ len (encode_varint v) ≤ 10
  ∧ let D := pre ++ encode_varint v ++ post in
    read_varint oc {| data := D; pos := len pre |}
    = Ok (v, {| data := D; pos := len pre + len (encode_varint v) |}).
Proof.
  unfold ISIZE_MAX. intros Hv Hl. split; [by apply encode_varint_len|]. cbv zeta.
  set (D := pre ++ encode_varint v ++ post) in *.
  assert (HD : reads D (encode_varint v ++ post)) by (split; [by exists pre|lia]).
  pose proof (read_varint_at oc D _ HD) as Hr. rewrite varint_encode in Hr by done.
  unfold at_suffix in Hr. replace (len pre) with (len D - len (encode_varint v ++ post)) at 1
    by (unfold D; rewrite len_app; lia).
  rewrite Hr. do 3 f_equal. unfold D. rewrite !len_app. lia.
Qed.

(** Two windows: the first adds eight bytes, the second copies four bytes from address
    [2^64 - 6], far outside the virtual array. *)
Definition wild_patch : list byte :=
  VCDIFF_STREAM_HEADER ++ (byte_of <$>
    [0; 0; 14; 8; 0; 8; 1; 0; 1; 2; 3; 4; 5; 6; 7; 8; 10; 0; 16; 4; 0; 0; 1; 10; 20])
  ++ encode_varint (2 ^ 64 - 6).

(** The address check of COPY can be passed by wrap-around: the patch [wild_patch]
    describes no target, a debug build panics on it in [target_start + tgt_off], and a
    release build accepts it and copies bytes of the previous window. *)
Example vcdiff_wild_copy_accepted :
  (∀ t, ¬ patch_valid NoOverlap [] wild_patch 12 default_limits t)
  ∧ apply_vcdiff true [] wild_patch 12 default_limits = Panic
  ∧ apply_vcdiff false [] wild_patch 12 default_limits
    = Ok (byte_of <$> [1; 2; 3; 4; 5; 6; 7; 8; 3; 4; 5; 6]).
Proof.
  assert (Hp : apply_vcdiff true [] wild_patch 12 default_limits = Panic) by (vm_compute; reflexivity).
  split; [|split; [exact Hp|vm_compute; reflexivity]]. intros t Hv.
  destruct (apply_vcdiff_cases true [] wild_patch 12 default_limits) as [C1 _];
    [vm_compute; discriminate..|split; vm_compute; discriminate|].
  apply C1 in Hv. congruence.
Qed.

Section witnesses.
(** A window over the base that adds a byte and copies three. *)
Definition sample_base : list byte := byte_of <$> [10; 20; 30; 40].
Definition sample_patch : list byte :=
  VCDIFF_STREAM_HEADER ++ (byte_of <$> [0; 1; 4; 0; 10; 4; 0; 1; 3; 1; 7; 3; 19; 3; 1]).
Definition sample_target : list byte := byte_of <$> [7; 20; 30; 40].

(** A copy that would read bytes it writes itself is refused: one byte written, then four
    copied from its position. *)
Example self_copy_refused :
  apply_vcdiff true []
    (VCDIFF_STREAM_HEADER ++ (byte_of <$> [0; 0; 9; 5; 0; 1; 2; 1; 9; 3; 20; 0])) 5 default_limits
  = Err (PatchFailed "VCDIFF: COPY references unwritten target bytes").
Proof. vm_compute. reflexivity. Qed.


Lemma vcdiff_release_total_witness :
  (∃ e, apply_vcdiff false [] wild_patch 11 default_limits = Err e)
  ∨ ∃ t, apply_vcdiff false [] wild_patch 11 default_limits = Ok t ∧ len t = 11
      ∧ 11 ≤ max_output_size default_limits.
Proof.
  apply (vcdiff_release_total [] wild_patch 11 default_limits);
    [vm_compute; discriminate..|split; vm_compute; discriminate].
Defined.

Lemma vcdiff_roundtrip_witness :
  ∃ p, generate_vcdiff_patch sample_base sample_target default_limits = Ok p
    ∧ ∀ oc, apply_vcdiff oc sample_base p (len sample_target) default_limits = Ok sample_target.
Proof.
  pose proof (vcdiff_roundtrip sample_base sample_target default_limits) as H.
  destruct (generate_vcdiff_patch sample_base sample_target default_limits) as [p|e|] eqn:E;
    [|vm_compute in E; discriminate E..].
  exists p. split; [reflexivity|].
  apply H; [vm_compute; discriminate..|split; vm_compute; discriminate].
Defined.

Lemma varint_roundtrip_witness :
  read_varint true {| data := [x00] ++ encode_varint 300 ++ [x07]; pos := 1 |}
  = Ok (300, {| data := [x00] ++ encode_varint 300 ++ [x07]; pos := 3 |}).
Proof.
  apply (varint_roundtrip true [x00] 300 [x07]); [lia|vm_compute; discriminate].
Defined.
End witnesses.

End Vcdiff.
