(* ===== verification/Reads.v ===== *)
(** * Reading a byte string at a position

    The expressions the parsers of [sar-crypto] and [sar-archive] read integers with,
    [u16::from_le_bytes([l[i], l[i + 1]])] and its siblings, and two ways to reason
    about them: from the contents behind a position ([at_pos]) and from what was read
    back to the slice it came from. *)

From S2P Require Import Prelude.

(** [usize::from(l[i])]. *)
Definition u8_at {E} (l : list byte) (i : Z) : result E Z :=
  b ← index_r l i; Ok (byte_val b).
Definition u16_le {E} (l : list byte) (i : Z) : result E Z :=
  b0 ← index_r l i; b1 ← index_r l (i + 1); Ok (le_val [b0; b1]).
Definition u32_le {E} (l : list byte) (i : Z) : result E Z :=
  b0 ← index_r l i; b1 ← index_r l (i + 1); b2 ← index_r l (i + 2);
  b3 ← index_r l (i + 3); Ok (le_val [b0; b1; b2; b3]).

(** The bytes of [l] from position [i] on are [r]. *)
Definition at_pos {A} (l : list A) (i : Z) (r : list A) : Prop :=
  0 ≤ i ≤ len l ∧ drop (Z.to_nat i) l = r.

Lemma at_start {A} (l : list A) : at_pos l 0 l.
Proof. split; [pose proof (len_nonneg l); lia|done]. Qed.
Lemma at_app {A} (p r : list A) : at_pos (p ++ r) (len p) r.
Proof.
  split; [|apply drop_len_app]. rewrite len_app. pose proof (len_nonneg p).
  pose proof (len_nonneg r). lia.
Qed.
Lemma at_len {A} (l : list A) i r : at_pos l i r → len l = i + len r.
Proof. intros [Hi <-]. pose proof (len_take_drop l i Hi). lia. Qed.
Lemma at_next {A} (l : list A) i m r j :
  at_pos l i (m ++ r) → j = i + len m → at_pos l j r.
Proof.
  intros H ->. pose proof (at_len _ _ _ H) as Hl. destruct H as [Hi Hd].
  rewrite len_app in Hl. pose proof (len_nonneg m). pose proof (len_nonneg r).
  split; [lia|]. rewrite Z2Nat.inj_add, <- drop_drop, Hd by lia.
  apply drop_len_app.
Qed.
Lemma at_index {E A} (l : list A) i x r : at_pos l i (x :: r) → @index_r E A l i = Ok x.
Proof.
  intros [Hi Hd]. apply index_r_cons; [lia|].
  rewrite <- (Nat.add_0_r (Z.to_nat i)), <- lookup_drop, Hd. done.
Qed.
Lemma at_slice {E A} (l : list A) i j m r :
  at_pos l i (m ++ r) → j = i + len m → @slice_r E A l i j = Ok m.
Proof.
  intros H ->. pose proof (at_len _ _ _ H) as Hl. destruct H as [Hi Hd].
  rewrite len_app in Hl. pose proof (len_nonneg m). pose proof (len_nonneg r).
  rewrite slice_r_fits by lia. unfold slice. rewrite Hd.
  replace (i + len m - i) with (len m) by lia. by rewrite take_len_app.
Qed.
Lemma at_cons {A} (l : list A) i x r j : at_pos l i (x :: r) → j = i + 1 → at_pos l j r.
Proof. intros H ->. by apply (at_next l i [x] r). Qed.
Lemma at_u8 {E} l i v r : at_pos l i (byte_of v :: r) → fits 8 v → @u8_at E l i = Ok v.
Proof.
  intros H Hv. unfold u8_at. erewrite at_index by done. cbn [mbind result_bind].
  by rewrite byte_val_of_small.
Qed.
Lemma at_u16 {E} l i v r : at_pos l i (le_bytes 2 v ++ r) → fits 16 v → @u16_le E l i = Ok v.
Proof.
  intros H Hv. unfold u16_le.
  destruct (le_bytes 2 v) as [|b0 [|b1 [|]]] eqn:E2; try done. cbn [app] in H.
  rewrite (at_index l i b0 _ H), (at_index l (i + 1) b1 r) by by eapply at_cons.
  cbn [mbind result_bind]. by rewrite <- E2, le_val_bytes.
Qed.
Lemma at_u32 {E} l i v r : at_pos l i (le_bytes 4 v ++ r) → fits 32 v → @u32_le E l i = Ok v.
Proof.
  intros H Hv. unfold u32_le.
  destruct (le_bytes 4 v) as [|b0 [|b1 [|b2 [|b3 [|]]]]] eqn:E4; try done. cbn [app] in H.
  assert (H1 := at_cons _ _ _ _ (i + 1) H ltac:(lia)).
  assert (H2 := at_cons _ _ _ _ (i + 2) H1 ltac:(lia)).
  assert (H3 := at_cons _ _ _ _ (i + 3) H2 ltac:(lia)).
  rewrite (at_index _ _ _ _ H), (at_index _ _ _ _ H1), (at_index _ _ _ _ H2),
    (at_index _ _ _ _ H3).
  cbn [mbind result_bind]. by rewrite <- E4, le_val_bytes.
Qed.

(** From what was read to the bytes it came from. *)
Lemma index_r_Ok {E A} (l : list A) i x :
  @index_r E A l i = Ok x → 0 ≤ i < len l ∧ slice l i (i + 1) = [x].
Proof.
  unfold index_r. destruct (Z.leb_spec 0 i); [|done].
  destruct (l !! Z.to_nat i) as [y|] eqn:Hy; [|done]. intros [= ->].
  apply lookup_lt_Some in Hy as Hl. split; [unfold len; lia|].
  pose proof (slice_cons l i 0 x ltac:(lia) ltac:(lia) Hy) as Hs.
  rewrite !Z.add_0_r, slice_empty in Hs. exact Hs.
Qed.
Lemma u8_at_Ok {E} l i v :
  @u8_at E l i = Ok v → 0 ≤ i < len l ∧ fits 8 v ∧ slice l i (i + 1) = [byte_of v].
Proof.
  unfold u8_at. intros (b & Hb%index_r_Ok & [= <-])%bind_Ok.
  rewrite byte_of_val. pose proof (byte_val_range b). unfold fits. naive_solver.
Qed.
Lemma le_val_fits n bs : length bs = n → fits (8 * Z.of_nat n) (le_val bs).
Proof.
  intros <-. pose proof (le_val_range bs) as H. unfold fits.
  by rewrite Z.pow_mul_r by lia.
Qed.
Lemma u16_le_Ok {E} l i v :
  @u16_le E l i = Ok v → 0 ≤ i ∧ i + 2 ≤ len l ∧ fits 16 v ∧ slice l i (i + 2) = le_bytes 2 v.
Proof.
  unfold u16_le. intros (b0 & [H0 S0]%index_r_Ok & (b1 & [H1 S1]%index_r_Ok & [= <-])%bind_Ok)%bind_Ok.
  split_and!; [lia..|by apply (le_val_fits 2)|].
  change 2%nat with (length [b0; b1]). rewrite le_bytes_val.
  rewrite <- (slice_app_split l i (i + 1)), S0 by lia.
  replace (i + 2) with (i + 1 + 1) by lia. by rewrite S1.
Qed.
Lemma u32_le_Ok {E} l i v :
  @u32_le E l i = Ok v → 0 ≤ i ∧ i + 4 ≤ len l ∧ fits 32 v ∧ slice l i (i + 4) = le_bytes 4 v.
Proof.
  unfold u32_le. intros (b0 & [H0 S0]%index_r_Ok & (b1 & [H1 S1]%index_r_Ok & (b2 &
    [H2 S2]%index_r_Ok & (b3 & [H3 S3]%index_r_Ok & [= <-])%bind_Ok)%bind_Ok)%bind_Ok)%bind_Ok.
  split_and!; [lia..|by apply (le_val_fits 4)|].
  change 4%nat with (length [b0; b1; b2; b3]). rewrite le_bytes_val.
  rewrite <- (slice_app_split l i (i + 1)), S0 by lia.
  rewrite <- (slice_app_split l (i + 1) (i + 2)) by lia.
  rewrite <- (slice_app_split l (i + 2) (i + 3)) by lia.
  replace (i + 2) with (i + 1 + 1) at 1 by lia. rewrite S1.
  replace (i + 3) with (i + 2 + 1) at 1 by lia. rewrite S2.
  replace (i + 4) with (i + 3 + 1) by lia. by rewrite S3.
Qed.
Lemma u8_at_no_panic {E} l i : 0 ≤ i < len l → no_panic (@u8_at E l i).
Proof. intros H. pose proof (@index_r_no_panic E _ l i H). unfold u8_at. np. Qed.
Lemma u16_le_no_panic {E} l i : 0 ≤ i → i + 2 ≤ len l → no_panic (@u16_le E l i).
Proof.
  intros. unfold u16_le.
  apply no_panic_bind; [apply index_r_no_panic; lia|intros ? _].
  apply no_panic_bind; [apply index_r_no_panic; lia|done].
Qed.
Lemma u32_le_no_panic {E} l i : 0 ≤ i → i + 4 ≤ len l → no_panic (@u32_le E l i).
Proof.
  intros. unfold u32_le.
  repeat (apply no_panic_bind; [apply index_r_no_panic; lia|intros ? _]). done.
Qed.

Lemma at_eq {A} (l : list A) i j r : at_pos l i r → j = i → at_pos l j r.
Proof. by intros ? ->. Qed.

(** Walk through a function that reads [l], whose contents behind a position are known:
    each read is replaced by its value, and the next position is noted. *)
Ltac read_bytes_at :=
  repeat first
    [ progress cbn [mbind result_bind ok_or app negb]
    | match goal with
      | H : at_pos ?l ?i (?x :: ?r) |- context [@u8_at ?E ?l ?j] =>
          apply (at_eq l i j) in H; [|lia];
          erewrite (@at_u8 E l j _ r H) by (unfold fits; lia);
          apply (at_cons l j x r (j + 1)) in H; [|lia]
      | H : at_pos ?l ?i (le_bytes 2 ?v ++ ?r) |- context [@u16_le ?E ?l ?j] =>
          apply (at_eq l i j) in H; [|lia];
          rewrite (@at_u16 E l j v r H) by (unfold fits; lia);
          apply (at_next l j _ r (j + 2)) in H; [|by rewrite len_le_bytes]
      | H : at_pos ?l ?i (le_bytes 4 ?v ++ ?r) |- context [@u32_le ?E ?l ?j] =>
          apply (at_eq l i j) in H; [|lia];
          rewrite (@at_u32 E l j v r H) by (unfold fits; lia);
          apply (at_next l j _ r (j + 4)) in H; [|by rewrite len_le_bytes]
      | H : at_pos ?l ?i (?m ++ ?r) |- context [@slice_r ?E ?A ?l ?j ?k] =>
          apply (at_eq l i j) in H; [|lia];
          rewrite (@at_slice E A l j k m r H) by lia;
          apply (at_next l j m r k) in H; [|lia]
      | |- context [if ?b then Err ?e else ?m] =>
          replace (if b then Err e else m) with m
            by (replace b with false by lia; reflexivity)
      end ].

(** Note where each value of a successful run was read. *)
Ltac reads_inv :=
  repeat match goal with
  | H : u8_at _ _ = Ok _ |- _ => apply u8_at_Ok in H; destruct H as (? & ? & ?)
  | H : u16_le _ _ = Ok _ |- _ => apply u16_le_Ok in H; destruct H as (? & ? & ? & ?)
  | H : u32_le _ _ = Ok _ |- _ => apply u32_le_Ok in H; destruct H as (? & ? & ? & ?)
  | H : slice_r _ _ _ = Ok _ |- _ => apply slice_r_Ok in H; destruct H as (-> & ? & ?)
  end.
Lemma slice_join {A} (l : list A) a b b' c :
  b = b' → 0 ≤ a ≤ b → b ≤ c → slice l a b ++ slice l b' c = slice l a c.
Proof. intros <-. apply slice_app_split. Qed.
(** A string is the slices it is cut into: the pieces of the goal are slices by the
    hypotheses. *)
Ltac join_slices :=
  repeat match goal with H : slice ?l _ _ = ?m |- context [?m] => rewrite <- H end;
  rewrite ?app_assoc;
  repeat (rewrite slice_join by lia);
  rewrite ?slice_full.
