(* ===== verification/Crypto.v ===== *)
(** * Algorithms, authenticated encryption and hashing

    Models [crates/sar-crypto/src/algorithm.rs], [aad.rs], [aead.rs] and [hash.rs].  The
    ciphers and hash functions are third-party crates: the class [Ciphers] holds the
    detached encryption and decryption they offer, [CipherLaws] what their
    documentation promises, and [Digest] a streaming hash. *)

From S2P Require Import Prelude Errors.

Module Crypto.
Import CryptoError.

Definition HASH_SHA256 : Z := 0x30.
Definition HASH_BLAKE3 : Z := 0x31.
Definition HASH_SHA3_256 : Z := 0x32.
Definition ENCR_PLAINTEXT : Z := 0x00.
Definition ENCR_AES256_GCM : Z := 0x01.
Definition ENCR_CHACHA20 : Z := 0x02.
Definition ENCR_AES256_CBC : Z := 0x03.
Definition ENCR_XCHACHA20_POLY : Z := 0x04.
Definition ENCR_CHACHA20_POLY1305 : Z := 0x05.
Definition KMS_PBKDF2 : Z := 0x01.
Definition KMS_ARGON2 : Z := 0x02.
Definition KMS_ASYMMETRIC_WRAP : Z := 0x03.
Definition KMS_TLS_EXPORTER : Z := 0x04.
Definition PBKDF2_PRF_HMAC_SHA256 : Z := 0x01.
Definition PBKDF2_PRF_HMAC_SHA512 : Z := 0x02.
Definition PBKDF2_PRF_HMAC_SHA3_256 : Z := 0x03.
Definition ARGON2_VARIANT_D : Z := 0x01.
Definition ARGON2_VARIANT_I : Z := 0x02.
Definition ARGON2_VARIANT_ID : Z := 0x03.
Definition AEAD_TAG_SIZE : Z := 16.
Definition AEAD_KEY_SIZE : Z := 32.
Definition TAG_SIZE : Z := AEAD_TAG_SIZE.

(** [id] in the range pattern [lo ..= hi]. *)
Definition within (lo hi id : Z) : bool := (lo <=? id) && (id <=? hi).

Definition validate_encr_algo_id (id : Z) : result CryptoError.t unit :=
  if id =? ENCR_PLAINTEXT then Ok ()
  else if id =? ENCR_AES256_GCM then Ok ()
  else if id =? ENCR_CHACHA20 then Err (Unsupported "ENCR_CHACHA20 not implemented")
  else if id =? ENCR_AES256_CBC then Err (Unsupported "ENCR_AES256_CBC not implemented")
  else if id =? ENCR_XCHACHA20_POLY then Ok ()
  else if id =? ENCR_CHACHA20_POLY1305
  then Err (Unsupported "ENCR_CHACHA20_POLY1305 not implemented")
  else if within 0x06 0x1F id then Err (ReservedValue "reserved encryption algorithm ID")
  else if within 0x20 0x3F id
  then Err (ReservedValue "reserved encryption algorithm range 0x20-0x3F")
  else if within 0x40 0x5F id
  then Err (ReservedValue "reserved encryption algorithm range 0x40-0x5F")
  else if within 0x60 0xEF id
  then Err (ReservedValue "reserved encryption algorithm range 0x60-0xEF")
  else Err (Unsupported "custom encryption algorithm range 0xF0-0xFF").

Definition validate_kms_mode_id (id : Z) : result CryptoError.t unit :=
  if (id =? KMS_PBKDF2) || (id =? KMS_ARGON2) || (id =? KMS_ASYMMETRIC_WRAP) then Ok ()
  else if id =? KMS_TLS_EXPORTER
  then Err (Unsupported "KMS_TLS_EXPORTER requires an authenticated TLS session; unsupported on plaintext TCP")
  else if within 0xF0 0xFF id then Err (Unsupported "custom KMS mode")
  else Err (ReservedValue "unknown KMS mode ID").

(** ** Additional authenticated data *)

Definition global_header_aad_bytes (magic : list byte) (version : Z) (flags_bytes : list byte)
    : list byte :=
  magic ++ [byte_of version] ++ [x00] ++ le_bytes 2 (len flags_bytes) ++ flags_bytes.

Definition build_aead_aad (global_flags_section lfh_bytes : list byte) : list byte :=
  global_flags_section ++ lfh_bytes.

(** ** Authenticated encryption *)

(** The detached operations of [aes_gcm] and [chacha20poly1305] on a key, a nonce, the
    additional data and the text; [None] is their opaque error. *)
Class Ciphers := {
  aes_encrypt : list byte → list byte → list byte → list byte → option (list byte * list byte);
  aes_decrypt : list byte → list byte → list byte → list byte → list byte → option (list byte);
  xchacha_encrypt :
    list byte → list byte → list byte → list byte → option (list byte * list byte);
  xchacha_decrypt :
    list byte → list byte → list byte → list byte → list byte → option (list byte) }.

(** A detached pair: the ciphertext is as long as the text, the tag has 16 bytes, and
    decryption returns the text that was encrypted. *)
Definition aead_pair (encrypt : list byte → list byte → list byte → list byte
      → option (list byte * list byte))
    (decrypt : list byte → list byte → list byte → list byte → list byte
      → option (list byte)) : Prop :=
  ∀ key nonce aad text c tag, encrypt key nonce aad text = Some (c, tag) →
    len c = len text ∧ len tag = AEAD_TAG_SIZE
    ∧ decrypt key nonce aad c tag = Some text.
Class CipherLaws (C : Ciphers) : Prop := {
  aes_pair : aead_pair aes_encrypt aes_decrypt;
  xchacha_pair : aead_pair xchacha_encrypt xchacha_decrypt }.

(** The conversion of a slice to an array of [n] bytes ([KeyInit::new_from_slice],
    [Nonce::try_from], [Tag::try_from]). *)
Definition try_array (n : Z) (l : list byte) : option (list byte) :=
  if len l =? n then Some l else None.

Definition validate_nonce_field (algo_id : Z) (field : list byte) (strict : bool)
    : result CryptoError.t unit :=
  if algo_id =? ENCR_AES256_GCM then
    tail ← slice_r field 12 (len field);
    if strict && existsb (λ b, negb (byte_val b =? 0)) tail
    then Err (Malformed "AES-GCM nonce field: bytes [12..24] must be zero")
    else Ok ()
  else if algo_id =? ENCR_XCHACHA20_POLY then Ok ()
  else Err (Unsupported "unsupported AEAD algorithm for nonce validation").

(** [generate_nonce]: [fresh] are the bytes the random generator delivers, as many as
    it is asked for. *)
Definition generate_nonce (fresh : Z → list byte) (algo_id : Z) (field : list byte)
    : result CryptoError.t (list byte) :=
  if algo_id =? ENCR_AES256_GCM then
    field ← copy_at_r field 0 (fresh 12);
    copy_at_r field 12 (zeros (len field - 12))
  else if algo_id =? ENCR_XCHACHA20_POLY then copy_at_r field 0 (fresh (len field))
  else Err (Unsupported "unsupported AEAD algorithm for nonce generation").

Section aead.
Context `{C : Ciphers}.

Definition aead_encrypt (algo_id : Z) (key iv_nonce_field aad plaintext : list byte)
    : result CryptoError.t (list byte) :=
  if negb (len key =? AEAD_KEY_SIZE) then Err (InvalidLength "key must be 32 bytes") else
  _ ← validate_nonce_field algo_id iv_nonce_field true;
  if algo_id =? ENCR_AES256_GCM then
    cipher ← ok_or (try_array 32 key) (InvalidLength "AES key init failed");
    first ← slice_r iv_nonce_field 0 12;
    nonce ← ok_or (try_array 12 first) (InvalidLength "AES-GCM nonce length invalid");
    '(buf, tag) ← ok_or (aes_encrypt cipher nonce aad plaintext)
                    (Internal "AES-GCM encryption failed");
    Ok (buf ++ tag)
  else if algo_id =? ENCR_XCHACHA20_POLY then
    cipher ← ok_or (try_array 32 key) (InvalidLength "XChaCha20 key init failed");
    nonce ← ok_or (try_array 24 iv_nonce_field)
              (InvalidLength "XChaCha20-Poly1305 nonce length invalid");
    '(buf, tag) ← ok_or (xchacha_encrypt cipher nonce aad plaintext)
                    (Internal "XChaCha20-Poly1305 encryption failed");
    Ok (buf ++ tag)
  else Err (Unsupported "unsupported AEAD algorithm").

Definition aead_decrypt (algo_id : Z) (key iv_nonce_field aad ciphertext_with_tag : list byte)
    : result CryptoError.t (list byte) :=
  if negb (len key =? AEAD_KEY_SIZE) then Err (InvalidLength "key must be 32 bytes") else
  if len ciphertext_with_tag <? TAG_SIZE
  then Err (InvalidLength "ciphertext too short (< 16 bytes)") else
  ct_len ← sub_r (len ciphertext_with_tag) TAG_SIZE;
  ciphertext ← slice_r ciphertext_with_tag 0 ct_len;
  tag_bytes ← slice_r ciphertext_with_tag ct_len (len ciphertext_with_tag);
  _ ← validate_nonce_field algo_id iv_nonce_field true;
  if algo_id =? ENCR_AES256_GCM then
    cipher ← ok_or (try_array 32 key) (InvalidLength "AES key init failed");
    first ← slice_r iv_nonce_field 0 12;
    nonce ← ok_or (try_array 12 first) (InvalidLength "AES-GCM nonce length invalid");
    tag ← ok_or (try_array 16 tag_bytes) (InvalidLength "AES-GCM tag length invalid");
    ok_or (aes_decrypt cipher nonce aad ciphertext tag)
      (AuthFailed "AES-GCM authentication tag mismatch")
  else if algo_id =? ENCR_XCHACHA20_POLY then
    cipher ← ok_or (try_array 32 key) (InvalidLength "XChaCha20 key init failed");
    nonce ← ok_or (try_array 24 iv_nonce_field)
              (InvalidLength "XChaCha20-Poly1305 nonce length invalid");
    tag ← ok_or (try_array 16 tag_bytes)
            (InvalidLength "XChaCha20-Poly1305 tag length invalid");
    ok_or (xchacha_decrypt cipher nonce aad ciphertext tag)
      (AuthFailed "XChaCha20-Poly1305 authentication tag mismatch")
  else Err (Unsupported "unsupported AEAD algorithm").
End aead.

(** ** Hashing *)

(** A streaming hash of a third-party crate. *)
Class Digest := {
  state : Type;
  init : state;
  update : state → list byte → state;
  finalize : state → list byte }.
Arguments state _ : clear implicits.
Arguments init _ : clear implicits.
Arguments update _ : clear implicits.
Arguments finalize _ : clear implicits.
(** Feeding the data in pieces does not matter. *)
Class DigestLaws (D : Digest) : Prop :=
  update_app s a b :
    finalize D (update D (update D s a) b) = finalize D (update D s (a ++ b)).

Section hash.
Context (Sha256 Blake3 : Digest).

Definition sha256 (data : list byte) : list byte :=
  finalize Sha256 (update Sha256 (init Sha256) data).
Definition blake3_hash (data : list byte) : list byte :=
  finalize Blake3 (update Blake3 (init Blake3) data).

(** [Box<dyn Hasher>]: one of the two implementations of the trait. *)
Inductive Hasher : Type :=
  | Sha256Hasher (inner : state Sha256) | Blake3Hasher (inner : state Blake3).
Definition hasher_update (h : Hasher) (data : list byte) : Hasher :=
  match h with
  | Sha256Hasher s => Sha256Hasher (update Sha256 s data)
  | Blake3Hasher s => Blake3Hasher (update Blake3 s data)
  end.
Definition hasher_finalize (h : Hasher) : list byte :=
  match h with
  | Sha256Hasher s => finalize Sha256 s
  | Blake3Hasher s => finalize Blake3 s
  end.
Definition hasher_algorithm_id (h : Hasher) : Z :=
  match h with Sha256Hasher _ => HASH_SHA256 | Blake3Hasher _ => HASH_BLAKE3 end.

Definition new_hasher (algo_id : Z) : result CryptoError.t Hasher :=
  if algo_id =? HASH_SHA256 then Ok (Sha256Hasher (init Sha256))
  else if algo_id =? HASH_BLAKE3 then Ok (Blake3Hasher (init Blake3))
  else if algo_id =? HASH_SHA3_256 then Err (Unsupported "SHA3-256 not yet implemented")
  else Err (ReservedValue "unknown hash algorithm ID").

Definition hash_data (algo_id : Z) (data : list byte) : result CryptoError.t (list byte) :=
  hasher ← new_hasher algo_id;
  Ok (hasher_finalize (hasher_update hasher data)).
End hash.

(** [ct_eq]: the comparison of [subtle] on slices of equal length. *)
Fixpoint ct_eq_bytes (a b : list byte) : bool :=
  match a, b with
  | x :: a, y :: b => (byte_val x =? byte_val y) && ct_eq_bytes a b
  | _, _ => true
  end.
Definition ct_eq (a b : list byte) : bool :=
  if negb (len a =? len b) then false else ct_eq_bytes a b.

(** ** Facts *)

(** The registry accepts plaintext and the two implemented AEAD algorithms. *)
Lemma validate_encr_algo_id_spec id :
  validate_encr_algo_id id = Ok () ↔
  id = ENCR_PLAINTEXT ∨ id = ENCR_AES256_GCM ∨ id = ENCR_XCHACHA20_POLY.
Proof.
  unfold validate_encr_algo_id.
  repeat (match goal with |- context [id =? ?k] => destruct (Z.eqb_spec id k) as [->|] end;
          [naive_solver|]).
  split; [|naive_solver]. repeat case_match; done.
Qed.
Lemma validate_encr_algo_id_no_panic id : no_panic (validate_encr_algo_id id).
Proof. unfold validate_encr_algo_id. np. Qed.
#[global] Hint Resolve validate_encr_algo_id_no_panic : no_panic.

Lemma ct_eq_spec a b : ct_eq a b = true ↔ a = b.
Proof.
  unfold ct_eq. destruct (Z.eqb_spec (len a) (len b)) as [E|E]; cbn [negb]; [|naive_solver].
  revert b E. induction a as [|x a IH]; intros [|y b] E; [done|..];
    rewrite ?len_cons, ?len_nil in E.
  { pose proof (len_nonneg b). lia. }
  { pose proof (len_nonneg a). lia. }
  cbn [ct_eq_bytes]. rewrite andb_true_iff, Z.eqb_eq, IH by lia. split.
  - intros [Hx ->]. f_equal. by apply byte_val_inj.
  - by intros [= -> ->].
Qed.

Section hash_facts.
Context {Sha256 Blake3 : Digest} `{!DigestLaws Sha256, !DigestLaws Blake3}.

(** Hashing in pieces is hashing at once, whatever the algorithm. *)
Lemma hasher_pieces algo_id h ps :
  new_hasher Sha256 Blake3 algo_id = Ok h → ps ≠ [] →
  hash_data Sha256 Blake3 algo_id (concat ps)
  = Ok (hasher_finalize _ _ (foldl (hasher_update _ _) h ps))
  ∧ hasher_algorithm_id _ _ h = algo_id.
Proof.
  intros Hn Hps. unfold hash_data. rewrite Hn. cbn [mbind result_bind].
  assert (Hid : hasher_algorithm_id _ _ h = algo_id).
  { unfold new_hasher in Hn.
    destruct (Z.eqb_spec algo_id HASH_SHA256) as [->|]; [by injection Hn as <-|].
    destruct (Z.eqb_spec algo_id HASH_BLAKE3) as [->|]; [by injection Hn as <-|].
    by destruct (algo_id =? HASH_SHA3_256). }
  split; [|done]. f_equal. clear Hn Hid. destruct ps as [|p ps]; [done|]. clear Hps.
  cbn [concat foldl]. revert p. induction ps as [|q ps IH]; intros p; cbn [concat foldl].
  { by rewrite app_nil_r. }
  rewrite app_assoc, IH. clear IH.
  assert (Hs : ∀ k, hasher_finalize _ _ (hasher_update _ _ (hasher_update _ _ h p) k)
                    = hasher_finalize _ _ (hasher_update _ _ h (p ++ k))).
  { intros k. destruct h; cbn; apply update_app. }
  assert (Hf : ∀ h1 h2, (∀ k, hasher_finalize Sha256 Blake3 (hasher_update _ _ h1 k)
                          = hasher_finalize Sha256 Blake3 (hasher_update _ _ h2 k)) →
    hasher_finalize _ _ h1 = hasher_finalize _ _ h2 →
    hasher_finalize _ _ (foldl (hasher_update _ _) h1 ps)
    = hasher_finalize _ _ (foldl (hasher_update _ _) h2 ps)).
  { induction ps as [|r ps IHp]; intros h1 h2 Hk Hb; cbn [foldl]; [done|].
    apply IHp; [|apply Hk]. intros k.
    pose proof (Hk (r ++ k)) as H. destruct h1, h2; cbn in *; by rewrite !update_app. }
  symmetry. apply Hf; [|by rewrite Hs].
  intros k. destruct h; cbn; by rewrite !update_app, app_assoc.
Qed.
End hash_facts.

(** A generated nonce field has 24 bytes and passes the strict check. *)
Lemma generate_nonce_valid fresh algo_id field :
  (∀ n, 0 ≤ n → len (fresh n) = n) → len field = 24 →
  match generate_nonce fresh algo_id field with
  | Ok f => len f = 24 ∧ validate_nonce_field algo_id f true = Ok ()
  | Err _ => algo_id ≠ ENCR_AES256_GCM ∧ algo_id ≠ ENCR_XCHACHA20_POLY
  | Panic => False
  end.
Proof.
  intros Hf Hl. unfold generate_nonce, validate_nonce_field.
  destruct (Z.eqb_spec algo_id ENCR_AES256_GCM) as [->|Hn].
  - pose proof (Hf 12 ltac:(lia)) as H12.
    rewrite copy_at_r_fits by lia. cbn [mbind result_bind].
    rewrite !len_copy_at by lia. rewrite Hl. change (24 - 12) with 12.
    assert (Hz : len (zeros 12) = 12) by done.
    rewrite copy_at_r_fits by (rewrite ?len_copy_at; lia).
    assert (Hc : len (copy_at (copy_at field 0 (fresh 12)) 12 (zeros 12)) = 24)
      by (rewrite !len_copy_at; rewrite ?len_copy_at; lia).
    split; [done|]. rewrite Hc, slice_r_fits by lia. cbn [mbind result_bind].
    replace 24 with (12 + len (zeros 12)) by done.
    by rewrite slice_copy_at_same by (rewrite ?len_copy_at; lia).
  - destruct (Z.eqb_spec algo_id ENCR_XCHACHA20_POLY) as [->|]; [|done].
    pose proof (Hf (len field) ltac:(lia)) as H24.
    rewrite copy_at_r_fits by lia. split; [|done]. by rewrite len_copy_at by lia.
Qed.

Section aead_facts.
Context `{C : Ciphers}.

Lemma validate_nonce_no_panic algo_id field strict :
  len field = 24 → no_panic (validate_nonce_field algo_id field strict).
Proof. intros Hl. unfold validate_nonce_field. rewrite slice_r_fits by lia. np. Qed.
Lemma aead_encrypt_no_panic algo_id key nonce aad text :
  len nonce = 24 → no_panic (aead_encrypt algo_id key nonce aad text).
Proof.
  intros Hl. unfold aead_encrypt. rewrite slice_r_fits by lia.
  pose proof (validate_nonce_no_panic algo_id nonce true Hl). np.
Qed.
Lemma aead_decrypt_no_panic algo_id key nonce aad ct :
  len nonce = 24 → no_panic (aead_decrypt algo_id key nonce aad ct).
Proof.
  intros Hl. unfold aead_decrypt, TAG_SIZE, AEAD_TAG_SIZE. rewrite (slice_r_fits nonce) by lia.
  pose proof (validate_nonce_no_panic algo_id nonce true Hl). pose proof (len_nonneg ct).
  dif as E1; [done|]. dif as E2; [done|]. rewrite sub_r_fits by lia.
  cbn [mbind result_bind]. rewrite !slice_r_fits by lia. np.
Qed.

Context `{L : !CipherLaws C}.

(** What was encrypted is decrypted under the same algorithm, key, nonce and additional
    data, and the stored payload is 16 bytes longer than the text. *)
Lemma aead_roundtrip algo_id key nonce aad text ct :
  len nonce = 24 → aead_encrypt algo_id key nonce aad text = Ok ct →
  aead_decrypt algo_id key nonce aad ct = Ok text ∧ len ct = len text + 16.
Proof.
  intros Hl H. unfold aead_encrypt in H. rewrite slice_r_fits in H by lia. unfold aead_decrypt.
  destruct (negb (len key =? AEAD_KEY_SIZE)) eqn:Ek; [done|].
  destruct (validate_nonce_field _ _ _) as [[]| |] eqn:Ev; [|done..]. cbn [mbind result_bind] in H.
  assert (Hgen : ∃ c tag, ct = c ++ tag ∧ len c = len text ∧ len tag = 16
    ∧ (algo_id = ENCR_AES256_GCM ∧ aes_decrypt key (slice nonce 0 12) aad c tag = Some text
       ∨ algo_id = ENCR_XCHACHA20_POLY ∧ xchacha_decrypt key nonce aad c tag = Some text)).
  { assert (Hk : try_array 32 key = Some key).
    { unfold try_array. unfold AEAD_KEY_SIZE in Ek. by destruct (len key =? 32). }
    rewrite Hk in H. cbn [ok_or mbind result_bind] in H. unfold try_array in H.
    rewrite len_slice, Hl in H by lia.
    change (12 - 0 =? 12) with true in H. change (24 =? 24) with true in H.
    cbn [ok_or mbind result_bind] in H.
    destruct (Z.eqb_spec algo_id ENCR_AES256_GCM) as [->|].
    - destruct (aes_encrypt _ _ _ _) as [[c tag]|] eqn:E; [|done]. injection H as <-.
      apply aes_pair in E as (? & ? & ?). exists c, tag. split_and!; auto.
    - destruct (Z.eqb_spec algo_id ENCR_XCHACHA20_POLY) as [->|]; [|done].
      destruct (xchacha_encrypt _ _ _ _) as [[c tag]|] eqn:E; [|done]. injection H as <-.
      apply xchacha_pair in E as (? & ? & ?). exists c, tag. split_and!; auto. }
  destruct Hgen as (c & tag & -> & Hc & Ht & Hd). pose proof (len_nonneg c).
  rewrite len_app. split; [|lia]. unfold TAG_SIZE, AEAD_TAG_SIZE.
  rewrite (proj2 (Z.ltb_ge _ _)), sub_r_fits by lia. cbn [mbind result_bind].
  replace (len c + len tag - 16) with (len c) by lia.
  rewrite (slice_r_fits _ 0 (len c)), (slice_r_fits _ (len c)) by (rewrite ?len_app; lia).
  rewrite (slice_r_fits nonce) by lia. cbn [mbind result_bind].
  rewrite slice_prefix, <- len_app, slice_app_suffix by done. cbn [mbind result_bind].
  unfold try_array, AEAD_KEY_SIZE in *. rewrite len_slice, Ht, Hl by lia.
  destruct (len key =? 32); [|done].
  change (12 - 0 =? 12) with true. change (24 =? 24) with true. change (16 =? 16) with true.
  cbn [negb ok_or mbind result_bind].
  destruct Hd as [[-> Hd]|[-> Hd]]; cbn; by rewrite Hd.
Qed.
End aead_facts.

End Crypto.
