(* ===== verification/Kms.v ===== *)
(** * Key management

    Models [crates/sar-crypto/src/kms/types.rs], [tls_exporter.rs], [pbkdf2.rs],
    [argon2.rs], [asymmetric.rs] and [provider.rs]: the payload of the KMS extension of a
    Global Header in its four modes, the context of the TLS exporter, the derivation of
    a key from a password, and the resolution of the content key.  The key derivation
    functions are third-party crates (class [Kdfs]); a key provider is the class
    [KeyProvider], which the application implements. *)

From S2P Require Import Prelude Errors Reads Utf8 Crypto.

Module Pbkdf2Params.
Record t := { prf_algo_id : Z; salt : list byte; iterations : Z; derived_key_length : Z }.
End Pbkdf2Params.

Module Argon2Params.
Record t := {
  variant : Z; version : Z; salt : list byte; memory_cost_kib : Z; time_cost : Z;
  parallelism : Z; derived_key_length : Z }.
End Argon2Params.

Module AsymmetricRecipient.
Record t := { recipient_id : list byte; wrapped_key : list byte }.
End AsymmetricRecipient.

Module AsymmetricWrapParams.
Record t := { wrap_algo_id : Z; recipients : list AsymmetricRecipient.t }.
End AsymmetricWrapParams.

Module TlsExporterParams.
Record t := {
  exporter_label : list byte; context_version : Z; aead_algo_id : Z; kdf_algo_id : Z;
  global_header_hash_algo_id : Z; salt : list byte; derived_key_length : Z; flags : Z }.
End TlsExporterParams.

Module TlsExporterContextV1.
Record t := {
  transport_profile_id : Z; sar_major_version : Z; sar_minor_version : Z;
  global_header_hash_algo_id : Z; global_header_hash : list byte; aead_algo_id : Z;
  stream_id : Z; session_uuid : list byte; key_usage_id : Z; salt : list byte }.
End TlsExporterContextV1.

Module Kms.
Import CryptoError Crypto.

(** [enum KmsParams]. *)
Inductive KmsParams :=
  | Pbkdf2 (p : Pbkdf2Params.t) | Argon2 (p : Argon2Params.t)
  | AsymmetricWrap (p : AsymmetricWrapParams.t) | TlsExporter (p : TlsExporterParams.t).

Record KmsContext := { mode_id : Z; params : KmsParams }.

Definition TLS_EXPORTER_CONTEXT_VERSION_1 : Z := 0x01.
Definition TLS_EXPORTER_KDF_DIRECT : Z := 0x00.
Definition TLS_EXPORTER_TRANSPORT_QUIC : Z := 0x01.
Definition TLS_EXPORTER_TRANSPORT_TCP_TLS : Z := 0x02.
Definition TLS_EXPORTER_KEY_USAGE_CLIENT_TO_SERVER : Z := 0x01.
Definition TLS_EXPORTER_KEY_USAGE_SERVER_TO_CLIENT : Z := 0x02.

(** ** Payloads

    Positions are sums of a few lengths of at most 255 or 65535 bytes and a position
    inside the payload, so that the additions of the source do not overflow. *)

Definition serialize_tls_exporter_kms_payload (p : TlsExporterParams.t) : list byte :=
  let label := TlsExporterParams.exporter_label p in
  [byte_of (len label)] ++ label
  ++ [byte_of (TlsExporterParams.context_version p)]
  ++ [byte_of (TlsExporterParams.aead_algo_id p)]
  ++ [byte_of (TlsExporterParams.kdf_algo_id p)]
  ++ [byte_of (TlsExporterParams.global_header_hash_algo_id p)]
  ++ [byte_of (len (TlsExporterParams.salt p))] ++ TlsExporterParams.salt p
  ++ le_bytes 2 (TlsExporterParams.derived_key_length p)
  ++ le_bytes 2 (TlsExporterParams.flags p).

(** One recipient of [serialize_kms_payload]. *)
Definition serialize_recipient (r : AsymmetricRecipient.t) : list byte :=
  [byte_of (len (AsymmetricRecipient.recipient_id r))] ++ AsymmetricRecipient.recipient_id r
  ++ le_bytes 2 (len (AsymmetricRecipient.wrapped_key r)) ++ AsymmetricRecipient.wrapped_key r.

Definition serialize_kms_payload (params : KmsParams) : list byte :=
  match params with
  | Pbkdf2 p =>
      [byte_of (Pbkdf2Params.prf_algo_id p)] ++ [byte_of (len (Pbkdf2Params.salt p))]
      ++ Pbkdf2Params.salt p ++ le_bytes 4 (Pbkdf2Params.iterations p)
      ++ le_bytes 2 (Pbkdf2Params.derived_key_length p)
  | Argon2 p =>
      [byte_of (Argon2Params.variant p)] ++ [byte_of (Argon2Params.version p)]
      ++ [byte_of (len (Argon2Params.salt p))] ++ Argon2Params.salt p
      ++ le_bytes 4 (Argon2Params.memory_cost_kib p) ++ le_bytes 4 (Argon2Params.time_cost p)
      ++ le_bytes 2 (Argon2Params.parallelism p)
      ++ le_bytes 2 (Argon2Params.derived_key_length p)
  | AsymmetricWrap p =>
      [byte_of (AsymmetricWrapParams.wrap_algo_id p)]
      ++ [byte_of (len (AsymmetricWrapParams.recipients p))]
      ++ concat (serialize_recipient <$> AsymmetricWrapParams.recipients p)
  | TlsExporter p => serialize_tls_exporter_kms_payload p
  end.

Definition parse_pbkdf2 (payload : list byte) : result CryptoError.t KmsParams :=
  if len payload <? 2 then Err (Malformed "PBKDF2 payload too short") else
  prf_algo_id ← u8_at payload 0;
  if prf_algo_id =? PBKDF2_PRF_HMAC_SHA256 then
    salt_len ← u8_at payload 1;
    if salt_len <? 16 then Err (Malformed "PBKDF2 salt length must be >= 16") else
    let salt_end := 2 + salt_len in
    if len payload <? salt_end + 6 then Err (Malformed "PBKDF2 payload truncated") else
    salt ← slice_r payload 2 salt_end;
    iterations ← u32_le payload salt_end;
    if iterations <? 100000
    then Err (Malformed "PBKDF2 iterations must be >= 100,000") else
    if iterations >? 10000000
    then Err (Malformed "PBKDF2 iterations exceeds DoS limit") else
    derived_key_length ← u16_le payload (salt_end + 4);
    if negb (derived_key_length =? 32)
    then Err (Malformed "PBKDF2 derived_key_length must be 32") else
    Ok (Pbkdf2 {| Pbkdf2Params.prf_algo_id := prf_algo_id; Pbkdf2Params.salt := salt;
                  Pbkdf2Params.iterations := iterations;
                  Pbkdf2Params.derived_key_length := derived_key_length |})
  else if (prf_algo_id =? PBKDF2_PRF_HMAC_SHA512) || (prf_algo_id =? PBKDF2_PRF_HMAC_SHA3_256)
  then Err (Unsupported "PBKDF2 PRF algorithm not implemented")
  else Err (ReservedValue "unknown PBKDF2 PRF algorithm ID").

(** [parse_argon2] behind the salt. *)
Definition parse_argon2_costs (variant version : Z) (salt payload : list byte) (salt_end : Z)
    : result CryptoError.t KmsParams :=
  memory_cost_kib ← u32_le payload salt_end;
  if memory_cost_kib <? 65536
  then Err (Malformed "Argon2 memory_cost_kib must be >= 65536 (64 MiB)") else
  if memory_cost_kib >? 2097152
  then Err (Malformed "Argon2 memory_cost_kib exceeds DoS limit (2 GiB)") else
  time_cost ← u32_le payload (salt_end + 4);
  if time_cost <? 1 then Err (Malformed "Argon2 time_cost must be >= 1") else
  if time_cost >? 100 then Err (Malformed "Argon2 time_cost exceeds DoS limit") else
  parallelism ← u16_le payload (salt_end + 8);
  if parallelism <? 1 then Err (Malformed "Argon2 parallelism must be >= 1") else
  if parallelism >? 256 then Err (Malformed "Argon2 parallelism exceeds limit") else
  derived_key_length ← u16_le payload (salt_end + 10);
  if negb (derived_key_length =? 32)
  then Err (Malformed "Argon2 derived_key_length must be 32") else
  Ok (Argon2 {| Argon2Params.variant := variant; Argon2Params.version := version;
                Argon2Params.salt := salt; Argon2Params.memory_cost_kib := memory_cost_kib;
                Argon2Params.time_cost := time_cost; Argon2Params.parallelism := parallelism;
                Argon2Params.derived_key_length := derived_key_length |}).
Definition parse_argon2 (payload : list byte) : result CryptoError.t KmsParams :=
  if len payload <? 3 then Err (Malformed "Argon2 payload too short") else
  variant ← u8_at payload 0;
  if (variant =? ARGON2_VARIANT_D) || (variant =? ARGON2_VARIANT_I)
  then Err (Unsupported "only Argon2id (0x03) is supported") else
  if negb (variant =? ARGON2_VARIANT_ID) then Err (ReservedValue "unknown Argon2 variant") else
  version ← u8_at payload 1;
  if version =? 0 then Err (Malformed "Argon2 version must be non-zero") else
  salt_len ← u8_at payload 2;
  if salt_len <? 16 then Err (Malformed "Argon2 salt length must be >= 16") else
  let salt_end := 3 + salt_len in
  if len payload <? salt_end + 12 then Err (Malformed "Argon2 payload truncated") else
  salt ← slice_r payload 3 salt_end;
  parse_argon2_costs variant version salt payload salt_end.

(** A round of the loop of [parse_asymmetric_wrap]: a recipient and the position behind
    it. *)
Definition parse_recipient (payload : list byte) (pos : Z)
    : result CryptoError.t (AsymmetricRecipient.t * Z) :=
  if pos >=? len payload
  then Err (Malformed "ASYMMETRIC_WRAP recipient data truncated") else
  recipient_id_len ← u8_at payload pos;
  let pos := pos + 1 in
  if pos + recipient_id_len >? len payload
  then Err (Malformed "ASYMMETRIC_WRAP recipient_id truncated") else
  recipient_id ← slice_r payload pos (pos + recipient_id_len);
  let pos := pos + recipient_id_len in
  if pos + 2 >? len payload
  then Err (Malformed "ASYMMETRIC_WRAP wrapped_key_len truncated") else
  wrapped_key_len ← u16_le payload pos;
  let pos := pos + 2 in
  if wrapped_key_len =? 0
  then Err (Malformed "ASYMMETRIC_WRAP wrapped_key must not be empty (would expose plaintext CEK)") else
  if pos + wrapped_key_len >? len payload
  then Err (Malformed "ASYMMETRIC_WRAP wrapped_key truncated") else
  wrapped_key ← slice_r payload pos (pos + wrapped_key_len);
  Ok ({| AsymmetricRecipient.recipient_id := recipient_id;
         AsymmetricRecipient.wrapped_key := wrapped_key |}, pos + wrapped_key_len).
Fixpoint parse_recipients (n : nat) (payload : list byte) (pos : Z)
    : result CryptoError.t (list AsymmetricRecipient.t) :=
  match n with
  | O => Ok []
  | S n =>
      '(r, pos) ← parse_recipient payload pos;
      rs ← parse_recipients n payload pos;
      Ok (r :: rs)
  end.
Definition parse_asymmetric_wrap (payload : list byte) : result CryptoError.t KmsParams :=
  if len payload <? 2 then Err (Malformed "ASYMMETRIC_WRAP payload too short") else
  wrap_algo_id ← u8_at payload 0;
  recipient_count ← u8_at payload 1;
  if recipient_count <? 1
  then Err (Malformed "ASYMMETRIC_WRAP must have at least 1 recipient") else
  recipients ← parse_recipients (Z.to_nat recipient_count) payload 2;
  Ok (AsymmetricWrap {| AsymmetricWrapParams.wrap_algo_id := wrap_algo_id;
                        AsymmetricWrapParams.recipients := recipients |}).

Definition parse_kms_payload (mode_id : Z) (payload : list byte)
    : result CryptoError.t KmsParams :=
  if mode_id =? KMS_PBKDF2 then parse_pbkdf2 payload
  else if mode_id =? KMS_ARGON2 then parse_argon2 payload
  else if mode_id =? KMS_ASYMMETRIC_WRAP then parse_asymmetric_wrap payload
  else if mode_id =? KMS_TLS_EXPORTER
  then Err (Unsupported "KMS_TLS_EXPORTER requires an authenticated TLS session; unsupported on plaintext TCP")
  else if within 0xF0 0xFF mode_id then Err (Unsupported "custom KMS mode")
  else Err (ReservedValue "unknown KMS mode ID").

(** [parse_tls_exporter_kms_payload] behind the label. *)
Definition parse_tls_exporter_fields (payload exporter_label : list byte) (pos : Z)
    : result CryptoError.t TlsExporterParams.t :=
  context_version ← u8_at payload pos;
  let pos := pos + 1 in
  if negb (context_version =? TLS_EXPORTER_CONTEXT_VERSION_1)
  then Err (Unsupported "TLS_EXPORTER: only context version 0x01 is supported") else
  aead_algo_id ← u8_at payload pos;
  let pos := pos + 1 in
  kdf_algo_id ← u8_at payload pos;
  let pos := pos + 1 in
  if negb (kdf_algo_id =? TLS_EXPORTER_KDF_DIRECT)
  then Err (ReservedValue "TLS_EXPORTER: nonzero KDF Algo ID is reserved") else
  global_header_hash_algo_id ← u8_at payload pos;
  let pos := pos + 1 in
  if pos >=? len payload
  then Err (Malformed "TLS_EXPORTER KMS payload too short: missing salt length") else
  salt_len ← u8_at payload pos;
  let pos := pos + 1 in
  salt_end ← ok_or (checked_add 64 pos salt_len)
               (Malformed "TLS_EXPORTER salt length overflow");
  if len payload <? salt_end + 4
  then Err (Malformed "TLS_EXPORTER KMS payload too short: truncated in salt / derived key length") else
  salt ← slice_r payload pos salt_end;
  let pos := salt_end in
  derived_key_length ← u16_le payload pos;
  let pos := pos + 2 in
  if derived_key_length =? 0
  then Err (Malformed "TLS_EXPORTER derived_key_length must be nonzero") else
  flags ← u16_le payload pos;
  if negb (flags =? 0)
  then Err (ReservedValue "TLS_EXPORTER flags: reserved bits must be zero") else
  Ok {| TlsExporterParams.exporter_label := exporter_label;
        TlsExporterParams.context_version := context_version;
        TlsExporterParams.aead_algo_id := aead_algo_id;
        TlsExporterParams.kdf_algo_id := kdf_algo_id;
        TlsExporterParams.global_header_hash_algo_id := global_header_hash_algo_id;
        TlsExporterParams.salt := salt;
        TlsExporterParams.derived_key_length := derived_key_length;
        TlsExporterParams.flags := flags |}.
Definition parse_tls_exporter_kms_payload (payload : list byte)
    : result CryptoError.t TlsExporterParams.t :=
  if len payload =? 0
  then Err (Malformed "TLS_EXPORTER KMS payload too short: missing label length") else
  label_len ← u8_at payload 0;
  label_end ← ok_or (checked_add 64 1 label_len) (Malformed "TLS_EXPORTER label length overflow");
  if len payload <? label_end + 7
  then Err (Malformed "TLS_EXPORTER KMS payload too short: truncated before fixed fields") else
  label_bytes ← slice_r payload 1 label_end;
  if negb (forallb (Utf8.in_range 0 127) label_bytes)
  then Err (Malformed "TLS_EXPORTER exporter label must be ASCII") else
  if len label_bytes =? 0
  then Err (Malformed "TLS_EXPORTER exporter label must not be empty") else
  if negb (Utf8.from_utf8 label_bytes)
  then Err (Malformed "TLS_EXPORTER label is not valid UTF-8") else
  parse_tls_exporter_fields payload label_bytes label_end.

(** ** The context of the TLS exporter *)
Definition encode_tls_exporter_context_v1 (ctx : TlsExporterContextV1.t) : list byte :=
  [byte_of TLS_EXPORTER_CONTEXT_VERSION_1]
  ++ [byte_of (TlsExporterContextV1.transport_profile_id ctx)]
  ++ [byte_of (TlsExporterContextV1.sar_major_version ctx)]
  ++ [byte_of (TlsExporterContextV1.sar_minor_version ctx)]
  ++ [byte_of (TlsExporterContextV1.global_header_hash_algo_id ctx)]
  ++ [byte_of (len (TlsExporterContextV1.global_header_hash ctx))]
  ++ TlsExporterContextV1.global_header_hash ctx
  ++ [byte_of 0x04]
  ++ [byte_of (TlsExporterContextV1.aead_algo_id ctx)]
  ++ le_bytes 2 (TlsExporterContextV1.stream_id ctx)
  ++ TlsExporterContextV1.session_uuid ctx
  ++ [byte_of (TlsExporterContextV1.key_usage_id ctx)]
  ++ [byte_of (len (TlsExporterContextV1.salt ctx))]
  ++ TlsExporterContextV1.salt ctx.

(** ** Key derivation *)

(** [pbkdf2_hmac::<Sha256>] on password, salt, iterations and the length of the output
    buffer; [Params::new] and [hash_password_into] of [argon2] for Argon2id, on memory
    and time cost, parallelism and output length, then password and salt. *)
Class Kdfs := {
  argon2_params : Type;
  pbkdf2_hmac_sha256 : list byte → list byte → Z → Z → list byte;
  argon2_params_new : Z → Z → Z → Z → option argon2_params;
  argon2id_hash_password_into :
    argon2_params → list byte → list byte → Z → option (list byte) }.

Section derivation.
Context `{K : Kdfs}.

(** [kms::pbkdf2::derive_key]. *)
Definition pbkdf2_derive_key (p : Pbkdf2Params.t) (password : list byte)
    : result CryptoError.t (list byte) :=
  if len (Pbkdf2Params.salt p) <? 16
  then Err (Malformed "PBKDF2 salt length must be >= 16") else
  if Pbkdf2Params.iterations p <? 100000
  then Err (Malformed "PBKDF2 iterations must be >= 100,000") else
  if negb (Pbkdf2Params.derived_key_length p =? 32)
  then Err (Malformed "PBKDF2 derived_key_length must be 32") else
  if Pbkdf2Params.prf_algo_id p =? PBKDF2_PRF_HMAC_SHA256 then
    Ok (pbkdf2_hmac_sha256 password (Pbkdf2Params.salt p) (Pbkdf2Params.iterations p)
          AEAD_KEY_SIZE)
  else Err (Unsupported "PBKDF2 PRF not supported").

(** [kms::argon2::derive_key]. *)
Definition argon2_derive_key (p : Argon2Params.t) (password : list byte)
    : result CryptoError.t (list byte) :=
  if negb (Argon2Params.variant p =? ARGON2_VARIANT_ID)
  then Err (Unsupported "only Argon2id (variant 0x03) is implemented") else
  if Argon2Params.version p =? 0
  then Err (Malformed "Argon2 version must be non-zero") else
  if len (Argon2Params.salt p) <? 16
  then Err (Malformed "Argon2 salt length must be >= 16") else
  if Argon2Params.memory_cost_kib p <? 65536
  then Err (Malformed "Argon2 memory_cost_kib must be >= 65536") else
  if Argon2Params.time_cost p <? 1
  then Err (Malformed "Argon2 time_cost must be >= 1") else
  if Argon2Params.parallelism p <? 1
  then Err (Malformed "Argon2 parallelism must be >= 1") else
  if negb (Argon2Params.derived_key_length p =? 32)
  then Err (Malformed "Argon2 derived_key_length must be 32") else
  ap ← ok_or (argon2_params_new (Argon2Params.memory_cost_kib p) (Argon2Params.time_cost p)
                (Argon2Params.parallelism p) AEAD_KEY_SIZE)
         (Malformed "invalid Argon2 parameters");
  ok_or (argon2id_hash_password_into ap password (Argon2Params.salt p) AEAD_KEY_SIZE)
    (Internal "Argon2 key derivation failed").
End derivation.

(** [kms::asymmetric::unwrap_cek]. *)
Fixpoint unwrap_loop (unwrap_fn : Z → list byte → list byte → result CryptoError.t (option (list byte)))
    (wrap_algo_id : Z) (recipient_id : list byte) (rs : list AsymmetricRecipient.t)
    : result CryptoError.t (list byte) :=
  match rs with
  | [] => Err (KeyMissing "no matching recipient found")
  | r :: rs =>
      if bool_decide (AsymmetricRecipient.recipient_id r = recipient_id) then
        o ← unwrap_fn wrap_algo_id (AsymmetricRecipient.recipient_id r)
              (AsymmetricRecipient.wrapped_key r);
        match o with
        | Some key => Ok key
        | None => Err (KeyMissing "unwrap_fn returned no key")
        end
      else unwrap_loop unwrap_fn wrap_algo_id recipient_id rs
  end.
Definition unwrap_cek (p : AsymmetricWrapParams.t) (recipient_id : list byte)
    (unwrap_fn : Z → list byte → list byte → result CryptoError.t (option (list byte)))
    : result CryptoError.t (list byte) :=
  unwrap_loop unwrap_fn (AsymmetricWrapParams.wrap_algo_id p) recipient_id
    (AsymmetricWrapParams.recipients p).

(** ** Resolution of the content key *)

(** [trait KeyProvider]; a password is its UTF-8 bytes. *)
Class KeyProvider := {
  password_for : KmsContext → result CryptoError.t (option (list byte));
  unwrap_key : KmsContext → list byte → result CryptoError.t (option (list byte));
  external_key : KmsContext → result CryptoError.t (option (list byte)) }.

Section resolve.
Context `{K : Kdfs} (provider : KeyProvider).

Fixpoint unwrap_recipients (context : KmsContext) (rs : list AsymmetricRecipient.t)
    : result CryptoError.t (list byte) :=
  match rs with
  | [] => Err (KeyMissing "no recipient key available for ASYMMETRIC_WRAP")
  | r :: rs =>
      o ← unwrap_key context (AsymmetricRecipient.wrapped_key r);
      match o with Some key => Ok key | None => unwrap_recipients context rs end
  end.

Definition resolve_cek (context : KmsContext) : result CryptoError.t (list byte) :=
  external ← external_key context;
  match external with
  | Some key => Ok key
  | None =>
      match params context with
      | Pbkdf2 p =>
          o ← password_for context;
          password ← ok_or o (KeyMissing "no password provided for PBKDF2");
          pbkdf2_derive_key p password
      | Argon2 p =>
          o ← password_for context;
          password ← ok_or o (KeyMissing "no password provided for Argon2");
          argon2_derive_key p password
      | AsymmetricWrap p => unwrap_recipients context (AsymmetricWrapParams.recipients p)
      | TlsExporter _ =>
          Err (Unsupported
                 "KMS_TLS_EXPORTER requires a transport-provided TlsExporterKeyProvider")
      end
  end.
End resolve.

(** ** Payloads: what is accepted

    [payload_wf] is what the parsers demand of the parameters. *)
Definition recipient_wf (r : AsymmetricRecipient.t) : Prop :=
  len (AsymmetricRecipient.recipient_id r) < 256
  ∧ 0 < len (AsymmetricRecipient.wrapped_key r) < 2 ^ 16.
Definition payload_wf (mode : Z) (params : KmsParams) : Prop :=
  match params with
  | Pbkdf2 p =>
      mode = KMS_PBKDF2 ∧ Pbkdf2Params.prf_algo_id p = PBKDF2_PRF_HMAC_SHA256
      ∧ 16 ≤ len (Pbkdf2Params.salt p) < 256
      ∧ 100000 ≤ Pbkdf2Params.iterations p ≤ 10000000
      ∧ Pbkdf2Params.derived_key_length p = 32
  | Argon2 p =>
      mode = KMS_ARGON2 ∧ Argon2Params.variant p = ARGON2_VARIANT_ID
      ∧ 0 < Argon2Params.version p < 256
      ∧ 16 ≤ len (Argon2Params.salt p) < 256
      ∧ 65536 ≤ Argon2Params.memory_cost_kib p ≤ 2097152
      ∧ 1 ≤ Argon2Params.time_cost p ≤ 100
      ∧ 1 ≤ Argon2Params.parallelism p ≤ 256
      ∧ Argon2Params.derived_key_length p = 32
  | AsymmetricWrap p =>
      mode = KMS_ASYMMETRIC_WRAP ∧ fits 8 (AsymmetricWrapParams.wrap_algo_id p)
      ∧ 1 ≤ len (AsymmetricWrapParams.recipients p) < 256
      ∧ Forall recipient_wf (AsymmetricWrapParams.recipients p)
  | TlsExporter _ => False
  end.
Definition tls_wf (p : TlsExporterParams.t) : Prop :=
  0 < len (TlsExporterParams.exporter_label p) < 256
  ∧ forallb (Utf8.in_range 0 127) (TlsExporterParams.exporter_label p) = true
  ∧ TlsExporterParams.context_version p = TLS_EXPORTER_CONTEXT_VERSION_1
  ∧ fits 8 (TlsExporterParams.aead_algo_id p)
  ∧ TlsExporterParams.kdf_algo_id p = TLS_EXPORTER_KDF_DIRECT
  ∧ fits 8 (TlsExporterParams.global_header_hash_algo_id p)
  ∧ len (TlsExporterParams.salt p) < 256
  ∧ 0 < TlsExporterParams.derived_key_length p < 2 ^ 16
  ∧ TlsExporterParams.flags p = 0.

#[local] Arguments serialize_kms_payload : simpl never.
#[local] Arguments serialize_recipient : simpl never.
#[local] Arguments serialize_tls_exporter_kms_payload : simpl never.
(** The projections and encodings of concrete parameters, the strings left alone. *)
Ltac kms_fields :=
  unfold payload_wf, tls_wf, serialize_kms_payload, serialize_tls_exporter_kms_payload in *;
  cbn [Pbkdf2Params.prf_algo_id Pbkdf2Params.salt Pbkdf2Params.iterations
       Pbkdf2Params.derived_key_length Argon2Params.variant Argon2Params.version
       Argon2Params.salt Argon2Params.memory_cost_kib Argon2Params.time_cost
       Argon2Params.parallelism Argon2Params.derived_key_length
       AsymmetricRecipient.recipient_id AsymmetricRecipient.wrapped_key
       AsymmetricWrapParams.wrap_algo_id AsymmetricWrapParams.recipients
       TlsExporterParams.exporter_label TlsExporterParams.context_version
       TlsExporterParams.aead_algo_id TlsExporterParams.kdf_algo_id
       TlsExporterParams.global_header_hash_algo_id TlsExporterParams.salt
       TlsExporterParams.derived_key_length TlsExporterParams.flags] in *.
(** Name the payload in the goal and note its contents and length. *)
Ltac payload_at :=
  match goal with
  | |- context [?p ++ ?r] =>
      let l := fresh "payload" in let H := fresh "Hat" in let Hl := fresh "Hlen" in
      set (l := p ++ r); pose proof (at_start l) as H;
      assert (Hl := eq_refl (len l)); unfold l in H at 2; unfold l in Hl at 2;
      rewrite <- ?app_assoc in H; autorewrite with len in Hl; cbn [app] in H; clearbody l
  end.

Lemma parse_pbkdf2_ok p rest :
  payload_wf KMS_PBKDF2 (Pbkdf2 p) →
  parse_pbkdf2 (serialize_kms_payload (Pbkdf2 p) ++ rest) = Ok (Pbkdf2 p).
Proof.
  destruct p as [prf salt it dk]. kms_fields. intros (_ & -> & Hs & Hi & ->).
  pose proof (len_nonneg rest). payload_at.
  unfold parse_pbkdf2, PBKDF2_PRF_HMAC_SHA256 in *. read_bytes_at. cbn [Z.eqb Pos.eqb].
  read_bytes_at. done.
Qed.
Lemma parse_pbkdf2_inv payload q :
  parse_pbkdf2 payload = Ok q →
  payload_wf KMS_PBKDF2 q ∧ serialize_kms_payload q `prefix_of` payload.
Proof.
  unfold parse_pbkdf2. intros H. inv_ok. case_match eqn:D; [|by case_match].
  inv_ok. reads_inv. unfold fits in *. apply Z.eqb_eq in D. kms_fields.
  rewrite len_slice by lia. split; [split_and!; lia|].
  exists (slice payload (2 + x0 + 4 + 2) (len payload)).
  replace (2 + x0 - 2) with x0 by lia. by join_slices.
Qed.

Lemma parse_argon2_ok p rest :
  payload_wf KMS_ARGON2 (Argon2 p) →
  parse_argon2 (serialize_kms_payload (Argon2 p) ++ rest) = Ok (Argon2 p).
Proof.
  destruct p as [var ver salt mem tc par dk]. kms_fields.
  intros (_ & -> & Hv & Hs & Hm & Ht & Hp & ->). pose proof (len_nonneg rest). payload_at.
  unfold parse_argon2, parse_argon2_costs, ARGON2_VARIANT_ID, ARGON2_VARIANT_D,
    ARGON2_VARIANT_I in *.
  read_bytes_at. done.
Qed.
Lemma parse_argon2_inv payload q :
  parse_argon2 payload = Ok q →
  payload_wf KMS_ARGON2 q ∧ serialize_kms_payload q `prefix_of` payload.
Proof.
  unfold parse_argon2, parse_argon2_costs. intros H. inv_ok. reads_inv. unfold fits in *.
  kms_fields. rewrite len_slice by lia. split; [split_and!; lia|].
  exists (slice payload (3 + x1 + 10 + 2) (len payload)).
  replace (3 + x1 - 3) with x1 by lia. by join_slices.
Qed.

(** A recipient that is there is read, and what is read is there. *)
Lemma parse_recipient_ok payload pos r rest :
  recipient_wf r → at_pos payload pos (serialize_recipient r ++ rest) →
  parse_recipient payload pos = Ok (r, pos + len (serialize_recipient r)).
Proof.
  destruct r as [id wk]. unfold serialize_recipient, recipient_wf. kms_fields. intros [Hi Hw] Hat. pose proof (len_nonneg rest).
  pose proof (at_len _ _ _ Hat) as Hl. rewrite <- !app_assoc in Hat. destruct Hat as [Hp Hd].
  assert (Hat : at_pos payload pos (byte_of (len id) :: id ++ le_bytes 2 (len wk) ++ wk ++ rest))
    by done.
  pose proof (len_nonneg id). autorewrite with len in *.
  unfold parse_recipient. read_bytes_at. f_equal. f_equal. lia.
Qed.
Lemma parse_recipient_inv payload pos r next :
  0 ≤ pos → parse_recipient payload pos = Ok (r, next) →
  recipient_wf r ∧ pos ≤ next ≤ len payload
  ∧ slice payload pos next = serialize_recipient r.
Proof.
  unfold parse_recipient. intros Hp H. inv_ok. reads_inv.
  unfold fits, serialize_recipient, recipient_wf in *. kms_fields.
  rewrite !len_slice by lia. split_and!; [lia..|].
  replace (pos + 1 + x - (pos + 1)) with x by lia.
  replace (pos + 1 + x + 2 + x1 - (pos + 1 + x + 2)) with x1 by lia. by join_slices.
Qed.
Lemma parse_recipient_no_panic payload pos : 0 ≤ pos → no_panic (parse_recipient payload pos).
Proof.
  intros Hp. unfold parse_recipient. dif as E1; [done|].
  apply no_panic_bind; [apply u8_at_no_panic; lia|]. intros n (_ & Hn & _)%u8_at_Ok.
  unfold fits in Hn. dif as E2; [done|]. rewrite slice_r_fits by lia. cbn [mbind result_bind].
  dif as E3; [done|]. apply no_panic_bind; [apply u16_le_no_panic; lia|].
  intros w (_ & _ & Hw & _)%u16_le_Ok. unfold fits in Hw. dif as E4; [done|].
  dif as E5; [done|]. by rewrite slice_r_fits by lia.
Qed.

Lemma parse_recipients_ok payload rs pos rest :
  Forall recipient_wf rs → at_pos payload pos (concat (serialize_recipient <$> rs) ++ rest) →
  parse_recipients (length rs) payload pos = Ok rs.
Proof.
  intros Hrs. revert pos. induction Hrs as [|r rs Hr Hrs IH]; intros pos Hat; [done|].
  cbn [length parse_recipients]. cbn [fmap list_fmap concat] in Hat. rewrite <- app_assoc in Hat.
  rewrite (parse_recipient_ok _ _ r _ Hr Hat). cbn [mbind result_bind].
  by rewrite (IH _ (at_next _ _ _ _ _ Hat eq_refl)).
Qed.
Lemma parse_recipients_inv payload n pos rs :
  0 ≤ pos ≤ len payload → parse_recipients n payload pos = Ok rs →
  length rs = n ∧ Forall recipient_wf rs
  ∧ ∃ next, pos ≤ next ≤ len payload
      ∧ slice payload pos next = concat (serialize_recipient <$> rs).
Proof.
  revert pos rs. induction n as [|n IH]; intros pos rs Hp; cbn [parse_recipients].
  { intros [= <-]. split_and!; [done|constructor|]. exists pos. split; [lia|]. apply slice_empty. }
  intros ([r next] & H1 & (rs' & H2 & [= <-])%bind_Ok)%bind_Ok.
  apply parse_recipient_inv in H1 as (Hr & Hn & Hs); [|lia].
  apply IH in H2 as (Hl & Hf & next' & Hn' & Hs'); [|lia].
  split_and!; [cbn; lia|by constructor|]. exists next'. split; [lia|].
  cbn [fmap list_fmap concat]. rewrite <- Hs, <- Hs'. symmetry. apply slice_app_split; lia.
Qed.
Lemma parse_recipients_no_panic n payload pos :
  0 ≤ pos → no_panic (parse_recipients n payload pos).
Proof.
  revert pos. induction n as [|n IH]; intros pos Hp; cbn [parse_recipients]; [done|].
  apply no_panic_bind; [by apply parse_recipient_no_panic|]. intros [r next] Hr.
  apply parse_recipient_inv in Hr as (_ & Hn & _); [|done].
  apply no_panic_bind; [apply IH; lia|done].
Qed.

Lemma parse_asymmetric_ok p rest :
  payload_wf KMS_ASYMMETRIC_WRAP (AsymmetricWrap p) →
  parse_asymmetric_wrap (serialize_kms_payload (AsymmetricWrap p) ++ rest) = Ok (AsymmetricWrap p).
Proof.
  destruct p as [wa rs]. kms_fields. intros (_ & Hw & Hn & Hrs). pose proof (len_nonneg rest).
  pose proof (len_nonneg (concat (serialize_recipient <$> rs))).
  unfold fits in Hw. payload_at. unfold parse_asymmetric_wrap. read_bytes_at.
  replace (Z.to_nat (len rs)) with (length rs) by (unfold len; lia).
  rewrite (parse_recipients_ok payload rs 2 rest Hrs); [done|]. eapply at_eq; [done|lia].
Qed.
Lemma parse_asymmetric_inv payload q :
  parse_asymmetric_wrap payload = Ok q →
  payload_wf KMS_ASYMMETRIC_WRAP q ∧ serialize_kms_payload q `prefix_of` payload.
Proof.
  unfold parse_asymmetric_wrap. intros H. inv_ok. reads_inv. unfold fits in *.
  match goal with H : parse_recipients _ _ _ = Ok _ |- _ =>
    apply parse_recipients_inv in H as (Hl & Hf & next & Hn & Hs) end; [|lia].
  kms_fields. assert (Hc : len x1 = x0) by (unfold len; lia). rewrite Hc. unfold fits.
  split; [split_and!; [lia..|done]|].
  exists (slice payload next (len payload)). by join_slices.
Qed.

Lemma parse_pbkdf2_no_panic payload : no_panic (parse_pbkdf2 payload).
Proof.
  unfold parse_pbkdf2. dif as E1; [done|].
  apply no_panic_bind; [apply u8_at_no_panic; lia|]. intros prf _. dif as E2; [|by dif as E3].
  apply no_panic_bind; [apply u8_at_no_panic; lia|]. intros n (_ & Hn & _)%u8_at_Ok.
  unfold fits in Hn. dif as E3; [done|]. dif as E4; [done|].
  rewrite slice_r_fits by lia. cbn [mbind result_bind].
  apply no_panic_bind; [apply u32_le_no_panic; lia|]. intros it _. do 2 (case_match; [done|]).
  apply no_panic_bind; [apply u16_le_no_panic; lia|]. intros dk _. by case_match.
Qed.
Lemma parse_argon2_no_panic payload : no_panic (parse_argon2 payload).
Proof.
  unfold parse_argon2, parse_argon2_costs. dif as E1; [done|].
  apply no_panic_bind; [apply u8_at_no_panic; lia|]. intros var _. do 2 (case_match; [done|]).
  apply no_panic_bind; [apply u8_at_no_panic; lia|]. intros ver _. case_match; [done|].
  apply no_panic_bind; [apply u8_at_no_panic; lia|]. intros n (_ & Hn & _)%u8_at_Ok.
  unfold fits in Hn. dif as E3; [done|]. dif as E4; [done|].
  rewrite slice_r_fits by lia. cbn [mbind result_bind].
  do 2 (apply no_panic_bind; [apply u32_le_no_panic; lia|intros ? _]; do 2 (case_match; [done|])).
  apply no_panic_bind; [apply u16_le_no_panic; lia|intros ? _]. do 2 (case_match; [done|]).
  apply no_panic_bind; [apply u16_le_no_panic; lia|intros ? _]. by case_match.
Qed.
Lemma parse_asymmetric_no_panic payload : no_panic (parse_asymmetric_wrap payload).
Proof.
  unfold parse_asymmetric_wrap. dif as E1; [done|].
  do 2 (apply no_panic_bind; [apply u8_at_no_panic; lia|intros ? _]). case_match; [done|].
  apply no_panic_bind; [apply parse_recipients_no_panic; lia|done].
Qed.

Lemma parse_kms_payload_no_panic mode payload : no_panic (parse_kms_payload mode payload).
Proof.
  unfold parse_kms_payload. repeat case_match; try done.
  - apply parse_pbkdf2_no_panic.
  - apply parse_argon2_no_panic.
  - apply parse_asymmetric_no_panic.
Qed.
Lemma parse_kms_payload_spec mode payload params :
  parse_kms_payload mode payload = Ok params ↔
  payload_wf mode params ∧ serialize_kms_payload params `prefix_of` payload.
Proof.
  unfold parse_kms_payload. split.
  - destruct (Z.eqb_spec mode KMS_PBKDF2) as [->|]; [apply parse_pbkdf2_inv|].
    destruct (Z.eqb_spec mode KMS_ARGON2) as [->|]; [apply parse_argon2_inv|].
    destruct (Z.eqb_spec mode KMS_ASYMMETRIC_WRAP) as [->|]; [apply parse_asymmetric_inv|].
    by repeat case_match.
  - intros [Hwf [rest ->]]. destruct params as [p|p|p|p]; [| | |done];
      pose proof Hwf as [-> _]; cbn [Z.eqb Pos.eqb KMS_PBKDF2 KMS_ARGON2 KMS_ASYMMETRIC_WRAP].
    + by apply parse_pbkdf2_ok.
    + by apply parse_argon2_ok.
    + by apply parse_asymmetric_ok.
Qed.

(** ** The payload of the TLS exporter *)
Lemma parse_tls_ok p rest :
  tls_wf p →
  parse_tls_exporter_kms_payload (serialize_tls_exporter_kms_payload p ++ rest) = Ok p.
Proof.
  destruct p as [label cv aead kdf gh salt dk fl]. kms_fields. unfold fits.
  intros (Hl & Ha & -> & Hae & -> & Hg & Hs & Hd & ->). pose proof (len_nonneg rest).
  pose proof (len_nonneg salt). payload_at.
  unfold parse_tls_exporter_kms_payload, parse_tls_exporter_fields,
    TLS_EXPORTER_CONTEXT_VERSION_1, TLS_EXPORTER_KDF_DIRECT in *.
  read_bytes_at. rewrite (checked_add_fits 64 1) by lia. read_bytes_at.
  rewrite Ha, (Utf8.from_utf8_ascii _ Ha). read_bytes_at.
  rewrite checked_add_fits by lia. read_bytes_at. done.
Qed.
Lemma parse_tls_inv payload p :
  parse_tls_exporter_kms_payload payload = Ok p →
  tls_wf p ∧ serialize_tls_exporter_kms_payload p `prefix_of` payload.
Proof.
  unfold parse_tls_exporter_kms_payload, parse_tls_exporter_fields. intros H. inv_ok.
  reads_inv. unfold fits in *. rewrite len_slice in * by lia. kms_fields.
  match goal with H : negb (forallb _ _) = false |- _ => apply negb_false_iff in H end.
  rewrite !len_slice by lia. unfold fits. split; [split_and!; (done || lia)|].
  set (e := 1 + x + 1 + 1 + 1 + 1 + 1 + _) in *.
  exists (slice payload (e + 2 + 2) (len payload)).
  replace (1 + x - 1) with x by lia.
  replace (e - (1 + x + 1 + 1 + 1 + 1 + 1)) with x6 by lia. subst e. by join_slices.
Qed.
Lemma parse_tls_no_panic payload : no_panic (parse_tls_exporter_kms_payload payload).
Proof.
  unfold parse_tls_exporter_kms_payload, parse_tls_exporter_fields. dif as E1; [done|].
  pose proof (len_nonneg payload).
  apply no_panic_bind; [apply u8_at_no_panic; lia|]. intros n (_ & Hn & _)%u8_at_Ok.
  unfold fits in Hn. rewrite checked_add_fits by lia. cbn [ok_or mbind result_bind].
  dif as E2; [done|]. rewrite slice_r_fits by lia. cbn [mbind result_bind].
  do 3 (case_match; [done|]).
  apply no_panic_bind; [apply u8_at_no_panic; lia|intros ? _]. case_match; [done|].
  do 2 (apply no_panic_bind; [apply u8_at_no_panic; lia|intros ? _]). case_match; [done|].
  apply no_panic_bind; [apply u8_at_no_panic; lia|intros ? _]. case_match; [done|].
  apply no_panic_bind; [apply u8_at_no_panic; lia|]. intros k (_ & Hk & _)%u8_at_Ok.
  unfold fits in Hk.
  apply no_panic_bind; [apply no_panic_ok_or|]. intros e [-> _]%ok_or_Ok%checked_add_Some.
  dif as E3; [done|]. rewrite slice_r_fits by lia. cbn [mbind result_bind].
  apply no_panic_bind; [apply u16_le_no_panic; lia|intros ? _]. case_match; [done|].
  apply no_panic_bind; [apply u16_le_no_panic; lia|intros ? _]. by case_match.
Qed.

(** ** Key derivation and resolution *)

Section resolution.
Context `{K : Kdfs}.

(** Parameters a parser accepted pass the checks of the derivation. *)
Lemma derive_key_accepts mode params password :
  payload_wf mode params →
  match params with
  | Pbkdf2 p => pbkdf2_derive_key p password
      = Ok (pbkdf2_hmac_sha256 password (Pbkdf2Params.salt p) (Pbkdf2Params.iterations p) 32)
  | Argon2 p => argon2_derive_key p password =
      match argon2_params_new (Argon2Params.memory_cost_kib p) (Argon2Params.time_cost p)
              (Argon2Params.parallelism p) 32 with
      | Some ap => ok_or (argon2id_hash_password_into ap password (Argon2Params.salt p) 32)
                     (Internal "Argon2 key derivation failed")
      | None => Err (Malformed "invalid Argon2 parameters")
      end
  | AsymmetricWrap _ | TlsExporter _ => True
  end.
Proof.
  destruct params as [p|p|p|p]; [| |done..]; kms_fields.
  - intros (_ & Hp & Hs & Hi & Hd). unfold pbkdf2_derive_key. rewrite Hp, Hd. rust_ok. done.
  - intros (_ & Hv & Hn & Hs & Hm & Ht & Hpar & Hd). unfold argon2_derive_key.
    rewrite Hv, Hd. rust_ok. unfold AEAD_KEY_SIZE. by destruct (argon2_params_new _ _ _ _).
Qed.

(** The key of a wrapped archive is the one of the first recipient the provider can
    unwrap. *)
Lemma unwrap_recipients_spec (provider : KeyProvider) context rs key :
  unwrap_recipients provider context rs = Ok key ↔
  ∃ before r after, rs = before ++ r :: after
    ∧ Forall (λ r, unwrap_key context (AsymmetricRecipient.wrapped_key r) = Ok None) before
    ∧ unwrap_key context (AsymmetricRecipient.wrapped_key r) = Ok (Some key).
Proof.
  induction rs as [|r rs IH]; cbn [unwrap_recipients].
  { split; [done|]. by intros ([] & ? & ? & ? & _). }
  split.
  - intros (o & Ho & H)%bind_Ok. destruct o as [k|].
    + injection H as ->. exists [], r, rs. by split_and!; [|constructor|].
    + apply IH in H as (b & r' & a & -> & Hb & Hr). exists (r :: b), r', a.
      by split_and!; [|constructor|].
  - intros ([|r0 b] & r' & a & E & Hb & Hr); injection E as -> E.
    + by rewrite Hr.
    + apply Forall_cons in Hb as [H0 Hb]. rewrite H0. cbn [mbind result_bind].
      apply IH. by exists b, r', a.
Qed.
End resolution.

(** ** Theorems *)

(** The KMS payloads: no payload makes a parser panic; a payload is accepted
    exactly when it starts with the serialization of parameters of its mode that
    satisfy the documented minima and limits (salt of at least 16 bytes, 100,000 to
    10,000,000 iterations, 64 MiB to 2 GiB of memory, no empty wrapped key, an ASCII
    label, no reserved value), and then those parameters are returned. *)
Theorem kms_payload_inverse mode payload :
  no_panic (parse_kms_payload mode payload)
  ∧ (∀ params, parse_kms_payload mode payload = Ok params ↔
       payload_wf mode params ∧ serialize_kms_payload params `prefix_of` payload)
  ∧ no_panic (parse_tls_exporter_kms_payload payload)
  ∧ (∀ p, parse_tls_exporter_kms_payload payload = Ok p ↔
       tls_wf p ∧ serialize_tls_exporter_kms_payload p `prefix_of` payload).
Proof.
  split_and!; [apply parse_kms_payload_no_panic|intros; apply parse_kms_payload_spec
    |apply parse_tls_no_panic|].
  intros p. split; [apply parse_tls_inv|]. intros [Hp [rest ->]]. by apply parse_tls_ok.
Qed.

(** A well-typed exporter context: bytes, a 16-bit stream id, a UUID, and a hash and a
    salt whose lengths fit their length bytes. *)
Definition context_typed (c : TlsExporterContextV1.t) : Prop :=
  fits 8 (TlsExporterContextV1.transport_profile_id c)
  ∧ fits 8 (TlsExporterContextV1.sar_major_version c)
  ∧ fits 8 (TlsExporterContextV1.sar_minor_version c)
  ∧ fits 8 (TlsExporterContextV1.global_header_hash_algo_id c)
  ∧ fits 8 (len (TlsExporterContextV1.global_header_hash c))
  ∧ fits 8 (TlsExporterContextV1.aead_algo_id c) ∧ fits 16 (TlsExporterContextV1.stream_id c)
  ∧ len (TlsExporterContextV1.session_uuid c) = 16
  ∧ fits 8 (TlsExporterContextV1.key_usage_id c)
  ∧ fits 8 (len (TlsExporterContextV1.salt c)).

Lemma byte_of_inj8 a b : fits 8 a → fits 8 b → byte_of a = byte_of b → a = b.
Proof.
  unfold fits. intros Ha Hb H%(f_equal byte_val).
  by rewrite !byte_val_of_small in H by lia.
Qed.
Lemma app_inj_len {A} (a b c d : list A) :
  len a = len b → a ++ c = b ++ d → a = b ∧ c = d.
Proof. unfold len. intros Hl. apply app_inj_1. lia. Qed.

Lemma encode_context_inj a b :
  context_typed a → context_typed b →
  encode_tls_exporter_context_v1 a = encode_tls_exporter_context_v1 b → a = b.
Proof.
  destruct a as [a1 a2 a3 a4 ah a5 a6 au a7 asl], b as [b1 b2 b3 b4 bh b5 b6 bu b7 bsl].
  unfold context_typed, encode_tls_exporter_context_v1.
  cbn [TlsExporterContextV1.transport_profile_id TlsExporterContextV1.sar_major_version
    TlsExporterContextV1.sar_minor_version TlsExporterContextV1.global_header_hash_algo_id
    TlsExporterContextV1.global_header_hash TlsExporterContextV1.aead_algo_id
    TlsExporterContextV1.stream_id TlsExporterContextV1.session_uuid
    TlsExporterContextV1.key_usage_id TlsExporterContextV1.salt].
  intros (A1 & A2 & A3 & A4 & AH & A5 & A6 & AU & A7 & AS)
    (B1 & B2 & B3 & B4 & BH & B5 & B6 & BU & B7 & BS) H.
  apply app_inj_len in H as [_ H]; [|done].
  do 5 (apply app_inj_len in H as [?E H]; [|done]).
  assert (Hh : len ah = len bh) by (apply byte_of_inj8; congruence).
  apply app_inj_len in H as [-> H]; [|done].
  do 2 (apply app_inj_len in H as [?E H]; [|done]).
  apply app_inj_len in H as [E7 H]; [|by rewrite !len_le_bytes].
  apply app_inj_len in H as [-> H]; [|lia].
  do 2 (apply app_inj_len in H as [?E H]; [|done]).
  apply (f_equal le_val) in E7. rewrite !le_val_bytes in E7 by done.
  repeat match goal with E : [byte_of ?a] = [byte_of ?b] |- _ =>
    assert (a = b) by (apply byte_of_inj8; congruence); clear E end.
  congruence.
Qed.

(** Key separation of the TLS exporter: two well-typed contexts that differ in any
    field (transport, version, header hash, algorithm, stream, session, direction or
    salt) are encoded differently, so that no two uses of a connection share the
    exporter context their key is derived from. *)
Theorem exporter_context_separates a b :
  context_typed a → context_typed b → a ≠ b →
  encode_tls_exporter_context_v1 a ≠ encode_tls_exporter_context_v1 b.
Proof. intros Ha Hb Hne H. apply Hne. by apply encode_context_inj. Qed.

Definition sample_context (usage : Z) : TlsExporterContextV1.t := {|
  TlsExporterContextV1.transport_profile_id := TLS_EXPORTER_TRANSPORT_QUIC;
  TlsExporterContextV1.sar_major_version := 1; TlsExporterContextV1.sar_minor_version := 0;
  TlsExporterContextV1.global_header_hash_algo_id := HASH_SHA256;
  TlsExporterContextV1.global_header_hash := zeros 32;
  TlsExporterContextV1.aead_algo_id := ENCR_AES256_GCM;
  TlsExporterContextV1.stream_id := 7; TlsExporterContextV1.session_uuid := zeros 16;
  TlsExporterContextV1.key_usage_id := usage; TlsExporterContextV1.salt := [] |}.
Lemma exporter_context_separates_witness :
  encode_tls_exporter_context_v1 (sample_context TLS_EXPORTER_KEY_USAGE_CLIENT_TO_SERVER)
  ≠ encode_tls_exporter_context_v1 (sample_context TLS_EXPORTER_KEY_USAGE_SERVER_TO_CLIENT).
Proof.
  apply exporter_context_separates; [unfold context_typed, fits; vm_compute; intuition congruence..|].
  discriminate.
Defined.

End Kms.
