(* ===== verification/Transform.v ===== *)
(** * Compression and the payload pipelines

    Models [crates/sar-compression/src/lib.rs] (the registry of compression algorithms
    and the bounded copy) and [crates/sar-archive/src/transform.rs] (the two pipelines of
    an entry: compress, then encrypt; authenticate, then decompress within a limit).

    The compressors are third-party crates (class [Compressors]).  A [Read] object is the
    list of what its successive calls of [read] return, bytes or an error; the end of the
    list is the end of the stream. *)

From S2P Require Import Prelude Errors Crypto.

Module CompressionError.
(** [enum CompressionError]; an [io::Error] is its description. *)
Inductive t : Set :=
  | Io (e : string) | Unsupported (id : Z) | ReservedValue (id : Z)
  | CompressionFailed (e : string) | DecompressionFailed (e : string) | LimitExceeded.
End CompressionError.

Module Compression.
Import CompressionError.

Definition COMP_ALGO_STORE : Z := 0x00.
Definition COMP_ALGO_DEFLATE : Z := 0x01.
Definition COMP_ALGO_ZSTD : Z := 0x02.

(** [enum CompressionAlgorithm]. *)
Inductive CompressionAlgorithm : Set := Store | Deflate | Zstd.
#[global] Instance algorithm_eq_dec : EqDecision CompressionAlgorithm.
Proof. solve_decision. Defined.

Definition from_id (id : Z) : result CompressionError.t CompressionAlgorithm :=
  if id =? COMP_ALGO_STORE then Ok Store
  else if id =? COMP_ALGO_DEFLATE then Ok Deflate
  else if id =? COMP_ALGO_ZSTD then Ok Zstd
  else if Crypto.within 0x03 0x05 id || Crypto.within 0xF0 0xFF id then Err (Unsupported id)
  else Err (ReservedValue id).
Definition id (a : CompressionAlgorithm) : Z :=
  match a with
  | Store => COMP_ALGO_STORE | Deflate => COMP_ALGO_DEFLATE | Zstd => COMP_ALGO_ZSTD
  end.
Definition name (a : CompressionAlgorithm) : string :=
  match a with Store => "STORE" | Deflate => "DEFLATE" | Zstd => "ZSTD" end.

(** What a reader returns, read by read. *)
Definition Reads : Type := list (string + list byte).

(** The compressors: encoders at a level, an error or the stream; decoders as readers
    ([zstd::stream::Decoder::new] can fail at once). *)
Class Compressors := {
  deflate_encode : Z → list byte → string + list byte;
  deflate_reads : list byte → Reads;
  zstd_encode : Z → list byte → string + list byte;
  zstd_reads : list byte → string + Reads }.

(** A reader that delivers [data] in non-empty pieces. *)
Definition delivers (rs : Reads) (data : list byte) : Prop :=
  ∃ ps, rs = inr <$> ps ∧ Forall (λ p, p ≠ []) ps ∧ concat ps = data.
(** The round trip the two formats promise, at every level that is used. *)
Class CompressorLaws (C : Compressors) : Prop := {
  deflate_inverse level data e : 0 ≤ level ≤ 9 →
    deflate_encode level data = inr e → delivers (deflate_reads e) data;
  zstd_inverse level data e : 0 ≤ level ≤ 9 →
    zstd_encode level data = inr e → ∃ rs, zstd_reads e = inr rs ∧ delivers rs data }.

(** [Cursor::read] into a buffer of 8192 bytes. *)
Definition BUF_SIZE : Z := 8192.
Fixpoint cursor_loop (fuel : nat) (data : list byte) : Reads :=
  match fuel with
  | O => []
  | S fuel =>
      match data with
      | [] => []
      | _ => inr (take (Z.to_nat BUF_SIZE) data)
             :: cursor_loop fuel (drop (Z.to_nat BUF_SIZE) data)
      end
  end.
Definition cursor_reads (data : list byte) : Reads := cursor_loop (length data) data.

(** [copy_bounded]: [output] is what was written, [written] its size. *)
Fixpoint copy_loop (input : Reads) (max_output_size written : Z) (output : list byte)
    : result CompressionError.t (list byte) :=
  match input with
  | [] => Ok output
  | inl e :: _ => Err (Io e)
  | inr buf :: input =>
      let n := len buf in
      if n =? 0 then Ok output else
      n_u64 ← ok_or (try_from 64 n) (Io "chunk size conversion overflow");
      written ← ok_or (checked_add 64 written n_u64) (Io "decoded length overflow");
      if written >? max_output_size then Err LimitExceeded
      else copy_loop input max_output_size written (output ++ buf)
  end.
Definition copy_bounded (input : Reads) (max_output_size : Z)
    : result CompressionError.t (list byte) :=
  copy_loop input max_output_size 0 [].

(** The [map_err] of the two decoders. *)
Definition decoder_error (e : CompressionError.t) : CompressionError.t :=
  match e with Io inner => DecompressionFailed inner | other => other end.
(** [map_err(|e| CompressionError::CompressionFailed(e.to_string()))] on an encoder. *)
Definition encoded (r : string + list byte) : result CompressionError.t (list byte) :=
  match r with inl e => Err (CompressionFailed e) | inr out => Ok out end.

Section streams.
Context `{C : Compressors}.

(** [encode_stream] of the bytes of a cursor into an empty vector. *)
Definition encode_stream (algo_id : Z) (input : list byte) (level : option Z)
    : result CompressionError.t (list byte) :=
  a ← from_id algo_id;
  match a with
  | Store => Ok input
  | Deflate => encoded (deflate_encode (Z.min (default 6 level) 9) input)
  | Zstd => encoded (zstd_encode (Z.min (default 3 level) 9) input)
  end.

Definition decode_stream (algo_id : Z) (input : list byte) (max_output_size : Z)
    : result CompressionError.t (list byte) :=
  a ← from_id algo_id;
  match a with
  | Store => copy_bounded (cursor_reads input) max_output_size
  | Deflate => map_err decoder_error (copy_bounded (deflate_reads input) max_output_size)
  | Zstd =>
      match zstd_reads input with
      | inl e => Err (DecompressionFailed e)
      | inr decoder => map_err decoder_error (copy_bounded decoder max_output_size)
      end
  end.
End streams.

End Compression.

Module Transform.
Import Compression Crypto.

Definition map_compression_error (error : CompressionError.t) : SarError.t :=
  match error with
  | CompressionError.Io inner => SarError.Io inner
  | CompressionError.Unsupported _ => SarError.Unsupported "compression algorithm"
  | CompressionError.ReservedValue _ =>
      SarError.ReservedValue "compression algorithm id is reserved"
  | CompressionError.CompressionFailed _ => SarError.CompressionFailed "compression failed"
  | CompressionError.DecompressionFailed _ =>
      SarError.DecompressionFailed "decompression failed"
  | CompressionError.LimitExceeded => SarError.LimitExceeded "decompression output limit"
  end.

(** [struct EntryCryptoContext]. *)
Record EntryCryptoContext := {
  algo_id : Z; iv_nonce : list byte; aad : list byte; key : list byte }.
(** [EncodingPlan], [DecodingPlan] and their extensions with a crypto context. *)
Record EncodingPlan := {
  is_compressed : bool; comp_algo_id : Z; compression_level : option Z }.
Record DecodingPlan := {
  d_is_compressed : bool; d_comp_algo_id : Z; expected_output_size : Z; max_output_size : Z }.
Record EncodingPlanV2 := { encoding : EncodingPlan; e_crypto : option EntryCryptoContext }.
Record DecodingPlanV2 := { decoding : DecodingPlan; d_crypto : option EntryCryptoContext }.

Section transform.
Context `{Comp : Compressors} `{Ciph : Ciphers}.

(** [EncoderTransform] and [DecoderTransform] of the compression transforms. *)
Definition encoder_transform (algo_id : Z) (level : option Z) (input : list byte)
    : result SarError.t (list byte) :=
  map_err map_compression_error (encode_stream algo_id input level).
Definition decoder_transform (algo_id max_output_size : Z) (input : list byte)
    : result SarError.t (list byte) :=
  map_err map_compression_error (decode_stream algo_id input max_output_size).

Definition encode_payload (logical_payload : list byte) (plan : EncodingPlan)
    : result SarError.t (list byte) :=
  let algo_id := if is_compressed plan then comp_algo_id plan else COMP_ALGO_STORE in
  encoder_transform algo_id (compression_level plan) logical_payload.

Definition decode_payload (encoded_payload : list byte) (plan : DecodingPlan)
    : result SarError.t (list byte) :=
  let algo_id := if d_is_compressed plan then d_comp_algo_id plan else COMP_ALGO_STORE in
  let max_output := Z.min (expected_output_size plan) (max_output_size plan) in
  if expected_output_size plan >? max_output_size plan
  then Err (SarError.LimitExceeded "entry uncompressed size exceeds configured decode limit")
  else decoder_transform algo_id max_output encoded_payload.

Definition encode_payload_v2 (logical_payload : list byte) (plan : EncodingPlanV2)
    : result SarError.t (list byte) :=
  compressed ← encode_payload logical_payload (encoding plan);
  match e_crypto plan with
  | Some context =>
      map_err CryptoError.to_sar
        (aead_encrypt (algo_id context) (key context) (iv_nonce context) (aad context) compressed)
  | None => Ok compressed
  end.

Definition decode_payload_v2 (encoded_payload : list byte) (plan : DecodingPlanV2)
    : result SarError.t (list byte) :=
  decrypted ←
    match d_crypto plan with
    | Some context =>
        map_err CryptoError.to_sar
          (aead_decrypt (algo_id context) (key context) (iv_nonce context) (aad context)
             encoded_payload)
    | None => Ok encoded_payload
    end;
  decode_payload decrypted (decoding plan).
End transform.

(** ** Facts *)

Lemma from_id_id a : from_id (id a) = Ok a.
Proof. by destruct a. Qed.
Lemma from_id_Ok i a : from_id i = Ok a ↔ i = id a.
Proof.
  split; [|intros ->; apply from_id_id]. unfold from_id.
  repeat (match goal with |- context [i =? ?k] => destruct (Z.eqb_spec i k) as [->|] end;
          [by intros [= <-]|]).
  by case_match.
Qed.
Lemma from_id_no_panic i : no_panic (from_id i).
Proof. unfold from_id. np. Qed.

(** The bounded copy of a reader that delivers [data]: all of it, or the limit. *)
Lemma copy_loop_delivers ps max written out :
  Forall (λ p : list byte, p ≠ []) ps → 0 ≤ written →
  written + len (concat ps) < 2 ^ 64 →
  copy_loop (inr <$> ps) max written out =
    if decide (ps = []) then Ok out
    else if written + len (concat ps) <=? max then Ok (out ++ concat ps) else Err CompressionError.LimitExceeded.
Proof.
  intros Hps. revert written out. induction Hps as [|p ps Hp Hps IH]; intros written out Hw Hb;
    [done|]. rewrite decide_False by done. cbn [fmap list_fmap copy_loop concat] in *.
  rewrite len_app in *. pose proof (len_nonneg (concat ps)).
  assert (0 < len p) by (destruct p; [done|rewrite len_cons; pose proof (len_nonneg p); lia]).
  rewrite (proj2 (Z.eqb_neq _ _)) by lia. rewrite try_from_fits by lia. cbn [ok_or mbind result_bind].
  rewrite checked_add_fits by lia. cbn [ok_or mbind result_bind].
  destruct (Z.gtb_spec (written + len p) max).
  - by rewrite (proj2 (Z.leb_gt _ _)) by lia.
  - rewrite IH by lia. destruct (decide (ps = [])) as [->|].
    + cbn [concat]. rewrite app_nil_r, len_nil. by rewrite (proj2 (Z.leb_le _ _)) by lia.
    + rewrite app_assoc. replace (written + len p + len (concat ps))
        with (written + (len p + len (concat ps))) by lia. done.
Qed.
Lemma copy_bounded_delivers rs data max :
  delivers rs data → 0 ≤ max → len data < 2 ^ 64 →
  copy_bounded rs max
  = if len data <=? max then Ok data else Err CompressionError.LimitExceeded.
Proof.
  intros (ps & -> & Hps & <-) Hm Hd. unfold copy_bounded. rewrite copy_loop_delivers by (done || lia).
  destruct (decide (ps = [])) as [->|]; [|done].
  cbn [concat]. rewrite len_nil. by rewrite (proj2 (Z.leb_le _ _)).
Qed.
(** Whatever the reader does, the copy stays within the limit. *)
Lemma copy_loop_bounded rs max written out r :
  written = len out → written ≤ max → copy_loop rs max written out = Ok r → len r ≤ max.
Proof.
  revert written out. induction rs as [|[e|p] rs IH]; intros written out Hw Hm; cbn [copy_loop].
  - intros [= <-]. lia.
  - done.
  - dif as E0; [intros [= <-]; lia|]. intros H. inv_ok.
    eapply IH; [| |done]; [rewrite len_app; lia|lia].
Qed.
Lemma copy_loop_no_panic rs max written out : no_panic (copy_loop rs max written out).
Proof.
  revert written out. induction rs as [|[e|p] rs IH]; intros; cbn [copy_loop]; [done..|]. np.
Qed.

Lemma cursor_delivers data : delivers (cursor_reads data) data.
Proof.
  unfold cursor_reads. assert (H : (length data ≤ length data)%nat) by lia. revert H.
  generalize (length data) at 2 3. intros fuel. revert data.
  induction fuel as [|fuel IH]; intros data Hl; cbn [cursor_loop].
  { destruct data; [|cbn in Hl; lia]. exists []. by split_and!. }
  destruct data as [|b data]; [by exists []; split_and!|].
  destruct (IH (drop (Z.to_nat BUF_SIZE) (b :: data))) as (ps & Hps & Hf & Hc).
  { rewrite length_drop. unfold BUF_SIZE. cbn [length] in *. lia. }
  exists (take (Z.to_nat BUF_SIZE) (b :: data) :: ps). rewrite Hps.
  split_and!; [done| |by cbn [concat]; rewrite Hc, take_drop].
  constructor; [|done]. unfold BUF_SIZE. by change (Z.to_nat 8192) with (S (Z.to_nat 8191)).
Qed.

Section pipeline.
Context `{Comp : Compressors} `{Ciph : Ciphers}.

Lemma decode_stream_no_panic i input max : no_panic (decode_stream i input max).
Proof.
  unfold decode_stream. apply no_panic_bind; [apply from_id_no_panic|]. intros a _.
  destruct a; unfold copy_bounded; [|apply no_panic_map_err|];
    [apply copy_loop_no_panic..|]. case_match; [done|].
  apply no_panic_map_err, copy_loop_no_panic.
Qed.
Lemma decode_stream_bounded i input max d :
  0 ≤ max → decode_stream i input max = Ok d → len d ≤ max.
Proof.
  intros Hm. unfold decode_stream, copy_bounded. intros (a & _ & H)%bind_Ok.
  assert (Hc : ∀ rs, copy_loop rs max 0 [] = Ok d → len d ≤ max)
    by (intros rs; by apply copy_loop_bounded).
  destruct a; [by eapply Hc|apply map_err_Ok in H; by eapply Hc|].
  case_match; [done|]. apply map_err_Ok in H. by eapply Hc.
Qed.

Context `{!CompressorLaws Comp, !CipherLaws Ciph}.

(** Decoding what was encoded: the data, unless it is longer than the bound. *)
Lemma decode_encode_stream i input level e max :
  (∀ l, level = Some l → 0 ≤ l) → 0 ≤ max → len input < 2 ^ 64 →
  encode_stream i input level = Ok e →
  decode_stream i e max
  = if len input <=? max then Ok input else Err CompressionError.LimitExceeded.
Proof.
  intros Hl Hm Hi. unfold encode_stream, decode_stream.
  assert (Hlev : ∀ d, 0 ≤ d → 0 ≤ Z.min (default d level) 9 ≤ 9).
  { intros d Hd. destruct level as [l|]; cbn; [specialize (Hl l eq_refl)|]; lia. }
  intros (a & -> & H)%bind_Ok. cbn [mbind result_bind].
  assert (Hmap : ∀ rs, delivers rs input → map_err decoder_error (copy_bounded rs max)
    = if len input <=? max then Ok input else Err CompressionError.LimitExceeded).
  { intros rs Hrs. rewrite (copy_bounded_delivers _ _ _ Hrs Hm Hi). by destruct (_ <=? _). }
  destruct a.
  - injection H as <-. apply copy_bounded_delivers; [apply cursor_delivers|done..].
  - destruct (deflate_encode _ _) as [|out] eqn:E; [done|]. injection H as <-.
    apply Hmap. by apply (deflate_inverse _ _ _ (Hlev 6 ltac:(lia))) in E.
  - destruct (zstd_encode _ _) as [|out] eqn:E; [done|]. injection H as <-.
    apply (zstd_inverse _ _ _ (Hlev 3 ltac:(lia))) in E as (rs & -> & Hrs). by apply Hmap.
Qed.
End pipeline.

(** ** Theorems *)

(** The decoding plan of an encoding plan. *)
Definition decoding_of (plan : EncodingPlanV2) (expected max : Z) : DecodingPlanV2 := {|
  decoding := {| d_is_compressed := is_compressed (encoding plan);
                 d_comp_algo_id := comp_algo_id (encoding plan);
                 expected_output_size := expected; max_output_size := max |};
  d_crypto := e_crypto plan |}.
Definition plan_typed (plan : EncodingPlanV2) : Prop :=
  (∀ l, compression_level (encoding plan) = Some l → 0 ≤ l)
  ∧ ∀ c, e_crypto plan = Some c → len (iv_nonce c) = 24.

(** Decoding what was encoded, on every branch of the two size checks. *)
Lemma payload_decodes `{Comp : Compressors} `{Ciph : Ciphers}
    `{!CompressorLaws Comp, !CipherLaws Ciph} payload plan stored expected max :
  plan_typed plan → len payload < 2 ^ 64 → 0 ≤ expected → 0 ≤ max →
  encode_payload_v2 payload plan = Ok stored →
  decode_payload_v2 stored (decoding_of plan expected max) =
    if expected >? max
    then Err (SarError.LimitExceeded "entry uncompressed size exceeds configured decode limit")
    else if len payload <=? expected then Ok payload
    else Err (SarError.LimitExceeded "decompression output limit").
Proof.
  intros [Hlev Hn] Hp He Hm. unfold encode_payload_v2, decode_payload_v2.
  intros (c & Hc & H)%bind_Ok. cbn [decoding_of d_crypto decoding].
  assert (Hd : match e_crypto plan with
    | Some context => map_err CryptoError.to_sar (aead_decrypt (algo_id context) (key context)
                        (iv_nonce context) (aad context) stored)
    | None => Ok stored end = Ok c).
  { destruct (e_crypto plan) as [cx|]; [|by injection H as ->]. apply map_err_Ok in H.
    apply aead_roundtrip in H as [-> _]; [done|]. by apply Hn. }
  rewrite Hd. cbn [mbind result_bind]. unfold decode_payload, encode_payload, encoder_transform in *.
  cbn [d_is_compressed d_comp_algo_id expected_output_size max_output_size].
  dif as E; [done|]. rewrite Z.min_l by lia. apply map_err_Ok in Hc. unfold decoder_transform.
  rewrite (decode_encode_stream _ _ _ _ expected Hlev He Hp Hc). by destruct (_ <=? _).
Qed.

(** (C33) Round trip of the payload pipelines, for every algorithm and cipher: what
    [encode_payload_v2] stored, [decode_payload_v2] under the same algorithm, key, nonce
    and additional data returns, provided the announced size admits it and is itself
    within the configured maximum; otherwise it fails with [LimitExceeded]. *)
Theorem payload_roundtrip `{Comp : Compressors} `{Ciph : Ciphers}
    `{!CompressorLaws Comp, !CipherLaws Ciph} payload plan stored expected max :
  plan_typed plan → len payload < 2 ^ 64 → 0 ≤ expected → 0 ≤ max →
  encode_payload_v2 payload plan = Ok stored →
  decode_payload_v2 stored (decoding_of plan expected max) =
    if expected >? max
    then Err (SarError.LimitExceeded "entry uncompressed size exceeds configured decode limit")
    else if len payload <=? expected then Ok payload
    else Err (SarError.LimitExceeded "decompression output limit").
Proof. intros. by apply payload_decodes. Qed.

Lemma decode_payload_v2_no_panic `{Comp : Compressors} `{Ciph : Ciphers} stored plan :
  (∀ c, d_crypto plan = Some c → len (iv_nonce c) = 24) → no_panic (decode_payload_v2 stored plan).
Proof.
  intros Hn. unfold decode_payload_v2, decode_payload, decoder_transform. apply no_panic_bind.
  { destruct (d_crypto plan) as [c|] eqn:Ec; [|done].
    apply no_panic_map_err, aead_decrypt_no_panic. by apply Hn. }
  intros d _. dif as E; [done|]. apply no_panic_map_err, decode_stream_no_panic.
Qed.
Lemma decode_payload_v2_bounded `{Comp : Compressors} `{Ciph : Ciphers} stored plan d :
  0 ≤ expected_output_size (decoding plan) → 0 ≤ max_output_size (decoding plan) →
  decode_payload_v2 stored plan = Ok d →
  len d ≤ expected_output_size (decoding plan) ≤ max_output_size (decoding plan).
Proof.
  intros He Hm. unfold decode_payload_v2, decode_payload, decoder_transform.
  intros (x & _ & H)%bind_Ok. inv_ok. split; [|lia].
  match goal with H : decode_stream _ _ _ = Ok _ |- _ => apply decode_stream_bounded in H end; lia.
Qed.

(** Decoding untrusted bytes: [decode_payload_v2] never panics; a failed
    authentication is reported before any byte reaches a decompressor, and the result
    never exceeds the announced size nor the configured maximum, whatever the
    decompressor produces. *)
Theorem payload_decoding_safe `{Comp : Compressors} `{Ciph : Ciphers} stored plan :
  (∀ c, d_crypto plan = Some c → len (iv_nonce c) = 24) →
  0 ≤ expected_output_size (decoding plan) → 0 ≤ max_output_size (decoding plan) →
  no_panic (decode_payload_v2 stored plan)
  ∧ (∀ d, decode_payload_v2 stored plan = Ok d →
       len d ≤ expected_output_size (decoding plan) ≤ max_output_size (decoding plan))
  ∧ (∀ c e, d_crypto plan = Some c →
       aead_decrypt (algo_id c) (key c) (iv_nonce c) (aad c) stored = Err e →
       decode_payload_v2 stored plan = Err (CryptoError.to_sar e)).
Proof.
  intros Hn He Hm. split_and!.
  - by apply decode_payload_v2_no_panic.
  - intros d. by apply decode_payload_v2_bounded.
  - unfold decode_payload_v2. intros c e -> H. by rewrite H.
Qed.

(** ** Instances of the interfaces

    A stored block behind a marker byte, and a cipher that adds the first key byte to
    every byte and authenticates with a sum: enough to evaluate the pipelines and to see
    that the laws can hold. *)
Definition marked_compressors : Compressors := {|
  deflate_encode _ data := inr (x01 :: data);
  deflate_reads e := match e with
    | [] => [inl "unexpected end of file"%string]
    | _ :: data => cursor_reads data
    end;
  zstd_encode _ data := inr (x02 :: data);
  zstd_reads e := match e with
    | [] => inl "incomplete frame"%string
    | _ :: data => inr (cursor_reads data)
    end |}.
#[global] Instance marked_compressor_laws : CompressorLaws marked_compressors.
Proof.
  split.
  - intros level data e _ [= <-]. apply cursor_delivers.
  - intros level data e _ [= <-]. eexists. split; [done|]. apply cursor_delivers.
Qed.

Definition shift_bytes (k : Z) (l : list byte) : list byte :=
  (λ b, byte_of (byte_val b + k)) <$> l.
Definition sum_tag (key nonce aad text : list byte) : list byte :=
  le_bytes 16 (foldr (λ b n, 257 * n + byte_val b) 0 (key ++ nonce ++ aad ++ text)).
Definition key_shift (key : list byte) : Z :=
  match key with [] => 0 | b :: _ => byte_val b end.
Definition shift_encrypt (key nonce aad text : list byte) : option (list byte * list byte) :=
  Some (shift_bytes (key_shift key) text, sum_tag key nonce aad text).
Definition shift_decrypt (key nonce aad c tag : list byte) : option (list byte) :=
  let text := shift_bytes (- key_shift key) c in
  if bool_decide (sum_tag key nonce aad text = tag) then Some text else None.
Definition shift_ciphers : Ciphers := {|
  aes_encrypt := shift_encrypt; aes_decrypt := shift_decrypt;
  xchacha_encrypt := shift_encrypt; xchacha_decrypt := shift_decrypt |}.
Lemma shift_pair : aead_pair shift_encrypt shift_decrypt.
Proof.
  intros key nonce aad text c tag [= <- <-]. unfold shift_bytes. rewrite len_fmap.
  split_and!; [done|apply len_le_bytes|]. unfold shift_decrypt, shift_bytes.
  rewrite <- list_fmap_compose.
  assert (E : (λ b, byte_of (byte_val b + - key_shift key))
                ∘ (λ b, byte_of (byte_val b + key_shift key)) <$> text = text).
  { rewrite <- (list_fmap_id text) at 2. apply list_fmap_ext. intros _ b _. cbn.
    apply byte_val_inj. rewrite !byte_val_of, Z.add_mod_idemp_l by lia.
    replace (byte_val b + _ + _) with (byte_val b) by lia.
    apply Z.mod_small, byte_val_range. }
  by rewrite E, bool_decide_true.
Qed.
#[global] Instance shift_cipher_laws : CipherLaws shift_ciphers.
Proof. split; apply shift_pair. Qed.

Definition sample_plan : EncodingPlanV2 := {|
  encoding := {| is_compressed := true; comp_algo_id := COMP_ALGO_ZSTD;
                 compression_level := Some 19 |};
  e_crypto := Some {| algo_id := ENCR_XCHACHA20_POLY; iv_nonce := zeros 24; aad := [x53];
                      key := replicate 32 x07 |} |}.
Definition sample_payload : list byte := byte_of <$> [1; 2; 3; 250; 251].

Lemma payload_roundtrip_witness :
  ∃ stored,
    @encode_payload_v2 marked_compressors shift_ciphers sample_payload sample_plan = Ok stored
    ∧ len stored = 22
    ∧ @decode_payload_v2 marked_compressors shift_ciphers stored (decoding_of sample_plan 5 100)
      = Ok sample_payload.
Proof.
  eexists. split; [vm_compute; reflexivity|]. split; [vm_compute; reflexivity|].
  apply (@payload_roundtrip marked_compressors shift_ciphers _ _ sample_payload sample_plan _ 5 100);
    [|vm_compute; congruence..|vm_compute; reflexivity].
  split; [intros l [= <-]; lia|intros c [= <-]; reflexivity].
Defined.

(** A flipped byte is refused by the authentication. *)
Lemma payload_decoding_safe_witness :
  @decode_payload_v2 marked_compressors shift_ciphers (zeros 22) (decoding_of sample_plan 5 100)
  = Err (SarError.AuthFailed "XChaCha20-Poly1305 authentication tag mismatch").
Proof.
  apply (proj2 (proj2 (@payload_decoding_safe marked_compressors shift_ciphers (zeros 22)
           (decoding_of sample_plan 5 100) ltac:(intros c [= <-]; reflexivity)
           ltac:(vm_compute; congruence) ltac:(vm_compute; congruence)))
         _ (CryptoError.AuthFailed "XChaCha20-Poly1305 authentication tag mismatch") eq_refl).
  vm_compute. reflexivity.
Defined.

End Transform.
