(* ===== verification/Metadata.v ===== *)
(** * Metadata views of an entry

    Models [crates/sar-core/src/metadata.rs] (the three-state presence of a field, the
    kind of an entry and the per-field records) and the record [EntryMetadata] of
    [crates/sar-archive/src/archive.rs] that is filled from them.  Strings are their
    UTF-8 bytes; the serialization of the views for display is not modelled. *)

From S2P Require Import Prelude Flags FecRegistry Sparse Fragmentation.

Module Metadata.

(** [enum FieldPresence<T>]. *)
Inductive FieldPresence (T : Type) : Type :=
  | Absent | PresentInactive (v : T) | PresentActive (v : T).
Arguments Absent {T}.
Arguments PresentInactive {T} v.
Arguments PresentActive {T} v.

Definition is_absent {T} (f : FieldPresence T) : bool :=
  match f with Absent => true | _ => false end.
Definition is_present {T} (f : FieldPresence T) : bool := negb (is_absent f).
Definition is_active {T} (f : FieldPresence T) : bool :=
  match f with PresentActive _ => true | _ => false end.
Definition value {T} (f : FieldPresence T) : option T :=
  match f with Absent => None | PresentInactive v | PresentActive v => Some v end.

(** [enum EntryKind]. *)
Inductive EntryKind : Set := RegularFile | Directory | Symlink | EmptyArea.
#[global] Instance entry_kind_eq_dec : EqDecision EntryKind.
Proof. solve_decision. Defined.

Definition from_mode_and_name (entry_mode : Z) (name_is_empty : bool) : EntryKind :=
  if name_is_empty && negb (EntryMode.is_fragment entry_mode) then EmptyArea
  else if EntryMode.is_directory entry_mode then Directory
  else if EntryMode.is_symlink entry_mode then Symlink
  else RegularFile.

Record EntryPermissionMetadata := { mode : Z }.
Record EntryOwnerMetadata := { uid_gid : Z }.
Definition uid (o : EntryOwnerMetadata) : Z := Z.land (uid_gid o) 0xFFFF.
Definition gid (o : EntryOwnerMetadata) : Z := Z.land (Z.shiftr (uid_gid o) 16) 0xFFFF.
Record EntryTimestampMetadata := { mtime : Z; atime : Z; ctime : Z }.
Record EntryCompressionMetadata := { comp_algo_id : Z; algorithm_name : string }.
Record EntryEncryptionMetadata := { encr_algo_id : Z; iv_nonce : list byte }.
Record EntryFecMetadata := { fec_algo_id : Z; summary : option FecRegistry.FecSummary }.
Record EntryCdcMetadata := { cdc_algo_id : Z }.
Record EntryDeltaMetadata := { delta_patch_algo_id : Z; base_hash : list byte }.
Record EntryFragmentMetadata := {
  fragment_id : Z; fragment_index : Z;
  descriptor : option Fragmentation.FragmentDescriptor;
  is_last : bool; is_loss_tolerant : bool }.
Record EntrySparseMetadata := { extents : list Sparse.SparseExtent }.
Record EntryHashMetadata := { crc32 : option Z; content_hash : option (list byte) }.

(** The packed owner field is its two halves. *)
Lemma owner_halves o : fits 32 (uid_gid o) →
  fits 16 (uid o) ∧ fits 16 (gid o) ∧ uid_gid o = uid o + 2 ^ 16 * gid o.
Proof.
  unfold fits, uid, gid. intros H. change 0xFFFF with (Z.ones 16).
  rewrite !Z.land_ones, Z.shiftr_div_pow2 by lia.
  pose proof (Z.mod_pos_bound (uid_gid o) (2 ^ 16)).
  rewrite (Z.mod_small (uid_gid o / 2 ^ 16)); [|split;
    [apply Z.div_pos; lia|apply Z.div_lt_upper_bound; lia]].
  pose proof (Z.div_mod (uid_gid o) (2 ^ 16)).
  split_and!; [lia..|apply Z.div_pos; lia|apply Z.div_lt_upper_bound; lia|lia].
Qed.

(** [struct EntryMetadata] of the archive reader. *)
Record EntryMetadata := {
  lfh_offset : Z;
  name : list byte;
  path : option (list byte);
  symlink_target : option (list byte);
  payload_size : Z;
  uncompressed_size : Z;
  compression_algo_id : Z;
  compression_algorithm : string;
  is_compressed : bool;
  fec : option FecRegistry.FecSummary;
  meta_fragment_id : option Z;
  meta_fragment_index : option Z;
  fragment_descriptor : option Fragmentation.FragmentDescriptor;
  is_fragment : bool;
  is_last_fragment : bool;
  meta_is_loss_tolerant : bool;
  sparse_extents : option (list Sparse.SparseExtent);
  file_crc32 : option Z;
  meta_content_hash : option (list byte);
  meta_cdc_algo_id : option Z;
  patch_algo_id : option Z;
  delta_base_hash : option (list byte);
  entry_kind : EntryKind;
  entry_mode_raw : Z;
  stream_id : Z;
  sequence_no : Z;
  is_hidden : bool;
  permissions : option EntryPermissionMetadata;
  owner : option EntryOwnerMetadata;
  timestamps : option EntryTimestampMetadata;
  path_presence : FieldPresence (list byte);
  permissions_presence : FieldPresence EntryPermissionMetadata;
  owner_presence : FieldPresence EntryOwnerMetadata;
  timestamps_presence : FieldPresence EntryTimestampMetadata;
  compression_presence : FieldPresence EntryCompressionMetadata;
  encryption_presence : FieldPresence EntryEncryptionMetadata;
  fec_presence : FieldPresence EntryFecMetadata;
  fragment_presence : FieldPresence EntryFragmentMetadata;
  cdc : option EntryCdcMetadata;
  delta : option EntryDeltaMetadata;
  sparse : option EntrySparseMetadata;
  hash : option EntryHashMetadata }.

End Metadata.
