(* ===== verification/EntryDecode.v ===== *)
(** * Decoding one entry

    Models the helpers of [crates/sar-archive/src/archive.rs] that both readers share and
    the two functions that turn a Local File Header and its stored payload into a decoded
    entry: [decode_ordinary_archive_entry_from_parts] of the seekable reader
    ([archive.rs]) and [decode_pending_entry] of the streaming parser ([stream.rs]).  The
    source has the code twice, and so has the model: [decode_stages], [parse_views],
    [parse_path] and [entry_metadata] with the blocks they are made of transcribe
    [archive.rs], the definitions [pending_*] transcribe [stream.rs]; only the helpers that
    [stream.rs] imports from [archive.rs] are shared.  [readers_agree] compares the two.

    The parameters are those of the crates below: the [bitflags] class, the compressors,
    the ciphers, the key derivation functions, and whether the build checks overflow. *)

From S2P Require Import Prelude Errors Limits Flags Cursor Format Lfh FecRegistry SparseMap Sparse Fragmentation CdcMap Patch Bsdiff Vcdiff Utf8 Crypto Kms Transform Metadata.

Module EntryDecode.
Import Cursor Limits.

(** [struct ArchiveReaderOptions]. *)
Record ArchiveReaderOptions := { limits : ResourceLimits; delta_base : option (list byte) }.
Definition max_decoded_entry_size (o : ArchiveReaderOptions) : Z :=
  Limits.max_decoded_entry_size (limits o).

(** [struct EntryReader] and [struct DecodedArchiveEntryParts]. *)
Record EntryReader := {
  header : Lfh.LocalFileHeader; payload : list byte; metadata : Metadata.EntryMetadata }.
Record DecodedArchiveEntryParts := {
  parts_payload : list byte; parts_metadata : Metadata.EntryMetadata }.

Definition ZERO_DELTA_BASE_HASH : list byte := zeros 32.

Definition compression_algorithm_name (algo_id : Z) : string :=
  if algo_id =? 0x00 then "STORE"
  else if algo_id =? 0x01 then "DEFLATE"
  else if algo_id =? 0x02 then "ZSTD"
  else "UNKNOWN".

Definition kms_mode_id (params : Kms.KmsParams) : Z :=
  match params with
  | Kms.Pbkdf2 _ => Crypto.KMS_PBKDF2
  | Kms.Argon2 _ => Crypto.KMS_ARGON2
  | Kms.AsymmetricWrap _ => Crypto.KMS_ASYMMETRIC_WRAP
  | Kms.TlsExporter _ => Crypto.KMS_TLS_EXPORTER
  end.

Definition build_kms_context (header : Format.GlobalHeader) : result SarError.t Kms.KmsContext :=
  kms ← ok_or (Format.kms header) (SarError.Malformed "encrypted archive is missing KMS data");
  params ← (if Format.mode_id kms =? Crypto.KMS_TLS_EXPORTER then
              map_err CryptoError.to_sar
                (p ← Kms.parse_tls_exporter_kms_payload (Format.kms_payload kms);
                 Ok (Kms.TlsExporter p))
            else
              map_err CryptoError.to_sar
                (Kms.parse_kms_payload (Format.mode_id kms) (Format.kms_payload kms)));
  Ok {| Kms.mode_id := Format.mode_id kms; Kms.params := params |}.

Definition map_patch_error (e : PatchError.t) : SarError.t :=
  match e with
  | PatchError.PatchFailed m => SarError.PatchFailed m
  | PatchError.Unsupported m => SarError.Unsupported m
  | PatchError.ReservedValue m => SarError.ReservedValue m
  | PatchError.BaseMissing m => SarError.BaseMissing m
  | PatchError.LimitExceeded m => SarError.LimitExceeded m
  end.

Definition validate_delta_pre_dispatch (patch_payload_len expected_target_size : Z)
    (limits : ResourceLimits) : result SarError.t unit :=
  if expected_target_size >? Limits.max_decoded_entry_size limits
  then Err (SarError.LimitExceeded "delta target size exceeds max_decoded_entry_size") else
  patch_payload_len ← ok_or (try_from 64 patch_payload_len)
                        (SarError.Overflow "delta patch payload length exceeds u64");
  if patch_payload_len >? max_in_memory_buffer limits
  then Err (SarError.LimitExceeded "delta patch payload exceeds max_in_memory_buffer") else
  Ok ().

Definition bsdiff_limits_from_resource_limits (r : ResourceLimits) : Bsdiff.BsdiffLimits := {|
  Bsdiff.max_patch_size := max_in_memory_buffer r;
  Bsdiff.max_control_bytes := max_bsdiff_control_bytes r;
  Bsdiff.max_diff_bytes := max_bsdiff_diff_bytes r;
  Bsdiff.max_extra_bytes := max_bsdiff_extra_bytes r;
  Bsdiff.max_control_triples := max_bsdiff_control_triples r;
  Bsdiff.max_target_size := Limits.max_decoded_entry_size r |}.

Definition vcdiff_limits_from_resource_limits (r : ResourceLimits) : Vcdiff.VcdiffLimits :=
  let max_output :=
    if max_vcdiff_output_size r =? 0 then Limits.max_decoded_entry_size r
    else Z.min (max_vcdiff_output_size r) (Limits.max_decoded_entry_size r) in
  {| Vcdiff.max_patch_size := max_in_memory_buffer r;
     Vcdiff.max_window_count := max_vcdiff_window_count r;
     Vcdiff.max_instruction_count := max_vcdiff_instruction_count r;
     Vcdiff.max_output_size := max_output |}.

Section decode.
Context {B : Bitflags} {Comp : Compression.Compressors} {Ciph : Crypto.Ciphers} {K : Kms.Kdfs}.
Context (oc : bool) (options : ArchiveReaderOptions) (key_provider : option Kms.KeyProvider).

(** The block [if is_encrypted { .. }]: the crypto context of an entry. *)
Definition entry_crypto (header : Format.GlobalHeader) (global_flags_section : list byte)
    (lfh : Lfh.LocalFileHeader) (lfh_bytes : list byte)
    : result SarError.t Transform.EntryCryptoContext :=
  algo_id ← ok_or (Lfh.encr_algo_id lfh)
              (SarError.Malformed "encrypted entry missing encryption algorithm ID");
  _ ← map_err CryptoError.to_sar (Crypto.validate_encr_algo_id algo_id);
  provider ← ok_or key_provider
               (SarError.KeyMissing "no key provider configured for encrypted archive");
  context ← build_kms_context header;
  key ← map_err CryptoError.to_sar (Kms.resolve_cek provider context);
  iv_nonce ← ok_or (Lfh.iv_nonce lfh)
               (SarError.Malformed "encrypted entry missing IV/nonce field");
  let fec_algo_id := default 0 (Lfh.fec_algo_id lfh) in
  aad_lfh_bytes ← Lfh.lfh_bytes_for_aad (Format.flags header) lfh_bytes fec_algo_id
                    (len (Lfh.fec_value lfh));
  let aad := Crypto.build_aead_aad global_flags_section aad_lfh_bytes in
  Ok {| Transform.algo_id := algo_id; Transform.iv_nonce := iv_nonce;
        Transform.aad := aad; Transform.key := key |}.

(** The block [if is_has_delta { match patch_raw_id { .. } }]. *)
Definition apply_patch (lfh : Lfh.LocalFileHeader) (is_sparse : bool) (patch_raw_id : Z)
    (decoded : list byte) : result SarError.t (list byte) :=
  if patch_raw_id =? Patch.PATCH_ALGO_STORE_PATCH then
    if negb is_sparse then
      map_err map_patch_error (Patch.apply_store_patch decoded (Lfh.uncompressed_size lfh))
    else Ok decoded
  else if patch_raw_id =? Patch.PATCH_ALGO_VCDIFF then
    _ ← validate_delta_pre_dispatch (len decoded) (Lfh.uncompressed_size lfh) (limits options);
    let hash := default ZERO_DELTA_BASE_HASH (Lfh.delta_base_hash lfh) in
    if bool_decide (hash = ZERO_DELTA_BASE_HASH)
    then Err (SarError.BaseMissing "VCDIFF: all-zero Delta Base Hash indicates missing base")
    else
    base ← ok_or (delta_base options)
             (SarError.BaseMissing "VCDIFF: no base bytes supplied in reader options");
    map_err map_patch_error
      (Vcdiff.apply_vcdiff oc base decoded (Lfh.uncompressed_size lfh)
         (vcdiff_limits_from_resource_limits (limits options)))
  else if patch_raw_id =? Patch.PATCH_ALGO_BSDIFF then
    _ ← validate_delta_pre_dispatch (len decoded) (Lfh.uncompressed_size lfh) (limits options);
    let hash := default ZERO_DELTA_BASE_HASH (Lfh.delta_base_hash lfh) in
    if bool_decide (hash = ZERO_DELTA_BASE_HASH)
    then Err (SarError.BaseMissing "BSDIFF: all-zero Delta Base Hash indicates missing base")
    else
    base ← ok_or (delta_base options)
             (SarError.BaseMissing "BSDIFF: no base bytes supplied in reader options");
    map_err map_patch_error
      (Bsdiff.apply_bsdiff base decoded (Lfh.uncompressed_size lfh)
         (bsdiff_limits_from_resource_limits (limits options)))
  else if patch_raw_id =? Patch.PATCH_ALGO_ZSTD_PATCH then
    Err (SarError.Unsupported "ZSTD_PATCH: dictionary protocol not specified; not implemented")
  else if patch_raw_id >=? Patch.PATCH_ALGO_CUSTOM_MIN then
    Err (SarError.Unsupported "CUSTOM patch algorithm not supported")
  else Err (SarError.ReservedValue "reserved patch algorithm ID").

(** The block [if !is_sparse { .. }]: the decoded size. *)
Definition check_decoded_size (lfh : Lfh.LocalFileHeader)
    (is_effectively_compressed is_encrypted is_has_delta : bool) (patch_raw_id : Z)
    (decoded : list byte) : result SarError.t unit :=
  n ← ok_or (try_from 64 (len decoded)) (SarError.Overflow "decoded payload len");
  if negb (n =? Lfh.uncompressed_size lfh)
  then Err (SarError.InvalidLength "decoded payload size does not match LFH Uncompressed Size")
  else if negb is_effectively_compressed && negb is_encrypted
          && (negb is_has_delta || (patch_raw_id =? Patch.PATCH_ALGO_STORE_PATCH))
          && negb (Lfh.payload_size lfh =? Lfh.uncompressed_size lfh)
  then Err (SarError.InvalidLength "STORE mode requires Payload Size == Uncompressed Size")
  else Ok ().

(** From the flags of the entry to its decoded payload: the pipeline of both readers up
    to the size checks, [is_encrypted] given. *)
Definition decode_stages (header : Format.GlobalHeader) (global_flags_section : list byte)
    (lfh : Lfh.LocalFileHeader) (lfh_bytes encoded_payload : list byte) (is_encrypted : bool)
    : result SarError.t (list byte) :=
  let flags := Format.flags header in
  let is_effectively_compressed :=
    contains flags GlobalFlags.COMPRESSED && EntryMode.is_compressed (Lfh.entry_mode lfh) in
  let is_sparse :=
    contains flags GlobalFlags.SPARSE_FILES && negb (len (Lfh.sparse_map lfh) =? 0) in
  let is_has_delta := contains flags GlobalFlags.HAS_DELTA in
  let patch_raw_id := default 0 (Lfh.patch_algo_id lfh) in
  let is_store_patch := is_has_delta && (patch_raw_id =? Patch.PATCH_ALGO_STORE_PATCH) in
  let effective_comp_algo_id :=
    if is_effectively_compressed
    then default Compression.COMP_ALGO_STORE (Lfh.comp_algo_id lfh)
    else Compression.COMP_ALGO_STORE in
  _ ← (if is_store_patch
       then check_decoded_entry_size (limits options) (Lfh.uncompressed_size lfh)
       else Ok ());
  if is_store_patch && negb is_effectively_compressed && negb is_encrypted && negb is_sparse
     && negb (Lfh.payload_size lfh =? Lfh.uncompressed_size lfh)
  then Err (SarError.PatchFailed
              "STORE_PATCH: raw payload length does not match LFH Uncompressed Size")
  else
  let decode_expected :=
    if is_sparse || (is_has_delta && negb (patch_raw_id =? Patch.PATCH_ALGO_STORE_PATCH))
    then max_decoded_entry_size options
    else Lfh.uncompressed_size lfh in
  crypto ← (if is_encrypted then
              c ← entry_crypto header global_flags_section lfh lfh_bytes; Ok (Some c)
            else Ok None);
  decoded ← Transform.decode_payload_v2 encoded_payload
    {| Transform.decoding :=
         {| Transform.d_is_compressed := is_effectively_compressed;
            Transform.d_comp_algo_id := effective_comp_algo_id;
            Transform.expected_output_size := decode_expected;
            Transform.max_output_size := max_decoded_entry_size options |};
       Transform.d_crypto := crypto |};
  decoded ← (if is_has_delta then apply_patch lfh is_sparse patch_raw_id decoded
             else Ok decoded);
  _ ← (if negb is_sparse
       then check_decoded_size lfh is_effectively_compressed is_encrypted is_has_delta
              patch_raw_id decoded
       else Ok ());
  Ok decoded.

(** What is parsed from the header besides the payload: the error-correction summary, the
    sparse extents, the chunking algorithm, the name, the kind and the link target. *)
Record Views := {
  v_fec : option FecRegistry.FecSummary;
  v_sparse_extents : option (list Sparse.SparseExtent);
  v_cdc_algo_id : option Z;
  v_entry_kind : Metadata.EntryKind;
  v_symlink_target : option (list byte) }.

Definition parse_views (header : Format.GlobalHeader) (lfh : Lfh.LocalFileHeader)
    (decoded : list byte) : result SarError.t Views :=
  let flags := Format.flags header in
  fec ← (if contains flags GlobalFlags.SELECTIVE_FEC then
           let algo_id := default 0 (Lfh.fec_algo_id lfh) in
           FecRegistry.parse_lfh_fec_value algo_id (Lfh.fec_value lfh) (limits options)
         else Ok None);
  sparse_extents ←
    (if contains flags GlobalFlags.SPARSE_FILES && negb (len (Lfh.sparse_map lfh) =? 0) then
       let is_64bit := contains flags GlobalFlags.SIZE_64BIT in
       e ← SparseMap.parse_sparse_map (Lfh.sparse_map lfh) is_64bit (limits options);
       Ok (Some e)
     else Ok None);
  cdc_algo_id_opt ←
    (if contains flags GlobalFlags.CDC_SUPPORT then
       let algo_id := default 0 (Lfh.cdc_algo_id lfh) in
       _ ← CdcMap.core_validate_cdc_algo_id algo_id;
       Ok (Some algo_id)
     else Ok None);
  if negb (Utf8.from_utf8 (Lfh.name lfh))
  then Err (SarError.Malformed "LFH Name String is not valid UTF-8") else
  if EntryMode.is_directory (Lfh.entry_mode lfh) && negb (Lfh.payload_size lfh =? 0)
  then Err (SarError.Malformed "IS_DIRECTORY entry must have zero Payload Size") else
  let entry_kind :=
    Metadata.from_mode_and_name (Lfh.entry_mode lfh) (len (Lfh.name lfh) =? 0) in
  symlink_target ←
    (if decide (entry_kind = Metadata.Symlink) then
       if negb (Utf8.from_utf8 decoded)
       then Err (SarError.Malformed "Symlink target payload is not valid UTF-8")
       else Ok (Some decoded)
     else Ok None);
  Ok {| v_fec := fec; v_sparse_extents := sparse_extents; v_cdc_algo_id := cdc_algo_id_opt;
        v_entry_kind := entry_kind; v_symlink_target := symlink_target |}.

(** The path of an entry: none, or valid UTF-8. *)
Definition parse_path (lfh : Lfh.LocalFileHeader) : result SarError.t (option (list byte)) :=
  if len (Lfh.path lfh) =? 0 then Ok None
  else if negb (Utf8.from_utf8 (Lfh.path lfh))
  then Err (SarError.Malformed "LFH Path String is not valid UTF-8")
  else Ok (Some (Lfh.path lfh)).

(** A field whose presence a global flag decides and whose activity the entry decides. *)
Definition presence {T} (present active : bool) (v : T) : Metadata.FieldPresence T :=
  if present then
    if active then Metadata.PresentActive v else Metadata.PresentInactive v
  else Metadata.Absent.

Definition entry_metadata (header : Format.GlobalHeader) (lfh : Lfh.LocalFileHeader)
    (is_encrypted : bool) (lfh_offset : Z) (path : option (list byte)) (v : Views)
    : Metadata.EntryMetadata :=
  let has := contains (Format.flags header) in
  let mode := Lfh.entry_mode lfh in
  let is_effectively_compressed :=
    has GlobalFlags.COMPRESSED && EntryMode.is_compressed mode in
  let raw_comp := default Compression.COMP_ALGO_STORE (Lfh.comp_algo_id lfh) in
  let effective_comp_algo_id :=
    if is_effectively_compressed then raw_comp else Compression.COMP_ALGO_STORE in
  let is_has_delta := has GlobalFlags.HAS_DELTA in
  let patch_raw_id := default 0 (Lfh.patch_algo_id lfh) in
  let base_hash := default ZERO_DELTA_BASE_HASH (Lfh.delta_base_hash lfh) in
  let fec_algo_id := default 0 (Lfh.fec_algo_id lfh) in
  let fragment_descriptor :=
    (λ fd, {| Fragmentation.absolute_offset := Lfh.absolute_offset fd;
              Fragmentation.fragment_size := Lfh.fragment_size fd |})
    <$> Lfh.fragment_descriptor lfh in
  let stamps := (λ '(m, a, c), {| Metadata.mtime := m; Metadata.atime := a; Metadata.ctime := c |}) in
  let has_crc := has GlobalFlags.PER_FILE_CRC in
  let has_hash := has GlobalFlags.DEDUPLICATION in
  {| Metadata.lfh_offset := lfh_offset;
     Metadata.name := Lfh.name lfh;
     Metadata.path := path;
     Metadata.symlink_target := v_symlink_target v;
     Metadata.payload_size := Lfh.payload_size lfh;
     Metadata.uncompressed_size := Lfh.uncompressed_size lfh;
     Metadata.compression_algo_id := effective_comp_algo_id;
     Metadata.compression_algorithm := compression_algorithm_name effective_comp_algo_id;
     Metadata.is_compressed := is_effectively_compressed;
     Metadata.fec := v_fec v;
     Metadata.meta_fragment_id := Lfh.fragment_id lfh;
     Metadata.meta_fragment_index := Lfh.fragment_index lfh;
     Metadata.fragment_descriptor := fragment_descriptor;
     Metadata.is_fragment := EntryMode.is_fragment mode;
     Metadata.is_last_fragment := EntryMode.is_last_fragment mode;
     Metadata.meta_is_loss_tolerant := EntryMode.is_loss_tolerant mode;
     Metadata.sparse_extents := v_sparse_extents v;
     Metadata.file_crc32 := Lfh.file_crc32 lfh;
     Metadata.meta_content_hash := Lfh.content_hash lfh;
     Metadata.meta_cdc_algo_id := v_cdc_algo_id v;
     Metadata.patch_algo_id := if is_has_delta then Some patch_raw_id else None;
     Metadata.delta_base_hash := if is_has_delta then Some base_hash else None;
     Metadata.entry_kind := v_entry_kind v;
     Metadata.entry_mode_raw := mode;
     Metadata.stream_id := Lfh.stream_id lfh;
     Metadata.sequence_no := Lfh.sequence_no lfh;
     Metadata.is_hidden := EntryMode.is_hidden_attr mode;
     Metadata.permissions := Metadata.Build_EntryPermissionMetadata <$> Lfh.permissions lfh;
     Metadata.owner := Metadata.Build_EntryOwnerMetadata <$> Lfh.uid_gid lfh;
     Metadata.timestamps := stamps <$> Lfh.timestamps lfh;
     Metadata.path_presence :=
       presence (has GlobalFlags.HAS_PATH) (bool_decide (is_Some path)) (default [] path);
     Metadata.permissions_presence :=
       presence (has GlobalFlags.HAS_PERMS) true
         {| Metadata.mode := default 0 (Lfh.permissions lfh) |};
     Metadata.owner_presence :=
       presence (has GlobalFlags.EXT_UID_GID) true
         {| Metadata.uid_gid := default 0 (Lfh.uid_gid lfh) |};
     Metadata.timestamps_presence :=
       presence (has GlobalFlags.EXT_TIME) true (stamps (default (0, 0, 0) (Lfh.timestamps lfh)));
     Metadata.compression_presence :=
       presence (has GlobalFlags.COMPRESSED) is_effectively_compressed
         {| Metadata.comp_algo_id := raw_comp;
            Metadata.algorithm_name := compression_algorithm_name raw_comp |};
     Metadata.encryption_presence :=
       presence (has GlobalFlags.ENCRYPTED) is_encrypted
         {| Metadata.encr_algo_id := default 0 (Lfh.encr_algo_id lfh);
            Metadata.iv_nonce := default (zeros 24) (Lfh.iv_nonce lfh) |};
     Metadata.fec_presence :=
       presence (has GlobalFlags.SELECTIVE_FEC) (negb (fec_algo_id =? 0))
         {| Metadata.fec_algo_id := fec_algo_id; Metadata.summary := v_fec v |};
     Metadata.fragment_presence :=
       presence (has GlobalFlags.FILE_FRAGMENTATION) (EntryMode.is_fragment mode)
         {| Metadata.fragment_id := default 0 (Lfh.fragment_id lfh);
            Metadata.fragment_index := default 0 (Lfh.fragment_index lfh);
            Metadata.descriptor := fragment_descriptor;
            Metadata.is_last := EntryMode.is_last_fragment mode;
            Metadata.is_loss_tolerant := EntryMode.is_loss_tolerant mode |};
     Metadata.cdc := Metadata.Build_EntryCdcMetadata <$> v_cdc_algo_id v;
     Metadata.delta :=
       if is_has_delta then
         Some {| Metadata.delta_patch_algo_id := patch_raw_id; Metadata.base_hash := base_hash |}
       else None;
     Metadata.sparse := Metadata.Build_EntrySparseMetadata <$> v_sparse_extents v;
     Metadata.hash :=
       if has_crc || has_hash then
         Some {| Metadata.crc32 := if has_crc then Lfh.file_crc32 lfh else None;
                 Metadata.content_hash := if has_hash then Lfh.content_hash lfh else None |}
       else None |}.

(** [ArchiveReader::decode_ordinary_archive_entry_from_parts]. *)
Definition decode_ordinary_archive_entry_from_parts (header : Format.GlobalHeader)
    (global_flags_section : list byte) (lfh_offset : Z) (lfh : Lfh.LocalFileHeader)
    (lfh_bytes encoded_payload : list byte) : result SarError.t DecodedArchiveEntryParts :=
  let is_encrypted := EntryMode.is_encrypted (Lfh.entry_mode lfh) in
  if is_encrypted && negb (contains (Format.flags header) GlobalFlags.ENCRYPTED)
  then Err (SarError.FlagConflict "IS_ENCRYPTED requires global ENCRYPTED") else
  decoded ← decode_stages header global_flags_section lfh lfh_bytes encoded_payload is_encrypted;
  views ← parse_views header lfh decoded;
  path ← parse_path lfh;
  Ok {| parts_payload := decoded;
        parts_metadata := entry_metadata header lfh is_encrypted lfh_offset path views |}.

(** *** [stream.rs]

    The streaming parser has its own copy of the function, transcribed here line by line: the
    crypto context, the patch, the size checks, the views and the metadata. *)
(** [let crypto = if is_encrypted { .. }]. *)
Definition pending_crypto (header : Format.GlobalHeader) (global_flags_section : list byte)
    (lfh : Lfh.LocalFileHeader) (lfh_bytes : list byte)
    : result SarError.t Transform.EntryCryptoContext :=
  algo_id ← ok_or (Lfh.encr_algo_id lfh)
              (SarError.Malformed "encrypted entry missing encryption algorithm ID");
  _ ← map_err CryptoError.to_sar (Crypto.validate_encr_algo_id algo_id);
  provider ← ok_or key_provider
               (SarError.KeyMissing "no key provider configured for encrypted archive");
  context ← build_kms_context header;
  key ← map_err CryptoError.to_sar (Kms.resolve_cek provider context);
  iv_nonce ← ok_or (Lfh.iv_nonce lfh)
               (SarError.Malformed "encrypted entry missing IV/nonce field");
  let fec_algo_id := default 0 (Lfh.fec_algo_id lfh) in
  aad_lfh_bytes ← Lfh.lfh_bytes_for_aad (Format.flags header) lfh_bytes fec_algo_id
                    (len (Lfh.fec_value lfh));
  let aad := Crypto.build_aead_aad global_flags_section aad_lfh_bytes in
  Ok {| Transform.algo_id := algo_id; Transform.iv_nonce := iv_nonce;
        Transform.aad := aad; Transform.key := key |}.

(** [if is_has_delta { match patch_raw_id { .. } }]. *)
Definition pending_patch (lfh : Lfh.LocalFileHeader) (is_sparse : bool) (patch_raw_id : Z)
    (decoded : list byte) : result SarError.t (list byte) :=
  if patch_raw_id =? Patch.PATCH_ALGO_STORE_PATCH then
    if negb is_sparse then
      map_err map_patch_error (Patch.apply_store_patch decoded (Lfh.uncompressed_size lfh))
    else Ok decoded
  else if patch_raw_id =? Patch.PATCH_ALGO_VCDIFF then
    _ ← validate_delta_pre_dispatch (len decoded) (Lfh.uncompressed_size lfh) (limits options);
    let hash := default (zeros 32) (Lfh.delta_base_hash lfh) in
    if bool_decide (hash = zeros 32)
    then Err (SarError.BaseMissing "VCDIFF: all-zero Delta Base Hash indicates missing base")
    else
    base ← ok_or (delta_base options)
             (SarError.BaseMissing "VCDIFF: no base bytes supplied in reader options");
    map_err map_patch_error
      (Vcdiff.apply_vcdiff oc base decoded (Lfh.uncompressed_size lfh)
         (vcdiff_limits_from_resource_limits (limits options)))
  else if patch_raw_id =? Patch.PATCH_ALGO_BSDIFF then
    _ ← validate_delta_pre_dispatch (len decoded) (Lfh.uncompressed_size lfh) (limits options);
    let hash := default (zeros 32) (Lfh.delta_base_hash lfh) in
    if bool_decide (hash = zeros 32)
    then Err (SarError.BaseMissing "BSDIFF: all-zero Delta Base Hash indicates missing base")
    else
    base ← ok_or (delta_base options)
             (SarError.BaseMissing "BSDIFF: no base bytes supplied in reader options");
    map_err map_patch_error
      (Bsdiff.apply_bsdiff base decoded (Lfh.uncompressed_size lfh)
         (bsdiff_limits_from_resource_limits (limits options)))
  else if patch_raw_id =? Patch.PATCH_ALGO_ZSTD_PATCH then
    Err (SarError.Unsupported "ZSTD_PATCH: dictionary protocol not specified; not implemented")
  else if patch_raw_id >=? Patch.PATCH_ALGO_CUSTOM_MIN then
    Err (SarError.Unsupported "CUSTOM patch algorithm not supported")
  else Err (SarError.ReservedValue "reserved patch algorithm ID").

(** [if !is_sparse { .. }]. *)
Definition pending_size_check (lfh : Lfh.LocalFileHeader)
    (is_effectively_compressed is_encrypted is_has_delta : bool) (patch_raw_id : Z)
    (decoded : list byte) : result SarError.t unit :=
  n ← ok_or (try_from 64 (len decoded)) (SarError.Overflow "decoded payload len");
  if negb (n =? Lfh.uncompressed_size lfh)
  then Err (SarError.InvalidLength "decoded payload size does not match LFH Uncompressed Size")
  else if negb is_effectively_compressed && negb is_encrypted
          && (negb is_has_delta || (patch_raw_id =? Patch.PATCH_ALGO_STORE_PATCH))
          && negb (Lfh.payload_size lfh =? Lfh.uncompressed_size lfh)
  then Err (SarError.InvalidLength "STORE mode requires Payload Size == Uncompressed Size")
  else Ok ().

(** Up to the size checks. *)
Definition pending_stages (header : Format.GlobalHeader) (global_flags_section : list byte)
    (lfh : Lfh.LocalFileHeader) (lfh_bytes encoded_payload : list byte) (is_encrypted : bool)
    : result SarError.t (list byte) :=
  let flags := Format.flags header in
  let is_effectively_compressed :=
    contains flags GlobalFlags.COMPRESSED && EntryMode.is_compressed (Lfh.entry_mode lfh) in
  let is_sparse :=
    contains flags GlobalFlags.SPARSE_FILES && negb (len (Lfh.sparse_map lfh) =? 0) in
  let is_has_delta := contains flags GlobalFlags.HAS_DELTA in
  let patch_raw_id := default 0 (Lfh.patch_algo_id lfh) in
  let effective_comp_algo_id :=
    if is_effectively_compressed
    then default Compression.COMP_ALGO_STORE (Lfh.comp_algo_id lfh)
    else Compression.COMP_ALGO_STORE in
  _ ← (if is_has_delta && (patch_raw_id =? Patch.PATCH_ALGO_STORE_PATCH)
       then check_decoded_entry_size (limits options) (Lfh.uncompressed_size lfh)
       else Ok ());
  if is_has_delta && (patch_raw_id =? Patch.PATCH_ALGO_STORE_PATCH) && negb is_effectively_compressed && negb is_encrypted && negb is_sparse
     && negb (Lfh.payload_size lfh =? Lfh.uncompressed_size lfh)
  then Err (SarError.PatchFailed
              "STORE_PATCH: raw payload length does not match LFH Uncompressed Size")
  else
  let decode_expected :=
    if is_sparse || (is_has_delta && negb (patch_raw_id =? Patch.PATCH_ALGO_STORE_PATCH))
    then max_decoded_entry_size options
    else Lfh.uncompressed_size lfh in
  crypto ← (if is_encrypted then
              c ← pending_crypto header global_flags_section lfh lfh_bytes; Ok (Some c)
            else Ok None);
  decoded ← Transform.decode_payload_v2 encoded_payload
    {| Transform.decoding :=
         {| Transform.d_is_compressed := is_effectively_compressed;
            Transform.d_comp_algo_id := effective_comp_algo_id;
            Transform.expected_output_size := decode_expected;
            Transform.max_output_size := max_decoded_entry_size options |};
       Transform.d_crypto := crypto |};
  decoded ← (if is_has_delta then pending_patch lfh is_sparse patch_raw_id decoded
             else Ok decoded);
  _ ← (if negb is_sparse
       then pending_size_check lfh is_effectively_compressed is_encrypted is_has_delta
              patch_raw_id decoded
       else Ok ());
  Ok decoded.

(** The views, up to the link target. *)
Definition pending_views (header : Format.GlobalHeader) (lfh : Lfh.LocalFileHeader)
    (decoded : list byte) : result SarError.t Views :=
  let flags := Format.flags header in
  fec ← (if contains flags GlobalFlags.SELECTIVE_FEC then
           let algo_id := default 0 (Lfh.fec_algo_id lfh) in
           FecRegistry.parse_lfh_fec_value algo_id (Lfh.fec_value lfh) (limits options)
         else Ok None);
  sparse_extents ←
    (if contains flags GlobalFlags.SPARSE_FILES && negb (len (Lfh.sparse_map lfh) =? 0) then
       let is_64bit := contains flags GlobalFlags.SIZE_64BIT in
       e ← SparseMap.parse_sparse_map (Lfh.sparse_map lfh) is_64bit (limits options);
       Ok (Some e)
     else Ok None);
  cdc_algo_id_opt ←
    (if contains flags GlobalFlags.CDC_SUPPORT then
       let algo_id := default 0 (Lfh.cdc_algo_id lfh) in
       _ ← CdcMap.core_validate_cdc_algo_id algo_id;
       Ok (Some algo_id)
     else Ok None);
  if negb (Utf8.from_utf8 (Lfh.name lfh))
  then Err (SarError.Malformed "LFH Name String is not valid UTF-8") else
  if EntryMode.is_directory (Lfh.entry_mode lfh) && negb (Lfh.payload_size lfh =? 0)
  then Err (SarError.Malformed "IS_DIRECTORY entry must have zero Payload Size") else
  let entry_kind :=
    Metadata.from_mode_and_name (Lfh.entry_mode lfh) (len (Lfh.name lfh) =? 0) in
  symlink_target ←
    (if decide (entry_kind = Metadata.Symlink) then
       if negb (Utf8.from_utf8 decoded)
       then Err (SarError.Malformed "Symlink target payload is not valid UTF-8")
       else Ok (Some decoded)
     else Ok None);
  Ok {| v_fec := fec; v_sparse_extents := sparse_extents; v_cdc_algo_id := cdc_algo_id_opt;
        v_entry_kind := entry_kind; v_symlink_target := symlink_target |}.

(** [path: if lfh.path.is_empty() { None } else { .. }]. *)
Definition pending_path (lfh : Lfh.LocalFileHeader) : result SarError.t (option (list byte)) :=
  if len (Lfh.path lfh) =? 0 then Ok None
  else if negb (Utf8.from_utf8 (Lfh.path lfh))
  then Err (SarError.Malformed "LFH Path String is not valid UTF-8")
  else Ok (Some (Lfh.path lfh)).
(** [path_presence: if archive.header.flags.contains(GlobalFlags::HAS_PATH) { .. }], which
    decodes the path again. *)
Definition pending_path_presence (header : Format.GlobalHeader) (lfh : Lfh.LocalFileHeader)
    : result SarError.t (Metadata.FieldPresence (list byte)) :=
  if contains (Format.flags header) GlobalFlags.HAS_PATH then
    if len (Lfh.path lfh) =? 0 then Ok (Metadata.PresentInactive [])
    else if negb (Utf8.from_utf8 (Lfh.path lfh))
    then Err (SarError.Malformed "LFH Path String is not valid UTF-8")
    else Ok (Metadata.PresentActive (Lfh.path lfh))
  else Ok Metadata.Absent.
(** [EntryMetadata { .. }]. *)
Definition pending_metadata (header : Format.GlobalHeader) (lfh : Lfh.LocalFileHeader)
    (is_encrypted : bool) (lfh_offset : Z) (path : option (list byte))
    (path_presence : Metadata.FieldPresence (list byte)) (v : Views)
    : Metadata.EntryMetadata :=
  let has := contains (Format.flags header) in
  let mode := Lfh.entry_mode lfh in
  let is_effectively_compressed :=
    has GlobalFlags.COMPRESSED && EntryMode.is_compressed mode in
  let raw_comp := default Compression.COMP_ALGO_STORE (Lfh.comp_algo_id lfh) in
  let effective_comp_algo_id :=
    if is_effectively_compressed then raw_comp else Compression.COMP_ALGO_STORE in
  let is_has_delta := has GlobalFlags.HAS_DELTA in
  let patch_raw_id := default 0 (Lfh.patch_algo_id lfh) in
  let base_hash := default (zeros 32) (Lfh.delta_base_hash lfh) in
  let fec_algo_id := default 0 (Lfh.fec_algo_id lfh) in
  let fragment_descriptor :=
    (λ fd, {| Fragmentation.absolute_offset := Lfh.absolute_offset fd;
              Fragmentation.fragment_size := Lfh.fragment_size fd |})
    <$> Lfh.fragment_descriptor lfh in
  let stamps := (λ '(m, a, c), {| Metadata.mtime := m; Metadata.atime := a; Metadata.ctime := c |}) in
  let has_crc := has GlobalFlags.PER_FILE_CRC in
  let has_hash := has GlobalFlags.DEDUPLICATION in
  {| Metadata.lfh_offset := lfh_offset;
     Metadata.name := Lfh.name lfh;
     Metadata.path := path;
     Metadata.symlink_target := v_symlink_target v;
     Metadata.payload_size := Lfh.payload_size lfh;
     Metadata.uncompressed_size := Lfh.uncompressed_size lfh;
     Metadata.compression_algo_id := effective_comp_algo_id;
     Metadata.compression_algorithm := compression_algorithm_name effective_comp_algo_id;
     Metadata.is_compressed := is_effectively_compressed;
     Metadata.fec := v_fec v;
     Metadata.meta_fragment_id := Lfh.fragment_id lfh;
     Metadata.meta_fragment_index := Lfh.fragment_index lfh;
     Metadata.fragment_descriptor := fragment_descriptor;
     Metadata.is_fragment := EntryMode.is_fragment mode;
     Metadata.is_last_fragment := EntryMode.is_last_fragment mode;
     Metadata.meta_is_loss_tolerant := EntryMode.is_loss_tolerant mode;
     Metadata.sparse_extents := v_sparse_extents v;
     Metadata.file_crc32 := Lfh.file_crc32 lfh;
     Metadata.meta_content_hash := Lfh.content_hash lfh;
     Metadata.meta_cdc_algo_id := v_cdc_algo_id v;
     Metadata.patch_algo_id := if is_has_delta then Some patch_raw_id else None;
     Metadata.delta_base_hash := if is_has_delta then Some base_hash else None;
     Metadata.entry_kind := v_entry_kind v;
     Metadata.entry_mode_raw := mode;
     Metadata.stream_id := Lfh.stream_id lfh;
     Metadata.sequence_no := Lfh.sequence_no lfh;
     Metadata.is_hidden := EntryMode.is_hidden_attr mode;
     Metadata.permissions := Metadata.Build_EntryPermissionMetadata <$> Lfh.permissions lfh;
     Metadata.owner := Metadata.Build_EntryOwnerMetadata <$> Lfh.uid_gid lfh;
     Metadata.timestamps := stamps <$> Lfh.timestamps lfh;
     Metadata.path_presence := path_presence;
     Metadata.permissions_presence :=
       if has GlobalFlags.HAS_PERMS
       then Metadata.PresentActive {| Metadata.mode := default 0 (Lfh.permissions lfh) |}
       else Metadata.Absent;
     Metadata.owner_presence :=
       if has GlobalFlags.EXT_UID_GID
       then Metadata.PresentActive {| Metadata.uid_gid := default 0 (Lfh.uid_gid lfh) |}
       else Metadata.Absent;
     Metadata.timestamps_presence :=
       if has GlobalFlags.EXT_TIME
       then Metadata.PresentActive (stamps (default (0, 0, 0) (Lfh.timestamps lfh)))
       else Metadata.Absent;
     Metadata.compression_presence :=
       let m := {| Metadata.comp_algo_id := raw_comp;
           Metadata.algorithm_name := compression_algorithm_name raw_comp |} in
       if has GlobalFlags.COMPRESSED
       then if is_effectively_compressed then Metadata.PresentActive m else Metadata.PresentInactive m
       else Metadata.Absent;
     Metadata.encryption_presence :=
       let m := {| Metadata.encr_algo_id := default 0 (Lfh.encr_algo_id lfh);
           Metadata.iv_nonce := default (zeros 24) (Lfh.iv_nonce lfh) |} in
       if has GlobalFlags.ENCRYPTED
       then if is_encrypted then Metadata.PresentActive m else Metadata.PresentInactive m
       else Metadata.Absent;
     Metadata.fec_presence :=
       let m := {| Metadata.fec_algo_id := fec_algo_id; Metadata.summary := v_fec v |} in
       if has GlobalFlags.SELECTIVE_FEC
       then if negb (fec_algo_id =? 0) then Metadata.PresentActive m else Metadata.PresentInactive m
       else Metadata.Absent;
     Metadata.fragment_presence :=
       let m := {| Metadata.fragment_id := default 0 (Lfh.fragment_id lfh);
           Metadata.fragment_index := default 0 (Lfh.fragment_index lfh);
           Metadata.descriptor := fragment_descriptor;
           Metadata.is_last := EntryMode.is_last_fragment mode;
           Metadata.is_loss_tolerant := EntryMode.is_loss_tolerant mode |} in
       if has GlobalFlags.FILE_FRAGMENTATION
       then if EntryMode.is_fragment mode then Metadata.PresentActive m else Metadata.PresentInactive m
       else Metadata.Absent;
     Metadata.cdc := Metadata.Build_EntryCdcMetadata <$> v_cdc_algo_id v;
     Metadata.delta :=
       if is_has_delta then
         Some {| Metadata.delta_patch_algo_id := patch_raw_id; Metadata.base_hash := base_hash |}
       else None;
     Metadata.sparse := Metadata.Build_EntrySparseMetadata <$> v_sparse_extents v;
     Metadata.hash :=
       if has_crc || has_hash then
         Some {| Metadata.crc32 := if has_crc then Lfh.file_crc32 lfh else None;
                 Metadata.content_hash := if has_hash then Lfh.content_hash lfh else None |}
       else None |}.

(** [StreamArchiveParser::decode_pending_entry] on the parts of the pending entry, up to
    the entry count: the header bytes end at [payload_offset]. *)
Definition decode_pending_parts (header : Format.GlobalHeader)
    (global_flags_section : list byte) (lfh : Lfh.LocalFileHeader)
    (lfh_bytes encoded_payload : list byte) (payload_offset : Z)
    : result SarError.t EntryReader :=
  let is_encrypted := contains (Format.flags header) GlobalFlags.ENCRYPTED
                      && EntryMode.is_encrypted (Lfh.entry_mode lfh) in
  decoded ← pending_stages header global_flags_section lfh lfh_bytes encoded_payload is_encrypted;
  views ← pending_views header lfh decoded;
  lfh_offset ← ok_or (checked_sub payload_offset (Lfh.header_size lfh))
                 (SarError.Overflow "LFH offset underflow");
  path ← pending_path lfh;
  path_presence ← pending_path_presence header lfh;
  Ok {| EntryDecode.header := lfh; payload := decoded;
        metadata := pending_metadata header lfh is_encrypted lfh_offset path path_presence views |}.
End decode.

(** ** The two readers agree *)
Section decode_facts.
Context {B : Bitflags} {Comp : Compression.Compressors} {Ciph : Crypto.Ciphers} {K : Kms.Kdfs}.
Context (oc : bool) (options : ArchiveReaderOptions) (key_provider : option Kms.KeyProvider).

(** A header that was parsed announces encryption only where the archive does. *)
Lemma parsed_encrypted input flags limits lfh n :
  Lfh.parse_lfh input flags limits = Ok (lfh, n) →
  EntryMode.is_encrypted (Lfh.entry_mode lfh) = true → contains flags GlobalFlags.ENCRYPTED = true.
Proof.
  intros ((Hf & _) & _)%Lfh.parse_lfh_inv He. destruct Hf as (_ & _ & Hv & _).
  unfold validate_entry_mode_against_global in Hv. rewrite He in Hv.
  destruct (contains flags GlobalFlags.ENCRYPTED); [done|]. cbn [andb negb] in Hv.
  destruct (EntryMode.has _ _); [done|]. by do 2 (destruct (_ && _); [done|]).
Qed.

(** The copy of [stream.rs] computes what that of [archive.rs] does, the path decoded twice and
    where encryption is decided apart. *)
Lemma pending_stages_eq h section lfh bs encoded enc :
  pending_stages oc options key_provider h section lfh bs encoded enc
  = decode_stages oc options key_provider h section lfh bs encoded enc.
Proof. reflexivity. Qed.
Lemma pending_views_eq h lfh d : pending_views options h lfh d = parse_views options h lfh d.
Proof. reflexivity. Qed.
Lemma pending_path_eq h lfh enc offset v :
  (path ← pending_path lfh; presence ← pending_path_presence h lfh;
   Ok (pending_metadata h lfh enc offset path presence v))
  = (path ← parse_path lfh; Ok (entry_metadata h lfh enc offset path v)).
Proof.
  unfold pending_path, parse_path, pending_path_presence, pending_metadata, entry_metadata, presence.
  destruct (len (Lfh.path lfh) =? 0); [by destruct (contains _ GlobalFlags.HAS_PATH)|].
  destruct (Utf8.from_utf8 _); [|done]. by destruct (contains _ GlobalFlags.HAS_PATH).
Qed.
Lemma pending_parts_eq h section lfh bs encoded offset :
  decode_pending_parts oc options key_provider h section lfh bs encoded offset
  = (let enc := contains (Format.flags h) GlobalFlags.ENCRYPTED
                && EntryMode.is_encrypted (Lfh.entry_mode lfh) in
     d ← decode_stages oc options key_provider h section lfh bs encoded enc;
     v ← parse_views options h lfh d;
     o ← ok_or (checked_sub offset (Lfh.header_size lfh)) (SarError.Overflow "LFH offset underflow");
     path ← parse_path lfh;
     Ok {| EntryDecode.header := lfh; payload := d; metadata := entry_metadata h lfh enc o path v |}).
Proof.
  unfold decode_pending_parts. rewrite pending_stages_eq. cbv zeta.
  destruct (decode_stages _ _ _ _ _ _ _ _ _) as [d| |]; [|done..]. cbn [mbind result_bind].
  rewrite pending_views_eq. destruct (parse_views _ _ _ _) as [v| |]; [|done..]. cbn [mbind result_bind].
  destruct (ok_or _ _) as [o| |]; [|done..]. cbn [mbind result_bind].
  set (enc := contains _ _ && _).
  transitivity (m ← (path ← pending_path lfh; presence ← pending_path_presence h lfh;
                     Ok (pending_metadata h lfh enc o path presence v));
                Ok {| EntryDecode.header := lfh; payload := d; metadata := m |}).
  - destruct (pending_path lfh); [|done..]. by destruct (pending_path_presence h lfh).
  - rewrite pending_path_eq. by destruct (parse_path lfh).
Qed.

(** (C31) The two readers decode an entry alike, though each has its own copy of the code: for
    a header that was parsed under the archive's flags, the streaming parser's decoding of a
    pending entry ([pending_stages], [pending_views], [pending_metadata]) gives the payload
    and the metadata, or the error, of the seekable reader's ([decode_stages],
    [parse_views], [entry_metadata]) at the offset of the header.  They differ in where they
    decide whether an entry is encrypted and decode the path once or twice. *)
Theorem readers_agree header section lfh_offset input lfh n lfh_bytes encoded :
  Lfh.parse_lfh input (Format.flags header) (limits options) = Ok (lfh, n) →
  0 ≤ lfh_offset →
  decode_pending_parts oc options key_provider header section lfh lfh_bytes encoded
    (lfh_offset + n)
  = (parts ← decode_ordinary_archive_entry_from_parts oc options key_provider header section
               lfh_offset lfh lfh_bytes encoded;
     Ok {| EntryDecode.header := lfh; payload := parts_payload parts;
           metadata := parts_metadata parts |}).
Proof.
  intros Hp Ho. pose proof (parsed_encrypted _ _ _ _ _ Hp) as He.
  apply Lfh.parse_lfh_inv in Hp as (_ & Hn & _).
  rewrite pending_parts_eq. unfold decode_ordinary_archive_entry_from_parts. cbv zeta.
  destruct (EntryMode.is_encrypted (Lfh.entry_mode lfh)).
  1: rewrite He by done.
  2: rewrite andb_false_r.
  all: cbn [andb negb]; destruct (decode_stages _ _ _ _ _ _ _ _ _) as [d| |]; [|done..];
    cbn [mbind result_bind]; destruct (parse_views _ _ _ _) as [v| |]; [|done..];
    cbn [mbind result_bind]; rewrite Hn, checked_sub_fits by lia; cbn [ok_or mbind result_bind];
    replace (lfh_offset + n - n) with lfh_offset by lia; by destruct (parse_path lfh).
Qed.

(** ** Sizes

    What the readers are given besides the input: the limits are unsigned, a decoded entry
    fits a vector, and so does the base of a delta. *)
Record options_ok : Prop := {
  max_decoded_fits : 0 ≤ max_decoded_entry_size options ≤ ISIZE_MAX;
  vcdiff_limit_fits : 0 ≤ max_vcdiff_output_size (limits options);
  base_fits : ∀ base, delta_base options = Some base → len base ≤ ISIZE_MAX }.

Lemma vcdiff_output_limit :
  options_ok →
  0 ≤ Vcdiff.max_output_size (vcdiff_limits_from_resource_limits (limits options)) ≤ ISIZE_MAX.
Proof.
  intros []. unfold vcdiff_limits_from_resource_limits, max_decoded_entry_size in *.
  cbn [Vcdiff.max_output_size]. case_match; lia.
Qed.

(** The result is at most [max] bytes long, and only a build that checks overflow panics. *)
Definition within_max (r : result SarError.t (list byte)) : Prop :=
  match r with
  | Ok t => len t ≤ max_decoded_entry_size options | Err _ => True | Panic => oc = true
  end.
Lemma within_max_bind {A} (m : result SarError.t A) f :
  no_panic m → (∀ a, m = Ok a → within_max (f a)) → within_max (m ≫= f).
Proof. destruct m; cbn; auto. Qed.
Lemma pre_dispatch_Ok n target :
  validate_delta_pre_dispatch n target (limits options) = Ok () →
  target ≤ max_decoded_entry_size options.
Proof. unfold validate_delta_pre_dispatch, max_decoded_entry_size. intros H. inv_ok. lia. Qed.
Lemma pre_dispatch_no_panic n target : no_panic (validate_delta_pre_dispatch n target (limits options)).
Proof. unfold validate_delta_pre_dispatch. np. Qed.

(** A patch gives a target of the announced size, within the limit; a stored patch of a
    sparse entry is the stored bytes. *)
Lemma apply_patch_within lfh is_sparse id decoded :
  options_ok → len decoded ≤ max_decoded_entry_size options →
  within_max (apply_patch oc options lfh is_sparse id decoded).
Proof.
  intros O Hd. pose proof O as [Hm _ Hb]. unfold apply_patch.
  case_match.
  { case_match; [|done]. unfold Patch.apply_store_patch. by case_match. }
  case_match.
  { apply within_max_bind; [apply pre_dispatch_no_panic|]. intros [] Ht%pre_dispatch_Ok.
    case_match; [done|]. apply within_max_bind; [apply no_panic_ok_or|].
    intros base Hbase%ok_or_Ok%Hb.
    destruct (Vcdiff.apply_vcdiff_cases oc base decoded (Lfh.uncompressed_size lfh) _
      ltac:(lia) Hbase (vcdiff_output_limit O)) as [_ [(t & -> & Hl & _)|[[e ->]|[-> ->]]]];
      cbn; [lia|done..]. }
  case_match; [|by repeat case_match].
  apply within_max_bind; [apply pre_dispatch_no_panic|]. intros [] Ht%pre_dispatch_Ok.
  case_match; [done|]. apply within_max_bind; [apply no_panic_ok_or|]. intros base _.
  destruct (Bsdiff.apply_bsdiff_total base decoded (Lfh.uncompressed_size lfh)
    (bsdiff_limits_from_resource_limits (limits options)) ltac:(lia)) as [[e ->]|(t & -> & Hl)];
    cbn; [done|lia].
Qed.

(** The application's key provider returns. *)
Definition provider_total : Prop :=
  ∀ p, key_provider = Some p → ∀ context,
    no_panic (Kms.external_key (KeyProvider := p) context)
    ∧ no_panic (Kms.password_for (KeyProvider := p) context)
    ∧ ∀ wrapped, no_panic (Kms.unwrap_key (KeyProvider := p) context wrapped).

Lemma resolve_cek_no_panic p context :
  provider_total → key_provider = Some p → no_panic (Kms.resolve_cek p context).
Proof.
  intros Ht Hp. destruct (Ht p Hp context) as (He & Hw & Hu). unfold Kms.resolve_cek.
  apply no_panic_bind; [done|]. intros [k|] _; [done|]. destruct (Kms.params context).
  - apply no_panic_bind; [done|]. intros o _. apply no_panic_bind; [apply no_panic_ok_or|].
    intros pw _. unfold Kms.pbkdf2_derive_key. np.
  - apply no_panic_bind; [done|]. intros o _. apply no_panic_bind; [apply no_panic_ok_or|].
    intros pw _. unfold Kms.argon2_derive_key. np.
  - induction (AsymmetricWrapParams.recipients _) as [|r rs IH]; [done|]. cbn [Kms.unwrap_recipients].
    apply no_panic_bind; [done|]. by intros [k|] _.
  - done.
Qed.
Lemma build_kms_context_no_panic h : no_panic (build_kms_context h).
Proof.
  unfold build_kms_context. apply no_panic_bind; [apply no_panic_ok_or|]. intros kms _.
  apply no_panic_bind; [|done]. case_match; apply no_panic_map_err.
  - apply no_panic_bind; [apply Kms.parse_tls_no_panic|done].
  - apply Kms.parse_kms_payload_no_panic.
Qed.
Lemma lfh_bytes_for_aad_no_panic flags bs algo n :
  0 ≤ n → no_panic (Lfh.lfh_bytes_for_aad flags bs algo n).
Proof.
  intros Hn. unfold Lfh.lfh_bytes_for_aad. case_match; [done|].
  assert (Hoff : 0 ≤ Lfh.fec_size_field_offset flags).
  { assert (Hb : ∀ c v off, 0 ≤ v → 0 ≤ off → 0 ≤ Lfh.bump c v off)
      by (intros [] ???; cbn; lia).
    unfold Lfh.fec_size_field_offset, Format.size_field_len. do 2 (apply Hb; [lia|]).
    apply Z.add_nonneg_nonneg; [|lia]. do 13 (apply Hb; [lia|]). case_match; lia. }
  apply no_panic_bind; [apply no_panic_ok_or|]. intros e1 H1%ok_or_Ok.
  apply no_panic_bind; [apply no_panic_ok_or|]. intros e2 H2%ok_or_Ok. inv_ok. case_match; [done|].
  apply no_panic_bind; [apply no_panic_ok_or|]. intros e3 _.
  apply no_panic_bind; [apply no_panic_ok_or|]. intros e4 _.
  apply no_panic_bind; [apply slice_r_no_panic; lia|]. intros b1 _.
  apply no_panic_bind; [apply slice_r_no_panic; lia|done].
Qed.
Lemma entry_crypto_no_panic h section lfh bs :
  provider_total → no_panic (entry_crypto key_provider h section lfh bs).
Proof.
  intros Ht. unfold entry_crypto.
  do 2 (apply no_panic_bind; [auto with no_panic|]; intros ? _).
  apply no_panic_bind; [auto with no_panic|]. intros p Hp%ok_or_Ok.
  apply no_panic_bind; [apply build_kms_context_no_panic|]. intros ctx _.
  apply no_panic_bind; [by apply no_panic_map_err, resolve_cek_no_panic|]. intros key _.
  apply no_panic_bind; [auto with no_panic|]. intros nonce _.
  apply no_panic_bind; [apply lfh_bytes_for_aad_no_panic, len_nonneg|done].
Qed.
Lemma entry_crypto_nonce h section lfh bs c :
  entry_crypto key_provider h section lfh bs = Ok c → Lfh.iv_nonce lfh = Some (Transform.iv_nonce c).
Proof. unfold entry_crypto. intros H. by inv_ok. Qed.

(** The pipeline stays within the limit, and panics at most where a patch does. *)
Lemma decode_stages_within h section lfh bs encoded enc :
  options_ok → provider_total → 0 ≤ Lfh.uncompressed_size lfh →
  (∀ nonce, Lfh.iv_nonce lfh = Some nonce → len nonce = 24) →
  within_max (decode_stages oc options key_provider h section lfh bs encoded enc).
Proof.
  intros O Ht Hu Hn. pose proof O as [Hm _ _]. unfold decode_stages.
  apply within_max_bind; [case_match; [apply no_panic_check|done]|]. intros _ _. case_match; [done|].
  apply within_max_bind.
  { case_match; [|done]. apply no_panic_bind; [by apply entry_crypto_no_panic|done]. }
  intros crypto Hc.
  assert (Hnonce : ∀ c, crypto = Some c → len (Transform.iv_nonce c) = 24).
  { intros c ->. destruct enc; [|done]. apply bind_Ok in Hc as (c' & Hc & [= ->]).
    by apply Hn, (entry_crypto_nonce _ _ _ _ _ Hc). }
  apply within_max_bind; [by apply Transform.decode_payload_v2_no_panic|]. intros d Hd.
  apply Transform.decode_payload_v2_bounded in Hd;
    cbn [Transform.decoding Transform.expected_output_size Transform.max_output_size] in *;
    [|dif as Ed; lia|lia].
  assert (Hw : within_max (if contains (Format.flags h) GlobalFlags.HAS_DELTA
     then apply_patch oc options lfh
            (contains (Format.flags h) GlobalFlags.SPARSE_FILES && negb (len (Lfh.sparse_map lfh) =? 0))
            (default 0 (Lfh.patch_algo_id lfh)) d else Ok d)).
  { dif as Ei; [apply apply_patch_within; [done|lia]|cbn; lia]. }
  destruct (if contains _ GlobalFlags.HAS_DELTA then _ else _) as [t| |]; [|done..].
  cbn [mbind result_bind]. apply within_max_bind; [|done].
  dif as Es; [|done]. unfold check_decoded_size. np.
Qed.
Lemma decode_stages_size h section lfh bs encoded enc d :
  contains (Format.flags h) GlobalFlags.SPARSE_FILES && negb (len (Lfh.sparse_map lfh) =? 0) = false →
  decode_stages oc options key_provider h section lfh bs encoded enc = Ok d →
  len d = Lfh.uncompressed_size lfh.
Proof.
  unfold decode_stages. intros -> H. cbn [negb] in H. unfold check_decoded_size in H.
  apply bind_Ok in H as (? & _ & H). apply guard_Ok in H as [_ H].
  apply bind_Ok in H as (c & _ & H). apply bind_Ok in H as (e & _ & H).
  apply bind_Ok in H as (t & _ & H). inv_ok. lia.
Qed.
Lemma parse_views_no_panic h lfh d : no_panic (parse_views options h lfh d).
Proof.
  unfold parse_views. apply no_panic_bind.
  { dif as E; [|done]. apply FecRegistry.parse_lfh_fec_value_no_panic. }
  intros fec _. apply no_panic_bind.
  { dif as E; [|done]. apply no_panic_bind; [apply SparseMap.sparse_map_parse_write|done]. }
  intros ex _. apply no_panic_bind.
  { dif as E; [|done]. apply no_panic_bind; [|done]. apply no_panic_map_err.
    unfold CdcMap.validate_cdc_algo_id. np. }
  intros cdc _. np.
Qed.

Lemma parse_path_no_panic lfh : no_panic (parse_path lfh).
Proof. unfold parse_path. np. Qed.

(** The pipeline on the header of an entry that was parsed. *)
Lemma parsed_within h section input lfh n bs encoded enc :
  options_ok → provider_total →
  Lfh.parse_lfh input (Format.flags h) (limits options) = Ok (lfh, n) →
  within_max (decode_stages oc options key_provider h section lfh bs encoded enc).
Proof.
  intros O Ht ((Hf & _) & _)%Lfh.parse_lfh_inv. unfold Lfh.fields_wf in Hf. destruct_and! Hf.
  apply decode_stages_within; [done..| |].
  - by eapply Format.size_wf_u64.
  - intros nonce Hn.
    match goal with H : wf_opt _ _ (Lfh.iv_nonce lfh) |- _ => rewrite Hn in H; apply H end.
Qed.
Lemma decode_pending_no_panic h section input lfh n bs encoded offset :
  oc = false → options_ok → provider_total →
  Lfh.parse_lfh input (Format.flags h) (limits options) = Ok (lfh, n) →
  no_panic (decode_pending_parts oc options key_provider h section lfh bs encoded offset).
Proof.
  intros Hoc O Ht Hp. rewrite pending_parts_eq. cbv zeta. apply no_panic_bind.
  { match goal with |- no_panic (decode_stages _ _ _ _ _ _ _ _ ?enc) =>
      pose proof (parsed_within h section input lfh n bs encoded enc O Ht Hp) as Hw end.
    destruct (decode_stages _ _ _ _ _ _ _ _ _); [done..|]. exfalso. cbn in Hw. congruence. }
  intros d _. apply no_panic_bind; [apply parse_views_no_panic|]. intros v _.
  apply no_panic_bind; [apply no_panic_ok_or|]. intros o _.
  apply no_panic_bind; [apply parse_path_no_panic|done].
Qed.


(** ** Types of the metadata

    The widths, array lengths and encodings the Rust types of [EntryMetadata] promise. *)
Definition opt {A} (P : A → Prop) (o : option A) : Prop := from_option P True o.
Definition utf8 (bs : list byte) : Prop := Utf8.from_utf8 bs = true.
Definition bytes_of (n : Z) (bs : list byte) : Prop := len bs = n.
Definition descriptor_typed (d : Fragmentation.FragmentDescriptor) : Prop :=
  fits 64 (Fragmentation.absolute_offset d) ∧ fits 32 (Fragmentation.fragment_size d).
Definition fields_typed (m : Metadata.EntryMetadata) : Prop :=
  utf8 (Metadata.name m) ∧ opt utf8 (Metadata.path m) ∧ opt utf8 (Metadata.symlink_target m)
  ∧ fits 64 (Metadata.payload_size m) ∧ fits 64 (Metadata.uncompressed_size m)
  ∧ fits 8 (Metadata.compression_algo_id m)
  ∧ opt (fits 32) (Metadata.meta_fragment_id m) ∧ opt (fits 32) (Metadata.meta_fragment_index m)
  ∧ opt descriptor_typed (Metadata.fragment_descriptor m)
  ∧ opt (Forall (SparseMap.entry_wf true)) (Metadata.sparse_extents m)
  ∧ opt (fits 32) (Metadata.file_crc32 m) ∧ opt (bytes_of 32) (Metadata.meta_content_hash m)
  ∧ opt (fits 8) (Metadata.meta_cdc_algo_id m) ∧ opt (fits 8) (Metadata.patch_algo_id m)
  ∧ opt (bytes_of 32) (Metadata.delta_base_hash m)
  ∧ fits 16 (Metadata.entry_mode_raw m) ∧ fits 16 (Metadata.stream_id m)
  ∧ fits 16 (Metadata.sequence_no m).

(** What the views hold. *)
Definition views_typed (v : Views) : Prop :=
  opt (Forall (SparseMap.entry_wf true)) (v_sparse_extents v)
  ∧ opt (fits 8) (v_cdc_algo_id v) ∧ opt utf8 (v_symlink_target v).

Lemma wf_opt_opt {A} c (P : A → Prop) o : wf_opt c P o → opt P o.
Proof. destruct o; [by intros []|done]. Qed.
Lemma wf_opt_default {A} c (P : A → Prop) o d : wf_opt c P o → P d → P (default d o).
Proof. destruct o; [by intros []|done]. Qed.
Lemma opt_fmap {A C} (P : C → Prop) (f : A → C) o : opt (λ a, P (f a)) o → opt P (f <$> o).
Proof. by destruct o. Qed.
Lemma opt_impl {A} (P Q : A → Prop) o : (∀ a, P a → Q a) → opt P o → opt Q o.
Proof. destruct o; cbn; auto. Qed.

Lemma parse_views_typed h lfh d v :
  Lfh.fields_wf (Format.flags h) lfh → parse_views options h lfh d = Ok v →
  utf8 (Lfh.name lfh) ∧ views_typed v.
Proof.
  intros Hf H. unfold Lfh.fields_wf in Hf. destruct_and! Hf. unfold parse_views in H.
  apply bind_Ok in H as (fec & _ & H). apply bind_Ok in H as (ex & Hex & H).
  apply bind_Ok in H as (cdc & Hcdc & H). apply guard_Ok in H as [Hname H].
  apply guard_Ok in H as [_ H]. apply bind_Ok in H as (sy & Hsy & [= <-]).
  split; [by apply negb_false_iff|]. split_and!; cbn [v_sparse_extents v_cdc_algo_id v_symlink_target].
  - destruct (_ && _); inv_ok; [|done]. by eapply SparseMap.parse_sparse_map_typed.
  - destruct (contains _ _) in Hcdc; inv_ok; [|done]. by eapply wf_opt_default.
  - destruct (decide _); inv_ok; [|done]. unfold opt, utf8. cbn. by apply negb_false_iff.
Qed.
Lemma parse_path_typed lfh path : parse_path lfh = Ok path → opt utf8 path.
Proof.
  unfold parse_path. case_match; [by intros [= <-]|]. intros [Hu [= <-]]%guard_Ok.
  by apply negb_false_iff in Hu.
Qed.

(** A field is typed because the parsed header is, or because its default is. *)
Lemma zero_fits w : 0 < w → fits w 0.
Proof. intros. split; [done|]. apply Z.pow_pos_nonneg; lia. Qed.
Ltac typed :=
  repeat first
    [ done | by apply zero_fits | by eapply wf_opt_opt | by eapply Format.size_wf_u64
    | apply opt_fmap
    | match goal with
      | |- _ ∧ _ => split
      | |- opt ?P (Some ?v) => change (P v); cbv beta
      | |- fits ?w (default ?d ?o) => eapply (wf_opt_default _ (fits w) o d); [eassumption|]
      | |- bytes_of ?n (default ?d ?o) => eapply (wf_opt_default _ (bytes_of n) o d); [eassumption|]
      | |- opt _ (if ?b then _ else _) => destruct b
      | |- fits _ (if ?b then _ else _) => destruct b
      end ].

Lemma decoded_fields_typed header section lfh_offset input lfh n lfh_bytes encoded parts :
  Lfh.parse_lfh input (Format.flags header) (limits options) = Ok (lfh, n) →
  decode_ordinary_archive_entry_from_parts oc options key_provider header section
    lfh_offset lfh lfh_bytes encoded = Ok parts →
  Metadata.lfh_offset (parts_metadata parts) = lfh_offset
  ∧ fields_typed (parts_metadata parts).
Proof.
  intros ((Hf & _) & _)%Lfh.parse_lfh_inv H.
  unfold decode_ordinary_archive_entry_from_parts in H. apply guard_Ok in H as [_ H].
  apply bind_Ok in H as (d & _ & H). apply bind_Ok in H as (v & Hv & H).
  apply bind_Ok in H as (path & Hp & [= <-]). apply parse_path_typed in Hp.
  destruct (parse_views_typed _ _ _ _ Hf Hv) as (Hn & He & Hc & Hs).
  unfold Lfh.fields_wf in Hf. destruct_and! Hf. cbn [parts_metadata].
  split; [done|]. unfold fields_typed, entry_metadata.
  cbn -[fits opt fmap default from_option zeros ZERO_DELTA_BASE_HASH]. split_and!; typed.
Qed.

End decode_facts.

(** ** Witnesses

    A compressed entry [a] of three bytes, behind the marker of the sample compressor. *)
Section witnesses.
#[local] Existing Instance bitwise.

Definition zero_kdfs : Kms.Kdfs := {|
  Kms.argon2_params := unit;
  Kms.pbkdf2_hmac_sha256 _ _ _ n := zeros n;
  Kms.argon2_params_new _ _ _ _ := Some ();
  Kms.argon2id_hash_password_into _ _ _ n := Some (zeros n) |}.
#[local] Existing Instances Transform.marked_compressors Transform.shift_ciphers zero_kdfs.

Definition sample_options : ArchiveReaderOptions := {| limits := default_limits; delta_base := None |}.
Definition sample_archive_header : Format.GlobalHeader := {|
  Format.version := 1; Format.flags_bytes := [x02; x01; x00; x00];
  Format.flags := Z.lor GlobalFlags.NO_INDEX GlobalFlags.COMPRESSED;
  Format.partition_descriptor := None; Format.kms := None |}.
Definition sample_entry_bytes : list byte :=
  [x16; x00; x00; x00; x08; x00; x00; x00; x00; x00; x03; x00; x00; x00; x04; x00; x00; x00;
   x01; x01; x00; x61].
Definition sample_entry : Lfh.LocalFileHeader := {|
  Lfh.header_size := 22; Lfh.entry_mode := 8; Lfh.stream_id := 0; Lfh.sequence_no := 0;
  Lfh.uncompressed_size := 3; Lfh.payload_size := 4; Lfh.comp_algo_id := Some 1;
  Lfh.patch_algo_id := None; Lfh.encr_algo_id := None; Lfh.cdc_algo_id := None;
  Lfh.fec_algo_id := None; Lfh.fragment_id := None; Lfh.fragment_index := None;
  Lfh.fragment_descriptor := None; Lfh.iv_nonce := None; Lfh.delta_base_hash := None;
  Lfh.file_crc32 := None; Lfh.content_hash := None; Lfh.uid_gid := None;
  Lfh.timestamps := None; Lfh.permissions := None; Lfh.name := [x61]; Lfh.path := [];
  Lfh.sparse_map := []; Lfh.fec_value := [] |}.
Definition sample_stored : list byte := [x01; x07; x08; x09].
Definition sample_parts : result SarError.t DecodedArchiveEntryParts :=
  decode_ordinary_archive_entry_from_parts false sample_options None sample_archive_header
    [] 12 sample_entry sample_entry_bytes sample_stored.

Lemma sample_entry_parsed :
  Lfh.parse_lfh sample_entry_bytes (Format.flags sample_archive_header) (limits sample_options)
  = Ok (sample_entry, 22).
Proof. vm_compute. reflexivity. Defined.
Lemma sample_options_ok : options_ok sample_options.
Proof. split; [vm_compute; split; congruence|vm_compute; congruence|done]. Qed.
Lemma no_provider_total : provider_total None.
Proof. by intros p. Qed.

Lemma readers_agree_witness :
  (entry ← decode_pending_parts false sample_options None sample_archive_header [] sample_entry
             sample_entry_bytes sample_stored (12 + 22);
   Ok (payload entry)) = Ok [x07; x08; x09].
Proof.
  rewrite (readers_agree false sample_options None sample_archive_header [] 12 sample_entry_bytes
             sample_entry 22) by (apply sample_entry_parsed || lia).
  vm_compute. reflexivity.
Defined.
End witnesses.

End EntryDecode.
