(* ===== verification/StreamParser.v ===== *)
(** * The streaming parser

    Models [crates/sar-archive/src/stream.rs]: a parser that is fed byte chunks and emits
    the events of the archives in the stream, header by header and entry by entry.  Its
    fields are the record [StreamArchiveParser]; the options and the key provider, which
    do not change, are parameters of the section.  A step is a loop over the states: a
    pass through the loop body is [step_once], which returns or continues, and the loop is
    [step_loop] with the fuel [step] gives it. *)

From S2P Require Import Prelude Errors Limits Flags Cursor Format Lfh Reads Crypto Kms Transform Metadata EntryDecode.

Module StreamParser.
Import Limits EntryDecode.

Definition SAR_MAGIC : list byte := [x53; x41; x52; x21].

(** [enum StreamParseState]. *)
Inductive StreamParseState : Set :=
  | NeedGlobalHeader | NeedLocalFileHeader | NeedPayload | TransformingEntry | EntryReady
  | NeedCentralDictionaryOrFooter | ArchiveComplete | Error.
#[global] Instance parse_state_eq_dec : EqDecision StreamParseState.
Proof. solve_decision. Defined.

Record StreamArchiveSummary := { summary_entry_count : Z; summary_flags : Z; indexed : bool }.

(** [enum StreamEvent] and [enum StreamStep]. *)
Inductive StreamEvent :=
  | EvGlobalHeader (h : Format.GlobalHeader) | EvEntry (e : EntryReader)
  | EvArchiveComplete (s : StreamArchiveSummary).
Inductive StreamStep :=
  | NeedMore (needed : option Z) | Ready (ev : StreamEvent) | Complete.

Record PendingEntry := {
  pending_lfh : Lfh.LocalFileHeader; pending_lfh_bytes : list byte; payload_offset : Z;
  encoded_payload : option (list byte) }.
Record ActiveArchive := {
  active_header : Format.GlobalHeader; global_flags_section : list byte; entry_count : Z }.

Record StreamArchiveParser := {
  state : StreamParseState; buffer : list byte; consumed : Z; finalized : bool;
  absolute_offset : Z; archive : option ActiveArchive; pending_entry : option PendingEntry }.

(** Assignments to one field. *)
Definition set_state (p : StreamArchiveParser) (s : StreamParseState) : StreamArchiveParser :=
  {| state := s; buffer := buffer p; consumed := consumed p; finalized := finalized p;
     absolute_offset := absolute_offset p; archive := archive p;
     pending_entry := pending_entry p |}.
Definition set_archive (p : StreamArchiveParser) (a : option ActiveArchive) : StreamArchiveParser :=
  {| state := state p; buffer := buffer p; consumed := consumed p; finalized := finalized p;
     absolute_offset := absolute_offset p; archive := a; pending_entry := pending_entry p |}.
Definition set_pending (p : StreamArchiveParser) (e : option PendingEntry) : StreamArchiveParser :=
  {| state := state p; buffer := buffer p; consumed := consumed p; finalized := finalized p;
     absolute_offset := absolute_offset p; archive := archive p; pending_entry := e |}.
Definition set_input (p : StreamArchiveParser) (b : list byte) (c off : Z) : StreamArchiveParser :=
  {| state := state p; buffer := b; consumed := c; finalized := finalized p;
     absolute_offset := off; archive := archive p; pending_entry := pending_entry p |}.

(** A pass through the body of the loop of [step]. *)
Inductive Turn :=
  | Return (p : StreamArchiveParser) (r : result SarError.t StreamStep)
  | Continue (p : StreamArchiveParser).

(** The operator [?]: an error returns from [step] and leaves the parser as it is. *)
Definition try_ {A} (p : StreamArchiveParser) (r : result SarError.t A) (k : A → Turn) : Turn :=
  match r with Ok a => k a | Err e => Return p (Err e) | Panic => Return p Panic end.
(** [?] on an operation that changes the parser. *)
Definition try_mut {A} (r : StreamArchiveParser * result SarError.t A)
    (k : StreamArchiveParser → A → Turn) : Turn :=
  let '(p, r) := r in try_ p r (k p).

Section parser.
Context {B : Bitflags} {Comp : Compression.Compressors} {Ciph : Crypto.Ciphers} {K : Kms.Kdfs}.
Context (oc : bool) (options : ArchiveReaderOptions) (key_provider : option Kms.KeyProvider).

(** [StreamArchiveParser::with_options]. *)
Definition with_options : StreamArchiveParser := {|
  state := NeedGlobalHeader; buffer := []; consumed := 0; finalized := false;
  absolute_offset := 0; archive := None; pending_entry := None |}.

Definition available (p : StreamArchiveParser) : Z := saturating_sub (len (buffer p)) (consumed p).

Definition peek (p : StreamArchiveParser) (n : Z) : option (list byte) :=
  if available p <? n then None
  else
    let start := consumed p in
    if (start <=? start + n) && (start + n <=? len (buffer p))
    then Some (slice (buffer p) start (start + n)) else None.

Definition consume (p : StreamArchiveParser) (n : Z)
    : StreamArchiveParser * result SarError.t unit :=
  if n >? available p
  then (p, Err (SarError.Truncated "stream consume beyond available bytes")) else
  match checked_add 64 (consumed p) n with
  | None => (p, Err (SarError.Overflow "stream cursor"))
  | Some c =>
      let p := set_input p (buffer p) c (absolute_offset p) in
      match try_from 64 n with
      | None => (p, Err (SarError.Overflow "stream offset"))
      | Some n64 =>
          match checked_add 64 (absolute_offset p) n64 with
          | None => (p, Err (SarError.Overflow "stream absolute offset"))
          | Some off =>
              let p := set_input p (buffer p) (consumed p) off in
              if (consumed p >? 0)
                 && ((consumed p >=? 4096) || (consumed p =? len (buffer p)))
              then (set_input p (drop (Z.to_nat (consumed p)) (buffer p)) 0
                      (absolute_offset p), Ok ())
              else (p, Ok ())
          end
      end
  end.

(** [set_error]: enter the terminal state and return the error. *)
Definition set_error (p : StreamArchiveParser) (e : SarError.t) : Turn :=
  Return (set_state p Error) (Err e).

Definition push_bytes (p : StreamArchiveParser) (chunk : list byte)
    : StreamArchiveParser * result SarError.t unit :=
  let r :=
    add ← ok_or (try_from 64 (len chunk)) (SarError.Overflow "stream chunk len");
    buffered ← ok_or (try_from 64 (available p)) (SarError.Overflow "stream buffered len");
    total ← ok_or (v ← checked_add 64 (absolute_offset p) buffered; checked_add 64 v add)
              (SarError.Overflow "stream byte count");
    check_archive_size (limits options) total in
  match r with
  | Ok _ => (set_input p (buffer p ++ chunk) (consumed p) (absolute_offset p), Ok ())
  | Err e => (p, Err e)
  | Panic => (p, Panic)
  end.

Definition finalize_input (p : StreamArchiveParser) : StreamArchiveParser :=
  {| state := state p; buffer := buffer p; consumed := consumed p; finalized := true;
     absolute_offset := absolute_offset p; archive := archive p;
     pending_entry := pending_entry p |}.

(** The part of [required_global_header_bytes] that looks behind the flags. *)
Definition required_kms_bytes (p : StreamArchiveParser) (global_flags flags_size needed : Z)
    : result SarError.t Z :=
  if contains global_flags GlobalFlags.ENCRYPTED then
    let kms_prefix_start :=
      if contains global_flags GlobalFlags.PARTITIONED_ARCHIVE
      then 8 + flags_size + 96 else 8 + flags_size in
    if available p >=? kms_prefix_start + 5 then
      prefix ← ok_or (peek p (kms_prefix_start + 5)) (SarError.Truncated "KMS prefix missing");
      payload_len_u32 ← u32_le prefix (kms_prefix_start + 1);
      payload_len ← ok_or (try_from 64 payload_len_u32) (SarError.Overflow "KMS payload length");
      _ ← check_kms_payload_bytes (limits options) payload_len;
      ok_or (v ← checked_add 64 needed 5; checked_add 64 v payload_len)
        (SarError.Overflow "KMS extension size")
    else Ok needed
  else Ok needed.

Definition required_global_header_bytes (p : StreamArchiveParser)
    : result SarError.t (option Z) :=
  match peek p 8 with
  | None => Ok None
  | Some fixed =>
      magic ← slice_r fixed 0 4;
      if negb (bool_decide (magic = SAR_MAGIC)) then Err SarError.InvalidMagic else
      flags_size ← u16_le fixed 6;
      if flags_size <? 4
      then Err (SarError.InvalidLength "global flags size must be >= 4") else
      _ ← check_global_flags_bytes (limits options) flags_size;
      needed ← ok_or (checked_add 64 8 flags_size) (SarError.Overflow "global header size");
      if available p >=? needed then
        flags ← ok_or (peek p needed) (SarError.Truncated "global flags missing");
        low ← u32_le flags 8;
        let global_flags := from_bits_truncate GlobalFlags.all low in
        needed ← (if contains global_flags GlobalFlags.PARTITIONED_ARCHIVE then
                    ok_or (checked_add 64 needed 96)
                      (SarError.Overflow "partition descriptor size")
                  else Ok needed);
        needed ← required_kms_bytes p global_flags flags_size needed;
        Ok (Some needed)
      else Ok (Some needed)
  end.

(** [decode_pending_entry]: takes the pending entry, decodes it and counts it. *)
Definition decode_pending_entry (p : StreamArchiveParser)
    : StreamArchiveParser * result SarError.t EntryReader :=
  match archive p with
  | None => (p, Err (SarError.Internal "missing active archive while decoding entry"))
  | Some a =>
      match pending_entry p with
      | None => (p, Err (SarError.Internal "missing pending entry for transform phase"))
      | Some pending =>
          let p := set_pending p None in
          let r :=
            encoded ← ok_or (encoded_payload pending)
                        (SarError.Internal "missing encoded payload in transform phase");
            entry ← decode_pending_parts oc options key_provider (active_header a)
                      (global_flags_section a) (pending_lfh pending)
                      (pending_lfh_bytes pending) encoded (payload_offset pending);
            count ← ok_or (checked_add 64 (entry_count a) 1) (SarError.Overflow "entry count");
            Ok (entry, count) in
          match r with
          | Ok (entry, count) =>
              (set_archive p (Some {| active_header := active_header a;
                                      global_flags_section := global_flags_section a;
                                      entry_count := count |}), Ok entry)
          | Err e => (p, Err e)
          | Panic => (p, Panic)
          end
      end
  end.

(** The arm [NeedGlobalHeader]. *)
Definition global_header_turn (p : StreamArchiveParser) : Turn :=
  if finalized p && (available p =? 0) then Return p (Ok Complete) else
  try_ p (required_global_header_bytes p) (λ required,
    match required with
    | None =>
        if finalized p
        then set_error p (SarError.Truncated "incomplete global header at end of stream")
        else Return p (Ok (NeedMore (Some 8)))
    | Some needed =>
        if available p <? needed then
          if finalized p
          then set_error p (SarError.Truncated "incomplete global header at end of stream")
          else Return p (Ok (NeedMore (Some needed)))
        else
        try_ p (ok_or (peek p needed)
                  (SarError.Truncated "global header bytes missing from parser buffer")) (λ input,
        try_ p (Format.parse_global_header input (limits options)) (λ '(header, n),
        if negb (n =? needed)
        then set_error p (SarError.InvalidLength "global header parser consumed unexpected length")
        else
        try_ p (if contains (Format.flags header) GlobalFlags.ENCRYPTED
                then _ ← build_kms_context header; Ok () else Ok ()) (λ _,
        try_mut (consume p n) (λ p _,
        let p := set_archive p (Some {|
          active_header := header;
          global_flags_section := Format.global_header_flags_bytes header;
          entry_count := 0 |}) in
        let p := set_state p
          (if contains (Format.flags header) GlobalFlags.NO_INDEX
           then NeedLocalFileHeader else NeedCentralDictionaryOrFooter) in
        Return p (Ok (Ready (EvGlobalHeader header)))))))
    end).

(** The arm [NeedLocalFileHeader] once four bytes are there. *)
Definition lfh_turn (p : StreamArchiveParser) (a : ActiveArchive) : Turn :=
  try_ p (ok_or (peek p 4) (SarError.Truncated "LFH header size missing")) (λ header_size_bytes,
  try_ p (v ← u32_le header_size_bytes 0;
          ok_or (try_from 64 v) (SarError.Overflow "LFH header size")) (λ header_size,
  try_ p (check_lfh_header_bytes (limits options) header_size) (λ _,
  if header_size <? 4
  then set_error p (SarError.InvalidLength "LFH Header Size smaller than fixed prefix") else
  if available p <? header_size then
    if finalized p then set_error p (SarError.Truncated "incomplete LFH at end of stream")
    else Return p (Ok (NeedMore (Some header_size)))
  else
  try_ p (ok_or (peek p header_size) (SarError.Truncated "LFH bytes missing")) (λ lfh_bytes,
  try_ p (Lfh.parse_lfh lfh_bytes (Format.flags (active_header a)) (limits options)) (λ '(lfh, n),
  if negb (n =? header_size)
  then set_error p (SarError.InvalidLength "LFH parser consumed unexpected length") else
  try_mut (consume p n) (λ p _,
  try_ p (allocation_len (limits options) (Lfh.payload_size lfh) "payload length usize") (λ _,
  let p := set_pending p (Some {|
    pending_lfh := lfh; pending_lfh_bytes := lfh_bytes; payload_offset := absolute_offset p;
    encoded_payload := None |}) in
  Continue (set_state p NeedPayload)))))))).
Definition local_file_header_turn (p : StreamArchiveParser) : Turn :=
  match archive p with
  | None => Return p (Err (SarError.Internal "stream parser missing active archive"))
  | Some a =>
      if available p =? 0 then
        if finalized p then Continue (set_state p ArchiveComplete)
        else Return p (Ok (NeedMore (Some 4)))
      else if available p >=? 4 then
        try_ p (ok_or (peek p 4) (SarError.Truncated "LFH prefix unavailable")) (λ prefix,
        if bool_decide (prefix = SAR_MAGIC) then Continue (set_state p ArchiveComplete)
        else lfh_turn p a)
      else if finalized p
      then set_error p (SarError.Truncated "incomplete LFH prefix at end of stream")
      else Return p (Ok (NeedMore (Some 4)))
  end.

(** The arm [NeedPayload]. *)
Definition payload_turn (p : StreamArchiveParser) : Turn :=
  match pending_entry p with
  | None => Return p (Err (SarError.Internal "missing pending entry in NeedPayload"))
  | Some pending =>
      try_ p (allocation_len (limits options) (Lfh.payload_size (pending_lfh pending))
                "payload length usize") (λ payload_len,
      if available p <? payload_len then
        if finalized p then set_error p (SarError.Truncated "incomplete payload at end of stream")
        else Return p (Ok (NeedMore (Some payload_len)))
      else
      try_ p (ok_or (peek p payload_len) (SarError.Truncated "payload bytes missing")) (λ payload,
      try_mut (consume p payload_len) (λ p _,
      let p := set_pending p (Some {|
        pending_lfh := pending_lfh pending; pending_lfh_bytes := pending_lfh_bytes pending;
        payload_offset := payload_offset pending; encoded_payload := Some payload |}) in
      Continue (set_state p TransformingEntry))))
  end.

(** The arm [ArchiveComplete]. *)
Definition archive_complete_turn (p : StreamArchiveParser) : Turn :=
  match archive p with
  | None => Return p (Err (SarError.Internal "stream parser missing archive summary"))
  | Some a =>
      let p := set_archive p None in
      let p := set_pending p None in
      let p := set_state p NeedGlobalHeader in
      Return p (Ok (Ready (EvArchiveComplete {|
        summary_entry_count := entry_count a;
        summary_flags := Format.flags (active_header a);
        indexed := negb (contains (Format.flags (active_header a)) GlobalFlags.NO_INDEX) |})))
  end.

Definition step_once (p : StreamArchiveParser) : Turn :=
  match state p with
  | NeedGlobalHeader => global_header_turn p
  | NeedCentralDictionaryOrFooter =>
      set_error p (SarError.Unsupported
        "forward-only stream parser currently supports NO_INDEX archives only")
  | NeedLocalFileHeader => local_file_header_turn p
  | NeedPayload => payload_turn p
  | TransformingEntry =>
      try_mut (decode_pending_entry p) (λ p entry,
      Return (set_state p EntryReady) (Ok (Ready (EvEntry entry))))
  | EntryReady => Continue (set_state p NeedLocalFileHeader)
  | ArchiveComplete => archive_complete_turn p
  | Error => Return p (Err (SarError.StreamState "stream parser is in terminal error state"))
  end.

(** The loop of [step]; running out of fuel is [Panic]. *)
Fixpoint step_loop (fuel : nat) (p : StreamArchiveParser)
    : StreamArchiveParser * result SarError.t StreamStep :=
  match fuel with
  | O => (p, Panic)
  | S fuel =>
      match step_once p with Return p r => (p, r) | Continue p => step_loop fuel p end
  end.
Definition step (p : StreamArchiveParser) : StreamArchiveParser * result SarError.t StreamStep :=
  step_loop 4 p.

End parser.

(** ** The input seen by the parser

    The bytes not consumed yet.  Draining the buffer does not change them. *)
Definition rest (p : StreamArchiveParser) : list byte := drop (Z.to_nat (consumed p)) (buffer p).

(** The cursor is inside the buffer, less than a drain threshold is kept in front of it,
    and the stream position has room for what is buffered. *)
Definition input_ok (p : StreamArchiveParser) : Prop :=
  0 ≤ consumed p ≤ len (buffer p) ∧ consumed p < 4096 ∧ 0 ≤ absolute_offset p
  ∧ absolute_offset p + len (rest p) < 2 ^ 64 - 4096.

(** [v] with the input position moved [n] bytes: everything else as before. *)
Record advanced (p p' : StreamArchiveParser) (n : Z) : Prop := {
  adv_state : state p' = state p;
  adv_finalized : finalized p' = finalized p;
  adv_archive : archive p' = archive p;
  adv_pending : pending_entry p' = pending_entry p;
  adv_rest : rest p' = drop (Z.to_nat n) (rest p);
  adv_offset : absolute_offset p' = absolute_offset p + n;
  adv_ok : input_ok p' }.

Lemma len_rest p : input_ok p → len (rest p) = len (buffer p) - consumed p.
Proof. intros (H & _). unfold rest. pose proof (len_take_drop (buffer p) (consumed p) H). lia. Qed.
Lemma available_rest p : input_ok p → available p = len (rest p).
Proof.
  intros H. rewrite len_rest by done. destruct H as (H & _).
  unfold available, saturating_sub. lia.
Qed.

(** The first [n] bytes, if there are that many. *)
Definition first_bytes (r : list byte) (n : Z) : option (list byte) :=
  if (n <? 0) || (len r <? n) then None else Some (take (Z.to_nat n) r).
Lemma peek_rest p n : input_ok p → peek p n = first_bytes (rest p) n.
Proof.
  intros H. unfold peek, first_bytes. rewrite available_rest by done.
  pose proof (len_rest p H) as Hl. destruct H as (H & _).
  destruct (Z.ltb_spec (len (rest p)) n); [by rewrite orb_true_r|]. rewrite orb_false_r.
  dif as E1; dif as E2; try done; try lia. f_equal. unfold slice, rest.
  by replace (consumed p + n - consumed p) with n by lia.
Qed.
Lemma first_bytes_app r x n v : first_bytes r n = Some v → first_bytes (r ++ x) n = Some v.
Proof.
  unfold first_bytes. dif as E1; [done|]. intros [= <-].
  rewrite len_app. pose proof (len_nonneg x). dif as E2; [lia|]. f_equal.
  apply take_app_le. unfold len in *. lia.
Qed.
Lemma first_bytes_Some r n v :
  first_bytes r n = Some v ↔ 0 ≤ n ≤ len r ∧ v = take (Z.to_nat n) r.
Proof. unfold first_bytes. dif as E; split; intros; naive_solver lia. Qed.
Lemma first_bytes_fits r n : 0 ≤ n ≤ len r → first_bytes r n = Some (take (Z.to_nat n) r).
Proof. intros. by apply first_bytes_Some. Qed.

Lemma consume_ok p n :
  input_ok p → 0 ≤ n ≤ len (rest p) → ∃ p', consume p n = (p', Ok ()) ∧ advanced p p' n.
Proof.
  intros Hok Hn. pose proof (len_rest p Hok) as Hr. pose proof Hok as (Hc & H4 & Ho & Hb).
  unfold consume. rewrite available_rest, Zgt_false, checked_add_fits by (done || lia).
  rewrite try_from_fits by lia. cbn [set_input absolute_offset consumed buffer].
  rewrite checked_add_fits by lia. cbn [set_input absolute_offset consumed buffer].
  assert (Hd : drop (Z.to_nat n) (rest p) = drop (Z.to_nat (consumed p + n)) (buffer p)).
  { unfold rest. rewrite drop_drop. f_equal. lia. }
  assert (Hl : len (drop (Z.to_nat n) (rest p)) = len (rest p) - n)
    by (apply len_take_drop; lia).
  dif as E; eexists; (split; [done|]); split; try done; unfold rest, input_ok;
    cbn [set_input absolute_offset consumed buffer rest]; try done.
  all: unfold rest at 1; cbn [set_input absolute_offset consumed buffer].
  all: rewrite <- ?Hd; try done; rewrite ?Hl; change (Z.to_nat 0) with 0%nat;
    rewrite ?drop_0, ?Hl; lia.
Qed.

(** ** Simulation

    [extends x f p q]: [q] is [p] with the bytes [x] behind its input and the end of the
    input declared or not ([f]). *)
Record extends (x : list byte) (f : bool) (p q : StreamArchiveParser) : Prop := {
  ext_state : state q = state p;
  ext_archive : archive q = archive p;
  ext_pending : pending_entry q = pending_entry p;
  ext_offset : absolute_offset q = absolute_offset p;
  ext_rest : rest q = rest p ++ x;
  ext_finalized : finalized q = f;
  ext_ok : input_ok p;
  ext_ok' : input_ok q }.

Section simulation.
Context {B : Bitflags} {Comp : Compression.Compressors} {Ciph : Crypto.Ciphers} {K : Kms.Kdfs}.
Context (oc : bool) (options : ArchiveReaderOptions) (key_provider : option Kms.KeyProvider).

(** The input stops inside the five-byte prefix of the KMS extension of a header. *)
Definition kms_gap (p : StreamArchiveParser) : bool :=
  bool_decide (state p = NeedGlobalHeader) &&
  let r := rest p in
  let flags_size := le_val (slice r 6 8) in
  let flags := from_bits_truncate GlobalFlags.all (le_val (slice r 8 12)) in
  let start := 8 + flags_size
    + (if contains flags GlobalFlags.PARTITIONED_ARCHIVE then 96 else 0) in
  (8 + flags_size <=? len r) && contains flags GlobalFlags.ENCRYPTED
  && (start <=? len r) && (len r <? start + 5).

Lemma consume_ext x f p q n :
  extends x f p q → 0 ≤ n ≤ len (rest p) →
  ∃ p' q', consume p n = (p', Ok ()) ∧ consume q n = (q', Ok ()) ∧ advanced p p' n
    ∧ extends x f p' q'.
Proof.
  intros E Hn. destruct E. pose proof (len_nonneg x).
  destruct (consume_ok p n) as (p' & Hp & Ap); [done..|].
  destruct (consume_ok q n) as (q' & Hq & Aq); [done|rewrite ext_rest0, len_app; lia|].
  exists p', q'. split_and!; [done..|]. destruct Ap, Aq.
  split; try congruence.
  rewrite adv_rest1, ext_rest0, adv_rest0. apply drop_app_le. unfold len in *. lia.
Qed.

Lemma slice_take {A} (l : list A) n a b : 0 ≤ a → b ≤ n → slice (take (Z.to_nat n) l) a b = slice l a b.
Proof.
  intros Ha Hb. unfold slice. rewrite skipn_firstn_comm, take_take. f_equal. lia.
Qed.
Lemma u16_le_slice {E} l i v : @u16_le E l i = Ok v → le_val (slice l i (i + 2)) = v.
Proof. intros (_ & _ & Hv & ->)%u16_le_Ok. by apply le_val_bytes. Qed.
Lemma u32_le_slice {E} l i v : @u32_le E l i = Ok v → le_val (slice l i (i + 4)) = v.
Proof. intros (_ & _ & Hv & ->)%u32_le_Ok. by apply le_val_bytes. Qed.

Lemma bind_ext {E A C} (m : result E A) (f g : A → result E C) :
  (∀ a, m = Ok a → f a = g a) → m ≫= f = m ≫= g.
Proof. destruct m; cbn; auto. Qed.

(** What is there stays there, and nothing else is there when nothing is added. *)
Lemma peek_ext x f p q n v : extends x f p q → peek p n = Some v → peek q n = Some v.
Proof. intros []. rewrite !peek_rest, ext_rest0 by done. apply first_bytes_app. Qed.
Lemma peek_there p n :
  input_ok p → 0 ≤ n ≤ len (rest p) → peek p n = Some (take (Z.to_nat n) (rest p)).
Proof. intros. rewrite peek_rest by done. by apply first_bytes_fits. Qed.
Lemma peek_same f p q n : extends [] f p q → peek q n = peek p n.
Proof. intros []. by rewrite !peek_rest, ext_rest0, app_nil_r by done. Qed.
Lemma available_ext x f p q : extends x f p q → available q = available p + len x.
Proof. intros []. by rewrite !available_rest, ext_rest0, len_app by done. Qed.

(** Where the KMS prefix starts. *)
Definition kms_start (flags flags_size : Z) : Z :=
  8 + flags_size + (if contains flags GlobalFlags.PARTITIONED_ARCHIVE then 96 else 0).
Lemma required_kms_ext x f p q flags fs needed :
  extends x f p q → 0 ≤ fs →
  x = [] ∨ contains flags GlobalFlags.ENCRYPTED = false ∨ kms_start flags fs + 5 ≤ len (rest p) →
  required_kms_bytes options q flags fs needed = required_kms_bytes options p flags fs needed.
Proof.
  intros E Hfs H. unfold required_kms_bytes.
  destruct (contains flags GlobalFlags.ENCRYPTED); [|done].
  set (start := if contains flags GlobalFlags.PARTITIONED_ARCHIVE then 8 + fs + 96 else 8 + fs).
  assert (Hs : start = kms_start flags fs) by (unfold start, kms_start; case_match; lia).
  assert (H0 : 0 ≤ start) by (unfold start; case_match; lia).
  rewrite (available_ext x f p q E). pose proof E as []. pose proof (len_nonneg x).
  destruct H as [->|[?|H]]; [|done|].
  - by rewrite len_nil, Z.add_0_r, (peek_same f p q _ E).
  - rewrite available_rest by done. rewrite !(Zge_true _ (start + 5)) by lia.
    pose proof (peek_there p (start + 5) ext_ok0 ltac:(lia)) as Hp.
    by rewrite Hp, (peek_ext _ _ _ _ _ _ E Hp).
Qed.
Lemma required_kms_short p flags fs needed :
  input_ok p → len (rest p) < kms_start flags fs + 5 →
  required_kms_bytes options p flags fs needed = Ok needed.
Proof.
  intros Hok Hl. unfold required_kms_bytes, kms_start in *. destruct (contains flags GlobalFlags.ENCRYPTED); [|done].
  rewrite available_rest by done. case_match; by replace (_ >=? _) with false by lia.
Qed.

(** How many bytes the header needs does not depend on what follows, unless the input
    stops inside the KMS prefix. *)
Lemma required_ext x f p q :
  extends x f p q → kms_gap p = false ∨ x = [] → state p = NeedGlobalHeader →
  match required_global_header_bytes options p with
  | Ok (Some n) => n ≤ len (rest p) ∨ x = [] → required_global_header_bytes options q = Ok (Some n)
  | Ok None => len (rest p) < 8
  | r => required_global_header_bytes options q = r
  end.
Proof.
  intros E Hgap Hst. pose proof (available_ext x f p q E) as Hav. pose proof E as [].
  pose proof (len_nonneg x). pose proof (available_rest p ext_ok0) as Hap.
  unfold required_global_header_bytes. destruct (peek p 8) as [fixed|] eqn:E8.
  2: { rewrite peek_rest in E8 by done. unfold first_bytes in E8. case_match; [lia|done]. }
  rewrite (peek_ext _ _ _ _ _ _ E E8). rewrite peek_rest in E8 by done.
  apply first_bytes_Some in E8 as [H8 ->].
  destruct (slice_r _ 0 4) as [magic| |]; [|done..]. cbn [mbind result_bind]. dif as Em; [done|].
  destruct (u16_le _ 6) as [fs| |] eqn:Efs; [|done..]. cbn [mbind result_bind].
  apply u16_le_slice in Efs. rewrite slice_take in Efs by lia. change (6 + 2) with 8 in Efs.
  dif as E4; [done|]. destruct (check_global_flags_bytes _ _); [|done..]. cbn [mbind result_bind].
  destruct (checked_add 64 8 fs) as [needed|] eqn:En; [|done]. cbn [ok_or mbind result_bind].
  apply checked_add_Some in En as [-> _].
  destruct (available p >=? 8 + fs) eqn:Eav.
  2: { intros [Hn| ->]; [lia|]. rewrite len_nil in Hav. by rewrite Hav, Z.add_0_r, Eav. }
  rewrite (Zge_true (available q)) by lia.
  pose proof (peek_there p (8 + fs) ext_ok0 ltac:(lia)) as Hpn.
  rewrite Hpn, (peek_ext _ _ _ _ _ _ E Hpn). cbn [ok_or mbind result_bind].
  destruct (u32_le _ 8) as [low| |] eqn:Elow; [|done..]. cbn [mbind result_bind].
  apply u32_le_slice in Elow. rewrite slice_take in Elow by lia. change (8 + 4) with 12 in Elow.
  set (flags := from_bits_truncate GlobalFlags.all low).
  assert (Hst' : (if contains flags GlobalFlags.PARTITIONED_ARCHIVE
                  then ok_or (checked_add 64 (8 + fs) 96) (SarError.Overflow "partition descriptor size")
                  else Ok (8 + fs)) = Ok (kms_start flags fs)).
  { unfold kms_start. case_match; [|f_equal; lia]. rewrite checked_add_fits; [done|].
    pose proof (le_val_range (slice (rest p) 6 8)) as Hv. rewrite Efs, len_slice in Hv by lia. lia. }
  rewrite Hst'. cbn [mbind result_bind].
  destruct (decide (x = [] ∨ contains flags GlobalFlags.ENCRYPTED = false
                    ∨ kms_start flags fs + 5 ≤ len (rest p))) as [Hx|Hx].
  { rewrite (required_kms_ext x f p q) by (done || lia). by destruct (required_kms_bytes _ p _ _ _). }
  rewrite (required_kms_short p) by (done || lia). cbn [mbind result_bind]. intros Hn. exfalso.
  destruct Hgap as [Hgap| ->]; [|tauto]. destruct Hn as [Hn| ->]; [|tauto].
  unfold kms_gap in Hgap. rewrite bool_decide_true in Hgap by done.
  rewrite Efs, Elow in Hgap. fold flags in Hgap. fold (kms_start flags fs) in Hgap.
  destruct (contains flags GlobalFlags.ENCRYPTED); [lia|tauto].
Qed.

(** A pass of [p] is matched by a pass of its extension: the same result, and parsers
    that are again in the relation.  [NeedMore] leaves the parser alone. *)
Definition turn_ext (x : list byte) (f : bool) (p : StreamArchiveParser) (t t' : Turn) : Prop :=
  match t with
  | Return p' (Ok (NeedMore _)) => p' = p ∧ finalized p = false
  | Return p' r => ∃ q', t' = Return q' r ∧ extends x f p' q'
  | Continue p' => ∃ q', t' = Continue q' ∧ extends x f p' q'
  end.
(** Either [p] may still be fed, or nothing is added at all. *)
Definition open_or_same (x : list byte) (f : bool) (p : StreamArchiveParser) : Prop :=
  finalized p = false ∨ x = [] ∧ finalized p = f.

Lemma ext_set_state x f p q s : extends x f p q → extends x f (set_state p s) (set_state q s).
Proof. intros []. by split. Qed.
Lemma ext_set_archive x f p q a : extends x f p q → extends x f (set_archive p a) (set_archive q a).
Proof. intros []. by split. Qed.
Lemma ext_set_pending x f p q e : extends x f p q → extends x f (set_pending p e) (set_pending q e).
Proof. intros []. by split. Qed.
#[local] Hint Resolve ext_set_state ext_set_archive ext_set_pending : core.

Lemma turn_ext_return x f p p0 q r :
  extends x f p q → (∀ m, r ≠ Ok (NeedMore m)) → turn_ext x f p0 (Return p r) (Return q r).
Proof. intros E Hr. destruct r as [[m| |]| |]; try by exists q. by destruct (Hr m). Qed.
Lemma turn_ext_continue x f p p0 q :
  extends x f p q → turn_ext x f p0 (Continue p) (Continue q).
Proof. intros E. by exists q. Qed.
Lemma turn_ext_error x f p q e :
  extends x f p q → turn_ext x f p (set_error p e) (set_error q e).
Proof. intros E. apply turn_ext_return; auto. Qed.
Lemma turn_ext_try {A} x f p0 p q (r : result SarError.t A) k k' :
  extends x f p q → (∀ a, r = Ok a → turn_ext x f p0 (k a) (k' a)) →
  turn_ext x f p0 (try_ p r k) (try_ q r k').
Proof. intros E Hk. destruct r; cbn [try_]; [by apply Hk|by apply turn_ext_return..]. Qed.
Lemma turn_ext_consume x f p q n k k' :
  extends x f p q → 0 ≤ n ≤ len (rest p) →
  (∀ p' q', extends x f p' q' → turn_ext x f p (k p' ()) (k' q' ())) →
  turn_ext x f p (try_mut (consume p n) k) (try_mut (consume q n) k').
Proof.
  intros E Hn Hk. destruct (consume_ext x f p q n E Hn) as (p' & q' & -> & -> & _ & E').
  by apply Hk.
Qed.
(** A parser at the end of its input is extended by nothing. *)
Ltac closed_input Ho Ef :=
  let H := fresh in
  destruct Ho as [?|[-> H]]; [congruence|]; rewrite Ef in H; rewrite <- H in *; clear H.
(** Too few bytes: wait for more, or fail at the end of the input. *)
Lemma turn_ext_wait x f p q n e m t t' :
  extends x f p q → open_or_same x f p → (n ≤ len (rest p) → turn_ext x f p t t') →
  turn_ext x f p
    (if available p <? n then if finalized p then set_error p e else Return p (Ok (NeedMore m)) else t)
    (if available q <? n then if finalized q then set_error q e else Return q (Ok (NeedMore m)) else t').
Proof.
  intros E Ho Ht. pose proof E as []. rewrite !available_rest by done.
  destruct (Z.ltb_spec (len (rest p)) n).
  - destruct (finalized p) eqn:Ef; [|done]. closed_input Ho Ef.
    rewrite ext_rest0, app_nil_r, (proj2 (Z.ltb_lt _ _)), ext_finalized0 by done.
    by apply turn_ext_error.
  - rewrite ext_rest0, len_app. pose proof (len_nonneg x).
    rewrite (proj2 (Z.ltb_ge _ _)) by lia. by apply Ht.
Qed.
(** The bytes that are there are the same. *)
Lemma turn_ext_peek x f p q n e k k' :
  extends x f p q → n ≤ len (rest p) →
  (∀ v, 0 ≤ n → turn_ext x f p (k v) (k' v)) →
  turn_ext x f p (try_ p (ok_or (peek p n) e) k) (try_ q (ok_or (peek q n) e) k').
Proof.
  intros E Hn Hk. pose proof E as []. rewrite !peek_rest, ext_rest0 by done.
  destruct (first_bytes (rest p) n) as [v|] eqn:Ev.
  - rewrite (first_bytes_app _ _ _ _ Ev). apply first_bytes_Some in Ev as [? _]. apply Hk; lia.
  - unfold first_bytes in *. rewrite len_app. pose proof (len_nonneg x).
    destruct (_ || _) eqn:E1 in Ev; [|done].
    replace ((n <? 0) || (len (rest p) + len x <? n)) with true by lia.
    by apply turn_ext_return.
Qed.

Lemma payload_turn_ext x f p q :
  extends x f p q → open_or_same x f p →
  turn_ext x f p (payload_turn options p) (payload_turn options q).
Proof.
  intros E Ho. pose proof E as []. unfold payload_turn. rewrite ext_pending0.
  destruct (pending_entry p) as [pending|]; [|by apply turn_ext_return].
  apply turn_ext_try; [done|]. intros n _. apply turn_ext_wait; [done..|]. intros Hn.
  apply turn_ext_peek; [done..|]. intros v Hv. apply turn_ext_consume; [done|lia|].
  intros p' q' E'. apply turn_ext_continue. auto.
Qed.
Lemma lfh_turn_ext x f p q a :
  extends x f p q → open_or_same x f p → 4 ≤ len (rest p) →
  turn_ext x f p (lfh_turn options p a) (lfh_turn options q a).
Proof.
  intros E Ho H4. unfold lfh_turn. apply turn_ext_peek; [done..|]. intros hs _.
  do 2 (apply turn_ext_try; [done|]; intros ? _). case_match; [by apply turn_ext_error|].
  apply turn_ext_wait; [done..|]. intros Hn. apply turn_ext_peek; [done..|]. intros bs Hn0.
  apply turn_ext_try; [done|]. intros [lfh n] _. case_match eqn:En; [by apply turn_ext_error|].
  apply turn_ext_consume; [done|lia|]. intros p' q' E'.
  assert (Hoff : absolute_offset q' = absolute_offset p') by apply E'. rewrite Hoff.
  apply turn_ext_try; [done|]. intros ? _. apply turn_ext_continue. auto.
Qed.
Lemma local_file_header_turn_ext x f p q :
  extends x f p q → open_or_same x f p →
  turn_ext x f p (local_file_header_turn options p) (local_file_header_turn options q).
Proof.
  intros E Ho. pose proof E as []. unfold local_file_header_turn. rewrite ext_archive0.
  destruct (archive p) as [a|]; [|by apply turn_ext_return].
  rewrite !available_rest, ext_rest0, len_app by done.
  pose proof (len_nonneg x). pose proof (len_nonneg (rest p)).
  destruct (Z.eqb_spec (len (rest p)) 0) as [Hz|Hz].
  - destruct (finalized p) eqn:Ef; [|done]. closed_input Ho Ef.
    rewrite len_nil, Hz, ext_finalized0. cbn. eexists. split; [done|]. by apply ext_set_state.
  - rewrite (proj2 (Z.eqb_neq (len (rest p) + len x) 0)) by lia.
    destruct (len (rest p) >=? 4) eqn:E4.
    + rewrite Zge_true by lia. apply turn_ext_peek; [done|lia|]. intros v _.
      case_match; [by apply turn_ext_continue, ext_set_state|]. apply lfh_turn_ext; [done..|lia].
    + destruct (finalized p) eqn:Ef; [|done]. closed_input Ho Ef.
      rewrite len_nil, Z.add_0_r, E4, ext_finalized0. by apply turn_ext_error.
Qed.
Lemma required_short p :
  input_ok p → len (rest p) < 8 → required_global_header_bytes options p = Ok None.
Proof.
  intros Hok H. unfold required_global_header_bytes. rewrite peek_rest by done.
  unfold first_bytes. by replace ((8 <? 0) || (len (rest p) <? 8)) with true by lia.
Qed.
Lemma global_header_turn_ext x f p q :
  extends x f p q → state p = NeedGlobalHeader →
  finalized p = false ∧ kms_gap p = false ∨ x = [] ∧ finalized p = f →
  turn_ext x f p (global_header_turn options p) (global_header_turn options q).
Proof.
  intros E Hst Ho. pose proof E as [].
  assert (Ho' : open_or_same x f p) by (unfold open_or_same; tauto).
  assert (Hg : kms_gap p = false ∨ x = []) by tauto.
  pose proof (required_ext x f p q E Hg Hst) as Hreq.
  pose proof (len_nonneg x). pose proof (len_nonneg (rest p)). unfold global_header_turn.
  rewrite (available_rest p), (available_rest q), ext_rest0, len_app by done.
  destruct (decide (len (rest p) < 8)) as [H8|H8].
  { rewrite (required_short p) by done. destruct (finalized p) eqn:Ef.
    - closed_input Ho' Ef. rewrite (required_short q) by (done || by rewrite ext_rest0, app_nil_r).
      replace (len (rest p) + len (@nil byte)) with (len (rest p)) by (rewrite len_nil; lia).
      rewrite ext_finalized0. cbn [try_].
      destruct (true && _); [by apply turn_ext_return|by apply turn_ext_error].
    - done. }
  rewrite (proj2 (Z.eqb_neq (len (rest p)) 0)), (proj2 (Z.eqb_neq (_ + _) 0)), !andb_false_r by lia.
  destruct (required_global_header_bytes options p) as [[needed|]| |] eqn:Er; [|lia|..].
  2,3: rewrite Hreq; by apply turn_ext_return.
  destruct (decide (needed ≤ len (rest p) ∨ x = [])) as [Hn|Hn].
  2: { destruct Ho as [[Ef _]|[-> _]]; [|tauto]. cbn [try_].
       by rewrite (proj2 (Z.ltb_lt (len (rest p)) needed)), Ef by lia. }
  rewrite Hreq by done. cbn [try_].
  rewrite <- len_app, <- ext_rest0, <- (available_rest p), <- (available_rest q) by done.
  apply turn_ext_wait; [done..|]. intros Hle. apply turn_ext_peek; [done..|]. intros input H0'.
  apply turn_ext_try; [done|]. intros [header n] _. destruct (Z.eqb_spec n needed); cbn [negb].
  2: by apply turn_ext_error.
  apply turn_ext_try; [done|]. intros _ _. apply turn_ext_consume; [done|lia|].
  intros p' q' E'. by apply turn_ext_return; [apply ext_set_state, ext_set_archive|].
Qed.

(** Decoding does not look at the input. *)
Lemma decode_pending_ext x f p q :
  extends x f p q →
  ∃ q', decode_pending_entry oc options key_provider q
        = (q', (decode_pending_entry oc options key_provider p).2)
    ∧ extends x f (decode_pending_entry oc options key_provider p).1 q'.
Proof.
  intros E. pose proof E as []. unfold decode_pending_entry. rewrite ext_archive0, ext_pending0.
  destruct (archive p) as [a|]; [|by exists q]. destruct (pending_entry p) as [pe|]; [|by exists q].
  destruct (ok_or _ _ ≫= _) as [[entry count]| |]; cbn [fst snd]; eexists; (split; [done|]); auto.
Qed.

(** The condition under which more input does not change what a pass does. *)
Definition stable (x : list byte) (f : bool) (p : StreamArchiveParser) : Prop :=
  finalized p = false ∧ kms_gap p = false ∨ x = [] ∧ finalized p = f.

Lemma step_once_ext x f p q :
  extends x f p q → stable x f p →
  turn_ext x f p (step_once oc options key_provider p) (step_once oc options key_provider q).
Proof.
  intros E Ho. assert (Ho' : open_or_same x f p) by (unfold open_or_same, stable in *; tauto).
  pose proof E as []. unfold step_once. rewrite ext_state0. destruct (state p) eqn:Hst.
  - by apply global_header_turn_ext.
  - by apply local_file_header_turn_ext.
  - by apply payload_turn_ext.
  - destruct (decode_pending_ext x f p q E) as (q' & -> & E').
    destruct (decode_pending_entry _ _ _ p) as [p' r]. cbn [try_mut fst snd] in *.
    apply turn_ext_try; [done|]. intros e _. by apply turn_ext_return; [apply ext_set_state|].
  - by apply turn_ext_continue, ext_set_state.
  - by apply turn_ext_error.
  - unfold archive_complete_turn. rewrite ext_archive0.
    destruct (archive p); [|by apply turn_ext_return].
    by apply turn_ext_return; [apply ext_set_state, ext_set_pending, ext_set_archive|].
  - by apply turn_ext_return.
Qed.

(** ** Progress

    The passes a state can still take within one [step], and a measure of the input and
    the state that every event lowers. *)
Definition rank (s : StreamParseState) : nat :=
  match s with EntryReady => 4 | NeedLocalFileHeader => 3 | NeedPayload => 2 | _ => 1 end.
Definition state_weight (s : StreamParseState) : Z :=
  match s with
  | NeedGlobalHeader | NeedCentralDictionaryOrFooter | Error => 0
  | ArchiveComplete => 1
  | NeedLocalFileHeader | EntryReady => 2
  | NeedPayload | TransformingEntry => 3
  end.
Definition weight (p : StreamArchiveParser) : Z := 8 * len (rest p) + state_weight (state p).

(** The input is still well formed and at most as long as before. *)
Record later (p p' : StreamArchiveParser) : Prop := {
  later_ok : input_ok p'; later_finalized : finalized p' = finalized p;
  later_rest : len (rest p') ≤ len (rest p);
  later_total : absolute_offset p' + len (rest p') = absolute_offset p + len (rest p) }.
Definition progress (p : StreamArchiveParser) (t : Turn) : Prop :=
  match t with
  | Continue p' =>
      later p p' ∧ state p' ≠ NeedGlobalHeader ∧ (rank (state p') < rank (state p))%nat
      ∧ weight p' ≤ weight p
  | Return p' (Ok (Ready _)) => later p p' ∧ weight p' < weight p
  | Return p' (Ok (NeedMore _)) => p' = p ∧ finalized p = false
  | Return p' (Ok Complete) => finalized p = true
  | Return _ _ => True
  end.

Lemma progress_try {A} p p0 (r : result SarError.t A) k :
  (∀ a, r = Ok a → progress p (k a)) → progress p (try_ p0 r k).
Proof. intros Hk. destruct r; cbn [try_]; [by apply Hk|done..]. Qed.
Lemma progress_wait p n m e t :
  input_ok p → (n ≤ len (rest p) → progress p t) →
  progress p (if available p <? n
              then if finalized p then set_error p e else Return p (Ok (NeedMore m)) else t).
Proof.
  intros Hok Ht. rewrite available_rest by done. destruct (Z.ltb_spec (len (rest p)) n); [|auto].
  by destruct (finalized p) eqn:?.
Qed.
Lemma progress_consume p n k :
  input_ok p → 0 ≤ n ≤ len (rest p) →
  (∀ p', later p p' → len (rest p') = len (rest p) - n → progress p (k p' ())) →
  progress p (try_mut (consume p n) k).
Proof.
  intros Hok Hn Hk. destruct (consume_ok p n Hok Hn) as (p' & -> & []). apply Hk.
  - split; [done..| |]; rewrite adv_rest0; pose proof (len_take_drop (rest p) n Hn); lia.
  - rewrite adv_rest0. pose proof (len_take_drop (rest p) n Hn). lia.
Qed.
Lemma later_refl p : input_ok p → later p p.
Proof. by split. Qed.

Lemma required_kms_grows p gf fs needed n :
  required_kms_bytes options p gf fs needed = Ok n → needed ≤ n.
Proof.
  unfold required_kms_bytes. intros H. case_match; [|inv_ok; lia]. case_match; [|inv_ok; lia].
  inv_ok. reads_inv. unfold fits in *.
  match goal with H : _ ≫= _ = Some n |- _ => apply bind_Some in H as (v & ? & ?) end.
  inv_ok. lia.
Qed.
Lemma required_pos p n : required_global_header_bytes options p = Ok (Some n) → 0 < n.
Proof.
  unfold required_global_header_bytes. destruct (peek p 8) as [fixed|]; [|done].
  intros H. inv_ok. destruct (available p >=? _); inv_ok; [|lia].
  match goal with H : required_kms_bytes _ _ _ _ _ = _ |- _ => apply required_kms_grows in H end.
  case_match; inv_ok; lia.
Qed.
Lemma global_header_progress p :
  input_ok p → state p = NeedGlobalHeader → progress p (global_header_turn options p).
Proof.
  intros Hok Hst. unfold global_header_turn.
  destruct (finalized p && _) eqn:Ef; [by apply andb_true_iff in Ef as [? _]|].
  apply progress_try. intros [needed|] Hr; [|by destruct (finalized p) eqn:?].
  apply required_pos in Hr. apply progress_wait; [done|]. intros Hn.
  do 2 (apply progress_try; intros ? _). case_match; subst. case_match eqn:En; [done|].
  apply progress_try; intros _ _. apply progress_consume; [done|lia|]. intros p' L Hl. split.
  - by destruct L.
  - unfold weight. change (rest (set_state _ _)) with (rest p'). rewrite Hl, Hst.
    cbn [set_state state]. case_match; cbn [state_weight]; lia.
Qed.
Lemma lfh_progress p a :
  input_ok p → state p = NeedLocalFileHeader → progress p (lfh_turn options p a).
Proof.
  intros Hok Hst. unfold lfh_turn. do 3 (apply progress_try; intros ? _).
  case_match; [done|]. apply progress_wait; [done|]. intros Hn.
  do 2 (apply progress_try; intros ? _). case_match; subst. case_match eqn:En; [done|].
  apply progress_consume; [done|lia|]. intros p' L Hl. apply progress_try; intros _ _.
  split_and!; [by destruct L|done|rewrite Hst; cbn; lia|].
  unfold weight. change (rest (set_state _ _)) with (rest p'). rewrite Hl, Hst. cbn. lia.
Qed.
Lemma local_file_header_progress p :
  input_ok p → state p = NeedLocalFileHeader → progress p (local_file_header_turn options p).
Proof.
  intros Hok Hst. unfold local_file_header_turn. destruct (archive p) as [a|]; [|done].
  assert (Hdone : progress p (Continue (set_state p ArchiveComplete))).
  { split_and!; [by destruct (later_refl p Hok)|done|rewrite Hst; cbn; lia|].
    unfold weight. change (rest (set_state _ _)) with (rest p). rewrite Hst. cbn. lia. }
  case_match; [by destruct (finalized p) eqn:?|]. case_match; [|by destruct (finalized p) eqn:?].
  apply progress_try. intros v _. case_match; [done|]. by apply lfh_progress.
Qed.
Lemma payload_progress p :
  input_ok p → state p = NeedPayload → progress p (payload_turn options p).
Proof.
  intros Hok Hst. unfold payload_turn. destruct (pending_entry p) as [pe|]; [|done].
  apply progress_try. intros n Hn. apply progress_wait; [done|]. intros Hle.
  apply progress_try. intros v Hv. apply progress_consume; [done| |].
  { rewrite peek_rest in Hv by done. destruct (first_bytes _ _) as [w|] eqn:Ev; [|done].
    by apply first_bytes_Some in Ev as [? _]. }
  intros p' L Hl. split_and!; [by destruct L|done|rewrite Hst; cbn; lia|].
  unfold weight. change (rest (set_state _ _)) with (rest p'). rewrite Hst.
  destruct L. cbn. lia.
Qed.

Lemma decode_pending_later p :
  input_ok p →
  let p' := (decode_pending_entry oc options key_provider p).1 in
  later p p' ∧ rest p' = rest p ∧ state p' = state p.
Proof.
  intros Hok. pose proof (later_refl p Hok) as L. unfold decode_pending_entry.
  destruct (archive p); [|done]. destruct (pending_entry p); [|done].
  destruct (ok_or _ _ ≫= _) as [[]| |]; (split_and!; [by destruct L|done..]).
Qed.
Lemma step_once_progress p : input_ok p → progress p (step_once oc options key_provider p).
Proof.
  intros Hok. unfold step_once. pose proof (later_refl p Hok) as L. destruct (state p) eqn:Hst.
  - by apply global_header_progress.
  - by apply local_file_header_progress.
  - by apply payload_progress.
  - destruct (decode_pending_later p Hok) as (L' & Hr & Hs).
    destruct (decode_pending_entry _ _ _ p) as [p' r]. cbn [try_mut fst snd] in *.
    apply progress_try. intros e _. split; [by destruct L'|]. unfold weight.
    change (rest (set_state _ _)) with (rest p'). rewrite Hr, Hst. cbn. lia.
  - split_and!; [by destruct L|done|rewrite Hst; cbn; lia|].
    unfold weight. change (rest (set_state _ _)) with (rest p). rewrite Hst. cbn. lia.
  - done.
  - unfold archive_complete_turn. destruct (archive p); [|done]. split; [by destruct L|].
    unfold weight. change (rest (set_state _ _)) with (rest p). rewrite Hst. cbn. lia.
  - done.
Qed.

(** Four passes are enough: [step] is the loop of the code. *)
Lemma step_loop_enough n m p :
  input_ok p → (rank (state p) ≤ n)%nat → (rank (state p) ≤ m)%nat →
  step_loop oc options key_provider n p = step_loop oc options key_provider m p.
Proof.
  revert m p. induction n as [|n IH]; intros m p Hok Hn Hm; [destruct (state p); cbn in Hn; lia|].
  destruct m as [|m]; [destruct (state p); cbn in Hm; lia|]. cbn [step_loop].
  pose proof (step_once_progress p Hok) as Hp. destruct (step_once _ _ _ p) as [|p']; [done|].
  destruct Hp as ([] & _ & Hr & _). apply IH; [done|lia..].
Qed.
Lemma rank_le s : (rank s ≤ 4)%nat.
Proof. destruct s; cbn; lia. Qed.
Lemma step_unfold p :
  input_ok p →
  step oc options key_provider p
  = match step_once oc options key_provider p with
    | Return p' r => (p', r) | Continue p' => step oc options key_provider p'
    end.
Proof.
  intros Hok. unfold step. pose proof (rank_le (state p)).
  rewrite (step_loop_enough 4 5 p) by (done || lia). cbn [step_loop].
  pose proof (step_once_progress p Hok) as Hp. by destruct (step_once _ _ _ p).
Qed.

(** What a whole step does to the input and the measure. *)
Lemma step_progress p :
  input_ok p →
  match step oc options key_provider p with
  | (p', Ok (Ready _)) => later p p' ∧ weight p' < weight p
  | (p', Ok (NeedMore _)) => later p p' ∧ finalized p = false
  | (p', Ok Complete) => finalized p = true
  | _ => True
  end.
Proof.
  remember (rank (state p)) as n eqn:Hn. revert p Hn.
  induction (lt_wf n) as [n _ IH]; intros p -> Hok. rewrite step_unfold by done.
  pose proof (step_once_progress p Hok) as Hp. destruct (step_once _ _ _ p) as [p' [[]| |]|p']; cbn in Hp; try done.
  - destruct Hp as [-> ?]. by split; [apply later_refl|].
  - destruct Hp as ([] & _ & Hr & Hw). specialize (IH _ Hr p' eq_refl later_ok0).
    destruct (step _ _ _ p') as [p'' [[]| |]]; try done.
    + destruct IH as [[] ?]. split; [split; [done|congruence|lia..]|congruence].
    + destruct IH as [[] ?]. split; [split; [done|congruence|lia..]|lia].
    + congruence.
Qed.

(** A step of a parser is matched by a step of its extension, unless it waits for input:
    then the extension takes the same step as the waiting parser would when extended. *)
Lemma step_ext x f p q :
  extends x f p q → stable x f p →
  match step oc options key_provider p with
  | (p', Ok (NeedMore _)) =>
      ∃ q', extends x f p' q' ∧ input_ok q' ∧ finalized p' = false
        ∧ step oc options key_provider q = step oc options key_provider q'
  | (p', r) => ∃ q', step oc options key_provider q = (q', r) ∧ extends x f p' q'
  end.
Proof.
  remember (rank (state p)) as n eqn:Hn. revert p q Hn.
  induction (lt_wf n) as [n _ IH]; intros p q -> E Hs. pose proof E as [].
  rewrite (step_unfold p) by done.
  pose proof (step_once_progress p ext_ok0) as Hp. pose proof (step_once_ext x f p q E Hs) as Ht.
  destruct (step_once _ _ _ p) as [p' r|p'].
  - destruct r as [[]| |]; cbn in Ht.
    1: { destruct Ht as [-> Hf]. by exists q. }
    all: destruct Ht as (q' & Hq & E'); exists q'; by rewrite (step_unfold q), Hq.
  - destruct Ht as (q' & Hq & E'). destruct Hp as (L & Hst & Hr & _).
    assert (Hs' : stable x f p').
    { destruct Hs as [[Hf _]|[-> Hf]]; [left|right]; rewrite (later_finalized p p' L); [|done].
      split; [done|]. unfold kms_gap. by rewrite bool_decide_false. }
    specialize (IH _ Hr p' q' eq_refl E' Hs'). rewrite (step_unfold q), Hq by done.
    destruct (step _ _ _ p') as [p'' [[]| |]]; done.
Qed.

(** ** Driving the parser

    A caller takes the events that are ready until the parser waits, is done or fails:
    [pump].  Every event lowers the measure, so it bounds the rounds. *)
Fixpoint pump_loop (fuel : nat) (p : StreamArchiveParser)
    : list StreamEvent * StreamArchiveParser * result SarError.t StreamStep :=
  match fuel with
  | O => ([], p, Panic)
  | S fuel =>
      match step oc options key_provider p with
      | (p', Ok (Ready ev)) => let '(evs, p'', r) := pump_loop fuel p' in (ev :: evs, p'', r)
      | (p', r) => ([], p', r)
      end
  end.
Definition pump (p : StreamArchiveParser)
    : list StreamEvent * StreamArchiveParser * result SarError.t StreamStep :=
  pump_loop (S (Z.to_nat (weight p))) p.

(** Feed the chunks one by one, taking the events after each, and declare the end. *)
Fixpoint drive (p : StreamArchiveParser) (chunks : list (list byte))
    : list StreamEvent * result SarError.t StreamStep :=
  match chunks with
  | [] => let '(evs, _, r) := pump (finalize_input p) in (evs, r)
  | c :: chunks =>
      match push_bytes options p c with
      | (p', Ok _) =>
          match pump p' with
          | (evs, p'', Ok (NeedMore _)) =>
              let '(evs', r) := drive p'' chunks in (evs ++ evs', r)
          | (evs, _, r) => (evs, r)
          end
      | (_, Err e) => ([], Err e)
      | (_, Panic) => ([], Panic)
      end
  end.
(** All the input at once: pushed, declared complete, and only then parsed. *)
Definition drive_whole (p : StreamArchiveParser) (input : list byte)
    : list StreamEvent * result SarError.t StreamStep :=
  match push_bytes options p input with
  | (p', Ok _) => let '(evs, _, r) := pump (finalize_input p') in (evs, r)
  | (_, Err e) => ([], Err e)
  | (_, Panic) => ([], Panic)
  end.

(** No step of the run sees a chunk that ends inside the KMS prefix of a header. *)
Fixpoint pump_gap_free (fuel : nat) (p : StreamArchiveParser) : bool :=
  match fuel with
  | O => true
  | S fuel =>
      negb (kms_gap p) &&
      match step oc options key_provider p with
      | (p', Ok (Ready _)) => pump_gap_free fuel p'
      | _ => true
      end
  end.
Fixpoint gap_free (p : StreamArchiveParser) (chunks : list (list byte)) : bool :=
  match chunks with
  | [] => true
  | c :: chunks =>
      match push_bytes options p c with
      | (p', Ok _) =>
          pump_gap_free (S (Z.to_nat (weight p'))) p' &&
          match pump p' with
          | (_, p'', Ok (NeedMore _)) => gap_free p'' chunks
          | _ => true
          end
      | _ => true
      end
  end.

Lemma weight_nonneg p : 0 ≤ weight p.
Proof. unfold weight. pose proof (len_nonneg (rest p)). destruct (state p); cbn; lia. Qed.
Lemma pump_loop_enough n m p :
  input_ok p → weight p < Z.of_nat n → weight p < Z.of_nat m → pump_loop n p = pump_loop m p.
Proof.
  revert m p. induction n as [|n IH]; intros m p Hok Hn Hm; pose proof (weight_nonneg p); [lia|].
  destruct m as [|m]; [lia|]. cbn [pump_loop]. pose proof (step_progress p Hok) as Hp.
  destruct (step _ _ _ p) as [p' [[]| |]]; try done. destruct Hp as [[] Hw].
  by rewrite (IH m) by (done || lia).
Qed.
Lemma pump_unfold p :
  input_ok p →
  pump p = match step oc options key_provider p with
           | (p', Ok (Ready ev)) => let '(evs, p'', r) := pump p' in (ev :: evs, p'', r)
           | (p', r) => ([], p', r)
           end.
Proof.
  intros Hok. unfold pump at 1. cbn [pump_loop]. pose proof (step_progress p Hok) as Hp.
  destruct (step _ _ _ p) as [p' [[]| |]]; try done. destruct Hp as [[] Hw].
  pose proof (weight_nonneg p'). pose proof (weight_nonneg p).
  unfold pump. by rewrite (pump_loop_enough _ (S (Z.to_nat (weight p')))) by (done || lia).
Qed.

(** Induction on the events still to come. *)
Lemma weight_ind (P : StreamArchiveParser → Prop) :
  (∀ p, (∀ p', weight p' < weight p → P p') → P p) → ∀ p, P p.
Proof.
  intros HP p. remember (Z.to_nat (weight p)) as n eqn:Hn. revert p Hn.
  induction (lt_wf n) as [n _ IH]. intros p ->. apply HP. intros p' Hw.
  pose proof (weight_nonneg p'). pose proof (weight_nonneg p). apply (IH (Z.to_nat (weight p'))); [lia|done].
Qed.

Lemma pump_waits p evs p' m :
  input_ok p → pump p = (evs, p', Ok (NeedMore m)) → finalized p = false ∧ later p p'.
Proof.
  revert evs. induction p as [p IH] using weight_ind. intros evs Hok.
  rewrite pump_unfold by done. pose proof (step_progress p Hok) as Hp.
  destruct (step _ _ _ p) as [p1 [[]| |]]; try done.
  - intros [= <- <- <-]. by destruct Hp.
  - destruct Hp as [[] Hw]. destruct (pump p1) as [[evs1 p1'] r1] eqn:E1. intros [= <- <- ->].
    destruct (IH p1 Hw evs1 later_ok0 E1) as [? []]. split; [congruence|]. split; [done|congruence|lia..].
Qed.

Lemma pump_gap_free_mono n m p :
  (n ≤ m)%nat → pump_gap_free m p = true → pump_gap_free n p = true.
Proof.
  revert m p. induction n as [|n IH]; intros [|m] p Hm; [done..|lia|]. cbn [pump_gap_free].
  rewrite !andb_true_iff. intros [? H]. split; [done|].
  destruct (step _ _ _ p) as [p' [[]| |]]; try done. apply (IH m); [lia|done].
Qed.

(** The events of a run are those of its extension, and where it waits the extension
    goes on. *)
Lemma pump_ext x f p q :
  extends x f p q →
  finalized p = false ∧ pump_gap_free (S (Z.to_nat (weight p))) p = true ∨ x = [] ∧ finalized p = f →
  match pump p with
  | (evs, p', Ok (NeedMore _)) =>
      ∃ q', extends x f p' q' ∧ pump q = (let '(evs', q'', r) := pump q' in (evs ++ evs', q'', r))
  | (evs, p', r) => ∃ q', pump q = (evs, q', r)
  end.
Proof.
  revert q. induction p as [p IH] using weight_ind. intros q E Hs. pose proof E as [].
  assert (Hs' : stable x f p).
  { destruct Hs as [[? Hg]|?]; [left|by right]. cbn [pump_gap_free] in Hg.
    apply andb_true_iff in Hg as [Hg _]. by apply negb_true_iff in Hg. }
  rewrite (pump_unfold p) by done. pose proof (step_ext x f p q E Hs') as Ht.
  pose proof (step_progress p ext_ok0) as Hp.
  destruct (step _ _ _ p) as [p1 [[m|ev|]| |]] eqn:Est.
  - destruct Ht as (q1 & E1 & Hok & _ & Hq). exists q1. split; [done|].
    rewrite !pump_unfold, Hq by done. destruct (step _ _ _ q1) as [q2 [[]| |]]; try done.
    by destruct (pump q2) as [[]].
  - destruct Ht as (q1 & Hq & E1). rewrite (pump_unfold q), Hq by done. destruct Hp as [L Hw].
    assert (H1 : finalized p1 = false ∧ pump_gap_free (S (Z.to_nat (weight p1))) p1 = true
                 ∨ x = [] ∧ finalized p1 = f).
    { rewrite (later_finalized _ _ L). destruct Hs as [[? Hg]|?]; [left; split; [done|]|by right].
      cbn [pump_gap_free] in Hg. rewrite Est in Hg. apply andb_true_iff in Hg as [_ Hg].
      pose proof (weight_nonneg p1). eapply pump_gap_free_mono; [|done]. lia. }
    specialize (IH p1 Hw q1 E1 H1).
    destruct (pump p1) as [[evs1 p2] [[]| |]]; destruct IH as (q2 & IH);
      try (by exists q2; rewrite IH). destruct IH as [E2 ->]. exists q2. split; [done|].
    by destruct (pump q2) as [[]].
  - destruct Ht as (q1 & Hq & _). exists q1. by rewrite (pump_unfold q), Hq.
  - destruct Ht as (q1 & Hq & _). exists q1. by rewrite (pump_unfold q), Hq.
  - destruct Ht as (q1 & Hq & _). exists q1. by rewrite (pump_unfold q), Hq.
Qed.

(** The bytes seen so far and those still to come fit the limit and the stream position. *)
Definition room (p : StreamArchiveParser) (n : Z) : Prop :=
  let total := absolute_offset p + len (rest p) + n in
  (0 < max_archive_size (limits options) → total ≤ max_archive_size (limits options))
  ∧ total < 2 ^ 64 - 4096.

(** Pushing appends, unless the limit on the archive is exceeded. *)
Lemma push_cases p c :
  input_ok p → absolute_offset p + len (rest p) + len c < 2 ^ 64 - 4096 →
  let total := absolute_offset p + len (rest p) + len c in
  if (max_archive_size (limits options) >? 0) && (total >? max_archive_size (limits options))
  then ∃ e, push_bytes options p c = (p, Err e)
  else ∃ p', push_bytes options p c = (p', Ok ()) ∧ input_ok p'
    ∧ state p' = state p ∧ archive p' = archive p ∧ pending_entry p' = pending_entry p
    ∧ absolute_offset p' = absolute_offset p ∧ finalized p' = finalized p
    ∧ rest p' = rest p ++ c.
Proof.
  intros Hok Hr total. pose proof (len_rest p Hok) as Hl. pose proof Hok as (Hc & H4 & Ho & Hb).
  pose proof (len_nonneg c). pose proof (len_nonneg (rest p)).
  unfold push_bytes, check_archive_size. rewrite available_rest by done.
  rewrite !try_from_fits by lia. cbn [ok_or mbind result_bind option_bind].
  rewrite checked_add_fits by lia. cbn [ok_or mbind result_bind option_bind].
  rewrite checked_add_fits by lia. cbn [ok_or mbind result_bind option_bind].
  fold total. destruct (_ && _); [by eexists|]. eexists. split; [done|].
  assert (Hrest : rest (set_input p (buffer p ++ c) (consumed p) (absolute_offset p)) = rest p ++ c).
  { unfold rest. cbn [set_input buffer consumed]. apply drop_app_le. unfold len in *. lia. }
  split_and!; try done. unfold input_ok. rewrite Hrest.
  cbn [set_input buffer consumed absolute_offset]. rewrite !len_app. lia.
Qed.
Lemma push_ok p c :
  input_ok p → room p (len c) →
  ∃ p', push_bytes options p c = (p', Ok ()) ∧ input_ok p'
    ∧ state p' = state p ∧ archive p' = archive p ∧ pending_entry p' = pending_entry p
    ∧ absolute_offset p' = absolute_offset p ∧ finalized p' = finalized p
    ∧ rest p' = rest p ++ c.
Proof.
  intros Hok [Hm Hr]. pose proof (push_cases p c Hok Hr) as H. cbv zeta in H.
  by replace (_ && _) with false in H by lia.
Qed.

Lemma drive_ext chunks p q :
  extends (concat chunks) true p q → finalized p = false → gap_free p chunks = true →
  room p (len (concat chunks)) →
  drive p chunks = let '(evs, _, r) := pump q in (evs, r).
Proof.
  revert p q. induction chunks as [|c chunks IH]; intros p q E Hf Hg Hr; pose proof E as [].
  - cbn [drive]. assert (E' : extends [] true (finalize_input p) q) by by split.
    pose proof (pump_ext [] true _ q E' (or_intror (conj eq_refl eq_refl))) as H.
    destruct (pump (finalize_input p)) as [[evs p'] [[m| |]| |]] eqn:Ep;
      try (by destruct H as [q' ->]).
    by apply pump_waits in Ep as [? _].
  - cbn [drive gap_free concat] in *. pose proof Hr as [Hm Hb]. rewrite len_app in *.
    pose proof (len_nonneg (concat chunks)).
    destruct (push_ok p c ext_ok0) as (p1 & Hp & Hok1 & Hs & Ha & Hpe & Ho & Hf1 & Hr1);
      [split; lia|]. rewrite Hp in *. apply andb_true_iff in Hg as [Hg1 Hg].
    assert (E1 : extends (concat chunks) true p1 q).
    { split; try congruence. by rewrite ext_rest0, Hr1, app_assoc. }
    assert (H1 := pump_ext _ _ p1 q E1 (or_introl (conj (eq_trans Hf1 Hf) Hg1))).
    destruct (pump p1) as [[evs p2] [[m| |]| |]] eqn:Ep; try (by destruct H1 as [q' ->]).
    destruct H1 as (q2 & E2 & ->). apply pump_waits in Ep as [_ []]; [|done].
    assert (Hr2 : len (rest p1) = len (rest p) + len c) by by rewrite Hr1, len_app.
    rewrite (IH p2 q2); [|done|congruence|done|unfold room; rewrite later_total0, Hr2, Ho; split; lia].
    by destruct (pump q2) as [[]].
Qed.

(** ** Safety

    Behind a pending entry there is a header parsed under the flags of the archive. *)
Definition parser_inv (p : StreamArchiveParser) : Prop :=
  ∀ pe, pending_entry p = Some pe →
    state p ≠ NeedGlobalHeader ∧
    ∃ a input n, archive p = Some a
      ∧ Lfh.parse_lfh input (Format.flags (active_header a)) (limits options)
        = Ok (pending_lfh pe, n).
Definition safe (t : Turn) : Prop :=
  match t with Return p r => no_panic r ∧ parser_inv p | Continue p => parser_inv p end.

Lemma safe_try {A} p (r : result SarError.t A) k :
  parser_inv p → no_panic r → (∀ a, r = Ok a → safe (k a)) → safe (try_ p r k).
Proof. intros Hi Hr Hk. destruct r; cbn [try_]; [by apply Hk|by split..]. Qed.
Lemma safe_consume p n k :
  input_ok p → parser_inv p → 0 ≤ n ≤ len (rest p) →
  (∀ p', state p' = state p → archive p' = archive p → pending_entry p' = pending_entry p →
     parser_inv p' → safe (k p' ())) →
  safe (try_mut (consume p n) k).
Proof.
  intros Hok Hi Hn Hk. destruct (consume_ok p n Hok Hn) as (p' & -> & []). apply Hk; try done.
  intros pe. rewrite adv_pending0, adv_state0, adv_archive0. apply Hi.
Qed.
Lemma safe_return p r : no_panic r → parser_inv p → safe (Return p r).
Proof. done. Qed.
Lemma inv_set_state p s : s ≠ NeedGlobalHeader → parser_inv p → parser_inv (set_state p s).
Proof. intros Hs Hi pe Hpe. by destruct (Hi pe Hpe) as [_ ?]. Qed.
Lemma inv_no_pending p : pending_entry p = None → parser_inv p.
Proof. intros Hn pe. congruence. Qed.
Lemma safe_wait p n m e t :
  input_ok p → parser_inv p → (n ≤ len (rest p) → safe t) →
  safe (if available p <? n
        then if finalized p then set_error p e else Return p (Ok (NeedMore m)) else t).
Proof.
  intros Hok Hi Ht. rewrite available_rest by done. destruct (Z.ltb_spec (len (rest p)) n); [|auto].
  destruct (finalized p); split; try done. by apply inv_set_state.
Qed.

Lemma peek_len p n v : input_ok p → peek p n = Some v → 0 ≤ n ∧ len v = n ∧ n ≤ len (rest p).
Proof.
  intros Hok. rewrite peek_rest by done. intros [[? ?] ->]%first_bytes_Some.
  pose proof (len_take_drop (rest p) n). lia.
Qed.
Lemma required_no_panic p : input_ok p → no_panic (required_global_header_bytes options p).
Proof.
  intros Hok. unfold required_global_header_bytes.
  destruct (peek p 8) as [fixed|] eqn:E8; [|done]. apply peek_len in E8 as (_ & L8 & _); [|done].
  apply no_panic_bind; [apply slice_r_no_panic; lia|]. intros m _. case_match; [done|].
  apply no_panic_bind; [apply u16_le_no_panic; lia|]. intros fs _. case_match; [done|].
  apply no_panic_bind; [auto with no_panic|]. intros _ _.
  apply no_panic_bind; [auto with no_panic|]. intros n [-> _]%ok_or_Ok%checked_add_Some.
  case_match; [|done]. apply no_panic_bind; [auto with no_panic|].
  intros fl (_ & Lf & _)%ok_or_Ok%peek_len; [|done].
  apply no_panic_bind; [apply u32_le_no_panic; lia|]. intros low _.
  apply no_panic_bind; [case_match; auto with no_panic; done|]. intros n2 _.
  apply no_panic_bind; [|done]. unfold required_kms_bytes. case_match; [|done]. case_match; [|done].
  apply no_panic_bind; [auto with no_panic|]. intros pf (Hp0 & Lp & _)%ok_or_Ok%peek_len; [|done].
  apply no_panic_bind; [apply u32_le_no_panic; case_match; lia|]. intros k _. np.
Qed.
Lemma global_header_safe p :
  input_ok p → parser_inv p → state p = NeedGlobalHeader → safe (global_header_turn options p).
Proof.
  intros Hok Hi Hst. unfold global_header_turn. destruct (_ && _); [done|].
  apply safe_try; [done|by apply required_no_panic|]. intros [needed|] Hr.
  2: { destruct (finalized p); [|done]. split; [done|]. by apply inv_set_state. }
  apply required_pos in Hr. apply safe_wait; [done..|]. intros Hn.
  apply safe_try; [done|apply no_panic_ok_or|]. intros input _.
  apply safe_try; [done|apply Format.parse_global_header_no_panic|]. intros [header n] _.
  destruct (negb _) eqn:En; [split; [done|by apply inv_set_state]|].
  apply safe_try; [done| |].
  { case_match; [|done]. apply no_panic_bind; [apply build_kms_context_no_panic|done]. }
  intros _ _. apply safe_consume; [done..|lia|]. intros p' Hs Ha Hpe Hi'.
  apply safe_return; [done|]. apply inv_no_pending. cbn. destruct (pending_entry p') as [pe|] eqn:E; [|done].
  destruct (Hi' pe E). congruence.
Qed.
Lemma lfh_safe p a :
  input_ok p → parser_inv p → archive p = Some a → 4 ≤ len (rest p) → safe (lfh_turn options p a).
Proof.
  intros Hok Hi Ha H4. unfold lfh_turn. apply safe_try; [done|apply no_panic_ok_or|].
  intros hs (_ & Hhs & _)%ok_or_Ok%peek_len; [|done].
  apply safe_try; [done|apply no_panic_bind; [apply u32_le_no_panic; lia|auto with no_panic]|].
  intros n Hn. apply safe_try; [done|auto with no_panic|]. intros _ _.
  case_match; [split; [done|by apply inv_set_state]|]. apply safe_wait; [done..|]. intros Hle.
  apply safe_try; [done|apply no_panic_ok_or|]. intros bs Hbs.
  apply safe_try; [done|apply Lfh.parse_lfh_no_panic|]. intros [lfh k] Hp.
  destruct (negb _) eqn:En; [split; [done|by apply inv_set_state]|].
  apply safe_consume; [done..|lia|]. intros p' Hs Ha' Hpe Hi'.
  apply safe_try; [done|unfold allocation_len; np|]. intros _ _ pe [= <-]. split; [done|].
  exists a, bs, k. split; [|done]. cbn. congruence.
Qed.
Lemma local_file_header_safe p :
  input_ok p → parser_inv p → safe (local_file_header_turn options p).
Proof.
  intros Hok Hi. unfold local_file_header_turn. destruct (archive p) as [a|] eqn:Ha; [|done].
  destruct (available p =? 0); [destruct (finalized p); [|done]; by apply inv_set_state|].
  destruct (available p >=? 4) eqn:E4.
  2: { destruct (finalized p); [|done]. split; [done|]. by apply inv_set_state. }
  apply safe_try; [done|apply no_panic_ok_or|]. intros v _. case_match; [by apply inv_set_state|].
  rewrite available_rest in E4 by done. apply lfh_safe; [done..|lia].
Qed.
Lemma payload_safe p :
  input_ok p → parser_inv p → state p = NeedPayload → safe (payload_turn options p).
Proof.
  intros Hok Hi Hst. unfold payload_turn. destruct (pending_entry p) as [pe|] eqn:Hpe; [|done].
  apply safe_try; [done|unfold allocation_len; np|]. intros n _. apply safe_wait; [done..|].
  intros Hle. apply safe_try; [done|apply no_panic_ok_or|].
  intros v (Hn & _)%ok_or_Ok%peek_len; [|done]. apply safe_consume; [done..|lia|].
  intros p' Hs Ha Hpe' Hi' pe' [= <-]. split; [done|].
  destruct (Hi' pe) as (_ & a & input & k & Haa & Hp); [congruence|]. by exists a, input, k.
Qed.

(** *** The header of the archive

    Whatever a pass does, the input is kept, and the header of the open archive changes
    only when a new header is reported; an entry is reported only inside an archive. *)
Definition open_header (p : StreamArchiveParser) : option Format.GlobalHeader :=
  active_header <$> archive p.
Definition reports (p p' : StreamArchiveParser) (r : result SarError.t StreamStep) : Prop :=
  match r with
  | Ok (Ready (EvGlobalHeader h)) => open_header p' = Some h
  | Ok (Ready (EvEntry e)) =>
      open_header p' = open_header p ∧ is_Some (open_header p)
      ∧ ∃ input flags n, Lfh.parse_lfh input flags (limits options) = Ok (header e, n)
  | _ => open_header p' = open_header p ∨ open_header p' = None
  end.
Definition tracks (p : StreamArchiveParser) (t : Turn) : Prop :=
  match t with
  | Return p' r => later p p' ∧ reports p p' r
  | Continue p' => later p p' ∧ open_header p' = open_header p
  end.

Lemma later_set_state p p' s : later p p' → later p (set_state p' s).
Proof. by intros []. Qed.
Lemma later_trans p1 p2 p3 : later p1 p2 → later p2 p3 → later p1 p3.
Proof. intros [] []. split; [done|congruence|lia..]. Qed.
Lemma tracks_try {A} p p0 (r : result SarError.t A) k :
  later p p0 → open_header p0 = open_header p →
  (∀ a, r = Ok a → tracks p (k a)) → tracks p (try_ p0 r k).
Proof. intros L Hh Hk. destruct r; cbn; [by apply Hk|split; [done|by left]..]. Qed.
Lemma tracks_error p p0 e :
  later p p0 → open_header p0 = open_header p → tracks p (set_error p0 e).
Proof. intros L Hh. split; [by apply later_set_state|by left]. Qed.
Lemma tracks_wait p n m e t :
  input_ok p → (n ≤ len (rest p) → tracks p t) →
  tracks p (if available p <? n
            then if finalized p then set_error p e else Return p (Ok (NeedMore m)) else t).
Proof.
  intros Hok Ht. rewrite available_rest by done. pose proof (later_refl p Hok).
  destruct (Z.ltb_spec (len (rest p)) n); [|auto].
  destruct (finalized p); [by apply tracks_error|split; [done|by left]].
Qed.
Lemma tracks_consume p n k :
  input_ok p → 0 ≤ n ≤ len (rest p) →
  (∀ p', later p p' → open_header p' = open_header p → archive p' = archive p →
     tracks p (k p' ())) →
  tracks p (try_mut (consume p n) k).
Proof.
  intros Hok Hn Hk. destruct (consume_ok p n Hok Hn) as (p' & -> & []). apply Hk; [| |done].
  - split; [done..| |]; rewrite adv_rest0; pose proof (len_take_drop (rest p) n Hn); lia.
  - unfold open_header. by rewrite adv_archive0.
Qed.

Lemma global_header_tracks p :
  input_ok p → state p = NeedGlobalHeader → tracks p (global_header_turn options p).
Proof.
  intros Hok Hst. pose proof (later_refl p Hok) as L. unfold global_header_turn.
  destruct (finalized p && _); [split; [done|by left]|].
  apply tracks_try; [done..|]. intros [needed|] Hr.
  2: { destruct (finalized p); [by apply tracks_error|split; [done|by left]]. }
  apply required_pos in Hr. apply tracks_wait; [done|]. intros Hn.
  do 2 (apply tracks_try; [done..|]; intros ? _). case_match; subst.
  case_match eqn:En; [by apply tracks_error|]. apply tracks_try; [done..|]. intros _ _.
  apply tracks_consume; [done|lia|]. intros p' L' _ _. split; [by destruct L'|done].
Qed.
Lemma lfh_tracks p a : input_ok p → tracks p (lfh_turn options p a).
Proof.
  intros Hok. pose proof (later_refl p Hok) as L. unfold lfh_turn.
  do 2 (apply tracks_try; [done..|]; intros ? _). apply tracks_try; [done..|]. intros _ _.
  case_match; [by apply tracks_error|]. apply tracks_wait; [done|]. intros Hn.
  do 2 (apply tracks_try; [done..|]; intros ? _). case_match; subst.
  case_match eqn:En; [by apply tracks_error|].
  apply tracks_consume; [done|lia|]. intros p' L' Hh _. apply tracks_try; [done..|]. intros _ _.
  split; [by destruct L'|done].
Qed.
Lemma local_file_header_tracks p : input_ok p → tracks p (local_file_header_turn options p).
Proof.
  intros Hok. pose proof (later_refl p Hok) as L. unfold local_file_header_turn.
  destruct (archive p) as [a|] eqn:Ha; [|split; [done|by left]].
  assert (Hdone : tracks p (Continue (set_state p ArchiveComplete)))
    by (split; [by apply later_set_state|done]).
  destruct (available p =? 0); [destruct (finalized p); [done|split; [done|by left]]|].
  destruct (available p >=? 4).
  2: { destruct (finalized p); [by apply tracks_error|split; [done|by left]]. }
  apply tracks_try; [done..|]. intros v _. case_match; [done|]. by apply lfh_tracks.
Qed.
Lemma payload_tracks p : input_ok p → tracks p (payload_turn options p).
Proof.
  intros Hok. pose proof (later_refl p Hok) as L. unfold payload_turn.
  destruct (pending_entry p) as [pe|]; [|split; [done|by left]].
  apply tracks_try; [done..|]. intros n _. apply tracks_wait; [done|]. intros Hle.
  apply tracks_try; [done..|]. intros v (Hn & _)%ok_or_Ok%peek_len; [|done].
  apply tracks_consume; [done|lia|]. intros p' L' Hh _. split; [by destruct L'|done].
Qed.
Lemma decode_pending_header p p' r :
  decode_pending_entry oc options key_provider p = (p', r) →
  open_header p' = open_header p
  ∧ ∀ e, r = Ok e → is_Some (open_header p)
      ∧ ∃ pe, pending_entry p = Some pe ∧ header e = pending_lfh pe.
Proof.
  unfold decode_pending_entry, open_header. intros Hd.
  destruct (archive p) as [a|] eqn:Ha; [|injection Hd as <- <-; by rewrite Ha].
  destruct (pending_entry p) as [pe|]; [|injection Hd as <- <-; by rewrite Ha].
  destruct (ok_or (encoded_payload pe) _ ≫= _) as [[e c]| |] eqn:Er; injection Hd as <- <-;
    [|cbn; by rewrite Ha..]. cbn. split; [done|]. intros e' [= <-]. split; [done|].
  exists pe. split; [done|]. apply bind_Ok in Er as (enc & _ & Er).
  apply bind_Ok in Er as (e' & Hd & Er). apply bind_Ok in Er as (c' & _ & [= <- <-]).
  unfold decode_pending_parts in Hd. inv_ok. done.
Qed.

Lemma step_once_tracks p :
  input_ok p → parser_inv p → tracks p (step_once oc options key_provider p).
Proof.
  intros Hok Hi. pose proof (later_refl p Hok) as L. unfold step_once. destruct (state p) eqn:Hst.
  - by apply global_header_tracks.
  - by apply local_file_header_tracks.
  - by apply payload_tracks.
  - destruct (decode_pending_later p Hok) as (L' & _).
    destruct (decode_pending_entry _ _ _ p) as [p' r] eqn:Hd. cbn [fst] in L'.
    apply decode_pending_header in Hd as [Hh He]. cbn [try_mut]. apply tracks_try; [done..|].
    intros e ->. destruct (He e eq_refl) as (Hs & pe & Hpe & Hl).
    split; [by apply later_set_state|]. split_and!; [done..|].
    destruct (Hi pe Hpe) as (_ & a & input & n & _ & Hp). rewrite Hl. by exists input, (Format.flags (active_header a)), n.
  - split; [by apply later_set_state|done].
  - by apply tracks_error.
  - unfold archive_complete_turn. destruct (archive p); [|split; [done|by left]].
    split; [by destruct L|by right].
  - split; [done|by left].
Qed.

Section total.
Context (release : oc = false) (options_fit : options_ok options)
  (provider : provider_total key_provider).

Lemma decode_pending_safe p :
  parser_inv p →
  no_panic (decode_pending_entry oc options key_provider p).2
  ∧ parser_inv (decode_pending_entry oc options key_provider p).1.
Proof.
  intros Hi. unfold decode_pending_entry. destruct (archive p) as [a|] eqn:Ha; [|done].
  destruct (pending_entry p) as [pe|] eqn:Hpe; [|done].
  destruct (Hi pe Hpe) as (_ & a' & input & k & Ha' & Hp). rewrite Ha in Ha'. injection Ha' as <-.
  pose proof (λ section bs encoded offset, decode_pending_no_panic oc options key_provider
    (active_header a) section input (pending_lfh pe) k bs encoded offset release options_fit
    provider Hp) as Hd.
  destruct (encoded_payload pe) as [enc|]; cbn [ok_or mbind result_bind]; [|done].
  specialize (Hd (global_flags_section a) (pending_lfh_bytes pe) enc (payload_offset pe)).
  destruct (decode_pending_parts _ _ _ _ _ _ _ _ _) as [e| |]; cbn [mbind result_bind]; [|done..].
  by destruct (checked_add 64 (entry_count a) 1).
Qed.
Lemma step_once_safe p :
  input_ok p → parser_inv p → safe (step_once oc options key_provider p).
Proof.
  intros Hok Hi. unfold step_once. destruct (state p) eqn:Hst.
  - by apply global_header_safe.
  - by apply local_file_header_safe.
  - by apply payload_safe.
  - destruct (decode_pending_safe p Hi) as [Hr Hi'].
    destruct (decode_pending_entry _ _ _ p) as [p' r]. cbn [try_mut fst snd] in *.
    apply safe_try; [done..|]. intros e _. split; [done|]. by apply inv_set_state.
  - by apply inv_set_state.
  - split; [done|]. by apply inv_set_state.
  - unfold archive_complete_turn. by destruct (archive p).
  - done.
Qed.
Lemma step_safe p :
  input_ok p → parser_inv p →
  no_panic (step oc options key_provider p).2 ∧ parser_inv (step oc options key_provider p).1.
Proof.
  remember (rank (state p)) as n eqn:Hn. revert p Hn.
  induction (lt_wf n) as [n _ IH]; intros p -> Hok Hi. rewrite step_unfold by done.
  pose proof (step_once_progress p Hok) as Hp. pose proof (step_once_safe p Hok Hi) as Hs.
  destruct (step_once _ _ _ p) as [p' r|p']; [done|]. destruct Hp as ([] & _ & Hr & _).
  by apply (IH _ Hr p').
Qed.

Lemma step_tracks p :
  input_ok p → parser_inv p →
  later p (step oc options key_provider p).1
  ∧ reports p (step oc options key_provider p).1 (step oc options key_provider p).2.
Proof.
  remember (rank (state p)) as n eqn:Hn. revert p Hn.
  induction (lt_wf n) as [n _ IH]; intros p -> Hok Hi. rewrite step_unfold by done.
  pose proof (step_once_progress p Hok) as Hp. pose proof (step_once_safe p Hok Hi) as Hs.
  pose proof (step_once_tracks p Hok Hi) as Ht.
  destruct (step_once _ _ _ p) as [p' r|p']; [done|]. destruct Hp as (_ & _ & Hr & _).
  destruct Ht as [L Hh]. pose proof L as []. destruct (IH _ Hr p' eq_refl later_ok0 Hs) as [L' Hrep].
  split; [by eapply later_trans|]. unfold reports in *. by rewrite Hh in Hrep.
Qed.

(** The events run out: what remains is the end, an error, or, before the end of the
    input is declared, a request for more. *)
Lemma pump_ends p :
  input_ok p → parser_inv p →
  match pump p with
  | (_, p', Ok (NeedMore _)) => finalized p = false ∧ parser_inv p' ∧ later p p'
  | (_, _, Ok (Ready _)) => False
  | (_, _, Ok Complete) => True
  | (_, _, r) => no_panic r
  end.
Proof.
  induction p as [p IH] using weight_ind. intros Hok Hi. rewrite pump_unfold by done.
  pose proof (step_progress p Hok) as Hp. pose proof (step_safe p Hok Hi) as [Hs Hi'].
  destruct (step _ _ _ p) as [p1 [[]| |]]; cbn [fst snd] in *; try done; [by destruct Hp|].
  destruct Hp as [L Hw]. pose proof L as []. specialize (IH p1 Hw later_ok0 Hi').
  destruct (pump p1) as [[evs1 p2] [[]| |]]; try done. destruct IH as (Hf & ? & L2).
  destruct L2. split_and!; [congruence|done|]. split; [done|congruence|lia..].
Qed.

Lemma drive_ends chunks p :
  input_ok p → parser_inv p → finalized p = false →
  absolute_offset p + len (rest p) + len (concat chunks) < 2 ^ 64 - 4096 →
  (drive p chunks).2 = Ok Complete ∨ ∃ e, (drive p chunks).2 = Err e.
Proof.
  revert p. induction chunks as [|c chunks IH]; intros p Hok Hi Hf Hb.
  - cbn [drive]. pose proof (pump_ends (finalize_input p) Hok Hi) as H.
    destruct (pump _) as [[evs p'] [[]| |]]; cbn; try done; [by destruct H|by left|].
    right. by eexists.
  - cbn [drive concat] in *. rewrite len_app in Hb. pose proof (len_nonneg (concat chunks)).
    pose proof (push_cases p c Hok ltac:(lia)) as Hpush. cbv zeta in Hpush. destruct (_ && _).
    { destruct Hpush as [e ->]. right. by exists e. }
    destruct Hpush as (p1 & -> & Hok1 & Hs & Ha & Hpe & Ho & Hf1 & Hr1).
    assert (Hi1 : parser_inv p1) by (intros pe; rewrite Hpe, Hs, Ha; apply Hi).
    pose proof (pump_ends p1 Hok1 Hi1) as H1.
    destruct (pump p1) as [[evs p2] [[]| |]]; cbn; try done; [|by left|by right; eexists].
    destruct H1 as (_ & Hi2 & []). rewrite Hr1, len_app, Ho in later_total0.
    specialize (IH p2 later_ok0 Hi2 ltac:(congruence) ltac:(lia)).
    by destruct (drive p2 chunks) as [evs' r].
Qed.
End total.

(** (C29) Chunking does not matter: a parser that is fed the input in chunks, its events taken
    after each chunk, produces the events and ends with the result, success or error, of
    a parser that is given the whole input and its end before the first step.  The
    conditions are that no chunk ends inside the KMS prefix of a header, where the code
    does depend on the chunks ([encrypted_header_step]), and that the whole input is within
    [max_archive_size], if that is not zero (past it [push_bytes] refuses the chunk), and
    below [2^64 - 4096] bytes. *)
Theorem chunking_irrelevant chunks :
  gap_free with_options chunks = true → room with_options (len (concat chunks)) →
  drive with_options chunks = drive_whole with_options (concat chunks).
Proof.
  intros Hg Hr. assert (Hok : input_ok with_options) by (vm_compute; split_and!; congruence).
  unfold drive_whole.
  destruct (push_ok with_options (concat chunks) Hok Hr)
    as (p' & -> & Hok' & Hs & Ha & Hpe & Ho & Hf & Hrest).
  apply drive_ext; [|done..]. by split.
Qed.


End simulation.

(** ** The header of an encrypted archive

    A parser that waits for a header has [rest p] buffered, the beginning of bytes that parse
    as the header [h] of an encrypted archive. *)
Section encrypted_header.
Context {B : Bitflags} {Comp : Compression.Compressors} {Ciph : Crypto.Ciphers} {K : Kms.Kdfs}.
Context (oc : bool) (options : ArchiveReaderOptions) (key_provider : option Kms.KeyProvider).
Context (p : StreamArchiveParser) (more : list byte) (h : Format.GlobalHeader) (n : Z).
Context (Hok : input_ok p) (Hst : state p = NeedGlobalHeader) (Hfin : finalized p = false).
Context (Hparse : Format.parse_global_header (rest p ++ more) (limits options) = Ok (h, n)).
Context (Henc : contains (Format.flags h) GlobalFlags.ENCRYPTED = true).

#[local] Abbreviation fs := (len (Format.flags_bytes h)).
#[local] Abbreviation start := (kms_start (Format.flags h) fs).

Lemma header_encoded :
  Format.gh_wf (limits options) h ∧ n = len (Format.enc_gh h)
  ∧ take (Z.to_nat n) (rest p ++ more) = Format.enc_gh h.
Proof.
  pose proof Hparse as H. unfold Format.parse_global_header in H.
  apply bind_Ok in H as ([h' c] & Hp & H). injection H as -> <-.
  apply (Cursor.codec_run_inv _ _ _ _ _ _ (Format.codec_gh (limits options))) in Hp as (Hwf & Hp & Ht & _).
  by unfold Cursor.position.
Qed.
(** What can be peeked are the first bytes of the header. *)
Lemma peek_header m :
  0 ≤ m ≤ len (rest p) → m ≤ n → peek p m = Some (take (Z.to_nat m) (Format.enc_gh h)).
Proof.
  intros Hm Hn. destruct header_encoded as (_ & _ & <-). rewrite peek_there by done. f_equal.
  rewrite take_take, Nat.min_l by lia. symmetry. apply take_app_le. unfold len in Hm. lia.
Qed.

(** The parts of the header. *)
Lemma header_parts :
  ∃ k, Format.kms h = Some k ∧ Format.kms_wf (limits options) k
    ∧ Format.enc_gh h = Format.enc_front h ++ Format.enc_kms k
    ∧ len (Format.enc_front h) = start ∧ n = start + 5 + len (Format.kms_payload k)
    ∧ 4 ≤ fs < 2 ^ 16 ∧ fs ≤ max_global_flags_bytes (limits options)
    ∧ Format.flags h = from_bits_truncate GlobalFlags.all (le_val (slice (Format.flags_bytes h) 0 4)).
Proof.
  destruct header_encoded as ((Hv & Hl & Hlim & Hf & Hval & Hpd & Hk) & Hn & _).
  destruct (Format.kms h) as [k|] eqn:Ek; [|rewrite Henc in Hk; done].
  destruct Hk as [_ Hk]. exists k.
  assert (Hcut : Format.enc_gh h = Format.enc_front h ++ Format.enc_kms k).
  { unfold Format.enc_gh, Format.enc_front. rewrite Ek. cbn [Cursor.enc_opt]. by rewrite <- !app_assoc. }
  assert (Hfront : len (Format.enc_front h) = start).
  { unfold Format.enc_front, kms_start. rewrite !len_app, len_le_bytes, !Cursor.len_enc_u8.
    change (len Format.MAGIC) with 4. destruct (Format.partition_descriptor h) as [d|]; cbn [Cursor.enc_opt].
    - destruct Hpd as [-> Hd]. rewrite Format.len_enc_pd by done. lia.
    - cbn in Hpd. rewrite Hpd, len_nil. lia. }
  split_and!; [done|done|done|done| |lia..|done].
  rewrite Hn, Hcut, len_app, Hfront. unfold Format.enc_kms.
  rewrite !len_app, len_le_bytes, Cursor.len_enc_u8. lia.
Qed.

(** How many bytes [required_global_header_bytes] asks for. *)
Lemma required_front :
  8 ≤ len (rest p) →
  required_global_header_bytes options p
  = if len (rest p) >=? 8 + fs
    then needed ← required_kms_bytes options p (Format.flags h) fs start; Ok (Some needed)
    else Ok (Some (8 + fs)).
Proof.
  intros Hl. destruct header_parts as (k & _ & _ & Hcut & Hfront & Hn & Hfs & Hlim & Hf).
  pose proof (len_nonneg (Format.kms_payload k)).
  assert (Hs : 8 + fs ≤ start ≤ 104 + fs) by (unfold kms_start; case_match; lia).
  unfold required_global_header_bytes.
  rewrite (peek_header 8), available_rest by (done || lia).
  assert (H8 : take (Z.to_nat 8) (Format.enc_gh h)
               = Format.MAGIC ++ [byte_of (Format.version h); byte_of 0] ++ le_bytes 2 fs ++ []).
  { unfold Format.enc_gh. by rewrite app_nil_r. }
  rewrite H8. erewrite (at_slice _ 0 4 Format.MAGIC) by (apply at_start || done).
  cbn [mbind result_bind]. rewrite bool_decide_true by done. cbn [negb].
  rewrite (at_u16 _ 6 fs []) by
    ((apply (at_app (Format.MAGIC ++ [byte_of (Format.version h); byte_of 0]))) || (unfold fits; lia)).
  cbn [mbind result_bind]. dif as E; [lia|]. clear E.
  rewrite (proj2 (check_global_flags_bytes_ok _ _)) by lia. cbn [mbind result_bind].
  rewrite checked_add_fits by lia. cbn [ok_or mbind result_bind].
  dif as E; [|done]. rewrite (peek_header (8 + fs)) by lia. cbn [ok_or mbind result_bind].
  assert (Hlow : @u32_le SarError.t (take (Z.to_nat (8 + fs)) (Format.enc_gh h)) 8
                 = Ok (le_val (slice (Format.flags_bytes h) 0 4))).
  { set (v := le_val (slice (Format.flags_bytes h) 0 4)).
    assert (H4 : length (slice (Format.flags_bytes h) 0 4) = 4%nat).
    { assert (Hs4 : len (slice (Format.flags_bytes h) 0 4) = 4) by (rewrite len_slice; lia).
      unfold len in Hs4. lia. }
    assert (Hfb : Format.flags_bytes h = le_bytes 4 v ++ drop 4 (Format.flags_bytes h)).
    { unfold v. rewrite <- H4 at 1. rewrite le_bytes_val. symmetry. apply (take_drop 4). }
    apply (at_u32 _ 8 v (drop 4 (Format.flags_bytes h))).
    2: by apply (le_val_fits 4).
    rewrite <- Hfb.
    set (P := Format.MAGIC ++ [byte_of (Format.version h); byte_of 0] ++ le_bytes 2 fs).
    assert (Hsplit : Format.enc_gh h = (P ++ Format.flags_bytes h)
      ++ Cursor.enc_opt Format.enc_pd (Format.partition_descriptor h)
      ++ Cursor.enc_opt Format.enc_kms (Format.kms h)).
    { unfold Format.enc_gh, P. by rewrite <- !app_assoc. }
    rewrite Hsplit. change (Z.to_nat (8 + fs)) with (Z.to_nat (len P + fs)).
    rewrite <- len_app, take_len_app. apply (at_app P). }
  rewrite Hlow. cbn [mbind result_bind]. rewrite <- Hf.
  unfold kms_start. destruct (contains (Format.flags h) GlobalFlags.PARTITIONED_ARCHIVE).
  - by rewrite checked_add_fits by lia.
  - by rewrite Z.add_0_r.
Qed.
(** The prefix is buffered: the length of the payload is known. *)
Lemma required_whole :
  start + 5 ≤ len (rest p) → required_global_header_bytes options p = Ok (Some n).
Proof.
  intros Hl. destruct header_parts as (k & _ & (Hm & Hk1 & Hk2) & Hcut & Hfront & Hn & Hfs & _).
  pose proof (len_nonneg (Format.kms_payload k)).
  assert (Hs : 8 + fs ≤ start ≤ 104 + fs) by (unfold kms_start; case_match; lia).
  rewrite required_front, Zge_true by lia. unfold required_kms_bytes. rewrite Henc.
  replace (if contains (Format.flags h) GlobalFlags.PARTITIONED_ARCHIVE then 8 + fs + 96 else 8 + fs)
    with start by (unfold kms_start; case_match; lia).
  rewrite available_rest, Zge_true, peek_header by (done || lia). cbn [ok_or mbind result_bind].
  set (pl := len (Format.kms_payload k)) in *.
  assert (Hpre : take (Z.to_nat (start + 5)) (Format.enc_gh h)
    = (Format.enc_front h ++ [byte_of (Format.mode_id k)]) ++ le_bytes 4 pl ++ []).
  { rewrite Hcut. unfold Format.enc_kms, Cursor.enc_u8. fold pl.
    replace (Format.enc_front h ++ [byte_of (Format.mode_id k)] ++ le_bytes 4 pl ++ Format.kms_payload k)
      with ((Format.enc_front h ++ [byte_of (Format.mode_id k)] ++ le_bytes 4 pl) ++ Format.kms_payload k)
      by (by rewrite <- !app_assoc).
    replace (start + 5) with (len (Format.enc_front h ++ [byte_of (Format.mode_id k)] ++ le_bytes 4 pl))
      by (rewrite !len_app, len_le_bytes, len_cons, (@len_nil byte); lia).
    rewrite take_len_app, app_nil_r. by rewrite <- !app_assoc. }
  rewrite Hpre, (at_u32 _ (start + 1) pl []).
  2: { eapply at_eq; [apply at_app|]. rewrite len_app, Hfront. done. }
  2: unfold fits; lia.
  cbn [mbind result_bind]. rewrite try_from_fits by lia. cbn [ok_or mbind result_bind].
  rewrite (proj2 (check_kms_payload_bytes_ok _ _)) by done. cbn [mbind result_bind].
  rewrite checked_add_fits by lia. cbn [mbind option_bind]. rewrite checked_add_fits by lia.
  cbn [ok_or mbind result_bind]. do 2 f_equal. lia.
Qed.

(** Too few bytes for what is asked for. *)
Lemma header_waits r :
  required_global_header_bytes options p = Ok (Some r) → len (rest p) < r →
  step oc options key_provider p = (p, Ok (NeedMore (Some r))).
Proof.
  intros Hr Hl. unfold step. cbn [step_loop]. unfold step_once. rewrite Hst.
  unfold global_header_turn. rewrite Hfin, Hr. cbn [andb try_]. rewrite available_rest by done.
  by dif as E; [|lia].
Qed.
Lemma header_incomplete :
  len (rest p) < start ∨ start + 5 ≤ len (rest p) < n →
  ∃ needed, step oc options key_provider p = (p, Ok (NeedMore needed)).
Proof.
  destruct header_parts as (k & _ & _ & _ & _ & Hn & Hfs & _). intros [Hl|Hl].
  2: { exists (Some n). apply header_waits; [apply required_whole; lia|lia]. }
  destruct (Z.ltb_spec (len (rest p)) 8).
  { exists (Some 8). unfold step. cbn [step_loop]. unfold step_once. rewrite Hst.
    assert (Hp : peek p 8 = None) by (rewrite peek_rest by done; unfold first_bytes; dif as E; [done|lia]).
    unfold global_header_turn, required_global_header_bytes. by rewrite Hfin, Hp. }
  pose proof (required_front H) as Hr. destruct (Z.geb_spec (len (rest p)) (8 + fs)).
  - rewrite required_kms_short in Hr by (done || lia). eexists. by apply header_waits.
  - eexists. apply header_waits; [done|lia].
Qed.
Lemma header_cut :
  start ≤ len (rest p) < start + 5 →
  step oc options key_provider p = (p, Err (SarError.Truncated "insufficient bytes")).
Proof.
  intros Hl. destruct header_parts as (k & _ & _ & Hcut & Hfront & Hn & Hfs & _).
  destruct header_encoded as (Hwf & _). pose proof (len_nonneg (Format.kms_payload k)).
  assert (Hs : 8 + fs ≤ start ≤ 104 + fs) by (unfold kms_start; case_match; lia).
  pose proof (required_front ltac:(lia)) as Hr. rewrite Zge_true in Hr by lia.
  rewrite required_kms_short in Hr by (done || lia). cbn [mbind result_bind] in Hr.
  unfold step. cbn [step_loop]. unfold step_once. rewrite Hst.
  unfold global_header_turn. rewrite Hfin, Hr. cbn [andb try_]. rewrite available_rest by done.
  dif as E; [lia|]. rewrite peek_header by lia. cbn [ok_or try_].
  rewrite Hcut, <- Hfront, take_len_app.
  rewrite Format.parse_front_truncated by (done || unfold U64_MAX; lia). done.
Qed.
Lemma header_complete :
  n ≤ len (rest p) →
  (step oc options key_provider p).2 = (_ ← build_kms_context h; Ok (Ready (EvGlobalHeader h))).
Proof.
  intros Hl. destruct header_parts as (k & _ & _ & Hcut & Hfront & Hn & Hfs & _).
  destruct header_encoded as (Hwf & Hlen & _). pose proof (len_nonneg (Format.kms_payload k)).
  assert (Hs : 8 + fs ≤ start ≤ 104 + fs) by (unfold kms_start; case_match; lia).
  pose proof (required_whole ltac:(lia)) as Hr. pose proof Hok as (_ & _ & ? & ?).
  unfold step. cbn [step_loop]. unfold step_once. rewrite Hst.
  unfold global_header_turn. rewrite Hfin, Hr. cbn [andb try_]. rewrite available_rest by done.
  dif as E; [lia|]. rewrite peek_header by lia. cbn [ok_or try_].
  assert (Hp : Format.parse_global_header (take (Z.to_nat n) (Format.enc_gh h)) (limits options)
               = Ok (h, n)).
  { rewrite take_ge by (unfold len in Hlen; lia). unfold Format.parse_global_header.
    rewrite (Cursor.codec_run _ _ _ _ (Format.codec_gh (limits options))) by (done || lia).
    cbn [mbind result_bind Cursor.position Cursor.pos]. by rewrite Hlen. }
  rewrite Hp. cbn [try_]. rewrite Z.eqb_refl, Henc. cbn [negb].
  destruct (build_kms_context h); [|done..]. cbn [mbind result_bind try_].
  destruct (consume_ok p n Hok ltac:(lia)) as (p' & -> & _). done.
Qed.

(** (C34) The first step on the header of an encrypted archive, for every such header and every
    number of bytes buffered.  With fewer bytes than the header has, the parser asks for more;
    with all of them, it delivers the header if its KMS payload is valid; but when the bytes
    end behind the flags (and the partition descriptor) and before the five bytes of the KMS
    prefix are complete, it returns a truncation error, though the rest may still arrive. *)
Theorem encrypted_header_step :
  (len (rest p) < start ∨ start + 5 ≤ len (rest p) < n →
     ∃ needed, step oc options key_provider p = (p, Ok (NeedMore needed)))
  ∧ (start ≤ len (rest p) < start + 5 →
     step oc options key_provider p = (p, Err (SarError.Truncated "insufficient bytes")))
  ∧ (n ≤ len (rest p) →
     (step oc options key_provider p).2
     = (_ ← build_kms_context h; Ok (Ready (EvGlobalHeader h)))).
Proof. split_and!; [apply header_incomplete|apply header_cut|apply header_complete]. Qed.
End encrypted_header.

(** ** Witnesses and the KMS prefix *)
Section examples.
#[local] Existing Instances bitwise Transform.marked_compressors Transform.shift_ciphers zero_kdfs.

(** An archive of one compressed entry, and the header of an encrypted archive. *)
Definition sample_archive : list byte :=
  SAR_MAGIC ++ [x01; x00; x04; x00; x02; x01; x00; x00] ++ sample_entry_bytes ++ sample_stored.
Definition encrypted_archive : list byte :=
  SAR_MAGIC ++ [x01; x00; x04; x00; x02; x04; x00; x00]
  ++ [x01; x18; x00; x00; x00] ++ [x01; x10] ++ zeros 16 ++ [xa0; x86; x01; x00; x20; x00].
Definition in_two (k : nat) (bs : list byte) : list (list byte) := [take k bs; drop k bs].

Lemma chunking_irrelevant_witness :
  drive false sample_options None with_options (in_two 20 sample_archive)
  = drive_whole false sample_options None with_options sample_archive
  ∧ (drive_whole false sample_options None with_options sample_archive).2 = Ok Complete.
Proof.
  split; [|vm_compute; reflexivity].
  apply (chunking_irrelevant false sample_options None (in_two 20 sample_archive)).
  - vm_compute. reflexivity.
  - vm_compute. split; congruence.
Defined.

(** The encrypted header cut inside its KMS prefix: the parser has 14 of its 41 bytes. *)
Definition cut_header : StreamArchiveParser :=
  fst (push_bytes sample_options with_options (take 14 encrypted_archive)).
Lemma encrypted_header_step_witness :
  step false sample_options None cut_header
  = (cut_header, Err (SarError.Truncated "insufficient bytes"))
  ∧ (drive_whole false sample_options None with_options encrypted_archive).2 = Ok Complete.
Proof.
  split; [|vm_compute; reflexivity].
  destruct (Format.parse_global_header (rest cut_header ++ drop 14 encrypted_archive)
              (limits sample_options)) as [[h n]| |] eqn:E; [|vm_compute in E; discriminate E..].
  destruct (encrypted_header_step false sample_options None cut_header (drop 14 encrypted_archive) h n)
    as (_ & H & _).
  - vm_compute. split_and!; congruence.
  - reflexivity.
  - reflexivity.
  - exact E.
  - vm_compute in E. injection E as <- <-. vm_compute. reflexivity.
  - apply H. vm_compute in E. injection E as <- <-. vm_compute. split; congruence.
Defined.
End examples.

End StreamParser.
