(* ===== verification/ArchiveReader.v ===== *)
(** * The seekable archive reader

    Models [ArchiveReader] of [crates/sar-archive/src/archive.rs]: opening a source, the
    global header with the central dictionary and footer of an indexed archive, the entries
    in order, verification, audit, and the reconstruction of logical files.

    The source is its bytes.  Every method seeks before it reads, so the position of the
    source is no state between calls; a run of [read_exact] calls is a run of [read_at] at
    consecutive positions.  A method that changes the reader only when it succeeds returns
    the new reader with its value; the others return the reader with their result.  The
    options and the key provider do not change and are parameters; so is [crc32fast::hash]. *)

From stdpp Require Import gmap.
From S2P Require Import Prelude Errors Limits Flags Cursor Format Lfh Tlv CentralDir FecRegistry Sparse Fragmentation CdcMap Reads Crypto Kms Transform Metadata EntryDecode.

Module ArchiveReader.
Import Limits EntryDecode.

(** [struct ArchiveReader]. *)
Record ArchiveReader := {
  source : list byte;
  global_header : option Format.GlobalHeader;
  global_flags_section : list byte;
  header_len : Z;
  data_end : Z;
  next_offset : Z;
  file_len : Z;
  cd : option CentralDir.CentralDictionary }.

Definition set_next_offset (r : ArchiveReader) (o : Z) : ArchiveReader := {|
  source := source r; global_header := global_header r;
  global_flags_section := global_flags_section r; header_len := header_len r;
  data_end := data_end r; next_offset := o; file_len := file_len r; cd := cd r |}.

(** [seek] to [pos] and [read_exact] of [n] bytes. *)
Definition read_at (src : list byte) (pos n : Z) : result SarError.t (list byte) :=
  if (n =? 0) || (pos + n <=? len src) then Ok (slice src pos (pos + n))
  else Err (SarError.Io "failed to fill whole buffer").

(** [(0x10..=0x1F).contains(&tlv.type_id)]. *)
Definition is_recovery_type (id : Z) : bool := (0x10 <=? id) && (id <=? 0x1F).
Definition is_recovery_tlv (t : Tlv.Tlv) : bool := is_recovery_type (Tlv.type_id t).

(** [for tlv in &cd.metadata { if .. { validate_recovery_tlv(..)?; } }]. *)
Fixpoint validate_recovery_tlvs (tlvs : list Tlv.Tlv) (limits : ResourceLimits)
    : result SarError.t unit :=
  match tlvs with
  | [] => Ok ()
  | t :: tlvs =>
      _ ← (if is_recovery_tlv t then
             _ ← FecRegistry.validate_recovery_tlv (Tlv.type_id t) (Tlv.value t) limits; Ok ()
           else Ok ());
      validate_recovery_tlvs tlvs limits
  end.
Fixpoint validate_cdc_tlvs (tlvs : list Tlv.Tlv) (limits : ResourceLimits)
    : result SarError.t unit :=
  match tlvs with
  | [] => Ok ()
  | t :: tlvs =>
      _ ← (if CdcMap.is_cdc_metadata_tlv_type (Tlv.type_id t) then
             _ ← CdcMap.validate_cdc_metadata_tlv t limits; Ok ()
           else Ok ());
      validate_cdc_tlvs tlvs limits
  end.

(** [struct VerificationReport], and the policies, kinds and reports of an audit. *)
Record VerificationReport := {
  valid : bool; entry_count : Z; indexed : bool; cdc_entry_count : Z; cdc_support : bool }.
Inductive ControlEntryPolicy : Set := Reject | PreserveInert.
Inductive PayloadAuditPolicy : Set := MetadataOnly | DecodeWhenKeysAvailable | RequireDecode.
#[global] Instance control_policy_eq_dec : EqDecision ControlEntryPolicy.
Proof. solve_decision. Defined.
#[global] Instance payload_policy_eq_dec : EqDecision PayloadAuditPolicy.
Proof. solve_decision. Defined.
Record ArchiveAuditOptions := {
  control_entry_policy : ControlEntryPolicy; payload_policy : PayloadAuditPolicy;
  include_inert_payload_bytes : bool }.
Inductive ArchiveAuditMode : Set := Indexed | NoIndex.
Inductive ArchiveAuditEntryKind : Set := OrdinaryEntry | InertOpcodeEntry | InertSessionControl.
#[global] Instance audit_kind_eq_dec : EqDecision ArchiveAuditEntryKind.
Proof. solve_decision. Defined.
Inductive ArchiveAuditPayloadStatus : Set := Decoded | Skipped | Unavailable | Failed.
(** The text of [payload_error] is kept as the error it is made from. *)
Record ArchiveAuditEntryReport := {
  rep_lfh_offset : Z; entry_mode_bits : Z; rep_op_code : Z; session_control : bool;
  kind : ArchiveAuditEntryKind; rep_payload_size : Z; rep_uncompressed_size : Z;
  rep_comp_algo_id : option Z; rep_encr_algo_id : option Z; rep_fec_algo_id : option Z;
  rep_patch_algo_id : option Z; payload_status : ArchiveAuditPayloadStatus;
  decoded_payload_size : option Z; payload_error_status : option string;
  payload_error : option SarError.t; inert_payload_bytes : option (list byte) }.
Record ArchiveAuditRecoverySummary := { tlv_count : Z; tlv_type_ids : list Z }.
Record ArchiveAuditReport := {
  mode : ArchiveAuditMode; audit_global_flags : Z; entry_count_seen : Z;
  entries : list ArchiveAuditEntryReport; footer_present : bool;
  central_dictionary_present : bool; cd_footer_valid : bool;
  recovery : option ArchiveAuditRecoverySummary }.

(** [struct LogicalFile], and the accumulator of a fragment group. *)
Record LogicalFile := {
  file_name : list byte; fragment_id : option Z; data : list byte; is_degraded : bool }.
Record FragGroup := {
  group_name : list byte; group_entries : list EntryReader;
  sparse_extents : option (list Sparse.SparseExtent); sparse_uncompressed_size : Z;
  file_crc32 : option Z }.

(** The locals of [read_all_logical_files]: the fragment ids in the order they were seen,
    the groups, the files so far. *)
Record Grouping := {
  frag_order : list Z; frag_groups : gmap Z FragGroup; files : list LogicalFile }.

(** [metadata()]: the header and the index, once the header was read. *)
Record ArchiveMetadata := {
  archive_header : Format.GlobalHeader;
  central_dictionary : option CentralDir.CentralDictionary }.
Definition archive_metadata (r : ArchiveReader) : option ArchiveMetadata :=
  (λ h, {| archive_header := h; central_dictionary := cd r |}) <$> global_header r.

Section reader.
Context {B : Bitflags} {Comp : Compression.Compressors} {Ciph : Crypto.Ciphers} {K : Kms.Kdfs}.
Context (oc : bool) (options : ArchiveReaderOptions) (key_provider : option Kms.KeyProvider).

Definition with_options (src : list byte) : result SarError.t ArchiveReader :=
  let file_len := len src in
  _ ← check_archive_size (limits options) file_len;
  Ok {| source := src; global_header := None; global_flags_section := []; header_len := 0;
        data_end := 0; next_offset := 0; file_len := file_len; cd := None |}.

(** The bytes of the global header, read field by field. *)
Definition read_header_bytes (src : list byte) : result SarError.t (list byte) :=
  fixed ← read_at src 0 8;
  flags_size ← u16_le fixed 6;
  if flags_size <? 4
  then Err (SarError.InvalidLength "global flags size must be >= 4") else
  _ ← check_global_flags_bytes (limits options) flags_size;
  flags_buf ← read_at src 8 flags_size;
  low ← u32_le flags_buf 0;
  let flags := from_bits_truncate GlobalFlags.all low in
  _ ← validate_global_flags flags;
  let header_bytes := fixed ++ flags_buf in
  header_bytes ← (if contains flags GlobalFlags.PARTITIONED_ARCHIVE then
                    descriptor ← read_at src (8 + flags_size) 96;
                    Ok (header_bytes ++ descriptor)
                  else Ok header_bytes);
  if contains flags GlobalFlags.ENCRYPTED then
    kms_prefix ← read_at src (len header_bytes) 5;
    payload_len_u32 ← u32_le kms_prefix 1;
    payload_len ← ok_or (try_from 64 payload_len_u32) (SarError.Overflow "KMS payload length");
    _ ← check_kms_payload_bytes (limits options) payload_len;
    payload ← read_at src (len header_bytes + 5) payload_len;
    Ok (header_bytes ++ kms_prefix ++ payload)
  else Ok header_bytes.

(** The branch of an indexed archive: footer, central dictionary and its metadata. *)
Definition read_index (src : list byte) (file_len header_len flags : Z)
    : result SarError.t (Z * CentralDir.CentralDictionary) :=
  if file_len <? 8 then Err (SarError.Truncated "indexed archive missing footer") else
  footer_bytes ← read_at src (file_len - 8) 8;
  footer ← Format.parse_footer footer_bytes;
  let cd_offset := Format.cd_offset footer in
  indexed_end ← ok_or (checked_sub file_len 8) (SarError.Truncated "indexed archive missing footer");
  if cd_offset >=? indexed_end
  then Err (SarError.Bounds "CD offset points outside indexed range") else
  if cd_offset <? header_len then Err (SarError.Bounds "CD offset overlaps data/header") else
  cd_region_len ← ok_or (v ← checked_sub file_len 8; checked_sub v cd_offset)
                    (SarError.Overflow "CD region length");
  _ ← check_cd_bytes (limits options) cd_region_len;
  _ ← check_allocation_bytes (limits options) cd_region_len;
  cd_len_usize ← allocation_len (limits options) cd_region_len "CD region length usize";
  cd_bytes ← read_at src cd_offset cd_len_usize;
  '(cd, consumed_cd) ← CentralDir.parse_central_dictionary cd_bytes flags (limits options);
  if consumed_cd >? len cd_bytes
  then Err (SarError.Truncated "CD parse exceeded available bytes") else
  padding ← slice_r cd_bytes consumed_cd (len cd_bytes);
  if existsb (λ b, negb (byte_val b =? 0)) padding
  then Err (SarError.InvalidAlignment "CD alignment padding must be all zero") else
  let has_recovery_tlv := existsb is_recovery_tlv (CentralDir.metadata cd) in
  if has_recovery_tlv && negb (contains flags GlobalFlags.HAS_GLOBAL_EC)
  then Err (SarError.FlagConflict "RECOVERY TLV metadata requires HAS_GLOBAL_EC global flag") else
  _ ← (if contains flags GlobalFlags.HAS_GLOBAL_EC
       then validate_recovery_tlvs (CentralDir.metadata cd) (limits options) else Ok ());
  Ok (cd_offset, cd).

Definition read_global_header (r : ArchiveReader)
    : result SarError.t (Format.GlobalHeader * ArchiveReader) :=
  header_bytes ← read_header_bytes (source r);
  '(header, consumed) ← Format.parse_global_header header_bytes (limits options);
  _ ← (match Format.kms header with
       | Some kms =>
           if negb (Format.mode_id kms =? Crypto.KMS_TLS_EXPORTER) then
             _ ← map_err CryptoError.to_sar
                   (Kms.parse_kms_payload (Format.mode_id kms) (Format.kms_payload kms));
             Ok ()
           else Ok ()
       | None => Ok ()
       end);
  header_len ← ok_or (try_from 64 consumed) (SarError.Overflow "header len");
  '(data_end, cd) ←
    (if contains (Format.flags header) GlobalFlags.NO_INDEX then Ok (file_len r, None)
     else
       '(cd_offset, cd) ← read_index (source r) (file_len r) header_len (Format.flags header);
       Ok (cd_offset, Some cd));
  Ok (header, {| source := source r; global_header := Some header;
                 global_flags_section := Format.global_header_flags_bytes header;
                 header_len := header_len; data_end := data_end; next_offset := header_len;
                 file_len := file_len r; cd := cd |}).

(** The local file header at an offset: its size, its bytes, the parsed header. *)
Definition read_lfh (r : ArchiveReader) (header : Format.GlobalHeader)
    : result SarError.t (Lfh.LocalFileHeader * list byte) :=
  header_size_bytes ← read_at (source r) (next_offset r) 4;
  v ← u32_le header_size_bytes 0;
  header_size ← ok_or (try_from 64 v) (SarError.Overflow "LFH header size");
  _ ← check_lfh_header_bytes (limits options) header_size;
  if header_size <? 4
  then Err (SarError.InvalidLength "LFH Header Size smaller than fixed prefix") else
  lfh_bytes ← (if header_size >? 4 then
                 tail ← read_at (source r) (next_offset r + 4) (header_size - 4);
                 Ok (header_size_bytes ++ tail)
               else Ok header_size_bytes);
  '(lfh, _) ← Lfh.parse_lfh lfh_bytes (Format.flags header) (limits options);
  Ok (lfh, lfh_bytes).

(** Where the payload starts and ends. *)
Definition payload_range (r : ArchiveReader) (lfh : Lfh.LocalFileHeader)
    : result SarError.t (Z * Z) :=
  payload_start ← ok_or (checked_add 64 (next_offset r) (Lfh.header_size lfh))
                    (SarError.Overflow "payload start");
  payload_end ← ok_or (checked_add 64 payload_start (Lfh.payload_size lfh))
                  (SarError.Overflow "payload end");
  if payload_end >? data_end r
  then Err (SarError.Truncated "payload exceeds data area bounds") else
  Ok (payload_start, payload_end).
Definition read_payload (r : ArchiveReader) (lfh : Lfh.LocalFileHeader) (payload_start : Z)
    : result SarError.t (list byte) :=
  payload_len ← allocation_len (limits options) (Lfh.payload_size lfh) "payload length usize";
  read_at (source r) payload_start payload_len.

Definition next_entry (r : ArchiveReader)
    : result SarError.t (option EntryReader * ArchiveReader) :=
  header ← ok_or (global_header r) (SarError.Malformed "call read_global_header first");
  if next_offset r >=? data_end r then Ok (None, r) else
  '(lfh, lfh_bytes) ← read_lfh r header;
  if EntryMode.is_session_control (Lfh.entry_mode lfh)
     || negb (EntryMode.op_code (Lfh.entry_mode lfh) =? 0)
  then Err (SarError.Unsupported
    "archive parsing rejects SESSION_CONTROL entries and nonzero OP_CODE values by default") else
  '(payload_start, payload_end) ← payload_range r lfh;
  encoded_payload ← read_payload r lfh payload_start;
  decoded ← decode_ordinary_archive_entry_from_parts oc options key_provider header
              (global_flags_section r) (next_offset r) lfh lfh_bytes encoded_payload;
  Ok (Some {| EntryDecode.header := lfh; payload := parts_payload decoded;
              metadata := parts_metadata decoded |},
      set_next_offset r payload_end).

(** A bound on the entries that are left: every entry takes at least one byte. *)
Definition entries_fuel (r : ArchiveReader) : nat := S (Z.to_nat (data_end r - next_offset r)).

(** The start of [verify], [audit] and [read_all_logical_files]: the header is read when it
    was not, and the cursor goes back to the first entry. *)
Definition rewind (r : ArchiveReader) (missing : string)
    : ArchiveReader * result SarError.t Format.GlobalHeader :=
  match (match global_header r with
         | None => '(_, r) ← read_global_header r; Ok r
         | Some _ => Ok r
         end) with
  | Ok r =>
      match global_header r with
      | None => (r, Err (SarError.Malformed missing))
      | Some header => (set_next_offset r (header_len r), Ok header)
      end
  | Err e => (r, Err e)
  | Panic => (r, Panic)
  end.

(** [while let Some(entry) = self.next_entry()?], as a fold over the entries. *)
Fixpoint entries_loop {A} (f : A → EntryReader → result SarError.t A) (fuel : nat)
    (r : ArchiveReader) (acc : A) : ArchiveReader * result SarError.t A :=
  match fuel with
  | O => (r, Panic)
  | S fuel =>
      match next_entry r with
      | Ok (None, r) => (r, Ok acc)
      | Ok (Some entry, r) =>
          match f acc entry with
          | Ok acc => entries_loop f fuel r acc
          | Err e => (r, Err e)
          | Panic => (r, Panic)
          end
      | Err e => (r, Err e)
      | Panic => (r, Panic)
      end
  end.

(** One round of the loop of [verify]: the offset, and a chunked entry is counted. *)
Definition verify_entry (acc : list Z * Z) (entry : EntryReader) : result SarError.t (list Z * Z) :=
  let '(offsets, cdc_entry_count) := acc in
  let offsets := offsets ++ [Metadata.lfh_offset (metadata entry)] in
  cdc_entry_count ←
    (if bool_decide (is_Some (Metadata.meta_cdc_algo_id (metadata entry)))
     then ok_or (checked_add 64 cdc_entry_count 1) (SarError.Overflow "CDC entry count")
     else Ok cdc_entry_count);
  Ok (offsets, cdc_entry_count).

(** The checks of [verify] against the central dictionary. *)
Definition verify_index (flags : Z) (offsets : list Z) (cd : CentralDir.CentralDictionary)
    : result SarError.t unit :=
  let cdc_support := contains flags GlobalFlags.CDC_SUPPORT in
  let has_cdc_metadata :=
    existsb (λ t, CdcMap.is_cdc_metadata_tlv_type (Tlv.type_id t)) (CentralDir.metadata cd) in
  if has_cdc_metadata && negb cdc_support
  then Err (SarError.FlagConflict "CDC metadata requires the CDC_SUPPORT global flag") else
  n ← ok_or (try_from 64 (len offsets)) (SarError.Overflow "entry count");
  if negb (CentralDir.file_count cd =? n)
  then Err (SarError.InvalidLength "CD file count mismatch") else
  if negb (bool_decide (CentralDir.offsets cd = offsets))
  then Err (SarError.InvalidMap "CD offsets do not match Data Area LFH offsets") else
  let has_data_hash :=
    existsb (λ t, (0x30 <=? Tlv.type_id t) && (Tlv.type_id t <=? 0x3F)) (CentralDir.metadata cd) in
  if contains flags GlobalFlags.SIGNED && negb has_data_hash
  then Err (SarError.FlagConflict "SIGNED requires DATA_HASH TLV in metadata") else
  _ ← (if contains flags GlobalFlags.HAS_GLOBAL_EC
       then validate_recovery_tlvs (CentralDir.metadata cd) (limits options) else Ok ());
  if cdc_support then validate_cdc_tlvs (CentralDir.metadata cd) (limits options) else Ok ().

Definition verify (r : ArchiveReader) : ArchiveReader * result SarError.t VerificationReport :=
  match rewind r "global header missing" with
  | (r, Ok header) =>
      match entries_loop verify_entry (entries_fuel r) r ([], 0) with
      | (r, Ok (offsets, cdc_entry_count)) =>
          (r, _ ← (match cd r with
                   | Some cd => verify_index (Format.flags header) offsets cd
                   | None => Ok ()
                   end);
              n ← ok_or (try_from 64 (len offsets)) (SarError.Overflow "entry count");
              Ok {| valid := true; entry_count := n; indexed := bool_decide (is_Some (cd r));
                    cdc_entry_count := cdc_entry_count;
                    cdc_support := contains (Format.flags header) GlobalFlags.CDC_SUPPORT |})
      | (r, Err e) => (r, Err e)
      | (r, Panic) => (r, Panic)
      end
  | (r, Err e) => (r, Err e)
  | (r, Panic) => (r, Panic)
  end.

(** [matches!(err, KeyMissing(_) | BaseMissing(_))]. *)
Definition is_unavailable (e : SarError.t) : bool :=
  match e with SarError.KeyMissing _ | SarError.BaseMissing _ => true | _ => false end.

(** What an audit finds out about a payload: its status, the decoded size, the error. *)
Definition audit_payload (aopts : ArchiveAuditOptions) (r : ArchiveReader)
    (header : Format.GlobalHeader) (lfh : Lfh.LocalFileHeader) (lfh_bytes : list byte)
    (kind : ArchiveAuditEntryKind) (payload_start : Z)
    : result SarError.t (ArchiveAuditPayloadStatus * option Z * option SarError.t
                         * option (list byte)) :=
  match kind with
  | OrdinaryEntry =>
      if decide (payload_policy aopts = MetadataOnly) then Ok (Skipped, None, None, None)
      else
        encoded_payload ← read_payload r lfh payload_start;
        match decode_ordinary_archive_entry_from_parts oc options key_provider header
                (global_flags_section r) (next_offset r) lfh lfh_bytes encoded_payload with
        | Ok decoded =>
            n ← ok_or (try_from 64 (len (parts_payload decoded)))
                  (SarError.Overflow "decoded payload size");
            Ok (Decoded, Some n, None, None)
        | Err err =>
            if decide (payload_policy aopts = RequireDecode) then Err err
            else Ok (if is_unavailable err then Unavailable else Failed, None, Some err, None)
        | Panic => Panic
        end
  | InertOpcodeEntry | InertSessionControl =>
      if include_inert_payload_bytes aopts then
        raw_payload ← read_payload r lfh payload_start;
        Ok (Skipped, None, None, Some raw_payload)
      else Ok (Skipped, None, None, None)
  end.

(** One round of the loop of [audit]. *)
Definition audit_entry (aopts : ArchiveAuditOptions) (header : Format.GlobalHeader)
    (r : ArchiveReader) : result SarError.t (ArchiveAuditEntryReport * Z) :=
  '(lfh, lfh_bytes) ← read_lfh r header;
  let mode := Lfh.entry_mode lfh in
  let session_control := EntryMode.is_session_control mode in
  let op_code := EntryMode.op_code mode in
  let kind := if session_control then InertSessionControl
              else if negb (op_code =? 0) then InertOpcodeEntry else OrdinaryEntry in
  if negb (bool_decide (kind = OrdinaryEntry))
     && bool_decide (control_entry_policy aopts = Reject)
  then Err (SarError.Unsupported
    "archive parsing rejects SESSION_CONTROL entries and nonzero OP_CODE values by default") else
  '(payload_start, payload_end) ← payload_range r lfh;
  '(status, size, error, inert) ← audit_payload aopts r header lfh lfh_bytes kind payload_start;
  Ok ({| rep_lfh_offset := next_offset r; entry_mode_bits := mode; rep_op_code := op_code;
         session_control := session_control; kind := kind;
         rep_payload_size := Lfh.payload_size lfh;
         rep_uncompressed_size := Lfh.uncompressed_size lfh;
         rep_comp_algo_id := Lfh.comp_algo_id lfh; rep_encr_algo_id := Lfh.encr_algo_id lfh;
         rep_fec_algo_id := Lfh.fec_algo_id lfh; rep_patch_algo_id := Lfh.patch_algo_id lfh;
         payload_status := status; decoded_payload_size := size;
         payload_error_status := SarStatus.name ∘ SarError.status <$> error;
         payload_error := error; inert_payload_bytes := inert |}, payload_end).

Fixpoint audit_loop (aopts : ArchiveAuditOptions) (header : Format.GlobalHeader) (fuel : nat)
    (r : ArchiveReader) (out : list ArchiveAuditEntryReport)
    : ArchiveReader * result SarError.t (list ArchiveAuditEntryReport) :=
  match fuel with
  | O => (r, Panic)
  | S fuel =>
      if next_offset r <? data_end r then
        match audit_entry aopts header r with
        | Ok (report, payload_end) =>
            audit_loop aopts header fuel (set_next_offset r payload_end) (out ++ [report])
        | Err e => (r, Err e)
        | Panic => (r, Panic)
        end
      else (r, Ok out)
  end.

(** The recovery summary: the type ids, sorted, each once. *)
Definition recovery_summary (cd : option CentralDir.CentralDictionary)
    : result SarError.t (option ArchiveAuditRecoverySummary) :=
  let ids := match cd with
             | Some cd => Tlv.type_id <$> filter (λ t, is_recovery_tlv t = true) (CentralDir.metadata cd)
             | None => []
             end in
  let ids := dedup_by_key id (sort_by_key id ids) in
  if len ids =? 0 then Ok None
  else
    n ← ok_or (try_from 32 (len ids)) (SarError.Overflow "recovery tlv count");
    Ok (Some {| tlv_count := n; tlv_type_ids := ids |}).

Definition audit (r : ArchiveReader) (aopts : ArchiveAuditOptions)
    : ArchiveReader * result SarError.t ArchiveAuditReport :=
  match rewind r "global header missing" with
  | (r, Ok header) =>
      match audit_loop aopts header (entries_fuel r) r [] with
      | (r, Ok reports) =>
          let no_index := contains (Format.flags header) GlobalFlags.NO_INDEX in
          (r, recovery ← recovery_summary (cd r);
              n ← ok_or (try_from 64 (len reports)) (SarError.Overflow "entry count");
              Ok {| mode := if no_index then NoIndex else Indexed;
                    audit_global_flags := Format.flags header; entry_count_seen := n;
                    entries := reports; footer_present := negb no_index;
                    central_dictionary_present := bool_decide (is_Some (cd r));
                    cd_footer_valid := no_index || bool_decide (is_Some (cd r));
                    recovery := recovery |})
      | (r, Err e) => (r, Err e)
      | (r, Panic) => (r, Panic)
      end
  | (r, Err e) => (r, Err e)
  | (r, Panic) => (r, Panic)
  end.

Definition apply_sparse_if_needed (payload : list byte)
    (extents : option (list Sparse.SparseExtent)) (uncompressed_size : Z)
    : result SarError.t (list byte) :=
  match extents with
  | None => Ok payload
  | Some extents =>
      if len extents =? 0 then Ok payload else
      _ ← check_decoded_entry_size (limits options) uncompressed_size;
      _ ← map_err SparseError.to_sar
            (Sparse.validate_sparse_extents extents uncompressed_size
               (sparse_limits (limits options)));
      map_err SparseError.to_sar
        (Sparse.apply_sparse_reconstruction payload extents uncompressed_size
           (sparse_limits (limits options)))
  end.

Section logical_files.
Context (crc32 : list byte → Z).

(** [if PER_FILE_CRC && let Some(expected_crc) = .. { .. }]. *)
Definition check_crc (flags : Z) (expected : option Z) (data : list byte) (msg : string)
    : result SarError.t unit :=
  match expected with
  | Some crc =>
      if contains flags GlobalFlags.PER_FILE_CRC && negb (crc32 data =? crc)
      then Err (SarError.CrcMismatch msg) else Ok ()
  | None => Ok ()
  end.

(** A fragment: its group is created or extended. *)
Definition add_fragment (g : Grouping) (entry : EntryReader) : result SarError.t Grouping :=
  let m := metadata entry in
  fid ← ok_or (Metadata.meta_fragment_id m)
          (SarError.Malformed "IS_FRAGMENT set but fragment_id is absent");
  let has_sparse := bool_decide (is_Some (Metadata.sparse_extents m)) in
  let first := bool_decide (Metadata.meta_fragment_index m = Some 0) in
  if has_sparse && negb first
  then Err (SarError.InvalidMap "sparse map present on non-zero fragment index; Sparse Map MUST appear only in fragment with Fragment Index = 0") else
  let '(order, group) :=
    match frag_groups g !! fid with
    | Some group => (frag_order g, group)
    | None =>
        (frag_order g ++ [fid],
         {| group_name := Metadata.name m; group_entries := []; sparse_extents := None;
            sparse_uncompressed_size := 0; file_crc32 := None |})
    end in
  n ← ok_or (checked_add 64 (len (group_entries group)) 1) (SarError.Overflow "fragment count");
  _ ← check_fragment_count (limits options) n;
  let group :=
    {| group_name := group_name group;
       group_entries := group_entries group ++ [entry];
       sparse_extents := if first && has_sparse then Metadata.sparse_extents m
                         else sparse_extents group;
       sparse_uncompressed_size := if first && has_sparse then Metadata.uncompressed_size m
                                   else sparse_uncompressed_size group;
       file_crc32 := if first then Metadata.file_crc32 m else file_crc32 group |} in
  Ok {| frag_order := order; frag_groups := <[fid := group]> (frag_groups g);
        files := files g |}.

(** One round of the loop over the entries. *)
Definition group_entry (flags : Z) (g : Grouping) (entry : EntryReader)
    : result SarError.t Grouping :=
  let m := metadata entry in
  if (len (Metadata.name m) =? 0) && negb (Metadata.is_fragment m) then Ok g
  else if Metadata.is_fragment m then add_fragment g entry
  else
    data ← apply_sparse_if_needed (payload entry) (Metadata.sparse_extents m)
             (Metadata.uncompressed_size m);
    _ ← check_crc flags (Metadata.file_crc32 m) data
          "file CRC32 mismatch on reconstructed logical file";
    Ok {| frag_order := frag_order g; frag_groups := frag_groups g;
          files := files g ++ [{| file_name := Metadata.name m; fragment_id := None;
                                  data := data; is_degraded := false |}] |}.
Fixpoint group_entries_loop (flags : Z) (g : Grouping) (es : list EntryReader)
    : result SarError.t Grouping :=
  match es with
  | [] => Ok g
  | e :: es => g ← group_entry flags g e; group_entries_loop flags g es
  end.

(** The assembled size: the largest end of a fragment. *)
Fixpoint assembled_loop (size : Z) (es : list EntryReader) : result SarError.t Z :=
  match es with
  | [] => Ok size
  | e :: es =>
      size ← (match Metadata.fragment_descriptor (metadata e) with
              | Some desc =>
                  end_ ← ok_or (checked_add 64 (Fragmentation.absolute_offset desc)
                                  (Fragmentation.fragment_size desc))
                           (SarError.Overflow "fragment descriptor end overflow");
                  Ok (if end_ >? size then end_ else size)
              | None => Ok size
              end);
      assembled_loop size es
  end.
(** The fragments with a descriptor. *)
Definition fragment_of (e : EntryReader) : option Fragmentation.FragmentEntry :=
  let m := metadata e in
  desc ← Metadata.fragment_descriptor m;
  Some {| Fragmentation.fragment_index := default 0 (Metadata.meta_fragment_index m);
          Fragmentation.is_last_fragment := Metadata.is_last_fragment m;
          Fragmentation.is_loss_tolerant := Metadata.meta_is_loss_tolerant m;
          Fragmentation.descriptor := desc; Fragmentation.payload := payload e |}.

(** One round of the loop over the groups. *)
Definition assemble_group (allow_lossy : bool) (flags fid : Z) (group : FragGroup)
    : result SarError.t LogicalFile :=
  assembled_size ← assembled_loop 0 (group_entries group);
  let frag_entries := omap fragment_of (group_entries group) in
  '(raw, degraded) ← map_err FragmentError.to_sar
    (Fragmentation.reconstruct_fragments frag_entries assembled_size
       (fragment_limits (limits options)));
  if degraded && negb allow_lossy
  then Err (SarError.FragmentGap
         "fragment group has gaps; use allow_lossy to permit degraded output") else
  data ← (match sparse_extents group with
          | Some extents =>
              if sparse_uncompressed_size group >? max_decoded_entry_size options
              then Err (SarError.LimitExceeded "sparse logical file size exceeds configured limit")
              else
                _ ← map_err SparseError.to_sar
                      (Sparse.validate_sparse_extents extents (sparse_uncompressed_size group)
                         (sparse_limits (limits options)));
                map_err SparseError.to_sar
                  (Sparse.apply_sparse_reconstruction raw extents
                     (sparse_uncompressed_size group) (sparse_limits (limits options)))
          | None => Ok raw
          end);
  _ ← check_crc flags (file_crc32 group) data
        "file CRC32 mismatch on reconstructed fragment-group logical file";
  Ok {| file_name := group_name group; fragment_id := Some fid; data := data;
        is_degraded := degraded |}.
Fixpoint assemble_loop (allow_lossy : bool) (flags : Z) (groups : gmap Z FragGroup)
    (order : list Z) (out : list LogicalFile) : result SarError.t (list LogicalFile) :=
  match order with
  | [] => Ok out
  | fid :: order =>
      group ← ok_or (groups !! fid)
                (SarError.Malformed "fragment group ID vanished during reconstruction");
      file ← assemble_group allow_lossy flags fid group;
      assemble_loop allow_lossy flags (delete fid groups) order (out ++ [file])
  end.

Definition read_all_logical_files (r : ArchiveReader) (allow_lossy : bool)
    : ArchiveReader * result SarError.t (list LogicalFile) :=
  match rewind r "global header missing after read" with
  | (r, Ok header) =>
      match entries_loop (λ acc e, Ok (acc ++ [e])) (entries_fuel r) r [] with
      | (r, Ok all_entries) =>
          let flags := Format.flags header in
          (r, g ← group_entries_loop flags {| frag_order := []; frag_groups := ∅; files := [] |}
                    all_entries;
              assemble_loop allow_lossy flags (frag_groups g) (frag_order g) (files g))
      | (r, Err e) => (r, Err e)
      | (r, Panic) => (r, Panic)
      end
  | (r, Err e) => (r, Err e)
  | (r, Panic) => (r, Panic)
  end.
End logical_files.
End reader.

(** ** The entries one after the other *)
Section progress.
Context {B : Bitflags} {Comp : Compression.Compressors} {Ciph : Crypto.Ciphers} {K : Kms.Kdfs}.
Context (oc : bool) (options : ArchiveReaderOptions) (key_provider : option Kms.KeyProvider).
#[local] Abbreviation next_entry := (next_entry oc options key_provider).

Lemma bump_mono c v off k : 0 ≤ v → k ≤ off → k ≤ Lfh.bump c v off.
Proof. destruct c; cbn; lia. Qed.
Lemma fec_size_field_offset_pos flags : 10 ≤ Lfh.fec_size_field_offset flags.
Proof.
  unfold Lfh.fec_size_field_offset, Format.size_field_len. do 2 (apply bump_mono; [lia|]).
  apply (Z.le_trans _ (10 + 2)); [lia|]. apply Z.add_le_mono_r.
  do 13 (apply bump_mono; [lia|]). case_match; lia.
Qed.
Lemma lfh_len_pos flags l : 10 ≤ Lfh.lfh_len flags l.
Proof.
  rewrite Lfh.lfh_len_split. unfold Lfh.fixed_len. pose proof (fec_size_field_offset_pos flags).
  pose proof (len_nonneg (Lfh.name l)). pose proof (len_nonneg (Lfh.path l)).
  pose proof (len_nonneg (Lfh.sparse_map l)). pose proof (len_nonneg (Lfh.fec_value l)).
  repeat case_match; lia.
Qed.

(** A header that is read was parsed from its own bytes. *)
Lemma read_lfh_Ok r h lfh bs :
  read_lfh options r h = Ok (lfh, bs) →
  Lfh.parse_lfh bs (Format.flags h) (limits options) = Ok (lfh, Lfh.header_size lfh)
  ∧ 10 ≤ Lfh.header_size lfh.
Proof.
  unfold read_lfh. intros H. inv_ok.
  match goal with H : Lfh.parse_lfh _ _ _ = Ok (_, ?n) |- _ =>
    pose proof (Lfh.parse_lfh_inv _ _ _ _ _ H) as ((_ & _ & Hh & _) & <- & _) end.
  split; [done|]. rewrite Hh. apply lfh_len_pos.
Qed.
Lemma payload_range_Ok r lfh a b :
  payload_range r lfh = Ok (a, b) →
  a = next_offset r + Lfh.header_size lfh ∧ b = a + Lfh.payload_size lfh ∧ b ≤ data_end r.
Proof. unfold payload_range. intros H. inv_ok. lia. Qed.
Lemma parsed_sizes input flags limits lfh n :
  Lfh.parse_lfh input flags limits = Ok (lfh, n) →
  0 ≤ Lfh.payload_size lfh ∧ 0 ≤ Lfh.uncompressed_size lfh.
Proof.
  intros ((Hf & _) & _)%Lfh.parse_lfh_inv. unfold Lfh.fields_wf in Hf. destruct_and! Hf.
  by split; eapply Format.size_wf_u64.
Qed.

(** What a successful call returns, and where it leaves the reader. *)
Lemma next_entry_Ok r o r' :
  next_entry r = Ok (o, r') →
  match o with
  | None => r' = r ∧ data_end r ≤ next_offset r
  | Some e =>
      let size := Lfh.header_size (EntryDecode.header e) + Lfh.payload_size (EntryDecode.header e) in
      Metadata.lfh_offset (metadata e) = next_offset r ∧ next_offset r < data_end r
      ∧ 10 ≤ size ∧ next_offset r + size ≤ data_end r
      ∧ r' = set_next_offset r (next_offset r + size)
  end.
Proof.
  unfold next_entry. intros (h & _ & H)%bind_Ok. destruct (Z.geb_spec (next_offset r) (data_end r)).
  { by injection H as <- <-. }
  apply bind_Ok in H as ([lfh bs] & [Hp Hs]%read_lfh_Ok & H). apply guard_Ok in H as [_ H].
  apply bind_Ok in H as ([a b] & (-> & -> & Hb)%payload_range_Ok & H).
  apply bind_Ok in H as (enc & _ & H). apply bind_Ok in H as (parts & Hd & H).
  apply Ok_inj in H as [= <- <-]. cbn [EntryDecode.header metadata].
  apply parsed_sizes in Hp as [Hp _].
  split_and!; [|lia..|by rewrite Z.add_assoc].
  unfold decode_ordinary_archive_entry_from_parts in Hd. apply guard_Ok in Hd as [_ Hd].
  apply bind_Ok in Hd as (d & _ & Hd). apply bind_Ok in Hd as (v & _ & Hd).
  apply bind_Ok in Hd as (p & _ & Hd). by apply Ok_inj in Hd as <-.
Qed.

(** A fold that may fail. *)
Fixpoint fold_entries {A} (f : A → EntryReader → result SarError.t A) (acc : A)
    (es : list EntryReader) : result SarError.t A :=
  match es with
  | [] => Ok acc
  | e :: es => acc ← f acc e; fold_entries f acc es
  end.

Lemma read_at_len src pos n bs :
  0 ≤ pos → 0 ≤ n → read_at src pos n = Ok bs → len bs = n.
Proof.
  intros Hp Hn H. unfold read_at in H. destruct (_ || _) eqn:E; [|done]. injection H as <-.
  apply orb_prop in E as [E|E].
  - apply Z.eqb_eq in E as ->. rewrite Z.add_0_r. unfold slice. by rewrite Z.sub_diag.
  - apply Z.leb_le in E. rewrite len_slice; lia.
Qed.
(** The size that [parse_lfh] returns is the first field. *)
Lemma parse_lfh_size bs flags l lfh n v rest :
  bs = le_bytes 4 v ++ rest → fits 32 v → Lfh.parse_lfh bs flags l = Ok (lfh, n) → n = v.
Proof.
  intros -> Hv H. unfold Lfh.parse_lfh in H. apply bind_Ok in H as ([hs c] & Hr & H).
  apply bind_Ok in H as (n' & (-> & _)%ok_or_Ok%try_from_Some & H).
  apply bind_Ok in H as ([] & _ & H). apply guard_Ok in H as [_ H].
  apply bind_Ok in H as (hdr & _ & H). apply bind_Ok in H as ([l' c'] & _ & [= _ <-]).
  apply (@Cursor.codec_sound _ _ _ _ Cursor.codec_u32) in Hr
    as [(_ & Hpos & Hs & _) Hf]; [|apply Cursor.new_wf].
  cbn [Cursor.input Cursor.pos Cursor.new] in Hpos, Hs. rewrite Hpos, len_le_bytes in Hs.
  rewrite slice_prefix in Hs by by rewrite len_le_bytes.
  apply (f_equal le_val) in Hs. unfold fits in *. by rewrite !le_val_bytes in Hs by done.
Qed.

(** The header is parsed from the bytes of the source it occupies. *)
Lemma read_lfh_source r h lfh bs :
  0 ≤ next_offset r → read_lfh options r h = Ok (lfh, bs) →
  bs = slice (source r) (next_offset r) (next_offset r + Lfh.header_size lfh).
Proof.
  intros H0 H. pose proof (read_lfh_Ok r h lfh bs H) as [Hp _]. unfold read_lfh in H.
  apply bind_Ok in H as (hb & Hb & H). apply bind_Ok in H as (v & Hv & H).
  apply bind_Ok in H as (hs & (-> & _)%ok_or_Ok%try_from_Some & H).
  apply bind_Ok in H as ([] & _ & H). apply guard_Ok in H as [H4 H].
  apply bind_Ok in H as (bs' & Hbs & H). apply bind_Ok in H as ([lfh' n] & _ & [= -> ->]).
  assert (Hl : len hb = 4) by (by eapply read_at_len in Hb; [|lia..]).
  apply u32_le_Ok in Hv as (_ & _ & Hf & Hv). rewrite Z.add_0_l, <- Hl, slice_full in Hv.
  assert (Heq : bs = hb ++ slice (source r) (next_offset r + 4) (next_offset r + v)).
  { destruct (Z.gtb_spec v 4).
    - apply bind_Ok in Hbs as (tail & Ht & [= <-]). f_equal. unfold read_at in Ht.
      destruct (_ || _); [|done]. apply Ok_inj in Ht as <-. f_equal. lia.
    - apply Ok_inj in Hbs as <-. replace v with 4 by lia. by rewrite slice_empty, app_nil_r. }
  rewrite (parse_lfh_size bs _ _ _ _ v _ ltac:(by rewrite Heq, Hv) Hf Hp), Heq.
  unfold read_at in Hb. destruct (_ || _); [|done]. apply Ok_inj in Hb as <-.
  apply slice_app_split; lia.
Qed.

(** The entry [e] is the one the bytes of the source at an offset encode: its header is
    parsed from them, it is an ordinary entry, its payload lies behind the header and within
    the source, and payload and metadata are what this header and this payload decode to. *)
Definition entry_at (r : ArchiveReader) (h : Format.GlobalHeader) (from : Z) (e : EntryReader) : Prop :=
  let lfh := EntryDecode.header e in
  let start := from + Lfh.header_size lfh in
  let bs := slice (source r) from start in
  Lfh.parse_lfh bs (Format.flags h) (limits options) = Ok (lfh, Lfh.header_size lfh)
  ∧ EntryMode.is_session_control (Lfh.entry_mode lfh) = false
  ∧ EntryMode.op_code (Lfh.entry_mode lfh) = 0
  ∧ start + Lfh.payload_size lfh ≤ data_end r
  ∧ decode_ordinary_archive_entry_from_parts oc options key_provider h (global_flags_section r) from
      lfh bs (slice (source r) start (start + Lfh.payload_size lfh))
    = Ok {| parts_payload := payload e; parts_metadata := metadata e |}
  ∧ Metadata.lfh_offset (metadata e) = from.
(** The entries that the bytes between two offsets encode, one behind the other. *)
Fixpoint entries_at (r : ArchiveReader) (h : Format.GlobalHeader) (from : Z) (es : list EntryReader)
    (to : Z) : Prop :=
  match es with
  | [] => from = to
  | e :: es =>
      entry_at r h from e
      ∧ entries_at r h (from + Lfh.header_size (EntryDecode.header e)
                        + Lfh.payload_size (EntryDecode.header e)) es to
  end.

Lemma next_entry_at r h e r' :
  0 ≤ next_offset r → global_header r = Some h → next_entry r = Ok (Some e, r') →
  entry_at r h (next_offset r) e.
Proof.
  intros H0 Hh Hn. pose proof (next_entry_Ok _ _ _ Hn) as (Ho & _). revert Hn.
  unfold next_entry. rewrite Hh. cbn [ok_or mbind result_bind].
  destruct (Z.geb_spec (next_offset r) (data_end r)) as [_|_]; [done|].
  intros ([lfh bs] & Hr & H)%bind_Ok. pose proof (read_lfh_Ok _ _ _ _ Hr) as [Hp Hs].
  pose proof (read_lfh_source _ _ _ _ H0 Hr) as Hbs. apply guard_Ok in H as [Hm H].
  apply bind_Ok in H as ([a b] & (-> & -> & Hb)%payload_range_Ok & H).
  apply bind_Ok in H as (enc & Henc & H). apply bind_Ok in H as (parts & Hd & H).
  apply Ok_inj in H as [= <- <-]. cbn [EntryDecode.header metadata] in Ho.
  apply orb_false_iff in Hm as [Hsc Hop%negb_false_iff%Z.eqb_eq].
  unfold entry_at. cbn [EntryDecode.header metadata payload]. rewrite <- Hbs.
  apply bind_Ok in Henc as (pl & Hpl & Henc). unfold allocation_len in Hpl.
  assert (pl = Lfh.payload_size lfh) as -> by (by inv_ok).
  unfold read_at in Henc. destruct (_ || _); [|done]. apply Ok_inj in Henc as <-.
  rewrite Hd. by destruct parts.
Qed.
Lemma entry_at_moved r h from e o : entry_at (set_next_offset r o) h from e ↔ entry_at r h from e.
Proof. done. Qed.
Lemma entries_at_moved r h from es to o :
  entries_at (set_next_offset r o) h from es to ↔ entries_at r h from es to.
Proof. revert from. induction es as [|e es IH]; intros from; cbn; [done|]. by rewrite IH. Qed.

(** When the loop succeeds, the accumulator was folded over the entries the data area
    encodes. *)
Lemma entries_loop_at {A} (f : A → EntryReader → result SarError.t A) h fuel r acc r' acc' :
  0 ≤ next_offset r ≤ data_end r → global_header r = Some h →
  entries_loop oc options key_provider f fuel r acc = (r', Ok acc') →
  r' = set_next_offset r (data_end r)
  ∧ ∃ es, entries_at r h (next_offset r) es (data_end r) ∧ fold_entries f acc es = Ok acc'.
Proof.
  revert r acc. induction fuel as [|fuel IH]; intros r acc Hle Hh H; [done|]. cbn [entries_loop] in H.
  destruct (next_entry r) as [[[e|] r1]| |] eqn:En; [| |done..].
  - destruct (f acc e) as [acc1| |] eqn:Ef; [|done..].
    pose proof (next_entry_at _ _ _ _ (proj1 Hle) Hh En) as Hat.
    apply next_entry_Ok in En as (Ho & _ & Hs & Hb & ->).
    apply IH in H as (-> & es & Ht & Hf); [|cbn; lia|done]. split; [done|].
    exists (e :: es). cbn [entries_at fold_entries]. rewrite Ef. split_and!; [done| |done].
    rewrite entries_at_moved in Ht. by rewrite <- Z.add_assoc.
  - apply next_entry_Ok in En as [-> Hd]. injection H as <- <-.
    assert (Heq : next_offset r = data_end r) by lia. split; [rewrite <- Heq; by destruct r|].
    exists []. by split.
Qed.

(** One turn never panics in a build without overflow checks. *)
Lemma read_at_no_panic src pos n : no_panic (read_at src pos n).
Proof. unfold read_at. by case_match. Qed.
Lemma read_lfh_no_panic r h : 0 ≤ next_offset r → no_panic (read_lfh options r h).
Proof.
  intros Hn. unfold read_lfh. apply no_panic_bind; [apply read_at_no_panic|].
  intros hb Hb%read_at_len; [|lia..]. apply no_panic_bind; [apply u32_le_no_panic; lia|].
  intros v _. apply no_panic_bind; [apply no_panic_ok_or|]. intros n _.
  apply no_panic_bind; [apply no_panic_check|]. intros _ _. dif as E; [done|].
  apply no_panic_bind.
  { dif as E1; [|done]. apply no_panic_bind; [apply read_at_no_panic|done]. }
  intros bs _. apply no_panic_bind; [apply Lfh.parse_lfh_no_panic|]. by intros [].
Qed.
Lemma limits_allocation_no_panic l n c : no_panic (allocation_len l n c).
Proof. unfold allocation_len, check_allocation_bytes. np. Qed.
Lemma read_payload_no_panic r lfh a : no_panic (read_payload options r lfh a).
Proof.
  unfold read_payload. apply no_panic_bind; [apply limits_allocation_no_panic|].
  intros. apply read_at_no_panic.
Qed.
Lemma payload_range_no_panic r lfh : no_panic (payload_range r lfh).
Proof. unfold payload_range. np. Qed.
Lemma decode_ordinary_no_panic h section off input lfh n bs encoded :
  oc = false → options_ok options → provider_total key_provider →
  Lfh.parse_lfh input (Format.flags h) (limits options) = Ok (lfh, n) →
  no_panic (decode_ordinary_archive_entry_from_parts oc options key_provider h section off lfh bs encoded).
Proof.
  intros Hoc O Ht Hp. unfold decode_ordinary_archive_entry_from_parts. dif as E; [done|].
  apply no_panic_bind.
  { pose proof (parsed_within oc options key_provider h section input lfh n bs encoded
      (EntryMode.is_encrypted (Lfh.entry_mode lfh)) O Ht Hp) as Hw.
    destruct (decode_stages _ _ _ _ _ _ _ _ _); [done..|]. exfalso. cbn in Hw. congruence. }
  intros d _. apply no_panic_bind; [apply parse_views_no_panic|]. intros v _.
  apply no_panic_bind; [apply parse_path_no_panic|done].
Qed.

Section total.
Context (Hoc : oc = false) (O : options_ok options) (Ht : provider_total key_provider).

Lemma next_entry_no_panic r : 0 ≤ next_offset r → no_panic (next_entry r).
Proof.
  intros Hn. unfold next_entry. apply no_panic_bind; [apply no_panic_ok_or|]. intros h _.
  dif as E; [done|]. apply no_panic_bind; [by apply read_lfh_no_panic|].
  intros [lfh bs] [Hp _]%read_lfh_Ok. dif as E1; [done|].
  apply no_panic_bind; [apply payload_range_no_panic|]. intros [a b] _.
  apply no_panic_bind; [apply read_payload_no_panic|]. intros enc _.
  apply no_panic_bind; [by eapply decode_ordinary_no_panic|done].
Qed.
(** Every turn consumes at least ten bytes, so the fuel is enough. *)
Lemma entries_loop_no_panic {A} (f : A → EntryReader → result SarError.t A) fuel r acc :
  0 ≤ next_offset r → (Z.to_nat (data_end r - next_offset r) < fuel)%nat →
  (∀ acc e, no_panic (f acc e)) →
  no_panic (snd (entries_loop oc options key_provider f fuel r acc)).
Proof.
  intros H0 Hf Hfp. revert r acc H0 Hf. induction fuel as [|fuel IH]; intros r acc H0 Hf; [lia|].
  cbn [entries_loop]. pose proof (next_entry_no_panic r H0) as Hn.
  destruct (next_entry r) as [[[e|] r1]| |] eqn:En; [|done..].
  pose proof (Hfp acc e). destruct (f acc e); [|done..].
  apply next_entry_Ok in En as (_ & _ & Hs & Hb & ->). apply IH; cbn [next_offset set_next_offset data_end]; lia.
Qed.
Lemma audit_payload_no_panic aopts r h input lfh n bs kind a :
  Lfh.parse_lfh input (Format.flags h) (limits options) = Ok (lfh, n) →
  no_panic (audit_payload oc options key_provider aopts r h lfh bs kind a).
Proof.
  intros Hp. unfold audit_payload. destruct kind.
  - case_match; [done|]. apply no_panic_bind; [apply read_payload_no_panic|]. intros enc _.
    pose proof (decode_ordinary_no_panic h (global_flags_section r) (next_offset r) input lfh n bs
      enc Hoc O Ht Hp) as Hd.
    destruct (decode_ordinary_archive_entry_from_parts _ _ _ _ _ _ _ _ _); [| |done].
    + apply no_panic_bind; [apply no_panic_ok_or|done].
    + by case_match.
  - case_match; [|done]. apply no_panic_bind; [apply read_payload_no_panic|done].
  - case_match; [|done]. apply no_panic_bind; [apply read_payload_no_panic|done].
Qed.
Lemma audit_entry_no_panic aopts h r :
  0 ≤ next_offset r → no_panic (audit_entry oc options key_provider aopts h r).
Proof.
  intros Hn. unfold audit_entry. apply no_panic_bind; [by apply read_lfh_no_panic|].
  intros [lfh bs] [Hp _]%read_lfh_Ok. dif as E1; [done|].
  apply no_panic_bind; [apply payload_range_no_panic|]. intros [a b] _.
  apply no_panic_bind; [by eapply audit_payload_no_panic|]. by intros [[[] ]].
Qed.
Lemma audit_entry_Ok aopts h r rep b :
  audit_entry oc options key_provider aopts h r = Ok (rep, b) → next_offset r < b ≤ data_end r.
Proof.
  unfold audit_entry. intros H. apply bind_Ok in H as ([lfh bs] & [Hp Hs]%read_lfh_Ok & H).
  apply guard_Ok in H as [_ H]. apply bind_Ok in H as ([a b'] & (-> & -> & Hb)%payload_range_Ok & H).
  apply bind_Ok in H as ([[[]]] & _ & H). apply Ok_inj in H as [= <- <-].
  apply parsed_sizes in Hp as [Hp _]. lia.
Qed.
Lemma audit_loop_no_panic aopts h fuel r out :
  0 ≤ next_offset r → (Z.to_nat (data_end r - next_offset r) < fuel)%nat →
  no_panic (snd (audit_loop oc options key_provider aopts h fuel r out)).
Proof.
  revert r out. induction fuel as [|fuel IH]; intros r out H0 Hf; [lia|].
  cbn [audit_loop]. case_match; [|done].
  pose proof (audit_entry_no_panic aopts h r H0) as Hn.
  destruct (audit_entry _ _ _ _ _ _) as [[rep b]| |] eqn:En; [|done..].
  apply audit_entry_Ok in En. apply IH; cbn [next_offset set_next_offset data_end]; lia.
Qed.
End total.

End progress.

(** ** Opening an archive *)
Section opening.
Context {B : Bitflags} {Comp : Compression.Compressors} {Ciph : Crypto.Ciphers} {K : Kms.Kdfs}.
Context (oc : bool) (options : ArchiveReaderOptions) (key_provider : option Kms.KeyProvider).

Lemma read_at_end src pos n bs :
  0 ≤ pos → 0 ≤ n → read_at src pos n = Ok bs → len bs = n ∧ (n = 0 ∨ pos + n ≤ len src).
Proof.
  intros Hp Hn H. split; [by apply (read_at_len src pos)|]. unfold read_at in H.
  destruct (_ || _) eqn:E; [|done]. apply orb_prop in E as [E|E]; lia.
Qed.
Lemma read_header_bytes_len src bs :
  read_header_bytes options src = Ok bs → len bs ≤ len src.
Proof.
  unfold read_header_bytes. intros H. pose proof (len_nonneg src).
  apply bind_Ok in H as (fixed & Hf%read_at_end & H); [|lia..].
  apply bind_Ok in H as (n & (_ & _ & [Hn _] & _)%u16_le_Ok & H). apply guard_Ok in H as [_ H].
  apply bind_Ok in H as ([] & _ & H).
  apply bind_Ok in H as (fb & Hb%read_at_end & H); [|lia..].
  apply bind_Ok in H as (low & _ & H). apply bind_Ok in H as ([] & _ & H).
  apply bind_Ok in H as (hb & Hhb & H).
  assert (Hl : len hb ≤ len src).
  { destruct (contains _ GlobalFlags.PARTITIONED_ARCHIVE).
    - apply bind_Ok in Hhb as (d & Hd%read_at_end & [= <-]); [|lia..]. rewrite !len_app. lia.
    - apply Ok_inj in Hhb as <-. rewrite len_app. lia. }
  destruct (contains _ GlobalFlags.ENCRYPTED); [|by apply Ok_inj in H as <-].
  pose proof (len_nonneg hb).
  apply bind_Ok in H as (kp & Hk%read_at_end & H); [|lia..].
  apply bind_Ok in H as (v & (_ & _ & [Hv _] & _)%u32_le_Ok & H). 
  apply bind_Ok in H as (m & [-> _]%ok_or_Ok%try_from_Some & H).
  apply bind_Ok in H as ([] & _ & H).
  apply bind_Ok in H as (pl & Hp%read_at_end & [= <-]); [|lia..]. rewrite !len_app. lia.
Qed.
Lemma read_header_bytes_no_panic src : no_panic (read_header_bytes options src).
Proof.
  unfold read_header_bytes.
  apply no_panic_bind; [apply read_at_no_panic|]. intros fixed Hf%read_at_len; [|lia..].
  apply no_panic_bind; [apply u16_le_no_panic; lia|]. intros n Hn.
  dif as E; [done|]. apply no_panic_bind; [auto with no_panic|]. intros _ _.
  apply no_panic_bind; [apply read_at_no_panic|]. intros fb Hb%read_at_len; [|lia..].
  apply no_panic_bind; [apply u32_le_no_panic; lia|]. intros low _.
  apply no_panic_bind; [auto with no_panic|]. intros _ _. apply no_panic_bind.
  { dif as E1; [|done]. apply no_panic_bind; [apply read_at_no_panic|done]. }
  intros hb _. dif as E1; [|done]. apply no_panic_bind; [apply read_at_no_panic|].
  intros kp Hk%read_at_len; [|apply len_nonneg|lia].
  apply no_panic_bind; [apply u32_le_no_panic; lia|]. intros v _.
  apply no_panic_bind; [apply no_panic_ok_or|]. intros m _.
  apply no_panic_bind; [auto with no_panic|]. intros _ _.
  apply no_panic_bind; [apply read_at_no_panic|done].
Qed.
Lemma parse_global_header_len bs l h n :
  Format.parse_global_header bs l = Ok (h, n) → 0 ≤ n ≤ len bs.
Proof.
  unfold Format.parse_global_header. intros H. apply bind_Ok in H as ([h' c] & Hp & H).
  injection H as -> <-.
  apply (Cursor.codec_run_inv _ _ _ _ _ _ (Format.codec_gh l)) in Hp as (_ & Hp & _ & Hle).
  unfold Cursor.position. rewrite Hp. split; [apply len_nonneg|done].
Qed.
Lemma parse_central_dictionary_wf bs flags l cd n :
  CentralDir.parse_central_dictionary bs flags l = Ok (cd, n) →
  CentralDir.cd_wf flags l cd ∧ 0 ≤ n ≤ len bs.
Proof.
  unfold CentralDir.parse_central_dictionary. intros H. apply bind_Ok in H as ([] & _ & H).
  apply bind_Ok in H as ([cd' c] & Hp & H). injection H as -> <-.
  apply (Cursor.codec_run_inv _ _ _ _ _ _ (CentralDir.codec_cd flags l)) in Hp as (Hw & Hp & _ & Hle).
  split; [done|]. unfold Cursor.position. rewrite Hp. split; [apply len_nonneg|done].
Qed.
Lemma validate_recovery_tlvs_no_panic ts l : no_panic (validate_recovery_tlvs ts l).
Proof.
  induction ts as [|t ts IH]; [done|]. cbn [validate_recovery_tlvs].
  apply no_panic_bind; [|done]. dif as E; [|done].
  apply no_panic_bind; [apply FecRegistry.validate_recovery_tlv_no_panic|done].
Qed.
Lemma read_index_no_panic src n hl flags :
  0 ≤ hl → no_panic (read_index options src n hl flags).
Proof.
  intros Hh. unfold read_index. dif as E; [done|].
  apply no_panic_bind; [apply read_at_no_panic|]. intros fb _.
  apply no_panic_bind; [apply Format.parse_footer_no_panic|]. intros f _.
  apply no_panic_bind; [apply no_panic_ok_or|]. intros ie _.
  dif as E1; [done|]. dif as E2; [done|].
  apply no_panic_bind; [apply no_panic_ok_or|]. intros m _.
  apply no_panic_bind; [auto with no_panic|]. intros _ _.
  apply no_panic_bind; [unfold check_allocation_bytes; np|]. intros _ _.
  apply no_panic_bind; [apply limits_allocation_no_panic|]. intros k _.
  apply no_panic_bind; [apply read_at_no_panic|]. intros bs _.
  apply no_panic_bind; [apply CentralDir.parse_central_dictionary_no_panic|].
  intros [cd c] [_ Hc]%parse_central_dictionary_wf. dif as E3; [done|].
  apply no_panic_bind; [apply slice_r_no_panic; lia|]. intros pad _. dif as E4; [done|].
  dif as E5; [done|]. apply no_panic_bind; [|done].
  dif as E6; [|done]. apply validate_recovery_tlvs_no_panic.
Qed.
Lemma read_global_header_no_panic r : no_panic (read_global_header options r).
Proof.
  unfold read_global_header. apply no_panic_bind; [apply read_header_bytes_no_panic|]. intros hb _.
  apply no_panic_bind; [apply Format.parse_global_header_no_panic|].
  intros [h n] Hn%parse_global_header_len. apply no_panic_bind.
  { case_match; [|done]. dif as E; [|done].
    apply no_panic_bind; [apply no_panic_map_err, Kms.parse_kms_payload_no_panic|done]. }
  intros _ _. apply no_panic_bind; [apply no_panic_ok_or|].
  intros hl [-> _]%ok_or_Ok%try_from_Some. apply no_panic_bind.
  { dif as E; [done|]. apply no_panic_bind; [apply read_index_no_panic; lia|]. by intros []. }
  by intros [].
Qed.
Lemma read_index_Ok src n hl flags off cd :
  read_index options src n hl flags = Ok (off, cd) →
  hl ≤ off < n - 8 ∧ CentralDir.cd_wf flags (limits options) cd.
Proof.
  unfold read_index. intros H. apply guard_Ok in H as [_ H].
  apply bind_Ok in H as (fb & _ & H). apply bind_Ok in H as (f & _ & H).
  apply bind_Ok in H as (ie & [-> _]%ok_or_Ok%checked_sub_Some & H).
  apply guard_Ok in H as [E1 H]. apply guard_Ok in H as [E2 H].
  apply bind_Ok in H as (m & _ & H). do 2 apply bind_Ok in H as ([] & _ & H).
  apply bind_Ok in H as (k & _ & H). apply bind_Ok in H as (bs & _ & H).
  apply bind_Ok in H as ([cd' c] & [Hc _]%parse_central_dictionary_wf & H).
  apply guard_Ok in H as [_ H]. apply bind_Ok in H as (pad & _ & H).
  do 2 apply guard_Ok in H as [_ H]. apply bind_Ok in H as ([] & _ & H).
  apply Ok_inj in H as [= <- <-]. split; [lia|done].
Qed.
End opening.

(** ** The state of a reader *)
Section invariant.
Context {B : Bitflags} {Comp : Compression.Compressors} {Ciph : Crypto.Ciphers} {K : Kms.Kdfs}.
Context (oc : bool) (options : ArchiveReaderOptions) (key_provider : option Kms.KeyProvider).

(** The data area lies behind the header and within the file, the next entry within the
    data area; the index is there exactly when the flags announce it. *)
Definition opened_ok (r : ArchiveReader) (h : Format.GlobalHeader) : Prop :=
  0 ≤ header_len r ≤ next_offset r ∧ next_offset r ≤ data_end r ≤ file_len r
  ∧ match cd r with
    | None => contains (Format.flags h) GlobalFlags.NO_INDEX = true ∧ data_end r = file_len r
    | Some cd => contains (Format.flags h) GlobalFlags.NO_INDEX = false
                 ∧ data_end r < file_len r - 8
                 ∧ CentralDir.cd_wf (Format.flags h) (limits options) cd
    end.
Record reader_ok (r : ArchiveReader) : Prop := {
  source_len : len (source r) = file_len r;
  opened : ∀ h, global_header r = Some h → opened_ok r h }.

Lemma read_global_header_ok r h r' :
  reader_ok r → read_global_header options r = Ok (h, r') →
  reader_ok r' ∧ global_header r' = Some h ∧ next_offset r' = header_len r'.
Proof.
  intros [Hs _]. unfold read_global_header. intros H.
  apply bind_Ok in H as (hb & Hb%read_header_bytes_len & H).
  apply bind_Ok in H as ([h0 n] & Hn%parse_global_header_len & H).
  apply bind_Ok in H as ([] & _ & H). apply bind_Ok in H as (hl & [-> _]%ok_or_Ok%try_from_Some & H).
  apply bind_Ok in H as ([de c] & Hi & H). apply Ok_inj in H as [= <- <-].
  split; [|done]. split; [done|]. cbn [global_header]. intros h1 [= <-]. unfold opened_ok. cbn.
  destruct (contains (Format.flags h0) GlobalFlags.NO_INDEX).
  - apply Ok_inj in Hi as [= <- <-]. split_and!; (done || lia).
  - apply bind_Ok in Hi as ([off cd'] & [Ho Hw]%read_index_Ok & [= <- <-]).
    split_and!; (done || lia).
Qed.
Lemma move_ok r o : reader_ok r → header_len r ≤ o ≤ data_end r → reader_ok (set_next_offset r o).
Proof.
  intros [Hs Ho] Hb. split; [done|]. intros h Hh. destruct (Ho h Hh) as (H1 & H2 & H3).
  split_and!; cbn [header_len next_offset data_end file_len set_next_offset]; (done || lia).
Qed.
Lemma next_entry_ok r o r' :
  reader_ok r → next_entry oc options key_provider r = Ok (o, r') → reader_ok r'.
Proof.
  intros Hr H. assert (∃ h, global_header r = Some h) as [h Hh].
  { unfold next_entry in H. apply bind_Ok in H as (h & Hh%ok_or_Ok & _). by exists h. }
  destruct (opened r Hr h Hh) as (H1 & H2 & _). apply next_entry_Ok in H. destruct o as [e|].
  - destruct H as (_ & Hlt & Hsz & Hle & ->). apply move_ok; [done|lia].
  - by destruct H as [-> _].
Qed.
Lemma entries_loop_ok {A} (f : A → EntryReader → result SarError.t A) fuel r acc :
  reader_ok r → reader_ok (fst (entries_loop oc options key_provider f fuel r acc)).
Proof.
  revert r acc. induction fuel as [|fuel IH]; intros r acc Hr; [done|]. cbn [entries_loop].
  destruct (next_entry oc options key_provider r) as [[[e|] r1]| |] eqn:En; [| |done..];
    apply next_entry_ok in En; [|done| |done].
  - destruct (f acc e); [by apply IH|done..].
  - done.
Qed.
Lemma entries_loop_header {A} (f : A → EntryReader → result SarError.t A) fuel r acc :
  global_header (fst (entries_loop oc options key_provider f fuel r acc)) = global_header r.
Proof.
  revert r acc. induction fuel as [|fuel IH]; intros r acc; [done|]. cbn [entries_loop].
  destruct (next_entry oc options key_provider r) as [[[e|] r1]| |] eqn:En; [| |done..];
    apply next_entry_Ok in En.
  - destruct En as (_ & _ & _ & _ & ->). destruct (f acc e); [by rewrite IH|done..].
  - by destruct En as [-> _].
Qed.
Lemma audit_loop_ok aopts h fuel r out :
  reader_ok r → is_Some (global_header r) →
  reader_ok (fst (audit_loop oc options key_provider aopts h fuel r out)).
Proof.
  revert r out. induction fuel as [|fuel IH]; intros r out Hr [h' Hh]; [done|]. cbn [audit_loop].
  case_match; [|done]. destruct (audit_entry _ _ _ _ _ _) as [[rep b]| |] eqn:En; [|done..].
  apply audit_entry_Ok in En. destruct (opened r Hr h' Hh) as (H1 & H2 & _).
  apply IH; [apply move_ok; [done|lia]|by exists h'].
Qed.
(** Rewinding leaves an opened reader at its first entry, or fails. *)
Lemma read_global_header_source r h r' :
  read_global_header options r = Ok (h, r') → source r' = source r.
Proof.
  unfold read_global_header. intros H. apply bind_Ok in H as (hb & _ & H).
  apply bind_Ok in H as ([h0 n] & _ & H). apply bind_Ok in H as ([] & _ & H).
  apply bind_Ok in H as (hl & _ & H). by apply bind_Ok in H as ([de c] & _ & [= _ <-]).
Qed.
Lemma rewind_source r msg : source (fst (rewind options r msg)) = source r.
Proof.
  unfold rewind. destruct (global_header r) as [h|] eqn:Eh; [by rewrite Eh|].
  destruct (read_global_header options r) as [[h r']| |] eqn:E; [|done..].
  apply read_global_header_source in E. cbn. by destruct (global_header r').
Qed.
Lemma rewind_ok r msg :
  reader_ok r →
  reader_ok (fst (rewind options r msg)) ∧ no_panic (snd (rewind options r msg))
  ∧ ∀ r' h, rewind options r msg = (r', Ok h) →
      global_header r' = Some h ∧ next_offset r' = header_len r'.
Proof.
  intros Hr. unfold rewind. destruct (global_header r) as [h|] eqn:Eh.
  { rewrite Eh. destruct (opened r Hr h Eh) as (H1 & H2 & _). split_and!; [|done|].
    - cbn. apply move_ok; [done|lia].
    - by intros r' h' [= <- <-]. }
  destruct (read_global_header options r) as [[h r']| |] eqn:E; cbn [mbind result_bind].
  - apply read_global_header_ok in E as (Hr' & Hh & Hn); [|done]. rewrite Hh.
    destruct (opened r' Hr' h Hh) as (H1 & H2 & _). split_and!; [|done|].
    + cbn. apply move_ok; [done|lia].
    + by intros r1 h' [= <- <-].
  - done.
  - exfalso. revert E. apply read_global_header_no_panic.
Qed.
(** The checks against the index do not panic on a parsed dictionary. *)
Lemma validate_cdc_tlvs_no_panic ts l :
  Forall (λ t, len (Tlv.value t) ≤ ISIZE_MAX) ts → no_panic (validate_cdc_tlvs ts l).
Proof.
  induction 1 as [|t ts Ht Hts IH]; [done|]. cbn [validate_cdc_tlvs].
  apply no_panic_bind; [|done]. dif as E; [|done]. apply no_panic_bind; [|done].
  unfold CdcMap.validate_cdc_metadata_tlv. dif as E1.
  { apply no_panic_bind; [auto with no_panic|]. intros _ _.
    apply no_panic_bind; [|done]. by apply no_panic_map_err, CdcMap.parse_cdc_map_no_panic. }
  dif as E2; [|np]. unfold CdcMap.parse_cdc_ext_provider_tlv. dif as E3; [done|].
  destruct (check_cdc_metadata_bytes _ _) eqn:Ec; [|done|].
  - cbn [mbind result_bind]. by dif as E4.
  - exfalso. revert Ec. unfold check_cdc_metadata_bytes. by case_match.
Qed.
Lemma cd_wf_values flags cd :
  CentralDir.cd_wf flags (limits options) cd →
  Forall (λ t, len (Tlv.value t) ≤ ISIZE_MAX) (CentralDir.metadata cd).
Proof.
  intros (_ & _ & _ & _ & Hm & _). unfold CentralDir.meta_wf_if in Hm.
  destruct (contains _ _); [|by rewrite Hm]. destruct Hm as [Hm _].
  eapply Forall_impl; [exact Hm|]. intros t (_ & [_ Hl] & _). unfold U32_MAX, ISIZE_MAX in *. lia.
Qed.
Lemma verify_index_no_panic flags flags' offsets cd :
  CentralDir.cd_wf flags' (limits options) cd → no_panic (verify_index options flags offsets cd).
Proof.
  intros Hw%cd_wf_values. unfold verify_index. dif as E; [done|].
  apply no_panic_bind; [apply no_panic_ok_or|]. intros n _. do 3 (dif as E1; [done|]; clear E1).
  apply no_panic_bind; [dif as E1; [apply validate_recovery_tlvs_no_panic|done]|]. intros _ _.
  dif as E1; [by apply validate_cdc_tlvs_no_panic|done].
Qed.
Lemma verify_entry_no_panic acc e : no_panic (verify_entry acc e).
Proof. unfold verify_entry. destruct acc. np. Qed.
Lemma recovery_summary_no_panic cd : no_panic (recovery_summary cd).
Proof. unfold recovery_summary. np. Qed.

(** What the loop of [verify] collects. *)
Definition entry_offset (e : EntryReader) : Z := Metadata.lfh_offset (metadata e).
Definition is_chunked (e : EntryReader) : bool :=
  bool_decide (is_Some (Metadata.meta_cdc_algo_id (metadata e))).
Lemma fold_verify_entry es os n os' n' :
  fold_entries verify_entry (os, n) es = Ok (os', n') →
  os' = os ++ (entry_offset <$> es) ∧ n' = n + len (List.filter is_chunked es).
Proof.
  revert os n. induction es as [|e es IH]; intros os n; cbn [fold_entries].
  { intros [= <- <-]. rewrite app_nil_r. split; [done|]. cbn [List.filter]. rewrite len_nil. lia. }
  cbn [List.filter]. intros ([os1 n1] & H1 & H)%bind_Ok.
  assert (Hn : os1 = os ++ [entry_offset e] ∧ n1 = n + if is_chunked e then 1 else 0).
  { unfold verify_entry in H1. fold (is_chunked e) in H1.
    destruct (is_chunked e); inv_ok; (split; [done|lia]). }
  destruct Hn as [-> ->]. apply IH in H as [-> ->]. cbn [fmap list_fmap]. rewrite <- app_assoc.
  split; [done|]. destruct (is_chunked e); rewrite ?len_cons; lia.
Qed.
Lemma verify_index_Ok flags offsets cd :
  verify_index options flags offsets cd = Ok () →
  CentralDir.offsets cd = offsets ∧ CentralDir.file_count cd = len offsets.
Proof.
  unfold verify_index. intros H. apply guard_Ok in H as [_ H].
  apply bind_Ok in H as (n & [-> _]%ok_or_Ok%try_from_Some & H).
  apply guard_Ok in H as [E1 H]. apply guard_Ok in H as [E2 _].
  rewrite negb_false_iff in *. by apply bool_decide_eq_true in E2 as ->; apply Z.eqb_eq in E1.
Qed.

End invariant.

(** ** Theorems *)
Section theorems.
Context {B : Bitflags} {Comp : Compression.Compressors} {Ciph : Crypto.Ciphers} {K : Kms.Kdfs}.
Context (oc : bool) (options : ArchiveReaderOptions) (key_provider : option Kms.KeyProvider).
#[local] Abbreviation verify := (verify oc options key_provider).
#[local] Abbreviation audit := (audit oc options key_provider).
#[local] Abbreviation read_all_logical_files := (read_all_logical_files oc options key_provider).

(** (C17) The invariant of the seekable reader: the data area lies behind the header and
    inside the file, the next entry inside the data area, and a well-formed index is there
    exactly when the flags announce one.  Opening establishes it, and every operation
    preserves it, also when it fails. *)
Theorem reader_invariant :
  (∀ src r, with_options options src = Ok r → reader_ok options r)
  ∧ ∀ r, reader_ok options r →
    (∀ h r', read_global_header options r = Ok (h, r') →
       reader_ok options r' ∧ global_header r' = Some h)
    ∧ (∀ o r', next_entry oc options key_provider r = Ok (o, r') → reader_ok options r')
    ∧ reader_ok options (fst (verify r))
    ∧ (∀ aopts, reader_ok options (fst (audit r aopts)))
    ∧ (∀ crc32 allow_lossy, reader_ok options (fst (read_all_logical_files crc32 r allow_lossy))).
Proof.
  split.
  { intros src r. unfold with_options. intros (? & _ & [= <-])%bind_Ok. by split. }
  intros r Hr.
  assert (Hw := λ msg, rewind_ok options r msg Hr).
  split_and!.
  - intros h r' H. by apply read_global_header_ok in H as (? & ? & _).
  - intros o r'. by apply next_entry_ok.
  - unfold verify. destruct (Hw "global header missing"%string) as (H1 & H2 & H3).
    destruct (rewind _ _ _) as [r1 [h| |]]; [|done..]. cbn in H1.
    pose proof (entries_loop_ok oc options key_provider verify_entry (entries_fuel r1) r1 ([], 0) H1).
    by destruct (entries_loop _ _ _ _ _ _ _) as [r2 [[]| |]].
  - intros aopts. unfold audit. destruct (Hw "global header missing"%string) as (H1 & H2 & H3).
    destruct (rewind _ _ _) as [r1 [h| |]]; [|done..]. cbn in H1. destruct (H3 r1 h eq_refl) as [Hh _].
    pose proof (audit_loop_ok oc options key_provider aopts h (entries_fuel r1) r1 [] H1
      ltac:(by exists h)).
    by destruct (audit_loop _ _ _ _ _ _ _ _) as [r2 []].
  - intros crc32 lossy. unfold read_all_logical_files.
    destruct (Hw "global header missing after read"%string) as (H1 & H2 & H3).
    destruct (rewind _ _ _) as [r1 [h| |]]; [|done..]. cbn in H1.
    pose proof (entries_loop_ok oc options key_provider (λ acc e, Ok (acc ++ [e])) (entries_fuel r1) r1 [] H1).
    by destruct (entries_loop _ _ _ _ _ _ _) as [r2 []].
Qed.

(** (C18) What a successful [verify] establishes: the data area, from the end of the global
    header to the central dictionary (to the end of the file without an index), is nothing but
    ordinary entries, one behind the other: at each offset the bytes of the source parse as a
    local file header, and the header and the payload behind it decode; the next entry starts
    where this payload ends.  The report counts these entries, and the chunked ones, and the
    offsets in the central dictionary are exactly theirs, in order. *)
Theorem verify_sound r r' report :
  reader_ok options r → verify r = (r', Ok report) →
  valid report = true ∧ source r' = source r
  ∧ ∃ h es, global_header r' = Some h
    ∧ entries_at oc options key_provider r' h (header_len r') es (data_end r')
    ∧ entry_count report = len es
    ∧ cdc_entry_count report = len (List.filter is_chunked es)
    ∧ match cd r' with
      | Some index => indexed report = true ∧ CentralDir.offsets index = entry_offset <$> es
                      ∧ CentralDir.file_count index = len es
      | None => indexed report = false ∧ data_end r' = len (source r')
      end.
Proof.
  intros Hr. unfold verify. destruct (rewind_ok options r "global header missing" Hr) as (H1 & H2 & H3).
  pose proof (rewind_source options r "global header missing") as Hsrc.
  destruct (rewind _ _ _) as [r1 [h| |]]; [|done..]. cbn in H1, Hsrc.
  destruct (H3 r1 h eq_refl) as [Hh Hn]. destruct (opened options r1 H1 h Hh) as (Hb & Hd & Hcd).
  destruct (entries_loop _ _ _ _ _ _ _) as [r2 [[os n]| |]] eqn:El; [|done..].
  apply (entries_loop_at _ _ _ _ h) in El as (-> & es & Ht & Hf); [|lia|done]. rewrite Hn in Ht.
  apply fold_verify_entry in Hf as [-> ->]. intros [= <- H]. cbn [cd set_next_offset] in *.
  apply bind_Ok in H as ([] & Hi & H). apply bind_Ok in H as (m & [-> _]%ok_or_Ok%try_from_Some & H).
  apply Ok_inj in H as <-. split_and!; [done..|]. exists h, es. cbn -[fmap list_fmap].
  assert (Hl : len (entry_offset <$> es) = len es) by (unfold len; by rewrite length_fmap).
  split_and!; [done|by apply entries_at_moved|done|lia|].
  destruct (cd r1) as [c|].
  - apply verify_index_Ok in Hi as [-> ->]. split_and!; [done..|]. by rewrite Hl.
  - split; [done|]. rewrite (source_len options r1 H1). tauto.
Qed.

End theorems.

(** ** Witnesses

    An indexed archive with the sample entry behind its header. *)
Section witnesses.
#[local] Existing Instance bitwise.
#[local] Existing Instances Transform.marked_compressors Transform.shift_ciphers zero_kdfs.

Definition sample_archive : list byte :=
  [x53; x41; x52; x21; x01; x00; x04; x00; x00; x01; x00; x00]
  ++ sample_entry_bytes ++ sample_stored
  ++ [x01; x00; x00; x00; x00; x00; x00; x00; x01; x00; x00; x00; x0c; x00; x00; x00]
  ++ [x00; x00] ++ [x26; x00; x00; x00; x00; x00; x00; x00].
Definition sample_reader : ArchiveReader := {|
  source := sample_archive; global_header := None; global_flags_section := [];
  header_len := 0; data_end := 0; next_offset := 0; file_len := 64; cd := None |}.
Lemma sample_reader_ok : reader_ok sample_options sample_reader.
Proof. split; [by vm_compute|done]. Qed.

Lemma reader_invariant_witness :
  reader_ok sample_options sample_reader
  ∧ reader_ok sample_options (fst (verify false sample_options None sample_reader)).
Proof.
  destruct (reader_invariant false sample_options None) as [Hnew Hops].
  assert (Hr : reader_ok sample_options sample_reader)
    by (apply (Hnew sample_archive); by vm_compute).
  split; [exact Hr|]. destruct (Hops sample_reader Hr) as (_ & _ & H & _). exact H.
Defined.
Lemma verify_sound_witness :
  ∃ r report es, verify false sample_options None sample_reader = (r, Ok report)
    ∧ (∃ h, entries_at false sample_options None r h (header_len r) es (data_end r))
    ∧ entry_count report = len es ∧ entry_count report = 1 ∧ data_end r = 38.
Proof.
  destruct (verify false sample_options None sample_reader) as [r [report| |]] eqn:E;
    [|vm_compute in E; discriminate E..].
  destruct (verify_sound false sample_options None sample_reader r report sample_reader_ok E)
    as (_ & _ & h & es & _ & Ht & Hc & _).
  exists r, report, es. split_and!; [reflexivity|exists h; exact Ht|exact Hc|..];
    vm_compute in E; injection E as <- <-; reflexivity.
Defined.
End witnesses.

End ArchiveReader.
