(* ===== verification/ArchiveWriter.v ===== *)
(** * The archive writer

    Models [ArchiveWriter] of [crates/sar-archive/src/archive.rs]: the options and the flags
    they become, the lazily written global header, regular and sparse entries with their
    compression, encryption and error correction, archive-level recovery, and the central
    dictionary and footer.

    The output is the bytes written so far: writing to a vector does not fail.  A method of
    [&mut self] is an action of the state-and-error monad [M], so what it changed before an
    error stays changed.  [random n] are the bytes of the [n]-th nonce that is drawn, and
    [draws] counts them (they come from [OsRng::fill_bytes], which returns no error); the compressors, ciphers, key derivation functions and the
    [bitflags] operations are parameters as in the files below. *)

From S2P Require Import Prelude Errors Limits Flags Cursor Format Lfh FecTypes Tlv CentralDir SparseMap Sparse XorFec RsFec FecRegistry Repair CdcMap Patch Bsdiff Vcdiff Utf8 Crypto Kms Transform Metadata EntryDecode.

Module ArchiveWriter.
Import Limits FecTypes.

(** ** Options *)

Record DeltaWriteOptions := {
  algorithm : Patch.PatchAlgoId; base : list byte; delta_base_hash : list byte }.
Record EntryInput := {
  in_name : list byte; in_payload : list byte; in_kind : option Metadata.EntryKind;
  in_path : option (list byte); in_permissions : option Z; in_uid_gid : option Z;
  in_timestamps : option (Z * Z * Z); in_is_hidden : bool; in_stream_id : option Z;
  in_sequence_no : option Z; in_file_crc32 : option Z; in_content_hash : option (list byte);
  in_delta : option DeltaWriteOptions }.
(** [EntryInput::file]. *)
Definition file (name payload : list byte) : EntryInput := {|
  in_name := name; in_payload := payload; in_kind := None; in_path := None;
  in_permissions := None; in_uid_gid := None; in_timestamps := None; in_is_hidden := false;
  in_stream_id := None; in_sequence_no := None; in_file_crc32 := None;
  in_content_hash := None; in_delta := None |}.
Record EntryWritten := { written_lfh_offset : Z; total_bytes : Z }.

(** [FecSettings]; [ArchiveRecoverySettings] has the same fields, and [as_fec_settings]
    copies them. *)
Record FecSettings := { fec_algo : Z; config0 : Z; config1 : Z; symbol_size : Z }.
Definition default_xor : FecSettings :=
  {| fec_algo := FEC_ALGO_XOR; config0 := 4; config1 := 4; symbol_size := 0 |}.
Definition default_rs : FecSettings :=
  {| fec_algo := FEC_ALGO_REED_SOLOMON; config0 := 4; config1 := 2; symbol_size := 256 |}.
Record ArchiveRecoverySettings := {
  rec_algo : Z; rec_config0 : Z; rec_config1 : Z; rec_symbol_size : Z }.
Definition as_fec_settings (s : ArchiveRecoverySettings) : FecSettings := {|
  fec_algo := rec_algo s; config0 := rec_config0 s; config1 := rec_config1 s;
  symbol_size := rec_symbol_size s |}.

Record EncryptionSettings := { encr_algo : Z; kms_params : Kms.KmsParams }.
Inductive LfhSizeFieldPolicy : Set := Auto | Force32 | Force64.
#[global] Instance size_policy_eq_dec : EqDecision LfhSizeFieldPolicy.
Proof. solve_decision. Defined.
Record CompressionSettings := { comp_algo : Z; level : option Z }.
Definition store : CompressionSettings :=
  {| comp_algo := Compression.COMP_ALGO_STORE; level := None |}.
Record ArchiveWriterOptions := {
  no_index : bool; encryption : option EncryptionSettings; opt_fec : option FecSettings;
  opt_archive_recovery : option ArchiveRecoverySettings; sparse : bool; with_path : bool;
  with_permissions : bool; with_uid_gid : bool; with_timestamps : bool;
  with_per_file_crc : bool; with_content_hash : bool; with_symlinks : bool;
  with_delta : bool; opt_size_policy : LfhSizeFieldPolicy }.
Definition default_options : ArchiveWriterOptions := {|
  no_index := true; encryption := None; opt_fec := None; opt_archive_recovery := None;
  sparse := false; with_path := false; with_permissions := false; with_uid_gid := false;
  with_timestamps := false; with_per_file_crc := false; with_content_hash := false;
  with_symlinks := false; with_delta := false; opt_size_policy := Auto |}.
Record SparseWriteOptions := { logical_size : Z; extents : list Sparse.SparseExtent }.
Record ArchiveSummary := { entry_count : Z; archive_size : Z; indexed : bool }.

(** ** State *)

Inductive StreamWriteState : Set :=
  | NeedLocalFileHeader | NeedPayload | EntryReady | NeedCentralDictionaryOrFooter
  | ArchiveComplete | Error.
#[global] Instance write_state_eq_dec : EqDecision StreamWriteState.
Proof. solve_decision. Defined.
Record ArchiveRecoveryState := {
  settings : ArchiveRecoverySettings; global_flags_start_offset : Z;
  protected_range_start : Z; protected_range_end : option Z;
  central_dictionary_offset : option Z; footer_offset : option Z;
  protected_bytes : list byte }.
Record ArchiveWriter := {
  output : list byte; flags : Z; lfh_size_field_policy : LfhSizeFieldPolicy;
  compression : CompressionSettings; position : Z; offsets : list Z;
  cd_metadata : list Tlv.Tlv; finished : bool; cek : option (list byte);
  encr_algo_id : option Z; used_nonces : list (list byte);
  global_flags_section : list byte; header_kms : option Format.KmsData;
  header_written : bool; fec : option FecSettings;
  archive_recovery : option ArchiveRecoveryState; stream_state : StreamWriteState;
  draws : nat }.
(** Assignments. *)
Definition set_output (w : ArchiveWriter) (v0 : list byte) (v1 : Z) : ArchiveWriter := {|
  output := v0; flags := flags w; lfh_size_field_policy := lfh_size_field_policy w;
  compression := compression w; position := v1; offsets := offsets w; cd_metadata :=
  cd_metadata w; finished := finished w; cek := cek w; encr_algo_id := encr_algo_id w;
  used_nonces := used_nonces w; global_flags_section := global_flags_section w;
  header_kms := header_kms w; header_written := header_written w; fec := fec w;
  archive_recovery := archive_recovery w; stream_state := stream_state w; draws := draws
  w |}.
Definition set_flags (w : ArchiveWriter) (v0 : Z) : ArchiveWriter := {|
  output := output w; flags := v0; lfh_size_field_policy := lfh_size_field_policy w;
  compression := compression w; position := position w; offsets := offsets w;
  cd_metadata := cd_metadata w; finished := finished w; cek := cek w; encr_algo_id :=
  encr_algo_id w; used_nonces := used_nonces w; global_flags_section :=
  global_flags_section w; header_kms := header_kms w; header_written := header_written
  w; fec := fec w; archive_recovery := archive_recovery w; stream_state := stream_state
  w; draws := draws w |}.
Definition set_offsets (w : ArchiveWriter) (v0 : list Z) : ArchiveWriter := {|
  output := output w; flags := flags w; lfh_size_field_policy := lfh_size_field_policy
  w; compression := compression w; position := position w; offsets := v0; cd_metadata :=
  cd_metadata w; finished := finished w; cek := cek w; encr_algo_id := encr_algo_id w;
  used_nonces := used_nonces w; global_flags_section := global_flags_section w;
  header_kms := header_kms w; header_written := header_written w; fec := fec w;
  archive_recovery := archive_recovery w; stream_state := stream_state w; draws := draws
  w |}.
Definition set_cd_metadata (w : ArchiveWriter) (v0 : list Tlv.Tlv) : ArchiveWriter := {|
  output := output w; flags := flags w; lfh_size_field_policy := lfh_size_field_policy
  w; compression := compression w; position := position w; offsets := offsets w;
  cd_metadata := v0; finished := finished w; cek := cek w; encr_algo_id := encr_algo_id
  w; used_nonces := used_nonces w; global_flags_section := global_flags_section w;
  header_kms := header_kms w; header_written := header_written w; fec := fec w;
  archive_recovery := archive_recovery w; stream_state := stream_state w; draws := draws
  w |}.
Definition set_finished (w : ArchiveWriter) (v0 : bool) : ArchiveWriter := {|
  output := output w; flags := flags w; lfh_size_field_policy := lfh_size_field_policy
  w; compression := compression w; position := position w; offsets := offsets w;
  cd_metadata := cd_metadata w; finished := v0; cek := cek w; encr_algo_id :=
  encr_algo_id w; used_nonces := used_nonces w; global_flags_section :=
  global_flags_section w; header_kms := header_kms w; header_written := header_written
  w; fec := fec w; archive_recovery := archive_recovery w; stream_state := stream_state
  w; draws := draws w |}.
Definition set_nonces (w : ArchiveWriter) (v0 : list (list byte)) (v1 : nat) : ArchiveWriter := {|
  output := output w; flags := flags w; lfh_size_field_policy := lfh_size_field_policy
  w; compression := compression w; position := position w; offsets := offsets w;
  cd_metadata := cd_metadata w; finished := finished w; cek := cek w; encr_algo_id :=
  encr_algo_id w; used_nonces := v0; global_flags_section := global_flags_section w;
  header_kms := header_kms w; header_written := header_written w; fec := fec w;
  archive_recovery := archive_recovery w; stream_state := stream_state w; draws := v1
  |}.
Definition set_section (w : ArchiveWriter) (v0 : list byte) : ArchiveWriter := {|
  output := output w; flags := flags w; lfh_size_field_policy := lfh_size_field_policy
  w; compression := compression w; position := position w; offsets := offsets w;
  cd_metadata := cd_metadata w; finished := finished w; cek := cek w; encr_algo_id :=
  encr_algo_id w; used_nonces := used_nonces w; global_flags_section := v0; header_kms
  := header_kms w; header_written := header_written w; fec := fec w; archive_recovery :=
  archive_recovery w; stream_state := stream_state w; draws := draws w |}.
Definition set_header_written (w : ArchiveWriter) (v0 : bool) : ArchiveWriter := {|
  output := output w; flags := flags w; lfh_size_field_policy := lfh_size_field_policy
  w; compression := compression w; position := position w; offsets := offsets w;
  cd_metadata := cd_metadata w; finished := finished w; cek := cek w; encr_algo_id :=
  encr_algo_id w; used_nonces := used_nonces w; global_flags_section :=
  global_flags_section w; header_kms := header_kms w; header_written := v0; fec := fec
  w; archive_recovery := archive_recovery w; stream_state := stream_state w; draws :=
  draws w |}.
Definition set_recovery (w : ArchiveWriter) (v0 : option ArchiveRecoveryState) : ArchiveWriter := {|
  output := output w; flags := flags w; lfh_size_field_policy := lfh_size_field_policy
  w; compression := compression w; position := position w; offsets := offsets w;
  cd_metadata := cd_metadata w; finished := finished w; cek := cek w; encr_algo_id :=
  encr_algo_id w; used_nonces := used_nonces w; global_flags_section :=
  global_flags_section w; header_kms := header_kms w; header_written := header_written
  w; fec := fec w; archive_recovery := v0; stream_state := stream_state w; draws :=
  draws w |}.
Definition set_stream_state (w : ArchiveWriter) (v0 : StreamWriteState) : ArchiveWriter := {|
  output := output w; flags := flags w; lfh_size_field_policy := lfh_size_field_policy
  w; compression := compression w; position := position w; offsets := offsets w;
  cd_metadata := cd_metadata w; finished := finished w; cek := cek w; encr_algo_id :=
  encr_algo_id w; used_nonces := used_nonces w; global_flags_section :=
  global_flags_section w; header_kms := header_kms w; header_written := header_written
  w; fec := fec w; archive_recovery := archive_recovery w; stream_state := v0; draws :=
  draws w |}.

(** ** The writer monad *)
Definition M (A : Type) : Type := ArchiveWriter → ArchiveWriter * result SarError.t A.
#[export] Instance writer_ret : MRet M := λ A a w, (w, Ok a).
#[export] Instance writer_bind : MBind M := λ A B f p w,
  match p w with
  | (w, Ok a) => f a w
  | (w, Err e) => (w, Err e)
  | (w, Panic) => (w, Panic)
  end.
Definition lift {A} (r : result SarError.t A) : M A := λ w, (w, r).
Definition self : M ArchiveWriter := λ w, (w, Ok w).
Definition modify (f : ArchiveWriter → ArchiveWriter) : M unit := λ w, (f w, Ok ()).
Definition throw {A} (e : SarError.t) : M A := λ w, (w, Err e).
Definition when_ (c : bool) (m : M unit) : M unit := if c then m else mret ().

(** ** Error-correction values *)

Definition is_recovery_type (id : Z) : bool := (0x10 <=? id) && (id <=? 0x1F).
Definition unsupported_fec (other : Z) : SarError.t :=
  SarError.Unsupported (if is_recovery_type other
    then "FEC algorithm is assigned but not supported by archive writer"
    else "FEC algorithm ID out of defined range").

Definition validate_writer_fec_settings (f : FecSettings) : result SarError.t unit :=
  if fec_algo f =? FEC_ALGO_XOR then
    _ ← map_err FecError.to_sar (XorFec.new (config0 f) (config1 f)); Ok ()
  else if fec_algo f =? FEC_ALGO_REED_SOLOMON then
    _ ← map_err FecError.to_sar (RsFec.new (config0 f) (config1 f) (symbol_size f)); Ok ()
  else Err (unsupported_fec (fec_algo f)).

Definition compute_fec_value (f : FecSettings) (protected : list byte)
    : result SarError.t (list byte) :=
  fec_value ←
    (if fec_algo f =? FEC_ALGO_XOR then
       codec ← map_err FecError.to_sar (XorFec.new (config0 f) (config1 f));
       map_err FecError.to_sar (XorFec.encode_recovery codec protected)
     else if fec_algo f =? FEC_ALGO_REED_SOLOMON then
       codec ← map_err FecError.to_sar (RsFec.new (config0 f) (config1 f) (symbol_size f));
       map_err FecError.to_sar (RsFec.encode_recovery codec protected)
     else Err (unsupported_fec (fec_algo f)));
  Ok (FecTypes.data fec_value).

Definition ceil_div_u64 (a b : Z) : result SarError.t Z :=
  if b =? 0 then Err (SarError.Overflow "ceil_div by zero")
  else
    s ← ok_or (checked_add 64 a (b - 1)) (SarError.Overflow "ceil_div overflow");
    Ok (s / b).

(** [match fec.config1 { .. }]: the block size of an index. *)
Definition xor_block_size (index : Z) : result SarError.t Z :=
  if index =? 0x00 then Ok 256
  else if index =? 0x01 then Ok 512
  else if index =? 0x02 then Ok 1024
  else if index =? 0x03 then Ok 2048
  else if index =? 0x04 then Ok 4096
  else if index =? 0x05 then Ok 8192
  else if index =? 0x06 then Ok 16384
  else if index =? 0x07 then Ok 32768
  else if index =? 0x08 then Ok 65536
  else Err (SarError.ReservedValue "XOR block size index is reserved").

Definition compute_fec_value_len (f : FecSettings) (protected_len : Z) : result SarError.t Z :=
  let max_parity_size := 256 * 1024 * 1024 in
  original_len ← ok_or (try_from 64 protected_len) (SarError.Overflow "protected len");
  if fec_algo f =? FEC_ALGO_XOR then
    _ ← map_err FecError.to_sar (XorFec.new (config0 f) (config1 f));
    block_size ← xor_block_size (config1 f);
    stripe_bytes ← ok_or (checked_mul 64 (config0 f) block_size)
                     (SarError.Overflow "XOR effective stripe size overflow");
    stripe_count ← ceil_div_u64 original_len stripe_bytes;
    parity_len ← ok_or (checked_mul 64 stripe_count block_size)
                   (SarError.Overflow "XOR parity length overflow");
    if parity_len >? max_parity_size
    then Err (SarError.LimitExceeded "XOR parity exceeds implementation limit")
    else ok_or (try_from 64 (14 + parity_len))
           (SarError.Overflow "XOR FEC value length exceeds usize")
  else if fec_algo f =? FEC_ALGO_REED_SOLOMON then
    _ ← map_err FecError.to_sar (RsFec.new (config0 f) (config1 f) (symbol_size f));
    group_bytes ← ok_or (checked_mul 64 (config0 f) (symbol_size f))
                    (SarError.Overflow "RS group size overflow");
    group_count ← ceil_div_u64 original_len group_bytes;
    n ← ok_or (checked_mul 64 group_count (config1 f))
          (SarError.Overflow "RS parity count × group overflow");
    parity_len ← ok_or (checked_mul 64 n (symbol_size f))
                   (SarError.Overflow "RS parity length overflow");
    if parity_len >? max_parity_size
    then Err (SarError.LimitExceeded "RS parity exceeds implementation limit")
    else ok_or (try_from 64 (18 + parity_len))
           (SarError.Overflow "RS FEC value length exceeds usize")
  else Err (unsupported_fec (fec_algo f)).

Definition generate_entry_patch (d : DeltaWriteOptions) (target : list byte)
    : result SarError.t (list byte) :=
  match algorithm d with
  | Patch.StorePatch =>
      expected_len ← ok_or (try_from 64 (len target))
                       (SarError.Overflow "STORE_PATCH target length exceeds u64");
      map_err EntryDecode.map_patch_error (Patch.generate_store_patch target expected_len)
  | Patch.Vcdiff =>
      map_err EntryDecode.map_patch_error
        (Vcdiff.generate_vcdiff_patch (base d) target Vcdiff.default_limits)
  | Patch.Bsdiff =>
      map_err EntryDecode.map_patch_error
        (Bsdiff.generate_bsdiff_patch (base d) target Bsdiff.default_limits)
  | Patch.ZstdPatch =>
      Err (SarError.Unsupported "ZSTD_PATCH: patch generation not implemented")
  | Patch.Custom _ =>
      Err (SarError.Unsupported "CUSTOM patch algorithm: generation not supported")
  end.

(** [for tlv in &cd_metadata { .. }]. *)
Fixpoint validate_cd_metadata (tlvs : list Tlv.Tlv) (limits : ResourceLimits)
    : result SarError.t unit :=
  match tlvs with
  | [] => Ok ()
  | t :: tlvs =>
      _ ← (if CdcMap.is_cdc_metadata_tlv_type (Tlv.type_id t)
           then CdcMap.validate_cdc_metadata_tlv t limits
           else if is_recovery_type (Tlv.type_id t) then
             _ ← FecRegistry.validate_recovery_tlv (Tlv.type_id t) (Tlv.value t) limits; Ok ()
           else Ok ());
      validate_cd_metadata tlvs limits
  end.

Section writer.
Context {B : Bitflags} {Comp : Compression.Compressors} {Ciph : Crypto.Ciphers} {K : Kms.Kdfs}.
Context (random : nat → Z → list byte).

(** ** Construction *)

(** [if c { flags |= f; }]. *)
Definition flag_if (c : bool) (f flags : Z) : Z := if c then union flags f else flags.
Definition option_flags (o : ArchiveWriterOptions) (c : CompressionSettings)
    (cd_metadata : list Tlv.Tlv) : Z :=
  let has_recovery_cd_metadata := existsb (λ t, is_recovery_type (Tlv.type_id t)) cd_metadata in
  let flags := 0 in
  let flags := flag_if (no_index o) GlobalFlags.NO_INDEX flags in
  let flags := flag_if (negb (len cd_metadata =? 0)) GlobalFlags.OPT_PRESENT flags in
  let flags := flag_if (bool_decide (is_Some (opt_archive_recovery o)) || has_recovery_cd_metadata)
                 (union GlobalFlags.HAS_GLOBAL_EC GlobalFlags.OPT_PRESENT) flags in
  let flags := flag_if (existsb (λ t, CdcMap.is_cdc_metadata_tlv_type (Tlv.type_id t)) cd_metadata)
                 GlobalFlags.CDC_SUPPORT flags in
  let flags := flag_if (negb (comp_algo c =? Compression.COMP_ALGO_STORE))
                 GlobalFlags.COMPRESSED flags in
  let flags := flag_if (bool_decide (is_Some (opt_fec o))) GlobalFlags.SELECTIVE_FEC flags in
  let flags := flag_if (sparse o) GlobalFlags.SPARSE_FILES flags in
  let flags := flag_if (with_path o) GlobalFlags.HAS_PATH flags in
  let flags := flag_if (with_permissions o) GlobalFlags.HAS_PERMS flags in
  let flags := flag_if (with_uid_gid o) GlobalFlags.EXT_UID_GID flags in
  let flags := flag_if (with_timestamps o) GlobalFlags.EXT_TIME flags in
  let flags := flag_if (with_per_file_crc o) GlobalFlags.PER_FILE_CRC flags in
  let flags := flag_if (with_content_hash o) GlobalFlags.DEDUPLICATION flags in
  let flags := flag_if (with_symlinks o) GlobalFlags.HAS_SYMLINKS flags in
  let flags := flag_if (with_delta o) GlobalFlags.HAS_DELTA flags in
  flag_if (bool_decide (opt_size_policy o = Force64)) GlobalFlags.SIZE_64BIT flags.

(** The block [if let Some(encryption) = &encryption { .. }]: the content key, the
    algorithm and the KMS data of the header. *)
Definition resolve_encryption (e : EncryptionSettings) (key_provider : option Kms.KeyProvider)
    : result SarError.t (list byte * Format.KmsData) :=
  _ ← map_err CryptoError.to_sar (Crypto.validate_encr_algo_id (encr_algo e));
  if negb ((encr_algo e =? Crypto.ENCR_AES256_GCM) || (encr_algo e =? Crypto.ENCR_XCHACHA20_POLY))
  then Err (SarError.Unsupported
              "archive writer supports only AES-256-GCM and XChaCha20-Poly1305") else
  let mode_id := EntryDecode.kms_mode_id (kms_params e) in
  let context := {| Kms.mode_id := mode_id; Kms.params := kms_params e |} in
  provider ← ok_or key_provider (SarError.KeyMissing "encryption requires a key provider");
  key ← map_err CryptoError.to_sar (Kms.resolve_cek provider context);
  Ok (key, {| Format.mode_id := mode_id;
              Format.kms_payload := Kms.serialize_kms_payload (kms_params e) |}).

Definition new_with_compression_key_provider_and_cd_metadata (o : ArchiveWriterOptions)
    (c : CompressionSettings) (key_provider : option Kms.KeyProvider)
    (cd_metadata : list Tlv.Tlv) : result SarError.t ArchiveWriter :=
  let has_recovery_cd_metadata := existsb (λ t, is_recovery_type (Tlv.type_id t)) cd_metadata in
  let has_recovery := bool_decide (is_Some (opt_archive_recovery o)) in
  if no_index o && negb (len cd_metadata =? 0)
  then Err (SarError.FlagConflict "Central Dictionary metadata requires indexed archive output") else
  if no_index o && has_recovery
  then Err (SarError.FlagConflict "archive-level recovery requires indexed archive output") else
  if has_recovery && has_recovery_cd_metadata
  then Err (SarError.FlagConflict
    "archive-level recovery option conflicts with pre-supplied RECOVERY TLV metadata") else
  let flags := option_flags o c cd_metadata in
  '(flags, cek, encr_algo_id, kms) ←
    (match encryption o with
     | Some e =>
         '(key, kms) ← resolve_encryption e key_provider;
         Ok (union flags GlobalFlags.ENCRYPTED, Some key, Some (encr_algo e), Some kms)
     | None => Ok (flags, None, None, None)
     end);
  _ ← validate_cd_metadata cd_metadata default_limits;
  _ ← (match opt_archive_recovery o with
       | Some recovery => validate_writer_fec_settings (as_fec_settings recovery)
       | None => Ok ()
       end);
  _ ← validate_global_flags flags;
  Ok {| output := []; flags := flags; lfh_size_field_policy := opt_size_policy o;
        compression := c; position := 0; offsets := []; cd_metadata := cd_metadata;
        finished := false; cek := cek; encr_algo_id := encr_algo_id; used_nonces := [];
        global_flags_section := []; header_kms := kms; header_written := false;
        fec := opt_fec o;
        archive_recovery := (λ settings, {|
          settings := settings;
          global_flags_start_offset := Repair.GLOBAL_HEADER_FLAGS_OFFSET;
          protected_range_start := Repair.GLOBAL_HEADER_FLAGS_OFFSET;
          protected_range_end := None; central_dictionary_offset := None;
          footer_offset := None; protected_bytes := [] |}) <$> opt_archive_recovery o;
        stream_state := NeedLocalFileHeader; draws := 0 |}.

(** ** Header, recovery and sizes *)

Definition with_protected (r : ArchiveRecoveryState) (bytes : list byte) : ArchiveRecoveryState := {|
  settings := settings r; global_flags_start_offset := global_flags_start_offset r;
  protected_range_start := protected_range_start r; protected_range_end := protected_range_end r;
  central_dictionary_offset := central_dictionary_offset r; footer_offset := footer_offset r;
  protected_bytes := bytes |}.
Definition with_offsets (r : ArchiveRecoveryState) (range_end cd_offset footer : option Z)
    : ArchiveRecoveryState := {|
  settings := settings r; global_flags_start_offset := global_flags_start_offset r;
  protected_range_start := protected_range_start r; protected_range_end := range_end;
  central_dictionary_offset := cd_offset; footer_offset := footer;
  protected_bytes := protected_bytes r |}.

Definition track_archive_recovery_bytes (bytes : list byte) : M unit :=
  w ← self;
  match archive_recovery w with
  | None => mret ()
  | Some r =>
      updated_len ← lift (ok_or (checked_add 64 (len (protected_bytes r)) (len bytes))
                            (SarError.Overflow "archive recovery protected bytes len"));
      updated_len_u64 ← lift (ok_or (try_from 64 updated_len)
                                (SarError.Overflow "archive recovery len"));
      _ ← lift (check_in_memory_buffer default_limits updated_len_u64);
      _ ← lift (check_recovery_protected_range default_limits updated_len_u64);
      modify (λ w, set_recovery w (Some (with_protected r (protected_bytes r ++ bytes))))
  end.

Definition finalize_archive_recovery_metadata : M unit :=
  w ← self;
  match archive_recovery w with
  | None => mret ()
  | Some r =>
      let r := with_offsets r (Some (position w)) (Some (position w)) (footer_offset r) in
      _ ← modify (λ w, set_recovery w (Some r));
      expected ← lift (ok_or (checked_sub (position w) (protected_range_start r))
                         (SarError.Overflow "archive recovery protected range len"));
      buffered ← lift (ok_or (try_from 64 (len (protected_bytes r)))
                         (SarError.Overflow "archive recovery buffered len"));
      if negb (buffered =? expected)
      then throw (SarError.Internal "archive recovery protected byte tracking length mismatch")
      else
      fec_value ← lift (compute_fec_value (as_fec_settings (settings r)) (protected_bytes r));
      modify (λ w, set_cd_metadata w
        (cd_metadata w ++ [{| Tlv.type_id := rec_algo (settings r); Tlv.value := fec_value |}]))
  end.

(** [self.writer.write_all(bytes)?], then the position: [n] bytes further. *)
Definition write_all (bytes : list byte) : M unit :=
  modify (λ w, set_output w (output w ++ bytes) (position w)).
Definition advance (n : Z) (msg : string) : M unit :=
  w ← self;
  p ← lift (ok_or (checked_add 64 (position w) n) (SarError.Overflow msg));
  modify (λ w, set_output w (output w) p).

Definition emit_global_header_if_needed : M unit :=
  w ← self;
  if header_written w then mret () else
  _ ← lift (validate_global_flags (flags w));
  let header := {| Format.version := 1; Format.flags_bytes := le_bytes 4 (flags w);
                   Format.flags := flags w; Format.partition_descriptor := None;
                   Format.kms := header_kms w |} in
  _ ← modify (λ w, set_section w (Format.global_header_flags_bytes header));
  bytes ← lift (Format.write_global_header header);
  _ ← (match archive_recovery w with
       | Some r =>
           recovery_start ← lift (ok_or (try_from 64 (global_flags_start_offset r))
                                    (SarError.Overflow "global header flags offset usize"));
           if recovery_start >? len bytes
           then throw (SarError.Bounds "global header shorter than Global Flags offset")
           else
           protected ← lift (slice_r bytes recovery_start (len bytes));
           track_archive_recovery_bytes protected
       | None => mret ()
       end);
  _ ← write_all bytes;
  n ← lift (ok_or (try_from 64 (len bytes)) (SarError.Overflow "header len"));
  _ ← advance n "archive position after header";
  modify (λ w, set_header_written w true).

Definition apply_size_policy (uncompressed_size payload_size : Z) : M unit :=
  let exceeds_u32 := (uncompressed_size >? 2 ^ 32 - 1) || (payload_size >? 2 ^ 32 - 1) in
  w ← self;
  match lfh_size_field_policy w with
  | Force64 => modify (λ w, set_flags w (union (flags w) GlobalFlags.SIZE_64BIT))
  | Force32 =>
      if exceeds_u32
      then throw (SarError.Overflow "size does not fit 32-bit field under Force32 policy")
      else modify (λ w, set_flags w (difference (flags w) GlobalFlags.SIZE_64BIT))
  | Auto =>
      if exceeds_u32 then
        if header_written w && negb (contains (flags w) GlobalFlags.SIZE_64BIT)
        then throw (SarError.Overflow
          "Auto policy cannot promote to 64-bit size fields after header emission")
        else modify (λ w, set_flags w (union (flags w) GlobalFlags.SIZE_64BIT))
      else if negb (header_written w)
      then modify (λ w, set_flags w (difference (flags w) GlobalFlags.SIZE_64BIT))
      else mret ()
  end.

(** ** Entries *)

Definition write_entry (lfh_bytes encoded_payload : list byte) : M EntryWritten :=
  w ← self;
  let lfh_offset := position w in
  _ ← modify (λ w, set_stream_state w NeedPayload);
  _ ← track_archive_recovery_bytes lfh_bytes;
  _ ← track_archive_recovery_bytes encoded_payload;
  _ ← write_all lfh_bytes;
  _ ← write_all encoded_payload;
  a ← lift (ok_or (try_from 64 (len lfh_bytes)) (SarError.Overflow "lfh bytes len"));
  b ← lift (ok_or (try_from 64 (len encoded_payload)) (SarError.Overflow "payload bytes len"));
  written ← lift (ok_or (checked_add 64 a b) (SarError.Overflow "entry write length"));
  _ ← advance written "archive position";
  _ ← modify (λ w, set_offsets w (offsets w ++ [lfh_offset]));
  _ ← modify (λ w, set_stream_state w EntryReady);
  mret {| written_lfh_offset := lfh_offset; total_bytes := written |}.

(** A field that the flag demands of the entry and that is refused without it. *)
Definition required_field {A} (flags flag : Z) (o : option A) (missing conflict : string)
    : result SarError.t unit :=
  if contains flags flag then
    match o with None => Err (SarError.Malformed missing) | Some _ => Ok () end
  else match o with Some _ => Err (SarError.FlagConflict conflict) | None => Ok () end.
(** A field that may be given only with the flag. *)
Definition allowed_field {A} (flags flag : Z) (o : option A) (conflict : string)
    : result SarError.t unit :=
  if bool_decide (is_Some o) && negb (contains flags flag)
  then Err (SarError.FlagConflict conflict) else Ok ().

Definition validate_entry_input_metadata (flags : Z) (e : EntryInput) : result SarError.t unit :=
  let is_symlink := bool_decide (in_kind e = Some Metadata.Symlink) in
  if is_symlink && negb (contains flags GlobalFlags.HAS_SYMLINKS)
  then Err (SarError.FlagConflict
              "Symlink entry requires ArchiveWriterOptions::with_symlinks = true") else
  if is_symlink && negb (Utf8.from_utf8 (in_payload e))
  then Err (SarError.Malformed "Symlink entry payload must be valid UTF-8") else
  if bool_decide (in_kind e = Some Metadata.Directory) && negb (len (in_payload e) =? 0)
  then Err (SarError.Malformed "Directory entry must have zero-length payload") else
  _ ← allowed_field flags GlobalFlags.HAS_PATH (in_path e)
        "EntryInput::path requires ArchiveWriterOptions::with_path = true";
  if from_option (λ p, len p >? 2 ^ 16 - 1) false (in_path e)
  then Err (SarError.Overflow "path length exceeds LFH u16 field capacity") else
  if len (in_name e) >? 2 ^ 16 - 1
  then Err (SarError.Overflow "name length exceeds LFH u16 field capacity") else
  _ ← required_field flags GlobalFlags.HAS_PERMS (in_permissions e)
        "ArchiveWriterOptions::with_permissions requires EntryInput::permissions"
        "EntryInput::permissions requires ArchiveWriterOptions::with_permissions = true";
  _ ← required_field flags GlobalFlags.EXT_UID_GID (in_uid_gid e)
        "ArchiveWriterOptions::with_uid_gid requires EntryInput::uid_gid"
        "EntryInput::uid_gid requires ArchiveWriterOptions::with_uid_gid = true";
  _ ← required_field flags GlobalFlags.EXT_TIME (in_timestamps e)
        "ArchiveWriterOptions::with_timestamps requires EntryInput::timestamps"
        "EntryInput::timestamps requires ArchiveWriterOptions::with_timestamps = true";
  _ ← allowed_field flags GlobalFlags.PER_FILE_CRC (in_file_crc32 e)
        "EntryInput::file_crc32 requires ArchiveWriterOptions::with_per_file_crc = true";
  _ ← allowed_field flags GlobalFlags.DEDUPLICATION (in_content_hash e)
        "EntryInput::content_hash requires ArchiveWriterOptions::with_content_hash = true";
  match in_delta e with
  | None => Ok ()
  | Some d =>
      if negb (contains flags GlobalFlags.HAS_DELTA)
      then Err (SarError.FlagConflict
                  "EntryInput::delta requires ArchiveWriterOptions::with_delta = true") else
      if (bool_decide (algorithm d = Patch.Vcdiff) || bool_decide (algorithm d = Patch.Bsdiff))
         && bool_decide (delta_base_hash d = EntryDecode.ZERO_DELTA_BASE_HASH)
      then Err (SarError.BaseMissing
        "VCDIFF/BSDIFF delta_base_hash must be non-zero (all-zero means missing identity)")
      else Ok ()
  end.

Definition ZERO_CONTENT_HASH : list byte := zeros 32.

(** [Some(field.ok_or(Malformed(msg))?)] under a flag. *)
Definition present_field {A} (c : bool) (o : option A) (msg : string) : result SarError.t (option A) :=
  if c then v ← ok_or o (SarError.Malformed msg); Ok (Some v) else Ok None.

(** [apply_entry_input_to_lfh] on the header [minimal_store] made, of which only the name
    and the sizes are set. *)
Definition apply_entry_input_to_lfh (flags : Z) (e : EntryInput) (lfh : Lfh.LocalFileHeader)
    : result SarError.t Lfh.LocalFileHeader :=
  let effective_kind := default (if len (in_name e) =? 0 then Metadata.EmptyArea
                                 else Metadata.RegularFile) (in_kind e) in
  let mode := Lfh.entry_mode lfh in
  let mode := match effective_kind with
              | Metadata.Directory => Z.lor mode EntryMode.IS_DIRECTORY
              | Metadata.Symlink => Z.lor mode EntryMode.IS_SYMLINK
              | Metadata.RegularFile | Metadata.EmptyArea => mode
              end in
  let mode := if in_is_hidden e then Z.lor mode EntryMode.HIDDEN_ATTR else mode in
  let path := if contains flags GlobalFlags.HAS_PATH then default (Lfh.path lfh) (in_path e)
              else Lfh.path lfh in
  permissions ← present_field (contains flags GlobalFlags.HAS_PERMS) (in_permissions e)
                  "HAS_PERMS requires EntryInput::permissions";
  uid_gid ← present_field (contains flags GlobalFlags.EXT_UID_GID) (in_uid_gid e)
              "EXT_UID_GID requires EntryInput::uid_gid";
  timestamps ← present_field (contains flags GlobalFlags.EXT_TIME) (in_timestamps e)
                 "EXT_TIME requires EntryInput::timestamps";
  let has_delta := contains flags GlobalFlags.HAS_DELTA in
  Ok {| Lfh.header_size := Lfh.header_size lfh; Lfh.entry_mode := mode;
        Lfh.stream_id := default 0 (in_stream_id e);
        Lfh.sequence_no := default 0 (in_sequence_no e);
        Lfh.uncompressed_size := Lfh.uncompressed_size lfh;
        Lfh.payload_size := Lfh.payload_size lfh;
        Lfh.comp_algo_id := Lfh.comp_algo_id lfh;
        Lfh.patch_algo_id :=
          if has_delta then
            Some (from_option (λ d, Patch.as_u8 (algorithm d)) Patch.PATCH_ALGO_STORE_PATCH
                    (in_delta e))
          else Lfh.patch_algo_id lfh;
        Lfh.encr_algo_id := Lfh.encr_algo_id lfh; Lfh.cdc_algo_id := Lfh.cdc_algo_id lfh;
        Lfh.fec_algo_id := Lfh.fec_algo_id lfh; Lfh.fragment_id := Lfh.fragment_id lfh;
        Lfh.fragment_index := Lfh.fragment_index lfh;
        Lfh.fragment_descriptor := Lfh.fragment_descriptor lfh;
        Lfh.iv_nonce := Lfh.iv_nonce lfh;
        Lfh.delta_base_hash :=
          if has_delta then
            Some (from_option delta_base_hash EntryDecode.ZERO_DELTA_BASE_HASH (in_delta e))
          else Lfh.delta_base_hash lfh;
        Lfh.file_crc32 := if contains flags GlobalFlags.PER_FILE_CRC
                          then Some (default 0 (in_file_crc32 e)) else Lfh.file_crc32 lfh;
        Lfh.content_hash := if contains flags GlobalFlags.DEDUPLICATION
                            then Some (default ZERO_CONTENT_HASH (in_content_hash e))
                            else Lfh.content_hash lfh;
        Lfh.uid_gid := if contains flags GlobalFlags.EXT_UID_GID then uid_gid else Lfh.uid_gid lfh;
        Lfh.timestamps := if contains flags GlobalFlags.EXT_TIME then timestamps
                          else Lfh.timestamps lfh;
        Lfh.permissions := if contains flags GlobalFlags.HAS_PERMS then permissions
                           else Lfh.permissions lfh;
        Lfh.name := Lfh.name lfh; Lfh.path := path; Lfh.sparse_map := Lfh.sparse_map lfh;
        Lfh.fec_value := Lfh.fec_value lfh |}.

(** Assignments to fields of the header. *)
Definition set_store_fields (l : Lfh.LocalFileHeader) (mode : Z) (comp cdc : option Z)
    (map : list byte) : Lfh.LocalFileHeader := {|
  Lfh.header_size := Lfh.header_size l; Lfh.entry_mode := mode;
  Lfh.stream_id := Lfh.stream_id l; Lfh.sequence_no := Lfh.sequence_no l;
  Lfh.uncompressed_size := Lfh.uncompressed_size l; Lfh.payload_size := Lfh.payload_size l;
  Lfh.comp_algo_id := comp; Lfh.patch_algo_id := Lfh.patch_algo_id l;
  Lfh.encr_algo_id := Lfh.encr_algo_id l; Lfh.cdc_algo_id := cdc;
  Lfh.fec_algo_id := Lfh.fec_algo_id l; Lfh.fragment_id := Lfh.fragment_id l;
  Lfh.fragment_index := Lfh.fragment_index l;
  Lfh.fragment_descriptor := Lfh.fragment_descriptor l; Lfh.iv_nonce := Lfh.iv_nonce l;
  Lfh.delta_base_hash := Lfh.delta_base_hash l; Lfh.file_crc32 := Lfh.file_crc32 l;
  Lfh.content_hash := Lfh.content_hash l; Lfh.uid_gid := Lfh.uid_gid l;
  Lfh.timestamps := Lfh.timestamps l; Lfh.permissions := Lfh.permissions l;
  Lfh.name := Lfh.name l; Lfh.path := Lfh.path l; Lfh.sparse_map := map;
  Lfh.fec_value := Lfh.fec_value l |}.
Definition set_sizes (l : Lfh.LocalFileHeader) (size : Z) : Lfh.LocalFileHeader := {|
  Lfh.header_size := Lfh.header_size l; Lfh.entry_mode := Lfh.entry_mode l;
  Lfh.stream_id := Lfh.stream_id l; Lfh.sequence_no := Lfh.sequence_no l;
  Lfh.uncompressed_size := size; Lfh.payload_size := Lfh.payload_size l;
  Lfh.comp_algo_id := Lfh.comp_algo_id l; Lfh.patch_algo_id := Lfh.patch_algo_id l;
  Lfh.encr_algo_id := Lfh.encr_algo_id l; Lfh.cdc_algo_id := Lfh.cdc_algo_id l;
  Lfh.fec_algo_id := Lfh.fec_algo_id l; Lfh.fragment_id := Lfh.fragment_id l;
  Lfh.fragment_index := Lfh.fragment_index l;
  Lfh.fragment_descriptor := Lfh.fragment_descriptor l; Lfh.iv_nonce := Lfh.iv_nonce l;
  Lfh.delta_base_hash := Lfh.delta_base_hash l; Lfh.file_crc32 := Lfh.file_crc32 l;
  Lfh.content_hash := Lfh.content_hash l; Lfh.uid_gid := Lfh.uid_gid l;
  Lfh.timestamps := Lfh.timestamps l; Lfh.permissions := Lfh.permissions l;
  Lfh.name := Lfh.name l; Lfh.path := Lfh.path l; Lfh.sparse_map := Lfh.sparse_map l;
  Lfh.fec_value := Lfh.fec_value l |}.
Definition set_fec (l : Lfh.LocalFileHeader) (algo : option Z) (value : list byte)
    : Lfh.LocalFileHeader := {|
  Lfh.header_size := Lfh.header_size l; Lfh.entry_mode := Lfh.entry_mode l;
  Lfh.stream_id := Lfh.stream_id l; Lfh.sequence_no := Lfh.sequence_no l;
  Lfh.uncompressed_size := Lfh.uncompressed_size l; Lfh.payload_size := Lfh.payload_size l;
  Lfh.comp_algo_id := Lfh.comp_algo_id l; Lfh.patch_algo_id := Lfh.patch_algo_id l;
  Lfh.encr_algo_id := Lfh.encr_algo_id l; Lfh.cdc_algo_id := Lfh.cdc_algo_id l;
  Lfh.fec_algo_id := algo; Lfh.fragment_id := Lfh.fragment_id l;
  Lfh.fragment_index := Lfh.fragment_index l;
  Lfh.fragment_descriptor := Lfh.fragment_descriptor l; Lfh.iv_nonce := Lfh.iv_nonce l;
  Lfh.delta_base_hash := Lfh.delta_base_hash l; Lfh.file_crc32 := Lfh.file_crc32 l;
  Lfh.content_hash := Lfh.content_hash l; Lfh.uid_gid := Lfh.uid_gid l;
  Lfh.timestamps := Lfh.timestamps l; Lfh.permissions := Lfh.permissions l;
  Lfh.name := Lfh.name l; Lfh.path := Lfh.path l; Lfh.sparse_map := Lfh.sparse_map l;
  Lfh.fec_value := value |}.
Definition set_crypto (l : Lfh.LocalFileHeader) (algo : Z) (nonce : list byte)
    : Lfh.LocalFileHeader := {|
  Lfh.header_size := Lfh.header_size l;
  Lfh.entry_mode := Z.lor (Lfh.entry_mode l) EntryMode.ENCRYPTED;
  Lfh.stream_id := Lfh.stream_id l; Lfh.sequence_no := Lfh.sequence_no l;
  Lfh.uncompressed_size := Lfh.uncompressed_size l; Lfh.payload_size := Lfh.payload_size l;
  Lfh.comp_algo_id := Lfh.comp_algo_id l; Lfh.patch_algo_id := Lfh.patch_algo_id l;
  Lfh.encr_algo_id := Some algo; Lfh.cdc_algo_id := Lfh.cdc_algo_id l;
  Lfh.fec_algo_id := Lfh.fec_algo_id l; Lfh.fragment_id := Lfh.fragment_id l;
  Lfh.fragment_index := Lfh.fragment_index l;
  Lfh.fragment_descriptor := Lfh.fragment_descriptor l; Lfh.iv_nonce := Some nonce;
  Lfh.delta_base_hash := Lfh.delta_base_hash l; Lfh.file_crc32 := Lfh.file_crc32 l;
  Lfh.content_hash := Lfh.content_hash l; Lfh.uid_gid := Lfh.uid_gid l;
  Lfh.timestamps := Lfh.timestamps l; Lfh.permissions := Lfh.permissions l;
  Lfh.name := Lfh.name l; Lfh.path := Lfh.path l; Lfh.sparse_map := Lfh.sparse_map l;
  Lfh.fec_value := Lfh.fec_value l |}.

(** [for _ in 0..3 { generate_nonce(..)?; if self.used_nonces.insert(nonce) { break; } }]. *)
Fixpoint fresh_nonce (tries : nat) (algo_id : Z) (nonce : list byte) : M (list byte) :=
  match tries with
  | O => throw (SarError.NonceReuse "failed to generate a unique nonce")
  | S tries =>
      w ← self;
      nonce ← lift (map_err CryptoError.to_sar
                      (Crypto.generate_nonce (random (draws w)) algo_id nonce));
      if bool_decide (nonce ∈ used_nonces w) then
        _ ← modify (λ w, set_nonces w (used_nonces w) (S (draws w)));
        fresh_nonce tries algo_id nonce
      else
        _ ← modify (λ w, set_nonces w (nonce :: used_nonces w) (S (draws w)));
        mret nonce
  end.

(** [EncodingPlanV2] of the writer's compression settings. *)
Definition encoding_plan (w : ArchiveWriter) (crypto : option Transform.EntryCryptoContext)
    : Transform.EncodingPlanV2 := {|
  Transform.encoding := {|
    Transform.is_compressed := negb (comp_algo (compression w) =? Compression.COMP_ALGO_STORE);
    Transform.comp_algo_id := comp_algo (compression w);
    Transform.compression_level := level (compression w) |};
  Transform.e_crypto := crypto |}.
(** The size of the stored payload, known before it is encrypted. *)
Definition stored_len (w : ArchiveWriter) (encoded : list byte) : result SarError.t Z :=
  n ← ok_or (try_from 64 (len encoded)) (SarError.Overflow "payload len");
  if contains (flags w) GlobalFlags.ENCRYPTED
  then ok_or (checked_add 64 n 16) (SarError.Overflow "encrypted payload len")
  else Ok n.
(** The header fields that follow from the writer's settings. *)
Definition settings_to_lfh (w : ArchiveWriter) (l : Lfh.LocalFileHeader) (map : list byte)
    : Lfh.LocalFileHeader :=
  set_store_fields l
    (if negb (comp_algo (compression w) =? Compression.COMP_ALGO_STORE)
     then Z.lor (Lfh.entry_mode l) EntryMode.COMPRESSED else Lfh.entry_mode l)
    (if contains (flags w) GlobalFlags.COMPRESSED then Some (comp_algo (compression w))
     else Lfh.comp_algo_id l)
    (if contains (flags w) GlobalFlags.CDC_SUPPORT then Some CdcMap.CDC_ALGO_LITERAL
     else Lfh.cdc_algo_id l)
    map.

(** [if is_fec { .. }] before encryption: the algorithm, and the room the value will need. *)
Definition reserve_fec (w : ArchiveWriter) (l : Lfh.LocalFileHeader) (encoded : list byte)
    : result SarError.t Lfh.LocalFileHeader :=
  match fec w with
  | None => Ok l
  | Some f =>
      if contains (flags w) GlobalFlags.ENCRYPTED then
        reserved ← compute_fec_value_len f (len encoded);
        Ok (set_fec l (Some (fec_algo f)) (zeros reserved))
      else Ok (set_fec l (Some (fec_algo f)) (Lfh.fec_value l))
  end.
(** [if is_fec { .. }] after encryption: the value over the ciphertext without the tag. *)
Definition fill_fec (w : ArchiveWriter) (l : Lfh.LocalFileHeader) (encrypted : list byte)
    (msg : string) : result SarError.t Lfh.LocalFileHeader :=
  match fec w with
  | None => Ok l
  | Some f =>
      ciphertext_len ← ok_or (checked_sub (len encrypted) 16)
                         (SarError.InvalidLength "encrypted payload shorter than AEAD tag");
      ciphertext ← slice_r encrypted 0 ciphertext_len;
      value ← compute_fec_value f ciphertext;
      if negb (len value =? len (Lfh.fec_value l)) then Err (SarError.InvalidLength msg)
      else Ok (set_fec l (Lfh.fec_algo_id l) value)
  end.

(** The branch [if is_encrypted { .. }]. *)
Definition write_encrypted (l : Lfh.LocalFileHeader) (wire_payload : list byte) (msg : string)
    : M EntryWritten :=
  w ← self;
  algo_id ← lift (ok_or (encr_algo_id w) (SarError.Internal "missing writer encryption algorithm"));
  nonce ← fresh_nonce 3 algo_id (zeros 24);
  let l := set_crypto l algo_id nonce in
  provisional ← lift (Lfh.lfh_to_bytes l (flags w));
  aad_lfh ← lift (Lfh.lfh_bytes_for_aad (flags w) provisional (default 0 (Lfh.fec_algo_id l))
                    (len (Lfh.fec_value l)));
  let aad := Crypto.build_aead_aad (global_flags_section w) aad_lfh in
  key ← lift (ok_or (cek w) (SarError.KeyMissing "writer CEK is unavailable"));
  encrypted ← lift (Transform.encode_payload_v2 wire_payload (encoding_plan w
    (Some {| Transform.algo_id := algo_id; Transform.iv_nonce := nonce; Transform.aad := aad;
             Transform.key := key |})));
  l ← lift (fill_fec w l encrypted msg);
  final ← lift (Lfh.lfh_to_bytes l (flags w));
  write_entry final encrypted.
(** The [else] branch. *)
Definition write_plain (l : Lfh.LocalFileHeader) (encoded : list byte) : M EntryWritten :=
  w ← self;
  l ← lift (match fec w with
            | None => Ok l
            | Some f => value ← compute_fec_value f encoded;
                        Ok (set_fec l (Lfh.fec_algo_id l) value)
            end);
  bytes ← lift (Lfh.lfh_to_bytes l (flags w));
  write_entry bytes encoded.
(** From the pre-set error correction to the end of the two methods. *)
Definition seal_entry (l : Lfh.LocalFileHeader) (wire_payload encoded : list byte) (msg : string)
    : M EntryWritten :=
  w ← self;
  l ← lift (reserve_fec w l encoded);
  if contains (flags w) GlobalFlags.ENCRYPTED then write_encrypted l wire_payload msg
  else write_plain l encoded.

(** [if self.finished { self.stream_state = Error; return Err(..) }]. *)
Definition refuse_finished : M unit :=
  w ← self;
  when_ (finished w)
    (_ ← modify (λ w, set_stream_state w Error);
     throw (SarError.Malformed "archive writer already finished")).

Definition wire_payload (e : EntryInput) : result SarError.t (list byte) :=
  match in_delta e with
  | Some d => generate_entry_patch d (in_payload e)
  | None => Ok (in_payload e)
  end.
Definition add_entry (e : EntryInput) : M EntryWritten :=
  _ ← refuse_finished;
  w ← self;
  _ ← lift (validate_entry_input_metadata (flags w) e);
  uncompressed_len ← lift (ok_or (try_from 64 (len (in_payload e)))
                             (SarError.Overflow "payload len"));
  wire ← lift (wire_payload e);
  encoded ← lift (Transform.encode_payload_v2 wire (encoding_plan w None));
  payload_len ← lift (stored_len w encoded);
  _ ← apply_size_policy uncompressed_len payload_len;
  _ ← emit_global_header_if_needed;
  w ← self;
  let l := set_sizes (Lfh.minimal_store (in_name e) payload_len) uncompressed_len in
  l ← lift (apply_entry_input_to_lfh (flags w) e l);
  seal_entry (settings_to_lfh w l (Lfh.sparse_map l)) wire encoded
    "computed FEC value length changed after AEAD".

(** [for extent in &sparse.extents { total_extent_bytes = .. }]. *)
Fixpoint sum_extents (total : Z) (es : list Sparse.SparseExtent) : result SarError.t Z :=
  match es with
  | [] => Ok total
  | e :: es =>
      total ← ok_or (checked_add 64 total (Sparse.ext_length e))
                (SarError.Overflow "sparse extent length sum overflow");
      sum_extents total es
  end.
Definition write_sparse_entry (name gathered_payload : list byte) (sparse : SparseWriteOptions)
    : M EntryWritten :=
  _ ← refuse_finished;
  w ← self;
  if negb (contains (flags w) GlobalFlags.SPARSE_FILES)
  then throw (SarError.Malformed
                "write_sparse_entry requires ArchiveWriterOptions::sparse = true") else
  _ ← lift (map_err SparseError.to_sar
              (Sparse.validate_sparse_extents (extents sparse) (logical_size sparse)
                 (sparse_limits unlimited)));
  total_extent_bytes ← lift (sum_extents 0 (extents sparse));
  payload_len ← lift (ok_or (try_from 64 (len gathered_payload))
                        (SarError.Overflow "gathered payload length overflow"));
  if negb (payload_len =? total_extent_bytes)
  then throw (SarError.InvalidMap
                "gathered_payload length does not equal sum of sparse extent lengths") else
  encoded ← lift (Transform.encode_payload_v2 gathered_payload (encoding_plan w None));
  encoded_len ← lift (stored_len w encoded);
  _ ← apply_size_policy (logical_size sparse) encoded_len;
  _ ← emit_global_header_if_needed;
  w ← self;
  let is_64bit := contains (flags w) GlobalFlags.SIZE_64BIT in
  sparse_map_bytes ← lift (SparseMap.write_sparse_map (extents sparse) is_64bit);
  let l := set_sizes (Lfh.minimal_store name encoded_len) (logical_size sparse) in
  seal_entry (settings_to_lfh w l sparse_map_bytes) gathered_payload encoded
    "computed FEC value length changed after AEAD (sparse)".

(** ** The end of the archive *)

(** The block [if !self.flags.contains(GlobalFlags::NO_INDEX) { .. }]. *)
Definition write_index : M unit :=
  _ ← finalize_archive_recovery_metadata;
  w ← self;
  let cd_offset := position w in
  file_count ← lift (ok_or (try_from 64 (len (offsets w))) (SarError.Overflow "offset count"));
  let cd := {| CentralDir.cd_version := CentralDir.SUPPORTED_CD_VERSION;
               CentralDir.file_count := file_count; CentralDir.partition_info := None;
               CentralDir.global_crc32 := None; CentralDir.metadata := cd_metadata w;
               CentralDir.offsets := offsets w |} in
  cd_bytes ← lift (CentralDir.write_central_dictionary cd (flags w));
  _ ← write_all cd_bytes;
  n ← lift (ok_or (try_from 64 (len cd_bytes)) (SarError.Overflow "CD len"));
  _ ← advance n "archive position after CD";
  w ← self;
  let pad := (8 - position w mod 8) mod 8 in
  _ ← when_ (pad >? 0)
        (pad_len ← lift (ok_or (try_from 64 pad) (SarError.Overflow "pad len"));
         _ ← write_all (zeros pad_len);
         advance pad "archive position after padding");
  _ ← modify (λ w, set_recovery w
        ((λ r, with_offsets r (protected_range_end r) (central_dictionary_offset r)
                 (Some (position w))) <$> archive_recovery w));
  _ ← write_all (Format.write_footer {| Format.cd_offset := cd_offset |});
  advance 8 "archive position after footer".
Definition finish : M ArchiveSummary :=
  _ ← refuse_finished;
  _ ← emit_global_header_if_needed;
  _ ← modify (λ w, set_stream_state w NeedCentralDictionaryOrFooter);
  w ← self;
  let has_index := negb (contains (flags w) GlobalFlags.NO_INDEX) in
  _ ← when_ has_index write_index;
  _ ← modify (λ w, set_finished w true);
  _ ← modify (λ w, set_stream_state w ArchiveComplete);
  w ← self;
  entry_count ← lift (ok_or (try_from 64 (len (offsets w))) (SarError.Overflow "entry count"));
  mret {| entry_count := entry_count; archive_size := position w; indexed := has_index |}.

End writer.

(** ** The reserved length of an error-correction value *)
Definition fec_typed (f : FecSettings) : Prop :=
  fits 8 (config0 f) ∧ fits 8 (config1 f) ∧ fits 32 (symbol_size f).

Lemma xor_block_size_eq i b : XorFec.block_size_for_index i = Ok b → xor_block_size i = Ok b.
Proof.
  unfold XorFec.block_size_for_index. destruct (List.find _ _) as [[i' b']|] eqn:E; [|done].
  intros [= ->]. apply List.find_some in E as [Hin Hi]. cbn in Hi. apply Z.eqb_eq in Hi as ->.
  cbn in Hin. repeat (destruct Hin as [[= <- <-]|Hin]; [done|]). done.
Qed.
(** The two codecs, from the encoder's side: when they succeed and how long the value is. *)
Lemma xor_value_len c protected :
  XorFec.codec_wf c → len protected < 2 ^ 63 →
  let parity := XorFec.stripes c (len protected) * XorFec.block_size c in
  if parity <=? 256 * 1024 * 1024
  then ∃ v, XorFec.encode_recovery c protected = Ok v ∧ len (FecTypes.data v) = 14 + parity
  else is_ok (XorFec.encode_recovery c protected) = false.
Proof.
  intros Hc Hl parity. pose proof (XorFec.encode_recovery_cases c protected Hc Hl) as H.
  unfold XorFec.MAX_PARITY_SIZE in H. subst parity. case_match; [|done].
  destruct H as (p & _ & He). eexists. split; [exact He|].
  by apply (FecRegistry.xor_reader c protected _ Hc Hl) in He as (_ & _ & ->).
Qed.
Lemma rs_value_len c protected :
  RsFec.codec_wf c → len protected < 2 ^ 63 →
  let parity := RsFec.groups c (len protected) * RsFec.parity_count c * RsFec.symbol_size c in
  if parity <=? 256 * 1024 * 1024
  then ∃ v, RsFec.encode_recovery c protected = Ok v ∧ len (FecTypes.data v) = 18 + parity
  else is_ok (RsFec.encode_recovery c protected) = false.
Proof.
  intros Hc Hl parity. pose proof (RsFec.rs_encode_recovery_cases c protected Hc Hl) as H.
  pose proof Hc as (Hk & Hp & Hs). pose proof (RsFec.groups_cover c _ Hc (len_nonneg protected)) as [Hg _].
  unfold RsFec.MAX_PARITY_SIZE in H. subst parity.
  destruct (Z.ltb_spec (RsFec.groups c (len protected)) (2 ^ 32)).
  - case_match; [|done]. destruct H as (p & _ & He). eexists. split; [exact He|].
    by apply (FecRegistry.rs_reader c protected _ Hc Hl) in He as (_ & _ & ->).
  - rewrite (proj2 (Z.leb_gt _ _)); [done|]. nia.
Qed.

Lemma xor_fec_len f protected n :
  fec_typed f → len protected < 2 ^ 63 → fec_algo f = FEC_ALGO_XOR →
  compute_fec_value_len f (len protected) = Ok n ↔
  ∃ v, compute_fec_value f protected = Ok v ∧ len v = n.
Proof.
  intros (H0 & H1 & _) Hl Ha. unfold compute_fec_value_len, compute_fec_value. rewrite Ha.
  cbn [Z.eqb FEC_ALGO_XOR Pos.eqb]. rewrite try_from_fits by lia. cbn [ok_or mbind result_bind].
  destruct (XorFec.new (config0 f) (config1 f)) as [c| |] eqn:Ec; cbn [map_err mbind result_bind];
    [|split; [done|by intros (? & ? & _)]..].
  pose proof (XorFec.new_codec_wf _ _ _ H0 Ec) as Hc. pose proof (xor_value_len c protected Hc Hl) as Hv. cbv zeta in Hv.
  pose proof (XorFec.stripe_bytes c Hc) as Hsb. pose proof (XorFec.codec_wf_block c Hc) as [_ Hb].
  pose proof (XorFec.stripes_cover c _ Hc (len_nonneg protected)) as (Hs & _ & Hs2).
  apply FecRegistry.xor_new_fields in Ec as [<- <-]. destruct Hc as [Hss Hbi].
  rewrite (xor_block_size_eq _ _ Hbi). cbn [mbind result_bind].
  rewrite checked_mul_fits by lia. cbn [ok_or mbind result_bind]. unfold ceil_div_u64.
  rewrite (proj2 (Z.eqb_neq _ _)) by lia. rewrite checked_add_fits by lia.
  cbn [ok_or mbind result_bind]. fold (XorFec.stripes c (len protected)).
  rewrite checked_mul_fits by nia. cbn [ok_or mbind result_bind].
  destruct (Z.leb_spec (XorFec.stripes c (len protected) * XorFec.block_size c) (256 * 1024 * 1024)) as [Hm|Hm].
  - rewrite (Z.gtb_ltb _ _), (proj2 (Z.ltb_ge _ _)) by lia. destruct Hv as (v & -> & Hlv).
    rewrite try_from_fits by lia. cbn [ok_or map_err mbind result_bind].
    rewrite <- Hlv. split.
    + intros [= <-]. by exists (FecTypes.data v).
    + intros (x & Hx & <-). apply Ok_inj in Hx. by rewrite Hx.
  - rewrite (Z.gtb_ltb _ _), (proj2 (Z.ltb_lt _ _)) by lia.
    split; [done|]. intros (v & H & _). by destruct (XorFec.encode_recovery c protected).
Qed.

Lemma rs_fec_len f protected n :
  fec_typed f → len protected < 2 ^ 63 → fec_algo f = FEC_ALGO_REED_SOLOMON →
  compute_fec_value_len f (len protected) = Ok n ↔
  ∃ v, compute_fec_value f protected = Ok v ∧ len v = n.
Proof.
  intros (H0 & H1 & H2) Hl Ha. unfold compute_fec_value_len, compute_fec_value. rewrite Ha.
  cbn [Z.eqb FEC_ALGO_XOR FEC_ALGO_REED_SOLOMON Pos.eqb]. rewrite try_from_fits by lia.
  cbn [ok_or mbind result_bind].
  destruct (RsFec.new (config0 f) (config1 f) (symbol_size f)) as [c| |] eqn:Ec;
    cbn [map_err mbind result_bind]; [|split; [done|by intros (? & ? & _)]..].
  pose proof (RsFec.rs_new_codec_wf _ _ _ _ H0 H1 H2 Ec) as Hc.
  pose proof (rs_value_len c protected Hc Hl) as Hv. cbv zeta in Hv. pose proof (RsFec.group_bytes c Hc) as Hgb.
  pose proof (RsFec.groups_cover c _ Hc (len_nonneg protected)) as (Hg & _ & Hg2).
  apply FecRegistry.rs_new_fields in Ec as (<- & <- & <-). destruct Hc as (Hk & Hp & Hs).
  unfold RsFec.MAX_PARITY_COUNT in Hp. pose proof (len_nonneg protected).
  rewrite checked_mul_fits by lia. cbn [ok_or mbind result_bind]. unfold ceil_div_u64.
  rewrite (proj2 (Z.eqb_neq _ _)) by lia. rewrite checked_add_fits by lia.
  cbn [ok_or mbind result_bind]. fold (RsFec.groups c (len protected)).
  set (g := RsFec.groups c (len protected)) in *. set (pc := RsFec.parity_count c) in *.
  set (ss := RsFec.symbol_size c) in *.
  destruct (Z.leb_spec (g * pc * ss) (256 * 1024 * 1024)) as [Hm|Hm].
  - rewrite (checked_mul_fits 64 g) by nia. cbn [ok_or mbind result_bind].
    rewrite checked_mul_fits by lia. cbn [ok_or mbind result_bind].
    rewrite (Z.gtb_ltb _ _), (proj2 (Z.ltb_ge _ _)) by lia. destruct Hv as (v & -> & Hlv).
    assert (0 ≤ g * pc * ss) by nia. rewrite try_from_fits by lia.
    cbn [ok_or map_err mbind result_bind]. rewrite <- Hlv. split.
    + intros [= <-]. by exists (FecTypes.data v).
    + intros (x & Hx & <-). apply Ok_inj in Hx. by rewrite Hx.
  - split.
    + intros H3. inv_ok. lia.
    + intros (v & H3 & _). by destruct (RsFec.encode_recovery c protected).
Qed.
(** The reserved length is the length of the value, and there is one exactly when the value
    can be computed. *)
Lemma fec_len f protected n :
  fec_typed f → len protected < 2 ^ 63 →
  compute_fec_value_len f (len protected) = Ok n ↔
  ∃ v, compute_fec_value f protected = Ok v ∧ len v = n.
Proof.
  intros Hf Hl. destruct (decide (fec_algo f = FEC_ALGO_XOR)); [by apply xor_fec_len|].
  destruct (decide (fec_algo f = FEC_ALGO_REED_SOLOMON)); [by apply rs_fec_len|].
  unfold compute_fec_value_len, compute_fec_value. pose proof (len_nonneg protected).
  rewrite try_from_fits by lia. cbn [ok_or mbind result_bind].
  rewrite !(proj2 (Z.eqb_neq _ _)) by done. split; [done|]. by intros (? & ? & _).
Qed.

(** ** Theorems *)

(** (C20) The length the writer reserves for an error-correction value before it encrypts is
    the length of the value it computes afterwards: for every algorithm, configuration and
    payload, [compute_fec_value_len] succeeds exactly when [compute_fec_value] does, and with
    that length, so the header size that is authenticated is the one that is written. *)
Theorem fec_value_len_exact f protected n :
  fec_typed f → len protected < 2 ^ 63 →
  compute_fec_value_len f (len protected) = Ok n ↔
  ∃ v, compute_fec_value f protected = Ok v ∧ len v = n.
Proof. apply fec_len. Qed.

Lemma fec_value_len_exact_witness :
  compute_fec_value_len default_rs 1000 = Ok 530
  ∧ ∃ v, compute_fec_value default_rs (zeros 1000) = Ok v ∧ len v = 530.
Proof.
  split; [reflexivity|].
  apply (fec_value_len_exact default_rs (zeros 1000) 530); [by split_and!|done|reflexivity].
Defined.

End ArchiveWriter.
