(* ===== verification/ArchiveRoundTrip.v ===== *)
(** * Writing an archive and reading it back

    The composition of the writer ([ArchiveWriter]) with the seekable reader
    ([ArchiveReader]): what the writer's methods append to the output, and that the reader
    returns the entries that were added.  It uses the laws of the parameters (the bit flags,
    the compressors, the ciphers) and, for encrypted archives, the key provider the archive
    was written with. *)

From S2P Require Import Prelude Errors Limits Flags Cursor Format Lfh FecTypes FecRegistry Tlv CentralDir Patch Utf8 Crypto Kms Transform Metadata EntryDecode ArchiveReader ArchiveWriter.

Module ArchiveRoundTrip.
Import Limits FecTypes ArchiveWriter.

(** ** The writer monad *)
Lemma writer_bind_Ok {A C} (m : M A) (f : A → M C) w w' c :
  (m ≫= f) w = (w', Ok c) → ∃ a w1, m w = (w1, Ok a) ∧ f a w1 = (w', Ok c).
Proof.
  unfold mbind, writer_bind. destruct (m w) as [w1 [a| |]] eqn:E; [|done..].
  intros H. by exists a, w1.
Qed.
Lemma writer_lift_Ok {A} (r : result SarError.t A) w w' a : lift r w = (w', Ok a) → w' = w ∧ r = Ok a.
Proof. by intros [= <- ->]. Qed.

Lemma advance_Ok n msg w w' u :
  advance n msg w = (w', Ok u) → w' = set_output w (output w) (position w + n).
Proof.
  unfold advance, mbind, writer_bind, self, lift, modify.
  destruct (checked_add 64 (position w) n) as [p|] eqn:E; [|done].
  intros [= <- _]. by apply checked_add_Some in E as [-> _].
Qed.

(** Take a successful action apart. *)
Ltac winv H :=
  repeat (match type of H with
  | (mbind _ (lift _)) _ = (_, Ok _) =>
      let r := fresh "x" in let Hr := fresh "Hx" in let w := fresh "w" in
      apply writer_bind_Ok in H as (r & w & Hr & H); apply writer_lift_Ok in Hr as [-> Hr]
  | (mbind _ self) _ = (_, Ok _) =>
      let r := fresh "v" in let w := fresh "w" in let Hr := fresh "Hr" in
      apply writer_bind_Ok in H as (r & w & Hr & H);
      unfold self in Hr; injection Hr as <- <-
  | (mbind _ (modify _)) _ = (_, Ok _) =>
      let r := fresh "u" in let w := fresh "w" in let Hr := fresh "Hr" in
      apply writer_bind_Ok in H as (r & w & Hr & H);
      unfold modify in Hr; injection Hr as <- <-
  | (mbind _ (write_all _)) _ = (_, Ok _) =>
      let r := fresh "u" in let w := fresh "w" in let Hr := fresh "Hr" in
      apply writer_bind_Ok in H as (r & w & Hr & H);
      unfold write_all, modify in Hr; injection Hr as <- <-
  | (mbind _ (advance _ _)) _ = (_, Ok _) =>
      let r := fresh "u" in let w := fresh "w" in let Hr := fresh "Hr" in
      apply writer_bind_Ok in H as (r & w & Hr & H); apply advance_Ok in Hr as ->
  | (mbind _ (mret _)) _ = (_, Ok _) =>
      let r := fresh "u" in let w := fresh "w" in let Hr := fresh "Hr" in
      apply writer_bind_Ok in H as (r & w & Hr & H);
      unfold mret, writer_ret in Hr; injection Hr as <- <-
  | mret _ _ = (_, Ok _) => unfold mret, writer_ret in H; injection H as <- <-
  end; try cbv beta in H).

(** Everything of the writer that an entry does not change. *)
Record same_config (w w' : ArchiveWriter) : Prop := {
  same_flags : flags w' = flags w;
  same_policy : lfh_size_field_policy w' = lfh_size_field_policy w;
  same_compression : compression w' = compression w;
  same_cd_metadata : cd_metadata w' = cd_metadata w;
  same_finished : finished w' = finished w;
  same_cek : cek w' = cek w;
  same_encr : encr_algo_id w' = encr_algo_id w;
  same_section : global_flags_section w' = global_flags_section w;
  same_kms : header_kms w' = header_kms w;
  same_header : header_written w' = header_written w;
  same_fec : fec w' = fec w;
  same_recovery : archive_recovery w' = archive_recovery w }.
Lemma same_config_refl w : same_config w w.
Proof. by split. Qed.
Lemma same_config_trans w1 w2 w3 : same_config w1 w2 → same_config w2 w3 → same_config w1 w3.
Proof. intros [] []. split; congruence. Qed.

(** Writing bytes and an entry. *)
Lemma track_none bs w : archive_recovery w = None → track_archive_recovery_bytes bs w = (w, Ok ()).
Proof.
  intros Hr. unfold track_archive_recovery_bytes, mbind, writer_bind, self. by rewrite Hr.
Qed.
Lemma written_entry lb payload w w' r :
  archive_recovery w = None → write_entry lb payload w = (w', Ok r) →
  same_config w w' ∧ output w' = output w ++ lb ++ payload
  ∧ position w' = position w + (len lb + len payload) ∧ offsets w' = offsets w ++ [position w].
Proof.
  intros Hr H. unfold write_entry in H. winv H.
  apply writer_bind_Ok in H as (u1 & w1 & H1 & H). rewrite track_none in H1 by done.
  injection H1 as <- <-.
  apply writer_bind_Ok in H as (u2 & w2 & H2 & H). rewrite track_none in H2 by done.
  injection H2 as <- <-. winv H. inv_ok. split; [by split|]. cbn.
  by rewrite <- app_assoc.
Qed.

(** ** Sealing an entry *)
Section seal.
Context {B : Bitflags} {Comp : Compression.Compressors} {Ciph : Crypto.Ciphers} {K : Kms.Kdfs}.
Context (random : nat → Z → list byte).
Context (random_fills : ∀ k n, 0 ≤ n → len (random k n) = n).

(** A step that leaves the output alone. *)
Record silent (w w' : ArchiveWriter) : Prop := {
  silent_config : same_config w w';
  silent_output : output w' = output w;
  silent_position : position w' = position w;
  silent_offsets : offsets w' = offsets w }.
Lemma silent_nonces w ns k : silent w (set_nonces w ns k).
Proof. by split. Qed.
Lemma silent_refl w : silent w w.
Proof. split; [apply same_config_refl|done..]. Qed.
Lemma silent_trans w1 w2 w3 : silent w1 w2 → silent w2 w3 → silent w1 w3.
Proof. intros [] []. split; [by eapply same_config_trans|congruence..]. Qed.

Lemma fresh_nonce_Ok tries algo nonce w w' n :
  len nonce = 24 → fresh_nonce random tries algo nonce w = (w', Ok n) → silent w w' ∧ len n = 24.
Proof.
  revert nonce w. induction tries as [|tries IH]; intros nonce w Hl H; [done|].
  cbn [fresh_nonce] in H. winv H. apply map_err_Ok in Hx.
  pose proof (Crypto.generate_nonce_valid (random (draws w)) algo nonce (random_fills _) Hl) as Hg.
  rewrite Hx in Hg. destruct Hg as [Hg _]. destruct (bool_decide _).
  - winv H. apply IH in H as [Hs Hn]; [|done]. split; [|done].
    eapply silent_trans; [apply silent_nonces|exact Hs].
  - winv H. split; [apply silent_nonces|done].
Qed.

(** What the reader needs to decrypt: the algorithm, the key, and a header from which it
    derives the same key. *)
Definition crypto_ok (w : ArchiveWriter) (key_provider : option Kms.KeyProvider)
    (h : Format.GlobalHeader) : Prop :=
  ∃ algo key provider context,
    encr_algo_id w = Some algo ∧ fits 8 algo ∧ Crypto.validate_encr_algo_id algo = Ok ()
    ∧ cek w = Some key ∧ key_provider = Some provider
    ∧ EntryDecode.build_kms_context h = Ok context ∧ Kms.resolve_cek provider context = Ok key.

(** The header that is written: the entry's, with the error-correction value and, in an
    encrypted archive, the algorithm and the nonce. *)
Definition sealed (w : ArchiveWriter) (l l' : Lfh.LocalFileHeader) (value : list byte)
    (crypto : option Transform.EntryCryptoContext) : Prop :=
  let l1 := match crypto with
            | Some c => set_crypto l (Transform.algo_id c) (Transform.iv_nonce c)
            | None => l
            end in
  match fec w with
  | Some f => l' = set_fec l1 (Some (fec_algo f)) value
  | None => l' = l1 ∧ value = Lfh.fec_value l
  end.

(** The value that is stored was computed from some bytes no longer than the payload. *)
Definition value_ok (w : ArchiveWriter) (value stored : list byte) : Prop :=
  ∀ f, fec w = Some f → ∃ protected, len protected ≤ len stored
    ∧ compute_fec_value f protected = Ok value.

(** The additional data does not depend on the error-correction value. *)
Lemma typed_set_fec l algo v :
  Lfh.lfh_typed l → fits 8 algo → Lfh.lfh_typed (set_fec l (Some algo) v).
Proof. intros Ht Ha. unfold Lfh.lfh_typed in *. destruct_and! Ht. by split_and!. Qed.
Lemma set_fec_bytes flags l algo v bs :
  Lfh.lfh_typed l → fits 8 algo → Lfh.lfh_to_bytes (set_fec l (Some algo) v) flags = Ok bs →
  contains flags GlobalFlags.SELECTIVE_FEC = true →
  bs = Lfh.enc_fixed flags (Lfh.normalize flags (set_fec l (Some algo) v),
         (len (Lfh.name l), len (Lfh.path l), len (Lfh.sparse_map l), len v))
       ++ (Lfh.name l ++ Lfh.norm_vec (contains flags GlobalFlags.HAS_PATH) (Lfh.path l)
           ++ Lfh.norm_vec (contains flags GlobalFlags.SPARSE_FILES) (Lfh.sparse_map l)) ++ v.
Proof.
  intros Ht Ha H Hs. apply Lfh.write_lfh_Ok in H as [_ ->]; [|apply Ht..].
  rewrite Lfh.enc_lfh_normalize, Hs. cbn [Lfh.norm_vec]. unfold Lfh.lens. by rewrite <- !app_assoc.
Qed.
Lemma aad_same flags l algo v1 v2 bs1 bs2 :
  Lfh.lfh_typed l → fits 8 algo → algo ≠ 0 →
  contains flags GlobalFlags.SELECTIVE_FEC = true → len v1 = len v2 →
  Lfh.lfh_to_bytes (set_fec l (Some algo) v1) flags = Ok bs1 →
  Lfh.lfh_to_bytes (set_fec l (Some algo) v2) flags = Ok bs2 →
  Lfh.lfh_bytes_for_aad flags bs1 algo (len v1) = Lfh.lfh_bytes_for_aad flags bs2 algo (len v2).
Proof.
  intros Ht Ha Hz Hs Hl H1 H2.
  pose proof (set_fec_bytes _ _ _ _ _ Ht Ha H1 Hs) as E1.
  pose proof (set_fec_bytes _ _ _ _ _ Ht Ha H2 Hs) as E2.
  destruct (Lfh.lfh_aad_excludes_fec flags _ bs1 algo (typed_set_fec _ _ v1 Ht Ha) H1 Hs Hz) as (P1 & Hb1 & _ & A1).
  destruct (Lfh.lfh_aad_excludes_fec flags _ bs2 algo (typed_set_fec _ _ v2 Ht Ha) H2 Hs Hz) as (P2 & Hb2 & _ & A2).
  cbn [Lfh.fec_value Lfh.name Lfh.path Lfh.sparse_map set_fec] in *. rewrite A1, A2. do 2 f_equal.
  assert (Hn : Lfh.enc_fixed flags (Lfh.normalize flags (set_fec l (Some algo) v1),
      (len (Lfh.name l), len (Lfh.path l), len (Lfh.sparse_map l), len v1))
    = Lfh.enc_fixed flags (Lfh.normalize flags (set_fec l (Some algo) v2),
      (len (Lfh.name l), len (Lfh.path l), len (Lfh.sparse_map l), len v2))).
  { assert (Hh : Lfh.lfh_len flags (set_fec l (Some algo) v1) = Lfh.lfh_len flags (set_fec l (Some algo) v2)).
    { rewrite !Lfh.lfh_len_split. cbn. by rewrite Hl. }
    unfold Lfh.normalize. rewrite Hh, Hl. reflexivity. }
  rewrite Hb1, Hn in E1. rewrite Hb2 in E2. rewrite !app_assoc in E1, E2.
  apply app_inv_tail in E1, E2. rewrite <- E2, Hl in E1. by repeat apply app_inv_tail in E1.
Qed.
Lemma lor_fits w a b : 0 ≤ w → fits w a → fits w b → fits w (Z.lor a b).
Proof.
  intros Hw Ha Hb. unfold fits in *.
  assert (Hm : Z.lor a b mod 2 ^ w = Z.lor a b).
  { rewrite <- Z.land_ones, Z.land_lor_distr_l, !Z.land_ones by lia. by rewrite !Z.mod_small. }
  rewrite <- Hm. apply Z.mod_pos_bound. lia.
Qed.
Lemma typed_set_crypto l algo nonce :
  Lfh.lfh_typed l → fits 8 algo → len nonce = 24 → Lfh.lfh_typed (set_crypto l algo nonce).
Proof.
  intros Ht Ha Hn. unfold Lfh.lfh_typed in *. destruct_and! Ht. split_and!; try done.
  by apply lor_fits.
Qed.
Lemma fec_algo_cases f protected value :
  compute_fec_value f protected = Ok value →
  fec_algo f = FEC_ALGO_XOR ∨ fec_algo f = FEC_ALGO_REED_SOLOMON.
Proof.
  unfold compute_fec_value. intros (v & H & _)%bind_Ok.
  destruct (Z.eqb_spec (fec_algo f) FEC_ALGO_XOR); [by left|].
  destruct (Z.eqb_spec (fec_algo f) FEC_ALGO_REED_SOLOMON); [by right|done].
Qed.

Context (key_provider : option Kms.KeyProvider) (h : Format.GlobalHeader) (w : ArchiveWriter).
Context (Hflags : Format.flags h = flags w) (Hrec : archive_recovery w = None).
Context (Hfec : contains (flags w) GlobalFlags.SELECTIVE_FEC = bool_decide (is_Some (fec w))).
#[local] Abbreviation section := (global_flags_section w).

(** The crypto context the reader builds for a sealed entry. *)
Definition readable_crypto (l' : Lfh.LocalFileHeader) (bytes : list byte)
    (crypto : option Transform.EntryCryptoContext) : Prop :=
  match crypto with
  | Some c => contains (flags w) GlobalFlags.ENCRYPTED = true ∧ len (Transform.iv_nonce c) = 24
      ∧ EntryDecode.entry_crypto key_provider h section (Lfh.normalize (flags w) l') bytes = Ok c
  | None => contains (flags w) GlobalFlags.ENCRYPTED = false
  end.

Lemma reader_crypto l l' algo nonce bytes aad key value :
  contains (flags w) GlobalFlags.ENCRYPTED = true → len nonce = 24 →
  crypto_ok w key_provider h → encr_algo_id w = Some algo → cek w = Some key →
  let c := {| Transform.algo_id := algo; Transform.iv_nonce := nonce;
              Transform.aad := Crypto.build_aead_aad section aad; Transform.key := key |} in
  sealed w l l' value (Some c) → Lfh.fec_value l = [] → Lfh.fec_algo_id l = None →
  Lfh.lfh_bytes_for_aad (flags w) bytes (from_option fec_algo 0 (fec w)) (len value) = Ok aad →
  readable_crypto l' bytes (Some c).
Proof.
  intros He Hn (algo' & key' & p & ctx & Ha & _ & Hv & Hk & Hp & Hc & Hr) Ha' Hk' c Hs Hfv Hfa Haad.
  rewrite Ha' in Ha. injection Ha as <-. rewrite Hk' in Hk. injection Hk as <-.
  split_and!; [done..|]. unfold EntryDecode.entry_crypto.
  assert (E : Lfh.encr_algo_id l' = Some algo ∧ Lfh.iv_nonce l' = Some nonce
    ∧ default 0 (Lfh.norm_opt (contains (flags w) GlobalFlags.SELECTIVE_FEC) 0 (Lfh.fec_algo_id l'))
      = from_option fec_algo 0 (fec w)
    ∧ len (Lfh.norm_vec (contains (flags w) GlobalFlags.SELECTIVE_FEC) (Lfh.fec_value l')) = len value).
  { rewrite Hfec. unfold sealed in Hs. destruct (fec w) as [f|]; cbn in Hs.
    - rewrite Hs. done.
    - destruct Hs as [-> ->]. cbn. by rewrite Hfv. }
  destruct E as (E1 & E2 & E3 & E4).
  cbn [Lfh.normalize Lfh.encr_algo_id Lfh.iv_nonce Lfh.fec_algo_id Lfh.fec_value].
  rewrite He, E1, E2, E3, E4, Hp. cbn [Lfh.norm_opt from_option id ok_or mbind result_bind map_err].
  rewrite Hv, Hc. cbn [ok_or mbind result_bind map_err]. rewrite Hr.
  cbn [map_err mbind result_bind ok_or]. rewrite Hflags, Haad. done.
Qed.
Lemma seal_plain l wire encoded msg w' r :
  contains (flags w) GlobalFlags.ENCRYPTED = false →
  Transform.encode_payload_v2 wire (encoding_plan w None) = Ok encoded →
  seal_entry random l wire encoded msg w = (w', Ok r) →
  ∃ l' value bytes, write_entry bytes encoded w = (w', Ok r) ∧ sealed w l l' value None
    ∧ value_ok w value encoded ∧ Lfh.lfh_to_bytes l' (flags w) = Ok bytes.
Proof.
  intros He Henc H. unfold seal_entry in H. winv H. rewrite He in H. unfold write_plain in H. winv H.
  unfold reserve_fec in Hx. rewrite He in Hx. unfold sealed, value_ok.
  destruct (fec w) as [f|] eqn:Ef.
  - apply Ok_inj in Hx as <-. apply bind_Ok in Hx0 as (value & Hv & [= <-]).
    eexists _, value, x1. split_and!; [done|done| |done]. intros f' [= <-]. by exists encoded.
  - apply Ok_inj in Hx as <-. apply Ok_inj in Hx0 as <-.
    eexists _, _, x1. split_and!; [done|done| |done|done]. done.
Qed.
Lemma seal_encrypted l wire encoded msg w' r :
  Lfh.lfh_typed l → Lfh.fec_value l = [] → Lfh.fec_algo_id l = None →
  contains (flags w) GlobalFlags.ENCRYPTED = true → crypto_ok w key_provider h →
  (∀ f, fec w = Some f → fits 8 (fec_algo f)) →
  seal_entry random l wire encoded msg w = (w', Ok r) →
  ∃ l' value c bytes stored w1, silent w w1 ∧ write_entry bytes stored w1 = (w', Ok r)
    ∧ sealed w l l' value (Some c) ∧ value_ok w value stored
    ∧ Lfh.lfh_to_bytes l' (flags w) = Ok bytes
    ∧ Transform.encode_payload_v2 wire (encoding_plan w (Some c)) = Ok stored
    ∧ readable_crypto l' bytes (Some c) ∧ fits 8 (Transform.algo_id c).
Proof.
  intros Ht Hfv Hfa He Hcr Hf8 H. pose proof Hcr as (algo & key & _ & _ & Ha & Ha8 & _ & Hk & _).
  unfold seal_entry in H. winv H. rewrite He in H. unfold write_encrypted in H. winv H.
  rewrite Ha in Hx0. cbn in Hx0. injection Hx0 as <-.
  apply writer_bind_Ok in H as (nonce & w1 & Hn & H).
  apply fresh_nonce_Ok in Hn as [Hs Hn]; [|done]. winv H.
  rewrite Hk in Hx2. cbn in Hx2. injection Hx2 as <-.
  set (c := {| Transform.algo_id := algo |}) in *.
  unfold reserve_fec in Hx. rewrite He in Hx. unfold fill_fec in Hx4.
  destruct (fec w) as [f|] eqn:Ef in Hx, Hx4.
  - apply bind_Ok in Hx as (n & _ & [= <-]). apply bind_Ok in Hx4 as (m & Hm & Hx4).
    apply bind_Ok in Hx4 as (ct & (-> & Hct)%slice_r_Ok & Hx4).
    apply bind_Ok in Hx4 as (value & Hv & Hx4). apply guard_Ok in Hx4 as [Hl Hx4].
    apply Ok_inj in Hx4 as <-. apply negb_false_iff, Z.eqb_eq in Hl. cbn [Lfh.fec_value set_crypto set_fec] in Hl.
    exists (set_fec (set_crypto l algo nonce) (Some (fec_algo f)) value), value, c, x5, x3, w1.
    assert (Hse : sealed w l (set_fec (set_crypto l algo nonce) (Some (fec_algo f)) value) value (Some c))
      by (unfold sealed; by rewrite Ef).
    split_and!; [done|done|done| |done|done| |done].
    { intros f' Hf'. rewrite Ef in Hf'. injection Hf' as <-.
      exists (slice x3 0 m). split; [rewrite len_slice; lia|done]. }
    eapply (reader_crypto l _ algo nonce x5 x1 key value); try done. rewrite Ef. cbn [from_option].
    rewrite <- Hx1. cbn [Lfh.fec_algo_id Lfh.fec_value set_crypto set_fec from_option]. symmetry.
    apply (aad_same (flags w) (set_crypto l algo nonce)); try done.
    + by apply typed_set_crypto.
    + by apply Hf8.
    + by destruct (fec_algo_cases _ _ _ Hv) as [->| ->].
    + by rewrite Hfec, Ef.
  - apply Ok_inj in Hx as <-. apply Ok_inj in Hx4 as <-.
    rewrite Hx0 in Hx5. apply Ok_inj in Hx5 as <-.
    exists (set_crypto l algo nonce), [], c, x0, x3, w1.
    assert (Hse : sealed w l (set_crypto l algo nonce) [] (Some c)) by (unfold sealed; by rewrite Ef).
    split_and!; [done..|by intros f' Hf'; rewrite Ef in Hf'|done|done| |done].
    eapply (reader_crypto l _ algo nonce x0 x1 key []); try done. rewrite <- Hx1, Ef.
    unfold Lfh.lfh_bytes_for_aad. by rewrite Hfec, Ef.
Qed.
End seal.

(** ** Decoding a sealed entry *)
Section decode.
Context {B : Bitflags} {Comp : Compression.Compressors} {Ciph : Crypto.Ciphers} {K : Kms.Kdfs}.
Context {CompL : Compression.CompressorLaws Comp} {CiphL : Crypto.CipherLaws Ciph}.
Context (oc : bool) (options : EntryDecode.ArchiveReaderOptions).
Context (key_provider : option Kms.KeyProvider) (h : Format.GlobalHeader) (w : ArchiveWriter).
Context (Hflags : Format.flags h = flags w).
Context (Hcomp : contains (flags w) GlobalFlags.COMPRESSED
                 = negb (comp_algo (compression w) =? Compression.COMP_ALGO_STORE)).
Context (Hlevel : ∀ v, level (compression w) = Some v → 0 ≤ v).
Context (Hfec : contains (flags w) GlobalFlags.SELECTIVE_FEC = bool_decide (is_Some (fec w))).
#[local] Abbreviation compressed := (negb (comp_algo (compression w) =? Compression.COMP_ALGO_STORE)).

(** The header of an entry as the pipeline uses it. *)
Record header_of (l : Lfh.LocalFileHeader) (payload stored : list byte)
    (crypto : option Transform.EntryCryptoContext) : Prop := {
  of_uncompressed : Lfh.uncompressed_size l = len payload;
  of_payload : Lfh.payload_size l = len stored;
  of_compressed : EntryMode.is_compressed (Lfh.entry_mode l) = compressed;
  of_encrypted : EntryMode.is_encrypted (Lfh.entry_mode l) = bool_decide (is_Some crypto);
  of_sparse : Lfh.sparse_map l = [];
  of_patch : default 0 (Lfh.patch_algo_id l) = Patch.PATCH_ALGO_STORE_PATCH;
  of_comp : contains (flags w) GlobalFlags.COMPRESSED = true →
            Lfh.comp_algo_id l = Some (comp_algo (compression w)) }.

Lemma stored_plain payload stored :
  compressed = false →
  Transform.encode_payload_v2 payload (encoding_plan w None) = Ok stored → stored = payload.
Proof.
  intros Hc. unfold Transform.encode_payload_v2, Transform.encode_payload, Transform.encoder_transform.
  cbn [encoding_plan Transform.encoding Transform.is_compressed Transform.e_crypto]. rewrite Hc.
  by intros [= ->].
Qed.

Lemma decode_stages_sealed l payload stored bytes crypto :
  header_of l payload stored crypto → len payload < 2 ^ 63 →
  len payload ≤ EntryDecode.max_decoded_entry_size options →
  Transform.encode_payload_v2 payload (encoding_plan w crypto) = Ok stored →
  readable_crypto key_provider h w l bytes crypto →
  EntryDecode.decode_stages oc options key_provider h (global_flags_section w)
    (Lfh.normalize (flags w) l) bytes stored (bool_decide (is_Some crypto)) = Ok payload.
Proof.
  intros [Hu Hp Hmc Hme Hsp Hpa Hco] Hlen Hmax Henc Hcr. pose proof (len_nonneg payload).
  unfold EntryDecode.decode_stages. rewrite Hflags.
  cbn [Lfh.normalize Lfh.entry_mode Lfh.sparse_map Lfh.patch_algo_id Lfh.comp_algo_id
    Lfh.uncompressed_size Lfh.payload_size].
  rewrite Hmc, Hcomp, Hsp, Hu, Hp. rewrite andb_diag.
  assert (Hs : len (Lfh.norm_vec (contains (flags w) GlobalFlags.SPARSE_FILES) []) = 0)
    by (unfold Lfh.norm_vec; by case_match). rewrite Hs. cbn [Z.eqb negb]. rewrite andb_false_r.
  cbn [negb andb orb].
  set (delta := contains (flags w) GlobalFlags.HAS_DELTA).
  assert (Hd : default 0 (Lfh.norm_opt delta 0 (Lfh.patch_algo_id l)) = Patch.PATCH_ALGO_STORE_PATCH)
    by (destruct delta; [exact Hpa|done]).
  rewrite !Hd, Z.eqb_refl, !andb_true_r. cbn [negb]. rewrite andb_false_r.
  assert (Hplain : negb compressed && negb (bool_decide (is_Some crypto)) = true → len stored = len payload).
  { destruct compressed eqn:Ec; [done|]. destruct crypto; [done|]. intros _.
    by rewrite (stored_plain payload stored Ec Henc). }
  assert (Hck : (if delta then check_decoded_entry_size (EntryDecode.limits options) (len payload)
                 else Ok ()) = Ok ()).
  { destruct delta; [|done]. by apply check_decoded_entry_size_ok. }
  rewrite Hck. cbn [mbind result_bind]. rewrite (proj2 (guard_Ok _ _ _ payload)); [done|].
  split.
  { destruct (negb compressed && negb (bool_decide (is_Some crypto))) eqn:E.
    - rewrite (Hplain eq_refl), Z.eqb_refl. cbn. by rewrite andb_false_r.
    - rewrite <- !andb_assoc. rewrite (andb_assoc (negb compressed)), E. cbn. by rewrite andb_false_r. }
  assert (Hc : (if bool_decide (is_Some crypto) then
      c ← EntryDecode.entry_crypto key_provider h (global_flags_section w)
            (Lfh.normalize (flags w) l) bytes; Ok (Some c) else Ok None) = Ok crypto).
  { destruct crypto as [c|]; [|done]. cbn. destruct Hcr as (_ & _ & ->). done. }
  rewrite Hc. cbn [mbind result_bind].
  assert (Hdec : Transform.decode_payload_v2 stored
      (Transform.decoding_of (encoding_plan w crypto) (len payload)
         (EntryDecode.max_decoded_entry_size options)) = Ok payload).
  { rewrite (Transform.payload_decodes payload _ stored); [| |lia..|done].
    - rewrite (proj2 (Z.leb_le _ _)) by lia. by rewrite Z.gtb_ltb, (proj2 (Z.ltb_ge _ _)) by lia.
    - split; [done|]. cbn. intros c ->. by destruct Hcr as (_ & ? & _). }
  match goal with |- context [Transform.decode_payload_v2 stored ?plan] =>
    replace plan with (Transform.decoding_of (encoding_plan w crypto) (len payload)
         (EntryDecode.max_decoded_entry_size options)) end.
  2: { unfold Transform.decoding_of. cbn. do 2 f_equal. destruct compressed eqn:E.
       - by rewrite Hco.
       - by apply negb_false_iff, Z.eqb_eq in E. }
  rewrite Hdec. cbn [mbind result_bind].
  assert (Hpatch : (if delta then EntryDecode.apply_patch oc options (Lfh.normalize (flags w) l) false
      Patch.PATCH_ALGO_STORE_PATCH payload else Ok payload) = Ok payload).
  { destruct delta; [|done]. unfold EntryDecode.apply_patch. cbn [Z.eqb Patch.PATCH_ALGO_STORE_PATCH negb].
    unfold Patch.apply_store_patch. cbn [Lfh.normalize Lfh.uncompressed_size].
    by rewrite Hu, Z.eqb_refl. }
  rewrite Hpatch. cbn [mbind result_bind]. unfold EntryDecode.check_decoded_size.
  rewrite try_from_fits by lia. cbn [ok_or mbind result_bind Lfh.normalize Lfh.uncompressed_size Lfh.payload_size].
  rewrite Hu, Hp, Z.eqb_refl. cbn [negb].
  destruct (negb compressed && negb (bool_decide (is_Some crypto))) eqn:E; [|by cbn].
  rewrite (Hplain eq_refl), !Z.eqb_refl. cbn [negb]. by rewrite !andb_false_r.
Qed.
End decode.

(** ** The header of an added entry *)
Section header.
Context {B : Bitflags}.

(** The values of an [EntryInput] are values of their Rust types; no delta. *)
Record input_typed (e : EntryInput) : Prop := {
  typed_name : Utf8.from_utf8 (in_name e) = true;
  typed_path : ∀ p, in_path e = Some p → Utf8.from_utf8 p = true;
  typed_permissions : ∀ v, in_permissions e = Some v → fits 16 v;
  typed_uid_gid : ∀ v, in_uid_gid e = Some v → fits 32 v;
  typed_timestamps : ∀ m a c, in_timestamps e = Some (m, a, c) → fits 64 m ∧ fits 64 a ∧ fits 64 c;
  typed_stream : ∀ v, in_stream_id e = Some v → fits 16 v;
  typed_sequence : ∀ v, in_sequence_no e = Some v → fits 16 v;
  typed_crc : ∀ v, in_file_crc32 e = Some v → fits 32 v;
  typed_hash : ∀ v, in_content_hash e = Some v → len v = 32;
  no_delta : in_delta e = None }.

(** The mode of an entry before it is sealed. *)
Definition kind_bits (k : option Metadata.EntryKind) : Z :=
  match k with
  | Some Metadata.Directory => EntryMode.IS_DIRECTORY
  | Some Metadata.Symlink => EntryMode.IS_SYMLINK
  | _ => 0
  end.
Definition mode_of (e : EntryInput) (compressed encrypted : bool) : Z :=
  let m := kind_bits (in_kind e) in
  let m := if in_is_hidden e then Z.lor m EntryMode.HIDDEN_ATTR else m in
  let m := if compressed then Z.lor m EntryMode.COMPRESSED else m in
  if encrypted then Z.lor m EntryMode.ENCRYPTED else m.
Lemma mode_of_facts e c x :
  let m := mode_of e c x in
  fits 16 m ∧ EntryMode.is_compressed m = c ∧ EntryMode.is_encrypted m = x
  ∧ EntryMode.is_session_control m = false ∧ EntryMode.op_code m = 0
  ∧ EntryMode.is_fragment m = false ∧ EntryMode.is_hidden_attr m = in_is_hidden e
  ∧ EntryMode.is_directory m = bool_decide (in_kind e = Some Metadata.Directory)
  ∧ EntryMode.is_symlink m = bool_decide (in_kind e = Some Metadata.Symlink).
Proof.
  unfold mode_of, kind_bits. destruct (in_kind e) as [[]|], (in_is_hidden e), c, x;
    by split_and!.
Qed.

(** What the header of an entry says, before the error correction and the encryption. *)
Record header_for (flags : Z) (e : EntryInput) (compressed : bool) (payload_len : Z)
    (l : Lfh.LocalFileHeader) : Prop := {
  for_mode : Lfh.entry_mode l = mode_of e compressed false;
  for_stream : Lfh.stream_id l = default 0 (in_stream_id e);
  for_sequence : Lfh.sequence_no l = default 0 (in_sequence_no e);
  for_uncompressed : Lfh.uncompressed_size l = len (in_payload e);
  for_payload : Lfh.payload_size l = payload_len;
  for_patch : default 0 (Lfh.patch_algo_id l) = Patch.PATCH_ALGO_STORE_PATCH;
  for_hash_base : ∀ v, Lfh.delta_base_hash l = Some v → len v = 32;
  for_encr : Lfh.encr_algo_id l = None; for_nonce : Lfh.iv_nonce l = None;
  for_fec : Lfh.fec_algo_id l = None; for_value : Lfh.fec_value l = [];
  for_fragment : Lfh.fragment_id l = None ∧ Lfh.fragment_index l = None
                 ∧ Lfh.fragment_descriptor l = None;
  for_crc : Lfh.file_crc32 l = if contains flags GlobalFlags.PER_FILE_CRC
                               then Some (default 0 (in_file_crc32 e)) else None;
  for_content : Lfh.content_hash l = if contains flags GlobalFlags.DEDUPLICATION
                then Some (default ZERO_CONTENT_HASH (in_content_hash e)) else None;
  for_owner : Lfh.uid_gid l = in_uid_gid e;
  for_times : Lfh.timestamps l = in_timestamps e;
  for_permissions : Lfh.permissions l = in_permissions e;
  for_name : Lfh.name l = in_name e; for_path : Lfh.path l = default [] (in_path e);
  for_sparse : Lfh.sparse_map l = [] }.

Lemma required_field_Ok {A} flags flag (o : option A) m1 m2 :
  required_field flags flag o m1 m2 = Ok () → contains flags flag = bool_decide (is_Some o).
Proof. unfold required_field. by destruct (contains flags flag), o. Qed.
Lemma allowed_field_Ok {A} flags flag (o : option A) m :
  allowed_field flags flag o m = Ok () → contains flags flag = false → o = None.
Proof. unfold allowed_field. intros H Hc. rewrite Hc in H. by destruct o. Qed.
Lemma present_field_Ok {A} (o : option A) c m v :
  present_field c o m = Ok v → c = bool_decide (is_Some o) → v = o.
Proof. unfold present_field. intros H ->. destruct o; cbn in H; by inv_ok. Qed.
(** The checks of the input, as facts about the fields. *)
Record input_checked (flags : Z) (e : EntryInput) : Prop := {
  checked_symlink : in_kind e = Some Metadata.Symlink → Utf8.from_utf8 (in_payload e) = true;
  checked_directory : in_kind e = Some Metadata.Directory → in_payload e = [];
  checked_path : contains flags GlobalFlags.HAS_PATH = false → in_path e = None;
  checked_permissions : contains flags GlobalFlags.HAS_PERMS = bool_decide (is_Some (in_permissions e));
  checked_owner : contains flags GlobalFlags.EXT_UID_GID = bool_decide (is_Some (in_uid_gid e));
  checked_times : contains flags GlobalFlags.EXT_TIME = bool_decide (is_Some (in_timestamps e)) }.
Lemma validate_input_Ok flags e :
  validate_entry_input_metadata flags e = Ok () → input_checked flags e.
Proof.
  unfold validate_entry_input_metadata. intros H.
  apply guard_Ok in H as [_ H]. apply guard_Ok in H as [E1 H]. apply guard_Ok in H as [E2 H].
  apply bind_Ok in H as ([] & Hp & H). do 2 apply guard_Ok in H as [_ H].
  apply bind_Ok in H as ([] & Hperm%required_field_Ok & H).
  apply bind_Ok in H as ([] & Hown%required_field_Ok & H).
  apply bind_Ok in H as ([] & Htime%required_field_Ok & H). split; try done.
  - intros Hk. rewrite bool_decide_true in E1 by done. by apply negb_false_iff in E1.
  - intros Hk. rewrite bool_decide_true in E2 by done. apply negb_false_iff, Z.eqb_eq in E2.
    by apply length_zero_iff_nil, Nat2Z.inj.
  - intros Hc. by eapply allowed_field_Ok.
Qed.

Lemma apply_input_Ok w e payload_len l1 l :
  input_checked (flags w) e → in_delta e = None →
  apply_entry_input_to_lfh (flags w) e
    (set_sizes (Lfh.minimal_store (in_name e) payload_len) (len (in_payload e))) = Ok l1 →
  l = settings_to_lfh w l1 (Lfh.sparse_map l1) →
  header_for (flags w) e (negb (comp_algo (compression w) =? Compression.COMP_ALGO_STORE)) payload_len l
  ∧ (contains (flags w) GlobalFlags.COMPRESSED = true → Lfh.comp_algo_id l = Some (comp_algo (compression w)))
  ∧ (contains (flags w) GlobalFlags.COMPRESSED = false → Lfh.comp_algo_id l = None)
  ∧ default 0 (Lfh.cdc_algo_id l) = 0.
Proof.
  intros [_ _ Hpath Hperm Hown Htime] Hd H ->. unfold apply_entry_input_to_lfh in H.
  apply bind_Ok in H as (perm & Hp & H). apply bind_Ok in H as (own & Ho & H).
  apply bind_Ok in H as (time & Ht & H). apply Ok_inj in H as <-.
  apply present_field_Ok in Hp as ->; [|done]. apply present_field_Ok in Ho as ->; [|done].
  apply present_field_Ok in Ht as ->; [|done].
  split; [split|].
  all: cbn -[contains GlobalFlags.HAS_DELTA]; rewrite ?Hd; try done.
  - unfold mode_of, kind_bits.
    destruct (in_kind e) as [[]|], (in_is_hidden e); try done; by destruct (len (in_name e) =? 0).
  - by destruct (contains (flags w) GlobalFlags.HAS_DELTA).
  - by destruct (contains (flags w) GlobalFlags.HAS_DELTA); intros v [= <-].
  - rewrite Hown. by destruct (in_uid_gid e).
  - rewrite Htime. by destruct (in_timestamps e).
  - rewrite Hperm. by destruct (in_permissions e).
  - destruct (contains (flags w) GlobalFlags.HAS_PATH) eqn:E; [done|]. by rewrite Hpath.
  - split_and!; [by intros ->|by intros ->|]. by destruct (contains (flags w) GlobalFlags.CDC_SUPPORT).
Qed.
Lemma default_typed (P : Z → Prop) (o : option Z) : P 0 → (∀ v, o = Some v → P v) → P (default 0 o).
Proof. destruct o; cbn; auto. Qed.
Lemma header_typed flags e c payload_len l :
  input_typed e → header_for flags e c payload_len l → fits 64 (len (in_payload e)) →
  fits 64 payload_len → fits 8 (default 0 (Lfh.comp_algo_id l)) → default 0 (Lfh.cdc_algo_id l) = 0 →
  Lfh.lfh_typed l.
Proof.
  intros [] [] Hp Hs Hc Hcdc. destruct (mode_of_facts e c false) as [Hm _]. unfold Lfh.lfh_typed.
  repeat match goal with H : ?f l = _ |- _ => rewrite H end.
  match goal with H : _ ∧ _ |- _ => destruct H as (-> & -> & ->) end.
  rewrite Hcdc. split_and!; try done; try (by apply default_typed).
  - match goal with H : default 0 (Lfh.patch_algo_id l) = _ |- _ => by rewrite H end.
  - destruct (Lfh.delta_base_hash l); cbn; auto.
  - destruct (contains flags GlobalFlags.PER_FILE_CRC); [|done]. cbn. by apply default_typed.
  - destruct (contains flags GlobalFlags.DEDUPLICATION); [|done]. cbn.
    destruct (in_content_hash e); cbn; auto.
  - destruct (in_timestamps e) as [[[]]|]; cbn; auto.
Qed.
End header.

(** ** One entry, written and decoded *)
Section entry.
Context {B : Bitflags} {Comp : Compression.Compressors} {Ciph : Crypto.Ciphers} {K : Kms.Kdfs}.
Context {CompL : Compression.CompressorLaws Comp} {CiphL : Crypto.CipherLaws Ciph}.

(** The kind of an entry that was added; one without a name is an empty area. *)
Definition kind_seen (e : EntryInput) : Metadata.EntryKind :=
  if len (in_name e) =? 0 then Metadata.EmptyArea
  else match in_kind e with
       | Some Metadata.Directory => Metadata.Directory
       | Some Metadata.Symlink => Metadata.Symlink
       | _ => Metadata.RegularFile
       end.
(** What the reader is to return for an entry that was added: its payload and every piece
    of metadata it was given. *)
Record returns (flags : Z) (e : EntryInput) (r : EntryDecode.EntryReader) : Prop := {
  ret_payload : EntryDecode.payload r = in_payload e;
  ret_name : Metadata.name (EntryDecode.metadata r) = in_name e;
  ret_size : Metadata.uncompressed_size (EntryDecode.metadata r) = len (in_payload e);
  ret_path : Metadata.path (EntryDecode.metadata r)
             = from_option (λ p, if len p =? 0 then None else Some p) None (in_path e);
  ret_stream : Metadata.stream_id (EntryDecode.metadata r) = default 0 (in_stream_id e);
  ret_sequence : Metadata.sequence_no (EntryDecode.metadata r) = default 0 (in_sequence_no e);
  ret_hidden : Metadata.is_hidden (EntryDecode.metadata r) = in_is_hidden e;
  ret_permissions : Metadata.permissions (EntryDecode.metadata r)
                    = Metadata.Build_EntryPermissionMetadata <$> in_permissions e;
  ret_owner : Metadata.owner (EntryDecode.metadata r)
              = Metadata.Build_EntryOwnerMetadata <$> in_uid_gid e;
  ret_times : Metadata.timestamps (EntryDecode.metadata r)
              = (λ '(m, a, c), {| Metadata.mtime := m; Metadata.atime := a; Metadata.ctime := c |})
                <$> in_timestamps e;
  ret_crc : Metadata.file_crc32 (EntryDecode.metadata r)
            = if contains flags GlobalFlags.PER_FILE_CRC then Some (default 0 (in_file_crc32 e)) else None;
  ret_hash : Metadata.meta_content_hash (EntryDecode.metadata r)
             = if contains flags GlobalFlags.DEDUPLICATION
               then Some (default ZERO_CONTENT_HASH (in_content_hash e)) else None;
  ret_symlink : in_kind e = Some Metadata.Symlink → len (in_name e) ≠ 0 →
                Metadata.symlink_target (EntryDecode.metadata r) = Some (in_payload e);
  ret_kind : Metadata.entry_kind (EntryDecode.metadata r) = kind_seen e;
  ret_fragment : Metadata.is_fragment (EntryDecode.metadata r) = false;
  ret_sparse : Metadata.sparse_extents (EntryDecode.metadata r) = None }.

Context (oc : bool) (options : EntryDecode.ArchiveReaderOptions).
Context (key_provider : option Kms.KeyProvider) (h : Format.GlobalHeader) (w : ArchiveWriter).
Context (Hflags : Format.flags h = flags w).
#[local] Abbreviation compressed := (negb (comp_algo (compression w) =? Compression.COMP_ALGO_STORE)).

(** The settings of a writer, as they show in its flags. *)
Record settings_ok : Prop := {
  set_comp : contains (flags w) GlobalFlags.COMPRESSED = compressed;
  set_comp8 : fits 8 (comp_algo (compression w));
  set_level : ∀ v, level (compression w) = Some v → 0 ≤ v;
  set_fec_flag : contains (flags w) GlobalFlags.SELECTIVE_FEC = bool_decide (is_Some (fec w));
  set_fec_typed : ∀ f, fec w = Some f → fits 8 (fec_algo f) ∧ fec_typed f;
  set_no_recovery : archive_recovery w = None }.

(** The error-correction value is accepted. *)
Lemma value_accepted f protected value limits :
  fec_typed f → len protected < 2 ^ 63 → compute_fec_value f protected = Ok value →
  len value ≤ max_fec_value_bytes limits →
  ∃ s, FecRegistry.parse_lfh_fec_value (fec_algo f) value limits = Ok (Some s).
Proof.
  intros (Hc0 & Hc1 & Hc2) Hl Hv Hm. unfold compute_fec_value in Hv.
  apply bind_Ok in Hv as (v & Hv & [= <-]).
  assert (He : FecRegistry.encode_fec (fec_algo f) protected (config0 f) (config1 f)
                 (Some (symbol_size f)) = Ok v).
  { unfold FecRegistry.encode_fec.
    destruct (Z.eqb_spec (fec_algo f) FEC_ALGO_XOR) as [->|];
      [|destruct (Z.eqb_spec (fec_algo f) FEC_ALGO_REED_SOLOMON) as [->|]; [|done]];
      apply bind_Ok in Hv as (c & Hc%map_err_Ok & Hv%map_err_Ok);
      cbn [Z.eqb Pos.eqb FEC_ALGO_XOR FEC_ALGO_REED_SOLOMON ok_or mbind result_bind]; rewrite Hc; exact Hv. }
  destruct (FecRegistry.encode_fec_accepted (fec_algo f) protected (config0 f) (config1 f)
    (Some (symbol_size f)) v limits) as (_ & m & _ & _ & Hp); try done; [by intros s [= <-]|]. by eexists.
Qed.

(** Sealing changes only the error-correction and encryption fields. *)
Lemma sealed_fields l l' value crypto :
  sealed w l l' value crypto → Lfh.iv_nonce l = None →
  Lfh.entry_mode l' = (if bool_decide (is_Some crypto)
                       then Z.lor (Lfh.entry_mode l) EntryMode.ENCRYPTED else Lfh.entry_mode l)
  ∧ (∀ f, fec w = Some f → Lfh.fec_algo_id l' = Some (fec_algo f) ∧ Lfh.fec_value l' = value)
  ∧ ∃ mode ea nonce fa fv,
      l' = {| Lfh.header_size := Lfh.header_size l; Lfh.entry_mode := mode;
              Lfh.stream_id := Lfh.stream_id l; Lfh.sequence_no := Lfh.sequence_no l;
              Lfh.uncompressed_size := Lfh.uncompressed_size l;
              Lfh.payload_size := Lfh.payload_size l; Lfh.comp_algo_id := Lfh.comp_algo_id l;
              Lfh.patch_algo_id := Lfh.patch_algo_id l; Lfh.encr_algo_id := ea;
              Lfh.cdc_algo_id := Lfh.cdc_algo_id l; Lfh.fec_algo_id := fa;
              Lfh.fragment_id := Lfh.fragment_id l; Lfh.fragment_index := Lfh.fragment_index l;
              Lfh.fragment_descriptor := Lfh.fragment_descriptor l; Lfh.iv_nonce := nonce;
              Lfh.delta_base_hash := Lfh.delta_base_hash l; Lfh.file_crc32 := Lfh.file_crc32 l;
              Lfh.content_hash := Lfh.content_hash l; Lfh.uid_gid := Lfh.uid_gid l;
              Lfh.timestamps := Lfh.timestamps l; Lfh.permissions := Lfh.permissions l;
              Lfh.name := Lfh.name l; Lfh.path := Lfh.path l;
              Lfh.sparse_map := Lfh.sparse_map l; Lfh.fec_value := fv |}.
Proof.
  unfold sealed. intros Hs Hn. destruct (fec w) as [f|], crypto as [c|];
    (rewrite Hs || destruct Hs as [-> _]); cbn -[EntryMode.ENCRYPTED];
    (split; [done|]); (split; [intros f0 Hf0; by simplify_eq/=|]);
    first [by do 5 eexists | exists (Lfh.entry_mode l), (Lfh.encr_algo_id l), (Lfh.iv_nonce l),
      (Lfh.fec_algo_id l), (Lfh.fec_value l); by destruct l].
Qed.
Lemma views_ok e l l' value crypto stored payload_len :
  settings_ok → header_for (flags w) e compressed payload_len l →
  default 0 (Lfh.cdc_algo_id l) = 0 → sealed w l l' value crypto → value_ok w value stored →
  len stored < 2 ^ 63 → len value ≤ max_fec_value_bytes (EntryDecode.limits options) →
  input_typed e → input_checked (flags w) e →
  (in_kind e = Some Metadata.Directory → payload_len = 0) →
  ∃ v, EntryDecode.parse_views options h (Lfh.normalize (flags w) l') (in_payload e) = Ok v
    ∧ (in_kind e = Some Metadata.Symlink → len (in_name e) ≠ 0 →
       EntryDecode.v_symlink_target v = Some (in_payload e))
    ∧ EntryDecode.v_sparse_extents v = None ∧ EntryDecode.v_entry_kind v = kind_seen e.
Proof.
  intros S Hfor Hcdc Hseal Hval Hst Hmv Ht Hck Hdir. unfold EntryDecode.parse_views. rewrite Hflags.
  destruct (sealed_fields _ _ _ _ Hseal (for_nonce _ _ _ _ _ Hfor)) as (Hmode & Hfv & m & ea & no & fa & fv & El).
  destruct (mode_of_facts e compressed (bool_decide (is_Some crypto))) as (_ & _ & _ & _ & _ & Hfr & _ & Hd & Hs).
  assert (Hm : Lfh.entry_mode l' = mode_of e compressed (bool_decide (is_Some crypto))).
  { rewrite Hmode, (for_mode _ _ _ _ _ Hfor). unfold mode_of. by destruct (bool_decide _). }
  assert (Hfec : ∃ o, (if contains (flags w) GlobalFlags.SELECTIVE_FEC then
      FecRegistry.parse_lfh_fec_value (default 0 (Lfh.fec_algo_id (Lfh.normalize (flags w) l')))
        (Lfh.fec_value (Lfh.normalize (flags w) l')) (EntryDecode.limits options) else Ok None) = Ok o).
  { cbn [Lfh.normalize Lfh.fec_algo_id Lfh.fec_value]. rewrite (set_fec_flag S).
    destruct (fec w) as [f|] eqn:Ef; [|by eexists]. cbn.
    destruct (Hfv f eq_refl) as [-> ->]. destruct (Hval f Ef) as (p & Hp & Hv).
    destruct (value_accepted f p value (EntryDecode.limits options)) as [s Hs'];
      [by apply (set_fec_typed S)|lia|done|done|]. cbn. rewrite Hs'. by eexists. }
  destruct Hfec as [o Ho]. rewrite Ho. cbn [mbind result_bind].
  assert (En : Lfh.name l' = in_name e ∧ Lfh.payload_size l' = payload_len ∧ Lfh.sparse_map l' = []
    ∧ default 0 (Lfh.cdc_algo_id l') = 0).
  { rewrite El. cbn. destruct Hfor. by split_and!. }
  destruct En as (En & Ep & Es & Ec).
  cbn [Lfh.normalize Lfh.name Lfh.payload_size Lfh.sparse_map Lfh.cdc_algo_id Lfh.entry_mode].
  rewrite En, Ep, Es, Hm, Hd, (typed_name _ Ht).
  assert (Hs0 : len (Lfh.norm_vec (contains (flags w) GlobalFlags.SPARSE_FILES) []) = 0)
    by (by destruct (contains (flags w) GlobalFlags.SPARSE_FILES)).
  rewrite Hs0. cbn [Z.eqb negb]. rewrite andb_false_r.
  cbn [mbind result_bind].
  assert (Hcd : ∃ o, (if contains (flags w) GlobalFlags.CDC_SUPPORT then
      _ ← CdcMap.CdcMap.core_validate_cdc_algo_id
            (default 0 (Lfh.norm_opt (contains (flags w) GlobalFlags.CDC_SUPPORT) 0 (Lfh.cdc_algo_id l')));
      Ok (Some (default 0 (Lfh.norm_opt (contains (flags w) GlobalFlags.CDC_SUPPORT) 0 (Lfh.cdc_algo_id l'))))
    else Ok None) = Ok o).
  { destruct (contains (flags w) GlobalFlags.CDC_SUPPORT); [|by eexists]. cbn [Lfh.norm_opt from_option id].
    rewrite Ec. by eexists. }
  destruct Hcd as [cdc ->]. cbn [mbind result_bind].
  assert (Hdd : bool_decide (in_kind e = Some Metadata.Directory) && negb (payload_len =? 0) = false).
  { destruct (decide (in_kind e = Some Metadata.Directory)) as [Hk|Hk]; [|by rewrite bool_decide_false].
    by rewrite (Hdir Hk), andb_false_r. }
  rewrite Hdd.
  assert (Hks : Metadata.from_mode_and_name (mode_of e compressed (bool_decide (is_Some crypto)))
      (len (in_name e) =? 0) = kind_seen e).
  { unfold Metadata.from_mode_and_name, kind_seen. rewrite Hfr, Hd, Hs, andb_true_r.
    destruct (len (in_name e) =? 0); [done|]. by destruct (in_kind e) as [[]|]. }
  rewrite Hks. destruct (decide (_ = Metadata.Symlink)) as [Hk|Hk].
  - assert (Hsym : in_kind e = Some Metadata.Symlink).
    { unfold kind_seen in Hk. destruct (len (in_name e) =? 0); [done|]. by destruct (in_kind e) as [[]|]. }
    rewrite (checked_symlink _ _ Hck Hsym). cbn [negb mbind result_bind]. eexists. by split_and!.
  - cbn [mbind result_bind]. eexists. split; [done|]. split; [|done]. intros Hsym Hne. destruct Hk.
    unfold kind_seen. rewrite (proj2 (Z.eqb_neq _ _)) by done. by rewrite Hsym.
Qed.
Lemma path_ok e l' :
  Lfh.path l' = default [] (in_path e) → input_typed e → input_checked (flags w) e →
  EntryDecode.parse_path (Lfh.normalize (flags w) l')
  = Ok (from_option (λ p, if len p =? 0 then None else Some p) None (in_path e)).
Proof.
  intros Hp Ht Hck. unfold EntryDecode.parse_path. cbn [Lfh.normalize Lfh.path]. rewrite Hp.
  destruct (in_path e) as [p|] eqn:E; cbn [from_option].
  - destruct (contains (flags w) GlobalFlags.HAS_PATH) eqn:Hc;
      [|by rewrite (checked_path _ _ Hck Hc) in E]. cbn [Lfh.norm_vec from_option id].
    destruct (len p =? 0); [done|]. by rewrite (typed_path _ Ht p E).
  - by destruct (contains (flags w) GlobalFlags.HAS_PATH).
Qed.

Lemma entry_decodes e l l' value crypto bytes stored off :
  settings_ok → input_typed e → input_checked (flags w) e →
  header_for (flags w) e compressed (len stored) l →
  (contains (flags w) GlobalFlags.COMPRESSED = true →
   Lfh.comp_algo_id l = Some (comp_algo (compression w))) →
  default 0 (Lfh.cdc_algo_id l) = 0 →
  sealed w l l' value crypto → value_ok w value stored →
  Transform.encode_payload_v2 (in_payload e) (encoding_plan w crypto) = Ok stored →
  readable_crypto key_provider h w l' bytes crypto →
  len stored < 2 ^ 63 → len (in_payload e) < 2 ^ 63 →
  len value ≤ max_fec_value_bytes (EntryDecode.limits options) →
  len (in_payload e) ≤ EntryDecode.max_decoded_entry_size options →
  (in_kind e = Some Metadata.Directory → len stored = 0) →
  ∃ parts, EntryDecode.decode_ordinary_archive_entry_from_parts oc options key_provider h
             (global_flags_section w) off (Lfh.normalize (flags w) l') bytes stored = Ok parts
    ∧ returns (flags w) e {| EntryDecode.header := Lfh.normalize (flags w) l';
                             EntryDecode.payload := EntryDecode.parts_payload parts;
                             EntryDecode.metadata := EntryDecode.parts_metadata parts |}.
Proof.
  intros S Ht Hck Hfor Hco Hcdc Hseal Hval Henc Hcr Hst Hpl Hmv Hmax Hdir.
  destruct (sealed_fields _ _ _ _ Hseal (for_nonce _ _ _ _ _ Hfor)) as (Hmode & _ & m & ea & no & fa & fv & El).
  destruct (mode_of_facts e compressed (bool_decide (is_Some crypto))) as (_ & Hmc & Hme & _ & _ & Hfr & Hhid & _).
  assert (Hm : Lfh.entry_mode l' = mode_of e compressed (bool_decide (is_Some crypto))).
  { rewrite Hmode, (for_mode _ _ _ _ _ Hfor). unfold mode_of. by destruct (bool_decide _). }
  destruct (views_ok e l l' value crypto stored (len stored) S Hfor Hcdc Hseal Hval Hst Hmv Ht Hck Hdir)
    as (v & Hv & Hsym & Hns & Hkind).
  assert (Hp : Lfh.path l' = default [] (in_path e)) by (rewrite El; apply Hfor).
  assert (Hof : header_of w l' (in_payload e) stored crypto).
  { split; rewrite ?Hm; try done; rewrite El; cbn; by destruct Hfor. }
  unfold EntryDecode.decode_ordinary_archive_entry_from_parts.
  cbn [Lfh.normalize Lfh.entry_mode]. fold (Lfh.normalize (flags w) l'). rewrite Hm, Hme, Hflags.
  assert (Hen : bool_decide (is_Some crypto) && negb (contains (flags w) GlobalFlags.ENCRYPTED) = false).
  { destruct crypto; [|done]. destruct Hcr as (-> & _). done. }
  rewrite Hen.
  rewrite (decode_stages_sealed oc options key_provider h w Hflags (set_comp S) (set_level S)
    l' (in_payload e) stored bytes crypto Hof Hpl Hmax Henc Hcr). cbn [mbind result_bind].
  rewrite Hv. cbn [mbind result_bind]. rewrite (path_ok e l' Hp Ht Hck). cbn [mbind result_bind].
  eexists. split; [done|]. clear Hof Hp Hmode. destruct Hfor, Hck. unfold EntryDecode.entry_metadata.
  split; cbn [EntryDecode.header EntryDecode.payload EntryDecode.metadata EntryDecode.parts_payload
    EntryDecode.parts_metadata Metadata.name Metadata.uncompressed_size Metadata.path Metadata.stream_id
    Metadata.sequence_no Metadata.is_hidden Metadata.permissions Metadata.owner Metadata.timestamps
    Metadata.file_crc32 Metadata.meta_content_hash Metadata.symlink_target Metadata.is_fragment
    Metadata.sparse_extents Metadata.entry_kind Lfh.normalize Lfh.name
    Lfh.uncompressed_size Lfh.stream_id Lfh.sequence_no Lfh.entry_mode Lfh.permissions Lfh.uid_gid
    Lfh.timestamps Lfh.file_crc32 Lfh.content_hash]; try done; rewrite ?Hm; try done; try (by rewrite El);
    rewrite El; cbn [Lfh.permissions Lfh.uid_gid Lfh.timestamps Lfh.file_crc32 Lfh.content_hash].
  - rewrite checked_permissions0, for_permissions0. by destruct (in_permissions e).
  - rewrite checked_owner0, for_owner0. by destruct (in_uid_gid e).
  - rewrite checked_times0, for_times0. by destruct (in_timestamps e).
  - rewrite for_crc0. by destruct (contains (flags w) GlobalFlags.PER_FILE_CRC).
  - rewrite for_content0. by destruct (contains (flags w) GlobalFlags.DEDUPLICATION).
Qed.
End entry.

(** ** Flags, policy and the global header *)
Section opening.
Context {B : Bitflags} {L : BitflagsLaws B}.

(** Two flag words that differ at most in [SIZE_64BIT]. *)
Definition same_but_size (f f' : Z) : Prop :=
  fits 32 f' ∧ ∀ k, 1 ≤ k → Z.testbit f' k = Z.testbit f k.
Lemma same_but_size_contains f f' k :
  fits 32 f → same_but_size f f' → 1 ≤ k < 32 →
  contains f' (Z.shiftl 1 k) = contains f (Z.shiftl 1 k).
Proof. intros Hf [Hf' Hb] Hk. rewrite !contains_testbit by (done || lia). apply Hb. lia. Qed.
Lemma same_but_size_refl f : fits 32 f → same_but_size f f.
Proof. by split. Qed.
Lemma lor_one_size f : fits 32 f → same_but_size f (Z.lor f 1).
Proof.
  intros Hf. split; [by apply lor_fits|]. intros k Hk. rewrite Z.lor_spec.
  replace (Z.testbit 1 k) with false; [by rewrite orb_false_r|].
  symmetry. rewrite <- (Z.pow_0_r 2). apply Z.pow2_bits_false. lia.
Qed.
Lemma ldiff_one_size f : fits 32 f → same_but_size f (Z.ldiff f 1).
Proof.
  intros Hf. split.
  - assert (Hm : Z.ldiff f 1 mod 2 ^ 32 = Z.ldiff f 1).
    { rewrite <- Z.land_ones by lia. transitivity (Z.ldiff (Z.land f (Z.ones 32)) 1).
      - apply Z.bits_inj'. intros k _. rewrite Z.land_spec, !Z.ldiff_spec, Z.land_spec.
        by destruct (Z.testbit f k), (Z.testbit 1 k), (Z.testbit (Z.ones 32) k).
      - rewrite Z.land_ones by lia. by rewrite Z.mod_small. }
    unfold fits. rewrite <- Hm. apply Z.mod_pos_bound. lia.
  - intros k Hk. rewrite Z.ldiff_spec.
    replace (Z.testbit 1 k) with false; [by rewrite andb_true_r|].
    symmetry. rewrite <- (Z.pow_0_r 2). apply Z.pow2_bits_false. lia.
Qed.
Lemma lor_one_id f : Z.testbit f 0 = true → Z.lor f 1 = f.
Proof.
  intros H. apply Z.bits_inj'. intros k Hk. rewrite Z.lor_spec.
  destruct (decide (k = 0)) as [->|]; [by rewrite H|].
  replace (Z.testbit 1 k) with false; [by rewrite orb_false_r|].
  symmetry. rewrite <- (Z.pow_0_r 2). apply Z.pow2_bits_false. lia.
Qed.
Lemma ldiff_one_id f : Z.testbit f 0 = false → Z.ldiff f 1 = f.
Proof.
  intros H. apply Z.bits_inj'. intros k Hk. rewrite Z.ldiff_spec.
  destruct (decide (k = 0)) as [->|]; [by rewrite H|].
  replace (Z.testbit 1 k) with false; [by rewrite andb_true_r|].
  symmetry. rewrite <- (Z.pow_0_r 2). apply Z.pow2_bits_false. lia.
Qed.

(** The forced policies agree with the flags they were created with. *)
Definition policy_ok (w : ArchiveWriter) : Prop :=
  match lfh_size_field_policy w with
  | Auto => True
  | Force32 => contains (flags w) GlobalFlags.SIZE_64BIT = false
  | Force64 => contains (flags w) GlobalFlags.SIZE_64BIT = true
  end.
(** The size policy changes [SIZE_64BIT] at most, and nothing once the header is written. *)
Lemma apply_size_policy_Ok u p w w1 :
  fits 32 (flags w) → policy_ok w → apply_size_policy u p w = (w1, Ok ()) →
  ∃ f, w1 = set_flags w f ∧ same_but_size (flags w) f ∧ policy_ok w1
    ∧ (header_written w = true → f = flags w).
Proof.
  intros Hf Hp H. unfold apply_size_policy, mbind, writer_bind, self, modify, throw in H.
  assert (Hs : contains (flags w) GlobalFlags.SIZE_64BIT = Z.testbit (flags w) 0)
    by (apply contains_testbit; (done || lia)).
  cbv beta iota in H. assert (Hu : union (flags w) GlobalFlags.SIZE_64BIT = Z.lor (flags w) 1)
    by by apply union_lor.
  assert (Hx : difference (flags w) GlobalFlags.SIZE_64BIT = Z.ldiff (flags w) 1)
    by by apply difference_ldiff.
  assert (Hl : same_but_size (flags w) (Z.lor (flags w) 1)) by by apply lor_one_size.
  assert (Hd : same_but_size (flags w) (Z.ldiff (flags w) 1)) by by apply ldiff_one_size.
  unfold policy_ok in *. destruct (lfh_size_field_policy w) eqn:Ep.
  - destruct (_ || _) eqn:Ex.
    + destruct (header_written w && _) eqn:Eh; [done|]. injection H as <-; rewrite ?Hu, ?Hx.
      eexists. split; [done|]. cbn. rewrite Ep. split_and!; [done|done|]. intros Hw.
      rewrite Hw in Eh. apply negb_false_iff in Eh. rewrite Hs in Eh. by apply lor_one_id.
    + destruct (header_written w) eqn:Eh; injection H as <-; rewrite ?Hu, ?Hx.
      * exists (flags w). split; [by destruct w|]. rewrite Ep. split_and!; [by apply same_but_size_refl|done|done].
      * eexists. split; [done|]. cbn. rewrite Ep. by split_and!.
  - destruct (_ || _) eqn:Ex; [done|]. injection H as <-; rewrite ?Hu, ?Hx. eexists. split; [done|]. cbn. rewrite Ep.
    rewrite ldiff_one_id by (by rewrite <- Hs). split_and!; [by apply same_but_size_refl|done|done].
  - injection H as <-; rewrite ?Hu, ?Hx. eexists. split; [done|]. cbn. rewrite Ep.
    rewrite lor_one_id by (by rewrite <- Hs). split_and!; [by apply same_but_size_refl|done|done].
Qed.
(** The global header the writer emits. *)
Definition writer_header (w : ArchiveWriter) : Format.GlobalHeader := {|
  Format.version := 1; Format.flags_bytes := le_bytes 4 (flags w); Format.flags := flags w;
  Format.partition_descriptor := None; Format.kms := header_kms w |}.
Lemma writer_header_word w : Format.with_flag_word (writer_header w) = writer_header w.
Proof. unfold Format.with_flag_word, writer_header. cbn -[le_bytes copy_at]. by f_equal. Qed.

(** The key-management block of the header, and the flags that announce no other. *)
Record header_ok (w : ArchiveWriter) : Prop := {
  flags_fit : fits 32 (flags w);
  flags_declared : from_bits_truncate GlobalFlags.all (flags w) = flags w;
  no_partition : contains (flags w) GlobalFlags.PARTITIONED_ARCHIVE = false;
  kms_present : contains (flags w) GlobalFlags.ENCRYPTED = bool_decide (is_Some (header_kms w));
  kms_mode : ∀ k, header_kms w = Some k → 1 ≤ Format.mode_id k ≤ 4 }.
Lemma write_global_header_kms h bs k :
  Format.write_global_header h = Ok bs → Format.kms h = Some k → len (Format.kms_payload k) < 2 ^ 32.
Proof.
  unfold Format.write_global_header, Format.write_kms. intros H Hk. rewrite Hk in H.
  apply bind_Ok in H as ([] & _ & H). do 5 apply guard_Ok in H as [_ H].
  apply bind_Ok in H as (fb & _ & H). apply bind_Ok in H as (n & _ & H).
  apply bind_Ok in H as (m & [_ Hm]%ok_or_Ok%try_from_Some & _). lia.
Qed.

(** Emitting the header: the first time it is appended, after that nothing happens. *)
Lemma emit_Ok w w' :
  header_ok w → archive_recovery w = None → header_written w = false →
  emit_global_header_if_needed w = (w', Ok ()) →
  validate_global_flags (flags w) = Ok ()
  ∧ (∀ k, header_kms w = Some k → len (Format.kms_payload k) < 2 ^ 32)
  ∧ w' = set_header_written (set_output (set_section w (Format.global_header_flags_bytes (writer_header w)))
           (output w ++ Format.enc_gh (writer_header w))
           (position w + len (Format.enc_gh (writer_header w)))) true.
Proof.
  intros Hh Hr Hw H. unfold emit_global_header_if_needed in H. winv H. rewrite Hw, Hr in H. winv H.
  fold (writer_header w) in Hx0. destruct x.
  assert (Hk : ∀ k, header_kms w = Some k → len (Format.kms_payload k) < 2 ^ 32)
    by (intros k Hk; by apply (write_global_header_kms (writer_header w) _ k Hx0)).
  rewrite (Format.write_global_header_enc unlimited), writer_header_word in Hx0.
  - apply Ok_inj in Hx0 as <-. winv H. inv_ok.
    unfold modify in H. injection H as <-. by split_and!.
  - done.
  - cbn -[le_bytes]. rewrite len_le_bytes. lia.
  - cbn -[contains]. by rewrite (no_partition _ Hh).
  - cbn -[contains]. rewrite (kms_present _ Hh). destruct (header_kms w) as [k|] eqn:E; [|done]. cbn.
    split; [done|]. specialize (Hk k eq_refl). split_and!; [by apply (kms_mode _ Hh)..|done|].
    unfold unlimited, USIZE_MAX, U64_MAX. cbn. lia.
Qed.
End opening.

(** ** The state of a writer between two entries *)
Section writing.
Context {B : Bitflags} {L : BitflagsLaws B}.
Context {Comp : Compression.Compressors} {Ciph : Crypto.Ciphers} {K : Kms.Kdfs}.
Context {CompL : Compression.CompressorLaws Comp} {CiphL : Crypto.CipherLaws Ciph}.
Context (random : nat → Z → list byte).
Context (random_fills : ∀ k n, 0 ≤ n → len (random k n) = n).
Context (key_provider : option Kms.KeyProvider).

Record writer_ok (w : ArchiveWriter) : Prop := {
  ok_settings : settings_ok w;
  ok_header : header_ok w;
  ok_policy : policy_ok w;
  ok_crypto : contains (flags w) GlobalFlags.ENCRYPTED = true →
              crypto_ok w key_provider (writer_header w);
  ok_no_metadata : contains (flags w) GlobalFlags.OPT_PRESENT = false ∧ cd_metadata w = [];
  ok_no_crc : contains (flags w) GlobalFlags.HAS_GLOBAL_CRC32 = false;
  ok_no_ec : contains (flags w) GlobalFlags.HAS_GLOBAL_EC = false;
  ok_no_signature : contains (flags w) GlobalFlags.SIGNED = false }.

(** The flags that an entry uses do not depend on the size policy. *)
Lemma declared_size f f' :
  fits 32 f → same_but_size f f' → from_bits_truncate GlobalFlags.all f = f →
  from_bits_truncate GlobalFlags.all f' = f'.
Proof.
  intros Hf [Hf' Hb] Hd. apply Z.bits_inj'. intros k Hk. rewrite truncate_testbit by done.
  destruct (decide (k = 0)) as [->|]; [by rewrite andb_true_r|].
  rewrite Hb by lia. rewrite <- Hd at 2. by rewrite truncate_testbit.
Qed.
Lemma writer_ok_size w f :
  writer_ok w → same_but_size (flags w) f → policy_ok (set_flags w f) → writer_ok (set_flags w f).
Proof.
  intros [[] [] _ Hcr Hm H1 H2 H3] Hs Hp.
  assert (Hc := λ k, same_but_size_contains (flags w) f k flags_fit0 Hs).
  pose proof (Hc 8 ltac:(lia) : contains f GlobalFlags.COMPRESSED = contains (flags w) GlobalFlags.COMPRESSED) as C8.
  pose proof (Hc 20 ltac:(lia) : contains f GlobalFlags.SELECTIVE_FEC = contains (flags w) GlobalFlags.SELECTIVE_FEC) as C20.
  pose proof (Hc 3 ltac:(lia) : contains f GlobalFlags.PARTITIONED_ARCHIVE = contains (flags w) GlobalFlags.PARTITIONED_ARCHIVE) as C3.
  pose proof (Hc 10 ltac:(lia) : contains f GlobalFlags.ENCRYPTED = contains (flags w) GlobalFlags.ENCRYPTED) as C10.
  pose proof (Hc 2 ltac:(lia) : contains f GlobalFlags.OPT_PRESENT = contains (flags w) GlobalFlags.OPT_PRESENT) as C2.
  pose proof (Hc 16 ltac:(lia) : contains f GlobalFlags.HAS_GLOBAL_CRC32 = contains (flags w) GlobalFlags.HAS_GLOBAL_CRC32) as C16.
  pose proof (Hc 19 ltac:(lia) : contains f GlobalFlags.HAS_GLOBAL_EC = contains (flags w) GlobalFlags.HAS_GLOBAL_EC) as C19.
  pose proof (Hc 18 ltac:(lia) : contains f GlobalFlags.SIGNED = contains (flags w) GlobalFlags.SIGNED) as C18.
  split; [split|split|..]; cbn -[contains]; rewrite ?C8, ?C20, ?C3, ?C10, ?C2, ?C16, ?C19, ?C18; try done.
  - apply Hs.
  - by eapply declared_size.
Qed.
Lemma input_checked_size f f' e :
  fits 32 f → same_but_size f f' → input_checked f e → input_checked f' e.
Proof.
  intros Hf Hs []. assert (Hc := λ k, same_but_size_contains f f' k Hf Hs).
  split; try done.
  - by rewrite (Hc 24 ltac:(lia) : contains f' GlobalFlags.HAS_PATH = contains f GlobalFlags.HAS_PATH).
  - by rewrite (Hc 25 ltac:(lia) : contains f' GlobalFlags.HAS_PERMS = contains f GlobalFlags.HAS_PERMS).
  - by rewrite (Hc 27 ltac:(lia) : contains f' GlobalFlags.EXT_UID_GID = contains f GlobalFlags.EXT_UID_GID).
  - by rewrite (Hc 28 ltac:(lia) : contains f' GlobalFlags.EXT_TIME = contains f GlobalFlags.EXT_TIME).
Qed.
(** Nor does anything depend on the parts that an entry changes. *)
Lemma writer_ok_same w w' : writer_ok w → same_config w w' → writer_ok w'.
Proof.
  intros [[] [] Hp Hcr Hm H1 H2 H3] S. pose proof S as [].
  split; [split|split|..]; unfold policy_ok in *; rewrite ?same_flags0, ?same_compression0,
    ?same_fec0, ?same_recovery0, ?same_kms0, ?same_policy0, ?same_cd_metadata0; try done.
  intros He. destruct (Hcr He) as (a & k & p & c & ?). exists a, k, p, c.
  rewrite same_encr0, same_cek0. unfold writer_header in *. by rewrite same_flags0, same_kms0.
Qed.
(** An entry on disk: its header, the header's bytes and the stored payload. *)
Record stored_entry := {
  se_lfh : Lfh.LocalFileHeader; se_bytes : list byte; se_stored : list byte }.
Definition chunk (s : stored_entry) : list byte := se_bytes s ++ se_stored s.
Fixpoint chunk_offsets (off : Z) (ss : list stored_entry) : list Z :=
  match ss with [] => [] | s :: ss => off :: chunk_offsets (off + len (chunk s)) ss end.
Lemma chunk_offsets_app off ss s :
  chunk_offsets off (ss ++ [s]) = chunk_offsets off ss ++ [off + len (concat (chunk <$> ss))].
Proof.
  revert off. induction ss as [|s' ss IH]; intros off.
  - cbn. by rewrite len_nil, Z.add_0_r.
  - cbn [chunk_offsets app]. rewrite IH. cbn [fmap list_fmap concat]. rewrite len_app.
    cbn [app]. do 3 f_equal. lia.
Qed.

(** The header names the entry and the length of what is stored for it. *)
Definition stored_for (w : ArchiveWriter) (e : EntryInput) (s : stored_entry) : Prop :=
  Lfh.lfh_typed (se_lfh s) ∧ Lfh.lfh_to_bytes (se_lfh s) (flags w) = Ok (se_bytes s)
  ∧ Lfh.payload_size (se_lfh s) = len (se_stored s)
  ∧ Lfh.name (se_lfh s) = in_name e ∧ Lfh.path (se_lfh s) = default [] (in_path e)
  ∧ (contains (flags w) GlobalFlags.SELECTIVE_FEC = false → Lfh.fec_value (se_lfh s) = []).
(** The entry can be decoded, under the header and the section of the archive. *)
Definition entry_ok (w : ArchiveWriter) (e : EntryInput) (s : stored_entry) : Prop :=
  stored_for w e s
  ∧ EntryMode.is_session_control (Lfh.entry_mode (se_lfh s)) = false
  ∧ EntryMode.op_code (Lfh.entry_mode (se_lfh s)) = 0
  ∧ Lfh.sparse_map (se_lfh s) = []
  ∧ ∀ oc options off,
      len (se_stored s) < 2 ^ 63 →
      len (Lfh.fec_value (se_lfh s)) ≤ max_fec_value_bytes (EntryDecode.limits options) →
      len (in_payload e) ≤ EntryDecode.max_decoded_entry_size options →
      ∃ parts, EntryDecode.decode_ordinary_archive_entry_from_parts oc options key_provider
                 (writer_header w) (Format.global_header_flags_bytes (writer_header w)) off
                 (Lfh.normalize (flags w) (se_lfh s)) (se_bytes s) (se_stored s) = Ok parts
        ∧ returns (flags w) e {| EntryDecode.header := Lfh.normalize (flags w) (se_lfh s);
                                 EntryDecode.payload := EntryDecode.parts_payload parts;
                                 EntryDecode.metadata := EntryDecode.parts_metadata parts |}.

(** The archive so far: the global header and the entries, one after the other. *)
Record layout (w : ArchiveWriter) (es : list EntryInput) (ss : list stored_entry) : Prop := {
  lay_written : header_written w = true;
  lay_output : output w = Format.enc_gh (writer_header w) ++ concat (chunk <$> ss);
  lay_position : position w = len (output w);
  lay_offsets : offsets w = chunk_offsets (len (Format.enc_gh (writer_header w))) ss;
  lay_section : global_flags_section w = Format.global_header_flags_bytes (writer_header w);
  lay_valid : validate_global_flags (flags w) = Ok ();
  lay_kms : ∀ k, header_kms w = Some k → len (Format.kms_payload k) < 2 ^ 32;
  lay_entries : Forall2 (entry_ok w) es ss }.
Record fresh (w : ArchiveWriter) : Prop := {
  fresh_written : header_written w = false;
  fresh_output : output w = []; fresh_position : position w = 0; fresh_offsets : offsets w = [] }.
Definition writing (w : ArchiveWriter) (es : list EntryInput) : Prop :=
  writer_ok w ∧ finished w = false ∧ (fresh w ∧ es = [] ∨ ∃ ss, layout w es ss).

(** The header is emitted, at the latest now. *)
Lemma emit_layout w es w' :
  writer_ok w → finished w = false → (fresh w ∧ es = [] ∨ ∃ ss, layout w es ss) →
  emit_global_header_if_needed w = (w', Ok ()) →
  (∃ ss, layout w' es ss) ∧ writer_ok w' ∧ finished w' = false ∧ flags w' = flags w
  ∧ compression w' = compression w.
Proof.
  intros Hok Hfin [[Hf ->]|[ss Hl]] H.
  - destruct Hf as [Hw Ho Hp Hof].
    apply emit_Ok in H as (Hv & Hk & ->); [|apply Hok|apply Hok|done].
    split_and!; [|destruct Hok as [[] [] ?????]; split; [by split|by split|done..]|done..].
    exists []. split; cbn -[Format.enc_gh contains]; try done.
    + by rewrite Ho, app_nil_r.
    + rewrite Ho, Hp. done.
  - unfold emit_global_header_if_needed, mbind, writer_bind, self in H.
    rewrite (lay_written _ _ _ Hl) in H. injection H as <-. split_and!; try done. by exists ss.
Qed.
(** The length of a stored payload is known before it is encrypted. *)
Lemma stored_length w payload encoded stored crypto n :
  Transform.encode_payload_v2 payload (encoding_plan w None) = Ok encoded →
  Transform.encode_payload_v2 payload (encoding_plan w crypto) = Ok stored →
  (∀ c, crypto = Some c → len (Transform.iv_nonce c) = 24) →
  contains (flags w) GlobalFlags.ENCRYPTED = bool_decide (is_Some crypto) →
  stored_len w encoded = Ok n → n = len stored ∧ fits 64 n.
Proof.
  intros H1 H2 Hn He H. unfold stored_len in H. rewrite He in H.
  apply bind_Ok in H as (m & [-> Hm]%ok_or_Ok%try_from_Some & H).
  unfold Transform.encode_payload_v2 in *. cbn [encoding_plan Transform.encoding Transform.e_crypto] in *.
  apply bind_Ok in H1 as (a & Ha & [= ->]). rewrite Ha in H2. cbn [mbind result_bind] in H2.
  destruct crypto as [c|].
  - cbn in H. apply ok_or_Ok, checked_add_Some in H as [-> Hb]. apply map_err_Ok in H2.
    apply Crypto.aead_roundtrip in H2 as [_ ->]; [|by apply Hn]. pose proof (len_nonneg encoded).
    unfold fits. lia.
  - cbn in H. injection H as <-. injection H2 as <-. pose proof (len_nonneg encoded). unfold fits. lia.
Qed.
Lemma encoding_plan_same w w' c : compression w' = compression w → encoding_plan w' c = encoding_plan w c.
Proof. unfold encoding_plan. by intros ->. Qed.

(** Sealing an entry in a state with a layout, both branches. *)
Lemma seal_Ok w l wire encoded msg w' r :
  writer_ok w → Lfh.lfh_typed l → Lfh.fec_value l = [] → Lfh.fec_algo_id l = None →
  Transform.encode_payload_v2 wire (encoding_plan w None) = Ok encoded →
  seal_entry random l wire encoded msg w = (w', Ok r) →
  ∃ l' value crypto bytes stored w1, silent w w1 ∧ write_entry bytes stored w1 = (w', Ok r)
    ∧ sealed w l l' value crypto ∧ value_ok w value stored
    ∧ Lfh.lfh_to_bytes l' (flags w) = Ok bytes ∧ Lfh.lfh_typed l'
    ∧ Transform.encode_payload_v2 wire (encoding_plan w crypto) = Ok stored
    ∧ readable_crypto key_provider (writer_header w) w l' bytes crypto
    ∧ (∀ c, crypto = Some c → len (Transform.iv_nonce c) = 24)
    ∧ contains (flags w) GlobalFlags.ENCRYPTED = bool_decide (is_Some crypto).
Proof.
  intros Hok Ht Hfv Hfa Henc H. pose proof (ok_settings _ Hok) as S.
  destruct (contains (flags w) GlobalFlags.ENCRYPTED) eqn:He.
  - destruct (seal_encrypted random random_fills key_provider (writer_header w) w eq_refl
      (set_fec_flag _ S) l wire encoded msg w' r Ht Hfv Hfa He (ok_crypto _ Hok He)
      ltac:(intros f Hf; by apply (set_fec_typed _ S)) H)
      as (l' & v & c & bs & st & w1 & Hs & Hw & Hse & Hv & Hb & He2 & Hr & Ha).
    pose proof Hr as (_ & Hn & _). assert (Htl : Lfh.lfh_typed l').
    { unfold sealed in Hse. destruct (fec w) as [f|] eqn:Ef.
      - rewrite Hse. apply typed_set_fec; [by apply typed_set_crypto|by apply (set_fec_typed _ S)].
      - destruct Hse as [-> _]. by apply typed_set_crypto. }
    exists l', v, (Some c), bs, st, w1. repeat (split; [done || by intros c' [= <-]|]). done.
  - destruct (seal_plain random w (set_fec_flag _ S) l wire encoded msg w' r He Henc H) as (l' & v & bs & Hw & Hse & Hv & Hb).
    assert (Htl : Lfh.lfh_typed l').
    { unfold sealed in Hse. destruct (fec w) as [f|] eqn:Ef.
      - rewrite Hse. apply typed_set_fec; [done|by apply (set_fec_typed _ S)].
      - by destruct Hse as [-> _]. }
    exists l', v, None, bs, encoded, w.
    repeat (split; [done || by apply silent_refl|]). done.
Qed.
(** What an added entry must satisfy besides its types: a directory is neither compressed
    nor encrypted (its stored payload would not be empty). *)
Definition addable (w : ArchiveWriter) (e : EntryInput) : Prop :=
  input_typed e ∧ len (in_payload e) < 2 ^ 63
  ∧ (in_kind e = Some Metadata.Directory →
     comp_algo (compression w) = Compression.COMP_ALGO_STORE
     ∧ contains (flags w) GlobalFlags.ENCRYPTED = false).

Lemma entry_ok_same w w' e s :
  flags w' = flags w → header_kms w' = header_kms w → entry_ok w e s → entry_ok w' e s.
Proof. unfold entry_ok, stored_for, writer_header. by intros -> ->. Qed.

(** A sealed entry can be decoded. *)
Lemma seal_entry_ok w e l l' v crypto bs st :
  writer_ok w → addable w e → input_checked (flags w) e →
  global_flags_section w = Format.global_header_flags_bytes (writer_header w) →
  header_for (flags w) e (negb (comp_algo (compression w) =? Compression.COMP_ALGO_STORE)) (len st) l →
  (contains (flags w) GlobalFlags.COMPRESSED = true →
   Lfh.comp_algo_id l = Some (comp_algo (compression w))) →
  default 0 (Lfh.cdc_algo_id l) = 0 →
  sealed w l l' v crypto → value_ok w v st → Lfh.lfh_typed l' →
  Lfh.lfh_to_bytes l' (flags w) = Ok bs →
  Transform.encode_payload_v2 (in_payload e) (encoding_plan w crypto) = Ok st →
  readable_crypto key_provider (writer_header w) w l' bs crypto →
  entry_ok w e {| se_lfh := l'; se_bytes := bs; se_stored := st |}.
Proof.
  intros Hok (Ht & Hlen & Hdir) Hck Hsec Hfor Hco Hcdc Hse Hv Htl Hb He2 Hr.
  pose proof (ok_settings _ Hok) as S.
  destruct (sealed_fields w _ _ _ _ Hse (for_nonce _ _ _ _ _ Hfor)) as (Hmode & Hfv & m & ea & no & fa & fv & El).
  set (c := negb (comp_algo (compression w) =? Compression.COMP_ALGO_STORE)) in *.
  destruct (mode_of_facts e c (bool_decide (is_Some crypto))) as (_ & _ & _ & Hsc & Hop & _).
  assert (Hm : Lfh.entry_mode l' = mode_of e c (bool_decide (is_Some crypto))).
  { rewrite Hmode, (for_mode _ _ _ _ _ Hfor). unfold mode_of. by destruct (bool_decide _). }
  unfold entry_ok. cbn [se_lfh se_bytes se_stored]. rewrite Hm.
  split.
  { split; [done|]. split; [done|]. cbn [se_lfh se_stored]. split_and!; [rewrite El; apply Hfor..|].
    rewrite (set_fec_flag _ S). unfold sealed in Hse. pose proof (for_value _ _ _ _ _ Hfor).
    destruct (fec w); [by rewrite bool_decide_true|]. destruct Hse as [-> _]. by destruct crypto. }
  split; [done|]. split; [done|].
  split; [rewrite El; apply Hfor|]. intros oc options off Hst Hmv Hmax. rewrite <- Hsec.
  eapply (entry_decodes oc options key_provider (writer_header w) w eq_refl e l l' v crypto bs st off);
    try done.
  - unfold sealed in Hse. destruct (fec w) as [f|] eqn:Ef.
    + destruct (Hfv f eq_refl) as [_ Hval]. by rewrite Hval in Hmv.
    + destruct Hse as [E1 ->]. rewrite E1 in Hmv. by destruct crypto.
  - intros Hk. destruct (Hdir Hk) as [Hc Hen]. destruct crypto as [cr|]; [by destruct Hr as [Hr _]; rewrite Hr in Hen|].
    rewrite (stored_plain w (in_payload e) st); [|by rewrite Hc|done].
    by rewrite (checked_directory _ _ Hck Hk).
Qed.

(** A sealed entry extends the layout. *)
Lemma seal_layout w es ss e l encoded n msg w' r :
  writer_ok w → layout w es ss → finished w = false → addable w e → input_checked (flags w) e →
  header_for (flags w) e (negb (comp_algo (compression w) =? Compression.COMP_ALGO_STORE)) n l →
  (contains (flags w) GlobalFlags.COMPRESSED = true →
   Lfh.comp_algo_id l = Some (comp_algo (compression w))) →
  default 0 (Lfh.cdc_algo_id l) = 0 → Lfh.lfh_typed l →
  Transform.encode_payload_v2 (in_payload e) (encoding_plan w None) = Ok encoded →
  stored_len w encoded = Ok n →
  seal_entry random l (in_payload e) encoded msg w = (w', Ok r) →
  same_config w w' ∧ writer_ok w' ∧ finished w' = false ∧ ∃ s, layout w' (es ++ [e]) (ss ++ [s]).
Proof.
  intros Hok Hl Hfin (Ht & Hlen & Hdir) Hck Hfor Hco Hcdc Htl Henc Hn H.
  pose proof (ok_settings _ Hok) as S.
  apply seal_Ok in H as (l' & v & crypto & bs & st & w1 & Hs & Hw & Hse & Hv & Hb & Htl' & He2 & Hr & Hnc & He);
    [|done|done|apply Hfor|apply Hfor|done].
  destruct (stored_length w _ encoded st crypto n Henc He2 Hnc He Hn) as [-> Hn64].
  destruct Hs as [Hcfg Hout Hpos Hoff].
  apply written_entry in Hw as (Hcfg' & Hout' & Hpos' & Hoff');
    [|rewrite (same_recovery _ _ Hcfg); apply S].
  pose proof (same_config_trans _ _ _ Hcfg Hcfg') as C.
  assert (Hh : writer_header w' = writer_header w).
  { unfold writer_header. by rewrite (same_flags _ _ C), (same_kms _ _ C). }
  split; [done|]. split_and!; [by eapply writer_ok_same|by rewrite (same_finished _ _ C)|].
  exists {| se_lfh := l'; se_bytes := bs; se_stored := st |}. destruct Hl.
  split; rewrite ?Hh, ?(same_flags _ _ C), ?(same_kms _ _ C), ?(same_section _ _ C), ?(same_header _ _ C); try done.
  - rewrite Hout', Hout, lay_output0, fmap_app, concat_app. cbn. by rewrite app_nil_r, <- app_assoc.
  - rewrite Hpos', Hout', Hpos, lay_position0, Hout, !len_app. lia.
  - rewrite Hoff', Hoff, lay_offsets0, chunk_offsets_app, Hpos, lay_position0, lay_output0, len_app. done.
  - apply Forall2_app.
    + eapply Forall2_impl; [exact lay_entries0|]. intros e' s'.
      apply entry_ok_same; [apply (same_flags _ _ C)|apply (same_kms _ _ C)].
    + constructor; [|constructor].
      apply (entry_ok_same w); [apply (same_flags _ _ C)|apply (same_kms _ _ C)|].
      by eapply (seal_entry_ok w e l l' v crypto bs st).
Qed.
Lemma refuse_finished_Ok w w' : refuse_finished w = (w', Ok ()) → w' = w ∧ finished w = false.
Proof.
  unfold refuse_finished, mbind, writer_bind, self, when_, modify, throw.
  destruct (finished w) eqn:E; [done|]. by intros [= <-].
Qed.
(** The entries are added to a writer whose output is laid out. *)
Lemma policy_layout w es f :
  (fresh w ∧ es = [] ∨ ∃ ss, layout w es ss) → (header_written w = true → f = flags w) →
  fresh (set_flags w f) ∧ es = [] ∨ ∃ ss, layout (set_flags w f) es ss.
Proof.
  intros [[[] ->]|[ss Hl]] Hf; [by left|]. right. exists ss.
  rewrite (Hf (lay_written _ _ _ Hl)). by destruct w.
Qed.
Lemma stored_len_fits w encoded n : stored_len w encoded = Ok n → fits 64 n.
Proof.
  unfold stored_len. pose proof (len_nonneg encoded). intros H1. unfold fits.
  apply bind_Ok in H1 as (m & [-> Hm]%ok_or_Ok%try_from_Some & H1).
  destruct (contains _ _); inv_ok; lia.
Qed.

(** Adding an entry. *)
Lemma add_entry_Ok w es e w' r :
  writing w es → addable w e → add_entry random e w = (w', Ok r) →
  writing w' (es ++ [e]) ∧ same_but_size (flags w) (flags w') ∧ compression w' = compression w.
Proof.
  intros (Hok & Hfin & Hlay) Hadd H. unfold add_entry in H.
  apply writer_bind_Ok in H as (u & w0 & Hrf & H). destruct u. apply refuse_finished_Ok in Hrf as [-> _].
  winv H. rename Hx into Hval, Hx0 into Hul, Hx1 into Hwire, Hx2 into Henc, Hx3 into Hpl.
  apply writer_bind_Ok in H as (u & w1 & Hpol & H). destruct u.
  apply writer_bind_Ok in H as (u & w2 & Hem & H). destruct u. winv H. rename Hx into Happ.
  destruct x. apply validate_input_Ok in Hval. apply ok_or_Ok, try_from_Some in Hul as [-> Hul].
  pose proof (ok_header _ Hok) as Hhd.
  apply apply_size_policy_Ok in Hpol as (f & -> & Hsz & Hp1 & Hkeep); [|apply Hhd|apply Hok].
  pose proof (writer_ok_size w f Hok Hsz Hp1) as Hok1.
  apply (emit_layout _ es) in Hem as ([ss Hl] & Hok2 & Hfin2 & Hf2 & Hc2);
    [|done|done|by apply policy_layout]. cbn [flags compression set_flags] in Hf2, Hc2.
  assert (He : contains (flags w2) GlobalFlags.ENCRYPTED = contains (flags w) GlobalFlags.ENCRYPTED).
  { rewrite Hf2. apply (same_but_size_contains (flags w) f 10); [apply Hhd|done|lia]. }
  pose proof Hadd as (Ht & Hlen & Hdir).
  assert (Hadd2 : addable w2 e) by (unfold addable; by rewrite Hc2, He).
  assert (Hck2 : input_checked (flags w2) e).
  { rewrite Hf2. eapply input_checked_size; [apply Hhd|done|done]. }
  unfold wire_payload in Hwire. rewrite (no_delta _ Ht) in Hwire. apply Ok_inj in Hwire as <-.
  rewrite <- (encoding_plan_same w w2 None Hc2) in Henc.
  assert (Hpl2 : stored_len w2 x2 = Ok x3) by (unfold stored_len in *; by rewrite He).
  destruct (apply_input_Ok w2 e x3 x4 _ Hck2 (no_delta _ Ht) Happ eq_refl) as (Hfor & Hco & Hco' & Hcdc).
  pose proof (len_nonneg (in_payload e)).
  assert (Htl : Lfh.lfh_typed (settings_to_lfh w2 x4 (Lfh.sparse_map x4))).
  { eapply header_typed; [done|exact Hfor|by split|by eapply stored_len_fits| |done].
    destruct (contains (flags w2) GlobalFlags.COMPRESSED); [rewrite Hco by done|by rewrite Hco'].
    apply (ok_settings _ Hok2). }
  destruct (seal_layout w2 es ss e _ x2 x3 _ w' r Hok2 Hl Hfin2 Hadd2 Hck2 Hfor Hco Hcdc Htl Henc Hpl2 H)
    as (C & Hok' & Hfin' & s & Hl').
  split_and!; [|rewrite (same_flags _ _ C), Hf2; by apply Hsz..|].
  - split_and!; [done|done|]. right. by exists (ss ++ [s]).
  - by rewrite (same_compression _ _ C), Hc2.
Qed.
End writing.

End ArchiveRoundTrip.
