(* ===== verification/WriteRead.v ===== *)
(** * The archive round trip

    The end of the writer ([finish]) and its start (the constructors), and the seekable
    reader on what was written: it opens the archive, finds the index, and returns the
    entries that were added, in order; [verify] accepts it. *)

From S2P Require Import Prelude Errors Reads Limits Flags Cursor Format Lfh FecTypes FecRegistry Tlv CentralDir Patch Utf8 Crypto Kms Transform Metadata EntryDecode ArchiveReader ArchiveWriter ArchiveRoundTrip.

Module WriteRead.
Import Limits FecTypes Cursor ArchiveWriter ArchiveRoundTrip.

(** ** Adding a list of entries and finishing *)
Section closing.
Context {B : Bitflags} {L : BitflagsLaws B}.
Context {Comp : Compression.Compressors} {Ciph : Crypto.Ciphers} {K : Kms.Kdfs}.
Context {CompL : Compression.CompressorLaws Comp} {CiphL : Crypto.CipherLaws Ciph}.
Context (random : nat → Z → list byte).
Context (random_fills : ∀ k n, 0 ≤ n → len (random k n) = n).
Context (key_provider : option Kms.KeyProvider).
#[local] Abbreviation writing := (writing key_provider).
#[local] Abbreviation layout := (layout key_provider).
#[local] Abbreviation writer_ok := (writer_ok key_provider).

(** The calls of [add_entry] for a list of entries, one after the other. *)
Fixpoint add_entries (es : list EntryInput) : M unit :=
  match es with
  | [] => mret ()
  | e :: es => _ ← add_entry random e; add_entries es
  end.
Lemma add_entries_Ok es w es0 w' :
  writing w es0 → Forall (addable w) es → add_entries es w = (w', Ok ()) →
  writing w' (es0 ++ es) ∧ same_but_size (flags w) (flags w').
Proof.
  revert w es0. induction es as [|e es IH]; intros w es0 Hw Ha H; cbn [add_entries] in H.
  - injection H as <-. rewrite app_nil_r. split; [done|]. apply same_but_size_refl. apply Hw.
  - apply writer_bind_Ok in H as (r & w1 & H1 & H). apply Forall_cons in Ha as [Ha Has].
    apply (add_entry_Ok random random_fills key_provider w es0) in H1 as (Hw1 & Hs & Hc); [|done..].
    pose proof (flags_fit _ (ok_header _ _ (proj1 Hw))) as Hfit.
    apply (IH w1 (es0 ++ [e])) in H as [H Hs']; [|done|].
    + rewrite <- app_assoc in H. split; [done|]. destruct Hs as [Ha1 Ha2], Hs' as [Hb1 Hb2]. split; [done|].
      intros k Hk. by rewrite Hb2, Ha2.
    + eapply Forall_impl; [exact Has|]. intros x (H2 & H3 & H4). split_and!; [done|done|].
      rewrite Hc. rewrite (same_but_size_contains (flags w) _ 10 Hfit Hs); [done|lia].
Qed.

(** The central dictionary that is written. *)
Definition index_of (w : ArchiveWriter) : CentralDir.CentralDictionary := {|
  CentralDir.cd_version := CentralDir.SUPPORTED_CD_VERSION;
  CentralDir.file_count := len (offsets w); CentralDir.partition_info := None;
  CentralDir.global_crc32 := None; CentralDir.metadata := []; CentralDir.offsets := offsets w |}.
(** What follows the entries. *)
Definition trailer (w : ArchiveWriter) (pad : Z) : list byte :=
  CentralDir.enc_cd (flags w) (CentralDir.normalize (flags w) (index_of w))
  ++ zeros pad ++ Format.write_footer {| Format.cd_offset := position w |}.

Lemma padding_Ok pad w w' :
  0 ≤ pad →
  when_ (pad >? 0)
    (pad_len ← lift (ok_or (try_from 64 pad) (SarError.Overflow "pad len"));
     _ ← write_all (zeros pad_len); advance pad "archive position after padding") w = (w', Ok ()) →
  w' = set_output w (output w ++ zeros pad) (position w + pad).
Proof.
  intros Hp H. unfold when_ in H. destruct (Z.gtb_spec pad 0) as [Hgt|Hle].
  - winv H. apply ok_or_Ok, try_from_Some in Hx as [-> _]. by apply advance_Ok in H as ->.
  - injection H as <-. replace pad with 0 by lia. change (zeros 0) with (@nil byte).
    rewrite app_nil_r, Z.add_0_r. by destruct w.
Qed.
Lemma chunk_offsets_bounds off ss :
  0 ≤ off → Forall (λ o, 0 ≤ o ≤ off + len (concat (chunk <$> ss))) (chunk_offsets off ss).
Proof.
  revert off. induction ss as [|s ss IH]; intros off H0; cbn -[len]; [constructor|].
  pose proof (len_nonneg (chunk s)). pose proof (len_nonneg (concat (chunk <$> ss))).
  rewrite len_app. constructor; [lia|].
  eapply Forall_impl; [apply IH; lia|]. cbn beta. lia.
Qed.
Lemma layout_offsets w es ss :
  layout w es ss → len (output w) < 2 ^ 64 → Forall (fits 64) (offsets w) ∧ len (offsets w) = len es.
Proof.
  intros Hl Hb. split.
  - rewrite (lay_offsets _ _ _ _ Hl). rewrite (lay_output _ _ _ _ Hl), len_app in Hb.
    eapply Forall_impl; [apply chunk_offsets_bounds, len_nonneg|]. unfold fits. cbn beta. lia.
  - rewrite (lay_offsets _ _ _ _ Hl). pose proof (Forall2_length _ _ _ (lay_entries _ _ _ _ Hl)) as He.
    unfold len. rewrite He. f_equal. generalize (Z.of_nat (length (Format.enc_gh (writer_header w)))).
    clear. induction ss; intros; cbn; [done|]. by rewrite IHss.
Qed.

Lemma write_index_Ok w es ss w' :
  layout w es ss → writer_ok w → write_index w = (w', Ok ()) → len (output w') < 2 ^ 64 →
  same_config w w' ∧ offsets w' = offsets w ∧ CentralDir.writable (flags w) (index_of w)
  ∧ ∃ pad, 0 ≤ pad < 8 ∧ output w' = output w ++ trailer w pad ∧ position w' = len (output w').
Proof.
  intros Hl Hok H Hlen. unfold write_index in H.
  pose proof (set_no_recovery _ (ok_settings _ _ Hok)) as Hrec.
  destruct (ok_no_metadata _ _ Hok) as [_ Hmd].
  apply writer_bind_Ok in H as ([] & w1 & Hfin & H).
  unfold finalize_archive_recovery_metadata in Hfin.
  winv Hfin. rewrite Hrec in Hfin. injection Hfin as <-.
  winv H. apply ok_or_Ok, try_from_Some in Hx as [-> Hfc]. rewrite Hmd in Hx0. fold (index_of w) in Hx0.
  apply ok_or_Ok, try_from_Some in Hx1 as [-> _].
  winv H. rename x0 into cd. set (w1 := set_output _ _ _) in H.
  set (pad := (8 - position w1 mod 8) mod 8) in H.
  assert (Hpad : 0 ≤ pad < 8) by (apply Z.mod_pos_bound; lia).
  apply writer_bind_Ok in H as ([] & w2 & Hp & H). apply padding_Ok in Hp as ->; [|lia].
  winv H. apply advance_Ok in H as ->. subst w1. cbn [output set_output set_recovery] in Hlen.
  pose proof (len_nonneg cd). pose proof (len_nonneg (zeros pad)).
  destruct (layout_offsets w es ss Hl) as [Hoff _].
  { rewrite !len_app in Hlen. pose proof (len_nonneg (Format.write_footer {| Format.cd_offset := position w |})). lia. }
  apply CentralDir.write_central_dictionary_Ok in Hx0 as [Hwr ->];
    [|split; [apply len_nonneg|exact Hfc]|exact Hoff].
  split; [split; cbn; rewrite ?Hrec; done|]. split; [done|]. split; [done|]. exists pad.
  split; [done|]. cbn [output position set_output set_recovery]. unfold trailer.
  rewrite (lay_position _ _ _ _ Hl), <- !app_assoc. split; [done|].
  rewrite !len_app, len_zeros by lia. unfold Format.write_footer. rewrite len_le_bytes. cbn. lia.
Qed.

(** The finished archive. *)
Lemma finish_Ok w es w' s :
  writing w es → finish w = (w', Ok s) → len (output w') < 2 ^ 64 →
  ∃ w1 ss, layout w1 es ss ∧ writer_ok w1 ∧ flags w1 = flags w ∧ flags w' = flags w
    ∧ header_kms w' = header_kms w1 ∧ entry_count s = len es ∧ archive_size s = len (output w')
    ∧ if contains (flags w) GlobalFlags.NO_INDEX
      then output w' = output w1 ∧ indexed s = false
      else ∃ pad, 0 ≤ pad < 8 ∧ output w' = output w1 ++ trailer w1 pad ∧ indexed s = true
                  ∧ CentralDir.writable (flags w1) (index_of w1).
Proof.
  intros (Hok & Hfin & Hlay) H Hlen. unfold finish in H.
  apply writer_bind_Ok in H as ([] & w0 & Hrf & H). apply refuse_finished_Ok in Hrf as [-> _].
  apply writer_bind_Ok in H as ([] & w1 & Hem & H).
  apply (emit_layout key_provider _ es) in Hem as ([ss Hl] & Hok1 & Hfin1 & Hf1 & _); [|done..].
  winv H. set (w2 := set_stream_state w1 _) in H. change (flags w2) with (flags w1) in H.
  assert (Hl2 : layout w2 es ss) by (destruct Hl; by constructor).
  assert (Hok2 : writer_ok w2) by (eapply writer_ok_same; [exact Hok1|by constructor]).
  exists w2, ss. split; [done|]. split; [done|]. split; [done|]. rewrite <- Hf1.
  apply writer_bind_Ok in H as ([] & w3 & Hix & H). winv H.
  apply ok_or_Ok, try_from_Some in Hx as [-> _]. cbn [output flags position offsets set_stream_state set_finished] in *.
  destruct (contains (flags w1) GlobalFlags.NO_INDEX); cbn [negb when_] in Hix.
  - injection Hix as <-. destruct (layout_offsets w2 es ss Hl2 Hlen) as [_ Hn].
    cbn [entry_count archive_size indexed]. split_and!; [done..|apply (lay_position _ _ _ _ Hl2)|done|done].
  - apply (write_index_Ok w2 es ss) in Hix as (C & Ho & Hwr & pad & Hpad & Hout & Hpos); [|done..].
    destruct (layout_offsets w2 es ss Hl2) as [_ Hn].
    { rewrite Hout, len_app in Hlen. pose proof (len_nonneg (trailer w2 pad)). lia. }
    rewrite Ho, Hn. split_and!; [apply (same_flags _ _ C)|apply (same_kms _ _ C)|done..|]. by exists pad.
Qed.
End closing.

(** ** The constructors *)
Section construction.
Context {B : Bitflags} {L : BitflagsLaws B}.
Context {Comp : Compression.Compressors} {Ciph : Crypto.Ciphers} {K : Kms.Kdfs}.

(** A flag word from conditions and bit numbers. *)
Definition flags_of (l : list (bool * Z)) : Z :=
  foldl (λ f '(c, k), flag_if c (Z.shiftl 1 k) f) 0 l.
Definition declared_bits (l : list (bool * Z)) : Prop :=
  Forall (λ '(_, k), 0 ≤ k < 32 ∧ Z.testbit GlobalFlags.all k = true) l.
Definition bit_set (l : list (bool * Z)) (j : Z) : bool := existsb (λ '(c, k), c && (j =? k)) l.
Lemma fits_bit k : 0 ≤ k < 32 → fits 32 (Z.shiftl 1 k).
Proof.
  intros Hk. rewrite Z.shiftl_1_l. split; [apply Z.pow_nonneg; lia|apply Z.pow_lt_mono_r; lia].
Qed.
Lemma flags_of_spec l :
  declared_bits l →
  fits 32 (flags_of l) ∧ ∀ j, 0 ≤ j → Z.testbit (flags_of l) j = bit_set l j.
Proof.
  induction l as [|[c k] l IH] using rev_ind; intros Hl.
  { split; [done|]. intros j _. apply Z.testbit_0_l. }
  apply Forall_app in Hl as [Hl [[Hk _] _]%Forall_cons]. destruct (IH Hl) as [Hf Hb].
  unfold flags_of, bit_set. rewrite foldl_app. cbn [foldl]. fold (flags_of l). unfold flag_if.
  destruct c.
  - rewrite union_lor by (done || by apply fits_bit). split; [apply lor_fits; [done..|by apply fits_bit]|].
    intros j Hj. rewrite existsb_app. fold (bit_set l j). cbn [existsb]. rewrite Z.lor_spec, Hb by done.
    f_equal. rewrite Z.shiftl_1_l, Z.pow2_bits_eqb by lia. cbn. by rewrite orb_false_r, Z.eqb_sym.
  - split; [done|]. intros j Hj. rewrite existsb_app. fold (bit_set l j). cbn [existsb].
    by rewrite Hb, orb_false_r.
Qed.
Lemma flags_of_contains l k :
  declared_bits l → 0 ≤ k < 32 → contains (flags_of l) (Z.shiftl 1 k) = bit_set l k.
Proof.
  intros Hl Hk. destruct (flags_of_spec l Hl) as [Hf Hb].
  rewrite contains_testbit by done. apply Hb. lia.
Qed.
Lemma flags_of_declared l :
  declared_bits l → from_bits_truncate GlobalFlags.all (flags_of l) = flags_of l.
Proof.
  intros Hl. destruct (flags_of_spec l Hl) as [Hf Hb]. apply Z.bits_inj. intros j.
  rewrite truncate_testbit by done. destruct (Z.ltb_spec j 0); [by rewrite Z.testbit_neg_r|].
  rewrite Hb by done. destruct (bit_set l j) eqn:E; [|done]. cbn.
  apply existsb_exists in E as ([c k] & Hin & [_ ->%Z.eqb_eq]%andb_prop).
  apply list_elem_of_In in Hin. eapply Forall_forall in Hl; [|exact Hin]. apply Hl.
Qed.

(** The flags of the options, bit by bit. *)
Definition option_bits (o : ArchiveWriterOptions) (c : CompressionSettings) : list (bool * Z) :=
  [(no_index o, 1); (negb (comp_algo c =? Compression.COMP_ALGO_STORE), 8);
   (bool_decide (is_Some (opt_fec o)), 20); (sparse o, 30); (with_path o, 24);
   (with_permissions o, 25); (with_uid_gid o, 27); (with_timestamps o, 28);
   (with_per_file_crc o, 17); (with_content_hash o, 29); (with_symlinks o, 26);
   (with_delta o, 9); (bool_decide (opt_size_policy o = Force64), 0);
   (bool_decide (is_Some (encryption o)), 10)].
Lemma option_bits_declared o c : declared_bits (option_bits o c).
Proof. repeat (constructor; [split; [lia|by vm_compute]|]). constructor. Qed.
Lemma option_flags_bits o c :
  opt_archive_recovery o = None →
  flag_if (bool_decide (is_Some (encryption o))) GlobalFlags.ENCRYPTED (option_flags o c [])
  = flags_of (option_bits o c).
Proof. intros Hr. unfold option_flags. rewrite Hr. reflexivity. Qed.

(** The options are values of their Rust types; the parameters of the key management are
    ones its parsers accept. *)
Definition params_ok (p : Kms.KmsParams) : Prop :=
  match p with
  | Kms.TlsExporter q => Kms.tls_wf q
  | _ => Kms.payload_wf (EntryDecode.kms_mode_id p) p
  end.
Record options_typed (o : ArchiveWriterOptions) (c : CompressionSettings) : Prop := {
  typed_comp : fits 8 (comp_algo c);
  typed_level : ∀ v, level c = Some v → 0 ≤ v;
  typed_fec : ∀ f, opt_fec o = Some f → fits 8 (fec_algo f) ∧ fec_typed f;
  typed_encr : ∀ e, encryption o = Some e → fits 8 (encr_algo e) ∧ params_ok (kms_params e) }.

(** The header names the context the key was resolved in. *)
Lemma written_kms_context h p :
  params_ok p →
  Format.kms h = Some {| Format.mode_id := EntryDecode.kms_mode_id p;
                         Format.kms_payload := Kms.serialize_kms_payload p |} →
  EntryDecode.build_kms_context h
  = Ok {| Kms.mode_id := EntryDecode.kms_mode_id p; Kms.params := p |}.
Proof.
  intros Hp Hk. unfold EntryDecode.build_kms_context. rewrite Hk. cbn [ok_or mbind result_bind Format.mode_id Format.kms_payload].
  assert (Hs : ∀ q, p = q → params_ok q → EntryDecode.kms_mode_id q ≠ Crypto.KMS_TLS_EXPORTER →
    Kms.parse_kms_payload (EntryDecode.kms_mode_id p) (Kms.serialize_kms_payload p) = Ok p).
  { intros q -> Hq Hn. apply Kms.parse_kms_payload_spec. split; [by destruct q|done]. }
  destruct p as [q|q|q|q]; cbn [EntryDecode.kms_mode_id Crypto.KMS_TLS_EXPORTER Crypto.KMS_PBKDF2 Crypto.KMS_ARGON2 Crypto.KMS_ASYMMETRIC_WRAP Z.eqb Pos.eqb] in *;
    try (by rewrite (Hs _ eq_refl)).
  cbn [Kms.serialize_kms_payload].
  rewrite <- (app_nil_r (Kms.serialize_tls_exporter_kms_payload q)), Kms.parse_tls_ok by done. done.
Qed.
Lemma resolve_encryption_Ok e kp key kms :
  resolve_encryption e kp = Ok (key, kms) →
  Crypto.validate_encr_algo_id (encr_algo e) = Ok ()
  ∧ kms = {| Format.mode_id := EntryDecode.kms_mode_id (kms_params e);
             Format.kms_payload := Kms.serialize_kms_payload (kms_params e) |}
  ∧ ∃ provider, kp = Some provider
    ∧ Kms.resolve_cek provider {| Kms.mode_id := EntryDecode.kms_mode_id (kms_params e);
                                  Kms.params := kms_params e |} = Ok key.
Proof.
  unfold resolve_encryption. intros H. apply bind_Ok in H as ([] & Hv%map_err_Ok & H).
  apply guard_Ok in H as [_ H]. apply bind_Ok in H as (provider & Hp%ok_or_Ok & H).
  apply bind_Ok in H as (k & Hk%map_err_Ok & H). apply Ok_inj in H as [= <- <-].
  split_and!; [done..|]. by exists provider.
Qed.

(** What the constructor sets. *)
Lemma new_Ok o c kp w :
  opt_archive_recovery o = None →
  new_with_compression_key_provider_and_cd_metadata o c kp [] = Ok w →
  flags w = flags_of (option_bits o c) ∧ compression w = c ∧ fresh w ∧ finished w = false
  ∧ lfh_size_field_policy w = opt_size_policy o ∧ cd_metadata w = [] ∧ archive_recovery w = None
  ∧ fec w = opt_fec o
  ∧ match encryption o with
    | Some e => ∃ key kms, resolve_encryption e kp = Ok (key, kms) ∧ cek w = Some key
                           ∧ encr_algo_id w = Some (encr_algo e) ∧ header_kms w = Some kms
    | None => header_kms w = None
    end.
Proof.
  intros Hr H. rewrite <- (option_flags_bits o c Hr).
  unfold new_with_compression_key_provider_and_cd_metadata in H. rewrite Hr in H.
  apply guard_Ok in H as [_ H]. apply guard_Ok in H as [_ H]. apply guard_Ok in H as [_ H].
  apply bind_Ok in H as ([[[f key] algo] kms] & He & H).
  apply bind_Ok in H as ([] & _ & H). apply bind_Ok in H as ([] & _ & H).
  apply bind_Ok in H as ([] & _ & H). apply Ok_inj in H as <-.
  cbn [flags compression finished lfh_size_field_policy cd_metadata archive_recovery fec cek
       encr_algo_id header_kms fmap option_fmap option_map].
  destruct (encryption o) as [e|].
  - apply bind_Ok in He as ([k d] & Hk & [= <- <- <- <-]). split_and!; [done..|]. by exists k, d.
  - injection He as <- <- <- <-. split_and!; done.
Qed.

(** A bit of the flags of the options. *)
Lemma option_bit o c k :
  0 ≤ k < 32 → contains (flags_of (option_bits o c)) (Z.shiftl 1 k) = bit_set (option_bits o c) k.
Proof. apply flags_of_contains, option_bits_declared. Qed.
Ltac option_bit k :=
  rewrite (option_bit _ _ k) by lia; unfold bit_set, option_bits;
  cbn [existsb Z.eqb Pos.eqb]; rewrite ?andb_false_r, ?andb_true_r, ?orb_false_r; cbn [orb].
Lemma kms_mode_range p : 1 ≤ EntryDecode.kms_mode_id p ≤ 4.
Proof. destruct p; cbn; unfold Crypto.KMS_PBKDF2, Crypto.KMS_ARGON2, Crypto.KMS_ASYMMETRIC_WRAP, Crypto.KMS_TLS_EXPORTER; lia. Qed.

(** A new writer is ready for its first entry. *)
Lemma new_writing o c kp w :
  options_typed o c → opt_archive_recovery o = None →
  new_with_compression_key_provider_and_cd_metadata o c kp [] = Ok w →
  writing kp w [] ∧ compression w = c
  ∧ contains (flags w) GlobalFlags.ENCRYPTED = bool_decide (is_Some (encryption o)).
Proof.
  intros Ht Hr H. apply new_Ok in H as (Hf & Hc & Hfr & Hfin & Hpol & Hmd & Hrec & Hfec & Henc); [|done].
  destruct (flags_of_spec _ (option_bits_declared o c)) as [Hfit _].
  assert (He : contains (flags w) GlobalFlags.ENCRYPTED = bool_decide (is_Some (encryption o))).
  { rewrite Hf. by option_bit 10. }
  split; [|done]. split; [|by split; [|left]].
  assert (Hok : header_ok w).
  { split.
    - by rewrite Hf.
    - rewrite Hf. apply flags_of_declared, option_bits_declared.
    - rewrite Hf. by option_bit 3.
    - rewrite He. destruct (encryption o); [destruct Henc as (? & ? & _ & _ & _ & ->)|rewrite Henc]; done.
    - destruct (encryption o) as [e|]; [|by rewrite Henc].
      destruct Henc as (key & kms & (_ & -> & _)%resolve_encryption_Ok & _ & _ & ->).
      intros k [= <-]. apply kms_mode_range. }
  split; [|done| | |split; [|done]|..].
  - split; rewrite ?Hc, ?Hfec; [rewrite Hf; by option_bit 8|apply Ht..|rewrite Hf; by option_bit 20|apply Ht|done].
  - unfold policy_ok. rewrite Hpol, Hf. destruct (opt_size_policy o) eqn:Ep; [done|..]; option_bit 0; by rewrite Ep.
  - rewrite He. intros [e Ee]%bool_decide_eq_true. rewrite Ee in Henc.
    destruct Henc as (key & kms & (Hv & -> & provider & -> & Hk)%resolve_encryption_Ok & Hkey & Halgo & Hkms).
    destruct (typed_encr _ _ Ht e Ee) as [H8 Hp].
    exists (encr_algo e), key, provider. eexists. split_and!; [done..| |exact Hk].
    by apply written_kms_context.
  - rewrite Hf. by option_bit 2.
  - rewrite Hf. by option_bit 16.
  - rewrite Hf. by option_bit 19.
  - rewrite Hf. by option_bit 18.
Qed.
End construction.

(** ** Reading what was written *)
Section reading.
Context {B : Bitflags} {L : BitflagsLaws B}.
Context {Comp : Compression.Compressors} {Ciph : Crypto.Ciphers} {K : Kms.Kdfs}.
Context (oc : bool) (options : EntryDecode.ArchiveReaderOptions).
Context (key_provider : option Kms.KeyProvider).
#[local] Abbreviation limits := (EntryDecode.limits options).

(** The limits admit an archive of [n] bytes with [count] entries; the central dictionary
    takes at most 16 bytes and 8 for every entry, and 7 bytes of padding follow. *)
Record admits (kms : option Format.KmsData) (count n : Z) : Prop := {
  admits_word : n < 2 ^ 63;
  admits_archive : max_archive_size limits = 0 ∨ n ≤ max_archive_size limits;
  admits_flags : 4 ≤ max_global_flags_bytes limits;
  admits_kms : ∀ k, kms = Some k → len (Format.kms_payload k) ≤ max_kms_payload_bytes limits;
  admits_map : 0 ≤ max_sparse_map_bytes limits;
  admits_tlvs : 0 ≤ max_tlv_count limits;
  admits_entries : count ≤ max_entry_count limits;
  admits_cd : 24 + 8 * count ≤ max_cd_bytes limits;
  admits_buffer : 24 + 8 * count ≤ max_in_memory_buffer limits;
  admits_memory : 24 + 8 * count ≤ max_total_pipeline_memory limits }.
(** They admit an entry as it is stored. *)
Record entry_admits (e : EntryInput) (st : stored_entry) : Prop := {
  ea_header : len (se_bytes st) ≤ max_lfh_header_bytes limits;
  ea_path : len (in_name e) + len (default [] (in_path e)) ≤ max_path_bytes limits;
  ea_fec : len (Lfh.fec_value (se_lfh st)) ≤ max_fec_value_bytes limits;
  ea_buffer : len (se_stored st) ≤ max_in_memory_buffer limits;
  ea_memory : len (se_stored st) ≤ max_total_pipeline_memory limits;
  ea_decoded : len (in_payload e) ≤ EntryDecode.max_decoded_entry_size options }.

Lemma read_at_mid src p m s pos n :
  src = p ++ m ++ s → pos = len p → n = len m → ArchiveReader.read_at src pos n = Ok m.
Proof.
  intros -> -> ->. unfold ArchiveReader.read_at. rewrite slice_app_mid, !len_app.
  pose proof (len_nonneg s). replace (len p + len m <=? _) with true by lia. by rewrite orb_true_r.
Qed.
Lemma allocation_Ok m ctx :
  0 ≤ m < 2 ^ 63 → m ≤ max_in_memory_buffer limits → m ≤ max_total_pipeline_memory limits →
  allocation_len limits m ctx = Ok m.
Proof.
  intros Hm H1 H2. unfold allocation_len.
  rewrite (proj2 (check_allocation_bytes_ok limits m)) by lia. cbn [mbind result_bind].
  rewrite try_from_fits by lia. cbn [ok_or mbind result_bind]. unfold ISIZE_MAX.
  by replace (m >? _) with false by lia.
Qed.

(** The bytes of the global header. *)
Definition header_start : list byte :=
  Format.MAGIC ++ enc_u8 1 ++ enc_u8 0 ++ le_bytes 2 4.
Lemma enc_header w :
  Format.enc_gh (writer_header w)
  = header_start ++ le_bytes 4 (flags w) ++ enc_opt Format.enc_kms (header_kms w).
Proof.
  unfold Format.enc_gh, header_start. cbn [Format.version Format.flags_bytes Format.flags
    Format.partition_descriptor Format.kms writer_header enc_opt from_option].
  rewrite len_le_bytes. by rewrite <- !app_assoc.
Qed.
Lemma header_bytes_read w src rest count n :
  header_ok w → validate_global_flags (flags w) = Ok () →
  (∀ k, header_kms w = Some k → len (Format.kms_payload k) < 2 ^ 32) →
  src = Format.enc_gh (writer_header w) ++ rest → admits (header_kms w) count n →
  ArchiveReader.read_header_bytes options src = Ok (Format.enc_gh (writer_header w)).
Proof.
  intros H Hv Hk -> A. rewrite enc_header in *. unfold ArchiveReader.read_header_bytes.
  assert (H8 : len header_start = 8) by reflexivity.
  set (tail := enc_opt Format.enc_kms _) in *. rewrite <- !app_assoc in *.
  rewrite (read_at_mid _ [] header_start (le_bytes 4 (flags w) ++ tail ++ rest)) by done.
  cbn [mbind result_bind].
  assert (H6 : @u16_le SarError.t header_start 6 = Ok 4) by reflexivity.
  rewrite H6. cbn [mbind result_bind Z.ltb Z.compare Pos.compare Pos.compare_cont].
  rewrite (proj2 (check_global_flags_bytes_ok limits 4)) by apply (admits_flags _ _ _ A).
  cbn [mbind result_bind].
  rewrite (read_at_mid _ header_start (le_bytes 4 (flags w)) (tail ++ rest) 8 4) by (done || by rewrite len_le_bytes).
  cbn [mbind result_bind].
  rewrite (at_u32 _ 0 (flags w) []); [|rewrite app_nil_r; apply at_start|apply H].
  cbn [mbind result_bind]. rewrite (flags_declared _ H), Hv. cbn [mbind result_bind].
  rewrite (no_partition _ H). cbn [mbind result_bind]. rewrite (kms_present _ H). unfold tail in *.
  destruct (header_kms w) as [k|]; cbn [bool_decide_pack enc_opt from_option].
  2: { by rewrite bool_decide_false by (by intros [? ?]); rewrite app_nil_r. }
  rewrite bool_decide_true by done. unfold Format.enc_kms in *. rewrite <- !app_assoc in *.
  set (p := enc_u8 (Format.mode_id k) ++ le_bytes 4 (len (Format.kms_payload k))).
  assert (H5 : len p = 5) by (unfold p; by rewrite len_app, len_enc_u8, len_le_bytes).
  rewrite (read_at_mid _ (header_start ++ le_bytes 4 (flags w)) p (Format.kms_payload k ++ rest) _ 5);
    [|unfold p; by rewrite <- !app_assoc|done..].
  cbn [mbind result_bind]. pose proof (len_nonneg (Format.kms_payload k)).
  rewrite (at_u32 _ 1 (len (Format.kms_payload k)) []); [| |split; [done|by apply Hk]].
  2: { rewrite app_nil_r. apply (at_app (enc_u8 (Format.mode_id k))). }
  cbn [mbind result_bind]. pose proof (Hk k eq_refl).
  rewrite try_from_fits by lia. cbn [ok_or mbind result_bind].
  rewrite (proj2 (check_kms_payload_bytes_ok limits _)) by (by apply (admits_kms _ _ _ A)).
  cbn [mbind result_bind].
  rewrite (read_at_mid _ ((header_start ++ le_bytes 4 (flags w)) ++ p) (Format.kms_payload k) rest);
    [|unfold p; by rewrite <- !app_assoc|by rewrite !(len_app _ p), H5|done].
  cbn [mbind result_bind]. unfold p. by rewrite <- !app_assoc.
Qed.

Lemma header_parsed w count n :
  header_ok w → validate_global_flags (flags w) = Ok () →
  (∀ k, header_kms w = Some k → len (Format.kms_payload k) < 2 ^ 32) →
  len (Format.enc_gh (writer_header w)) ≤ n → admits (header_kms w) count n →
  Format.parse_global_header (Format.enc_gh (writer_header w)) limits
  = Ok (writer_header w, len (Format.enc_gh (writer_header w))).
Proof.
  intros H Hv Hk Hn A. unfold Format.parse_global_header.
  rewrite (codec_run (Format.global_header_body limits) Format.enc_gh (Format.gh_wf limits));
    [done|apply Format.codec_gh| |pose proof (admits_word _ _ _ A); lia].
  unfold Format.gh_wf. cbn [Format.version Format.flags_bytes Format.flags
    Format.partition_descriptor Format.kms writer_header].
  replace (slice (le_bytes 4 (flags w)) 0 4) with (le_bytes 4 (flags w)).
  2: { symmetry. rewrite <- (app_nil_r (le_bytes 4 _)) at 1. apply slice_prefix. by rewrite len_le_bytes. }
  rewrite len_le_bytes, le_val_bytes by apply (flags_fit _ H).
  rewrite (flags_declared _ H). split_and!; [done|lia|lia|apply (admits_flags _ _ _ A)|done|done| |].
  - apply (no_partition _ H).
  - pose proof (kms_present _ H) as Hp.
    destruct (header_kms w) as [k|] eqn:Ek; rewrite Hp; [|by apply bool_decide_eq_false_2; intros [? ?]].
    split; [by apply bool_decide_eq_true_2|]. split_and!; [by apply (kms_mode _ H)..|by apply Hk|].
    by apply (admits_kms _ _ _ A).
Qed.

(** The key-management block is one the reader accepts. *)
Lemma kms_accepted w :
  writer_ok key_provider w →
  match header_kms w with
  | Some kms =>
      if negb (Format.mode_id kms =? Crypto.KMS_TLS_EXPORTER) then
        _ ← map_err CryptoError.to_sar
              (Kms.parse_kms_payload (Format.mode_id kms) (Format.kms_payload kms));
        Ok ()
      else Ok ()
  | None => Ok ()
  end = Ok ().
Proof.
  intros H. destruct (header_kms w) as [k|] eqn:Ek; [|done].
  destruct (Z.eqb_spec (Format.mode_id k) Crypto.KMS_TLS_EXPORTER) as [|Hm]; [done|]. cbn [negb].
  pose proof (kms_present _ (ok_header _ _ H)) as Hp. rewrite Ek, bool_decide_true in Hp by done.
  destruct (ok_crypto _ _ H Hp) as (? & ? & ? & ctx & _ & _ & _ & _ & _ & Hc & _).
  unfold EntryDecode.build_kms_context in Hc. cbn [Format.kms writer_header] in Hc. rewrite Ek in Hc.
  cbn [ok_or mbind result_bind] in Hc. apply Z.eqb_neq in Hm. rewrite Hm in Hc.
  apply bind_Ok in Hc as (ps & Hps & _). by rewrite Hps.
Qed.

(** The header of an entry on disk. *)
Lemma entry_header w e st :
  stored_for w e st →
  Lfh.fields_wf (flags w) (Lfh.normalize (flags w) (se_lfh st))
  ∧ Lfh.lens_wf (flags w) (len (Lfh.name (Lfh.normalize (flags w) (se_lfh st))))
      (len (Lfh.path (Lfh.normalize (flags w) (se_lfh st))))
      (len (Lfh.sparse_map (Lfh.normalize (flags w) (se_lfh st))))
      (len (Lfh.fec_value (Lfh.normalize (flags w) (se_lfh st))))
  ∧ se_bytes st = Lfh.enc_lfh (flags w) (Lfh.normalize (flags w) (se_lfh st))
  ∧ len (se_bytes st) = Lfh.lfh_len (flags w) (se_lfh st) ∧ len (se_bytes st) < 2 ^ 32.
Proof.
  intros (Ht & Hb & _). pose proof Ht as Ht'. unfold Lfh.lfh_to_bytes in Hb.
  apply Lfh.write_lfh_Ok in Hb as [Hw ->]; [|unfold Lfh.lfh_typed in Ht; by destruct_and! Ht..].
  destruct (Lfh.normalize_wf _ _ Ht' Hw) as [Hf Hlen].
  rewrite (Lfh.len_enc_lfh _ _ Hf Hlen), Lfh.lfh_len_normalize.
  unfold Lfh.writable in Hw. by destruct_and! Hw.
Qed.
Lemma entries_len w es ss :
  Forall2 (entry_ok key_provider w) es ss → 10 * len es ≤ len (concat (chunk <$> ss)).
Proof.
  induction 1 as [|e st es ss He _ IH]; [done|]. cbn [fmap list_fmap concat].
  destruct (entry_header _ _ _ (proj1 He)) as (_ & _ & _ & Hl & _). unfold chunk at 1. rewrite len_cons, !len_app, Hl.
  pose proof (ArchiveReader.lfh_len_pos (flags w) (se_lfh st)). pose proof (len_nonneg (se_stored st)). lia.
Qed.
Lemma layout_len w es ss : layout key_provider w es ss → 10 * len es ≤ len (output w).
Proof.
  intros H. rewrite (lay_output _ _ _ _ H), len_app.
  pose proof (entries_len w es ss (lay_entries _ _ _ _ H)).
  pose proof (len_nonneg (Format.enc_gh (writer_header w))). lia.
Qed.
Lemma zeros_are_zero n : existsb (λ b, negb (byte_val b =? 0)) (zeros n) = false.
Proof. unfold zeros. induction (Z.to_nat n); [done|]. cbn. by rewrite IHn0. Qed.

Lemma index_len w :
  contains (flags w) GlobalFlags.OPT_PRESENT = false →
  len (CentralDir.enc_cd (flags w) (CentralDir.normalize (flags w) (index_of w)))
  ≤ 16 + 8 * len (offsets w).
Proof.
  intros Hopt.
  assert (Hs : Format.size_field_len (flags w) ≤ 8) by (unfold Format.size_field_len; case_match; lia).
  assert (Ho : len (CentralDir.enc_offsets (flags w) (offsets w)) ≤ 8 * len (offsets w)).
  { unfold CentralDir.enc_offsets. induction (offsets w) as [|x os IH]; [done|].
    cbn [mbind list_bind]. rewrite len_app, len_cons, Format.len_enc_size. lia. }
  unfold CentralDir.enc_cd. cbn [CentralDir.normalize CentralDir.cd_version CentralDir.file_count
    CentralDir.partition_info CentralDir.global_crc32 CentralDir.metadata CentralDir.offsets index_of].
  unfold CentralDir.keep. rewrite Hopt.
  rewrite !len_app, len_enc_u8, len_zeros, Format.len_enc_size by lia.
  destruct (contains (flags w) GlobalFlags.PARTITIONED_ARCHIVE), (contains (flags w) GlobalFlags.HAS_GLOBAL_CRC32);
    cbn [enc_opt from_option CentralDir.enc_meta_if]; rewrite !len_nil; lia.
Qed.
Lemma index_parsed w es ss rest n :
  layout key_provider w es ss → writer_ok key_provider w →
  CentralDir.writable (flags w) (index_of w) →
  let cdb := CentralDir.enc_cd (flags w) (CentralDir.normalize (flags w) (index_of w)) in
  len rest < 8 → len (output w) + len (cdb ++ rest) ≤ n → admits (header_kms w) (len es) n →
  CentralDir.parse_central_dictionary (cdb ++ rest) (flags w) limits
  = Ok (CentralDir.normalize (flags w) (index_of w), len cdb).
Proof.
  intros Hl Hok Hwr cdb Hr Hn A. unfold CentralDir.parse_central_dictionary.
  pose proof (len_nonneg (output w)). pose proof (len_nonneg (cdb ++ rest)).
  pose proof (admits_word _ _ _ A). pose proof (layout_len _ _ _ Hl).
  destruct (layout_offsets key_provider w es ss Hl) as [Hoff Hcount]; [lia|].
  pose proof (index_len w (proj1 (ok_no_metadata _ _ Hok))) as Hil. fold cdb in Hil.
  rewrite (proj2 (check_cd_bytes_ok limits _)) by (pose proof (admits_cd _ _ _ A); rewrite len_app; lia).
  cbn [mbind result_bind]. unfold cdb.
  rewrite (codec_run_prefix (CentralDir.central_dictionary_body (flags w) limits)
    (CentralDir.enc_cd (flags w)) (CentralDir.cd_wf (flags w) limits));
    [done|apply CentralDir.codec_cd| |fold cdb; lia].
  pose proof (len_nonneg es).
  apply CentralDir.cd_normalize_wf; [done| | |done].
  - unfold CentralDir.cd_typed. cbn [index_of CentralDir.file_count CentralDir.offsets
      CentralDir.partition_info CentralDir.global_crc32 CentralDir.metadata from_option].
    rewrite Hcount. split; [unfold fits; lia|]. split; [done|]. split; [|done].
    unfold ISIZE_MAX. apply Z.div_le_lower_bound; lia.
  - unfold CentralDir.within. cbn [index_of CentralDir.file_count CentralDir.offsets
      CentralDir.metadata]. rewrite Hcount. cbn -[len]. rewrite (@len_nil Tlv.Tlv), (@len_nil byte).
    destruct A. split_and!; [lia|constructor|lia..].
Qed.

Lemma layout_stored w w' es ss :
  layout key_provider w es ss → flags w = flags w' → Forall2 (stored_for w') es ss.
Proof.
  intros H Hf. eapply Forall2_impl; [apply (lay_entries _ _ _ _ H)|].
  intros e st (Hs & _). unfold stored_for in *. by rewrite <- Hf.
Qed.

(** The index is found behind the entries. *)
Lemma index_found w es ss pad src n :
  layout key_provider w es ss → writer_ok key_provider w → 0 ≤ pad < 8 →
  CentralDir.writable (flags w) (index_of w) →
  src = output w ++ trailer w pad → len src = n → admits (header_kms w) (len es) n →
  ArchiveReader.read_index options src n (len (Format.enc_gh (writer_header w))) (flags w)
  = Ok (len (output w), CentralDir.normalize (flags w) (index_of w)).
Proof.
  intros Hl Hok Hpad Hwr Hsrc Hn A. unfold ArchiveReader.read_index.
  unfold trailer in Hsrc. rewrite (lay_position _ _ _ _ Hl) in Hsrc.
  set (cdb := CentralDir.enc_cd _ _) in *.
  set (ft := Format.write_footer _) in *.
  assert (Hft : len ft = 8) by (unfold ft, Format.write_footer; by rewrite len_le_bytes).
  assert (Hcd : 8 ≤ len cdb).
  { unfold cdb, CentralDir.enc_cd. rewrite !len_app, len_enc_u8, len_zeros by lia.
    repeat match goal with |- context [len ?x] => pose proof (len_nonneg x); generalize dependent (len x); intros end. lia. }
  pose proof (len_zeros pad ltac:(lia)) as Hz. pose proof (len_nonneg (output w)) as Hout.
  pose proof (admits_word _ _ _ A) as Hword. pose proof (layout_len _ _ _ Hl) as Hes.
  assert (Hlen : n = len (output w) + (len cdb + (pad + 8))) by (rewrite <- Hn, Hsrc, !len_app; lia).
  replace (n <? 8) with false by lia.
  rewrite (read_at_mid src (output w ++ cdb ++ zeros pad) ft []);
    [|rewrite Hsrc, app_nil_r; by rewrite <- !app_assoc|rewrite !len_app; lia|lia].
  cbn [mbind result_bind].
  rewrite <- (app_nil_r ft). unfold ft. rewrite Format.parse_footer_app by (cbn; unfold fits; lia).
  cbn [mbind result_bind Format.cd_offset]. rewrite checked_sub_fits by lia. cbn [ok_or mbind result_bind option_bind].
  replace (len (output w) >=? n - 8) with false by lia.
  replace (len (output w) <? _) with false
    by (rewrite (lay_output _ _ _ _ Hl), len_app; pose proof (len_nonneg (concat (chunk <$> ss))); lia).
  rewrite checked_sub_fits by lia. cbn [ok_or mbind result_bind].
  destruct (layout_offsets key_provider w es ss Hl) as [_ Hcount]; [lia|].
  pose proof (index_len w (proj1 (ok_no_metadata _ _ Hok))) as Hil. fold cdb in Hil.
  pose proof (admits_cd _ _ _ A). pose proof (admits_buffer _ _ _ A). pose proof (admits_memory _ _ _ A).
  rewrite (proj2 (check_cd_bytes_ok limits _)) by lia. cbn [mbind result_bind].
  rewrite (proj2 (check_allocation_bytes_ok limits _)) by lia.
  cbn [mbind result_bind]. rewrite allocation_Ok by lia. cbn [mbind result_bind].
  rewrite (read_at_mid src (output w) (cdb ++ zeros pad) ft);
    [|rewrite Hsrc; by rewrite <- !app_assoc|done|rewrite len_app; lia].
  cbn [mbind result_bind].
  pose proof (index_parsed w es ss (zeros pad) n Hl Hok Hwr) as Hp. cbv zeta in Hp. fold cdb in Hp.
  rewrite Hp by (done || lia || (rewrite len_app; lia)). clear Hp. cbn [mbind result_bind]. replace (len cdb >? _) with false by (rewrite len_app; lia).
  rewrite (slice_at cdb (zeros pad) []) by (rewrite ?app_nil_r, ?len_app; done).
  cbn [mbind result_bind]. rewrite zeros_are_zero. cbn [CentralDir.normalize CentralDir.metadata index_of].
  rewrite (proj1 (ok_no_metadata _ _ Hok)), (ok_no_ec _ _ Hok). done.
Qed.

(** The bytes of a finished archive, and the reader behind its header. *)
Definition closed (w : ArchiveWriter) (src : list byte) : Prop :=
  if contains (flags w) GlobalFlags.NO_INDEX then src = output w
  else ∃ pad, 0 ≤ pad < 8 ∧ src = output w ++ trailer w pad
              ∧ CentralDir.writable (flags w) (index_of w).
Definition start_reader (src : list byte) : ArchiveReader.ArchiveReader := {|
  ArchiveReader.source := src; ArchiveReader.global_header := None;
  ArchiveReader.global_flags_section := []; ArchiveReader.header_len := 0;
  ArchiveReader.data_end := 0; ArchiveReader.next_offset := 0;
  ArchiveReader.file_len := len src; ArchiveReader.cd := None |}.
Definition opened_reader (w : ArchiveWriter) (src : list byte) : ArchiveReader.ArchiveReader := {|
  ArchiveReader.source := src; ArchiveReader.global_header := Some (writer_header w);
  ArchiveReader.global_flags_section := Format.global_header_flags_bytes (writer_header w);
  ArchiveReader.header_len := len (Format.enc_gh (writer_header w));
  ArchiveReader.data_end := len (output w);
  ArchiveReader.next_offset := len (Format.enc_gh (writer_header w));
  ArchiveReader.file_len := len src;
  ArchiveReader.cd := if contains (flags w) GlobalFlags.NO_INDEX then None
                      else Some (CentralDir.normalize (flags w) (index_of w)) |}.
Lemma closed_prefix w src : closed w src → ∃ rest, src = output w ++ rest.
Proof.
  unfold closed. destruct (contains _ _); [intros ->; exists []; by rewrite app_nil_r|].
  intros (pad & _ & -> & _). by eexists.
Qed.
Lemma archive_opens w es ss src :
  layout key_provider w es ss → writer_ok key_provider w → closed w src →
  admits (header_kms w) (len es) (len src) →
  ArchiveReader.with_options options src = Ok (start_reader src)
  ∧ ArchiveReader.read_global_header options (start_reader src)
    = Ok (writer_header w, opened_reader w src).
Proof.
  intros Hl Hok Hc A. split.
  { unfold ArchiveReader.with_options, check_archive_size. destruct A as [? Har].
    replace (_ && _) with false by lia. done. }
  destruct (closed_prefix _ _ Hc) as [rest Hrest].
  assert (Hgh : src = Format.enc_gh (writer_header w) ++ (concat (chunk <$> ss) ++ rest)).
  { rewrite Hrest, (lay_output _ _ _ _ Hl). by rewrite <- app_assoc. }
  pose proof (len_nonneg (concat (chunk <$> ss) ++ rest)).
  assert (Hle : len (Format.enc_gh (writer_header w)) ≤ len src) by (rewrite Hgh at 1; rewrite len_app; lia).
  pose proof (len_nonneg (Format.enc_gh (writer_header w))). pose proof (admits_word _ _ _ A).
  unfold ArchiveReader.read_global_header. cbn [ArchiveReader.source ArchiveReader.file_len start_reader].
  rewrite (header_bytes_read w src (concat (chunk <$> ss) ++ rest) (len es) (len src)) by (done || apply Hok || apply Hl).
  cbn [mbind result_bind].
  rewrite (header_parsed w (len es) (len src)) by (done || apply Hok || apply Hl). cbn [mbind result_bind].
  cbn [Format.kms writer_header]. rewrite (kms_accepted w Hok). cbn [mbind result_bind].
  rewrite try_from_fits by lia. cbn [ok_or mbind result_bind Format.flags writer_header].
  unfold closed in Hc. unfold opened_reader. destruct (contains (flags w) GlobalFlags.NO_INDEX) eqn:Ei.
  - cbn [mbind result_bind]. by rewrite Hc.
  - destruct Hc as (pad & Hpad & Hsrc & Hwr).
    by rewrite (index_found w es ss pad src (len src) Hl Hok Hpad Hwr Hsrc eq_refl A).
Qed.

(** The header of an entry is read. *)
Lemma enc_lfh_size f l : ∃ t, Lfh.enc_lfh f l = le_bytes 4 (Lfh.header_size l) ++ t.
Proof. eexists. unfold Lfh.enc_lfh, Lfh.enc_fixed, Lfh.lens. rewrite <- !app_assoc. reflexivity. Qed.
Lemma read_lfh_chunk w e st src p s r :
  entry_ok key_provider w e st → len src < 2 ^ 63 → 0 ≤ max_sparse_map_bytes limits → entry_admits e st →
  ArchiveReader.source r = src → src = p ++ chunk st ++ s → ArchiveReader.next_offset r = len p →
  ArchiveReader.read_lfh options r (writer_header w)
  = Ok (Lfh.normalize (flags w) (se_lfh st), se_bytes st).
Proof.
  intros He Hlen Hm0 A Hs Hsrc Hoff. destruct (entry_header w e st (proj1 He)) as (Hf & Hv & Hb & Hl & H32).
  destruct He as ((_ & _ & _ & Hname & Hpath & _) & _ & _ & Hmap & _).
  set (l := Lfh.normalize (flags w) (se_lfh st)) in *.
  destruct (enc_lfh_size (flags w) l) as [t Ht]. rewrite <- Hb in Ht.
  assert (Hhs : Lfh.header_size l = len (se_bytes st)) by (rewrite Hl; done).
  rewrite Hhs in Ht. unfold chunk in Hsrc. pose proof (len_nonneg (se_bytes st)).
  pose proof (f_equal len Ht) as Hlt. rewrite len_app, len_le_bytes in Hlt. pose proof (len_nonneg t).
  pose proof (f_equal len Hsrc) as Hls. rewrite !len_app in Hls.
  pose proof (len_nonneg p). pose proof (len_nonneg s). pose proof (len_nonneg (se_stored st)).
  unfold ArchiveReader.read_lfh. rewrite Hs, Hoff.
  rewrite (read_at_mid src p (le_bytes 4 (len (se_bytes st))) (t ++ se_stored st ++ s) _ 4);
    [|by rewrite Hsrc, Ht at 1; rewrite <- !app_assoc|done|by rewrite len_le_bytes].
  cbn [mbind result_bind].
  rewrite (at_u32 _ 0 (len (se_bytes st)) []); [|rewrite app_nil_r; apply at_start|split; lia].
  cbn [mbind result_bind]. rewrite try_from_fits by lia. cbn [ok_or mbind result_bind].
  rewrite (proj2 (check_lfh_header_bytes_ok limits _)) by (pose proof (ea_header _ _ A); lia).
  cbn [mbind result_bind]. replace (len (se_bytes st) <? 4) with false by lia.
  pose proof (ArchiveReader.lfh_len_pos (flags w) (se_lfh st)).
  replace (len (se_bytes st) >? 4) with true by lia.
  rewrite (read_at_mid src (p ++ le_bytes 4 (len (se_bytes st))) t (se_stored st ++ s));
    [|by rewrite Hsrc, Ht at 1; rewrite <- !app_assoc|by rewrite len_app, len_le_bytes|lia].
  cbn [mbind result_bind]. rewrite <- Ht. cbn [Format.flags writer_header].
  assert (Hp : Lfh.parse_lfh (se_bytes st) (flags w) limits = Ok (l, len (se_bytes st))).
  { rewrite Hb at 1. rewrite <- (app_nil_r (Lfh.enc_lfh _ _)), <- Hhs. apply Lfh.parse_lfh_enc.
    - split_and!; [exact Hf|exact Hv|by rewrite Hhs, Hl; symmetry; apply Lfh.lfh_len_normalize|..].
      + etransitivity; [|apply (ea_path _ _ A)]. rewrite <- Hname, <- Hpath.
        apply Z.add_le_mono_l. unfold l. cbn [Lfh.normalize Lfh.path].
        pose proof (len_nonneg (Lfh.path (se_lfh st))). destruct (contains _ _); cbn [Lfh.norm_vec]; rewrite ?len_nil; lia.
      + unfold l. cbn [Lfh.normalize Lfh.sparse_map]. rewrite Hmap. by destruct (contains _ _).
      + etransitivity; [|apply (ea_fec _ _ A)]. unfold l. cbn [Lfh.normalize Lfh.fec_value].
        pose proof (len_nonneg (Lfh.fec_value (se_lfh st))). destruct (contains _ _); cbn [Lfh.norm_vec]; rewrite ?len_nil; lia.
    - pose proof (ea_header _ _ A). lia.
    - rewrite app_nil_r, <- Hb. lia. }
  by rewrite Hp.
Qed.

(** One entry is read. *)
Lemma next_entry_chunk w e st src p s r :
  entry_ok key_provider w e st → len src < 2 ^ 63 → 0 ≤ max_sparse_map_bytes limits → entry_admits e st →
  ArchiveReader.source r = src → src = p ++ chunk st ++ s → ArchiveReader.next_offset r = len p →
  len p + len (chunk st) ≤ ArchiveReader.data_end r →
  ArchiveReader.global_header r = Some (writer_header w) →
  ArchiveReader.global_flags_section r = Format.global_header_flags_bytes (writer_header w) →
  ∃ er, ArchiveReader.next_entry oc options key_provider r
        = Ok (Some er, ArchiveReader.set_next_offset r (len p + len (chunk st)))
    ∧ returns (flags w) e er ∧ Metadata.lfh_offset (EntryDecode.metadata er) = len p.
Proof.
  intros He Hlen Hm0 A Hs Hsrc Hoff Hend Hh Hsec.
  destruct (entry_header w e st (proj1 He)) as (_ & _ & Hb & Hl & H32).
  pose proof (read_lfh_chunk w e st src p s r He Hlen Hm0 A Hs Hsrc Hoff) as Hread.
  pose proof He as ((_ & _ & Hpay & _) & Hsc & Hop & _ & Hdec).
  pose proof (f_equal len Hsrc) as Hls. unfold chunk in *. rewrite !len_app in *.
  pose proof (ArchiveReader.lfh_len_pos (flags w) (se_lfh st)) as H10.
  pose proof (len_nonneg p). pose proof (len_nonneg s). pose proof (len_nonneg (se_stored st)).
  destruct (Hdec oc options (len p)) as (parts & Hd & Hret); [lia|apply A..|].
  assert (Hh1 : Lfh.header_size (Lfh.normalize (flags w) (se_lfh st)) = len (se_bytes st)) by done.
  change (Lfh.payload_size (Lfh.normalize (flags w) (se_lfh st)) = len (se_stored st)) in Hpay.
  change (EntryMode.is_session_control (Lfh.entry_mode (Lfh.normalize (flags w) (se_lfh st))) = false) in Hsc.
  change (EntryMode.op_code (Lfh.entry_mode (Lfh.normalize (flags w) (se_lfh st))) = 0) in Hop.
  set (l := Lfh.normalize (flags w) (se_lfh st)) in *.
  assert (Hne : ArchiveReader.next_entry oc options key_provider r
    = Ok (Some {| EntryDecode.header := l; EntryDecode.payload := EntryDecode.parts_payload parts;
                  EntryDecode.metadata := EntryDecode.parts_metadata parts |},
          ArchiveReader.set_next_offset r (len p + (len (se_bytes st) + len (se_stored st))))).
  { unfold ArchiveReader.next_entry. rewrite Hh. cbn [ok_or mbind result_bind].
    replace (_ >=? _) with false by lia. rewrite Hread. cbn [mbind result_bind].
    rewrite Hsc, Hop. cbn [Z.eqb negb orb]. unfold ArchiveReader.payload_range.
    rewrite Hoff, Hpay, Hh1. rewrite checked_add_fits by lia. cbn [ok_or mbind result_bind].
    rewrite checked_add_fits by lia. cbn [ok_or mbind result_bind].
    replace (_ >? _) with false by lia. unfold ArchiveReader.read_payload.
    cbn [mbind result_bind]. rewrite Hpay, allocation_Ok by (lia || apply A).
    cbn [mbind result_bind]. rewrite Hs.
    rewrite (read_at_mid src (p ++ se_bytes st) (se_stored st) s);
      [|rewrite Hsrc; by rewrite <- !app_assoc|by rewrite len_app|done].
    cbn [mbind result_bind]. rewrite Hsec, Hd. cbn [mbind result_bind]. by rewrite Z.add_assoc. }
  eexists. split; [exact Hne|]. split; [exact Hret|].
  apply ArchiveReader.next_entry_Ok in Hne as [Ho _]. by rewrite Ho.
Qed.

(** All entries are read, in order, whatever is done with them. *)
Lemma entries_read w es ss src p s r :
  Forall2 (entry_ok key_provider w) es ss → len src < 2 ^ 63 → 0 ≤ max_sparse_map_bytes limits →
  Forall2 entry_admits es ss →
  ArchiveReader.source r = src → src = p ++ concat (chunk <$> ss) ++ s →
  ArchiveReader.next_offset r = len p →
  ArchiveReader.data_end r = len p + len (concat (chunk <$> ss)) →
  ArchiveReader.global_header r = Some (writer_header w) →
  ArchiveReader.global_flags_section r = Format.global_header_flags_bytes (writer_header w) →
  ∃ ers, Forall2 (returns (flags w)) es ers
    ∧ (ArchiveReader.entry_offset <$> ers) = chunk_offsets (len p) ss
    ∧ ∀ (T : Type) (f : T → EntryDecode.EntryReader → result SarError.t T) acc acc' fuel,
        ArchiveReader.fold_entries f acc ers = Ok acc' → (length es < fuel)%nat →
        ArchiveReader.entries_loop oc options key_provider f fuel r acc
        = (ArchiveReader.set_next_offset r (ArchiveReader.data_end r), Ok acc').
Proof.
  intros H. revert p r. induction H as [|e st es ss He Hes IH]; intros p r Hlen Hm0 A Hs Hsrc Hoff Hend Hh Hsec.
  - exists []. split; [constructor|]. split; [done|]. intros T f acc acc' fuel [= <-] Hf.
    destruct fuel as [|fuel]; [lia|]. cbn [ArchiveReader.entries_loop].
    unfold ArchiveReader.next_entry. rewrite Hh. cbn [ok_or mbind result_bind].
    cbn [fmap list_fmap concat] in Hend. rewrite len_nil in Hend.
    replace (_ >=? _) with true by lia. f_equal. rewrite Hend, Z.add_0_r, <- Hoff. by destruct r.
  - cbn [fmap list_fmap concat] in Hsrc, Hend. apply Forall2_cons in A as [Ae A].
    rewrite len_app in Hend. pose proof (len_nonneg (concat (chunk <$> ss))).
    destruct (next_entry_chunk w e st src p (concat (chunk <$> ss) ++ s) r) as (er & Hn & Hr & Ho);
      [done|done|done|done|done|by rewrite Hsrc, <- !app_assoc|done|lia|done|done|].
    set (r1 := ArchiveReader.set_next_offset _ _) in Hn.
    destruct (IH (p ++ chunk st) r1) as (ers & Hrs & Hos & Hloop);
      [done|done|done|done|by rewrite Hsrc, <- !app_assoc|by rewrite len_app|cbn; rewrite len_app; lia|done|done|].
    exists (er :: ers). split; [by constructor|]. split.
    { cbn [fmap list_fmap chunk_offsets]. rewrite len_app in Hos. unfold ArchiveReader.entry_offset at 1. by rewrite Ho, Hos. }
    intros T f acc acc' fuel Hf Hfu. destruct fuel as [|fuel]; [cbn in Hfu; lia|].
    cbn [ArchiveReader.entries_loop]. rewrite Hn. cbn [ArchiveReader.fold_entries] in Hf.
    apply bind_Ok in Hf as (acc1 & -> & Hf). rewrite (Hloop T f acc1 acc' fuel Hf); [done|].
    cbn [length] in Hfu. lia.
Qed.

(** The loop of [verify] on entries it has read. *)
Lemma fold_verify_runs ers os n :
  0 ≤ n → n + len ers < 2 ^ 64 →
  ∃ k, ArchiveReader.fold_entries ArchiveReader.verify_entry (os, n) ers
       = Ok (os ++ (ArchiveReader.entry_offset <$> ers), k).
Proof.
  revert os n. induction ers as [|er ers IH]; intros os n H0 Hn; cbn [ArchiveReader.fold_entries].
  { exists n. by rewrite app_nil_r. }
  rewrite len_cons in Hn. pose proof (len_nonneg ers).
  assert (∃ m, ArchiveReader.verify_entry (os, n) er = Ok (os ++ [ArchiveReader.entry_offset er], m)
               ∧ n ≤ m ≤ n + 1) as (m & -> & Hm).
  { unfold ArchiveReader.verify_entry. case_match; [rewrite checked_add_fits by lia|];
      eexists; (split; [reflexivity|lia]). }
  destruct (IH (os ++ [ArchiveReader.entry_offset er]) m) as [k Hk]; [lia..|]. exists k.
  rewrite <- app_assoc in Hk. exact Hk.
Qed.
Lemma index_verified w os :
  writer_ok key_provider w → os = offsets w → len os < 2 ^ 64 →
  ArchiveReader.verify_index options (flags w) os (CentralDir.normalize (flags w) (index_of w)) = Ok ().
Proof.
  intros Hok -> Hn. unfold ArchiveReader.verify_index.
  cbn [CentralDir.normalize CentralDir.metadata CentralDir.file_count CentralDir.offsets index_of].
  rewrite (proj1 (ok_no_metadata _ _ Hok)), (ok_no_ec _ _ Hok), (ok_no_signature _ _ Hok).
  cbn [existsb andb]. rewrite try_from_fits by (pose proof (len_nonneg (offsets w)); lia).
  cbn [ok_or mbind result_bind]. rewrite Z.eqb_refl, bool_decide_true by done. cbn [negb mbind result_bind].
  by destruct (contains (flags w) GlobalFlags.CDC_SUPPORT).
Qed.

(** The reader on a finished archive. *)
Lemma archive_read w es ss src :
  layout key_provider w es ss → writer_ok key_provider w → closed w src →
  admits (header_kms w) (len es) (len src) → Forall2 entry_admits es ss →
  ∃ ers, Forall2 (returns (flags w)) es ers
    ∧ (∀ (T : Type) (f : T → EntryDecode.EntryReader → result SarError.t T) acc acc',
         ArchiveReader.fold_entries f acc ers = Ok acc' →
         ∃ r', ArchiveReader.entries_loop oc options key_provider f
                 (ArchiveReader.entries_fuel (opened_reader w src)) (opened_reader w src) acc = (r', Ok acc'))
    ∧ ∃ r' report, ArchiveReader.verify oc options key_provider (start_reader src) = (r', Ok report)
      ∧ ArchiveReader.entry_count report = len es
      ∧ ArchiveReader.indexed report = negb (contains (flags w) GlobalFlags.NO_INDEX).
Proof.
  intros Hl Hok Hc A Hmax. destruct (closed_prefix _ _ Hc) as [rest Hrest].
  pose proof (admits_word _ _ _ A) as Hword.
  assert (Hgh : src = Format.enc_gh (writer_header w) ++ concat (chunk <$> ss) ++ rest).
  { rewrite Hrest, (lay_output _ _ _ _ Hl). by rewrite <- app_assoc. }
  assert (Hlen : len (output w) = len (Format.enc_gh (writer_header w)) + len (concat (chunk <$> ss)))
    by (by rewrite (lay_output _ _ _ _ Hl), len_app).
  destruct (entries_read w es ss src _ rest (opened_reader w src) (lay_entries _ _ _ _ Hl) Hword
    (admits_map _ _ _ A) Hmax eq_refl Hgh eq_refl Hlen eq_refl eq_refl) as (ers & Hret & Hoff & Hloop).
  pose proof (entries_len w es ss (lay_entries _ _ _ _ Hl)) as H10.
  assert (Hfuel : (length es < ArchiveReader.entries_fuel (opened_reader w src))%nat).
  { unfold ArchiveReader.entries_fuel, opened_reader. cbn -[len]. unfold len at 1 in H10. lia. }
  exists ers. split; [done|]. split.
  { intros T f acc acc' Hf. eexists. by apply Hloop. }
  assert (Hn : len ers = len es) by (unfold len; by rewrite (Forall2_length _ _ _ Hret)).
  assert (Hes : len es < 2 ^ 63).
  { pose proof (f_equal len Hrest) as Hr. rewrite len_app in Hr. pose proof (len_nonneg rest).
    pose proof (layout_len _ _ _ Hl). pose proof (len_nonneg es). lia. }
  destruct (fold_verify_runs ers [] 0) as [k Hk]; [lia|lia|].
  destruct (archive_opens w es ss src Hl Hok Hc A) as [_ Hopen].
  unfold ArchiveReader.verify, ArchiveReader.rewind. cbn [ArchiveReader.global_header start_reader].
  fold (start_reader src). rewrite Hopen. cbn [mbind result_bind ArchiveReader.global_header opened_reader].
  fold (opened_reader w src).
  assert (Hset : ArchiveReader.set_next_offset (opened_reader w src)
                   (ArchiveReader.header_len (opened_reader w src)) = opened_reader w src) by done.
  rewrite Hset, (Hloop _ _ _ _ _ Hk Hfuel). cbn [app].
  cbn [ArchiveReader.cd ArchiveReader.set_next_offset opened_reader Format.flags writer_header].
  assert (Hlo : len (ArchiveReader.entry_offset <$> ers) = len es) by (rewrite <- Hn; unfold len; by rewrite length_fmap).
  assert (Hcd : match (if contains (flags w) GlobalFlags.NO_INDEX then None
                       else Some (CentralDir.normalize (flags w) (index_of w))) with
                | Some cd => ArchiveReader.verify_index options (flags w) (ArchiveReader.entry_offset <$> ers) cd
                | None => Ok ()
                end = Ok ()).
  { destruct (contains (flags w) GlobalFlags.NO_INDEX); [done|]. apply index_verified; [done| |lia].
    rewrite Hoff. by rewrite (lay_offsets _ _ _ _ Hl). }
  rewrite Hcd. cbn [mbind result_bind]. rewrite try_from_fits by (pose proof (len_nonneg es); lia).
  cbn [ok_or mbind result_bind]. eexists _, _. split; [reflexivity|].
  cbn [ArchiveReader.entry_count ArchiveReader.indexed]. split; [done|].
  by destruct (contains (flags w) GlobalFlags.NO_INDEX).
Qed.

(** Limits larger than the archive admit its entries. *)
Lemma fec_value_within w e st : stored_for w e st → len (Lfh.fec_value (se_lfh st)) ≤ len (se_bytes st).
Proof.
  intros H. destruct (entry_header w e st H) as (_ & _ & Hb & _). destruct H as (_ & _ & _ & _ & _ & Hfec).
  destruct (contains (flags w) GlobalFlags.SELECTIVE_FEC) eqn:Ef; [|rewrite Hfec by done; apply len_nonneg].
  rewrite Hb. unfold Lfh.enc_lfh. rewrite !len_app. cbn [Lfh.normalize Lfh.fec_value]. rewrite Ef. cbn [Lfh.norm_vec].
  repeat match goal with |- context [len ?x + _] => pose proof (len_nonneg x); generalize dependent (len x); intros end. lia.
Qed.
Lemma small_entries w es ss n :
  Forall2 (stored_for w) es ss → len (concat (chunk <$> ss)) ≤ n →
  n ≤ max_lfh_header_bytes limits → n ≤ max_fec_value_bytes limits →
  n ≤ max_in_memory_buffer limits → n ≤ max_total_pipeline_memory limits →
  Forall (λ e, len (in_name e) + len (default [] (in_path e)) ≤ max_path_bytes limits
               ∧ len (in_payload e) ≤ EntryDecode.max_decoded_entry_size options) es →
  Forall2 entry_admits es ss.
Proof.
  intros H. revert n. induction H as [|e st es ss He Hes IH]; intros n Hn H1 H2 H3 H4 Hf; [constructor|].
  apply Forall_cons in Hf as [[Hp Hd] Hf]. cbn [fmap list_fmap concat] in Hn. unfold chunk in Hn at 1.
  rewrite !len_app in Hn. pose proof (fec_value_within w e st He).
  pose proof (len_nonneg (se_bytes st)). pose proof (len_nonneg (se_stored st)).
  pose proof (len_nonneg (concat (chunk <$> ss))).
  constructor; [split; (done || lia)|]. apply (IH n); (done || lia).
Qed.

(** The logical files of the entries: those with a name. *)
Definition logical_of (e : EntryInput) : option ArchiveReader.LogicalFile :=
  if len (in_name e) =? 0 then None
  else Some {| ArchiveReader.file_name := in_name e; ArchiveReader.fragment_id := None;
               ArchiveReader.data := in_payload e; ArchiveReader.is_degraded := false |}.
Context (crc32 : list byte → Z).
(** The checksum of a named entry, zero when none was given, is that of its payload. *)
Definition crc_matches (f : Z) (e : EntryInput) : bool :=
  negb (contains f GlobalFlags.PER_FILE_CRC) || (len (in_name e) =? 0)
  || (crc32 (in_payload e) =? default 0 (in_file_crc32 e)).
Lemma group_ordinary f g es ers :
  Forall2 (returns f) es ers →
  ArchiveReader.group_entries_loop options crc32 f g ers
  = if forallb (crc_matches f) es then
      Ok {| ArchiveReader.frag_order := ArchiveReader.frag_order g;
            ArchiveReader.frag_groups := ArchiveReader.frag_groups g;
            ArchiveReader.files := ArchiveReader.files g ++ omap logical_of es |}
    else Err (SarError.CrcMismatch "file CRC32 mismatch on reconstructed logical file").
Proof.
  intros H. revert g. induction H as [|e er es ers He Hes IH]; intros g.
  { cbn. rewrite app_nil_r. by destruct g. }
  cbn [ArchiveReader.group_entries_loop omap list_omap forallb].
  unfold ArchiveReader.group_entry. rewrite (ret_name _ _ _ He), (ret_fragment _ _ _ He).
  unfold logical_of at 1. unfold crc_matches at 1.
  destruct (Z.eqb_spec (len (in_name e)) 0) as [Hn|Hn]; cbn [andb negb].
  - cbn [mbind result_bind]. rewrite orb_true_r. apply IH.
  - rewrite (ret_sparse _ _ _ He), (ret_payload _ _ _ He). cbn [ArchiveReader.apply_sparse_if_needed mbind result_bind].
    rewrite orb_false_r.
    assert (Hok : ArchiveReader.check_crc crc32 f (Metadata.file_crc32 (EntryDecode.metadata er))
      (in_payload e) "file CRC32 mismatch on reconstructed logical file"
      = if negb (contains f GlobalFlags.PER_FILE_CRC)
           || (crc32 (in_payload e) =? default 0 (in_file_crc32 e)) then Ok ()
        else Err (SarError.CrcMismatch "file CRC32 mismatch on reconstructed logical file")).
    { rewrite (ret_crc _ _ _ He). unfold ArchiveReader.check_crc.
      destruct (contains f GlobalFlags.PER_FILE_CRC) eqn:Ef; [|done]. cbn [negb andb orb].
      by destruct (_ =? _). }
    rewrite Hok. destruct (_ || _); [|done]. cbn [mbind result_bind andb].
    rewrite IH. cbn [ArchiveReader.files ArchiveReader.frag_order ArchiveReader.frag_groups].
    by rewrite <- app_assoc.
Qed.
Lemma collect_entries (ers acc : list EntryDecode.EntryReader) :
  ArchiveReader.fold_entries (λ acc e, Ok (acc ++ [e])) acc ers = Ok (acc ++ ers).
Proof.
  revert acc. induction ers as [|e ers IH]; intros acc; cbn [ArchiveReader.fold_entries mbind result_bind].
  - by rewrite app_nil_r.
  - rewrite IH. by rewrite <- app_assoc.
Qed.
Lemma logical_files_read w es ss src lossy :
  layout key_provider w es ss → writer_ok key_provider w → closed w src →
  admits (header_kms w) (len es) (len src) → Forall2 entry_admits es ss →
  ∃ r', ArchiveReader.read_all_logical_files oc options key_provider crc32 (start_reader src) lossy
        = (r', if forallb (crc_matches (flags w)) es then Ok (omap logical_of es)
               else Err (SarError.CrcMismatch "file CRC32 mismatch on reconstructed logical file")).
Proof.
  intros Hl Hok Hc A Hmax.
  destruct (archive_read w es ss src Hl Hok Hc A Hmax) as (ers & Hret & Hloop & _).
  destruct (archive_opens w es ss src Hl Hok Hc A) as [_ Hopen].
  destruct (Hloop _ _ _ _ (collect_entries ers [])) as [r' Hr].
  unfold ArchiveReader.read_all_logical_files, ArchiveReader.rewind. cbn [ArchiveReader.global_header start_reader].
  fold (start_reader src). rewrite Hopen. cbn [mbind result_bind ArchiveReader.global_header opened_reader].
  fold (opened_reader w src).
  assert (Hset : ArchiveReader.set_next_offset (opened_reader w src)
                   (ArchiveReader.header_len (opened_reader w src)) = opened_reader w src) by done.
  rewrite Hset, Hr. exists r'. cbn [Format.flags writer_header app].
  rewrite (group_ordinary (flags w) _ es ers Hret). by destruct (forallb _ es).
Qed.
End reading.

(** ** Theorems *)
Section theorems.
Context {B : Bitflags} {L : BitflagsLaws B}.
Context {Comp : Compression.Compressors} {Ciph : Crypto.Ciphers} {K : Kms.Kdfs}.
Context {CompL : Compression.CompressorLaws Comp} {CiphL : Crypto.CipherLaws Ciph}.
Context (random : nat → Z → list byte).
Context (random_fills : ∀ k n, 0 ≤ n → len (random k n) = n).
Context (key_provider : option Kms.KeyProvider).

(** What may be added to an archive with these options: values of their Rust types, no
    delta; a directory only when nothing is stored for its empty payload. *)
Definition suits (o : ArchiveWriterOptions) (c : CompressionSettings) (e : EntryInput) : Prop :=
  input_typed e ∧ len (in_payload e) < 2 ^ 63
  ∧ (in_kind e = Some Metadata.Directory →
     comp_algo c = Compression.COMP_ALGO_STORE ∧ encryption o = None).
(** An archive was written: created, the entries added, finished, all with success. *)
Definition written (o : ArchiveWriterOptions) (c : CompressionSettings) (es : list EntryInput)
    (w : ArchiveWriter) (s : ArchiveSummary) : Prop :=
  ∃ w0 w1, new_with_compression_key_provider_and_cd_metadata o c key_provider [] = Ok w0
    ∧ add_entries random es w0 = (w1, Ok ()) ∧ finish w1 = (w, Ok s).

Lemma written_layout o c es w s :
  options_typed o c → opt_archive_recovery o = None → Forall (suits o c) es →
  written o c es w s → len (output w) < 2 ^ 64 →
  ∃ w1 ss, layout key_provider w1 es ss ∧ writer_ok key_provider w1
    ∧ flags w1 = flags w ∧ header_kms w1 = header_kms w ∧ closed w1 (output w) ∧ entry_count s = len es ∧ archive_size s = len (output w)
    ∧ indexed s = negb (no_index o)
    ∧ contains (flags w) GlobalFlags.NO_INDEX = no_index o
    ∧ contains (flags w) GlobalFlags.PER_FILE_CRC = with_per_file_crc o
    ∧ contains (flags w) GlobalFlags.ENCRYPTED = bool_decide (is_Some (encryption o)).
Proof.
  intros Ht Hr He (w0 & w1 & Hnew & Hadd & Hfin) Hlen.
  destruct (new_Ok o c key_provider w0 Hr Hnew) as (Hf0 & _).
  apply (new_writing o c key_provider w0 Ht Hr) in Hnew as (Hw & Hc & Hen).
  apply (add_entries_Ok random random_fills key_provider es w0 []) in Hadd as [Hw1 Hsz]; [|done|].
  2: { eapply Forall_impl; [exact He|]. intros e (H1 & H2 & H3). split_and!; [done|done|].
       intros Hk. destruct (H3 Hk) as [H4 H5]. rewrite Hc, Hen, H5. by split. }
  pose proof (flags_fit _ (ok_header _ _ (proj1 Hw))) as Hfit.
  pose proof (same_but_size_contains (flags w0) (flags w1) 1 Hfit Hsz ltac:(lia)) as C1.
  pose proof (same_but_size_contains (flags w0) (flags w1) 17 Hfit Hsz ltac:(lia)) as C17.
  pose proof (same_but_size_contains (flags w0) (flags w1) 10 Hfit Hsz ltac:(lia)) as C10.
  rewrite Hf0 in C1, C17. rewrite (option_bit o c) in C1, C17 by lia.
  destruct (finish_Ok key_provider w1 es w s Hw1 Hfin Hlen) as
    (w2 & ss & Hl & Hok & Hf1 & Hf & Hkms & Hcount & Hsize & Hclose).
  assert (N : contains (flags w1) GlobalFlags.NO_INDEX = no_index o).
  { etransitivity; [exact C1|]. cbn. by rewrite ?andb_true_r, ?andb_false_r, ?orb_false_r. }
  assert (P : contains (flags w1) GlobalFlags.PER_FILE_CRC = with_per_file_crc o).
  { etransitivity; [exact C17|]. cbn. by rewrite ?andb_true_r, ?andb_false_r, ?orb_false_r. }
  assert (E : contains (flags w1) GlobalFlags.ENCRYPTED = bool_decide (is_Some (encryption o)))
    by (by rewrite <- Hen).
  exists w2, ss. rewrite Hf, N, P, E. rewrite N in Hclose. unfold closed. rewrite Hf1, N.
  destruct (no_index o).
  - destruct Hclose as [Hout Hix]. rewrite Hix. by split_and!.
  - destruct Hclose as (pad & Hpad & Hout & -> & Hwr). split_and!; try done. exists pad.
    by rewrite Hf1 in Hwr.
Qed.


End theorems.

(** ** Witnesses

    An indexed archive, compressed, encrypted under a password and with Reed-Solomon values,
    with a file (with its checksum) and an entry without a name. *)
Section witnesses.
#[local] Existing Instance bitwise.
#[local] Existing Instance bitwise_laws.
#[local] Existing Instances Transform.marked_compressors Transform.shift_ciphers EntryDecode.zero_kdfs.

Definition sample_random (k : nat) (n : Z) : list byte := replicate (Z.to_nat n) (byte_of (Z.of_nat k)).
Definition sample_provider : Kms.KeyProvider := {|
  Kms.password_for _ := Ok (Some [x70; x77]);
  Kms.unwrap_key _ _ := Ok None;
  Kms.external_key _ := Ok None |}.
Definition sample_writer_options : ArchiveWriterOptions := {|
  no_index := false;
  encryption := Some {| encr_algo := Crypto.ENCR_XCHACHA20_POLY;
    kms_params := Kms.Pbkdf2 {| Pbkdf2Params.prf_algo_id := Crypto.PBKDF2_PRF_HMAC_SHA256;
      Pbkdf2Params.salt := zeros 16; Pbkdf2Params.iterations := 100000;
      Pbkdf2Params.derived_key_length := 32 |} |};
  opt_fec := Some {| fec_algo := FEC_ALGO_REED_SOLOMON; config0 := 2; config1 := 1; symbol_size := 4 |};
  opt_archive_recovery := None; sparse := false; with_path := true; with_permissions := false;
  with_uid_gid := false; with_timestamps := false; with_per_file_crc := true;
  with_content_hash := false; with_symlinks := false; with_delta := false;
  opt_size_policy := Auto |}.
Definition sample_compression : CompressionSettings := {| comp_algo := Compression.COMP_ALGO_ZSTD; level := Some 3 |}.
Definition sample_crc (l : list byte) : Z := len l.
Definition sample_file : EntryInput := {|
  in_name := [x61]; in_payload := [x01; x02; x03; x04; x05]; in_kind := None; in_path := Some [x62];
  in_permissions := None; in_uid_gid := None; in_timestamps := None; in_stream_id := Some 7;
  in_sequence_no := None; in_is_hidden := true; in_file_crc32 := Some 5; in_content_hash := None;
  in_delta := None |}.
Definition sample_entries : list EntryInput := [sample_file; file [] [x09]].
Definition sample_output : result SarError.t (ArchiveWriter * ArchiveSummary) :=
  w0 ← new_with_compression_key_provider_and_cd_metadata sample_writer_options sample_compression
         (Some sample_provider) [];
  let '(w1, r) := add_entries sample_random sample_entries w0 in
  _ ← r; let '(w2, r) := finish w1 in s ← r; Ok (w2, s).
(** It is written, in 272 bytes. *)
Lemma sample_facts :
  match sample_output with
  | Ok (w, s) => archive_size s = 272 ∧ len (output w) = 272
      ∧ match header_kms w with Some k => len (Format.kms_payload k) ≤ 65536 | None => True end
  | _ => False
  end.
Proof. vm_compute. split; [reflexivity|]. split; [reflexivity|]. discriminate. Qed.
Lemma sample_written w s :
  sample_output = Ok (w, s) →
  written sample_random (Some sample_provider) sample_writer_options sample_compression sample_entries w s.
Proof.
  unfold sample_output. intros (w0 & H0 & H)%bind_Ok. destruct (add_entries _ _ _) as [w1 r1] eqn:E1.
  apply bind_Ok in H as ([] & -> & H). destruct (finish w1) as [w2 r2] eqn:E2.
  apply bind_Ok in H as (s2 & -> & [= <- <-]). by exists w0, w1.
Qed.
Lemma sample_typed : options_typed sample_writer_options sample_compression.
Proof.
  split; [done|by intros v [= <-]|intros f [= <-]; by vm_compute|intros e [= <-]]. split; [done|].
  vm_compute. split_and!; congruence.
Qed.
Lemma sample_suits : Forall (suits sample_writer_options sample_compression) sample_entries.
Proof.
  assert (H : ∀ e, in_delta e = None → in_kind e = None → len (in_payload e) < 2 ^ 63 →
    input_typed e → suits sample_writer_options sample_compression e).
  { intros e H1 H2 H3 H4. split_and!; [done|done|]. by rewrite H2. }
  unfold sample_entries. rewrite !Forall_cons. split; [|split; [|constructor]]; (apply H; [done..|]);
    split; try done; cbn; intros; simplify_eq; (done || (vm_compute; split; congruence)).
Qed.
Lemma sample_admitted w s ss tail :
  sample_output = Ok (w, s) →
  output w = Format.enc_gh (writer_header w) ++ concat (chunk <$> ss) ++ tail →
  Forall2 (stored_for w) sample_entries ss →
  admits EntryDecode.sample_options (header_kms w) (len sample_entries) (len (output w))
  ∧ Forall2 (entry_admits EntryDecode.sample_options) sample_entries ss.
Proof.
  intros Hw Hout Hss. pose proof sample_facts as F. rewrite Hw in F. clear Hw.
  destruct F as (_ & Hn & Hk). split.
  - rewrite Hn. split; try (by vm_compute); [by right; vm_compute|].
    intros k Ek. by rewrite Ek in Hk.
  - rewrite Hout, !len_app in Hn. pose proof (len_nonneg (Format.enc_gh (writer_header w))).
    pose proof (len_nonneg tail).
    apply (small_entries EntryDecode.sample_options w sample_entries ss 272 Hss); [lia|by vm_compute..|].
    repeat constructor; by vm_compute.
Qed.

(** A directory in an encrypted archive is written without an error, with the authentication
    tag as its payload; the reader refuses the archive. *)
Definition sample_directory : EntryInput := {|
  in_name := [x64]; in_payload := []; in_kind := Some Metadata.Directory; in_path := None;
  in_permissions := None; in_uid_gid := None; in_timestamps := None; in_is_hidden := false;
  in_stream_id := None; in_sequence_no := None; in_file_crc32 := None; in_content_hash := None;
  in_delta := None |}.
Lemma encrypted_directory_refused :
  match (w0 ← new_with_compression_key_provider_and_cd_metadata sample_writer_options
               sample_compression (Some sample_provider) [];
         let '(w1, r) := add_entries sample_random [sample_directory] w0 in
         _ ← r; let '(w2, r) := finish w1 in _ ← r; Ok w2) with
  | Ok w =>
      (r ← ArchiveReader.with_options EntryDecode.sample_options (output w);
       snd (ArchiveReader.verify false EntryDecode.sample_options (Some sample_provider) r))
      = Err (SarError.Malformed "IS_DIRECTORY entry must have zero Payload Size")
  | _ => False
  end.
Proof. vm_compute. reflexivity. Qed.

End witnesses.
End WriteRead.
