(* ===== verification/Transport.v ===== *)
(** * The transport binding

    Models [crates/sar-transport/src/lib.rs]: the in-memory transport, which binds the SAR
    streams of sessions to the streams of one connection under the TCP or the QUIC policy.
    A connection is the record [InMemoryTransport]; its [BTreeMap]s and [BTreeSet]s are
    [gmap] and [gset], and the context of each transport stream holds a streaming parser
    and a session manager.  A method of [&mut self] that collects actions is a computation
    of the monad [M], which threads the connection and the vector of actions: what was
    changed before an error stays changed.  The options of a parser are fixed by the limits
    of its context, and its key provider is kept in the context. *)

From stdpp Require Import gmap.
From S2P Require Import Prelude Errors Limits Flags Cursor Format Lfh Crypto Kms Transform Metadata EntryDecode StreamProtocol Session StreamParser.

Module TransportConfig.
(** [struct TransportConfig]. *)
Record t := {
  max_active_transport_streams : Z; max_active_sar_streams : Z;
  max_buffered_bytes_per_transport_stream : Z; max_pending_actions : Z;
  max_status_ack_actions : Z; max_rejected_stream_ids : Z;
  max_control_streams_per_sar_session : Z; bidirectional_control : bool;
  bidirectional_stream : bool; strict_validation : bool; heartbeat_min_interval_ms : Z;
  heartbeat_required_interval_ms : Z; inactivity_timeout_ms : Z }.
(** [TransportConfig::default]. *)
Definition default_config : t := {|
  max_active_transport_streams := 256;
  max_active_sar_streams := Limits.max_active_streams Limits.default_limits;
  max_buffered_bytes_per_transport_stream := 64 * 1024; max_pending_actions := 128;
  max_status_ack_actions := 32; max_rejected_stream_ids := 1024;
  max_control_streams_per_sar_session := 4; bidirectional_control := true;
  bidirectional_stream := false; strict_validation := true;
  heartbeat_min_interval_ms := 5000; heartbeat_required_interval_ms := 60000;
  inactivity_timeout_ms := 180000 |}.
End TransportConfig.

Module TransportStreamState.
(** [enum TransportStreamState]. *)
Inductive t : Set :=
  | Idle | AwaitingGlobalHeader | AwaitingSessionInit | Active | Closing | Closed | Reset
  | Rejected.
#[global] Instance transport_state_eq_dec : EqDecision t.
Proof. solve_decision. Defined.
(** [matches!(state, Closed | Reset | Rejected)]. *)
Definition is_over (s : t) : bool :=
  match s with Closed | Reset | Rejected => true | _ => false end.
End TransportStreamState.

Module TransportAction.
(** [enum TransportAction]; a [TransportStreamId] is its number. *)
Inductive t :=
  | AcceptTransportStream (transport_stream_id : Z)
  | BindSarStream (transport_stream_id sar_stream_id : Z) (session_uuid : list byte)
  | AttachControlStream (transport_stream_id sar_stream_id : Z)
  | RejectSarStream (transport_stream_id : Z) (error : SarError.t)
  | ResetTransportStream (transport_stream_id : Z) (error : SarError.t)
  | CloseConnection (error : SarError.t)
  | DiscardBytes (transport_stream_id : Z)
  | EmitSessionStatus (sar_stream_id : Z) (frame : Frames.SessionStatusFrame)
  | EmitSessionAck (sar_stream_id : Z) (frame : Frames.SessionAckFrame)
  | EmitHeartbeat (sar_stream_id : Z)
  | StreamClosed (transport_stream_id : Z) (sar_stream_id : option Z)
  | Warning (status : SarStatus.t).
(** The pattern of [count_status_ack_actions]. *)
Definition is_status_ack (a : t) : bool :=
  match a with EmitSessionStatus _ _ | EmitSessionAck _ _ => true | _ => false end.
End TransportAction.

Module TransportStreamContext.
(** [struct TransportStreamContext]; [provider] is the key provider of the parser. *)
Record t := {
  parser : StreamParser.StreamArchiveParser; provider : option Kms.KeyProvider;
  manager : Session.SessionManager; limits : Limits.ResourceLimits;
  state : TransportStreamState.t; bound_sar_stream_id : option Z;
  awaiting_session_init : bool; peer_capabilities : Z;
  last_valid_activity_ms : option Z; last_heartbeat_emit_ms : option Z;
  current_global_header : option Format.GlobalHeader; quic_pending_bytes : list byte }.

Definition set_parser (c : t) (v : StreamParser.StreamArchiveParser) : t := {|
  parser := v; provider := provider c; manager := manager c; limits := limits c;
  state := state c; bound_sar_stream_id := bound_sar_stream_id c;
  awaiting_session_init := awaiting_session_init c; peer_capabilities := peer_capabilities c;
  last_valid_activity_ms := last_valid_activity_ms c;
  last_heartbeat_emit_ms := last_heartbeat_emit_ms c;
  current_global_header := current_global_header c;
  quic_pending_bytes := quic_pending_bytes c |}.
Definition set_manager (c : t) (v : Session.SessionManager) : t := {|
  parser := parser c; provider := provider c; manager := v; limits := limits c;
  state := state c; bound_sar_stream_id := bound_sar_stream_id c;
  awaiting_session_init := awaiting_session_init c; peer_capabilities := peer_capabilities c;
  last_valid_activity_ms := last_valid_activity_ms c;
  last_heartbeat_emit_ms := last_heartbeat_emit_ms c;
  current_global_header := current_global_header c;
  quic_pending_bytes := quic_pending_bytes c |}.
(** Assignments to [state], [bound_sar_stream_id] and [awaiting_session_init]. *)
Definition set_binding (c : t) (s : TransportStreamState.t) (b : option Z) (w : bool) : t := {|
  parser := parser c; provider := provider c; manager := manager c; limits := limits c;
  state := s; bound_sar_stream_id := b;
  awaiting_session_init := w; peer_capabilities := peer_capabilities c;
  last_valid_activity_ms := last_valid_activity_ms c;
  last_heartbeat_emit_ms := last_heartbeat_emit_ms c;
  current_global_header := current_global_header c;
  quic_pending_bytes := quic_pending_bytes c |}.
Definition set_state (c : t) (s : TransportStreamState.t) : t :=
  set_binding c s (bound_sar_stream_id c) (awaiting_session_init c).
Definition set_peer_capabilities (c : t) (v : Z) : t := {|
  parser := parser c; provider := provider c; manager := manager c; limits := limits c;
  state := state c; bound_sar_stream_id := bound_sar_stream_id c;
  awaiting_session_init := awaiting_session_init c; peer_capabilities := v;
  last_valid_activity_ms := last_valid_activity_ms c;
  last_heartbeat_emit_ms := last_heartbeat_emit_ms c;
  current_global_header := current_global_header c;
  quic_pending_bytes := quic_pending_bytes c |}.
(** Assignments to the two times. *)
Definition set_times (c : t) (activity heartbeat : option Z) : t := {|
  parser := parser c; provider := provider c; manager := manager c; limits := limits c;
  state := state c; bound_sar_stream_id := bound_sar_stream_id c;
  awaiting_session_init := awaiting_session_init c; peer_capabilities := peer_capabilities c;
  last_valid_activity_ms := activity; last_heartbeat_emit_ms := heartbeat;
  current_global_header := current_global_header c;
  quic_pending_bytes := quic_pending_bytes c |}.
Definition set_header (c : t) (v : option Format.GlobalHeader) : t := {|
  parser := parser c; provider := provider c; manager := manager c; limits := limits c;
  state := state c; bound_sar_stream_id := bound_sar_stream_id c;
  awaiting_session_init := awaiting_session_init c; peer_capabilities := peer_capabilities c;
  last_valid_activity_ms := last_valid_activity_ms c;
  last_heartbeat_emit_ms := last_heartbeat_emit_ms c;
  current_global_header := v; quic_pending_bytes := quic_pending_bytes c |}.
Definition set_pending (c : t) (v : list byte) : t := {|
  parser := parser c; provider := provider c; manager := manager c; limits := limits c;
  state := state c; bound_sar_stream_id := bound_sar_stream_id c;
  awaiting_session_init := awaiting_session_init c; peer_capabilities := peer_capabilities c;
  last_valid_activity_ms := last_valid_activity_ms c;
  last_heartbeat_emit_ms := last_heartbeat_emit_ms c;
  current_global_header := current_global_header c; quic_pending_bytes := v |}.

(** [struct ArcKeyProvider]: every method delegates. *)
Definition ArcKeyProvider (kp : Kms.KeyProvider) : Kms.KeyProvider := {|
  Kms.password_for := λ context, Kms.password_for (KeyProvider := kp) context;
  Kms.unwrap_key := λ context wrapped, Kms.unwrap_key (KeyProvider := kp) context wrapped;
  Kms.external_key := λ context, Kms.external_key (KeyProvider := kp) context |}.

(** The limits and the configurations that [new] builds: the default limits but for the
    number of sessions. *)
Import Limits.
Definition context_limits (config : TransportConfig.t) : ResourceLimits := {|
  max_archive_size := max_archive_size default_limits;
  max_entry_count := max_entry_count default_limits;
  max_lfh_header_bytes := max_lfh_header_bytes default_limits;
  max_path_bytes := max_path_bytes default_limits;
  max_global_flags_bytes := max_global_flags_bytes default_limits;
  max_kms_payload_bytes := max_kms_payload_bytes default_limits;
  max_tlv_bytes := max_tlv_bytes default_limits; max_tlv_count := max_tlv_count default_limits;
  max_cd_bytes := max_cd_bytes default_limits;
  max_decoded_entry_size := max_decoded_entry_size default_limits;
  max_in_memory_buffer := max_in_memory_buffer default_limits;
  max_total_pipeline_memory := max_total_pipeline_memory default_limits;
  max_sparse_map_bytes := max_sparse_map_bytes default_limits;
  max_sparse_descriptors := max_sparse_descriptors default_limits;
  max_fragment_count := max_fragment_count default_limits;
  max_fragment_group_span := max_fragment_group_span default_limits;
  max_loss_tolerant_gap := max_loss_tolerant_gap default_limits;
  max_active_streams := TransportConfig.max_active_sar_streams config;
  max_session_metadata_bytes := max_session_metadata_bytes default_limits;
  max_session_status_message_bytes := max_session_status_message_bytes default_limits;
  max_session_fragment_buffer_bytes := max_session_fragment_buffer_bytes default_limits;
  max_session_memory_bytes := max_session_memory_bytes default_limits;
  max_fec_value_bytes := max_fec_value_bytes default_limits;
  max_recovery_protected_range := max_recovery_protected_range default_limits;
  max_repair_working_set := max_repair_working_set default_limits;
  max_cdc_chunk_count := max_cdc_chunk_count default_limits;
  max_cdc_metadata_bytes := max_cdc_metadata_bytes default_limits;
  max_bsdiff_control_bytes := max_bsdiff_control_bytes default_limits;
  max_bsdiff_diff_bytes := max_bsdiff_diff_bytes default_limits;
  max_bsdiff_extra_bytes := max_bsdiff_extra_bytes default_limits;
  max_bsdiff_control_triples := max_bsdiff_control_triples default_limits;
  max_vcdiff_window_count := max_vcdiff_window_count default_limits;
  max_vcdiff_instruction_count := max_vcdiff_instruction_count default_limits;
  max_vcdiff_output_size := max_vcdiff_output_size default_limits;
  use_runtime_memory_budget := use_runtime_memory_budget default_limits |}.
Definition manager_config (config : TransportConfig.t) : Session.SessionManagerConfig := {|
  Session.limits := context_limits config;
  Session.local_capabilities :=
    if TransportConfig.bidirectional_control config
    then Z.lor CapabilityFlags.SESSION_ACK CapabilityFlags.SESSION_STATUS
    else CapabilityFlags.NONE;
  Session.support_resume := false |}.
Definition parser_options (l : Limits.ResourceLimits) : EntryDecode.ArchiveReaderOptions :=
  {| EntryDecode.limits := l; EntryDecode.delta_base := None |}.

(** [TransportStreamContext::new]. *)
Definition new (config : TransportConfig.t) (key_provider : option Kms.KeyProvider) : t := {|
  parser := StreamParser.with_options; provider := ArcKeyProvider <$> key_provider;
  manager := Session.new (manager_config config); limits := context_limits config;
  state := TransportStreamState.Idle; bound_sar_stream_id := None;
  awaiting_session_init := false; peer_capabilities := CapabilityFlags.NONE;
  last_valid_activity_ms := None; last_heartbeat_emit_ms := None;
  current_global_header := None; quic_pending_bytes := [] |}.
End TransportStreamContext.

Module Transport.
Import Limits TransportConfig TransportAction TransportStreamState.

(** [enum TransportBindingKind] and the private [enum PolicyMode]. *)
Inductive TransportBindingKind : Set := KindTcp | KindQuic | KindInMemory.
(** [TcpPolicy::binding_kind] and [QuicPolicy::binding_kind]. *)
Definition tcp_policy_kind : TransportBindingKind := KindTcp.
Definition quic_policy_kind : TransportBindingKind := KindQuic.
Inductive PolicyMode : Set := Tcp | Quic.
#[global] Instance policy_eq_dec : EqDecision PolicyMode.
Proof. solve_decision. Defined.

(** [struct InMemoryTransport]. *)
Record InMemoryTransport := {
  config : TransportConfig.t; policy : PolicyMode;
  streams : gmap Z TransportStreamContext.t;
  active_sar_streams : gmap Z Z;
  active_session_uuids : gmap Z (list byte);
  active_global_headers : gmap Z Format.GlobalHeader;
  control_stream_attachments : gmap Z Z;
  rejected_sar_stream_ids : gset Z;
  connection_last_activity_ms : option Z;
  tls_exporter_bound : gset Z;
  key_provider : option Kms.KeyProvider }.

Definition set_streams (s : InMemoryTransport) (v : gmap Z TransportStreamContext.t)
    : InMemoryTransport := {|
  config := config s; policy := policy s; streams := v;
  active_sar_streams := active_sar_streams s; active_session_uuids := active_session_uuids s;
  active_global_headers := active_global_headers s;
  control_stream_attachments := control_stream_attachments s;
  rejected_sar_stream_ids := rejected_sar_stream_ids s;
  connection_last_activity_ms := connection_last_activity_ms s;
  tls_exporter_bound := tls_exporter_bound s; key_provider := key_provider s |}.
(** Assignments to the tables of sessions. *)
Definition set_tables (s : InMemoryTransport) (active : gmap Z Z) (uuids : gmap Z (list byte))
    (headers : gmap Z Format.GlobalHeader) (attachments : gmap Z Z) (tls : gset Z)
    : InMemoryTransport := {|
  config := config s; policy := policy s; streams := streams s;
  active_sar_streams := active; active_session_uuids := uuids;
  active_global_headers := headers; control_stream_attachments := attachments;
  rejected_sar_stream_ids := rejected_sar_stream_ids s;
  connection_last_activity_ms := connection_last_activity_ms s;
  tls_exporter_bound := tls; key_provider := key_provider s |}.
Definition set_rejected (s : InMemoryTransport) (v : gset Z) : InMemoryTransport := {|
  config := config s; policy := policy s; streams := streams s;
  active_sar_streams := active_sar_streams s; active_session_uuids := active_session_uuids s;
  active_global_headers := active_global_headers s;
  control_stream_attachments := control_stream_attachments s;
  rejected_sar_stream_ids := v; connection_last_activity_ms := connection_last_activity_ms s;
  tls_exporter_bound := tls_exporter_bound s; key_provider := key_provider s |}.
Definition set_activity (s : InMemoryTransport) (v : option Z) : InMemoryTransport := {|
  config := config s; policy := policy s; streams := streams s;
  active_sar_streams := active_sar_streams s; active_session_uuids := active_session_uuids s;
  active_global_headers := active_global_headers s;
  control_stream_attachments := control_stream_attachments s;
  rejected_sar_stream_ids := rejected_sar_stream_ids s; connection_last_activity_ms := v;
  tls_exporter_bound := tls_exporter_bound s; key_provider := key_provider s |}.
(** [with_key_provider]. *)
Definition with_key_provider (s : InMemoryTransport) (kp : Kms.KeyProvider)
    : InMemoryTransport := {|
  config := config s; policy := policy s; streams := streams s;
  active_sar_streams := active_sar_streams s; active_session_uuids := active_session_uuids s;
  active_global_headers := active_global_headers s;
  control_stream_attachments := control_stream_attachments s;
  rejected_sar_stream_ids := rejected_sar_stream_ids s;
  connection_last_activity_ms := connection_last_activity_ms s;
  tls_exporter_bound := tls_exporter_bound s; key_provider := Some kp |}.

(** [new_tcp] and [new_quic]. *)
Definition new_transport (mode : PolicyMode) (c : TransportConfig.t) : InMemoryTransport := {|
  config := c; policy := mode; streams := ∅; active_sar_streams := ∅;
  active_session_uuids := ∅; active_global_headers := ∅; control_stream_attachments := ∅;
  rejected_sar_stream_ids := ∅; connection_last_activity_ms := None;
  tls_exporter_bound := ∅; key_provider := None |}.
Definition new_tcp : TransportConfig.t → InMemoryTransport := new_transport Tcp.
Definition new_quic : TransportConfig.t → InMemoryTransport := new_transport Quic.

(** ** Queries *)
Definition policy_kind (s : InMemoryTransport) : TransportBindingKind :=
  match policy s with Tcp => KindTcp | Quic => KindQuic end.
Definition is_running (c : TransportStreamContext.t) : bool :=
  negb (is_over (TransportStreamContext.state c)).
Definition active_transport_stream_count (s : InMemoryTransport) : Z :=
  Z.of_nat (size (filter (λ kv, is_running kv.2 = true) (streams s))).
Definition active_sar_stream_count (s : InMemoryTransport) : Z :=
  Z.of_nat (size (active_sar_streams s)).
Definition is_sar_stream_bound (s : InMemoryTransport) (id : Z) : bool :=
  bool_decide (is_Some (active_sar_streams s !! id)).
Definition is_tls_exporter_bound (s : InMemoryTransport) (id : Z) : bool :=
  bool_decide (id ∈ tls_exporter_bound s).
Definition session_uuid_for (s : InMemoryTransport) (id : Z) : option (list byte) :=
  active_session_uuids s !! id.
Definition is_control_stream (s : InMemoryTransport) (ts : Z) : bool :=
  bool_decide (is_Some (control_stream_attachments s !! ts)).
Definition control_sar_stream_id (s : InMemoryTransport) (ts : Z) : option Z :=
  control_stream_attachments s !! ts.
Definition transport_stream_state (s : InMemoryTransport) (ts : Z)
    : option TransportStreamState.t :=
  TransportStreamContext.state <$> streams s !! ts.
(** [control_stream_attachments.values().filter(|sid| sid == id).count()]. *)
Definition control_count (s : InMemoryTransport) (id : Z) : Z :=
  Z.of_nat (size (filter (λ kv, kv.2 = id) (control_stream_attachments s))).

(** ** The connection and the actions of one operation *)
Record Conn := { transport : InMemoryTransport; actions : list TransportAction.t }.
Definition M (A : Type) : Type := Conn → Conn * result SarError.t A.
#[export] Instance conn_ret : MRet M := λ A a c, (c, Ok a).
#[export] Instance conn_bind : MBind M := λ A B f p c,
  match p c with
  | (c, Ok a) => f a c
  | (c, Err e) => (c, Err e)
  | (c, Panic) => (c, Panic)
  end.
Definition lift {A} (r : result SarError.t A) : M A := λ c, (c, r).
Definition throw {A} (e : SarError.t) : M A := λ c, (c, Err e).
Definition self : M InMemoryTransport := λ c, (c, Ok (transport c)).
Definition emitted : M (list TransportAction.t) := λ c, (c, Ok (actions c)).
Definition modify (f : InMemoryTransport → InMemoryTransport) : M unit :=
  λ c, ({| transport := f (transport c); actions := actions c |}, Ok ()).
Definition emit (a : TransportAction.t) : M unit :=
  λ c, ({| transport := transport c; actions := actions c ++ [a] |}, Ok ()).
Definition when_ (b : bool) (p : M unit) : M unit := if b then p else mret ().

(** [if let Some(context) = self.streams.get_mut(&ts) { .. }]. *)
Definition update_context (ts : Z) (f : TransportStreamContext.t → TransportStreamContext.t)
    : M unit :=
  modify (λ s, set_streams s (alter f ts (streams s))).
(** [self.streams.get_mut(&ts).ok_or(NotFound)?]. *)
Definition context_of (ts : Z) : M TransportStreamContext.t :=
  s ← self; lift (ok_or (streams s !! ts) (SarError.NotFound "unknown transport stream")).

(** An operation of the binding: it starts without actions and returns those it collected. *)
Definition run (p : M unit) (s : InMemoryTransport)
    : InMemoryTransport * result SarError.t (list TransportAction.t) :=
  let '(c, r) := p {| transport := s; actions := [] |} in
  (transport c, _ ← r; Ok (actions c)).

(** ** Actions *)
Definition push_action (action : TransportAction.t) : M unit :=
  s ← self; acts ← emitted;
  if len acts >=? max_pending_actions (config s)
  then throw (SarError.LimitExceeded "transport pending action limit exceeded")
  else emit action.
Definition count_status_ack_actions (acts : list TransportAction.t) : Z :=
  len (filter (λ a, is_status_ack a = true) acts).
Definition maybe_emit_status_action (sar_stream_id : Z) (status : SarStatus.t)
    (ref_sequence : Z) (message : string) : M unit :=
  s ← self; acts ← emitted;
  if negb (bidirectional_control (config s)) then mret ()
  else if count_status_ack_actions acts >=? max_status_ack_actions (config s)
  then throw (SarError.LimitExceeded "transport status/ack action limit exceeded")
  else push_action (EmitSessionStatus sar_stream_id {|
         Frames.status_ref_sequence := ref_sequence; Frames.status := status;
         Frames.message := String.list_byte_of_string message |}).
Definition error_from_status (status : SarStatus.t) : SarError.t :=
  match status with
  | SarStatus.ErrTooManyStreams => SarError.TooManyStreams "transport policy rejection"
  | SarStatus.ErrFlagConflict => SarError.FlagConflict "transport policy rejection"
  | SarStatus.ErrTimeout => SarError.Timeout "transport policy rejection"
  | SarStatus.ErrLimitExceeded => SarError.LimitExceeded "transport policy rejection"
  | _ => SarError.StreamState "transport policy rejection"
  end.

(** The [find_map] of [reject_stream_with_policy] over the actions, last first. *)
Fixpoint last_rejection (acts : list TransportAction.t) : option SarStatus.t :=
  match acts with
  | [] => None
  | a :: acts =>
      match last_rejection acts with
      | Some st => Some st
      | None => match a with RejectSarStream _ e => Some (SarError.status e) | _ => None end
      end
  end.
Definition reject_stream_with_policy (ts : Z) (sar_stream_id : option Z) (error : SarError.t)
    (ref_sequence : Z) : M unit :=
  s ← self;
  _ ← match sar_stream_id with
      | Some id =>
          if (Z.of_nat (size (rejected_sar_stream_ids s)) >=? max_rejected_stream_ids (config s))
             && negb (bool_decide (id ∈ rejected_sar_stream_ids s))
          then throw (SarError.LimitExceeded "transport rejected stream tracking limit exceeded")
          else modify (λ s, set_rejected s ({[id]} ∪ rejected_sar_stream_ids s))
      | None => mret ()
      end;
  _ ← push_action (RejectSarStream ts error);
  acts ← emitted;
  let status := default SarStatus.ErrStreamState (last_rejection acts) in
  _ ← match sar_stream_id with
      | Some id =>
          maybe_emit_status_action id status ref_sequence "stream rejected by transport policy"
      | None => mret ()
      end;
  match policy s with
  | Tcp =>
      _ ← push_action (DiscardBytes ts);
      _ ← push_action (CloseConnection (error_from_status status));
      update_context ts (λ c, TransportStreamContext.set_state c Rejected)
  | Quic =>
      _ ← push_action (ResetTransportStream ts (error_from_status status));
      update_context ts (λ c, TransportStreamContext.set_state c Reset)
  end.
Definition policy_error_actions (ts : Z) (error : SarError.t) : M unit :=
  s ← self;
  let current_sar := c ← streams s !! ts; TransportStreamContext.bound_sar_stream_id c in
  reject_stream_with_policy ts current_sar error 0.

(** ** Session results *)

(** The loop over [result.actions]. *)
Fixpoint emit_acks (ts : Z) (acts : list SessionEvent.SessionAction) : M unit :=
  match acts with
  | [] => mret ()
  | SessionEvent.EmitAck stream_id frame :: acts =>
      s ← self; out ← emitted;
      let wanted := bidirectional_control (config s)
        && from_option (λ c, CapabilityFlags.supports_session_ack
                               (TransportStreamContext.peer_capabilities c))
             false (streams s !! ts) in
      _ ← when_ wanted
            (if count_status_ack_actions out >=? max_status_ack_actions (config s)
             then throw (SarError.LimitExceeded "transport status/ack action limit exceeded")
             else push_action (EmitSessionAck stream_id frame));
      emit_acks ts acts
  end.

(** Entering a new binding in the tables. *)
Definition bind_tables (s : InMemoryTransport) (ts id : Z) (uuid : list byte)
    : InMemoryTransport :=
  let header := c ← streams s !! ts; TransportStreamContext.current_global_header c in
  set_tables s (<[id := ts]> (active_sar_streams s)) (<[id := uuid]> (active_session_uuids s))
    (match header with
     | Some h => <[id := h]> (active_global_headers s)
     | None => active_global_headers s
     end)
    (control_stream_attachments s)
    (match header with
     | Some h =>
         if from_option (λ k, Format.mode_id k =? Crypto.KMS_TLS_EXPORTER) false (Format.kms h)
         then {[id]} ∪ tls_exporter_bound s else tls_exporter_bound s
     | None => tls_exporter_bound s
     end).
(** The event [SessionActivated]. *)
Definition handle_activated (ts seq id : Z) (uuid : list byte) (flags : Z) : M unit :=
  s ← self;
  if id =? 0 then
    reject_stream_with_policy ts (Some id) (SarError.StreamState "stream id 0 cannot be bound") seq
  else if bool_decide (is_Some (active_sar_streams s !! id)) then
    reject_stream_with_policy ts (Some id)
      (SarError.StreamState "duplicate active SAR Stream ID") seq
  else if Z.of_nat (size (active_sar_streams s)) >=? max_active_sar_streams (config s) then
    reject_stream_with_policy ts (Some id)
      (SarError.TooManyStreams "too many active SAR streams") seq
  else if strict_validation (config s) && SessionFlags.bidirectional_stream_required flags
          && negb (bidirectional_stream (config s)) then
    reject_stream_with_policy ts (Some id)
      (SarError.FlagConflict "bidirectional stream required but unsupported") seq
  else if strict_validation (config s) && SessionFlags.bidirectional_control_required flags
          && negb (bidirectional_control (config s)) then
    reject_stream_with_policy ts (Some id)
      (SarError.FlagConflict "bidirectional control required but unsupported") seq
  else
    _ ← modify (λ s, bind_tables s ts id uuid);
    _ ← update_context ts (λ c, TransportStreamContext.set_binding c Active (Some id) false);
    push_action (BindSarStream ts id uuid).

(** Removing a session: [headers] says whether its global header goes too. *)
Definition unbind_tables (s : InMemoryTransport) (id : Z) (headers : bool) : InMemoryTransport :=
  set_tables s (delete id (active_sar_streams s)) (delete id (active_session_uuids s))
    (if headers then delete id (active_global_headers s) else active_global_headers s)
    (filter (λ kv, kv.2 ≠ id) (control_stream_attachments s))
    (tls_exporter_bound s ∖ {[id]}).
(** The event [SessionClosed]. *)
Definition handle_closed (ts id : Z) : M unit :=
  _ ← modify (λ s, unbind_tables s id true);
  update_context ts (λ c,
    TransportStreamContext.set_binding c Closing None
      (TransportStreamContext.awaiting_session_init c)).

(** The loop over [result.events]; [close_stream] is its local variable. *)
Fixpoint handle_events (ts seq : Z) (close_stream : option (option Z))
    (evs : list SessionEvent.t) : M (option (option Z)) :=
  match evs with
  | [] => mret close_stream
  | ev :: evs =>
      close_stream ←
        match ev with
        | SessionEvent.SessionActivated id uuid flags =>
            _ ← handle_activated ts seq id uuid flags; mret close_stream
        | SessionEvent.SessionClosed id _ => _ ← handle_closed ts id; mret (Some (Some id))
        | SessionEvent.CapabilitiesUpdated _ frame =>
            _ ← update_context ts (λ c,
                  TransportStreamContext.set_peer_capabilities c (Frames.capability_flags frame));
            mret close_stream
        | SessionEvent.Warning _ status _ =>
            _ ← push_action (Warning status); mret close_stream
        | SessionEvent.StatefulInactive id _ _ =>
            s ← self;
            _ ← when_ (from_option TransportStreamContext.awaiting_session_init false
                         (streams s !! ts))
                  (reject_stream_with_policy ts (Some id)
                     (SarError.StreamState "global header not followed by valid SESSION_INIT")
                     seq);
            mret close_stream
        | SessionEvent.Status _ _ | SessionEvent.Ack _ _ | SessionEvent.MetadataUpdated _ _
        | SessionEvent.SessionResumed _ _ | SessionEvent.Heartbeat _ _
        | SessionEvent.Filesystem _ => mret close_stream
        end;
      handle_events ts seq close_stream evs
  end.
Definition process_session_result (ts : Z) (result : SessionEvent.ProcessResult)
    (header_sequence : Z) : M unit :=
  _ ← emit_acks ts (SessionEvent.actions result);
  close_stream ← handle_events ts header_sequence None (SessionEvent.events result);
  match close_stream with
  | Some sar_stream_id =>
      _ ← push_action (StreamClosed ts sar_stream_id);
      update_context ts (λ c, TransportStreamContext.set_state c AwaitingGlobalHeader)
  | None => mret ()
  end.

(** ** Time *)
(** [if let Some(now) = now_ms { .. }] of the two loops. *)
Definition note_activity (ts : Z) (now_ms : option Z) : M unit :=
  match now_ms with
  | Some now =>
      _ ← update_context ts (λ c, TransportStreamContext.set_times c (Some now)
                                    (TransportStreamContext.last_heartbeat_emit_ms c));
      modify (λ s, set_activity s (Some now))
  | None => mret ()
  end.
Definition record_valid_activity (ts now_ms : Z) : M unit :=
  _ ← context_of ts; note_activity ts (Some now_ms).
Definition check_inactivity (s : InMemoryTransport) (now_ms : Z)
    : result SarError.t (list TransportAction.t) :=
  match connection_last_activity_ms s with
  | Some last =>
      if saturating_sub now_ms last >? inactivity_timeout_ms (config s)
      then Err (SarError.Timeout "transport inactivity watchdog expired") else Ok []
  | None => Ok []
  end.
Definition maybe_emit_heartbeat (ts now_ms : Z) : M unit :=
  context ← context_of ts; s ← self;
  match TransportStreamContext.bound_sar_stream_id context with
  | None => mret ()
  | Some sar_stream_id =>
      let last := default 0 (TransportStreamContext.last_heartbeat_emit_ms context) in
      if saturating_sub now_ms last <? heartbeat_min_interval_ms (config s) then mret () else
      match TransportStreamContext.last_valid_activity_ms context with
      | None => mret ()
      | Some last_activity =>
          if saturating_sub now_ms last_activity <? heartbeat_required_interval_ms (config s)
          then mret () else
          _ ← update_context ts (λ c, TransportStreamContext.set_times c
                (TransportStreamContext.last_valid_activity_ms c) (Some now_ms));
          emit (EmitHeartbeat sar_stream_id)
      end
  end.

Section binding.
Context {B : Bitflags} {Comp : Compression.Compressors} {Ciph : Crypto.Ciphers} {K : Kms.Kdfs}.
Context (oc : bool).

(** Processing an entry with the manager of the context. *)
Definition process_with (ts : Z) (c : TransportStreamContext.t) (e : Session.SessionEntry)
    : M (result SarError.t SessionEvent.ProcessResult) :=
  let '(m, r) := Session.process_entry e (TransportStreamContext.manager c) in
  _ ← update_context ts (λ c, TransportStreamContext.set_manager c m);
  match r with Panic => lift Panic | _ => mret r end.

(** ** Additional control streams *)

Definition additional_control_header_size (bytes : list byte) : option Z :=
  if 4 <=? len bytes then try_from 64 (le_val (take 4 bytes)) else None.

Definition validate_additional_control_entry (bidirectional_control : bool)
    (attached_sar_stream_id : Z) (entry : Session.SessionEntry) : result SarError.t unit :=
  if negb (Session.stream_id entry =? attached_sar_stream_id) then
    Err (SarError.StreamState
           "additional control stream Stream ID does not match attached SAR session")
  else if negb (EntryMode.is_session_control (Session.entry_mode entry)) then
    Err (SarError.StreamState
           "filesystem entries are not permitted on additional QUIC control streams")
  else
    op ← SessionOpCode.try_from (Session.op_code entry);
    match op with
    | SessionOpCode.Init =>
        Err (SarError.StreamState
               "SESSION_INIT is not permitted on an additional QUIC control stream")
    | SessionOpCode.Ack | SessionOpCode.Status | SessionOpCode.Capabilities =>
        if bidirectional_control then Ok ()
        else Err (SarError.StreamState
               "bidirectional control is unavailable for additional QUIC control streams")
    | _ =>
        Err (SarError.StreamState
               "session-control opcode is not permitted on an additional QUIC control stream")
    end.

Definition build_kms_context_for_additional_control (active_header : Format.GlobalHeader)
    : result SarError.t Kms.KmsContext :=
  kms ← ok_or (Format.kms active_header)
          (SarError.Internal "tls_exporter_bound session missing KMS data");
  if negb (Format.mode_id kms =? Crypto.KMS_TLS_EXPORTER) then
    Err (SarError.Internal "unexpected KMS mode in tls_exporter_bound session")
  else
    tls_params ← map_err (λ _, SarError.AuthFailed
                    "failed to parse TLS_EXPORTER KMS payload for AEAD")
                  (Kms.parse_tls_exporter_kms_payload (Format.kms_payload kms));
    Ok {| Kms.mode_id := Format.mode_id kms; Kms.params := Kms.TlsExporter tls_params |}.

Definition decrypt_additional_control_payload (kp : Kms.KeyProvider)
    (active_header : Format.GlobalHeader) (lfh : Lfh.LocalFileHeader)
    (lfh_bytes ciphertext : list byte) : result SarError.t (list byte) :=
  encr_algo_id ← ok_or (Lfh.encr_algo_id lfh)
    (SarError.AuthFailed "ENCRYPTED additional control entry missing encr_algo_id");
  iv_nonce ← ok_or (Lfh.iv_nonce lfh)
    (SarError.AuthFailed "ENCRYPTED additional control entry missing iv_nonce");
  kms_context ← build_kms_context_for_additional_control active_header;
  cek ← map_err (λ _, SarError.AuthFailed
           "CEK resolution failed for additional control stream AEAD")
          (Kms.resolve_cek kp kms_context);
  let global_flags_section := Format.global_header_flags_bytes active_header in
  let aad := Crypto.build_aead_aad global_flags_section lfh_bytes in
  map_err (λ _, SarError.AuthFailed "AEAD authentication failed on additional control stream")
    (Crypto.aead_decrypt encr_algo_id cek iv_nonce aad ciphertext).

(** [enum ControlLoopEvent]. *)
Inductive ControlLoopEvent :=
  | ControlNeedMore
  | ControlSessionResult (sequence_no : Z) (result : result SarError.t SessionEvent.ProcessResult)
  | ControlParserError (e : SarError.t).
(** A [match] whose [Err] arm is [ControlParserError]. *)
Definition or_control_error {A} (r : result SarError.t A) (k : A → M ControlLoopEvent)
    : M ControlLoopEvent :=
  match r with Ok a => k a | Err e => mret (ControlParserError e) | Panic => lift Panic end.

(** The payload that is handed to the session manager. *)
Definition control_plaintext (s : InMemoryTransport) (sar_stream_id : Z)
    (active_header : Format.GlobalHeader) (lfh_bytes : list byte) (entry : Session.SessionEntry)
    : result SarError.t (list byte) :=
  if bool_decide (sar_stream_id ∈ tls_exporter_bound s)
     && EntryMode.is_encrypted (Session.entry_mode entry) then
    match key_provider s with
    | None => Err (SarError.AuthFailed "no key provider for additional control stream AEAD decryption")
    | Some kp =>
        decrypt_additional_control_payload kp active_header (Session.header entry) lfh_bytes
          (Session.payload entry)
    end
  else Ok (Session.payload entry).

(** The block once a whole entry is buffered. *)
Definition control_entry_event (ts : Z) (now_ms : option Z) (s : InMemoryTransport)
    (sar_stream_id : Z) (active_header : Format.GlobalHeader) (context : TransportStreamContext.t)
    (lfh : Lfh.LocalFileHeader) (lfh_bytes payload : list byte) (total_size : Z)
    : M ControlLoopEvent :=
  let entry := {| Session.header := lfh; Session.payload := payload;
                  Session.degraded := false |} in
  or_control_error (validate_additional_control_entry (bidirectional_control (config s))
                      sar_stream_id entry) (λ _,
  if bool_decide (sar_stream_id ∈ tls_exporter_bound s)
     && negb (EntryMode.is_encrypted (Lfh.entry_mode lfh)) then
    mret (ControlParserError (SarError.AuthFailed
      "TLS_EXPORTER binding active: unencrypted additional control stream entry rejected"))
  else
    or_control_error (control_plaintext s sar_stream_id active_header lfh_bytes entry)
      (λ plaintext,
        _ ← update_context ts (λ c, TransportStreamContext.set_pending c
              (drop (Z.to_nat total_size) (TransportStreamContext.quic_pending_bytes c)));
        _ ← note_activity ts now_ms;
        result ← process_with ts context {| Session.header := lfh; Session.payload := plaintext;
                                            Session.degraded := false |};
        mret (ControlSessionResult (Lfh.sequence_no lfh) result))).

(** The block [let loop_event = { .. }]. *)
Definition control_event (ts : Z) (now_ms : option Z) : M ControlLoopEvent :=
  s ← self;
  sar_stream_id ← lift (ok_or (control_stream_attachments s !! ts)
    (SarError.Internal "additional control stream loop missing attachment"));
  active_header ← lift (ok_or (active_global_headers s !! sar_stream_id)
    (SarError.Internal "additional control stream missing active global header"));
  context ← context_of ts;
  let pending := TransportStreamContext.quic_pending_bytes context in
  let limits := TransportStreamContext.limits context in
  if len pending <? 4 then mret ControlNeedMore else
  match additional_control_header_size pending with
  | None => mret (ControlParserError (SarError.Overflow "LFH header size"))
  | Some header_size =>
      or_control_error (check_lfh_header_bytes limits header_size) (λ _,
      if len pending <? header_size then mret ControlNeedMore else
      lfh_bytes ← lift (slice_r pending 0 header_size);
      or_control_error (Lfh.parse_lfh lfh_bytes (Format.flags active_header) limits) (λ '(lfh, _),
      match try_from 64 (Lfh.payload_size lfh) with
      | None => mret (ControlParserError (SarError.Overflow "additional control payload size"))
      | Some payload_size =>
          match checked_add 64 header_size payload_size with
          | None => mret (ControlParserError (SarError.Overflow "additional control entry size"))
          | Some total_size =>
              if len pending <? total_size then mret ControlNeedMore else
              payload ← lift (slice_r pending header_size total_size);
              control_entry_event ts now_ms s sar_stream_id active_header context lfh lfh_bytes
                payload total_size
          end
      end))
  end.

(** The loop of [run_additional_control_stream_loop]; running out of fuel is [Panic]. *)
Fixpoint control_loop (fuel : nat) (ts : Z) (now_ms : option Z) : M unit :=
  match fuel with
  | O => lift Panic
  | S fuel =>
      ev ← control_event ts now_ms;
      match ev with
      | ControlNeedMore => mret ()
      | ControlSessionResult sequence_no (Ok result) =>
          _ ← process_session_result ts result sequence_no; control_loop fuel ts now_ms
      | ControlSessionResult _ (Err err) => policy_error_actions ts err
      | ControlSessionResult _ Panic => lift Panic
      | ControlParserError err => policy_error_actions ts err
      end
  end.
(** Every entry takes a byte at least. *)
Definition run_additional_control_stream_loop (ts : Z) (now_ms : option Z) : M unit :=
  s ← self;
  let pending := from_option TransportStreamContext.quic_pending_bytes [] (streams s !! ts) in
  control_loop (S (length pending)) ts now_ms.

(** ** Primary streams *)

(** [enum LoopEvent]. *)
Inductive LoopEvent :=
  | NeedMore | Complete | Continue
  | SessionResult (sequence_no : Z) (result : result SarError.t SessionEvent.ProcessResult)
  | ParserError (e : SarError.t).

(** [observe_global_header] and the state behind it. *)
Definition observe_header (ts : Z) (c : TransportStreamContext.t) (header : Format.GlobalHeader)
    (awaiting : bool) : M LoopEvent :=
  let '(m, r) := Session.observe_global_header header (TransportStreamContext.manager c) in
  _ ← update_context ts (λ c, TransportStreamContext.set_manager c m);
  match r with
  | Err err => mret (ParserError err)
  | Panic => lift Panic
  | Ok _ =>
      _ ← update_context ts (λ c, TransportStreamContext.set_binding c AwaitingSessionInit
                                    (TransportStreamContext.bound_sar_stream_id c) awaiting);
      mret Continue
  end.

(** The arm of a global header. *)
Definition header_event (ts : Z) (c : TransportStreamContext.t) (is_control : bool)
    (header : Format.GlobalHeader) : M LoopEvent :=
  s ← self;
  _ ← update_context ts (λ c, TransportStreamContext.set_header c (Some header));
  match policy s with
  | Tcp =>
      match Format.kms header with
      | Some kms =>
          if Format.mode_id kms =? Crypto.KMS_TLS_EXPORTER then
            mret (ParserError (SarError.Unsupported
              "KMS_TLS_EXPORTER is not supported over plaintext TCP"))
          else observe_header ts c header true
      | None => observe_header ts c header true
      end
  | Quic => observe_header ts c header (negb is_control)
  end.

(** The arm of an entry. *)
Definition entry_event (ts : Z) (now_ms : option Z) (c : TransportStreamContext.t)
    (entry : EntryDecode.EntryReader) : M LoopEvent :=
  s ← self;
  _ ← note_activity ts now_ms;
  let lfh := EntryDecode.header entry in
  let plaintext_after_binding :=
    match TransportStreamContext.bound_sar_stream_id c with
    | Some sar_stream_id =>
        bool_decide (sar_stream_id ∈ tls_exporter_bound s)
        && negb (EntryMode.is_encrypted (Lfh.entry_mode lfh))
    | None => false
    end in
  if plaintext_after_binding then
    mret (ParserError (SarError.AuthFailed
      "TLS_EXPORTER binding active: unencrypted SAR entry rejected post-binding"))
  else
    result ← process_with ts c {| Session.header := lfh;
               Session.payload := EntryDecode.payload entry; Session.degraded := false |};
    mret (SessionResult (Lfh.sequence_no lfh) result).

(** The block [let step_event = { .. }]. *)
Definition feed_event (ts : Z) (now_ms : option Z) : M LoopEvent :=
  s ← self;
  let is_additional_control_stream := is_control_stream s ts in
  c ← context_of ts;
  let '(p, r) := StreamParser.step oc
                   (TransportStreamContext.parser_options (TransportStreamContext.limits c))
                   (TransportStreamContext.provider c) (TransportStreamContext.parser c) in
  _ ← update_context ts (λ c, TransportStreamContext.set_parser c p);
  match r with
  | Ok (StreamParser.NeedMore _) => mret NeedMore
  | Ok StreamParser.Complete => mret Complete
  | Ok (StreamParser.Ready (StreamParser.EvGlobalHeader header)) =>
      header_event ts c is_additional_control_stream header
  | Ok (StreamParser.Ready (StreamParser.EvEntry entry)) => entry_event ts now_ms c entry
  | Ok (StreamParser.Ready (StreamParser.EvArchiveComplete _)) =>
      _ ← update_context ts (λ c,
            TransportStreamContext.set_binding
              (TransportStreamContext.set_manager c
                 (Session.archive_complete (TransportStreamContext.manager c)))
              AwaitingGlobalHeader (TransportStreamContext.bound_sar_stream_id c) false);
      mret Continue
  | Err err => mret (ParserError err)
  | Panic => lift Panic
  end.

(** The loop of [run_feed_loop]; running out of fuel is [Panic]. *)
Fixpoint feed_loop (fuel : nat) (ts : Z) (now_ms : option Z) : M unit :=
  match fuel with
  | O => lift Panic
  | S fuel =>
      ev ← feed_event ts now_ms;
      match ev with
      | NeedMore | Complete => mret ()
      | Continue => feed_loop fuel ts now_ms
      | SessionResult sequence_no (Ok result) =>
          _ ← process_session_result ts result sequence_no; feed_loop fuel ts now_ms
      | SessionResult _ (Err err) => policy_error_actions ts err
      | SessionResult _ Panic => lift Panic
      | ParserError err => policy_error_actions ts err
      end
  end.
(** Every event of the parser lowers its measure. *)
Definition run_feed_loop (ts : Z) (now_ms : option Z) : M unit :=
  s ← self;
  let w := from_option (λ c, StreamParser.weight (TransportStreamContext.parser c)) 0
             (streams s !! ts) in
  feed_loop (S (Z.to_nat w)) ts now_ms.

(** [context.parser.push_bytes(bytes)]. *)
Definition push_parser (ts : Z) (c : TransportStreamContext.t) (bytes : list byte)
    : M (result SarError.t unit) :=
  let '(p, r) := StreamParser.push_bytes
                   (TransportStreamContext.parser_options (TransportStreamContext.limits c))
                   (TransportStreamContext.parser c) bytes in
  _ ← update_context ts (λ c, TransportStreamContext.set_parser c p);
  match r with Panic => lift Panic | _ => mret r end.

(** ** The operations of the binding *)

Definition ensure_tcp_not_interleaved (s : InMemoryTransport) : result SarError.t unit :=
  match policy s with
  | Quic => Ok ()
  | Tcp =>
      if active_transport_stream_count s >? 1
      then Err (SarError.StreamState "TCP policy forbids concurrent transport streams")
      else Ok ()
  end.

Definition open_transport_stream (ts : Z) : M unit :=
  s ← self;
  if bool_decide (is_Some (streams s !! ts))
  then throw (SarError.StreamState "transport stream id already exists") else
  if active_transport_stream_count s >=? max_active_transport_streams (config s)
  then throw (SarError.TooManyStreams "too many active transport streams for connection") else
  _ ← modify (λ s, set_streams s
        (<[ts := TransportStreamContext.new (config s) (key_provider s)]> (streams s)));
  _ ← update_context ts (λ c, TransportStreamContext.set_state c AwaitingGlobalHeader);
  _ ← push_action (AcceptTransportStream ts);
  s ← self;
  match ensure_tcp_not_interleaved s with
  | Ok _ => mret ()
  | Err err => policy_error_actions ts err
  | Panic => lift Panic
  end.

(** [pending.starts_with(..)] and the bytes [CTL!]. *)
Definition starts_with (bytes magic : list byte) : bool :=
  bool_decide (take (length magic) bytes = magic).
Definition CTL_MAGIC : list byte := [x43; x54; x4c; x21].

(** A new additional control stream: its first entry names a bound SAR stream. *)
Definition attach_control_stream (ts : Z) (now_ms : option Z) (sar_stream_id : Z) : M unit :=
  _ ← modify (λ s, set_tables s (active_sar_streams s) (active_session_uuids s)
        (active_global_headers s) (<[ts := sar_stream_id]> (control_stream_attachments s))
        (tls_exporter_bound s));
  _ ← update_context ts (λ c,
        TransportStreamContext.set_binding c Active (Some sar_stream_id) false);
  s ← self;
  header ← lift (ok_or (active_global_headers s !! sar_stream_id)
    (SarError.Internal "active global header missing"));
  c ← context_of ts;
  let '(m, r) := Session.observe_global_header header (TransportStreamContext.manager c) in
  _ ← update_context ts (λ c, TransportStreamContext.set_manager c m);
  _ ← lift r;
  _ ← push_action (AttachControlStream ts sar_stream_id);
  run_additional_control_stream_loop ts now_ms.

(** A QUIC stream whose kind is not known yet. *)
Definition feed_unidentified (ts : Z) (now_ms : option Z) (bytes : list byte) : M unit :=
  _ ← update_context ts (λ c, TransportStreamContext.set_pending c
        (TransportStreamContext.quic_pending_bytes c ++ bytes));
  c ← context_of ts;
  let pending := TransportStreamContext.quic_pending_bytes c in
  if len pending <? 4 then mret () else
  if starts_with pending StreamParser.SAR_MAGIC then
    pushed ← push_parser ts c pending;
    match pushed with
    | Ok _ =>
        _ ← update_context ts (λ c, TransportStreamContext.set_pending c []);
        run_feed_loop ts now_ms
    | Err err => policy_error_actions ts err
    | Panic => lift Panic
    end
  else if starts_with pending CTL_MAGIC then policy_error_actions ts SarError.InvalidMagic
  else if len pending <? 8 then mret ()
  else
    mode ← lift (slice_r pending 4 6);
    id ← lift (slice_r pending 6 8);
    let entry_mode := le_val mode in
    let sar_stream_id := le_val id in
    s ← self;
    if negb (EntryMode.is_session_control entry_mode)
    then policy_error_actions ts SarError.InvalidMagic
    else if negb (is_sar_stream_bound s sar_stream_id) then
      policy_error_actions ts (SarError.StreamState
        "additional control stream references unknown SAR Stream ID")
    else if control_count s sar_stream_id >=? max_control_streams_per_sar_session (config s) then
      policy_error_actions ts (SarError.LimitExceeded "too many control streams for SAR session")
    else attach_control_stream ts now_ms sar_stream_id.

(** The normal path of [feed_bytes]. *)
Definition feed_primary (ts : Z) (now_ms : option Z) (bytes : list byte) : M unit :=
  c ← context_of ts;
  if is_over (TransportStreamContext.state c)
  then throw (SarError.StreamClosed "cannot feed bytes to closed/reset/rejected transport stream")
  else
  pushed ← push_parser ts c bytes;
  _ ← lift pushed;
  run_feed_loop ts now_ms.

Definition feed_bytes (ts : Z) (bytes : list byte) (now_ms : option Z) : M unit :=
  s ← self;
  if len bytes >? max_buffered_bytes_per_transport_stream (config s)
  then throw (SarError.LimitExceeded "feed bytes exceed configured per-stream buffer bound") else
  match policy s with
  | Tcp => feed_primary ts now_ms bytes
  | Quic =>
      c ← context_of ts;
      if is_control_stream s ts then
        _ ← update_context ts (λ c, TransportStreamContext.set_pending c
              (TransportStreamContext.quic_pending_bytes c ++ bytes));
        run_additional_control_stream_loop ts now_ms
      else if bool_decide (TransportStreamContext.state c = AwaitingGlobalHeader)
      then feed_unidentified ts now_ms bytes
      else feed_primary ts now_ms bytes
  end.

(** The part that [close_transport_stream] and [reset_transport_stream] share: the SAR
    stream is unbound unless the transport stream is a control attachment, and the stream
    enters its last state. *)
Definition detach_stream (ts : Z) (last : TransportStreamState.t) : M (option Z) :=
  c ← context_of ts;
  s ← self;
  let detached := TransportStreamContext.bound_sar_stream_id c in
  _ ← match detached with
      | Some id => when_ (negb (is_control_stream s ts)) (modify (λ s, unbind_tables s id false))
      | None => mret ()
      end;
  _ ← modify (λ s, set_tables s (active_sar_streams s) (active_session_uuids s)
        (active_global_headers s) (delete ts (control_stream_attachments s))
        (tls_exporter_bound s));
  _ ← update_context ts (λ c, TransportStreamContext.set_state c last);
  mret detached.
Definition close_transport_stream (ts : Z) : M unit :=
  detached ← detach_stream ts Closed;
  push_action (StreamClosed ts detached).
Definition reset_transport_stream (ts : Z) (reason : SarError.t) : M unit :=
  detached ← detach_stream ts Reset;
  _ ← push_action (ResetTransportStream ts reason);
  push_action (StreamClosed ts detached).

End binding.

(** ** The interface and the harness *)

(** [trait SarTransportBinding]. *)
Class SarTransportBinding (T : Type) := {
  binding_kind : T → TransportBindingKind;
  binding_open : Z → T → T * result SarError.t (list TransportAction.t);
  binding_feed : Z → list byte → option Z → T → T * result SarError.t (list TransportAction.t);
  binding_close : Z → T → T * result SarError.t (list TransportAction.t);
  binding_reset : Z → SarError.t → T → T * result SarError.t (list TransportAction.t) }.

Section harness.
Context {B : Bitflags} {Comp : Compression.Compressors} {Ciph : Crypto.Ciphers} {K : Kms.Kdfs}.
Context (oc : bool).

Definition in_memory_binding : SarTransportBinding InMemoryTransport := {|
  binding_kind := λ _, KindInMemory;
  binding_open := λ ts, run (open_transport_stream ts);
  binding_feed := λ ts bytes now_ms, run (feed_bytes oc ts bytes now_ms);
  binding_close := λ ts, run (close_transport_stream ts);
  binding_reset := λ ts reason, run (reset_transport_stream ts reason) |}.

(** [struct TransportHarness]. *)
Record TransportHarness := { binding : InMemoryTransport; collected : list TransportAction.t }.
Definition harness (mode : PolicyMode) (c : TransportConfig.t) : TransportHarness :=
  {| binding := new_transport mode c; collected := [] |}.
(** [let actions = self.binding.op(..)?; self.actions.extend(actions); Ok(())]. *)
Definition collect (op : InMemoryTransport → InMemoryTransport
      * result SarError.t (list TransportAction.t)) (h : TransportHarness)
    : TransportHarness * result SarError.t unit :=
  match op (binding h) with
  | (s, Ok acts) => ({| binding := s; collected := collected h ++ acts |}, Ok ())
  | (s, Err e) => ({| binding := s; collected := collected h |}, Err e)
  | (s, Panic) => ({| binding := s; collected := collected h |}, Panic)
  end.
Definition harness_open (ts : Z) := collect (run (open_transport_stream ts)).
Definition harness_feed (ts : Z) (bytes : list byte) (now_ms : option Z) :=
  collect (run (feed_bytes oc ts bytes now_ms)).
Fixpoint harness_feed_chunks (ts : Z) (chunks : list (list byte)) (now_ms : option Z)
    (h : TransportHarness) : TransportHarness * result SarError.t unit :=
  match chunks with
  | [] => (h, Ok ())
  | chunk :: chunks =>
      match harness_feed ts chunk now_ms h with
      | (h, Ok _) => harness_feed_chunks ts chunks now_ms h
      | (h, r) => (h, r)
      end
  end.
Definition harness_close (ts : Z) := collect (run (close_transport_stream ts)).
Definition harness_reset (ts : Z) (reason : SarError.t) :=
  collect (run (reset_transport_stream ts reason)).
Definition harness_check_inactivity (now_ms : Z) :=
  collect (λ s, (s, check_inactivity s now_ms)).
Definition harness_heartbeat (ts now_ms : Z) := collect (run (maybe_emit_heartbeat ts now_ms)).
Definition drain_actions (h : TransportHarness) : TransportHarness * list TransportAction.t :=
  ({| binding := binding h; collected := [] |}, collected h).
End harness.

End Transport.
