(* ===== verification/TransportSafety.v ===== *)
(** * The transport binding: invariant and safety

    Proofs about [Transport.v]: the invariant of a connection, that every operation keeps it
    and returns without a panic, that the operations on one transport stream leave the
    others alone, that the actions an operation returns account for every change of the
    bindings, and the limits.  The operations are computations of the monad of
    [Transport.v]; [runs] is their program logic, indexed by the relation between the
    connection before and after. *)

From stdpp Require Import gmap.
From S2P Require Import Prelude Errors Limits Flags Cursor Format Lfh Reads Crypto Kms Transform Metadata EntryDecode StreamProtocol Session StreamParser Transport.

Module TransportSafety.
Import Limits Transport TransportConfig TransportAction TransportStreamState.
Module Ctx := TransportStreamContext.

(** ** The invariant *)

(** The configuration: the counts are unsigned. *)
Record config_typed (cfg : TransportConfig.t) : Prop := {
  typed_sar : fits 64 (max_active_sar_streams cfg);
  typed_streams : fits 64 (max_active_transport_streams cfg);
  typed_actions : fits 64 (max_pending_actions cfg);
  typed_acks : fits 64 (max_status_ack_actions cfg);
  typed_rejected : fits 64 (max_rejected_stream_ids cfg);
  typed_control : fits 64 (max_control_streams_per_sar_session cfg) }.

Section invariant.
Context {B : Bitflags} {Comp : Compression.Compressors} {Ciph : Crypto.Ciphers} {K : Kms.Kdfs}.

(** The context of a transport stream: the parser is in a state the streaming parser can
    reach, within the limit on the archive size, the session manager is sound, and the
    header of the archive being parsed is the current one. *)
Record context_ok (cfg : TransportConfig.t) (c : Ctx.t) : Prop := {
  ctx_limits : Ctx.limits c = Ctx.context_limits cfg;
  ctx_provider : EntryDecode.provider_total (Ctx.provider c);
  ctx_input : StreamParser.input_ok (Ctx.parser c);
  ctx_size : StreamParser.absolute_offset (Ctx.parser c)
               + len (StreamParser.rest (Ctx.parser c))
             ≤ max_archive_size default_limits;
  ctx_open : StreamParser.finalized (Ctx.parser c) = false;
  ctx_parser : StreamParser.parser_inv (Ctx.parser_options (Ctx.limits c)) (Ctx.parser c);
  ctx_manager : Session.manager_ok (Ctx.manager c);
  ctx_config : Session.config (Ctx.manager c) = Ctx.manager_config cfg;
  ctx_header : ∀ h, StreamParser.open_header (Ctx.parser c) = Some h →
                 Ctx.current_global_header c = Some h }.

(** The header of a session under [KMS_TLS_EXPORTER]. *)
Definition tls_header (h : Format.GlobalHeader) : Prop :=
  ∃ k, Format.kms h = Some k ∧ Format.mode_id k = Crypto.KMS_TLS_EXPORTER.

(** The connection: every context is sound; the bound SAR streams are within the limit,
    none has the id 0, and each belongs to a transport stream, has a session UUID and the
    global header of its session; the TLS-exporter bindings and the control attachments
    are those of bound streams. *)
Record wired (s : InMemoryTransport) : Prop := {
  ok_contexts : map_Forall (λ _, context_ok (config s)) (streams s);
  ok_active : Z.of_nat (size (active_sar_streams s)) ≤ max_active_sar_streams (config s);
  ok_zero : active_sar_streams s !! 0 = None;
  ok_owner : ∀ id ts, active_sar_streams s !! id = Some ts → is_Some (streams s !! ts);
  ok_uuids : ∀ id, is_Some (active_sar_streams s !! id) ↔ is_Some (active_session_uuids s !! id);
  ok_uuid_len : map_Forall (λ _ u, len u = 16) (active_session_uuids s);
  ok_headers : ∀ id, is_Some (active_sar_streams s !! id) →
                 is_Some (active_global_headers s !! id);
  ok_tls : ∀ id, id ∈ tls_exporter_bound s →
             is_Some (active_sar_streams s !! id)
             ∧ ∃ h, active_global_headers s !! id = Some h ∧ tls_header h;
  ok_attached : ∀ ts id, control_stream_attachments s !! ts = Some id →
                  is_Some (active_sar_streams s !! id) ∧ is_Some (streams s !! ts);
  ok_control : ∀ id, control_count s id ≤ max_control_streams_per_sar_session (config s);
  ok_rejected : Z.of_nat (size (rejected_sar_stream_ids s)) ≤ max_rejected_stream_ids (config s);
  ok_keys : EntryDecode.provider_total (key_provider s);
  ok_config : config_typed (config s) }.

(** The actions of one operation stay within the limits. *)
Definition within_limits (cfg : TransportConfig.t) (acts : list TransportAction.t) : Prop :=
  len acts ≤ max_pending_actions cfg ∧ count_status_ack_actions acts ≤ max_status_ack_actions cfg.
Definition conn_ok (c : Conn) : Prop :=
  wired (transport c) ∧ within_limits (config (transport c)) (actions c).
End invariant.

(** ** Relations between a connection before and after *)

(** An operation on the transport stream [ts]: it keeps the configuration and the contexts
    of the other streams, binds and attaches nothing to them, and forgets no stream; where
    [attach] it may make [ts] a control stream. *)
Record touches (attach : bool) (ts : Z) (c c' : Conn) : Prop := {
  touch_config : config (transport c') = config (transport c);
  touch_policy : policy (transport c') = policy (transport c);
  touch_keys : key_provider (transport c') = key_provider (transport c);
  touch_others : ∀ k, k ≠ ts → streams (transport c') !! k = streams (transport c) !! k;
  touch_keeps : is_Some (streams (transport c) !! ts) → is_Some (streams (transport c') !! ts);
  touch_bind : ∀ id k, active_sar_streams (transport c') !! id = Some k →
                 k = ts ∨ active_sar_streams (transport c) !! id = Some k;
  touch_attach : ∀ k id, control_stream_attachments (transport c') !! k = Some id →
                   control_stream_attachments (transport c) !! k = Some id
                   ∨ attach = true ∧ k = ts }.
#[global] Instance touches_preorder attach ts : PreOrder (touches attach ts).
Proof.
  split; [by split; auto|]. intros c1 c2 c3 [] []. split; try congruence; auto.
  - intros k Hk. rewrite touch_others1, touch_others0; done.
  - intros id k [->|H]%touch_bind1; [by left|]. by apply touch_bind0.
  - intros k id [H|H]%touch_attach1; [|by right]. by apply touch_attach0.
Qed.
Lemma touches_weaken attach ts c c' : touches false ts c c' → touches attach ts c c'.
Proof. intros []. split; auto. intros k id [H|[? _]]%touch_attach0; [by left|done]. Qed.
(** The stream is not a control stream. *)
Definition unattached (ts : Z) (c : Conn) : Prop :=
  control_stream_attachments (transport c) !! ts = None.
Lemma unattached_kept ts c c' : touches false ts c c' → unattached ts c → unattached ts c'.
Proof.
  intros Ht Hu. unfold unattached. destruct (_ !! ts) as [id|] eqn:E; [|done].
  apply (touch_attach _ _ _ _ Ht) in E as [E|[? _]]; [|done]. unfold unattached in Hu. congruence.
Qed.

(** The parts of a context that only the parser and the session manager change. *)
Definition same_core (c c' : Ctx.t) : Prop :=
  Ctx.parser c' = Ctx.parser c ∧ Ctx.provider c' = Ctx.provider c
  ∧ Ctx.manager c' = Ctx.manager c ∧ Ctx.limits c' = Ctx.limits c
  ∧ Ctx.current_global_header c' = Ctx.current_global_header c
  ∧ Ctx.quic_pending_bytes c' = Ctx.quic_pending_bytes c.
Definition core (ts : Z) (c c' : Conn) : Prop :=
  ∀ x, streams (transport c) !! ts = Some x →
    ∃ x', streams (transport c') !! ts = Some x' ∧ same_core x x'.
#[global] Instance core_preorder ts : PreOrder (core ts).
Proof.
  split; [intros c x Hx; by exists x|]. intros c1 c2 c3 H1 H2 x Hx.
  destruct (H1 x Hx) as (x' & Hx' & E1). destruct (H2 x' Hx') as (x'' & Hx'' & E2).
  exists x''. split; [done|]. unfold same_core in *. naive_solver congruence.
Qed.

(** Actions that neither bind, nor attach, nor close. *)
Definition neutral (a : TransportAction.t) : Prop :=
  match a with
  | BindSarStream _ _ _ | AttachControlStream _ _ | StreamClosed _ _ => False
  | _ => True
  end.
Definition over (ts : Z) (c : Conn) : Prop :=
  ∀ x, streams (transport c) !! ts = Some x → is_over (Ctx.state x) = true.
(** The tables stay as they are, only neutral actions are added, and a stream that is over
    stays over. *)
Record still (ts : Z) (c c' : Conn) : Prop := {
  still_active : active_sar_streams (transport c') = active_sar_streams (transport c);
  still_uuids : active_session_uuids (transport c') = active_session_uuids (transport c);
  still_headers : active_global_headers (transport c') = active_global_headers (transport c);
  still_attached :
    control_stream_attachments (transport c') = control_stream_attachments (transport c);
  still_tls : tls_exporter_bound (transport c') = tls_exporter_bound (transport c);
  still_log : ∃ new, actions c' = actions c ++ new ∧ Forall neutral new;
  still_over : over ts c → over ts c' }.
#[global] Instance still_preorder ts : PreOrder (still ts).
Proof.
  split; [intros c; split; try done; exists []; by rewrite app_nil_r|].
  intros c1 c2 c3 [] []. split; try congruence; [|auto].
  destruct still_log0 as (n1 & E1 & F1), still_log1 as (n2 & E2 & F2).
  exists (n1 ++ n2). rewrite E2, E1, app_assoc. split; [done|by apply Forall_app].
Qed.

Definition over_kept (ts : Z) (c c' : Conn) : Prop := over ts c → over ts c'.
#[global] Instance over_kept_preorder ts : PreOrder (over_kept ts).
Proof. split; [by intros c ?|]. intros c1 c2 c3 H1 H2 H. by apply H2, H1. Qed.
Definition both {A} (R1 R2 : relation A) : relation A := λ x y, R1 x y ∧ R2 x y.
#[global] Instance both_preorder {A} (R1 R2 : relation A) :
  PreOrder R1 → PreOrder R2 → PreOrder (both R1 R2).
Proof.
  split; [by split|]. intros x y z [] []. split; by etrans.
Qed.
(** A relation that is reflexive and transitive, for the logic below. *)
Record rel := Rel { holds :> Conn → Conn → Prop; rel_preorder :: PreOrder holds }.
(** What every operation on a stream does, what the handlers of session results do, what
    the neutral ones do, and what an additional control stream does. *)
Definition local (ts : Z) : rel := Rel (touches true ts) _.
Definition plain (ts : Z) : rel := Rel (touches false ts) _.
Definition quiet (ts : Z) : rel := Rel (both (touches false ts) (core ts)) _.
Definition calm (ts : Z) : rel := Rel (both (both (touches false ts) (core ts)) (still ts)) _.
Definition steady (ts : Z) : rel := Rel (both (touches false ts) (still ts)) _.
(** What closing and resetting do. *)
Definition ending (ts : Z) : rel := Rel (both (touches false ts) (over_kept ts)) _.

Lemma calm_quiet ts c c' : calm ts c c' → quiet ts c c'.
Proof. by intros []. Qed.
Lemma calm_steady ts c c' : calm ts c c' → steady ts c c'.
Proof. by intros [[] ?]. Qed.
Lemma quiet_plain ts c c' : quiet ts c c' → plain ts c c'.
Proof. by intros []. Qed.
Lemma steady_plain ts c c' : steady ts c c' → plain ts c c'.
Proof. by intros []. Qed.
(** *** The bindings and attachments as the actions tell them *)
Definition mirror : Type := gmap Z Z * gmap Z Z.
Definition apply_action (σ : mirror) (a : TransportAction.t) : mirror :=
  let '(bound, attached) := σ in
  match a with
  | BindSarStream ts id _ => (<[id := ts]> bound, attached)
  | AttachControlStream ts id => (bound, <[ts := id]> attached)
  | StreamClosed ts detached =>
      match attached !! ts, detached with
      | Some _, _ => (bound, delete ts attached)
      | None, Some id => (delete id bound, filter (λ kv, kv.2 ≠ id) attached)
      | None, None => σ
      end
  | _ => σ
  end.
Definition replay (acts : list TransportAction.t) (σ : mirror) : mirror :=
  foldl apply_action σ acts.
Definition mirror_of (s : InMemoryTransport) : mirror :=
  (active_sar_streams s, control_stream_attachments s).
(** The actions added between [c] and [c'] account for the change of the tables. *)
Definition logged (c c' : Conn) : Prop :=
  ∃ new, actions c' = actions c ++ new
    ∧ mirror_of (transport c') = replay new (mirror_of (transport c)).
Lemma replay_neutral acts σ : Forall neutral acts → replay acts σ = σ.
Proof.
  intros H. revert σ. induction H as [|a acts Ha _ IH]; intros [b t]; [done|]. unfold replay in *.
  cbn [foldl]. rewrite IH. by destruct a.
Qed.
#[global] Instance logged_preorder : PreOrder logged.
Proof.
  split; [intros c; exists []; by rewrite app_nil_r|].
  intros c1 c2 c3 (n1 & E1 & A1) (n2 & E2 & A2). exists (n1 ++ n2).
  rewrite E2, E1, app_assoc. split; [done|]. rewrite A2, A1. unfold replay. by rewrite foldl_app.
Qed.
Lemma still_logged ts c c' : still ts c c' → logged c c'.
Proof.
  intros []. destruct still_log0 as (new & E & Hn). exists new. split; [done|].
  rewrite replay_neutral by done. unfold mirror_of. by f_equal.
Qed.

(** ** A logic of operations *)
Definition updated (ts : Z) (f : Ctx.t → Ctx.t) (c : Conn) : Conn := {|
  transport := set_streams (transport c) (alter f ts (streams (transport c)));
  actions := actions c |}.
Definition pushed (a : TransportAction.t) (c : Conn) : Conn :=
  {| transport := transport c; actions := actions c ++ [a] |}.

Lemma updated_touches ts f c : touches false ts c (updated ts f c).
Proof.
  split; cbn; try done; [|intros [x Hx]|auto|auto].
  - intros k Hk. by rewrite lookup_alter_ne.
  - rewrite lookup_alter_eq, Hx. by eexists.
Qed.
Lemma updated_core ts f c : (∀ x, same_core x (f x)) → core ts c (updated ts f c).
Proof. intros Hf x Hx. exists (f x). cbn. by rewrite lookup_alter_eq, Hx. Qed.
Lemma updated_still ts f c :
  (∀ x, is_over (Ctx.state x) = true → is_over (Ctx.state (f x)) = true) →
  still ts c (updated ts f c).
Proof.
  intros Hf. split; try done; [exists []; by rewrite app_nil_r|].
  intros Hov x. cbn. rewrite lookup_alter_eq, fmap_Some. intros (y & Hy & ->). by apply Hf, Hov.
Qed.
Lemma pushed_touches ts a c : touches false ts c (pushed a c).
Proof. split; cbn; auto. Qed.
Lemma pushed_core ts a c : core ts c (pushed a c).
Proof. intros x Hx. by exists x. Qed.
Lemma pushed_still ts a c : neutral a → still ts c (pushed a c).
Proof. intros Ha. split; try done. exists [a]. by repeat constructor. Qed.
Lemma pushed_calm ts a c : neutral a → calm ts c (pushed a c).
Proof.
  split; [split|]; [apply pushed_touches|apply pushed_core|by apply pushed_still].
Qed.
Lemma pushed_quiet ts a c : quiet ts c (pushed a c).
Proof. split; [apply pushed_touches|apply pushed_core]. Qed.

Lemma count_app a b :
  count_status_ack_actions (a ++ b) = count_status_ack_actions a + count_status_ack_actions b.
Proof. unfold count_status_ack_actions. by rewrite filter_app, len_app. Qed.

Section logic.
Context {B : Bitflags} {Comp : Compression.Compressors} {Ciph : Crypto.Ciphers} {K : Kms.Kdfs}.

Lemma context_core cfg x x' : same_core x x' → context_ok cfg x → context_ok cfg x'.
Proof.
  intros (E1 & E2 & E3 & E4 & E5 & E6) Hx. destruct x, x'. cbn in *. subst.
  destruct Hx. by split.
Qed.
Lemma updated_ok ts f c :
  conn_ok c →
  (∀ x, streams (transport c) !! ts = Some x → context_ok (config (transport c)) (f x)) →
  conn_ok (updated ts f c).
Proof.
  intros [[] Hl] Hf. split; [|done].
  assert (Hsome : ∀ k, is_Some (streams (transport c) !! k) →
    is_Some (alter f ts (streams (transport c)) !! k)).
  { intros k [x Hx]. destruct (decide (k = ts)) as [->|].
    - rewrite lookup_alter_eq, Hx. by eexists.
    - rewrite lookup_alter_ne by done. by eexists. }
  split; cbn; try done.
  - intros k x. destruct (decide (k = ts)) as [->|].
    + rewrite lookup_alter_eq, fmap_Some. intros (y & Hy & ->). by apply Hf.
    + rewrite lookup_alter_ne by done. apply ok_contexts0.
  - intros id k Hk. by eapply Hsome, ok_owner0.
  - intros k id Hk. destruct (ok_attached0 k id Hk) as [? ?]. auto.
Qed.
Lemma updated_core_ok ts f c :
  conn_ok c → (∀ x, same_core x (f x)) → conn_ok (updated ts f c).
Proof.
  intros Hc Hf. apply updated_ok; [done|]. intros x Hx. eapply context_core; [apply Hf|].
  by apply (ok_contexts _ (proj1 Hc) ts).
Qed.

(** From [c] the computation [p] keeps the invariant, ends in a connection related to [c],
    does not panic, and if it succeeds its result satisfies [Q]. *)
Definition runs {A} (R : rel) (p : M A) (c : Conn) (Q : A → Conn → Prop) : Prop :=
  conn_ok (p c).1 ∧ R c (p c).1
  ∧ match (p c).2 with Ok a => Q a (p c).1 | Err _ => True | Panic => False end.

Section rules.
Context (R : rel).

Lemma runs_ret {A} (a : A) c Q : conn_ok c → Q a c → runs R (mret a) c Q.
Proof. intros. by split_and!. Qed.
Lemma runs_throw {A} e c (Q : A → Conn → Prop) : conn_ok c → runs R (throw e) c Q.
Proof. intros. by split_and!. Qed.
Lemma runs_bind {A C} (p : M A) (f : A → M C) c Q Q' :
  runs R p c Q → (∀ a c', conn_ok c' → R c c' → Q a c' → runs R (f a) c' Q') →
  runs R (p ≫= f) c Q'.
Proof.
  intros (Hok & HR & HQ) Hf. unfold runs, mbind, conn_bind.
  destruct (p c) as [c' [a| |]]; cbn in *; [|done..].
  destruct (Hf a c' Hok HR HQ) as (? & ? & ?). split_and!; [done| |done]. by etrans.
Qed.
Lemma runs_mono {A} (R' : rel) (p : M A) c (Q Q' : A → Conn → Prop) :
  runs R' p c Q' → (∀ c', R' c c' → R c c') →
  (∀ a c', conn_ok c' → R' c c' → Q' a c' → Q a c') → runs R p c Q.
Proof.
  intros (Hok & HR & HQ) H1 H2. split_and!; [done|auto|]. destruct (p c).2; auto.
Qed.
Lemma runs_self {A} (f : InMemoryTransport → M A) c Q :
  runs R (f (transport c)) c Q → runs R (self ≫= f) c Q.
Proof. done. Qed.
Lemma runs_emitted {A} (f : list TransportAction.t → M A) c Q :
  runs R (f (actions c)) c Q → runs R (emitted ≫= f) c Q.
Proof. done. Qed.
Lemma runs_lift {A C} (r : result SarError.t A) (f : A → M C) c Q :
  conn_ok c → no_panic r → (∀ a, r = Ok a → runs R (f a) c Q) → runs R (lift r ≫= f) c Q.
Proof.
  intros Hc Hr Hf. destruct r as [a|e|]; [by apply Hf|by split_and!|done].
Qed.
Lemma runs_context {A} ts (f : Ctx.t → M A) c Q :
  conn_ok c → (∀ x, streams (transport c) !! ts = Some x → runs R (f x) c Q) →
  runs R (context_of ts ≫= f) c Q.
Proof.
  intros Hc Hf. unfold context_of, runs, mbind, conn_bind, self, lift.
  destruct (streams (transport c) !! ts) as [x|] eqn:E; cbn; [by apply Hf|by split_and!].
Qed.
Lemma runs_modify {A} g (f : unit → M A) c Q :
  let c' := {| transport := g (transport c); actions := actions c |} in
  R c c' → runs R (f ()) c' Q → runs R (modify g ≫= f) c Q.
Proof.
  intros c' HR (H1 & H2 & H3). unfold runs, mbind, conn_bind, modify.
  split_and!; [done| |done]. by etrans.
Qed.
Lemma runs_update {A} ts g (f : unit → M A) c Q :
  R c (updated ts g c) → runs R (f ()) (updated ts g c) Q →
  runs R (update_context ts g ≫= f) c Q.
Proof. intros. by apply runs_modify. Qed.
Lemma runs_update_last ts g c (Q : unit → Conn → Prop) :
  conn_ok (updated ts g c) → R c (updated ts g c) → Q () (updated ts g c) →
  runs R (update_context ts g) c Q.
Proof. intros. by split_and!. Qed.
Lemma runs_push a c (Q : unit → Conn → Prop) :
  conn_ok c → R c (pushed a c) →
  (is_status_ack a = true →
     count_status_ack_actions (actions c) < max_status_ack_actions (config (transport c))) →
  (conn_ok (pushed a c) → Q () (pushed a c)) → runs R (push_action a) c Q.
Proof.
  intros Hc HR Ha HQ. unfold push_action. apply runs_self, runs_emitted.
  destruct (len (actions c) >=? max_pending_actions (config (transport c))) eqn:E;
    [by apply runs_throw|].
  assert (conn_ok (pushed a c)); [|split; [done|split; [done|by apply HQ]]].
  destruct Hc as [Hw [Hl Hn]]. split; [done|]. split; cbn.
  - rewrite len_app, len_cons, (@len_nil TransportAction.t). lia.
  - rewrite count_app. unfold count_status_ack_actions at 2. rewrite filter_cons.
    destruct (decide (is_status_ack a = true)) as [H|H].
    + specialize (Ha H). rewrite filter_nil, len_cons, (@len_nil TransportAction.t). lia.
    + rewrite filter_nil, (@len_nil TransportAction.t). lia.
Qed.
End rules.

(** *** Rejections *)
Definition rejected_more (id : Z) (c : Conn) : Conn := {|
  transport := set_rejected (transport c) ({[id]} ∪ rejected_sar_stream_ids (transport c));
  actions := actions c |}.
Lemma rejected_calm ts id c : calm ts c (rejected_more id c).
Proof.
  split; [split|]; [by split; auto|by intros x Hx; exists x|].
  split; try done. exists []. by rewrite app_nil_r.
Qed.
Lemma rejected_ok id c :
  conn_ok c →
  (id ∈ rejected_sar_stream_ids (transport c)
   ∨ Z.of_nat (size (rejected_sar_stream_ids (transport c)))
     < max_rejected_stream_ids (config (transport c))) →
  conn_ok (rejected_more id c).
Proof.
  intros [[] Hl] Hid. split; [|done]. split; try done. cbn.
  destruct (decide (id ∈ rejected_sar_stream_ids (transport c))) as [Hin|Hnin].
  - replace ({[id]} ∪ _) with (rejected_sar_stream_ids (transport c)) by set_solver. done.
  - rewrite size_union, size_singleton by set_solver. destruct Hid; [done|lia].
Qed.

Lemma push_calm ts a c :
  conn_ok c → neutral a → is_status_ack a = false →
  runs (calm ts) (push_action a) c (λ _ _, True).
Proof. intros Hc Ha Hs. apply runs_push; [done|by apply pushed_calm|congruence|done]. Qed.
Lemma status_runs ts id st seq msg c :
  conn_ok c → runs (calm ts) (maybe_emit_status_action id st seq msg) c (λ _ _, True).
Proof.
  intros Hc. unfold maybe_emit_status_action. apply runs_self, runs_emitted.
  case_match; [by apply runs_ret|]. case_match eqn:E; [by apply runs_throw|].
  apply runs_push; [done|by apply pushed_calm|intros _; lia|done].
Qed.
Lemma over_updated ts f c :
  (∀ x, is_over (Ctx.state (f x)) = true) → over ts (updated ts f c).
Proof.
  intros Hf x. cbn. rewrite lookup_alter_eq, fmap_Some. by intros (y & _ & ->).
Qed.
Lemma set_state_core x st : same_core x (Ctx.set_state x st).
Proof. done. Qed.
Lemma over_runs ts st c :
  conn_ok c → is_over st = true →
  runs (calm ts) (update_context ts (λ x, Ctx.set_state x st)) c (λ _, over ts).
Proof.
  intros Hc Hst. apply runs_update_last.
  - by apply updated_core_ok.
  - split; [split|]; [apply updated_touches|by apply updated_core|by apply updated_still].
  - by apply over_updated.
Qed.
Lemma reject_runs ts sar err seq c :
  conn_ok c → runs (calm ts) (reject_stream_with_policy ts sar err seq) c (λ _, over ts).
Proof.
  intros Hc. unfold reject_stream_with_policy. apply runs_self.
  eapply (runs_bind _ _ _ _ (λ _ _, True)).
  { destruct sar as [id|]; [|by apply runs_ret]. case_match eqn:E; [by apply runs_throw|].
    assert (conn_ok (rejected_more id c)).
    { apply rejected_ok; [done|]. apply andb_false_iff in E as [E|E]; [right; lia|left].
      by apply negb_false_iff, bool_decide_eq_true in E. }
    by split; [|split; [apply rejected_calm|]]. }
  intros [] c1 Hc1 _ _. eapply (runs_bind _ _ _ _ (λ _ _, True)); [by apply push_calm|].
  intros [] c2 Hc2 _ _. apply runs_emitted. cbv zeta.
  eapply (runs_bind _ _ _ _ (λ _ _, True)).
  { destruct sar as [id|]; [by apply status_runs|by apply runs_ret]. }
  intros [] c3 Hc3 _ _. case_match.
  - do 2 (eapply (runs_bind _ _ _ _ (λ _ _, True)); [by apply push_calm|intros [] ? ? _ _]).
    by apply over_runs.
  - eapply (runs_bind _ _ _ _ (λ _ _, True)); [by apply push_calm|intros [] ? ? _ _].
    by apply over_runs.
Qed.
Lemma policy_error_runs ts err c :
  conn_ok c → runs (calm ts) (policy_error_actions ts err) c (λ _, over ts).
Proof. intros Hc. apply runs_self. by apply reject_runs. Qed.

(** *** The tables of sessions *)
Lemma control_count_mono s s' id :
  control_stream_attachments s' ⊆ control_stream_attachments s →
  control_count s' id ≤ control_count s id.
Proof.
  intros H. unfold control_count. apply inj_le, map_subseteq_size. by apply map_filter_subseteq_mono.
Qed.
Lemma bind_wired s ts id uuid x h :
  wired s → active_sar_streams s !! id = None → id ≠ 0 →
  Z.of_nat (size (active_sar_streams s)) < max_active_sar_streams (config s) →
  len uuid = 16 → streams s !! ts = Some x → Ctx.current_global_header x = Some h →
  wired (bind_tables s ts id uuid).
Proof.
  intros [] Hid H0 Hmax Hu Hx Hh. unfold bind_tables. rewrite Hx. cbn [mbind option_bind].
  rewrite Hh. split; cbn; try done.
  - rewrite map_size_insert_None by done. lia.
  - by rewrite lookup_insert_ne.
  - intros id' k. rewrite lookup_insert_Some. intros [[_ <-]|[_ Hk]]; [by eexists|].
    by apply (ok_owner0 id').
  - intros id'. destruct (decide (id = id')) as [<-|]; [by rewrite !lookup_insert_eq|].
    by rewrite !lookup_insert_ne.
  - by apply map_Forall_insert_2.
  - intros id'. destruct (decide (id = id')) as [<-|]; [by rewrite !lookup_insert_eq|].
    rewrite !lookup_insert_ne by done. apply ok_headers0.
  - intros id' Hin. destruct (decide (id = id')) as [<-|Hne].
    + rewrite !lookup_insert_eq. split; [done|]. exists h. split; [done|].
      assert (Ht : id ∉ tls_exporter_bound s) by (intros [[? ?] _]%ok_tls0; congruence).
      destruct (from_option _ _ _) eqn:Ek; [|done].
      unfold tls_header. destruct (Format.kms h) as [k|]; [|done]. exists k. split; [done|].
      cbn in Ek. lia.
    + rewrite !lookup_insert_ne by done. apply ok_tls0.
      destruct (from_option _ _ _); set_solver.
  - intros k id' Hk. destruct (ok_attached0 k id' Hk) as [? ?]. split; [|done].
    destruct (decide (id = id')) as [<-|]; [by rewrite lookup_insert_eq|].
    by rewrite lookup_insert_ne.
Qed.
Lemma unbind_wired s id b : wired s → wired (unbind_tables s id b).
Proof.
  intros []. unfold unbind_tables. split; cbn; try done.
  - etrans; [apply inj_le, map_subseteq_size, delete_subseteq|done].
  - rewrite lookup_delete_None. by right.
  - intros id' k. rewrite lookup_delete_Some. intros [_ Hk]. by apply (ok_owner0 id').
  - intros id'. destruct (decide (id = id')) as [<-|]; [by rewrite !lookup_delete_eq|].
    by rewrite !lookup_delete_ne.
  - by apply map_Forall_delete.
  - intros id'. destruct (decide (id = id')) as [<-|].
    { rewrite lookup_delete_eq. by intros []. }
    rewrite lookup_delete_ne by done. intros H. destruct b; [rewrite lookup_delete_ne by done|];
      by apply ok_headers0.
  - intros id' [Hin Hne]%elem_of_difference. assert (id ≠ id') by set_solver.
    rewrite lookup_delete_ne by done. destruct (ok_tls0 id' Hin) as [? ?]. split; [done|].
    destruct b; [by rewrite lookup_delete_ne|done].
  - intros k id' [Hk Hne]%map_lookup_filter_Some. cbn in Hne.
    destruct (ok_attached0 k id' Hk). by rewrite lookup_delete_ne.
  - intros id'. etrans; [|apply (ok_control0 id')]. apply control_count_mono, map_filter_subseteq.
Qed.
Lemma attach_wired s att :
  wired s →
  (∀ ts id, att !! ts = Some id →
     is_Some (active_sar_streams s !! id) ∧ is_Some (streams s !! ts)) →
  (∀ id, Z.of_nat (size (filter (λ kv, kv.2 = id) att))
         ≤ max_control_streams_per_sar_session (config s)) →
  wired (set_tables s (active_sar_streams s) (active_session_uuids s) (active_global_headers s)
           att (tls_exporter_bound s)).
Proof. intros [] H1 H2. by split. Qed.

(** *** Session results *)
Lemma runs_when ts b p c :
  conn_ok c → runs (calm ts) p c (λ _ _, True) → runs (calm ts) (when_ b p) c (λ _ _, True).
Proof. intros Hc Hp. destruct b; [done|by apply runs_ret]. Qed.
Lemma acks_runs ts acts c :
  conn_ok c → runs (calm ts) (emit_acks ts acts) c (λ _ _, True).
Proof.
  revert c. induction acts as [|[id fr] acts IH]; intros c Hc; [by apply runs_ret|].
  cbn [emit_acks]. apply runs_self, runs_emitted. cbv zeta.
  eapply (runs_bind _ _ _ _ (λ _ _, True)); [|intros [] c' Hc' _ _; by apply IH].
  apply runs_when; [done|]. case_match eqn:E; [by apply runs_throw|].
  apply runs_push; [done|by apply pushed_calm|intros _; lia|done].
Qed.
Lemma events_runs ts seq evs c :
  conn_ok c → Forall (λ ev, Session.is_binding ev = false) evs →
  runs (calm ts) (handle_events ts seq None evs) c (λ r _, r = None).
Proof.
  intros Hc H. revert c Hc. induction H as [|ev evs Hev _ IH]; intros c Hc; [by apply runs_ret|].
  cbn [handle_events]. eapply (runs_bind _ _ _ _ (λ r _, r = None));
    [|intros ? c' Hc' _ ->; by apply IH].
  destruct ev; try done; try by apply runs_ret.
  - apply runs_self. eapply (runs_bind _ _ _ _ (λ _ _, True)); [|intros; by apply runs_ret].
    apply runs_when; [done|]. eapply runs_mono; [by apply reject_runs|done..].
  - apply runs_update; [|apply runs_ret; [by apply updated_core_ok|done]].
    split; [split|]; [apply updated_touches|by apply updated_core|by apply updated_still].
  - eapply (runs_bind _ _ _ _ (λ _ _, True)); [by apply push_calm|intros; by apply runs_ret].
Qed.
Lemma calm_runs {A} ts (p : M A) c Q :
  runs (calm ts) p c Q → runs (quiet ts) p c (λ a c', Q a c' ∧ logged c c').
Proof.
  intros H. eapply runs_mono; [done|by apply calm_quiet|].
  intros a c' _ [_ Hs] HQ. split; [done|by eapply still_logged].
Qed.
Lemma activated_runs ts seq id uuid flags c x h :
  conn_ok c → len uuid = 16 → streams (transport c) !! ts = Some x →
  Ctx.current_global_header x = Some h →
  runs (quiet ts) (handle_activated ts seq id uuid flags) c (λ _ c', logged c c').
Proof.
  intros Hc Hu Hx Hh. unfold handle_activated. apply runs_self.
  assert (Hrej : ∀ err, runs (quiet ts) (reject_stream_with_policy ts (Some id) err seq) c
    (λ _ c', logged c c')).
  { intros err. eapply runs_mono; [by apply calm_runs, reject_runs|done|]. by intros ? ? _ _ []. }
  case_match eqn:E0; [done|]. case_match eqn:Ed; [done|]. case_match eqn:Em; [done|].
  case_match; [done|]. case_match; [done|].
  apply bool_decide_eq_false, eq_None_not_Some in Ed.
  assert (Hw : wired (bind_tables (transport c) ts id uuid)).
  { apply (bind_wired _ ts id uuid x h); try done; [apply Hc|lia|lia]. }
  apply runs_modify.
  { split; [split; cbn; try done|by intros y Hy; exists y].
    - intros id' k. rewrite lookup_insert_Some. by intros [[_ <-]|[_ ?]]; [left|right].
    - by left. }
  apply runs_update; [split; [apply updated_touches|by apply updated_core]|].
  apply runs_push; [|apply pushed_quiet|done|].
  - apply updated_core_ok; [|done]. split; [done|apply Hc].
  - intros _. exists [BindSarStream ts id uuid]. done.
Qed.
Lemma closed_runs ts uuid seq id acks c :
  conn_ok c → unattached ts c →
  runs (quiet ts) (process_session_result ts
    {| SessionEvent.events := [SessionEvent.SessionClosed id uuid];
       SessionEvent.actions := acks |} seq) c (λ _ c', logged c c').
Proof.
  intros Hc Hua. unfold process_session_result. cbn [SessionEvent.actions SessionEvent.events].
  eapply runs_bind; [by apply calm_runs, acks_runs|]. intros [] c1 Hc1 Hq1 [_ Hl].
  apply (unattached_kept ts c c1 (quiet_plain _ _ _ Hq1)) in Hua.
  cbn [handle_events].
  set (c2 := updated ts (λ x, Ctx.set_binding x Closing None (Ctx.awaiting_session_init x))
    {| transport := unbind_tables (transport c1) id true; actions := actions c1 |}).
  assert (Hc2 : conn_ok c2).
  { apply updated_core_ok; [|done]. split; [apply unbind_wired, Hc1|apply Hc1]. }
  assert (Hq2 : quiet ts c1 c2).
  { etrans; [|split; [apply updated_touches|by apply updated_core]].
    split; [split; cbn; try done|by intros y Hy; exists y].
    - intros id' k. rewrite lookup_delete_Some. intros [_ ?]. by right.
    - intros k id' [? _]%map_lookup_filter_Some. by left. }
  eapply (runs_bind _ _ _ _ (λ r c', r = Some (Some id) ∧ c' = c2));
    [by split; [|split]|].
  intros ? ? _ _ [-> ->].
  eapply (runs_bind _ _ _ _ (λ _ c', c' = pushed (StreamClosed ts (Some id)) c2)).
  { apply runs_push; [done|apply pushed_quiet|done|done]. }
  intros [] c3 Hc3 _ ->. apply runs_update_last.
  - by apply updated_core_ok.
  - split; [apply updated_touches|by apply updated_core].
  - etrans; [exact Hl|]. exists [StreamClosed ts (Some id)]. split; [done|].
    unfold replay, mirror_of. cbn. unfold unattached in Hua. by rewrite Hua.
Qed.
(** A result without binding events is calm. *)
Lemma neutral_runs ts r seq c :
  conn_ok c → Forall (λ ev, Session.is_binding ev = false) (SessionEvent.events r) →
  runs (calm ts) (process_session_result ts r seq) c (λ _ _, True).
Proof.
  intros Hc Hr. unfold process_session_result.
  eapply (runs_bind _ _ _ _ (λ _ _, True)); [by apply acks_runs|]. intros [] c1 Hc1 _ _.
  eapply runs_bind; [by apply events_runs|]. intros ? c2 Hc2 _ ->. by apply runs_ret.
Qed.
Lemma result_runs ts e r seq c :
  conn_ok c → unattached ts c → Session.result_shape e r →
  (Session.opens e = true → ∃ x h, streams (transport c) !! ts = Some x
     ∧ Ctx.current_global_header x = Some h) →
  runs (quiet ts) (process_session_result ts r seq) c (λ _ c', logged c c').
Proof.
  intros Hc Hua Hr Hop. destruct Hr as [uuid fl Ho Hid Hu|uuid acks Hcl|r Hr].
  - destruct (Hop Ho) as (x & h & Hx & Hh). unfold process_session_result.
    cbn [SessionEvent.actions SessionEvent.events emit_acks handle_events].
    eapply (runs_bind _ _ _ _ (λ _ c', c' = c)); [by apply runs_ret|]. intros ? ? _ _ ->.
    eapply (runs_bind _ _ _ _ (λ r c', r = None ∧ logged c c')); [|by intros ? c' ? _ [-> ?]; apply runs_ret].
    eapply (runs_bind _ _ _ _ (λ r c', r = None ∧ logged c c')); [|by intros ? c' ? _ [-> ?]; apply runs_ret].
    eapply runs_bind; [by eapply activated_runs|]. intros [] c' Hc' _ Hl. by apply runs_ret.
  - by apply closed_runs.
  - eapply runs_mono; [by apply calm_runs, neutral_runs|done|]. by intros ? ? _ _ [].
Qed.

(** *** The parser and the manager of a context *)
Lemma options_fit cfg : EntryDecode.options_ok (Ctx.parser_options (Ctx.context_limits cfg)).
Proof. split; [by split|done|done]. Qed.
Lemma step_context cfg x p r :
  context_ok cfg x →
  StreamParser.step false (Ctx.parser_options (Ctx.limits x)) (Ctx.provider x) (Ctx.parser x)
    = (p, r) →
  no_panic r
  ∧ StreamParser.reports (Ctx.parser_options (Ctx.limits x)) (Ctx.parser x) p r
  ∧ match r with
    | Ok (StreamParser.Ready ev) =>
        StreamParser.weight p < StreamParser.weight (Ctx.parser x)
        ∧ match ev with
          | StreamParser.EvGlobalHeader h =>
              context_ok cfg (Ctx.set_header (Ctx.set_parser x p) (Some h))
          | _ => context_ok cfg (Ctx.set_parser x p)
          end
    | _ => context_ok cfg (Ctx.set_parser x p)
    end.
Proof.
  intros Hx Hs. pose proof Hx as [].
  assert (Hopt : EntryDecode.options_ok (Ctx.parser_options (Ctx.limits x)))
    by (rewrite ctx_limits0; apply options_fit).
  destruct (StreamParser.step_safe false _ _ eq_refl Hopt ctx_provider0 _ ctx_input0 ctx_parser0)
    as [Hnp Hinv].
  destruct (StreamParser.step_tracks false _ _ eq_refl Hopt ctx_provider0 _ ctx_input0 ctx_parser0)
    as [L Hrep].
  pose proof (StreamParser.step_progress false (Ctx.parser_options (Ctx.limits x))
    (Ctx.provider x) _ ctx_input0) as Hpr.
  rewrite Hs in *. cbn [fst snd] in *. split; [done|]. split; [done|].
  pose proof L as [Lok Lfin Lrest Ltot].
  assert (Hkeep : ∀ hd, (∀ h, StreamParser.open_header p = Some h → hd = Some h) →
    context_ok cfg (Ctx.set_header (Ctx.set_parser x p) hd)).
  { intros hd Hhd. split; cbn; try done; [by rewrite Ltot|congruence]. }
  assert (Hsame : StreamParser.open_header p = StreamParser.open_header (Ctx.parser x)
      ∨ StreamParser.open_header p = None → context_ok cfg (Ctx.set_parser x p)).
  { intros Hh. replace (Ctx.set_parser x p)
      with (Ctx.set_header (Ctx.set_parser x p) (Ctx.current_global_header x)) by done.
    apply Hkeep. intros h Hp. apply ctx_header0. destruct Hh; congruence. }
  destruct r as [[m|ev|]| |]; cbn in Hrep; try by apply Hsame.
  destruct ev as [h|e|su]; split; try apply Hpr.
  - apply Hkeep. congruence.
  - apply Hsame. left. apply Hrep.
  - by apply Hsame.
Qed.
Lemma manager_typed cfg : config_typed cfg → Session.config_typed (Ctx.manager_config cfg).
Proof. intros []. split; [done|by split]. Qed.
Lemma manager_context cfg x e m r :
  config_typed cfg → context_ok cfg x → Session.entry_typed e →
  Session.process_entry e (Ctx.manager x) = (m, r) →
  no_panic r ∧ ∀ y, context_ok cfg y → context_ok cfg (Ctx.set_manager y m).
Proof.
  intros Hcfg [] He Hp.
  assert (Ho : Session.outcome (Ctx.manager x) e m r).
  { apply Session.process_entry_outcome; try done. rewrite ctx_config0. by apply manager_typed. }
  split; [by destruct Ho|]. apply Session.outcome_ok in Ho as [Hok Hc]; [|done..].
  intros y []. split; try done. cbn. congruence.
Qed.
Lemma observe_context cfg x h m r :
  context_ok cfg x → Session.observe_global_header h (Ctx.manager x) = (m, r) →
  no_panic r ∧ ∀ y, context_ok cfg y → context_ok cfg (Ctx.set_manager y m).
Proof.
  intros [] Hp. unfold Session.observe_global_header, mbind, Session.M_bind, Session.lift in Hp.
  assert (Hnp : no_panic (validate_global_flags (Format.flags h))) by auto with no_panic.
  unfold Session.modify in Hp.
  assert (Hm : no_panic r ∧ Session.manager_ok m
    ∧ Session.config m = Session.config (Ctx.manager x)).
  { destruct (validate_global_flags _); injection Hp as <- <-; (split; [done|split; [|done]]);
      try done. destruct ctx_manager0. by split. }
  destruct Hm as (Hr & Hok & Hc). split; [done|]. intros y []. split; try done. cbn. congruence.
Qed.
Lemma complete_context cfg x :
  context_ok cfg x → context_ok cfg (Ctx.set_manager x (Session.archive_complete (Ctx.manager x))).
Proof. intros []. split; try done. destruct ctx_manager0. by split. Qed.

Lemma parsed_typed input flags limits lfh n :
  Lfh.parse_lfh input flags limits = Ok (lfh, n) →
  fits 16 (Lfh.stream_id lfh) ∧ fits 16 (Lfh.sequence_no lfh)
  ∧ (∀ bs, Lfh.iv_nonce lfh = Some bs → len bs = 24) ∧ 0 ≤ Lfh.payload_size lfh.
Proof.
  intros ((Hf & _) & _)%Lfh.parse_lfh_inv.
  destruct Hf as (_ & _ & _ & Hs & Hq & _ & Hp & _ & _ & _ & _ & _ & _ & _ & _ & Hn & _).
  split; [done|]. split; [done|]. split.
  - intros bs Hbs. rewrite Hbs in Hn. by destruct Hn.
  - apply Format.size_wf_u64 in Hp. apply Hp.
Qed.
Lemma updated_twice ts f g c : updated ts f (updated ts g c) = updated ts (f ∘ g) c.
Proof. unfold updated. cbn. by rewrite alter_alter_eq. Qed.
Lemma updated_lookup ts f c x :
  streams (transport c) !! ts = Some x → streams (transport (updated ts f c)) !! ts = Some (f x).
Proof. intros Hx. cbn. by rewrite lookup_alter_eq, Hx. Qed.

Lemma note_runs ts now c : conn_ok c → runs (calm ts) (note_activity ts now) c (λ _ _, True).
Proof.
  intros Hc. destruct now as [t|]; [|by apply runs_ret]. unfold note_activity.
  apply runs_update.
  { split; [split|]; [apply updated_touches|by apply updated_core|by apply updated_still]. }
  set (f := λ x, Ctx.set_times x (Some t) (Ctx.last_heartbeat_emit_ms x)).
  assert (H1 : conn_ok (updated ts f c)) by (by apply updated_core_ok).
  destruct H1 as [[] Hl]. split; [split; [by split|done]|]. split; [|done].
  split; [split; [by split; auto|by intros y Hy; exists y]|].
  split; try done. exists []. by rewrite app_nil_r.
Qed.
Lemma process_runs ts x e c :
  conn_ok c → (∃ y, streams (transport c) !! ts = Some y ∧ Ctx.manager y = Ctx.manager x) →
  Session.entry_typed e →
  runs (steady ts) (process_with ts x e) c (λ r c',
    no_panic r ∧ (∀ res, r = Ok res → Session.result_shape e res)
    ∧ ∃ m, c' = updated ts (λ y, Ctx.set_manager y m) c).
Proof.
  intros Hc (y & Hy & Hm) He. unfold process_with. rewrite <- Hm.
  destruct (Session.process_entry e (Ctx.manager y)) as [m r] eqn:Hp.
  pose proof (Session.process_entry_shape e (Ctx.manager y) m) as Hsh.
  assert (Hcy : context_ok (config (transport c)) y) by (by apply (ok_contexts _ (proj1 Hc) ts)).
  destruct (manager_context _ y e m r (ok_config _ (proj1 Hc)) Hcy He Hp) as [Hnp Hk].
  apply runs_update; [split; [apply updated_touches|by apply updated_still]|].
  assert (Hok : conn_ok (updated ts (λ y, Ctx.set_manager y m) c)).
  { apply updated_ok; [done|]. intros z Hz. apply Hk. by apply (ok_contexts _ (proj1 Hc) ts). }
  destruct r as [res|err|]; [| |done]; (apply runs_ret; [done|]).
  - split; [done|]. split; [|by exists m]. intros res' [= <-]. by apply Hsh.
  - split; [done|]. split; [done|]. by exists m.
Qed.

(** *** Additional control streams *)
Lemma validate_control_no_panic b id e : no_panic (validate_additional_control_entry b id e).
Proof.
  unfold validate_additional_control_entry. case_match; [done|]. case_match; [done|].
  apply no_panic_bind; [auto with no_panic|]. intros op _. destruct op; by destruct b.
Qed.
Lemma validated_control b id e :
  validate_additional_control_entry b id e = Ok () →
  b = true ∧ Session.stream_id e = id ∧ Session.opens e = false ∧ Session.closes e = false.
Proof.
  unfold validate_additional_control_entry. intros H. apply guard_Ok in H as [H1 H].
  apply guard_Ok in H as [H2 H]. apply bind_Ok in H as (op & Hop & H).
  apply negb_false_iff in H1, H2. unfold Session.opens, Session.closes. rewrite H2.
  unfold SessionOpCode.try_from in Hop.
  split_and!; [by destruct op, b|lia|by repeat case_match; simplify_eq/=..].
Qed.
Lemma decrypt_no_panic kp h lfh bs ct :
  EntryDecode.provider_total (Some kp) → (∀ n, Lfh.iv_nonce lfh = Some n → len n = 24) →
  no_panic (decrypt_additional_control_payload kp h lfh bs ct).
Proof.
  intros Hkp Hn. unfold decrypt_additional_control_payload.
  apply no_panic_bind; [apply no_panic_ok_or|]. intros algo _.
  apply no_panic_bind; [apply no_panic_ok_or|]. intros nonce Hnonce%ok_or_Ok.
  apply no_panic_bind.
  { unfold build_kms_context_for_additional_control.
    apply no_panic_bind; [apply no_panic_ok_or|]. intros k _. case_match; [done|].
    apply no_panic_bind; [apply no_panic_map_err, Kms.parse_tls_no_panic|done]. }
  intros ctx _. apply no_panic_bind.
  { apply no_panic_map_err. by eapply EntryDecode.resolve_cek_no_panic. }
  intros cek _. cbv zeta. apply no_panic_map_err, Crypto.aead_decrypt_no_panic. by apply Hn.
Qed.
Lemma control_plaintext_no_panic s id h bs e :
  wired s → (∀ n, Lfh.iv_nonce (Session.header e) = Some n → len n = 24) →
  no_panic (control_plaintext s id h bs e).
Proof.
  intros [] Hn. unfold control_plaintext. case_match; [|done].
  destruct (key_provider s) as [kp|]; [|done]. by apply decrypt_no_panic.
Qed.

Definition pending (ts : Z) (c : Conn) : list byte :=
  from_option Ctx.quic_pending_bytes [] (streams (transport c) !! ts).
Lemma core_pending ts c c' :
  is_Some (streams (transport c) !! ts) → core ts c c' → pending ts c' = pending ts c.
Proof.
  intros [x Hx] Hc. unfold pending. destruct (Hc x Hx) as (x' & -> & E). rewrite Hx. apply E.
Qed.

(** What the block of the loop leaves behind. *)
Definition control_post (ts : Z) (c : Conn) (ev : ControlLoopEvent) (c' : Conn) : Prop :=
  match ev with
  | ControlSessionResult _ r =>
      no_panic r ∧ (length (pending ts c') < length (pending ts c))%nat
      ∧ is_Some (streams (transport c') !! ts)
      ∧ ∀ res, r = Ok res →
          Forall (λ ev, Session.is_binding ev = false) (SessionEvent.events res)
  | _ => True
  end.
Lemma or_control_runs {A} ts (r : result SarError.t A) k c c0 :
  conn_ok c → no_panic r → (∀ a, r = Ok a → runs (steady ts) (k a) c (control_post ts c0)) →
  runs (steady ts) (or_control_error r k) c (control_post ts c0).
Proof. intros Hc Hr Hk. destruct r as [a|e|]; [by apply Hk|by apply runs_ret|done]. Qed.

Lemma control_entry_runs ts now id h x lfh bs payload total c :
  conn_ok c → streams (transport c) !! ts = Some x →
  fits 16 (Lfh.stream_id lfh) → fits 16 (Lfh.sequence_no lfh) →
  (∀ n, Lfh.iv_nonce lfh = Some n → len n = 24) → 0 < total ≤ len (Ctx.quic_pending_bytes x) →
  runs (steady ts) (control_entry_event ts now (transport c) id h x lfh bs payload total) c
    (control_post ts c).
Proof.
  intros Hc Hx Hsid Hseq Hn Ht. unfold control_entry_event. cbv zeta.
  apply or_control_runs; [done|apply validate_control_no_panic|]. intros [] Hv.
  apply validated_control in Hv as (_ & _ & Ho & Hcl). case_match; [by apply runs_ret|].
  apply or_control_runs; [done|by apply control_plaintext_no_panic; [apply Hc|]|].
  intros plain _.
  set (drain := λ y, Ctx.set_pending y (drop (Z.to_nat total) (Ctx.quic_pending_bytes y))).
  apply (runs_update (steady ts) ts drain);
    [split; [apply updated_touches|by apply updated_still]|].
  assert (Hc1 : conn_ok (updated ts drain c)).
  { apply updated_ok; [done|]. intros y Hy. destruct (ok_contexts _ (proj1 Hc) ts y Hy). by split. }
  pose proof (updated_lookup ts drain c x Hx) as Hx1.
  eapply (runs_bind _ _ _ _ (λ _ c', core ts (updated ts drain c) c')).
  { eapply runs_mono; [by apply note_runs|by apply calm_steady|]. by intros ? ? _ [[] _] _. }
  intros [] c2 Hc2 _ Hcore. destruct (Hcore _ Hx1) as (x2 & Hx2 & E2 & _ & Em & _ & _ & Ep).
  eapply runs_bind; [apply process_runs; [done| |done]|].
  { exists x2. split; [done|]. by rewrite Em. }
  intros r c3 Hc3 _ (Hr & Hsh & m & ->). apply runs_ret; [done|].
  pose proof (updated_lookup ts (λ y, Ctx.set_manager y m) c2 x2 Hx2) as Hx3.
  split_and!; [done| |by eexists|].
  - unfold pending. rewrite Hx3, Hx. cbn. rewrite Ep. cbn. rewrite length_drop.
    unfold len in Ht. lia.
  - intros res Hres. destruct (Hsh res Hres) as [? ? Ho' _ _|? ? Hcl'|]; [| |done].
    + by pose proof (eq_trans (eq_sym Ho) Ho').
    + by pose proof (eq_trans (eq_sym Hcl) Hcl').
Qed.
Lemma control_event_runs ts now c :
  conn_ok c → runs (steady ts) (control_event ts now) c (control_post ts c).
Proof.
  intros Hc. unfold control_event. apply runs_self.
  apply runs_lift; [done|apply no_panic_ok_or|]. intros id _.
  apply runs_lift; [done|apply no_panic_ok_or|]. intros h _.
  apply runs_context; [done|]. intros x Hx. cbv zeta. case_match eqn:E4; [by apply runs_ret|].
  destruct (additional_control_header_size _) as [hs|] eqn:Ehs; [|by apply runs_ret].
  unfold additional_control_header_size in Ehs. case_match; [|done].
  apply try_from_Some in Ehs as [-> _]. set (q := Ctx.quic_pending_bytes x) in *.
  pose proof (le_val_range (take 4 q)) as Hhs. set (hs := le_val (take 4 q)) in *.
  apply or_control_runs; [done|auto with no_panic|]. intros [] _.
  case_match eqn:El; [by apply runs_ret|].
  apply runs_lift; [done|apply slice_r_no_panic; lia|]. intros bs (-> & _)%slice_r_Ok.
  apply or_control_runs; [done|apply Lfh.parse_lfh_no_panic|]. intros [lfh n] Hp.
  pose proof (parsed_typed _ _ _ _ _ Hp) as (Hs1 & Hs2 & Hs3 & Hs4).
  assert (Hpos : 0 < hs).
  { destruct (Z.eq_dec hs 0) as [E0|]; [|lia]. rewrite E0, slice_empty in Hp. done. }
  destruct (try_from 64 _) as [ps|] eqn:Eps; [|by apply runs_ret].
  apply try_from_Some in Eps as [-> _].
  destruct (checked_add 64 _ _) as [total|] eqn:Et; [|by apply runs_ret].
  apply checked_add_Some in Et as [-> _]. case_match eqn:Ett; [by apply runs_ret|].
  apply runs_lift; [done|apply slice_r_no_panic; lia|]. intros payload _.
  apply control_entry_runs; try done. fold q. lia.
Qed.
Lemma control_loop_runs fuel ts now c :
  conn_ok c → (length (pending ts c) < fuel)%nat →
  runs (steady ts) (control_loop fuel ts now) c (λ _ _, True).
Proof.
  revert c. induction fuel as [|fuel IH]; intros c Hc Hf; [lia|]. cbn [control_loop].
  assert (Herr : ∀ c' err, conn_ok c' →
    runs (steady ts) (policy_error_actions ts err) c' (λ _ _, True)).
  { intros c' err Hc'. eapply runs_mono; [by apply policy_error_runs|by apply calm_steady|done]. }
  eapply runs_bind; [by apply control_event_runs|].
  intros [|seq [res|err|]|err] c1 Hc1 _ Hpost; [by apply runs_ret| |by apply Herr| |by apply Herr].
  2: { by destruct Hpost as [Hnp _]. }
  destruct Hpost as (_ & Hlt & Hsome & Hb).
  eapply (runs_bind _ _ _ _ (λ _ c', core ts c1 c')).
  { eapply runs_mono; [by apply neutral_runs, Hb|by apply calm_steady|]. by intros ? ? _ [[] _] _. }
  intros [] c2 Hc2 _ Hcore. apply IH; [done|]. rewrite (core_pending ts c1) by done. lia.
Qed.
Lemma control_runs ts now c :
  conn_ok c → runs (steady ts) (run_additional_control_stream_loop ts now) c (λ _ _, True).
Proof.
  intros Hc. unfold run_additional_control_stream_loop. apply runs_self.
  apply control_loop_runs; [done|]. unfold pending. lia.
Qed.

(** *** Primary streams *)
Definition weight_of (ts : Z) (c : Conn) : Z :=
  from_option (λ x, StreamParser.weight (Ctx.parser x)) 0 (streams (transport c) !! ts).
Lemma weight_at ts c x :
  streams (transport c) !! ts = Some x → weight_of ts c = StreamParser.weight (Ctx.parser x).
Proof. intros Hx. unfold weight_of. by rewrite Hx. Qed.
Lemma updated_logged ts f c : logged c (updated ts f c).
Proof. exists []. by rewrite app_nil_r. Qed.
Definition feed_post (ts : Z) (c : Conn) (ev : LoopEvent) (c' : Conn) : Prop :=
  logged c c'
  ∧ match ev with
    | Continue => weight_of ts c' < weight_of ts c ∧ is_Some (streams (transport c') !! ts)
    | SessionResult _ r =>
        weight_of ts c' < weight_of ts c ∧ no_panic r
        ∧ ∃ x h e, streams (transport c') !! ts = Some x
            ∧ Ctx.current_global_header x = Some h
            ∧ ∀ res, r = Ok res → Session.result_shape e res
    | _ => True
    end.

Lemma observe_runs ts x y h aw c :
  conn_ok c → streams (transport c) !! ts = Some y → Ctx.manager y = Ctx.manager x →
  runs (plain ts) (observe_header ts x h aw) c (λ ev c',
    logged c c' ∧ (∃ z, streams (transport c') !! ts = Some z ∧ Ctx.parser z = Ctx.parser y)
    ∧ match ev with SessionResult _ _ => False | _ => True end).
Proof.
  intros Hc Hy Hm. unfold observe_header. rewrite <- Hm.
  destruct (Session.observe_global_header h (Ctx.manager y)) as [m r] eqn:Ho.
  assert (Hcy : context_ok (config (transport c)) y) by (by apply (ok_contexts _ (proj1 Hc) ts)).
  destruct (observe_context _ y h m r Hcy Ho) as [Hnp Hk].
  apply runs_update; [apply updated_touches|].
  set (c1 := updated ts (λ c, Ctx.set_manager c m) c).
  assert (Hok : conn_ok c1).
  { apply updated_ok; [done|]. intros z Hz. apply Hk. by apply (ok_contexts _ (proj1 Hc) ts). }
  pose proof (updated_lookup ts (λ z, Ctx.set_manager z m) c y Hy) as H1. fold c1 in H1.
  destruct r as [[]|err|]; [| |done].
  - apply runs_update; [apply updated_touches|]. apply runs_ret; [by apply updated_core_ok|].
    split; [etrans; apply updated_logged|]. split; [|done].
    eexists. split; [by apply updated_lookup|done].
  - apply runs_ret; [done|]. split; [apply updated_logged|]. split; [|done]. by eexists.
Qed.
Lemma header_runs ts x p is_control h c :
  conn_ok c → streams (transport c) !! ts = Some x →
  context_ok (config (transport c)) (Ctx.set_header (Ctx.set_parser x p) (Some h)) →
  StreamParser.weight p < StreamParser.weight (Ctx.parser x) →
  runs (plain ts) (header_event ts x is_control h) (updated ts (λ y, Ctx.set_parser y p) c)
    (feed_post ts c).
Proof.
  intros Hc Hx Hh Hw. unfold header_event. apply runs_self.
  apply runs_update; [apply updated_touches|]. rewrite updated_twice.
  set (f := (λ y, Ctx.set_header y (Some h)) ∘ (λ y, Ctx.set_parser y p)).
  pose proof (updated_lookup ts f c x Hx) as Hfx.
  assert (Hc1 : conn_ok (updated ts f c)).
  { apply updated_ok; [done|]. intros y Hy. by rewrite Hx in Hy; injection Hy as <-. }
  assert (Hobs : ∀ aw, runs (plain ts) (observe_header ts x h aw) (updated ts f c)
    (feed_post ts c)).
  { intros aw. eapply runs_mono; [by eapply observe_runs|done|].
    intros ev c' _ _ (Hl & (z & Hz & Hpz) & Hev).
    split; [by etrans; [apply (updated_logged ts f)|]|].
    destruct ev; try done. rewrite (weight_at ts c x Hx), (weight_at ts c' z Hz), Hpz.
    split; [done|by eexists]. }
  destruct (policy _); [|apply Hobs]. destruct (Format.kms h); [|apply Hobs].
  case_match; [|apply Hobs]. apply runs_ret; [done|]. split; [apply updated_logged|done].
Qed.
Lemma entry_runs ts now x p e c :
  conn_ok c → streams (transport c) !! ts = Some x →
  context_ok (config (transport c)) (Ctx.set_parser x p) →
  StreamParser.weight p < StreamParser.weight (Ctx.parser x) →
  StreamParser.reports (Ctx.parser_options (Ctx.limits x)) (Ctx.parser x) p
    (Ok (StreamParser.Ready (StreamParser.EvEntry e))) →
  runs (plain ts) (entry_event ts now x e) (updated ts (λ y, Ctx.set_parser y p) c)
    (feed_post ts c).
Proof.
  intros Hc Hx Hxp Hw (Hh1 & [h Hh] & input & flags & n & Hp). unfold entry_event.
  set (f := λ y, Ctx.set_parser y p). apply runs_self.
  assert (Hc1 : conn_ok (updated ts f c)).
  { apply updated_ok; [done|]. intros y Hy. by rewrite Hx in Hy; injection Hy as <-. }
  pose proof (updated_lookup ts f c x Hx) as Hx1.
  eapply (runs_bind _ _ _ _ (λ _ c', calm ts (updated ts f c) c')).
  { eapply runs_mono; [by apply note_runs|by intros ? [[] _]|done]. }
  intros [] c2 Hc2 _ [[_ Hcore] Hs]. cbv zeta.
  assert (Hl2 : logged c c2).
  { etrans; [apply (updated_logged ts f)|]. by eapply still_logged. }
  case_match; [by apply runs_ret|].
  destruct (Hcore _ Hx1) as (x2 & Hx2 & Ep & _ & Em & _ & Eh & _).
  apply parsed_typed in Hp as (Hid & Hseq & _).
  eapply runs_bind.
  { eapply runs_mono; [apply process_runs; [done|by exists x2|done]|by apply steady_plain|].
    intros r c3 _ _ HQ. exact HQ. }
  intros r c3 Hc3 _ (Hr & Hsh & m & ->). apply runs_ret; [done|].
  pose proof (updated_lookup ts (λ y, Ctx.set_manager y m) c2 x2 Hx2) as Hx3.
  split; [by etrans; [exact Hl2|apply updated_logged]|].
  rewrite (weight_at ts c x Hx), (weight_at _ _ _ Hx3). cbn. rewrite Ep. cbn.
  split; [done|]. split; [done|]. do 3 eexists. split; [exact Hx3|]. split; [|exact Hsh].
  cbn. rewrite Eh. cbn. apply (ctx_header _ _ Hxp). cbn. by rewrite Hh1, Hh.
Qed.
Lemma feed_event_runs ts now c :
  conn_ok c → runs (plain ts) (feed_event false ts now) c (feed_post ts c).
Proof.
  intros Hc. unfold feed_event. apply runs_self. cbv zeta. apply runs_context; [done|].
  intros x Hx.
  assert (Hcx : context_ok (config (transport c)) x) by (by apply (ok_contexts _ (proj1 Hc) ts)).
  destruct (StreamParser.step _ _ _ _) as [p r] eqn:Hs.
  pose proof (step_context _ x p r Hcx Hs) as (Hnp & Hrep & Hctx).
  apply runs_update; [apply updated_touches|]. set (f := λ y, Ctx.set_parser y p).
  assert (Hc1 : context_ok (config (transport c)) (f x) → conn_ok (updated ts f c)).
  { intros Hf. apply updated_ok; [done|]. intros y Hy. by rewrite Hx in Hy; injection Hy as <-. }
  assert (Hl : logged c (updated ts f c)) by apply updated_logged.
  destruct r as [[m|[h|e|su]|]|err|]; [| | | | | |done];
    try by (apply runs_ret; [by apply Hc1|by split]).
  - destruct Hctx as [Hw Hcx']. by apply header_runs.
  - destruct Hctx as [Hw Hcx']. by apply entry_runs.
  - destruct Hctx as [Hw Hcx']. apply runs_update; [apply updated_touches|].
    pose proof (updated_lookup ts f c x Hx) as Hx1. apply runs_ret.
    { apply updated_ok; [by apply Hc1|]. intros y Hy. rewrite Hx1 in Hy. injection Hy as <-.
      eapply context_core; [|by apply complete_context]. done. }
    split; [by etrans; [|apply updated_logged]|].
    rewrite (weight_at ts c x Hx), (weight_at _ _ _ (updated_lookup ts _ _ _ Hx1)).
    split; [done|]. eexists. by apply updated_lookup.
Qed.
Lemma feed_loop_runs fuel ts now c :
  conn_ok c → unattached ts c → weight_of ts c < Z.of_nat fuel →
  runs (plain ts) (feed_loop false fuel ts now) c (λ _ c', logged c c').
Proof.
  revert c. induction fuel as [|fuel IH]; intros c Hc Hua Hf.
  { unfold weight_of in Hf. destruct (streams (transport c) !! ts) as [x|]; cbn in Hf; [|lia].
    pose proof (StreamParser.weight_nonneg (Ctx.parser x)). lia. }
  cbn [feed_loop].
  assert (Herr : ∀ c' err, conn_ok c' → logged c c' →
    runs (plain ts) (policy_error_actions ts err) c' (λ _ c'', logged c c'')).
  { intros c' err Hc' Hl'. eapply runs_mono; [by apply policy_error_runs| |].
    - by intros c'' [[] _].
    - intros ? c'' _ [_ Hs] _. etrans; [exact Hl'|]. by eapply still_logged. }
  assert (Hloop : ∀ c', conn_ok c' → touches false ts c c' → logged c c' →
    weight_of ts c' < weight_of ts c →
    runs (plain ts) (feed_loop false fuel ts now) c' (λ _ c'', logged c c'')).
  { intros c' Hc' Ht Hl' Hw. eapply runs_mono;
      [apply IH; [done|by eapply unattached_kept|lia]|done|].
    intros ? c'' _ _ ?. by etrans. }
  eapply runs_bind; [by apply feed_event_runs|].
  intros [| | |seq [res|err|]|err] c1 Hc1 Ht1 [Hl Hpost]; try by apply runs_ret.
  - destruct Hpost. by apply Hloop.
  - destruct Hpost as (Hw & _ & x & h & e & Hx & Hh & Hsh).
    eapply (runs_bind _ _ _ _ (λ _ c', logged c1 c' ∧ core ts c1 c')).
    { eapply runs_mono; [eapply result_runs; [done|by eapply unattached_kept|by apply Hsh|by exists x, h]
        |by apply quiet_plain|].
      by intros ? c' _ [_ ?] ?. }
    intros [] c2 Hc2 Ht2 [Hl2 Hcore]. apply Hloop; [done|by etrans|by etrans|].
    destruct (Hcore x Hx) as (x2 & Hx2 & Ep & _).
    rewrite (weight_at _ _ _ Hx) in Hw. by rewrite (weight_at _ _ _ Hx2), Ep.
  - by apply Herr.
  - by destruct Hpost as (_ & Hnp & _).
  - by apply Herr.
Qed.
Lemma feed_runs ts now c :
  conn_ok c → unattached ts c → runs (plain ts) (run_feed_loop false ts now) c (λ _ c', logged c c').
Proof.
  intros Hc Hua. unfold run_feed_loop. apply runs_self. cbv zeta. fold (weight_of ts c).
  apply feed_loop_runs; [done..|]. assert (0 ≤ weight_of ts c); [|lia].
  unfold weight_of. destruct (_ !! ts); [apply StreamParser.weight_nonneg|done].
Qed.

(** *** The operations *)
Lemma push_context cfg x bytes p r :
  context_ok cfg x →
  StreamParser.push_bytes (Ctx.parser_options (Ctx.limits x)) (Ctx.parser x) bytes = (p, r) →
  no_panic r ∧ context_ok cfg (Ctx.set_parser x p).
Proof.
  intros Hx Hp. pose proof Hx as [Hlim _ Hin Hsz Hfin Hinv _ _ Hhd].
  assert (Hmax : max_archive_size (EntryDecode.limits (Ctx.parser_options (Ctx.limits x)))
    = max_archive_size default_limits) by (cbn; by rewrite Hlim).
  assert (H16 : max_archive_size default_limits = 2 ^ 34) by done.
  destruct (Z.lt_ge_cases (len bytes) (2 ^ 63)) as [Hb|Hb].
  - pose proof (StreamParser.push_cases (Ctx.parser_options (Ctx.limits x)) (Ctx.parser x) bytes Hin
      ltac:(lia)) as H. cbv zeta in H. rewrite Hmax, Hp in H.
    destruct (_ && _) eqn:E.
    { destruct H as [e [= -> ->]]. split; [done|]. destruct Hx. by split. }
    destruct H as (p' & [= <- ->] & Hok & Hs & Ha & Hpe & Ho & Hf & Hr). split; [done|].
    destruct Hx. split; cbn [Ctx.set_parser Ctx.limits Ctx.provider Ctx.parser Ctx.manager
      Ctx.current_global_header]; try done; [|congruence| |].
    + rewrite Hr, Ho, len_app. lia.
    + intros pe. rewrite Hpe, Hs, Ha. apply Hinv.
    + intros h. unfold StreamParser.open_header. rewrite Ha. apply Hhd.
  - assert (∃ e, (p, r) = (Ctx.parser x, Err e)) as (e & [= -> ->]);
      [|split; [done|]; destruct Hx; by split].
    rewrite <- Hp. unfold StreamParser.push_bytes. rewrite StreamParser.available_rest by done.
    pose proof (len_nonneg (StreamParser.rest (Ctx.parser x))).
    destruct Hin as (_ & _ & Ho & _).
    destruct (try_from 64 (len bytes)) as [add|] eqn:E1; cbn [ok_or mbind result_bind]; [|eauto].
    apply try_from_Some in E1 as [-> _]. rewrite try_from_fits by lia. cbn [ok_or mbind result_bind].
    rewrite checked_add_fits by lia. cbn [mbind option_bind].
    destruct (checked_add 64 _ _) as [tot|] eqn:E2; cbn [ok_or mbind result_bind]; [|eauto].
    apply checked_add_Some in E2 as [-> _]. unfold check_archive_size. rewrite Hmax, H16.
    rewrite Zgt_true, Zgt_true by lia. cbn. eauto.
Qed.
Lemma push_runs ts x bytes c :
  conn_ok c → streams (transport c) !! ts = Some x →
  runs (plain ts) (push_parser ts x bytes) c (λ r c', no_panic r ∧ logged c c').
Proof.
  intros Hc Hx. unfold push_parser.
  assert (Hcx : context_ok (config (transport c)) x) by (by apply (ok_contexts _ (proj1 Hc) ts)).
  destruct (StreamParser.push_bytes _ _ _) as [p r] eqn:Hp.
  destruct (push_context _ x bytes p r Hcx Hp) as [Hnp Hk].
  apply runs_update; [apply updated_touches|].
  assert (Hok : conn_ok (updated ts (λ y, Ctx.set_parser y p) c)).
  { apply updated_ok; [done|]. intros y Hy. by rewrite Hx in Hy; injection Hy as <-. }
  destruct r; [| |done]; (apply runs_ret; [done|]); (split; [done|apply updated_logged]).
Qed.
Lemma policy_logged ts err c0 c :
  conn_ok c → logged c0 c →
  runs (plain ts) (policy_error_actions ts err) c (λ _ c', logged c0 c').
Proof.
  intros Hc Hl. eapply runs_mono; [by apply policy_error_runs|by intros ? [[] _]|].
  intros ? c' _ [_ Hs] _. etrans; [exact Hl|]. by eapply still_logged.
Qed.
Lemma feed_primary_runs ts now bytes c :
  conn_ok c → unattached ts c →
  runs (plain ts) (feed_primary false ts now bytes) c (λ _ c', logged c c').
Proof.
  intros Hc Hua. unfold feed_primary. apply runs_context; [done|]. intros x Hx.
  case_match; [by apply runs_throw|]. eapply runs_bind; [by apply push_runs|].
  intros r c1 Hc1 Ht [Hr Hl]. apply runs_lift; [done..|]. intros [] _.
  eapply runs_mono; [apply feed_runs; [done|by eapply unattached_kept]|done|].
  intros ? c2 _ _ ?. by etrans.
Qed.
Lemma attach_ok ts id x c :
  conn_ok c → streams (transport c) !! ts = Some x → unattached ts c →
  is_Some (active_sar_streams (transport c) !! id) →
  control_count (transport c) id
    < max_control_streams_per_sar_session (config (transport c)) →
  wired (set_tables (transport c) (active_sar_streams (transport c))
    (active_session_uuids (transport c)) (active_global_headers (transport c))
    (<[ts := id]> (control_stream_attachments (transport c))) (tls_exporter_bound (transport c))).
Proof.
  intros [Hw _] Hx Hua Hid Hn. apply attach_wired; [done| |].
  - intros k id'. rewrite lookup_insert_Some. intros [[<- <-]|[_ Hk]]; [by split; [|eexists]|].
    by apply (ok_attached _ Hw).
  - intros id'. rewrite map_filter_insert. cbn [snd]. destruct (decide (id = id')) as [<-|].
    + rewrite map_size_insert_None by (apply map_lookup_filter_None; by left).
      unfold control_count in Hn. lia.
    + rewrite delete_id by done. apply (ok_control _ Hw id').
Qed.
Lemma attach_runs ts now id x c :
  conn_ok c → streams (transport c) !! ts = Some x → unattached ts c →
  is_Some (active_sar_streams (transport c) !! id) →
  control_count (transport c) id
    < max_control_streams_per_sar_session (config (transport c)) →
  runs (local ts) (attach_control_stream ts now id) c (λ _ c', logged c c').
Proof.
  intros Hc Hx Hua Hid Hn. unfold attach_control_stream.
  pose proof (attach_ok ts id x c Hc Hx Hua Hid Hn) as Hw.
  apply runs_modify.
  { split; cbn; try done; [by right|]. intros k id'. rewrite lookup_insert_Some.
    intros [[<- _]|[_ Hk]]; [by right|by left]. }
  apply runs_update; [apply touches_weaken, updated_touches|].
  match goal with |- runs _ _ ?c1 _ => assert (Hc1 : conn_ok c1);
    [apply updated_core_ok; [split; [exact Hw|apply Hc]|done]|set (c2 := c1) in *] end.
  apply runs_self, runs_lift; [done|apply no_panic_ok_or|]. intros h _.
  apply runs_context; [done|]. intros y Hy.
  destruct (Session.observe_global_header h (Ctx.manager y)) as [m r] eqn:Ho.
  assert (Hcy : context_ok (config (transport c2)) y) by (by apply (ok_contexts _ (proj1 Hc1) ts)).
  destruct (observe_context _ y h m r Hcy Ho) as [Hnp Hk].
  apply runs_update; [apply touches_weaken, updated_touches|].
  assert (Hc3 : conn_ok (updated ts (λ z, Ctx.set_manager z m) c2)).
  { apply updated_ok; [done|]. intros z Hz. apply Hk. by apply (ok_contexts _ (proj1 Hc1) ts). }
  apply runs_lift; [done..|]. intros [] _.
  eapply (runs_bind _ _ _ _ (λ _ c', c' = pushed (AttachControlStream ts id)
    (updated ts (λ z, Ctx.set_manager z m) c2))).
  { apply runs_push; [done|apply touches_weaken, pushed_touches|done|done]. }
  intros [] c4 Hc4 _ ->. eapply runs_mono; [by apply control_runs| |].
  - intros c' [? _]. by apply touches_weaken.
  - intros ? c' _ [_ Hs] _. etrans; [|by eapply still_logged].
    exists [AttachControlStream ts id]. done.
Qed.

Lemma plain_runs {A} ts (p : M A) c Q : runs (plain ts) p c Q → runs (local ts) p c Q.
Proof. intros Hp. eapply runs_mono; [done|intros c'; apply touches_weaken|done]. Qed.
Lemma set_pending_context cfg x bs : context_ok cfg x → context_ok cfg (Ctx.set_pending x bs).
Proof. intros []. by split. Qed.
(** Storing bytes in front of the decision what the stream is. *)
Lemma append_ok ts f c :
  conn_ok c → conn_ok (updated ts (λ x, Ctx.set_pending x (f x)) c).
Proof.
  intros Hc. apply updated_ok; [done|]. intros x Hx. apply set_pending_context.
  by apply (ok_contexts _ (proj1 Hc) ts).
Qed.
Lemma feed_unidentified_runs ts now bytes c :
  conn_ok c → unattached ts c →
  runs (local ts) (feed_unidentified false ts now bytes) c (λ _ c', logged c c').
Proof.
  intros Hc Hua. unfold feed_unidentified.
  apply runs_update; [apply touches_weaken, updated_touches|].
  match goal with |- runs _ _ (updated ts ?f c) _ =>
    set (g := f); assert (Hc1 : conn_ok (updated ts g c)) by (by apply append_ok) end.
  pose proof (updated_logged ts g c) as Hl1.
  assert (Hua1 : unattached ts (updated ts g c)) by done.
  apply runs_context; [done|]. intros x Hx. cbv zeta. set (q := Ctx.quic_pending_bytes x).
  case_match eqn:E4; [by apply runs_ret|]. case_match.
  { apply plain_runs. eapply runs_bind; [by apply push_runs|]. intros r c2 Hc2 Ht [Hr Hl2].
    destruct r as [[]|err|]; [| |done].
    2: { apply policy_logged; [done|by etrans]. }
    apply runs_update; [apply updated_touches|].
    eapply runs_mono; [apply feed_runs|done|].
    - by apply append_ok.
    - apply (unattached_kept ts _ c2 Ht Hua1).
    - intros ? c3 _ _ Hl3. etrans; [exact Hl1|]. etrans; [exact Hl2|].
      by etrans; [apply (updated_logged ts (λ y, Ctx.set_pending y []))|]. }
  case_match; [by apply plain_runs, policy_logged|]. case_match eqn:E8; [by apply runs_ret|].
  apply runs_lift; [done|apply slice_r_no_panic; lia|]. intros mode _.
  apply runs_lift; [done|apply slice_r_no_panic; lia|]. intros idb _. cbv zeta. apply runs_self.
  case_match; [by apply plain_runs, policy_logged|].
  case_match eqn:Eb; [by apply plain_runs, policy_logged|].
  case_match eqn:Em; [by apply plain_runs, policy_logged|].
  apply negb_false_iff, bool_decide_eq_true in Eb.
  eapply runs_mono; [by eapply attach_runs; [..|lia]|done|]. intros ? c2 _ _ ?. by etrans.
Qed.
Lemma control_feed_runs ts now bytes c :
  conn_ok c →
  runs (steady ts) (_ ← update_context ts (λ x, Ctx.set_pending x (Ctx.quic_pending_bytes x ++ bytes));
                    run_additional_control_stream_loop ts now) c (λ _ _, True).
Proof.
  intros Hc. apply runs_update; [split; [apply updated_touches|by apply updated_still]|].
  by apply control_runs, append_ok.
Qed.
Lemma control_stream_spec ts c :
  is_control_stream (transport c) ts = false ↔ unattached ts c.
Proof.
  unfold is_control_stream, unattached. by rewrite bool_decide_eq_false, eq_None_not_Some.
Qed.
Lemma feed_bytes_runs ts bytes now c :
  conn_ok c → (policy (transport c) = Tcp → unattached ts c) →
  runs (local ts) (feed_bytes false ts bytes now) c (λ _ c', logged c c').
Proof.
  intros Hc Htcp. unfold feed_bytes. apply runs_self. case_match; [by apply runs_throw|].
  destruct (policy (transport c)).
  { apply plain_runs, feed_primary_runs; auto. }
  apply runs_context; [done|]. intros x Hx. case_match eqn:Ec.
  - eapply runs_mono; [by apply control_feed_runs|intros c' [? _]; by apply touches_weaken|].
    intros ? c' _ [_ Hs] _. by eapply still_logged.
  - apply control_stream_spec in Ec. case_match; [by apply feed_unidentified_runs|].
    by apply plain_runs, feed_primary_runs.
Qed.
(** Bytes for a stream that is over change no table and leave it over. *)
Lemma feed_over_runs ts bytes now c :
  conn_ok c → over ts c → runs (steady ts) (feed_bytes false ts bytes now) c (λ _ _, True).
Proof.
  intros Hc Hov. unfold feed_bytes. apply runs_self. case_match; [by apply runs_throw|].
  assert (Hprim : runs (steady ts) (feed_primary false ts now bytes) c (λ _ _, True)).
  { unfold feed_primary. apply runs_context; [done|]. intros x Hx. rewrite (Hov x Hx).
    by apply runs_throw. }
  destruct (policy (transport c)); [done|]. apply runs_context; [done|]. intros x Hx.
  case_match; [by apply control_feed_runs|]. case_match eqn:Es; [|done].
  apply bool_decide_eq_true in Es. specialize (Hov x Hx). by rewrite Es in Hov.
Qed.

(** *** Opening, closing and resetting *)
Lemma new_context cfg kp :
  config_typed cfg → EntryDecode.provider_total kp → context_ok cfg (Ctx.new cfg kp).
Proof.
  intros Hcfg Hkp. split; cbn; try done.
  - intros p' Hp' ctx. destruct kp as [kp|]; [|done]. injection Hp' as <-. by apply (Hkp kp).
  - by apply Session.new_ok, manager_typed.
Qed.
Definition opened (ts : Z) (c : Conn) : Conn := {|
  transport := set_streams (transport c)
    (<[ts := Ctx.new (config (transport c)) (key_provider (transport c))]> (streams (transport c)));
  actions := actions c |}.
Lemma opened_ok ts c :
  conn_ok c → streams (transport c) !! ts = None → conn_ok (opened ts c).
Proof.
  intros [[] Hl] Hts. split; [|done].
  assert (Hsome : ∀ k, is_Some (streams (transport c) !! k) →
    is_Some (streams (transport (opened ts c)) !! k)).
  { intros k Hk. cbn. destruct (decide (ts = k)) as [<-|]; [by rewrite lookup_insert_eq|].
    by rewrite lookup_insert_ne. }
  split; try done.
  - apply map_Forall_insert_2; [by apply new_context|done].
  - intros id k Hk. by eapply Hsome, ok_owner0.
  - intros k id Hk. destruct (ok_attached0 k id Hk). auto.
Qed.
Lemma opened_touches ts c :
  streams (transport c) !! ts = None → touches false ts c (opened ts c).
Proof.
  intros Hts. split; cbn; try done; [| |by right|by left].
  - intros k Hk. by rewrite lookup_insert_ne.
  - rewrite Hts. by intros [].
Qed.
Lemma open_runs ts c :
  conn_ok c → runs (plain ts) (open_transport_stream ts) c (λ _ c', logged c c').
Proof.
  intros Hc. unfold open_transport_stream. apply runs_self. case_match eqn:Ets; [by apply runs_throw|].
  apply bool_decide_eq_false, eq_None_not_Some in Ets. case_match; [by apply runs_throw|].
  pose proof (opened_ok ts c Hc Ets) as Hc1.
  apply runs_modify; [by apply opened_touches|]. fold (opened ts c).
  apply runs_update; [apply updated_touches|].
  match goal with |- runs _ _ ?c1 _ => set (c2 := c1);
    assert (Hc2 : conn_ok c2) by (by apply updated_core_ok) end.
  eapply (runs_bind _ _ _ _ (λ _ c', c' = pushed (AcceptTransportStream ts) c2)).
  { apply runs_push; [done|apply pushed_touches|done|done]. }
  intros [] c3 Hc3 _ ->. apply runs_self.
  assert (Hl : logged c (pushed (AcceptTransportStream ts) c2))
    by (by exists [AcceptTransportStream ts]).
  destruct (ensure_tcp_not_interleaved _) as [[]|err|] eqn:Ee;
    [by apply runs_ret|by apply policy_logged|].
  unfold ensure_tcp_not_interleaved in Ee. by repeat case_match.
Qed.

Definition detached_from (ts : Z) (b : option Z) (c : Conn) : Conn := {|
  transport :=
    let s := match b with
             | Some id => if is_control_stream (transport c) ts then transport c
                          else unbind_tables (transport c) id false
             | None => transport c
             end in
    set_tables s (active_sar_streams s) (active_session_uuids s) (active_global_headers s)
      (delete ts (control_stream_attachments s)) (tls_exporter_bound s);
  actions := actions c |}.
Lemma detached_wired ts b c : conn_ok c → conn_ok (detached_from ts b c).
Proof.
  intros [Hw Hl]. unfold detached_from.
  set (s := match b with Some id => _ | None => _ end).
  assert (Hs : wired s ∧ config s = config (transport c)).
  { unfold s. destruct b; [|done]. case_match; [done|]. split; [by apply unbind_wired|done]. }
  destruct Hs as [Hs Hcfg]. split; cbn; [|by rewrite Hcfg]. apply attach_wired; [done| |].
  - intros k id [_ Hk]%lookup_delete_Some. by apply (ok_attached _ Hs).
  - intros id. etrans; [|apply (ok_control _ Hs id)]. unfold control_count.
    apply inj_le, map_subseteq_size, map_filter_subseteq_mono, delete_subseteq.
Qed.
Lemma detached_touches ts b c : touches false ts c (detached_from ts b c).
Proof.
  split; unfold detached_from; destruct b as [id|]; cbn; try case_match; cbn; try done; auto.
  - intros id' k [_ ?]%lookup_delete_Some. by right.
  - intros k id' [_ ?]%lookup_delete_Some. by left.
  - intros k id' [_ [? _]%map_lookup_filter_Some]%lookup_delete_Some. by left.
  - intros k id' [_ ?]%lookup_delete_Some. by left.
Qed.
Lemma detached_mirror ts b c :
  mirror_of (transport (detached_from ts b c))
  = apply_action (mirror_of (transport c)) (StreamClosed ts b).
Proof.
  unfold detached_from, mirror_of. cbn.
  destruct (control_stream_attachments (transport c) !! ts) as [id0|] eqn:E.
  - assert (Hc : is_control_stream (transport c) ts = true)
      by (unfold is_control_stream; rewrite E; by apply bool_decide_eq_true).
    destruct b; [rewrite Hc|]; done.
  - rewrite (proj2 (control_stream_spec ts c) E). destruct b as [id|]; cbn.
    + f_equal. rewrite delete_id; [done|]. apply map_lookup_filter_None. by left.
    + by rewrite delete_id.
Qed.
Lemma detach_runs ts last c :
  conn_ok c → is_over last = true → runs (ending ts) (detach_stream ts last) c (λ d c',
    actions c' = actions c
    ∧ mirror_of (transport c') = apply_action (mirror_of (transport c)) (StreamClosed ts d)).
Proof.
  intros Hc Hlast. unfold detach_stream. apply runs_context; [done|]. intros x Hx. apply runs_self.
  cbv zeta. set (b := Ctx.bound_sar_stream_id x).
  set (f := λ y, Ctx.set_state y last).
  assert (Hend : runs (ending ts) (_ ← update_context ts f; mret b) (detached_from ts b c) (λ d c',
    actions c' = actions c
    ∧ mirror_of (transport c') = apply_action (mirror_of (transport c)) (StreamClosed ts d))).
  { apply runs_update; [split; [apply updated_touches|intros _; by apply over_updated]|].
    apply runs_ret.
    - by apply updated_core_ok; [apply detached_wired|].
    - split; [done|]. apply detached_mirror. }
  destruct Hend as (H1 & H2 & H3).
  assert (Heq : (_ ← match b with
      | Some id => when_ (negb (is_control_stream (transport c) ts)) (modify (λ s, unbind_tables s id false))
      | None => mret ()
      end;
    _ ← modify (λ s, set_tables s (active_sar_streams s) (active_session_uuids s)
          (active_global_headers s) (delete ts (control_stream_attachments s))
          (tls_exporter_bound s));
    _ ← update_context ts f; mret b) c = (_ ← update_context ts f; mret b) (detached_from ts b c)).
  { unfold detached_from, when_, mbind, conn_bind. destruct b as [id|]; [|done]. by destruct (is_control_stream (transport c) ts). }
  unfold runs. rewrite Heq. split; [done|]. split; [|done]. etrans; [|done].
  split; [apply detached_touches|]. unfold detached_from, over_kept, over. destruct b; [|done].
  cbn. by destruct (is_control_stream (transport c) ts).
Qed.
Lemma pushed_ending ts a c : ending ts c (pushed a c).
Proof. split; [apply pushed_touches|by intros ?]. Qed.
Lemma close_runs ts c :
  conn_ok c → runs (ending ts) (close_transport_stream ts) c (λ _ c', logged c c').
Proof.
  intros Hc. unfold close_transport_stream. eapply runs_bind; [by apply detach_runs|].
  intros d c1 Hc1 _ [Ha Hm]. apply runs_push; [done|apply pushed_ending|done|].
  intros _. exists [StreamClosed ts d]. cbn [pushed actions transport]. by rewrite Ha.
Qed.
Lemma reset_runs ts reason c :
  conn_ok c → runs (ending ts) (reset_transport_stream ts reason) c (λ _ c', logged c c').
Proof.
  intros Hc. unfold reset_transport_stream. eapply runs_bind; [by apply detach_runs|].
  intros d c1 Hc1 _ [Ha Hm].
  eapply (runs_bind _ _ _ _ (λ _ c', c' = pushed (ResetTransportStream ts reason) c1)).
  { apply runs_push; [done|apply pushed_ending|done|done]. }
  intros [] c2 Hc2 _ ->. apply runs_push; [done|apply pushed_ending|done|].
  intros _. exists [ResetTransportStream ts reason; StreamClosed ts d].
  cbn [pushed actions transport]. rewrite Ha, <- app_assoc. split; [done|]. by rewrite Hm.
Qed.

Lemma ending_plain {A} ts (p : M A) c Q : runs (ending ts) p c Q → runs (plain ts) p c Q.
Proof. intros Hp. eapply runs_mono; [done|by intros c' []|done]. Qed.
Lemma activity_runs ts now c :
  conn_ok c → runs (ending ts) (record_valid_activity ts now) c (λ _ c', logged c c').
Proof.
  intros Hc. unfold record_valid_activity. apply runs_context; [done|]. intros x Hx.
  eapply runs_mono; [by apply note_runs| |].
  - intros c' [[Ht _] Hs]. split; [done|exact (still_over _ _ _ Hs)].
  - intros ? c' _ [_ Hs] _. by eapply still_logged.
Qed.
(** A heartbeat sets a time at most. *)
Lemma heartbeat_cases ts now s :
  (∃ r, run (maybe_emit_heartbeat ts now) s = (s, r) ∧ (r = Ok [] ∨ ∃ e, r = Err e))
  ∨ ∃ id, run (maybe_emit_heartbeat ts now) s
      = (set_streams s (alter (λ c, Ctx.set_times c (Ctx.last_valid_activity_ms c) (Some now)) ts
           (streams s)), Ok [EmitHeartbeat id]).
Proof.
  unfold run, maybe_emit_heartbeat, context_of, mbind, conn_bind, self, lift. cbn.
  destruct (streams s !! ts) as [x|]; cbn; [|left; eauto].
  destruct (Ctx.bound_sar_stream_id x) as [id|]; cbn; [|left; eauto].
  destruct (_ <? _); cbn; [left; eauto|].
  destruct (Ctx.last_valid_activity_ms x) as [la|]; cbn; [|left; eauto].
  destruct (_ <? _); cbn; [left; eauto|]. right. by exists id.
Qed.
End logic.
End TransportSafety.
