(* ===== verification/TransportTheorems.v ===== *)
(** * The transport binding: reachable connections

    The operations a caller can perform on a connection of [Transport.v] as a transition
    system, and what holds of every connection they reach: the invariant, that every
    operation returns, the isolation of the transport streams, the agreement of the actions
    with the tables, the limits on the actions, and the single stream of the TCP policy.
    The last part runs the operations on concrete bytes. *)

From stdpp Require Import gmap.
From S2P Require Import Prelude Errors Limits Flags Cursor Format Lfh Crypto Kms Transform Metadata EntryDecode StreamProtocol Session StreamParser Transport TransportSafety.

Module TransportTheorems.
Import Limits Transport TransportConfig TransportAction TransportStreamState TransportSafety.
Module Ctx := TransportStreamContext.

(** ** Operations *)
Inductive Op :=
  | OpOpen (ts : Z) | OpFeed (ts : Z) (bytes : list byte) (now_ms : option Z) | OpClose (ts : Z)
  | OpReset (ts : Z) (reason : SarError.t) | OpHeartbeat (ts now_ms : Z)
  | OpActivity (ts now_ms : Z) | OpProvider (kp : Kms.KeyProvider).
Definition op_stream (op : Op) : option Z :=
  match op with
  | OpOpen ts | OpFeed ts _ _ | OpClose ts | OpReset ts _ | OpHeartbeat ts _
  | OpActivity ts _ => Some ts
  | OpProvider _ => None
  end.
(** The operations of [SarTransportBinding]. *)
Definition is_binding_op (op : Op) : bool :=
  match op with OpOpen _ | OpFeed _ _ _ | OpClose _ | OpReset _ _ => true | _ => false end.
(** A key provider that is attached returns. *)
Definition op_ok (op : Op) : Prop :=
  match op with OpProvider kp => EntryDecode.provider_total (Some kp) | _ => True end.

Section theorems.
Context {B : Bitflags} {Comp : Compression.Compressors} {Ciph : Crypto.Ciphers} {K : Kms.Kdfs}.

Definition exec (op : Op) (s : InMemoryTransport)
    : InMemoryTransport * result SarError.t (list TransportAction.t) :=
  match op with
  | OpOpen ts => run (open_transport_stream ts) s
  | OpFeed ts bytes now_ms => run (feed_bytes false ts bytes now_ms) s
  | OpClose ts => run (close_transport_stream ts) s
  | OpReset ts reason => run (reset_transport_stream ts reason) s
  | OpHeartbeat ts now_ms => run (maybe_emit_heartbeat ts now_ms) s
  | OpActivity ts now_ms => run (record_valid_activity ts now_ms) s
  | OpProvider kp => (with_key_provider s kp, Ok [])
  end.

(** The connections a caller can reach, whether the operations succeed or fail. *)
Inductive reachable (mode : PolicyMode) (cfg : TransportConfig.t) : InMemoryTransport → Prop :=
  | reach_new : reachable mode cfg (new_transport mode cfg)
  | reach_op s op : reachable mode cfg s → op_ok op → reachable mode cfg (exec op s).1.

(** ** Counting transport streams *)
Definition running_at (ts : Z) (s : InMemoryTransport) : bool :=
  from_option is_running false (streams s !! ts).
Definition others (ts : Z) (s : InMemoryTransport) : Z :=
  Z.of_nat (size (filter (λ kv, is_running kv.2 = true) (delete ts (streams s)))).
Lemma count_split ts s :
  active_transport_stream_count s = others ts s + Z.b2z (running_at ts s).
Proof.
  unfold active_transport_stream_count, others, running_at.
  destruct (streams s !! ts) as [x|] eqn:E; [|rewrite delete_id by done; cbn; lia].
  rewrite <- (insert_delete_id (streams s) ts x E) at 1. rewrite map_filter_insert. cbn [snd from_option].
  destruct (is_running x); cbn [Z.b2z].
  - rewrite decide_True by done. rewrite map_size_insert_None; [lia|].
    apply map_lookup_filter_None. left. apply lookup_delete_eq.
  - rewrite decide_False by done. rewrite delete_delete_eq. lia.
Qed.
Lemma others_touched attach ts c c' :
  touches attach ts c c' → others ts (transport c') = others ts (transport c).
Proof.
  intros [_ _ _ Ho _ _ _]. unfold others. do 3 f_equal. apply map_eq. intros k.
  destruct (decide (k = ts)) as [->|]; [by rewrite !lookup_delete_eq|].
  rewrite !lookup_delete_ne by done. by apply Ho.
Qed.
Lemma over_running ts c : over ts c ↔ running_at ts (transport c) = false.
Proof.
  unfold over, running_at, is_running. destruct (streams (transport c) !! ts) as [x|]; cbn.
  - rewrite negb_false_iff. split; [by intros H; apply H|]. by intros H y [= <-].
  - by split.
Qed.
(** An operation after which a stream that was over is over adds no running stream. *)
Lemma count_kept attach ts c c' :
  touches attach ts c c' → over_kept ts c c' →
  active_transport_stream_count (transport c') ≤ active_transport_stream_count (transport c).
Proof.
  intros Ht Hk. rewrite !(count_split ts), (others_touched _ _ _ _ Ht).
  destruct (running_at ts (transport c)) eqn:E.
  - destruct (running_at ts (transport c')); cbn; lia.
  - apply over_running, Hk, over_running in E. rewrite E. lia.
Qed.

(** ** One operation *)

(** The invariant of a connection: the tables are wired, the running transport streams are
    within the limit, and a TCP connection has no control streams. *)
Record transport_ok (s : InMemoryTransport) : Prop := {
  ok_wired : wired s;
  ok_streams : active_transport_stream_count s ≤ max_active_transport_streams (config s);
  ok_tcp : policy s = Tcp → control_stream_attachments s = ∅ }.

Definition conn (s : InMemoryTransport) : Conn := {| transport := s; actions := [] |}.
Lemma conn_start s : wired s → conn_ok (conn s).
Proof.
  intros Hw. split; [done|]. destruct (ok_config _ Hw) as [_ _ [? _] [? _] _ _].
  split; [done|]. done.
Qed.

(** What an operation on [ts] establishes. *)
Record op_spec (ts : Z) (s s' : InMemoryTransport)
    (r : result SarError.t (list TransportAction.t)) : Prop := {
  spec_wired : wired s';
  spec_returns : no_panic r;
  spec_touches : touches true ts (conn s) (conn s');
  spec_mirror : ∀ acts, r = Ok acts → mirror_of s' = replay acts (mirror_of s) }.
Lemma run_spec (R : rel) attach ts p s :
  runs R p (conn s) (λ _ c', logged (conn s) c') →
  (∀ c', R (conn s) c' → touches attach ts (conn s) c') →
  let '(s', r) := run p s in
  op_spec ts s s' r
  ∧ (∀ acts, r = Ok acts → within_limits (config s) acts)
  ∧ ∃ c', transport c' = s' ∧ R (conn s) c'.
Proof.
  intros (Hok & HR & HQ) Ht. unfold run. fold (conn s).
  destruct (p (conn s)) as [c' r]. cbn [fst snd] in *. pose proof (Ht c' HR) as Htc.
  assert (Htouch : touches true ts (conn s) (conn (transport c'))).
  { pose proof Htc as []. split; try done. intros k id [?|[_ ?]]%touch_attach0; auto. }
  split_and!; [split| |by exists c'].
  - apply Hok.
  - by destruct r.
  - done.
  - intros acts Hr. destruct r as [[]| |]; [|done..]. injection Hr as <-.
    destruct HQ as (new & Ha & Hm). cbn in Ha. by rewrite Ha.
  - intros acts Hr. destruct r as [[]| |]; [|done..]. injection Hr as <-.
    destruct Hok as [_ Hl]. by rewrite (touch_config _ _ _ _ Htc) in Hl.
Qed.

Lemma open_spec ts s :
  transport_ok s →
  let '(s', r) := exec (OpOpen ts) s in
  op_spec ts s s' r ∧ (∀ acts, r = Ok acts → within_limits (config s) acts) ∧ transport_ok s'.
Proof.
  intros [Hw Hn Htcp]. cbn [exec].
  pose proof (run_spec (plain ts) false ts (open_transport_stream ts) s
    (open_runs ts _ (conn_start s Hw)) (λ c' H, H)) as Hrun.
  destruct (run (open_transport_stream ts) s) as [s' r] eqn:E.
  destruct Hrun as (Hspec & Hlim & c' & <- & Ht). split; [done|]. split; [done|].
  split; [apply Hspec| |].
  - rewrite (touch_config _ _ _ _ Ht).
    destruct (decide (is_Some (streams s !! ts))) as [Hs|Hs].
    { unfold run, open_transport_stream, mbind, conn_bind, self in E. cbn in E.
      rewrite bool_decide_eq_true_2 in E by done. injection E as <- _. done. }
    destruct (active_transport_stream_count s >=? max_active_transport_streams (config s)) eqn:Ec.
    { unfold run, open_transport_stream, mbind, conn_bind, self in E. cbn in E.
      rewrite bool_decide_eq_false_2, Ec in E by done. injection E as <- _. done. }
    rewrite (count_split ts), (others_touched _ _ _ _ Ht).
    rewrite (count_split ts s) in Ec. unfold running_at at 1 in Ec.
    apply eq_None_not_Some in Hs. rewrite Hs in Ec. cbn in *.
    destruct (running_at ts (transport c')); cbn; lia.
  - rewrite (touch_policy _ _ _ _ Ht). intros Hp. apply map_empty. intros k.
    pose proof (touch_attach _ _ _ _ Ht k) as Hk. cbn in Hk. rewrite (Htcp Hp) in Hk.
    destruct (control_stream_attachments (transport c') !! k) as [id|]; [|done].
    by destruct (Hk id eq_refl) as [?|[? _]].
Qed.

(** Operations after which no stream runs that did not run before. *)
Lemma kept_spec (R : rel) attach ts p s :
  transport_ok s → runs R p (conn s) (λ _ c', logged (conn s) c') →
  (∀ c', R (conn s) c' → touches attach ts (conn s) c') →
  (∀ c', R (conn s) c' → over_kept ts (conn s) c') → (policy s = Tcp → attach = false) →
  let '(s', r) := run p s in
  op_spec ts s s' r ∧ (∀ acts, r = Ok acts → within_limits (config s) acts) ∧ transport_ok s'
  ∧ active_transport_stream_count s' ≤ active_transport_stream_count s.
Proof.
  intros [Hw Hn Htcp] Hr Ht Hov Hatt. pose proof (run_spec R attach ts p s Hr Ht) as Hrun.
  destruct (run p s) as [s' r]. destruct Hrun as (Hspec & Hlim & c' & <- & HR).
  pose proof (Ht c' HR) as Htc. pose proof (count_kept _ _ _ _ Htc (Hov c' HR)) as Hc.
  split; [done|]. split; [done|]. split; [|exact Hc]. split; [apply Hspec| |].
  - rewrite (touch_config _ _ _ _ Htc). cbn in *. lia.
  - rewrite (touch_policy _ _ _ _ Htc). intros Hp. apply map_empty. intros k.
    pose proof (touch_attach _ _ _ _ Htc k) as Hk. cbn in Hk, Hp. rewrite (Htcp Hp), (Hatt Hp) in Hk.
    destruct (control_stream_attachments (transport c') !! k) as [id|]; [|done].
    by destruct (Hk id eq_refl) as [?|[? _]].
Qed.
Lemma feed_spec ts bytes now s :
  transport_ok s →
  let '(s', r) := exec (OpFeed ts bytes now) s in
  op_spec ts s s' r ∧ (∀ acts, r = Ok acts → within_limits (config s) acts) ∧ transport_ok s'
  ∧ active_transport_stream_count s' ≤ active_transport_stream_count s.
Proof.
  intros Hs. pose proof Hs as [Hw Hn Htcp]. cbn [exec]. pose proof (conn_start s Hw) as Hc.
  destruct (running_at ts s) eqn:Hrun.
  - assert (Hov : ∀ c', over_kept ts (conn s) c').
    { intros c' H. apply over_running in H. cbn in H. congruence. }
    destruct (policy s) eqn:Hp.
    + apply (kept_spec (plain ts) false); try done.
      eapply runs_mono; [|done|by intros ? c' _ _ H; exact H].
      unfold feed_bytes. apply runs_self. case_match; [by apply runs_throw|].
      change (policy (transport (conn s))) with (policy s). rewrite Hp.
      apply feed_primary_runs; [done|]. unfold unattached. cbn. by rewrite (Htcp eq_refl).
    + apply (kept_spec (local ts) true); try done; [|congruence].
      apply feed_bytes_runs; [done|]. cbn. congruence.
  - apply (kept_spec (steady ts) false); try done.
    + eapply runs_mono; [apply feed_over_runs; [done|by apply over_running]|done|].
      intros ? c' _ [_ Hst] _. by eapply still_logged.
    + by intros c' [].
    + intros c' [_ Hst]. exact (still_over _ _ _ Hst).
Qed.
Lemma ending_spec ts p s :
  transport_ok s → runs (ending ts) p (conn s) (λ _ c', logged (conn s) c') →
  let '(s', r) := run p s in
  op_spec ts s s' r ∧ (∀ acts, r = Ok acts → within_limits (config s) acts) ∧ transport_ok s'
  ∧ active_transport_stream_count s' ≤ active_transport_stream_count s.
Proof.
  intros Hs Hr. apply (kept_spec (ending ts) false); [done..|by intros c' []|by intros c' []|done].
Qed.
Lemma heartbeat_spec ts now s :
  transport_ok s →
  let '(s', r) := exec (OpHeartbeat ts now) s in
  op_spec ts s s' r ∧ transport_ok s'
  ∧ active_transport_stream_count s' ≤ active_transport_stream_count s.
Proof.
  intros [Hw Hn Htcp]. cbn [exec].
  destruct (heartbeat_cases ts now s) as [(r & -> & Hr)|[id ->]].
  { split; [|by split]. split; try done; [by destruct Hr as [->|[? ->]]|].
    by intros acts ->; destruct Hr as [[= ->]|[? ?]]. }
  set (f := λ c, Ctx.set_times c (Ctx.last_valid_activity_ms c) (Some now)).
  change (set_streams s (alter f ts (streams s))) with (transport (updated ts f (conn s))).
  pose proof (updated_core_ok ts f _ (conn_start s Hw) (λ x, conj eq_refl
    (conj eq_refl (conj eq_refl (conj eq_refl (conj eq_refl eq_refl)))))) as [Hw' _].
  pose proof (updated_touches ts f (conn s)) as Ht.
  assert (Hc : active_transport_stream_count (transport (updated ts f (conn s)))
               ≤ active_transport_stream_count s).
  { apply (count_kept false ts (conn s)); [done|]. exact (still_over _ _ _ (updated_still ts f _ (λ _ H, H))). }
  split; [|split; [|done]].
  - split; [done|done|by apply touches_weaken|]. by intros acts [= <-].
  - split; [done|cbn in *; lia|done].
Qed.
Lemma provider_ok kp s :
  transport_ok s → EntryDecode.provider_total (Some kp) → transport_ok (with_key_provider s kp).
Proof. intros [[] Hn Ht] Hkp. by split; [split|..]. Qed.

Lemma exec_spec op s :
  transport_ok s → op_ok op →
  let '(s', r) := exec op s in
  transport_ok s' ∧ no_panic r ∧ (∀ ts, op_stream op = Some ts → op_spec ts s s' r)
  ∧ (is_binding_op op = true → ∀ acts, r = Ok acts → within_limits (config s) acts)
  ∧ (∀ acts, r = Ok acts → mirror_of s' = replay acts (mirror_of s)).
Proof.
  intros Hs Hop. pose proof (conn_start s (ok_wired s Hs)) as Hc.
  assert (Hgoal : ∀ ts s' r, op_stream op = Some ts → op_spec ts s s' r → transport_ok s' →
    (is_binding_op op = true → ∀ acts, r = Ok acts → within_limits (config s) acts) →
    transport_ok s' ∧ no_panic r ∧ (∀ ts, op_stream op = Some ts → op_spec ts s s' r)
    ∧ (is_binding_op op = true → ∀ acts, r = Ok acts → within_limits (config s) acts)
    ∧ (∀ acts, r = Ok acts → mirror_of s' = replay acts (mirror_of s))).
  { intros ts s' r Hts Hsp Hok Hl. pose proof Hsp as [].
    split; [done|]. split; [done|]. split; [by intros ? [= <-]%(eq_trans (eq_sym Hts))|]. by split. }
  destruct op as [ts|ts bytes now|ts|ts reason|ts now|ts now|kp].
  - pose proof (open_spec ts s Hs) as H. destruct (exec _ s) as [s' r].
    destruct H as (? & ? & ?). by apply (Hgoal ts).
  - pose proof (feed_spec ts bytes now s Hs) as H. destruct (exec _ s) as [s' r].
    destruct H as (? & ? & ? & _). by apply (Hgoal ts).
  - pose proof (ending_spec ts _ s Hs (close_runs ts _ Hc)) as H. cbn [exec].
    destruct (run _ s) as [s' r]. destruct H as (? & ? & ? & _). by apply (Hgoal ts).
  - pose proof (ending_spec ts _ s Hs (reset_runs ts reason _ Hc)) as H. cbn [exec].
    destruct (run _ s) as [s' r]. destruct H as (? & ? & ? & _). by apply (Hgoal ts).
  - pose proof (heartbeat_spec ts now s Hs) as H. destruct (exec _ s) as [s' r].
    destruct H as (? & ? & _). by apply (Hgoal ts).
  - pose proof (ending_spec ts _ s Hs (activity_runs ts now _ Hc)) as H. cbn [exec].
    destruct (run _ s) as [s' r]. destruct H as (? & ? & ? & _). by apply (Hgoal ts).
  - cbn [exec]. split; [by apply provider_ok|]. split; [done|]. split; [done|]. split; [done|].
    by intros acts [= <-].
Qed.

Lemma new_transport_ok mode cfg : config_typed cfg → transport_ok (new_transport mode cfg).
Proof.
  intros Hcfg. pose proof Hcfg as [[? _] [? _] _ _ [? _] [? _]].
  split; [|unfold active_transport_stream_count; cbn; by rewrite map_filter_empty|done].
  split; cbn; try done.
  - intros id. by rewrite !lookup_empty.
  - intros id. rewrite lookup_empty. by intros [].
Qed.
Lemma reachable_transport mode cfg s :
  config_typed cfg → reachable mode cfg s → transport_ok s ∧ config s = cfg ∧ policy s = mode.
Proof.
  intros Hcfg. induction 1 as [|s op _ (Hs & Hc & Hp) Hop]; [by split; [apply new_transport_ok|]|].
  pose proof (exec_spec op s Hs Hop) as H. destruct (exec op s) as [s' r] eqn:E. cbn [fst].
  destruct H as (Hok & _ & Hspec & _). split; [done|].
  destruct (op_stream op) as [ts|] eqn:Ets.
  - destruct (spec_touches _ _ _ _ (Hspec ts eq_refl)) as [Ec Ep _ _ _ _ _]. cbn in *. by subst.
  - destruct op; try done. injection E as <- _. done.
Qed.

(** ** The TCP policy *)
Lemma push_succeeds a c :
  len (actions c) < max_pending_actions (config (transport c)) →
  push_action a c = (pushed a c, Ok ()).
Proof.
  intros Hl. unfold push_action, mbind, conn_bind, self, emitted.
  by rewrite Zge_false by lia.
Qed.
Lemma reject_succeeds ts err seq c :
  policy (transport c) = Tcp →
  len (actions c) + 3 ≤ max_pending_actions (config (transport c)) →
  (reject_stream_with_policy ts None err seq c).2 = Ok ().
Proof.
  intros Hp Hl. unfold reject_stream_with_policy, mbind, conn_bind, self, emitted.
  cbn [mret conn_ret]. rewrite push_succeeds by lia. cbn [mret conn_ret]. rewrite Hp.
  rewrite push_succeeds; [rewrite push_succeeds; [done|]|]; cbn [pushed actions transport];
    rewrite ?len_app, ?len_cons, ?(@len_nil TransportAction.t); lia.
Qed.
Definition accepted (ts : Z) (c : Conn) : Conn :=
  pushed (AcceptTransportStream ts)
    (updated ts (λ x, Ctx.set_state x AwaitingGlobalHeader) (opened ts c)).
Lemma open_unfold ts c :
  streams (transport c) !! ts = None →
  active_transport_stream_count (transport c)
    < max_active_transport_streams (config (transport c)) →
  len (actions c) < max_pending_actions (config (transport c)) →
  open_transport_stream ts c
  = match ensure_tcp_not_interleaved (transport (accepted ts c)) with
    | Ok _ => (accepted ts c, Ok ())
    | Err err => policy_error_actions ts err (accepted ts c)
    | Panic => (accepted ts c, Panic)
    end.
Proof.
  intros Hts Hn Ha. unfold open_transport_stream, mbind, conn_bind, self.
  rewrite bool_decide_eq_false_2 by (by rewrite Hts; intros []).
  rewrite Zge_false by lia. unfold update_context, modify. cbn [transport actions].
  rewrite push_succeeds by done. unfold accepted, updated, opened, pushed. cbn [transport actions].
  by destruct (ensure_tcp_not_interleaved _) as [[]| |].
Qed.
Lemma open_tcp ts s :
  transport_ok s → policy s = Tcp → 4 ≤ max_pending_actions (config s) →
  active_transport_stream_count s ≤ 1 →
  active_transport_stream_count (exec (OpOpen ts) s).1 ≤ 1.
Proof.
  intros Hs Hp H4 H1. cbn [exec].
  destruct (decide (is_Some (streams s !! ts))) as [Hs'|Hs'].
  { unfold run, open_transport_stream, mbind, conn_bind, self. cbn.
    by rewrite bool_decide_eq_true_2. }
  destruct (Z.lt_ge_cases (active_transport_stream_count s) (max_active_transport_streams (config s)))
    as [Hm|Hm].
  2: { unfold run, open_transport_stream, mbind, conn_bind, self. cbn.
       rewrite bool_decide_eq_false_2 by done. by rewrite Zge_true by lia. }
  apply eq_None_not_Some in Hs'. pose proof (conn_start s (ok_wired s Hs)) as Hc.
  assert (Hc3 : conn_ok (accepted ts (conn s)) ∧ touches false ts (conn s) (accepted ts (conn s))).
  { split.
    - destruct (updated_core_ok ts (λ x, Ctx.set_state x AwaitingGlobalHeader) _
        (opened_ok ts _ Hc Hs') (λ x, set_state_core x _)) as [Hw _].
      split; [done|]. destruct (ok_config _ Hw) as [_ _ _ [? _] _ _].
      split; [change (1 ≤ max_pending_actions (config s)); lia|done].
    - etrans; [by apply opened_touches|]. etrans; [apply updated_touches|apply pushed_touches]. }
  destruct Hc3 as [Hc3 Ht].
  unfold run. fold (conn s). rewrite open_unfold; [|done|done|change (0 < max_pending_actions (config s)); lia].
  unfold ensure_tcp_not_interleaved.
  change (policy (transport (accepted ts (conn s)))) with (policy s). rewrite Hp.
  destruct (active_transport_stream_count _ >? 1) eqn:E.
  2: { change (active_transport_stream_count (transport (accepted ts (conn s))) ≤ 1). lia. }
  set (err := SarError.StreamState _).
  destruct (policy_error_runs ts err _ Hc3) as (_ & [[Ht2 _] _] & Hov).
  assert (Hok : (policy_error_actions ts err (accepted ts (conn s))).2 = Ok ()).
  { unfold policy_error_actions, mbind, conn_bind, self.
    assert (Hlk : streams (transport (accepted ts (conn s))) !! ts
      = Some (Ctx.set_state (Ctx.new (config s) (key_provider s)) AwaitingGlobalHeader)).
    { cbn. by rewrite lookup_alter_eq, lookup_insert_eq. }
    rewrite Hlk. cbn [mbind option_bind]. apply reject_succeeds; [done|]. change (1 + 3 ≤ max_pending_actions (config s)). lia. }
  rewrite Hok in Hov. destruct (policy_error_actions ts err _) as [c4 r4]. cbn [fst snd] in *.
  subst r4. cbn [fst].
  rewrite (count_split ts), (proj1 (over_running ts c4) Hov), (others_touched false ts (conn s)) by (by etrans).
  rewrite (count_split ts s) in H1. change (transport (conn s)) with s.
  destruct (running_at ts s); cbn [Z.b2z] in *; lia.
Qed.

(** ** The theorems *)

(** (C11) The invariant of a connection: whatever operations are performed and whatever bytes
    arrive, every bound SAR stream has a non-zero id, an owner among the transport streams,
    a session UUID of 16 bytes and the global header of its session; bound streams, running
    transport streams, control streams of a session and remembered rejections stay within
    their limits; TLS-exporter bindings and control attachments belong to bound streams,
    and the header kept for a TLS-exporter binding is one of that mode. *)
Theorem transport_invariant mode cfg s :
  config_typed cfg → reachable mode cfg s → transport_ok s.
Proof. intros Hcfg Hr. by apply (reachable_transport mode cfg). Qed.

(** (C12) Every operation on a reachable connection returns: the loops over buffered bytes end
    and nothing panics, so the result is a list of actions or an error. *)
Theorem transport_returns mode cfg s op :
  config_typed cfg → reachable mode cfg s → op_ok op →
  (∃ acts, (exec op s).2 = Ok acts) ∨ ∃ e, (exec op s).2 = Err e.
Proof.
  intros Hcfg Hr Hop. destruct (reachable_transport mode cfg s Hcfg Hr) as [Hs _].
  pose proof (exec_spec op s Hs Hop) as H. destruct (exec op s) as [s' [acts|e|]]; cbn; eauto.
  by destruct H as (_ & ? & _).
Qed.

(** (C15) Transport streams are isolated: an operation on one of them leaves the parser, the
    session manager and the state of every other untouched, and binds, attaches or rebinds
    nothing on its behalf; what it can do to another stream is end its session. *)
Theorem streams_isolated mode cfg s op ts :
  config_typed cfg → reachable mode cfg s → op_ok op → op_stream op = Some ts →
  let s' := (exec op s).1 in
  (∀ k, k ≠ ts → streams s' !! k = streams s !! k)
  ∧ (∀ id k, k ≠ ts → active_sar_streams s' !! id = Some k →
       active_sar_streams s !! id = Some k)
  ∧ (∀ k id, k ≠ ts → control_stream_attachments s' !! k = Some id →
       control_stream_attachments s !! k = Some id).
Proof.
  intros Hcfg Hr Hop Hts. destruct (reachable_transport mode cfg s Hcfg Hr) as [Hs _].
  pose proof (exec_spec op s Hs Hop) as H. destruct (exec op s) as [s' r]. cbn.
  destruct H as (_ & _ & Hspec & _).
  destruct (spec_touches _ _ _ _ (Hspec ts Hts)) as [_ _ _ Ho _ Hb Ha].
  split; [done|]. split.
  - intros id k Hk Hid. by destruct (Hb id k Hid).
  - intros k id Hk Hid. by destruct (Ha k id Hid) as [|[_ ?]].
Qed.

(** The actions an operation of the binding returns are within the configured number of
    actions and of status and acknowledgement frames. *)
Theorem actions_within_limits mode cfg s op acts :
  config_typed cfg → reachable mode cfg s → op_ok op → is_binding_op op = true →
  (exec op s).2 = Ok acts → within_limits cfg acts.
Proof.
  intros Hcfg Hr Hop Hb He. destruct (reachable_transport mode cfg s Hcfg Hr) as (Hs & <- & _).
  pose proof (exec_spec op s Hs Hop) as H. destruct (exec op s) as [s' r]. cbn in He. subst.
  destruct H as (_ & _ & _ & Hl & _). by apply Hl.
Qed.

(** (C16) A TCP connection carries one transport stream at a time: a second stream is rejected
    as it is opened, as long as an operation may return the four actions this takes. *)
Theorem tcp_single_stream cfg s :
  config_typed cfg → 4 ≤ max_pending_actions cfg → reachable Tcp cfg s →
  active_transport_stream_count s ≤ 1.
Proof.
  intros Hcfg H4 Hr. induction Hr as [|s op Hr IH Hop]; [done|].
  destruct (reachable_transport Tcp cfg s Hcfg Hr) as (Hs & Hc & Hp).
  pose proof (conn_start s (ok_wired s Hs)) as Hcs.
  destruct op as [ts|ts bytes now|ts|ts reason|ts now|ts now|kp].
  - apply open_tcp; [done..|by rewrite Hc|done].
  - pose proof (feed_spec ts bytes now s Hs) as H. destruct (exec _ s). cbn.
    destruct H as (_ & _ & _ & ?). lia.
  - pose proof (ending_spec ts _ s Hs (close_runs ts _ Hcs)) as H. cbn [exec].
    destruct (run _ s). cbn. destruct H as (_ & _ & _ & ?). lia.
  - pose proof (ending_spec ts _ s Hs (reset_runs ts reason _ Hcs)) as H. cbn [exec].
    destruct (run _ s). cbn. destruct H as (_ & _ & _ & ?). lia.
  - pose proof (heartbeat_spec ts now s Hs) as H. destruct (exec _ s). cbn.
    destruct H as (_ & _ & ?). lia.
  - pose proof (ending_spec ts _ s Hs (activity_runs ts now _ Hcs)) as H. cbn [exec].
    destruct (run _ s). cbn. destruct H as (_ & _ & _ & ?). lia.
  - done.
Qed.

(** ** The harness *)

(** Operations on a harness, up to the first one that fails. *)
Fixpoint harness_run (ops : list Op) (h : TransportHarness)
    : TransportHarness * result SarError.t unit :=
  match ops with
  | [] => (h, Ok ())
  | op :: ops =>
      match collect (exec op) h with
      | (h, Ok _) => harness_run ops h
      | (h, r) => (h, r)
      end
  end.
Lemma harness_mirror ops h h' :
  transport_ok (binding h) → Forall op_ok ops → harness_run ops h = (h', Ok ()) →
  ∃ new, collected h' = collected h ++ new
    ∧ mirror_of (binding h') = replay new (mirror_of (binding h)).
Proof.
  revert h. induction ops as [|op ops IH]; intros h Hs Hops Hrun.
  { injection Hrun as <-. exists []. by rewrite app_nil_r. }
  apply Forall_cons in Hops as [Hop Hops]. cbn [harness_run] in Hrun. unfold collect in Hrun.
  pose proof (exec_spec op (binding h) Hs Hop) as H.
  destruct (exec op (binding h)) as [s [acts|e|]]; [|done..].
  destruct H as (Hok & _ & _ & _ & Hm).
  destruct (IH {| binding := s; collected := collected h ++ acts |} Hok Hops Hrun) as (new & Hc & Hr). cbn [binding collected] in *.
  exists (acts ++ new). rewrite Hc, app_assoc. split; [done|].
  rewrite Hr, (Hm acts eq_refl). unfold replay. by rewrite foldl_app.
Qed.

(** (C13) The actions tell the whole story: a caller that starts from empty tables and applies
    the bind, attach and close actions the harness collected has, after any run of
    operations that succeed, exactly the SAR bindings and the control attachments of the
    connection. *)
Theorem harness_replay mode cfg ops h :
  config_typed cfg → Forall op_ok ops → harness_run ops (harness mode cfg) = (h, Ok ()) →
  mirror_of (binding h) = replay (collected h) (∅, ∅).
Proof.
  intros Hcfg Hops Hrun.
  destruct (harness_mirror ops (harness mode cfg) h (new_transport_ok mode cfg Hcfg) Hops Hrun) as (new & Hc & Hm).
  by rewrite Hc, Hm.
Qed.

(** ** TLS-exporter sessions *)

Lemma conn_bind_Ok {A C} (p : M A) (f : A → M C) c c' b :
  (p ≫= f) c = (c', Ok b) → ∃ a c1, p c = (c1, Ok a) ∧ f a c1 = (c', Ok b).
Proof. unfold mbind, conn_bind. destruct (p c) as [c1 [a| |]]; [|done..]. eauto. Qed.
Lemma conn_lift_Ok {A C} (r : result SarError.t A) (f : A → M C) c c' b :
  (lift r ≫= f) c = (c', Ok b) → ∃ a, r = Ok a ∧ f a c = (c', Ok b).
Proof. unfold mbind, conn_bind, lift. destruct r as [a| |]; [|done..]. eauto. Qed.
Lemma conn_context_Ok {C} ts (f : Ctx.t → M C) c c' b :
  (context_of ts ≫= f) c = (c', Ok b) →
  ∃ x, streams (transport c) !! ts = Some x ∧ f x c = (c', Ok b).
Proof.
  intros (x & c1 & Hx & Hf)%conn_bind_Ok. unfold context_of, self, mbind, conn_bind, lift in Hx.
  destruct (streams (transport c) !! ts) as [y|]; [|done]. injection Hx as <- <-. eauto.
Qed.
Lemma or_control_Ok {A} (r : result SarError.t A) k c c' seq res :
  or_control_error r k c = (c', Ok (ControlSessionResult seq res)) →
  ∃ a, r = Ok a ∧ k a c = (c', Ok (ControlSessionResult seq res)).
Proof. destruct r as [a|e|]; [eauto|done..]. Qed.
Lemma process_with_Ok ts x e c c' r :
  process_with ts x e c = (c', Ok r) → r = (Session.process_entry e (Ctx.manager x)).2.
Proof.
  unfold process_with. destruct (Session.process_entry e (Ctx.manager x)) as [m res].
  intros (u & c1 & _ & H)%conn_bind_Ok. destruct res; [by injection H as _ <-..|done].
Qed.
Lemma decrypt_Ok kp h lfh bs ct plain :
  decrypt_additional_control_payload kp h lfh bs ct = Ok plain →
  ∃ algo nonce ctx cek, Lfh.encr_algo_id lfh = Some algo ∧ Lfh.iv_nonce lfh = Some nonce
    ∧ build_kms_context_for_additional_control h = Ok ctx ∧ Kms.resolve_cek kp ctx = Ok cek
    ∧ Crypto.aead_decrypt algo cek nonce (Format.global_header_flags_bytes h ++ bs) ct = Ok plain.
Proof.
  unfold decrypt_additional_control_payload. intros H.
  apply bind_Ok in H as (algo & Ha%ok_or_Ok & H). apply bind_Ok in H as (nonce & Hn%ok_or_Ok & H).
  apply bind_Ok in H as (ctx & Hctx & H). apply bind_Ok in H as (cek & Hcek%map_err_Ok & H).
  cbv zeta in H. apply map_err_Ok in H. by exists algo, nonce, ctx, cek.
Qed.
(** The block behind the buffering, for an entry that reaches the session manager. *)
Lemma control_entry_Ok ts now s id h x lfh bs ct total c c' seq r :
  control_entry_event ts now s id h x lfh bs ct total c
    = (c', Ok (ControlSessionResult seq r)) →
  id ∈ tls_exporter_bound s →
  Lfh.stream_id lfh = id ∧ EntryMode.is_encrypted (Lfh.entry_mode lfh) = true
  ∧ ∃ kp plain, key_provider s = Some kp
    ∧ decrypt_additional_control_payload kp h lfh bs ct = Ok plain
    ∧ r = (Session.process_entry {| Session.header := lfh; Session.payload := plain;
             Session.degraded := false |} (Ctx.manager x)).2.
Proof.
  intros H Htls. unfold control_entry_event in H. cbv zeta in H.
  apply or_control_Ok in H as ([] & Hv & H). apply validated_control in Hv as (_ & Hid & _).
  rewrite bool_decide_eq_true_2 in H by done. cbn [andb] in H.
  destruct (EntryMode.is_encrypted (Lfh.entry_mode lfh)) eqn:Henc; cbn [negb] in H; [|done].
  apply or_control_Ok in H as (plain & Hp & H).
  unfold control_plaintext, Session.entry_mode in Hp. cbn [Session.header Session.payload] in Hp.
  rewrite bool_decide_eq_true_2, Henc in Hp by done. cbn [andb] in Hp.
  destruct (key_provider s) as [kp|]; [|done].
  apply conn_bind_Ok in H as (u1 & c1 & _ & H). apply conn_bind_Ok in H as (u2 & c2 & _ & H).
  apply conn_bind_Ok in H as (res & c3 & Hr%process_with_Ok & H).
  injection H as _ _ <-. split; [done|]. split; [done|]. by exists kp, plain.
Qed.

(** (C14) An additional control stream of a TLS-exporter session is authenticated: the only
    entries its session manager sees are encrypted ones that the key provider's key opens,
    with the flags section of the session's global header and the header bytes of the
    entry as additional data, and what it sees is the plaintext. *)
Theorem control_stream_authenticated ts now c c' seq r id :
  control_event ts now c = (c', Ok (ControlSessionResult seq r)) →
  control_stream_attachments (transport c) !! ts = Some id →
  id ∈ tls_exporter_bound (transport c) →
  ∃ kp h x lfh n bs ct rest algo nonce ctx cek plain,
    key_provider (transport c) = Some kp
    ∧ active_global_headers (transport c) !! id = Some h
    ∧ streams (transport c) !! ts = Some x
    ∧ Ctx.quic_pending_bytes x = bs ++ ct ++ rest
    ∧ Lfh.parse_lfh bs (Format.flags h) (Ctx.limits x) = Ok (lfh, n)
    ∧ Lfh.stream_id lfh = id ∧ EntryMode.is_encrypted (Lfh.entry_mode lfh) = true
    ∧ Lfh.encr_algo_id lfh = Some algo ∧ Lfh.iv_nonce lfh = Some nonce
    ∧ build_kms_context_for_additional_control h = Ok ctx
    ∧ Kms.resolve_cek kp ctx = Ok cek
    ∧ Crypto.aead_decrypt algo cek nonce (Format.global_header_flags_bytes h ++ bs) ct = Ok plain
    ∧ r = (Session.process_entry {| Session.header := lfh; Session.payload := plain;
             Session.degraded := false |} (Ctx.manager x)).2.
Proof.
  intros H Hid Htls. unfold control_event in H.
  apply conn_bind_Ok in H as (s & c1 & [= <- <-] & H).
  apply conn_lift_Ok in H as (id' & Hid'%ok_or_Ok & H). rewrite Hid in Hid'. injection Hid' as <-.
  apply conn_lift_Ok in H as (h & Hh%ok_or_Ok & H).
  apply conn_context_Ok in H as (x & Hx & H). cbv zeta in H.
  set (q := Ctx.quic_pending_bytes x) in *. destruct (len q <? 4) eqn:E4; [done|].
  destruct (additional_control_header_size q) as [hs|] eqn:Ehs; [|done].
  apply or_control_Ok in H as ([] & _ & H). destruct (len q <? hs) eqn:El; [done|].
  apply conn_lift_Ok in H as (bs & (-> & Hb0 & Hb1)%slice_r_Ok & H).
  apply or_control_Ok in H as ([lfh n] & Hp & H). pose proof (parsed_typed _ _ _ _ _ Hp) as (_ & _ & _ & Hps).
  destruct (try_from 64 _) as [ps|] eqn:Eps; [|done]. apply try_from_Some in Eps as [-> _].
  destruct (checked_add 64 _ _) as [total|] eqn:Et; [|done]. apply checked_add_Some in Et as [-> _].
  destruct (len q <? hs + Lfh.payload_size lfh) eqn:Ett; [done|].
  apply conn_lift_Ok in H as (ct & (-> & Hc0 & Hc1)%slice_r_Ok & H).
  apply control_entry_Ok in H as (Hsid & Henc & kp & plain & Hkp & Hd & Hr); [|done].
  apply decrypt_Ok in Hd as (algo & nonce & ctx & cek & ? & ? & ? & ? & ?).
  exists kp, h, x, lfh, n, (slice q 0 hs), (slice q hs (hs + Lfh.payload_size lfh)),
    (drop (Z.to_nat (hs + Lfh.payload_size lfh)) q), algo, nonce, ctx, cek, plain.
  split_and!; try done. fold q. unfold slice. rewrite Z.sub_0_r.
  replace (Z.to_nat (hs + Lfh.payload_size lfh - hs)) with (Z.to_nat (Lfh.payload_size lfh)) by lia.
  change (drop (Z.to_nat 0) q) with q. rewrite Z2Nat.inj_add by lia.
  by rewrite <- drop_drop, !take_drop.
Qed.
End theorems.

(** ** Connections on concrete bytes *)
Section examples.
#[local] Existing Instances bitwise Transform.marked_compressors Transform.shift_ciphers
  EntryDecode.zero_kdfs.

(** A header without and one with the TLS-exporter key mode. *)
Definition plain_header : list byte :=
  StreamParser.SAR_MAGIC ++ [x01; x00; x04; x00; x02; x00; x00; x00].
Definition tls_payload : list byte := Kms.serialize_tls_exporter_kms_payload {|
  TlsExporterParams.exporter_label := [x53; x41; x52]; TlsExporterParams.context_version := 1;
  TlsExporterParams.aead_algo_id := 1; TlsExporterParams.kdf_algo_id := 0;
  TlsExporterParams.global_header_hash_algo_id := 0x30; TlsExporterParams.salt := [];
  TlsExporterParams.derived_key_length := 32; TlsExporterParams.flags := 0 |}.
Definition tls_header_bytes : list byte :=
  StreamParser.SAR_MAGIC ++ [x01; x00; x04; x00; x02; x04; x00; x00]
  ++ [x04] ++ le_bytes 4 (len tls_payload) ++ tls_payload.
Definition tls_global_header : Format.GlobalHeader :=
  match Format.parse_global_header tls_header_bytes default_limits with
  | Ok (h, _) => h
  | _ => Session.sample_header
  end.
Definition fixed_key : Kms.KeyProvider := {|
  Kms.password_for := λ _, Ok None; Kms.unwrap_key := λ _ _, Ok None;
  Kms.external_key := λ _, Ok (Some (zeros 32)) |}.

(** An entry on the wire, in the clear and sealed with the key. *)
Definition in_clear (flags : Z) (e : Session.SessionEntry) : list byte :=
  match Lfh.write_lfh flags (Session.header e) with
  | Ok bs => bs ++ Session.payload e
  | _ => []
  end.
Definition encrypted_lfh (e : Session.SessionEntry) : Lfh.LocalFileHeader :=
  let l := Session.header e in {|
  Lfh.header_size := 0; Lfh.entry_mode := Z.lor (Lfh.entry_mode l) EntryMode.ENCRYPTED;
  Lfh.stream_id := Lfh.stream_id l; Lfh.sequence_no := Lfh.sequence_no l;
  Lfh.uncompressed_size := Lfh.uncompressed_size l;
  Lfh.payload_size := len (Session.payload e) + 16; Lfh.comp_algo_id := None;
  Lfh.patch_algo_id := None; Lfh.encr_algo_id := Some Crypto.ENCR_AES256_GCM;
  Lfh.cdc_algo_id := None; Lfh.fec_algo_id := None; Lfh.fragment_id := None;
  Lfh.fragment_index := None; Lfh.fragment_descriptor := None; Lfh.iv_nonce := Some (zeros 24);
  Lfh.delta_base_hash := None; Lfh.file_crc32 := None; Lfh.content_hash := None;
  Lfh.uid_gid := None; Lfh.timestamps := None; Lfh.permissions := None; Lfh.name := [];
  Lfh.path := []; Lfh.sparse_map := []; Lfh.fec_value := [] |}.
Definition sealed_entry (e : Session.SessionEntry) : list byte :=
  match Lfh.write_lfh (Format.flags tls_global_header) (encrypted_lfh e) with
  | Ok bs =>
      match Crypto.aead_encrypt Crypto.ENCR_AES256_GCM (zeros 32) (zeros 24)
              (Crypto.build_aead_aad (Format.global_header_flags_bytes tls_global_header) bs)
              (Session.payload e) with
      | Ok ct => bs ++ ct
      | _ => []
      end
  | _ => []
  end.

(** [SESSION_INIT], [SESSION_CLOSE], [SESSION_HEARTBEAT], [SESSION_ACK] and
    [SESSION_CAPABILITIES] for the stream 7. *)
Definition init_entry (q : Z) : Session.SessionEntry :=
  Session.control_entry 0 q (replicate 16 x07 ++ [x00; x00]).
Definition close_entry (q : Z) : Session.SessionEntry := Session.control_entry 1 q [].
Definition heartbeat_entry (q : Z) : Session.SessionEntry := Session.control_entry 3 q [].
Definition ack_entry (q : Z) : Session.SessionEntry := Session.control_entry 5 q [x01; x00; x07].
Definition capabilities_entry (q : Z) : Session.SessionEntry :=
  Session.control_entry 7 q [x01; x00].

Definition after (mode : PolicyMode) (ops : list Op) : InMemoryTransport :=
  foldl (λ s op, (exec op s).1) (new_transport mode default_config) ops.
Lemma after_reachable mode ops :
  Forall op_ok ops → reachable mode default_config (after mode ops).
Proof.
  unfold after. assert (H : reachable mode default_config (new_transport mode default_config))
    by constructor. revert H. generalize (new_transport mode default_config) as s.
  induction ops as [|op ops IH]; intros s Hs Hops; [done|].
  apply Forall_cons in Hops as [Hop Hops]. cbn. apply IH; [by apply reach_op|done].
Qed.
Lemma default_config_fits : config_typed default_config.
Proof. by split. Qed.
Lemma fixed_key_total : EntryDecode.provider_total (Some fixed_key).
Proof. intros p [= <-] ctx. by split_and!. Qed.

(** A session on the stream 0 and a second transport stream. *)
Definition session_ops : list Op :=
  [OpOpen 0; OpFeed 0 (plain_header ++ in_clear 2 (init_entry 1)) (Some 5); OpOpen 4].
(** A TLS-exporter session on the stream 0, with a control stream attached. *)
Definition tls_ops : list Op :=
  [OpProvider fixed_key; OpOpen 0; OpFeed 0 (tls_header_bytes ++ sealed_entry (init_entry 1)) None;
   OpOpen 4; OpFeed 4 (sealed_entry (ack_entry 2)) None].
Lemma session_ops_ok : Forall op_ok session_ops.
Proof. by repeat constructor. Qed.
Lemma tls_ops_ok : Forall op_ok tls_ops.
Proof. constructor; [apply fixed_key_total|by repeat constructor]. Qed.
Lemma session_reachable : reachable Quic default_config (after Quic session_ops).
Proof. apply after_reachable, session_ops_ok. Qed.

Lemma transport_invariant_witness :
  transport_ok (after Quic session_ops)
  ∧ active_sar_streams (after Quic session_ops) !! 7 = Some 0.
Proof.
  split; [|by vm_compute].
  apply (transport_invariant Quic default_config (after Quic session_ops) default_config_fits
           session_reachable).
Defined.
Lemma transport_returns_witness :
  (∃ acts, (exec (OpFeed 0 (in_clear 2 (close_entry 2)) None) (after Quic session_ops)).2 = Ok acts)
  ∨ ∃ e, (exec (OpFeed 0 (in_clear 2 (close_entry 2)) None) (after Quic session_ops)).2 = Err e.
Proof.
  exact (transport_returns Quic default_config (after Quic session_ops)
           (OpFeed 0 (in_clear 2 (close_entry 2)) None) default_config_fits session_reachable I).
Defined.
Lemma streams_isolated_witness :
  streams (exec (OpClose 4) (after Quic session_ops)).1 !! 0
  = streams (after Quic session_ops) !! 0.
Proof.
  destruct (streams_isolated Quic default_config (after Quic session_ops) (OpClose 4) 4
              default_config_fits session_reachable I eq_refl) as [H _].
  apply H. discriminate.
Defined.
Lemma actions_within_limits_witness : within_limits default_config [AcceptTransportStream 8].
Proof.
  apply (actions_within_limits Quic default_config (after Quic session_ops) (OpOpen 8)
           [AcceptTransportStream 8] default_config_fits session_reachable I eq_refl).
  vm_compute. reflexivity.
Defined.
Lemma tcp_single_stream_witness :
  active_transport_stream_count (after Tcp [OpOpen 0; OpOpen 1]) ≤ 1
  ∧ transport_stream_state (after Tcp [OpOpen 0; OpOpen 1]) 1 = Some Rejected.
Proof.
  split; [|by vm_compute].
  apply (tcp_single_stream default_config (after Tcp [OpOpen 0; OpOpen 1]) default_config_fits).
  - vm_compute. discriminate.
  - apply after_reachable. by repeat constructor.
Defined.
Lemma harness_replay_witness :
  let h := (harness_run tls_ops (harness Quic default_config)).1 in
  mirror_of (binding h) = replay (collected h) (∅, ∅)
  ∧ collected h = [AcceptTransportStream 0; BindSarStream 0 7 (replicate 16 x07);
                   AcceptTransportStream 4; AttachControlStream 4 7].
Proof.
  split; [|by vm_compute].
  apply (harness_replay Quic default_config tls_ops
           (harness_run tls_ops (harness Quic default_config)).1 default_config_fits tls_ops_ok).
  vm_compute. reflexivity.
Defined.

(** The control stream with one more entry buffered. *)
Definition buffered (bytes : list byte) : Conn :=
  updated 4 (λ x, Ctx.set_pending x bytes) (conn (after Quic tls_ops)).
Lemma control_stream_authenticated_witness :
  ∃ kp algo cek nonce aad ct plain, key_provider (after Quic tls_ops) = Some kp
    ∧ Crypto.aead_decrypt algo cek nonce aad ct = Ok plain.
Proof.
  assert (H : ∃ seq r, (control_event 4 None (buffered (sealed_entry (capabilities_entry 2)))).2
    = Ok (ControlSessionResult seq r)) by (vm_compute; eauto).
  destruct H as (seq & r & H).
  destruct (control_stream_authenticated 4 None (buffered (sealed_entry (capabilities_entry 2)))
    (control_event 4 None (buffered (sealed_entry (capabilities_entry 2)))).1 seq r 7)
    as (kp & h & x & lfh & n & bs & ct & rest & algo & nonce & ctx & cek & plain & Hkp & H').
  - rewrite <- H. apply surjective_pairing.
  - vm_compute. reflexivity.
  - vm_compute. reflexivity.
  - destruct H' as (_ & _ & _ & _ & _ & _ & _ & _ & _ & _ & Hd & _).
    exists kp, algo, cek, nonce, (Format.global_header_flags_bytes h ++ bs), ct, plain.
    split; [exact Hkp|exact Hd].
Defined.

(** *** What the isolation leaves open

    A transport stream whose [SESSION_INIT] is refused because the SAR stream is bound
    elsewhere keeps the session in its own manager and goes on with the bytes it has: the
    [SESSION_CLOSE] behind it ends the session of the other stream.  If that was a
    TLS-exporter session, its entries are accepted in the clear from then on. *)
Definition intruder : list Op :=
  [OpOpen 8; OpFeed 8 (plain_header ++ in_clear 2 (init_entry 1) ++ in_clear 2 (close_entry 2)) None].
Definition clear_heartbeat : Op :=
  OpFeed 0 (in_clear (Format.flags tls_global_header) (heartbeat_entry 2)) None.
Definition first_action (r : result SarError.t (list TransportAction.t))
    : option TransportAction.t := match r with Ok (a :: _) => Some a | _ => None end.
Example rejected_stream_ends_session :
  is_tls_exporter_bound (after Quic tls_ops) 7 = true
  ∧ first_action (exec clear_heartbeat (after Quic tls_ops)).2
    = Some (RejectSarStream 0 (SarError.AuthFailed
        "TLS_EXPORTER binding active: unencrypted SAR entry rejected post-binding"))
  ∧ transport_stream_state (after Quic (tls_ops ++ intruder)) 8 = Some AwaitingGlobalHeader
  ∧ is_sar_stream_bound (after Quic (tls_ops ++ intruder)) 7 = false
  ∧ is_tls_exporter_bound (after Quic (tls_ops ++ intruder)) 7 = false
  ∧ (exec clear_heartbeat (after Quic (tls_ops ++ intruder))).2 = Ok [].
Proof. split_and!; vm_compute; reflexivity. Qed.

(** The entries of an additional control stream go to the manager of that stream, in which
    the session is not active: they are reported as inactive and dropped. *)
Example control_entry_dropped :
  (control_event 4 None (buffered (sealed_entry (capabilities_entry 2)))).2
  = Ok (ControlSessionResult 2 (Ok {|
      SessionEvent.events := [SessionEvent.StatefulInactive 7 7 true];
      SessionEvent.actions := [] |})).
Proof. vm_compute. reflexivity. Qed.

(** A transport stream with two sessions remembers the last: closing it leaves the first
    bound to a closed stream. *)
Definition on_stream (id : Z) (e : Session.SessionEntry) : list byte :=
  let bs := in_clear 2 e in take 6 bs ++ le_bytes 2 id ++ drop 8 bs.
Definition two_sessions : list Op :=
  [OpOpen 0; OpFeed 0 (plain_header ++ on_stream 7 (init_entry 1) ++ on_stream 9 (init_entry 1)) None;
   OpClose 0].
Example first_session_stays_bound :
  active_sar_streams (after Quic two_sessions) !! 7 = Some 0
  ∧ active_sar_streams (after Quic two_sessions) !! 9 = None
  ∧ transport_stream_state (after Quic two_sessions) 0 = Some Closed.
Proof. split_and!; vm_compute; reflexivity. Qed.

End examples.
End TransportTheorems.
