(* ===== verification/FileSystem.v ===== *)
(** * Paths and the file system

    What the command line uses of [std::path], [std::fs] and [std::io] on a Unix system.

    A [Path] is its components, the view in which [std] compares paths: a leading [/] and the
    names between the separators; repeated separators and [.] vanish, [..] stays.  The file
    system maps locations (the names from the root) to nodes; [walk] resolves a path the way
    the kernel does, following symbolic links in the middle of the path always, at its end on
    demand, forty of them at most.  It also returns the locations it looked at.

    A system call can fail for reasons that are no part of this state (permissions, a full
    disk).  [Host] says for every call whether it does: the calls are numbered, a call that
    fails has no effect, except that a failed write leaves a prefix of its bytes.  Hard links
    and the times the system keeps by itself are not part of the state; nobody else changes it. *)

From stdpp Require Import gmap.
From Stdlib Require Import String.
From S2P Require Import Prelude Errors.

Module FileSystem.

#[global] Program Instance byte_countable : Countable byte :=
  inj_countable Byte.to_N Byte.of_N _.
Next Obligation. apply Byte.of_to_N. Qed.

(** The bytes of a string literal. *)
Definition bytes (s : string) : list byte := String.list_byte_of_string s.

(** ** Paths *)
Abbreviation Name := (list byte).
Definition SLASH : byte := x2f.
Definition dot : Name := [x2e].
Definition dotdot : Name := [x2e; x2e].

(** [str::split] at a one-byte character: one piece more than separators. *)
Fixpoint split (sep : byte) (s : list byte) : list (list byte) :=
  match s with
  | [] => [[]]
  | b :: s =>
      if bool_decide (b = sep) then [] :: split sep s
      else match split sep s with p :: ps => (b :: p) :: ps | [] => [[b]] end
  end.

Record Path := { is_absolute : bool; pieces : list Name }.
Definition path_of (s : list byte) : Path := {|
  is_absolute := bool_decide (head s = Some SLASH);
  pieces := filter (λ p, p ≠ [] ∧ p ≠ dot) (split SLASH s) |}.

(** [Path::join], and [PathBuf::push]: an absolute argument replaces the path. *)
Definition join (p : Path) (s : list byte) : Path :=
  let q := path_of s in
  if is_absolute q then q
  else {| is_absolute := is_absolute p; pieces := pieces p ++ pieces q |}.
Definition parent_of (p : Path) : Path :=
  {| is_absolute := is_absolute p; pieces := removelast (pieces p) |}.
Definition file_name (p : Path) : option Name :=
  match last (pieces p) with
  | Some n => if bool_decide (n = dotdot) then None else Some n
  | None => None
  end.
Definition with_file_name (p : Path) (s : list byte) : Path :=
  match file_name p with Some _ => join (parent_of p) s | None => join p s end.

(** [Path::starts_with]: by components.  [as_bytes] is the text of a path. *)
Definition path_starts_with (p q : Path) : bool :=
  bool_decide (is_absolute p = is_absolute q ∧ take (length (pieces q)) (pieces p) = pieces q).
Definition join_names (cs : list Name) : list byte :=
  match cs with [] => [] | c :: cs => c ++ concat ((λ c, SLASH :: c) <$> cs) end.
Definition as_bytes (p : Path) : list byte :=
  (if is_absolute p then [SLASH] else []) ++ join_names (pieces p).

(** ** The file system *)

(** [std::io::ErrorKind] as far as the code tells the kinds apart. *)
Inductive IoError : Set :=
  | NotFound | AlreadyExists | NotADirectory | IsADirectory | FilesystemLoop
  | OtherError (msg : string).
Definition io_message (e : IoError) : string :=
  match e with
  | NotFound => "entity not found" | AlreadyExists => "entity already exists"
  | NotADirectory => "not a directory" | IsADirectory => "is a directory"
  | FilesystemLoop => "filesystem loop or indirection limit" | OtherError m => m
  end.
(** [From<io::Error> for SarError]. *)
Definition io_to_sar (e : IoError) : SarError.t := SarError.Io (io_message e).

Abbreviation Loc := (list Name).
Record Attr := { mode : Z; uid : Z; gid : Z; times : option (Z * Z) }.
Inductive Node :=
  | Dir (a : Attr) | File (data : list byte) (a : Attr) | Link (target : list byte).
Abbreviation Tree := (gmap Loc Node).

Definition is_dir_node (n : Node) : bool := match n with Dir _ => true | _ => false end.
Definition is_link_node (n : Node) : bool := match n with Link _ => true | _ => false end.
Definition with_attr (f : Attr → Attr) (n : Node) : Node :=
  match n with Dir a => Dir (f a) | File d a => File d (f a) | Link t => Link t end.

(** The limit on the symbolic links of one resolution. *)
Definition MAX_LINKS : nat := 40.

Definition visiting {A} (ls : list Loc) (r : list Loc * A) : list Loc * A := (ls ++ r.1, r.2).
Fixpoint walk (links : nat) (fs : Tree) (follow : bool)
    : Loc → list Name → list Loc * result IoError Loc :=
  fix go (loc : Loc) (ps : list Name) :=
    match ps with
    | [] => ([], Ok loc)
    | p :: rest =>
        match fs !! loc with
        | Some (Dir _) =>
            if bool_decide (p = dotdot) then visiting [loc] (go (removelast loc) rest) else
            let l := loc ++ [p] in
            match fs !! l with
            | Some (Link t) =>
                if bool_decide (rest = []) && negb follow then ([loc; l], Ok l) else
                match links with
                | O => ([loc; l], Err FilesystemLoop)
                | S links =>
                    let q := path_of t in
                    visiting [loc; l]
                      (walk links fs follow (if is_absolute q then [] else loc) (pieces q ++ rest))
                end
            | _ => visiting [loc; l] (go l rest)
            end
        | Some _ => ([loc], Err NotADirectory)
        | None => ([loc], Err NotFound)
        end
    end.

(** ** The host *)
Class Host := {
  cwd : Loc;
  (** whether the numbered call fails, and what a failed write leaves *)
  fault : nat → option IoError;
  written : nat → nat;
  (** the attributes of a node that is created *)
  fresh : nat → Attr;
  (** [SystemTime::now] since the epoch, in nanoseconds, and [process::id] *)
  clock : nat → option Z;
  process_id : Z }.

Record World := { tree : Tree; calls : nat }.
Definition M (E A : Type) : Type := World → World * result E A.
#[global] Instance M_ret {E} : MRet (M E) := λ A a w, (w, Ok a).
#[global] Instance M_bind {E} : MBind (M E) := λ A B f m w,
  match m w with
  | (w, Ok a) => f a w
  | (w, Err e) => (w, Err e)
  | (w, Panic) => (w, Panic)
  end.
Definition lift {E A} (r : result E A) : M E A := λ w, (w, r).
Definition throw {E A} (e : E) : M E A := λ w, (w, Err e).
(** The outcome of a computation as a value: what a [match] on a [Result] sees. *)
Definition attempt {E F A} (m : M E A) : M F (result E A) := λ w,
  match m w with
  | (w, Panic) => (w, Panic)
  | (w, r) => (w, Ok r)
  end.
(** The [?] on a result with an [io::Error]. *)
Definition io {A} (m : M IoError A) : M SarError.t A := λ w,
  let (w, r) := m w in (w, map_err io_to_sar r).

Section calls.
Context {H : Host}.

Definition base (p : Path) : Loc := if is_absolute p then [] else cwd.
Definition resolve (fs : Tree) (follow : bool) (p : Path) : result IoError Loc :=
  (walk MAX_LINKS fs follow (base p) (pieces p)).2.

Definition tick (w : World) (t : Tree) : World := {| tree := t; calls := S (calls w) |}.
Definition syscall {A} (f : nat → Tree → result IoError (Tree * A)) : M IoError A := λ w,
  match fault (calls w) with
  | Some e => (tick w (tree w), Err e)
  | None =>
      match f (calls w) (tree w) with
      | Ok (t, a) => (tick w t, Ok a)
      | Err e => (tick w (tree w), Err e)
      | Panic => (tick w (tree w), Panic)
      end
  end.

(** [fs::symlink_metadata] and [fs::metadata]: the node a path leads to. *)
Definition stat (follow : bool) (p : Path) : M IoError Node :=
  syscall (λ _ t, l ← resolve t follow p; n ← ok_or (t !! l) NotFound; Ok (t, n)).
Definition symlink_metadata : Path → M IoError Node := stat false.

(** The entry a call creates: the directory is there, the entry is not. *)
Definition create (node : nat → Node) (p : Path) : M IoError Loc :=
  syscall (λ k t,
    l ← resolve t false p;
    match t !! l with
    | Some _ => Err AlreadyExists
    | None => Ok (<[l := node k]> t, l)
    end).
Definition create_dir (p : Path) : M IoError unit :=
  _ ← create (λ k, Dir (fresh k)) p; mret ().
(** [OpenOptions::new().write(true).create_new(true).open]: the handle is the location. *)
Definition create_new (p : Path) : M IoError Loc := create (λ k, File [] (fresh k)) p.
Definition symlink (target : list byte) (p : Path) : M IoError unit :=
  _ ← create (λ _, Link target) p; mret ().

(** [fs::remove_file]. *)
Definition remove_file (p : Path) : M IoError unit :=
  syscall (λ _ t,
    l ← resolve t false p;
    match t !! l with
    | None => Err NotFound
    | Some (Dir _) => Err IsADirectory
    | Some _ => Ok (delete l t, ())
    end).

(** [fs::rename] of a file or link; moving a directory is not modelled and not needed. *)
Definition rename (from to : Path) : M IoError unit :=
  syscall (λ _ t,
    a ← resolve t false from; b ← resolve t false to;
    match t !! a with
    | None => Err NotFound
    | Some (Dir _) => Panic
    | Some n =>
        match t !! b with
        | Some (Dir _) => Err IsADirectory
        | _ => if bool_decide (a = b) then Ok (t, ()) else Ok (<[b := n]> (delete a t), ())
        end
    end).

(** Changing attributes behind a path, links followed; [fs::set_permissions]. *)
Definition change_attr (f : Attr → Attr) (p : Path) (t : Tree) : result IoError Tree :=
  l ← resolve t true p; n ← ok_or (t !! l) NotFound; Ok (<[l := with_attr f n]> t).
Definition set_mode (m : Z) (a : Attr) : Attr :=
  {| mode := m; uid := uid a; gid := gid a; times := times a |}.
Definition set_permissions (p : Path) (m : Z) : M IoError unit :=
  syscall (λ _ t, t ← change_attr (set_mode m) p t; Ok (t, ())).

(** An open file: [set_len], and [seek] to [pos] with [write_all]. *)
Definition resized (n : Z) (d : list byte) : list byte :=
  take (Z.to_nat n) d ++ zeros (n - len d).
Definition overwrite (d : list byte) (pos : Z) (src : list byte) : list byte :=
  copy_at (resized (Z.max (len d) (pos + len src)) d) pos src.
Definition on_file (f : list byte → list byte) (l : Loc) (t : Tree) : result IoError Tree :=
  match t !! l with
  | Some (File d a) => Ok (<[l := File (f d) a]> t)
  | _ => Err (OtherError "bad file descriptor")
  end.
Definition set_len (l : Loc) (n : Z) : M IoError unit :=
  syscall (λ _ t, t ← on_file (resized n) l t; Ok (t, ())).
Definition write_all (l : Loc) (pos : Z) (src : list byte) : M IoError unit := λ w,
  let n := match fault (calls w) with Some _ => written (calls w) | None => length src end in
  match on_file (λ d, overwrite d pos (take n src)) l (tree w) with
  | Ok t => (tick w t, match fault (calls w) with Some e => Err e | None => Ok () end)
  | Err e => (tick w (tree w), Err e)
  | Panic => (tick w (tree w), Panic)
  end.

(** [File::open] and what reading the file gives. *)
Definition read_file (p : Path) : M IoError (list byte) :=
  syscall (λ _ t,
    l ← resolve t true p;
    match t !! l with
    | Some (File d _) => Ok (t, d)
    | Some _ => Err IsADirectory
    | None => Err NotFound
    end).

(** [fs::read_link] and [fs::canonicalize]. *)
Definition read_link (p : Path) : M IoError (list byte) :=
  syscall (λ _ t,
    l ← resolve t false p;
    match t !! l with
    | Some (Link target) => Ok (t, target)
    | Some _ => Err (OtherError "invalid argument")
    | None => Err NotFound
    end).
Definition canonicalize (p : Path) : M IoError Path :=
  syscall (λ _ t,
    l ← resolve t true p;
    _ ← ok_or (t !! l) NotFound;
    Ok (t, {| is_absolute := true; pieces := l |})).

(** [File::create]: the file is truncated, or made if it is not there; the handle is the
    location. *)
Definition file_create (p : Path) : M IoError Loc :=
  syscall (λ k t,
    l ← resolve t true p;
    match t !! l with
    | Some (File _ a) => Ok (<[l := File [] a]> t, l)
    | Some _ => Err IsADirectory
    | None => Ok (<[l := File [] (fresh k)]> t, l)
    end).

(** [fs::create_dir_all]: the path, then its parents as long as they are missing; the fuel is
    the number of components. *)
Definition is_dir (p : Path) : M IoError bool := λ w,
  match stat true p w with
  | (w, Ok n) => (w, Ok (is_dir_node n))
  | (w, Err _) => (w, Ok false)
  | (w, Panic) => (w, Panic)
  end.
Definition settle (p : Path) (r : result IoError unit) : M IoError unit :=
  match r with
  | Ok _ => mret ()
  | Err e => d ← is_dir p; if d : bool then mret () else throw e
  | Panic => lift Panic
  end.
Fixpoint create_dirs (n : nat) (p : Path) : M IoError unit :=
  if negb (is_absolute p) && bool_decide (pieces p = []) then mret () else
  r ← attempt (create_dir p);
  match r with
  | Err NotFound =>
      if bool_decide (pieces p = []) then throw (OtherError "failed to create whole tree") else
      match n with
      | O => lift Panic
      | S n => _ ← create_dirs n (parent_of p); r ← attempt (create_dir p); settle p r
      end
  | r => settle p r
  end.
Definition create_dir_all (p : Path) : M IoError unit := create_dirs (length (pieces p)) p.

End calls.

(** ** Directories

    [fs::read_dir] and its entries: the names below a directory, in an order of the system's
    choice.  [fs::Metadata] of a node has the type in the mode; what the tree does not hold
    (the owner of a link, the times that were not set) the system supplies. *)
Class Directories := {
  dir_order : nat → list Name → list Name;
  link_owner : Loc → Z * Z;
  (** modification, access and change time, in seconds; [i64] *)
  kept_times : nat → Node → Z * Z * Z }.
Class DirectoriesLaws `{Directories} : Prop := {
  dir_order_perm k ns : dir_order k ns ≡ₚ ns }.

Definition child_name (l k : Loc) : option Name :=
  if bool_decide (k ≠ [] ∧ removelast k = l) then last k else None.
Definition children (t : Tree) (l : Loc) : list Name :=
  omap (λ kn, child_name l kn.1) (map_to_list t).

Section directories.
Context {H : Host} {R : Directories}.

Definition read_dir (p : Path) : M IoError (list Name) :=
  syscall (λ k t,
    l ← resolve t true p;
    match t !! l with
    | Some (Dir _) => Ok (t, dir_order k (children t l))
    | Some _ => Err NotADirectory
    | None => Err NotFound
    end).

(** [MetadataExt]: the fields of a [stat], as [symlink_metadata] and [metadata] return them. *)
Record FsMetadata := { st_node : Node; st_uid : Z; st_gid : Z; st_times : Z * Z * Z }.
Definition S_IFDIR : Z := 0x4000.
Definition S_IFREG : Z := 0x8000.
Definition S_IFLNK : Z := 0xA000.
Definition st_mode (m : FsMetadata) : Z :=
  match st_node m with
  | Dir a => Z.lor S_IFDIR (Z.land (mode a) 4095)
  | File _ a => Z.lor S_IFREG (Z.land (mode a) 4095)
  | Link _ => Z.lor S_IFLNK 511
  end.
Definition owner_of (l : Loc) (n : Node) : Z * Z :=
  match n with Dir a | File _ a => (uid a, gid a) | Link _ => link_owner l end.
Definition times_of (k : nat) (n : Node) : Z * Z * Z :=
  let '(m, a, c) := kept_times k n in
  match n with
  | Dir at_ | File _ at_ =>
      match times at_ with Some (atime, mtime) => (mtime, atime, c) | None => (m, a, c) end
  | Link _ => (m, a, c)
  end.
Definition full_stat (follow : bool) (p : Path) : M IoError FsMetadata :=
  syscall (λ k t,
    l ← resolve t follow p;
    n ← ok_or (t !! l) NotFound;
    Ok (t, {| st_node := n; st_uid := (owner_of l n).1; st_gid := (owner_of l n).2;
              st_times := times_of k n |})).
End directories.
End FileSystem.
