(* ===== verification/Extract.v ===== *)
(** * Extraction of an archive to a directory

    Models [crates/sar-cli/src/commands/extract.rs], the modules [paths.rs], [staging.rs],
    [metadata.rs] and [policy.rs] of [crates/sar-cli/src/extraction/], and [password.rs]:
    the [extract] command on a Unix system, over the file system of [FileSystem.v] and the
    reader of [ArchiveReader.v].

    The calls of the crates [rustix] and [filetime] are the class [OwnerAndTimes], the hasher
    of [crc32fast] is the class [Crc32]; their documented behaviour is stated in the classes
    of laws.  The iteration order of a [HashMap] is the parameter [into_values].  The archive
    is read as it is when the command opens it: the command changes no file in place. *)

From stdpp Require Import gmap.
From Stdlib Require Import String.
From S2P Require Import Prelude Errors Limits Flags Cursor Format Lfh Sparse Fragmentation Utf8 Crypto Kms Transform Metadata EntryDecode ArchiveReader FileSystem.

Module Extract.
Import Limits EntryDecode FileSystem.

(** ** Crates *)
Class OwnerAndTimes := {
  (** [rustix::fs::chown] and [filetime::set_file_times], as changes of the tree *)
  chown_at : Path → Z → Z → Tree → result IoError Tree;
  set_file_times_at : Path → Z → Z → Tree → result IoError Tree }.
Class Crc32 := {
  Hasher : Type;
  hasher_new : Hasher;
  hasher_update : Hasher → list byte → Hasher;
  hasher_finalize : Hasher → Z;
  crc32 : list byte → Z }.

(** Both calls change the attributes of what the path leads to, links followed. *)
Definition set_owner (u g : Z) (a : Attr) : Attr :=
  {| mode := mode a; uid := u; gid := g; times := times a |}.
Definition set_times (atime mtime : Z) (a : Attr) : Attr :=
  {| mode := mode a; uid := uid a; gid := gid a; times := Some (atime, mtime) |}.
Class OwnerAndTimesLaws `{Host} `{OwnerAndTimes} : Prop := {
  chown_spec p u g t : chown_at p u g t = change_attr (set_owner u g) p t;
  set_file_times_spec p atime mtime t :
    set_file_times_at p atime mtime t = change_attr (set_times atime mtime) p t }.
(** Hashing in pieces is hashing the whole. *)
Class Crc32Laws `{Crc32} : Prop := {
  hasher_spec chunks :
    hasher_finalize (foldl hasher_update hasher_new chunks) = crc32 (concat chunks) }.

(** ** [policy.rs] and [password.rs] *)
Record ExtractMetadataOptions := {
  preserve_permissions : bool; preserve_times : bool; preserve_owner : bool;
  allow_symlinks : bool }.
(** On Unix. *)
Definition validate_extract_metadata_support (metadata : ExtractMetadataOptions)
    : result SarError.t unit := Ok ().

Definition CliKeyProvider (password : option (list byte)) : Kms.KeyProvider := {|
  Kms.password_for := λ _, Ok password;
  Kms.unwrap_key := λ _ _, Ok None;
  Kms.external_key := λ _, Ok None |}.
(** The variable [SAR_PASSWORD] of the environment ([env::var_os]), and what the prompt
    returns. *)
Class Terminal := { password_var : option (list byte); prompt_password : option (list byte) }.
(** [env::var]: only if the value is UTF-8. *)
Definition env_password {T : Terminal} : option (list byte) :=
  v ← password_var; if Utf8.from_utf8 v then Some v else None.
Definition load_password {T : Terminal} (explicit : option (list byte))
    : result SarError.t (list byte) :=
  match explicit with
  | Some value => Ok value
  | None =>
      match env_password with
      | Some value => Ok value
      | None => ok_or prompt_password (SarError.KeyMissing "password not provided and prompt failed")
      end
  end.

(** ** [paths.rs] *)

(** [struct SafeRelativePath]. *)
Record SafeRelativePath := { components : list Name }.
Definition from_components (cs : list Name) : result SarError.t SafeRelativePath :=
  if bool_decide (cs = []) then Err (SarError.Malformed "empty paths are not allowed")
  else Ok {| components := cs |}.
Definition rel_file_name (rel : SafeRelativePath) : result SarError.t Name :=
  ok_or (last (components rel)) (SarError.Malformed "output file name is missing").
Definition parent_components (rel : SafeRelativePath) : list Name :=
  if (length (components rel) <=? 1)%nat then []
  else take (length (components rel) - 1) (components rel).
Definition depth (rel : SafeRelativePath) : Z := len (components rel).
(** [join("/")]. *)
Definition display (rel : SafeRelativePath) : list byte := join_names (components rel).

Definition starts_with (s prefix : list byte) : bool :=
  bool_decide (take (length prefix) s = prefix).
Definition BACKSLASH : byte := x5c.
Definition is_ascii_alphabetic (b : byte) : bool :=
  let v := byte_val b in ((65 <=? v) && (v <=? 90)) || ((97 <=? v) && (v <=? 122)).
(** One round of the loop over the components. *)
Definition check_component (c : Name) : result SarError.t unit :=
  if bool_decide (c = []) then Err (SarError.Malformed "empty path components are not allowed")
  else if bool_decide (c = dot)
  then Err (SarError.Malformed "current-directory path components are not allowed")
  else if bool_decide (c = dotdot)
  then Err (SarError.Malformed "parent directory traversal is not allowed")
  else
    drive ← (if 2 <=? len c then
               b1 ← index_r c 1;
               if bool_decide (b1 = x3a) then b0 ← index_r c 0; Ok (is_ascii_alphabetic b0)
               else Ok false
             else Ok false);
    if drive : bool then Err (SarError.Malformed "Windows drive-prefixed paths are not allowed")
    else Ok ().
Fixpoint check_components (cs : list Name) : result SarError.t unit :=
  match cs with
  | [] => Ok ()
  | c :: cs => _ ← check_component c; check_components cs
  end.
Definition validate_relative_archive_path (name : list byte) : result SarError.t SafeRelativePath :=
  if bool_decide (name = []) then Err (SarError.Malformed "empty paths are not allowed") else
  if starts_with name [SLASH; SLASH] || starts_with name [BACKSLASH; BACKSLASH]
  then Err (SarError.Malformed "UNC and verbatim paths are not allowed") else
  if starts_with name [SLASH] || starts_with name [BACKSLASH]
  then Err (SarError.Malformed "absolute paths are not allowed") else
  if bool_decide (x00 ∈ name) || bool_decide (BACKSLASH ∈ name)
  then Err (SarError.Malformed "backslashes and NUL bytes are not allowed in archive paths") else
  _ ← check_components (split SLASH name);
  from_components (split SLASH name).

Section paths.
Context {H : Host}.

Definition create_restrictive_directory (path : Path) : M SarError.t unit :=
  _ ← io (create_dir path);
  io (set_permissions path 448).
Fixpoint ensure_parent_directory_path (current : Path) (components : list Name)
    : M SarError.t Path :=
  match components with
  | [] => mret current
  | component :: rest =>
      let current := join current component in
      found ← attempt (symlink_metadata current);
      _ ← (match found with
           | Ok node =>
               if is_link_node node then throw (SarError.Malformed
                 "refusing to traverse an existing symlink during extraction")
               else if negb (is_dir_node node)
               then throw (SarError.Malformed "path component exists but is not a directory")
               else mret ()
           | Err NotFound => create_restrictive_directory current
           | Err err => throw (io_to_sar err)
           | Panic => lift Panic
           end);
      ensure_parent_directory_path current rest
  end.
Definition prepare_output_file_path (output_dir : Path) (rel : SafeRelativePath)
    : M SarError.t Path :=
  parent ← ensure_parent_directory_path output_dir (parent_components rel);
  name ← lift (rel_file_name rel);
  let out_path := join parent name in
  existing ← attempt (symlink_metadata out_path);
  match existing with
  | Ok node =>
      if is_dir_node node then throw (SarError.Malformed
        "refusing to replace existing directory with file output")
      else mret out_path
  | _ => mret out_path
  end.
Definition ensure_safe_directory_path (output_dir : Path) (rel : SafeRelativePath)
    : M SarError.t Path := ensure_parent_directory_path output_dir (components rel).
Definition resolve_existing_directory_path (output_dir : Path) (rel : SafeRelativePath)
    : M SarError.t Path :=
  path ← ensure_parent_directory_path output_dir (components rel);
  meta ← io (symlink_metadata path);
  if is_link_node meta
  then throw (SarError.Malformed "refusing to apply directory metadata through symlink")
  else if negb (is_dir_node meta)
  then throw (SarError.Malformed "refusing to apply directory metadata to non-directory")
  else mret path.
End paths.

(** ** [staging.rs] *)
Definition ZERO_CHUNK_LEN : Z := 8192.

Section staging.
Context {H : Host}.

Definition now : M SarError.t (option Z) := λ w, (w, Ok (clock (calls w))).
(** An unsigned integer in decimal; 39 digits are enough for [u128]. *)
Fixpoint digits (fuel : nat) (z : Z) : list byte :=
  match fuel with
  | O => []
  | S fuel => (if z <? 10 then [] else digits fuel (z / 10)) ++ [byte_of (48 + z mod 10)]
  end.
Definition decimal (z : Z) : list byte := digits 39 z.
(** [format!(".{file_name}.sar-tmp-{}-{nonce}", process::id())]; the name is UTF-8. *)
Definition temp_name (file_name : Name) (nonce : Z) : Name :=
  bytes "." ++ file_name ++ bytes ".sar-tmp-" ++ decimal process_id
    ++ bytes "-" ++ decimal nonce.
Definition make_temp_output_path (final_path : Path) : M SarError.t Path :=
  name ← lift (ok_or (file_name final_path) (SarError.Malformed "output file name is missing"));
  t ← now;
  nonce ← lift (ok_or t (SarError.Internal "system clock before unix epoch"));
  mret (with_file_name final_path (temp_name name nonce)).
Definition open_temp_file (tmp_path : Path) : M SarError.t Loc := io (create_new tmp_path).
Definition remove_temp_file_if_exists (path : Path) : M SarError.t unit :=
  _ ← attempt (remove_file path); mret ().
Definition finalize_temp_file (tmp_path final_path : Path) : M SarError.t unit :=
  r ← attempt (rename tmp_path final_path);
  match r with
  | Ok _ => mret ()
  | Err err => _ ← remove_temp_file_if_exists tmp_path; throw (io_to_sar err)
  | Panic => lift Panic
  end.
(** [if result.is_err() { remove_temp_file_if_exists(..) } result]. *)
Definition or_remove (tmp_path : Path) (body : M SarError.t unit) : M SarError.t unit :=
  result ← attempt body;
  match result with
  | Err e => _ ← remove_temp_file_if_exists tmp_path; throw e
  | r => lift r
  end.

Definition write_bytes_via_temp (out_path : Path) (data : list byte) : M SarError.t unit :=
  tmp_path ← make_temp_output_path out_path;
  or_remove tmp_path
    (file ← open_temp_file tmp_path;
     _ ← io (write_all file 0 data);
     finalize_temp_file tmp_path out_path).

(** The loop over the extents: the payload position is returned. *)
Fixpoint write_extents (file : Loc) (payload : list byte) (extents : list Sparse.SparseExtent)
    (payload_pos : Z) : M SarError.t Z :=
  match extents with
  | [] => mret payload_pos
  | extent :: rest =>
      n ← lift (ok_or (try_from 64 (Sparse.ext_length extent)) (SarError.Overflow "extent length"));
      src_end ← lift (ok_or (checked_add 64 payload_pos n) (SarError.Overflow "payload position"));
      if src_end >? len payload
      then throw (SarError.Truncated "payload too short for declared sparse extents") else
      src ← lift (slice_r payload payload_pos src_end);
      _ ← io (write_all file (Sparse.ext_offset extent) src);
      write_extents file payload rest src_end
  end.
Definition check_sparse (extents : list Sparse.SparseExtent) (logical_size : Z)
    (limits : ResourceLimits) : result SarError.t unit :=
  _ ← check_decoded_entry_size limits logical_size;
  map_err SparseError.to_sar
    (Sparse.validate_sparse_extents extents logical_size (sparse_limits limits)).
Definition write_sparse_payload_via_temp (out_path : Path) (payload : list byte)
    (extents : list Sparse.SparseExtent) (logical_size : Z) (limits : ResourceLimits)
    : M SarError.t unit :=
  _ ← lift (check_sparse extents logical_size limits);
  tmp_path ← make_temp_output_path out_path;
  or_remove tmp_path
    (file ← open_temp_file tmp_path;
     _ ← io (set_len file logical_size);
     payload_pos ← write_extents file payload extents 0;
     if negb (payload_pos =? len payload)
     then throw (SarError.InvalidMap "sparse payload has excess bytes beyond declared extents")
     else finalize_temp_file tmp_path out_path).
End staging.

Section crc.
Context {C : Crc32}.

(** [while len > 0]; the fuel is one more than the number of full chunks. *)
Fixpoint hash_zero_loop (fuel : nat) (hasher : Hasher) (n : Z) : Hasher :=
  match fuel with
  | O => hasher
  | S fuel =>
      if n >? 0 then
        let chunk_len := Z.min n ZERO_CHUNK_LEN in
        hash_zero_loop fuel (hasher_update hasher (zeros chunk_len)) (n - chunk_len)
      else hasher
  end.
Definition hash_zero_bytes (hasher : Hasher) (n : Z) : Hasher :=
  hash_zero_loop (S (Z.to_nat (n / ZERO_CHUNK_LEN))) hasher n.
Fixpoint crc_loop (payload : list byte) (extents : list Sparse.SparseExtent) (hasher : Hasher)
    (payload_pos cursor : Z) : result SarError.t (Hasher * Z * Z) :=
  match extents with
  | [] => Ok (hasher, payload_pos, cursor)
  | extent :: rest =>
      gap ← ok_or (checked_sub (Sparse.ext_offset extent) cursor)
              (SarError.Overflow "sparse hole length");
      let hasher := hash_zero_bytes hasher gap in
      n ← ok_or (try_from 64 (Sparse.ext_length extent)) (SarError.Overflow "extent length");
      src_end ← ok_or (checked_add 64 payload_pos n) (SarError.Overflow "payload position");
      if src_end >? len payload
      then Err (SarError.Truncated "payload too short for declared sparse extents") else
      src ← slice_r payload payload_pos src_end;
      cursor ← ok_or (checked_add 64 (Sparse.ext_offset extent) (Sparse.ext_length extent))
                 (SarError.Overflow "sparse extent offset+length overflow");
      crc_loop payload rest (hasher_update hasher src) src_end cursor
  end.
Definition compute_sparse_crc32 (payload : list byte) (extents : list Sparse.SparseExtent)
    (logical_size : Z) (limits : ResourceLimits) : result SarError.t Z :=
  _ ← check_sparse extents logical_size limits;
  '(hasher, payload_pos, cursor) ← crc_loop payload extents hasher_new 0 0;
  trailing ← ok_or (checked_sub logical_size cursor)
               (SarError.Overflow "trailing sparse hole length");
  let hasher := hash_zero_bytes hasher trailing in
  if negb (payload_pos =? len payload)
  then Err (SarError.InvalidMap "sparse payload has excess bytes beyond declared extents")
  else Ok (hasher_finalize hasher).
Definition verify_crc32 (expected_crc : option Z) (actual_crc : Z) (message : string)
    : result SarError.t unit :=
  match expected_crc with
  | Some crc => if negb (crc =? actual_crc) then Err (SarError.CrcMismatch message) else Ok ()
  | None => Ok ()
  end.
End crc.

(** ** [metadata.rs] *)
Definition UID_MASK : Z := 0xFFFF.
Definition GID_SHIFT : Z := 16.
(** [Option<[u64; 3]>]: modification, access and change time. *)
Definition Timestamps : Type := Z * Z * Z.

(** [struct PendingDirectoryMetadata]. *)
Record PendingDirectoryMetadata := {
  relative_path : SafeRelativePath;
  pend_permissions : option Z; pend_owner : option Z; pend_timestamps : option Timestamps }.

Section attributes.
Context {H : Host} {A : OwnerAndTimes}.

Definition apply_permissions (path : Path) (permissions : option Z)
    (metadata : ExtractMetadataOptions) : M SarError.t unit :=
  if negb (preserve_permissions metadata) then mret () else
  match permissions with
  | None => mret ()
  | Some mode => io (set_permissions path (Z.land mode 511))
  end.
Definition apply_owner (path : Path) (owner : option Z) (metadata : ExtractMetadataOptions)
    : M SarError.t unit :=
  if negb (preserve_owner metadata) then mret () else
  match owner with
  | None => mret ()
  | Some owner =>
      let uid := Z.land owner UID_MASK in
      let gid := Z.land (Z.shiftr owner GID_SHIFT) UID_MASK in
      io (syscall (λ _ t, t ← chown_at path uid gid t; Ok (t, ())))
  end.
Definition apply_timestamps (path : Path) (timestamps : option Timestamps)
    (metadata : ExtractMetadataOptions) : M SarError.t unit :=
  if negb (preserve_times metadata) then mret () else
  match timestamps with
  | None => mret ()
  | Some (mtime, atime, _) =>
      atime_i64 ← lift (ok_or (try_from 63 atime)
                    (SarError.Overflow "atime does not fit host timestamp range"));
      mtime_i64 ← lift (ok_or (try_from 63 mtime)
                    (SarError.Overflow "mtime does not fit host timestamp range"));
      io (syscall (λ _ t, t ← set_file_times_at path atime_i64 mtime_i64 t; Ok (t, ())))
  end.
Definition apply_file_metadata (path : Path) (permissions owner : option Z)
    (timestamps : option Timestamps) (metadata : ExtractMetadataOptions) : M SarError.t unit :=
  meta ← io (symlink_metadata path);
  if is_link_node meta then mret ()
  else if is_dir_node meta
  then throw (SarError.Malformed "refusing to apply file metadata to directory")
  else
    _ ← apply_owner path owner metadata;
    _ ← apply_timestamps path timestamps metadata;
    apply_permissions path permissions metadata.

(** One round of the loop over the sorted directories, and the loop. *)
Definition finalize_directory (output_dir : Path) (metadata : ExtractMetadataOptions)
    (entry : PendingDirectoryMetadata) : M SarError.t unit :=
  path ← resolve_existing_directory_path output_dir (relative_path entry);
  meta ← io (symlink_metadata path);
  if is_link_node meta then mret ()
  else if negb (is_dir_node meta)
  then throw (SarError.Malformed "refusing to apply directory metadata to non-directory")
  else
    _ ← apply_owner path (pend_owner entry) metadata;
    _ ← apply_timestamps path (pend_timestamps entry) metadata;
    apply_permissions path (pend_permissions entry) metadata.
Fixpoint finalize_loop (output_dir : Path) (metadata : ExtractMetadataOptions)
    (pending : list PendingDirectoryMetadata) : M SarError.t unit :=
  match pending with
  | [] => mret ()
  | entry :: rest =>
      _ ← finalize_directory output_dir metadata entry;
      finalize_loop output_dir metadata rest
  end.
Context (into_values : gmap Name PendingDirectoryMetadata → list PendingDirectoryMetadata).
Definition finalize_directory_metadata (output_dir : Path)
    (pending_directories : gmap Name PendingDirectoryMetadata)
    (metadata : ExtractMetadataOptions) : M SarError.t unit :=
  finalize_loop output_dir metadata
    (sort_by_key (λ entry, - depth (relative_path entry)) (into_values pending_directories)).
End attributes.

(** ** [extract.rs] *)

(** [struct FragGroup]. *)
Record FragGroup := {
  name : list byte; group_entries : list EntryReader;
  sparse_extents : option (list Sparse.SparseExtent); sparse_uncompressed_size : Z;
  file_crc32 : option Z; permissions : option Z; owner : option Z;
  timestamps : option Timestamps }.
(** The locals [frag_order], [frag_groups] and [pending_directories]. *)
Record Progress := {
  frag_order : list Z; frag_groups : gmap Z FragGroup;
  pending_directories : gmap Name PendingDirectoryMetadata }.
Definition set_pending (st : Progress) (v : gmap Name PendingDirectoryMetadata) : Progress := {|
  frag_order := frag_order st; frag_groups := frag_groups st; pending_directories := v |}.

(** The fields [permissions], [owner] and [timestamps] of an entry. *)
Definition entry_mode_bits (m : Metadata.EntryMetadata) : option Z :=
  Metadata.mode <$> Metadata.permissions m.
Definition entry_owner (m : Metadata.EntryMetadata) : option Z :=
  Metadata.uid_gid <$> Metadata.owner m.
Definition entry_times (m : Metadata.EntryMetadata) : option Timestamps :=
  (λ t, (Metadata.mtime t, Metadata.atime t, Metadata.ctime t)) <$> Metadata.timestamps m.

Definition record_directory_metadata (pending : gmap Name PendingDirectoryMetadata)
    (rel : SafeRelativePath) (entry : EntryReader) : gmap Name PendingDirectoryMetadata :=
  let m := metadata entry in
  <[display rel := {| relative_path := rel; pend_permissions := entry_mode_bits m;
                      pend_owner := entry_owner m; pend_timestamps := entry_times m |}]> pending.

(** The branch for a fragment. *)
Definition add_fragment (limits : ResourceLimits) (st : Progress) (entry : EntryReader)
    : result SarError.t Progress :=
  let m := metadata entry in
  fid ← ok_or (Metadata.meta_fragment_id m)
          (SarError.Malformed "IS_FRAGMENT set but fragment_id is absent");
  let has_sparse := bool_decide (is_Some (Metadata.sparse_extents m)) in
  let first := bool_decide (Metadata.meta_fragment_index m = Some 0) in
  if has_sparse && negb first
  then Err (SarError.InvalidMap "sparse map present on non-zero fragment index; Sparse Map MUST appear only in fragment with Fragment Index = 0") else
  let '(order, group) :=
    match frag_groups st !! fid with
    | Some group => (frag_order st, group)
    | None =>
        (frag_order st ++ [fid],
         {| name := Metadata.name m; group_entries := []; sparse_extents := None;
            sparse_uncompressed_size := 0; file_crc32 := None; permissions := entry_mode_bits m;
            owner := entry_owner m; timestamps := entry_times m |})
    end in
  n ← ok_or (checked_add 64 (len (group_entries group)) 1) (SarError.Overflow "fragment count");
  _ ← check_fragment_count limits n;
  let group := {|
    name := name group;
    group_entries := group_entries group ++ [entry];
    sparse_extents := if first && has_sparse then Metadata.sparse_extents m
                      else sparse_extents group;
    sparse_uncompressed_size := if first && has_sparse then Metadata.uncompressed_size m
                                else sparse_uncompressed_size group;
    file_crc32 := if first then Metadata.file_crc32 m else file_crc32 group;
    permissions := if first then entry_mode_bits m else permissions group;
    owner := if first then entry_owner m else owner group;
    timestamps := if first then entry_times m else timestamps group |} in
  Ok {| frag_order := order; frag_groups := <[fid := group]> (frag_groups st);
        pending_directories := pending_directories st |}.

(** The size of a group and its fragments. *)
Fixpoint assembled_loop (assembled_size : Z) (es : list EntryReader) : result SarError.t Z :=
  match es with
  | [] => Ok assembled_size
  | entry :: es =>
      size ← (match Metadata.fragment_descriptor (metadata entry) with
              | Some desc =>
                  end_ ← ok_or (checked_add 64 (Fragmentation.absolute_offset desc)
                                  (Fragmentation.fragment_size desc))
                           (SarError.Overflow "fragment descriptor end overflow");
                  Ok (Z.max assembled_size end_)
              | None => Ok assembled_size
              end);
      assembled_loop size es
  end.
Definition fragment_entry (entry : EntryReader) : option Fragmentation.FragmentEntry :=
  let m := metadata entry in
  desc ← Metadata.fragment_descriptor m;
  Some {| Fragmentation.fragment_index := default 0 (Metadata.meta_fragment_index m);
          Fragmentation.is_last_fragment := Metadata.is_last_fragment m;
          Fragmentation.is_loss_tolerant := Metadata.meta_is_loss_tolerant m;
          Fragmentation.descriptor := desc; Fragmentation.payload := payload entry |}.
Definition assemble (limits : ResourceLimits) (allow_lossy : bool) (group : FragGroup)
    : result SarError.t (list byte) :=
  assembled_size ← assembled_loop 0 (group_entries group);
  '(raw, is_degraded) ← map_err FragmentError.to_sar
    (Fragmentation.reconstruct_fragments (omap fragment_entry (group_entries group))
       assembled_size (fragment_limits limits));
  if is_degraded && negb allow_lossy
  then Err (SarError.FragmentGap
         "fragment group has gaps; use allow_lossy to permit degraded output")
  else Ok raw.

Section extract.
Context {B : Bitflags} {Comp : Compression.Compressors} {Ciph : Crypto.Ciphers} {K : Kms.Kdfs}.
Context {H : Host} {A : OwnerAndTimes} {C : Crc32} {T : Terminal}.
Context (oc : bool).
Context (into_values : gmap Name PendingDirectoryMetadata → list PendingDirectoryMetadata).

(** Checking and writing the content of a file: the code has it once for an entry and once for
    a group of fragments. *)
Definition write_content (out_path : Path) (flags : Z) (limits : ResourceLimits)
    (content : list byte) (extents : option (list Sparse.SparseExtent)) (logical_size : Z)
    (expected_crc : option Z) (message : string) : M SarError.t unit :=
  match extents with
  | Some extents =>
      actual_crc ← lift (compute_sparse_crc32 content extents logical_size limits);
      _ ← lift (if contains flags GlobalFlags.PER_FILE_CRC
                then verify_crc32 expected_crc actual_crc message else Ok ());
      write_sparse_payload_via_temp out_path content extents logical_size limits
  | None =>
      _ ← lift (if contains flags GlobalFlags.PER_FILE_CRC
                then verify_crc32 expected_crc (crc32 content) message else Ok ());
      write_bytes_via_temp out_path content
  end.

Definition extract_symlink_entry (output_dir : Path) (rel : SafeRelativePath)
    (entry : EntryReader) (metadata : ExtractMetadataOptions) : M SarError.t unit :=
  if negb (allow_symlinks metadata)
  then throw (SarError.Unsupported "symlink extraction requires --allow-symlinks") else
  target ← lift (ok_or (Metadata.symlink_target (EntryDecode.metadata entry))
    (SarError.Malformed "symlink entry is missing target metadata"));
  _ ← lift (validate_relative_archive_path target);
  out_path ← prepare_output_file_path output_dir rel;
  existing ← attempt (symlink_metadata out_path);
  _ ← (match existing with
       | Ok node =>
           if is_dir_node node then throw (SarError.Malformed
             "refusing to replace existing directory with symlink")
           else io (remove_file out_path)
       | _ => mret ()
       end);
  io (symlink target out_path).

Definition extract_non_fragment_entry (output_dir : Path) (entry : EntryReader) (flags : Z)
    (limits : ResourceLimits) (metadata : ExtractMetadataOptions)
    (pending : gmap Name PendingDirectoryMetadata)
    : M SarError.t (gmap Name PendingDirectoryMetadata) :=
  let m := EntryDecode.metadata entry in
  rel ← lift (validate_relative_archive_path (Metadata.name m));
  match Metadata.entry_kind m with
  | Metadata.Directory =>
      _ ← ensure_safe_directory_path output_dir rel;
      mret (record_directory_metadata pending rel entry)
  | Metadata.Symlink =>
      _ ← extract_symlink_entry output_dir rel entry metadata; mret pending
  | Metadata.RegularFile =>
      out_path ← prepare_output_file_path output_dir rel;
      _ ← write_content out_path flags limits (payload entry) (Metadata.sparse_extents m)
            (Metadata.uncompressed_size m) (Metadata.file_crc32 m)
            "file CRC32 mismatch on reconstructed logical file";
      _ ← apply_file_metadata out_path (entry_mode_bits m) (entry_owner m) (entry_times m)
            metadata;
      mret pending
  | Metadata.EmptyArea => mret pending
  end.

(** One round of the loop over the entries. *)
Definition extract_entry (output_dir : Path) (flags : Z) (limits : ResourceLimits)
    (metadata : ExtractMetadataOptions) (st : Progress) (entry : EntryReader)
    : M SarError.t Progress :=
  let m := EntryDecode.metadata entry in
  if (len (Metadata.name m) =? 0) && negb (Metadata.is_fragment m) then mret st
  else if Metadata.is_fragment m then lift (add_fragment limits st entry)
  else
    pending ← extract_non_fragment_entry output_dir entry flags limits metadata
                (pending_directories st);
    mret (set_pending st pending).
Fixpoint entries_loop (output_dir : Path) (flags : Z) (options : ArchiveReaderOptions)
    (key_provider : option Kms.KeyProvider) (metadata : ExtractMetadataOptions) (fuel : nat)
    (reader : ArchiveReader.ArchiveReader) (st : Progress) : M SarError.t Progress :=
  match fuel with
  | O => lift Panic
  | S fuel =>
      '(entry, reader) ← lift (ArchiveReader.next_entry oc options key_provider reader);
      match entry with
      | None => mret st
      | Some entry =>
          st ← extract_entry output_dir flags (EntryDecode.limits options) metadata st entry;
          entries_loop output_dir flags options key_provider metadata fuel reader st
      end
  end.

(** One round of the loop over the groups. *)
Definition extract_group (output_dir : Path) (flags : Z) (limits : ResourceLimits)
    (metadata : ExtractMetadataOptions) (allow_lossy : bool) (group : FragGroup)
    : M SarError.t unit :=
  raw ← lift (assemble limits allow_lossy group);
  rel ← lift (validate_relative_archive_path (name group));
  out_path ← prepare_output_file_path output_dir rel;
  _ ← write_content out_path flags limits raw (sparse_extents group)
        (sparse_uncompressed_size group) (file_crc32 group)
        "file CRC32 mismatch on reconstructed fragment-group logical file";
  apply_file_metadata out_path (permissions group) (owner group) (timestamps group) metadata.
Fixpoint groups_loop (output_dir : Path) (flags : Z) (limits : ResourceLimits)
    (metadata : ExtractMetadataOptions) (allow_lossy : bool) (groups : gmap Z FragGroup)
    (order : list Z) : M SarError.t unit :=
  match order with
  | [] => mret ()
  | fid :: order =>
      group ← lift (ok_or (groups !! fid)
                (SarError.Malformed "fragment group ID vanished during reconstruction"));
      _ ← extract_group output_dir flags limits metadata allow_lossy group;
      groups_loop output_dir flags limits metadata allow_lossy (delete fid groups) order
  end.

(** Everything behind [create_dir_all]. *)
Definition extract_into (archive output_dir : Path) (password : option (list byte))
    (allow_lossy : bool) (limits : ResourceLimits) (metadata : ExtractMetadataOptions)
    : M SarError.t unit :=
  source ← io (read_file archive);
  let options := {| EntryDecode.limits := limits; EntryDecode.delta_base := None |} in
  reader ← lift (ArchiveReader.with_options options source);
  '(header, reader) ← lift (ArchiveReader.read_global_header options reader);
  let flags := Format.flags header in
  key_provider ← (if contains flags GlobalFlags.ENCRYPTED
                  then password ← lift (load_password password);
                       mret (Some (CliKeyProvider (Some password)))
                  else mret None);
  st ← entries_loop output_dir flags options key_provider metadata
         (ArchiveReader.entries_fuel reader) reader
         {| frag_order := []; frag_groups := ∅; pending_directories := ∅ |};
  _ ← groups_loop output_dir flags limits metadata allow_lossy (frag_groups st) (frag_order st);
  finalize_directory_metadata into_values output_dir (pending_directories st) metadata.
Definition extract_archive (archive output_dir : Path) (password : option (list byte))
    (allow_lossy : bool) (limits : ResourceLimits) (metadata : ExtractMetadataOptions)
    : M SarError.t unit :=
  _ ← lift (validate_extract_metadata_support metadata);
  _ ← io (create_dir_all output_dir);
  extract_into archive output_dir password allow_lossy limits metadata.
End extract.
End Extract.
