(* ===== verification/ExtractSafety.v ===== *)
(** * Extraction stays inside its directory: the rules

    Resolving paths below the output directory, the relation [confined] between the trees
    before and after a computation, and a small program logic: [spec P m Q] says that [m],
    run where the output directory leads to [D] and [P] holds of the tree, changes nothing
    outside [D], does not panic, and establishes [Q] when it succeeds.  One rule per system
    call and per function of [Extract.v]. *)

From stdpp Require Import gmap.
From Stdlib Require Import String.
From S2P Require Import Prelude Errors Limits Flags Cursor Format Lfh Sparse Fragmentation Crypto Kms Transform Metadata EntryDecode ArchiveReader FileSystem Extract.

Module ExtractSafety.
Import Limits FileSystem Extract.

(** ** Resolution *)
Section resolution.
Context {H : Host}.

(** A resolution depends only on what it looks at. *)
Lemma walk_agree n t t' follow loc ps :
  (∀ l, l ∈ (walk n t follow loc ps).1 → t' !! l = t !! l) →
  walk n t' follow loc ps = walk n t follow loc ps.
Proof.
  revert loc ps. induction n as [|n IHn]; intros loc ps; revert loc;
    induction ps as [|p rest IH]; intros loc Hag; try done; cbn [walk] in *.
  - assert (Hloc : t' !! loc = t !! loc).
    { apply Hag. destruct (t !! loc) as [[]|]; repeat case_match; cbn; set_solver. }
    rewrite Hloc. destruct (t !! loc) as [[a| |]|] eqn:El; try done.
    destruct (bool_decide (p = dotdot)).
    { f_equal. apply IH. intros l Hl. apply Hag. cbn. set_solver. }
    assert (Hl : t' !! (loc ++ [p]) = t !! (loc ++ [p])).
    { apply Hag. repeat case_match; cbn; set_solver. }
    rewrite Hl. destruct (t !! (loc ++ [p])) as [[]|]; try done;
      (f_equal; apply IH; intros l Hin; apply Hag; cbn; set_solver).
  - assert (Hloc : t' !! loc = t !! loc).
    { apply Hag. destruct (t !! loc) as [[]|]; repeat case_match; cbn; set_solver. }
    rewrite Hloc. destruct (t !! loc) as [[a| |]|] eqn:El; try done.
    destruct (bool_decide (p = dotdot)).
    { f_equal. apply IH. intros l Hl. apply Hag. cbn. set_solver. }
    assert (Hl : t' !! (loc ++ [p]) = t !! (loc ++ [p])).
    { apply Hag. repeat case_match; cbn; set_solver. }
    rewrite Hl. destruct (t !! (loc ++ [p])) as [[| |tg]|]; try done.
    + f_equal. apply IH. intros l Hin. apply Hag. cbn. set_solver.
    + f_equal. apply IH. intros l Hin. apply Hag. cbn. set_solver.
    + destruct (bool_decide (rest = []) && negb follow); [done|].
      f_equal. apply IHn. intros l Hin. apply Hag. cbn. set_solver.
    + f_equal. apply IH. intros l Hin. apply Hag. cbn. set_solver.
Qed.

(** Resolving a path with something behind it: first the path, links followed. *)
Lemma walk_app n t follow loc a b D :
  b ≠ [] → (walk n t true loc a).2 = Ok D →
  ∃ n', (walk n t follow loc (a ++ b)).2 = (walk n' t follow D b).2.
Proof.
  intros Hb. revert loc a. induction n as [|n IHn]; intros loc a; revert loc;
    induction a as [|p rest IH]; intros loc Hw.
  1, 3: cbn in Hw; injection Hw as ->; cbn [app]; by eexists.
  all: cbn [app walk] in *; destruct (t !! loc) as [[at_| |]|] eqn:El; try done;
    destruct (bool_decide (p = dotdot)); [by apply IH|];
    destruct (t !! (loc ++ [p])) as [[| |tg]|] eqn:Ep; try (by apply IH).
  - by rewrite andb_false_r in Hw.
  - rewrite andb_false_r in Hw. rewrite bool_decide_eq_false_2 by (destruct rest, b; done).
    cbn [andb visiting snd] in *. rewrite app_assoc. by apply IHn.
Qed.

Lemma walk_no_panic n t follow loc ps : no_panic (walk n t follow loc ps).2.
Proof.
  revert loc ps. induction n as [|n IHn]; intros loc ps; revert loc;
    induction ps as [|p ps IH]; intros loc; try done; cbn [walk]; repeat case_match;
    cbn [visiting snd]; try apply IH; try apply IHn; done.
Qed.

(** Names that are one component of a path. *)
Definition plain (c : Name) : Prop := c ≠ [] ∧ c ≠ dot ∧ c ≠ dotdot ∧ SLASH ∉ c.
Definition is_dir_at (t : Tree) (l : Loc) : Prop := ∃ a, t !! l = Some (Dir a).
Definition real (t : Tree) (D : Loc) (cs : list Name) : Prop :=
  ∀ i, is_dir_at t (D ++ take i cs).
Definition is_link_at (t : Tree) (l : Loc) : Prop := ∃ g, t !! l = Some (Link g).

Lemma real_nil t D : is_dir_at t D → real t D [].
Proof. intros Hd i. by rewrite take_nil, app_nil_r. Qed.
Lemma real_dir t D cs : real t D cs → is_dir_at t (D ++ cs).
Proof. intros Hr. specialize (Hr (length cs)). by rewrite take_ge in Hr. Qed.
Lemma real_prefix t D cs ds : real t D (cs ++ ds) → real t D cs.
Proof.
  intros Hr i. destruct (decide (i ≤ length cs)%nat) as [Hi|Hi].
  - specialize (Hr i). by rewrite take_app_le in Hr.
  - specialize (Hr (length cs)). rewrite take_app_length in Hr. by rewrite take_ge by lia.
Qed.
Lemma real_snoc t D cs c : real t D cs → is_dir_at t (D ++ cs ++ [c]) → real t D (cs ++ [c]).
Proof.
  intros Hr Hd i. destruct (decide (i ≤ length cs)%nat) as [Hi|Hi].
  - by rewrite take_app_le.
  - by rewrite take_ge by (rewrite length_app; cbn; lia).
Qed.

(** Below a directory, real directories are walked one by one. *)
Lemma walk_plain n t follow D cs c :
  real t D cs → Forall plain (cs ++ [c]) →
  follow = false ∨ ¬ is_link_at t (D ++ cs ++ [c]) →
  (walk n t follow D (cs ++ [c])).2 = Ok (D ++ cs ++ [c]).
Proof.
  revert D. induction cs as [|d cs IH]; intros D Hr Hp Hl.
  - cbn [app] in *. destruct (Hr 0%nat) as [a Ha]. rewrite take_0, app_nil_r in Ha.
    apply Forall_cons in Hp as [(? & ? & ? & ?) _].
    destruct n; cbn [walk]; rewrite Ha, bool_decide_eq_false_2 by done;
      destruct (t !! (D ++ [c])) as [[| |g]|] eqn:E; cbn; try done;
      (destruct Hl as [->|Hl]; [done|destruct Hl; by exists g]).
  - destruct (Hr 0%nat) as [a Ha]. rewrite take_0, app_nil_r in Ha.
    destruct (Hr 1%nat) as [a' Ha']. cbn [take] in Ha'. rewrite take_0 in Ha'.
    cbn [app] in *. apply Forall_cons in Hp as [(? & ? & ? & ?) Hp].
    replace (D ++ d :: cs ++ [c]) with ((D ++ [d]) ++ cs ++ [c]) in * by (by rewrite <- app_assoc).
    assert (Hr' : real t (D ++ [d]) cs).
    { intros i. specialize (Hr (S i)). cbn [take] in Hr. by rewrite <- app_assoc. }
    specialize (IH (D ++ [d]) Hr' Hp Hl).
    destruct n; cbn [walk] in *; rewrite Ha, bool_decide_eq_false_2, Ha' by done; exact IH.
Qed.

(** Paths that extend the output directory. *)
Definition under (out : Path) (cs : list Name) : Path :=
  {| is_absolute := is_absolute out; pieces := pieces out ++ cs |}.

Lemma under_nil out : under out [] = out.
Proof. destruct out. unfold under. cbn. by rewrite app_nil_r. Qed.
Lemma split_plain c : SLASH ∉ c → split SLASH c = [c].
Proof.
  induction c as [|b c IH]; intros Hc; [done|]. cbn [split].
  rewrite bool_decide_eq_false_2 by set_solver. by rewrite IH by set_solver.
Qed.
Lemma join_plain out cs c : plain c → join (under out cs) c = under out (cs ++ [c]).
Proof.
  intros (Hn & Hd & _ & Hs). unfold join, path_of. cbn [is_absolute pieces].
  rewrite bool_decide_eq_false_2 by (destruct c; set_solver). rewrite split_plain by done.
  cbn [filter list_filter]. rewrite decide_True by done. unfold under. cbn. by rewrite app_assoc.
Qed.
End resolution.

(** ** Confinement *)
Definition below (D l : Loc) : Prop := ∃ k, k ≠ [] ∧ l = D ++ k.
Record confined (D : Loc) (t t' : Tree) : Prop := {
  outside_kept l : ¬ below D l → t' !! l = t !! l;
  dirs_kept l : is_dir_at t l → is_dir_at t' l }.

Lemma below_snoc D cs c : below D (D ++ cs ++ [c]).
Proof. exists (cs ++ [c]). split; [by destruct cs|done]. Qed.
#[global] Instance confined_preorder D : PreOrder (confined D).
Proof.
  split; [done|]. intros t1 t2 t3 [H1 H2] [H3 H4]. split; intros l Hl; [|auto].
  by rewrite H3, H1.
Qed.
Lemma confined_insert D t l n :
  below D l → (is_dir_at t l → is_dir_node n = true) → confined D t (<[l := n]> t).
Proof.
  intros Hb Hn. split; intros k Hk.
  - apply lookup_insert_ne. by intros ->.
  - destruct (decide (k = l)) as [->|Hne].
    + specialize (Hn Hk). destruct n as [a| |]; [|done..]. exists a. by rewrite lookup_insert_eq.
    + destruct Hk as [a Ha]. exists a. by rewrite lookup_insert_ne.
Qed.
Lemma confined_delete D t l : below D l → ¬ is_dir_at t l → confined D t (delete l t).
Proof.
  intros Hb Hn. split; intros k Hk.
  - apply lookup_delete_ne. by intros ->.
  - destruct (decide (k = l)) as [->|Hne]; [done|]. destruct Hk as [a Ha].
    exists a. by rewrite lookup_delete_ne.
Qed.

(** What a run leaves alone: the files and links of [t0] outside the set [L]. *)
Definition kept (L : Loc → Prop) (t0 t : Tree) : Prop :=
  ∀ l n, t0 !! l = Some n → is_dir_node n = false → ¬ L l → t !! l = Some n.
Definition free (L : Loc → Prop) (t0 : Tree) (l : Loc) : Prop :=
  ∀ n, t0 !! l = Some n → is_dir_node n = false → ¬ ¬ L l.
Lemma kept_free L t0 t l :
  kept L t0 t → t !! l = None ∨ is_dir_at t l → free L t0 l.
Proof.
  intros Hk Hl n Hn Hd Hin.
  specialize (Hk l n Hn Hd Hin). destruct Hl as [Hl|[a Ha]]; by simplify_eq.
Qed.
Lemma kept_insert L t0 t l n : kept L t0 t → free L t0 l → kept L t0 (<[l := n]> t).
Proof.
  intros Hk Hf k m Hm Hd Hin. rewrite lookup_insert_ne; [by apply Hk|].
  intros ->. by apply (Hf m).
Qed.
Lemma kept_delete L t0 t l : kept L t0 t → free L t0 l → kept L t0 (delete l t).
Proof.
  intros Hk Hf k m Hm Hd Hin. rewrite lookup_delete_ne; [by apply Hk|].
  intros ->. by apply (Hf m).
Qed.
Lemma free_listed (L : Loc → Prop) t0 l : L l → free L t0 l.
Proof. by intros Hl n _ _ Hn. Qed.

(** ** The logic *)
Section logic.
Context {H : Host} (out : Path) (D : Loc).

(** The output directory leads to [D], without looking at anything below [D]. *)
Record anchored (t : Tree) : Prop := {
  leads : resolve t true out = Ok D;
  apart l : l ∈ (walk MAX_LINKS t true (base out) (pieces out)).1 → ¬ below D l;
  there : is_dir_at t D }.
Lemma anchored_confined t t' : anchored t → confined D t t' → anchored t'.
Proof.
  intros [Hl Ha Ht] [Ho Hd].
  pose proof (walk_agree MAX_LINKS t t' true (base out) (pieces out)) as Hw.
  unfold resolve in *. rewrite <- Hw in Hl by auto.
  split; [done|rewrite Hw by auto; done|auto].
Qed.
Lemma real_confined t t' cs : real t D cs → confined D t t' → real t' D cs.
Proof. intros Hr Hc i. by apply (dirs_kept D t t' Hc). Qed.

Lemma resolve_under t follow cs c :
  anchored t → real t D cs → Forall plain (cs ++ [c]) →
  follow = false ∨ ¬ is_link_at t (D ++ cs ++ [c]) →
  resolve t follow (under out (cs ++ [c])) = Ok (D ++ cs ++ [c]).
Proof.
  intros [Hl _ _] Hr Hp Hf. unfold resolve, under, base in *. cbn [is_absolute pieces].
  destruct (walk_app MAX_LINKS t follow _ (pieces out) (cs ++ [c]) D ltac:(by destruct cs) Hl)
    as [n ->]. by apply walk_plain.
Qed.

Definition spec {E A : Type} (P : Tree → Prop) (m : M E A) (Q : A → Tree → Prop) : Prop :=
  ∀ w, anchored (tree w) → P (tree w) →
    let '(w', r) := m w in
    confined D (tree w) (tree w')
    ∧ match r with Ok a => Q a (tree w') | Err _ => True | Panic => False end.

Lemma spec_ret {E A : Type} (P : Tree → Prop) (a : A) (Q : A → Tree → Prop) :
  (∀ t, P t → Q a t) → spec P (mret a : M E A) Q.
Proof. intros HQ w _ HP. cbn. split; [done|auto]. Qed.
Lemma spec_throw {E A : Type} (P : Tree → Prop) (e : E) (Q : A → Tree → Prop) : spec P (throw e) Q.
Proof. by intros w _ _. Qed.
Lemma spec_lift {E A : Type} (P : Tree → Prop) (r : result E A) (Q : A → Tree → Prop) :
  no_panic r → (∀ a t, r = Ok a → P t → Q a t) → spec P (lift r) Q.
Proof. intros Hn HQ w _ HP. cbn. split; [done|]. destruct r; auto. Qed.
Lemma spec_bind {E A B : Type} (P : Tree → Prop) (m : M E A) (Q : A → Tree → Prop) (f : A → M E B) (R : B → Tree → Prop) :
  spec P m Q → (∀ a, spec (Q a) (f a) R) → spec P (m ≫= f) R.
Proof.
  intros Hm Hf w Ha HP. specialize (Hm w Ha HP). unfold mbind, M_bind.
  destruct (m w) as [w1 [a|e|]]; destruct Hm as [Hc Hq]; try done.
  specialize (Hf a w1 (anchored_confined _ _ Ha Hc) Hq).
  destruct (f a w1) as [w2 r]. destruct Hf as [Hc2 Hr]. split; [by etrans|done].
Qed.
Lemma spec_weaken {E A : Type} (P P' : Tree → Prop) (m : M E A) (Q Q' : A → Tree → Prop) :
  spec P m Q → (∀ t, P' t → P t) → (∀ a t, Q a t → Q' a t) → spec P' m Q'.
Proof.
  intros Hm HP HQ w Ha Hw. specialize (Hm w Ha (HP _ Hw)). destruct (m w) as [w' [a|e|]]; naive_solver.
Qed.
Lemma spec_io {A : Type} (P : Tree → Prop) (m : M IoError A) (Q : A → Tree → Prop) : spec P m Q → spec P (io m) Q.
Proof.
  intros Hm w Ha HP. specialize (Hm w Ha HP). unfold io. by destruct (m w) as [w' [a|e|]].
Qed.
(** A pure step. *)
Lemma spec_value {E A B : Type} (P : Tree → Prop) (r : result E A) (f : A → M E B)
    (R : B → Tree → Prop) :
  no_panic r → (∀ a, r = Ok a → spec P (f a) R) → spec P (lift r ≫= f) R.
Proof.
  intros Hn Hf. destruct r as [a|e|]; [|by intros w|done]. intros w Ha HP. by apply Hf.
Qed.

(** What holds of a tree and of every tree after it. *)
Definition stable (P : Tree → Prop) : Prop := ∀ t t', confined D t t' → P t → P t'.
Lemma stable_real cs : stable (λ t, real t D cs).
Proof. intros t t' Hc Hr. by apply (real_confined t). Qed.
Lemma spec_stable {E A : Type} (P R : Tree → Prop) (m : M E A) (Q : A → Tree → Prop) :
  stable R → spec P m Q → (∀ t, P t → R t) → spec P m (λ a t, Q a t ∧ R t).
Proof.
  intros HR Hm HP w Ha Hw. specialize (Hm w Ha Hw). destruct (m w) as [w' [a|e|]]; naive_solver.
Qed.
(** A failure that is caught. *)
Lemma spec_attempt {E F A : Type} (P R : Tree → Prop) (m : M E A) (Q : A → Tree → Prop) :
  stable R → spec P m Q → (∀ t, P t → R t) →
  spec P (attempt m : M F (result E A))
    (λ r t, R t ∧ match r with Ok a => Q a t | Err _ => True | Panic => False end).
Proof.
  intros HR Hm HP w Ha Hw. specialize (Hm w Ha Hw). unfold attempt.
  destruct (m w) as [w' [a|e|]]; naive_solver.
Qed.
Lemma spec_if {E A : Type} (b : bool) (P : Tree → Prop) (m1 m2 : M E A) (Q : A → Tree → Prop) :
  (b = true → spec P m1 Q) → (b = false → spec P m2 Q) → spec P (if b then m1 else m2) Q.
Proof. destruct b; auto. Qed.
Lemma spec_pure {E A : Type} (F : Prop) (P : Tree → Prop) (m : M E A) (Q : A → Tree → Prop) :
  (F → spec P m Q) → spec (λ t, F ∧ P t) m Q.
Proof. intros Hm w Ha [HF HP]. by apply Hm. Qed.

(** ** System calls *)
Lemma spec_syscall {A : Type} (P : Tree → Prop) (f : nat → Tree → result IoError (Tree * A))
    (Q : A → Tree → Prop) :
  (∀ k t, anchored t → P t →
     match f k t with Ok (t', a) => confined D t t' ∧ Q a t' | Err _ => True | Panic => False end) →
  spec P (syscall f) Q.
Proof.
  intros Hf w Ha HP. unfold syscall. destruct (fault (calls w)); [done|].
  specialize (Hf (calls w) (tree w) Ha HP). by destruct (f (calls w) (tree w)) as [[t a]|e|].
Qed.

Section at_name.
Context (L : Loc → Prop) (t0 : Tree) (cs : list Name).

(** The directory of the file at hand is real, and the files of [t0] are still there. *)
Definition here (t : Tree) : Prop := kept L t0 t ∧ real t D cs.
Definition node_at (l : Loc) (ψ : Node → Prop) (t : Tree) : Prop := ∃ n, t !! l = Some n ∧ ψ n.

Lemma here_insert t l n :
  here t → below D l → free L t0 l → (is_dir_at t l → is_dir_node n = true) →
  confined D t (<[l := n]> t) ∧ here (<[l := n]> t).
Proof.
  intros [Hk Hr] Hb Hf Hd. pose proof (confined_insert D t l n Hb Hd) as Hc.
  split; [done|]. split; [by apply kept_insert|by apply (real_confined t)].
Qed.
Lemma here_delete t l :
  here t → below D l → free L t0 l → ¬ is_dir_at t l →
  confined D t (delete l t) ∧ here (delete l t).
Proof.
  intros [Hk Hr] Hb Hf Hd. pose proof (confined_delete D t l Hb Hd) as Hc.
  split; [done|]. split; [by apply kept_delete|by apply (real_confined t)].
Qed.

Context (c : Name) (Hplain : Forall plain (cs ++ [c])).
#[local] Abbreviation loc := (D ++ cs ++ [c]).
#[local] Abbreviation path := (under out (cs ++ [c])).

Lemma spec_stat (P : Tree → Prop) :
  (∀ t, P t → real t D cs) →
  spec P (symlink_metadata path) (λ n t, P t ∧ t !! loc = Some n).
Proof.
  intros Hr. apply spec_syscall. intros _ t Ha HP. rewrite resolve_under by auto.
  cbn [mbind result_bind]. by destruct (t !! loc) eqn:E.
Qed.
Lemma spec_peek {F : Type} (P : Tree → Prop) :
  (∀ t, P t → real t D cs) →
  spec P (attempt (symlink_metadata path) : M F _)
    (λ r t, P t ∧ match r with Ok n => t !! loc = Some n | Err _ => True | Panic => False end).
Proof.
  intros Hr w Ha HP. pose proof (spec_stat P Hr w Ha HP) as Hs. unfold attempt.
  assert (Hw : tree (symlink_metadata path w).1 = tree w).
  { unfold symlink_metadata, stat, syscall. destruct (fault (calls w)); [done|].
    rewrite resolve_under by auto. cbn [mbind result_bind]. by destruct (tree w !! loc). }
  destruct (symlink_metadata path w) as [w' [n|e|]]; cbn in Hw; [naive_solver| |naive_solver].
  by rewrite Hw.
Qed.
Lemma spec_create (node : nat → Node) :
  spec here (create node path)
    (λ l t, l = loc ∧ here t ∧ free L t0 loc ∧ ∃ k, t !! loc = Some (node k)).
Proof.
  apply spec_syscall. intros k t Ha Ht. rewrite resolve_under by (destruct Ht; auto).
  cbn [mbind result_bind]. destruct (t !! loc) eqn:E; [done|].
  assert (Hf : free L t0 loc) by (apply (kept_free L t0 t); [apply Ht|by left]).
  destruct (here_insert t loc (node k)) as [Hc Hh]; [done|apply below_snoc|done| |].
  { intros [a Ha']. by rewrite E in Ha'. }
  split_and!; try done. exists k. by rewrite lookup_insert_eq.
Qed.
Lemma spec_remove :
  free L t0 loc → spec here (remove_file path) (λ _ t, here t ∧ t !! loc = None).
Proof.
  intros Hf. apply spec_syscall. intros _ t Ha Ht. rewrite resolve_under by (destruct Ht; auto).
  cbn [mbind result_bind].
  destruct (t !! loc) as [[a|d a|g]|] eqn:E; try done;
    (destruct (here_delete t loc) as [Hc Hh];
      [done|apply below_snoc|done|by intros [a' Ha']; rewrite E in Ha'|]);
    (split_and!; [done..|apply lookup_delete_eq]).
Qed.

(** Predicates on nodes that attributes do not matter to. *)
Definition blind (ψ : Node → Prop) : Prop :=
  (∀ f n, ψ n → ψ (with_attr f n)) ∧ ∀ g, ¬ ψ (Link g).
Lemma change_attr_at (f : Attr → Attr) (ψ : Node → Prop) t :
  anchored t → here t → free L t0 loc → blind ψ → node_at loc ψ t →
  ∃ t', change_attr f path t = Ok t' ∧ confined D t t' ∧ here t' ∧ node_at loc ψ t'.
Proof.
  intros Ha Ht Hf [Hb Hl] (n & Hn & Hψ). unfold change_attr.
  rewrite resolve_under; [|done|apply Ht|done|].
  2: { right. intros [g Hg]. simplify_eq. by apply (Hl g). }
  cbn [mbind result_bind]. rewrite Hn. cbn [ok_or].
  destruct (here_insert t loc (with_attr f n)) as [Hc Hh]; [done|apply below_snoc|done| |].
  { intros [a Ha']. by simplify_eq. }
  eexists. split; [done|]. split_and!; [done..|].
  exists (with_attr f n). split; [apply lookup_insert_eq|by apply Hb].
Qed.
Lemma spec_change (g : Tree → result IoError Tree) (f : Attr → Attr) (ψ : Node → Prop) :
  (∀ t, g t = change_attr f path t) → free L t0 loc → blind ψ →
  spec (λ t, here t ∧ node_at loc ψ t) (syscall (λ _ t, t ← g t; Ok (t, ())))
    (λ _ t, here t ∧ node_at loc ψ t).
Proof.
  intros Hg Hf Hb. apply spec_syscall. intros _ t Ha [Ht Hn]. rewrite Hg.
  by destruct (change_attr_at f ψ t Ha Ht Hf Hb Hn) as (t' & -> & ? & ? & ?).
Qed.

(** The open file. *)
Lemma spec_on_file (g : list byte → list byte) d :
  free L t0 loc →
  spec (λ t, here t ∧ ∃ a, t !! loc = Some (File d a))
    (syscall (λ _ t, t ← on_file g loc t; Ok (t, ())))
    (λ _ t, here t ∧ ∃ a, t !! loc = Some (File (g d) a)).
Proof.
  intros Hf. apply spec_syscall. intros _ t Ha [Ht [a Hn]]. unfold on_file. rewrite Hn.
  cbn [mbind result_bind].
  destruct (here_insert t loc (File (g d) a)) as [Hc Hh]; [done|apply below_snoc|done| |].
  { intros [a' Ha']. by simplify_eq. }
  split_and!; [done..|]. exists a. apply lookup_insert_eq.
Qed.
Lemma spec_write_all d pos src :
  free L t0 loc →
  spec (λ t, here t ∧ ∃ a, t !! loc = Some (File d a)) (write_all loc pos src)
    (λ _ t, here t ∧ ∃ a, t !! loc = Some (File (overwrite d pos src) a)).
Proof.
  intros Hf w Ha [Ht [a Hn]]. unfold write_all, on_file. rewrite Hn.
  set (bs := take _ src).
  destruct (here_insert (tree w) loc (File (overwrite d pos bs) a)) as [Hc Hh];
    [done|apply below_snoc|done| |].
  { intros [a' Ha']. by simplify_eq. }
  unfold bs in *. destruct (fault (calls w)); [done|]. rewrite take_ge in * by done.
  split_and!; [done..|]. exists a. apply lookup_insert_eq.
Qed.

(** Renaming a file of the same directory. *)
Lemma spec_rename (tmp : Name) (ψ : Node → Prop) :
  plain tmp → tmp ≠ c → free L t0 (D ++ cs ++ [tmp]) → free L t0 loc →
  (∀ n, ψ n → is_dir_node n = false) →
  spec (λ t, here t ∧ node_at (D ++ cs ++ [tmp]) ψ t)
    (rename (under out (cs ++ [tmp])) path) (λ _ t, here t ∧ node_at loc ψ t).
Proof.
  intros Htmp Hne Hf1 Hf2 Hψ. apply spec_syscall. intros _ t Ha [Ht (n & Hn & Hp)].
  assert (Hpl : Forall plain (cs ++ [tmp])).
  { apply Forall_app in Hplain as [? _]. by apply Forall_app, conj, Forall_singleton. }
  rewrite !resolve_under by (destruct Ht; auto). cbn [mbind result_bind]. rewrite Hn.
  pose proof (Hψ n Hp) as Hd.
  assert (Hloc : D ++ cs ++ [tmp] ≠ loc).
  { intros E. apply app_inv_head, app_inv_head in E. by injection E. }
  assert (Hmove : ¬ is_dir_at t loc → confined D t (<[loc := n]> (delete (D ++ cs ++ [tmp]) t))
    ∧ here (<[loc := n]> (delete (D ++ cs ++ [tmp]) t))
    ∧ node_at loc ψ (<[loc := n]> (delete (D ++ cs ++ [tmp]) t))).
  { intros Hnd. destruct (here_delete t (D ++ cs ++ [tmp])) as [Hc1 Hh1];
      [done|apply below_snoc|done|by intros [a Ha']; simplify_eq|].
    destruct (here_insert _ loc n Hh1) as [Hc2 Hh2]; [apply below_snoc|done| |].
    { intros [a Ha']. rewrite lookup_delete_ne in Ha' by done. destruct Hnd. by exists a. }
    split; [by etrans|]. split; [done|]. exists n. by rewrite lookup_insert_eq. }
  destruct n as [a|d a|g]; [done|..];
    (destruct (t !! loc) as [[a'|d' a'|g']|] eqn:E; [done|..];
     rewrite bool_decide_eq_false_2 by done; apply Hmove; intros [? ?]; congruence).
Qed.
End at_name.

(** ** Names of temporary files *)
Lemma digits_no_slash n z : SLASH ∉ digits n z.
Proof.
  revert z. induction n as [|n IH]; intros z; cbn [digits]; [set_solver|].
  assert (Hd : SLASH ≠ byte_of (48 + z mod 10)).
  { intros E. apply (f_equal byte_val) in E. pose proof (Z.mod_pos_bound z 10 ltac:(lia)).
    rewrite byte_val_of_small in E by lia. change (byte_val SLASH) with 47 in E. lia. }
  destruct (z <? 10); set_solver.
Qed.
Lemma temp_plain c nonce : plain c → plain (temp_name c nonce) ∧ temp_name c nonce ≠ c.
Proof.
  intros (Hn & _ & _ & Hs). unfold temp_name.
  assert (Hlen : (length c < length (bytes "." ++ c ++ bytes ".sar-tmp-" ++ decimal process_id
    ++ bytes "-" ++ decimal nonce))%nat) by (rewrite !length_app; cbn; lia).
  assert (Hlen2 : (9 < length (bytes "." ++ c ++ bytes ".sar-tmp-" ++ decimal process_id
    ++ bytes "-" ++ decimal nonce))%nat) by (rewrite !length_app; cbn; lia).
  split; [|intros E; rewrite E in Hlen; lia].
  split; [done|]. split; [intros E; rewrite E in Hlen2; cbn in Hlen2; lia|].
  split; [intros E; rewrite E in Hlen2; cbn in Hlen2; lia|].
  rewrite !not_elem_of_app. split_and!; try apply digits_no_slash; [|done|..];
    by apply (bool_decide_unpack _).
Qed.
Lemma with_file_name_under cs c nonce :
  plain c →
  with_file_name (under out (cs ++ [c])) (temp_name c nonce) = under out (cs ++ [temp_name c nonce])
  ∧ file_name (under out (cs ++ [c])) = Some c.
Proof.
  intros Hc. destruct (temp_plain c nonce Hc) as [Ht _]. destruct Hc as (_ & _ & Hdd & _).
  assert (Hf : file_name (under out (cs ++ [c])) = Some c).
  { unfold file_name, under. cbn [pieces]. rewrite app_assoc, last_snoc.
    by rewrite bool_decide_eq_false_2. }
  split; [|done]. unfold with_file_name. rewrite Hf.
  replace (parent_of (under out (cs ++ [c]))) with (under out cs); [by apply join_plain|].
  unfold parent_of, under. cbn [pieces is_absolute]. by rewrite app_assoc, removelast_last.
Qed.

(** ** Staging *)
Lemma here_real cs t : here (λ _, False) ∅ cs t ↔ real t D cs.
Proof. split; [by intros []|]. intros Hr. split; [|done]. intros l n Hn. by rewrite lookup_empty in Hn. Qed.
Lemma free_empty l : free (λ _, False) ∅ l.
Proof. intros n Hn. by rewrite lookup_empty in Hn. Qed.

Section staging.
Context (cs : list Name) (c : Name) (Hplain : Forall plain (cs ++ [c])).
#[local] Abbreviation loc := (D ++ cs ++ [c]).
#[local] Abbreviation path := (under out (cs ++ [c])).

Lemma dir_plain : Forall plain cs ∧ plain c.
Proof. apply Forall_app in Hplain as [? Hc]. rewrite Forall_singleton in Hc. done. Qed.
Lemma plain_snoc n : plain n → Forall plain (cs ++ [n]).
Proof. intros Hn. apply Forall_app. split; [apply dir_plain|by apply Forall_singleton]. Qed.

Lemma spec_make_temp (P : Tree → Prop) :
  spec P (make_temp_output_path path)
    (λ p t, (∃ tmp, p = under out (cs ++ [tmp]) ∧ plain tmp ∧ tmp ≠ c) ∧ P t).
Proof.
  unfold make_temp_output_path. rewrite (proj2 (with_file_name_under cs c 0 (proj2 dir_plain))).
  cbn [ok_or]. eapply spec_bind; [apply (spec_lift P _ (λ n t, n = c ∧ P t)); [done|naive_solver]|].
  intros n. apply spec_pure. intros ->.
  eapply spec_bind with (Q := λ _, P); [by intros w _ HP|]. intros o.
  eapply spec_bind; [apply spec_lift with (Q := λ _, P); [apply no_panic_ok_or|done]|].
  intros nonce. apply spec_ret. intros t HP. split; [|done].
  exists (temp_name c nonce). destruct (with_file_name_under cs c nonce (proj2 dir_plain)) as [-> _].
  split; [done|]. apply temp_plain, dir_plain.
Qed.

(** Removing a file on the way out of a failure. *)
Lemma spec_cleanup (Q : unit → Tree → Prop) (e : SarError.t) :
  spec (λ t, real t D cs) (_ ← remove_temp_file_if_exists path; throw e) Q.
Proof.
  unfold remove_temp_file_if_exists. eapply spec_bind with (Q := λ _ _, True).
  - eapply spec_bind; [|intros r; by apply spec_ret].
    apply (spec_attempt _ (λ _, True) _ (λ _ _, True)); [done| |done].
    eapply spec_weaken; [apply (spec_remove (λ _, False) ∅ cs c Hplain (free_empty _))| |done].
    intros t. apply here_real.
  - intros _. apply spec_throw.
Qed.
Lemma spec_or_remove (P : Tree → Prop) (body : M SarError.t unit) (Q : unit → Tree → Prop) :
  (∀ t, P t → real t D cs) → spec P body Q → spec P (or_remove path body) Q.
Proof.
  intros HP Hb. unfold or_remove. eapply spec_bind.
  { apply (spec_attempt P (λ t, real t D cs) body Q); [apply stable_real|done|done]. }
  intros [a|e|]; [apply spec_lift; [done|]; intros a' t [= <-]; by intros []|
    eapply spec_weaken; [apply spec_cleanup|naive_solver|done]|by intros w _ [_ []]].
Qed.
End staging.

Section write.
Context (L : Loc → Prop) (t0 : Tree) (cs : list Name) (c : Name) (Hplain : Forall plain (cs ++ [c])).
#[local] Abbreviation loc := (D ++ cs ++ [c]).
#[local] Abbreviation path := (under out (cs ++ [c])).
Context (Hloc : free L t0 loc).
#[local] Abbreviation here := (here L t0 cs).

Lemma spec_finalize (tmp : Name) (ψ : Node → Prop) :
  plain tmp → tmp ≠ c → free L t0 (D ++ cs ++ [tmp]) → (∀ n, ψ n → is_dir_node n = false) →
  spec (λ t, here t ∧ node_at (D ++ cs ++ [tmp]) ψ t)
    (finalize_temp_file (under out (cs ++ [tmp])) path) (λ _ t, here t ∧ node_at loc ψ t).
Proof.
  intros Htmp Hne Hf Hψ. unfold finalize_temp_file. eapply spec_bind.
  { apply (spec_attempt _ (λ t, real t D cs));
      [apply stable_real|by apply spec_rename|by intros t [[] ?]]. }
  intros [a|e|]; [apply spec_ret; naive_solver| |by intros w _ [_ []]].
  eapply spec_weaken; [apply spec_cleanup, (plain_snoc cs c Hplain tmp Htmp)|by intros t []|].
  intros a t HQ. exact HQ.
Qed.

(** A file written under a temporary name: the body fills the open file and moves it. *)
Lemma spec_via_temp (body : Path → Loc → M SarError.t unit) (ψ : Node → Prop) :
  (∀ tmp, plain tmp → tmp ≠ c → free L t0 (D ++ cs ++ [tmp]) →
     spec (λ t, here t ∧ ∃ a, t !! (D ++ cs ++ [tmp]) = Some (File [] a))
       (body (under out (cs ++ [tmp])) (D ++ cs ++ [tmp])) (λ _ t, here t ∧ node_at loc ψ t)) →
  spec here
    (tmp_path ← make_temp_output_path path;
     or_remove tmp_path (file ← open_temp_file tmp_path; body tmp_path file))
    (λ _ t, here t ∧ node_at loc ψ t).
Proof.
  intros Hbody. eapply spec_bind; [by apply spec_make_temp|].
  intros p. apply spec_pure. intros (tmp & -> & Htmp & Hne).
  pose proof (plain_snoc cs c Hplain tmp Htmp) as Hpl.
  apply spec_or_remove; [done|by intros t []|]. unfold open_temp_file, create_new.
  eapply spec_bind; [by apply spec_io, spec_create|]. intros l.
  apply spec_pure. intros ->. intros w Ha (Ht & Hf & k & Hk). apply Hbody; eauto.
Qed.
Definition holds (content : list byte → Prop) (n : Node) : Prop := ∃ d a, content d ∧ n = File d a.
Lemma spec_finalize_file tmp content :
  plain tmp → tmp ≠ c → free L t0 (D ++ cs ++ [tmp]) →
  spec (λ t, here t ∧ ∃ d a, content d ∧ t !! (D ++ cs ++ [tmp]) = Some (File d a))
    (finalize_temp_file (under out (cs ++ [tmp])) path)
    (λ _ t, here t ∧ node_at loc (holds content) t).
Proof.
  intros Htmp Hne Hf. eapply spec_weaken;
    [apply (spec_finalize tmp (holds content)); [done..|by intros n (d & a & _ & ->)]| |done].
  intros t (Ht & d & a & Hd & Hn). split; [done|]. exists (File d a). split; [done|]. by exists d, a.
Qed.

Lemma overwrite_empty src : overwrite [] 0 src = src.
Proof.
  unfold overwrite, resized, copy_at. rewrite (@len_nil byte), Z.add_0_l.
  rewrite Z.max_r by apply len_nonneg. rewrite take_nil, Z.sub_0_r. cbn [app take].
  rewrite drop_ge; [by rewrite app_nil_r|]. unfold zeros. rewrite length_replicate. lia.
Qed.
Lemma spec_write_bytes data :
  spec here (write_bytes_via_temp path data)
    (λ _ t, here t ∧ node_at loc (holds (λ d, d = data)) t).
Proof.
  apply (spec_via_temp (λ tmp_path file,
    _ ← io (write_all file 0 data); finalize_temp_file tmp_path path)).
  intros tmp Htmp Hne Hf.
  eapply spec_bind; [by apply spec_io, (spec_write_all L t0 cs tmp [] 0 data)|]. intros [].
  eapply spec_weaken; [by apply (spec_finalize_file tmp (λ d, d = data))| |done].
  intros t (Ht & a & Hn). split; [done|]. exists data, a. by rewrite overwrite_empty in Hn.
Qed.

(** ** Sparse files *)
Lemma overwrite_inside d pos src :
  0 ≤ pos → pos + len src ≤ len d → overwrite d pos src = copy_at d pos src.
Proof.
  intros Hp Hl. unfold overwrite, resized. rewrite Z.max_l by lia.
  rewrite Z.sub_diag. unfold len. rewrite Nat2Z.id, take_ge by done. by rewrite app_nil_r.
Qed.

(** The loop over the extents does to the file what [scatter_loop] does to a buffer. *)
Lemma spec_write_extents tmp payload es size last :
  free L t0 (D ++ cs ++ [tmp]) → Forall Sparse.extent_wf es →
  Sparse.extents_ok last size es → 0 ≤ last → size < 2 ^ 64 →
  ∀ pos d, 0 ≤ pos → len d = size →
  spec (λ t, here t ∧ ∃ a, t !! (D ++ cs ++ [tmp]) = Some (File d a))
    (write_extents (D ++ cs ++ [tmp]) payload es pos)
    (λ pos' t, here t ∧ ∃ d' a, Sparse.scatter_loop es payload size pos d = Ok (d', pos')
                                ∧ t !! (D ++ cs ++ [tmp]) = Some (File d' a)).
Proof.
  intros Hf Hwf. revert last. induction Hwf as [|e es [[? ?] [? ?]] Hes IH];
    intros last Hok Hlast Hsize pos d Hpos Hd; cbn [write_extents Sparse.scatter_loop].
  - apply spec_ret. intros t (Ht & a & Hn). eauto.
  - cbn [Sparse.extents_ok] in Hok. destruct Hok as (? & ? & ? & Hok).
    rewrite (checked_add_fits 64 (Sparse.ext_offset e)) by lia. cbn [ok_or mbind result_bind].
    rewrite Zgt_false by lia. rewrite !try_from_fits by lia. cbn [ok_or mbind result_bind].
    rewrite (checked_add_fits 64 (Sparse.ext_offset e)) by lia. cbn [ok_or mbind result_bind].
    apply spec_value; [done|]. intros n [= <-].
    apply spec_value; [apply no_panic_ok_or|]. intros src_end Hend.
    apply ok_or_Ok in Hend. rewrite Hend. apply checked_add_Some in Hend as [-> ?].
    cbn [ok_or mbind result_bind].
    destruct (pos + Sparse.ext_length e >? len payload) eqn:Eg; [apply spec_throw|].
    rewrite !slice_r_fits by lia. cbn [mbind result_bind].
    rewrite copy_at_r_fits by (rewrite ?len_slice; lia). cbn [mbind result_bind].
    apply spec_value; [done|]. intros src [= <-].
    eapply spec_bind; [by apply spec_io, spec_write_all|]. intros [].
    rewrite overwrite_inside by (rewrite ?len_slice; lia).
    eapply IH; [exact Hok|lia..|]. by rewrite len_copy_at by (rewrite ?len_slice; lia).
Qed.
Definition sparse_content (payload : list byte) (es : list Sparse.SparseExtent) (size : Z)
    (d : list byte) : Prop :=
  Sparse.scatter_loop es payload size 0 (zeros size) = Ok (d, len payload).

Lemma check_sparse_Ok es size limits :
  Forall Sparse.extent_wf es → fits 64 size → check_sparse es size limits = Ok () →
  Sparse.extents_ok 0 size es.
Proof.
  intros Hwf Hs Hc. unfold check_sparse in Hc. apply bind_Ok in Hc as (? & _ & Hc).
  apply map_err_Ok, Sparse.validate_ok in Hc as [_ ?]; done.
Qed.
Lemma check_sparse_no_panic es size limits : no_panic (check_sparse es size limits).
Proof.
  unfold check_sparse, check_decoded_entry_size. case_match; [done|]. cbn [mbind result_bind].
  apply no_panic_map_err. unfold Sparse.validate_sparse_extents, Sparse.check_sparse_descriptor_count.
  case_match; [done|]. apply Sparse.validate_loop_no_panic.
Qed.
Lemma spec_write_sparse payload es size limits :
  Forall Sparse.extent_wf es → fits 64 size →
  spec here (write_sparse_payload_via_temp path payload es size limits)
    (λ _ t, here t ∧ node_at loc (holds (sparse_content payload es size)) t).
Proof.
  intros Hwf Hs. unfold write_sparse_payload_via_temp.
  apply spec_value; [apply check_sparse_no_panic|]. intros [] Hc.
  pose proof (check_sparse_Ok es size limits Hwf Hs Hc) as Hok.
  apply (spec_via_temp (λ tmp_path file,
    _ ← io (set_len file size); payload_pos ← write_extents file payload es 0;
    if negb (payload_pos =? len payload)
    then throw (SarError.InvalidMap "sparse payload has excess bytes beyond declared extents")
    else finalize_temp_file tmp_path path)).
  intros tmp Htmp Hne Hf. eapply spec_bind; [by apply spec_io, (spec_on_file L t0 cs tmp (resized size) [])|].
  intros [].
  eapply spec_bind.
  { apply (spec_write_extents tmp payload es size 0); [done..|lia|apply Hs|lia|].
    unfold resized. rewrite take_nil, (@len_nil byte), Z.sub_0_r. apply len_zeros, Hs. }
  intros pos. apply spec_if; intros Hpos; [apply spec_throw|].
  eapply spec_weaken; [by apply (spec_finalize_file tmp (sparse_content payload es size))| |done].
  intros t (Ht & d & a & Hd & Hn). split; [done|]. exists d, a. split; [|done].
  apply negb_false_iff, Z.eqb_eq in Hpos as ->. unfold sparse_content. rewrite <- Hd.
  unfold resized. by rewrite take_nil, (@len_nil byte), Z.sub_0_r.
Qed.
End write.

(** ** Paths *)
Lemma blind_dir : blind (λ n, is_dir_node n).
Proof. split; [by intros f []|intros g []]. Qed.
Lemma blind_holds content : blind (holds content).
Proof.
  split; [|intros g (d & a & _ & [=])]. intros f n (d & a & Hd & ->). by exists d, (f a).
Qed.
Lemma spec_restrict L t0 cs c :
  Forall plain (cs ++ [c]) →
  spec (here L t0 cs) (create_restrictive_directory (under out (cs ++ [c])))
    (λ _ t, here L t0 cs t ∧ is_dir_at t (D ++ cs ++ [c])).
Proof.
  intros Hp. unfold create_restrictive_directory, create_dir. eapply spec_bind.
  { apply spec_io. eapply spec_bind; [by apply spec_create|]. intros l.
    apply (spec_ret _ () (λ _ t, free L t0 (D ++ cs ++ [c])
      ∧ here L t0 cs t ∧ node_at (D ++ cs ++ [c]) is_dir_node t)).
    intros t (-> & Ht & Hf & k & Hk). split; [done|]. split; [done|]. by eexists. }
  intros []. apply spec_pure. intros Hf. apply spec_io.
  eapply spec_weaken; [apply (spec_change L t0 cs c Hp _ (set_mode 448) is_dir_node); 
    [done..|apply blind_dir]|done|].
  intros _ t (Ht & n & Hn & Hd). split; [done|]. destruct n as [a| |]; [by exists a|done..].
Qed.
Lemma here_step L t0 cs c t : here L t0 cs t → is_dir_at t (D ++ cs ++ [c]) → here L t0 (cs ++ [c]) t.
Proof. intros [Hk Hr] Hd. split; [done|]. by apply real_snoc. Qed.
Lemma spec_ensure L t0 ds : ∀ cs,
  Forall plain (cs ++ ds) →
  spec (here L t0 cs) (ensure_parent_directory_path (under out cs) ds)
    (λ p t, p = under out (cs ++ ds) ∧ here L t0 (cs ++ ds) t).
Proof.
  induction ds as [|d ds IH]; intros cs Hp; cbn [ensure_parent_directory_path].
  { rewrite app_nil_r. by apply spec_ret. }
  rewrite (cons_middle d cs ds), app_assoc in Hp |- *.
  pose proof Hp as [Hp1 _]%Forall_app. pose proof Hp1 as [_ Hd]%Forall_app.
  rewrite Forall_singleton in Hd. rewrite join_plain by done.
  eapply spec_bind; [apply (spec_peek cs d Hp1 (here L t0 cs)); by intros t []|]. intros r.
  eapply spec_bind with (Q := λ _, here L t0 (cs ++ [d])); [|intros _; by apply IH].
  destruct r as [[a|data a|g]|e|]; cbn [is_link_node is_dir_node negb]; try apply spec_throw.
  - apply spec_ret. intros t [Ht Hn]. apply here_step; [done|by exists a].
  - destruct e; try apply spec_throw.
    eapply spec_weaken; [by apply spec_restrict|naive_solver|]. intros _ t []. by apply here_step.
  - by intros w _ [_ []].
Qed.

Lemma spec_ensure_top L t0 ds :
  Forall plain ds →
  spec (here L t0 []) (ensure_parent_directory_path out ds)
    (λ p t, p = under out ds ∧ here L t0 ds t).
Proof. intros Hp. rewrite <- (under_nil out) at 1. by apply (spec_ensure L t0 ds []). Qed.

(** What a validated path is. *)
Definition safe (rel : SafeRelativePath) : Prop :=
  components rel ≠ [] ∧ Forall plain (components rel).
Lemma safe_parent rel :
  safe rel → ∃ cs c, components rel = cs ++ [c] ∧ parent_components rel = cs
    ∧ rel_file_name rel = Ok c ∧ Forall plain (cs ++ [c]).
Proof.
  intros [Hn Hp]. destruct rel as [l]. cbn in *.
  destruct (exists_last Hn) as (cs & c & ->). exists cs, c. split; [done|].
  unfold parent_components, rel_file_name. cbn [components]. rewrite last_snoc, length_app. cbn [length].
  split; [|done]. destruct cs as [|x cs]; [done|]. cbn [length].
  rewrite (proj2 (Nat.leb_gt _ _)) by lia.
  replace (S (length cs) + 1 - 1)%nat with (length (x :: cs)) by (cbn; lia). apply take_app_length.
Qed.
Lemma spec_prepare L t0 rel cs c :
  safe rel → components rel = cs ++ [c] →
  spec (here L t0 []) (prepare_output_file_path out rel)
    (λ p t, p = under out (cs ++ [c]) ∧ here L t0 cs t).
Proof.
  intros Hs Hc. destruct (safe_parent rel Hs) as (cs' & c' & Hc' & Hpar & Hname & Hp).
  rewrite Hc in Hc'. apply app_inj_tail in Hc' as [<- <-]. unfold prepare_output_file_path.
  rewrite Hpar. pose proof Hp as [Hp1 Hp2]%Forall_app. rewrite Forall_singleton in Hp2.
  eapply spec_bind; [by apply spec_ensure_top|]. intros p. apply spec_pure. intros ->.
  rewrite Hname. apply spec_value; [done|]. intros n [= <-]. rewrite join_plain by done.
  eapply spec_bind; [apply (spec_peek cs c Hp (here L t0 cs)); by intros t []|].
  intros [n|e|]; [|apply spec_ret; naive_solver|by intros w _ [_ []]].
  apply spec_if; intros _; [apply spec_throw|apply spec_ret; naive_solver].
Qed.
Lemma spec_resolve_existing L t0 rel :
  safe rel →
  spec (here L t0 []) (resolve_existing_directory_path out rel)
    (λ p t, p = under out (components rel) ∧ here L t0 (components rel) t).
Proof.
  intros Hs. pose proof Hs as [Hne Hp]. unfold resolve_existing_directory_path.
  eapply spec_bind; [by apply spec_ensure_top|].
  intros p. apply spec_pure. intros ->.
  destruct (exists_last Hne) as (cs & c & Hc). rewrite Hc in *.
  eapply spec_bind.
  { apply spec_io, (spec_stat cs c Hp (here L t0 (cs ++ [c]))).
    intros t [_ Hr]. by apply (real_prefix t D cs [c]). }
  intros n. apply spec_if; intros _; [apply spec_throw|].
  apply spec_if; intros _; [apply spec_throw|apply spec_ret; naive_solver].
Qed.
End logic.
End ExtractSafety.
