(* ===== verification/ExtractTheorems.v ===== *)
(** * Extraction: what it does

    The rules of [ExtractSafety.v] for whole entries, groups of fragments and archives, and
    the theorems: the accepted names, the confinement to the output directory, the content of
    the extracted files, the atomic replacement of a file, and the agreement of the sparse
    checksum with the sparse file. *)

From stdpp Require Import gmap.
From Stdlib Require Import String.
From S2P Require Import Prelude Errors Limits Flags Cursor Format Lfh SparseMap Sparse Fragmentation Crypto Kms Transform Metadata EntryDecode ArchiveReader FileSystem Extract ExtractSafety.

Module ExtractTheorems.
Import Limits FileSystem Extract ExtractSafety.

(** ** Names *)
Lemma split_no_sep sep s : Forall (λ p, sep ∉ p) (split sep s).
Proof.
  induction s as [|b s IH]; cbn [split]; [apply Forall_singleton; set_solver|].
  case_bool_decide as E; [by apply Forall_cons; split; [set_solver|]|].
  destruct (split sep s) as [|p ps]; [apply Forall_singleton; set_solver|].
  apply Forall_cons in IH as [Hp Hps]. apply Forall_cons. split; [set_solver|done].
Qed.
Lemma split_nonempty sep s : split sep s ≠ [].
Proof. destruct s as [|b s]; [done|]. cbn [split]. repeat case_match; done. Qed.
Lemma split_join s : display {| components := split SLASH s |} = s.
Proof.
  unfold display. cbn [components]. induction s as [|b s IH]; [done|]. cbn [split].
  destruct (split SLASH s) as [|p ps] eqn:E; [by apply split_nonempty in E|].
  case_bool_decide as Eb; cbn; [by rewrite Eb, <- IH|by rewrite <- IH].
Qed.
Lemma split_inj s s' : split SLASH s = split SLASH s' → s = s'.
Proof. intros E. rewrite <- (split_join s), <- (split_join s'). by rewrite E. Qed.

(** A component that names a drive. *)
Definition drive (c : Name) : Prop :=
  ∃ b rest, c = b :: x3a :: rest ∧ is_ascii_alphabetic b = true.
Lemma check_component_Ok c :
  check_component c = Ok () ↔ c ≠ [] ∧ c ≠ dot ∧ c ≠ dotdot ∧ ¬ drive c.
Proof.
  unfold check_component. case_bool_decide; [split; [done|by intros (? & _)]|].
  case_bool_decide; [split; [done|by intros (_ & ? & _)]|].
  case_bool_decide; [split; [done|by intros (_ & _ & ? & _)]|]. destruct c as [|b0 [|b1 c]]; [done|..].
  { cbn. split; [|done]. intros _. split_and!; try done. by intros (b & r & [=] & _). }
  rewrite (proj2 (Z.leb_le 2 _)) by (rewrite !len_cons; pose proof (len_nonneg c); lia).
  rewrite (index_r_cons (b0 :: b1 :: c) 1 b1), (index_r_cons (b0 :: b1 :: c) 0 b0) by done.
  cbn [mbind result_bind]. case_bool_decide as E.
  - subst. destruct (is_ascii_alphabetic b0) eqn:Ea; split; try done.
    + intros (_ & _ & _ & Hd). destruct Hd. by exists b0, c.
    + intros _. split_and!; try done. intros (b & r & [= -> ->] & Hb). congruence.
  - split; [|done]. intros _. split_and!; try done. intros (b & r & [= -> -> ->] & Hb). done.
Qed.
Lemma check_component_no_panic c : no_panic (check_component c).
Proof.
  unfold check_component. do 3 (case_bool_decide; [done|]). destruct c as [|b0 [|b1 c]]; [done..|].
  rewrite (proj2 (Z.leb_le 2 _)) by (rewrite !len_cons; pose proof (len_nonneg c); lia).
  rewrite (index_r_cons (b0 :: b1 :: c) 1 b1), (index_r_cons (b0 :: b1 :: c) 0 b0) by done.
  cbn [mbind result_bind]. case_bool_decide; [|done]. by destruct (is_ascii_alphabetic b0).
Qed.
Lemma check_components_Ok cs :
  check_components cs = Ok () ↔ Forall (λ c, c ≠ [] ∧ c ≠ dot ∧ c ≠ dotdot ∧ ¬ drive c) cs.
Proof.
  induction cs as [|c cs IH]; [done|]. cbn [check_components]. rewrite bind_Ok, Forall_cons, <- IH.
  split; [intros ([] & Hc & ?); by rewrite <- check_component_Ok|].
  intros [Hc ?]. exists (). by rewrite check_component_Ok.
Qed.
Lemma check_components_no_panic cs : no_panic (check_components cs).
Proof.
  induction cs as [|c cs IH]; [done|]. cbn [check_components].
  by apply no_panic_bind; [apply check_component_no_panic|].
Qed.
Lemma names_no_panic name : no_panic (validate_relative_archive_path name).
Proof.
  unfold validate_relative_archive_path. do 4 (case_match; [done|]).
  apply no_panic_bind; [apply check_components_no_panic|]. intros [] _.
  unfold from_components. by case_match.
Qed.
Lemma starts_with_cons s b p : starts_with s (b :: p) = true → ∃ s', s = b :: s'.
Proof.
  unfold starts_with. rewrite bool_decide_eq_true. destruct s as [|b' s]; [done|]. cbn.
  intros [= -> _]. eauto.
Qed.
Lemma names_Ok name rel :
  validate_relative_archive_path name = Ok rel ↔
  components rel = split SLASH name ∧ (x00 ∉ name) ∧ (BACKSLASH ∉ name)
  ∧ Forall (λ c, plain c ∧ ¬ drive c) (split SLASH name).
Proof.
  assert (Hcs : check_components (split SLASH name) = Ok () ↔
    Forall (λ c, plain c ∧ ¬ drive c) (split SLASH name)).
  { rewrite check_components_Ok. pose proof (split_no_sep SLASH name) as Hs.
    rewrite !Forall_forall in *. unfold plain. naive_solver. }
  unfold validate_relative_archive_path, from_components. split.
  - intros H. do 4 apply guard_Ok in H as [?H H]. apply bind_Ok in H as ([] & Hc & H).
    apply guard_Ok in H as [_ [= <-]]. apply orb_false_iff in H3 as [Hz Hb].
    apply bool_decide_eq_false in Hz, Hb. by rewrite <- Hcs.
  - intros (Hr & Hz & Hb & Hp).
    assert (Hhead : ∀ b p, b = SLASH ∨ b = BACKSLASH → starts_with name (b :: p) = false).
    { intros b p Hbs. destruct (starts_with name (b :: p)) eqn:E; [|done].
      apply starts_with_cons in E as [s' ->]. destruct Hbs as [->| ->]; [|set_solver].
      cbn in Hp. apply Forall_cons in Hp as [((? & _) & _) _]. done. }
    rewrite bool_decide_eq_false_2 by (intros ->; cbn in Hp; apply Forall_cons in Hp as [((? & _) & _) _]; done).
    rewrite !Hhead by auto. rewrite !bool_decide_eq_false_2 by done. cbn [orb].
    rewrite (proj2 Hcs) by done. cbn [mbind result_bind].
    rewrite bool_decide_eq_false_2 by apply split_nonempty. destruct rel. cbn in *. by subst.
Qed.
Lemma validate_safe name rel :
  validate_relative_archive_path name = Ok rel → safe rel ∧ components rel = split SLASH name.
Proof.
  intros (Hc & _ & _ & Hp)%names_Ok. split; [|done]. unfold safe. rewrite Hc.
  split; [apply split_nonempty|]. eapply Forall_impl; [exact Hp|]. naive_solver.
Qed.

(** ** Attributes *)
Section attributes.
Context {H : Host} {A : OwnerAndTimes} {AL : OwnerAndTimesLaws}.
Context (out : Path) (D : Loc) (L : Loc → Prop) (t0 : Tree).
Context (cs : list Name) (c : Name) (Hplain : Forall plain (cs ++ [c])).
#[local] Abbreviation loc := (D ++ cs ++ [c]).
#[local] Abbreviation path := (under out (cs ++ [c])).
Context (Hfree : free L t0 loc) (ψ : Node → Prop) (Hψ : blind ψ).
#[local] Abbreviation present := (λ t, here D L t0 cs t ∧ node_at loc ψ t).

Lemma spec_permissions permissions metadata :
  spec out D present (apply_permissions path permissions metadata) (λ _, present).
Proof.
  unfold apply_permissions. apply spec_if; intros _; [by apply spec_ret|].
  destruct permissions as [m|]; [|by apply spec_ret]. apply spec_io. by eapply spec_change.
Qed.
Lemma spec_owner owner metadata :
  spec out D present (apply_owner path owner metadata) (λ _, present).
Proof.
  unfold apply_owner. apply spec_if; intros _; [by apply spec_ret|].
  destruct owner as [o|]; [|by apply spec_ret]. apply spec_io.
  eapply spec_change; [done|intros t; apply chown_spec|done..].
Qed.
Lemma spec_timestamps timestamps metadata :
  spec out D present (apply_timestamps path timestamps metadata) (λ _, present).
Proof.
  unfold apply_timestamps. apply spec_if; intros _; [by apply spec_ret|].
  destruct timestamps as [[[m a] ch]|]; [|by apply spec_ret].
  apply spec_value; [apply no_panic_ok_or|]. intros a' _.
  apply spec_value; [apply no_panic_ok_or|]. intros m' _. apply spec_io.
  eapply spec_change; [done|intros t; apply set_file_times_spec|done..].
Qed.
Lemma spec_attributes owner timestamps permissions metadata :
  spec out D present
    (_ ← apply_owner path owner metadata; _ ← apply_timestamps path timestamps metadata;
     apply_permissions path permissions metadata) (λ _, present).
Proof.
  eapply spec_bind; [apply spec_owner|]. intros [].
  eapply spec_bind; [apply spec_timestamps|]. intros []. apply spec_permissions.
Qed.
Lemma spec_file_metadata permissions owner timestamps metadata :
  spec out D present (apply_file_metadata path permissions owner timestamps metadata)
    (λ _, present).
Proof.
  unfold apply_file_metadata.
  eapply spec_bind; [apply spec_io, (spec_stat out D cs c Hplain present); by intros t [[] _]|].
  intros n. apply spec_if; intros _; [by apply spec_ret; intros t []|].
  apply spec_if; intros _; [apply spec_throw|].
  eapply spec_weaken; [apply spec_attributes|by intros t []|done].
Qed.
End attributes.

(** ** The content of a file *)
Definition content_of (payload : list byte) (extents : option (list Sparse.SparseExtent))
    (size : Z) (d : list byte) : Prop :=
  match extents with Some es => sparse_content payload es size d | None => d = payload end.
Definition content_typed (extents : option (list Sparse.SparseExtent)) (size : Z) : Prop :=
  match extents with Some es => Forall Sparse.extent_wf es | None => True end ∧ fits 64 size.

Section content.
Context {B : Bitflags} {H : Host} {C : Crc32}.

Lemma crc_loop_no_panic payload es h pos cursor :
  Forall Sparse.extent_wf es → 0 ≤ pos → no_panic (crc_loop payload es h pos cursor).
Proof.
  intros Hwf. revert h pos cursor.
  induction Hwf as [|e es [_ [? _]] Hes IH]; intros h pos cursor Hpos; [done|]. cbn [crc_loop].
  apply no_panic_bind; [apply no_panic_ok_or|]. intros gap _.
  apply no_panic_bind; [apply no_panic_ok_or|]. intros n [-> _]%ok_or_Ok%try_from_Some.
  apply no_panic_bind; [apply no_panic_ok_or|]. intros src_end [-> _]%ok_or_Ok%checked_add_Some.
  destruct (Z.gtb_spec (pos + Sparse.ext_length e) (len payload)); [done|].
  rewrite slice_r_fits by lia. cbn [mbind result_bind].
  apply no_panic_bind; [apply no_panic_ok_or|]. intros cur _. apply IH. lia.
Qed.
Lemma compute_crc_no_panic payload es size limits :
  Forall Sparse.extent_wf es → no_panic (compute_sparse_crc32 payload es size limits).
Proof.
  intros Hwf. unfold compute_sparse_crc32. apply no_panic_bind; [apply check_sparse_no_panic|].
  intros [] _. apply no_panic_bind; [by apply crc_loop_no_panic|]. intros [[h p] cur] _.
  apply no_panic_bind; [apply no_panic_ok_or|]. intros tr _. by case_match.
Qed.
Lemma verify_crc_no_panic (b : bool) expected actual message :
  no_panic (if b then verify_crc32 expected actual message else Ok ()).
Proof. unfold verify_crc32. repeat case_match; done. Qed.

Lemma spec_content out D L t0 cs c flags limits payload extents size crc message :
  Forall plain (cs ++ [c]) → free L t0 (D ++ cs ++ [c]) → content_typed extents size →
  spec out D (here D L t0 cs)
    (write_content (under out (cs ++ [c])) flags limits payload extents size crc message)
    (λ _ t, here D L t0 cs t ∧ node_at (D ++ cs ++ [c]) (holds (content_of payload extents size)) t).
Proof.
  intros Hp Hf [Ht Hs]. unfold write_content. destruct extents as [es|].
  - apply spec_value; [by apply compute_crc_no_panic|]. intros actual _.
    apply spec_value; [apply verify_crc_no_panic|]. intros [] _. by apply spec_write_sparse.
  - apply spec_value; [apply verify_crc_no_panic|]. intros [] _. by apply spec_write_bytes.
Qed.
End content.

(** ** Entries *)
Definition entry_ok (e : EntryDecode.EntryReader) : Prop :=
  let m := EntryDecode.metadata e in
  content_typed (Metadata.sparse_extents m) (Metadata.uncompressed_size m)
  ∧ EntryDecode.opt EntryDecode.descriptor_typed (Metadata.fragment_descriptor m)
  ∧ EntryDecode.opt (fits 32) (Metadata.meta_fragment_index m).

(** Where an entry is written: a file or a link at once, a fragment with its group. *)
Definition is_file (e : EntryDecode.EntryReader) : bool :=
  match Metadata.entry_kind (EntryDecode.metadata e) with
  | Metadata.RegularFile | Metadata.Symlink => true
  | _ => false
  end.
Definition entry_name (e : EntryDecode.EntryReader) : list byte :=
  Metadata.name (EntryDecode.metadata e).
Definition goes_to (D : Loc) (e : EntryDecode.EntryReader) (l : Loc) : Prop :=
  l = D ++ split SLASH (entry_name e).

Definition pending_ok (p : gmap Name PendingDirectoryMetadata) : Prop :=
  map_Forall (λ _ d, safe (relative_path d)) p.
Definition group_ok (D : Loc) (L : Loc → Prop) (g : FragGroup) : Prop :=
  content_typed (Extract.sparse_extents g) (sparse_uncompressed_size g)
  ∧ Forall entry_ok (group_entries g) ∧ L (D ++ split SLASH (name g)).
Definition progress_ok (D : Loc) (L : Loc → Prop) (st : Progress) : Prop :=
  pending_ok (pending_directories st) ∧ map_Forall (λ _ g, group_ok D L g) (frag_groups st).

Lemma add_fragment_ok D (L : Loc → Prop) limits st e :
  entry_ok e → (∀ l, goes_to D e l → L l) → progress_ok D L st →
  no_panic (add_fragment limits st e)
  ∧ ∀ st', add_fragment limits st e = Ok st' → progress_ok D L st'.
Proof.
  intros He HL [Hp Hg]. unfold add_fragment.
  destruct (Metadata.meta_fragment_id (EntryDecode.metadata e)) as [fid|]; cbn [ok_or mbind result_bind]; [|done].
  case_match; [done|].
  set (pair := match frag_groups st !! fid with Some g => (frag_order st, g) | None => _ end).
  assert (Hpair : group_ok D L pair.2).
  { unfold pair. destruct (frag_groups st !! fid) as [g|] eqn:E; cbn [snd]; [by apply (Hg fid)|].
    split; [by split|]. split; [done|]. by apply HL. }
  destruct pair as [order g]. cbn [snd] in Hpair. destruct Hpair as (Hc & Hes & Hl).
  split.
  { apply no_panic_bind; [apply no_panic_ok_or|]. intros n _.
    apply no_panic_bind; [apply no_panic_check|done]. }
  intros st' Hst. apply bind_Ok in Hst as (n & _ & Hst). apply bind_Ok in Hst as ([] & _ & [= <-]).
  split; [done|]. cbn [frag_groups]. apply map_Forall_insert_2; [|done].
  split; [|split]; cbn [Extract.sparse_extents sparse_uncompressed_size group_entries name].
  - dif as Eb; [apply He|done].
  - apply Forall_app. split; [done|by apply Forall_singleton].
  - done.
Qed.

Section entries.
Context {B : Bitflags} {Comp : Compression.Compressors} {Ciph : Crypto.Ciphers} {K : Kms.Kdfs}.
Context {H : Host} {A : OwnerAndTimes} {AL : OwnerAndTimesLaws} {C : Crc32} {T : Terminal}.
Context (out : Path) (D : Loc).

Lemma here_top L t0 cs t : here D L t0 cs t → here D L t0 [] t.
Proof. intros [Hk Hr]. split; [done|]. by apply (real_prefix t D [] cs). Qed.
Lemma rel_parts rel : safe rel → ∃ cs c, components rel = cs ++ [c] ∧ Forall plain (cs ++ [c]).
Proof. intros Hs. destruct (safe_parent rel Hs) as (cs & c & ? & _ & _ & ?). eauto. Qed.

Lemma spec_symlink L t0 rel e metadata :
  safe rel → free L t0 (D ++ components rel) →
  spec out D (here D L t0 []) (extract_symlink_entry out rel e metadata) (λ _, here D L t0 []).
Proof.
  intros Hs Hf. unfold extract_symlink_entry. apply spec_if; intros _; [apply spec_throw|].
  apply spec_value; [apply no_panic_ok_or|]. intros target _.
  apply spec_value; [apply names_no_panic|]. intros rt _.
  destruct (rel_parts rel Hs) as (cs & c & Hc & Hp). rewrite Hc in Hf.
  eapply spec_bind; [by apply spec_prepare|]. intros p. apply spec_pure. intros ->.
  eapply spec_bind; [apply (spec_peek out D cs c Hp (here D L t0 cs)); by intros t []|].
  intros existing. eapply spec_bind with (Q := λ _, here D L t0 cs).
  - destruct existing as [n|err|]; [|by apply spec_ret; intros t []|by intros w _ [_ []]].
    apply spec_if; intros _; [apply spec_throw|].
    eapply spec_weaken; [by apply spec_io, spec_remove|by intros t []|by intros _ t []].
  - intros []. apply spec_io. unfold symlink. eapply spec_bind; [by apply spec_create|].
    intros l. apply spec_ret. intros t (_ & Ht & _). by apply (here_top L t0 cs).
Qed.

Lemma spec_regular L t0 rel flags limits payload extents size crc message mode owner times metadata :
  safe rel → free L t0 (D ++ components rel) → content_typed extents size →
  spec out D (here D L t0 [])
    (out_path ← prepare_output_file_path out rel;
     _ ← write_content out_path flags limits payload extents size crc message;
     apply_file_metadata out_path mode owner times metadata)
    (λ _ t, here D L t0 [] t
            ∧ node_at (D ++ components rel) (holds (content_of payload extents size)) t).
Proof.
  intros Hs Hf Ht. destruct (rel_parts rel Hs) as (cs & c & Hc & Hp). rewrite Hc in *.
  eapply spec_bind; [by apply spec_prepare|]. intros p. apply spec_pure. intros ->.
  eapply spec_bind; [by apply spec_content|]. intros [].
  eapply spec_weaken; 
    [by apply (spec_file_metadata out D L t0 cs c Hp Hf _ (blind_holds (content_of payload extents size)))|
     done|].
  intros _ t [Hh ?]. split; [by apply (here_top L t0 cs)|done].
Qed.

(** [written e t]: the file of a regular entry holds the entry's content. *)
Definition written (e : EntryDecode.EntryReader) (t : Tree) : Prop :=
  let m := EntryDecode.metadata e in
  Metadata.entry_kind m = Metadata.RegularFile → Metadata.is_fragment m = false →
  entry_name e ≠ [] →
  node_at (D ++ split SLASH (entry_name e))
    (holds (content_of (EntryDecode.payload e) (Metadata.sparse_extents m)
              (Metadata.uncompressed_size m))) t.

Lemma spec_non_fragment L t0 e flags limits metadata pending :
  entry_ok e → (is_file e = true → ∀ l, goes_to D e l → L l) → pending_ok pending →
  spec out D (here D L t0 [])
    (extract_non_fragment_entry out e flags limits metadata pending)
    (λ p t, here D L t0 [] t ∧ pending_ok p ∧ written e t).
Proof.
  intros He HL Hp. unfold extract_non_fragment_entry.
  apply spec_value; [apply names_no_panic|]. intros rel Hrel.
  apply validate_safe in Hrel as [Hs Hc]. unfold is_file, written in *.
  assert (Hf : (∀ l, goes_to D e l → L l) → free L t0 (D ++ components rel)).
  { intros Hl. apply free_listed, Hl. unfold goes_to, entry_name. by rewrite Hc. }
  destruct (Metadata.entry_kind (EntryDecode.metadata e)) eqn:Ek.
  - specialize (Hf (HL eq_refl)).
    pose proof (spec_regular L t0 rel flags limits (EntryDecode.payload e)
      (Metadata.sparse_extents (EntryDecode.metadata e))
      (Metadata.uncompressed_size (EntryDecode.metadata e))
      (Metadata.file_crc32 (EntryDecode.metadata e))
      "file CRC32 mismatch on reconstructed logical file"
      (entry_mode_bits (EntryDecode.metadata e)) (entry_owner (EntryDecode.metadata e))
      (entry_times (EntryDecode.metadata e)) metadata Hs Hf (proj1 He)) as Hreg.
    intros w Ha HP. specialize (Hreg w Ha HP). revert Hreg. unfold mbind, M_bind.
    destruct (prepare_output_file_path out rel w) as [w1 [p1|e1|]]; try done.
    destruct (write_content p1 _ _ _ _ _ _ _ w1) as [w2 [[]|e2|]]; try done.
    destruct (apply_file_metadata p1 _ _ _ _ w2) as [w3 [[]|e3|]]; try done.
    intros (Hc3 & Hh & Hn). split; [done|]. split; [done|]. split; [done|]. intros _ _ _.
    unfold entry_name. by rewrite <- Hc.
  - eapply spec_bind; [apply spec_ensure_top, Hs|]. intros p. apply spec_ret.
    intros t [_ Hh]. split; [by apply (here_top L t0 (components rel))|]. split; [|done].
    by apply map_Forall_insert_2.
  - eapply spec_bind; [by apply spec_symlink; [|apply Hf, HL]|]. intros [].
    apply spec_ret. naive_solver.
  - by apply spec_ret.
Qed.

Lemma spec_entry L Lg t0 e flags limits metadata st :
  entry_ok e →
  (Metadata.is_fragment (EntryDecode.metadata e) = false → ∀ l, goes_to D e l → L l) →
  (Metadata.is_fragment (EntryDecode.metadata e) = true → ∀ l, goes_to D e l → Lg l) →
  progress_ok D Lg st →
  spec out D (here D L t0 []) (extract_entry out flags limits metadata st e)
    (λ st' t, here D L t0 [] t ∧ progress_ok D Lg st' ∧ written e t).
Proof.
  intros He HL HLg Hst. unfold extract_entry, written.
  destruct (Metadata.is_fragment (EntryDecode.metadata e)) eqn:Ef; cbn [negb].
  - rewrite andb_false_r. destruct (add_fragment_ok D Lg limits st e He (HLg eq_refl) Hst) as [Hn Ho].
    apply spec_lift; [done|]. intros st' t Hadd Ht. split; [done|]. split; [by apply Ho|done].
  - rewrite andb_true_r. destruct (Z.eqb_spec (len (Metadata.name (EntryDecode.metadata e))) 0) as [E|E].
    + apply spec_ret. intros t Ht. split; [done|]. split; [done|]. intros _ _ Hne. destruct Hne.
      unfold entry_name. destruct (Metadata.name _); [done|]. by apply Z.eqb_eq in E.
    + eapply spec_bind.
      { apply (spec_non_fragment L t0 e flags limits metadata (pending_directories st)); [done| |apply Hst].
        intros _. by apply HL. }
      intros p. apply spec_ret. intros t (Ht & Hp & Hw). split; [done|].
      split; [split; [done|apply Hst]|]. by intros Hk _; apply Hw.
Qed.

(** ** Groups and directories *)
Lemma fragment_entries_wf es :
  Forall entry_ok es → Forall Fragmentation.frag_wf (omap fragment_entry es).
Proof.
  induction 1 as [|e es (_ & Hd & Hi) Hes IH]; [done|]. cbn [omap list_omap].
  unfold fragment_entry at 1. destruct (Metadata.fragment_descriptor _) as [desc|]; cbn; [|done].
  apply Forall_cons. split; [|done]. destruct Hd as [Ho Hs].
  split; [|by split]. cbn. by destruct (Metadata.meta_fragment_index _).
Qed.
Lemma assembled_loop_ok size es :
  0 ≤ size → no_panic (assembled_loop size es)
  ∧ ∀ n, assembled_loop size es = Ok n → 0 ≤ n.
Proof.
  revert size. induction es as [|e es IH]; intros size Hs; cbn [assembled_loop];
    [split; [done|]; by intros n [= <-]|].
  destruct (Metadata.fragment_descriptor _) as [desc|]; cbn [mbind result_bind]; [|by apply IH].
  destruct (checked_add _ _ _); cbn [ok_or mbind result_bind]; [|done]. apply IH. lia.
Qed.
Lemma assemble_no_panic limits allow_lossy g L :
  group_ok D L g → no_panic (assemble limits allow_lossy g).
Proof.
  intros (_ & Hes & _). unfold assemble. destruct (assembled_loop_ok 0 (group_entries g) ltac:(done)) as [Hn Hp].
  apply no_panic_bind; [done|]. intros size Hs%Hp. apply no_panic_bind.
  - apply no_panic_map_err, Fragmentation.reconstruct_no_panic; [by apply fragment_entries_wf|done].
  - intros [raw d] _. by case_match.
Qed.
Lemma spec_group (L : Loc → Prop) t0 flags limits metadata allow_lossy g :
  group_ok D L g →
  spec out D (here D L t0 []) (extract_group out flags limits metadata allow_lossy g)
    (λ _, here D L t0 []).
Proof.
  intros Hg. unfold extract_group. apply spec_value; [by apply (assemble_no_panic _ _ _ L)|].
  intros raw _. apply spec_value; [apply names_no_panic|]. intros rel [Hs Hc]%validate_safe.
  destruct Hg as (Ht & _ & Hl).
  eapply spec_weaken; [apply (spec_regular L t0 rel); [done| |done]|done|by intros [] t []].
  apply free_listed. by rewrite Hc.
Qed.
Lemma spec_groups (L : Loc → Prop) t0 flags limits metadata allow_lossy order groups :
  map_Forall (λ _ g, group_ok D L g) groups →
  spec out D (here D L t0 []) (groups_loop out flags limits metadata allow_lossy groups order)
    (λ _, here D L t0 []).
Proof.
  revert groups. induction order as [|fid order IH]; intros groups Hg; cbn [groups_loop];
    [by apply spec_ret|].
  apply spec_value; [apply no_panic_ok_or|]. intros g Hlook%ok_or_Ok.
  eapply spec_bind; [by apply spec_group, (Hg fid)|]. intros []. apply IH.
  by apply map_Forall_delete.
Qed.
(** A rule with the tree at hand. *)
Lemma spec_ghost {E X : Type} (P : Tree → Prop) (m : M E X) (Q : X → Tree → Prop) :
  (∀ t, P t → spec out D (λ t', t' = t) m Q) → spec out D P m Q.
Proof. intros Hm w Ha HP. by apply (Hm (tree w) HP). Qed.
Lemma spec_directory L t0 d metadata :
  safe (relative_path d) →
  spec out D (here D L t0 [])
    (finalize_directory out metadata d)
    (λ _, here D L t0 []).
Proof.
  intros Hs. destruct (rel_parts _ Hs) as (cs & c & Hc & Hp). unfold finalize_directory.
  eapply spec_bind; [by apply spec_resolve_existing|]. intros p. apply spec_pure. intros ->.
  rewrite Hc. apply spec_ghost. intros t [Hk Hr].
  pose proof (real_dir t D _ Hr) as Hd. pose proof (real_prefix t D cs [c] Hr) as Hr'.
  assert (Hf : free L t0 (D ++ cs ++ [c])) by (apply (kept_free L t0 t); auto).
  assert (Hat : node_at (D ++ cs ++ [c]) is_dir_node t)
    by (destruct Hd as [a Ha]; by exists (Dir a)).
  eapply spec_weaken with (P := λ t, here D L t0 cs t ∧ node_at (D ++ cs ++ [c]) is_dir_node t)
    (Q := λ _ t, here D L t0 cs t ∧ node_at (D ++ cs ++ [c]) is_dir_node t);
    [|by intros ? ->; split|by intros [] t' []; apply (here_top L t0 cs)].
  eapply spec_bind; [apply spec_io, (spec_stat out D cs c Hp); by intros t' [[] _]|].
  intros n. apply spec_if; intros _; [by apply spec_ret; intros t' []|].
  apply spec_if; intros _; [apply spec_throw|].
  eapply spec_weaken; [by apply (spec_attributes out D L t0 cs c Hp Hf _ blind_dir)|by intros t' []|done].
Qed.
Lemma spec_finalize_dirs L t0 metadata ds :
  Forall (λ d, safe (relative_path d)) ds →
  spec out D (here D L t0 []) (finalize_loop out metadata ds) (λ _, here D L t0 []).
Proof.
  induction 1 as [|d ds Hd Hds IH]; cbn [finalize_loop]; [by apply spec_ret|].
  eapply spec_bind; [by apply spec_directory|]. by intros [].
Qed.

(** ** The entries of an archive *)
Section loop.
Context (options : EntryDecode.ArchiveReaderOptions) (key_provider : option Kms.KeyProvider).
Context (O : EntryDecode.options_ok options) (Ht : EntryDecode.provider_total key_provider).
#[local] Abbreviation next_entry := (ArchiveReader.next_entry false options key_provider).
#[local] Abbreviation offset r := (ArchiveReader.next_offset r).

Lemma next_entry_typed r e r' : next_entry r = Ok (Some e, r') → entry_ok e.
Proof.
  unfold ArchiveReader.next_entry. intros Hn. apply bind_Ok in Hn as (h & _ & Hn).
  destruct (offset r >=? ArchiveReader.data_end r); [done|].
  apply bind_Ok in Hn as ([lfh bs] & [Hp _]%ArchiveReader.read_lfh_Ok & Hn).
  apply guard_Ok in Hn as [_ Hn]. apply bind_Ok in Hn as ([a b] & _ & Hn).
  apply bind_Ok in Hn as (enc & _ & Hn). apply bind_Ok in Hn as (parts & Hd & [= <- <-]).
  destruct (EntryDecode.decoded_fields_typed false options key_provider _ _ _ _ _ _ _ _ _ Hp Hd)
    as (_ & Hf).
  unfold EntryDecode.fields_typed in Hf. destruct_and! Hf. unfold entry_ok, content_typed.
  cbn [EntryDecode.metadata]. split_and!; [|done..].
  by destruct (Metadata.sparse_extents (EntryDecode.parts_metadata parts)).
Qed.

(** The entries a reader still yields. *)
Inductive yielded : ArchiveReader.ArchiveReader → EntryDecode.EntryReader → Prop :=
  | yielded_now r e r' : next_entry r = Ok (Some e, r') → yielded r e
  | yielded_later r e1 r' e : next_entry r = Ok (Some e1, r') → yielded r' e → yielded r e.

Lemma spec_entries (L Lg : Loc → Prop) t0 flags metadata fuel r st :
  0 ≤ offset r → (Z.to_nat (ArchiveReader.data_end r - offset r) < fuel)%nat →
  (∀ e, yielded r e →
     if Metadata.is_fragment (EntryDecode.metadata e)
     then ∀ l, goes_to D e l → Lg l else ∀ l, goes_to D e l → L l) →
  progress_ok D Lg st →
  spec out D (here D L t0 [])
    (entries_loop false out flags options key_provider metadata fuel r st)
    (λ st' t, here D L t0 [] t ∧ progress_ok D Lg st').
Proof.
  revert r st. induction fuel as [|fuel IH]; intros r st H0 Hf Hy Hst; [lia|].
  cbn [entries_loop].
  apply spec_value; [by apply (ArchiveReader.next_entry_no_panic false options key_provider eq_refl O Ht)|].
  intros [[e|] r'] En; [|by apply spec_ret].
  pose proof (ArchiveReader.next_entry_Ok false options key_provider r (Some e) r' En)
    as (_ & Hlt & Hsz & Hle & Hr').
  pose proof (Hy e (yielded_now r e r' En)) as Hye. eapply spec_bind.
  { apply (spec_entry L Lg t0 e); [by eapply next_entry_typed|..|done];
      intros Ef; rewrite Ef in Hye; exact Hye. }
  intros st1. apply spec_ghost. intros t (Hh & Hst1 & _).
  eapply spec_weaken; [apply (IH r' st1)|by intros ? ->|done].
  - rewrite Hr'. cbn. lia.
  - rewrite Hr'. cbn. lia.
  - intros e' He'. apply Hy. by apply (yielded_later r e r').
  - done.
Qed.

(** All of them, in order. *)
Inductive yields : ArchiveReader.ArchiveReader → list EntryDecode.EntryReader → Prop :=
  | yields_end r r' : next_entry r = Ok (None, r') → yields r []
  | yields_entry r e r' es : next_entry r = Ok (Some e, r') → yields r' es → yields r (e :: es).
Lemma yields_yielded r es e : yields r es → yielded r e → e ∈ es.
Proof.
  intros Hy He. revert es Hy.
  induction He as [r e r' En|r e1 r' e En He IH]; intros es Hy;
    inversion Hy as [? ? E|? ? ? ? E]; subst; rewrite En in E; simplify_eq;
    [left|right; by apply IH].
Qed.
Lemma entries_loop_yields flags metadata fuel r st w w' st' :
  entries_loop false out flags options key_provider metadata fuel r st w = (w', Ok st') →
  ∃ es, yields r es.
Proof.
  revert r st w. induction fuel as [|fuel IH]; intros r st w; [done|]. cbn [entries_loop].
  unfold mbind, M_bind, lift. destruct (next_entry r) as [[[e|] r1]|err|] eqn:En; [|..|done|done].
  - destruct (extract_entry _ _ _ _ _ _ _) as [w1 [st1|err|]]; [|done..].
    intros (es & Hes)%IH. exists (e :: es). by eapply yields_entry.
  - intros _. exists []. by eapply yields_end.
Qed.

(** The [i]-th entry is the last one to be written under its name: no later entry has it, and
    no fragment, since groups are written at the end. *)
Definition last_of_name (es : list EntryDecode.EntryReader) (i : nat) (e : EntryDecode.EntryReader)
    : Prop :=
  ∀ j e', es !! j = Some e' → entry_name e' = entry_name e →
    (j ≤ i)%nat ∧ Metadata.is_fragment (EntryDecode.metadata e') = false.
Lemma goes_elsewhere e e' l :
  entry_name e' ≠ entry_name e → goes_to D e' l → l ≠ D ++ split SLASH (entry_name e).
Proof. intros Hne -> E. apply app_inv_head, split_inj in E. done. Qed.
Lemma written_kept e t t' :
  kept (λ l, l ≠ D ++ split SLASH (entry_name e)) t t' → written e t → written e t'.
Proof.
  intros Hk Hw Hr Hf Hn. destruct (Hw Hr Hf Hn) as (n & Hl & d & a & Hc & ->).
  exists (File d a). split; [|by exists d, a]. apply Hk; [done|done|]. intros Hne. by apply Hne.
Qed.
Lemma spec_entries_file flags metadata i : ∀ fuel r st es e,
  0 ≤ offset r → (Z.to_nat (ArchiveReader.data_end r - offset r) < fuel)%nat →
  yields r es → es !! i = Some e → last_of_name es i e →
  progress_ok D (λ l, l ≠ D ++ split SLASH (entry_name e)) st →
  spec out D (here D (λ _, True) ∅ [])
    (entries_loop false out flags options key_provider metadata fuel r st)
    (λ st' t, here D (λ _, True) ∅ [] t
              ∧ progress_ok D (λ l, l ≠ D ++ split SLASH (entry_name e)) st' ∧ written e t).
Proof.
  induction i as [|i IH]; intros fuel r st es e H0 Hf Hy Hi Hlast Hst;
    (destruct fuel as [|fuel]; [lia|]); inversion Hy as [|? e1 r' es' En Hy']; simplify_eq;
    cbn [entries_loop]; rewrite En;
    pose proof (ArchiveReader.next_entry_Ok false options key_provider r _ r' En)
      as (_ & Hlt & Hsz & Hle & Hr'); (apply spec_value; [done|]); intros [o r''] [= <- <-];
    (assert (H0' : 0 ≤ offset r') by (rewrite Hr'; cbn; lia));
    (assert (Hf' : (Z.to_nat (ArchiveReader.data_end r' - offset r') < fuel)%nat)
      by (rewrite Hr'; cbn; lia)).
  - cbn in Hi. injection Hi as ->. eapply spec_bind.
    { apply (spec_entry (λ _, True) (λ l, l ≠ D ++ split SLASH (entry_name e)) ∅ e);
        [by eapply next_entry_typed|done| |done].
      intros Ef. destruct (Hlast 0%nat e eq_refl eq_refl). congruence. }
    intros st1. apply spec_ghost. intros t (Hh & Hst1 & Hw).
    eapply spec_weaken.
    + apply (spec_entries (λ l, l ≠ D ++ split SLASH (entry_name e))
        (λ l, l ≠ D ++ split SLASH (entry_name e)) t flags metadata fuel r' st1 H0' Hf'); [|done].
      intros e' [j Hj]%(yields_yielded r' es' _ Hy')%list_elem_of_lookup.
      assert (Hne : entry_name e' ≠ entry_name e) by (intros E; destruct (Hlast (S j) e' Hj E); lia).
      case_match; intros l; by apply goes_elsewhere.
    + intros ? ->. split; [by intros l n|by destruct Hh].
    + intros st2 t2 [[Hk Hr2] Hst2]. split; [by split; [intros l n _ _ Hno; destruct Hno|]|].
      split; [done|]. by apply (written_kept e t).
  - cbn in Hi. eapply spec_bind.
    { apply (spec_entry (λ _, True) (λ l, l ≠ D ++ split SLASH (entry_name e)) ∅ e1);
        [by eapply next_entry_typed|done| |done].
      intros Ef l. apply goes_elsewhere. intros E.
      destruct (Hlast 0%nat e1 eq_refl E). congruence. }
    intros st1. apply spec_ghost. intros t (Hh & Hst1 & _).
    eapply spec_weaken; [apply (IH fuel r' st1 es' e H0' Hf' Hy' Hi); [|done]|by intros ? ->|done].
    intros j e' Hj E. destruct (Hlast (S j) e' Hj E). split; [lia|done].
Qed.
End loop.

(** ** The command *)
Lemma spec_read_file (P : Tree → Prop) p : spec out D P (read_file p) (λ _, P).
Proof.
  apply spec_syscall. intros _ t _ HP. unfold resolve.
  pose proof (walk_no_panic MAX_LINKS t true (base p) (pieces p)) as Hn.
  destruct (walk MAX_LINKS t true (base p) (pieces p)).2 as [l|e|]; cbn [mbind result_bind]; [|done..].
  by destruct (t !! l) as [[]|].
Qed.
Lemma spec_start {E X : Type} (m : M E X) (Q : X → Tree → Prop) :
  spec out D (here D (λ _, True) ∅ []) m Q → spec out D (λ _, True) m Q.
Proof.
  intros Hm w Ha _. apply Hm; [done|]. split; [by intros l n _ _ []|]. apply real_nil, Ha.
Qed.
Lemma cli_provider_total p : EntryDecode.provider_total (Some (CliKeyProvider p)).
Proof. by intros ? [= <-] context. Qed.

Section command.
Context (into_values : gmap Name PendingDirectoryMetadata → list PendingDirectoryMetadata).
Context (Hvalues : ∀ m, into_values m ≡ₚ (map_to_list m).*2).
Context (limits : ResourceLimits).
#[local] Abbreviation options :=
  {| EntryDecode.limits := limits; EntryDecode.delta_base := None |}.
Context (O : EntryDecode.options_ok options).

Lemma spec_finalize_metadata L t0 pending metadata :
  pending_ok pending →
  spec out D (here D L t0 []) (finalize_directory_metadata into_values out pending metadata)
    (λ _, here D L t0 []).
Proof.
  intros Hp. apply spec_finalize_dirs. rewrite sort_by_key_perm, Hvalues.
  apply Forall_fmap, Forall_forall. intros [k d] Hin%elem_of_map_to_list. by apply (Hp k).
Qed.

(** What is left of the command once the reader has the header. *)
Definition extract_rest (flags : Z) (kp : option Kms.KeyProvider) (allow_lossy : bool)
    (metadata : ExtractMetadataOptions) (reader : ArchiveReader.ArchiveReader)
    : M SarError.t unit :=
  st ← entries_loop false out flags options kp metadata (ArchiveReader.entries_fuel reader) reader
         {| frag_order := []; frag_groups := ∅; pending_directories := ∅ |};
  _ ← groups_loop out flags limits metadata allow_lossy (frag_groups st) (frag_order st);
  finalize_directory_metadata into_values out (pending_directories st) metadata.
Lemma progress_start L :
  progress_ok D L {| frag_order := []; frag_groups := ∅; pending_directories := ∅ |}.
Proof. split; apply map_Forall_empty. Qed.
Lemma spec_rest flags kp allow_lossy metadata r :
  EntryDecode.provider_total kp → 0 ≤ ArchiveReader.next_offset r →
  spec out D (here D (λ _, True) ∅ []) (extract_rest flags kp allow_lossy metadata r) (λ _ _, True).
Proof.
  intros Ht Hr. unfold extract_rest. eapply spec_bind.
  { apply (spec_entries options kp O Ht (λ _, True) (λ _, True)); [done| | |apply progress_start].
    - unfold ArchiveReader.entries_fuel. lia.
    - intros e _. by case_match. }
  intros st. apply spec_ghost. intros t [Hh [Hp Hg]].
  eapply spec_weaken with (Q := λ _, here D (λ _, True) ∅ []); [|by intros ? ->; exact Hh|done].
  eapply spec_bind; [by apply spec_groups|]. intros []. by apply spec_finalize_metadata.
Qed.
Lemma spec_rest_file flags kp allow_lossy metadata r es i e :
  EntryDecode.provider_total kp → 0 ≤ ArchiveReader.next_offset r →
  yields options kp r es → es !! i = Some e → last_of_name es i e →
  spec out D (here D (λ _, True) ∅ []) (extract_rest flags kp allow_lossy metadata r)
    (λ _, written e).
Proof.
  intros Ht Hr Hy Hi Hl. unfold extract_rest. eapply spec_bind.
  { apply (spec_entries_file options kp O Ht flags metadata i _ r _ es e);
      [done|unfold ArchiveReader.entries_fuel; lia|done..|apply progress_start]. }
  intros st. apply spec_ghost. intros t ((_ & Hr0) & [Hp Hg] & Hw).
  eapply spec_weaken with
    (P := here D (λ l, l ≠ D ++ split SLASH (entry_name e)) t [])
    (Q := λ _, here D (λ l, l ≠ D ++ split SLASH (entry_name e)) t []).
  - eapply spec_bind; [by apply spec_groups|]. intros []. by apply spec_finalize_metadata.
  - intros ? ->. by split; [intros l n|].
  - intros [] t' [Hk _]. by apply (written_kept e t).
Qed.

(** The reader and the key provider the command works with. *)
Definition opens (password : option (list byte)) (source : list byte)
    (header : Format.GlobalHeader) (reader : ArchiveReader.ArchiveReader)
    (kp : option Kms.KeyProvider) : Prop :=
  ∃ r0, ArchiveReader.with_options options source = Ok r0
    ∧ ArchiveReader.read_global_header options r0 = Ok (header, reader)
    ∧ if contains (Format.flags header) GlobalFlags.ENCRYPTED
      then ∃ pw, load_password password = Ok pw ∧ kp = Some (CliKeyProvider (Some pw))
      else kp = None.
Lemma opens_ok password source h r kp :
  opens password source h r kp → EntryDecode.provider_total kp ∧ 0 ≤ ArchiveReader.next_offset r.
Proof.
  intros (r0 & Hw & Hh & Hk). split.
  { destruct (contains _ _); [destruct Hk as (pw & _ & ->); apply cli_provider_total|].
    rewrite Hk. by intros ? [=]. }
  unfold ArchiveReader.with_options in Hw. apply bind_Ok in Hw as ([] & _ & [= <-]).
  apply ArchiveReader.read_global_header_ok in Hh as (Hr & Hh & _); [|by split].
  destruct (ArchiveReader.opened options r Hr h Hh) as (? & _). lia.
Qed.
Lemma with_options_no_panic src : no_panic (ArchiveReader.with_options options src).
Proof. unfold ArchiveReader.with_options. apply no_panic_bind; [apply no_panic_check|done]. Qed.

(** The steps before that: a rule for the whole command. *)
Lemma spec_extract (archive : Path) (password : option (list byte)) (allow_lossy : bool)
    (metadata : ExtractMetadataOptions) (Q : unit → Tree → Prop) :
  (∀ source header reader kp, opens password source header reader kp →
     spec out D (here D (λ _, True) ∅ [])
       (extract_rest (Format.flags header) kp allow_lossy metadata reader) Q) →
  spec out D (λ _, True)
    (extract_into false into_values archive out password allow_lossy limits metadata) Q.
Proof.
  intros Hrest. apply spec_start. unfold extract_into.
  eapply spec_bind; [apply spec_io, spec_read_file|]. intros source.
  apply spec_value; [apply with_options_no_panic|]. intros r0 Hr0.
  apply spec_value; [apply ArchiveReader.read_global_header_no_panic|]. intros [h r] Hh.
  specialize (Hrest source h r). unfold opens in Hrest.
  eapply spec_bind with (Q := λ kp t, (if contains (Format.flags h) GlobalFlags.ENCRYPTED
      then ∃ pw, load_password password = Ok pw ∧ kp = Some (CliKeyProvider (Some pw))
      else kp = None) ∧ here D (λ _, True) ∅ [] t).
  - destruct (contains _ _); [|by apply spec_ret].
    apply spec_value; [unfold load_password; repeat case_match; by try apply no_panic_ok_or|].
    intros pw Hpw. apply spec_ret. eauto.
  - intros kp. apply spec_pure. intros Hkp. apply Hrest. eauto.
Qed.

Lemma extract_inv archive password allow_lossy (metadata : ExtractMetadataOptions) w w' :
  extract_into false into_values archive out password allow_lossy limits metadata w = (w', Ok ()) →
  ∃ w1 source header reader kp,
    read_file archive w = (w1, Ok source) ∧ opens password source header reader kp
    ∧ extract_rest (Format.flags header) kp allow_lossy metadata reader w1 = (w', Ok ()).
Proof.
  unfold extract_into. unfold mbind at 1, M_bind at 1, io.
  destruct (read_file archive w) as [w1 [source|e|]]; cbn [map_err]; [|done..].
  unfold mbind at 1, M_bind at 1, lift. destruct (ArchiveReader.with_options _ _) as [r0|e|] eqn:Ew; [|done..].
  unfold mbind at 1, M_bind at 1, lift. destruct (ArchiveReader.read_global_header _ _) as [[h r]|e|] eqn:Eh; [|done..].
  intros Hx. exists w1, source, h, r.
  destruct (contains (Format.flags h) GlobalFlags.ENCRYPTED) eqn:Ec.
  - unfold mbind at 1, M_bind at 1, mbind at 1, M_bind at 1 in Hx.
    destruct (load_password password) as [pw|e|] eqn:Ep; [|done..].
    exists (Some (CliKeyProvider (Some pw))). split; [done|]. split; [|exact Hx].
    exists r0. rewrite Ec. eauto.
  - exists None. split; [done|]. split; [|exact Hx]. exists r0. by rewrite Ec.
Qed.
Lemma read_file_tree p w w1 r : read_file p w = (w1, r) → tree w1 = tree w.
Proof.
  unfold read_file, syscall. destruct (fault (calls w)); [by intros [= <- _]|].
  destruct (resolve _ _ _) as [l|e|]; cbn [mbind result_bind]; [|by intros [= <- _]..].
  destruct (tree w !! l) as [[]|]; by intros [= <- _].
Qed.
Lemma rest_yields flags kp allow_lossy metadata r w w' :
  extract_rest flags kp allow_lossy metadata r w = (w', Ok ()) → ∃ es, yields options kp r es.
Proof.
  unfold extract_rest, mbind at 1, M_bind at 1.
  destruct (entries_loop _ _ _ _ _ _ _ _ _ w) as [w1 [st|e|]] eqn:E; [|done..].
  intros _. by eapply entries_loop_yields.
Qed.

(** (C6) Extraction stays inside the output directory: whatever the archive holds and whichever
    system calls fail, once the output directory exists and leads to [D] without passing
    through anything below [D], the command changes nothing that is not below [D], turns no
    directory into something else, and returns. *)
Theorem extract_confined (archive : Path) (password : option (list byte)) (allow_lossy : bool)
    (metadata : ExtractMetadataOptions) w w1 w' r :
  create_dir_all out w = (w1, Ok ()) → anchored out D (tree w1) →
  extract_archive false into_values archive out password allow_lossy limits metadata w = (w', r) →
  r ≠ Panic
  ∧ (∀ l, ¬ below D l → tree w' !! l = tree w1 !! l)
  ∧ (∀ l, is_dir_at (tree w1) l → is_dir_at (tree w') l).
Proof.
  intros Hd Ha. unfold extract_archive, mbind, M_bind, lift, io.
  cbn [validate_extract_metadata_support]. rewrite Hd. cbn [map_err]. intros Hx.
  assert (Hs : spec out D (λ _, True)
    (extract_into false into_values archive out password allow_lossy limits metadata) (λ _ _, True)).
  { apply spec_extract. intros source h rd kp [Ht Hr]%opens_ok. by apply spec_rest. }
  specialize (Hs w1 Ha I). rewrite Hx in Hs. destruct Hs as [[Ho Hk] Hr].
  split; [by destruct r|]. by split.
Qed.

Lemma extracted (archive : Path) (password : option (list byte)) (allow_lossy : bool)
    (metadata : ExtractMetadataOptions) w w1 w' :
  create_dir_all out w = (w1, Ok ()) → anchored out D (tree w1) →
  extract_archive false into_values archive out password allow_lossy limits metadata w = (w', Ok ()) →
  ∃ source header reader kp es,
    (read_file archive w1).2 = Ok source ∧ opens password source header reader kp
    ∧ yields options kp reader es
    ∧ ∀ i e, es !! i = Some e → last_of_name es i e → written e (tree w').
Proof.
  intros Hd Ha. unfold extract_archive, mbind, M_bind, lift, io.
  cbn [validate_extract_metadata_support]. rewrite Hd. cbn [map_err]. intros Hx.
  apply extract_inv in Hx as (w2 & source & h & rd & kp & Hrd & Ho & Hx).
  destruct (rest_yields _ _ _ _ _ _ _ Hx) as [es Hy]. destruct (opens_ok _ _ _ _ _ Ho) as [Ht Hr].
  exists source, h, rd, kp, es. rewrite Hrd. split_and!; try done. intros i e Hi Hl.
  rewrite <- (read_file_tree _ _ _ _ Hrd) in Ha.
  pose proof (spec_start _ _ (spec_rest_file (Format.flags h) kp allow_lossy metadata rd es i e
    Ht Hr Hy Hi Hl) w2 Ha I) as Hs.
  rewrite Hx in Hs. apply Hs.
Qed.

(** (C7) What a successful extraction leaves: the archive was opened and read to its end, and
    for every regular file whose name no later entry and no fragment repeats, the file of
    that name below the output directory holds the payload of the entry, spread over the
    extents of its sparse map if it has one. *)
Theorem extract_writes (archive : Path) (password : option (list byte)) (allow_lossy : bool)
    (metadata : ExtractMetadataOptions) w w1 w' :
  create_dir_all out w = (w1, Ok ()) → anchored out D (tree w1) →
  extract_archive false into_values archive out password allow_lossy limits metadata w = (w', Ok ()) →
  ∃ source header reader kp es,
    (read_file archive w1).2 = Ok source ∧ opens password source header reader kp
    ∧ yields options kp reader es
    ∧ ∀ i e, es !! i = Some e → last_of_name es i e → written e (tree w').
Proof. apply extracted. Qed.
End command.
End entries.

(** ** Names *)

(** (C9) The names that are accepted: exactly those without NUL and backslash whose components
    between slashes are neither empty nor [.] nor [..] nor prefixed by a drive letter; the
    components are those of the name, and no name makes the check panic. *)
Theorem archive_names_spec name rel :
  no_panic (validate_relative_archive_path name)
  ∧ (validate_relative_archive_path name = Ok rel ↔
     display rel = name ∧ components rel = split SLASH name
     ∧ (x00 ∉ name) ∧ (BACKSLASH ∉ name)
     ∧ Forall (λ c, plain c ∧ ¬ drive c) (components rel)).
Proof.
  split; [apply names_no_panic|]. rewrite names_Ok. split.
  - intros (Hc & Hz & Hb & Hp). rewrite Hc. split_and!; try done.
    destruct rel. cbn in Hc. subst. apply split_join.
  - intros (_ & Hc & Hz & Hb & Hp). by rewrite Hc in Hp.
Qed.

(** ** The checksum of a sparse file *)
Section sparse_crc.
Context {C : Crc32} {CL : Crc32Laws}.

(** What a hasher has seen. *)
Definition hashed (h : Hasher) (bs : list byte) : Prop :=
  ∃ chunks, h = foldl hasher_update hasher_new chunks ∧ concat chunks = bs.
Lemma hashed_new : hashed hasher_new [].
Proof. by exists []. Qed.
Lemma hashed_update h bs s : hashed h bs → hashed (hasher_update h s) (bs ++ s).
Proof.
  intros (chunks & -> & <-). exists (chunks ++ [s]).
  rewrite foldl_app, concat_app. cbn [foldl concat]. by rewrite app_nil_r.
Qed.
Lemma hashed_finalize h bs : hashed h bs → hasher_finalize h = crc32 bs.
Proof. intros (chunks & -> & <-). apply hasher_spec. Qed.
Lemma zeros_app a b : 0 ≤ a → 0 ≤ b → zeros a ++ zeros b = zeros (a + b).
Proof. intros. unfold zeros. rewrite <- replicate_add. f_equal. lia. Qed.
Lemma hash_zero_loop_spec fuel h bs n :
  0 ≤ n → n / ZERO_CHUNK_LEN < Z.of_nat fuel → hashed h bs →
  hashed (hash_zero_loop fuel h n) (bs ++ zeros n).
Proof.
  revert h bs n. induction fuel as [|fuel IH]; intros h bs n Hn Hf Hh; cbn [hash_zero_loop].
  { pose proof (Z.div_pos n ZERO_CHUNK_LEN Hn ltac:(done)). lia. }
  destruct (Z.gtb_spec n 0) as [Hp|Hp].
  - assert (Hz : zeros n = zeros (n `min` ZERO_CHUNK_LEN) ++ zeros (n - n `min` ZERO_CHUNK_LEN)).
    { unfold ZERO_CHUNK_LEN. rewrite zeros_app by lia. f_equal. lia. }
    rewrite Hz, app_assoc. destruct (Z.le_gt_cases n ZERO_CHUNK_LEN) as [Hle|Hgt].
    + rewrite Z.min_l by done. rewrite Z.sub_diag. rewrite app_nil_r.
      apply hashed_update with (s := zeros n) in Hh. destruct fuel; cbn [hash_zero_loop]; done.
    + rewrite Z.min_r by lia. apply IH; [lia| |by apply hashed_update].
      replace (n - ZERO_CHUNK_LEN) with (n + (-1) * ZERO_CHUNK_LEN) by lia.
      rewrite Z.div_add by done. lia.
  - replace n with 0 by lia. by rewrite app_nil_r.
Qed.
Lemma hashed_zeros h bs n : 0 ≤ n → hashed h bs → hashed (hash_zero_bytes h n) (bs ++ zeros n).
Proof.
  intros Hn. apply hash_zero_loop_spec; [done|].
  pose proof (Z.div_pos n ZERO_CHUNK_LEN Hn ltac:(done)). lia.
Qed.

(** Writing into the zeros behind a prefix. *)
Lemma copy_at_zeros bs n off src :
  len bs ≤ off → off + len src ≤ len bs + n →
  copy_at (bs ++ zeros n) off src
  = (bs ++ zeros (off - len bs) ++ src) ++ zeros (len bs + n - (off + len src)).
Proof.
  intros H1 H2. pose proof (len_nonneg src).
  rewrite app_assoc. assert (Hl : len (bs ++ zeros (off - len bs)) = off) by (rewrite len_app, len_zeros; lia).
  replace (bs ++ zeros n) with ((bs ++ zeros (off - len bs)) ++ zeros (len src)
    ++ zeros (len bs + n - (off + len src))).
  2: { rewrite <- app_assoc. f_equal. rewrite !zeros_app by lia. f_equal. lia. }
  revert Hl. generalize (bs ++ zeros (off - len bs)). intros q <-.
  rewrite copy_at_app_mid by (rewrite len_zeros; lia). unfold copy_at. cbn [take app].
  rewrite drop_ge by (unfold zeros; rewrite length_replicate; unfold len; lia).
  rewrite app_nil_r, <- !app_assoc. done.
Qed.
Lemma crc_loop_spec payload es size : ∀ last h bs pos,
  Forall Sparse.extent_wf es → Sparse.extents_ok last size es → size < 2 ^ 64 →
  0 ≤ pos → 0 ≤ last ≤ size → hashed h bs → len bs = last →
  match crc_loop payload es h pos last with
  | Ok (h', pos', cur) =>
      ∃ bs', hashed h' bs' ∧ len bs' = cur ∧ last ≤ cur ≤ size
        ∧ Sparse.scatter_loop es payload size pos (bs ++ zeros (size - last))
          = Ok (bs' ++ zeros (size - cur), pos')
  | Err _ => ∀ x, Sparse.scatter_loop es payload size pos (bs ++ zeros (size - last)) ≠ Ok x
  | Panic => False
  end.
Proof.
  intros last h bs pos Hwf. revert last h bs pos.
  induction Hwf as [|e es [[? ?] [? ?]] Hes IH]; intros last h bs pos Hok Hs Hpos Hl Hh Hb;
    cbn [crc_loop Sparse.scatter_loop].
  { exists bs. split_and!; (done || lia). }
  cbn [Sparse.extents_ok] in Hok. destruct Hok as (? & ? & ? & Hok).
  rust_ok. destruct (checked_add 64 pos (Sparse.ext_length e)) as [src_end|] eqn:Ec;
    cbn [ok_or mbind result_bind]; [|by intros x].
  apply checked_add_Some in Ec as [-> ?].
  destruct (Z.gtb_spec (pos + Sparse.ext_length e) (len payload)); [by intros x|].
  rewrite !slice_r_fits by lia. rust_ok.
  assert (Hsl : len (slice payload pos (pos + Sparse.ext_length e)) = Sparse.ext_length e)
    by (rewrite len_slice; lia).
  rewrite copy_at_r_fits by (rewrite ?len_app, ?len_zeros; lia). cbn [mbind result_bind].
  rewrite copy_at_zeros by lia.
  set (bs1 := bs ++ zeros (Sparse.ext_offset e - len bs) ++ slice payload pos (pos + Sparse.ext_length e)).
  assert (Hb1 : len bs1 = Sparse.ext_offset e + Sparse.ext_length e)
    by (unfold bs1; rewrite !len_app, len_zeros by lia; lia).
  replace (len bs + (size - last) - _) with (size - (Sparse.ext_offset e + Sparse.ext_length e)) by lia.
  specialize (IH (Sparse.ext_offset e + Sparse.ext_length e)
    (hasher_update (hash_zero_bytes h (Sparse.ext_offset e - last)) (slice payload pos (pos + Sparse.ext_length e)))
    bs1 (pos + Sparse.ext_length e) Hok Hs ltac:(lia) ltac:(lia)).
  destruct (crc_loop _ _ _ _ _) as [[[h' p'] cur]|er|]; [|apply IH|apply IH]; try done.
  - destruct IH as (bs' & ? & ? & ? & ?); [|done|exists bs'; split_and!; (done || lia)].
    unfold bs1. rewrite app_assoc. apply hashed_update. rewrite Hb. by apply hashed_zeros; [lia|].
  - unfold bs1. rewrite app_assoc. apply hashed_update. rewrite Hb. by apply hashed_zeros; [lia|].
  - unfold bs1. rewrite app_assoc. apply hashed_update. rewrite Hb. by apply hashed_zeros; [lia|].
Qed.

(** (C10) The checksum of a sparse file, computed in pieces without building the file, is that
    of the file that is written: it is returned exactly when the extents are valid and use
    up the payload, and then it is the CRC-32 of the bytes of the file. *)
Theorem sparse_crc_exact payload es size limits crc :
  Forall Sparse.extent_wf es → fits 64 size →
  compute_sparse_crc32 payload es size limits = Ok crc ↔
  check_sparse es size limits = Ok () ∧ ∃ d, sparse_content payload es size d ∧ crc = crc32 d.
Proof.
  intros Hwf Hs. unfold compute_sparse_crc32, sparse_content.
  destruct (check_sparse es size limits) as [[]|e|] eqn:Hc; cbn [mbind result_bind];
    [|by split; [|intros []]..].
  pose proof (check_sparse_Ok es size limits Hwf Hs Hc) as Hok. destruct Hs as [Hs0 Hs1].
  pose proof (crc_loop_spec payload es size 0 hasher_new [] 0 Hwf Hok Hs1 ltac:(lia) ltac:(lia)
    hashed_new eq_refl) as Hl.
  rewrite Z.sub_0_r in Hl. cbn [app] in Hl.
  destruct (crc_loop payload es hasher_new 0 0) as [[[h p] cur]|e|]; cbn [mbind result_bind]; [|..|done].
  - destruct Hl as (bs & Hh & Hlen & Hcur & ->). rewrite checked_sub_fits by lia.
    cbn [ok_or mbind result_bind].
    rewrite (hashed_finalize _ _ (hashed_zeros h bs (size - cur) ltac:(lia) Hh)).
    destruct (Z.eqb_spec p (len payload)) as [->|Hne]; cbn [negb]; [naive_solver|].
    split; [done|]. intros (_ & d & [= _ ?] & _). done.
  - split; [done|]. intros (_ & d & Hd & _). by apply Hl in Hd.
Qed.
End sparse_crc.

(** ** Replacing a file *)
Section atomic.
Context {H : Host} (out : Path) (D : Loc) (cs : list Name) (c : Name).
Context (Hplain : Forall plain (cs ++ [c])).
#[local] Abbreviation loc := (D ++ cs ++ [c]).
#[local] Abbreviation path := (under out (cs ++ [c])).

(** A step that touches one location only. *)
Definition only_at (l : Loc) (t t' : Tree) : Prop := ∀ k, k ≠ l → t' !! k = t !! k.
Lemma only_at_insert l t n : only_at l t (<[l := n]> t).
Proof. intros k Hk. by apply lookup_insert_ne. Qed.
Lemma only_at_delete l t : only_at l t (delete l t).
Proof. intros k Hk. by apply lookup_delete_ne. Qed.
#[local] Instance only_at_preorder l : PreOrder (only_at l).
Proof. split; [done|]. intros t1 t2 t3 H1 H2 k Hk. by rewrite H2, H1. Qed.

(** Resolution is the same while only a file of the directory changes. *)
Definition ready (t : Tree) : Prop := anchored out D t ∧ real t D cs.
Lemma ready_only t t' n :
  ready t → only_at (D ++ cs ++ [n]) t t' → ¬ is_dir_at t (D ++ cs ++ [n]) → ready t'.
Proof.
  intros [Ha Hr] Ho Hd. assert (Hc : confined D t t').
  { split; intros l Hl.
    - apply Ho. intros ->. apply Hl, below_snoc.
    - destruct (decide (l = D ++ cs ++ [n])) as [->|Hne]; [done|]. destruct Hl as [a Ha'].
      exists a. by rewrite Ho. }
  split; [by apply (anchored_confined out D t)|by apply (real_confined D t)].
Qed.
Lemma resolve_ready t n :
  ready t → plain n → resolve t false (under out (cs ++ [n])) = Ok (D ++ cs ++ [n]).
Proof. intros [Ha Hr] Hn. apply resolve_under; auto. by apply (plain_snoc cs c Hplain). Qed.

Lemma remove_only n w :
  ready (tree w) → plain n →
  only_at (D ++ cs ++ [n]) (tree w) (tree (remove_file (under out (cs ++ [n])) w).1).
Proof.
  intros Hr Hn. unfold remove_file, syscall. destruct (fault (calls w)); [done|].
  rewrite resolve_ready by done. cbn [mbind result_bind].
  destruct (tree w !! (D ++ cs ++ [n])) as [[]|]; cbn; try done; apply only_at_delete.
Qed.
Lemma remove_no_panic n w :
  ready (tree w) → plain n → (remove_file (under out (cs ++ [n])) w).2 ≠ Panic.
Proof.
  intros Hr Hn. unfold remove_file, syscall. destruct (fault (calls w)); [done|].
  rewrite resolve_ready by done. cbn [mbind result_bind].
  by destruct (tree w !! (D ++ cs ++ [n])) as [[]|].
Qed.
(** The way out of a failure. *)
Lemma cleanup_only (e : SarError.t) n w :
  ready (tree w) → plain n →
  ∃ w', (_ ← remove_temp_file_if_exists (under out (cs ++ [n])); throw e) w = (w', Err e : result SarError.t unit)
    ∧ only_at (D ++ cs ++ [n]) (tree w) (tree w').
Proof.
  intros Hr Hn. pose proof (remove_only n w Hr Hn) as Ho. pose proof (remove_no_panic n w Hr Hn) as Hp.
  unfold remove_temp_file_if_exists, mbind, M_bind, attempt, throw, mret, M_ret.
  destruct (remove_file _ w) as [w' [[]|er|]]; cbn in *; [by exists w'..|done].
Qed.

Section temp.
Context (tmp : Name) (Htmp : plain tmp) (Hne : tmp ≠ c) (data : list byte).
#[local] Abbreviation tloc := (D ++ cs ++ [tmp]).
#[local] Abbreviation tpath := (under out (cs ++ [tmp])).

Lemma tloc_ne : loc ≠ tloc.
Proof. intros E. apply app_inv_head, app_inv_head in E. by injection E as ->. Qed.

(** The outcomes of a step of the body, seen from the tree [t0] it started in. *)
Definition atomic_outcome (t0 : Tree) (res : World * result SarError.t unit) : Prop :=
  match res.2 with
  | Ok _ => ∃ a, tree res.1 = <[loc := File data a]> t0
  | Err _ => only_at tloc t0 (tree res.1) ∧ ready (tree res.1)
  | Panic => False
  end.
Lemma finalize_outcome t0 w a :
  t0 !! tloc = None → tree w = <[tloc := File data a]> t0 → ready t0 →
  atomic_outcome t0 (finalize_temp_file tpath path w).
Proof.
  intros Hnone Hw Hr0.
  assert (Hd : ¬ is_dir_at t0 tloc) by (intros [b Hb]; congruence).
  assert (Hr : ready (tree w)).
  { apply (ready_only t0 _ tmp); [done| |done]. rewrite Hw. apply only_at_insert. }
  assert (Hd' : ¬ is_dir_at (tree w) tloc).
  { intros [b Hb]. rewrite Hw, lookup_insert_eq in Hb. done. }
  assert (Hfail : ∀ w1 e, tree w1 = tree w →
    atomic_outcome t0 ((_ ← remove_temp_file_if_exists tpath; throw e) w1)).
  { intros w1 e E1. rewrite <- E1 in Hr. destruct (cleanup_only e tmp w1 Hr Htmp) as (w2 & -> & Ho).
    cbn. assert (Hall : only_at tloc t0 (tree w2)).
    { etrans; [|exact Ho]. rewrite E1, Hw. apply only_at_insert. }
    split; [done|]. by apply (ready_only t0 _ tmp). }
  unfold finalize_temp_file, mbind at 1, M_bind at 1, attempt, rename, syscall.
  destruct (fault (calls w)) as [e|]; [by apply Hfail|].
  rewrite (resolve_ready (tree w) tmp), (resolve_ready (tree w) c) by (done || apply (dir_plain cs c Hplain)).
  cbn [mbind result_bind]. rewrite Hw at 1. rewrite lookup_insert_eq.
  assert (Hok : atomic_outcome t0 (tick w (<[loc := File data a]> (delete tloc (tree w))), Ok ())).
  { exists a. cbn. by rewrite Hw, delete_insert_id. }
  destruct (tree w !! loc) as [[b|d b|g]|]; [by apply Hfail|..];
    rewrite bool_decide_eq_false_2 by apply not_eq_sym, tloc_ne; exact Hok.
Qed.
Lemma body_outcome w :
  ready (tree w) →
  atomic_outcome (tree w)
    ((file ← open_temp_file tpath; _ ← io (write_all file 0 data); finalize_temp_file tpath path) w).
Proof.
  intros Hr. unfold open_temp_file, create_new, create, io, mbind at 1, M_bind at 1, syscall.
  destruct (fault (calls w)) as [e|]; [by split|].
  rewrite (resolve_ready (tree w) tmp) by done. cbn [mbind result_bind].
  destruct (tree w !! tloc) eqn:En; [by split|]. cbn [map_err].
  set (w1 := tick w _). assert (Hw1 : tree w1 = <[tloc := File [] (fresh (calls w))]> (tree w)) by done.
  unfold mbind at 1, M_bind at 1, write_all, on_file. rewrite Hw1, lookup_insert_eq.
  destruct (fault (calls w1)) as [e|]; cbn [map_err].
  - assert (Ho : only_at tloc (tree w) (<[tloc := File (overwrite [] 0 (take (FileSystem.written (calls w1)) data))
      (fresh (calls w))]> (<[tloc := File [] (fresh (calls w))]> (tree w)))).
    { etrans; apply only_at_insert. }
    split; [exact Ho|]. apply (ready_only (tree w) _ tmp Hr Ho). intros [b Hb]. congruence.
  - apply (finalize_outcome _ _ (fresh (calls w)) En); [|done]. cbn [tree tick].
    by rewrite insert_insert_eq, take_ge, overwrite_empty.
Qed.
End temp.

Lemma make_temp_cases w :
  (∃ tmp, plain tmp ∧ tmp ≠ c ∧ make_temp_output_path path w = (w, Ok (under out (cs ++ [tmp]))))
  ∨ ∃ e, make_temp_output_path path w = (w, Err e).
Proof.
  pose proof (proj2 (dir_plain cs c Hplain)) as Hc.
  unfold make_temp_output_path. rewrite (proj2 (with_file_name_under out cs c 0 Hc)).
  unfold mbind, M_bind, lift, now, ok_or, mret, M_ret.
  destruct (clock (calls w)) as [nonce|]; [left|right; by eexists].
  exists (temp_name c nonce). destruct (temp_plain c nonce Hc).
  by rewrite (proj1 (with_file_name_under out cs c nonce Hc)).
Qed.

(** (C8) A file is replaced as a whole or not at all: where the directory of the file is real,
    writing it either puts a file with exactly the data at its place and changes nothing
    else, or fails and leaves everything but one temporary name as it was; a partial file
    never shows under the final name, whichever system call fails. *)
Theorem file_replaced_atomically data w :
  anchored out D (tree w) → real (tree w) D cs →
  let (w', r) := write_bytes_via_temp path data w in
  match r with
  | Ok _ => ∃ a, tree w' = <[loc := File data a]> (tree w)
  | Err _ => ∃ tmp, tmp ≠ c ∧ only_at (D ++ cs ++ [tmp]) (tree w) (tree w')
  | Panic => False
  end.
Proof.
  intros Ha Hr. assert (Hrdy : ready (tree w)) by done. unfold write_bytes_via_temp.
  unfold mbind at 1, M_bind at 1.
  destruct (make_temp_cases w) as [(tmp & Htmp & Hne & ->)|[e ->]].
  2: { exists (c ++ [x00]). split; [|done]. intros E. apply (f_equal length) in E.
       rewrite length_app in E. cbn in E. lia. }
  unfold or_remove, mbind at 1, M_bind at 1, attempt.
  pose proof (body_outcome tmp Htmp Hne data w Hrdy) as Hb.
  destruct (mbind _ (open_temp_file _) w) as [w' [[]|e|]]; [exact Hb| |done].
  destruct Hb as [Ho Hr']. destruct (cleanup_only e tmp w' Hr' Htmp) as (w2 & Hc & Ho2).
  rewrite Hc. exists tmp. split; [done|]. by etrans.
Qed.
End atomic.

(** ** Witnesses

    A file system with the sample archive of [ArchiveReader.v], whose entry is the file [a],
    and an output directory [out] that holds a link to the root. *)
Section witnesses.
#[local] Existing Instance bitwise.
#[local] Existing Instances Transform.marked_compressors Transform.shift_ciphers EntryDecode.zero_kdfs.

Definition demo_attr : Attr := {| mode := 420; uid := 0; gid := 0; times := None |}.
#[local] Instance demo_host : Host := {|
  cwd := []; fault := λ _, None; FileSystem.written := λ _, 0%nat; fresh := λ _, demo_attr;
  clock := λ _, Some 7; process_id := 5 |}.
#[local] Instance demo_owner : OwnerAndTimes := {|
  chown_at := λ p u g t, change_attr (set_owner u g) p t;
  set_file_times_at := λ p a m t, change_attr (set_times a m) p t |}.
#[local] Instance demo_owner_laws : OwnerAndTimesLaws.
Proof. by split. Qed.
(** A checksum that keeps what it has seen. *)
#[local] Instance demo_crc : Crc32 := {|
  Hasher := list byte; hasher_new := []; hasher_update := λ h s, h ++ s;
  hasher_finalize := le_val; crc32 := le_val |}.
Lemma foldl_concat (l : list (list byte)) h : foldl (λ h s, h ++ s) h l = h ++ concat l.
Proof.
  revert h. induction l as [|s l IH]; intros h; cbn; [by rewrite app_nil_r|]. by rewrite IH, <- app_assoc.
Qed.
#[local] Instance demo_crc_laws : Crc32Laws.
Proof. split. intros chunks. cbn. by rewrite foldl_concat. Qed.
#[local] Instance demo_terminal : Terminal := {| password_var := None; prompt_password := None |}.

Definition demo_tree : Tree :=
  <[[] := Dir demo_attr]> (<[[bytes "a.sar"] := File ArchiveReader.sample_archive demo_attr]>
  (<[[bytes "out"] := Dir demo_attr]> (<[[bytes "out"; bytes "link"] := Link (bytes "/")]>
  (<[[bytes "out"; bytes ".b.sar-tmp-5-7"] := File [x01] demo_attr]> ∅)))).
Definition demo_world : World := {| tree := demo_tree; calls := 0 |}.
Definition demo_out : Path := path_of (bytes "./out/").
Definition demo_metadata : ExtractMetadataOptions := {|
  preserve_permissions := true; preserve_times := true; preserve_owner := true;
  allow_symlinks := false |}.
Definition demo_values (m : gmap Name PendingDirectoryMetadata) : list PendingDirectoryMetadata :=
  (map_to_list m).*2.
Definition demo_extract : World * result SarError.t unit :=
  extract_archive false demo_values (path_of (bytes "a.sar")) demo_out None false default_limits
    demo_metadata demo_world.

Lemma demo_anchored t :
  is_dir_at t [bytes "out"] → (∃ a, t !! [] = Some (Dir a)) → anchored demo_out [bytes "out"] t.
Proof.
  intros [a Ha] [a0 Ha0].
  assert (Hw : walk MAX_LINKS t true (base demo_out) (pieces demo_out)
    = ([[]; [bytes "out"]], Ok [bytes "out"])).
  { change (base demo_out) with (@nil Name). change (pieces demo_out) with [bytes "out"].
    cbn [walk MAX_LINKS]. rewrite Ha0. cbn [app]. by rewrite Ha. }
  split; [unfold resolve; by rewrite Hw| |by exists a].
  rewrite Hw. cbn [fst]. intros l Hl (k & Hk & ->).
  apply list_elem_of_In in Hl. destruct Hl as [E|[E|[]]]; [done|].
  injection E as E. by destruct k.
Qed.
Lemma demo_options_ok :
  EntryDecode.options_ok {| EntryDecode.limits := default_limits; EntryDecode.delta_base := None |}.
Proof. exact EntryDecode.sample_options_ok. Qed.

(** The demonstration: the output directory is there, and the file appears in it. *)
Lemma demo_created : create_dir_all demo_out demo_world = ({| tree := demo_tree; calls := 2 |}, Ok ()).
Proof. vm_compute. reflexivity. Qed.
Lemma demo_created_anchored :
  anchored demo_out [bytes "out"] (tree {| tree := demo_tree; calls := 2 |}).
Proof. apply demo_anchored; exists demo_attr; vm_compute; reflexivity. Qed.
Lemma demo_extracted : demo_extract.2 = Ok ().
Proof. vm_compute. reflexivity. Qed.

Lemma extract_confined_witness :
  (∀ l, ¬ below [bytes "out"] l → tree demo_extract.1 !! l = demo_tree !! l)
  ∧ tree demo_extract.1 !! [bytes "out"; bytes "a"] ≠ demo_tree !! [bytes "out"; bytes "a"].
Proof.
  split; [|by vm_compute].
  destruct (extract_confined demo_out [bytes "out"] demo_values (λ m, reflexivity _) default_limits
    demo_options_ok (path_of (bytes "a.sar")) None false demo_metadata demo_world _ demo_extract.1
    demo_extract.2 demo_created demo_created_anchored (surjective_pairing _)) as (_ & H & _).
  exact H.
Defined.
Lemma extract_writes_witness :
  (∃ source header reader kp es,
    (read_file (path_of (bytes "a.sar")) {| tree := demo_tree; calls := 2 |}).2 = Ok source
    ∧ opens default_limits None source header reader kp
    ∧ yields {| EntryDecode.limits := default_limits; EntryDecode.delta_base := None |} kp reader es
    ∧ ∀ i e, es !! i = Some e → last_of_name es i e →
        written [bytes "out"] e (tree demo_extract.1))
  ∧ ∃ a, tree demo_extract.1 !! [bytes "out"; bytes "a"] = Some (File [x07; x08; x09] a).
Proof.
  split; [|eexists; by vm_compute].
  apply (extract_writes demo_out [bytes "out"] demo_values (λ m, reflexivity _) default_limits
    demo_options_ok (path_of (bytes "a.sar")) None false demo_metadata demo_world _ demo_extract.1
    demo_created demo_created_anchored).
  rewrite <- demo_extracted. exact (surjective_pairing _).
Defined.
Definition demo_extents : list Sparse.SparseExtent :=
  [{| Sparse.ext_offset := 1; Sparse.ext_length := 2 |};
   {| Sparse.ext_offset := 4; Sparse.ext_length := 1 |}].
Lemma sparse_crc_exact_witness :
  ∃ d, sparse_content [x07; x08; x09] demo_extents 6 d
    ∧ d = [x00; x07; x08; x00; x09; x00]
    ∧ compute_sparse_crc32 [x07; x08; x09] demo_extents 6 default_limits = Ok (crc32 d).
Proof.
  destruct (sparse_crc_exact [x07; x08; x09] demo_extents 6 default_limits
    (crc32 [x00; x07; x08; x00; x09; x00])) as [Hc _].
  - repeat constructor; cbn; lia.
  - by split.
  - destruct Hc as (_ & d & Hd & _); [by vm_compute|]. exists d. split; [done|].
    vm_compute in Hd. injection Hd as <-. split; [done|by vm_compute].
Defined.
Lemma demo_real : real demo_tree [bytes "out"] [].
Proof. apply real_nil. exists demo_attr. vm_compute. reflexivity. Qed.
Lemma file_replaced_atomically_witness :
  (∃ a, tree (write_bytes_via_temp (under demo_out [bytes "c"]) [x05] demo_world).1
    = <[[bytes "out"; bytes "c"] := File [x05] a]> demo_tree)
  ∧ is_ok (write_bytes_via_temp (under demo_out [bytes "c"]) [x05] demo_world).2 = true.
Proof.
  assert (Hp : Forall plain ([] ++ [bytes "c"])).
  { apply Forall_singleton. repeat split; try done. by apply (bool_decide_unpack _). }
  pose proof (file_replaced_atomically demo_out [bytes "out"] [] (bytes "c") Hp [x05] demo_world
    (demo_anchored demo_tree ltac:(exists demo_attr; by vm_compute) ltac:(exists demo_attr; by vm_compute))
    demo_real) as Hw.
  assert (Hok : is_ok (write_bytes_via_temp (under demo_out [bytes "c"]) [x05] demo_world).2 = true)
    by by vm_compute.
  split; [|exact Hok].
  change (under demo_out ([] ++ [bytes "c"])) with (under demo_out [bytes "c"]) in Hw.
  destruct (write_bytes_via_temp (under demo_out [bytes "c"]) [x05] demo_world) as [w' [[]| |]];
    [exact Hw|discriminate Hok..].
Defined.

(** *** Concrete runs

    An existing link is not traversed, and a name that leaves the directory is refused. *)
Example link_refused :
  (ensure_parent_directory_path demo_out [bytes "link"; bytes "b"] demo_world).2
  = Err (SarError.Malformed "refusing to traverse an existing symlink during extraction").
Proof. vm_compute. reflexivity. Qed.
Example traversal_refused :
  validate_relative_archive_path (bytes "b/../../etc")
  = Err (SarError.Malformed "parent directory traversal is not allowed").
Proof. vm_compute. reflexivity. Qed.

(** A file that already has the temporary name makes the exclusive creation fail; the cleanup
    behind the failure then removes that file, which the command has not made. *)
Example foreign_temp_removed :
  demo_tree !! [bytes "out"; bytes ".b.sar-tmp-5-7"] = Some (File [x01] demo_attr)
  ∧ (write_bytes_via_temp (under demo_out [bytes "b"]) [x05] demo_world).2
    = Err (SarError.Io "entity already exists")
  ∧ tree (write_bytes_via_temp (under demo_out [bytes "b"]) [x05] demo_world).1
      !! [bytes "out"; bytes ".b.sar-tmp-5-7"] = None.
Proof. by vm_compute. Qed.
End witnesses.
End ExtractTheorems.
