(* ===== verification/Create.v ===== *)
(** * Creating an archive from a directory

    Models [crates/sar-cli/src/commands/create.rs] and the option types of
    [crates/sar-cli/src/args.rs] it takes: the [create] command on a Unix system, which walks
    a directory and adds its entries to an archive writer over the output file.

    The writer of [ArchiveWriter.v] appends to a list of bytes; [on_sink] runs one of its
    methods and writes what the method appended to the file, so that a failing write is an
    error of the method and reading the output file while it grows sees what is there.  The
    random salt, which [getrandom::fill] gives or fails to give ([None]), and the bytes of the
    nonces, from [rand_core]'s [OsRng], whose [fill_bytes] has no error, are parameters.

    The traversal is recursive with fuel: a level of the tree takes one unit, and a symbolic
    link to a directory is followed at most once at a time, so that the number of nodes times
    the depth of the tree bounds the recursion ([traversal_fuel]).  Nodes other than files,
    directories and links do not occur in the tree. *)

From stdpp Require Import gmap.
From Stdlib Require Import String.
From S2P Require Import Prelude Errors Limits Flags Cursor Format Lfh Utf8 Crypto Kms Transform Metadata ArchiveWriter FileSystem Extract.

Module Create.
Import FileSystem.

(** ** [args.rs] *)
Inductive EncryptionChoice : Set := Aes256Gcm | XChaCha20Poly.
Inductive FecChoice : Set := Xor | Rs.
Inductive SymlinkCreatePolicy : Set := Skip | Follow | Archive.
#[global] Instance symlink_policy_eq_dec : EqDecision SymlinkCreatePolicy.
Proof. solve_decision. Defined.
Record CreateCompression := { algo_id : Z; level : option Z }.
Record CreateMetadataOptions := {
  preserve_permissions : bool; preserve_owner : bool; preserve_times : bool;
  symlink_policy : SymlinkCreatePolicy }.
Record CreateCommandOptions := {
  no_index : bool; compression : CreateCompression; encrypt : option EncryptionChoice;
  password : option (list byte); fec : option FecChoice; metadata : CreateMetadataOptions }.

(** ** Names and metadata *)

(** [to_string_lossy().replace('\\', "/")]. *)
Definition replace_backslash (s : list byte) : list byte :=
  (λ b, if bool_decide (b = Extract.BACKSLASH) then SLASH else b) <$> s.
Definition archive_name_from_path (p : Path) : result SarError.t (list byte) :=
  let name := replace_backslash (Utf8.from_utf8_lossy (as_bytes p)) in
  if bool_decide (name = []) then Err (SarError.Malformed "archive entry name is missing")
  else Ok name.

Definition entry_permissions (m : FsMetadata) : result SarError.t Z :=
  ok_or (try_from 16 (st_mode m))
    (SarError.Overflow "filesystem mode does not fit into SAR metadata").
Definition entry_owner (m : FsMetadata) : result SarError.t Z :=
  uid ← ok_or (try_from 16 (st_uid m)) (SarError.Overflow "UID does not fit into SAR metadata");
  gid ← ok_or (try_from 16 (st_gid m)) (SarError.Overflow "GID does not fit into SAR metadata");
  Ok (Z.lor uid (Z.shiftl gid 16)).
(** [u64::try_from] of an [i64]. *)
Definition unsigned (z : Z) : option Z := if 0 <=? z then Some z else None.
Definition entry_timestamps (m : FsMetadata) : result SarError.t (Z * Z * Z) :=
  let '(mtime, atime, ctime) := st_times m in
  mtime ← ok_or (unsigned mtime) (SarError.Unsupported "mtime is out of supported range");
  atime ← ok_or (unsigned atime) (SarError.Unsupported "atime is out of supported range");
  ctime ← ok_or (unsigned ctime) (SarError.Unsupported "ctime is out of supported range");
  Ok (mtime, atime, ctime).
(** [if preserve { Some(value?) } else { None }]. *)
Definition when_kept {A} (preserve : bool) (value : result SarError.t A)
    : result SarError.t (option A) :=
  if preserve then v ← value; Ok (Some v) else Ok None.
Definition build_entry_input (name payload : list byte) (kind : Metadata.EntryKind)
    (m : FsMetadata) (metadata : CreateMetadataOptions)
    : result SarError.t ArchiveWriter.EntryInput :=
  permissions ← when_kept (preserve_permissions metadata) (entry_permissions m);
  uid_gid ← when_kept (preserve_owner metadata) (entry_owner m);
  timestamps ← when_kept (preserve_times metadata) (entry_timestamps m);
  Ok {| ArchiveWriter.in_name := name; ArchiveWriter.in_payload := payload;
        ArchiveWriter.in_kind := Some kind; ArchiveWriter.in_path := None;
        ArchiveWriter.in_permissions := permissions; ArchiveWriter.in_uid_gid := uid_gid;
        ArchiveWriter.in_timestamps := timestamps; ArchiveWriter.in_is_hidden := false;
        ArchiveWriter.in_stream_id := None; ArchiveWriter.in_sequence_no := None;
        ArchiveWriter.in_file_crc32 := None; ArchiveWriter.in_content_hash := None;
        ArchiveWriter.in_delta := None |}.

(** ** Sorting the entries of a directory by name *)

(** The order of [String]. *)
Fixpoint name_le (a b : list byte) : bool :=
  match a, b with
  | [], _ => true
  | _, [] => false
  | x :: a, y :: b =>
      if byte_val x =? byte_val y then name_le a b else byte_val x <? byte_val y
  end.
Fixpoint insert_by_name (n : Name) (ns : list Name) : list Name :=
  match ns with
  | [] => [n]
  | m :: ns =>
      if name_le (Utf8.from_utf8_lossy n) (Utf8.from_utf8_lossy m) then n :: m :: ns
      else m :: insert_by_name n ns
  end.
(** [entries.sort_by_key(|entry| entry.file_name().to_string_lossy().into_owned())]. *)
Definition sort_by_name (ns : list Name) : list Name := foldr insert_by_name [] ns.

(** ** Settings *)
Definition validate_create_metadata_support (metadata : CreateMetadataOptions)
    : result SarError.t unit := Ok ().
Definition fec_to_settings (f : FecChoice) : ArchiveWriter.FecSettings :=
  match f with Xor => ArchiveWriter.default_xor | Rs => ArchiveWriter.default_rs end.
Definition encryption_to_algo_id (e : EncryptionChoice) : Z :=
  match e with Aes256Gcm => Crypto.ENCR_AES256_GCM | XChaCha20Poly => Crypto.ENCR_XCHACHA20_POLY end.

#[global] Instance path_eq_dec : EqDecision Path.
Proof. solve_decision. Defined.
#[global] Program Instance path_countable : Countable Path :=
  inj_countable' (λ p, (is_absolute p, pieces p))
    (λ bp, {| is_absolute := bp.1; pieces := bp.2 |}) _.
Next Obligation. by intros []. Qed.

(** What the traversal threads through its calls: the writer, and the directories behind links
    that are being walked. *)
Record Traversal := {
  writer : ArchiveWriter.ArchiveWriter; active_follow_dirs : gset Path }.

Section create.
Context {B : Bitflags} {Comp : Compression.Compressors} {Ciph : Crypto.Ciphers} {K : Kms.Kdfs}.
Context {H : Host} {R : Directories} {T : Extract.Terminal}.
Context (random : nat → Z → list byte) (random_salt : option (list byte)).

(** ** The writer over a file *)
Definition on_sink {A} (file : Loc) (method : ArchiveWriter.M A)
    (wr : ArchiveWriter.ArchiveWriter) : M SarError.t (ArchiveWriter.ArchiveWriter * A) :=
  let '(wr', r) := method wr in
  let before := ArchiveWriter.output wr in
  let appended := drop (length before) (ArchiveWriter.output wr') in
  _ ← (if bool_decide (appended = []) then mret ()
       else io (write_all file (len before) appended));
  a ← lift r;
  mret (wr', a).
Definition add_entry (file : Loc) (e : ArchiveWriter.EntryInput) (st : Traversal)
    : M SarError.t Traversal :=
  '(wr, _) ← on_sink file (ArchiveWriter.add_entry random e) (writer st);
  mret {| writer := wr; active_follow_dirs := active_follow_dirs st |}.

(** ** The traversal *)
Section visit.
Context (file : Loc) (canonical_root : Path) (options : CreateMetadataOptions).

(** [archive_rel.ok_or(..)?], and the name. *)
Definition required_name (archive_rel : option Path) : result SarError.t (list byte) :=
  rel ← ok_or archive_rel (SarError.Malformed "archive entry name is missing");
  archive_name_from_path rel.
(** A regular file, found directly or behind a link. *)
Definition add_file (source_path : Path) (archive_rel : option Path) (m : FsMetadata)
    (st : Traversal) : M SarError.t Traversal :=
  name ← lift (required_name archive_rel);
  payload ← io (read_file source_path);
  e ← lift (build_entry_input name payload Metadata.RegularFile m options);
  add_entry file e st.
Definition add_symlink_entry (source_path : Path) (archive_rel : option Path) (m : FsMetadata)
    (st : Traversal) : M SarError.t Traversal :=
  name ← lift (required_name archive_rel);
  target ← io (read_link source_path);
  if negb (Utf8.from_utf8 target)
  then throw (SarError.Malformed "symlink target must be valid UTF-8") else
  e ← lift (build_entry_input name target Metadata.Symlink m options);
  add_entry file e st.

(** [visit] is the recursive call. *)
Context (visit : Path → option Path → Traversal → M SarError.t Traversal).

Fixpoint visit_children (dir : Path) (archive_rel : option Path) (names : list Name)
    (st : Traversal) : M SarError.t Traversal :=
  match names with
  | [] => mret st
  | n :: names =>
      let child_rel := match archive_rel with
                       | Some prefix => join prefix n
                       | None => path_of n
                       end in
      st ← visit (join dir n) (Some child_rel) st;
      visit_children dir archive_rel names st
  end.
(** [traverse_followed_directory]; the branch of [traverse_input_path] for a directory is the
    same code. *)
Definition traverse_directory (dir : Path) (archive_rel : option Path) (m : FsMetadata)
    (st : Traversal) : M SarError.t Traversal :=
  st ← (match archive_rel with
        | Some rel =>
            name ← lift (archive_name_from_path rel);
            e ← lift (build_entry_input name [] Metadata.Directory m options);
            add_entry file e st
        | None => mret st
        end);
  names ← io (read_dir dir);
  visit_children dir archive_rel (sort_by_name names) st.
Definition add_followed_symlink (source_path : Path) (archive_rel : option Path)
    (st : Traversal) : M SarError.t Traversal :=
  r ← attempt (canonicalize source_path);
  resolved ← lift (map_err (λ _, SarError.Malformed "failed to resolve symlink target") r);
  if negb (path_starts_with resolved canonical_root)
  then throw (SarError.Malformed
         "refusing to follow symlink target outside the requested input root") else
  m ← io (full_stat true source_path);
  match st_node m with
  | Dir _ =>
      if bool_decide (resolved ∈ active_follow_dirs st)
      then throw (SarError.Malformed "refusing to follow recursive symlink directory cycle") else
      st ← traverse_directory resolved archive_rel m
             {| writer := writer st;
                active_follow_dirs := {[ resolved ]} ∪ active_follow_dirs st |};
      mret {| writer := writer st; active_follow_dirs := active_follow_dirs st ∖ {[ resolved ]} |}
  | File _ _ => add_file source_path archive_rel m st
  | Link _ => throw (SarError.Unsupported
                "followed symlink target is not a regular file or directory")
  end.
End visit.

Fixpoint traverse_input_path (file : Loc) (canonical_root : Path) (options : CreateMetadataOptions)
    (fuel : nat) (source_path : Path) (archive_rel : option Path) (st : Traversal)
    : M SarError.t Traversal :=
  match fuel with
  | O => lift Panic
  | S fuel =>
      let visit := traverse_input_path file canonical_root options fuel in
      m ← io (full_stat false source_path);
      match st_node m with
      | Link _ =>
          match symlink_policy options with
          | Skip => mret st
          | Archive => add_symlink_entry file options source_path archive_rel m st
          | Follow => add_followed_symlink file canonical_root options visit source_path archive_rel st
          end
      | Dir _ => traverse_directory file options visit source_path archive_rel m st
      | File _ _ => add_file file options source_path archive_rel m st
      end
  end.

Definition tree_depth (t : Tree) : nat := foldr (λ kn, max (length kn.1)) 0%nat (map_to_list t).
Definition traversal_fuel (t : Tree) : nat := S (S (size t) * S (tree_depth t)).

(** ** The command *)

(** [EncryptionSettings] with a fresh salt, and the password. *)
Definition encryption_settings (encrypt : option EncryptionChoice) (password : option (list byte))
    : result SarError.t (option (ArchiveWriter.EncryptionSettings * list byte)) :=
  match encrypt with
  | None => Ok None
  | Some choice =>
      password ← Extract.load_password password;
      salt ← ok_or random_salt (SarError.Internal "random salt generation failed");
      Ok (Some ({| ArchiveWriter.encr_algo := encryption_to_algo_id choice;
                   ArchiveWriter.kms_params := Kms.Pbkdf2 {|
                     Pbkdf2Params.prf_algo_id := Crypto.PBKDF2_PRF_HMAC_SHA256;
                     Pbkdf2Params.salt := salt; Pbkdf2Params.iterations := 100000;
                     Pbkdf2Params.derived_key_length := 32 |} |}, password))
  end.
Definition writer_options (options : CreateCommandOptions)
    (encryption : option ArchiveWriter.EncryptionSettings) : ArchiveWriter.ArchiveWriterOptions := {|
  ArchiveWriter.no_index := no_index options; ArchiveWriter.encryption := encryption;
  ArchiveWriter.opt_fec := fec_to_settings <$> fec options;
  ArchiveWriter.opt_archive_recovery :=
    ArchiveWriter.opt_archive_recovery ArchiveWriter.default_options;
  ArchiveWriter.sparse := false;
  ArchiveWriter.with_path := ArchiveWriter.with_path ArchiveWriter.default_options;
  ArchiveWriter.with_permissions := preserve_permissions (metadata options);
  ArchiveWriter.with_uid_gid := preserve_owner (metadata options);
  ArchiveWriter.with_timestamps := preserve_times (metadata options);
  ArchiveWriter.with_per_file_crc :=
    ArchiveWriter.with_per_file_crc ArchiveWriter.default_options;
  ArchiveWriter.with_content_hash :=
    ArchiveWriter.with_content_hash ArchiveWriter.default_options;
  ArchiveWriter.with_symlinks := bool_decide (symlink_policy (metadata options) = Archive);
  ArchiveWriter.with_delta := ArchiveWriter.with_delta ArchiveWriter.default_options;
  ArchiveWriter.opt_size_policy := ArchiveWriter.opt_size_policy ArchiveWriter.default_options |}.

(** The traversal from the input, links and all; the number of calls is bounded by the tree. *)
Definition traverse (file : Loc) (root input : Path) (archive_rel : option Path)
    (options : CreateMetadataOptions) (wr : ArchiveWriter.ArchiveWriter)
    : M SarError.t Traversal := λ w,
  traverse_input_path file root options (traversal_fuel (tree w)) input archive_rel
    {| writer := wr; active_follow_dirs := ∅ |} w.
(** Everything behind [File::create] and the writer: the summary is printed. *)
Definition write_archive (file : Loc) (input : Path) (options : CreateMetadataOptions)
    (wr : ArchiveWriter.ArchiveWriter) : M SarError.t unit :=
  m ← io (full_stat false input);
  input_name ← lift (ok_or (path_of <$> file_name input)
                 (SarError.Malformed "input file name is missing"));
  st ← (match st_node m with
        | Dir _ =>
            canonical_root ← io (canonicalize input);
            traverse file canonical_root input None options wr
        | Link _ =>
            r ← attempt (canonicalize input);
            canonical_root ← lift (map_err (λ _,
              SarError.Malformed "failed to resolve input symlink target") r);
            traverse file canonical_root input (Some input_name) options wr
        | File _ _ => traverse file input input (Some input_name) options wr
        end);
  _ ← on_sink file ArchiveWriter.finish (writer st);
  mret ().
Definition create_archive (input output : Path) (options : CreateCommandOptions)
    : M SarError.t unit :=
  _ ← lift (validate_create_metadata_support (metadata options));
  if bool_decide (encrypt options = None)
     && (bool_decide (is_Some (password options)) || bool_decide (is_Some Extract.password_var))
  then throw (SarError.Malformed "create only accepts passwords when --encrypt is specified") else
  encryption ← lift (encryption_settings (encrypt options) (password options));
  file ← io (file_create output);
  wr ← lift (ArchiveWriter.new_with_compression_key_provider_and_cd_metadata
               (writer_options options (fst <$> encryption))
               {| ArchiveWriter.comp_algo := algo_id (compression options);
                  ArchiveWriter.level := level (compression options) |}
               ((λ sp, Extract.CliKeyProvider (Some sp.2)) <$> encryption) []);
  write_archive file input (metadata options) wr.
End create.
End Create.
