(* ===== verification/CreateSafety.v ===== *)
(** * Creating an archive: the rules

    What [Create.v] needs of its parts: the methods of the archive writer only append to their
    output and never panic, resolving paths in a well-formed file system, and a program logic
    for computations that change nothing but the output file. *)

From stdpp Require Import gmap.
From Stdlib Require Import String.
From S2P Require Import Prelude Errors Limits Flags Cursor Format Lfh CentralDir Tlv FecTypes FecBlocks XorFec RsFec FecRegistry Utf8 Crypto Kms Transform Metadata EntryDecode ArchiveWriter FileSystem Extract ExtractSafety Create.

Module CreateSafety.

(** ** The writer appends and returns *)
Section writer.
Import ArchiveWriter.
Context {B : Bitflags} {Comp : Compression.Compressors} {Ciph : Crypto.Ciphers} {K : Kms.Kdfs}.
Context (random : nat → Z → list byte).
Context (random_fills : ∀ k n, 0 ≤ n → len (random k n) = n).

(** On a writer without archive-level recovery. *)
Definition appends {A} (m : M A) (w : ArchiveWriter) : Prop :=
  archive_recovery w = None →
  archive_recovery (m w).1 = None ∧ (∃ bs, output (m w).1 = output w ++ bs) ∧ no_panic (m w).2.
Lemma appends_lift {A} (r : result SarError.t A) w : no_panic r → appends (lift r) w.
Proof. intros ? ?; split_and!; [done|exists []; by rewrite app_nil_r|done]. Qed.
Lemma appends_ret {A} (a : A) w : appends (mret a) w.
Proof. intros ?; split_and!; [done|exists []; by rewrite app_nil_r|done]. Qed.
Lemma appends_throw {A} e w : appends (A := A) (throw e) w.
Proof. intros ?; split_and!; [done|exists []; by rewrite app_nil_r|done]. Qed.
Definition appending_change (f : ArchiveWriter → ArchiveWriter) : Prop :=
  ∀ w, archive_recovery w = None →
    archive_recovery (f w) = None ∧ ∃ bs, output (f w) = output w ++ bs.
Lemma appends_modify f w : appending_change f → appends (modify f) w.
Proof. intros Hf Hw. by destruct (Hf w Hw). Qed.
Lemma appends_bind {A A'} (m : M A) (f : A → M A') w :
  appends m w → (∀ a w', m w = (w', Ok a) → appends (f a) w') → appends (m ≫= f) w.
Proof.
  intros Hm Hf Hw. destruct (Hm Hw) as (Hr & [bs Hbs] & Hp). unfold mbind, writer_bind.
  destruct (m w) as [w' [a|e|]] eqn:E; cbn [fst snd] in *; [|by split_and!; [|exists bs|]|done].
  destruct (Hf a w' eq_refl Hr) as (Hr' & [bs' ->] & Hp'). split_and!; [done| |done].
  exists (bs ++ bs'). by rewrite Hbs, <- app_assoc.
Qed.
Lemma appends_self {A} (f : ArchiveWriter → M A) w :
  (archive_recovery w = None → appends (f w) w) → appends (self ≫= f) w.
Proof. intros Hf Hw. by apply Hf. Qed.
Lemma appends_value {A A'} (r : result SarError.t A) (f : A → M A') w :
  no_panic r → (∀ a, r = Ok a → appends (f a) w) → appends (lift r ≫= f) w.
Proof.
  intros Hr Hf. apply appends_bind; [by apply appends_lift|]. intros a w' [= <- ->]. by apply Hf.
Qed.
Lemma appends_step {A} f (g : unit → M A) w :
  appending_change f → (∀ w', appends (g ()) w') → appends (modify f ≫= g) w.
Proof. intros Hf Hg. apply appends_bind; [by apply appends_modify|]. by intros [] w' _. Qed.
Lemma appends_when c m w : (∀ w, appends m w) → appends (when_ c m) w.
Proof. destruct c; [done|]. intros _. apply appends_ret. Qed.

(** *** The values that are written *)
#[local] Hint Resolve XorFec.expected_stripe_count_no_panic XorFec.parity_len_no_panic
  RsFec.expected_group_count_no_panic RsFec.parity_data_len_no_panic
  XorFec.block_size_for_index_no_panic : no_panic.
Lemma xor_encode_no_panic c data : no_panic (XorFec.encode_recovery c data).
Proof.
  unfold XorFec.encode_recovery. np.
  apply FecBlocks.for_each_no_panic. intros parity stripe _.
  apply no_panic_bind; [apply XorFec.xor_blocks_no_panic|by intros].
Qed.
Lemma rs_encode_no_panic c data : no_panic (RsFec.encode_recovery c data).
Proof.
  unfold RsFec.encode_recovery. np.
Qed.
Lemma xor_new_no_panic a b : no_panic (XorFec.new a b).
Proof. unfold XorFec.new. np. Qed.
Lemma rs_new_no_panic a b c : no_panic (RsFec.new a b c).
Proof. unfold RsFec.new. np. Qed.
#[local] Hint Resolve xor_encode_no_panic rs_encode_no_panic xor_new_no_panic rs_new_no_panic : no_panic.
Lemma compute_fec_value_no_panic f data : no_panic (compute_fec_value f data).
Proof. unfold compute_fec_value. np. Qed.
Lemma compute_fec_value_len_no_panic f n : no_panic (compute_fec_value_len f n).
Proof. unfold compute_fec_value_len, xor_block_size, ceil_div_u64. np. Qed.
Lemma encode_payload_no_panic p plan :
  (∀ c, Transform.e_crypto plan = Some c → len (Transform.iv_nonce c) = 24) →
  no_panic (Transform.encode_payload_v2 p plan).
Proof.
  intros Hn.
  unfold Transform.encode_payload_v2, Transform.encode_payload, Transform.encoder_transform.
  apply no_panic_bind.
  - apply no_panic_map_err. unfold Compression.encode_stream, Compression.encoded. np.
    apply Transform.from_id_no_panic.
  - intros c _. destruct (Transform.e_crypto plan); [|done].
    by apply no_panic_map_err, Crypto.aead_encrypt_no_panic, Hn.
Qed.
#[local] Hint Resolve validate_entry_mode_no_panic Lfh.compute_lfh_size_no_panic
  Format.write_size_no_panic validate_global_flags_no_panic : no_panic.
Lemma write_u24_no_panic w v : no_panic (Cursor.write_u24_le w v).
Proof. unfold Cursor.write_u24_le. np. Qed.
#[local] Hint Resolve write_u24_no_panic : no_panic.
Lemma lfh_to_bytes_no_panic l f : no_panic (Lfh.lfh_to_bytes l f).
Proof. unfold Lfh.lfh_to_bytes, Lfh.write_lfh, Lfh.write_lfh_fixed. np. Qed.
(** *** The methods *)
#[local] Hint Resolve no_panic_ok_or compute_fec_value_no_panic compute_fec_value_len_no_panic
  lfh_to_bytes_no_panic : no_panic.
Ltac change_ok :=
  intros ? Hnone; split; cbn;
  [by rewrite ?Hnone|first [by exists []; rewrite app_nil_r|by eexists]].
Ltac appending :=
  repeat match goal with
  | |- appends (mbind _ self) _ => apply appends_self; intros ?
  | |- appends (mbind _ (lift _)) _ => apply appends_value; [by np|intros ? ?]
  | |- appends (mbind _ (modify _)) _ => apply appends_step; [by change_ok|intros ?]
  | |- appends (mbind _ _) _ => apply appends_bind; [|intros ? ? ?]
  | |- appends (if ?c then _ else _) _ => destruct c
  | |- appends (modify _) _ => apply appends_modify; by change_ok
  | |- appends (lift _) _ => apply appends_lift; by np
  | |- appends (throw _) _ => apply appends_throw
  | |- appends (mret _) _ => apply appends_ret
  end.

Lemma appends_track bs w : appends (track_archive_recovery_bytes bs) w.
Proof.
  unfold track_archive_recovery_bytes. apply appends_self. intros ->. apply appends_ret.
Qed.
Lemma appends_header w : appends emit_global_header_if_needed w.
Proof.
  unfold emit_global_header_if_needed. apply appends_self. intros Hn. case_match; [apply appends_ret|].
  apply appends_value; [by np|intros _ _].
  apply appends_step; [by change_ok|intros w1].
  apply appends_value.
  { unfold Format.write_global_header. cbn [Format.flags_bytes Format.flags].
    assert (H4 : len (le_bytes 4 (flags w)) = 4) by done.
    rewrite copy_at_r_fits by lia. np. }
  intros bytes _. rewrite Hn. apply appends_bind; [apply appends_ret|].
  intros _ w2 _. unfold write_all, advance. appending.
Qed.
Lemma appends_write_entry lfh payload w : appends (write_entry lfh payload) w.
Proof.
  unfold write_entry. apply appends_self. intros _. apply appends_step; [by change_ok|intros w1].
  apply appends_bind; [apply appends_track|]. intros _ w2 _.
  apply appends_bind; [apply appends_track|]. intros _ w3 _. unfold write_all, advance. appending.
Qed.
Lemma appends_size_policy a b w : appends (apply_size_policy a b) w.
Proof.
  unfold apply_size_policy. apply appends_self. intros _. repeat case_match; appending.
Qed.
Lemma appends_nonce tries algo field w :
  len field = 24 →
  appends (fresh_nonce random tries algo field) w
  ∧ ∀ w' nonce, fresh_nonce random tries algo field w = (w', Ok nonce) → len nonce = 24.
Proof.
  revert field w. induction tries as [|tries IH]; intros field w Hl; cbn [fresh_nonce];
    [split; [apply appends_throw|done]|].
  pose proof (Crypto.generate_nonce_valid (random (draws w)) algo field (random_fills _) Hl) as Hg.
  split.
  - apply appends_self. intros _. apply appends_value.
    { apply no_panic_map_err. by destruct (Crypto.generate_nonce _ _ _). }
    intros nonce Hn. destruct (Crypto.generate_nonce _ _ _); cbn in Hn; [|done..].
    injection Hn as ->. case_bool_decide; (apply appends_step; [by change_ok|intros w1]);
      [by apply IH, Hg|apply appends_ret].
  - intros w' nonce. unfold mbind at 1, writer_bind at 1, self. unfold mbind at 1, writer_bind at 1, lift.
    destruct (Crypto.generate_nonce _ _ _) as [n| |]; cbn [map_err]; [|done..]. case_bool_decide.
    + apply (IH n _ (proj1 Hg)).
    + intros [= _ <-]. apply Hg.
Qed.
Lemma appends_plain l encoded w : appends (write_plain l encoded) w.
Proof.
  unfold write_plain. apply appends_self. intros _. do 2 (apply appends_value; [by np|intros ? _]).
  apply appends_write_entry.
Qed.
Lemma appends_encrypted l wire msg w : appends (write_encrypted random l wire msg) w.
Proof.
  unfold write_encrypted. apply appends_self. intros _. apply appends_value; [by np|intros algo _].
  destruct (appends_nonce 3 algo (zeros 24) w eq_refl) as [Hn Hlen].
  apply appends_bind; [done|]. intros nonce w1 Hl%Hlen.
  apply appends_value; [by np|intros ? _].
  apply appends_value; [apply EntryDecode.lfh_bytes_for_aad_no_panic, len_nonneg|intros ? _].
  apply appends_value; [by np|intros ? _].
  apply appends_value; [by apply encode_payload_no_panic; intros ? [= <-]|intros enc _].
  apply appends_value.
  { unfold fill_fec. case_match; [|done].
    apply no_panic_bind; [apply no_panic_ok_or|]. intros n [-> ?]%ok_or_Ok%checked_sub_Some.
    apply no_panic_bind; [apply slice_r_no_panic; lia|]. intros ? _. np. }
  intros l' _. apply appends_value; [by np|intros ? _]. apply appends_write_entry.
Qed.
Lemma validate_input_no_panic f e : no_panic (validate_entry_input_metadata f e).
Proof. unfold validate_entry_input_metadata, required_field, allowed_field. np. Qed.
Lemma apply_input_no_panic f e l : no_panic (apply_entry_input_to_lfh f e l).
Proof. unfold apply_entry_input_to_lfh, present_field. np. Qed.

Lemma appends_add_entry e w : in_delta e = None → appends (add_entry random e) w.
Proof.
  intros Hd. unfold add_entry. apply appends_bind.
  { unfold refuse_finished, when_. apply appends_self. intros _. case_match; appending. }
  intros _ w1 _. apply appends_self. intros _.
  apply appends_value; [apply validate_input_no_panic|intros _ _].
  apply appends_value; [by np|intros ? _].
  apply appends_value; [unfold wire_payload; by rewrite Hd|intros wire _].
  apply appends_value; [by apply encode_payload_no_panic|intros enc _].
  apply appends_value; [by unfold stored_len; np|intros n _].
  apply appends_bind; [apply appends_size_policy|intros _ w2 _].
  apply appends_bind; [apply appends_header|intros _ w3 _]. apply appends_self. intros _.
  apply appends_value; [apply apply_input_no_panic|intros l _].
  unfold seal_entry. apply appends_self. intros _.
  apply appends_value; [unfold reserve_fec; np|intros l' _].
  case_match; [apply appends_encrypted|apply appends_plain].
Qed.

Lemma write_tlvs_no_panic ts out : no_panic (Tlv.write_loop out ts).
Proof.
  revert out. induction ts as [|t ts IH]; intros out; [done|]. cbn [Tlv.write_loop].
  apply no_panic_bind; [|intros ? _; apply IH]. unfold Tlv.write_tlv. np. apply Tlv.classify_type_no_panic.
Qed.
Lemma write_offsets_no_panic out f os : no_panic (CentralDir.write_offsets out f os).
Proof.
  revert out. induction os as [|o os IH]; intros out; [done|]. cbn [CentralDir.write_offsets].
  apply no_panic_bind; [by np|intros ? _; apply IH].
Qed.
Lemma appends_finish w : appends finish w.
Proof.
  unfold finish. apply appends_bind.
  { unfold refuse_finished, when_. apply appends_self. intros _. case_match; appending. }
  intros _ w1 _. apply appends_bind; [apply appends_header|intros _ w2 _].
  apply appends_step; [by change_ok|intros w3]. apply appends_self. intros _.
  apply appends_bind; [|intros _ w4 _; appending].
  apply appends_when. intros w4. unfold write_index. apply appends_bind.
  { unfold finalize_archive_recovery_metadata. apply appends_self. intros ->. apply appends_ret. }
  intros _ w5 _. apply appends_self. intros _. apply appends_value; [by np|intros n _].
  apply appends_value.
  { unfold CentralDir.write_central_dictionary, Tlv.write_tlvs.
    pose proof write_tlvs_no_panic. pose proof write_offsets_no_panic. np. }
  intros cd _. unfold write_all, advance, when_. appending.
Qed.
End writer.

(** ** Names *)
Import FileSystem ExtractSafety Create.

Lemma lossy_loop_valid fuel bs :
  (length bs ≤ fuel)%nat → Utf8.from_utf8 bs = true → Utf8.lossy_loop fuel bs = bs.
Proof.
  revert bs. induction fuel as [|fuel IH]; intros [|b0 r0] Hl Hv; try done; [cbn in Hl; lia|].
  cbn [length] in Hl. cbn [Utf8.lossy_loop Utf8.from_utf8] in *.
  unfold Utf8.char_prefix, Utf8.second_of_three, Utf8.second_of_four.
  destruct (Utf8.in_range 0 127 b0); [cbn; by rewrite drop_0, IH by (done || lia)|].
  destruct r0 as [|b1 r1]; [done|]. cbn [lookup list_lookup from_option id length] in *.
  destruct (Utf8.in_range 194 223 b0).
  { apply andb_true_iff in Hv as [-> Hv]. cbn. by rewrite drop_0, IH by (done || lia). }
  destruct r1 as [|b2 r2]; [done|]. cbn [lookup list_lookup from_option id length] in *.
  destruct (Utf8.in_range 224 239 b0).
  { apply andb_true_iff in Hv as [[-> ->]%andb_true_iff Hv]. cbn. by rewrite drop_0, IH by (done || lia). }
  destruct r2 as [|b3 r3]; [done|]. cbn [lookup list_lookup from_option id length] in *.
  apply andb_true_iff in Hv as [[[[-> ->]%andb_true_iff ->]%andb_true_iff ->]%andb_true_iff Hv].
  cbn. by rewrite drop_0, IH by (done || lia).
Qed.
Lemma from_utf8_app a b :
  Utf8.from_utf8 a = true → Utf8.from_utf8 b = true → Utf8.from_utf8 (a ++ b) = true.
Proof.
  rewrite !Utf8.from_utf8_spec. intros (cs & Hc & ->) (ds & Hd & ->). exists (cs ++ ds).
  split; [by apply Forall_app|]. by rewrite fmap_app, concat_app.
Qed.

(** Names that survive in an archive: text without backslashes. *)
Definition portable (c : Name) : Prop :=
  plain c ∧ Utf8.from_utf8 c = true ∧ Extract.BACKSLASH ∉ c.
Lemma join_names_cons c cs : cs ≠ [] → join_names (c :: cs) = c ++ SLASH :: join_names cs.
Proof. by destruct cs. Qed.
Lemma split_app_slash c s : SLASH ∉ c → split SLASH (c ++ SLASH :: s) = c :: split SLASH s.
Proof.
  induction c as [|b c IH]; intros Hc; cbn [app split].
  - by rewrite bool_decide_eq_true_2.
  - rewrite bool_decide_eq_false_2 by set_solver. by rewrite IH by set_solver.
Qed.
Lemma split_join_names cs : cs ≠ [] → Forall (λ c, SLASH ∉ c) cs → split SLASH (join_names cs) = cs.
Proof.
  intros Hn H. induction H as [|c cs Hc Hcs IH]; [done|]. destruct (decide (cs = [])) as [->|Hne].
  - cbn. rewrite app_nil_r. by apply split_plain.
  - rewrite join_names_cons, split_app_slash by done. by rewrite IH.
Qed.
Lemma portable_no_slash cs : Forall portable cs → Forall (λ c, SLASH ∉ c) cs.
Proof. intros H. eapply Forall_impl; [exact H|]. intros c [Hp _]. apply Hp. Qed.
Lemma join_names_inj cs ds :
  Forall portable cs → Forall portable ds → cs ≠ [] → ds ≠ [] →
  join_names cs = join_names ds → cs = ds.
Proof.
  intros Hc Hd Hc0 Hd0 E. rewrite <- (split_join_names cs), <- (split_join_names ds), E;
    by try apply portable_no_slash.
Qed.
Lemma join_names_text cs :
  Forall portable cs →
  Utf8.from_utf8 (join_names cs) = true ∧ Extract.BACKSLASH ∉ join_names cs.
Proof.
  induction 1 as [|c cs (_ & Hu & Hb) Hcs [IHu IHb]]; [split; [done|set_solver]|].
  destruct (decide (cs = [])) as [->|Hne]; [cbn; rewrite app_nil_r; done|].
  rewrite join_names_cons by done. split.
  - apply from_utf8_app; [done|]. by apply (from_utf8_app [SLASH]).
  - rewrite elem_of_app, elem_of_cons. intros [?|[[=]|?]]; done.
Qed.
Lemma archive_name_portable cs :
  Forall portable cs → cs ≠ [] →
  archive_name_from_path {| is_absolute := false; pieces := cs |} = Ok (join_names cs).
Proof.
  intros Hp Hn. destruct (join_names_text cs Hp) as [Hu Hb].
  unfold archive_name_from_path, as_bytes, Utf8.from_utf8_lossy. cbn [is_absolute pieces app].
  rewrite lossy_loop_valid by done.
  assert (Hr : replace_backslash (join_names cs) = join_names cs).
  { unfold replace_backslash. clear Hu. induction (join_names cs) as [|b s IH]; [done|].
    cbn. rewrite bool_decide_eq_false_2 by set_solver. by rewrite IH by set_solver. }
  rewrite Hr, bool_decide_eq_false_2; [done|].
  destruct cs as [|c cs]; [done|]. apply Forall_cons in Hp as [[[Hc _] _] _]. by destruct c.
Qed.

Lemma insert_by_name_perm n ns : insert_by_name n ns ≡ₚ n :: ns.
Proof.
  induction ns as [|m ns IH]; cbn; [done|]. case_match; [done|]. rewrite IH. apply Permutation_swap.
Qed.
Lemma sort_by_name_perm ns : sort_by_name ns ≡ₚ ns.
Proof. induction ns as [|n ns IH]; cbn; [done|]. by rewrite insert_by_name_perm, IH. Qed.

(** ** Well-formed file systems *)

(** Names are components, and what is there lies in a directory. *)
Record well_formed (t : Tree) : Prop := {
  names_plain k n : t !! k = Some n → Forall plain k;
  parents_real k x n : t !! (k ++ [x]) = Some n → is_dir_at t k }.

Section resolution.
Context {H : Host} (t : Tree) (W : well_formed t).

Lemma location_real k x n : t !! (k ++ [x]) = Some n → real t [] k.
Proof.
  revert x n. induction k as [|y k IH] using rev_ind; intros x n Hn.
  - intros i. rewrite take_nil. by apply (parents_real t W [] x n).
  - apply (parents_real t W) in Hn as Hd. destruct Hd as [a Ha].
    apply real_snoc; [by eapply IH|by exists a].
Qed.
(** A canonical path leads to its location. *)
Lemma resolve_canonical follow l n :
  t !! l = Some n → follow = false ∨ is_link_node n = false →
  resolve t follow {| is_absolute := true; pieces := l |} = Ok l.
Proof.
  intros Hl Hf. unfold resolve, base. cbn [is_absolute pieces].
  destruct l as [|x l _] using rev_ind; [by destruct MAX_LINKS|].
  apply (walk_plain MAX_LINKS t follow [] l x); [by eapply location_real|by eapply names_plain|].
  destruct Hf as [->|Hf]; [by left|right]. intros [g Hg]. cbn [app] in Hg. rewrite Hl in Hg.
  by injection Hg as ->.
Qed.
(** A path that does not end in a link resolves the same with links followed. *)
Lemma walk_follow n loc ps l :
  (walk n t false loc ps).2 = Ok l → ¬ is_link_at t l → (walk n t true loc ps).2 = Ok l.
Proof.
  revert loc ps. induction n as [|n IHn]; intros loc ps; revert loc;
    induction ps as [|p rest IH]; intros loc Hw Hl; try done; cbn [walk] in *;
    destruct (t !! loc) as [[a| |]|] eqn:El; try done;
    (destruct (bool_decide (p = dotdot)); [by apply IH|]);
    destruct (t !! (loc ++ [p])) as [[| |g]|] eqn:Ep; cbn [visiting snd] in *; try (by apply IH);
    rewrite andb_false_r; (case_bool_decide; cbn [andb negb snd] in Hw;
      [injection Hw as <-; destruct Hl; by exists g|]); [done|by apply IHn].
Qed.
Lemma resolve_child follow p l n :
  resolve t false p = Ok l → is_dir_at t l → plain n →
  follow = false ∨ ¬ is_link_at t (l ++ [n]) →
  resolve t follow (join p n) = Ok (l ++ [n]).
Proof.
  intros Hr [a Ha] Hn Hf. unfold resolve in *. apply walk_follow in Hr; [|intros [g Hg]; congruence].
  rewrite <- (under_nil p), join_plain by done. unfold under, base in *. cbn [is_absolute pieces app].
  destruct (walk_app MAX_LINKS t follow _ (pieces p) [n] l ltac:(done) Hr) as [m ->].
  apply (walk_plain m t follow l [] n); [by apply real_nil; exists a|by apply Forall_singleton|done].
Qed.

Lemma child_name_Some l k n : child_name l k = Some n ↔ k = l ++ [n].
Proof.
  unfold child_name. split.
  - case_bool_decide as Hb; [|done]. destruct Hb as [Hne <-].
    destruct k as [|x k _] using rev_ind; [done|].
    rewrite last_snoc, removelast_last. by intros [= ->].
  - intros ->. rewrite bool_decide_eq_true_2; [apply last_snoc|].
    split; [by destruct l|apply removelast_last].
Qed.
Lemma elem_of_children l n : n ∈ children t l ↔ is_Some (t !! (l ++ [n])).
Proof.
  unfold children. rewrite list_elem_of_omap. split.
  - intros ([k v] & Hk%elem_of_map_to_list & Hc). apply child_name_Some in Hc as E. cbn in E. subst. eauto.
  - intros [v Hv]. exists (l ++ [n], v). split; [by apply elem_of_map_to_list|].
    by apply child_name_Some.
Qed.
Lemma children_NoDup l : NoDup (children t l).
Proof.
  unfold children. pose proof (NoDup_fst_map_to_list t) as Hnd.
  induction (map_to_list t) as [|[k v] kvs IH]; [constructor|].
  cbn [fmap list_fmap fst] in Hnd. apply NoDup_cons in Hnd as [Hk Hnd]. cbn [omap list_omap fst].
  destruct (child_name l k) as [n|] eqn:E; [|by apply IH]. apply NoDup_cons. split; [|by apply IH].
  intros ([k' v'] & Hin & E')%list_elem_of_omap. cbn [fst] in E'.
  apply child_name_Some in E as ->. apply child_name_Some in E' as ->.
  apply Hk. by apply (list_elem_of_fmap_2 fst) in Hin.
Qed.
End resolution.

(** ** The logic: only the output file changes *)
Section logic.
Context {H : Host} (T0 : Tree) (O : Loc) (a0 : Attr) (HO : T0 !! O = Some (File [] a0)).

(** The tree while the output file holds [d]. *)
Definition holding (d : list byte) : Tree := <[O := File d a0]> T0.
Definition sees (d : list byte) (w : World) : Prop := tree w = holding d.

Lemma holding_ne d l : l ≠ O → holding d !! l = T0 !! l.
Proof. intros Hl. unfold holding. by rewrite lookup_insert_ne. Qed.
Lemma holding_O d : holding d !! O = Some (File d a0).
Proof. unfold holding. by rewrite lookup_insert_eq. Qed.
Lemma holding_dir d l a : holding d !! l = Some (Dir a) ↔ T0 !! l = Some (Dir a).
Proof. destruct (decide (l = O)) as [->|Hl]; [rewrite holding_O, HO; naive_solver|by rewrite holding_ne]. Qed.
Lemma holding_link d l g : holding d !! l = Some (Link g) ↔ T0 !! l = Some (Link g).
Proof. destruct (decide (l = O)) as [->|Hl]; [rewrite holding_O, HO; naive_solver|by rewrite holding_ne]. Qed.
Lemma holding_None d l : holding d !! l = None ↔ T0 !! l = None.
Proof. destruct (decide (l = O)) as [->|Hl]; [by rewrite holding_O, HO|by rewrite holding_ne]. Qed.
Lemma holding_is_Some d l : is_Some (holding d !! l) ↔ is_Some (T0 !! l).
Proof. by rewrite <- !not_eq_None_Some, holding_None. Qed.
(** Resolution looks at directories and links only. *)
Lemma walk_holding d n follow loc ps : walk n (holding d) follow loc ps = walk n T0 follow loc ps.
Proof.
  revert loc ps. induction n as [|n IHn]; intros loc ps; revert loc;
    induction ps as [|p rest IH]; intros loc; try done; cbn [walk];
    (destruct (decide (loc = O)) as [->|Hl]; [by rewrite holding_O, HO|]);
    rewrite (holding_ne d loc) by done; (destruct (T0 !! loc) as [[]|]; try done);
    rewrite !IH; (destruct (bool_decide (p = dotdot)); [done|]);
    (destruct (decide (loc ++ [p] = O)) as [->|Hl']; [by rewrite holding_O, HO|]);
    rewrite (holding_ne d (loc ++ [p])) by done; [done|].
  destruct (T0 !! (loc ++ [p])) as [[]|]; try done. case_match; [done|]. by rewrite IHn.
Qed.
Lemma resolve_holding d follow p : resolve (holding d) follow p = resolve T0 follow p.
Proof. unfold resolve. by rewrite walk_holding. Qed.

(** The computation changes only the output file, returns, and on success leaves [Q] of its
    value and the content of the file. *)
Definition runs {E A : Type} (m : M E A) (d : list byte) (Q : A → list byte → Prop) : Prop :=
  ∀ w, sees d w →
    let (w', r) := m w in
    r ≠ Panic ∧ ∃ d', sees d' w' ∧ ∀ a, r = Ok a → Q a d'.

Lemma runs_weaken {E A : Type} (m : M E A) d (P Q : A → list byte → Prop) :
  runs m d P → (∀ a d', P a d' → Q a d') → runs m d Q.
Proof.
  intros Hm HPQ w Hw. specialize (Hm w Hw). destruct (m w) as [w' r].
  destruct Hm as (Hr & d' & Hd & HP). split; [done|]. exists d'. split; [done|]. auto.
Qed.
Lemma run_ret {E A : Type} (a : A) d (Q : A → list byte → Prop) : Q a d → runs (E := E) (mret a) d Q.
Proof. intros HQ w Hw. split; [done|]. exists d. split; [done|]. by intros ? [= <-]. Qed.
Lemma run_throw {E A : Type} (e : E) d (Q : A → list byte → Prop) : runs (throw e) d Q.
Proof. intros w Hw. split; [done|]. by exists d. Qed.
Lemma run_bind {E A A' : Type} (m : M E A) (f : A → M E A') d (P : A → list byte → Prop)
    (Q : A' → list byte → Prop) :
  runs m d P → (∀ a d', P a d' → runs (f a) d' Q) → runs (m ≫= f) d Q.
Proof.
  intros Hm Hf w Hw. specialize (Hm w Hw). unfold mbind, M_bind.
  destruct (m w) as [w' [a|e|]]; destruct Hm as (Hr & d' & Hd & HP); [|by split; [|by exists d']|done].
  exact (Hf a d' (HP a eq_refl) w' Hd).
Qed.
Lemma run_lift {E A : Type} (r : result E A) d (Q : A → list byte → Prop) :
  no_panic r → (∀ a, r = Ok a → Q a d) → runs (lift r) d Q.
Proof. intros Hr HQ w Hw. split; [done|]. by exists d. Qed.
Lemma runs_value {E A A' : Type} (r : result E A) (f : A → M E A') d (Q : A' → list byte → Prop) :
  no_panic r → (∀ a, r = Ok a → runs (f a) d Q) → runs (lift r ≫= f) d Q.
Proof.
  intros Hr Hf. eapply (run_bind _ _ _ (λ a d', r = Ok a ∧ d' = d)); [by apply run_lift|].
  intros a d' [Ha ->]. auto.
Qed.
Lemma runs_io {A : Type} (m : M IoError A) d (Q : A → list byte → Prop) : runs m d Q → runs (io m) d Q.
Proof.
  intros Hm w Hw. specialize (Hm w Hw). unfold io. destruct (m w) as [w' r].
  destruct Hm as (Hr & d' & Hd & HQ). split; [by destruct r|]. exists d'. split; [done|].
  intros a Ha. apply HQ. destruct r; by simplify_eq/=.
Qed.
Lemma runs_attempt {E F A : Type} (m : M E A) d (Q : A → list byte → Prop) :
  runs m d Q →
  runs (attempt (F := F) m) d (λ r d', match r with Ok a => Q a d' | Err _ => True | Panic => False end).
Proof.
  intros Hm w Hw. specialize (Hm w Hw). unfold attempt. destruct (m w) as [w' [a|e|]];
    destruct Hm as (Hr & d' & Hd & HQ); [| |done]; (split; [done|]; exists d'; split; [done|]).
  - intros ? [= <-]. auto.
  - by intros ? [= <-].
Qed.
(** A system call that only looks. *)
Lemma runs_read {A : Type} (f : nat → Tree → result IoError (Tree * A)) d (Q : A → list byte → Prop) :
  (∀ k, match f k (holding d) with
        | Ok (t, a) => t = holding d ∧ Q a d
        | Err _ => True
        | Panic => False
        end) →
  runs (syscall f) d Q.
Proof.
  intros Hf w Hw. unfold syscall. destruct (fault (calls w)).
  { split; [done|]. by exists d. }
  rewrite Hw. specialize (Hf (calls w)). destruct (f (calls w) (holding d)) as [[t a]|e|]; [|..|done].
  - destruct Hf as [-> HQ]. split; [done|]. exists d. split; [done|]. by intros ? [= <-].
  - split; [done|]. by exists d.
Qed.

(** *** System calls *)
Context {R : Directories} {RL : DirectoriesLaws}.

Lemma resolve_cases follow p :
  (∃ l, resolve T0 follow p = Ok l) ∨ (∃ e, resolve T0 follow p = Err e).
Proof.
  pose proof (walk_no_panic MAX_LINKS T0 follow (base p) (pieces p)). unfold resolve.
  destruct (walk _ _ _ _ _).2; eauto. done.
Qed.
Ltac resolving follow p :=
  apply runs_read; intros k; rewrite resolve_holding;
  destruct (resolve_cases follow p) as [[l Hl]|[e He]];
  [rewrite Hl; cbn [mbind result_bind]|by rewrite He].
Lemma runs_stat follow p d :
  runs (full_stat follow p) d
    (λ m d', d' = d ∧ ∃ l k, resolve T0 follow p = Ok l ∧ holding d !! l = Some (st_node m)
       ∧ (st_uid m, st_gid m) = owner_of l (st_node m) ∧ st_times m = times_of k (st_node m)).
Proof.
  resolving follow p. destruct (holding d !! l) as [n|] eqn:E; [|done]. cbn. split; [done|].
  split; [done|]. exists l, k. by destruct (owner_of l n).
Qed.
Lemma runs_canonicalize p d :
  runs (canonicalize p) d
    (λ q d', d' = d ∧ ∃ l, q = {| is_absolute := true; pieces := l |}
                           ∧ resolve T0 true p = Ok l ∧ is_Some (T0 !! l)).
Proof.
  resolving true p. destruct (holding d !! l) as [n|] eqn:E; [|done]. cbn. split; [done|].
  split; [done|]. exists l. split; [done|]. split; [done|]. apply (holding_is_Some d). eauto.
Qed.
Lemma runs_read_file p d :
  runs (read_file p) d
    (λ bs d', d' = d ∧ ∃ l a, resolve T0 true p = Ok l ∧ holding d !! l = Some (File bs a)).
Proof.
  resolving true p. destruct (holding d !! l) as [[|bs a|]|] eqn:E; try done. split; [done|].
  split; [done|]. by exists l, a.
Qed.
Lemma runs_read_link p d :
  runs (read_link p) d
    (λ g d', d' = d ∧ ∃ l, resolve T0 false p = Ok l ∧ T0 !! l = Some (Link g)).
Proof.
  resolving false p. destruct (holding d !! l) as [[| |g]|] eqn:E; try done. split; [done|].
  split; [done|]. exists l. split; [done|]. by apply (holding_link d).
Qed.
Lemma runs_read_dir p d :
  runs (read_dir p) d
    (λ ns d', d' = d ∧ NoDup ns ∧ ∃ l, resolve T0 true p = Ok l ∧ is_dir_at T0 l
                ∧ ∀ n, n ∈ ns ↔ is_Some (T0 !! (l ++ [n]))).
Proof.
  resolving true p. destruct (holding d !! l) as [[a| |]|] eqn:E; try done. split; [done|].
  split; [done|]. split; [rewrite dir_order_perm; apply children_NoDup|].
  exists l. split; [done|]. split; [exists a; by apply (holding_dir d)|].
  intros n. rewrite dir_order_perm, elem_of_children. apply holding_is_Some.
Qed.

(** *** The writer over the file *)
Lemma overwrite_end (d src : list byte) : overwrite d (len d) src = d ++ src.
Proof.
  unfold overwrite, resized. pose proof (len_nonneg src). pose proof (len_nonneg d).
  rewrite Z.max_r by lia. rewrite take_ge by (unfold len in *; lia).
  replace (len d + len src - len d) with (len src) by lia.
  rewrite copy_at_app by (rewrite len_zeros; lia).
  rewrite drop_ge; [by rewrite app_nil_r|]. pose proof (len_zeros (len src)). unfold len in *. lia.
Qed.
Lemma runs_write (d src : list byte) : runs (write_all O (len d) src) d (λ _ d', d' = d ++ src).
Proof.
  intros w Hw. unfold write_all, on_file. rewrite Hw, holding_O, overwrite_end.
  assert (Hs : ∀ d', <[O := File d' a0]> (holding d) = holding d')
    by (intros d'; unfold holding; by rewrite insert_insert_eq).
  rewrite Hs. destruct (fault (calls w)); (split; [done|]); eexists; (split; [done|]); [done|].
  intros _ _. by rewrite firstn_all.
Qed.
Lemma runs_sink {B : Bitflags} {A : Type} (m : ArchiveWriter.M A) wr :
  appends m wr → ArchiveWriter.archive_recovery wr = None →
  runs (on_sink O m wr) (ArchiveWriter.output wr)
    (λ wa d', m wr = (wa.1, Ok wa.2) ∧ d' = ArchiveWriter.output wa.1
              ∧ ArchiveWriter.archive_recovery wa.1 = None).
Proof.
  intros Ha Hr. destruct (Ha Hr) as (Hr' & [bs Hbs] & Hp). unfold on_sink.
  destruct (m wr) as [wr' r]. cbn [fst snd] in *. rewrite Hbs, drop_app_length.
  eapply (run_bind _ _ _ (λ _ d', d' = ArchiveWriter.output wr')).
  - rewrite Hbs. case_bool_decide as E; [subst; apply run_ret; by rewrite app_nil_r|].
    apply runs_io, runs_write.
  - intros [] d' ->. apply runs_value; [done|]. intros a ->. by apply run_ret.
Qed.
End logic.
End CreateSafety.
