(* ===== verification/CreateTheorems.v ===== *)
(** * Creating an archive: what ends up in it

    The traversal of the input directory is shown to return whatever links it meets, to change
    nothing but the output file, and to add exactly the entries of the directory; together with
    the round trip of the archive and the theorem on extraction this gives the round trip of
    the two commands. *)

From stdpp Require Import gmap.
From Stdlib Require Import String.
From S2P Require Import Prelude Errors Limits Flags Cursor Format Lfh Utf8 Crypto Kms Transform Metadata EntryDecode ArchiveReader ArchiveWriter ArchiveRoundTrip WriteRead FileSystem Extract ExtractSafety ExtractTheorems Create CreateSafety.

Module CreateTheorems.
Import Limits FileSystem ExtractSafety Create CreateSafety.
Abbreviation EntryInput := ArchiveWriter.EntryInput.

(** ** Generalities *)
Lemma path_of_plain n : plain n → path_of n = {| is_absolute := false; pieces := [n] |}.
Proof.
  intros (Hn & Hd & _ & Hs). unfold path_of. rewrite split_plain by done.
  rewrite bool_decide_eq_false_2 by (destruct n; set_solver).
  cbn [filter list_filter]. by rewrite decide_True.
Qed.
Lemma join_relative rs n :
  plain n →
  join {| is_absolute := false; pieces := rs |} n = {| is_absolute := false; pieces := rs ++ [n] |}.
Proof.
  intros Hn. rewrite <- (under_nil {| is_absolute := false; pieces := rs |}), join_plain by done. done.
Qed.
Lemma starts_with_root l root :
  path_starts_with {| is_absolute := true; pieces := l |} {| is_absolute := true; pieces := root |} = true →
  ∃ cs, l = root ++ cs.
Proof.
  unfold path_starts_with. cbn. intros [_ E]%bool_decide_eq_true. exists (drop (length root) l).
  by rewrite <- E at 1; rewrite take_drop.
Qed.
Section tree_facts.
Context (t : Tree) (W : well_formed t).
Lemma prefix_exists l cs n ns : t !! (l ++ n :: ns) = Some cs → is_Some (t !! (l ++ [n])).
Proof.
  revert cs. induction ns as [|x ns IH] using rev_ind; intros v Hv; [eauto|].
  replace (l ++ n :: ns ++ [x]) with ((l ++ n :: ns) ++ [x]) in Hv by (by rewrite <- app_assoc).
  apply (parents_real t W) in Hv as [a Ha]. by eapply IH.
Qed.
Lemma below_needs_dir l n ns v : t !! (l ++ n :: ns) = Some v → is_dir_at t l.
Proof. intros [v' Hv']%prefix_exists. by apply (parents_real t W) in Hv'. Qed.
Lemma depth_bound l n : t !! l = Some n → (length l ≤ tree_depth t)%nat.
Proof.
  intros Hl%elem_of_map_to_list. unfold tree_depth.
  induction (map_to_list t) as [|kv kvs IH]; [by apply not_elem_of_nil in Hl|].
  cbn. apply elem_of_cons in Hl as [<-|Hl]; [cbn; lia|]. specialize (IH Hl). lia.
Qed.
End tree_facts.
Lemma add_entries_app {B : Bitflags} {Comp : Compression.Compressors} {Ciph : Crypto.Ciphers}
    random es fs w w1 w2 :
  WriteRead.add_entries random es w = (w1, Ok ()) →
  WriteRead.add_entries random fs w1 = (w2, Ok ()) →
  WriteRead.add_entries random (es ++ fs) w = (w2, Ok ()).
Proof.
  revert w. induction es as [|e es IH]; intros w; cbn [WriteRead.add_entries app].
  - by intros [= ->].
  - unfold mbind, ArchiveWriter.writer_bind. destruct (ArchiveWriter.add_entry random e w) as [w' [x|er|]];
      [apply IH|done..].
Qed.

(** ** The entries of a subtree *)
Section traversal.
Context {B : Bitflags} {Comp : Compression.Compressors} {Ciph : Crypto.Ciphers} {K : Kms.Kdfs}.
Context {H : Host} {R : Directories} {RL : DirectoriesLaws} {T : Extract.Terminal}.
Context (random : nat → Z → list byte).
Context (random_fills : ∀ k n, 0 ≤ n → len (random k n) = n).
(** The tree when the output file has just been made at [O]. *)
Context (T0 : Tree) (O : Loc) (a0 : Attr) (HO : T0 !! O = Some (File [] a0)) (W : well_formed T0).
(** The input directory, or [[]] when the input is none. *)
Context (src : Loc) (root : Path) (options : CreateMetadataOptions).
Definition within (l : Loc) : Prop := ∃ cs, l = src ++ cs.
Context (Hroot : ∀ l, path_starts_with {| is_absolute := true; pieces := l |} root = true → within l).

(** A directory that an archive can hold: portable names, sizes and attributes of their Rust
    types, and the output file is somewhere else. *)
Record archivable : Prop := {
  ar_names cs n : T0 !! (src ++ cs) = Some n → Forall portable cs;
  ar_files cs d a : T0 !! (src ++ cs) = Some (File d a) → len d < 2 ^ 63;
  ar_links cs g : T0 !! (src ++ cs) = Some (Link g) → len g < 2 ^ 63;
  ar_owner cs n : T0 !! (src ++ cs) = Some n →
    0 ≤ (owner_of (src ++ cs) n).1 ∧ 0 ≤ (owner_of (src ++ cs) n).2;
  ar_times cs n k m a c : T0 !! (src ++ cs) = Some n → times_of k n = (m, a, c) →
    m < 2 ^ 63 ∧ a < 2 ^ 63 ∧ c < 2 ^ 63;
  ar_apart : ¬ within O }.

(** The entries [es] stand for what lies at [l ++ cs] with [P cs], under the names that start
    with [rs]. *)
Record emitted (P : list Name → Prop) (rs : list Name) (l : Loc) (es : list EntryInput) : Prop := {
  em_typed : Forall (λ e, ArchiveRoundTrip.input_typed e ∧ len (ArchiveWriter.in_payload e) < 2 ^ 63
               ∧ ArchiveWriter.in_path e = None) es;
  em_named : Forall (λ e, ∃ cs, P cs ∧ rs ++ cs ≠ [] ∧ Forall portable (rs ++ cs)
               ∧ ArchiveWriter.in_name e = join_names (rs ++ cs)) es;
  em_distinct : NoDup (ArchiveWriter.in_name <$> es);
  em_files : Forall (λ e, ArchiveWriter.in_kind e = Some Metadata.RegularFile →
               ∃ k a, within k ∧ T0 !! k = Some (File (ArchiveWriter.in_payload e) a)) es;
  em_dirs : Forall (λ e, ArchiveWriter.in_kind e = Some Metadata.Directory →
              symlink_policy options = Follow ∨ ∃ k, k ≠ [] ∧ is_dir_at T0 (src ++ k)) es;
  em_all cs d a : P cs → T0 !! (l ++ cs) = Some (File d a) →
    ∃ e, e ∈ es ∧ ArchiveWriter.in_kind e = Some Metadata.RegularFile
      ∧ ArchiveWriter.in_name e = join_names (rs ++ cs) ∧ ArchiveWriter.in_payload e = d }.

Lemma emitted_nil P rs l :
  (∀ cs d a, P cs → T0 !! (l ++ cs) ≠ Some (File d a)) → emitted P rs l [].
Proof. intros Hn. split; try constructor. intros cs d a HP Hf. by apply Hn in Hf. Qed.
Lemma emitted_widen (P Q : list Name → Prop) rs l es :
  emitted P rs l es → (∀ cs, P cs → Q cs) →
  (∀ cs d a, Q cs → T0 !! (l ++ cs) = Some (File d a) → P cs) → emitted Q rs l es.
Proof.
  intros [H1 H2 H3 H4 H5 H6] HPQ HQP. split; [done| |done..|].
  - eapply Forall_impl; [exact H2|]. intros e (cs & HP & Hr). eauto.
  - intros cs d a HQ Hf. apply (H6 cs d a); [by eapply HQP|done].
Qed.
Lemma emitted_app (P Q : list Name → Prop) rs l es fs :
  emitted P rs l es → emitted Q rs l fs → (∀ cs, P cs → ¬ Q cs) →
  emitted (λ cs, P cs ∨ Q cs) rs l (es ++ fs).
Proof.
  intros [H1 H2 H3 H4 H5 H6] [G1 G2 G3 G4 G5 G6] Hdis.
  split; try (apply Forall_app; done); [apply Forall_app; split| |].
  - eapply Forall_impl; [exact H2|]. intros e (cs & HP & Hr). eauto.
  - eapply Forall_impl; [exact G2|]. intros e (cs & HP & Hr). eauto.
  - rewrite fmap_app. apply NoDup_app. split_and!; [done| |done].
    intros x (e & -> & He)%list_elem_of_fmap (f & E & Hf)%list_elem_of_fmap.
    rewrite Forall_forall in H2, G2. destruct (H2 e He) as (cs & HP & Hne & Hp & Hn).
    destruct (G2 f Hf) as (ds & HQ & Hne' & Hp' & Hn'). rewrite Hn, Hn' in E.
    apply join_names_inj in E; [|done..]. apply app_inv_head in E as ->. by apply (Hdis ds).
  - intros cs d a [HP|HQ] Hf.
    + destruct (H6 cs d a HP Hf) as (e & He & Hr). exists e. rewrite elem_of_app. auto.
    + destruct (G6 cs d a HQ Hf) as (e & He & Hr). exists e. rewrite elem_of_app. auto.
Qed.
(** The entries of a child, seen from the directory. *)
Lemma emitted_child rs l n es :
  emitted (λ _, True) (rs ++ [n]) (l ++ [n]) es →
  emitted (λ cs, ∃ cs', cs = n :: cs') rs l es.
Proof.
  intros [H1 H2 H3 H4 H5 H6]. split; [done| |done..|].
  - eapply Forall_impl; [exact H2|]. intros e (cs & _ & Hr). rewrite <- app_assoc in Hr.
    exists (n :: cs). split; [eauto|done].
  - intros cs d a [cs' ->] Hf. specialize (H6 cs' d a I). rewrite <- !app_assoc in H6. by apply H6.
Qed.
(** Nothing lies below a link. *)
Lemma emitted_link P rs l g l' es :
  T0 !! l = Some (Link g) → emitted P rs l' es → emitted (λ _, True) rs l es.
Proof.
  intros Hl [H1 H2 H3 H4 H5 H6]. split; [done| |done..|].
  - eapply Forall_impl; [exact H2|]. intros e (cs & _ & Hr). by exists cs.
  - intros [|n cs] d a _ Hf; [rewrite app_nil_r in Hf; congruence|].
    apply (below_needs_dir T0 W) in Hf as [b Hb]. congruence.
Qed.

(** *** One entry *)
Definition stat_ok (m : FsMetadata) : Prop :=
  0 ≤ st_uid m ∧ 0 ≤ st_gid m
  ∧ ∀ t1 t2 t3, st_times m = (t1, t2, t3) → t1 < 2 ^ 63 ∧ t2 < 2 ^ 63 ∧ t3 < 2 ^ 63.
Lemma stat_archivable l k m :
  archivable → within l → T0 !! l = Some (st_node m) →
  (st_uid m, st_gid m) = owner_of l (st_node m) → st_times m = times_of k (st_node m) → stat_ok m.
Proof.
  intros A [cs ->] Hl Ho Ht. pose proof (ar_owner A cs _ Hl) as Hw. rewrite <- Ho in Hw. cbn [fst snd] in Hw.
  destruct Hw. split_and!; [done..|]. intros t1 t2 t3 E. rewrite Ht in E. by eapply (ar_times A).
Qed.
Lemma st_mode_fits m : 0 ≤ st_mode m.
Proof.
  unfold st_mode. destruct (st_node m); apply Z.lor_nonneg; (split; [done|]);
    first [done|apply Z.land_nonneg; by right].
Qed.
Lemma when_kept_Some {A} b (r : result SarError.t A) o v :
  when_kept b r = Ok o → o = Some v → r = Ok v.
Proof. destruct b; cbn; [|by intros [= <-]]. destruct r; cbn; [|done..]. by intros [= <-] [= ->]. Qed.
Lemma build_no_panic name bs kind m : no_panic (build_entry_input name bs kind m options).
Proof.
  unfold build_entry_input, when_kept, entry_permissions, entry_owner, entry_timestamps. np.
Qed.
Lemma built_entry name bs kind m e :
  build_entry_input name bs kind m options = Ok e →
  ArchiveWriter.in_name e = name ∧ ArchiveWriter.in_payload e = bs
  ∧ ArchiveWriter.in_kind e = Some kind ∧ ArchiveWriter.in_delta e = None
  ∧ (stat_ok m → Utf8.from_utf8 name = true → ArchiveRoundTrip.input_typed e)
  ∧ ArchiveWriter.in_path e = None.
Proof.
  unfold build_entry_input. intros (p & Hp & (o & Ho & (t & Ht & [= <-])%bind_Ok)%bind_Ok)%bind_Ok.
  split_and!; [done..| |done]. intros (Hu & Hg & Htm) Hn. split; cbn; try done.
  - intros v E. eapply when_kept_Some in Hp; [|done]. apply ok_or_Ok, try_from_Some in Hp as [-> Hv].
    split; [apply st_mode_fits|done].
  - intros v E. eapply when_kept_Some in Ho; [|done].
    apply bind_Ok in Ho as (u & [-> Hu']%ok_or_Ok%try_from_Some & Ho).
    apply bind_Ok in Ho as (g & [-> Hg']%ok_or_Ok%try_from_Some & [= <-]).
    apply ArchiveRoundTrip.lor_fits; [done|unfold fits; lia|].
    rewrite Z.shiftl_mul_pow2 by done. unfold fits. lia.
  - intros t1 t2 t3 E. eapply when_kept_Some in Ht; [|done]. unfold entry_timestamps in Ht.
    destruct (st_times m) as [[u1 u2] u3]. destruct (Htm _ _ _ eq_refl) as (B1 & B2 & B3).
    unfold unsigned in Ht. apply bind_Ok in Ht as (x1 & E1%ok_or_Ok & Ht).
    apply bind_Ok in Ht as (x2 & E2%ok_or_Ok & Ht). apply bind_Ok in Ht as (x3 & E3%ok_or_Ok & [= <- <- <-]).
    destruct (Z.leb_spec 0 u1), (Z.leb_spec 0 u2), (Z.leb_spec 0 u3); try done.
    simplify_eq. unfold fits. lia.
Qed.

(** What an entry stands for: its name, and the node behind it. *)
Definition stands_for (kind : Metadata.EntryKind) (payload : list byte) : Prop :=
  match kind with
  | Metadata.RegularFile => ∃ k a, within k ∧ T0 !! k = Some (File payload a)
  | Metadata.Directory => symlink_policy options = Follow ∨ ∃ k, k ≠ [] ∧ is_dir_at T0 (src ++ k)
  | _ => True
  end.
Lemma emitted_single (P : list Name → Prop) rs l kind bs m e :
  build_entry_input (join_names rs) bs kind m options = Ok e →
  stat_ok m → Forall portable rs → rs ≠ [] → len bs < 2 ^ 63 → P [] → stands_for kind bs →
  (∀ cs d a, P cs → T0 !! (l ++ cs) = Some (File d a) →
     kind = Metadata.RegularFile ∧ cs = [] ∧ d = bs) →
  emitted P rs l [e].
Proof.
  intros (Hn & Hp & Hk & _ & Ht & Hpath)%built_entry Hm Hrs Hne Hl HP Hs Hall.
  split; try apply Forall_singleton.
  - rewrite Hp. split; [|done]. apply Ht; [done|]. by apply join_names_text.
  - exists []. rewrite app_nil_r. done.
  - apply Forall_singleton, NoDup_singleton.
  - rewrite Hk, Hp. intros [= ->]. exact Hs.
  - rewrite Hk. intros [= ->]. exact Hs.
  - intros cs d a HPc Hf. destruct (Hall cs d a HPc Hf) as (-> & -> & ->). exists e.
    rewrite app_nil_r. split; [by apply list_elem_of_singleton|]. done.
Qed.

(** *** Adding entries *)
Definition rel_ok (rel : option Path) (rs : list Name) : Prop :=
  match rel with
  | None => rs = []
  | Some q => q = {| is_absolute := false; pieces := rs |} ∧ rs ≠ []
  end.
Record added (st st' : Traversal) (d' : list byte) (es : list EntryInput) : Prop := {
  ad_output : d' = ArchiveWriter.output (writer st');
  ad_active : active_follow_dirs st' = active_follow_dirs st;
  ad_recovery : ArchiveWriter.archive_recovery (writer st') = None;
  ad_entries : WriteRead.add_entries random es (writer st) = (writer st', Ok ()) }.
#[local] Abbreviation runs := (runs T0 O a0).
#[local] Abbreviation holding := (holding T0 O a0).

Lemma added_app st st1 st2 d1 d2 es fs :
  added st st1 d1 es → added st1 st2 d2 fs → added st st2 d2 (es ++ fs).
Proof.
  intros [_ A1 _ E1] [O2 A2 R2 E2]. split; [done|by rewrite A2|done|by eapply add_entries_app].
Qed.
Lemma added_nil st :
  ArchiveWriter.archive_recovery (writer st) = None →
  added st st (ArchiveWriter.output (writer st)) [].
Proof. by split. Qed.
Lemma runs_add_entry e st :
  ArchiveWriter.in_delta e = None → ArchiveWriter.archive_recovery (writer st) = None →
  runs (add_entry random O e st) (ArchiveWriter.output (writer st)) (λ st' d', added st st' d' [e]).
Proof.
  intros Hd Hr. unfold add_entry. eapply run_bind.
  { apply runs_sink; [done|by apply appends_add_entry|done]. }
  intros [wr x] d' (Hm & -> & Hr'). apply run_ret. split; [done..|].
  cbn [WriteRead.add_entries writer fst] in *. unfold mbind, ArchiveWriter.writer_bind. by rewrite Hm.
Qed.
Lemma required_name_ok rel rs name :
  rel_ok rel rs → Forall portable rs → required_name rel = Ok name → name = join_names rs ∧ rs ≠ [].
Proof.
  destruct rel as [q|]; [|done]. intros [-> Hne] Hp. unfold required_name. cbn [ok_or mbind result_bind].
  rewrite archive_name_portable by done. by intros [= <-].
Qed.
Lemma required_name_no_panic rel : no_panic (required_name rel).
Proof. unfold required_name, archive_name_from_path. np. Qed.
Lemma runs_add_file p rel m st l2 :
  resolve T0 true p = Ok l2 → ArchiveWriter.archive_recovery (writer st) = None →
  runs (add_file random O options p rel m st) (ArchiveWriter.output (writer st))
    (λ st' d', ∃ e name bs a, added st st' d' [e] ∧ required_name rel = Ok name
       ∧ holding (ArchiveWriter.output (writer st)) !! l2 = Some (File bs a)
       ∧ build_entry_input name bs Metadata.RegularFile m options = Ok e).
Proof.
  intros Hl Hr. unfold add_file. apply runs_value; [apply required_name_no_panic|]. intros name Hn.
  eapply run_bind; [apply runs_io, runs_read_file; done|].
  intros bs d' (-> & l & a & Hl' & Hf). rewrite Hl in Hl'. injection Hl' as <-.
  apply runs_value; [apply build_no_panic|]. intros e He.
  eapply runs_weaken; [apply runs_add_entry; [by apply built_entry in He as (_ & _ & _ & ? & _)|done]|].
  intros st' d' Ha. by exists e, name, bs, a.
Qed.
Lemma runs_add_symlink p rel m st l :
  resolve T0 false p = Ok l → ArchiveWriter.archive_recovery (writer st) = None →
  runs (add_symlink_entry random O options p rel m st) (ArchiveWriter.output (writer st))
    (λ st' d', ∃ e name g, added st st' d' [e] ∧ required_name rel = Ok name
       ∧ T0 !! l = Some (Link g) ∧ build_entry_input name g Metadata.Symlink m options = Ok e).
Proof.
  intros Hl Hr. unfold add_symlink_entry. apply runs_value; [apply required_name_no_panic|]. intros name Hn.
  eapply run_bind; [apply runs_io, runs_read_link; done|].
  intros g d' (-> & l' & Hl' & Hf). rewrite Hl in Hl'. injection Hl' as <-.
  case_match; [apply run_throw|]. apply runs_value; [apply build_no_panic|]. intros e He.
  eapply runs_weaken; [apply runs_add_entry; [by apply built_entry in He as (_ & _ & _ & ? & _)|done]|].
  intros st' d' Ha. by exists e, name, g.
Qed.

(** *** Directories *)
Definition scope (rel : option Path) (rs : list Name) (l : Loc) : Prop :=
  archivable ∧ within l ∧ Forall portable rs ∧ rel_ok rel rs
  ∧ (rel = None ∨ symlink_policy options = Follow ∨ l ≠ src).
Definition walked (P : list Name → Prop) (rel : option Path) (l : Loc) (st st' : Traversal)
    (d' : list byte) : Prop :=
  ∃ es, added st st' d' es ∧ ∀ rs, scope rel rs l → emitted P rs l es.

Definition child_rel (rel : option Path) (n : Name) : option Path :=
  Some (match rel with Some prefix => join prefix n | None => path_of n end).
Lemma scope_child rel rs l n v :
  scope rel rs l → T0 !! (l ++ [n]) = Some v → scope (child_rel rel n) (rs ++ [n]) (l ++ [n]).
Proof.
  intros (A & [k ->] & Hp & Hrel & _) Hn. rewrite <- app_assoc in *.
  pose proof (ar_names A _ _ Hn) as [_ Hpn]%Forall_app. rewrite Forall_singleton in Hpn.
  assert (Hpl : plain n) by apply Hpn. split_and!; [done|by exists (k ++ [n])|..].
  - apply Forall_app. split; [done|]. by apply Forall_singleton.
  - unfold child_rel. destruct rel as [q|]; cbn in *.
    + destruct Hrel as [-> _]. by rewrite join_relative; [split; [|destruct rs]|].
    + rewrite Hrel, path_of_plain by done. done.
  - right. right. intros E. rewrite <- (app_nil_r src) in E at 2. apply app_inv_head in E. by destruct k.
Qed.

Section visit.
Context (visit : Path → option Path → Traversal → M SarError.t Traversal) (act : gset Path).

Definition visits (l : Loc) : Prop := ∀ p rel st,
  resolve T0 false p = Ok l → ArchiveWriter.archive_recovery (writer st) = None →
  active_follow_dirs st = act →
  runs (visit p rel st) (ArchiveWriter.output (writer st)) (walked (λ _, True) rel l st).

Lemma runs_children dir rel l names :
  resolve T0 false dir = Ok l → is_dir_at T0 l → NoDup names →
  (∀ n, n ∈ names → is_Some (T0 !! (l ++ [n])) ∧ visits (l ++ [n])) →
  ∀ st, ArchiveWriter.archive_recovery (writer st) = None → active_follow_dirs st = act →
  runs (visit_children visit dir rel names st) (ArchiveWriter.output (writer st))
    (walked (λ cs, ∃ n cs', n ∈ names ∧ cs = n :: cs') rel l st).
Proof.
  intros Hl Hd Hnd Hv. induction Hnd as [|n names Hn Hnd IH]; intros st Hr Ha; cbn [visit_children].
  - apply run_ret. exists []. split; [by apply added_nil|]. intros rs _. apply emitted_nil.
    intros cs d a (n & cs' & Hin & _). by apply not_elem_of_nil in Hin.
  - destruct (Hv n ltac:(by left)) as [[v Hsome] Hvn].
    assert (Hp : plain n).
    { apply (names_plain T0 W) in Hsome. apply Forall_app in Hsome as [_ Hs]. by rewrite Forall_singleton in Hs. }
    eapply run_bind; [apply Hvn; [by apply resolve_child; [..|left]|done|done]|].
    intros st1 d1 (es & Had & Hem). pose proof Had as [-> Ha1 Hr1 _].
    eapply runs_weaken; [apply (IH ltac:(intros; apply Hv; by right) st1 Hr1); by rewrite Ha1|].
    intros st2 d2 (fs & Had2 & Hem2). exists (es ++ fs). split; [by eapply added_app|]. intros rs Hs.
    eapply emitted_widen; [apply emitted_app; [apply emitted_child, Hem; by eapply scope_child|by apply Hem2|]|..].
    + intros cs (cs' & ->) (n' & cs'' & Hin & [= -> ->]). done.
    + intros cs [(cs' & ->)|(n' & cs' & Hin & ->)]; [exists n, cs'; split; [by left|done]|].
      exists n', cs'. split; [by right|done].
    + intros cs d a (n' & cs' & Hin & ->) _. apply elem_of_cons in Hin as [->|Hin]; [left|right]; eauto.
Qed.

Lemma runs_directory dir rel m st l a :
  resolve T0 false dir = Ok l → T0 !! l = Some (Dir a) → (archivable → within l → stat_ok m) →
  (∀ n, is_Some (T0 !! (l ++ [n])) → visits (l ++ [n])) →
  ArchiveWriter.archive_recovery (writer st) = None → active_follow_dirs st = act →
  runs (traverse_directory random O options visit dir rel m st) (ArchiveWriter.output (writer st))
    (walked (λ _, True) rel l st).
Proof.
  intros Hl Hd Hm Hv Hr Ha. unfold traverse_directory.
  eapply (run_bind _ _ _ _ _ _ (walked (λ cs, cs = []) rel l st)).
  { destruct rel as [q|].
    - apply runs_value; [unfold archive_name_from_path; np|]. intros name Hn.
      apply runs_value; [apply build_no_panic|]. intros e He.
      eapply runs_weaken; [apply runs_add_entry; [by apply built_entry in He as (_ & _ & _ & ? & _)|done]|].
      intros st' d' Had. exists [e]. split; [done|]. intros rs (A & [k ->] & Hp & [-> Hne] & Hor).
      rewrite archive_name_portable in Hn by done. injection Hn as <-.
      eapply emitted_single; [done|by apply Hm; [|exists k]|done..| |].
      + destruct Hor as [[=]|[Hor|Hor]]; [by left|right]. exists k. split; [|by exists a].
        intros ->. by rewrite app_nil_r in Hor.
      + intros cs d b -> Hf. rewrite app_nil_r in Hf. congruence.
    - apply run_ret. exists []. split; [by apply added_nil|]. intros rs _. apply emitted_nil.
      intros cs d b -> Hf. rewrite app_nil_r in Hf. congruence. }
  intros st1 d1 (es & Had & Hem). pose proof Had as [-> Ha1 Hr1 _].
  eapply run_bind; [apply runs_io, runs_read_dir; done|].
  intros ns d' (-> & Hnd & l' & Hl' & _ & Hns).
  assert (l' = l) as ->.
  { unfold resolve in *. rewrite (walk_follow T0 _ _ _ _ Hl) in Hl'; [by injection Hl'|].
    intros [g Hg]. congruence. }
  assert (Hnd' : NoDup (sort_by_name ns)) by (by rewrite sort_by_name_perm).
  assert (Hv' : ∀ n, n ∈ sort_by_name ns → is_Some (T0 !! (l ++ [n])) ∧ visits (l ++ [n])).
  { intros n. rewrite sort_by_name_perm, Hns. auto. }
  assert (Ha' : active_follow_dirs st1 = act) by (by rewrite Ha1).
  eapply runs_weaken.
  - exact (runs_children dir rel l _ Hl (ex_intro _ a Hd) Hnd' Hv' st1 Hr1 Ha').
  - intros st2 d2 (fs & Had2 & Hem2). exists (es ++ fs). split; [by eapply added_app|]. intros rs Hs.
    eapply emitted_widen; [by apply emitted_app; [apply Hem|apply Hem2|intros cs -> (? & ? & _ & [=])]|done|].
    intros [|n cs] d b _ Hf; [by left|right]. exists n, cs. split; [|done].
    rewrite sort_by_name_perm, Hns. by eapply prefix_exists.
Qed.
End visit.

(** *** The recursion *)

(** The levels of recursion below [l]: the rest of the tree for every directory that may still
    be followed. *)
Definition needed (act : gset Path) (l : Loc) : nat :=
  (size T0 - size act) * S (tree_depth T0) + (tree_depth T0 - length l).
Definition active_ok (act : gset Path) : Prop :=
  ∀ q, q ∈ act → is_absolute q = true ∧ is_Some (T0 !! pieces q).
Lemma active_size act : active_ok act → (size act ≤ size T0)%nat.
Proof.
  intros Ha.
  assert (Hlen : (length (pieces <$> elements act) ≤ length (map_to_list T0).*1)%nat).
  { apply submseteq_length, NoDup_submseteq.
    - apply NoDup_fmap_2_strong; [|apply NoDup_elements].
      intros [] [] H1%elem_of_elements%Ha H2%elem_of_elements%Ha E. cbn in *. naive_solver.
    - intros l (q & -> & [_ [n Hn]]%elem_of_elements%Ha)%list_elem_of_fmap.
      apply list_elem_of_fmap. exists (pieces q, n). split; [done|]. by apply elem_of_map_to_list. }
  rewrite !length_fmap in Hlen. unfold size at 1, set_size. cbn. by rewrite length_map_to_list in Hlen.
Qed.
Lemma needed_child act l n :
  is_Some (T0 !! (l ++ [n])) → (needed act (l ++ [n]) < needed act l)%nat.
Proof.
  intros [v Hv]. apply depth_bound in Hv. rewrite length_app in Hv. cbn in Hv.
  unfold needed. rewrite length_app. cbn. lia.
Qed.
Lemma needed_follow act q l l' n :
  active_ok ({[ q ]} ∪ act) → q ∉ act → is_Some (T0 !! (l' ++ [n])) →
  (needed ({[ q ]} ∪ act) (l' ++ [n]) < needed act l)%nat.
Proof.
  intros Ha%active_size Hq [v Hv]. unfold needed. rewrite size_union in * by set_solver.
  rewrite size_singleton in *. apply depth_bound in Hv. rewrite length_app. cbn. nia.
Qed.

Lemma scope_follow rel rs l l2 :
  symlink_policy options = Follow → within l2 → scope rel rs l → scope rel rs l2.
Proof. intros Hf Hw (A & _ & Hp & Hrel & _). split_and!; auto. Qed.
Lemma runs_follow visit p rel st l g :
  symlink_policy options = Follow → T0 !! l = Some (Link g) →
  ArchiveWriter.archive_recovery (writer st) = None → active_ok (active_follow_dirs st) →
  (∀ act l', active_ok act → is_Some (T0 !! l') → (needed act l' < needed (active_follow_dirs st) l)%nat →
     visits visit act l') →
  runs (add_followed_symlink random O root options visit p rel st) (ArchiveWriter.output (writer st))
    (walked (λ _, True) rel l st).
Proof.
  intros Hpol Hg Hr Ha Hv. unfold add_followed_symlink.
  eapply run_bind; [apply runs_attempt, runs_canonicalize; done|].
  intros [q|e|] d' Hq; [|apply runs_value; [done|by intros ? [=]]|done].
  destruct Hq as (-> & l2 & -> & Hl2 & Hs2). cbn [map_err]. apply runs_value; [done|]. intros q [= <-].
  destruct (path_starts_with _ _) eqn:Eroot; cbn [negb]; [|apply run_throw]. apply Hroot in Eroot as Hw2.
  eapply run_bind; [apply runs_io, runs_stat; done|].
  intros m d' (-> & l' & k & Hl' & Hnode & Hown & Htimes). rewrite Hl2 in Hl'. injection Hl' as <-.
  assert (Hstat : archivable → within l2 → stat_ok m).
  { intros A Hw. apply (stat_archivable l2 k); [done|done| |done..].
    rewrite <- Hnode. symmetry. apply holding_ne. intros ->. by apply (ar_apart A). }
  set (q := {| is_absolute := true; pieces := l2 |}) in *.
  destruct (st_node m) as [a|bs a|g'] eqn:En; [| |apply run_throw].
  - apply (holding_dir T0 O a0 HO) in Hnode. case_bool_decide as Hin; [apply run_throw|].
    set (st1 := {| writer := writer st; active_follow_dirs := {[ q ]} ∪ active_follow_dirs st |}).
    assert (Hact : active_ok ({[ q ]} ∪ active_follow_dirs st)).
    { intros x [->%elem_of_singleton|Hx]%elem_of_union; [by split|by apply Ha]. }
    eapply run_bind.
    { apply (runs_directory visit ({[ q ]} ∪ active_follow_dirs st) q rel m st1 l2 a);
        [|exact Hnode|exact Hstat| |exact Hr|done].
      - by eapply resolve_canonical; [..|left].
      - intros n Hn. apply Hv; [done..|]. by apply needed_follow. }
    intros st2 d2 (es & [Ho Hac Hre Hes] & Hem). apply run_ret. exists es. split.
    + split; [done| |done..]. cbn. rewrite Hac. cbn. set_solver.
    + intros rs Hs. eapply (emitted_link _ rs l g l2); [done|]. apply Hem. by eapply scope_follow.
  - eapply runs_weaken; [by apply (runs_add_file p rel m st l2)|].
    intros st' d' (e & name & bs2 & a2 & Had & Hn & Hh & He). exists [e]. split; [done|].
    intros rs Hs. pose proof Hs as (A & Hw & Hp & Hrel & _).
    rewrite holding_ne in Hh by (intros ->; by apply (ar_apart A)).
    destruct (required_name_ok rel rs name Hrel Hp Hn) as [-> Hne].
    apply (emitted_link (λ cs, cs = []) rs l g l); [done|].
    eapply emitted_single; [done|by apply Hstat|done..|by destruct Hw2 as [k2 ->]; eapply ar_files|done|by exists l2, a2|].
    intros cs d b -> Hd. rewrite app_nil_r in Hd. congruence.
Qed.
Lemma runs_link visit p rel m st l g :
  resolve T0 false p = Ok l → T0 !! l = Some (Link g) → (archivable → within l → stat_ok m) →
  ArchiveWriter.archive_recovery (writer st) = None → active_ok (active_follow_dirs st) →
  (∀ act l', active_ok act → is_Some (T0 !! l') → (needed act l' < needed (active_follow_dirs st) l)%nat →
     visits visit act l') →
  runs (match symlink_policy options with
        | Skip => mret st
        | Follow => add_followed_symlink random O root options visit p rel st
        | Archive => add_symlink_entry random O options p rel m st
        end) (ArchiveWriter.output (writer st)) (walked (λ _, True) rel l st).
Proof.
  intros Hl Hg Hm Hr Ha Hv. destruct (symlink_policy options) eqn:Ep.
  - apply run_ret. exists []. split; [by apply added_nil|]. intros rs _.
    by eapply (emitted_link (λ _, False) rs l g l), emitted_nil.
  - by apply (runs_follow visit p rel st l g).
  - eapply runs_weaken; [by apply (runs_add_symlink p rel m st l)|].
    intros st' d' (e & name & g' & Had & Hn & Hg' & He). rewrite Hg in Hg'. injection Hg' as <-.
    exists [e]. split; [done|]. intros rs (A & Hw & Hp & Hrel & _).
    destruct (required_name_ok rel rs name Hrel Hp Hn) as [-> Hne].
    apply (emitted_link (λ cs, cs = []) rs l g l); [done|].
    eapply emitted_single; [done|by apply Hm|done..|by destruct Hw as [k2 ->]; eapply ar_links|done|done|].
    intros cs d b -> Hd. rewrite app_nil_r in Hd. congruence.
Qed.
Lemma runs_traverse fuel : ∀ p rel st,
  ArchiveWriter.archive_recovery (writer st) = None → active_ok (active_follow_dirs st) →
  (0 < fuel)%nat →
  (∀ l, resolve T0 false p = Ok l → is_Some (T0 !! l) → (needed (active_follow_dirs st) l < fuel)%nat) →
  runs (traverse_input_path random O root options fuel p rel st) (ArchiveWriter.output (writer st))
    (λ st' d', ∃ l, resolve T0 false p = Ok l ∧ is_Some (T0 !! l) ∧ walked (λ _, True) rel l st st' d').
Proof.
  induction fuel as [|fuel IH]; intros p rel st Hr Ha Hpos Hfuel; [lia|]. cbn [traverse_input_path].
  assert (Hvisit : ∀ act l, active_ok act → is_Some (T0 !! l) → (needed act l < fuel)%nat →
            visits (traverse_input_path random O root options fuel) act l).
  { intros act l Hact Hl Hn p' rel' st' Hp' Hr' <-.
    eapply runs_weaken; [apply IH; [done..|lia|]|].
    - intros l' Hl' _. rewrite Hp' in Hl'. by injection Hl' as <-.
    - intros st2 d2 (l' & Hl' & _ & Hw). rewrite Hp' in Hl'. by injection Hl' as <-. }
  eapply run_bind; [apply runs_io, runs_stat; done|].
  intros m d' (-> & l & k & Hl & Hnode & Hown & Htimes).
  assert (Hsome : is_Some (T0 !! l)) by (eapply holding_is_Some; eauto).
  specialize (Hfuel l Hl Hsome).
  assert (Hstat : archivable → within l → stat_ok m).
  { intros A Hw. apply (stat_archivable l k); [done|done| |done..].
    rewrite <- Hnode. symmetry. apply holding_ne. intros ->. by apply (ar_apart A). }
  destruct (st_node m) as [a|bs a|g] eqn:En.
  - apply (holding_dir T0 O a0 HO) in Hnode.
    eapply runs_weaken; [eapply (runs_directory _ (active_follow_dirs st) p rel m st l a); try done|].
    + intros n Hn. apply Hvisit; [done..|]. pose proof (needed_child (active_follow_dirs st) l n Hn). lia.
    + intros st' d' Hw. by exists l.
  - assert (Hf : ∃ bs' a', T0 !! l = Some (File bs' a')).
    { destruct (decide (l = O)) as [->|Hne]; [eauto|]. rewrite holding_ne in Hnode by done. eauto. }
    destruct Hf as (bs' & a' & Hf).
    assert (Ht : resolve T0 true p = Ok l).
    { apply walk_follow; [done|]. intros [g Hg]. congruence. }
    eapply runs_weaken; [by apply (runs_add_file p rel m st l)|].
    intros st' d' (e & name & bs2 & a2 & Had & Hn & Hh & He). exists l.
    split; [exact Hl|]. split; [exact Hsome|]. exists [e]. split; [done|]. intros rs (A & Hw & Hp & Hrel & _).
    rewrite holding_ne in Hh by (intros ->; by apply (ar_apart A)).
    destruct (required_name_ok rel rs name Hrel Hp Hn) as [-> Hne].
    eapply emitted_single; [done|by apply Hstat|done..|by destruct Hw as [k2 ->]; eapply ar_files|done|by exists l, a2|].
    intros [|n cs] d b _ Hd; [rewrite app_nil_r in Hd; by simplify_eq|].
    apply (below_needs_dir T0 W) in Hd as [c Hc]. congruence.
  - apply (holding_link T0 O a0 HO) in Hnode. eapply runs_weaken.
    { apply (runs_link _ p rel m st l g Hl Hnode Hstat Hr Ha).
      intros act l' Hact Hl' Hn. apply Hvisit; [done..|lia]. }
    intros st' d' Hw. by exists l.
Qed.
End traversal.

(** ** The command *)

(** A path as [path_of] makes it, and what a resolution that succeeds can lead to: something
    that is there, or a new name in a directory. *)
Definition path_ok (p : Path) : Prop := Forall (λ c, c = dotdot ∨ plain c) (pieces p).
Lemma path_of_ok s : path_ok (path_of s).
Proof.
  unfold path_ok, path_of. cbn [pieces]. apply Forall_forall.
  intros c [[Hn Hd] Hc]%list_elem_of_filter. destruct (decide (c = dotdot)) as [->|Hdd]; [by left|right].
  split_and!; try done. pose proof (ExtractTheorems.split_no_sep SLASH s) as Hs. rewrite Forall_forall in Hs. by apply Hs.
Qed.
Definition creatable (t : Tree) (l : Loc) : Prop := ∃ k x, l = k ++ [x] ∧ is_dir_at t k ∧ plain x.

Section places.
Context (t : Tree) (W : well_formed t).
Lemma parent_exists l n : t !! l = Some n → is_Some (t !! removelast l).
Proof.
  destruct l as [|x l _] using rev_ind; [eauto|]. rewrite removelast_last.
  intros [a Ha]%(parents_real t W). eauto.
Qed.
Lemma walk_leads n follow loc ps l :
  Forall (λ c, c = dotdot ∨ plain c) ps → is_Some (t !! loc) ∨ creatable t loc →
  is_Some (t !! []) → (walk n t follow loc ps).2 = Ok l → is_Some (t !! l) ∨ creatable t l.
Proof.
  intros Hps Hloc Hroot. revert loc ps Hps Hloc. induction n as [|n IHn]; intros loc ps Hps; revert loc;
    induction Hps as [|p rest Hp Hps IH]; intros loc Hloc; cbn [walk snd];
    try (by intros [= <-]); (destruct (t !! loc) as [[a| |]|] eqn:El; [|done..]);
    (destruct (bool_decide (p = dotdot)) eqn:Ed; cbn [visiting snd];
      [apply IH; left; by eapply parent_exists|]);
    apply bool_decide_eq_false in Ed; (destruct Hp as [|Hp]; [done|]);
    (assert (Hnext : creatable t (loc ++ [p]))
      by (exists loc, p; split; [done|]; split; [by exists a|done]));
    destruct (t !! (loc ++ [p])) as [[| |g]|] eqn:Ep; cbn [visiting snd];
    try (by apply IH; right);
    (destruct (bool_decide (rest = []) && negb follow); cbn [visiting snd];
      [by intros [= <-]; left; rewrite Ep|]); [done|].
  apply IHn.
  - apply Forall_app. split; [|done]. apply path_of_ok.
  - left. case_match; [done|by rewrite El].
Qed.
(** Making a file disturbs no resolution that succeeded. *)
Lemma walk_create O d a n follow loc ps l :
  (∀ v, t !! O = Some v → ∃ d' a', v = File d' a') →
  (walk n t follow loc ps).2 = Ok l → is_Some (t !! l) →
  (walk n (<[O := File d a]> t) follow loc ps).2 = Ok l.
Proof.
  intros HO. revert loc ps.
  assert (Hdir : ∀ k b, t !! k = Some (Dir b) → <[O := File d a]> t !! k = Some (Dir b)).
  { intros k b Hk. rewrite lookup_insert_ne; [done|]. intros <-. by destruct (HO _ Hk) as (? & ? & [=]). }
  induction n as [|n IHn]; intros loc ps; revert loc; induction ps as [|p rest IH]; intros loc Hw Hl; try done;
    cbn [walk] in *; (destruct (t !! loc) as [[b| |]|] eqn:El; [|done..]); rewrite (Hdir _ _ El);
    (destruct (bool_decide (p = dotdot)); [by apply IH|]);
    (destruct (decide (loc ++ [p] = O)) as [<-|Hne];
      [rewrite lookup_insert_eq; cbn [visiting snd];
       destruct (t !! (loc ++ [p])) as [v|] eqn:Ep;
         [destruct (HO v eq_refl) as (d' & a' & ->); by apply IH
         |cbn [visiting snd] in Hw; by apply IH]
      |rewrite lookup_insert_ne by done]);
    destruct (t !! (loc ++ [p])) as [[| |g]|] eqn:Ep; cbn [visiting snd] in *; try (by apply IH); try done;
    case_match; cbn [visiting snd] in *; try done. by apply IHn.
Qed.
Definition takes_file (O : Loc) : Prop :=
  (∀ v, t !! O = Some v → ∃ d a, v = File d a) ∧ (is_Some (t !! O) ∨ creatable t O).
Lemma takes_file_dir O d a k : takes_file O → is_dir_at t k → is_dir_at (<[O := File d a]> t) k.
Proof.
  intros [HO _] [b Hb]. exists b. rewrite lookup_insert_ne; [done|]. intros <-.
  by destruct (HO _ Hb) as (? & ? & [=]).
Qed.
Lemma well_formed_create O d a : takes_file O → well_formed (<[O := File d a]> t).
Proof.
  intros HO. pose proof HO as [_ Hex]. split.
  - intros k n. destruct (decide (k = O)) as [->|Hk]; [intros _|rewrite lookup_insert_ne by done; apply names_plain, W].
    destruct Hex as [[v Hv]|(k & x & -> & [b Hb] & Hx)]; [by eapply names_plain|].
    apply Forall_app. split; [by eapply names_plain|by apply Forall_singleton].
  - intros k x n Hn. apply (takes_file_dir O d a k HO). destruct (decide (k ++ [x] = O)) as [<-|Hk].
    + destruct Hex as [[v Hv]|(k' & x' & E & Hd & _)]; [by eapply parents_real|].
      by apply app_inj_tail in E as [-> _].
    + rewrite lookup_insert_ne in Hn by done. by eapply parents_real.
Qed.
End places.

Section command.
Context {B : Bitflags} {Comp : Compression.Compressors} {Ciph : Crypto.Ciphers} {K : Kms.Kdfs}.
Context {H : Host} {R : Directories} {RL : DirectoriesLaws} {T : Extract.Terminal}.
Context (random : nat → Z → list byte) (random_salt : option (list byte)).
Context (random_fills : ∀ k n, 0 ≤ n → len (random k n) = n).

(** The working directory is there, and the path is one. *)
Definition can_start (output : Path) (t : Tree) : Prop :=
  well_formed t ∧ is_dir_at t cwd ∧ path_ok output.
Lemma root_exists t l n : well_formed t → t !! l = Some n → is_Some (t !! []).
Proof.
  intros W Hl. destruct l as [|x l]; [eauto|]. apply (prefix_exists t W [] _ x) in Hl as [v Hv].
  apply (parents_real t W []) in Hv as [a Ha]. eauto.
Qed.
Lemma file_create_outcome output w :
  can_start output (tree w) →
  let '(w1, r) := file_create output w in
  match r with
  | Ok o => ∃ a, resolve (tree w) true output = Ok o ∧ takes_file (tree w) o
                 ∧ tree w1 = <[o := File [] a]> (tree w)
  | Err _ => tree w1 = tree w
  | Panic => False
  end.
Proof.
  intros (W & [c Hc] & Hp). unfold file_create, syscall. destruct (fault (calls w)); [done|].
  destruct (resolve (tree w) true output) as [l|e|] eqn:El; cbn [mbind result_bind]; [|done|].
  2: { unfold resolve in El. by apply walk_no_panic in El. }
  assert (Hex : is_Some (tree w !! l) ∨ creatable (tree w) l).
  { apply (walk_leads (tree w) W MAX_LINKS true (base output) (pieces output)); [done| | |exact El].
    - left. unfold base. case_match; [by eapply root_exists|by rewrite Hc].
    - by eapply root_exists. }
  destruct (tree w !! l) as [[|d a|]|] eqn:En; try done; eexists; (split; [done|]); (split; [|done]).
  - split; [intros v Hv; rewrite En in Hv; injection Hv as <-; eauto|by rewrite En].
  - split; [by rewrite En|]. right. by destruct Hex as [[? ?]|].
Qed.

Lemma runs_traverse_all T0 O a0 src root (options : CreateMetadataOptions) input rel wr
    (HO : T0 !! O = Some (File [] a0)) (W : well_formed T0)
    (Hroot : ∀ l, path_starts_with {| is_absolute := true; pieces := l |} root = true → within src l) :
  ArchiveWriter.archive_recovery wr = None → ArchiveWriter.output wr = [] →
  runs T0 O a0 (traverse random O root input rel options wr) []
    (λ st' d', ∃ l, resolve T0 false input = Ok l
       ∧ walked random T0 O src options (λ _, True) rel l {| writer := wr; active_follow_dirs := ∅ |} st' d').
Proof.
  intros Hr Hout w Hw. unfold traverse. replace (tree w) with T0.
  2: { rewrite Hw. unfold holding. by rewrite insert_id. }
  pose proof (runs_traverse random random_fills T0 O a0 HO W src root options Hroot (traversal_fuel T0) input rel
    {| writer := wr; active_follow_dirs := ∅ |} Hr) as Ht. cbn [writer active_follow_dirs] in Ht. rewrite Hout in Ht.
  assert (Hact : active_ok T0 ∅) by (intros q Hq; by apply not_elem_of_empty in Hq).
  assert (Hfuel : ∀ l, (needed T0 ∅ l < traversal_fuel T0)%nat).
  { intros l. unfold needed, traversal_fuel. rewrite size_empty. nia. }
  specialize (Ht Hact ltac:(unfold traversal_fuel; lia) ltac:(auto) w Hw).
  destruct (traverse_input_path _ _ _ _ _ _ _ _ w) as [w' r]. destruct Ht as (Hp & d' & Hd & Hq).
  split; [done|]. exists d'. split; [done|]. intros st Hst. destruct (Hq st Hst) as (l & Hl & _ & Hwk). eauto.
Qed.

(** What a run that succeeds has written. *)
Definition wrote (T0 : Tree) (O : Loc) (input : Path) (options : CreateMetadataOptions)
    (wr : ArchiveWriter.ArchiveWriter) (es : list EntryInput) (d' : list byte) : Prop :=
  (∃ wr1 wr2 summary, WriteRead.add_entries random es wr = (wr1, Ok ())
     ∧ ArchiveWriter.finish wr1 = (wr2, Ok summary) ∧ d' = ArchiveWriter.output wr2)
  ∧ ∀ src, resolve T0 false input = Ok src → is_dir_at T0 src → archivable T0 O src →
      emitted T0 src options (λ _, True) [] src es.
Lemma runs_write_archive T0 O a0 input (options : CreateMetadataOptions) wr
    (HO : T0 !! O = Some (File [] a0)) (W : well_formed T0) :
  ArchiveWriter.archive_recovery wr = None → ArchiveWriter.output wr = [] →
  runs T0 O a0 (write_archive random O input options wr) []
    (λ _ d', ∃ es, wrote T0 O input options wr es d').
Proof.
  intros Hr Hout. unfold write_archive.
  eapply run_bind; [apply runs_io, runs_stat; done|]. intros m d' (-> & l & k & Hl & Hnode & _).
  apply runs_value; [apply no_panic_ok_or|]. intros name _.
  assert (Hend : ∀ es st d', added random {| writer := wr; active_follow_dirs := ∅ |} st d' es →
    (∀ src, resolve T0 false input = Ok src → is_dir_at T0 src → archivable T0 O src →
       emitted T0 src options (λ _, True) [] src es) →
    runs T0 O a0 (_ ← on_sink O ArchiveWriter.finish (writer st); mret ()) d'
      (λ _ d', ∃ es, wrote T0 O input options wr es d')).
  { intros es st d' [-> _ Hr1 Hes] Hem. eapply run_bind; [apply runs_sink; [done|apply appends_finish|done]|].
    intros [wr2 sm] d2 (Hf & -> & _). apply run_ret. exists es. split; [|done]. by exists (writer st), wr2, sm. }
  destruct (st_node m) as [a|bs a|g] eqn:En.
  - apply (holding_dir T0 O a0 HO) in Hnode.
    eapply run_bind.
    { eapply run_bind; [apply runs_io, runs_canonicalize; done|].
      intros q d' (-> & l' & -> & Hl' & _).
      assert (l' = l) as ->.
      { unfold resolve in *. rewrite (walk_follow T0 _ _ _ _ Hl) in Hl'; [by injection Hl'|].
        intros [g Hg]. congruence. }
      exact (runs_traverse_all T0 O a0 l _ options input None wr HO W
        (λ l' Hs, starts_with_root l' l Hs) Hr Hout). }
    intros st d' (l' & Hl' & es & Had & Hem). apply (Hend es); [done|]. intros src Hsrc Hd A.
    rewrite Hl in Hsrc, Hl'. injection Hsrc as ->. injection Hl' as ->. apply Hem.
    split_and!; [done|exists []; by rewrite app_nil_r|constructor|done|by left].
  - eapply run_bind.
    { exact (runs_traverse_all T0 O a0 [] _ options input _ wr HO W (λ l' _, ex_intro _ l' eq_refl) Hr Hout). }
    intros st d' (l' & Hl' & es & Had & _). apply (Hend es); [done|]. intros src Hsrc [b Hb] _.
    rewrite Hl in Hsrc. injection Hsrc as <-. apply (holding_dir T0 O a0 HO (@nil byte)) in Hb. congruence.
  - apply (holding_link T0 O a0 HO) in Hnode. eapply run_bind.
    { eapply run_bind; [apply runs_attempt, runs_canonicalize; done|].
      intros [q|e|] d' Hq; [|apply runs_value; [done|by intros ? [=]]|done].
      destruct Hq as (-> & _). cbn [map_err]. apply runs_value; [done|]. intros q' [= <-].
      exact (runs_traverse_all T0 O a0 [] _ options input _ wr HO W (λ l' _, ex_intro _ l' eq_refl) Hr Hout). }
    intros st d' (l' & Hl' & es & Had & _). apply (Hend es); [done|]. intros src Hsrc [b Hb] _.
    rewrite Hl in Hsrc. injection Hsrc as <-. congruence.
Qed.

Lemma new_writer o c kp wr :
  ArchiveWriter.opt_archive_recovery o = None →
  ArchiveWriter.new_with_compression_key_provider_and_cd_metadata o c kp [] = Ok wr →
  ArchiveWriter.archive_recovery wr = None ∧ ArchiveWriter.output wr = [].
Proof.
  intros Hr (_ & _ & Hf & _ & _ & _ & Hn & _)%(WriteRead.new_Ok _ _ _ _ Hr). split; [done|]. apply Hf.
Qed.
Lemma new_no_panic o c pw :
  ArchiveWriter.opt_archive_recovery o = None →
  no_panic (ArchiveWriter.new_with_compression_key_provider_and_cd_metadata o c
    (Extract.CliKeyProvider <$> pw) []).
Proof.
  intros Hr. unfold ArchiveWriter.new_with_compression_key_provider_and_cd_metadata. rewrite Hr.
  repeat (case_match; [done|]). apply no_panic_bind.
  - destruct (ArchiveWriter.encryption o) as [e|]; [|done]. apply no_panic_bind; [|by intros [] _].
    unfold ArchiveWriter.resolve_encryption. apply no_panic_bind.
    { apply no_panic_map_err, Crypto.validate_encr_algo_id_no_panic. }
    intros _ _. case_match; [done|]. apply no_panic_bind; [apply no_panic_ok_or|].
    intros p Hp%ok_or_Ok. apply no_panic_bind; [|done]. apply no_panic_map_err.
    eapply EntryDecode.resolve_cek_no_panic; [|exact Hp]. destruct pw as [pw|]; [|done]. cbn in Hp |- *.
    apply ExtractTheorems.cli_provider_total.
  - intros [[[f cek] al] kms] _. do 2 (apply no_panic_bind; [done|intros _ _]).
    apply no_panic_bind; [apply validate_global_flags_no_panic|done].
Qed.

(** The writer the command makes: its options, compression and key provider. *)
Definition settings_of (options : CreateCommandOptions)
    (encryption : option (ArchiveWriter.EncryptionSettings * list byte)) :=
  (writer_options options (fst <$> encryption),
   {| ArchiveWriter.comp_algo := algo_id (compression options);
      ArchiveWriter.level := level (compression options) |},
   (λ sp, Extract.CliKeyProvider (Some sp.2)) <$> encryption).
Definition written_by (options : CreateCommandOptions)
    (encryption : option (ArchiveWriter.EncryptionSettings * list byte)) (es : list EntryInput)
    (wr : ArchiveWriter.ArchiveWriter) (summary : ArchiveWriter.ArchiveSummary) : Prop :=
  let '(o, c, kp) := settings_of options encryption in WriteRead.written random kp o c es wr summary.

(** The output file is made at [o], and then only its content changes. *)
Definition only_output (output : Path) (t t' : Tree) : Prop :=
  t' = t ∨ ∃ o d a, resolve t true output = Ok o ∧ takes_file t o ∧ t' = <[o := File d a]> t.
Definition created (input output : Path) (options : CreateCommandOptions) (t t' : Tree) : Prop :=
  ∃ o a encryption es wr summary,
    encryption_settings random_salt (encrypt options) (password options) = Ok encryption
    ∧ resolve t true output = Ok o ∧ takes_file t o
    ∧ t' = <[o := File (ArchiveWriter.output wr) a]> t
    ∧ written_by options encryption es wr summary
    ∧ ∀ src, resolve (<[o := File [] a]> t) false input = Ok src →
        is_dir_at (<[o := File [] a]> t) src → archivable (<[o := File [] a]> t) o src →
        emitted (<[o := File [] a]> t) src (metadata options) (λ _, True) [] src es.
Lemma encryption_no_panic e pw : no_panic (encryption_settings random_salt e pw).
Proof. unfold encryption_settings, Extract.load_password. np. Qed.
Lemma create_cases input output options w w' r :
  can_start output (tree w) →
  create_archive random random_salt input output options w = (w', r) →
  r ≠ Panic ∧ only_output output (tree w) (tree w')
  ∧ (r = Ok () → created input output options (tree w) (tree w')).
Proof.
  intros Hs. unfold create_archive. unfold mbind at 1, M_bind at 1, lift at 1. cbn [validate_create_metadata_support].
  destruct (bool_decide (encrypt options = None) && _).
  { intros [= <- <-]. split_and!; [done|by left|done]. }
  unfold mbind at 1, M_bind at 1, lift at 1.
  destruct (encryption_settings _ _ _) as [encryption|e|] eqn:Ee.
  2: { intros [= <- <-]. split_and!; [done|by left|done]. }
  2: { by apply encryption_no_panic in Ee. }
  unfold mbind at 1, M_bind at 1, io at 1. pose proof (file_create_outcome output w Hs) as Hc.
  destruct (file_create output w) as [w1 [o|e|]]; cbn [map_err]; [|intros [= <- <-]; split_and!; [done|by left|done]|done].
  destruct Hc as (a & Ho & Htake & Ht1).
  unfold mbind at 1, M_bind at 1, lift at 1.
  assert (Hrec : ArchiveWriter.opt_archive_recovery (writer_options options (fst <$> encryption)) = None) by done.
  destruct (ArchiveWriter.new_with_compression_key_provider_and_cd_metadata _ _ _ _) as [wr|e|] eqn:Ew.
  2: { intros [= <- <-]. split_and!; [done| |done]. right. by exists o, [], a. }
  2: { exfalso. destruct encryption as [[se pw]|].
       - by apply (new_no_panic _ _ (Some (Some pw)) Hrec) in Ew.
       - by apply (new_no_panic _ _ None Hrec) in Ew. }
  destruct (new_writer _ _ _ _ Hrec Ew) as [Hr0 Hout].
  set (T0 := <[o := File [] a]> (tree w)) in *.
  assert (HO : T0 !! o = Some (File [] a)) by apply lookup_insert_eq.
  assert (W0 : well_formed T0) by (apply well_formed_create; [apply Hs|done]).
  assert (Hsees : sees T0 o a [] w1) by (unfold sees, holding; by rewrite insert_id).
  pose proof (runs_write_archive T0 o a input (metadata options) wr HO W0 Hr0 Hout w1 Hsees) as Hw.
  destruct (write_archive _ _ _ _ _ w1) as [w2 r2]. intros [= <- <-].
  destruct Hw as (Hp & d' & Hd & Hq).
  assert (Ht2 : tree w2 = <[o := File d' a]> (tree w)).
  { rewrite Hd. unfold holding, T0. by rewrite insert_insert_eq. }
  split_and!; [done|right; by exists o, d', a|].
  intros ->. destruct (Hq () eq_refl) as (es & (wr1 & wr2 & sm & Hadd & Hfin & ->) & Hem).
  exists o, a, encryption, es, wr2, sm. split_and!; try done. by exists wr, wr1.
Qed.
End command.
End CreateTheorems.
