(* ===== verification/CreateRoundTrip.v ===== *)
(** * Creating and extracting an archive

    The theorems on the [create] command, and the round trip of the two commands: what
    [extract] writes from an archive that [create] made of a directory is the directory. *)

From stdpp Require Import gmap.
From Stdlib Require Import String.
From S2P Require Import Prelude Errors Limits Flags Cursor Format Lfh Utf8 Crypto Kms Transform Metadata EntryDecode ArchiveReader ArchiveWriter ArchiveRoundTrip WriteRead FileSystem Extract ExtractSafety ExtractTheorems Create CreateSafety CreateTheorems.

Module CreateRoundTrip.
Import Limits FileSystem ExtractSafety Create CreateSafety CreateTheorems.

(** ** Making the output file leaves the input alone *)
Section apart.
Context {H : Host} {R : Directories}.
Context (t : Tree) (o : Loc) (d : list byte) (a : Attr) (src : Loc).
#[local] Abbreviation t0 := (<[o := File d a]> t).
Lemma lookup_apart k : ¬ within src o → within src k → t0 !! k = t !! k.
Proof. intros Ho Hk. apply lookup_insert_ne. by intros ->. Qed.
Lemma lookup_below cs : ¬ within src o → t0 !! (src ++ cs) = t !! (src ++ cs).
Proof. intros Ho. apply lookup_apart; [done|by exists cs]. Qed.
Lemma archivable_apart : archivable t o src → archivable t0 o src.
Proof.
  intros A. pose proof (ar_apart _ _ _ A) as Ho.
  split; try (intros cs; rewrite (lookup_below cs Ho)); [apply A..|done].
Qed.
Lemma emitted_apart options es :
  ¬ within src o → emitted t0 src options (λ _, True) [] src es →
  emitted t src options (λ _, True) [] src es.
Proof.
  intros Ho [H1 H2 H3 H4 H5 H6]. split; [done..| | |].
  - eapply Forall_impl; [exact H4|]. intros e He Hk. destruct (He Hk) as (k & b & Hw & Hf).
    rewrite lookup_apart in Hf by done. eauto.
  - eapply Forall_impl; [exact H5|]. intros e He Hk. destruct (He Hk) as [?|(k & Hk0 & b & Hb)]; [by left|].
    rewrite lookup_below in Hb by done. right. exists k. split; [done|by exists b].
  - intros cs d' b _ Hf. apply (H6 cs d' b); [done|]. by rewrite lookup_below.
Qed.
Lemma takes_file_plain : takes_file t o → ∀ v, t !! o = Some v → ∃ d' a', v = File d' a'.
Proof. by intros []. Qed.
End apart.

(** ** Reading what the writer wrote *)
Section yields.
Context {B : Bitflags} {Comp : Compression.Compressors} {Ciph : Crypto.Ciphers} {K : Kms.Kdfs}.
Context (options : EntryDecode.ArchiveReaderOptions) (kp : option Kms.KeyProvider).
#[local] Abbreviation yields := (ExtractTheorems.yields options kp).

Lemma collected fuel r acc r' ers :
  ArchiveReader.entries_loop false options kp (λ acc e, Ok (acc ++ [e])) fuel r acc = (r', Ok ers) →
  ∃ es, ers = acc ++ es ∧ yields r es.
Proof.
  revert r acc. induction fuel as [|fuel IH]; intros r acc; [done|]. cbn [ArchiveReader.entries_loop].
  destruct (ArchiveReader.next_entry _ _ _ r) as [[[e|] r1]|err|] eqn:En; [|..|done|done].
  - intros (es & -> & Hy)%IH. exists (e :: es). split; [by rewrite <- app_assoc|].
    by eapply ExtractTheorems.yields_entry.
  - intros [= _ <-]. exists []. split; [by rewrite app_nil_r|]. by eapply ExtractTheorems.yields_end.
Qed.
Lemma yields_unique r es es' : yields r es → yields r es' → es = es'.
Proof.
  intros Hy. revert es'. induction Hy as [r r' En|r e r' es En Hy IH]; intros es' Hy';
    inversion Hy' as [? ? E|? ? ? ? E]; subst; rewrite En in E; simplify_eq; [done|].
  f_equal. by apply IH.
Qed.
End yields.

(** ** The settings of the command *)
Section settings.
Context {B : Bitflags} {Comp : Compression.Compressors} {Ciph : Crypto.Ciphers} {K : Kms.Kdfs}.
Context {T : Extract.Terminal} (random_salt : option (list byte)).
Context (salt_fills : ∀ salt, random_salt = Some salt → len salt = 32).

(** [algo_id] and [level] are of type [u8]. *)
Record compression_typed (c : CreateCompression) : Prop := {
  algo_typed : fits 8 (algo_id c);
  level_typed : ∀ v, level c = Some v → fits 8 v }.

Lemma encryption_settings_Ok e pw encryption :
  encryption_settings random_salt e pw = Ok encryption →
  match e with
  | None => encryption = None
  | Some _ => ∃ se p, encryption = Some (se, p) ∧ Extract.load_password pw = Ok p
      ∧ fits 8 (ArchiveWriter.encr_algo se) ∧ WriteRead.params_ok (ArchiveWriter.kms_params se)
  end.
Proof.
  destruct e as [choice|]; cbn [encryption_settings]; [|by intros [= <-]].
  intros (p & Hp & (salt & Hs%ok_or_Ok & [= <-])%bind_Ok)%bind_Ok. eexists _, p.
  split_and!; [done..|by destruct choice|]. apply salt_fills in Hs. cbn. rewrite Hs. by split_and!.
Qed.
Lemma settings_typed options encryption :
  compression_typed (compression options) →
  encryption_settings random_salt (encrypt options) (password options) = Ok encryption →
  let '(o, c, _) := settings_of options encryption in WriteRead.options_typed o c.
Proof.
  intros [Ha Hl] He%encryption_settings_Ok. split; cbn [ArchiveWriter.comp_algo ArchiveWriter.level].
  - done.
  - intros v [Hv _]%Hl. done.
  - unfold writer_options. cbn. destruct (fec options) as [[]|]; intros f [= <-]; repeat split; done.
  - unfold writer_options. cbn. destruct (encrypt options); [|by subst].
    destruct He as (se & p & -> & _ & Ht). by intros e0 [= <-].
Qed.

(** Settings under which directories are read back: a directory has no payload only when it is
    stored as it is. *)
Definition keeps_directories (t : Tree) (src : Loc) (options : CreateCommandOptions) : Prop :=
  algo_id (compression options) = Compression.COMP_ALGO_STORE ∧ encrypt options = None
  ∨ symlink_policy (metadata options) ≠ Follow ∧ ∀ k, k ≠ [] → ¬ is_dir_at t (src ++ k).
Lemma emitted_suits t src options encryption es :
  encryption_settings random_salt (encrypt options) (password options) = Ok encryption →
  keeps_directories t src options →
  emitted t src (metadata options) (λ _, True) [] src es →
  let '(o, c, _) := settings_of options encryption in Forall (WriteRead.suits o c) es.
Proof.
  intros He Hk Hem. cbn. apply Forall_forall. intros e Hin.
  pose proof (em_typed _ _ _ _ _ _ _ Hem) as Ht. pose proof (em_dirs _ _ _ _ _ _ _ Hem) as Hd.
  rewrite Forall_forall in Ht, Hd. destruct (Ht e Hin) as (Hty & Hl & _). split_and!; [done..|].
  intros Hdir. destruct Hk as [[Ha Hn]|[Hf Hn]].
  - apply encryption_settings_Ok in He. rewrite Hn in He. subst. done.
  - destruct (Hd e Hin Hdir) as [?|(k & Hk0 & Hk)]; [done|]. by destruct (Hn k Hk0).
Qed.
End settings.

(** ** The archive, read with limits that admit it *)
Section reading.
Context {B : Bitflags} {L : BitflagsLaws B}.
Context {Comp : Compression.Compressors} {Ciph : Crypto.Ciphers} {K : Kms.Kdfs}.
Context {CompL : Compression.CompressorLaws Comp} {CiphL : Crypto.CipherLaws Ciph}.
Context (random : nat → Z → list byte).
Context (random_fills : ∀ k n, 0 ≤ n → len (random k n) = n).

Definition admitted (limits : ResourceLimits) (es : list EntryInput)
    (wr : ArchiveWriter.ArchiveWriter) : Prop :=
  let options := {| EntryDecode.limits := limits; EntryDecode.delta_base := None |} in
  WriteRead.admits options (ArchiveWriter.header_kms wr) (len es) (len (ArchiveWriter.output wr))
  ∧ ∀ ss tail,
      ArchiveWriter.output wr = Format.enc_gh (ArchiveRoundTrip.writer_header wr)
        ++ concat (ArchiveRoundTrip.chunk <$> ss) ++ tail →
      Forall2 (ArchiveRoundTrip.stored_for wr) es ss →
      Forall2 (WriteRead.entry_admits options) es ss.
Lemma archive_yields kp o c es wr s limits :
  WriteRead.options_typed o c → ArchiveWriter.opt_archive_recovery o = None →
  Forall (WriteRead.suits o c) es → WriteRead.written random kp o c es wr s → admitted limits es wr →
  let options := {| EntryDecode.limits := limits; EntryDecode.delta_base := None |} in
  ∃ r0 h rd ers,
    ArchiveReader.with_options options (ArchiveWriter.output wr) = Ok r0
    ∧ ArchiveReader.read_global_header options r0 = Ok (h, rd)
    ∧ contains (Format.flags h) GlobalFlags.ENCRYPTED
      = bool_decide (is_Some (ArchiveWriter.encryption o))
    ∧ ExtractTheorems.yields options kp rd ers
    ∧ Forall2 (ArchiveRoundTrip.returns (ArchiveWriter.flags wr)) es ers.
Proof.
  intros Ht Hr He Hw [A Ae] options. pose proof (WriteRead.admits_word _ _ _ _ A) as Hword.
  destruct (WriteRead.written_layout random random_fills kp o c es wr s Ht Hr He Hw ltac:(lia)) as
    (w1 & ss & Hl & Hok & Hf & Hk & Hc & _ & _ & _ & _ & _ & Hen).
  destruct (WriteRead.closed_prefix _ _ Hc) as [tail Htail].
  assert (Hh : ArchiveRoundTrip.writer_header w1 = ArchiveRoundTrip.writer_header wr)
    by (unfold ArchiveRoundTrip.writer_header; by rewrite Hf, Hk).
  specialize (Ae ss tail). rewrite Htail, (ArchiveRoundTrip.lay_output _ _ _ _ Hl), Hh in Ae.
  specialize (Ae ltac:(by rewrite <- app_assoc) (WriteRead.layout_stored kp w1 wr es ss Hl Hf)).
  rewrite <- Hk in A.
  destruct (WriteRead.archive_opens options kp w1 es ss _ Hl Hok Hc A) as [Ho Hg].
  destruct (WriteRead.archive_read false options kp w1 es ss _ Hl Hok Hc A Ae) as (ers & Hret & Hloop & _).
  destruct (Hloop _ _ _ _ (WriteRead.collect_entries ers [])) as [r2 Hr2].
  apply collected in Hr2 as (es' & E & Hy). cbn in E. subst es'. rewrite Hf in Hret.
  eexists _, _, _, ers. split_and!; [done..| |done|done].
  cbn [Format.flags ArchiveRoundTrip.writer_header]. by rewrite Hf.
Qed.
(** Limits above the size of the archive admit it. *)
Record roomy (limits : ResourceLimits) (n : Z) : Prop := {
  room_word : n < 2 ^ 63;
  room_archive : max_archive_size limits = 0 ∨ n ≤ max_archive_size limits;
  room_flags : 4 ≤ max_global_flags_bytes limits;
  room_kms : 2 ^ 32 ≤ max_kms_payload_bytes limits;
  room_map : 0 ≤ max_sparse_map_bytes limits;
  room_tlvs : 0 ≤ max_tlv_count limits;
  room_entries : n ≤ max_entry_count limits;
  room_cd : n + 24 ≤ max_cd_bytes limits;
  room_buffer : n + 24 ≤ max_in_memory_buffer limits;
  room_memory : n + 24 ≤ max_total_pipeline_memory limits;
  room_header : n ≤ max_lfh_header_bytes limits;
  room_fec : n ≤ max_fec_value_bytes limits;
  room_path : 2 ^ 16 - 1 ≤ max_path_bytes limits }.
Lemma roomy_admitted kp o c es wr s limits :
  WriteRead.options_typed o c → ArchiveWriter.opt_archive_recovery o = None →
  Forall (WriteRead.suits o c) es → WriteRead.written random kp o c es wr s →
  roomy limits (len (ArchiveWriter.output wr)) →
  Forall (λ e, ArchiveWriter.in_path e = None
     ∧ len (ArchiveWriter.in_payload e) ≤ max_decoded_entry_size limits) es →
  admitted limits es wr.
Proof.
  intros Ht Hr He Hw Rm Hes. pose proof (room_word _ _ Rm) as Hword.
  destruct (WriteRead.written_layout random random_fills kp o c es wr s Ht Hr He Hw ltac:(lia)) as
    (w1 & ss1 & Hl & Hok & Hf & Hk & Hc & _).
  destruct (WriteRead.closed_prefix _ _ Hc) as [tail Htail].
  pose proof (WriteRead.layout_len _ _ _ _ Hl) as Hlen. pose proof (f_equal len Htail) as Hn.
  rewrite len_app in Hn. pose proof (len_nonneg tail). pose proof (len_nonneg es). split.
  - destruct Rm. split; cbn [EntryDecode.limits]; try done; try lia.
    intros k E. rewrite <- Hk in E. pose proof (ArchiveRoundTrip.lay_kms _ _ _ _ Hl k E). lia.
  - intros ss tl Hout Hst. destruct Rm. set (n := len (ArchiveWriter.output wr)) in *.
    apply (WriteRead.small_entries _ wr es ss n Hst); cbn [EntryDecode.limits]; try lia.
    + subst n. rewrite Hout, !len_app. pose proof (len_nonneg tl).
      pose proof (len_nonneg (Format.enc_gh (ArchiveRoundTrip.writer_header wr))). lia.
    + apply Forall_forall. intros e (i & Hi)%list_elem_of_lookup.
      destruct (Forall2_lookup_l _ _ _ _ _ Hst Hi) as (st & _ & Hs).
      rewrite Forall_lookup in Hes. destruct (Hes i e Hi) as [Hp Hd]. split; [|done]. rewrite Hp.
      destruct (WriteRead.entry_header wr e st Hs) as (_ & [[_ H16] _] & _).
      destruct Hs as (_ & _ & _ & Hname & _). cbn [Lfh.normalize Lfh.name] in H16. rewrite Hname in H16.
      cbn. rewrite (@len_nil byte). lia.
Qed.
End reading.

(** ** The command *)
Section create.
Context {B : Bitflags} {Comp : Compression.Compressors} {Ciph : Crypto.Ciphers} {K : Kms.Kdfs}.
Context {H : Host} {R : Directories} {RL : DirectoriesLaws} {T : Extract.Terminal}.
Context (random : nat → Z → list byte) (random_salt : option (list byte)).
Context (random_fills : ∀ k n, 0 ≤ n → len (random k n) = n).

(** (C5) The command returns.  Whatever links the tree has, cycles included, and whichever system
    calls fail, the traversal comes to its end without a panic, and the only change to the
    file system is the output file: every other node is as it was. *)
Theorem create_returns input output options w w' r :
  can_start output (tree w) →
  create_archive random random_salt input output options w = (w', r) →
  r ≠ Panic ∧ only_output output (tree w) (tree w').
Proof.
  intros Hs Hc. destruct (create_cases random random_salt random_fills input output options w w' r Hs Hc)
    as (Hp & Ho & _). done.
Qed.

(** [t'] is [t] with the archive of the directory at [src] in the output file at [o]: the
    archive the writer makes from the entries [es] with the settings of the command. *)
Definition archive_of (options : CreateCommandOptions) (src o : Loc) (es : list EntryInput)
    (wr : ArchiveWriter.ArchiveWriter) (t t' : Tree) : Prop :=
  ∃ encryption summary a,
    encryption_settings random_salt (encrypt options) (password options) = Ok encryption
    ∧ written_by random options encryption es wr summary
    ∧ t' = <[o := File (ArchiveWriter.output wr) a]> t
    ∧ emitted t src (metadata options) (λ _, True) [] src es.
Lemma created_from input output options w w' src o :
  can_start output (tree w) →
  create_archive random random_salt input output options w = (w', Ok ()) →
  resolve (tree w) false input = Ok src → is_dir_at (tree w) src →
  resolve (tree w) true output = Ok o → archivable (tree w) o src →
  ∃ es wr, archive_of options src o es wr (tree w) (tree w').
Proof.
  intros Hs Hc Hsrc Hd Ho A.
  destruct (create_cases random random_salt random_fills input output options w w' _ Hs Hc) as (_ & _ & Hok).
  destruct (Hok eq_refl) as (o' & a & encryption & es & wr & s & He & Ho' & Htake & Ht & Hw & Hem).
  rewrite Ho in Ho'. injection Ho' as <-. exists es, wr, encryption, s, a. split_and!; [done..|].
  pose proof (ar_apart _ _ _ A) as Hap. apply (emitted_apart _ o [] a); [done|].
  apply Hem; [|by apply takes_file_dir|by apply archivable_apart].
  destruct Hd as [b Hb]. apply walk_create; [apply Htake|exact Hsrc|by rewrite Hb].
Qed.

(** (C4) What the command archives.  The directory is one an archive can hold ([archivable]: every
    name below it is a plain UTF-8 component without a backslash, which would be turned into a
    slash; sizes, owners and times are values of their types; the output file is not inside
    the directory).  When the command succeeds on it, the output file holds what the
    archive writer makes, with the settings of the command, of a list of entries: their names
    are distinct relative paths, every regular entry has the content of a file below the
    directory, whether it was found there or through a link, and every file below the directory
    has its entry. *)
Theorem create_archives input output options w w' src o :
  can_start output (tree w) →
  create_archive random random_salt input output options w = (w', Ok ()) →
  resolve (tree w) false input = Ok src → is_dir_at (tree w) src →
  resolve (tree w) true output = Ok o → archivable (tree w) o src →
  ∃ es wr, archive_of options src o es wr (tree w) (tree w').
Proof. apply created_from. Qed.
End create.

(** ** The round trip *)
Section files.
Context {B : Bitflags}.
Lemma distinct_last f (es : list EntryInput) ers i e er :
  Forall2 (ArchiveRoundTrip.returns f) es ers → NoDup (ArchiveWriter.in_name <$> es) →
  es !! i = Some e → ers !! i = Some er → ExtractTheorems.last_of_name ers i er.
Proof.
  intros H2 Hnd Hi Hir j er' Hj Hn.
  destruct (Forall2_lookup_r _ _ _ _ _ H2 Hj) as (e' & Hj' & Hr').
  destruct (Forall2_lookup_lr _ _ _ _ _ _ H2 Hi Hir).
  unfold ExtractTheorems.entry_name in Hn. rewrite (ArchiveRoundTrip.ret_name _ _ _ Hr'), ret_name in Hn.
  assert (j = i) as ->.
  { eapply (NoDup_lookup (ArchiveWriter.in_name <$> es)); [done|by rewrite list_lookup_fmap, Hj'|].
    rewrite list_lookup_fmap, Hi. cbn. by rewrite Hn. }
  split; [done|apply Hr'].
Qed.
Lemma written_file f D e er cs t :
  ArchiveRoundTrip.returns f e er → ArchiveWriter.in_kind e = Some Metadata.RegularFile →
  ArchiveWriter.in_name e = join_names cs → Forall portable cs → cs ≠ [] →
  ExtractTheorems.written D er t →
  ∃ a, t !! (D ++ cs) = Some (File (ArchiveWriter.in_payload e) a).
Proof.
  intros Hr Hk Hn Hp Hne Hw. pose proof (portable_no_slash _ Hp) as Hsl.
  assert (Hj : join_names cs ≠ []).
  { intros E. apply (f_equal (split SLASH)) in E. rewrite split_join_names in E by done. subst cs.
    apply Forall_cons in Hp as [((Hx & _) & _) _]. done. }
  unfold ExtractTheorems.written, ExtractTheorems.entry_name in Hw. destruct Hr.
  rewrite ret_name, Hn, split_join_names, ret_sparse, ret_payload in Hw by done.
  destruct Hw as (n & Hl & d & a & Hc & ->); [|done..|].
  { rewrite ret_kind. unfold ArchiveRoundTrip.kind_seen. rewrite Hk, Hn, (proj2 (Z.eqb_neq _ _)); [done|].
    by destruct (join_names cs). }
  cbn in Hc. subst d. by exists a.
Qed.
End files.

Section round_trip.
Context {B : Bitflags} {L : BitflagsLaws B}.
Context {Comp : Compression.Compressors} {Ciph : Crypto.Ciphers} {K : Kms.Kdfs}.
Context {CompL : Compression.CompressorLaws Comp} {CiphL : Crypto.CipherLaws Ciph}.
(** The system the archive is made on. *)
Context {H1 : Host} {R : Directories} {RL : DirectoriesLaws} {T1 : Extract.Terminal}.
Context (random : nat → Z → list byte) (random_salt : option (list byte)).
Context (random_fills : ∀ k n, 0 ≤ n → len (random k n) = n).
Context (salt_fills : ∀ salt, random_salt = Some salt → len salt = 32).
(** The system it is extracted on. *)
Context {H2 : Host} {A : Extract.OwnerAndTimes} {AL : Extract.OwnerAndTimesLaws} {C : Extract.Crc32} {T2 : Extract.Terminal}.
Context (into_values : gmap Name Extract.PendingDirectoryMetadata → list Extract.PendingDirectoryMetadata).
Context (Hvalues : ∀ m, into_values m ≡ₚ (map_to_list m).*2).

(** An extraction that succeeds has read the entries of the archive in its source. *)
Lemma extract_reads options encryption es wr s limits archive out D pw allow_lossy
    (metadata : Extract.ExtractMetadataOptions) w1 w2 w3 :
  let '(o, c, _) := settings_of options encryption in
  WriteRead.options_typed o c → Forall (WriteRead.suits o c) es →
  written_by random options encryption es wr s → admitted limits es wr →
  EntryDecode.options_ok {| EntryDecode.limits := limits; EntryDecode.delta_base := None |} →
  (∀ sp, encryption = Some sp → Extract.load_password (T := T2) pw = Ok sp.2) →
  create_dir_all (H := H2) out w1 = (w2, Ok ()) → anchored (H := H2) out D (tree w2) →
  (read_file (H := H2) archive w2).2 = Ok (ArchiveWriter.output wr) →
  Extract.extract_archive (H := H2) (T := T2) false into_values archive out pw allow_lossy limits
    metadata w1 = (w3, Ok ()) →
  ∃ f ers, Forall2 (ArchiveRoundTrip.returns f) es ers
    ∧ ∀ i er, ers !! i = Some er → ExtractTheorems.last_of_name ers i er →
        ExtractTheorems.written D er (tree w3).
Proof.
  cbn [settings_of]. intros Ht Hs Hw Ha O Hpw Hd Han Hrd Hx.
  destruct (archive_yields random random_fills _ _ _ es wr s limits Ht eq_refl Hs Hw Ha) as
    (r0 & h & rd & ers & Ho & Hg & Hen & Hy & Hret).
  destruct (ExtractTheorems.extracted out D into_values Hvalues limits O archive pw allow_lossy metadata
    w1 w2 w3 Hd Han Hx) as (source & h' & rd' & kp' & ers' & Hsrc & (r0' & Ho' & Hg' & Hk) & Hy' & Hwr).
  rewrite Hrd in Hsrc. injection Hsrc as <-. rewrite Ho in Ho'. injection Ho' as <-.
  rewrite Hg in Hg'. injection Hg' as <- <-. rewrite Hen in Hk.
  assert (kp' = (λ sp, Extract.CliKeyProvider (Some sp.2)) <$> encryption) as ->.
  { destruct encryption as [sp|]; cbn in Hk |- *; [|done].
    destruct Hk as (p & Hp & ->). rewrite (Hpw sp eq_refl) in Hp. by injection Hp as ->. }
  rewrite (yields_unique _ _ _ _ _ Hy' Hy) in Hwr. eauto.
Qed.

(** (C3) The round trip of the two commands.  The directory is one an archive can hold ([archivable]:
    every name below it is a plain UTF-8 component without a backslash, sizes, owners and times
    are values of their types, and the output file is not inside the directory), and its
    directories survive the settings ([keeps_directories]: either nothing is compressed or
    encrypted, or the directory has no subdirectories and links are not followed; with
    subdirectories and compression or encryption [create] makes an archive that is refused,
    [WriteRead.encrypted_directory_refused]).  Then, when [create] succeeds, with any
    error correction, index and metadata settings, the output file holds an archive such that
    [extract], on this or another system, with limits that admit the archive and, if it is
    encrypted, the same password, recreates the files: when it succeeds, every file of the
    input directory is found under the same relative path below the output directory, with
    the same bytes. *)
Theorem create_extract_roundtrip input output options w w' src o :
  compression_typed (compression options) →
  can_start (H := H1) output (tree w) →
  create_archive (H := H1) (T := T1) random random_salt input output options w = (w', Ok ()) →
  resolve (H := H1) (tree w) false input = Ok src → is_dir_at (tree w) src →
  resolve (H := H1) (tree w) true output = Ok o →
  archivable (tree w) o src → keeps_directories (tree w) src options →
  ∃ es wr, archive_of (T := T1) random random_salt options src o es wr (tree w) (tree w')
    ∧ ∀ limits archive out D pw allow_lossy (metadata : Extract.ExtractMetadataOptions) w1 w2 w3,
        EntryDecode.options_ok {| EntryDecode.limits := limits; EntryDecode.delta_base := None |} →
        admitted limits es wr →
        (is_Some (encrypt options) →
         Extract.load_password (T := T2) pw = Extract.load_password (T := T1) (password options)) →
        create_dir_all (H := H2) out w1 = (w2, Ok ()) → anchored (H := H2) out D (tree w2) →
        (read_file (H := H2) archive w2).2 = Ok (ArchiveWriter.output wr) →
        Extract.extract_archive (H := H2) (T := T2) false into_values archive out pw allow_lossy limits
          metadata w1 = (w3, Ok ()) →
        ∀ cs d b, tree w !! (src ++ cs) = Some (File d b) →
          ∃ b', tree w3 !! (D ++ cs) = Some (File d b').
Proof.
  intros Hct Hs Hc Hsrc Hdir Ho Har Hkeep.
  destruct (created_from random random_salt random_fills input output options w w' src o Hs Hc Hsrc Hdir Ho Har)
    as (es & wr & Hof). exists es, wr. split; [done|]. destruct Hof as (encryption & s & a & He & Hw & _ & Hem).
  intros limits archive out D pw allow_lossy metadata w1 w2 w3 O Ha Hpw Hd Han Hrd Hx cs d b Hf.
  destruct (extract_reads options encryption es wr s limits archive out D pw allow_lossy metadata w1 w2 w3
    (settings_typed random_salt salt_fills options encryption Hct He)
    (emitted_suits random_salt salt_fills _ _ options encryption es He Hkeep Hem) Hw Ha O) as
    (f & ers & Hret & Hwr); [|done..|].
  { intros sp ->. apply (encryption_settings_Ok random_salt salt_fills) in He.
    destruct (encrypt options); [|done]. destruct He as (se & p & [= ->] & Hp & _). by rewrite Hpw. }
  destruct (em_all _ _ _ _ _ _ _ Hem cs d b I Hf) as (e & (i & Hi)%list_elem_of_lookup & Hk & Hn & <-).
  destruct (Forall2_lookup_l _ _ _ _ _ Hret Hi) as (er & Hir & Hr).
  cbn [app] in Hn. apply (written_file f D e er cs); try done.
  - by apply (ar_names _ _ _ Har cs _ Hf).
  - intros ->. rewrite app_nil_r in Hf. destruct Hdir. congruence.
  - apply (Hwr i); [done|]. eapply distinct_last; [done| |done..]. apply Hem.
Qed.
End round_trip.

(** ** Witnesses

    A directory with a file, a subdirectory with a file, and a link to the subdirectory; and
    one with a link to itself. *)
Section witnesses.
#[local] Existing Instance bitwise.
#[local] Existing Instance bitwise_laws.
#[local] Existing Instances Transform.marked_compressors Transform.shift_ciphers EntryDecode.zero_kdfs
  ExtractTheorems.demo_host ExtractTheorems.demo_owner ExtractTheorems.demo_owner_laws
  ExtractTheorems.demo_crc ExtractTheorems.demo_terminal.
#[local] Abbreviation demo_attr := ExtractTheorems.demo_attr.
#[local] Instance demo_directories : Directories := {|
  dir_order := λ _ ns, ns; link_owner := λ _, (0, 0); kept_times := λ _ _, (1, 2, 3) |}.
#[local] Instance demo_directories_laws : DirectoriesLaws.
Proof. by split. Qed.

(** *** Deciding the hypotheses on a tree *)
#[local] Instance plain_dec c : Decision (plain c).
Proof. unfold plain. apply _. Defined.
#[local] Instance portable_dec c : Decision (portable c).
Proof. unfold portable. apply _. Defined.
Definition is_dir_node (n : option Node) : bool := match n with Some (Dir _) => true | _ => false end.
Lemma well_formed_check t :
  map_Forall (λ k _, Forall plain k ∧ (k = [] ∨ is_dir_node (t !! removelast k) = true)) t →
  well_formed t.
Proof.
  intros Hc. split; [by intros k n [Hp _]%Hc|]. intros k x n [_ [Hk|Hk]]%Hc; [by destruct k|].
  rewrite removelast_last in Hk. destruct (t !! k) as [[a| |]|] eqn:E; try done. by exists a.
Qed.
Definition node_fits (n : Node) : bool :=
  match n with
  | Dir a => (0 <=? uid a) && (0 <=? gid a) && bool_decide (times a = None)
  | File d a => (len d <? 2 ^ 63) && (0 <=? uid a) && (0 <=? gid a) && bool_decide (times a = None)
  | Link g => len g <? 2 ^ 63
  end.
Lemma archivable_check t o src :
  map_Forall (λ k n, (take (length src) k = src → Forall portable (drop (length src) k))
                     ∧ node_fits n = true) t →
  take (length src) o ≠ src → archivable t o src.
Proof.
  intros Hc Ho.
  assert (Hs : ∀ cs, take (length src) (src ++ cs) = src) by (intros cs; by rewrite take_app_length).
  split.
  - intros cs n [Hp _]%Hc. specialize (Hp (Hs cs)). by rewrite drop_app_length in Hp.
  - intros cs d a [_ Hn]%Hc. cbn in Hn. rewrite !andb_true_iff in Hn. lia.
  - intros cs g [_ Hn]%Hc. cbn in Hn. lia.
  - intros cs n [_ Hn]%Hc. destruct n; cbn in Hn |- *; rewrite ?andb_true_iff in Hn; lia.
  - intros cs n k m a c [_ Hn]%Hc. destruct n as [b|d b|g]; cbn in Hn |- *; rewrite ?andb_true_iff in Hn;
      [destruct Hn as [_ ->%bool_decide_eq_true]|destruct Hn as [_ ->%bool_decide_eq_true]|]; intros [= <- <- <-]; lia.
  - intros [cs ->]. by rewrite Hs in Ho.
Qed.

Definition demo_source : Tree :=
  <[[] := Dir demo_attr]> (<[[bytes "in"] := Dir demo_attr]>
  (<[[bytes "in"; bytes "z"] := File [x01; x02] demo_attr]> (<[[bytes "in"; bytes "b"] := Dir demo_attr]>
  (<[[bytes "in"; bytes "b"; bytes "c"] := File [x03] demo_attr]>
  (<[[bytes "in"; bytes "l"] := Link (bytes "b")]> (<[[bytes "out"] := Dir demo_attr]> ∅)))))).
Definition demo_cycle : Tree := <[[bytes "in"; bytes "l"] := Link (bytes ".")]> demo_source.
Definition demo_settings (policy : SymlinkCreatePolicy) : CreateCommandOptions := {|
  no_index := false; compression := {| algo_id := Compression.COMP_ALGO_STORE; level := None |};
  encrypt := None; password := None; fec := Some Rs;
  metadata := {| preserve_permissions := true; preserve_owner := true; preserve_times := true;
                 symlink_policy := policy |} |}.
Definition demo_create (policy : SymlinkCreatePolicy) (t : Tree) : World * result SarError.t unit :=
  create_archive WriteRead.sample_random (Some (zeros 32)) (path_of (bytes "in")) (path_of (bytes "o.sar"))
    (demo_settings policy) {| tree := t; calls := 0 |}.
Lemma sample_random_fills k n : 0 ≤ n → len (WriteRead.sample_random k n) = n.
Proof. intros Hn. unfold len, WriteRead.sample_random. rewrite length_replicate. lia. Qed.
Lemma demo_salt_fills salt : Some (zeros 32) = Some salt → len salt = 32.
Proof. by intros [= <-]. Qed.
Lemma demo_source_starts : can_start (path_of (bytes "o.sar")) demo_source.
Proof.
  split; [|split; [exists demo_attr; by vm_compute|apply path_of_ok]].
  apply well_formed_check. apply (bool_decide_unpack _). vm_compute. exact I.
Qed.
Lemma demo_cycle_starts : can_start (path_of (bytes "o.sar")) demo_cycle.
Proof.
  split; [|split; [exists demo_attr; by vm_compute|apply path_of_ok]].
  apply well_formed_check. apply (bool_decide_unpack _). vm_compute. exact I.
Qed.
Lemma demo_source_archivable : archivable demo_source [bytes "o.sar"] [bytes "in"].
Proof. apply archivable_check; [apply (bool_decide_unpack _); vm_compute; exact I|by vm_compute]. Qed.
Lemma demo_source_dir : is_dir_at demo_source [bytes "in"].
Proof. exists demo_attr. by vm_compute. Qed.

(** The cycle is found and refused, and only the output file is new. *)
Lemma create_returns_witness :
  only_output (path_of (bytes "o.sar")) demo_cycle (tree (demo_create Follow demo_cycle).1)
  ∧ (demo_create Follow demo_cycle).2
    = Err (SarError.Malformed "refusing to follow recursive symlink directory cycle").
Proof.
  split; [|vm_compute; reflexivity].
  apply (create_returns WriteRead.sample_random (Some (zeros 32)) sample_random_fills
    (path_of (bytes "in")) (path_of (bytes "o.sar")) (demo_settings Follow)
    {| tree := demo_cycle; calls := 0 |} _ (demo_create Follow demo_cycle).2 demo_cycle_starts).
  exact (surjective_pairing _).
Defined.
Lemma demo_create_runs policy :
  create_archive WriteRead.sample_random (Some (zeros 32)) (path_of (bytes "in")) (path_of (bytes "o.sar"))
    (demo_settings policy) {| tree := demo_source; calls := 0 |}
  = ((demo_create policy demo_source).1, Ok ()).
Proof.
  assert (E : (demo_create policy demo_source).2 = Ok ()) by (destruct policy; vm_compute; reflexivity).
  rewrite <- E. exact (surjective_pairing _).
Qed.
(** Following the link, the file behind it is archived under both names. *)
Lemma create_archives_witness :
  ∃ es wr, archive_of WriteRead.sample_random (Some (zeros 32)) (demo_settings Follow) [bytes "in"]
    [bytes "o.sar"] es wr demo_source (tree (demo_create Follow demo_source).1).
Proof.
  apply (create_archives WriteRead.sample_random (Some (zeros 32)) sample_random_fills
    (path_of (bytes "in")) (path_of (bytes "o.sar")) (demo_settings Follow)
    {| tree := demo_source; calls := 0 |} _ [bytes "in"] [bytes "o.sar"]
    demo_source_starts (demo_create_runs Follow)).
  - vm_compute. reflexivity.
  - exact demo_source_dir.
  - vm_compute. reflexivity.
  - exact demo_source_archivable.
Defined.

(** Limits of 1 MiB of everything. *)
Definition demo_limits : ResourceLimits := {|
  max_archive_size := 2 ^ 20; max_entry_count := 2 ^ 20; max_lfh_header_bytes := 2 ^ 20;
  max_path_bytes := 2 ^ 20; max_global_flags_bytes := 2 ^ 20; max_kms_payload_bytes := 2 ^ 32;
  max_tlv_bytes := 2 ^ 20; max_tlv_count := 2 ^ 20; max_cd_bytes := 2 ^ 20;
  max_decoded_entry_size := ISIZE_MAX; max_in_memory_buffer := 2 ^ 20;
  max_total_pipeline_memory := 2 ^ 20; max_sparse_map_bytes := 2 ^ 20;
  max_sparse_descriptors := 2 ^ 20; max_fragment_count := 2 ^ 20; max_fragment_group_span := 2 ^ 20;
  max_loss_tolerant_gap := 2 ^ 20; max_active_streams := 2 ^ 20; max_session_metadata_bytes := 2 ^ 20;
  max_session_status_message_bytes := 2 ^ 20; max_session_fragment_buffer_bytes := 2 ^ 20;
  max_session_memory_bytes := 2 ^ 20; max_fec_value_bytes := 2 ^ 20;
  max_recovery_protected_range := 2 ^ 20; max_repair_working_set := 2 ^ 20;
  max_cdc_chunk_count := 2 ^ 20; max_cdc_metadata_bytes := 2 ^ 20; max_bsdiff_control_bytes := 2 ^ 20;
  max_bsdiff_diff_bytes := 2 ^ 20; max_bsdiff_extra_bytes := 2 ^ 20; max_bsdiff_control_triples := 2 ^ 20;
  max_vcdiff_window_count := 2 ^ 20; max_vcdiff_instruction_count := 2 ^ 20;
  max_vcdiff_output_size := 0; use_runtime_memory_budget := false |}.
Definition demo_extract (policy : SymlinkCreatePolicy) : World * result SarError.t unit :=
  Extract.extract_archive false ExtractTheorems.demo_values (path_of (bytes "o.sar"))
    ExtractTheorems.demo_out None false demo_limits ExtractTheorems.demo_metadata
    (demo_create policy demo_source).1.
Lemma demo_extract_runs :
  Extract.extract_archive false ExtractTheorems.demo_values (path_of (bytes "o.sar"))
    ExtractTheorems.demo_out None false demo_limits ExtractTheorems.demo_metadata
    (demo_create Skip demo_source).1 = ((demo_extract Skip).1, Ok ()).
Proof.
  assert (E : (demo_extract Skip).2 = Ok ()) by (vm_compute; reflexivity).
  rewrite <- E. exact (surjective_pairing _).
Qed.
Lemma demo_out_made :
  create_dir_all ExtractTheorems.demo_out (demo_create Skip demo_source).1
  = ((create_dir_all ExtractTheorems.demo_out (demo_create Skip demo_source).1).1, Ok ()).
Proof.
  assert (E : (create_dir_all ExtractTheorems.demo_out (demo_create Skip demo_source).1).2 = Ok ())
    by (vm_compute; reflexivity).
  rewrite <- E. exact (surjective_pairing _).
Qed.
Lemma demo_out_anchored :
  anchored ExtractTheorems.demo_out [bytes "out"]
    (tree (create_dir_all ExtractTheorems.demo_out (demo_create Skip demo_source).1).1).
Proof. apply ExtractTheorems.demo_anchored; exists demo_attr; vm_compute; reflexivity. Qed.
Lemma demo_limits_ok :
  EntryDecode.options_ok {| EntryDecode.limits := demo_limits; EntryDecode.delta_base := None |}.
Proof. split; [by vm_compute|by vm_compute|done]. Qed.
Lemma demo_keeps : keeps_directories demo_source [bytes "in"] (demo_settings Skip).
Proof. by left. Qed.
Lemma demo_compression : compression_typed (compression (demo_settings Skip)).
Proof. by split. Qed.
Definition demo_bytes : list byte :=
  match tree (demo_create Skip demo_source).1 !! [bytes "o.sar"] with
  | Some (File d _) => d
  | _ => []
  end.
Lemma demo_bytes_written :
  tree (demo_create Skip demo_source).1 !! [bytes "o.sar"] = Some (File demo_bytes demo_attr).
Proof. vm_compute. reflexivity. Qed.
Lemma demo_roomy : roomy demo_limits (len demo_bytes).
Proof. split; try (vm_compute; congruence). right. vm_compute. congruence. Qed.
Lemma output_bytes (t t' : Tree) k d d' a a' :
  t' !! k = Some (File d a) → t' = <[k := File d' a']> t → d = d'.
Proof. intros Hk ->. rewrite lookup_insert_eq in Hk. by injection Hk. Qed.
Lemma demo_admitted es wr :
  archive_of WriteRead.sample_random (Some (zeros 32)) (demo_settings Skip) [bytes "in"]
    [bytes "o.sar"] es wr demo_source (tree (demo_create Skip demo_source).1) →
  admitted demo_limits es wr
  ∧ (read_file (path_of (bytes "o.sar"))
      (create_dir_all ExtractTheorems.demo_out (demo_create Skip demo_source).1).1).2
    = Ok (ArchiveWriter.output wr).
Proof.
  intros (encryption & s & a & He & Hw & Ht & Hem).
  pose proof (output_bytes _ _ _ _ _ _ _ demo_bytes_written Ht) as Eb. clear Ht. split.
  - apply (roomy_admitted WriteRead.sample_random sample_random_fills _ _ _ es wr s demo_limits
      (settings_typed (Some (zeros 32)) demo_salt_fills (demo_settings Skip) encryption demo_compression He)
      eq_refl (emitted_suits (Some (zeros 32)) demo_salt_fills _ _ (demo_settings Skip) encryption es He
        demo_keeps Hem) Hw).
    + rewrite <- Eb. exact demo_roomy.
    + eapply Forall_impl; [apply (em_typed _ _ _ _ _ _ _ Hem)|]. intros e (_ & Hl & Hp).
      split; [done|]. unfold demo_limits, ISIZE_MAX. cbn [max_decoded_entry_size]. lia.
  - rewrite <- Eb. vm_compute. reflexivity.
Qed.
Lemma create_extract_roundtrip_witness :
  ∃ b, tree (demo_extract Skip).1 !! [bytes "out"; bytes "b"; bytes "c"] = Some (File [x03] b).
Proof.
  destruct (create_extract_roundtrip WriteRead.sample_random (Some (zeros 32)) sample_random_fills
    demo_salt_fills ExtractTheorems.demo_values (λ m, reflexivity _) (path_of (bytes "in"))
    (path_of (bytes "o.sar")) (demo_settings Skip) {| tree := demo_source; calls := 0 |}
    (demo_create Skip demo_source).1 [bytes "in"] [bytes "o.sar"] demo_compression demo_source_starts
    (demo_create_runs Skip) ltac:(vm_compute; reflexivity) demo_source_dir ltac:(vm_compute; reflexivity)
    demo_source_archivable demo_keeps) as (es & wr & Hof & Hx).
  destruct (demo_admitted es wr Hof) as [Ha Hr].
  refine (Hx demo_limits (path_of (bytes "o.sar")) ExtractTheorems.demo_out [bytes "out"] None false
    ExtractTheorems.demo_metadata (demo_create Skip demo_source).1 _ (demo_extract Skip).1 demo_limits_ok
    Ha (λ _, eq_refl) demo_out_made demo_out_anchored Hr demo_extract_runs
    [bytes "b"; bytes "c"] [x03] demo_attr _).
  vm_compute. reflexivity.
Defined.

(** *** Concrete runs

    A link that leaves the input directory is refused when links are followed. *)
Definition demo_run (input output : string) (policy : SymlinkCreatePolicy) (t : Tree)
    : World * result SarError.t unit :=
  create_archive WriteRead.sample_random (Some (zeros 32)) (path_of (bytes input)) (path_of (bytes output))
    (demo_settings policy) {| tree := t; calls := 0 |}.
Example link_outside_refused :
  (demo_run "in/b" "o.sar" Follow
     (<[[bytes "in"; bytes "b"; bytes "up"] := Link (bytes "../z")]> demo_source)).2
  = Err (SarError.Malformed "refusing to follow symlink target outside the requested input root").
Proof. vm_compute. reflexivity. Qed.
(** The output file is made before the input is read: when both are one file its content is
    lost, and what is archived with success is an empty file. *)
Example input_overwritten :
  demo_source !! [bytes "in"; bytes "z"] = Some (File [x01; x02] demo_attr)
  ∧ (demo_run "in/z" "in/z" Skip demo_source).2 = Ok ()
  ∧ tree (demo_run "in/z" "in/z" Skip demo_source).1 !! [bytes "in"; bytes "z"]
    = tree (demo_run "in/z" "o.sar" Skip
             (<[[bytes "in"; bytes "z"] := File [] demo_attr]> demo_source)).1 !! [bytes "o.sar"].
Proof. vm_compute. split_and!; reflexivity. Qed.
End witnesses.
End CreateRoundTrip.
