(* ===== verification/Args.v ===== *)
(** * The command line

    Models [crates/sar-cli/src/args.rs] and the dispatch of [crates/sar-cli/src/main.rs]: the
    shorthand forms ([-c], [-x], [-t], [-v], [-V]), the choice of the compression, the resource
    limits, and which command an invocation calls with which arguments.  The parser of the crate
    [clap] behind the other invocations is a parameter.  Arguments are UTF-8 strings
    ([env::args]); a path is made of one by [path_of]. *)

From stdpp Require Import gmap.
From Stdlib Require Import String.
From S2P Require Import Prelude Errors Limits Crypto Transform FileSystem Extract Create.

Module Args.
Import Limits FileSystem Create.

(** ** Limits *)
Record LimitArgs := {
  arg_archive_size : option Z; arg_decoded_entry_size : option Z; arg_in_memory_buffer : option Z;
  arg_total_pipeline_memory : option Z; arg_sparse_map_bytes : option Z;
  arg_sparse_descriptors : option Z; arg_fragment_count : option Z;
  arg_fragment_group_span : option Z; arg_loss_tolerant_gap : option Z;
  arg_recovery_protected_range : option Z; arg_repair_working_set : option Z }.
Definition resource_limits (a : LimitArgs) : ResourceLimits :=
  let d := default_limits in {|
  max_archive_size := default (max_archive_size d) (arg_archive_size a);
  max_entry_count := max_entry_count d;
  max_lfh_header_bytes := max_lfh_header_bytes d;
  max_path_bytes := max_path_bytes d;
  max_global_flags_bytes := max_global_flags_bytes d;
  max_kms_payload_bytes := max_kms_payload_bytes d;
  max_tlv_bytes := max_tlv_bytes d;
  max_tlv_count := max_tlv_count d;
  max_cd_bytes := max_cd_bytes d;
  max_decoded_entry_size := default (max_decoded_entry_size d) (arg_decoded_entry_size a);
  max_in_memory_buffer := default (max_in_memory_buffer d) (arg_in_memory_buffer a);
  max_total_pipeline_memory := default (max_total_pipeline_memory d) (arg_total_pipeline_memory a);
  max_sparse_map_bytes := default (max_sparse_map_bytes d) (arg_sparse_map_bytes a);
  max_sparse_descriptors := default (max_sparse_descriptors d) (arg_sparse_descriptors a);
  max_fragment_count := default (max_fragment_count d) (arg_fragment_count a);
  max_fragment_group_span := default (max_fragment_group_span d) (arg_fragment_group_span a);
  max_loss_tolerant_gap := default (max_loss_tolerant_gap d) (arg_loss_tolerant_gap a);
  max_active_streams := max_active_streams d;
  max_session_metadata_bytes := max_session_metadata_bytes d;
  max_session_status_message_bytes := max_session_status_message_bytes d;
  max_session_fragment_buffer_bytes := max_session_fragment_buffer_bytes d;
  max_session_memory_bytes := max_session_memory_bytes d;
  max_fec_value_bytes := max_fec_value_bytes d;
  max_recovery_protected_range :=
    default (max_recovery_protected_range d) (arg_recovery_protected_range a);
  max_repair_working_set := default (max_repair_working_set d) (arg_repair_working_set a);
  max_cdc_chunk_count := max_cdc_chunk_count d;
  max_cdc_metadata_bytes := max_cdc_metadata_bytes d;
  max_bsdiff_control_bytes := max_bsdiff_control_bytes d;
  max_bsdiff_diff_bytes := max_bsdiff_diff_bytes d;
  max_bsdiff_extra_bytes := max_bsdiff_extra_bytes d;
  max_bsdiff_control_triples := max_bsdiff_control_triples d;
  max_vcdiff_window_count := max_vcdiff_window_count d;
  max_vcdiff_instruction_count := max_vcdiff_instruction_count d;
  max_vcdiff_output_size := max_vcdiff_output_size d;
  use_runtime_memory_budget := use_runtime_memory_budget d |}.

(** ** Commands *)
Inductive CompressionChoice : Set := Store | Deflate | Zstd.
#[global] Instance compression_choice_eq_dec : EqDecision CompressionChoice.
Proof. solve_decision. Defined.
Inductive Command :=
  | Create_ (input output : Path) (indexed no_index : bool) (compression : option CompressionChoice)
      (zstd deflate store : bool) (compression_level : option Z) (encrypt : option EncryptionChoice)
      (password : option (list byte)) (fec : option FecChoice)
      (preserve_permissions preserve_owner preserve_times : bool) (symlinks : SymlinkCreatePolicy)
  | Extract_ (archive output_dir : Path) (password : option (list byte)) (allow_lossy : bool)
      (preserve_permissions preserve_times preserve_owner allow_symlinks : bool) (limits : LimitArgs)
  | List_ (archive : Path) (metadata : bool)
  | Verify (archive : Path) (password : option (list byte)) (recovery cdc : bool) (limits : LimitArgs)
  | Inspect_ (archive : Path) (json : bool)
  | Repair (archive output : Path) (fec : bool) (erasures : option Path) (limits : LimitArgs)
  | Version.
Inductive ShorthandCommand :=
  | ShCreate (input output : Path) (options : CreateCommandOptions)
  | ShExtract (archive output_dir : Path) (metadata : Extract.ExtractMetadataOptions)
  | ShList (archive : Path)
  | ShVerify (archive : Path)
  | ShVersion.
Inductive ParsedInvocation :=
  | Shorthand (command : ShorthandCommand)
  | Standard (command : Command).

(** ** The compression *)
Definition compression_to_algo_id (c : CompressionChoice) : Z :=
  match c with
  | Store => Compression.COMP_ALGO_STORE
  | Deflate => Compression.COMP_ALGO_DEFLATE
  | Zstd => Compression.COMP_ALGO_ZSTD
  end.
Definition resolve_create_compression (compression : option CompressionChoice)
    (zstd deflate store : bool) (compression_level : option Z) : result SarError.t CreateCompression :=
  let selected := match compression with Some explicit => [explicit] | None => [] end
    ++ (if zstd then [Zstd] else []) ++ (if deflate then [Deflate] else [])
    ++ (if store then [Store] else []) in
  match selected with
  | [] => Ok {| algo_id := Compression.COMP_ALGO_STORE; level := None |}
  | first :: _ =>
      if existsb (λ value, negb (bool_decide (value = first))) selected
      then Err (SarError.Malformed
             "conflicting compression selectors; choose one of --compression/-Z/-z/-S")
      else Ok {| algo_id := compression_to_algo_id first; level := compression_level |}
  end.

(** ** The shorthand forms *)
Definition DASH : byte := x2d.
Definition given (args : list (list byte)) (flag : list byte) : bool :=
  existsb (λ arg, bool_decide (arg = flag)) args.
Definition dashed (arg : list byte) : bool :=
  match arg with b :: _ => bool_decide (b = DASH) | [] => false end.
(** The digit of an argument [-0] to [-9]: two bytes, hence two characters. *)
Definition level_digit (arg : list byte) : option Z :=
  match arg with
  | [b; c] =>
      if bool_decide (b = DASH) && (48 <=? byte_val c) && (byte_val c <=? 57)
      then Some (byte_val c - 48) else None
  | _ => None
  end.
Definition parse_level_shorthand (args : list (list byte)) : result SarError.t (option Z) :=
  let levels := omap level_digit args in
  if 1 <? len levels
  then Err (SarError.Malformed "multiple compression levels specified; choose one of -0..-9")
  else Ok (head levels).
Definition normalize_level_shorthand (args : list (list byte)) : list (list byte) :=
  (λ arg, match level_digit arg with
          | Some _ => bytes "--compression-level=" ++ drop 1 arg
          | None => arg
          end) <$> args.
(** [args.get(idx + 1)] behind the first occurrence. *)
Fixpoint value_after_flag (args : list (list byte)) (flag : list byte) : result SarError.t Path :=
  match args with
  | [] => Err (SarError.Malformed "required shorthand flag missing")
  | arg :: args =>
      if bool_decide (arg = flag)
      then match args with
           | value :: _ => Ok (path_of value)
           | [] => Err (SarError.Malformed "flag value missing")
           end
      else value_after_flag args flag
  end.
Definition algo_flags : list (list byte * CompressionChoice) :=
  [(bytes "-S", Store); (bytes "-z", Deflate); (bytes "-Z", Zstd)].
Definition resolve_shorthand_compression (args : list (list byte)) : result SarError.t CreateCompression :=
  let selected := omap (λ fv, if given args fv.1 then Some fv.2 else None) algo_flags in
  if 1 <? len selected
  then Err (SarError.Malformed "ambiguous compression shorthand: choose one of -S/-z/-Z") else
  level ← parse_level_shorthand args;
  Ok {| algo_id := compression_to_algo_id (default Store (head selected)); level := level |}.
Definition mode_flags : list (list byte) := [bytes "-c"; bytes "-x"; bytes "-t"; bytes "-v"].
Definition shorthand_metadata : CreateMetadataOptions := {|
  preserve_permissions := false; preserve_owner := false; preserve_times := false;
  symlink_policy := Skip |}.
Definition default_extract_metadata : Extract.ExtractMetadataOptions := {|
  Extract.preserve_permissions := false; Extract.preserve_times := false;
  Extract.preserve_owner := false; Extract.allow_symlinks := false |}.
Definition parse_shorthand_mode (args : list (list byte)) (mode : list byte)
    : result SarError.t (option ShorthandCommand) :=
  if bool_decide (mode = bytes "-c") then
    input ← ok_or (path_of <$> List.find (λ arg, negb (dashed arg)) (drop 1 args))
              (SarError.Malformed "-c requires <input>");
    output ← value_after_flag args (bytes "-f");
    compression ← resolve_shorthand_compression args;
    Ok (Some (ShCreate input output {|
      no_index := false; compression := compression; encrypt := None; password := None; fec := None;
      metadata := shorthand_metadata |}))
  else if bool_decide (mode = bytes "-x") then
    archive ← value_after_flag args (bytes "-f");
    output_dir ← value_after_flag args (bytes "-C");
    Ok (Some (ShExtract archive output_dir default_extract_metadata))
  else if bool_decide (mode = bytes "-t") then
    archive ← value_after_flag args (bytes "-f"); Ok (Some (ShList archive))
  else if bool_decide (mode = bytes "-v") then
    archive ← value_after_flag args (bytes "-f"); Ok (Some (ShVerify archive))
  else Ok None.
Definition try_parse_shorthand (args : list (list byte)) : result SarError.t (option ShorthandCommand) :=
  if len args <=? 1 then Ok None else
  if given args (bytes "-V") then Ok (Some ShVersion) else
  match filter (λ flag, given args flag = true) mode_flags with
  | [] => Ok None
  | [mode] => parse_shorthand_mode args mode
  | _ => Err (SarError.Malformed "ambiguous shorthand: provide only one of -c/-x/-t/-v")
  end.

(** ** Invocation and dispatch *)
Section invocation.
(** [Cli::parse_from]: the subcommand, if there is one. *)
Context (parse_from : list (list byte) → option Command).
Definition parse_invocation (args : list (list byte)) : result SarError.t ParsedInvocation :=
  shorthand ← try_parse_shorthand args;
  match shorthand with
  | Some shorthand => Ok (Shorthand shorthand)
  | None => Ok (Standard (default Version (parse_from (normalize_level_shorthand args))))
  end.

(** The function of [commands] that is called, with its arguments. *)
Inductive Call :=
  | create_archive (input output : Path) (options : CreateCommandOptions)
  | extract_archive (archive output_dir : Path) (password : option (list byte)) (allow_lossy : bool)
      (limits : ResourceLimits) (metadata : Extract.ExtractMetadataOptions)
  | list_archive (archive : Path) (metadata : bool)
  | verify_archive (archive : Path) (password : option (list byte)) (recovery cdc : bool)
      (limits : ResourceLimits)
  | inspect_archive (archive : Path) (json : bool)
  | repair_cmd (archive output : Path) (fec : bool) (erasures : option Path) (limits : ResourceLimits)
  | print_version.
Definition dispatch_shorthand (command : ShorthandCommand) : Call :=
  match command with
  | ShCreate input output options => create_archive input output options
  | ShExtract archive output_dir metadata =>
      extract_archive archive output_dir None false default_limits metadata
  | ShList archive => list_archive archive false
  | ShVerify archive => verify_archive archive None false false default_limits
  | ShVersion => print_version
  end.
Definition dispatch_command (command : Command) : result SarError.t Call :=
  match command with
  | Create_ input output indexed no_index compression zstd deflate store compression_level encrypt
      password fec preserve_permissions preserve_owner preserve_times symlinks =>
      if indexed && no_index
      then Err (SarError.Malformed "--indexed and --no-index cannot be used together") else
      compression ← resolve_create_compression compression zstd deflate store compression_level;
      Ok (create_archive input output {|
        Create.no_index := no_index && negb indexed; Create.compression := compression;
        Create.encrypt := encrypt; Create.password := password; Create.fec := fec;
        Create.metadata := {|
          Create.preserve_permissions := preserve_permissions; Create.preserve_owner := preserve_owner;
          Create.preserve_times := preserve_times; symlink_policy := symlinks |} |})
  | Extract_ archive output_dir password allow_lossy preserve_permissions preserve_times
      preserve_owner allow_symlinks limits =>
      Ok (extract_archive archive output_dir password allow_lossy (resource_limits limits) {|
        Extract.preserve_permissions := preserve_permissions;
        Extract.preserve_times := preserve_times; Extract.preserve_owner := preserve_owner;
        Extract.allow_symlinks := allow_symlinks |})
  | List_ archive metadata => Ok (list_archive archive metadata)
  | Verify archive password recovery cdc limits =>
      Ok (verify_archive archive password recovery cdc (resource_limits limits))
  | Inspect_ archive json => Ok (inspect_archive archive json)
  | Repair archive output fec erasures limits =>
      Ok (repair_cmd archive output fec erasures (resource_limits limits))
  | Version => Ok print_version
  end.
Definition run (argsv : list (list byte)) : result SarError.t Call :=
  invocation ← parse_invocation argsv;
  match invocation with
  | Shorthand sh => Ok (dispatch_shorthand sh)
  | Standard cmd => dispatch_command cmd
  end.
End invocation.

(** ** The flags of a command line *)
Lemma given_flags args f : dashed f = true → given args f = given (List.filter dashed args) f.
Proof.
  intros Hf. unfold given. induction args as [|a args IH]; [done|]. cbn [existsb List.filter].
  destruct (dashed a) eqn:Ea; cbn [existsb]; [by rewrite IH|].
  rewrite bool_decide_eq_false_2 by (intros ->; congruence). exact IH.
Qed.
Lemma level_digit_dashed a v : level_digit a = Some v → dashed a = true.
Proof.
  destruct a as [|b [|c [|? a]]]; cbn; try done. by destruct (bool_decide (b = DASH)).
Qed.
Lemma levels_flags args : omap level_digit args = omap level_digit (List.filter dashed args).
Proof.
  induction args as [|a args IH]; [done|]. cbn [List.filter omap list_omap].
  destruct (dashed a) eqn:Ea; cbn [omap list_omap]; [by rewrite IH|].
  destruct (level_digit a) eqn:El; [|exact IH]. apply level_digit_dashed in El. congruence.
Qed.
Lemma modes_flags args :
  filter (λ flag, given args flag = true) mode_flags
  = filter (λ flag, given (List.filter dashed args) flag = true) mode_flags.
Proof.
  unfold mode_flags. cbn [filter list_filter].
  rewrite (given_flags args (bytes "-c")), (given_flags args (bytes "-x")), (given_flags args (bytes "-t")),
    (given_flags args (bytes "-v")) by done. done.
Qed.
Lemma compression_flags args :
  resolve_shorthand_compression args = resolve_shorthand_compression (List.filter dashed args).
Proof.
  unfold resolve_shorthand_compression, parse_level_shorthand, algo_flags. rewrite <- levels_flags.
  cbn [omap list_omap fst snd].
  rewrite (given_flags args (bytes "-S")), (given_flags args (bytes "-z")), (given_flags args (bytes "-Z")) by done.
  done.
Qed.
Lemma shorthand_by_flags args mode :
  1 < len args → given (List.filter dashed args) (bytes "-V") = false →
  filter (λ flag, given (List.filter dashed args) flag = true) mode_flags = [mode] →
  try_parse_shorthand args = parse_shorthand_mode args mode.
Proof.
  intros Hl Hv Hm. unfold try_parse_shorthand. rewrite (proj2 (Z.leb_gt _ _)) by done.
  by rewrite (given_flags args (bytes "-V")), Hv, modes_flags, Hm.
Qed.
Lemma value_skip a args flag : a ≠ flag → value_after_flag (a :: args) flag = value_after_flag args flag.
Proof. intros Ha. cbn [value_after_flag]. by rewrite bool_decide_eq_false_2. Qed.
Lemma value_here flag v args : value_after_flag (flag :: v :: args) flag = Ok (path_of v).
Proof. cbn [value_after_flag]. by rewrite bool_decide_eq_true_2. Qed.

(** *** The order of the arguments *)
Lemma given_perm args args' f : args ≡ₚ args' → given args f = given args' f.
Proof.
  intros Hp. unfold given. apply eq_bool_prop_intro. rewrite !Is_true_true, !existsb_exists.
  by setoid_rewrite <- list_elem_of_In; setoid_rewrite Hp.
Qed.
Lemma shorthand_by_perm args args' mode :
  args ≡ₚ args' → 1 < len args' → given args' (bytes "-V") = false →
  filter (λ flag, given args' flag = true) mode_flags = [mode] →
  try_parse_shorthand args = parse_shorthand_mode args mode.
Proof.
  intros Hp Hl Hv Hm. unfold try_parse_shorthand.
  replace (len args) with (len args') by (unfold len; by rewrite Hp).
  rewrite (proj2 (Z.leb_gt _ _)) by done. rewrite (given_perm args args' _ Hp), Hv.
  rewrite (list_filter_iff _ (λ flag, given args' flag = true)), Hm; [done|].
  intros flag. by rewrite (given_perm args args' _ Hp).
Qed.
(** At most one level: its place does not matter. *)
Lemma compression_perm args args' :
  args ≡ₚ args' → len (omap level_digit args') ≤ 1 →
  resolve_shorthand_compression args = resolve_shorthand_compression args'.
Proof.
  intros Hp Hl. assert (Heq : omap level_digit args = omap level_digit args').
  { pose proof (omap_Permutation level_digit _ _ Hp) as Ho.
    destruct (omap level_digit args') as [|v [|w l]]; [by apply Permutation_nil_r in Ho
      |by apply Permutation_singleton_r in Ho|].
    rewrite !len_cons in Hl. pose proof (len_nonneg l). lia. }
  unfold resolve_shorthand_compression, parse_level_shorthand, algo_flags. rewrite Heq.
  cbn [omap list_omap fst snd]. by rewrite !(given_perm args args' _ Hp).
Qed.
(** The value behind a flag, wherever the pair stands. *)
Lemma value_in_group gs flag v :
  [flag; v] ∈ gs → Forall (λ g, g = [flag; v] ∨ flag ∉ g) gs →
  value_after_flag (concat gs) flag = Ok (path_of v).
Proof.
  intros Hin Hall. induction Hall as [|g gs Hg _ IH]; [by apply not_elem_of_nil in Hin|].
  destruct (decide (g = [flag; v])) as [->|Hne]; [apply value_here|].
  destruct Hg as [|Hg]; [done|]. apply elem_of_cons in Hin as [|Hin]; [congruence|].
  cbn [concat]. induction g as [|a g IHg]; [by apply IH|]. cbn [app].
  apply not_elem_of_cons in Hg as [Ha Hg].
  rewrite value_skip by congruence. destruct (decide (g = [flag; v])) as [->|Hd]; [|by apply IHg].
  exfalso. apply Hg. left.
Qed.
(** The first argument without a dash. *)
Lemma find_input a b input :
  dashed input = false → Forall (λ g, g = [input] ∨ Forall (λ w, dashed w = true) g) a →
  List.find (λ arg, negb (dashed arg)) (concat (a ++ [input] :: b)) = Some input.
Proof.
  intros Hi Ha. induction Ha as [|g a Hg _ IH]; [cbn; by rewrite Hi|]. cbn [app concat].
  destruct Hg as [->|Hg]; [cbn; by rewrite Hi|].
  induction Hg as [|w g Hw _ IHg]; [exact IH|]. cbn [app List.find]. by rewrite Hw.
Qed.

(** ** Writing a command line and parsing it

    What a user writes: the mode, the input or archive, the output, and for [-c] a
    compression and a level; a value follows its flag, and otherwise the parts may stand in
    any order. *)
Inductive Line :=
  | LineCreate (input output : list byte) (choice : option CompressionChoice) (level : option Z)
  | LineExtract (archive output_dir : list byte)
  | LineList (archive : list byte)
  | LineVerify (archive : list byte)
  | LineVersion.
Definition choice_flag (c : CompressionChoice) : list byte :=
  match c with Store => bytes "-S" | Deflate => bytes "-z" | Zstd => bytes "-Z" end.
Definition level_flag (v : Z) : list byte := [DASH; byte_of (48 + v)].
Definition parts (l : Line) : list (list (list byte)) :=
  match l with
  | LineCreate input output choice level =>
      [[bytes "-c"]; [input]; [bytes "-f"; output]]
        ++ option_list ((λ c, [choice_flag c]) <$> choice)
        ++ option_list ((λ v, [level_flag v]) <$> level)
  | LineExtract archive output_dir => [[bytes "-x"]; [bytes "-f"; archive]; [bytes "-C"; output_dir]]
  | LineList archive => [[bytes "-t"]; [bytes "-f"; archive]]
  | LineVerify archive => [[bytes "-v"]; [bytes "-f"; archive]]
  | LineVersion => [[bytes "-V"]]
  end.
(** The parts of a line in the order they are written.  The parser takes the first argument
    without a dash for the input, so the input must stand before [-f] and its value. *)
Definition arranged (l : Line) (gs : list (list (list byte))) : Prop :=
  gs ≡ₚ parts l
  ∧ match l with
    | LineCreate input output _ _ =>
        ∃ a b, gs = a ++ [input] :: b ∧ [bytes "-f"; output] ∉ a
    | _ => True
    end.
Definition meaning (l : Line) : ShorthandCommand :=
  match l with
  | LineCreate input output choice level => ShCreate (path_of input) (path_of output) {|
      no_index := false;
      compression := {| algo_id := compression_to_algo_id (default Store choice); Create.level := level |};
      encrypt := None; password := None; fec := None; metadata := shorthand_metadata |}
  | LineExtract archive output_dir => ShExtract (path_of archive) (path_of output_dir) default_extract_metadata
  | LineList archive => ShList (path_of archive)
  | LineVerify archive => ShVerify (path_of archive)
  | LineVersion => ShVersion
  end.
(** Paths do not start with a dash, and the level has one digit. *)
Definition line_ok (l : Line) : Prop :=
  match l with
  | LineCreate input output _ level =>
      dashed input = false ∧ dashed output = false ∧ from_option (λ v, 0 ≤ v ≤ 9) True level
  | LineExtract archive output_dir => dashed archive = false ∧ dashed output_dir = false
  | LineList archive | LineVerify archive => dashed archive = false
  | LineVersion => True
  end.
Lemma undashed_ne a flag : dashed a = false → dashed flag = true → a ≠ flag.
Proof. intros Ha Hf ->. congruence. Qed.
Lemma digits v : 0 ≤ v ≤ 9 → v ∈ [0; 1; 2; 3; 4; 5; 6; 7; 8; 9].
Proof. intros Hv. rewrite !elem_of_cons. lia. Qed.
Lemma parts_option {A} (f : A → list byte) o g :
  g ∈ option_list ((λ x, [f x]) <$> o) → ∃ x, o = Some x ∧ g = [f x].
Proof. destruct o as [x|]; cbn; [|by intros ?%not_elem_of_nil]. intros ->%list_elem_of_singleton. by exists x. Qed.
Lemma choice_flag_dashed c : dashed (choice_flag c) = true ∧ choice_flag c ≠ bytes "-f".
Proof. by destruct c. Qed.
Lemma level_flag_dashed v : 0 ≤ v ≤ 9 → dashed (level_flag v) = true ∧ level_flag v ≠ bytes "-f".
Proof.
  intros Hv%digits. rewrite !elem_of_cons in Hv.
  by destruct Hv as [->|[->|[->|[->|[->|[->|[->|[->|[->|[->|[]%not_elem_of_nil]]]]]]]]]].
Qed.
(** The parts of a [-c] line: the pair [-f output], or no [-f]; the input, or only dashes. *)
Lemma create_parts input output choice level g :
  line_ok (LineCreate input output choice level) → g ∈ parts (LineCreate input output choice level) →
  g = [bytes "-f"; output] ∨ ((bytes "-f" ∉ g) ∧ (g = [input] ∨ Forall (λ w, dashed w = true) g)).
Proof.
  intros (Hi & Ho & Hv) Hg. cbn [parts] in Hg.
  rewrite !elem_of_app, !elem_of_cons in Hg. destruct Hg as [[->|[->|[->|[]%not_elem_of_nil]]]|[Hg|Hg]].
  - right. split; [by intros E%list_elem_of_singleton|]. right. by repeat constructor.
  - right. split; [|by left]. intros E%list_elem_of_singleton. by apply (undashed_ne input (bytes "-f")).
  - by left.
  - apply parts_option in Hg as (c & -> & ->). destruct (choice_flag_dashed c) as [Hd Hn]. right.
    split; [intros E%list_elem_of_singleton; congruence|]. right. by repeat constructor.
  - apply parts_option in Hg as (v & -> & ->). destruct (level_flag_dashed v Hv) as [Hd Hn]. right.
    split; [intros E%list_elem_of_singleton; congruence|]. right. by repeat constructor.
Qed.
(** The flags of a [-c] line, in the order of [parts]. *)
Lemma create_flags program input output choice level :
  let args := program :: concat (parts (LineCreate input output choice level)) in
  dashed program = false → line_ok (LineCreate input output choice level) →
  given args (bytes "-V") = false
  ∧ filter (λ flag, given args flag = true) mode_flags = [bytes "-c"]
  ∧ len (omap level_digit args) ≤ 1
  ∧ resolve_shorthand_compression args
    = Ok {| algo_id := compression_to_algo_id (default Store choice); Create.level := level |}.
Proof.
  intros args Hp (Hi & Ho & Hv).
  set (tl := option_list (choice_flag <$> choice) ++ option_list (level_flag <$> level)).
  assert (Hfl : List.filter dashed args = bytes "-c" :: bytes "-f" :: tl).
  { subst args tl. destruct choice as [[]|], level; cbn -[bytes]; rewrite Hp, Hi, Ho; done. }
  rewrite (given_flags args (bytes "-V")), modes_flags, levels_flags, compression_flags, Hfl by done.
  clear Hfl args. subst tl. destruct level as [v|].
  - apply digits in Hv. rewrite !elem_of_cons in Hv.
    destruct Hv as [->|[->|[->|[->|[->|[->|[->|[->|[->|[->|[]%not_elem_of_nil]]]]]]]]]];
      by destruct choice as [[]|]; vm_compute.
  - by destruct choice as [[]|]; vm_compute.
Qed.
Lemma create_line_parsed program input output choice level gs :
  dashed program = false → line_ok (LineCreate input output choice level) →
  arranged (LineCreate input output choice level) gs →
  try_parse_shorthand (program :: concat gs)
  = Ok (Some (meaning (LineCreate input output choice level))).
Proof.
  intros Hp Hl (Hperm & a & b & Hgs & Hout). pose proof Hl as (Hi & Ho & _).
  destruct (create_flags program input output choice level Hp Hl) as (H1 & H2 & H3 & H4).
  set (args := program :: concat (parts _)) in *.
  assert (Hargs : program :: concat gs ≡ₚ args) by (subst args; by rewrite Hperm).
  rewrite (shorthand_by_perm _ args (bytes "-c") Hargs) by
    first [done | subst args; cbn [parts app concat]; rewrite !len_cons; pose proof (len_nonneg
      (concat (option_list ((λ c, [choice_flag c]) <$> choice)
        ++ option_list ((λ v, [level_flag v]) <$> level)))); lia].
  assert (Hall : Forall (λ g, g = [bytes "-f"; output] ∨ ((bytes "-f" ∉ g)
      ∧ (g = [input] ∨ Forall (λ w, dashed w = true) g))) gs).
  { apply Forall_forall. intros g Hg. eapply create_parts; [done|]. by rewrite <- Hperm. }
  unfold parse_shorthand_mode. rewrite bool_decide_eq_true_2 by done.
  rewrite (compression_perm _ args Hargs H3), H4. cbn [drop]. rewrite drop_0.
  rewrite value_skip by by apply undashed_ne.
  rewrite (value_in_group gs (bytes "-f") output).
  - rewrite Hgs, find_input; [done|done|]. rewrite Hgs, Forall_app in Hall. destruct Hall as [Ha _].
    rewrite Forall_forall in Ha |- *. intros g Hg. destruct (Ha g Hg) as [->|[_ Hd]]; [done|done].
  - rewrite Hperm. cbn [parts app]. do 2 right. left.
  - eapply Forall_impl; [exact Hall|]. naive_solver.
Qed.

(** A line with [-f archive], and perhaps another pair. *)
Lemma archive_line_parsed program l gs mode :
  dashed program = false → gs ≡ₚ parts l →
  (let args := List.filter dashed (program :: concat (parts l)) in
   given args (bytes "-V") = false ∧ filter (λ flag, given args flag = true) mode_flags = [mode]) →
  1 < len (program :: concat (parts l)) →
  try_parse_shorthand (program :: concat gs) = parse_shorthand_mode (program :: concat gs) mode.
Proof.
  intros Hp Hperm [H1 H2] Hl.
  apply (shorthand_by_perm _ (program :: concat (parts l))); [by rewrite Hperm|done| |].
  - by rewrite (given_flags _ (bytes "-V")).
  - by rewrite modes_flags.
Qed.
(** The value of a pair in such a line. *)
Lemma pair_value program l gs flag v :
  dashed program = false → dashed flag = true → gs ≡ₚ parts l → [flag; v] ∈ parts l →
  Forall (λ g, g = [flag; v] ∨ flag ∉ g) (parts l) →
  value_after_flag (program :: concat gs) flag = Ok (path_of v).
Proof.
  intros Hp Hf Hperm Hin Hall. rewrite value_skip by by apply undashed_ne.
  apply value_in_group; by rewrite Hperm.
Qed.

(** Every other part is free of the flag. *)
Ltac pair_parts :=
  repeat apply Forall_cons_2; try apply Forall_nil_2;
  first [ by left
        | right; rewrite ?not_elem_of_cons; split_and!;
          first [ by apply not_elem_of_nil | done | by apply not_eq_sym, undashed_ne ] ].

(** (C38) The shorthand forms are parsed as they are written: for a program name and paths that do
    not start with a dash, any compression and a one-digit level, and the parts of the line (the
    mode, the input, [-f] with its value, [-C] with its value, the compression, the level)
    in any order, except that the input of [-c] stands before [-f], the parser returns the
    command the line stands for. *)
Theorem shorthand_parse_print program l gs :
  dashed program = false → line_ok l → arranged l gs →
  try_parse_shorthand (program :: concat gs) = Ok (Some (meaning l)).
Proof.
  intros Hp. destruct l as [i o c v|a d|a|a|]; [by apply create_line_parsed|..]; cbn [line_ok].
  - intros [Ha Hd] [Hperm _].
    rewrite (archive_line_parsed program _ gs (bytes "-x") Hp Hperm);
      [|cbn [parts concat app List.filter]; by rewrite Hp, Ha, Hd|done].
    unfold parse_shorthand_mode. rewrite bool_decide_eq_false_2, bool_decide_eq_true_2 by done.
    rewrite (pair_value program _ gs (bytes "-f") a Hp eq_refl Hperm),
      (pair_value program _ gs (bytes "-C") d Hp eq_refl Hperm); [done|..]; cbn [parts].
    + do 2 right. left.
    + pair_parts.
    + right. left.
    + pair_parts.
  - intros Ha [Hperm _]. rewrite (archive_line_parsed program _ gs (bytes "-t") Hp Hperm);
      [|cbn [parts concat app List.filter]; by rewrite Hp, Ha|done].
    unfold parse_shorthand_mode. do 2 rewrite bool_decide_eq_false_2 by done.
    rewrite bool_decide_eq_true_2, (pair_value program _ gs (bytes "-f") a Hp eq_refl Hperm);
      [done|right; left|cbn [parts]; pair_parts|done].
  - intros Ha [Hperm _]. rewrite (archive_line_parsed program _ gs (bytes "-v") Hp Hperm);
      [|cbn [parts concat app List.filter]; by rewrite Hp, Ha|done].
    unfold parse_shorthand_mode. do 3 rewrite bool_decide_eq_false_2 by done.
    rewrite bool_decide_eq_true_2, (pair_value program _ gs (bytes "-f") a Hp eq_refl Hperm);
      [done|right; left|cbn [parts]; pair_parts|done].
  - intros _ [Hperm _]. apply Permutation_singleton_r in Hperm as ->. cbn [concat app].
    unfold try_parse_shorthand, given. cbn [existsb].
    rewrite (proj2 (Z.leb_gt _ _)) by done. by rewrite bool_decide_eq_false_2 by (by apply undashed_ne).
Qed.
Lemma shorthand_parse_print_witness :
  try_parse_shorthand [bytes "sar"; bytes "-Z"; bytes "in"; bytes "-9"; bytes "-f"; bytes "o.sar"; bytes "-c"]
  = Ok (Some (meaning (LineCreate (bytes "in") (bytes "o.sar") (Some Zstd) (Some 9)))).
Proof.
  apply (shorthand_parse_print (bytes "sar") (LineCreate (bytes "in") (bytes "o.sar") (Some Zstd) (Some 9))
    [[bytes "-Z"]; [bytes "in"]; [bytes "-9"]; [bytes "-f"; bytes "o.sar"]; [bytes "-c"]]);
    [reflexivity|cbn; split_and!; [reflexivity|reflexivity|lia..]|].
  split.
  - apply (bool_decide_unpack _). vm_compute. reflexivity.
  - exists [[bytes "-Z"]], [[bytes "-9"]; [bytes "-f"; bytes "o.sar"]; [bytes "-c"]].
    split; [reflexivity|]. apply (bool_decide_unpack _). vm_compute. reflexivity.
Defined.

(** With [-f] before the input the archive is taken for the input, and the input is ignored. *)
Lemma output_taken_as_input program input output :
  dashed program = false → dashed input = false → dashed output = false →
  try_parse_shorthand [program; bytes "-c"; bytes "-f"; output; input]
  = Ok (Some (meaning (LineCreate output output None None))).
Proof.
  intros Hp Hi Ho.
  assert (Hfl : List.filter dashed [program; bytes "-c"; bytes "-f"; output; input]
                = [bytes "-c"; bytes "-f"]) by (cbn [List.filter]; by rewrite Hp, Hi, Ho).
  rewrite (shorthand_by_flags _ (bytes "-c")) by (by rewrite ?Hfl).
  unfold parse_shorthand_mode. rewrite bool_decide_eq_true_2 by done. rewrite compression_flags.
  cbn [List.filter]. rewrite Hp, Hi, Ho. cbn [drop List.find]. rewrite Ho.
  rewrite !value_skip, value_here by (done || by apply undashed_ne). done.
Qed.
End Args.
